(* ===== verification/_CoqProject ===== *)
-Q . S2P
Prelude.v
MarkWord.v
CompressedStream.v
BitMap.v
AltHashing.v
HashTable.v
ObjectTable.v
Ng2cTables.v
StaticAnalysis.v
ThreadContext.v
MergeOp.v
JavaHeap.v
Ideal.v
BlockOffset.v
GenRegions.v
Tlab.v
HeapAlloc.v
C2Alloc.v
GenAnno.v
Predictions.v
CSetChooser.v
Evacuation.v
TaskQueue.v
Plab.v
GcRegions.v
PlabEvacuation.v
DivNode.v
SatbQueue.v
ConcMark.v
ConcMarkFacts.v
ConcMarkControl.v
ConcMarkCycle.v
ConcMarkDemo.v
