(* ===== verification/Prelude.v ===== *)
(** * A verification of ROLP: the object-lifetime profiler of an NG2C/HotSpot VM

    The repository is HotSpot (JDK 8) with NG2C, a G1 collector that
    allocates into up to 16 dynamic generations, and ROLP, a profiler that
    learns in which generation the objects of an allocation site belong.
    Paths below are relative to [src/src/share/vm/].

    ** The program and how its parts interact

    - Compiled code and the interpreter allocate through [CollectedHeap]
      ([gc_interface/]). An allocation site has a 16-bit identifier from
      [StaticAnalysis] ([ng2c/ng2c_static_analysis.cpp]), the thread a calling
      context ([runtime/thread.cpp], [opto/doCall.cpp]). The table of
      allocation sites ([ng2c/method_bci_hashtable.cpp]) gives the target
      generation for site and context; both become a 32-bit tag in the header
      of the new object ([oops/markOop.hpp]). Programs can also choose a
      generation by annotation ([interpreter/interpreterRuntime.cpp]) or by
      the [JVM_*AllocGen] calls.
    - The object goes into the thread's TLAB for the generation
      ([memory/threadLocalAllocBuffer.cpp]), which is refilled from the active
      region of the generation ([gc_implementation/g1/g1AllocRegion],
      [heapRegion], [g1CollectedHeap]). Retired regions are made walkable with
      filler objects and hand over their cards.
    - A collection evacuates regions. Each worker that copies a survivor ages
      its header and counts it under its tag ([ng2c/promotion_counter.cpp]).
      Old regions are chosen by predicted cost ([collectionSetChooser],
      [g1CollectorPolicy]).
    - Afterwards the VM operation [NG2C_MergeAllocCounters]
      ([ng2c/vm_operations_ng2c.cpp]) merges the workers' counters, analyses
      the survival curve of each site and sets target generations, or expands
      a site by calling context on a conflict.
    - Concurrent marking ([gc_implementation/g1/concurrentMark]) finds the
      live objects of the old regions while the program runs. The write
      barrier logs overwritten references ([ptrQueue], [satbQueue]), so that
      everything reachable when marking started is found. The live bytes it
      counts are what the choice of old regions rests on.

    ** Files

    - [Prelude]: machine integers ([u32], [i32], ...), the helpers of
      [utilities/globalDefinitions.hpp], bit fields, lists, sums, address
      ranges, the hint database [vm] and the notations of [vm_scope].
    - [MarkWord] (Module [MarkOop]): [markOopDesc]; each accessor is the
      expression of the source on the 64-bit word.
    - [AltHashing] ([AltHash], [Murmur3], [AltHashFacts]):
      [classfile/altHashing.cpp] and a reference murmur3.
    - [HashTable] ([Hashtable], [HashtableFacts]): [utilities/hashtable.cpp]
      with entries linked by pointers in a C heap.
    - [ObjectTable]: tables that own the objects they point to, over the
      interface [CHeap] with the laws [CHeapOk] and an instance ([BumpHeap]).
    - [Ng2cTables] ([NGen], [Promo], [MethodBciHashtable],
      [PromotionCounters] and their facts): the profile data.
    - [StaticAnalysis] ([CString], [StaticAnalysis], [FileFormat],
      [StaticAnalysisFacts]): site identifiers and the parser of the file.
    - [ThreadContext]: the calling context of a thread as a step relation
      over calls and returns, and its recomputation from the stack.
    - [MergeOp] ([CurveAnalysis], [MergeOp], [CurveFacts], [MergeFacts],
      [DoitFacts]): the merge operation and the counting of survivors.
    - [JavaHeap]: memory, layout helpers, object sizes, filler objects
      ([oops/klass.hpp], [oops/oop.inline.hpp], [gc_interface/collectedHeap.cpp]).
    - [Ideal]: the ideal nodes of the C2 compiler that the development uses
      ([opto/]) and their evaluation over raw memory.
    - [BlockOffset]: [g1BlockOffsetTable.cpp].
    - [GenRegions] ([HeapRegions], [AllocRegion], [RegionFacts],
      [ParAllocate]): regions and the allocation regions of the generations;
      what distinguishes kinds of allocation region is the class
      [AllocRegionKind]. [ParAllocate] is the lock-free bump as a step relation.
    - [Tlab] ([Tlab], [TlabFacts], [CardHandoff]): TLABs, the TLABs of a
      thread, and the hand-over of a retired region's cards as a step
      relation over single memory accesses.
    - [HeapAlloc] ([HeapAlloc], [HeapAllocFacts]): object allocation, TLAB
      refill and the [JVM_*AllocGen] entry points: the composition of the
      tables, the context, the TLABs and the regions.
    - [C2Alloc] ([C2Alloc], [C2Facts]): the nodes that [opto/macro.cpp] emits
      for an allocation and [opto/doCall.cpp] around a call.
    - [GenAnno]: assembling, decoding and caching [@Gen] annotations.
    - [Predictions] ([Double], [NumberSeqs], [Predictors] and facts):
      [utilities/numberSeq.cpp] and the pause-time predictors, on IEEE doubles.
    - [CSetChooser] ([CSetChooser], [CSetChooserFacts], [SortSpec],
      [FillFacts]): filling and sorting the candidates and choosing old regions
      for mixed collections and migrations. [qsort] is the class [QSort] with
      the law [QSortSpec], implemented by [InsertionSort].
    - [Evacuation] ([AgeTable], [Evacuation] and facts): the concurrent
      evacuation as a step relation, the age table and the tenuring threshold.
    - [TaskQueue] ([TaskQueue], [Terminator] and facts): the work-stealing
      queues of [utilities/taskqueue.hpp] and the termination protocol of the
      workers ([taskqueue.cpp], [G1ParEvacuateFollowersClosure]), as step
      relations.
    - [Plab] ([GcUtil], [Plab], [G1Plab], [PlabFacts]): the promotion buffers
      of the workers ([shared/parGCAllocBuffer], [g1CollectedHeap.hpp]), their
      statistics and sizes. What they need of the heap is the class
      [RegionAllocator] with the laws [RegionAllocatorLaws].
    - [GcRegions] ([GcRegions], [GcRegionsFacts]): the survivor and old regions
      of a pause ([g1CollectedHeap.cpp]), an [AllocRegionKind] and the instance
      of [RegionAllocator] and its laws.
    - [PlabEvacuation] ([PlabEvacuation], [PlabEvacuationFacts]): evacuation
      with these buffers and regions as its allocator, and its simulation of
      [Evacuation], where an allocator only promises unused addresses.
    - [DivNode]: int and long division by constants in C2 ([opto/divnode.cpp]).
    - [CompressedStream]: the variable-length integers of compiled-code
      metadata ([code/compressedStream.cpp]).
    - [BitMap] ([BitMap], [BitMapFacts], [BitMapDemo]): [utilities/bitMap],
      with the compare-and-exchange of [par_set_bit] as a step relation.
    - [SatbQueue] ([SatbQueue], [SharedQueue], [SatbQueueFacts], [SatbLog]):
      the log of the write barrier, per thread and for native threads.
    - [ConcMark]: the marking cycle. A state has the bitmap, the mark stack,
      the global finger, the overflow barriers, the tasks ([CMTask]) with a
      program counter per level of [do_marking_step], the log and the heap;
      [step_task], [step_mutator] and [next_phase] are its transitions and
      [cm_step] their union.
    - [ConcMarkFacts]: the tri-colour invariant [inv] and its preservation.
    - [ConcMarkControl]: the invariant [ctl] of the phases, the overflow
      barriers and remark.
    - [ConcMarkCycle], [ConcMarkDemo]: the theorems about whole cycles, and
      two cycles that run: one in which a mutator deletes a reference, one
      that overflows the mark stack.

    The modules called [...Demo] hold the concrete inputs of the witnesses.

    ** State and faults

    Stateful code is explicit state passing: a C++ object is a record, the C
    heap and the Java heap are finite maps from addresses, and a fault
    (invalid address, index out of range, read of memory never written,
    failed [guarantee]) is [None] of the option monad. A theorem that
    concludes [op ... = Some ...] therefore also says that the operation does
    not fault. Concurrent code is an [Inductive] step relation with one step
    per shared memory access and theorems about [rtc]. Integers are [Z] with
    the conversions of the source written out; floats are [SpecFloat] numbers.
    Assertions are compiled out in the product build and are not part of the
    definitions.

    ** What the theorems show

    - Profile tables: the pointer-based tables refine finite maps with
      get-or-create, counting changes one counter, expansion keeps targets.
    - Identifiers: murmur3 refines its reference, identifiers depend on names
      only, a printed analysis file is parsed back, lookups in a loaded file
      give its identifiers, the context is the sum over the call path.
    - Profiling cycle: allocation tags the header and counts the allocation;
      a survivor is counted once; the merge loses no count; one run of the VM
      operation keeps all invariants and never faults; the curve analysis
      reports exactly the gapped curves.
    - Headers: the tag survives aging and locking bits, and where tag and
      identity hash overlap.
    - Allocation: blocks are disjoint and inside the region in every
      interleaving, the block offset table finds every object, filling keeps
      memory walkable, TLABs are well formed at all times, refill and
      retirement do what they should, sizes are within bounds.
    - Hand-over of cards: it always happens (under sequential consistency),
      and which races remain.
    - Collection: the chooser holds exactly the candidates in order however
      the workers fill it, mixed collections and migrations choose what they
      should and end; the task queues are linearizable double-ended queues
      and the workers stop only when no reference is left; evacuation forwards
      each object once, updates all references alike and accounts each copy
      once, and its forwarding is wait-free; the tenuring threshold respects the desired survivor
      size.
    - Memory for copies: the promotion buffers and regions hand out disjoint
      unused blocks in every interleaving, so evacuation with them refines the
      one above; they never fault, fail only without memory (given a waste
      percentage that leaves room for the reserve), and their statistics are
      exact up to the alignment reserve.
    - Compiled code: the allocation code and the context updates that C2 emits
      do to memory what the runtime does; division by a constant is replaced
      by nodes with the Java quotient or remainder, and the types of results
      are sound.
    - Bit maps refine finite sets and their queries those of sets; bits set
      and cleared concurrently are counted exactly. Compressed integers are
      read back as written.
    - Marking: the log loses no reference that marking needs; when a cycle
      completes, every object of the snapshot is marked, in every
      interleaving of tasks and mutators and across overflows and restarts;
      the reset after an overflow excludes all other work; the bytes and
      cards counted for a region are those of the marked objects.
    - Defects of the code are theorems and lemmas of the same kind: the oldest
      survivors are ignored, annotations overwritten, uninitialized memory
      walked, unchecked generation indices.

    ** Fuel

    Loops that are not structural take fuel, and the callers supply enough:
    bucket loops get one more than the number of entries in the C heap (the
    buckets are acyclic); the block offset loops get the card index or the
    byte distance they must still cover, which every turn decreases; the
    heap walks get the length of the range; the file parser the length of the
    file; the choice of old regions the number of candidates; the search for
    a multiplier twice the word size, since the shift stays below it;
    [log2_intptr] 65, one more than the bits of a word; a search inside a
    word 64; the logging of a reference two turns, since a buffer that is not
    enqueued has room and a new one is empty; the filter of the log the length
    of the buffer; the union of the counted cards one more than their number.
    Running out of fuel is a fault, and the theorems show that it does not
    happen.

    ** Not modelled

    - The optimizer of C2 besides division, the wiring of the emitted nodes
      into the graph, C1, Shark, the template interpreter and the CPU and OS
      layers: assembly generation, for which a semantics of the target would
      be needed.
    - The scan of copied objects, remembered sets and their refinement,
      heap expansion, humongous allocation, full collections and the young
      part of the collector policy: large parts of G1 that ROLP leaves unchanged. Their results appear as
      data (live bytes, remembered-set lengths) or as arguments (allocation in
      eden, a collection).
    - Of marking: the initial-mark pause (a cycle starts with its result),
      evacuation pauses and changes of the regions during a cycle, the abort
      by a full collection, reference processing and the cleanup pause.
      [offer_termination] answers freely, and the [guarantee]s after it are
      part of the steps; that cycles always complete is not claimed.
    - Other collectors, class loading besides annotations, JVMTI, services,
      tracing, the serviceability agent and the build tools: not used by the
      profiler.
    - Printing, performance counters and the verification code that is
      compiled only into debug builds. *)

From stdpp Require Export prelude gmap list fin_maps.
From Stdlib Require Export ZArith Lia.

#[export] Set Default Goal Selector "!".
#[export] Set Warnings "-clear-no-such-hyp".

Declare Scope vm_scope.
Delimit Scope vm_scope with vm.
#[global] Open Scope Z_scope.


(** * Machine integers

    A [w]-bit unsigned integer is a [Z] in [[0, 2^w)]; [uN] is the
    conversion of an arbitrary integer to that range (C++ unsigned
    conversion), [iN] the two's complement conversion to a signed type. *)

Definition u8 (z : Z) : Z := Z.land z 0xFF.
Definition u16 (z : Z) : Z := Z.land z 0xFFFF.
Definition u32 (z : Z) : Z := Z.land z 0xFFFFFFFF.
Definition u64 (z : Z) : Z := Z.land z 0xFFFFFFFFFFFFFFFF.

Definition i8 (z : Z) : Z := u8 (z + 0x80) - 0x80.
Definition i32 (z : Z) : Z := u32 (z + 0x80000000) - 0x80000000.
Definition i64 (z : Z) : Z := u64 (z + 0x8000000000000000) - 0x8000000000000000.

Definition in_u16 (z : Z) : Prop := 0 <= z < 2 ^ 16.
Definition in_u32 (z : Z) : Prop := 0 <= z < 2 ^ 32.
Definition in_u64 (z : Z) : Prop := 0 <= z < 2 ^ 64.

Notation "x '&&&' y" := (Z.land x y) (at level 40, left associativity) : vm_scope.
Notation "x '|||' y" := (Z.lor x y) (at level 50, left associativity) : vm_scope.
Notation "x '^^^' y" := (Z.lxor x y) (at level 45, left associativity) : vm_scope.
Notation "x '<<<' y" := (Z.shiftl x y) (at level 38, left associativity) : vm_scope.
Notation "x '>>>' y" := (Z.shiftr x y) (at level 38, left associativity) : vm_scope.
Notation "'~~~' x" := (Z.lnot x) (at level 30, right associativity) : vm_scope.
#[global] Open Scope vm_scope.

(** The bit and size helpers of [utilities/globalDefinitions.hpp]. *)

Definition BitsPerWord : Z := 64.
Definition HeapWordSize : Z := 8.
Definition NULL : Z := 0.

Definition nth_bit (n : Z) : Z := if n >=? BitsPerWord then 0 else 1 <<< n.
Definition right_n_bits (n : Z) : Z := nth_bit n - 1.
Definition mask_bits (x m : Z) : Z := x &&& m.

Definition MAX2 (a b : Z) : Z := if a >? b then a else b.
Definition MIN2 (a b : Z) : Z := if a <? b then a else b.

Definition align_size_up (size alignment : Z) : Z :=
  (size + (alignment - 1)) &&& ~~~ (alignment - 1).

(** [log2_intptr]: the loop doubles [p] until it exceeds [x] or wraps to 0;
    on a 64-bit word it runs at most 64 times. *)
Fixpoint log2_loop (fuel : nat) (x i p : Z) : Z :=
  match fuel with
  | O => i
  | S fuel =>
      if negb (p =? 0) && (p <=? x) then log2_loop fuel x (i + 1) (u64 (p * 2)) else i
  end.

Definition log2_intptr (x : Z) : Z := log2_loop 65 (u64 x) (-1) 1.

Definition is_power_of_2 (x : Z) : bool :=
  negb (x =? 0) && (mask_bits x (x - 1) =? 0).

(** * Integer lemmas *)

Lemma gtb_true a b : b < a → (a >? b) = true.
Proof. rewrite Z.gtb_ltb. apply Z.ltb_lt. Qed.

Lemma gtb_false a b : a <= b → (a >? b) = false.
Proof. rewrite Z.gtb_ltb. apply Z.ltb_ge. Qed.

Lemma geb_true a b : b <= a → (a >=? b) = true.
Proof. rewrite Z.geb_leb. apply Z.leb_le. Qed.

Lemma geb_false a b : a < b → (a >=? b) = false.
Proof. rewrite Z.geb_leb. apply Z.leb_gt. Qed.

(** [x & (2^n - 1)] is [x mod 2^n]. *)
Lemma land_low_ones x n : 0 <= n → x &&& (2 ^ n - 1) = x mod 2 ^ n.
Proof. intros. rewrite <- Z.land_ones by done. rewrite Z.ones_equiv. f_equal; lia. Qed.

Lemma u8_mod z : u8 z = z mod 2 ^ 8.
Proof. exact (land_low_ones z 8 ltac:(lia)). Qed.

Lemma u16_mod z : u16 z = z mod 2 ^ 16.
Proof. exact (land_low_ones z 16 ltac:(lia)). Qed.

Lemma u32_mod z : u32 z = z mod 2 ^ 32.
Proof. exact (land_low_ones z 32 ltac:(lia)). Qed.

Lemma u64_mod z : u64 z = z mod 2 ^ 64.
Proof. exact (land_low_ones z 64 ltac:(lia)). Qed.

Lemma i8_mod z : i8 z = (z + 2 ^ 7) mod 2 ^ 8 - 2 ^ 7.
Proof. unfold i8. by rewrite u8_mod. Qed.

Lemma i32_mod z : i32 z = (z + 2 ^ 31) mod 2 ^ 32 - 2 ^ 31.
Proof. unfold i32. by rewrite u32_mod. Qed.

Lemma i64_mod z : i64 z = (z + 2 ^ 63) mod 2 ^ 64 - 2 ^ 63.
Proof. unfold i64. by rewrite u64_mod. Qed.

Lemma u8_range z : 0 <= u8 z < 2 ^ 8.
Proof. rewrite u8_mod. apply Z.mod_pos_bound. lia. Qed.

Lemma u16_range z : in_u16 (u16 z).
Proof. rewrite u16_mod. apply Z.mod_pos_bound. lia. Qed.

Lemma u32_range z : in_u32 (u32 z).
Proof. rewrite u32_mod. apply Z.mod_pos_bound. lia. Qed.

Lemma u64_range z : in_u64 (u64 z).
Proof. rewrite u64_mod. apply Z.mod_pos_bound. lia. Qed.

Lemma u16_small z : in_u16 z → u16 z = z.
Proof. rewrite u16_mod. apply Z.mod_small. Qed.

Lemma u32_small z : in_u32 z → u32 z = z.
Proof. rewrite u32_mod. apply Z.mod_small. Qed.

Lemma u64_small z : in_u64 z → u64 z = z.
Proof. rewrite u64_mod. apply Z.mod_small. Qed.

Lemma u32_idemp z : u32 (u32 z) = u32 z.
Proof. apply u32_small, u32_range. Qed.

Lemma u32_add_l a b : u32 (u32 a + b) = u32 (a + b).
Proof. rewrite !u32_mod. by rewrite Zplus_mod_idemp_l. Qed.

Lemma u32_add_r a b : u32 (a + u32 b) = u32 (a + b).
Proof. rewrite !u32_mod. by rewrite Zplus_mod_idemp_r. Qed.

Lemma u32_sub_l a b : u32 (u32 a - b) = u32 (a - b).
Proof. rewrite !u32_mod. by rewrite Zminus_mod_idemp_l. Qed.

Lemma u32_mul_l a b : u32 (u32 a * b) = u32 (a * b).
Proof. rewrite !u32_mod. by rewrite Zmult_mod_idemp_l. Qed.

Lemma i32_range z : - 2 ^ 31 <= i32 z < 2 ^ 31.
Proof. rewrite i32_mod. pose proof (Z.mod_pos_bound (z + 2 ^ 31) (2 ^ 32)). lia. Qed.

Lemma i32_small z : - 2 ^ 31 <= z < 2 ^ 31 → i32 z = z.
Proof. intros. rewrite i32_mod, Z.mod_small; lia. Qed.

(** Two integers with the same low 32 bits have the same [jint] value. *)
Lemma i64_small z : - 2 ^ 63 <= z < 2 ^ 63 → i64 z = z.
Proof. intros. rewrite i64_mod, Z.mod_small; lia. Qed.

Lemma i32_eq_of_u32_eq a b : u32 a = u32 b → i32 a = i32 b.
Proof. rewrite !u32_mod, !i32_mod. intros H. by rewrite Zplus_mod, H, <-Zplus_mod. Qed.

Lemma u32_i32 z : u32 (i32 z) = u32 z.
Proof. rewrite !u32_mod, i32_mod, Zminus_mod_idemp_l. f_equal. lia. Qed.

Lemma i32_u32 z : i32 (u32 z) = i32 z.
Proof. apply i32_eq_of_u32_eq. apply u32_idemp. Qed.

Lemma i32_inj_range a b : - 2 ^ 31 <= a < 2 ^ 31 → - 2 ^ 31 <= b < 2 ^ 31 → u32 a = u32 b → a = b.
Proof. intros Ha Hb E%i32_eq_of_u32_eq. by rewrite !i32_small in E. Qed.

Lemma u32_i32_mul a b : u32 (i32 a * b) = u32 (u32 a * b).
Proof. by rewrite <- u32_mul_l, u32_i32. Qed.

Lemma u32_i32_add a b : u32 (i32 a + b) = u32 (u32 a + b).
Proof. by rewrite <- u32_add_l, u32_i32. Qed.

(** Bitwise operations commute with truncation. *)
Lemma u32_lor a b : u32 (a ||| b) = u32 a ||| u32 b.
Proof. unfold u32. apply Z.land_lor_distr_l. Qed.

Lemma u32_lxor a b : u32 (a ^^^ b) = u32 a ^^^ u32 b.
Proof.
  unfold u32. apply Z.bits_inj'; intros i Hi. rewrite !Z.land_spec, !Z.lxor_spec, !Z.land_spec.
  by destruct (Z.testbit a i), (Z.testbit b i), (Z.testbit _ i).
Qed.

Create Rewrite HintDb wrap.
#[export] Hint Rewrite u32_idemp u32_add_l u32_add_r u32_sub_l u32_i32 i32_u32 : wrap.

Lemma right_n_bits_ones n : 0 <= n < 64 → right_n_bits n = Z.ones n.
Proof.
  intros. unfold right_n_bits, nth_bit, BitsPerWord.
  destruct (n >=? 64) eqn:E; [lia|].
  rewrite Z.shiftl_1_l, Z.ones_equiv. lia.
Qed.

Lemma log2_loop_spec fuel x i :
  0 <= i → 0 < x < 2 ^ 63 → i <= Z.log2 x + 1 → Z.log2 x + 1 - i <= Z.of_nat fuel →
  log2_loop fuel x (i - 1) (2 ^ i) = Z.log2 x.
Proof.
  intros Hi Hx. revert i Hi. pose proof (Z.log2_spec x ltac:(lia)) as [Hl Hu].
  assert (Z.log2 x < 63) by (apply Z.log2_lt_pow2; lia).
  rewrite Z.pow_succ_r in Hu by apply Z.log2_nonneg.
  induction fuel as [|fuel IH]; intros i Hi H1 H2; cbn [log2_loop]; [lia|].
  pose proof (Z.pow_pos_nonneg 2 i). rewrite (proj2 (Z.eqb_neq (2 ^ i) 0)) by lia. cbn.
  destruct (Z.leb_spec (2 ^ i) x) as [Hle|Hgt].
  - assert (i <= Z.log2 x) by (apply Z.log2_le_pow2; lia).
    rewrite u64_small.
    + replace (2 ^ i * 2) with (2 ^ (i + 1)) by (rewrite Z.pow_add_r; lia).
      replace (i - 1 + 1) with (i + 1 - 1) by lia. apply IH; lia.
    + split; [lia|]. change (2 ^ 64) with (2 ^ 63 * 2). nia.
  - assert (Z.log2 x < i) by (apply Z.log2_lt_pow2; lia). lia.
Qed.

(** [log2_intptr] is the integer logarithm on positive words. *)
Lemma log2_intptr_log2 x : 0 < x < 2 ^ 63 → log2_intptr x = Z.log2 x.
Proof.
  intros Hx. unfold log2_intptr. rewrite u64_small by (unfold in_u64; lia).
  assert (Z.log2 x < 63) by (apply Z.log2_lt_pow2; lia).
  pose proof (Z.log2_nonneg x). apply (log2_loop_spec 65 x 0); lia.
Qed.

(** * Bit fields of a machine word *)

Definition get_field (w s n : Z) : Z := (w >>> s) &&& Z.ones n.
Definition set_field (w s n v : Z) : Z :=
  (w &&& ~~~ (Z.ones n <<< s)) ||| ((v &&& Z.ones n) <<< s).

Lemma testbit_ones_nonneg n i :
  0 <= n → 0 <= i → Z.testbit (Z.ones n) i = (i <? n).
Proof. intros. rewrite Z.testbit_ones by done. by destruct (Z.leb_spec 0 i); [|lia]. Qed.

Lemma get_field_testbit w s n i :
  0 <= s → 0 <= n → 0 <= i →
  Z.testbit (get_field w s n) i = (i <? n) && Z.testbit w (i + s).
Proof.
  intros. unfold get_field.
  rewrite Z.land_spec, Z.shiftr_spec, testbit_ones_nonneg by done.
  apply andb_comm.
Qed.

Lemma set_field_testbit w s n v i :
  0 <= s → 0 <= n → 0 <= i →
  Z.testbit (set_field w s n v) i =
    if (s <=? i) && (i <? s + n) then Z.testbit v (i - s) else Z.testbit w i.
Proof.
  intros. unfold set_field.
  rewrite Z.lor_spec, Z.land_spec, Z.lnot_spec, !Z.shiftl_spec, Z.land_spec by done.
  destruct (Z.leb_spec s i); cbn.
  - rewrite !testbit_ones_nonneg by lia.
    destruct (Z.ltb_spec (i - s) n), (Z.ltb_spec i (s + n)); try lia; cbn.
    + by rewrite andb_false_r, andb_true_r.
    + by rewrite andb_true_r, andb_false_r, orb_false_r.
  - rewrite !(Z.testbit_neg_r _ (i - s)) by lia. cbn.
    by rewrite andb_true_r, orb_false_r.
Qed.

(** Solves equalities between words built from [get_field] and [set_field]
    bit by bit. *)
Ltac field_bits :=
  apply Z.bits_inj'; intros ?i ?Hi;
  repeat (rewrite ?get_field_testbit, ?set_field_testbit by lia);
  repeat match goal with
  | |- context [?a <? ?b] => destruct (Z.ltb_spec a b); try lia
  | |- context [?a <=? ?b] => destruct (Z.leb_spec a b); try lia
  end; cbn [andb orb];
  try (f_equal; lia); try done.

Lemma get_set_field_same w s n v :
  0 <= s → 0 <= n → get_field (set_field w s n v) s n = v &&& Z.ones n.
Proof.
  intros. apply Z.bits_inj'; intros i Hi.
  rewrite get_field_testbit, set_field_testbit, Z.land_spec by lia.
  rewrite testbit_ones_nonneg by lia.
  destruct (Z.ltb_spec i n), (Z.leb_spec s (i + s)), (Z.ltb_spec (i + s) (s + n));
    try lia; cbn; rewrite ?andb_true_r, ?andb_false_r; f_equal; lia.
Qed.

Lemma get_set_field_other w s n v s' n' :
  0 <= s → 0 <= n → 0 <= s' → 0 <= n' → s + n <= s' ∨ s' + n' <= s →
  get_field (set_field w s n v) s' n' = get_field w s' n'.
Proof. intros. field_bits. Qed.

Lemma set_set_field_same w s n v v' :
  0 <= s → 0 <= n → set_field (set_field w s n v) s n v' = set_field w s n v'.
Proof. intros. field_bits. Qed.

Lemma get_field_range w s n : 0 <= n → 0 <= get_field w s n < 2 ^ n.
Proof.
  intros. unfold get_field. rewrite Z.land_ones by done.
  apply Z.mod_pos_bound. lia.
Qed.

Lemma land_ones_small v n : 0 <= v < 2 ^ n → v &&& Z.ones n = v.
Proof.
  intros. assert (0 <= n).
  { destruct (Z_le_gt_dec 0 n); [done|]. rewrite Z.pow_neg_r in *; lia. }
  rewrite Z.land_ones by done. by apply Z.mod_small.
Qed.

(** A word fits in [n] bits when its bits from [n] up are clear. *)
Lemma range_of_bits w n :
  0 <= n → 0 <= w → (∀ i, n <= i → Z.testbit w i = false) → w < 2 ^ n.
Proof.
  intros Hn Hw Hb. destruct (Z.eq_dec w 0) as [->|]; [lia|].
  destruct (Z_lt_ge_dec w (2 ^ n)) as [|Hge]; [done|exfalso].
  assert (n <= Z.log2 w) by (apply Z.log2_le_pow2; lia).
  specialize (Hb (Z.log2 w)). rewrite Z.bit_log2 in Hb by lia. by discriminate Hb; lia.
Qed.

Lemma bits_of_range w n i : 0 <= w < 2 ^ n → n <= i → Z.testbit w i = false.
Proof.
  intros. destruct (Z.eq_dec w 0) as [->|]; [apply Z.bits_0|].
  apply Z.bits_above_log2; [lia|].
  apply Z.lt_le_trans with n; [apply Z.log2_lt_pow2; lia|done].
Qed.

Lemma set_field_range w s n v b :
  0 <= s → 0 <= n → s + n <= b → 0 <= w < 2 ^ b → 0 <= set_field w s n v < 2 ^ b.
Proof.
  intros. assert (Hnn : 0 <= set_field w s n v).
  { unfold set_field. apply Z.lor_nonneg; split.
    - apply Z.land_nonneg. lia.
    - apply Z.shiftl_nonneg, Z.land_nonneg. right. rewrite Z.ones_equiv.
      pose proof (Z.pow_pos_nonneg 2 n). lia. }
  split; [done|]. apply range_of_bits; [lia|done|].
  intros i Hi. rewrite set_field_testbit by lia.
  destruct (Z.leb_spec s i), (Z.ltb_spec i (s + n)); try lia; cbn;
    by eapply bits_of_range.
Qed.

(** ** Combining bytes into words *)

Lemma lor_shiftl_add a b n : 0 <= n → 0 <= a < 2 ^ n → a ||| (b <<< n) = a + b * 2 ^ n.
Proof.
  intros Hn Ha. rewrite <- Z.shiftl_mul_pow2 by done.
  rewrite Z.add_nocarry_lxor.
  - apply Z.bits_inj'; intros i Hi. rewrite Z.lor_spec, Z.lxor_spec, Z.shiftl_spec by done.
    destruct (Z_lt_ge_dec i n).
    + rewrite (Z.testbit_neg_r b) by lia. by destruct (Z.testbit a i).
    + by rewrite (bits_of_range a n i) by lia.
  - apply Z.bits_inj'; intros i Hi. rewrite Z.land_spec, Z.shiftl_spec, Z.bits_0 by done.
    destruct (Z_lt_ge_dec i n).
    + by rewrite (Z.testbit_neg_r b), andb_false_r by lia.
    + by rewrite (bits_of_range a n i) by lia.
Qed.

Lemma lxor_lor_disjoint a b n : 0 <= n → 0 <= a < 2 ^ n → (b <<< n) ^^^ a = a ||| (b <<< n).
Proof.
  intros Hn Ha. apply Z.bits_inj'; intros i Hi.
  rewrite Z.lor_spec, Z.lxor_spec, Z.shiftl_spec by done.
  destruct (Z_lt_ge_dec i n).
  - rewrite (Z.testbit_neg_r b) by lia. by destruct (Z.testbit a i).
  - rewrite (bits_of_range a n i) by lia. by destruct (Z.testbit b _).
Qed.

Lemma u8_i8 z : u8 (i8 z) = u8 z.
Proof. rewrite !u8_mod, i8_mod, Zminus_mod_idemp_l. f_equal. lia. Qed.

Lemma u32_shiftl_u8 d : u32 (d <<< 24) = u8 d <<< 24.
Proof.
  rewrite u32_mod, u8_mod, !Z.shiftl_mul_pow2 by lia.
  rewrite <- (Z.mul_mod_distr_r d (2 ^ 8) (2 ^ 24)) by lia. done.
Qed.

Lemma u32_shiftl_u32 a n : 0 <= n → u32 (u32 a <<< n) = u32 (a <<< n).
Proof. intros. rewrite !Z.shiftl_mul_pow2 by done. apply u32_mul_l. Qed.

(** * Lists *)

Lemma foldl_ext {A B} (f g : A → B → A) l a :
  (∀ a b, b ∈ l → f a b = g a b) → foldl f a l = foldl g a l.
Proof.
  revert a. induction l as [|b l IH]; intros a H; [done|]. cbn.
  rewrite H by set_solver. apply IH. set_solver.
Qed.

(** The sum of [f] over a list. *)
Fixpoint sum_by {A} (f : A → Z) (l : list A) : Z :=
  match l with [] => 0 | x :: l => f x + sum_by f l end.

Lemma sum_by_insert {A} (f : A → Z) l i a b :
  l !! i = Some a → sum_by f (<[i := b]> l) = sum_by f l - f a + f b.
Proof.
  revert i. induction l as [|p l IH]; intros [|i] E; try done; [injection E as ->; cbn; lia|].
  change (f p + sum_by f (<[i := b]> l) = f p + sum_by f l - f a + f b). rewrite (IH i E). lia.
Qed.

Lemma sum_by_app {A} (f : A → Z) l k : sum_by f (l ++ k) = sum_by f l + sum_by f k.
Proof. induction l as [|x l IH]; cbn; [done|]. rewrite IH. lia. Qed.

Lemma sum_by_ext {A} (f g : A → Z) l : (∀ x, x ∈ l → f x = g x) → sum_by f l = sum_by g l.
Proof.
  induction l as [|x l IH]; intros H; [done|]. cbn. rewrite (H x), IH; [done| |]; [|by left].
  intros y Hy. apply H. by right.
Qed.

Lemma sum_by_bounds {A} (f : A → Z) l n :
  (∀ x, x ∈ l → 0 <= f x <= n) → 0 <= sum_by f l <= n * Z.of_nat (length l).
Proof.
  induction l as [|x l IH]; intros H; cbn [sum_by length]; [lia|].
  assert (0 <= f x <= n) by (apply H; by left). assert (0 <= sum_by f l <= n * Z.of_nat (length l)) by
    (apply IH; intros; apply H; by right). lia.
Qed.

Lemma sum_by_nonneg {A} (f : A → Z) l : (∀ x, x ∈ l → 0 <= f x) → 0 <= sum_by f l.
Proof.
  induction l as [|x l IH]; intros H; cbn; [done|]. assert (0 <= f x) by (apply H; by left).
  assert (0 <= sum_by f l) by (apply IH; intros; apply H; by right). lia.
Qed.

Lemma sum_by_elem {A} (f : A → Z) l x : (∀ y, y ∈ l → 0 <= f y) → x ∈ l → f x <= sum_by f l.
Proof.
  intros Hf Hx. induction Hx as [x l|x y l Hx IH]; cbn.
  - assert (0 <= sum_by f l) by (apply sum_by_nonneg; intros; apply Hf; by right). lia.
  - assert (0 <= f y) by (apply Hf; by left). assert (f x <= sum_by f l) by (apply IH; intros; apply Hf; by right). lia.
Qed.

#[global] Instance sum_by_perm {A} (f : A → Z) : Proper ((≡ₚ) ==> (=)) (sum_by f).
Proof. intros l k H. induction H; cbn; lia. Qed.

(** Changing one element of a list changes what it contributes to a
    concatenation. *)
Lemma bind_insert_perm {A B} (g : A → list B) l i a b :
  l !! i = Some a → (<[i := b]> l ≫= g) ++ g a ≡ₚ (l ≫= g) ++ g b.
Proof.
  revert i. induction l as [|x l IH]; intros [|i] E; try done.
  - injection E as ->. cbn. rewrite (Permutation_app_comm (g b ++ _)), (Permutation_app_comm (g a ++ _)).
    rewrite !(app_assoc _ _ (l ≫= g)). by rewrite (Permutation_app_comm (g a)).
  - cbn. change (list_bind _ _ g ?k) with (k ≫= g). rewrite <- !app_assoc. f_equiv. by apply IH.
Qed.

Lemma bind_empty {A B} (g : A → list B) l : (∀ x, x ∈ l → g x = []) → l ≫= g = [].
Proof.
  induction l as [|x l IH]; intros H; [done|]. cbn. rewrite (H x) by by left. apply IH. intros. apply H. by right.
Qed.

(** * Address ranges

    A range is a pair of its first address and the address after its last.
    How many ranges of a list hold an address is additive in the list, so
    that ranges are disjoint when no address is held twice, and splitting,
    merging and moving ranges is arithmetic. *)

Definition inside (r : Z * Z) (a : Z) : Z := if (r.1 <=? a) && (a <? r.2) then 1 else 0.
Definition claims (l : list (Z * Z)) (a : Z) : Z := sum_by (λ r, inside r a) l.

Lemma inside_cases lo hi a :
  inside (lo, hi) a = 1 ∧ lo <= a < hi ∨ inside (lo, hi) a = 0 ∧ ¬ (lo <= a < hi).
Proof. unfold inside. cbn. destruct (Z.leb_spec lo a), (Z.ltb_spec a hi); cbn; lia. Qed.

Lemma inside_nonneg r a : 0 <= inside r a <= 1.
Proof. destruct r as [lo hi]. destruct (inside_cases lo hi a); lia. Qed.

Lemma inside_in lo hi a : lo <= a < hi → inside (lo, hi) a = 1.
Proof. destruct (inside_cases lo hi a); lia. Qed.

Lemma inside_split lo mid hi a :
  lo <= mid <= hi → inside (lo, hi) a = inside (lo, mid) a + inside (mid, hi) a.
Proof. destruct (inside_cases lo hi a), (inside_cases lo mid a), (inside_cases mid hi a); lia. Qed.

Lemma inside_empty lo hi a : hi <= lo → inside (lo, hi) a = 0.
Proof. destruct (inside_cases lo hi a); lia. Qed.

Lemma claims_nonneg l a : 0 <= claims l a.
Proof. apply sum_by_nonneg. intros r _. apply inside_nonneg. Qed.

Lemma claims_app l k a : claims (l ++ k) a = claims l a + claims k a.
Proof. apply sum_by_app. Qed.

Lemma claims_cons r l a : claims (r :: l) a = inside r a + claims l a.
Proof. done. Qed.

Lemma claims_nil a : claims [] a = 0.
Proof. done. Qed.

Lemma claims_elem r l a : r ∈ l → inside r a <= claims l a.
Proof. intros Hr. apply (sum_by_elem (λ r, inside r a)); [|done]. intros. apply inside_nonneg. Qed.

Lemma claims_insert l i r r' a : l !! i = Some r → claims (<[i := r']> l) a = claims l a - inside r a + inside r' a.
Proof. intros Hi. unfold claims. by rewrite (sum_by_insert _ _ i r). Qed.

#[global] Instance claims_perm : Proper ((≡ₚ) ==> (=) ==> (=)) claims.
Proof. intros l k H a ? <-. unfold claims. by rewrite H. Qed.

Create HintDb vm.
#[export] Hint Resolve u8_range u16_range u32_range u64_range : vm.
