(* ===== verification/MarkWord.v ===== *)
(** The object header word: [markOopDesc] of [oops/markOop.hpp] and
    [oops/markOop.inline.hpp], in the 64-bit build with [NG2C_PROF] defined
    (both set by [make/linux/makefiles/vm.make]).

    A mark is the 64-bit word itself.  Each accessor is the expression of
    the source on that word.  The layout lemmas ([*_field]) rewrite the
    accessors into [get_field]/[set_field] of the prelude, from which the
    interaction of the fields follows bit by bit. *)

From S2P Require Import Prelude.

Module MarkOop.

Definition markOop := Z.

Definition age_bits : Z := 4.
Definition lock_bits : Z := 2.
Definition biased_lock_bits : Z := 1.
Definition cms_bits : Z := 1.
Definition epoch_bits : Z := 2.
Definition ng2c_prof_bits : Z := 32.
Definition max_hash_bits : Z := BitsPerWord - age_bits - lock_bits - biased_lock_bits.
Definition hash_bits : Z := if max_hash_bits >? 31 then 31 else max_hash_bits.

Definition lock_shift : Z := 0.
Definition biased_lock_shift : Z := lock_bits.
Definition age_shift : Z := lock_bits + biased_lock_bits.
Definition cms_shift : Z := age_shift + age_bits.
Definition hash_shift : Z := cms_shift + cms_bits.
Definition epoch_shift : Z := hash_shift.
Definition ng2c_prof_shift : Z := 32.

Definition lock_mask : Z := right_n_bits lock_bits.
Definition lock_mask_in_place : Z := lock_mask <<< lock_shift.
Definition biased_lock_mask : Z := right_n_bits (lock_bits + biased_lock_bits).
Definition biased_lock_mask_in_place : Z := biased_lock_mask <<< lock_shift.
Definition biased_lock_bit_in_place : Z := 1 <<< biased_lock_shift.
Definition age_mask : Z := right_n_bits age_bits.
Definition age_mask_in_place : Z := age_mask <<< age_shift.
Definition epoch_mask : Z := right_n_bits epoch_bits.
Definition epoch_mask_in_place : Z := epoch_mask <<< epoch_shift.
Definition cms_mask : Z := right_n_bits cms_bits.
Definition cms_mask_in_place : Z := cms_mask <<< cms_shift.
Definition hash_mask : Z := right_n_bits hash_bits.
Definition hash_mask_in_place : Z := hash_mask <<< hash_shift.
Definition ng2c_prof_mask : Z := right_n_bits ng2c_prof_bits.
Definition ng2c_prof_mask_in_place : Z := ng2c_prof_mask <<< ng2c_prof_shift.

Definition biased_lock_alignment : Z := 2 <<< (epoch_shift + epoch_bits).

Definition locked_value : Z := 0.
Definition unlocked_value : Z := 1.
Definition monitor_value : Z := 2.
Definition marked_value : Z := 3.
Definition biased_lock_pattern : Z := 5.
Definition no_hash : Z := 0.
Definition no_hash_in_place : Z := no_hash <<< hash_shift.
Definition no_lock_in_place : Z := unlocked_value.
Definition max_age : Z := age_mask.
Definition max_bias_epoch : Z := epoch_mask.

(** ** Biased locking accessors *)

Definition has_bias_pattern (m : markOop) : bool :=
  mask_bits m biased_lock_mask_in_place =? biased_lock_pattern.

Definition biased_locker (m : markOop) : Z :=
  mask_bits m (~~~ (biased_lock_mask_in_place ||| age_mask_in_place ||| epoch_mask_in_place)).

Definition is_biased_anonymously (m : markOop) : bool :=
  has_bias_pattern m && (biased_locker m =? NULL).

Definition bias_epoch (m : markOop) : Z :=
  mask_bits m epoch_mask_in_place >>> epoch_shift.

Definition set_bias_epoch (m : markOop) (epoch : Z) : markOop :=
  mask_bits m (~~~ epoch_mask_in_place) ||| (epoch <<< epoch_shift).

Definition incr_bias_epoch (m : markOop) : markOop :=
  set_bias_epoch m ((1 + bias_epoch m) &&& epoch_mask).

Definition biased_locking_prototype : markOop := biased_lock_pattern.

(** ** Lock accessors *)

Definition is_locked (m : markOop) : bool :=
  negb (mask_bits m lock_mask_in_place =? unlocked_value).
Definition is_unlocked (m : markOop) : bool :=
  mask_bits m biased_lock_mask_in_place =? unlocked_value.
Definition is_marked (m : markOop) : bool :=
  mask_bits m lock_mask_in_place =? marked_value.
Definition is_neutral (m : markOop) : bool :=
  mask_bits m biased_lock_mask_in_place =? unlocked_value.
Definition is_being_inflated (m : markOop) : bool := m =? 0.
Definition INFLATING : markOop := 0.

Definition set_unlocked (m : markOop) : markOop := m ||| unlocked_value.
Definition has_locker (m : markOop) : bool := (m &&& lock_mask_in_place) =? locked_value.
Definition locker (m : markOop) : Z := m.
Definition has_monitor (m : markOop) : bool := negb ((m &&& monitor_value) =? 0).
Definition monitor (m : markOop) : Z := m ^^^ monitor_value.
Definition has_displaced_mark_helper (m : markOop) : bool := (m &&& unlocked_value) =? 0.

(** The displaced mark of a locked or inflated header lives in memory at the
    address encoded in the mark. *)
Definition displaced_mark_helper (mem : Z → markOop) (m : markOop) : markOop :=
  mem (m &&& ~~~ monitor_value).
Definition set_displaced_mark_helper (mem : Z → markOop) (m m' : markOop) : Z → markOop :=
  λ a, if a =? (m &&& ~~~ monitor_value) then m' else mem a.

Definition copy_set_hash (m : markOop) (hash : Z) : markOop :=
  (m &&& ~~~ hash_mask_in_place) ||| ((hash &&& hash_mask) <<< hash_shift).

Definition unused_mark : markOop := marked_value.
Definition encode_lock (lock : Z) : markOop := lock.
Definition encode_monitor (mon : Z) : markOop := mon ||| monitor_value.
Definition encode_thread (thread age bias_epoch : Z) : markOop :=
  thread ||| (bias_epoch <<< epoch_shift) ||| (age <<< age_shift) ||| biased_lock_pattern.

Definition clear_lock_bits (m : markOop) : markOop := m &&& ~~~ lock_mask_in_place.
Definition set_marked (m : markOop) : markOop := (m &&& ~~~ lock_mask_in_place) ||| marked_value.
Definition set_unmarked (m : markOop) : markOop := (m &&& ~~~ lock_mask_in_place) ||| unlocked_value.

(** ** Age, hash and profile fields *)

Definition age (m : markOop) : Z := mask_bits (m >>> age_shift) age_mask.
Definition set_age (m : markOop) (v : Z) : markOop :=
  (m &&& ~~~ age_mask_in_place) ||| ((v &&& age_mask) <<< age_shift).
Definition incr_age (m : markOop) : markOop :=
  if age m =? max_age then m else set_age m (age m + 1).

Definition hash (m : markOop) : Z := mask_bits (m >>> hash_shift) hash_mask.
Definition has_no_hash (m : markOop) : bool := hash m =? no_hash.

Definition ng2c_prof (m : markOop) : Z := mask_bits (m >>> ng2c_prof_shift) ng2c_prof_mask.
Definition set_ng2c_prof (m : markOop) (v : Z) : markOop :=
  if v =? 0 then m
  else (m &&& ~~~ ng2c_prof_mask_in_place) ||| ((v &&& ng2c_prof_mask) <<< ng2c_prof_shift).

Definition prototype : markOop := no_hash_in_place ||| no_lock_in_place.

Definition encode_pointer_as_mark (p : Z) : markOop := set_marked p.
Definition decode_pointer (UseBiasedLocking : bool) (m : markOop) : Z :=
  if UseBiasedLocking && has_bias_pattern m then NULL else clear_lock_bits m.

(** ** CMS free chunks *)

Definition cms_free_chunk_pattern : Z := 1.
Definition size_shift : Z := cms_shift + cms_bits.
Definition size_bits : Z := 35.
Definition size_mask : Z := right_n_bits size_bits.
Definition size_mask_in_place : Z := size_mask <<< size_shift.

Definition cms_free_prototype : markOop :=
  (prototype &&& ~~~ cms_mask_in_place) ||| ((cms_free_chunk_pattern &&& cms_mask) <<< cms_shift).
Definition cms_encoding (m : markOop) : Z := mask_bits (m >>> cms_shift) cms_mask.
Definition is_cms_free_chunk (m : markOop) : bool :=
  is_neutral m && ((cms_encoding m &&& cms_free_chunk_pattern) =? cms_free_chunk_pattern).
Definition get_size (m : markOop) : Z := m >>> size_shift.
Definition set_size_and_free (size : Z) : markOop :=
  (cms_free_prototype &&& ~~~ size_mask_in_place) ||| ((size &&& size_mask) <<< size_shift).

(** ** Preservation during GC ([markOop.inline.hpp])

    [proto] is the prototype header of the object's klass. *)

Definition must_be_preserved_with_bias (proto m : markOop) : bool :=
  if has_bias_pattern m then false
  else if has_bias_pattern proto then true
  else negb (is_unlocked m) || negb (has_no_hash m).

Definition must_be_preserved (UseBiasedLocking : bool) (proto m : markOop) : bool :=
  if negb UseBiasedLocking then negb (is_unlocked m) || negb (has_no_hash m)
  else must_be_preserved_with_bias proto m.

Definition must_be_preserved_with_bias_for_promotion_failure (proto m : markOop) : bool :=
  if has_bias_pattern m || has_bias_pattern proto then true
  else negb (is_unlocked m) || negb (has_no_hash m).

Definition must_be_preserved_for_promotion_failure
    (UseBiasedLocking : bool) (proto m : markOop) : bool :=
  if negb UseBiasedLocking then negb (is_unlocked m) || negb (has_no_hash m)
  else must_be_preserved_with_bias_for_promotion_failure proto m.

Definition must_be_preserved_with_bias_for_cms_scavenge (proto m : markOop) : bool :=
  if has_bias_pattern m || has_bias_pattern proto then true
  else negb (is_unlocked m) || negb (has_no_hash m).

Definition must_be_preserved_for_cms_scavenge
    (UseBiasedLocking : bool) (proto m : markOop) : bool :=
  if negb UseBiasedLocking then negb (is_unlocked m) || negb (has_no_hash m)
  else must_be_preserved_with_bias_for_cms_scavenge proto m.

(** ** Layout lemmas: every accessor as a bit field *)

Lemma age_field m : age m = get_field m 3 4.
Proof. reflexivity. Qed.

Lemma hash_field m : hash m = get_field m 8 31.
Proof. reflexivity. Qed.

Lemma ng2c_prof_field m : ng2c_prof m = get_field m 32 32.
Proof. reflexivity. Qed.

Lemma set_age_field m v : set_age m v = set_field m 3 4 v.
Proof. reflexivity. Qed.

Lemma copy_set_hash_field m h : copy_set_hash m h = set_field m 8 31 h.
Proof. reflexivity. Qed.

Lemma set_ng2c_prof_field m v : v ≠ 0 → set_ng2c_prof m v = set_field m 32 32 v.
Proof. intros. unfold set_ng2c_prof. by rewrite (proj2 (Z.eqb_neq v 0)). Qed.

Lemma set_marked_field m : set_marked m = set_field m 0 2 3.
Proof. reflexivity. Qed.

Lemma set_unmarked_field m : set_unmarked m = set_field m 0 2 1.
Proof. reflexivity. Qed.

Lemma lock_bits_field m : mask_bits m lock_mask_in_place = get_field m 0 2.
Proof. unfold get_field, mask_bits. by rewrite Z.shiftr_0_r. Qed.

Lemma biased_bits_field m : mask_bits m biased_lock_mask_in_place = get_field m 0 3.
Proof. unfold get_field, mask_bits. by rewrite Z.shiftr_0_r. Qed.

(** ** Field interaction *)

(** Rewrites the goal's accessors to bit fields, then to the field lemmas. *)
Ltac mark_fields :=
  rewrite ?set_age_field, ?copy_set_hash_field, ?set_marked_field, ?set_unmarked_field,
    ?age_field, ?hash_field, ?ng2c_prof_field, ?lock_bits_field, ?biased_bits_field;
  rewrite ?get_set_field_same, ?get_set_field_other by lia.

Lemma ng2c_prof_of_age m v : ng2c_prof (set_age m v) = ng2c_prof m.
Proof. by mark_fields. Qed.

Lemma ng2c_prof_incr_age m : ng2c_prof (incr_age m) = ng2c_prof m.
Proof. unfold incr_age. destruct (_ =? _); [done|apply ng2c_prof_of_age]. Qed.

Lemma age_range m : 0 <= age m < 16.
Proof. rewrite age_field. by apply (get_field_range m 3 4). Qed.

Lemma age_set_age m v : 0 <= v < 16 → age (set_age m v) = v.
Proof. intros. mark_fields. by apply land_ones_small. Qed.

Lemma ng2c_prof_set m v : in_u32 v → v ≠ 0 → ng2c_prof (set_ng2c_prof m v) = v.
Proof. intros. rewrite set_ng2c_prof_field by done. mark_fields. by apply land_ones_small. Qed.

Lemma set_ng2c_prof_range m v : in_u64 m → v ≠ 0 → in_u64 (set_ng2c_prof m v).
Proof. intros. rewrite set_ng2c_prof_field by done. by apply set_field_range. Qed.

(** A tag written over an older tag or over a clear field reads back, and
    only the 32 upper bits of the header change. *)

(** the allocation-site tag round trip.  A non-zero 32-bit tag installed
    by [set_ng2c_prof] is read back by [ng2c_prof]; the age and the three
    lock bits are unchanged; the word stays a 64-bit word; and neither
    aging ([incr_age]) nor marking/unmarking the lock bits loses the tag. *)
Theorem ng2c_prof_roundtrip m v :
  in_u64 m → in_u32 v → v ≠ 0 →
  let m' := set_ng2c_prof m v in
  ng2c_prof m' = v ∧ age m' = age m ∧
  mask_bits m' biased_lock_mask_in_place = mask_bits m biased_lock_mask_in_place ∧
  in_u64 m' ∧
  ng2c_prof (incr_age m') = v ∧ ng2c_prof (set_marked m') = v ∧ ng2c_prof (set_unmarked m') = v.
Proof.
  intros Hm Hv Hv0 m'.
  assert (Hp : ng2c_prof m' = v).
  { by apply ng2c_prof_set. }
  split_and!.
  - done.
  - subst m'. rewrite set_ng2c_prof_field by done. by mark_fields.
  - subst m'. rewrite set_ng2c_prof_field by done. by mark_fields.
  - by apply set_ng2c_prof_range.
  - by rewrite ng2c_prof_incr_age.
  - rewrite <- Hp. by mark_fields.
  - rewrite <- Hp. by mark_fields.
Qed.

Lemma ng2c_prof_roundtrip_witness :
  in_u64 prototype ∧ in_u32 0x12340042 ∧
  ng2c_prof (set_ng2c_prof prototype 0x12340042) = 0x12340042.
Proof.
  split_and!; [done..|].
  refine (proj1 (ng2c_prof_roundtrip prototype 0x12340042 _ _ _)); [done..|lia].
Defined.

(** aging is a saturating increment.  [incr_age] adds one to the age
    until 15 and then leaves the word alone; nothing else in the header
    changes (the tag and the lock bits are the same). *)
Theorem incr_age_saturates m :
  age (incr_age m) = Z.min (age m + 1) 15 ∧
  ng2c_prof (incr_age m) = ng2c_prof m ∧ hash (incr_age m) = hash m ∧
  mask_bits (incr_age m) biased_lock_mask_in_place = mask_bits m biased_lock_mask_in_place ∧
  (age m = 15 → incr_age m = m).
Proof.
  pose proof (age_range m).
  split; [|split; [apply ng2c_prof_incr_age|split; [|split]]].
  - unfold incr_age. change max_age with 15. destruct (Z.eqb_spec (age m) 15); [lia|].
    rewrite age_set_age; lia.
  - unfold incr_age. destruct (_ =? _); [done|]. by mark_fields.
  - unfold incr_age. destruct (_ =? _); [done|]. by mark_fields.
  - intros E. unfold incr_age. by rewrite E.
Qed.

Lemma hash_set_prof m v : v ≠ 0 → hash (set_ng2c_prof m v) = set_field (hash m) 24 7 v.
Proof. intros. rewrite set_ng2c_prof_field, !hash_field by done. field_bits. Qed.

(** C40: the identity hash and the tag share seven bits.  The header comment
    gives the hash 24 bits below the 32-bit tag, but [hash_bits] is still 31
    at shift 8, so bits 32 to 38 belong to both fields: installing a tag
    replaces the upper seven bits of the hash by the low seven bits of the
    tag, and installing a hash replaces the low seven bits of the tag. *)
Theorem hash_prof_overlap m v h :
  in_u32 v → v ≠ 0 → 0 <= h < 2 ^ 31 →
  hash (set_ng2c_prof m v) = set_field (hash m) 24 7 v ∧
  ng2c_prof (copy_set_hash m h) = set_field (ng2c_prof m) 0 7 (h >>> 24).
Proof.
  intros Hv Hv0 Hh. split; [by apply hash_set_prof|].
  rewrite !ng2c_prof_field, copy_set_hash_field. apply Z.bits_inj'; intros i Hi.
  rewrite get_field_testbit, !set_field_testbit, get_field_testbit, Z.shiftr_spec by lia.
  destruct (Z.ltb_spec i 32), (Z.leb_spec 8 (i + 32)), (Z.ltb_spec (i + 32) (8 + 31)),
      (Z.leb_spec 0 i), (Z.ltb_spec i (0 + 7)); try lia; cbn; f_equal; lia.
Qed.

Lemma hash_prof_overlap_witness :
  hash (set_ng2c_prof prototype 0x00050001) = 0x1000000 ∧
  ng2c_prof (copy_set_hash (set_ng2c_prof prototype 0x00050000) 0x7F000000) = 0x0005007F.
Proof.
  pose proof (hash_prof_overlap prototype 0x00050001 0 ltac:(done) ltac:(lia) ltac:(lia)) as [-> _].
  pose proof (hash_prof_overlap (set_ng2c_prof prototype 0x00050000) 1 0x7F000000
    ltac:(done) ltac:(lia) ltac:(lia)) as [_ ->].
  split; reflexivity.
Defined.

(** ** Biased locking *)

Lemma thread_aligned_bits t i :
  t mod biased_lock_alignment = 0 → 0 <= i < 11 → Z.testbit t i = false.
Proof.
  intros Ht Hi. change biased_lock_alignment with (2 ^ 11) in Ht.
  apply Z.mod_divide in Ht as [k ->]; [|lia].
  by rewrite Z.mul_pow2_bits_low by lia.
Qed.

(** An encoded biased header as one word built from its fields. *)
Lemma encode_thread_fields t a e :
  t mod biased_lock_alignment = 0 → 0 <= a < 16 → 0 <= e < 4 →
  encode_thread t a e = set_field (set_field (set_field t 8 2 e) 3 4 a) 0 3 5.
Proof.
  intros Ht Ha He. apply Z.bits_inj'; intros i Hi.
  unfold encode_thread. rewrite !Z.lor_spec, !Z.shiftl_spec by done.
  rewrite !set_field_testbit by lia.
  change epoch_shift with 8. change age_shift with 3. change biased_lock_pattern with 5.
  destruct (Z_lt_ge_dec i 11).
  - rewrite (thread_aligned_bits t i) by (done || lia). cbn [orb].
    destruct (Z.leb_spec 0 i), (Z.ltb_spec i (0 + 3)), (Z.leb_spec 3 i), (Z.ltb_spec i (3 + 4)),
      (Z.leb_spec 8 i), (Z.ltb_spec i (8 + 2)); try lia; cbn [andb];
      rewrite ?(Z.testbit_neg_r _ (i - 8)), ?(Z.testbit_neg_r _ (i - 3)) by lia;
      rewrite ?(bits_of_range a 4 (i - 3)), ?(bits_of_range e 2 (i - 8)),
        ?(bits_of_range 5 3 i) by lia; rewrite ?orb_false_r, ?orb_false_l;
      rewrite ?Z.sub_0_r; try done.
  - destruct (Z.leb_spec 0 i), (Z.ltb_spec i (0 + 3)), (Z.leb_spec 3 i), (Z.ltb_spec i (3 + 4)),
      (Z.leb_spec 8 i), (Z.ltb_spec i (8 + 2)); try lia; cbn [andb].
    rewrite (bits_of_range a 4 (i - 3)), (bits_of_range e 2 (i - 8)),
        (bits_of_range 5 3 i) by lia. by rewrite !orb_false_r.
Qed.

Lemma biased_locker_testbit m i :
  0 <= i → Z.testbit (biased_locker m) i = Z.testbit m i && negb ((i <? 7) || ((8 <=? i) && (i <? 10))).
Proof.
  intros. unfold biased_locker, mask_bits. rewrite Z.land_spec, Z.lnot_spec by done. f_equal. f_equal.
  change (biased_lock_mask_in_place ||| age_mask_in_place ||| epoch_mask_in_place)
    with (set_field (Z.ones 7) 8 2 3).
  rewrite set_field_testbit, testbit_ones_nonneg by lia.
  destruct (Z.leb_spec 8 i), (Z.ltb_spec i (8 + 2)), (Z.ltb_spec i 10), (Z.ltb_spec i 7); try lia; cbn; try done.
  change 3 with (Z.ones 2). rewrite testbit_ones_nonneg by lia. apply Z.ltb_lt. lia.
Qed.

Lemma bias_epoch_field m : bias_epoch m = get_field m 8 2.
Proof.
  unfold bias_epoch, mask_bits. change epoch_shift with 8. apply Z.bits_inj'; intros i Hi.
  rewrite get_field_testbit, Z.shiftr_spec, Z.land_spec by lia.
  change epoch_mask_in_place with (Z.ones 2 <<< 8).
  rewrite Z.shiftl_spec by lia. replace (i + 8 - 8) with i by lia.
  rewrite testbit_ones_nonneg by lia. apply andb_comm.
Qed.

(** the biased header round trip.  For a thread pointer aligned to
    [biased_lock_alignment], an age and an epoch that fit their fields, the
    header built by [encode] has the bias pattern and gives back the thread,
    the age and the epoch. *)
Theorem encode_thread_roundtrip t a e :
  t mod biased_lock_alignment = 0 → 0 <= a <= max_age → 0 <= e <= max_bias_epoch →
  let m := encode_thread t a e in
  has_bias_pattern m = true ∧ biased_locker m = t ∧ age m = a ∧ bias_epoch m = e ∧
  is_biased_anonymously m = (t =? NULL).
Proof.
  change max_age with 15. change max_bias_epoch with 3. intros Ht Ha He m.
  assert (Hm : m = set_field (set_field (set_field t 8 2 e) 3 4 a) 0 3 5)
    by (apply encode_thread_fields; [done|lia..]).
  assert (Hb : has_bias_pattern m = true).
  { unfold has_bias_pattern. rewrite biased_bits_field, Hm, get_set_field_same by lia. done. }
  assert (Hl : biased_locker m = t).
  { rewrite Hm. apply Z.bits_inj'; intros i Hi. rewrite biased_locker_testbit, !set_field_testbit by lia.
    destruct (Z.leb_spec 0 i), (Z.ltb_spec i (0 + 3)), (Z.leb_spec 3 i), (Z.ltb_spec i (3 + 4)),
      (Z.leb_spec 8 i), (Z.ltb_spec i (8 + 2)), (Z.ltb_spec i 7), (Z.ltb_spec i 10); try lia;
      cbn [andb orb negb]; rewrite ?andb_false_r, ?andb_true_r; try done;
      by rewrite thread_aligned_bits by (done || lia). }
  split_and!; [done|done|..].
  - rewrite age_field, Hm, get_set_field_other, get_set_field_same by lia. apply land_ones_small; lia.
  - rewrite bias_epoch_field, Hm, !get_set_field_other, get_set_field_same by lia. apply land_ones_small; lia.
  - unfold is_biased_anonymously. by rewrite Hb, Hl.
Qed.

Lemma encode_thread_roundtrip_witness :
  biased_locker (encode_thread 0x7f0000001000 3 2) = 0x7f0000001000.
Proof.
  refine (proj1 (proj2 (encode_thread_roundtrip 0x7f0000001000 3 2 _ _ _)));
    [reflexivity|split; vm_compute; discriminate..].
Defined.

(** a tagged biasable header is no longer anonymously biased.  With
    biased locking, [post_allocation_setup_no_klass_install] installs the
    tag into the klass's biasable prototype header; the tag's bits are then
    read as the owner: [biased_locker] is the tag shifted left by 32, so the
    fresh object looks biased toward a thread that does not exist. *)
Theorem tagged_prototype_not_anonymous v :
  in_u32 v → v ≠ 0 →
  let m := set_ng2c_prof biased_locking_prototype v in
  has_bias_pattern m = true ∧ biased_locker m = v <<< 32 ∧ is_biased_anonymously m = false.
Proof.
  intros Hv Hv0 m.
  assert (Hb : has_bias_pattern m = true).
  { unfold has_bias_pattern, m. rewrite biased_bits_field, set_ng2c_prof_field by done.
    by rewrite get_set_field_other by lia. }
  assert (Hl : biased_locker m = v <<< 32).
  { unfold m. rewrite set_ng2c_prof_field by done. apply Z.bits_inj'; intros i Hi.
    rewrite biased_locker_testbit, set_field_testbit, Z.shiftl_spec by lia.
    change biased_locking_prototype with 5.
    destruct (Z.leb_spec 32 i), (Z.ltb_spec i (32 + 32)), (Z.ltb_spec i 7), (Z.leb_spec 8 i),
      (Z.ltb_spec i 10); try lia; cbn [andb orb negb]; rewrite ?andb_false_r, ?andb_true_r;
      rewrite ?(Z.testbit_neg_r v) by lia;
      rewrite ?(bits_of_range v 32 (i - 32)), ?(bits_of_range 5 3 i) by (unfold in_u32 in *; lia);
      try done. }
  split_and!; [done|done|].
  unfold is_biased_anonymously. rewrite Hb, Hl. cbn. apply Z.eqb_neq.
  rewrite Z.shiftl_mul_pow2 by lia. unfold NULL. lia.
Qed.

Lemma tagged_prototype_not_anonymous_witness :
  is_biased_anonymously (set_ng2c_prof biased_locking_prototype 0x10001) = false.
Proof. refine (proj2 (proj2 (tagged_prototype_not_anonymous 0x10001 _ _))); [done|lia]. Defined.

(** ** Forwarding pointers and preservation *)

(** forwarding pointers survive the encoding used during compaction: a
    word-aligned address put into a mark is marked, is not mistaken for a
    biased header and decodes to the same address, with and without biased
    locking. *)
Theorem encode_pointer_roundtrip ubl p :
  0 <= p → p mod 4 = 0 →
  is_marked (encode_pointer_as_mark p) = true ∧
  has_bias_pattern (encode_pointer_as_mark p) = false ∧
  decode_pointer ubl (encode_pointer_as_mark p) = p.
Proof.
  intros Hp0 Hp. unfold encode_pointer_as_mark.
  assert (Hlow : get_field p 0 2 = 0).
  { unfold get_field. by rewrite Z.shiftr_0_r, Z.land_ones by lia. }
  assert (Hb : has_bias_pattern (set_marked p) = false).
  { unfold has_bias_pattern. rewrite biased_bits_field, set_marked_field.
    apply Z.eqb_neq. intros E.
    apply (f_equal (λ z, Z.testbit z 1)) in E. rewrite get_field_testbit, set_field_testbit in E by lia.
    discriminate. }
  split_and!.
  - unfold is_marked. by rewrite lock_bits_field, set_marked_field, get_set_field_same by lia.
  - done.
  - unfold decode_pointer. rewrite Hb, andb_false_r. unfold clear_lock_bits.
    rewrite set_marked_field. apply Z.bits_inj'; intros i Hi.
    rewrite Z.land_spec, Z.lnot_spec, set_field_testbit by lia.
    change lock_mask_in_place with (Z.ones 2). rewrite testbit_ones_nonneg by lia.
    destruct (Z.leb_spec 0 i), (Z.ltb_spec i (0 + 2)), (Z.ltb_spec i 2); try lia; cbn;
      rewrite ?andb_false_r, ?andb_true_r; [|done].
    apply (f_equal (λ z, Z.testbit z i)) in Hlow.
    rewrite get_field_testbit, Z.bits_0 in Hlow by lia.
    destruct (Z.ltb_spec i 2); [|lia]. rewrite Z.add_0_r in Hlow. by rewrite <- Hlow.
Qed.

Lemma encode_pointer_roundtrip_witness :
  decode_pointer true (encode_pointer_as_mark 0x7f00deadbee0) = 0x7f00deadbee0.
Proof.
  refine (proj2 (proj2 (encode_pointer_roundtrip true 0x7f00deadbee0 _ _))); [lia|reflexivity].
Defined.

(** which tagged headers a full collection keeps.  For an unlocked,
    unhashed object of a klass with the plain prototype header, the marking
    collectors preserve the header (and with it the tag) exactly when the
    low seven bits of the tag are not all zero: [must_be_preserved] looks at
    the hash field, which overlaps the tag. *)
Theorem tag_preserved_iff ubl v :
  in_u32 v → v ≠ 0 →
  must_be_preserved ubl prototype (set_ng2c_prof prototype v) = negb (v mod 2 ^ 7 =? 0).
Proof.
  intros Hv Hv0.
  assert (Hlow : mask_bits (set_ng2c_prof prototype v) biased_lock_mask_in_place = 1).
  { rewrite biased_bits_field, set_ng2c_prof_field by done. by rewrite get_set_field_other by lia. }
  assert (Hh : hash (set_ng2c_prof prototype v) = (v mod 2 ^ 7) <<< 24).
  { rewrite hash_set_prof by done.
    change (hash prototype) with 0. rewrite <- (Z.land_ones v 7) by lia.
    apply Z.bits_inj'; intros i Hi.
    rewrite set_field_testbit, Z.shiftl_spec, Z.land_spec, Z.bits_0 by lia.
    destruct (Z.leb_spec 24 i); cbn; [|by rewrite !Z.testbit_neg_r by lia].
    rewrite testbit_ones_nonneg by lia.
    destruct (Z.ltb_spec i (24 + 7)), (Z.ltb_spec (i - 24) 7); try lia; cbn;
      by rewrite ?andb_true_r, ?andb_false_r. }
  assert (Hp : must_be_preserved ubl prototype (set_ng2c_prof prototype v) =
    negb (is_unlocked (set_ng2c_prof prototype v)) || negb (has_no_hash (set_ng2c_prof prototype v))).
  { unfold must_be_preserved, must_be_preserved_with_bias, has_bias_pattern. rewrite Hlow.
    by destruct ubl. }
  rewrite Hp. unfold is_unlocked, has_no_hash. rewrite Hlow, Hh. cbn. f_equal.
  rewrite Z.shiftl_mul_pow2 by lia. unfold no_hash.
  destruct (Z.eqb_spec (v mod 2 ^ 7) 0) as [->|]; [done|]. apply Z.eqb_neq. lia.
Qed.

Lemma tag_preserved_iff_witness :
  must_be_preserved true prototype (set_ng2c_prof prototype 0x50080) = false ∧
  must_be_preserved true prototype (set_ng2c_prof prototype 0x50081) = true.
Proof.
  split; [rewrite (tag_preserved_iff true 0x50080)|rewrite (tag_preserved_iff true 0x50081)];
    (reflexivity || done || lia).
Defined.

End MarkOop.
