(* ===== verification/CompressedStream.v ===== *)
(** The compressed streams in which debugging information is written
    ([code/compressedStream.hpp], [code/compressedStream.cpp]): the UNSIGNED5
    coding of 32-bit integers, the coding of signs and of floating-point
    numbers on top of it, and the growing buffer of a stream. Whatever is
    written to a stream is read back from it. *)

From S2P Require Import Prelude.

Module CompressedStream.

Definition lg_H : Z := 6.
Definition H : Z := 1 <<< lg_H.
Definition L : Z := (1 <<< 8) - H.
Definition MAX_i : nat := 4.

(** [juint] and [jint] values are numbers of their ranges; the conversions
    between them are [u32] and [i32]. *)
Definition encode_sign (value : Z) : Z := u32 (i32 (value <<< 1) ^^^ (value >>> 31)).
Definition decode_sign (value : Z) : Z := i32 ((value >>> 1) ^^^ u32 (- (value &&& 1))).

Definition reverse_int (i : Z) : Z :=
  let i := u32 ((i &&& 0x55555555) <<< 1) ||| ((i >>> 1) &&& 0x55555555) in
  let i := u32 ((i &&& 0x33333333) <<< 2) ||| ((i >>> 2) &&& 0x33333333) in
  let i := u32 ((i &&& 0x0f0f0f0f) <<< 4) ||| ((i >>> 4) &&& 0x0f0f0f0f) in
  u32 (i <<< 24) ||| u32 ((i &&& 0xff00) <<< 8) ||| ((i >>> 8) &&& 0xff00) ||| (i >>> 24).

(** ** Writing

    Bytes of the buffer that were never written are absent. *)
Record CompressedWriteStream := mkWrite {
  _buffer : gmap Z Z;
  _size : Z;
  _position : Z
}.

Definition new_CompressedWriteStream (initial_size : Z) : CompressedWriteStream := mkWrite ∅ initial_size 0.

Definition full (s : CompressedWriteStream) : bool := _position s >=? _size s.

Definition store (s : CompressedWriteStream) (b : Z) : option CompressedWriteStream :=
  if (0 <=? _position s) && (_position s <? _size s)
  then Some (mkWrite (<[_position s := b]> (_buffer s)) (_size s) (_position s + 1))
  else None.

(** The product of [int]s overflows when the size reaches [2^30]. *)
Definition grow (s : CompressedWriteStream) : option CompressedWriteStream :=
  if i32 (_size s * 2) <? 0 then None
  else Some (mkWrite (filter (λ kb, kb.1 < _position s) (_buffer s)) (i32 (_size s * 2)) (_position s)).

Definition write (s : CompressedWriteStream) (b : Z) : option CompressedWriteStream :=
  s ← (if full s then grow s else Some s);
  store s b.

(** [rest] is [MAX_i - i]. *)
Fixpoint write_int_loop (rest : nat) (sum : Z) (s : CompressedWriteStream) : option CompressedWriteStream :=
  match rest with
  | O => write s (u8 sum)
  | S rest =>
      if sum <? L then write s (u8 sum)
      else
        let sum := u32 (sum - L) in
        let b_i := L + sum mod H in
        let sum := sum >>> lg_H in
        s ← write s (u8 b_i);
        write_int_loop rest sum s
  end.

Definition write_int_mb (s : CompressedWriteStream) (value : Z) : option CompressedWriteStream :=
  write_int_loop MAX_i (u32 value) s.

Definition write_int (s : CompressedWriteStream) (value : Z) : option CompressedWriteStream :=
  if (u32 value <? L) && negb (full s) then store s (u8 value) else write_int_mb s value.

Definition write_signed_int (s : CompressedWriteStream) (value : Z) : option CompressedWriteStream :=
  write_int s (i32 (encode_sign value)).

(** Floats and doubles are their bits. *)
Definition write_float (s : CompressedWriteStream) (bits : Z) : option CompressedWriteStream :=
  write_int s (i32 (reverse_int (u32 bits))).

Definition low (value : Z) : Z := i32 value.
Definition high (value : Z) : Z := i32 (value >>> 32).
Definition jlong_from (h l : Z) : Z := i64 ((i64 (h <<< 32) &&& i64 (0xffffffff <<< 32)) ||| u32 l).

Definition write_double (s : CompressedWriteStream) (bits : Z) : option CompressedWriteStream :=
  let h := u32 (high bits) in
  let l := u32 (low bits) in
  s ← write_int s (i32 (reverse_int h));
  write_int s (i32 (reverse_int l)).

Definition write_long (s : CompressedWriteStream) (value : Z) : option CompressedWriteStream :=
  s ← write_signed_int s (low value);
  write_signed_int s (high value).

Definition write_bool (s : CompressedWriteStream) (value : Z) : option CompressedWriteStream := write s (u8 value).
Definition write_byte (s : CompressedWriteStream) (value : Z) : option CompressedWriteStream := write s (u8 value).
Definition write_char (s : CompressedWriteStream) (value : Z) : option CompressedWriteStream := write_int s value.
Definition write_short (s : CompressedWriteStream) (value : Z) : option CompressedWriteStream := write_signed_int s value.

(** ** Reading

    A read gives the value and the new position. *)
Definition read (buffer : gmap Z Z) (position : Z) : option (Z * Z) :=
  b ← buffer !! position; Some (b, position + 1).

(** [rest] is [MAX_i - i]. *)
Fixpoint read_int_loop (rest : nat) (buffer : gmap Z Z) (pos i sum lg_H_i : Z) : option (Z * Z) :=
  match rest with
  | O => None
  | S rest =>
      let i := i + 1 in
      b_i ← buffer !! (pos + i);
      let sum := i32 (sum + i32 (b_i <<< lg_H_i)) in
      if (b_i <? L) || (i =? Z.of_nat MAX_i) then Some (sum, pos + i + 1)
      else read_int_loop rest buffer pos i sum (lg_H_i + lg_H)
  end.

Definition read_int_mb (buffer : gmap Z Z) (position b0 : Z) : option (Z * Z) :=
  read_int_loop MAX_i buffer (position - 1) 0 b0 lg_H.

Definition read_int (buffer : gmap Z Z) (position : Z) : option (Z * Z) :=
  '(b0, position) ← read buffer position;
  if b0 <? L then Some (b0, position) else read_int_mb buffer position b0.

Definition read_signed_int (buffer : gmap Z Z) (position : Z) : option (Z * Z) :=
  '(v, position) ← read_int buffer position; Some (decode_sign (u32 v), position).

Definition read_float (buffer : gmap Z Z) (position : Z) : option (Z * Z) :=
  '(rf, position) ← read_int buffer position; Some (i32 (reverse_int (u32 rf)), position).

Definition read_double (buffer : gmap Z Z) (position : Z) : option (Z * Z) :=
  '(rh, position) ← read_int buffer position;
  '(rl, position) ← read_int buffer position;
  Some (jlong_from (i32 (reverse_int (u32 rh))) (i32 (reverse_int (u32 rl))), position).

Definition read_long (buffer : gmap Z Z) (position : Z) : option (Z * Z) :=
  '(l, position) ← read_signed_int buffer position;
  '(h, position) ← read_signed_int buffer position;
  Some (jlong_from h l, position).

Definition read_bool (buffer : gmap Z Z) (position : Z) : option (Z * Z) := read buffer position.
Definition read_byte (buffer : gmap Z Z) (position : Z) : option (Z * Z) :=
  '(b, position) ← read buffer position; Some (i8 b, position).
Definition read_char (buffer : gmap Z Z) (position : Z) : option (Z * Z) :=
  '(v, position) ← read_int buffer position; Some (u16 v, position).
Definition read_short (buffer : gmap Z Z) (position : Z) : option (Z * Z) :=
  '(v, position) ← read_signed_int buffer position; Some (u16 (v + 0x8000) - 0x8000, position).

End CompressedStream.

(** * Facts *)

Module CompressedStreamFacts.
Import CompressedStream.

(** ** Signs and bits *)

Lemma i32_add_l a b : i32 (i32 a + b) = i32 (a + b).
Proof. rewrite !i32_mod. Z.to_euclidean_division_equations; lia. Qed.

Lemma i32_add_r a b : i32 (a + i32 b) = i32 (a + b).
Proof. by rewrite Z.add_comm, i32_add_l, Z.add_comm. Qed.

Lemma decode_encode_sign v : - 2 ^ 31 <= v < 2 ^ 31 → decode_sign (encode_sign v) = v.
Proof.
  intros Hv. unfold decode_sign, encode_sign. rewrite (Z.shiftl_mul_pow2 v 1) by lia.
  change (v * 2 ^ 1) with (v * 2). apply i32_inj_range; [apply i32_range|done|]. rewrite u32_i32.
  destruct (Z.ltb_spec v 0) as [Hn|Hn].
  - assert (v >>> 31 = -1) as -> by (rewrite Z.shiftr_div_pow2 by lia; Z.to_euclidean_division_equations; lia).
    rewrite Z.lxor_m1_r. assert (u32 (Z.lnot (i32 (v * 2))) = - v * 2 - 1) as ->.
    { rewrite u32_mod, i32_mod. unfold Z.lnot. Z.to_euclidean_division_equations; lia. }
    assert ((- v * 2 - 1) &&& 1 = 1) as -> by (change 1 with (2 ^ 1 - 1) at 2; rewrite land_low_ones by lia; Z.to_euclidean_division_equations; lia).
    rewrite Z.shiftr_div_pow2 by lia. change (u32 (-1)) with (2 ^ 32 - 1).
    assert ((- v * 2 - 1) / 2 ^ 1 = - v - 1) as -> by (Z.to_euclidean_division_equations; lia).
    apply Z.bits_inj'. intros k Hk. unfold u32. rewrite !Z.land_spec, Z.lxor_spec.
    replace (- v - 1) with (Z.lnot v) by (unfold Z.lnot; lia). rewrite Z.lnot_spec by lia.
    change (2 ^ 32 - 1) with (Z.ones 32). change 0xFFFFFFFF with (Z.ones 32).
    change (- (1) &&& Z.ones 32) with (Z.ones 32). rewrite testbit_ones_nonneg by lia. destruct (Z.testbit v k), (k <? 32); done.
  - assert (v >>> 31 = 0) as -> by (rewrite Z.shiftr_div_pow2 by lia; Z.to_euclidean_division_equations; lia).
    rewrite Z.lxor_0_r, u32_i32, (u32_small (v * 2)) by (unfold in_u32; lia).
    assert (v * 2 &&& 1 = 0) as -> by (change 1 with (2 ^ 1 - 1); rewrite land_low_ones by lia; Z.to_euclidean_division_equations; lia).
    rewrite Z.lxor_0_r, Z.shiftr_div_pow2 by lia. f_equal. Z.to_euclidean_division_equations; lia.
Qed.

Lemma encode_sign_range v : in_u32 (encode_sign v).
Proof. apply u32_range. Qed.

(** A case for every bit of a 32-bit number. *)
Ltac each_bit k :=
  let E := fresh in
  assert (k=0∨k=1∨k=2∨k=3∨k=4∨k=5∨k=6∨k=7∨k=8∨k=9∨k=10∨k=11∨k=12∨k=13∨k=14∨k=15∨k=16∨k=17∨k=18∨k=19∨
          k=20∨k=21∨k=22∨k=23∨k=24∨k=25∨k=26∨k=27∨k=28∨k=29∨k=30∨k=31) as E by lia;
  destruct_or! E; subst k.

(** One step of the reversal exchanges blocks of [s] bits. *)
Definition swap (s m i : Z) : Z := u32 ((i &&& m) <<< s) ||| ((i >>> s) &&& m).

Lemma swap_bit s m i k :
  0 <= s → 0 <= k < 32 →
  Z.testbit (swap s m i) k = (Z.testbit i (k - s) && Z.testbit m (k - s)) || (Z.testbit i (k + s) && Z.testbit m k).
Proof.
  intros Hs Hk. unfold swap, u32. change 0xFFFFFFFF with (Z.ones 32).
  rewrite Z.lor_spec, !Z.land_spec, Z.shiftl_spec, Z.shiftr_spec, Z.land_spec, testbit_ones_nonneg by lia.
  rewrite (proj2 (Z.ltb_lt k 32)) by lia. by rewrite andb_true_r.
Qed.

Lemma swap_high s m i k : 0 <= s → in_u32 m → 32 <= k → Z.testbit (swap s m i) k = false.
Proof.
  intros Hs Hm Hk. unfold swap. rewrite Z.lor_spec, Z.land_spec, (bits_of_range m 32 k Hm Hk), andb_false_r, orb_false_r.
  apply (bits_of_range _ 32); [apply u32_range|done].
Qed.

Definition exchanged (s k : Z) : Z := if Z.testbit k (Z.log2 s) then k - s else k + s.

Lemma swap_exchanges s m i k :
  (s, m) = (1, 0x55555555) ∨ (s, m) = (2, 0x33333333) ∨ (s, m) = (4, 0x0f0f0f0f) → 0 <= k < 32 →
  Z.testbit (swap s m i) k = Z.testbit i (exchanged s k).
Proof.
  intros Hm Hk. rewrite swap_bit by (destruct_or! Hm; simplify_eq; lia). generalize (Z.testbit i). intros f.
  destruct_or! Hm; injection Hm as -> ->; each_bit k; cbn; by rewrite ?andb_true_r, ?andb_false_r, ?orb_false_r.
Qed.

Lemma reverse_int_bit i k : 0 <= k < 32 → Z.testbit (reverse_int i) k = Z.testbit i (31 - k).
Proof.
  intros Hk. unfold reverse_int. cbv zeta. fold (swap 1 0x55555555 i).
  fold (swap 2 0x33333333 (swap 1 0x55555555 i)). set (i2 := swap 2 0x33333333 (swap 1 0x55555555 i)).
  fold (swap 4 0x0f0f0f0f i2). set (x := swap 4 0x0f0f0f0f i2). unfold u32. change 0xFFFFFFFF with (Z.ones 32).
  rewrite !Z.lor_spec, !Z.land_spec, !Z.shiftl_spec, !Z.shiftr_spec, Z.land_spec, testbit_ones_nonneg by lia.
  assert (Hhigh : ∀ n, 32 <= n → Z.testbit x n = false) by (intros; by apply swap_high).
  assert (Hneg : ∀ n, n < 0 → Z.testbit x n = false) by (intros; by apply Z.testbit_neg_r).
  assert (Hbit : ∀ n, 0 <= n < 32 → Z.testbit x n = Z.testbit i (exchanged 1 (exchanged 2 (exchanged 4 n)))).
  { intros n Hn. unfold x, i2. rewrite !swap_exchanges; [done|by left| |by (right; left)| |by right; right|done]; each_bit n; done. }
  revert Hhigh Hneg Hbit. generalize (Z.testbit x). generalize (Z.testbit i). clear x i2. intros f g Hhigh Hneg Hbit.
  each_bit k; cbn -[exchanged]; 
    repeat match goal with |- context [g ?n] => first [rewrite (Hhigh n) by lia | rewrite (Hneg n) by lia | rewrite (Hbit n) by lia] end;
    cbn; by rewrite ?andb_true_r, ?andb_false_r, ?orb_false_r.
Qed.

Lemma reverse_int_range i : in_u32 (reverse_int i).
Proof.
  unfold reverse_int. cbv zeta. fold (swap 1 0x55555555 i). fold (swap 2 0x33333333 (swap 1 0x55555555 i)).
  set (i2 := swap 2 _ _). fold (swap 4 0x0f0f0f0f i2). set (x := swap 4 _ i2).
  assert (0 <= x). { unfold x, swap. apply Z.lor_nonneg. split; [apply u32_range|]. apply Z.land_nonneg. by right. }
  assert (0 <= x >>> 24 ∧ 0 <= (x >>> 8) &&& 0xff00) as [H1 H2].
  { split; [by apply Z.shiftr_nonneg|]. apply Z.land_nonneg. by right. }
  split; [rewrite !Z.lor_nonneg; split_and!; (done || apply u32_range)|].
  apply range_of_bits; [lia|rewrite !Z.lor_nonneg; split_and!; (done || apply u32_range)|].
  intros k Hk. rewrite !Z.lor_spec, Z.land_spec, !Z.shiftr_spec by lia.
  unfold x at 3 4. rewrite !swap_high by (done || lia).
  rewrite !(bits_of_range (u32 _) 32 k) by (apply u32_range || lia). done.
Qed.

Lemma reverse_int_involutive i : in_u32 i → reverse_int (reverse_int i) = i.
Proof.
  intros Hi. apply Z.bits_inj'. intros k Hk. destruct (Z.ltb_spec k 32) as [Hlt|Hge].
  - rewrite !reverse_int_bit by lia. f_equal. lia.
  - rewrite !(bits_of_range _ 32 k); (apply reverse_int_range || done).
Qed.

(** ** Streams *)

Definition holds (buffer : gmap Z Z) (pos : Z) (l : list Z) : Prop :=
  ∀ i b, l !! i = Some b → buffer !! (pos + Z.of_nat i) = Some b.

Definition stream_ok (s : CompressedWriteStream) : Prop := 0 < _size s ∧ 0 <= _position s <= _size s.

(** [l] was appended at the position of [s]. *)
Record appended (s : CompressedWriteStream) (l : list Z) (s' : CompressedWriteStream) : Prop := mkAppended {
  ap_ok : stream_ok s';
  ap_position : _position s' = _position s + Z.of_nat (length l);
  ap_holds : holds (_buffer s') (_position s) l;
  ap_before : ∀ k, 0 <= k < _position s → _buffer s' !! k = _buffer s !! k
}.

Lemma appended_app s l s' k s'' : appended s l s' → appended s' k s'' → 0 <= _position s → appended s (l ++ k) s''.
Proof.
  intros [Hok Hp Hh Hb] [Hok' Hp' Hh' Hb'] H0. split; [done|rewrite length_app; lia| |].
  - intros i b Hi. apply lookup_app_Some in Hi as [Hi|[Hge Hi]].
    + rewrite Hb'; [by apply Hh|]. apply lookup_lt_Some in Hi. lia.
    + rewrite <- (Hh' _ _ Hi). f_equal. lia.
  - intros j Hj. rewrite Hb' by lia. by apply Hb.
Qed.

Lemma holds_app buf pos l k : holds buf pos (l ++ k) → holds buf pos l ∧ holds buf (pos + Z.of_nat (length l)) k.
Proof.
  intros Hh. split; intros i b Hi.
  - apply Hh. by apply lookup_app_l_Some.
  - rewrite <- (Hh (length l + i)%nat b); [f_equal; lia|]. rewrite lookup_app_r by lia. rewrite <- Hi. f_equal. lia.
Qed.

Lemma holds_cons buf pos b l : holds buf pos (b :: l) → buf !! pos = Some b ∧ holds buf (pos + 1) l.
Proof. intros [Hb Hl]%(holds_app _ _ [b]). split; [|done]. rewrite <- (Hb 0%nat b); [f_equal; lia|done]. Qed.

Lemma store_spec s b :
  stream_ok s → _position s < _size s → ∃ s', store s b = Some s' ∧ appended s [b] s'.
Proof.
  intros [H0 H1] Hlt. unfold store. rewrite (proj2 (Z.leb_le _ _)), (proj2 (Z.ltb_lt _ _)) by lia. eexists. split; [done|].
  split; cbn; [split; cbn; lia|lia| |].
  - intros [|i] c Hc; [|done]. injection Hc as ->. by rewrite Z.add_0_r, lookup_insert_eq.
  - intros k Hk. apply lookup_insert_ne. lia.
Qed.

Lemma write_spec s b :
  stream_ok s → _position s < 2 ^ 30 → ∃ s', write s b = Some s' ∧ appended s [b] s'.
Proof.
  intros [H0 H1] Hlt. unfold write, full. destruct (Z.geb_spec (_position s) (_size s)) as [Hge|Hge]; cbn [mbind option_bind].
  - unfold grow. rewrite i32_small by lia. rewrite (proj2 (Z.ltb_ge _ _)) by lia. cbn [mbind option_bind].
    destruct (store_spec (mkWrite (filter (λ kb, kb.1 < _position s) (_buffer s)) (_size s * 2) (_position s)) b)
      as (s' & E & [Ho Hp Hh Hb]); cbn in *; [split; cbn; lia|lia|]. exists s'. split; [done|]. split; [done|done|done|].
    intros k Hk. rewrite Hb by done. destruct (_buffer s !! k) as [c|] eqn:E'.
    + apply map_lookup_filter_Some. split; [done|]. cbn. lia.
    + apply map_lookup_filter_None. by left.
  - apply store_spec; [by split|done].
Qed.

(** ** UNSIGNED5 *)

Fixpoint unsigned5 (rest : nat) (sum : Z) : list Z :=
  match rest with
  | O => [sum]
  | S rest => if sum <? 192 then [sum] else (192 + (sum - 192) mod 64) :: unsigned5 rest ((sum - 192) / 64)
  end.

Definition unsigned5_bytes (value : Z) : list Z := unsigned5 4 (u32 value).

Lemma unsigned5_length rest sum : (1 <= length (unsigned5 rest sum) <= S rest)%nat.
Proof. revert sum. induction rest as [|rest IH]; intros sum; cbn; [lia|]. destruct (_ <? _); cbn; [lia|]. specialize (IH ((sum - 192) / 64)). lia. Qed.

Lemma u8_small z : 0 <= z < 256 → u8 z = z.
Proof. intros. rewrite u8_mod. by apply Z.mod_small. Qed.

Lemma write_int_loop_spec rest sum s :
  0 <= sum < 256 * 64 ^ Z.of_nat rest → sum < 2 ^ 32 → stream_ok s → _position s + Z.of_nat rest < 2 ^ 30 →
  ∃ s', write_int_loop rest sum s = Some s' ∧ appended s (unsigned5 rest sum) s'.
Proof.
  revert sum s. induction rest as [|rest IH]; intros sum s Hs Hs32 Hok Hp; cbn [write_int_loop unsigned5].
  - rewrite u8_small by lia. by apply write_spec; [|lia].
  - change L with 192. change H with 64. destruct (Z.ltb_spec sum 192) as [Hlt|Hge]; [rewrite u8_small by lia; apply write_spec; [done|lia]|].
    rewrite (u32_small (sum - 192)) by (unfold in_u32; lia). rewrite Z.shiftr_div_pow2 by done. change (2 ^ lg_H) with 64.
    pose proof (Z.mod_pos_bound (sum - 192) 64 ltac:(lia)). rewrite u8_small by lia.
    destruct (write_spec s (192 + (sum - 192) mod 64) Hok ltac:(lia)) as (s1 & -> & A1). cbn [mbind option_bind].
    assert (Z.of_nat (S rest) = Z.of_nat rest + 1) as E by lia. rewrite E, Z.pow_add_r in Hs by lia.
    destruct (IH ((sum - 192) / 64) s1) as (s2 & -> & A2).
    { Z.to_euclidean_division_equations; lia. }
    { Z.to_euclidean_division_equations; lia. }
    { apply A1. }
    { rewrite (ap_position _ _ _ A1). cbn. lia. }
    exists s2. split; [done|]. apply (appended_app s [_] s1); [done..|apply Hok].
Qed.

Lemma write_int_spec s v :
  stream_ok s → _position s + 4 < 2 ^ 30 → ∃ s', write_int s v = Some s' ∧ appended s (unsigned5_bytes v) s'.
Proof.
  intros Hok Hp. pose proof (u32_range v) as Hv. unfold write_int, unsigned5_bytes. change L with 192.
  destruct (Z.ltb_spec (u32 v) 192) as [Hlt|Hge].
  - assert (unsigned5 4 (u32 v) = [u32 v]) as -> by (cbn; by rewrite (proj2 (Z.ltb_lt _ _))).
    destruct (full s) eqn:Hf; cbn [andb negb].
    + unfold write_int_mb, write_int_loop. cbn. change L with 192. rewrite (proj2 (Z.ltb_lt _ _)) by lia.
      rewrite u8_small by (unfold in_u32 in *; lia). apply write_spec; [done|lia].
    + unfold full in Hf. assert (u8 v = u32 v) as ->.
      { rewrite u8_mod, u32_mod in *. Z.to_euclidean_division_equations; lia. }
      apply store_spec; [done|]. destruct (Z.geb_spec (_position s) (_size s)); [done|lia].
  - cbn [andb]. apply write_int_loop_spec; [cbn|unfold in_u32 in *..|done|cbn]; unfold in_u32 in *; lia.
Qed.

Lemma read_int_loop_spec rest buf pos i acc sum :
  i = 3 - Z.of_nat rest → 0 <= i → holds buf (pos + i + 1) (unsigned5 rest sum) →
  0 <= sum →
  read_int_loop (S rest) buf pos i acc (6 * (i + 1)) =
  Some (i32 (acc + sum * 64 ^ (i + 1)), pos + i + 1 + Z.of_nat (length (unsigned5 rest sum))).
Proof.
  assert (Hstep : ∀ b acc i, 0 <= i → i32 (acc + i32 (b <<< (6 * (i + 1)))) = i32 (acc + b * 64 ^ (i + 1))).
  { intros b ac j Hj. rewrite Z.shiftl_mul_pow2, Z.pow_mul_r by lia. change (2 ^ 6) with 64.
    apply i32_add_r. }
  revert i acc sum. induction rest as [|rest IH]; intros i acc sum Hi H0 Hh Hs; cbn [unsigned5] in *.
  - apply holds_cons in Hh as [Hb _]. cbn [read_int_loop length]. rewrite Z.add_assoc, Hb. cbn [mbind option_bind].
    assert ((i + 1 =? Z.of_nat MAX_i) = true) as -> by (apply Z.eqb_eq; unfold MAX_i; lia). rewrite orb_true_r, Hstep by done. done.
  - remember (S rest) as r. destruct (Z.ltb_spec sum 192) as [Hlt|Hge]; apply holds_cons in Hh as [Hb Hh]; cbn [read_int_loop length];
      rewrite Z.add_assoc, Hb; cbn [mbind option_bind]; change L with 192.
    + rewrite (proj2 (Z.ltb_lt _ _)) by lia. cbn [orb]. by rewrite Hstep by done.
    + pose proof (Z.mod_pos_bound (sum - 192) 64 ltac:(lia)). rewrite (proj2 (Z.ltb_ge _ _)) by lia.
      assert ((i + 1 =? Z.of_nat MAX_i) = false) as -> by (apply Z.eqb_neq; unfold MAX_i; lia). cbn [orb].
      rewrite Hstep by done. subst r. replace (6 * (i + 1) + lg_H) with (6 * (i + 1 + 1)) by (unfold lg_H; lia).
      rewrite (IH (i + 1)) with (sum := (sum - 192) / 64); [|lia|lia| |Z.to_euclidean_division_equations; lia].
      2:{ by rewrite Z.add_assoc. }
      f_equal. f_equal; [|lia]. rewrite i32_add_l. f_equal. rewrite (Z.pow_add_r 64 (i + 1) 1) by lia.
      assert (sum = 192 + 64 * ((sum - 192) / 64) + (sum - 192) mod 64) as E by (Z.to_euclidean_division_equations; lia).
      rewrite E at 3. ring.
Qed.

Lemma read_int_spec buf pos v :
  - 2 ^ 31 <= v < 2 ^ 31 → holds buf pos (unsigned5_bytes v) →
  read_int buf pos = Some (v, pos + Z.of_nat (length (unsigned5_bytes v))).
Proof.
  intros Hv. pose proof (u32_range v) as Hu. unfold in_u32 in Hu. unfold unsigned5_bytes.
  change (unsigned5 4 (u32 v)) with
    (if u32 v <? 192 then [u32 v] else (192 + (u32 v - 192) mod 64) :: unsigned5 3 ((u32 v - 192) / 64)).
  unfold read_int, read. change L with 192. destruct (Z.ltb_spec (u32 v) 192) as [Hlt|Hge]; intros [Hb Hh]%holds_cons;
    rewrite Hb; cbn [mbind option_bind].
  - rewrite (proj2 (Z.ltb_lt _ _)) by done. f_equal. f_equal. rewrite u32_mod in *. Z.to_euclidean_division_equations; lia.
  - pose proof (Z.mod_pos_bound (u32 v - 192) 64 ltac:(lia)). rewrite (proj2 (Z.ltb_ge _ _)) by lia.
    unfold read_int_mb, MAX_i. replace (pos + 1 - 1) with pos by lia. change lg_H with (6 * (0 + 1)).
    rewrite (read_int_loop_spec 3 buf pos 0) with (sum := (u32 v - 192) / 64);
      [|done|done|by rewrite Z.add_0_r|Z.to_euclidean_division_equations; lia].
    f_equal. f_equal; [|cbn [length]; lia]. change (64 ^ (0 + 1)) with 64.
    pose proof (Z.div_mod (u32 v - 192) 64 ltac:(lia)). replace (_ + _) with (u32 v) by lia.
    rewrite i32_u32. by apply i32_small.
Qed.

(** ** What is written is read back *)

(** A value of each kind that a stream holds; floating-point values are
    their bits. *)
Inductive item :=
  | Bool (value : Z) | Byte (value : Z) | Char (value : Z) | Short (value : Z) | Int (value : Z)
  | SignedInt (value : Z) | Float (bits : Z) | Double (bits : Z) | Long (value : Z).

Definition item_ok (x : item) : Prop :=
  match x with
  | Bool v => 0 <= v < 2 ^ 8
  | Byte v => - 2 ^ 7 <= v < 2 ^ 7
  | Char v => 0 <= v < 2 ^ 16
  | Short v => - 2 ^ 15 <= v < 2 ^ 15
  | Int v | SignedInt v | Float v => - 2 ^ 31 <= v < 2 ^ 31
  | Double v | Long v => - 2 ^ 63 <= v < 2 ^ 63
  end.

Definition write_item (s : CompressedWriteStream) (x : item) : option CompressedWriteStream :=
  match x with
  | Bool v => write_bool s v
  | Byte v => write_byte s v
  | Char v => write_char s v
  | Short v => write_short s v
  | Int v => write_int s v
  | SignedInt v => write_signed_int s v
  | Float v => write_float s v
  | Double v => write_double s v
  | Long v => write_long s v
  end.

(** Reads an item of the kind of [x]. *)
Definition read_item (buffer : gmap Z Z) (position : Z) (x : item) : option (item * Z) :=
  match x with
  | Bool _ => '(v, p) ← read_bool buffer position; Some (Bool v, p)
  | Byte _ => '(v, p) ← read_byte buffer position; Some (Byte v, p)
  | Char _ => '(v, p) ← read_char buffer position; Some (Char v, p)
  | Short _ => '(v, p) ← read_short buffer position; Some (Short v, p)
  | Int _ => '(v, p) ← read_int buffer position; Some (Int v, p)
  | SignedInt _ => '(v, p) ← read_signed_int buffer position; Some (SignedInt v, p)
  | Float _ => '(v, p) ← read_float buffer position; Some (Float v, p)
  | Double _ => '(v, p) ← read_double buffer position; Some (Double v, p)
  | Long _ => '(v, p) ← read_long buffer position; Some (Long v, p)
  end.

Fixpoint write_items (s : CompressedWriteStream) (l : list item) : option CompressedWriteStream :=
  match l with [] => Some s | x :: l => s ← write_item s x; write_items s l end.

Fixpoint read_items (buffer : gmap Z Z) (position : Z) (l : list item) : option (list item * Z) :=
  match l with
  | [] => Some ([], position)
  | x :: l => '(y, position) ← read_item buffer position x;
              '(k, position) ← read_items buffer position l;
              Some (y :: k, position)
  end.

Definition item_bytes (x : item) : list Z :=
  match x with
  | Bool v | Byte v => [u8 v]
  | Char v | Int v => unsigned5_bytes v
  | Short v | SignedInt v => unsigned5_bytes (i32 (encode_sign v))
  | Float v => unsigned5_bytes (i32 (reverse_int (u32 v)))
  | Double v => unsigned5_bytes (i32 (reverse_int (u32 (high v)))) ++ unsigned5_bytes (i32 (reverse_int (u32 (low v))))
  | Long v => unsigned5_bytes (i32 (encode_sign (low v))) ++ unsigned5_bytes (i32 (encode_sign (high v)))
  end.

Lemma unsigned5_bytes_length v : (1 <= length (unsigned5_bytes v) <= 5)%nat.
Proof. apply unsigned5_length. Qed.

Lemma write_two s v w :
  stream_ok s → _position s + 10 < 2 ^ 30 →
  ∃ s', (s ← write_int s v; write_int s w) = Some s' ∧ appended s (unsigned5_bytes v ++ unsigned5_bytes w) s'.
Proof.
  intros Hok Hp. destruct (write_int_spec s v Hok) as (s1 & -> & A1); [lia|]. cbn [mbind option_bind].
  pose proof (unsigned5_bytes_length v). pose proof (ap_position _ _ _ A1).
  destruct (write_int_spec s1 w (ap_ok _ _ _ A1)) as (s2 & -> & A2); [lia|]. exists s2. split; [done|].
  apply (appended_app s _ s1); [done..|apply Hok].
Qed.

Lemma write_item_spec s x :
  stream_ok s → _position s + 10 < 2 ^ 30 → ∃ s', write_item s x = Some s' ∧ appended s (item_bytes x) s'.
Proof. intros Hok Hp. destruct x; (apply write_two || apply write_int_spec || apply write_spec); (done || lia). Qed.

Lemma jlong_from_high_low v : - 2 ^ 63 <= v < 2 ^ 63 → jlong_from (high v) (low v) = v.
Proof.
  intros Hv. unfold jlong_from, high, low. rewrite (Z.shiftr_div_pow2 v 32) by lia.
  rewrite (i32_small (v / 2 ^ 32)) by (Z.to_euclidean_division_equations; lia).
  rewrite Z.shiftl_mul_pow2, (i64_small (v / 2 ^ 32 * 2 ^ 32)) by (Z.to_euclidean_division_equations; lia).
  rewrite u32_i32. assert (v / 2 ^ 32 * 2 ^ 32 &&& i64 (0xffffffff <<< 32) = v / 2 ^ 32 * 2 ^ 32) as ->.
  { change (i64 (0xffffffff <<< 32)) with (-1 <<< 32). rewrite <- Z.shiftl_mul_pow2, <- Z.shiftl_land by lia. by rewrite Z.land_m1_r. }
  rewrite <- Z.shiftl_mul_pow2, Z.lor_comm, lor_shiftl_add by (lia || apply u32_range).
  rewrite u32_mod. rewrite i64_small; Z.to_euclidean_division_equations; lia.
Qed.

Lemma read_signed_int_spec buf pos v :
  - 2 ^ 31 <= v < 2 ^ 31 → holds buf pos (unsigned5_bytes (i32 (encode_sign v))) →
  read_signed_int buf pos = Some (v, pos + Z.of_nat (length (unsigned5_bytes (i32 (encode_sign v))))).
Proof.
  intros Hv Hh. unfold read_signed_int. rewrite (read_int_spec _ _ _ (i32_range _) Hh). cbn [mbind option_bind].
  rewrite u32_i32, u32_small by apply encode_sign_range. by rewrite decode_encode_sign.
Qed.

Lemma reversed_back v : - 2 ^ 31 <= v < 2 ^ 31 → i32 (reverse_int (u32 (i32 (reverse_int (u32 v))))) = v.
Proof.
  intros Hv. rewrite u32_i32, (u32_small (reverse_int _)) by apply reverse_int_range.
  rewrite reverse_int_involutive by apply u32_range. rewrite i32_u32. by apply i32_small.
Qed.

Lemma high_range v : - 2 ^ 31 <= high v < 2 ^ 31.
Proof. apply i32_range. Qed.

Lemma low_range v : - 2 ^ 31 <= low v < 2 ^ 31.
Proof. apply i32_range. Qed.

#[local] Opaque reverse_int encode_sign unsigned5_bytes i32 u32.

Lemma read_double_from buf pos rh p1 rl p2 :
  read_int buf pos = Some (rh, p1) → read_int buf p1 = Some (rl, p2) →
  read_double buf pos = Some (jlong_from (i32 (reverse_int (u32 rh))) (i32 (reverse_int (u32 rl))), p2).
Proof. intros E1 E2. unfold read_double. rewrite E1. cbn [mbind option_bind]. rewrite E2. done. Qed.

Lemma read_double_spec buf pos v :
  - 2 ^ 63 <= v < 2 ^ 63 → holds buf pos (item_bytes (Double v)) →
  read_double buf pos = Some (v, pos + Z.of_nat (length (item_bytes (Double v)))).
Proof.
  intros Hv [H1 H2]%holds_app. erewrite read_double_from; [|apply (read_int_spec _ _ _ (i32_range _) H1)|apply (read_int_spec _ _ _ (i32_range _) H2)].
  rewrite (reversed_back (high v) (high_range v)), (reversed_back (low v) (low_range v)), jlong_from_high_low by done.
  cbn [item_bytes]. rewrite length_app, Nat2Z.inj_add, Z.add_assoc. done.
Qed.

Lemma read_long_spec buf pos v :
  - 2 ^ 63 <= v < 2 ^ 63 → holds buf pos (item_bytes (Long v)) →
  read_long buf pos = Some (v, pos + Z.of_nat (length (item_bytes (Long v)))).
Proof.
  intros Hv Hh. cbn [item_bytes] in *. apply holds_app in Hh as [H1 H2]. unfold read_long.
  rewrite (read_signed_int_spec _ _ _ (low_range v) H1). cbn [mbind option_bind].
  rewrite (read_signed_int_spec _ _ _ (high_range v) H2). cbn [mbind option_bind].
  rewrite jlong_from_high_low, length_app, Nat2Z.inj_add, Z.add_assoc by done. done.
Qed.

Lemma read_char_spec buf pos v :
  0 <= v < 2 ^ 16 → holds buf pos (unsigned5_bytes v) →
  read_char buf pos = Some (v, pos + Z.of_nat (length (unsigned5_bytes v))).
Proof.
  intros Hv Hh. unfold read_char. rewrite (read_int_spec buf pos v); [|lia|done]. cbn [mbind option_bind].
  by rewrite u16_small.
Qed.

Lemma read_short_spec buf pos v :
  - 2 ^ 15 <= v < 2 ^ 15 → holds buf pos (unsigned5_bytes (i32 (encode_sign v))) →
  read_short buf pos = Some (v, pos + Z.of_nat (length (unsigned5_bytes (i32 (encode_sign v))))).
Proof.
  intros Hv Hh. unfold read_short. rewrite (read_signed_int_spec buf pos v); [|lia|done]. cbn [mbind option_bind].
  do 2 f_equal. rewrite u16_mod. Z.to_euclidean_division_equations; lia.
Qed.

Lemma item_read_back buf pos x :
  item_ok x → holds buf pos (item_bytes x) → read_item buf pos x = Some (x, pos + Z.of_nat (length (item_bytes x))).
Proof.
  intros Hok Hh. destruct x as [v|v|v|v|v|v|v|v|v]; cbn [item_ok read_item] in *.
  - apply holds_cons in Hh as [Hb _]. unfold read_bool, read. rewrite Hb. cbn [mbind option_bind item_bytes length]. by rewrite u8_small.
  - apply holds_cons in Hh as [Hb _]. unfold read_byte, read. rewrite Hb. cbn [mbind option_bind item_bytes length]. do 3 f_equal.
    rewrite i8_mod, u8_mod. Z.to_euclidean_division_equations; lia.
  - by rewrite (read_char_spec buf pos v).
  - by rewrite (read_short_spec buf pos v).
  - by rewrite (read_int_spec buf pos v).
  - by rewrite (read_signed_int_spec buf pos v).
  - unfold read_float. rewrite (read_int_spec _ _ _ (i32_range _) Hh). cbn [mbind option_bind]. by rewrite reversed_back.
  - by rewrite (read_double_spec buf pos v).
  - by rewrite (read_long_spec buf pos v).
Qed.

(** The most bytes that a value takes. *)
Definition max_bytes (x : item) : Z :=
  match x with Bool _ | Byte _ => 1 | Char _ | Short _ | Int _ | SignedInt _ | Float _ => 5 | Double _ | Long _ => 10 end.

Lemma item_bytes_length x : 1 <= Z.of_nat (length (item_bytes x)) <= max_bytes x.
Proof.
  destruct x; cbn [item_bytes max_bytes]; rewrite ?length_app; cbn [length];
    repeat match goal with |- context [unsigned5_bytes ?v] => pose proof (unsigned5_bytes_length v); generalize dependent (length (unsigned5_bytes v)); intros end; lia.
Qed.

Lemma items_bytes_length l : 0 <= Z.of_nat (length (l ≫= item_bytes)) <= sum_by max_bytes l.
Proof.
  induction l as [|x l IH]; [done|]. change ((x :: l) ≫= item_bytes) with (item_bytes x ++ (l ≫= item_bytes)).
  rewrite length_app. pose proof (item_bytes_length x). cbn [sum_by]. lia.
Qed.

Lemma write_items_spec s l :
  stream_ok s → _position s + sum_by max_bytes l + 10 < 2 ^ 30 →
  ∃ s', write_items s l = Some s' ∧ appended s (l ≫= item_bytes) s'.
Proof.
  revert s. induction l as [|x l IH]; intros s Hok Hp.
  - exists s. split; [done|]. split; [done|cbn; lia| |done]. intros [|i] b Hi; done.
  - cbn [write_items sum_by] in *. pose proof (items_bytes_length l). pose proof (item_bytes_length x).
    destruct (write_item_spec s x Hok) as (s1 & -> & A1); [lia|]. cbn [mbind option_bind]. pose proof (ap_position _ _ _ A1).
    destruct (IH s1 (ap_ok _ _ _ A1)) as (s2 & -> & A2); [lia|]. exists s2. split; [done|].
    apply (appended_app s (item_bytes x) s1); [done..|apply Hok].
Qed.

Lemma items_read_back buf pos l :
  Forall item_ok l → holds buf pos (l ≫= item_bytes) →
  read_items buf pos l = Some (l, pos + Z.of_nat (length (l ≫= item_bytes))).
Proof.
  intros Hl. revert pos. induction Hl as [|x l Hx Hl IH]; intros pos Hh.
  - cbn. by rewrite Z.add_0_r.
  - change ((x :: l) ≫= item_bytes) with (item_bytes x ++ (l ≫= item_bytes)) in *. apply holds_app in Hh as [H1 H2].
    cbn [read_items]. rewrite (item_read_back _ _ _ Hx H1). cbn [mbind option_bind]. rewrite (IH _ H2). cbn [mbind option_bind].
    rewrite length_app. do 2 f_equal. lia.
Qed.

(** C31: A compressed stream gives back what was written to it. Writing a
    sequence of values to a new stream of a positive size succeeds, growing the
    buffer as needed, as long as the values fit below 1 GB (where the doubling
    of the size leaves the range of an int); reading values of the same kinds
    from its buffer returns them in order and ends at the position of the
    writer. Booleans and bytes take one byte, other values of up to 32 bits at
    most five, and longs and doubles at most ten. *)
Theorem compressed_stream_roundtrip initial_size l :
  0 < initial_size → sum_by max_bytes l + 10 < 2 ^ 30 → Forall item_ok l →
  ∃ s, write_items (new_CompressedWriteStream initial_size) l = Some s ∧
    read_items (_buffer s) 0 l = Some (l, _position s) ∧ _position s <= sum_by max_bytes l.
Proof.
  intros Hs Hl Hok. destruct (write_items_spec (new_CompressedWriteStream initial_size) l) as (s & E & A); [split; cbn; lia|cbn; lia|].
  destruct A as [_ Hpos Hh _]. cbn [new_CompressedWriteStream _position] in *.
  exists s. split; [done|]. split; [by rewrite (items_read_back _ 0 _ Hok Hh), Hpos|]. rewrite Hpos. pose proof (items_bytes_length l). lia.
Qed.

(** A stream made with size 0 cannot grow: the first byte is stored outside
    its buffer. *)
Lemma empty_stream_faults v : write_int (new_CompressedWriteStream 0) v = None.
Proof.
  unfold write_int. change (full (new_CompressedWriteStream 0)) with true. rewrite andb_false_r.
  unfold write_int_mb. cbn [write_int_loop MAX_i]. by destruct (_ <? _).
Qed.

Lemma compressed_stream_roundtrip_witness :
  ∃ s, write_items (new_CompressedWriteStream 1) [Int (-1); SignedInt (-5); Float 0x3f800000; Long (- 2 ^ 40)] = Some s ∧
    read_items (_buffer s) 0 [Int (-1); SignedInt (-5); Float 0x3f800000; Long (- 2 ^ 40)]
      = Some ([Int (-1); SignedInt (-5); Float 0x3f800000; Long (- 2 ^ 40)], _position s).
Proof.
  destruct (compressed_stream_roundtrip 1 [Int (-1); SignedInt (-5); Float 0x3f800000; Long (- 2 ^ 40)]) as (s & H1 & H2 & _);
    [lia|cbn; lia|repeat constructor; cbn; lia|]. exists s. by split.
Defined.

End CompressedStreamFacts.
