(* ===== verification/BitMap.v ===== *)
(** Bit maps ([utilities/bitMap.hpp], [bitMap.inline.hpp], [bitMap.cpp]):
    arrays of 64-bit words, with operations on single bits, on ranges and on
    whole maps, searches, and the lock-free update of a bit. A map refines
    the finite set of the indices of its bits. *)

From S2P Require Import Prelude.

Module BitMap.

Definition LogBitsPerWord : Z := 6.
Definition NoBits : Z := 0.
Definition AllBits : Z := 0xFFFFFFFFFFFFFFFF.

Record BitMap := mkBitMap { _map : list Z; _size : Z }.

Definition bit_in_word (bit : Z) : Z := bit &&& (BitsPerWord - 1).
Definition bit_mask (bit : Z) : Z := 1 <<< bit_in_word bit.
Definition word_index (bit : Z) : Z := bit >>> LogBitsPerWord.
Definition bit_index (word : Z) : Z := u64 (word <<< LogBitsPerWord).

(** The complement of a word. *)
Definition not_word (w : Z) : Z := AllBits - w.

Definition map_word (m : BitMap) (word : Z) : option Z := _map m !! Z.to_nat word.
Definition set_word (m : BitMap) (word val : Z) : option BitMap :=
  if (word <? Z.of_nat (length (_map m))) then Some (mkBitMap (<[Z.to_nat word := val]> (_map m)) (_size m)) else None.

Definition size_in_words (m : BitMap) : Z := word_index (u64 (_size m + BitsPerWord - 1)).

(** ** Single bits *)

Definition at_ (m : BitMap) (index : Z) : option bool :=
  w ← map_word m (word_index index);
  Some (negb (w &&& bit_mask index =? 0)).

Definition set_bit (m : BitMap) (bit : Z) : option BitMap :=
  w ← map_word m (word_index bit);
  set_word m (word_index bit) (w ||| bit_mask bit).

Definition clear_bit (m : BitMap) (bit : Z) : option BitMap :=
  w ← map_word m (word_index bit);
  set_word m (word_index bit) (w &&& not_word (bit_mask bit)).

Definition at_put (m : BitMap) (offset : Z) (value : bool) : option BitMap :=
  if value then set_bit m offset else clear_bit m offset.

(** [par_set_bit] and [par_clear_bit], one step per access to the shared
    word: the first load, and a compare-and-exchange that either succeeds or
    gives the current value for the next turn. *)
Inductive par_pc :=
  | Call (bit : Z) (value : bool)
  | Loaded (bit : Z) (value : bool) (old_val : Z)
  | Returned (bit : Z) (value changed : bool).

Definition par_new_val (bit : Z) (value : bool) (old_val : Z) : Z :=
  if value then old_val ||| bit_mask bit else old_val &&& not_word (bit_mask bit).

Definition par_step (m : BitMap) (p : par_pc) : option (BitMap * par_pc) :=
  match p with
  | Call bit value => w ← map_word m (word_index bit); Some (m, Loaded bit value w)
  | Loaded bit value old_val =>
      let new_val := par_new_val bit value old_val in
      if new_val =? old_val then Some (m, Returned bit value false)
      else
        cur_val ← map_word m (word_index bit);
        if cur_val =? old_val then m ← set_word m (word_index bit) new_val; Some (m, Returned bit value true)
        else Some (m, Loaded bit value cur_val)
  | Returned _ _ _ => None
  end.

(** The atomic effect of [par_set_bit]. *)
Definition par_set_bit (m : BitMap) (bit : Z) : option (bool * BitMap) :=
  w ← map_word m (word_index bit);
  if par_new_val bit true w =? w then Some (false, m)
  else m ← set_word m (word_index bit) (par_new_val bit true w); Some (true, m).

(** ** Ranges *)

Definition inverted_bit_mask_for_range (beg end_ : Z) : Z :=
  let mask := bit_mask beg - 1 in
  if negb (bit_in_word end_ =? 0) then mask ||| not_word (bit_mask end_ - 1) else mask.

Definition set_range_within_word (m : BitMap) (beg end_ : Z) : option BitMap :=
  if negb (beg =? end_) then
    let mask := inverted_bit_mask_for_range beg end_ in
    w ← map_word m (word_index beg);
    set_word m (word_index beg) (w ||| not_word mask)
  else Some m.

Definition clear_range_within_word (m : BitMap) (beg end_ : Z) : option BitMap :=
  if negb (beg =? end_) then
    let mask := inverted_bit_mask_for_range beg end_ in
    w ← map_word m (word_index beg);
    set_word m (word_index beg) (w &&& mask)
  else Some m.

(** The loops over the words from [i]. *)
Fixpoint put_words (n : nat) (m : BitMap) (i val : Z) : option BitMap :=
  match n with
  | O => Some m
  | S n => m ← set_word m i val; put_words n m (i + 1) val
  end.

Definition set_range_of_words (m : BitMap) (beg end_ : Z) : option BitMap :=
  put_words (Z.to_nat (end_ - beg)) m beg AllBits.
Definition clear_range_of_words (m : BitMap) (beg end_ : Z) : option BitMap :=
  put_words (Z.to_nat (end_ - beg)) m beg NoBits.

(** [memset]: a range that ends before it begins has a huge size. *)
Definition set_large_range_of_words (m : BitMap) (beg end_ : Z) : option BitMap :=
  put_words (Z.to_nat (u64 (end_ - beg))) m beg AllBits.
Definition clear_large_range_of_words (m : BitMap) (beg end_ : Z) : option BitMap :=
  put_words (Z.to_nat (u64 (end_ - beg))) m beg NoBits.

Definition word_index_round_up (m : BitMap) (bit : Z) : Z :=
  let bit_rounded_up := u64 (bit + (BitsPerWord - 1)) in
  if bit_rounded_up >? bit then word_index bit_rounded_up else size_in_words m.

Definition set_range (m : BitMap) (beg end_ : Z) : option BitMap :=
  let beg_full_word := word_index_round_up m beg in
  let end_full_word := word_index end_ in
  if beg_full_word <? end_full_word then
    m ← set_range_within_word m beg (bit_index beg_full_word);
    m ← set_range_of_words m beg_full_word end_full_word;
    set_range_within_word m (bit_index end_full_word) end_
  else
    let boundary := MIN2 (bit_index beg_full_word) end_ in
    m ← set_range_within_word m beg boundary;
    set_range_within_word m boundary end_.

Definition clear_range (m : BitMap) (beg end_ : Z) : option BitMap :=
  let beg_full_word := word_index_round_up m beg in
  let end_full_word := word_index end_ in
  if beg_full_word <? end_full_word then
    m ← clear_range_within_word m beg (bit_index beg_full_word);
    m ← clear_range_of_words m beg_full_word end_full_word;
    clear_range_within_word m (bit_index end_full_word) end_
  else
    let boundary := MIN2 (bit_index beg_full_word) end_ in
    m ← clear_range_within_word m beg boundary;
    clear_range_within_word m boundary end_.

Definition set_large_range (m : BitMap) (beg end_ : Z) : option BitMap :=
  let beg_full_word := word_index_round_up m beg in
  let end_full_word := word_index end_ in
  m ← set_range_within_word m beg (bit_index beg_full_word);
  m ← set_large_range_of_words m beg_full_word end_full_word;
  set_range_within_word m (bit_index end_full_word) end_.

Definition clear_large_range (m : BitMap) (beg end_ : Z) : option BitMap :=
  let beg_full_word := word_index_round_up m beg in
  let end_full_word := word_index end_ in
  m ← clear_range_within_word m beg (bit_index beg_full_word);
  m ← clear_large_range_of_words m beg_full_word end_full_word;
  clear_range_within_word m (bit_index end_full_word) end_.

Definition at_put_range (m : BitMap) (start_offset end_offset : Z) (value : bool) : option BitMap :=
  if value then set_range m start_offset end_offset else clear_range m start_offset end_offset.

Definition clear (m : BitMap) : option BitMap := clear_range_of_words m 0 (size_in_words m).
Definition clear_large (m : BitMap) : option BitMap := clear_large_range_of_words m 0 (size_in_words m).

(** ** Size

    The words of a new array are unspecified until they are written, and the
    old array is freed before it is copied when it lives in the C heap. *)
Definition resize (m : BitMap) (size_in_bits : Z) (in_resource_area : bool) (unspecified : list Z) : option BitMap :=
  let old_size_in_words := size_in_words m in
  let new_size_in_words := size_in_words (mkBitMap [] size_in_bits) in
  let copied := MIN2 old_size_in_words new_size_in_words in
  if negb in_resource_area && (0 <? copied) then None
  else
    let words := take (Z.to_nat copied) (_map m) ++ unspecified in
    let m := mkBitMap (take (Z.to_nat new_size_in_words) words) size_in_bits in
    if new_size_in_words >? old_size_in_words then clear_range_of_words m old_size_in_words new_size_in_words else Some m.

Definition at_put_grow (m : BitMap) (offset : Z) (value : bool) (unspecified : list Z) : option BitMap :=
  m ← (if offset >=? _size m then resize m (u64 (2 * MAX2 (_size m) offset)) true unspecified else Some m);
  at_put m offset value.

(** ** Searches *)

(** The loop over the bits of a word; a word has a bit among its 64. *)
Fixpoint next_one_bit (fuel : nat) (res res_offset : Z) : Z :=
  match fuel with
  | O => res_offset
  | S fuel => if res &&& 1 =? 0 then next_one_bit fuel (res >>> 1) (res_offset + 1) else res_offset
  end.

Fixpoint next_one_word (n : nat) (m : BitMap) (index r_offset : Z) : option Z :=
  match n with
  | O => Some r_offset
  | S n =>
      res ← map_word m index;
      if negb (res =? NoBits) then Some (MIN2 (next_one_bit 64 res (bit_index index)) r_offset)
      else next_one_word n m (index + 1) r_offset
  end.

Definition get_next_one_offset (m : BitMap) (l_offset r_offset : Z) : option Z :=
  if l_offset =? r_offset then Some l_offset
  else
    let index := word_index l_offset in
    let r_index := word_index (u64 (r_offset - 1)) + 1 in
    w ← map_word m index;
    let res := w >>> bit_in_word l_offset in
    if negb (res =? NoBits) then Some (MIN2 (next_one_bit 64 res l_offset) r_offset)
    else next_one_word (Z.to_nat (r_index - (index + 1))) m (index + 1) r_offset.

Definition left_n_bits (n : Z) : Z := u64 (right_n_bits n <<< (if n >=? BitsPerWord then 0 else BitsPerWord - n)).

Fixpoint next_zero_bit (fuel : nat) (res res_offset : Z) : Z :=
  match fuel with
  | O => res_offset
  | S fuel => if negb (res &&& 1 =? 0) then next_zero_bit fuel (res >>> 1) (res_offset + 1) else res_offset
  end.

Fixpoint next_zero_word (n : nat) (m : BitMap) (index r_offset : Z) : option Z :=
  match n with
  | O => Some r_offset
  | S n =>
      res ← map_word m index;
      if negb (res =? AllBits) then Some (MIN2 (next_zero_bit 64 res (index <<< LogBitsPerWord)) r_offset)
      else next_zero_word n m (index + 1) r_offset
  end.

Definition get_next_zero_offset (m : BitMap) (l_offset r_offset : Z) : option Z :=
  if l_offset =? r_offset then Some l_offset
  else
    let index := word_index l_offset in
    let r_index := word_index (u64 (r_offset - 1)) + 1 in
    let pos := bit_in_word l_offset in
    w ← map_word m index;
    let res := (w >>> pos) ||| left_n_bits pos in
    if negb (res =? AllBits) then Some (MIN2 (next_zero_bit 64 res l_offset) r_offset)
    else next_zero_word (Z.to_nat (r_index - (index + 1))) m (index + 1) r_offset.

(** ** Whole maps

    The loops over the words of two maps of the same size, from [index]. The
    flag says whether a word changed. *)
Fixpoint update_words (f : Z → Z → Z) (n : nat) (m other : BitMap) (index : Z) (changed : bool) : option (bool * BitMap) :=
  match n with
  | O => Some (changed, m)
  | S n =>
      orig ← map_word m index;
      o ← map_word other index;
      let temp := f orig o in
      m ← set_word m index temp;
      update_words f n m other (index + 1) (changed || negb (temp =? orig))
  end.

Fixpoint every_word (p : Z → Z → bool) (n : nat) (m other : BitMap) (index : Z) : option bool :=
  match n with
  | O => Some true
  | S n =>
      w ← map_word m index;
      o ← map_word other index;
      if negb (p w o) then Some false else every_word p n m other (index + 1)
  end.

Definition words_of (m : BitMap) : nat := Z.to_nat (size_in_words m).

Definition set_union_with_result (m other : BitMap) : option (bool * BitMap) :=
  update_words (λ w o, w ||| o) (words_of m) m other 0 false.
Definition set_difference_with_result (m other : BitMap) : option (bool * BitMap) :=
  update_words (λ w o, w &&& not_word o) (words_of m) m other 0 false.
Definition set_intersection_with_result (m other : BitMap) : option (bool * BitMap) :=
  update_words (λ w o, w &&& o) (words_of m) m other 0 false.

Definition set_union (m other : BitMap) : option BitMap :=
  r ← update_words (λ w o, w ||| o) (words_of m) m other 0 false; Some r.2.
Definition set_difference (m other : BitMap) : option BitMap :=
  r ← update_words (λ w o, w &&& not_word o) (words_of m) m other 0 false; Some r.2.
Definition set_intersection (m other : BitMap) : option BitMap :=
  r ← update_words (λ w o, w &&& o) (words_of m) m other 0 false; Some r.2.
Definition set_from (m other : BitMap) : option BitMap :=
  r ← update_words (λ w o, o) (words_of m) m other 0 false; Some r.2.

Definition contains (m other : BitMap) : option bool :=
  every_word (λ w o, (w ||| o) =? w) (words_of m) m other 0.
Definition intersects (m other : BitMap) : option bool :=
  b ← every_word (λ w o, (w &&& o) =? 0) (words_of m) m other 0; Some (negb b).
Definition is_same (m other : BitMap) : option bool :=
  every_word (λ w o, w =? o) (words_of m) m other 0.

(** [rest] bits are left, from word [index]. *)
Fixpoint full_words (n : nat) (m : BitMap) (index rest : Z) : option bool :=
  match n with
  | O => None
  | S n =>
      if rest >=? BitsPerWord then
        w ← map_word m index;
        if negb (w =? AllBits) then Some false else full_words n m (index + 1) (rest - BitsPerWord)
      else if rest =? 0 then Some true
      else w ← map_word m index; Some ((w ||| not_word (right_n_bits rest)) =? AllBits)
  end.

Fixpoint empty_words (n : nat) (m : BitMap) (index rest : Z) : option bool :=
  match n with
  | O => None
  | S n =>
      if rest >=? BitsPerWord then
        w ← map_word m index;
        if negb (w =? NoBits) then Some false else empty_words n m (index + 1) (rest - BitsPerWord)
      else if rest =? 0 then Some true
      else w ← map_word m index; Some ((w &&& right_n_bits rest) =? NoBits)
  end.

Definition is_full (m : BitMap) : option bool := full_words (S (words_of m)) m 0 (_size m).
Definition is_empty (m : BitMap) : option bool := empty_words (S (words_of m)) m 0 (_size m).

(** ** Counting *)

Fixpoint skip_zeros (fuel : nat) (w : Z) : Z :=
  match fuel with
  | O => w
  | S fuel => if w &&& 1 =? 0 then skip_zeros fuel (w >>> 1) else w
  end.

(** At most 64 bits are set, and at most 64 zeros precede one. *)
Fixpoint num_set_bits (fuel : nat) (w : Z) : Z :=
  match fuel with
  | O => 0
  | S fuel => if w =? 0 then 0 else 1 + num_set_bits fuel (skip_zeros 64 w >>> 1)
  end.

Definition pop_count_table : list Z := num_set_bits 64 <$> seqZ 0 256.
Definition num_set_bits_from_table (c : Z) : option Z := pop_count_table !! Z.to_nat c.

Fixpoint count_bytes (n : nat) (w sum : Z) : option Z :=
  match n with
  | O => Some sum
  | S n => k ← num_set_bits_from_table (w &&& 255); count_bytes n (w >>> 8) (u64 (sum + k))
  end.

Fixpoint count_words (n : nat) (m : BitMap) (i sum : Z) : option Z :=
  match n with
  | O => Some sum
  | S n => w ← map_word m i; sum ← count_bytes 8 w sum; count_words n m (i + 1) sum
  end.

Definition count_one_bits (m : BitMap) : option Z := count_words (words_of m) m 0 0.

(** ** Iteration

    The closure may change the map, which is a part of its state [St]; the
    word is read again after each call. *)
Section iterate.
Context {St : Type} (bm : St → BitMap) (do_bit : Z → St → option (bool * St)).

(** The bits of the word at [index]; a word has 64 bits. *)
Fixpoint iterate_bits (n : nat) (index offset rightOffset rest : Z) (s : St) : option (bool * St) :=
  match n with
  | O => Some (true, s)
  | S n =>
      if (offset <? rightOffset) && negb (rest =? NoBits) then
        if negb (rest &&& 1 =? 0) then
          '(more, s) ← do_bit offset s;
          if negb more then Some (false, s)
          else
            w ← map_word (bm s) index;
            iterate_bits n index (offset + 1) rightOffset ((w >>> bit_in_word offset) >>> 1) s
        else iterate_bits n index (offset + 1) rightOffset (rest >>> 1) s
      else Some (true, s)
  end.

Fixpoint iterate_words (n : nat) (index offset rightOffset endIndex : Z) (s : St) : option (bool * St) :=
  match n with
  | O => Some (true, s)
  | S n =>
      if (offset <? rightOffset) && (index <? endIndex) then
        w ← map_word (bm s) index;
        '(more, s) ← iterate_bits 64 index offset rightOffset (w >>> bit_in_word offset) s;
        if negb more then Some (false, s)
        else iterate_words n (index + 1) (bit_index (index + 1)) rightOffset endIndex s
      else Some (true, s)
  end.

Definition iterate (leftOffset rightOffset : Z) (s : St) : option (bool * St) :=
  let startIndex := word_index leftOffset in
  let endIndex := MIN2 (word_index rightOffset + 1) (size_in_words (bm s)) in
  iterate_words (words_of (bm s)) startIndex leftOffset rightOffset endIndex s.

End iterate.

End BitMap.

(** * Facts *)

Module BitMapFacts.
Import BitMap.

(** ** Words *)

Lemma bit_in_word_mod i : bit_in_word i = i mod 64.
Proof. unfold bit_in_word. change (BitsPerWord - 1) with (2 ^ 6 - 1). by rewrite land_low_ones. Qed.

Lemma word_index_div i : word_index i = i / 64.
Proof. unfold word_index, LogBitsPerWord. by rewrite Z.shiftr_div_pow2. Qed.

Lemma bit_index_mul w : 0 <= w < 2 ^ 58 → bit_index w = 64 * w.
Proof.
  intros Hw. unfold bit_index, LogBitsPerWord. rewrite Z.shiftl_mul_pow2, u64_small by (unfold in_u64; lia). lia.
Qed.

Lemma not_word_range w : in_u64 w → in_u64 (not_word w).
Proof. unfold in_u64, not_word, AllBits. lia. Qed.

Lemma not_word_bit w j : in_u64 w → 0 <= j < 64 → Z.testbit (not_word w) j = negb (Z.testbit w j).
Proof.
  intros Hw Hj. unfold not_word. change AllBits with (Z.ones 64). rewrite Z.sub_nocarry_ldiff.
  - rewrite Z.ldiff_spec, testbit_ones_nonneg by lia. by rewrite (proj2 (Z.ltb_lt j 64)) by lia.
  - apply Z.bits_inj'. intros k Hk. rewrite Z.ldiff_spec, testbit_ones_nonneg, Z.bits_0 by lia.
    destruct (Z.ltb_spec k 64); [apply andb_false_r|]. by rewrite (bits_of_range w 64 k).
Qed.

Lemma bit_mask_bit i j : 0 <= j → Z.testbit (bit_mask i) j = (j =? i mod 64).
Proof.
  intros Hj. unfold bit_mask. rewrite bit_in_word_mod. pose proof (Z.mod_pos_bound i 64 ltac:(lia)).
  rewrite Z.shiftl_1_l, Z.pow2_bits_eqb by lia. destruct (Z.eqb_spec (i mod 64) j), (Z.eqb_spec j (i mod 64)); done || lia.
Qed.

Lemma bit_mask_range i : in_u64 (bit_mask i).
Proof.
  unfold bit_mask, in_u64. rewrite bit_in_word_mod, Z.shiftl_1_l. pose proof (Z.mod_pos_bound i 64 ltac:(lia)).
  split; [lia|]. apply Z.pow_lt_mono_r; lia.
Qed.

Lemma bit_mask_ones i : bit_mask i - 1 = Z.ones (i mod 64).
Proof. unfold bit_mask. rewrite bit_in_word_mod, Z.shiftl_1_l, Z.ones_equiv. lia. Qed.

Lemma ones_range i : in_u64 (Z.ones (i mod 64)).
Proof.
  pose proof (Z.mod_pos_bound i 64 ltac:(lia)). rewrite Z.ones_equiv. unfold in_u64.
  assert (0 < 2 ^ (i mod 64) < 2 ^ 64) by (split; [lia|apply Z.pow_lt_mono_r; lia]). lia.
Qed.

Lemma word_eq v w : in_u64 v → in_u64 w → (∀ j, 0 <= j < 64 → Z.testbit v j = Z.testbit w j) → v = w.
Proof.
  intros Hv Hw Hb. apply Z.bits_inj'. intros j Hj. destruct (Z.ltb_spec j 64); [apply Hb; lia|].
  by rewrite !(bits_of_range _ 64 j).
Qed.

Lemma lor_range v w : in_u64 v → in_u64 w → in_u64 (v ||| w).
Proof.
  intros Hv Hw. unfold in_u64 in *. split; [apply Z.lor_nonneg; lia|]. apply range_of_bits; [lia|apply Z.lor_nonneg; lia|].
  intros i Hi. by rewrite Z.lor_spec, !(bits_of_range _ 64 i).
Qed.

Lemma land_range v w : in_u64 v → 0 <= w → in_u64 (v &&& w).
Proof.
  intros Hv Hw. unfold in_u64 in *. split; [apply Z.land_nonneg; lia|]. apply range_of_bits; [lia|apply Z.land_nonneg; lia|].
  intros i Hi. by rewrite Z.land_spec, (bits_of_range v 64 i).
Qed.

#[local] Hint Resolve not_word_range bit_mask_range ones_range lor_range : bits.

Lemma inverted_mask_spec beg end_ :
  beg < end_ → beg / 64 = (end_ - 1) / 64 →
  in_u64 (inverted_bit_mask_for_range beg end_) ∧
  ∀ j, 0 <= j < 64 → Z.testbit (inverted_bit_mask_for_range beg end_) j = negb ((beg mod 64 <=? j) && (j <? (end_ - 1) mod 64 + 1)).
Proof.
  intros Hlt Hw. unfold inverted_bit_mask_for_range. rewrite !bit_mask_ones, bit_in_word_mod.
  pose proof (Z.mod_pos_bound beg 64 ltac:(lia)). pose proof (Z.mod_pos_bound end_ 64 ltac:(lia)).
  pose proof (ones_range beg). pose proof (ones_range end_). destruct (Z.eqb_spec (end_ mod 64) 0) as [E|E]; cbn [negb].
  - split; [done|]. intros j Hj. rewrite testbit_ones_nonneg by lia.
    assert ((end_ - 1) mod 64 = 63) as -> by (Z.to_euclidean_division_equations; lia).
    destruct (Z.ltb_spec j (beg mod 64)), (Z.leb_spec (beg mod 64) j), (Z.ltb_spec j (63 + 1)); done || lia.
  - split; [auto with bits|]. intros j Hj. rewrite Z.lor_spec, not_word_bit, !testbit_ones_nonneg by (done || lia).
    assert ((end_ - 1) mod 64 + 1 = end_ mod 64) as -> by (Z.to_euclidean_division_equations; lia).
    assert (beg mod 64 < end_ mod 64) by (Z.to_euclidean_division_equations; lia).
    destruct (Z.ltb_spec j (beg mod 64)), (Z.leb_spec (beg mod 64) j), (Z.ltb_spec j (end_ mod 64)); done || lia.
Qed.

(** ** Maps *)

Definition bit (m : BitMap) (i : Z) : bool :=
  match _map m !! Z.to_nat (i / 64) with Some w => Z.testbit w (i mod 64) | None => false end.

Definition capacity (m : BitMap) : Z := 64 * Z.of_nat (length (_map m)).

Record sane (m : BitMap) : Prop := mkSane {
  sane_words : Forall in_u64 (_map m);
  sane_size : 0 <= _size m <= capacity m;
  sane_bound : capacity m < 2 ^ 63
}.

Lemma map_word_spec m k :
  sane m → 0 <= k < Z.of_nat (length (_map m)) →
  ∃ w, map_word m k = Some w ∧ in_u64 w ∧ ∀ j, 0 <= j < 64 → Z.testbit w j = bit m (64 * k + j).
Proof.
  intros Hs Hk. destruct (lookup_lt_is_Some_2 (_map m) (Z.to_nat k)) as [w Hw]; [lia|]. exists w. split; [done|].
  split; [by apply (Forall_lookup_1 _ _ _ _ (sane_words _ Hs) Hw)|]. intros j Hj. unfold bit.
  rewrite (Z.mul_comm 64), Z.div_add_l, (Z.div_small j), Z.add_0_r, Hw, Z.add_comm, Z.mod_add, Z.mod_small by lia. done.
Qed.

Lemma bit_beyond m i : capacity m <= i → bit m i = false.
Proof.
  intros Hi. unfold bit, capacity in *. rewrite lookup_ge_None_2; [done|]. Z.to_euclidean_division_equations; lia.
Qed.

(** [m'] is [m] with every bit changed by [f]. *)
Record updates (m : BitMap) (f : Z → bool → bool) (m' : BitMap) : Prop := mkUpdates {
  up_sane : sane m';
  up_size : _size m' = _size m;
  up_length : length (_map m') = length (_map m);
  up_bits : ∀ i, 0 <= i → bit m' i = f i (bit m i)
}.

Lemma updates_refl m f : sane m → (∀ i b, 0 <= i → f i b = b) → updates m f m.
Proof. intros Hs Hf. split; [done..|]. intros. by rewrite Hf. Qed.

Lemma updates_trans m f m1 g m2 : updates m f m1 → updates m1 g m2 → updates m (λ i b, g i (f i b)) m2.
Proof. intros [S1 Z1 L1 B1] [S2 Z2 L2 B2]. split; [done|congruence..|]. intros i Hi. by rewrite B2, B1. Qed.

Lemma updates_ext m f g m' : updates m f m' → (∀ i b, 0 <= i → f i b = g i b) → updates m g m'.
Proof. intros [S Z L B] E. split; [done..|]. intros i Hi. by rewrite B, E. Qed.

Lemma set_word_spec m k v (f : Z → bool → bool) :
  sane m → 0 <= k < Z.of_nat (length (_map m)) → in_u64 v →
  (∀ i, 0 <= i → i / 64 = k → Z.testbit v (i mod 64) = f i (bit m i)) → (∀ i b, 0 <= i → i / 64 ≠ k → f i b = b) →
  ∃ m', set_word m k v = Some m' ∧ updates m f m'.
Proof.
  intros Hs Hk Hv Hin Hout. unfold set_word. rewrite (proj2 (Z.ltb_lt _ _)) by lia. eexists. split; [done|].
  destruct Hs as [Hw Hsz Hb]. split; [|done|cbn; by rewrite length_insert|].
  - split; unfold capacity in *; cbn [_map _size]; rewrite ?length_insert; [by apply Forall_insert|done..].
  - intros i Hi. unfold bit at 1. cbn [_map]. destruct (Z.eqb_spec (i / 64) k) as [<-|Hne].
    + rewrite list_lookup_insert_eq by lia. by apply Hin.
    + rewrite list_lookup_insert_ne, Hout; [done|done|done|]. pose proof (Z.div_pos i 64 Hi ltac:(lia)). lia.
Qed.

(** Reading a word, changing its bits by [f] and writing it back. *)
Lemma update_word m k (g : Z → Z) (f : Z → bool → bool) :
  sane m → 0 <= k < Z.of_nat (length (_map m)) →
  (∀ w, in_u64 w → in_u64 (g w) ∧ ∀ j, 0 <= j < 64 → Z.testbit (g w) j = f (64 * k + j) (Z.testbit w j)) →
  (∀ i b, 0 <= i → i / 64 ≠ k → f i b = b) →
  ∃ m', (w ← map_word m k; set_word m k (g w)) = Some m' ∧ updates m f m'.
Proof.
  intros Hs Hk Hg Hout. destruct (map_word_spec m k Hs Hk) as (w & -> & Hw & Hb). cbn [mbind option_bind].
  destruct (Hg w Hw) as [Hr Hf]. apply set_word_spec; [done..| |done]. intros i Hi Hd.
  pose proof (Z.mod_pos_bound i 64 ltac:(lia)). assert (64 * k + i mod 64 = i) as E by (Z.to_euclidean_division_equations; lia).
  by rewrite Hf, Hb, E by lia.
Qed.

(** ** Updates *)

Definition put_at (k : Z) (v : bool) (i : Z) (b : bool) : bool := if i =? k then v else b.
Definition put_between (lo hi : Z) (v : bool) (i : Z) (b : bool) : bool := if (lo <=? i) && (i <? hi) then v else b.

(** A case for every comparison. *)
Ltac cases_Z :=
  repeat match goal with
  | |- context [?a =? ?b] => destruct (Z.eqb_spec a b)
  | |- context [?a <=? ?b] => destruct (Z.leb_spec a b)
  | |- context [?a <? ?b] => destruct (Z.ltb_spec a b)
  end; cbn [andb orb negb].

Lemma word_of_bit m i : 0 <= i < capacity m → 0 <= i / 64 < Z.of_nat (length (_map m)).
Proof. unfold capacity. intros. Z.to_euclidean_division_equations; lia. Qed.

Lemma at_put_spec m k v :
  sane m → 0 <= k < capacity m → ∃ m', at_put m k v = Some m' ∧ updates m (put_at k v) m'.
Proof.
  intros Hs Hk. pose proof (bit_mask_range k). pose proof (word_of_bit m k Hk).
  unfold at_put, set_bit, clear_bit. rewrite word_index_div. destruct v.
  - apply update_word; [done|done| |].
    + intros w Hw. split; [auto with bits|]. intros j Hj. rewrite Z.lor_spec, bit_mask_bit by lia. unfold put_at.
      cases_Z; rewrite ?orb_true_r, ?orb_false_r; done || (Z.to_euclidean_division_equations; lia).
    + intros i b Hi Hd. unfold put_at. cases_Z; [subst; done|done].
  - apply update_word; [done|done| |].
    + intros w Hw. split; [apply land_range; [done|apply not_word_range; done]|]. intros j Hj.
      rewrite Z.land_spec, not_word_bit, bit_mask_bit by (done || lia). unfold put_at.
      cases_Z; rewrite ?andb_true_r, ?andb_false_r; done || (Z.to_euclidean_division_equations; lia).
    + intros i b Hi Hd. unfold put_at. cases_Z; [subst; done|done].
Qed.

Definition put_range_within_word (m : BitMap) (beg end_ : Z) (v : bool) : option BitMap :=
  if v then set_range_within_word m beg end_ else clear_range_within_word m beg end_.

Lemma range_within_word_spec m beg end_ v :
  sane m → 0 <= beg <= end_ → end_ <= capacity m → beg = end_ ∨ beg / 64 = (end_ - 1) / 64 →
  ∃ m', put_range_within_word m beg end_ v = Some m' ∧ updates m (put_between beg end_ v) m'.
Proof.
  intros Hs Hr Hc Hw. unfold put_range_within_word, set_range_within_word, clear_range_within_word.
  destruct (Z.eqb_spec beg end_) as [->|Hne]; cbn [negb].
  { exists m. split; [by destruct v|]. apply updates_refl; [done|]. intros i b _. unfold put_between. cases_Z; done || lia. }
  destruct Hw as [|Hw]; [done|]. destruct (inverted_mask_spec beg end_) as [Hm Hb]; [lia|done|]. rewrite word_index_div.
  pose proof (word_of_bit m beg ltac:(lia)). assert (Hout : ∀ i b, 0 <= i → i / 64 ≠ beg / 64 → put_between beg end_ v i b = b).
  { intros i b Hi Hd. unfold put_between. cases_Z; try done. exfalso. apply Hd. Z.to_euclidean_division_equations; lia. }
  assert (Hin : ∀ j, 0 <= j < 64 → (beg mod 64 <=? j) && (j <? (end_ - 1) mod 64 + 1) =
                 (beg <=? 64 * (beg / 64) + j) && (64 * (beg / 64) + j <? end_)).
  { intros j Hj. cases_Z; try done; exfalso; Z.to_euclidean_division_equations; lia. }
  destruct v; (apply update_word; [done|done| |done]); intros w Hi; split; [auto with bits| |apply land_range; [done|apply Hm]|];
    intros j Hj; rewrite ?Z.lor_spec, ?Z.land_spec, ?not_word_bit, Hb by (done || lia); unfold put_between;
    rewrite Hin by done; destruct (_ <=? _), (_ <? _), (Z.testbit w j); done.
Qed.

Lemma put_words_spec n m k (v : bool) :
  sane m → 0 <= k → k + Z.of_nat n <= Z.of_nat (length (_map m)) →
  ∃ m', put_words n m k (if v then AllBits else NoBits) = Some m' ∧
    updates m (put_between (64 * k) (64 * (k + Z.of_nat n)) v) m'.
Proof.
  revert m k. induction n as [|n IH]; intros m k Hs Hk Hn.
  - exists m. split; [done|]. apply updates_refl; [done|]. intros i b _. unfold put_between. cases_Z; done || lia.
  - cbn [put_words]. destruct (set_word_spec m k (if v then AllBits else NoBits) (put_between (64 * k) (64 * (k + 1)) v))
      as (m1 & -> & U1); [done|lia|by destruct v| | |].
    + intros i Hi Hd. pose proof (Z.mod_pos_bound i 64 ltac:(lia)). assert (Z.testbit (if v then AllBits else NoBits) (i mod 64) = v) as ->.
      { destruct v; [|apply Z.bits_0]. change AllBits with (Z.ones 64). apply Z.ones_spec_low. lia. }
      unfold put_between. cases_Z; try done; exfalso; Z.to_euclidean_division_equations; lia.
    + intros i b Hi Hd. unfold put_between. cases_Z; try done. exfalso. apply Hd. Z.to_euclidean_division_equations; lia.
    + cbn [mbind option_bind]. destruct (IH m1 (k + 1) (up_sane _ _ _ U1)) as (m2 & -> & U2); [lia|rewrite (up_length _ _ _ U1); lia|].
      exists m2. split; [done|]. eapply updates_ext; [by eapply updates_trans|]. intros i b _. unfold put_between. cbn beta.
      cases_Z; try done; lia.
Qed.

Definition put_range_of_words (m : BitMap) (beg end_ : Z) (v : bool) : option BitMap :=
  if v then set_range_of_words m beg end_ else clear_range_of_words m beg end_.

Lemma range_of_words_spec m beg end_ v :
  sane m → 0 <= beg <= end_ → end_ <= Z.of_nat (length (_map m)) →
  ∃ m', put_range_of_words m beg end_ v = Some m' ∧ updates m (put_between (64 * beg) (64 * end_) v) m'.
Proof.
  intros Hs Hr Hl. destruct (put_words_spec (Z.to_nat (end_ - beg)) m beg v Hs) as (m' & E & U); [lia|lia|].
  exists m'. split; [by destruct v|]. replace (beg + Z.of_nat (Z.to_nat (end_ - beg))) with end_ in U by lia. done.
Qed.

(** The first full word of a range that begins inside the map. *)
Lemma word_index_round_up_spec m beg : sane m → 0 <= beg <= capacity m → word_index_round_up m beg = (beg + 63) / 64.
Proof.
  intros Hs Hb. pose proof (sane_bound _ Hs). unfold word_index_round_up. change (BitsPerWord - 1) with 63.
  rewrite u64_small, gtb_true, word_index_div by (unfold in_u64; lia). done.
Qed.

(** The three parts of a range that has full words. *)
Lemma three_parts m beg end_ v :
  sane m → 0 <= beg <= end_ → end_ <= capacity m → (beg + 63) / 64 <= end_ / 64 →
  ∃ m', (m ← put_range_within_word m beg (bit_index ((beg + 63) / 64)) v;
         m ← put_range_of_words m ((beg + 63) / 64) (end_ / 64) v;
         put_range_within_word m (bit_index (end_ / 64)) end_ v) = Some m' ∧ updates m (put_between beg end_ v) m'.
Proof.
  intros Hs Hr Hc Hw. pose proof (sane_bound _ Hs). unfold capacity in *. rewrite !bit_index_mul by (Z.to_euclidean_division_equations; lia).
  destruct (range_within_word_spec m beg (64 * ((beg + 63) / 64)) v Hs) as (m1 & -> & U1);
    [|unfold capacity|destruct (Z.eqb_spec (beg mod 64) 0); [left|right]|]; try (Z.to_euclidean_division_equations; lia).
  cbn [mbind option_bind]. pose proof (up_length _ _ _ U1) as L1.
  destruct (range_of_words_spec m1 ((beg + 63) / 64) (end_ / 64) v (up_sane _ _ _ U1)) as (m2 & -> & U2);
    [|rewrite L1|]; try (Z.to_euclidean_division_equations; lia).
  cbn [mbind option_bind]. pose proof (up_length _ _ _ U2) as L2.
  destruct (range_within_word_spec m2 (64 * (end_ / 64)) end_ v (up_sane _ _ _ U2)) as (m3 & -> & U3);
    [|unfold capacity; rewrite L2, L1|destruct (Z.eqb_spec (end_ mod 64) 0); [left|right]|]; try (Z.to_euclidean_division_equations; lia).
  exists m3. split; [done|]. eapply updates_ext; [eapply updates_trans; [done|eapply updates_trans; done]|].
  intros i b _. unfold put_between. cases_Z; try done; Z.to_euclidean_division_equations; lia.
Qed.

Lemma at_put_range_spec m beg end_ v :
  sane m → 0 <= beg <= end_ → end_ <= capacity m →
  ∃ m', at_put_range m beg end_ v = Some m' ∧ updates m (put_between beg end_ v) m'.
Proof.
  intros Hs Hr Hc. pose proof (sane_bound _ Hs).
  assert (at_put_range m beg end_ v =
    if (beg + 63) / 64 <? end_ / 64 then
      m ← put_range_within_word m beg (bit_index ((beg + 63) / 64)) v;
      m ← put_range_of_words m ((beg + 63) / 64) (end_ / 64) v;
      put_range_within_word m (bit_index (end_ / 64)) end_ v
    else
      let boundary := MIN2 (bit_index ((beg + 63) / 64)) end_ in
      m ← put_range_within_word m beg boundary v;
      put_range_within_word m boundary end_ v) as ->.
  { unfold at_put_range, set_range, clear_range. rewrite !word_index_round_up_spec, !word_index_div by (done || lia). by destruct v. }
  destruct (Z.ltb_spec ((beg + 63) / 64) (end_ / 64)); [apply three_parts; (done || lia)|].
  cbv zeta. set (bd := MIN2 _ _). assert (bd = Z.min (64 * ((beg + 63) / 64)) end_) as ->.
  { unfold bd, MIN2. rewrite bit_index_mul by (unfold capacity in *; Z.to_euclidean_division_equations; lia). cases_Z; lia. }
  destruct (range_within_word_spec m beg (Z.min (64 * ((beg + 63) / 64)) end_) v Hs) as (m1 & -> & U1);
    [| |destruct (Z.eqb_spec beg (Z.min (64 * ((beg + 63) / 64)) end_)); [left|right]|]; try (Z.to_euclidean_division_equations; lia).
  cbn [mbind option_bind]. pose proof (up_length _ _ _ U1) as L1.
  destruct (range_within_word_spec m1 (Z.min (64 * ((beg + 63) / 64)) end_) end_ v (up_sane _ _ _ U1)) as (m2 & -> & U2);
    [|unfold capacity in *; rewrite L1|destruct (Z.eqb_spec (Z.min (64 * ((beg + 63) / 64)) end_) end_); [left|right]|];
    try (Z.to_euclidean_division_equations; lia).
  exists m2. split; [done|]. eapply updates_ext; [by eapply updates_trans|].
  intros i b _. unfold put_between. cases_Z; try done; Z.to_euclidean_division_equations; lia.
Qed.

(** Large ranges must span a full word. *)
Definition at_put_large_range (m : BitMap) (beg end_ : Z) (v : bool) : option BitMap :=
  if v then set_large_range m beg end_ else clear_large_range m beg end_.

Lemma at_put_large_range_spec m beg end_ v :
  sane m → 0 <= beg <= end_ → end_ <= capacity m → (beg + 63) / 64 <= end_ / 64 →
  ∃ m', at_put_large_range m beg end_ v = Some m' ∧ updates m (put_between beg end_ v) m'.
Proof.
  intros Hs Hr Hc Hw. destruct (three_parts m beg end_ v Hs Hr Hc Hw) as (m' & E & U). exists m'. split; [|done]. rewrite <- E.
  unfold at_put_large_range, set_large_range, clear_large_range, set_large_range_of_words, clear_large_range_of_words.
  rewrite !word_index_round_up_spec, !word_index_div, (u64_small (end_ / 64 - _)).
  - by destruct v.
  - pose proof (sane_bound _ Hs). unfold in_u64. Z.to_euclidean_division_equations; lia.
  - done.
  - lia.
Qed.

Lemma size_in_words_spec m : sane m → size_in_words m = (_size m + 63) / 64.
Proof.
  intros Hs. destruct (sane_size _ Hs). pose proof (sane_bound _ Hs). unfold size_in_words. change (_size m + BitsPerWord - 1) with (_size m + 64 - 1).
  rewrite word_index_div, u64_small by (unfold in_u64; lia). f_equal. lia.
Qed.

Lemma size_in_words_range m : sane m → 0 <= size_in_words m <= Z.of_nat (length (_map m)) ∧ _size m <= 64 * size_in_words m.
Proof.
  intros Hs. rewrite size_in_words_spec by done. destruct (sane_size _ Hs). unfold capacity in *.
  Z.to_euclidean_division_equations; lia.
Qed.

Lemma clear_spec m :
  sane m → ∃ m', clear m = Some m' ∧ clear_large m = Some m' ∧ updates m (put_between 0 (64 * size_in_words m) false) m'.
Proof.
  intros Hs. pose proof (size_in_words_range m Hs). pose proof (sane_bound _ Hs). unfold capacity in *.
  destruct (range_of_words_spec m 0 (size_in_words m) false Hs) as (m' & E & U); [lia..|]. exists m'. split; [done|]. split; [|done].
  unfold clear_large, clear_large_range_of_words. rewrite u64_small by (unfold in_u64; lia). done.
Qed.

(** ** Two maps *)

Lemma update_words_spec (f : Z → Z → Z) (fb : bool → bool → bool) n m other k ch :
  (∀ v w, in_u64 v → in_u64 w → in_u64 (f v w)) →
  (∀ v w j, in_u64 v → in_u64 w → 0 <= j < 64 → Z.testbit (f v w) j = fb (Z.testbit v j) (Z.testbit w j)) →
  sane m → sane other → 0 <= k →
  k + Z.of_nat n <= Z.of_nat (length (_map m)) → k + Z.of_nat n <= Z.of_nat (length (_map other)) →
  ∃ ch' m', update_words f n m other k ch = Some (ch', m') ∧
    updates m (λ i b, if (64 * k <=? i) && (i <? 64 * (k + Z.of_nat n)) then fb b (bit other i) else b) m' ∧
    (ch' = false ↔ ch = false ∧ ∀ i, 64 * k <= i < 64 * (k + Z.of_nat n) → bit m' i = bit m i).
Proof.
  intros Hr Hf. revert m k ch. induction n as [|n IH]; intros m k ch Hm Ho Hk Hlm Hlo; cbn [update_words].
  - exists ch, m. split; [done|]. split.
    + apply updates_refl; [done|]. intros i b _. cases_Z; try done; lia.
    + split; [|by intros []]. intros ->. split; [done|]. lia.
  - destruct (map_word_spec m k Hm) as (w & -> & Hw & Hbw); [lia|]. destruct (map_word_spec other k Ho) as (o & -> & Hwo & Hbo); [lia|].
    cbn [mbind option_bind]. destruct (set_word_spec m k (f w o)
      (λ i b, if (64 * k <=? i) && (i <? 64 * (k + 1)) then fb b (bit other i) else b)) as (m1 & -> & U1); [done|lia|auto| | |].
    + intros i Hi Hd. pose proof (Z.mod_pos_bound i 64 ltac:(lia)).
      assert (64 * k + i mod 64 = i) as E by (Z.to_euclidean_division_equations; lia).
      rewrite Hf, Hbw, Hbo, E by done. cases_Z; try done; Z.to_euclidean_division_equations; lia.
    + intros i b Hi Hd. cases_Z; try done. Z.to_euclidean_division_equations; lia.
    + cbn [mbind option_bind]. pose proof (up_length _ _ _ U1) as L1.
      destruct (IH m1 (k + 1) (ch || negb (f w o =? w)) (up_sane _ _ _ U1) Ho) as (ch' & m2 & -> & U2 & Hch); [lia..|].
      exists ch', m2. split; [done|]. split.
      { eapply updates_ext; [by eapply updates_trans|]. intros i b _. cbn beta. cases_Z; try done; lia. }
      rewrite Hch. clear Hch IH. assert ((f w o =? w) = true ↔ ∀ i, 64 * k <= i < 64 * (k + 1) → bit m1 i = bit m i) as E.
      { rewrite Z.eqb_eq. split.
        - intros Ef i Hi. rewrite (up_bits _ _ _ U1) by lia. cbn beta. rewrite (proj2 (Z.leb_le _ _)), (proj2 (Z.ltb_lt _ _)) by lia.
          cbn [andb]. pose proof (Hbw (i - 64 * k) ltac:(lia)) as E1. pose proof (Hbo (i - 64 * k) ltac:(lia)) as E2.
          replace (64 * k + (i - 64 * k)) with i in * by lia. rewrite <- E1, <- E2, <- Hf by (done || lia). by rewrite Ef.
        - intros Eb. apply word_eq; [auto|done|]. intros j Hj. rewrite Hf, Hbw, Hbo by done. specialize (Eb (64 * k + j) ltac:(lia)).
          rewrite (up_bits _ _ _ U1), (proj2 (Z.leb_le _ _)), (proj2 (Z.ltb_lt _ _)) in Eb by lia. done. }
      destruct ch; cbn [orb]; [split; intros [? ?]; done|]. destruct (f w o =? w) eqn:Ew; cbn [negb].
      * pose proof (proj1 E eq_refl) as Hsame. split; intros [_ Hall]; (split; [done|]); intros i Hi.
        -- destruct (Z.ltb_spec i (64 * (k + 1))); [|rewrite Hall by lia; rewrite (up_bits _ _ _ U1) by lia; cbn beta; cases_Z; try done; lia].
           rewrite <- Hsame by lia. rewrite (up_bits _ _ _ U2) by lia. cbn beta. cases_Z; try done; lia.
        -- rewrite Hall by lia. rewrite (up_bits _ _ _ U1) by lia. cbn beta. cases_Z; try done; lia.
      * split; [by intros [? _]|]. intros [_ Hall]. exfalso. assert (false = true); [|done]. apply E. intros i Hi.
        rewrite <- Hall by lia. rewrite (up_bits _ _ _ U2) by lia. cbn beta. cases_Z; try done; lia.
Qed.

Lemma every_word_spec (p : Z → Z → bool) (pb : bool → bool → bool) n m other k :
  (∀ v w, in_u64 v → in_u64 w → p v w = true ↔ ∀ j, 0 <= j < 64 → pb (Z.testbit v j) (Z.testbit w j) = true) →
  sane m → sane other → 0 <= k →
  k + Z.of_nat n <= Z.of_nat (length (_map m)) → k + Z.of_nat n <= Z.of_nat (length (_map other)) →
  ∃ r, every_word p n m other k = Some r ∧
    (r = true ↔ ∀ i, 64 * k <= i < 64 * (k + Z.of_nat n) → pb (bit m i) (bit other i) = true).
Proof.
  intros Hp. revert k. induction n as [|n IH]; intros k Hm Ho Hk Hlm Hlo; cbn [every_word].
  - exists true. split; [done|]. split; [lia|done].
  - destruct (map_word_spec m k Hm) as (w & -> & Hw & Hbw); [lia|]. destruct (map_word_spec other k Ho) as (o & -> & Hwo & Hbo); [lia|].
    cbn [mbind option_bind]. specialize (Hp w o Hw Hwo). destruct (p w o) eqn:E; cbn [negb].
    + pose proof (proj1 Hp eq_refl) as Hin. destruct (IH (k + 1)) as (r & -> & Hr); [done..|lia|lia|lia|]. exists r. split; [done|].
      rewrite Hr. split; intros Hall i Hi.
      * destruct (Z.ltb_spec i (64 * (k + 1))); [|apply Hall; lia]. specialize (Hin (i - 64 * k) ltac:(lia)).
        rewrite Hbw, Hbo in Hin by lia. by replace (64 * k + (i - 64 * k)) with i in Hin by lia.
      * apply Hall. lia.
    + exists false. split; [done|]. split; [done|]. intros Hall. apply Hp. intros j Hj. rewrite Hbw, Hbo by done. apply Hall. lia.
Qed.

Lemma eqb_bits v w : in_u64 v → in_u64 w → (v =? w) = true ↔ ∀ j, 0 <= j < 64 → Z.testbit v j = Z.testbit w j.
Proof. intros Hv Hw. rewrite Z.eqb_eq. split; [by intros -> | by apply word_eq]. Qed.

Lemma zero_range : in_u64 0.
Proof. done. Qed.

Lemma all_split (Q : Z → Prop) a b c :
  a <= b <= c → (∀ i, a <= i < c → Q i) ↔ (∀ i, a <= i < b → Q i) ∧ (∀ i, b <= i < c → Q i).
Proof.
  intros Hb. split; [intros Hall; split; intros i Hi; apply Hall; lia|]. intros [H1 H2] i Hi.
  destruct (Z.ltb_spec i b); [apply H1|apply H2]; lia.
Qed.

(** The first [r] bits of a word are those of the map. *)
Lemma all_word (Q : bool → Prop) m k w r :
  r <= 64 → (∀ j, 0 <= j < 64 → Z.testbit w j = bit m (64 * k + j)) →
  (∀ i, 64 * k <= i < 64 * k + r → Q (bit m i)) ↔ (∀ j, 0 <= j < r → Q (Z.testbit w j)).
Proof.
  intros Hr Hb. split; intros Hall i Hi; [rewrite Hb by lia; apply Hall; lia|].
  replace i with (64 * k + (i - 64 * k)) by lia. rewrite <- Hb by lia. apply Hall. lia.
Qed.

(** What both tests compute on a full word and on the rest of a map. *)
Lemma word_test (v : bool) w r mask :
  in_u64 w → 0 <= r <= 64 → in_u64 mask → (∀ j, 0 <= j < 64 → Z.testbit mask j = if j <? r then Z.testbit w j else v) →
  (mask =? if v then AllBits else NoBits) = true ↔ ∀ j, 0 <= j < r → Z.testbit w j = v.
Proof.
  intros Hw Hr Hm Hb. rewrite eqb_bits by (done || by destruct v).
  assert (∀ j, 0 <= j < 64 → Z.testbit (if v then AllBits else NoBits) j = v) as Hv.
  { intros j Hj. destruct v; [change AllBits with (Z.ones 64); apply Z.ones_spec_low; lia|apply Z.bits_0]. }
  split; intros Hall j Hj.
  - specialize (Hall j ltac:(lia)). rewrite Hb, Hv in Hall by lia. by rewrite (proj2 (Z.ltb_lt _ _)) in Hall by lia.
  - rewrite Hb, Hv by lia. destruct (Z.ltb_spec j r); [apply Hall; lia|done].
Qed.

Definition test_words (n : nat) (m : BitMap) (k : Z) (v : bool) : option bool :=
  if v then full_words n m k (_size m - 64 * k) else empty_words n m k (_size m - 64 * k).

Lemma test_words_spec n m k v :
  sane m → 0 <= k → 64 * k <= _size m → _size m - 64 * k < 64 * Z.of_nat n →
  ∃ r, test_words n m k v = Some r ∧ (r = true ↔ ∀ i, 64 * k <= i < _size m → bit m i = v).
Proof.
  intros Hs. destruct (sane_size _ Hs) as [H0 Hc]. unfold capacity in Hc. revert k. induction n as [|n IH]; intros k Hk Hle Hn; [lia|].
  unfold test_words. cbn [full_words empty_words]. change BitsPerWord with 64.
  destruct (Z.geb_spec (_size m - 64 * k) 64) as [Hge|Hlt]; [|destruct (Z.eqb_spec (_size m - 64 * k) 0) as [E0|E0]].
  - destruct (map_word_spec m k Hs) as (w & -> & Hw & Hb); [lia|]. cbn [mbind option_bind].
    pose proof (all_split (λ i, bit m i = v) (64 * k) (64 * k + 64) (_size m) ltac:(lia)) as Hsplit.
    rewrite (all_word (λ b, b = v) m k w 64), <- (word_test v w 64 w) in Hsplit by
      (done || lia || (intros j Hj; by rewrite (proj2 (Z.ltb_lt _ _)) by lia)).
    destruct (IH (k + 1)) as (r & E & Hr); [lia..|]. replace (64 * (k + 1)) with (64 * k + 64) in Hr by lia.
    rewrite <- Hr in Hsplit.
    unfold test_words in E. replace (_size m - 64 * (k + 1)) with (_size m - 64 * k - 64) in E by lia.
    destruct v; rewrite E; destruct (w =? _); cbn [negb]; eexists; (split; [done|]); naive_solver.
  - exists true. split; [by destruct v|]. split; [lia|done].
  - destruct (map_word_spec m k Hs) as (w & -> & Hw & Hb); [lia|]. cbn [mbind option_bind].
    set (r := _size m - 64 * k) in *. rewrite right_n_bits_ones by lia.
    assert (Hro : in_u64 (Z.ones r)) by (rewrite <- (Z.mod_small r 64) by lia; apply ones_range).
    replace (_size m) with (64 * k + r) by lia. pose proof (all_word (λ b, b = v) m k w r ltac:(lia) Hb) as Hword.
    destruct v; (eexists; split; [done|]); rewrite Hword.
    + rewrite <- (word_test true w r (w ||| not_word (Z.ones r))); [done|done|lia|auto with bits|].
      intros j Hj. rewrite Z.lor_spec, not_word_bit, testbit_ones_nonneg by (done || lia).
      destruct (j <? r); cbn [negb]; [apply orb_false_r|apply orb_true_r].
    + rewrite <- (word_test false w r (w &&& Z.ones r)); [done|done|lia|apply land_range; [done|apply Hro]|].
      intros j Hj. rewrite Z.land_spec, testbit_ones_nonneg by lia. destruct (j <? r); [apply andb_true_r|apply andb_false_r].
Qed.

(** ** Searches *)

(** The least index from [l] that satisfies [p], or the index after the
    [n] that are tried. *)
Fixpoint search (p : Z → bool) (n : nat) (l : Z) : Z :=
  match n with O => l | S n => if p l then l else search p n (l + 1) end.

Record is_next (p : Z → bool) (l r k : Z) : Prop := mkNext {
  next_range : l <= k <= r;
  next_before : ∀ i, l <= i < k → p i = false;
  next_found : k < r → p k = true
}.

Lemma search_spec p n l : is_next p l (l + Z.of_nat n) (search p n l).
Proof.
  revert l. induction n as [|n IH]; intros l; cbn [search]; [split; lia|]. destruct (p l) eqn:E.
  - split; [lia..|done].
  - destruct (IH (l + 1)) as [Hr Hb Hf]. split; [lia| |intros; apply Hf; lia].
    intros i Hi. destruct (Z.eqb_spec i l) as [->|]; [done|]. apply Hb. lia.
Qed.

Lemma is_next_unique p l r k k' : is_next p l r k → is_next p l r k' → k = k'.
Proof.
  intros [Hr Hb Hf] [Hr' Hb' Hf']. destruct (Z.lt_trichotomy k k') as [Hlt|[|Hlt]]; [|done|]; exfalso.
  - specialize (Hb' k ltac:(lia)). rewrite Hf in Hb' by lia. done.
  - specialize (Hb k' ltac:(lia)). rewrite Hf' in Hb by lia. done.
Qed.

Lemma is_next_search p l r k : l <= r → is_next p l r k → k = search p (Z.to_nat (r - l)) l.
Proof.
  intros Hl Hk. eapply is_next_unique; [done|]. replace r with (l + Z.of_nat (Z.to_nat (r - l))) at 1 by lia. apply search_spec.
Qed.

(** Nothing is found before [mid]. *)
Lemma is_next_skip p l mid r k : l <= mid → (∀ i, l <= i < mid → p i = false) → is_next p mid r k → is_next p l r k.
Proof.
  intros Hm Hno [Hr Hb Hf]. split; [lia| |done]. intros i Hi. destruct (Z.ltb_spec i mid); [apply Hno|apply Hb]; lia.
Qed.

(** A hit beyond the range is cut off. *)
Lemma is_next_min p l r k : l <= k → l <= r → (∀ i, l <= i < k → p i = false) → p k = true → is_next p l r (MIN2 k r).
Proof. intros Hk Hr Hb Hf. unfold MIN2. cases_Z; split; try lia; try done; intros; apply Hb; lia. Qed.

(** The loop over the bits of a word finds the least bit with value [v];
    [res] is shifted, so that its bit [0] is always looked at. *)
Definition next_bit (v : bool) : nat → Z → Z → Z := if v then next_one_bit else next_zero_bit.

Lemma next_bit_spec v fuel res off :
  0 <= res → (∃ j, 0 <= j < Z.of_nat fuel ∧ Z.testbit res j = v) →
  ∃ k, next_bit v fuel res off = off + k ∧ 0 <= k < Z.of_nat fuel ∧ Z.testbit res k = v ∧ ∀ j, 0 <= j < k → Z.testbit res j = negb v.
Proof.
  revert res off. induction fuel as [|fuel IH]; intros res off Hres (j & Hj & Hv); [lia|].
  assert (Hland : (res &&& 1 =? 0) = negb (Z.testbit res 0)).
  { change 1 with (2 ^ 1 - 1). rewrite land_low_ones, Z.bit0_odd, Zmod_odd by lia. by destruct (Z.odd res). }
  destruct (Bool.bool_dec (Z.testbit res 0) v) as [E0|E0].
  - exists 0. rewrite Z.add_0_r. split; [|split; [lia|split; [done|lia]]]. destruct v; cbn; by rewrite Hland, E0.
  - assert (Hj0 : j ≠ 0) by (intros ->; done). destruct (IH (res >>> 1) (off + 1)) as (k & E & Hk & Hb & Hn).
    { by apply Z.shiftr_nonneg. }
    { exists (j - 1). split; [lia|]. rewrite Z.shiftr_spec by lia. by replace (j - 1 + 1) with j by lia. }
    exists (k + 1). split; [|split; [lia|split]].
    + destruct v, (Z.testbit res 0); try done; cbn [next_bit next_one_bit next_zero_bit]; rewrite Hland; cbn; cbn in E; lia.
    + by rewrite Z.shiftr_spec in Hb by lia.
    + intros i Hi. destruct (Z.eqb_spec i 0) as [->|]; [by destruct v, (Z.testbit res 0)|].
      specialize (Hn (i - 1) ltac:(lia)). rewrite Z.shiftr_spec in Hn by lia. by replace (i - 1 + 1) with i in Hn by lia.
Qed.

(** A word that is not all ones, or not all zeros, has such a bit. *)
Lemma word_has_bit (v : bool) w :
  in_u64 w → (w =? if v then NoBits else AllBits) = false → ∃ j, 0 <= j < 64 ∧ Z.testbit w j = v.
Proof.
  intros Hw Hne. destruct (decide (Exists (λ j, Z.testbit w j = v) (seqZ 0 64))) as [(j & Hj%elem_of_seqZ & E)%Exists_exists|Hno].
  { by exists j; split; [lia|]. }
  exfalso. apply Z.eqb_neq in Hne. apply Hne. apply word_eq; [done|by destruct v|]. intros j Hj.
  assert (Z.testbit w j ≠ v) as Hj' by (intros E; apply Hno, Exists_exists; exists j; split; [apply elem_of_seqZ; lia|done]).
  destruct v; [rewrite Z.bits_0|change AllBits with (Z.ones 64); rewrite Z.ones_spec_low by lia]; by destruct (Z.testbit w j).
Qed.

Lemma no_bits (v : bool) w j : (w =? if v then NoBits else AllBits) = true → 0 <= j < 64 → Z.testbit w j = negb v.
Proof.
  intros E%Z.eqb_eq Hj. subst w. destruct v; cbn [negb]; [apply Z.bits_0|]. change AllBits with (Z.ones 64). apply Z.ones_spec_low. lia.
Qed.

Definition next_word (v : bool) : nat → BitMap → Z → Z → option Z := if v then next_one_word else next_zero_word.
Definition has (m : BitMap) (v : bool) (i : Z) : bool := Bool.eqb (bit m i) v.

Lemma has_true m v i : has m v i = true ↔ bit m i = v.
Proof. unfold has. by destruct (bit m i), v. Qed.

Lemma has_false m v i : has m v i = false ↔ bit m i = negb v.
Proof. unfold has. by destruct (bit m i), v. Qed.

Lemma next_word_spec v n m index l r :
  sane m → 0 <= index → index + Z.of_nat n <= Z.of_nat (length (_map m)) → r <= 64 * (index + Z.of_nat n) →
  l <= r → l <= 64 * index → (∀ i, l <= i < 64 * index → has m v i = false) →
  ∃ k, next_word v n m index r = Some k ∧ is_next (has m v) l r k.
Proof.
  intros Hs. pose proof (sane_bound _ Hs) as Hbound. unfold capacity in Hbound.
  revert index. induction n as [|n IH]; intros index Hi Hn Hr Hl Hli Hno.
  - exists r. split; [by destruct v|]. split; [lia| |lia]. intros i Hi'. apply Hno. lia.
  - destruct (map_word_spec m index Hs) as (w & E & Hw & Hb); [lia|].
    assert (next_word v (S n) m index r =
      if negb (w =? if v then NoBits else AllBits) then Some (MIN2 (next_bit v 64 w (64 * index)) r) else next_word v n m (index + 1) r) as ->.
    { destruct v; cbn [next_word next_one_word next_zero_word]; rewrite E; cbn [mbind option_bind];
        rewrite ?bit_index_mul by lia; [done|]. unfold LogBitsPerWord. rewrite Z.shiftl_mul_pow2, Z.mul_comm by lia. done. }
    destruct (w =? _) eqn:Ew; cbn [negb].
    + apply IH; [lia..|]. intros i Hi'. destruct (Z.ltb_spec i (64 * index)); [apply Hno; lia|]. apply has_false.
      replace i with (64 * index + (i - 64 * index)) by lia. rewrite <- Hb by lia. apply no_bits; [done|lia].
    + destruct (next_bit_spec v 64 w (64 * index)) as (k & -> & Hk & Hv & Hbefore); [apply Hw|by apply word_has_bit|].
      eexists. split; [done|]. apply is_next_min; [lia|lia| |apply has_true; rewrite <- Hb by lia; done].
      intros i Hi'. destruct (Z.ltb_spec i (64 * index)); [apply Hno; lia|]. apply has_false.
      replace i with (64 * index + (i - 64 * index)) by lia. rewrite <- Hb by lia. apply Hbefore. lia.
Qed.

Lemma left_n_bits_spec pos : 0 <= pos < 64 → in_u64 (left_n_bits pos) ∧ ∀ j, 0 <= j < 64 → Z.testbit (left_n_bits pos) j = (64 - pos <=? j).
Proof.
  intros Hp. unfold left_n_bits. split; [apply u64_range|]. intros j Hj. change BitsPerWord with 64.
  rewrite geb_false, right_n_bits_ones by lia. unfold u64. change 0xFFFFFFFFFFFFFFFF with (Z.ones 64).
  rewrite Z.land_spec, Z.shiftl_spec, (Z.ones_spec_low 64 j), andb_true_r by lia. destruct (Z.leb_spec (64 - pos) j).
  - apply Z.ones_spec_low. lia.
  - apply Z.testbit_neg_r. lia.
Qed.

(** The first word, shifted so that the bit at [l] is bit [0]. *)
Lemma first_word_spec (v : bool) m l w :
  sane m → 0 <= l → in_u64 w → (∀ j, 0 <= j < 64 → Z.testbit w j = bit m (64 * (l / 64) + j)) →
  let res := if v then w >>> bit_in_word l else (w >>> bit_in_word l) ||| left_n_bits (bit_in_word l) in
  in_u64 res ∧ ∀ j, 0 <= j < 64 → Z.testbit res j = if l + j <? 64 * (l / 64 + 1) then bit m (l + j) else negb v.
Proof.
  intros Hs Hl Hw Hb. rewrite bit_in_word_mod. pose proof (Z.mod_pos_bound l 64 ltac:(lia)) as Hp.
  assert (Hsh : in_u64 (w >>> (l mod 64))).
  { unfold in_u64 in *. rewrite Z.shiftr_div_pow2 by lia. split; [apply Z.div_pos; lia|]. apply Z.div_lt_upper_bound; nia. }
  assert (Hshb : ∀ j, 0 <= j < 64 → Z.testbit (w >>> (l mod 64)) j = if l + j <? 64 * (l / 64 + 1) then bit m (l + j) else false).
  { intros j Hj. rewrite Z.shiftr_spec by lia. assert (l = 64 * (l / 64) + l mod 64) by (apply Z.div_mod; lia).
    destruct (Z.ltb_spec (l + j) (64 * (l / 64 + 1))).
    - rewrite Hb by lia. f_equal. lia.
    - apply (bits_of_range w 64); [done|lia]. }
  destruct (left_n_bits_spec (l mod 64) Hp) as [Hlr Hlb]. destruct v; cbn [negb]; [by split|].
  split; [auto with bits|]. intros j Hj. rewrite Z.lor_spec, Hshb, Hlb by done.
  assert (l = 64 * (l / 64) + l mod 64) by (apply Z.div_mod; lia).
  cases_Z; try lia; by rewrite ?orb_false_r, ?orb_true_r.
Qed.

Definition get_next_offset (v : bool) : BitMap → Z → Z → option Z :=
  if v then get_next_one_offset else get_next_zero_offset.

Lemma get_next_offset_spec v m l r :
  sane m → 0 <= l <= r → r <= capacity m → ∃ k, get_next_offset v m l r = Some k ∧ is_next (has m v) l r k.
Proof.
  intros Hs Hlr Hc. pose proof (sane_bound _ Hs) as Hbound. unfold capacity in *. destruct (Z.eqb_spec l r) as [->|Hne].
  { exists r. split; [destruct v; cbn; unfold get_next_one_offset, get_next_zero_offset; by rewrite Z.eqb_refl|]. split; lia. }
  destruct (map_word_spec m (l / 64) Hs) as (w & E & Hw & Hb); [Z.to_euclidean_division_equations; lia|].
  destruct (first_word_spec v m l w Hs ltac:(lia) Hw Hb) as [Hrr Hrb].
  set (res := if v then w >>> bit_in_word l else (w >>> bit_in_word l) ||| left_n_bits (bit_in_word l)) in *.
  assert (get_next_offset v m l r =
    if negb (res =? if v then NoBits else AllBits) then Some (MIN2 (next_bit v 64 res l) r)
    else next_word v (Z.to_nat ((r - 1) / 64 - l / 64)) m (l / 64 + 1) r) as ->.
  { unfold res. destruct v; cbn [get_next_offset next_bit next_word]; unfold get_next_one_offset, get_next_zero_offset;
      rewrite (proj2 (Z.eqb_neq l r)), !word_index_div, (u64_small (r - 1)), E by (done || unfold in_u64; lia); cbn [mbind option_bind];
      by replace ((r - 1) / 64 + 1 - (l / 64 + 1)) with ((r - 1) / 64 - l / 64) by lia. }
  destruct (res =? _) eqn:Er; cbn [negb].
  - apply next_word_spec; try (Z.to_euclidean_division_equations; lia); [done|]. intros i Hi.
    apply has_false. pose proof (no_bits v res (i - l) Er) as Hn. rewrite Hrb in Hn by (Z.to_euclidean_division_equations; lia).
    replace (l + (i - l)) with i in Hn by lia. rewrite (proj2 (Z.ltb_lt _ _)) in Hn by lia.
    apply Hn. Z.to_euclidean_division_equations; lia.
  - destruct (next_bit_spec v 64 res l) as (k & -> & Hk & Hv & Hbefore); [apply Hrr|by apply word_has_bit|].
    assert (l + k < 64 * (l / 64 + 1)) as Hin.
    { rewrite Hrb in Hv by done. destruct (Z.ltb_spec (l + k) (64 * (l / 64 + 1))); [done|]. by destruct v. }
    eexists. split; [done|]. apply is_next_min; [lia|lia| |].
    + intros i Hi. apply has_false. specialize (Hbefore (i - l) ltac:(lia)). rewrite Hrb in Hbefore by lia.
      replace (l + (i - l)) with i in Hbefore by lia. by rewrite (proj2 (Z.ltb_lt _ _)) in Hbefore by lia.
    + apply has_true. rewrite Hrb, (proj2 (Z.ltb_lt _ _)) in Hv by lia. done.
Qed.

(** The words that a search for a one reads, one at a time. *)
Lemma search_first_word m l :
  sane m → 0 <= l < capacity m →
  ∃ w, map_word m (word_index l) = Some w ∧
    ((w >>> bit_in_word l =? NoBits) = true → ∀ i, l <= i < 64 * (word_index l + 1) → bit m i = false) ∧
    ((w >>> bit_in_word l =? NoBits) = false → let k := next_one_bit 64 (w >>> bit_in_word l) l in
       l <= k ∧ bit m k = true ∧ ∀ i, l <= i < k → bit m i = false).
Proof.
  intros Hs Hl. unfold capacity in *. rewrite word_index_div.
  destruct (map_word_spec m (l / 64) Hs) as (w & E & Hw & Hb); [Z.to_euclidean_division_equations; lia|].
  destruct (first_word_spec true m l w Hs ltac:(lia) Hw Hb) as [Hrr Hrb]. cbn [negb] in Hrb. exists w. split; [done|]. split.
  - intros Er i Hi. pose proof (no_bits true _ (i - l) Er) as Hn. rewrite Hrb in Hn by (Z.to_euclidean_division_equations; lia).
    replace (l + (i - l)) with i in Hn by lia. rewrite (proj2 (Z.ltb_lt _ _)) in Hn by lia. apply Hn. Z.to_euclidean_division_equations; lia.
  - intros Er. destruct (next_bit_spec true 64 (w >>> bit_in_word l) l) as (k & Ek & Hk & Hv & Hbefore); [apply Hrr|by apply (word_has_bit true)|].
    cbn [next_bit] in Ek. cbv zeta. rewrite Ek. assert (l + k < 64 * (l / 64 + 1)) as Hin.
    { rewrite Hrb in Hv by done. destruct (Z.ltb_spec (l + k) (64 * (l / 64 + 1))); done. }
    split_and!; [lia| |].
    + by rewrite Hrb, (proj2 (Z.ltb_lt _ _)) in Hv by lia.
    + intros i Hi. specialize (Hbefore (i - l) ltac:(lia)). rewrite Hrb in Hbefore by lia.
      replace (l + (i - l)) with i in Hbefore by lia. by rewrite (proj2 (Z.ltb_lt _ _)) in Hbefore by lia.
Qed.

Lemma search_next_word m index :
  sane m → 0 <= index < Z.of_nat (length (_map m)) →
  ∃ w, map_word m index = Some w ∧
    ((w =? NoBits) = true → ∀ i, 64 * index <= i < 64 * (index + 1) → bit m i = false) ∧
    ((w =? NoBits) = false → let k := next_one_bit 64 w (bit_index index) in
       64 * index <= k ∧ bit m k = true ∧ ∀ i, 64 * index <= i < k → bit m i = false).
Proof.
  intros Hs Hi. pose proof (sane_bound _ Hs) as Hbound. unfold capacity in Hbound. rewrite bit_index_mul by lia.
  destruct (map_word_spec m index Hs Hi) as (w & E & Hw & Hb). exists w. split; [done|]. split.
  - intros Er i Hr. pose proof (no_bits true _ (i - 64 * index) Er) as Hn. rewrite Hb in Hn by lia.
    replace (64 * index + (i - 64 * index)) with i in Hn by lia. apply Hn. lia.
  - intros Er. destruct (next_bit_spec true 64 w (64 * index)) as (k & Ek & Hk & Hv & Hbefore); [apply Hw|by apply (word_has_bit true)|].
    cbn [next_bit] in Ek. cbv zeta. rewrite Ek. split_and!; [lia|by rewrite Hb in Hv by lia|].
    intros i Hr. specialize (Hbefore (i - 64 * index) ltac:(lia)). rewrite Hb in Hbefore by lia.
    by replace (64 * index + (i - 64 * index)) with i in Hbefore by lia.
Qed.

(** ** Counting *)

(** How many of the [n] indices from [l] satisfy [p]. *)
Fixpoint count (p : Z → bool) (n : nat) (l : Z) : Z :=
  match n with O => 0 | S n => Z.b2z (p l) + count p n (l + 1) end.

Lemma count_app p n k l : count p (n + k) l = count p n l + count p k (l + Z.of_nat n).
Proof.
  revert l. induction n as [|n IH]; intros l; cbn [count Nat.add]; [by replace (l + Z.of_nat 0) with l by lia|]. rewrite IH.
  replace (l + 1 + Z.of_nat n) with (l + Z.of_nat (S n)) by lia. lia.
Qed.

Lemma count_ext p q n l l' : (∀ j, 0 <= j < Z.of_nat n → p (l + j) = q (l' + j)) → count p n l = count q n l'.
Proof.
  revert l l'. induction n as [|n IH]; intros l l' E; [done|]. cbn [count]. f_equal.
  - f_equal. specialize (E 0 ltac:(lia)). by rewrite !Z.add_0_r in E.
  - apply IH. intros j Hj. specialize (E (j + 1) ltac:(lia)). replace (l + 1 + j) with (l + (j + 1)) by lia. rewrite E. f_equal. lia.
Qed.

Lemma count_bounds p n l : 0 <= count p n l <= Z.of_nat n.
Proof. revert l. induction n as [|n IH]; intros l; cbn [count]; [lia|]. specialize (IH (l + 1)). destruct (p l); cbn [Z.b2z]; lia. Qed.

Lemma count_size (X : gset Z) n l :
  (∀ i, i ∈ X → l <= i < l + Z.of_nat n) → count (λ i, bool_decide (i ∈ X)) n l = Z.of_nat (size X).
Proof.
  revert l X. induction n as [|n IH]; intros l X HX; cbn [count].
  - assert (X ≡ ∅) as -> by (intros i; split; [intros Hi%HX; lia|set_solver]). by rewrite size_empty.
  - pose proof (IH (l + 1) (X ∖ {[l]})) as E. assert (count (λ i, bool_decide (i ∈ X ∖ {[l]})) n (l + 1) = count (λ i, bool_decide (i ∈ X)) n (l + 1)) as Eq.
    { apply count_ext. intros j Hj. apply bool_decide_ext. assert (l + 1 + j ≠ l) by lia. set_solver. }
    rewrite Eq in E. rewrite E by (intros i [Hi%HX Hne]%elem_of_difference; rewrite elem_of_singleton in Hne; lia).
    destruct (decide (l ∈ X)) as [Hl|Hl].
    + rewrite bool_decide_eq_true_2 by done. cbn [Z.b2z]. assert (X ≡ {[l]} ∪ X ∖ {[l]}) as E2 by (apply set_equiv; intros i; destruct (decide (i = l)); set_solver).
      rewrite E2 at 2. rewrite (size_union {[l]} (X ∖ {[l]})), size_singleton by set_solver. lia.
    + rewrite bool_decide_eq_false_2 by done. cbn [Z.b2z]. assert (X ∖ {[l]} ≡ X) as -> by set_solver. lia.
Qed.

Lemma table_entry c : 0 <= c < 256 → num_set_bits_from_table c = Some (count (Z.testbit c) 8 0).
Proof.
  intros Hc. unfold num_set_bits_from_table, pop_count_table. rewrite list_lookup_fmap, lookup_seqZ_lt by lia. cbn [fmap option_fmap option_map].
  f_equal. replace (0 + Z.of_nat (Z.to_nat c)) with c by lia.
  assert (forallb (λ c, num_set_bits 64 c =? count (Z.testbit c) 8 0) (seqZ 0 256) = true) as H256 by (vm_compute; reflexivity).
  rewrite forallb_forall in H256. apply Z.eqb_eq, H256, list_elem_of_In, elem_of_seqZ. lia.
Qed.

Lemma count_bytes_spec n w sum : 0 <= w → count_bytes n w sum = Some (if n then sum else u64 (sum + count (Z.testbit w) (8 * n) 0)).
Proof.
  revert w sum. induction n as [|n IH]; intros w sum Hw; [done|]. cbn [count_bytes].
  assert (w &&& 255 = w mod 256) as E by (change 255 with (2 ^ 8 - 1); by rewrite land_low_ones).
  rewrite E, table_entry by (apply Z.mod_pos_bound; lia). cbn [mbind option_bind]. rewrite IH by by apply Z.shiftr_nonneg. f_equal.
  replace (8 * S n)%nat with (8 + 8 * n)%nat by lia. rewrite count_app.
  assert (count (Z.testbit (w mod 256)) 8 0 = count (Z.testbit w) 8 0) as ->.
  { apply count_ext. intros j Hj. change 256 with (2 ^ 8). apply Z.mod_pow2_bits_low. lia. }
  assert (count (Z.testbit (w >>> 8)) (8 * n) 0 = count (Z.testbit w) (8 * n) (0 + Z.of_nat 8)) as ->.
  { apply count_ext. intros j Hj. rewrite Z.shiftr_spec by lia. f_equal. lia. }
  destruct n as [|n]; [change (8 * 0)%nat with 0%nat; change (count (Z.testbit w) 0 _) with 0; by rewrite Z.add_0_r|]. rewrite !u64_mod, Zplus_mod_idemp_l. f_equal. lia.
Qed.

Lemma count_words_spec n m k sum :
  sane m → 0 <= k → k + Z.of_nat n <= Z.of_nat (length (_map m)) → 0 <= sum <= 64 * k →
  count_words n m k sum = Some (sum + count (bit m) (64 * n) (64 * k)).
Proof.
  intros Hs. pose proof (sane_bound _ Hs) as Hbound. unfold capacity in Hbound.
  revert k sum. induction n as [|n IH]; intros k sum Hk Hn Hsum; cbn [count_words].
  - cbn. by rewrite Z.add_0_r.
  - destruct (map_word_spec m k Hs) as (w & -> & Hw & Hb); [lia|]. cbn [mbind option_bind].
    rewrite count_bytes_spec by apply Hw. cbn [mbind option_bind]. pose proof (count_bounds (Z.testbit w) (8 * 8) 0).
    rewrite u64_small by (unfold in_u64; lia). rewrite IH by lia. f_equal. replace (64 * S n)%nat with (64 + 64 * n)%nat by lia.
    rewrite count_app. assert (count (Z.testbit w) (8 * 8) 0 = count (bit m) 64 (64 * k)) as ->.
    { apply (count_ext _ _ 64). intros j Hj. rewrite <- Hb by lia. f_equal. }
    replace (64 * (k + 1)) with (64 * k + Z.of_nat 64) by lia. lia.
Qed.

(** ** Iteration *)

(** The indices among the [n] from [l] that satisfy [p]. *)
Fixpoint indices (p : Z → bool) (n : nat) (l : Z) : list Z :=
  match n with O => [] | S n => if p l then l :: indices p n (l + 1) else indices p n (l + 1) end.

Lemma indices_app p n k l : indices p (n + k) l = indices p n l ++ indices p k (l + Z.of_nat n).
Proof.
  revert l. induction n as [|n IH]; intros l; cbn [indices Nat.add app]; [by replace (l + Z.of_nat 0) with l by lia|].
  rewrite IH. replace (l + 1 + Z.of_nat n) with (l + Z.of_nat (S n)) by lia. by destruct (p l).
Qed.

Lemma indices_none p n l : (∀ i, l <= i < l + Z.of_nat n → p i = false) → indices p n l = [].
Proof. revert l. induction n as [|n IH]; intros l Hp; [done|]. cbn [indices]. rewrite Hp by lia. apply IH. intros. apply Hp. lia. Qed.

Section iteration.
Context {St : Type} (bm : St → BitMap) (do_bit : Z → St → option (bool * St)).
Context (Hkeep : ∀ i s b s', do_bit i s = Some (b, s') → bm s' = bm s).

(** The closure applied to a list of bits until it returns false. *)
Fixpoint visit (l : list Z) (s : St) : option (bool * St) :=
  match l with
  | [] => Some (true, s)
  | i :: l => '(more, s) ← do_bit i s; if negb more then Some (false, s) else visit l s
  end.

Lemma visit_app l k s : visit (l ++ k) s = ('(more, s) ← visit l s; if negb more then Some (false, s) else visit k s).
Proof.
  revert s. induction l as [|i l IH]; intros s; [done|]. cbn [visit app]. destruct (do_bit i s) as [[more s1]|]; [|done].
  cbn [mbind option_bind]. destruct more; cbn [negb]; [apply IH|done].
Qed.

Lemma visit_keeps l s b s' : visit l s = Some (b, s') → bm s' = bm s.
Proof.
  revert s. induction l as [|i l IH]; intros s; cbn [visit]; [by intros [= _ ->]|].
  destruct (do_bit i s) as [[more s1]|] eqn:E; [|done]. cbn [mbind option_bind]. apply Hkeep in E.
  destruct more; cbn [negb]; [|by intros [= _ <-]]. intros Ev%IH. congruence.
Qed.

Lemma iterate_bits_spec n m index offset r rest s :
  bm s = m → sane m → 0 <= index < Z.of_nat (length (_map m)) →
  64 * index <= offset <= 64 * (index + 1) → offset <= r → 64 * (index + 1) - offset <= Z.of_nat n →
  0 <= rest → (∀ j, 0 <= j → Z.testbit rest j = if offset + j <? 64 * (index + 1) then bit m (offset + j) else false) →
  iterate_bits bm do_bit n index offset r rest s = visit (indices (bit m) (Z.to_nat (Z.min r (64 * (index + 1)) - offset)) offset) s.
Proof.
  intros Hm Hs Hi. revert offset rest s Hm. induction n as [|n IH]; intros offset rest s Hm Ho Hr Hn Hrest Hb.
  { replace (Z.to_nat _) with 0%nat by lia. done. }
  cbn [iterate_bits]. destruct (Z.eqb_spec rest NoBits) as [E0|E0].
  { cbn [negb]. rewrite andb_false_r, indices_none; [done|]. intros i Hi'. specialize (Hb (i - offset) ltac:(lia)).
    rewrite E0, Z.bits_0 in Hb. replace (offset + (i - offset)) with i in Hb by lia. rewrite (proj2 (Z.ltb_lt _ _)) in Hb by lia. done. }
  assert (offset < 64 * (index + 1)) as Hlt.
  { destruct (Z.ltb_spec offset (64 * (index + 1))); [done|]. exfalso. apply E0. apply Z.bits_inj'. intros j Hj.
    rewrite Hb, Z.bits_0 by done. cases_Z; [lia|done]. }
  destruct (Z.ltb_spec offset r) as [Hor|Hor]; cbn [andb negb]; [|by replace (Z.to_nat _) with 0%nat by lia].
  replace (Z.to_nat (Z.min r (64 * (index + 1)) - offset)) with (S (Z.to_nat (Z.min r (64 * (index + 1)) - (offset + 1)))) by lia.
  cbn [indices]. assert (Hbit0 : (rest &&& 1 =? 0) = negb (bit m offset)).
  { change 1 with (2 ^ 1 - 1). rewrite land_low_ones by lia. change (2 ^ 1) with 2. rewrite Zmod_odd, <- Z.bit0_odd, Hb by lia.
    rewrite Z.add_0_r, (proj2 (Z.ltb_lt _ _)) by lia. by destruct (bit m offset). }
  rewrite Hbit0, negb_involutive. destruct (bit m offset).
  - cbn [visit]. destruct (do_bit offset s) as [[more s1]|] eqn:E; [|done]. cbn [mbind option_bind]. destruct more; cbn [negb]; [|done].
    assert (Hm1 : bm s1 = m) by (rewrite <- Hm; by eapply Hkeep). rewrite Hm1.
    destruct (map_word_spec m index Hs Hi) as (w & -> & Hw & Hwb). cbn [mbind option_bind]. apply IH; [done|lia..| |].
    + apply Z.shiftr_nonneg, Z.shiftr_nonneg, Hw.
    + intros j Hj. rewrite bit_in_word_mod, !Z.shiftr_spec by (pose proof (Z.mod_pos_bound offset 64); lia).
      assert (offset mod 64 = offset - 64 * index) as -> by (Z.to_euclidean_division_equations; lia). cases_Z.
      * rewrite Hwb by lia. f_equal. lia.
      * apply (bits_of_range w 64); [done|lia].
  - apply IH; [done|lia..| |].
    + by apply Z.shiftr_nonneg.
    + intros j Hj. rewrite Z.shiftr_spec, Hb by lia. by replace (offset + (j + 1)) with (offset + 1 + j) by lia.
Qed.

Lemma iterate_words_S n index offset r end_ s :
  iterate_words bm do_bit (S n) index offset r end_ s =
  if (offset <? r) && (index <? end_) then
    w ← map_word (bm s) index;
    '(more, s) ← iterate_bits bm do_bit 64 index offset r (w >>> bit_in_word offset) s;
    if negb more then Some (false, s) else iterate_words bm do_bit n (index + 1) (bit_index (index + 1)) r end_ s
  else Some (true, s).
Proof. reflexivity. Qed.

#[local] Opaque iterate_bits iterate_words.

Lemma iterate_words_end n index offset r end_ s :
  r <= offset → iterate_words bm do_bit n index offset r end_ s = Some (true, s).
Proof. intros H. destruct n; [done|]. rewrite iterate_words_S. by rewrite (proj2 (Z.ltb_ge offset r)). Qed.

Lemma iterate_words_spec n m index offset r end_ s :
  bm s = m → sane m → 0 <= index → end_ <= Z.of_nat (length (_map m)) → r <= 64 * end_ → end_ - index <= Z.of_nat n →
  64 * index <= offset < 64 * (index + 1) →
  iterate_words bm do_bit n index offset r end_ s = visit (indices (bit m) (Z.to_nat (r - offset)) offset) s.
Proof.
  intros Hm Hs. pose proof (sane_bound _ Hs) as Hbound. unfold capacity in Hbound.
  revert index offset s Hm. induction n as [|n IH]; intros index offset s Hm Hi He Hr Hn Ho.
  { replace (Z.to_nat _) with 0%nat by lia. done. }
  rewrite iterate_words_S. pose proof (iterate_bits_spec 64 m index offset r) as Hbits.
  revert Hbits. generalize (iterate_bits bm do_bit 64). intros bits Hbits.
  destruct (Z.ltb_spec offset r) as [Hor|Hor]; cbn [andb]; [|by replace (Z.to_nat _) with 0%nat by lia].
  destruct (Z.ltb_spec index end_) as [Hie|Hie]; [|by replace (Z.to_nat _) with 0%nat by lia].
  rewrite Hm. destruct (map_word_spec m index Hs) as (w & -> & Hw & Hwb); [lia|]. cbn [mbind option_bind].
  assert (Hfirst : ∀ j, 0 <= j → Z.testbit (w >>> bit_in_word offset) j = if offset + j <? 64 * (index + 1) then bit m (offset + j) else false).
  { intros j Hj. rewrite bit_in_word_mod, Z.shiftr_spec by lia.
    assert (offset mod 64 = offset - 64 * index) as -> by (Z.to_euclidean_division_equations; lia). cases_Z.
    - rewrite Hwb by lia. f_equal. lia.
    - apply (bits_of_range w 64); [done|lia]. }
  rewrite Hbits by (done || lia || apply Z.shiftr_nonneg, Hw).
  replace (Z.to_nat (r - offset)) with (Z.to_nat (Z.min r (64 * (index + 1)) - offset) + Z.to_nat (r - 64 * (index + 1)))%nat by lia.
  rewrite indices_app, visit_app. destruct (visit _ s) as [[more s1]|] eqn:E; [|done]. cbn [mbind option_bind].
  apply visit_keeps in E. destruct more; cbn [negb]; [|done]. rewrite bit_index_mul by lia.
  destruct (Z.ltb_spec r (64 * (index + 1))).
  - replace (Z.to_nat (r - 64 * (index + 1))) with 0%nat by lia. rewrite iterate_words_end by lia. done. 
  - rewrite IH by (congruence || lia). f_equal. f_equal. lia.
Qed.

Lemma iterate_spec l r s :
  sane (bm s) → 0 <= l <= r → r <= _size (bm s) →
  iterate bm do_bit l r s = visit (indices (bit (bm s)) (Z.to_nat (r - l)) l) s.
Proof.
  intros Hs Hl Hr. destruct (size_in_words_range _ Hs) as [Hw Hsz]. unfold iterate. rewrite !word_index_div.
  destruct (Z.ltb_spec (l / 64) (size_in_words (bm s))).
  - apply iterate_words_spec; try done; unfold MIN2, words_of; cases_Z; try (Z.to_euclidean_division_equations; lia).
  - assert (l = r) as -> by (Z.to_euclidean_division_equations; lia). rewrite Z.sub_diag. cbn [Z.to_nat indices visit].
    by apply iterate_words_end.
Qed.

End iteration.

(** ** Sets

    The abstract value of a map is the set of the indices of its bits. *)

Definition bits_of (m : BitMap) : gset Z := list_to_set (indices (bit m) (Z.to_nat (capacity m)) 0).

(** No bit is set beyond the size. *)
Record well_formed (m : BitMap) : Prop := mkWellFormed {
  wf_sane : sane m;
  wf_tail : ∀ i, _size m <= i → bit m i = false
}.

Lemma elem_of_indices p n l i : i ∈ indices p n l ↔ l <= i < l + Z.of_nat n ∧ p i = true.
Proof.
  revert l. induction n as [|n IH]; intros l; cbn [indices].
  - split; [by intros ?%elem_of_nil|lia].
  - destruct (p l) eqn:E; rewrite ?elem_of_cons, IH; split.
    + intros [->|[? ?]]; split; try done; lia.
    + intros [? ?]. destruct (decide (i = l)); [by left|right; split; [lia|done]].
    + intros [? ?]. split; [lia|done].
    + intros [? ?]. assert (i ≠ l) by congruence. split; [lia|done].
Qed.

Lemma elem_of_bits m i : i ∈ bits_of m ↔ 0 <= i ∧ bit m i = true.
Proof.
  unfold bits_of. rewrite elem_of_list_to_set, elem_of_indices. split; [by intros [[? ?] ?]|]. intros [H0 Hb]. split; [|done].
  destruct (Z.ltb_spec i (capacity m)); [lia|]. by rewrite bit_beyond in Hb.
Qed.

Lemma bit_of m i : 0 <= i → bit m i = bool_decide (i ∈ bits_of m).
Proof. intros Hi. apply eq_bool_prop_intro. rewrite bool_decide_spec, elem_of_bits. destruct (bit m i); naive_solver. Qed.

Lemma bits_below m i : well_formed m → i ∈ bits_of m → 0 <= i < _size m.
Proof.
  intros Hwf [H0 Hb]%elem_of_bits. split; [done|]. destruct (Z.ltb_spec i (_size m)); [done|]. by rewrite (wf_tail _ Hwf) in Hb.
Qed.

Definition range (lo hi : Z) : gset Z := list_to_set (seqZ lo (hi - lo)).

Lemma elem_of_range lo hi i : i ∈ range lo hi ↔ lo <= i < hi.
Proof. unfold range. rewrite elem_of_list_to_set, elem_of_seqZ. lia. Qed.

(** The operations that change a map, what they do to it, and what that
    means for its set. *)
Inductive update :=
  | Put (k : Z) (v : bool)
  | PutRange (lo hi : Z) (v : bool)
  | PutLargeRange (lo hi : Z) (v : bool)
  | Clear
  | ClearLarge
  | Union (other : BitMap)
  | Difference (other : BitMap)
  | Intersection (other : BitMap)
  | From (other : BitMap).

Definition exec (m : BitMap) (u : update) : option BitMap :=
  match u with
  | Put k v => at_put m k v
  | PutRange lo hi v => at_put_range m lo hi v
  | PutLargeRange lo hi v => at_put_large_range m lo hi v
  | Clear => clear m
  | ClearLarge => clear_large m
  | Union other => set_union m other
  | Difference other => set_difference m other
  | Intersection other => set_intersection m other
  | From other => set_from m other
  end.

Definition meaning (X : gset Z) (u : update) : gset Z :=
  match u with
  | Put k v => if v then {[k]} ∪ X else X ∖ {[k]}
  | PutRange lo hi v | PutLargeRange lo hi v => if v then range lo hi ∪ X else X ∖ range lo hi
  | Clear | ClearLarge => ∅
  | Union other => X ∪ bits_of other
  | Difference other => X ∖ bits_of other
  | Intersection other => X ∩ bits_of other
  | From other => bits_of other
  end.

Definition update_ok (size : Z) (u : update) : Prop :=
  match u with
  | Put k _ => 0 <= k < size
  | PutRange lo hi _ => 0 <= lo <= hi ∧ hi <= size
  | PutLargeRange lo hi _ => 0 <= lo <= hi ∧ hi <= size ∧ (lo + 63) / 64 <= hi / 64
  | Clear | ClearLarge => True
  | Union other | Difference other | Intersection other | From other => well_formed other ∧ _size other = size
  end.

(** A change of the bits that stays below the size is a change of the set. *)
Lemma updates_set m f m' X :
  well_formed m → updates m f m' → (∀ i, i ∈ X → i < _size m) →
  (∀ i, 0 <= i → f i (bit m i) = bool_decide (i ∈ X)) → (∀ i, i ∈ X → 0 <= i) →
  well_formed m' ∧ _size m' = _size m ∧ bits_of m' = X.
Proof.
  intros Hwf [Hs Hz Hl Hb] Hlt Hf H0. assert (Hset : bits_of m' = X).
  { apply set_eq. intros i. rewrite elem_of_bits. split; [intros [Hi E]|intros Hi].
    - rewrite Hb, Hf in E by done. by apply bool_decide_eq_true in E.
    - pose proof (H0 _ Hi). split; [done|]. rewrite Hb, Hf by done. by apply bool_decide_eq_true. }
  split; [|done]. split; [done|]. intros i Hi. pose proof (sane_size _ Hs). rewrite bit_of, Hset by lia.
  apply bool_decide_eq_false. intros ?%Hlt. lia.
Qed.

Lemma binary_update (f : Z → Z → Z) (fb : bool → bool → bool) m other :
  (∀ v w, in_u64 v → in_u64 w → in_u64 (f v w)) →
  (∀ v w j, in_u64 v → in_u64 w → 0 <= j < 64 → Z.testbit (f v w) j = fb (Z.testbit v j) (Z.testbit w j)) →
  fb false false = false → well_formed m → well_formed other → _size other = _size m →
  ∃ ch m', update_words f (words_of m) m other 0 false = Some (ch, m') ∧
    updates m (λ i b, fb b (bit other i)) m' ∧ (ch = false ↔ bits_of m' = bits_of m).
Proof.
  intros Hr Hf H00 Hm Ho Hsz. pose proof (wf_sane _ Hm) as Sm. pose proof (wf_sane _ Ho) as So.
  destruct (size_in_words_range _ Sm) as [Hwm Hzm]. destruct (size_in_words_range _ So) as [Hwo Hzo].
  assert (size_in_words other = size_in_words m) as Ew by (rewrite !size_in_words_spec by done; by rewrite Hsz).
  destruct (update_words_spec f fb (words_of m) m other 0 false Hr Hf Sm So) as (ch & m' & E & U & Hch); [lia|unfold words_of; lia..|].
  assert (Htail : ∀ i, 64 * size_in_words m <= i → bit m i = false ∧ bit other i = false).
  { intros i Hi. split; apply wf_tail; (done || lia). }
  assert (HU : updates m (λ i b, fb b (bit other i)) m').
  { destruct U as [Us Uz Ul Ub]. split; [done..|]. intros i Hi. rewrite Ub by done. cases_Z; try done; try lia.
    destruct (Htail i) as [-> ->]; [unfold words_of in *; lia|done]. }
  exists ch, m'. split; [done|]. split; [done|]. rewrite Hch. split.
  - intros [_ Hall]. apply set_eq. intros i. rewrite !elem_of_bits. destruct (Z.ltb_spec i (64 * size_in_words m)).
    + split; intros [H0 Hi]; (split; [done|]); [rewrite <- Hall|rewrite Hall]; try done; unfold words_of; lia.
    + split; intros [H0 Hi]; (split; [done|]); revert Hi; rewrite (up_bits _ _ _ HU) by done; destruct (Htail i) as [-> ->]; (done || by rewrite H00).
  - intros Eq. split; [done|]. intros i Hi. by rewrite !bit_of, Eq by lia.
Qed.

Lemma exec_range_spec m lo hi v m' :
  well_formed m → 0 <= lo <= hi → hi <= _size m → updates m (put_between lo hi v) m' →
  well_formed m' ∧ _size m' = _size m ∧ bits_of m' = if v then range lo hi ∪ bits_of m else bits_of m ∖ range lo hi.
Proof.
  intros Hm Hr Hh U. eapply updates_set; [done|done|..].
  - intros i Hi. destruct (decide (i ∈ bits_of m)) as [?%bits_below|]; [lia|done|]. destruct v; [|set_solver].
    apply elem_of_union in Hi as [?%elem_of_range|]; [lia|done].
  - intros i Hi. unfold put_between. rewrite bit_of by done. destruct v; apply eq_bool_prop_intro; rewrite bool_decide_spec;
      rewrite ?elem_of_union, ?elem_of_difference, elem_of_range; cases_Z; rewrite ?bool_decide_spec; cbn; intuition lia.
  - intros i Hi. destruct (decide (i ∈ bits_of m)) as [?%bits_below|]; [lia|done|]. destruct v; [|set_solver].
    apply elem_of_union in Hi as [?%elem_of_range|]; [lia|done].
Qed.

Lemma exec_binary_spec (f : Z → Z → Z) (fb : bool → bool → bool) m other X :
  (∀ v w, in_u64 v → in_u64 w → in_u64 (f v w)) →
  (∀ v w j, in_u64 v → in_u64 w → 0 <= j < 64 → Z.testbit (f v w) j = fb (Z.testbit v j) (Z.testbit w j)) →
  fb false false = false → well_formed m → well_formed other → _size other = _size m →
  (∀ i, i ∈ X ↔ fb (bool_decide (i ∈ bits_of m)) (bool_decide (i ∈ bits_of other)) = true) →
  ∃ m', (r ← update_words f (words_of m) m other 0 false; Some r.2) = Some m' ∧ well_formed m' ∧ _size m' = _size m ∧ bits_of m' = X.
Proof.
  intros Hr Hf H00 Hm Ho Hsz HX. destruct (binary_update f fb m other Hr Hf H00 Hm Ho Hsz) as (ch & m' & -> & U & _).
  exists m'. split; [done|]. assert (∀ i, i ∈ X → 0 <= i < _size m) as Hin.
  { intros i Hi%HX. destruct (decide (i ∈ bits_of m)) as [?|H1]; [by apply bits_below|].
    destruct (decide (i ∈ bits_of other)) as [?|H2]; [rewrite <- Hsz; by apply bits_below|]. by rewrite !bool_decide_eq_false_2, H00 in Hi. }
  eapply updates_set; [done|done|intros i ?%Hin; lia| |intros i ?%Hin; lia].
  intros i Hi. cbn beta. rewrite !bit_of by done. apply eq_bool_prop_intro. rewrite bool_decide_spec, HX. apply Is_true_true.
Qed.

Lemma clear_bits m m' :
  well_formed m → updates m (put_between 0 (64 * size_in_words m) false) m' → well_formed m' ∧ _size m' = _size m ∧ bits_of m' = ∅.
Proof.
  intros Hm U. pose proof (size_in_words_range _ (wf_sane _ Hm)) as [_ Hsz]. eapply updates_set; [done|done|set_solver| |set_solver].
  intros i Hi. rewrite bool_decide_eq_false_2 by set_solver. unfold put_between. cases_Z; try done; try lia. apply (wf_tail _ Hm). lia.
Qed.

Lemma exec_spec m u :
  well_formed m → update_ok (_size m) u →
  ∃ m', exec m u = Some m' ∧ well_formed m' ∧ _size m' = _size m ∧ bits_of m' = meaning (bits_of m) u.
Proof.
  intros Hm Hu. pose proof (wf_sane _ Hm) as Hs. destruct (sane_size _ Hs) as [_ Hc].
  destruct u as [k v|lo hi v|lo hi v| | |o|o|o|o]; cbn [exec meaning update_ok] in *.
  - destruct (at_put_spec m k v Hs) as (m' & -> & U); [lia|]. exists m'. split; [done|].
    eapply updates_set; [done|done|..]; try (intros i Hi; destruct (decide (i = k)) as [->|];
      [lia|destruct v; assert (i ∈ bits_of m) as ?%bits_below by set_solver; (done || lia)]).
    intros i Hi. unfold put_at. rewrite bit_of by done. destruct v; apply eq_bool_prop_intro; rewrite bool_decide_spec; cases_Z; subst; rewrite ?bool_decide_spec; set_solver.
  - destruct Hu as [Hu1 Hu2]. destruct (at_put_range_spec m lo hi v Hs Hu1) as (m' & -> & U); [lia|]. exists m'. split; [done|]. by apply exec_range_spec.
  - destruct Hu as (Hu1 & Hu2 & Hu3). destruct (at_put_large_range_spec m lo hi v Hs Hu1) as (m' & -> & U); [lia|done|]. exists m'. split; [done|]. by apply exec_range_spec.
  - destruct (clear_spec m Hs) as (m' & -> & _ & U). exists m'. split; [done|]. by apply clear_bits.
  - destruct (clear_spec m Hs) as (m' & _ & -> & U). exists m'. split; [done|]. by apply clear_bits.
  - apply (exec_binary_spec _ orb); try done; try apply Hu; [apply lor_range|intros; apply Z.lor_spec|].
    intros i. rewrite elem_of_union, orb_true_iff, !bool_decide_eq_true. done.
  - apply (exec_binary_spec _ (λ a b, a && negb b)); try done; try apply Hu.
    + intros v w Hv Hw. apply land_range; [done|by apply not_word_range].
    + intros v w j Hv Hw Hj. by rewrite Z.land_spec, not_word_bit.
    + intros i. rewrite elem_of_difference, andb_true_iff, negb_true_iff, bool_decide_eq_true, bool_decide_eq_false. done.
  - apply (exec_binary_spec _ andb); try done; try apply Hu.
    + intros v w Hv Hw. apply land_range; [done|apply Hw].
    + intros. apply Z.land_spec.
    + intros i. rewrite elem_of_intersection, andb_true_iff, !bool_decide_eq_true. done.
  - apply (exec_binary_spec _ (λ _ b, b)); try done; try apply Hu. intros i. by rewrite bool_decide_eq_true.
Qed.

Fixpoint exec_all (m : BitMap) (us : list update) : option BitMap :=
  match us with [] => Some m | u :: us => m ← exec m u; exec_all m us end.

(** C25: A bit map refines a finite set of indices. Any sequence of updates
    within the bounds of the map - of single bits, of ranges, with and
    without the special treatment of large ranges, clearing, and union,
    difference, intersection and assignment of maps of the same size -
    succeeds, sets no bit beyond the size, and leaves the bits of exactly
    the set that the corresponding operations on sets compute. *)
Theorem bitmap_refines_set m us :
  well_formed m → Forall (update_ok (_size m)) us →
  ∃ m', exec_all m us = Some m' ∧ well_formed m' ∧ _size m' = _size m ∧ bits_of m' = foldl meaning (bits_of m) us.
Proof.
  revert m. induction us as [|u us IH]; intros m Hm Hus; [by exists m|]. apply Forall_cons in Hus as [Hu Hus]. cbn [exec_all foldl].
  destruct (exec_spec m u Hm Hu) as (m1 & -> & Hm1 & Hz & <-). cbn [mbind option_bind]. rewrite <- Hz in *.
  apply IH; [done|by rewrite Hz in *].
Qed.

Lemma at_spec m i : well_formed m → 0 <= i < _size m → at_ m i = Some (bool_decide (i ∈ bits_of m)).
Proof.
  intros Hm Hi. pose proof (wf_sane _ Hm) as Hs. destruct (sane_size _ Hs) as [_ Hc]. unfold at_. rewrite word_index_div.
  destruct (map_word_spec m (i / 64) Hs (word_of_bit m i ltac:(lia))) as (w & -> & Hw & Hb). cbn [mbind option_bind]. f_equal.
  rewrite <- bit_of by lia. pose proof (Z.mod_pos_bound i 64 ltac:(lia)) as Hp.
  assert (Z.testbit w (i mod 64) = bit m i) as <- by (rewrite Hb by done; f_equal; Z.to_euclidean_division_equations; lia).
  destruct (Z.testbit w (i mod 64)) eqn:E.
  - apply negb_true_iff, Z.eqb_neq. intros E0. assert (Z.testbit (w &&& bit_mask i) (i mod 64) = true) as E1.
    { by rewrite Z.land_spec, E, bit_mask_bit, Z.eqb_refl by lia. } by rewrite E0, Z.bits_0 in E1.
  - apply negb_false_iff, Z.eqb_eq. apply Z.bits_inj'. intros j Hj. rewrite Z.land_spec, bit_mask_bit, Z.bits_0 by done.
    destruct (Z.eqb_spec j (i mod 64)) as [->|]; [by rewrite E|apply andb_false_r].
Qed.

Lemma search_bits m v n l : 0 <= l → search (has m v) n l = search (λ i, Bool.eqb (bool_decide (i ∈ bits_of m)) v) n l.
Proof.
  revert l. induction n as [|n IH]; intros l Hl; [done|]. cbn [search]. unfold has. rewrite bit_of by done.
  destruct (Bool.eqb _ _); [done|]. apply IH. lia.
Qed.

Lemma indices_bits m n l : 0 <= l → indices (bit m) n l = filter (λ i, i ∈ bits_of m) (seqZ l (Z.of_nat n)).
Proof.
  revert l. induction n as [|n IH]; intros l Hl; [done|]. cbn [indices]. rewrite seqZ_cons by lia.
  replace (Z.pred (Z.of_nat (S n))) with (Z.of_nat n) by lia. rewrite IH by lia. rewrite filter_cons, bit_of by done.
  replace (Z.succ l) with (l + 1) by lia. case_bool_decide; case_decide; done.
Qed.

Lemma binary_query (p : Z → Z → bool) (pb : bool → bool → bool) m other :
  (∀ v w, in_u64 v → in_u64 w → p v w = true ↔ ∀ j, 0 <= j < 64 → pb (Z.testbit v j) (Z.testbit w j) = true) →
  pb false false = true → well_formed m → well_formed other → _size other = _size m →
  ∃ r, every_word p (words_of m) m other 0 = Some r ∧
    (r = true ↔ ∀ i, pb (bool_decide (i ∈ bits_of m)) (bool_decide (i ∈ bits_of other)) = true).
Proof.
  intros Hp H00 Hm Ho Hsz. pose proof (wf_sane _ Hm) as Sm. pose proof (wf_sane _ Ho) as So.
  destruct (size_in_words_range _ Sm) as [Hwm Hzm]. destruct (size_in_words_range _ So) as [Hwo Hzo].
  assert (size_in_words other = size_in_words m) as Ew by (rewrite !size_in_words_spec by done; by rewrite Hsz).
  destruct (every_word_spec p pb (words_of m) m other 0 Hp Sm So) as (r & E & Hr); [lia|unfold words_of; lia..|].
  exists r. split; [done|]. rewrite Hr. split; intros Hall i.
  - destruct (decide (0 <= i < 64 * size_in_words m)) as [Hi|Hi]; [rewrite <- !bit_of by lia; apply Hall; unfold words_of; lia|].
    rewrite !bool_decide_eq_false_2; [done|intros ?%bits_below; [lia|done]..].
  - intros Hi. rewrite !bit_of by lia. apply Hall.
Qed.

(** The tests of one map and of two maps of the same size. *)
Lemma map_tests m other :
  well_formed m → well_formed other → _size other = _size m →
  is_empty m = Some (bool_decide (bits_of m = ∅)) ∧ is_full m = Some (bool_decide (bits_of m = range 0 (_size m))) ∧
  contains m other = Some (bool_decide (bits_of other ⊆ bits_of m)) ∧
  intersects m other = Some (bool_decide (bits_of m ∩ bits_of other ≠ ∅)) ∧
  is_same m other = Some (bool_decide (bits_of m = bits_of other)).
Proof.
  intros Hm Ho Hsz. pose proof (wf_sane _ Hm) as Hs. destruct (size_in_words_range _ Hs) as [Hw Hz]. pose proof (sane_size _ Hs).
  assert (Htest : ∀ v, ∃ r, test_words (S (words_of m)) m 0 v = Some r ∧ (r = true ↔ ∀ i, 0 <= i < _size m → bit m i = v)).
  { intros v. apply test_words_spec; [done|lia|lia|unfold words_of; lia]. }
  assert (Hsome : ∀ (r : bool) P `{!Decision P}, (r = true ↔ P) → Some r = Some (bool_decide P)).
  { intros r P ? E. f_equal. apply eq_bool_prop_intro. rewrite bool_decide_spec, <- E. apply Is_true_true. }
  split_and!.
  - destruct (Htest false) as (r & E & Hr). unfold is_empty. cbn [test_words] in E. replace (_size m - 64 * 0) with (_size m) in E by lia.
    rewrite E. apply Hsome. rewrite Hr. split.
    + intros Hall. apply set_eq. intros i. split; [|set_solver]. intros Hi. pose proof (bits_below _ _ Hm Hi).
      apply elem_of_bits in Hi as [_ Hi]. by rewrite Hall in Hi.
    + intros E0 i Hi. rewrite bit_of, E0 by lia. apply bool_decide_eq_false. set_solver.
  - destruct (Htest true) as (r & E & Hr). unfold is_full. cbn [test_words] in E. replace (_size m - 64 * 0) with (_size m) in E by lia.
    rewrite E. apply Hsome. rewrite Hr. split.
    + intros Hall. apply set_eq. intros i. rewrite elem_of_range. split; [by apply bits_below|]. intros Hi. apply elem_of_bits. split; [lia|auto].
    + intros E0 i Hi. rewrite bit_of, E0 by lia. apply bool_decide_eq_true, elem_of_range. lia.
  - unfold contains. destruct (binary_query (λ w o, (w ||| o) =? w) (λ a b, implb b a) m other) as (r & -> & Hr); try done.
    + intros v w Hv Hw'. rewrite eqb_bits by auto with bits. split; intros Hall j Hj; specialize (Hall j Hj); rewrite ?Z.lor_spec in *;
        destruct (Z.testbit v j), (Z.testbit w j); done.
    + apply Hsome. rewrite Hr. split; [intros Hall i Hi; specialize (Hall i)|intros Hsub i]; repeat case_bool_decide; set_solver.
  - unfold intersects. destruct (binary_query (λ w o, (w &&& o) =? 0) (λ a b, negb (a && b)) m other) as (r & -> & Hr); try done.
    + intros v w Hv Hw'. rewrite eqb_bits by (done || (apply land_range; [done|apply Hw'])). split; intros Hall j Hj; specialize (Hall j Hj);
        rewrite ?Z.land_spec, ?Z.bits_0 in *; destruct (Z.testbit v j), (Z.testbit w j); done.
    + cbn [mbind option_bind]. apply Hsome. rewrite negb_true_iff, <- not_true_iff_false, Hr. split; intros Hn E; apply Hn.
      * intros i. assert (i ∉ bits_of m ∩ bits_of other) by set_solver. repeat case_bool_decide; set_solver.
      * apply set_eq. intros i. split; [|set_solver]. intros [H1 H2]%elem_of_intersection. specialize (E i).
        by rewrite !bool_decide_eq_true_2 in E.
  - unfold is_same. destruct (binary_query (λ w o, w =? o) Bool.eqb m other) as (r & -> & Hr); try done.
    + intros v w Hv Hw'. rewrite eqb_bits by done. split; intros Hall j Hj; specialize (Hall j Hj); by destruct (Z.testbit v j), (Z.testbit w j).
    + apply Hsome. rewrite Hr. split; [intros Hall; apply set_eq; intros i; specialize (Hall i)|intros -> i]; repeat case_bool_decide; set_solver.
Qed.

(** C34: The queries of a bit map give what their definitions on its set give:
    membership, the next bit that is set or clear in a range, the number of
    bits, the comparisons, and an iteration applies a closure that does not
    change the map to the bits of a range in increasing order until it asks
    to stop. In particular the word-wise searches and the counting with a
    table agree with looking at one bit after the other. *)
Theorem bitmap_queries m :
  well_formed m →
  (∀ i, 0 <= i < _size m → at_ m i = Some (bool_decide (i ∈ bits_of m))) ∧
  (∀ l r, 0 <= l <= r → r <= _size m →
     get_next_one_offset m l r = Some (search (λ i, bool_decide (i ∈ bits_of m)) (Z.to_nat (r - l)) l) ∧
     get_next_zero_offset m l r = Some (search (λ i, bool_decide (i ∉ bits_of m)) (Z.to_nat (r - l)) l)) ∧
  count_one_bits m = Some (Z.of_nat (size (bits_of m))) ∧
  (∀ other, well_formed other → _size other = _size m →
     is_empty m = Some (bool_decide (bits_of m = ∅)) ∧ is_full m = Some (bool_decide (bits_of m = range 0 (_size m))) ∧
     contains m other = Some (bool_decide (bits_of other ⊆ bits_of m)) ∧
     intersects m other = Some (bool_decide (bits_of m ∩ bits_of other ≠ ∅)) ∧
     is_same m other = Some (bool_decide (bits_of m = bits_of other))) ∧
  (∀ St (bm : St → BitMap) do_bit l r s,
     bm s = m → (∀ i s b s', do_bit i s = Some (b, s') → bm s' = bm s) → 0 <= l <= r → r <= _size m →
     iterate bm do_bit l r s = visit do_bit (filter (λ i, i ∈ bits_of m) (seqZ l (r - l))) s).
Proof.
  intros Hm. pose proof (wf_sane _ Hm) as Hs. destruct (sane_size _ Hs) as [_ Hc]. split_and!.
  - intros i Hi. by apply at_spec.
  - intros l r Hl Hr. destruct (get_next_offset_spec true m l r Hs Hl) as (k & E & Hk); [lia|].
    destruct (get_next_offset_spec false m l r Hs Hl) as (k' & E' & Hk'); [lia|]. cbn [get_next_offset] in E, E'. rewrite E, E'.
    apply is_next_search in Hk as ->; [|lia]. apply is_next_search in Hk' as ->; [|lia]. rewrite !search_bits by lia.
    assert (Hext : ∀ p q n l, (∀ i : Z, p i = q i) → search p n l = search q n l).
    { intros p q n. induction n as [|n IH]; intros l0 Epq; cbn [search]; [done|]. by rewrite Epq, IH. }
    split; f_equal; apply Hext; intros i; repeat case_bool_decide; done.
  - unfold count_one_bits. destruct (size_in_words_range _ Hs) as [Hw Hz]. rewrite count_words_spec by (done || unfold words_of; lia).
    f_equal. rewrite Z.add_0_l, <- (count_size _ (64 * words_of m) 0) by (intros i Hi; pose proof (bits_below _ _ Hm Hi); unfold words_of; lia).
    apply count_ext. intros j Hj. apply bit_of. lia.
  - intros other Ho Hsz. by apply map_tests.
  - intros St bm do_bit l r s <- Hkeep Hl Hr. rewrite (iterate_spec bm do_bit Hkeep) by done. rewrite indices_bits by lia. do 3 f_equal. lia.
Qed.

(** ** Size changes *)

Lemma bits_prefix m m' k :
  0 <= k → sane m → sane m' → (∀ i, 0 <= i < 64 * k → bit m' i = bit m i) → (∀ i, 64 * k <= i → bit m i = false ∧ bit m' i = false) →
  bits_of m' = bits_of m.
Proof.
  intros Hk Hs Hs' Hlow Hhigh. apply set_eq. intros i. rewrite !elem_of_bits. destruct (Z.ltb_spec i (64 * k)).
  - split; intros [H0 Hb]; (split; [done|]); [rewrite <- Hlow|rewrite Hlow]; try done; lia.
  - destruct (Hhigh i) as [-> ->]; [lia|done].
Qed.

(** Growing keeps the bits. *)
Lemma resize_grows m n unspecified :
  well_formed m → _size m <= n → n + 64 < 2 ^ 63 → Forall in_u64 unspecified → (n + 63) / 64 <= Z.of_nat (length unspecified) →
  ∃ m', resize m n true unspecified = Some m' ∧ well_formed m' ∧ _size m' = n ∧ bits_of m' = bits_of m.
Proof.
  intros Hm Hn Hb Hu Hlu. pose proof (wf_sane _ Hm) as Hs. destruct (sane_size _ Hs) as [H0 Hc].
  destruct (size_in_words_range _ Hs) as [Hw Hz]. pose proof (size_in_words_spec _ Hs) as Hsw.
  unfold resize. cbn [negb andb]. set (old := size_in_words m) in *.
  assert (size_in_words (mkBitMap [] n) = (n + 63) / 64) as ->.
  { unfold size_in_words. cbn [_size]. rewrite word_index_div, u64_small by (unfold in_u64, BitsPerWord; lia). unfold BitsPerWord. f_equal. lia. }
  set (new := (n + 63) / 64) in *. assert (old <= new) as Hon by (unfold new; rewrite Hsw; apply Z.div_le_mono; lia).
  assert (MIN2 old new = old) as -> by (unfold MIN2; cases_Z; lia).
  set (words := take (Z.to_nat old) (_map m) ++ unspecified). set (m1 := mkBitMap (take (Z.to_nat new) words) n).
  assert (length words = (Z.to_nat old + length unspecified)%nat) as Hlw by (unfold words; rewrite length_app, length_take; lia).
  assert (Hlen : length (_map m1) = Z.to_nat new) by (unfold m1; cbn [_map]; rewrite length_take; lia).
  assert (Hs1 : sane m1).
  { split; unfold capacity; rewrite ?Hlen; cbn [m1 _map _size]; [|unfold new; Z.to_euclidean_division_equations; lia..].
    apply Forall_take, Forall_app. split; [apply Forall_take, (sane_words _ Hs)|done]. }
  assert (Hlow : ∀ i, 0 <= i < 64 * old → bit m1 i = bit m i).
  { intros i Hi. unfold bit, m1, words. cbn [_map]. rewrite lookup_take_lt, lookup_app_l, lookup_take_lt; [done|..];
      rewrite ?length_take; Z.to_euclidean_division_equations; lia. }
  assert (Htail : ∀ i, 64 * old <= i → bit m i = false) by (intros i Hi; apply (wf_tail _ Hm); lia).
  destruct (Z.gtb_spec new old) as [Hgt|Hle].
  - destruct (range_of_words_spec m1 old new false Hs1) as (m2 & E2 & U); [lia|rewrite Hlen; lia|]. exists m2. split; [exact E2|].
    pose proof (up_bits _ _ _ U) as Ub. assert (∀ i, 64 * old <= i → bit m2 i = false) as Htail2.
    { intros i Hi. rewrite Ub by lia. unfold put_between. cases_Z; try done; try lia. apply bit_beyond. unfold capacity. rewrite Hlen. lia. }
    split; [|split; [exact (up_size _ _ _ U)|]].
    + split; [apply U|]. intros i Hi. rewrite (up_size _ _ _ U) in Hi. cbn [m1 _size] in Hi.
      destruct (Z.ltb_spec i (64 * old)); [|by apply Htail2]. rewrite Ub by lia. unfold put_between. cases_Z; try lia.
      rewrite Hlow by lia. apply (wf_tail _ Hm). lia.
    + apply (bits_prefix m m2 old); [lia|done|apply U| |].
      * intros i Hi. rewrite Ub by lia. unfold put_between. cases_Z; try lia. by apply Hlow.
      * intros i Hi. split; [by apply Htail|by apply Htail2].
  - assert (new = old) as En by lia. assert (∀ i, 64 * old <= i → bit m1 i = false) as Htail1.
    { intros i Hi. apply bit_beyond. unfold capacity. rewrite Hlen. lia. }
    exists m1. split; [done|]. split; [|split; [done|]].
    + split; [done|]. intros i Hi. cbn [m1 _size] in Hi. destruct (Z.ltb_spec i (64 * old)); [|by apply Htail1].
      rewrite Hlow by lia. apply (wf_tail _ Hm). lia.
    + apply (bits_prefix m m1 old); [lia|done|done|done|]. intros i Hi. split; [by apply Htail|by apply Htail1].
Qed.

(** Shrinking does not clear the bits beyond the new size: growing again
    brings them back. *)
Lemma resize_keeps_old_bits :
  (m ← set_bit (mkBitMap [0] 10) 7; m ← resize m 5 true [0]; resize m 10 true [0]) = Some (mkBitMap [2 ^ 7] 10).
Proof. vm_compute. reflexivity. Qed.

(** A map without bits cannot grow to hold bit 0: twice its size is 0. *)
Lemma empty_map_cannot_grow v unspecified : at_put_grow (mkBitMap [] 0) 0 v unspecified = None.
Proof. unfold at_put_grow, resize. cbn. rewrite take_0. by destruct v. Qed.

(** ** Concurrent updates of bits *)

Definition par_bit (p : par_pc) : Z := match p with Call b _ | Loaded b _ _ | Returned b _ _ => b end.
Definition par_value (p : par_pc) : bool := match p with Call _ v | Loaded _ v _ | Returned _ v _ => v end.

Definition par_wins (i : Z) (p : par_pc) : Z :=
  match p with Returned b v true => if b =? i then (if v then 1 else -1) else 0 | _ => 0 end.

Definition par_transition (s s' : BitMap * list par_pc) : Prop :=
  ∃ k p m' p', s.2 !! k = Some p ∧ par_step s.1 p = Some (m', p') ∧ s' = (m', <[k := p']> s.2).

Lemma par_new_val_range b v w : in_u64 w → in_u64 (par_new_val b v w).
Proof.
  intros Hw. unfold par_new_val. pose proof (bit_mask_range b). destruct v; [auto with bits|].
  apply land_range; [done|by apply not_word_range].
Qed.

Lemma par_new_val_bit b v w j : in_u64 w → 0 <= j < 64 → Z.testbit (par_new_val b v w) j = if j =? b mod 64 then v else Z.testbit w j.
Proof.
  intros Hw Hj. unfold par_new_val. pose proof (bit_mask_range b). destruct v.
  - rewrite Z.lor_spec, bit_mask_bit by lia. destruct (_ =? _); [apply orb_true_r|apply orb_false_r].
  - rewrite Z.land_spec, not_word_bit, bit_mask_bit by (done || lia). destruct (_ =? _); [apply andb_false_r|apply andb_true_r].
Qed.

(** The new value is the old one exactly when the bit has its value. *)
Lemma par_new_val_same b v w : in_u64 w → (par_new_val b v w =? w) = Bool.eqb (Z.testbit w (b mod 64)) v.
Proof.
  intros Hw. pose proof (Z.mod_pos_bound b 64 ltac:(lia)). apply eq_true_iff_eq.
  rewrite (eqb_bits _ _ (par_new_val_range b v w Hw) Hw), eqb_true_iff. split.
  - intros Hall. specialize (Hall (b mod 64) ltac:(lia)). rewrite par_new_val_bit, Z.eqb_refl in Hall by (done || lia). done.
  - intros E j Hj. rewrite par_new_val_bit by done. destruct (Z.eqb_spec j (b mod 64)) as [->|]; done.
Qed.

Section parallel.
Context (m0 : BitMap) (calls : list (Z * bool)).
Hypothesis Hm0 : well_formed m0.
Hypothesis Hcalls : Forall (λ c, 0 <= c.1 < _size m0) calls.

Definition par_initial : BitMap * list par_pc := (m0, (λ c, Call c.1 c.2) <$> calls).

Record par_inv (s : BitMap * list par_pc) : Prop := mkParInv {
  pi_wf : well_formed s.1;
  pi_size : _size s.1 = _size m0;
  pi_calls : (λ p, (par_bit p, par_value p)) <$> s.2 = calls;
  pi_old : ∀ p, p ∈ s.2 → match p with Loaded _ _ old => in_u64 old | _ => True end;
  pi_count : ∀ i, 0 <= i → Z.b2z (bit s.1 i) = Z.b2z (bit m0 i) + sum_by (par_wins i) s.2;
  pi_set : ∀ i, 0 <= i → (i, false) ∉ calls →
    (bit m0 i = true → bit s.1 i = true) ∧
    ∀ p, p ∈ s.2 → par_bit p = i → par_value p = true →
      match p with Call _ _ => True | Loaded _ _ old => Z.testbit old (i mod 64) = true → bit s.1 i = true | Returned _ _ _ => bit s.1 i = true end
}.

Lemma par_inv_initial : par_inv par_initial.
Proof.
  split; cbn [par_initial fst snd]; try done.
  - rewrite <- list_fmap_compose. rewrite <- (list_fmap_id calls) at 2. apply list_fmap_ext. intros ? [? ?] _. done.
  - intros p (c & -> & _)%list_elem_of_fmap. done.
  - intros i _. replace (sum_by _ _) with 0; [lia|]. clear. induction calls as [|c l IH]; cbn; lia.
  - intros i _ _. split; [done|]. intros p (c & -> & _)%list_elem_of_fmap. done.
Qed.

(** What a step of a thread does. *)
Lemma par_step_spec m p :
  well_formed m → 0 <= par_bit p < _size m → match p with Loaded _ _ old => in_u64 old | _ => True end →
  match p with
  | Call b v => ∃ w, par_step m p = Some (m, Loaded b v w) ∧ in_u64 w ∧ Z.testbit w (b mod 64) = bit m b
  | Loaded b v old =>
      par_step m p = Some (m, Returned b v false) ∧ Z.testbit old (b mod 64) = v ∨
      (∃ m', par_step m p = Some (m', Returned b v true) ∧ updates m (put_at b v) m' ∧ bit m b = negb v) ∨
      (∃ w, par_step m p = Some (m, Loaded b v w) ∧ in_u64 w ∧ Z.testbit w (b mod 64) = bit m b)
  | Returned _ _ _ => par_step m p = None
  end.
Proof.
  intros Hm Hb Hold. pose proof (wf_sane _ Hm) as Hs. destruct (sane_size _ Hs) as [_ Hc].
  destruct p as [b v|b v old|b v c]; cbn [par_bit] in Hb; [| |done]; cbn [par_step]; rewrite word_index_div;
    destruct (map_word_spec m (b / 64) Hs (word_of_bit m b ltac:(lia))) as (w & -> & Hw & Hwb); cbn [mbind option_bind];
    pose proof (Z.mod_pos_bound b 64 ltac:(lia)) as Hp;
    (assert (Z.testbit w (b mod 64) = bit m b) as Ewb by (rewrite Hwb by done; f_equal; Z.to_euclidean_division_equations; lia)).
  - by exists w.
  - cbv zeta. rewrite par_new_val_same by done. destruct (Bool.eqb _ v) eqn:Eq.
    { left. split; [done|]. by apply eqb_prop. }
    right. destruct (Z.eqb_spec w old) as [->|Hne]; [left|right; by exists w].
    assert (bit m b = negb v) as Hneg by (rewrite <- Ewb; by destruct (Z.testbit old _), v).
    destruct (set_word_spec m (b / 64) (par_new_val b v old) (put_at b v)) as (m' & -> & U);
      [done|apply word_of_bit; lia|by apply par_new_val_range| | |by exists m'].
    + intros i Hi Hd. pose proof (Z.mod_pos_bound i 64 ltac:(lia)). rewrite par_new_val_bit by done. unfold put_at.
      rewrite Hwb by done. replace (64 * (b / 64) + i mod 64) with i by (Z.to_euclidean_division_equations; lia).
      cases_Z; try done; exfalso; Z.to_euclidean_division_equations; lia.
    + intros i x Hi Hd. unfold put_at. cases_Z; [by subst|done].
Qed.

Lemma put_at_wf m b v m' : well_formed m → 0 <= b < _size m → updates m (put_at b v) m' → well_formed m'.
Proof.
  intros Hm Hb U. split; [apply U|]. intros i Hi. rewrite (up_size _ _ _ U) in Hi. rewrite (up_bits _ _ _ U) by lia.
  unfold put_at. cases_Z; [lia|]. by apply (wf_tail _ Hm).
Qed.

Lemma elem_of_insert_cases {A} (l : list A) k x y : y ∈ <[k := x]> l → y = x ∨ y ∈ l.
Proof.
  intros (j & Hj)%list_elem_of_lookup. apply list_lookup_insert_Some in Hj as [(_ & <- & _)|[_ Hj]]; [by left|].
  right. by apply list_elem_of_lookup_2 in Hj.
Qed.

(** A thread's step that leaves the map alone. *)
Lemma par_inv_local m l k p p' :
  par_inv (m, l) → l !! k = Some p → par_bit p' = par_bit p → par_value p' = par_value p →
  (∀ i, par_wins i p' = par_wins i p) → match p' with Loaded _ _ old => in_u64 old | _ => True end →
  (par_value p' = true → (par_bit p', false) ∉ calls →
     match p' with Call _ _ => True | Loaded _ _ old => Z.testbit old (par_bit p' mod 64) = true → bit m (par_bit p') = true | Returned _ _ _ => bit m (par_bit p') = true end) →
  par_inv (m, <[k := p']> l).
Proof.
  intros [Hwf Hsz Hc Ho Hn Hset] Hk Hb Hv Hw Hold Hp'. cbn [fst snd] in *. split; cbn [fst snd]; [done|done|..].
  - rewrite list_fmap_insert, Hb, Hv. rewrite list_insert_id; [done|]. by rewrite list_lookup_fmap, Hk.
  - intros q [->|Hq]%elem_of_insert_cases; [done|by apply Ho].
  - intros i Hi. rewrite Hn by done. rewrite (sum_by_insert _ _ _ _ _ Hk), Hw. lia.
  - intros i Hi Hno. destruct (Hset i Hi Hno) as [Hset1 Hset2]. split; [done|].
    intros q [->|Hq]%elem_of_insert_cases Hqb Hqv; [|by apply Hset2]. subst i. by apply Hp'.
Qed.

Lemma par_inv_step s s' : par_inv s → par_transition s s' → par_inv s'.
Proof.
  destruct s as [m l]. intros Hinv (k & p & m' & p' & Hk & Hstep & ->). cbn [fst snd] in *.
  pose proof Hinv as [Hwf Hsz Hc Ho Hn Hset]. cbn [fst snd] in *.
  assert (Hpl : p ∈ l) by (by apply list_elem_of_lookup_2 in Hk).
  assert (Hcall : (par_bit p, par_value p) ∈ calls) by (rewrite <- Hc; by apply (list_elem_of_fmap_2 (λ p, (par_bit p, par_value p)))).
  assert (Hb : 0 <= par_bit p < _size m) by (rewrite Hsz; by apply (proj1 (Forall_forall _ _) Hcalls _ Hcall)).
  pose proof (par_step_spec m p Hwf Hb (Ho p Hpl)) as Hspec. destruct p as [b v|b v old|b v c]; cbn [par_bit par_value] in *.
  - destruct Hspec as (w & E & Hw & Hwb). rewrite E in Hstep. injection Hstep as <- <-.
    apply (par_inv_local m l k (Call b v)); try done. cbn. intros. congruence.
  - destruct Hspec as [[E Hold]|[(m1 & E & U & Hneg)|(w & E & Hw & Hwb)]]; rewrite E in Hstep; injection Hstep as <- <-.
    + apply (par_inv_local m l k (Loaded b v old)); try done. cbn [par_value par_bit]. intros -> Hno.
      destruct (Hset b ltac:(lia) Hno) as [_ Hset2]. exact (Hset2 (Loaded b true old) Hpl eq_refl eq_refl Hold).
    + pose proof (up_bits _ _ _ U) as Ub. split; cbn [fst snd].
      * by eapply put_at_wf.
      * by rewrite (up_size _ _ _ U).
      * rewrite list_fmap_insert. cbn [par_bit par_value]. rewrite list_insert_id; [done|]. by rewrite list_lookup_fmap, Hk.
      * intros q [->|Hq]%elem_of_insert_cases; [done|by apply Ho].
      * intros i Hi. rewrite Ub by done. rewrite (sum_by_insert _ _ _ _ _ Hk). specialize (Hn i Hi). cbn [par_wins]. unfold put_at.
        rewrite (Z.eqb_sym b i). destruct (Z.eqb_spec i b) as [->|]; [rewrite Hneg in Hn; destruct v; cbn in *; lia|lia].
      * intros i Hi Hno. assert (Hkeep : bit m i = true → bit m1 i = true).
        { intros Ht. rewrite Ub by done. unfold put_at. destruct (Z.eqb_spec i b) as [->|]; [|done]. by destruct v. }
        destruct (Hset i Hi Hno) as [Hset1 Hset2]. split; [auto|].
        intros q [->|Hq]%elem_of_insert_cases Hqb Hqv.
        -- cbn in *. subst. rewrite Ub by done. unfold put_at. by rewrite Z.eqb_refl.
        -- specialize (Hset2 q Hq Hqb Hqv). destruct q; auto.
    + apply (par_inv_local m l k (Loaded b v old)); try done. cbn. intros. congruence.
  - rewrite Hspec in Hstep. done.
Qed.

(** C26: Concurrent updates of bits lose nothing. For any number of threads
    that set and clear bits of one map with compare-and-exchange, in every
    interleaving a thread is told that it changed its bit exactly when it
    did: the value of a bit is its initial value plus the number of threads
    that set it minus the number of threads that cleared it. A bit that no
    thread clears is set once any thread that sets it has returned, so that
    exactly one thread wins a bit that was clear, and a thread that has not
    returned can always take a step. *)
Theorem par_bits_counted m ps :
  rtc par_transition par_initial (m, ps) →
  well_formed m ∧
  (∀ i, 0 <= i → Z.b2z (bit m i) = Z.b2z (bit m0 i) + sum_by (par_wins i) ps) ∧
  (∀ i b c, (i, false) ∉ calls → Returned i b c ∈ ps → bit m i = true) ∧
  (∀ k p, ps !! k = Some p → (∀ b v c, p ≠ Returned b v c) → ∃ s', par_transition (m, ps) s').
Proof.
  intros Hrun. assert (par_inv (m, ps)) as Hinv.
  { assert (∀ a b, rtc par_transition a b → par_inv a → par_inv b) as Hrtc by (induction 1; eauto using par_inv_step).
    exact (Hrtc _ _ Hrun par_inv_initial). }
  pose proof Hinv as [Hwf Hsz Hc Ho Hn Hset]. cbn [fst snd] in *.
  assert (Hcall : ∀ p, p ∈ ps → (par_bit p, par_value p) ∈ calls ∧ 0 <= par_bit p < _size m).
  { intros p Hp. assert ((par_bit p, par_value p) ∈ calls) as H by (rewrite <- Hc; by apply (list_elem_of_fmap_2 (λ p, (par_bit p, par_value p)))).
    split; [done|]. rewrite Hsz. by apply (proj1 (Forall_forall _ _) Hcalls _ H). }
  split_and!; [done|done| |].
  - intros i b c Hno Hp. destruct (Hcall _ Hp) as [Hin Hrange]. cbn in *. destruct b; [|done].
    exact (proj2 (Hset i ltac:(lia) Hno) _ Hp eq_refl eq_refl).
  - intros k p Hk Hnot. assert (Hp : p ∈ ps) by (by apply list_elem_of_lookup_2 in Hk).
    assert (∃ m' p', par_step m p = Some (m', p')) as (m' & p' & E).
    { pose proof (par_step_spec m p Hwf (proj2 (Hcall _ Hp)) (Ho p Hp)) as Hspec. destruct p as [b v|b v old|b v c]; [naive_solver..|].
      by destruct (Hnot b v c). }
    eexists. by exists k, p, m', p'.
Qed.

End parallel.

(** The sequential call is the atomic effect of the loop. *)
Lemma par_set_bit_spec m i :
  well_formed m → 0 <= i < _size m →
  ∃ m', par_set_bit m i = Some (negb (bool_decide (i ∈ bits_of m)), m') ∧ well_formed m' ∧ _size m' = _size m ∧
    length (_map m') = length (_map m) ∧ bits_of m' = {[i]} ∪ bits_of m.
Proof.
  intros Hm Hi. pose proof (wf_sane _ Hm) as Hs. destruct (sane_size _ Hs) as [_ Hc].
  unfold par_set_bit. rewrite word_index_div.
  destruct (map_word_spec m (i / 64) Hs (word_of_bit m i ltac:(lia))) as (w & E & Hw & Hwb). rewrite E. cbn [mbind option_bind].
  rewrite par_new_val_same by done. pose proof (Z.mod_pos_bound i 64 ltac:(lia)) as Hp.
  assert (Z.testbit w (i mod 64) = bool_decide (i ∈ bits_of m)) as ->.
  { rewrite Hwb, <- bit_of by (done || lia). f_equal. Z.to_euclidean_division_equations; lia. }
  destruct (decide (i ∈ bits_of m)) as [Hin|Hin].
  - rewrite bool_decide_eq_true_2 by done. cbn [negb Bool.eqb]. exists m. split_and!; try done. set_solver.
  - rewrite bool_decide_eq_false_2 by done. cbn [negb Bool.eqb].
    pose proof (exec_spec m (Put i true) Hm Hi) as (m' & E' & Hwf & Hz & Hb). cbn [exec at_put meaning] in *. unfold set_bit in E'.
    rewrite word_index_div, E in E'. cbn [mbind option_bind] in E'. unfold par_new_val. rewrite E'. cbn [mbind option_bind]. exists m'.
    split_and!; try done. unfold set_word in E'. destruct (_ <? _); [|done]. injection E' as <-. cbn. by rewrite length_insert.
Qed.

End BitMapFacts.

(** * Concrete maps *)

Module BitMapDemo.
Import BitMap BitMapFacts.

Definition demo_map : BitMap := mkBitMap [0x8000000000000001; 0x7] 70.

Lemma demo_map_wf : well_formed demo_map.
Proof.
  split; [split; [repeat constructor; done|unfold capacity; cbn; lia|done]|]. intros i Hi. cbn [demo_map _size] in Hi.
  destruct (Z.ltb_spec i 128) as [Hlt|Hge]; [|by apply bit_beyond].
  assert (i / 64 = 1) as E by (Z.to_euclidean_division_equations; lia). unfold bit. rewrite E. cbn [demo_map _map].
  change ([0x8000000000000001; 0x7] !! Z.to_nat 1) with (Some 7). apply (bits_of_range 7 3); [lia|]. Z.to_euclidean_division_equations; lia.
Qed.

Lemma bitmap_refines_set_witness :
  ∃ m', exec_all demo_map [PutRange 3 68 true; Put 5 false; Difference demo_map] = Some m' ∧
    bits_of m' = ((range 3 68 ∪ bits_of demo_map) ∖ {[5]}) ∖ bits_of demo_map.
Proof.
  destruct (bitmap_refines_set demo_map [PutRange 3 68 true; Put 5 false; Difference demo_map]) as (m' & E & _ & _ & Hb).
  - exact demo_map_wf.
  - repeat constructor; cbn; try lia; apply demo_map_wf.
  - exists m'. split; [exact E|exact Hb].
Defined.

Lemma bitmap_queries_witness : get_next_one_offset demo_map 1 70 = Some 63 ∧ count_one_bits demo_map = Some 5.
Proof.
  destruct (bitmap_queries demo_map demo_map_wf) as (_ & Hnext & Hcount & _). rewrite Hcount. split; [|vm_compute; reflexivity].
  destruct (Hnext 1 70 ltac:(lia) ltac:(cbn; lia)) as [-> _]. vm_compute. reflexivity.
Defined.

(** Two threads set the same bit; one of them changes it. *)
Lemma par_bits_counted_witness :
  ∃ m ps, rtc par_transition (par_initial demo_map [(2, true); (2, true)]) (m, ps) ∧
    Z.b2z (bit m 2) = Z.b2z (bit demo_map 2) + sum_by (par_wins 2) ps ∧ sum_by (par_wins 2) ps = 1.
Proof.
  assert (∃ m, rtc par_transition (par_initial demo_map [(2, true); (2, true)]) (m, [Returned 2 true false; Returned 2 true true])) as [m Hrun].
  { eexists. unfold par_initial. cbn.
    eapply rtc_l; [exists 0%nat; do 3 eexists; split_and!; [done|vm_compute; reflexivity|done]|].
    eapply rtc_l; [exists 1%nat; do 3 eexists; split_and!; [done|vm_compute; reflexivity|done]|].
    eapply rtc_l; [exists 1%nat; do 3 eexists; split_and!; [done|vm_compute; reflexivity|done]|].
    eapply rtc_l; [exists 0%nat; do 3 eexists; split_and!; [done|vm_compute; reflexivity|done]|].
    eapply rtc_l; [exists 0%nat; do 3 eexists; split_and!; [done|vm_compute; reflexivity|done]|]. apply rtc_refl. }
  exists m, [Returned 2 true false; Returned 2 true true]. split; [exact Hrun|].
  destruct (par_bits_counted demo_map [(2, true); (2, true)] demo_map_wf ltac:(repeat constructor; cbn; lia) _ _ Hrun) as (_ & Hn & _).
  split; [apply Hn; lia|reflexivity].
Defined.

End BitMapDemo.
