(* ===== verification/AltHashing.v ===== *)
(** Murmur3 hashing: [AltHashing] of [classfile/altHashing.cpp].

    [jint] values are signed 32-bit integers in [Z]; every arithmetic step is
    followed by the conversion the C++ performs.  The three overloads of
    [murmur3_32] (bytes, UTF-16 chars, ints) are separate functions in the
    source and separate definitions here.  The theorems relate them to each
    other and to a reference definition over unsigned 32-bit words. *)

From S2P Require Import Prelude.

Module AltHash.

Definition Integer_rotateLeft (i distance : Z) : Z :=
  i32 (u32 (i <<< distance) ||| (u32 i >>> (32 - distance))).

(** The scrambling of a 32-bit block, the mixing of a block into the state
    and the final avalanche: the same statements in all three overloads. *)
Definition mix_k1 (k1 : Z) : Z :=
  let k1 := i32 (k1 * 0xcc9e2d51) in
  let k1 := Integer_rotateLeft k1 15 in
  i32 (k1 * 0x1b873593).

Definition mix_h1 (h1 k1 : Z) : Z :=
  let h1 := i32 (h1 ^^^ mix_k1 k1) in
  let h1 := Integer_rotateLeft h1 13 in
  i32 (i32 (h1 * 5) + 0xe6546b64).

Definition fmix (h1 : Z) : Z :=
  let h1 := i32 (h1 ^^^ (u32 h1 >>> 16)) in
  let h1 := i32 (h1 * 0x85ebca6b) in
  let h1 := i32 (h1 ^^^ (u32 h1 >>> 13)) in
  let h1 := i32 (h1 * 0xc2b2ae35) in
  i32 (h1 ^^^ (u32 h1 >>> 16)).

(** ** Bytes *)

Definition block_of_bytes (d0 d1 d2 d3 : Z) : Z :=
  i32 ((d0 &&& 0xFF) ||| ((d1 &&& 0xFF) <<< 8) ||| ((d2 &&& 0xFF) <<< 16) ||| i32 (d3 <<< 24)).

Fixpoint bytes_body (h1 : Z) (data : list Z) {struct data} : Z * list Z :=
  match data with
  | d0 :: d1 :: d2 :: d3 :: rest => bytes_body (mix_h1 h1 (block_of_bytes d0 d1 d2 d3)) rest
  | _ => (h1, data)
  end.

Definition bytes_tail (h1 : Z) (rest : list Z) : Z :=
  match rest with
  | [d0] => h1 ^^^ mix_k1 (0 ^^^ (d0 &&& 0xff))
  | [d0; d1] => h1 ^^^ mix_k1 ((0 ^^^ ((d1 &&& 0xff) <<< 8)) ^^^ (d0 &&& 0xff))
  | [d0; d1; d2] =>
      h1 ^^^ mix_k1 (((0 ^^^ ((d2 &&& 0xff) <<< 16)) ^^^ ((d1 &&& 0xff) <<< 8)) ^^^ (d0 &&& 0xff))
  | _ => h1
  end.

Definition murmur3_32_bytes (seed : Z) (data : list Z) : Z :=
  let len := Z.of_nat (length data) in
  let '(h1, rest) := bytes_body seed data in
  let h1 := i32 (bytes_tail h1 rest) in
  fmix (i32 (h1 ^^^ len)).

(** ** UTF-16 chars *)

Fixpoint chars_body (h1 : Z) (data : list Z) {struct data} : Z * list Z :=
  match data with
  | d1 :: d2 :: rest =>
      chars_body (mix_h1 h1 (i32 ((d1 &&& 0xFFFF) ||| i32 (d2 <<< 16)))) rest
  | _ => (h1, data)
  end.

Definition chars_tail (h1 : Z) (rest : list Z) : Z :=
  match rest with
  | d :: _ => h1 ^^^ mix_k1 d
  | [] => h1
  end.

Definition murmur3_32_chars (seed : Z) (data : list Z) : Z :=
  let len := Z.of_nat (length data) in
  let '(h1, rest) := chars_body seed data in
  let h1 := i32 (chars_tail h1 rest) in
  fmix (i32 (h1 ^^^ (len * 2))).

(** ** Ints *)

Fixpoint ints_body (h1 : Z) (data : list Z) : Z :=
  match data with
  | k1 :: rest => ints_body (mix_h1 h1 k1) rest
  | [] => h1
  end.

Definition murmur3_32_ints (seed : Z) (data : list Z) : Z :=
  let len := Z.of_nat (length data) in
  fmix (i32 (ints_body seed data ^^^ (len * 4))).

Definition murmur3_32_ints0 (data : list Z) : Z := murmur3_32_ints 0 data.
Definition murmur3_32_bytes0 (data : list Z) : Z := murmur3_32_bytes 0 data.
Definition murmur3_32_chars0 (data : list Z) : Z := murmur3_32_chars 0 data.

(** ** The seed

    The mirror's hash, the clock readings and the random number come from
    the operating system and the heap: they are arguments. *)

Definition object_hash (hc random : Z) : Z := if negb (hc =? 0) then hc else random.

Definition compute_seed (string_hash system_hash random nanos now nanos' : Z) : Z :=
  murmur3_32_ints0
    [i32 string_hash; i32 system_hash; i32 random;
     i32 (u64 nanos >>> 32); i32 nanos; i32 (u64 now >>> 32); i32 now; i32 (nanos' >>> 2)].

(** ** The built-in self test *)

Definition MURMUR3_32_X86_CHECK_VALUE : Z := 0xB0F57EE3.

Definition testMurmur3_32_ByteArray : bool :=
  let vector := (λ i, i8 (Z.of_nat i)) <$> seq 0 256 in
  let hashes := flat_map (λ i : nat,
    let hash := murmur3_32_bytes (256 - Z.of_nat i) (take i vector) in
    [i8 hash; i8 (u32 hash >>> 8); i8 (u32 hash >>> 16); i8 (u32 hash >>> 24)]) (seq 0 256) in
  u32 (murmur3_32_bytes0 hashes) =? MURMUR3_32_X86_CHECK_VALUE.

Definition TWO_BYTE : list Z := i8 <$> [0x80; 0x81].
Definition FOUR_BYTE : list Z := i8 <$> [0x80; 0x81; 0x82; 0x83].
Definition SIX_BYTE : list Z := i8 <$> [0x80; 0x81; 0x82; 0x83; 0x84; 0x85].
Definition EIGHT_BYTE : list Z := i8 <$> [0x80; 0x81; 0x82; 0x83; 0x84; 0x85; 0x86; 0x87].
Definition ONE_CHAR : list Z := [0x8180].
Definition TWO_CHAR : list Z := [0x8180; 0x8382].
Definition THREE_CHAR : list Z := [0x8180; 0x8382; 0x8584].
Definition FOUR_CHAR : list Z := [0x8180; 0x8382; 0x8584; 0x8786].
Definition ONE_INT : list Z := [i32 0x83828180].
Definition TWO_INT : list Z := [i32 0x83828180; i32 0x87868584].

Definition testEquivalentHashes : bool :=
  (murmur3_32_bytes0 TWO_BYTE =? murmur3_32_chars0 ONE_CHAR) &&
  ((murmur3_32_bytes0 FOUR_BYTE =? murmur3_32_chars0 TWO_CHAR) &&
   (murmur3_32_bytes0 FOUR_BYTE =? murmur3_32_ints0 ONE_INT)) &&
  (murmur3_32_bytes0 SIX_BYTE =? murmur3_32_chars0 THREE_CHAR) &&
  ((murmur3_32_bytes0 EIGHT_BYTE =? murmur3_32_chars0 FOUR_CHAR) &&
   (murmur3_32_bytes0 EIGHT_BYTE =? murmur3_32_ints0 TWO_INT)).

Definition test_alt_hash : bool := testMurmur3_32_ByteArray && testEquivalentHashes.

End AltHash.

(** * Reference definition

    MurmurHash3_x86_32 over unsigned bytes: the blocks are the little-endian
    words at offsets 0, 4, 8, ...; the tail is the little-endian word of the
    remaining bytes (zero when there are none). *)

Module Murmur3.

Definition rotl32 (x r : Z) : Z := u32 ((x <<< r) ||| (x >>> (32 - r))).

Definition scramble (k : Z) : Z := u32 (rotl32 (u32 (k * 0xcc9e2d51)) 15 * 0x1b873593).

Definition absorb (h k : Z) : Z := u32 (rotl32 (h ^^^ scramble k) 13 * 5 + 0xe6546b64).

Definition avalanche (h : Z) : Z :=
  let h := h ^^^ (h >>> 16) in
  let h := u32 (h * 0x85ebca6b) in
  let h := h ^^^ (h >>> 13) in
  let h := u32 (h * 0xc2b2ae35) in
  h ^^^ (h >>> 16).

Definition le_word (bytes : list Z) : Z := foldr (λ b w, b + 256 * w) 0 bytes.

Definition hash32 (seed : Z) (bytes : list Z) : Z :=
  let n := (length bytes / 4)%nat in
  let h := foldl (λ h i, absorb h (le_word (take 4 (drop (4 * i) bytes)))) seed (seq 0 n) in
  let h := h ^^^ scramble (le_word (drop (4 * n) bytes)) in
  avalanche (h ^^^ u32 (Z.of_nat (length bytes))).

End Murmur3.

Module AltHashFacts.
Import AltHash.

(** ** Each step on the low 32 bits *)

Lemma u32_rotateLeft i d :
  0 < d < 32 → u32 (Integer_rotateLeft i d) = Murmur3.rotl32 (u32 i) d.
Proof.
  intros. unfold Integer_rotateLeft, Murmur3.rotl32.
  by rewrite u32_i32, !u32_lor, u32_idemp, u32_shiftl_u32 by lia.
Qed.

Lemma u32_mix_k1 k : u32 (mix_k1 k) = Murmur3.scramble (u32 k).
Proof.
  unfold mix_k1, Murmur3.scramble.
  rewrite u32_i32, <- u32_mul_l, u32_rotateLeft, u32_i32 by lia. by rewrite u32_mul_l.
Qed.

Lemma u32_mix_h1 h k : u32 (mix_h1 h k) = Murmur3.absorb (u32 h) (u32 k).
Proof.
  unfold mix_h1, Murmur3.absorb.
  rewrite u32_i32, <- u32_add_l, u32_i32, <- u32_mul_l, u32_rotateLeft, u32_i32, u32_lxor,
    u32_mix_k1 by lia. by rewrite u32_add_l.
Qed.

Lemma u32_xor_shift h n :
  0 <= n → u32 (i32 (h ^^^ (u32 h >>> n))) = u32 h ^^^ (u32 h >>> n).
Proof.
  intros. rewrite u32_i32, u32_lxor. f_equal. apply u32_small.
  pose proof (u32_range h) as [? ?]. rewrite Z.shiftr_div_pow2 by done. split.
  - apply Z.div_pos; lia.
  - apply Z.le_lt_trans with (u32 h); [|done]. apply Z.div_le_upper_bound; [lia|].
    assert (0 < 2 ^ n) by lia. nia.
Qed.

Lemma u32_step_mul h c : u32 (i32 (h * c)) = u32 (u32 h * c).
Proof. by rewrite u32_i32, u32_mul_l. Qed.

Lemma u32_fmix h : u32 (fmix h) = Murmur3.avalanche (u32 h).
Proof.
  unfold fmix, Murmur3.avalanche.
  rewrite u32_xor_shift, u32_step_mul, u32_xor_shift, u32_step_mul, u32_xor_shift by lia. done.
Qed.

Lemma le_word_fmap l : Murmur3.le_word (u8 <$> l) = foldr (λ b w, u8 b + 256 * w) 0 l.
Proof. induction l as [|b l IH]; [done|]. cbn [fmap list_fmap]. unfold Murmur3.le_word in *. cbn [foldr]. by rewrite IH. Qed.

Lemma u32_block_of_bytes d0 d1 d2 d3 :
  u32 (block_of_bytes d0 d1 d2 d3) = Murmur3.le_word (u8 <$> [d0; d1; d2; d3]).
Proof.
  unfold block_of_bytes. fold (u8 d0) (u8 d1) (u8 d2).
  rewrite u32_i32, !u32_lor, u32_i32, u32_shiftl_u8.
  pose proof (u8_range d0). pose proof (u8_range d1). pose proof (u8_range d2).
  pose proof (u8_range d3).
  rewrite !(u32_small) by (split; rewrite ?Z.shiftl_mul_pow2; lia).
  rewrite (lor_shiftl_add (u8 d0)), (lor_shiftl_add (_ + _) _ 16), (lor_shiftl_add _ _ 24) by lia.
  rewrite le_word_fmap. cbn [foldr]. lia.
Qed.

Lemma tail_value rest h :
  (length rest < 4)%nat →
  u32 (bytes_tail h rest) = u32 h ^^^ Murmur3.scramble (Murmur3.le_word (u8 <$> rest)).
Proof.
  intros Hl. destruct rest as [|d0 [|d1 [|d2 [|]]]]; cbn in Hl; try lia; unfold bytes_tail.
  - cbn. by rewrite Z.lxor_0_r.
  - rewrite u32_lxor, u32_mix_k1, le_word_fmap. do 2 f_equal. fold (u8 d0). rewrite Z.lxor_0_l.
    pose proof (u8_range d0). cbn [foldr]. rewrite u32_small; [lia|split; lia].
  - rewrite u32_lxor, u32_mix_k1, le_word_fmap. do 2 f_equal. fold (u8 d0) (u8 d1). rewrite Z.lxor_0_l.
    pose proof (u8_range d0). pose proof (u8_range d1). cbn [foldr].
    rewrite lxor_lor_disjoint, lor_shiftl_add, u32_small by (try split; lia). lia.
  - rewrite u32_lxor, u32_mix_k1, le_word_fmap. do 2 f_equal. fold (u8 d0) (u8 d1) (u8 d2). rewrite Z.lxor_0_l.
    pose proof (u8_range d0). pose proof (u8_range d1). pose proof (u8_range d2). cbn [foldr].
    change 16 with (8 + 8). rewrite <- (Z.shiftl_shiftl (u8 d2) 8 8) by lia.
    rewrite <- Z.shiftl_lxor, (lxor_lor_disjoint (u8 d1)), (lor_shiftl_add (u8 d1)) by lia.
    rewrite lxor_lor_disjoint, lor_shiftl_add, u32_small by (try split; lia). lia.
Qed.

(** ** The block loop *)

Lemma list_ind4 {A} (P : list A → Prop) :
  (∀ l, (length l < 4)%nat → P l) →
  (∀ a b c d l, P l → P (a :: b :: c :: d :: l)) → ∀ l, P l.
Proof.
  intros Hs Hc l. remember (length l) as n eqn:E. revert l E.
  induction (lt_wf n) as [n _ IH]. intros l ->.
  destruct l as [|a [|b [|c [|d l]]]]; try (apply Hs; cbn; lia).
  apply Hc. apply (IH (length l)); [cbn; lia|done].
Qed.

Definition spec_blocks (h : Z) (l : list Z) : Z :=
  foldl (λ h i, Murmur3.absorb h (Murmur3.le_word (take 4 (drop (4 * i) l))))
    h (seq 0 (length l / 4)).

Lemma div4_cons n : ((4 + n) / 4 = S (n / 4))%nat.
Proof.
  replace (4 + n)%nat with (1 * 4 + n)%nat by lia. by rewrite Nat.div_add_l by lia.
Qed.

Lemma spec_blocks_cons h a b c d l :
  spec_blocks h (a :: b :: c :: d :: l) =
  spec_blocks (Murmur3.absorb h (Murmur3.le_word [a; b; c; d])) l.
Proof.
  unfold spec_blocks. cbn [length]. change (S (S (S (S (length l))))) with (4 + length l)%nat.
  rewrite div4_cons. cbn [seq foldl]. rewrite <- fmap_S_seq, foldl_fmap.
  apply foldl_ext. intros h' i _. by replace (4 * S i)%nat with (4 + 4 * i)%nat by lia.
Qed.

(** What the loop leaves: the state after all full blocks, and the tail. *)
Lemma bytes_body_spec l : ∀ h,
  u32 (bytes_body h l).1 = spec_blocks (u32 h) (u8 <$> l) ∧
  (bytes_body h l).2 = drop (4 * (length l / 4)) l.
Proof.
  induction l as [l Hl|a b c d l IH] using list_ind4; intros h.
  - assert (E : (length l / 4 = 0)%nat) by (apply Nat.div_small; lia).
    unfold spec_blocks. rewrite length_fmap, E. cbn.
    by destruct l as [|? [|? [|? [|]]]]; cbn in Hl; try lia.
  - change (bytes_body h (a :: b :: c :: d :: l))
      with (bytes_body (mix_h1 h (block_of_bytes a b c d)) l).
    destruct (IH (mix_h1 h (block_of_bytes a b c d))) as [-> ->]. split.
    + rewrite u32_mix_h1, u32_block_of_bytes. symmetry. apply spec_blocks_cons.
    + cbn [length]. change (S (S (S (S (length l))))) with (4 + length l)%nat.
      rewrite div4_cons. by replace (4 * S (length l / 4))%nat with (4 + 4 * (length l / 4))%nat by lia.
Qed.

Lemma drop_blocks_short {A} (l : list A) : (length (drop (4 * (length l / 4)) l) < 4)%nat.
Proof.
  rewrite length_drop. pose proof (Nat.div_mod_eq (length l) 4).
  pose proof (Nat.mod_upper_bound (length l) 4). lia.
Qed.

(** C36: [murmur3_32] over bytes computes MurmurHash3_x86_32.  For every seed
    and byte string, the signed result of the C++ routine is the two's
    complement reading of the reference hash of the unsigned bytes. *)
Theorem murmur3_32_correct seed data :
  murmur3_32_bytes seed data = i32 (Murmur3.hash32 (u32 seed) (u8 <$> data)).
Proof.
  assert (Hu : u32 (murmur3_32_bytes seed data) = Murmur3.hash32 (u32 seed) (u8 <$> data)).
  { unfold murmur3_32_bytes, Murmur3.hash32.
    destruct (bytes_body_spec data seed) as [H1 H2].
    destruct (bytes_body seed data) as [h rest]. cbn [fst snd] in *. subst rest.
    rewrite u32_fmix, u32_i32, u32_lxor, u32_i32, tail_value by apply drop_blocks_short.
    rewrite H1, !length_fmap, fmap_drop. unfold spec_blocks. by rewrite length_fmap. }
  rewrite <- Hu, i32_u32. symmetry. apply i32_small.
  unfold murmur3_32_bytes. destruct (bytes_body seed data). apply i32_range.
Qed.

(** ** The three overloads agree *)

Definition chars_as_bytes (cs : list Z) : list Z := flat_map (λ c, [i8 c; i8 (c >>> 8)]) cs.
Definition ints_as_bytes (ks : list Z) : list Z :=
  flat_map (λ k, [i8 k; i8 (k >>> 8); i8 (k >>> 16); i8 (k >>> 24)]) ks.

Lemma u16_bytes c : u8 c + 256 * u8 (c >>> 8) = u16 c.
Proof. rewrite !u8_mod, u16_mod, Z.shiftr_div_pow2 by lia. Z.div_mod_to_equations. lia. Qed.

Lemma u32_halves k : u16 k + 65536 * u16 (k >>> 16) = u32 k.
Proof. rewrite !u16_mod, u32_mod, Z.shiftr_div_pow2 by lia. Z.div_mod_to_equations. lia. Qed.

Lemma u32_bytes k :
  u8 k + 256 * (u8 (k >>> 8) + 256 * (u8 (k >>> 16) + 256 * u8 (k >>> 24))) = u32 k.
Proof.
  rewrite <- u32_halves, <- !u16_bytes, Z.shiftr_shiftr by lia. change (16 + 8) with 24. lia.
Qed.

Lemma block_i32 d0 d1 d2 d3 : block_of_bytes d0 d1 d2 d3 = i32 (block_of_bytes d0 d1 d2 d3).
Proof. rewrite i32_small; [done|]. apply i32_range. Qed.

Lemma block_of_chars c d :
  block_of_bytes (i8 c) (i8 (c >>> 8)) (i8 d) (i8 (d >>> 8)) =
  i32 ((c &&& 0xFFFF) ||| i32 (d <<< 16)).
Proof.
  rewrite block_i32. apply i32_eq_of_u32_eq.
  rewrite u32_block_of_bytes, le_word_fmap. cbn [foldr]. rewrite !u8_i8.
  fold (u16 c). rewrite u32_lor, u32_i32.
  pose proof (u16_range c) as Hc. rewrite (u32_small (u16 c)) by (unfold in_u16, in_u32 in *; lia).
  assert (E : u32 (d <<< 16) = u16 d <<< 16).
  { rewrite u32_mod, u16_mod, !Z.shiftl_mul_pow2 by lia.
    by rewrite <- (Z.mul_mod_distr_r d (2 ^ 16) (2 ^ 16)) by lia. }
  rewrite E, lor_shiftl_add by (done || lia). rewrite <- !u16_bytes. lia.
Qed.

Lemma block_of_int k :
  -2 ^ 31 <= k < 2 ^ 31 →
  block_of_bytes (i8 k) (i8 (k >>> 8)) (i8 (k >>> 16)) (i8 (k >>> 24)) = k.
Proof.
  intros Hk. rewrite block_i32, <- (i32_small k Hk) at 1. rewrite <- (i32_small k Hk) at 5.
  apply i32_eq_of_u32_eq. rewrite u32_block_of_bytes, le_word_fmap. cbn [foldr].
  rewrite !u8_i8, <- u32_bytes, (i32_small k) by done. lia.
Qed.

Lemma list_ind2 {A} (P : list A → Prop) :
  P [] → (∀ a, P [a]) → (∀ a b l, P l → P (a :: b :: l)) → ∀ l, P l.
Proof.
  intros H0 H1 H2 l. enough (P l ∧ ∀ a, P (a :: l)) by tauto.
  induction l as [|b l [IH1 IH2]]; split; auto.
Qed.

Lemma chars_body_bytes cs : ∀ h,
  (bytes_body h (chars_as_bytes cs)).1 = (chars_body h cs).1 ∧
  (bytes_body h (chars_as_bytes cs)).2 = chars_as_bytes (chars_body h cs).2.
Proof.
  induction cs as [|c|c d cs IH] using list_ind2; intros h; [done|done|].
  change (chars_as_bytes (c :: d :: cs))
    with (i8 c :: i8 (c >>> 8) :: i8 d :: i8 (d >>> 8) :: chars_as_bytes cs).
  cbn [bytes_body chars_body]. rewrite block_of_chars. apply IH.
Qed.

Lemma chars_body_rest cs : ∀ h,
  (chars_body h cs).2 = [] ∨ ∃ c, (chars_body h cs).2 = [c] ∧ c ∈ cs.
Proof.
  induction cs as [|c|c d cs IH] using list_ind2; intros h.
  - by left.
  - right. exists c. set_solver.
  - cbn [chars_body]. destruct (IH (mix_h1 h (i32 ((c &&& 0xFFFF) ||| i32 (d <<< 16)))))
      as [->|(e & -> & He)]; [by left|right; exists e; set_solver].
Qed.

(** the overloads of [murmur3_32] agree: hashing UTF-16 chars, or ints,
    gives the hash of their little-endian byte representation, for inputs of
    every length (this is what [testEquivalentHashes] samples). *)
Theorem murmur3_overloads_agree seed cs ks :
  Forall in_u16 cs → Forall (λ k, -2 ^ 31 <= k < 2 ^ 31) ks →
  murmur3_32_chars seed cs = murmur3_32_bytes seed (chars_as_bytes cs) ∧
  murmur3_32_ints seed ks = murmur3_32_bytes seed (ints_as_bytes ks).
Proof.
  intros Hcs Hks. split.
  - assert (Hlen : Z.of_nat (length (chars_as_bytes cs)) = Z.of_nat (length cs) * 2).
    { unfold chars_as_bytes. induction cs; cbn -[Z.of_nat]; [done|].
      apply Forall_cons in Hcs as [_ Hcs]. specialize (IHcs Hcs). lia. }
    unfold murmur3_32_chars, murmur3_32_bytes. rewrite Hlen.
    destruct (chars_body_bytes cs seed) as [H1 H2].
    pose proof (chars_body_rest cs seed) as Hr.
    destruct (bytes_body seed (chars_as_bytes cs)) as [hb rb].
    destruct (chars_body seed cs) as [hc rc]. cbn [fst snd] in *. subst hb rb.
    do 3 f_equal. destruct Hr as [->|(c & -> & Hc)]; [done|].
    rewrite Forall_forall in Hcs. apply Hcs in Hc. cbn [chars_as_bytes flat_map app].
    unfold chars_tail, bytes_tail. do 3 f_equal.
    fold (u8 (i8 c)) (u8 (i8 (c >>> 8))). rewrite !u8_i8, Z.lxor_0_l.
    pose proof (u8_range c). rewrite lxor_lor_disjoint, lor_shiftl_add by lia.
    transitivity (u16 c); [symmetry; by apply u16_small|]. rewrite <- u16_bytes. lia.
  - assert (Hlen : Z.of_nat (length (ints_as_bytes ks)) = Z.of_nat (length ks) * 4).
    { unfold ints_as_bytes. induction ks; cbn -[Z.of_nat]; [done|].
      apply Forall_cons in Hks as [_ Hks]. specialize (IHks Hks). lia. }
    assert (Hb : bytes_body seed (ints_as_bytes ks) = (ints_body seed ks, [])).
    { clear Hlen. revert seed. induction Hks as [|k ks Hk _ IH]; intros h; [done|].
      change (ints_as_bytes (k :: ks))
        with (i8 k :: i8 (k >>> 8) :: i8 (k >>> 16) :: i8 (k >>> 24) :: ints_as_bytes ks).
      cbn [bytes_body ints_body]. by rewrite block_of_int. }
    unfold murmur3_32_ints, murmur3_32_bytes. rewrite Hlen, Hb. cbn [bytes_tail].
    f_equal. apply i32_eq_of_u32_eq. by rewrite !u32_lxor, u32_i32.
Qed.

Lemma murmur3_overloads_agree_witness :
  murmur3_32_chars 7 [0x8180; 0x8382; 0x41] = murmur3_32_bytes 7 [-128; -127; -126; -125; 0x41; 0].
Proof.
  refine (proj1 (murmur3_overloads_agree 7 [0x8180; 0x8382; 0x41] [] _ _)); [|done].
  repeat constructor; vm_compute; congruence.
Defined.

(** The built-in self test passes. *)
Example test_alt_hash_passes : test_alt_hash = true.
Proof. vm_compute. reflexivity. Qed.

End AltHashFacts.
