(* ===== verification/HashTable.v ===== *)
(** The generic hash table: [BasicHashtable]/[Hashtable] of
    [utilities/hashtable.hpp], [.inline.hpp] and [.cpp].

    The model keeps the pointers: an entry lives at an address of the C heap
    ([heap]) and links to the next entry of its bucket through [_next], whose
    lowest bit is the "shared" tag.  A fault (invalid address, index out of
    range, no fuel left) is [None].  All instantiations store pointers, so a
    literal is an address.

    The invariant [table_ok] describes the table by the list of entry
    addresses of every bucket; under it the pointer loops compute the
    corresponding list functions and never fault. *)

From S2P Require Import Prelude.

Module Hashtable.

Record HashtableEntry := mkEntry { _hash : Z; _next : Z; _literal : Z }.

Record BasicHashtable := mkTable {
  _table_size : Z;
  _buckets : list Z;
  _free_list : Z;
  _first_free_entry : Z;
  _end_block : Z;
  _entry_size : Z;
  _number_of_entries : Z }.

Abbreviation heap := (gmap Z HashtableEntry).

#[global] Instance HashtableEntry_eq_dec : EqDecision HashtableEntry.
Proof. solve_decision. Defined.

(** ** Entries *)

Definition make_ptr (p : Z) : Z := p &&& -2.
Definition next (e : HashtableEntry) : Z := make_ptr (_next e).
Definition is_shared (e : HashtableEntry) : bool := negb ((_next e &&& 1) =? 0).

Definition set_hash (e : HashtableEntry) (hash : Z) : HashtableEntry :=
  mkEntry hash (_next e) (_literal e).
Definition set_next (e : HashtableEntry) (p : Z) : HashtableEntry :=
  mkEntry (_hash e) p (_literal e).
Definition set_literal (e : HashtableEntry) (s : Z) : HashtableEntry :=
  mkEntry (_hash e) (_next e) s.
Definition set_shared (e : HashtableEntry) : HashtableEntry :=
  mkEntry (_hash e) (_next e ||| 1) (_literal e).

(** ** Construction *)

Definition initialize (table_size entry_size number_of_entries : Z) (buckets : list Z)
    : BasicHashtable :=
  mkTable table_size buckets NULL NULL NULL entry_size number_of_entries.

Definition new_table (table_size entry_size : Z) : BasicHashtable :=
  initialize table_size entry_size 0 (replicate (Z.to_nat table_size) NULL).

Definition with_buckets (table_size entry_size : Z) (buckets : list Z) (number_of_entries : Z)
    : BasicHashtable :=
  initialize table_size entry_size number_of_entries buckets.

(** Functional record updates. *)
Definition upd_buckets (t : BasicHashtable) (bs : list Z) : BasicHashtable :=
  mkTable (_table_size t) bs (_free_list t) (_first_free_entry t) (_end_block t)
    (_entry_size t) (_number_of_entries t).
Definition upd_count (t : BasicHashtable) (n : Z) : BasicHashtable :=
  mkTable (_table_size t) (_buckets t) (_free_list t) (_first_free_entry t) (_end_block t)
    (_entry_size t) n.
Definition upd_free_list (t : BasicHashtable) (p : Z) : BasicHashtable :=
  mkTable (_table_size t) (_buckets t) p (_first_free_entry t) (_end_block t)
    (_entry_size t) (_number_of_entries t).
Definition upd_block (t : BasicHashtable) (first last : Z) : BasicHashtable :=
  mkTable (_table_size t) (_buckets t) (_free_list t) first last
    (_entry_size t) (_number_of_entries t).

(** ** Buckets *)

Definition hash_to_index (t : BasicHashtable) (full_hash : Z) : Z :=
  full_hash mod _table_size t.

Definition bucket (t : BasicHashtable) (i : Z) : option Z := _buckets t !! Z.to_nat i.

Definition set_entry (t : BasicHashtable) (index entry : Z) : option BasicHashtable :=
  _ ← bucket t index;
  Some (upd_buckets t (<[Z.to_nat index := entry]> (_buckets t))).

Definition add_entry (h : heap) (t : BasicHashtable) (index entry : Z)
    : option (heap * BasicHashtable) :=
  e ← h !! entry;
  b ← bucket t index;
  let h := <[entry := set_next e b]> h in
  t ← set_entry t index entry;
  Some (h, upd_count t (_number_of_entries t + 1)).

Definition free_entry (h : heap) (t : BasicHashtable) (entry : Z)
    : option (heap * BasicHashtable) :=
  e ← h !! entry;
  Some (<[entry := set_next e (_free_list t)]> h,
        upd_count (upd_free_list t entry) (_number_of_entries t - 1)).

(** ** Entry allocation

    [blk] is the address [NEW_C_HEAP_ARRAY2] returns when a block is needed
    and [raw] the indeterminate content of the memory a fresh entry is
    carved from. *)

Definition block_len (t : BasicHashtable) : Z :=
  let block_size := MIN2 512 (MAX2 (_table_size t / 2) (_number_of_entries t)) in
  let len := _entry_size t * block_size in
  1 <<< log2_intptr len.

Definition basic_new_entry (blk : Z) (raw : HashtableEntry) (h : heap) (t : BasicHashtable)
    (hashValue : Z) : option (Z * heap * BasicHashtable) :=
  if negb (_free_list t =? NULL) then
    e ← h !! _free_list t;
    Some (_free_list t, <[_free_list t := set_hash e hashValue]> h, upd_free_list t (next e))
  else
    let t :=
      if _first_free_entry t + _entry_size t >=? _end_block t
      then upd_block t blk (blk + block_len t) else t in
    let entry := _first_free_entry t in
    Some (entry, <[entry := set_hash raw hashValue]> h,
          upd_block t (entry + _entry_size t) (_end_block t)).

Definition new_entry (blk : Z) (raw : HashtableEntry) (h : heap) (t : BasicHashtable)
    (hashValue obj : Z) : option (Z * heap * BasicHashtable) :=
  '(entry, h, t) ← basic_new_entry blk raw h t hashValue;
  e ← h !! entry;
  Some (entry, <[entry := set_literal e obj]> h, t).

Definition unlink_entry (h : heap) (t : BasicHashtable) (entry : Z)
    : option (heap * BasicHashtable) :=
  e ← h !! entry;
  Some (<[entry := set_next e NULL]> h, upd_count t (_number_of_entries t - 1)).

Definition copy_freelist (t src : BasicHashtable) : BasicHashtable * BasicHashtable :=
  (upd_block (upd_free_list t (_free_list src)) (_first_free_entry src) (_end_block src),
   upd_block (upd_free_list src NULL) NULL NULL).

Definition free_buckets (t : BasicHashtable) : BasicHashtable := upd_buckets t [].

(** ** Lookup

    [while (entry->next() != NULL && entry->hash() != hash) entry = entry->next();]
    is the loop every client runs from the head of a bucket: it stops at the
    first entry with the hash, or at the last entry. *)

Fixpoint walk (fuel : nat) (h : heap) (p hash : Z) : option HashtableEntry :=
  match fuel with
  | O => None
  | S fuel =>
      e ← h !! p;
      if negb (next e =? NULL) && negb (_hash e =? hash) then walk fuel h (next e) hash
      else Some e
  end.

(** ** Iteration over a bucket and over the table

    [for (p = bucket(i); p != NULL; p = p->next()) body(p->literal())]; the
    bodies of the clients do not relink entries. *)

Fixpoint each_in_bucket {S} (fuel : nat) (h : heap) (p : Z) (f : S → Z → option S) (s : S)
    : option S :=
  if p =? NULL then Some s
  else match fuel with
       | O => None
       | Datatypes.S fuel =>
           e ← h !! p;
           s ← f s (_literal e);
           each_in_bucket fuel h (next e) f s
       end.

Fixpoint each_bucket {S} (n : nat) (i : Z) (h : heap) (t : BasicHashtable)
    (f : S → Z → option S) (s : S) : option S :=
  match n with
  | O => Some s
  | Datatypes.S n =>
      p ← bucket t i;
      s ← each_in_bucket (Datatypes.S (size h)) h p f s;
      each_bucket n (i + 1) h t f s
  end.

Definition each_entry {S} (h : heap) (t : BasicHashtable) (f : S → Z → option S) (s : S)
    : option S :=
  each_bucket (Z.to_nat (_table_size t)) 0 h t f s.

(** [verify]: counts the entries reachable from the buckets. *)
Definition verify (h : heap) (t : BasicHashtable) : option bool :=
  count ← each_entry h t (λ n _, Some (n + 1)) 0;
  Some (count =? _number_of_entries t).

(** ** Reversal of the buckets *)

Fixpoint reverse_loop (fuel : nat) (h : heap) (p new_list : Z) : option (heap * Z) :=
  if p =? NULL then Some (h, new_list)
  else match fuel with
       | O => None
       | S fuel =>
           e ← h !! p;
           reverse_loop fuel (<[p := set_next e new_list]> h) (next e) p
       end.

Definition reverse_bucket (h : heap) (t : BasicHashtable) (i : Z) : option (heap * BasicHashtable) :=
  p ← bucket t i;
  '(h, new_list) ← reverse_loop (S (size h)) h p NULL;
  t ← set_entry t i new_list;
  Some (h, t).

(** [for (int i = 0; i < _table_size; ++i)] with a body that rewrites bucket [i]. *)
Fixpoint for_buckets (n : nat) (i : Z) (body : heap → BasicHashtable → Z → option (heap * BasicHashtable))
    (h : heap) (t : BasicHashtable) : option (heap * BasicHashtable) :=
  match n with
  | O => Some (h, t)
  | S n => '(h, t) ← body h t i; for_buckets n (i + 1) body h t
  end.

Definition reverse (h : heap) (t : BasicHashtable) : option (heap * BasicHashtable) :=
  for_buckets (Z.to_nat (_table_size t)) 0 reverse_bucket h t.

(** ** Moving the entries to another table

    [seed] is the value of [AltHashing::compute_seed()], [new_hash] the
    literal's alternate hash function. *)

Fixpoint move_bucket (fuel : nat) (new_hash : Z → Z → Z) (seed : Z) (h : heap)
    (t t' : BasicHashtable) (p : Z) : option (heap * BasicHashtable * BasicHashtable) :=
  if p =? NULL then Some (h, t, t')
  else match fuel with
       | O => None
       | S fuel =>
           e ← h !! p;
           let nxt := next e in
           let hashValue := new_hash (_literal e) seed in
           let index := hash_to_index t' hashValue in
           let h := <[p := set_hash e hashValue]> h in
           let keep_shared := is_shared e in
           '(h, t) ← unlink_entry h t p;
           '(h, t') ← add_entry h t' index p;
           e' ← h !! p;
           let h := if keep_shared then <[p := set_shared e']> h else h in
           move_bucket fuel new_hash seed h t t' nxt
       end.

Fixpoint move_buckets (n : nat) (i : Z) (new_hash : Z → Z → Z) (seed : Z) (h : heap)
    (t t' : BasicHashtable) : option (heap * BasicHashtable * BasicHashtable) :=
  match n with
  | O => Some (h, t, t')
  | S n =>
      p ← bucket t i;
      '(h, t, t') ← move_bucket (S (size h)) new_hash seed h t t' p;
      move_buckets n (i + 1) new_hash seed h t t'
  end.

Definition move_to (new_hash : Z → Z → Z) (seed : Z) (h : heap) (t t' : BasicHashtable)
    : option (heap * BasicHashtable * BasicHashtable) :=
  '(h, t, t') ← move_buckets (Z.to_nat (_table_size t')) 0 new_hash seed h t t';
  let '(t', t) := copy_freelist t' t in
  Some (h, free_buckets t, t').

(** ** Reversal that puts the literals at or above [boundary] last *)

Fixpoint reverse_boundary_loop (fuel : nat) (h : heap) (boundary p high_list low_list last_low_entry : Z)
    : option (heap * Z * Z * Z) :=
  if p =? NULL then Some (h, high_list, low_list, last_low_entry)
  else match fuel with
       | O => None
       | S fuel =>
           e ← h !! p;
           if _literal e >=? boundary then
             reverse_boundary_loop fuel (<[p := set_next e high_list]> h) boundary (next e)
               p low_list last_low_entry
           else
             reverse_boundary_loop fuel (<[p := set_next e low_list]> h) boundary (next e)
               high_list p (if last_low_entry =? NULL then p else last_low_entry)
       end.

Definition reverse_boundary_bucket (h : heap) (t : BasicHashtable) (boundary i : Z)
    : option (heap * BasicHashtable) :=
  p ← bucket t i;
  '(h, high_list, low_list, last_low_entry) ←
    reverse_boundary_loop (S (size h)) h boundary p NULL NULL NULL;
  if negb (low_list =? NULL) then
    t ← set_entry t i low_list;
    e ← h !! last_low_entry;
    Some (<[last_low_entry := set_next e high_list]> h, t)
  else
    t ← set_entry t i high_list;
    Some (h, t).

Definition reverse_boundary (h : heap) (t : BasicHashtable) (boundary : Z)
    : option (heap * BasicHashtable) :=
  for_buckets (Z.to_nat (_table_size t)) 0 (λ h t i, reverse_boundary_bucket h t boundary i) h t.

End Hashtable.

(** * Chains and the table invariant *)

Module HashtableFacts.
Import Hashtable.

(** [chain h p l]: following [next] from [p] visits the addresses [l]. *)
Fixpoint chain (h : heap) (p : Z) (l : list Z) : Prop :=
  match l with
  | [] => p = NULL
  | a :: l => p = a ∧ a ≠ NULL ∧ Z.Even a ∧ ∃ e, h !! a = Some e ∧ chain h (next e) l
  end.

(** The (hash, literal) pairs stored at the addresses of [l]. *)
Definition kvs (h : heap) (l : list Z) : list (Z * Z) :=
  (λ e, (_hash e, _literal e)) <$> omap (h !!.) l.
Arguments kvs : simpl never.

(** The literal of the first entry with the hash [k]. *)
Fixpoint assoc (k : Z) (l : list (Z * Z)) : option Z :=
  match l with
  | [] => None
  | (k', v) :: l => if k' =? k then Some v else assoc k l
  end.

Lemma make_ptr_even p : Z.Even p → make_ptr p = p.
Proof.
  intros [q ->]. unfold make_ptr. apply Z.bits_inj'; intros i Hi.
  rewrite Z.land_spec. destruct (Z.eq_dec i 0) as [->|].
  - by rewrite Z.testbit_even_0.
  - replace (Z.testbit (-2) i) with true; [by rewrite andb_true_r|].
    change (-2) with (Z.lnot 1). rewrite Z.lnot_spec by done.
    change 1 with (2 ^ 0). by rewrite Z.pow2_bits_false by lia.
Qed.

Lemma even_NULL : Z.Even NULL.
Proof. by exists 0. Qed.

Lemma even_plus a b : Z.Even a → Z.Even b → Z.Even (a + b).
Proof. intros [x ->] [y ->]. exists (x + y). lia. Qed.

Lemma chain_nonnull h p l : chain h p l → p ≠ NULL → ∃ e l', l = p :: l' ∧ Z.Even p ∧ h !! p = Some e ∧ chain h (next e) l'.
Proof. destruct l as [|a l]; cbn; [done|]. intros (-> & _ & ? & e & ? & ?) _. eauto 10. Qed.

Lemma chain_even h p l : chain h p l → Z.Even p.
Proof. destruct l; cbn; [intros ->; apply even_NULL|naive_solver]. Qed.

Lemma chain_NULL h l : chain h NULL l → l = [].
Proof. destruct l; cbn; naive_solver. Qed.

Lemma chain_elem h p l a : chain h p l → a ∈ l → a ≠ NULL ∧ Z.Even a ∧ is_Some (h !! a).
Proof.
  revert p. induction l as [|b l IH]; cbn; intros p; [by intros _ ?%elem_of_nil|].
  intros (-> & ? & ? & e & ? & Hc) [->|]%elem_of_cons; eauto.
Qed.

Lemma chain_length h p l : chain h p l → NoDup l → (length l <= size h)%nat.
Proof.
  intros Hc Hnd. rewrite <- size_dom, <- (size_list_to_set (C:=gset Z) l) by done.
  apply subseteq_size. intros a Ha%elem_of_list_to_set. apply elem_of_dom.
  by eapply chain_elem.
Qed.

(** Writing outside a chain, or without changing the link, keeps it. *)
Lemma chain_insert h p l a e :
  (a ∈ l → ∃ e', h !! a = Some e' ∧ next e = next e') → chain h p l → chain (<[a := e]> h) p l.
Proof.
  revert p. induction l as [|b l IH]; cbn; intros p Ha; [done|].
  intros (-> & ? & ? & e' & He & Hc). split_and!; [done..|].
  destruct (decide (a = b)) as [->|].
  - destruct Ha as (e'' & ? & Hn); [set_solver|]. simplify_eq.
    exists e. rewrite lookup_insert_eq, Hn. split; [done|]. apply IH; [|done].
    intros _. eauto.
  - exists e'. rewrite lookup_insert_ne by done. split; [done|]. apply IH; [|done].
    intros ?. apply Ha. set_solver.
Qed.

Lemma chain_frame h p l a e : a ∉ l → chain h p l → chain (<[a := e]> h) p l.
Proof. intros ?. by apply chain_insert. Qed.

Lemma kvs_frame h l a e : a ∉ l → kvs (<[a := e]> h) l = kvs h l.
Proof.
  intros Ha. unfold kvs. f_equal. induction l as [|b l IH]; [done|]. cbn.
  rewrite lookup_insert_ne by set_solver. by rewrite IH by set_solver.
Qed.

Lemma kvs_same h h' l : (∀ a, a ∈ l → h' !! a = h !! a) → kvs h' l = kvs h l.
Proof.
  intros Hl. unfold kvs. f_equal. induction l as [|b l IH]; [done|]. cbn.
  rewrite Hl by set_solver. by rewrite IH by set_solver.
Qed.

Lemma kvs_cons h a l e : h !! a = Some e → kvs h (a :: l) = (_hash e, _literal e) :: kvs h l.
Proof. intros He. unfold kvs. cbn. by rewrite He. Qed.

Lemma assoc_None k l : assoc k l = None ↔ Forall (λ kv, kv.1 ≠ k) l.
Proof.
  induction l as [|[k' v] l IH]; cbn; [by split|]. rewrite Forall_cons. cbn.
  destruct (Z.eqb_spec k' k); naive_solver.
Qed.

(** The lookup loop stops at the first entry with the hash; when it reports
    another hash, the chain has no entry with it. *)
Lemma walk_spec fuel h p l k :
  chain h p l → l ≠ [] → (length l <= fuel)%nat →
  ∃ e, walk fuel h p k = Some e ∧
    (if _hash e =? k then Some (_literal e) else None) = assoc k (kvs h l).
Proof.
  revert p l. induction fuel as [|fuel IH]; intros p l Hc Hl Hf; [destruct l; cbn in *; lia || done|].
  destruct l as [|a l]; [done|]. destruct Hc as (-> & ? & ? & e & He & Hc).
  cbn. rewrite He. cbn. rewrite (kvs_cons _ _ _ _ He). cbn.
  destruct (Z.eqb_spec (next e) NULL) as [Hn|Hn]; cbn.
  - rewrite Hn in Hc. apply chain_NULL in Hc as ->. eexists; split; [done|].
    by destruct (_ =? k).
  - destruct (_hash e =? k) eqn:Hk; cbn; [eexists; by rewrite Hk|].
    apply IH; [done| |cbn in *; lia]. intros ->. done.
Qed.

(** A loop over a bucket is the fold over the literals of its entries. *)
Fixpoint ofold {S} (f : S → Z → option S) (s : S) (l : list Z) : option S :=
  match l with
  | [] => Some s
  | v :: l => s ← f s v; ofold f s l
  end.

Lemma ofold_app {S} (f : S → Z → option S) s l1 l2 :
  ofold f s (l1 ++ l2) = s ← ofold f s l1; ofold f s l2.
Proof. revert s. induction l1 as [|v l1 IH]; intros s; [done|]. cbn. by destruct (f s v); cbn. Qed.

Lemma each_in_bucket_spec {S} fuel h p l (f : S → Z → option S) s :
  chain h p l → (length l <= fuel)%nat →
  each_in_bucket fuel h p f s = ofold f s (snd <$> kvs h l).
Proof.
  revert p l s. induction fuel as [|fuel IH]; intros p [|a l] s Hc Hf; cbn in Hf; try lia.
  1-2: cbn in Hc |- *; by subst.
  destruct Hc as (-> & ? & ? & e & He & Hc). cbn.
  rewrite (proj2 (Z.eqb_neq a NULL)) by done. rewrite He, (kvs_cons _ _ _ _ He). cbn.
  destruct (f s (_literal e)); cbn; [|done]. apply IH; [done|lia].
Qed.

(** ** The invariant *)

(** The extents of two entries of [sz] bytes do not overlap. *)
Definition apart (sz a b : Z) : Prop := a + sz <= b ∨ b + sz <= a.

(** An entry at [a] does not overlap the part of the current block that is
    still to be carved. *)
Definition off_block (t : BasicHashtable) (a : Z) : Prop :=
  _end_block t <= _first_free_entry t ∨
  a + _entry_size t <= _first_free_entry t ∨ _end_block t <= a.

Definition in_bucket (h : heap) (t : BasicHashtable) (i : nat) (a : Z) : Prop :=
  ∃ e, h !! a = Some e ∧ 0 <= _hash e ∧ hash_to_index t (_hash e) = Z.of_nat i.

(** [bss] lists the entries of every bucket and [fl] those of the free list. *)
Record table_ok (h : heap) (t : BasicHashtable) (bss : list (list Z)) (fl : list Z) : Prop := {
  ok_size : 4 <= _table_size t < 2 ^ 31;
  ok_entry_size : 0 < _entry_size t < 2 ^ 31 ∧ Z.Even (_entry_size t);
  ok_length : length (_buckets t) = Z.to_nat (_table_size t);
  ok_chains : Forall2 (chain h) (_buckets t) bss;
  ok_free : chain h (_free_list t) fl;
  ok_nodup : NoDup (concat bss ++ fl);
  ok_hash : ∀ i l a, bss !! i = Some l → a ∈ l → in_bucket h t i a;
  ok_count : _number_of_entries t = Z.of_nat (length (concat bss));
  ok_block : 0 <= _first_free_entry t ∧ Z.Even (_first_free_entry t) ∧
             (_first_free_entry t = NULL → _end_block t = NULL);
  ok_off : ∀ a, a ∈ concat bss ++ fl → off_block t a;
  ok_apart : ∀ a b, a ∈ concat bss ++ fl → b ∈ concat bss ++ fl → a ≠ b →
             apart (_entry_size t) a b }.

(** An entry that has been allocated and is not linked yet. *)
Record detached (h : heap) (t : BasicHashtable) (bss : list (list Z)) (fl : list Z) (a : Z) : Prop := {
  det_ptr : a ≠ NULL ∧ Z.Even a;
  det_off : off_block t a;
  det_apart : ∀ b, b ∈ concat bss ++ fl → apart (_entry_size t) a b }.

(** What [malloc] promises of a new block, relative to the live entries. *)
Definition fresh_block (t : BasicHashtable) (live : list Z) (blk : Z) : Prop :=
  0 < blk ∧ Z.Even blk ∧
  ∀ a, a ∈ live → a + _entry_size t <= blk ∨ blk + block_len t <= a.

Lemma block_len_enough t :
  4 <= _table_size t < 2 ^ 31 → 0 < _entry_size t < 2 ^ 31 → _entry_size t < block_len t.
Proof.
  intros Hts Hes. unfold block_len, MIN2, MAX2.
  set (bs := if 512 <? _ then _ else _).
  assert (2 <= bs <= 512).
  { pose proof (Z.div_le_lower_bound (_table_size t) 2 2). subst bs.
    destruct (Z.gtb_spec (_table_size t / 2) (_number_of_entries t)).
    - destruct (Z.ltb_spec 512 (_table_size t / 2)); lia.
    - destruct (Z.ltb_spec 512 (_number_of_entries t)); lia. }
  assert (0 < _entry_size t * bs < 2 ^ 63) by (change (2 ^ 63) with (2 ^ 31 * 2 ^ 32); nia).
  rewrite log2_intptr_log2, Z.shiftl_1_l by done.
  pose proof (Z.log2_spec (_entry_size t * bs) ltac:(lia)) as [_ Hu].
  rewrite Z.pow_succ_r in Hu by apply Z.log2_nonneg. nia.
Qed.

Lemma elem_concat (bss : list (list Z)) i l a : bss !! i = Some l → a ∈ l → a ∈ concat bss.
Proof. intros Hi Ha. apply list_elem_of_In, in_concat. exists l. split; apply list_elem_of_In; [by eapply list_elem_of_lookup_2|done]. Qed.

Lemma elem_concat_inv (bss : list (list Z)) a : a ∈ concat bss → ∃ i l, bss !! i = Some l ∧ a ∈ l.
Proof.
  intros Ha%list_elem_of_In%in_concat. destruct Ha as (l & Hl & Ha).
  apply list_elem_of_In, list_elem_of_lookup in Hl as [i Hi]. exists i, l.
  by rewrite <- list_elem_of_In in Ha.
Qed.

Section table.
Context {h : heap} {t : BasicHashtable} {bss : list (list Z)} {fl : list Z}.
Hypothesis Hok : table_ok h t bss fl.

Lemma ok_length_bss : length bss = Z.to_nat (_table_size t).
Proof. rewrite <- (ok_length _ _ _ _ Hok). symmetry. eapply Forall2_length, ok_chains, Hok. Qed.

Lemma ok_bucket i :
  0 <= i < _table_size t → ∃ p l, bucket t i = Some p ∧ bss !! Z.to_nat i = Some l ∧ chain h p l ∧ NoDup l.
Proof.
  intros Hi. pose proof (ok_length _ _ _ _ Hok). pose proof ok_length_bss.
  destruct (lookup_lt_is_Some_2 bss (Z.to_nat i)) as [l Hl]; [lia|].
  destruct (Forall2_lookup_r _ _ _ _ _ (ok_chains _ _ _ _ Hok) Hl) as (p & Hp & Hc).
  exists p, l. split_and!; try done.
  pose proof (ok_nodup _ _ _ _ Hok) as (Hnd & _ & _)%NoDup_app.
  clear - Hl Hnd. revert i Hl. generalize (Z.to_nat). intros f i. revert bss Hnd. generalize (f i). clear.
  intros n. induction n as [|n IH]; intros [|l0 bss] Hnd Hl; simplify_eq/=; apply NoDup_app in Hnd; [naive_solver|].
  eapply IH; [|done]. naive_solver.
Qed.

Lemma index_range k : 0 <= hash_to_index t k < _table_size t.
Proof. pose proof (ok_size _ _ _ _ Hok). apply Z.mod_pos_bound. lia. Qed.

(** A heap write at an address the table does not use keeps the invariant. *)
Lemma ok_heap_frame a e : a ∉ concat bss ++ fl → table_ok (<[a := e]> h) t bss fl.
Proof.
  intros Ha. pose proof Hok as []. split; try done.
  - apply Forall2_same_length_lookup in ok_chains0 as [? Hch].
    apply Forall2_same_length_lookup. split; [done|]. intros i p l Hp Hl.
    apply chain_frame; [|by eapply Hch]. intros ?. apply Ha, elem_of_app. left. by eapply elem_concat.
  - apply chain_frame; [set_solver|done].
  - intros i l b Hl Hb. destruct (ok_hash0 i l b Hl Hb) as (e' & ? & ?). exists e'.
    rewrite lookup_insert_ne; [done|]. intros ->. apply Ha, elem_of_app. left. by eapply elem_concat.
Qed.

(** Rewriting hash and literal of a free-list entry keeps the invariant. *)
Lemma ok_pop_free a e fl' k :
  fl = a :: fl' → h !! a = Some e →
  table_ok (<[a := set_hash e k]> h) (upd_free_list t (next e)) bss fl' ∧
  detached (<[a := set_hash e k]> h) (upd_free_list t (next e)) bss fl' a.
Proof.
  intros -> He. pose proof Hok as [].
  assert ((a ∉ concat bss) ∧ (a ∉ fl') ∧ NoDup (concat bss ++ fl')) as (Hab & Haf & Hnd).
  { apply NoDup_app in ok_nodup0 as (? & Hd & [? ?]%NoDup_cons). split_and!; [set_solver|done|].
    apply NoDup_app. set_solver. }
  cbn in ok_free0. destruct ok_free0 as (Hfl & ? & ? & e' & He' & Hc).
  rewrite He in He'. injection He' as <-.
  assert (H' : table_ok h (upd_free_list t (next e)) bss fl').
  { split; try done; intros; [apply ok_off0; set_solver|apply ok_apart0; set_solver]. }
  split.
  - pose proof H' as []. split; try done.
    + apply Forall2_same_length_lookup in ok_chains0 as [? Hch].
      apply Forall2_same_length_lookup. split; [done|]. intros i p l Hp Hl.
      apply chain_frame; [|by eapply Hch]. intros ?. apply Hab. by eapply elem_concat.
    + by apply chain_frame.
    + intros i l b Hl Hb. destruct (ok_hash0 i l b Hl Hb) as (e' & ? & ?). exists e'.
      rewrite lookup_insert_ne; [done|]. intros ->. apply Hab. by eapply elem_concat.
  - split; [done|apply ok_off0; set_solver|].
    intros b Hb. apply ok_apart0; [set_solver..|]. intros ->. set_solver.
Qed.

(** Carving an entry from the block. *)
Lemma ok_carve t' e :
  t' = upd_block t (_first_free_entry t') (_end_block t') →
  0 < _first_free_entry t' → Z.Even (_first_free_entry t') →
  _first_free_entry t' + _entry_size t <= _end_block t' →
  (∀ a, a ∈ concat bss ++ fl →
     a + _entry_size t <= _first_free_entry t' ∨ _end_block t' <= a) →
  let a := _first_free_entry t' in
  let t'' := upd_block t' (a + _entry_size t') (_end_block t') in
  table_ok (<[a := e]> h) t'' bss fl ∧ detached (<[a := e]> h) t'' bss fl a.
Proof.
  intros Ht' Hpos Hev Hfit Hoff a t''.
  assert (_entry_size t' = _entry_size t) as Hes by by rewrite Ht'.
  pose proof (ok_entry_size _ _ _ _ Hok) as [? ?].
  assert (Ha : a ∉ concat bss ++ fl).
  { intros Hin. specialize (Hoff _ Hin). subst a. lia. }
  split.
  - destruct (ok_heap_frame a e Ha). unfold t''. rewrite Ht'. split; try done; cbn.
    + split_and!; [lia| |unfold NULL; lia]. by apply even_plus.
    + intros b Hb. unfold off_block. cbn. specialize (Hoff _ Hb). subst a. lia.
  - split; [unfold NULL; split; [lia|done]|unfold off_block, t''; cbn; right; left; lia|].
    intros b Hb. unfold apart, t''. rewrite Ht'. cbn. specialize (Hoff _ Hb). subst a. lia.
Qed.

Lemma basic_new_entry_ok blk raw k :
  fresh_block t (concat bss ++ fl) blk →
  ∃ a h' t' fl' e, basic_new_entry blk raw h t k = Some (a, h', t') ∧
    table_ok h' t' bss fl' ∧ detached h' t' bss fl' a ∧
    h' = <[a := e]> h ∧ _hash e = k ∧ (a ∉ concat bss) ∧
    fl' ⊆ fl ∧ _table_size t' = _table_size t.
Proof.
  intros (Hblk & Hev & Hfresh). pose proof Hok as []. unfold basic_new_entry.
  destruct (Z.eqb_spec (_free_list t) NULL) as [Hn|Hn]; cbn [negb].
  - set (t' := if _ >=? _ then _ else t).
    assert (Hc : t' = upd_block t (_first_free_entry t') (_end_block t') ∧
      0 < _first_free_entry t' ∧ Z.Even (_first_free_entry t') ∧
      _first_free_entry t' + _entry_size t <= _end_block t' ∧
      (∀ a, a ∈ concat bss ++ fl →
        a + _entry_size t <= _first_free_entry t' ∨ _end_block t' <= a)).
    { subst t'. destruct (Z.geb_spec (_first_free_entry t + _entry_size t) (_end_block t)); cbn.
      - pose proof (block_len_enough t). split_and!; try done; lia.
      - destruct ok_block0 as (? & ? & Hz). split_and!; try done; [by destruct t| |lia|].
        + destruct (decide (_first_free_entry t = NULL)) as [E|]; unfold NULL in *; [|lia].
          specialize (Hz E). lia.
        + intros a Ha. specialize (ok_off0 a Ha). unfold off_block in *. lia. }
    destruct Hc as (E & ? & ? & ? & Hd).
    destruct (ok_carve t' (set_hash raw k)) as [? Hdet]; try done.
    eexists _, _, _, fl, _; split_and!; [done|done|done|done|done| |done|by rewrite E].
    intros Ha. destruct (Hd (_first_free_entry t')); [set_solver|lia..].
  - destruct (chain_nonnull _ _ _ ok_free0 Hn) as (e & fl' & Hfl & ? & He & ?).
    rewrite He. cbn. destruct (ok_pop_free _ _ fl' k Hfl He).
    eexists _, _, _, fl', _; split_and!; [done|done|done|done|done| |set_solver|done].
    rewrite Hfl in ok_nodup0. apply NoDup_app in ok_nodup0. set_solver.
Qed.

End table.

Lemma new_entry_ok h t bss fl blk raw k v :
  table_ok h t bss fl → fresh_block t (concat bss ++ fl) blk →
  ∃ a h' t' fl' e, new_entry blk raw h t k v = Some (a, h', t') ∧
    table_ok h' t' bss fl' ∧ detached h' t' bss fl' a ∧ _hash e = k ∧ _literal e = v ∧
    h' = <[a := e]> h ∧ (a ∉ concat bss ++ fl') ∧ _table_size t' = _table_size t.
Proof.
  intros Hok Hb. destruct (basic_new_entry_ok Hok blk raw k Hb) as
    (a & h' & t' & fl' & e & E & Hok' & Hdet & -> & <- & Hna & ? & ?).
  unfold new_entry. rewrite E. cbn. rewrite lookup_insert_eq. cbn.
  assert (Ha : a ∉ concat bss ++ fl').
  { intros Hin. pose proof (ok_entry_size _ _ _ _ Hok') as [? _].
    destruct (det_apart _ _ _ _ _ Hdet a Hin); lia. }
  eexists a, _, t', fl', (set_literal e v). split_and!; [done| | |done|done|apply insert_insert_eq|done|done].
  - by apply ok_heap_frame.
  - by destruct Hdet.
Qed.

Lemma concat_insert_Permutation (bss : list (list Z)) i l a :
  bss !! i = Some l → concat (<[i := a :: l]> bss) ≡ₚ a :: concat bss.
Proof.
  revert i. induction bss as [|l0 bss IH]; intros [|i] Hi; simplify_eq/=; [done|].
  rewrite IH by done. by rewrite Permutation_middle.
Qed.

(** Linking a detached entry into the bucket its hash selects. *)
Lemma add_entry_ok h t bss fl a e l :
  table_ok h t bss fl → detached h t bss fl a → a ∉ concat bss ++ fl →
  h !! a = Some e → 0 <= _hash e → let i := hash_to_index t (_hash e) in
  bss !! Z.to_nat i = Some l →
  ∃ t' b, bucket t i = Some b ∧
    add_entry h t i a = Some (<[a := set_next e b]> h, t') ∧
    table_ok (<[a := set_next e b]> h) t' (<[Z.to_nat i := a :: l]> bss) fl ∧
    _table_size t' = _table_size t.
Proof.
  intros Hok Hdet Ha He Hk i Hl.
  pose proof (index_range Hok (_hash e) : 0 <= i < _) as Hi.
  destruct (ok_bucket Hok i Hi) as (b & l' & Hb & Hl' & Hc & _). rewrite Hl in Hl'. injection Hl' as <-.
  unfold add_entry, set_entry. rewrite He, Hb. cbn.
  eexists _, b. split_and!; [done|done| |done].
  pose proof (ok_heap_frame Hok a (set_next e b) Ha) as []. destruct Hdet.
  pose proof (concat_insert_Permutation bss _ l a Hl) as HP.
  assert (Z.Even b) by by eapply chain_even.
  split; cbn; try done.
  - by rewrite length_insert.
  - apply Forall2_insert; [done|]. cbn. split_and!; [done|apply det_ptr0..|].
    exists (set_next e b). rewrite lookup_insert_eq. split; [done|].
    unfold next. cbn. rewrite make_ptr_even by done. apply chain_frame; [|done].
    intros ?. apply Ha, elem_of_app. left. by eapply elem_concat.
  - rewrite HP. cbn. by apply NoDup_cons.
  - intros j lj b' Hlj Hb'. destruct (decide (j = Z.to_nat i)) as [->|].
    + rewrite list_lookup_insert_eq in Hlj by (by eapply lookup_lt_Some). injection Hlj as <-.
      apply elem_of_cons in Hb' as [->|Hb']; [|by eapply ok_hash0].
      exists (set_next e b). rewrite lookup_insert_eq. split_and!; [done|done|cbn].
      change (i = Z.of_nat (Z.to_nat i)). lia.
    + rewrite list_lookup_insert_ne in Hlj by done. by eapply ok_hash0.
  - rewrite HP. cbn. lia.
  - intros x. rewrite HP. cbn. rewrite elem_of_cons. intros [->|?]; [done|by apply ok_off0].
  - intros x y. rewrite HP. cbn. rewrite !elem_of_cons. intros [->|?] [->|?] ?; [done|by apply det_apart0| |by apply ok_apart0].
    destruct (det_apart0 x); [done|right|left]; lia.
Qed.

(** ** The table as an association list

    [Tab h t kv]: the table is well formed and [kv] lists its entries in the
    order of an iteration.  This is the view clients reason with. *)
Definition Tab (h : heap) (t : BasicHashtable) (kv : list (Z * Z)) : Prop :=
  ∃ bss fl, table_ok h t bss fl ∧ kv = kvs h (concat bss).

(** The addresses in use by the table, for the freshness of new blocks. *)
Definition fresh_for (h : heap) (t : BasicHashtable) (blk : Z) : Prop :=
  0 < blk ∧ Z.Even blk ∧
  ∀ a, is_Some (h !! a) → a + _entry_size t <= blk ∨ blk + block_len t <= a.

Lemma kvs_app h l1 l2 : kvs h (l1 ++ l2) = kvs h l1 ++ kvs h l2.
Proof. unfold kvs. by rewrite omap_app, fmap_app. Qed.

Lemma assoc_app k l1 l2 :
  assoc k (l1 ++ l2) = match assoc k l1 with Some v => Some v | None => assoc k l2 end.
Proof. induction l1 as [|[k' v] l1 IH]; [done|]. cbn. by destruct (k' =? k). Qed.

Lemma assoc_elem k l v : assoc k l = Some v → (k, v) ∈ l.
Proof.
  induction l as [|[k' v'] l IH]; [done|]. cbn. destruct (Z.eqb_spec k' k); intros ?; simplify_eq; set_solver.
Qed.

Lemma elem_kvs h l kv : kv ∈ kvs h l → ∃ a e, a ∈ l ∧ h !! a = Some e ∧ kv = (_hash e, _literal e).
Proof.
  unfold kvs. intros (e & -> & (a & ? & ?)%list_elem_of_omap)%list_elem_of_fmap. eauto 10.
Qed.

Lemma Permutation_kvs h l1 l2 : l1 ≡ₚ l2 → kvs h l1 ≡ₚ kvs h l2.
Proof. intros HP. unfold kvs. by rewrite HP. Qed.

Lemma live_elem h t bss fl a : table_ok h t bss fl → a ∈ concat bss ++ fl → is_Some (h !! a).
Proof.
  intros Hok [(i & l & Hi & Ha)%elem_concat_inv|Ha]%elem_of_app.
  - destruct (ok_hash _ _ _ _ Hok i l a Hi Ha) as (e & ? & _). eauto.
  - eapply chain_elem; [eapply ok_free, Hok|done].
Qed.

Lemma fresh_for_block h t bss fl blk :
  table_ok h t bss fl → fresh_for h t blk → fresh_block t (concat bss ++ fl) blk.
Proof. intros Hok (? & ? & Hf). split_and!; [done..|]. intros a Ha. apply Hf. by eapply live_elem. Qed.

(** Only the bucket of a hash can hold it. *)
Lemma assoc_other h t bss fl k la :
  table_ok h t bss fl →
  (∀ a, a ∈ la → ∃ j lj, bss !! j = Some lj ∧ a ∈ lj ∧ Z.of_nat j ≠ hash_to_index t k) →
  assoc k (kvs h la) = None.
Proof.
  intros Hok. induction la as [|a la IH]; intros Hla; [done|].
  destruct (Hla a) as (j & lj & Hj & Ha & Hne); [set_solver|].
  destruct (ok_hash _ _ _ _ Hok j lj a Hj Ha) as (e & He & _ & Hx).
  rewrite (kvs_cons _ _ _ _ He). cbn. destruct (Z.eqb_spec (_hash e) k) as [<-|]; [lia|].
  apply IH. set_solver.
Qed.

Lemma assoc_before h t bss fl i k :
  table_ok h t bss fl → hash_to_index t k = Z.of_nat i → assoc k (kvs h (concat (take i bss))) = None.
Proof.
  intros Hok Hk. eapply assoc_other; [done|]. intros a (j & lj & Hj & Ha)%elem_concat_inv.
  apply lookup_take_Some in Hj as [Hj ?]. exists j, lj. split_and!; [done..|lia].
Qed.

Lemma concat_middle (bss : list (list Z)) i l :
  bss !! i = Some l → concat bss = concat (take i bss) ++ l ++ concat (drop (S i) bss).
Proof. intros Hl. rewrite <- (take_drop_middle bss i l Hl) at 1. by rewrite concat_app, concat_cons. Qed.

Lemma assoc_bucket h t bss fl i l k :
  table_ok h t bss fl → bss !! i = Some l → hash_to_index t k = Z.of_nat i →
  assoc k (kvs h (concat bss)) = assoc k (kvs h l).
Proof.
  intros Hok Hl Hk. rewrite (concat_middle bss i l Hl), !kvs_app, !assoc_app.
  rewrite (assoc_before h t bss fl i k Hok Hk).
  destruct (assoc k (kvs h l)); [done|]. eapply assoc_other; [done|].
  intros a (j & lj & Hj & Ha)%elem_concat_inv. rewrite lookup_drop in Hj.
  eexists _, lj. split_and!; [exact Hj|done|lia].
Qed.

(** Looking a hash up from its bucket head. *)
Lemma Tab_walk h t kv k :
  Tab h t kv →
  ∃ p, bucket t (hash_to_index t k) = Some p ∧
    (p = NULL → assoc k kv = None) ∧
    (p ≠ NULL → ∃ e, walk (S (size h)) h p k = Some e ∧
       (if _hash e =? k then Some (_literal e) else None) = assoc k kv).
Proof.
  intros (bss & fl & Hok & ->). pose proof (index_range Hok k) as Hi.
  destruct (ok_bucket Hok _ Hi) as (p & l & Hp & Hl & Hc & Hnd).
  rewrite (assoc_bucket _ _ _ _ _ _ k Hok Hl) by lia.
  exists p. split_and!; [done| |].
  - intros ->. by apply chain_NULL in Hc as ->.
  - intros Hp0. apply walk_spec; [done| |].
    + intros ->. by cbn in Hc.
    + pose proof (chain_length _ _ _ Hc Hnd). lia.
Qed.

(** Consing an entry onto its bucket inserts its pair in the view. *)
Lemma kvs_insert h t bss fl a e b i l :
  table_ok h t bss fl → (a ∉ concat bss) → bss !! i = Some l → hash_to_index t (_hash e) = Z.of_nat i →
  let kv' := kvs (<[a := set_next e b]> h) (concat (<[i := a :: l]> bss)) in
  kv' ≡ₚ (_hash e, _literal e) :: kvs h (concat bss) ∧
  ∀ k, assoc k kv' = if _hash e =? k then Some (_literal e) else assoc k (kvs h (concat bss)).
Proof.
  intros Hok Ha Hl Hk kv'. subst kv'.
  assert (i < length bss)%nat by by eapply lookup_lt_Some.
  rewrite (concat_middle (<[i := a :: l]> bss) i (a :: l)) by by rewrite list_lookup_insert_eq.
  rewrite take_insert_ge, drop_insert_lt by lia.
  pose proof (concat_middle bss i l Hl) as E. rewrite E in Ha |- *.
  rewrite !not_elem_of_app in Ha. destruct Ha as (Ha1 & Ha2 & Ha3).
  cbn [app]. rewrite !kvs_app, (kvs_cons _ a _ (set_next e b)) by apply lookup_insert_eq.
  rewrite !kvs_app, !kvs_frame by done. cbn. split; [symmetry; apply Permutation_middle|].
  intros k. rewrite !assoc_app. cbn. rewrite !assoc_app.
  destruct (Z.eqb_spec (_hash e) k) as [<-|]; [|done]. by rewrite (assoc_before h t bss fl).
Qed.

(** Adding a new entry for a hash, as every client does. *)
Lemma Tab_insert h t kv blk raw k v :
  Tab h t kv → 0 <= k → fresh_for h t blk →
  ∃ a h1 t1 h2 t2 kv', new_entry blk raw h t k v = Some (a, h1, t1) ∧
    add_entry h1 t1 (hash_to_index t1 k) a = Some (h2, t2) ∧
    Tab h2 t2 kv' ∧ kv' ≡ₚ (k, v) :: kv ∧
    (∀ k', assoc k' kv' = if k =? k' then Some v else assoc k' kv) ∧
    _table_size t2 = _table_size t ∧
    (∃ e, bucket t2 (hash_to_index t2 k) = Some a ∧ h2 !! a = Some e ∧ _literal e = v).
Proof.
  intros (bss & fl & Hok & ->) Hk Hf.
  destruct (new_entry_ok h t bss fl blk raw k v Hok) as
    (a & h1 & t1 & fl' & e & E1 & Hok1 & Hdet & <- & <- & -> & Ha & Hts); [by eapply fresh_for_block|].
  assert (He : <[a:=e]> h !! a = Some e) by apply lookup_insert_eq.
  pose proof (index_range Hok1 (_hash e)) as Hi. destruct (ok_bucket Hok1 _ Hi) as (p & l & Hp & Hl & _).
  destruct (add_entry_ok _ t1 bss fl' a e l Hok1 Hdet Ha He Hk Hl) as (t2 & b & Hb & E2 & Hok2 & Hts2).
  destruct (kvs_insert _ t1 bss fl' a e b _ l Hok1 ltac:(set_solver) Hl) as [HP HA]; [lia|].
  rewrite (kvs_frame h (concat bss)) in HP by set_solver.
  eexists a, _, t1, _, t2, _. split_and!; [done|exact E2|by eexists _, _|done| |congruence|].
  - intros k. rewrite HA. by rewrite kvs_frame by set_solver.
  - exists (set_next e b). rewrite lookup_insert_eq. split_and!; [|done..].
    assert (hash_to_index t2 (_hash e) = hash_to_index t1 (_hash e)) as -> by (unfold hash_to_index; by rewrite Hts2).
    unfold add_entry, set_entry in E2. rewrite He, Hb in E2. cbn in E2. simplify_eq. unfold bucket. cbn.
    apply list_lookup_insert_eq. rewrite (ok_length _ _ _ _ Hok1). lia.
Qed.

(** ** Construction and iteration *)

Lemma concat_replicate_nil n : concat (replicate n ([] : list Z)) = [].
Proof. by induction n. Qed.

Lemma new_table_ok h table_size entry_size :
  4 <= table_size < 2 ^ 31 → 0 < entry_size < 2 ^ 31 → Z.Even entry_size →
  table_ok h (new_table table_size entry_size) (replicate (Z.to_nat table_size) []) [].
Proof.
  intros Hts Hes Hev. split; cbn; rewrite ?concat_replicate_nil; try done.
  - apply length_replicate.
  - by apply Forall2_replicate.
  - apply NoDup_nil_2.
  - intros i l a [-> _]%lookup_replicate ?%elem_of_nil. done.
  - split_and!; [done|apply even_NULL|done].
  - intros a ?%elem_of_nil. done.
  - intros a b ?%elem_of_nil. done.
Qed.

Lemma Tab_new h table_size entry_size :
  4 <= table_size < 2 ^ 31 → 0 < entry_size < 2 ^ 31 → Z.Even entry_size →
  Tab h (new_table table_size entry_size) [].
Proof. intros. eexists _, _. split; [by apply new_table_ok|]. by rewrite concat_replicate_nil. Qed.

Lemma each_bucket_spec {S} n i h t bss fl (f : S → Z → option S) s :
  table_ok h t bss fl → 0 <= i → i + Z.of_nat n = _table_size t →
  each_bucket n i h t f s = ofold f s (snd <$> kvs h (concat (drop (Z.to_nat i) bss))).
Proof.
  intros Hok. revert i s. induction n as [|n IH]; intros i s Hi Hn; cbn [each_bucket].
  - rewrite drop_ge; [done|]. rewrite (ok_length_bss Hok). lia.
  - destruct (ok_bucket Hok i) as (p & l & Hp & Hl & Hc & Hnd); [lia|]. rewrite Hp. cbn [mbind option_bind].
    pose proof (chain_length _ _ _ Hc Hnd).
    rewrite (drop_S _ l) by done. rewrite concat_cons, kvs_app, fmap_app, ofold_app.
    rewrite (each_in_bucket_spec (Datatypes.S (size h)) h p l f s Hc) by lia.
    destruct (ofold f s _); cbn; [|done]. rewrite IH by lia. do 5 f_equal. lia.
Qed.

Lemma each_entry_spec {S} h t kv (f : S → Z → option S) s :
  Tab h t kv → each_entry h t f s = ofold f s (snd <$> kv).
Proof.
  intros (bss & fl & Hok & ->). unfold each_entry. pose proof (ok_size _ _ _ _ Hok).
  by rewrite (each_bucket_spec _ 0 h t bss fl) by (done || lia).
Qed.

Lemma ofold_count l n : ofold (λ n _, Some (n + 1)) n l = Some (n + Z.of_nat (length l)).
Proof. revert n. induction l as [|v l IH]; intros n; cbn; [f_equal; lia|]. rewrite IH. f_equal. lia. Qed.

Lemma kvs_length h t bss fl : table_ok h t bss fl → length (kvs h (concat bss)) = length (concat bss).
Proof.
  intros Hok. assert (Hs : ∀ a, a ∈ concat bss → is_Some (h !! a)).
  { intros a ?. eapply live_elem; [done|]. set_solver. }
  unfold kvs. rewrite length_fmap. induction (concat bss) as [|a l IH]; [done|]. cbn.
  destruct (Hs a) as [e ->]; [set_solver|]. cbn. f_equal. apply IH. set_solver.
Qed.

Lemma Tab_verify h t kv : Tab h t kv → verify h t = Some true.
Proof.
  intros HT. unfold verify. rewrite (each_entry_spec h t kv) by done.
  destruct HT as (bss & fl & Hok & ->). rewrite ofold_count, length_fmap, (kvs_length h t bss fl) by done.
  cbn. rewrite (ok_count _ _ _ _ Hok). by rewrite Z.eqb_refl.
Qed.

(** ** Relinking

    Two heaps with [same_data] differ only in the links of the entries. *)
Definition data (e : HashtableEntry) : Z * Z := (_hash e, _literal e).
Definition same_data (h h' : heap) : Prop := ∀ a, data <$> h !! a = data <$> h' !! a.

#[global] Instance same_data_equiv : Equivalence same_data.
Proof.
  split; [by intros ? ?|intros ?? E a; symmetry; apply E|].
  intros ??? E1 E2 a. etransitivity; [apply E1|apply E2].
Qed.

#[global] Instance kvs_proper : Proper (same_data ==> eq ==> eq) kvs.
Proof.
  intros h h' E l ? <-. unfold kvs. change (data <$> omap (h !!.) l = data <$> omap (h' !!.) l).
  induction l as [|a l IH]; [done|]. cbn. specialize (E a).
  destruct (h !! a), (h' !! a); cbn in *; simplify_eq; [|done]. unfold data in *. congruence.
Qed.

Lemma same_data_insert h a e e' : h !! a = Some e → data e' = data e → same_data h (<[a := e']> h).
Proof.
  intros He E b. destruct (decide (a = b)) as [->|].
  - rewrite lookup_insert_eq, He. cbn. by rewrite E.
  - by rewrite lookup_insert_ne.
Qed.

Lemma same_data_lookup h h' a e : same_data h h' → h !! a = Some e → ∃ e', h' !! a = Some e' ∧ data e' = data e.
Proof. intros E He. specialize (E a). rewrite He in E. destruct (h' !! a) as [e'|]; [|done]. injection E as E1 E2. exists e'. unfold data. by rewrite E1, E2. Qed.

(** Links unchanged on [l]: the chain is unchanged. *)
Lemma chain_same h h' p l : (∀ a, a ∈ l → h' !! a = h !! a) → chain h p l → chain h' p l.
Proof.
  revert p. induction l as [|b l IH]; intros p Hl; [done|]. cbn.
  intros (-> & ? & ? & e & ? & ?). split_and!; [done..|]. exists e.
  rewrite Hl by set_solver. split; [done|]. apply IH; set_solver.
Qed.

Lemma Forall2_chain_same h h' ps ls :
  (∀ a, a ∈ concat ls → h' !! a = h !! a) → Forall2 (chain h) ps ls → Forall2 (chain h') ps ls.
Proof.
  intros Hs HF. induction HF as [|p l ps ls Hc _ IH]; [done|]. cbn in Hs. constructor.
  - eapply chain_same; [|done]. set_solver.
  - apply IH. set_solver.
Qed.

Lemma insert_Permutation_concat (bss : list (list Z)) i l l' :
  bss !! i = Some l → l' ≡ₚ l → concat (<[i := l']> bss) ≡ₚ concat bss.
Proof.
  revert i. induction bss as [|l0 bss IH]; intros [|i] Hi HP; simplify_eq/=; [by rewrite HP|].
  by rewrite (IH i).
Qed.

Lemma NoDup_bucket h t bss fl i l :
  table_ok h t bss fl → bss !! i = Some l →
  NoDup l ∧ (∀ j l' a, bss !! j = Some l' → a ∈ l → a ∈ l' → j = i) ∧ (∀ a, a ∈ l → a ∉ fl).
Proof.
  intros Hok Hl. pose proof (ok_nodup _ _ _ _ Hok) as (Hnd & Hfl & _)%NoDup_app. split_and!.
  - rewrite (concat_middle bss i l Hl) in Hnd. rewrite !NoDup_app in Hnd. naive_solver.
  - intros j l' a Hj Ha Ha'.
    destruct (ok_hash _ _ _ _ Hok i l a Hl Ha) as (e & He & _ & Hx).
    destruct (ok_hash _ _ _ _ Hok j l' a Hj Ha') as (e' & He' & _ & Hx').
    simplify_eq. lia.
  - intros a Ha. apply Hfl. by eapply elem_concat.
Qed.

(** Replacing the chain of one bucket by a permutation of it. *)
Lemma ok_relink h h' t bss fl i l l' q :
  table_ok h t bss fl → bss !! i = Some l → l' ≡ₚ l → same_data h h' →
  (∀ a, a ∉ l → h' !! a = h !! a) → chain h' q l' →
  table_ok h' (upd_buckets t (<[i := q]> (_buckets t))) (<[i := l']> bss) fl.
Proof.
  intros Hok Hl HP Hsd Hout Hc. pose proof Hok as [].
  pose proof (insert_Permutation_concat bss i l l' Hl HP) as HPc.
  destruct (NoDup_bucket h t bss fl i l Hok Hl) as (Hndl & Hdis & Hfr).
  assert (Hin : ∀ a, a ∈ concat (<[i := l']> bss) ++ fl ↔ a ∈ concat bss ++ fl) by (intros; by rewrite HPc).
  split; cbn; try done.
  - by rewrite length_insert.
  - apply Forall2_same_length_lookup. apply Forall2_same_length_lookup in ok_chains0 as [? Hch].
    rewrite !length_insert. split; [done|]. intros j p lj Hp Hlj.
    assert (i < length bss)%nat by by eapply lookup_lt_Some.
    apply list_lookup_insert_Some in Hp as [(-> & <- & _)|(? & Hp)].
    { rewrite list_lookup_insert_eq in Hlj by lia. by simplify_eq. }
    rewrite list_lookup_insert_ne in Hlj by done. eapply chain_same; [|by eapply Hch].
    intros a Ha. apply Hout. intros Ha'. pose proof (Hdis j lj a Hlj Ha' Ha). congruence.
  - eapply chain_same; [|done]. intros a Ha. apply Hout. intros ?. by eapply Hfr.
  - by rewrite HPc.
  - assert (Hb : ∀ j lj a, bss !! j = Some lj → a ∈ lj → in_bucket h' (upd_buckets t (<[i:=q]> (_buckets t))) j a).
    { intros j lj a Hlj Ha. destruct (ok_hash0 j lj a Hlj Ha) as (e & He & ? & ?).
      destruct (same_data_lookup h h' a e Hsd He) as (e' & He' & [= E1 E2]).
      exists e'. split_and!; [done|congruence|]. unfold hash_to_index in *. cbn. congruence. }
    intros j lj a Hlj Ha. apply list_lookup_insert_Some in Hlj as [(-> & <- & _)|(? & Hlj)]; [|by eapply Hb].
    eapply Hb; [done|]. by rewrite <- HP.
  - by rewrite HPc.
  - intros a Ha%Hin. by apply ok_off0.
  - intros a b Ha%Hin Hb%Hin. by apply ok_apart0.
Qed.

(** A loop that rewrites every bucket by [g]. *)
Lemma for_buckets_spec body (g : heap → list Z → list Z) :
  (∀ h h' l, same_data h h' → g h l = g h' l) →
  (∀ h t bss fl i l, table_ok h t bss fl → 0 <= i → bss !! Z.to_nat i = Some l →
     ∃ h' t', body h t i = Some (h', t') ∧ table_ok h' t' (<[Z.to_nat i := g h l]> bss) fl ∧
       same_data h h' ∧ _table_size t' = _table_size t) →
  ∀ n i h t bss fl, table_ok h t bss fl → 0 <= i → i + Z.of_nat n = _table_size t →
  ∃ h' t', for_buckets n i body h t = Some (h', t') ∧
    table_ok h' t' (take (Z.to_nat i) bss ++ (g h <$> drop (Z.to_nat i) bss)) fl ∧ same_data h h'.
Proof.
  intros Hg Hbody n. induction n as [|n IH]; intros i h t bss fl Hok Hi Hn.
  - exists h, t. pose proof (ok_length_bss Hok). split_and!; [done| |done].
    rewrite drop_ge, take_ge by lia. cbn. by rewrite app_nil_r.
  - destruct (ok_bucket Hok i) as (_ & l & _ & Hl & _ & _); [lia|].
    destruct (Hbody h t bss fl i l Hok Hi Hl) as (h1 & t1 & E1 & Hok1 & Hsd & Hts).
    destruct (IH (i + 1) h1 t1 _ fl Hok1) as (h2 & t2 & E2 & Hok2 & Hsd2); [lia|lia|].
    exists h2, t2. split_and!; [by cbn; rewrite E1| |by etransitivity].
    replace (Z.to_nat (i + 1)) with (S (Z.to_nat i)) in Hok2 by lia.
    assert (Z.to_nat i < length bss)%nat by by eapply lookup_lt_Some.
    rewrite drop_insert_lt in Hok2 by lia.
    rewrite (take_S_r _ _ (g h l)) in Hok2 by by apply list_lookup_insert_eq.
    rewrite take_insert_ge in Hok2 by lia. rewrite (drop_S _ l) by done. rewrite fmap_cons.
    rewrite <- app_assoc in Hok2. cbn in Hok2.
    erewrite list_fmap_ext; [exact Hok2|]. intros. by apply Hg.
Qed.

(** Pushing the entry at [a] in front of the chain at [q]. *)
Lemma push_spec h a e q :
  h !! a = Some e → a ≠ NULL → Z.Even a → Z.Even q → let h1 := <[a := set_next e q]> h in
  same_data h h1 ∧ (∀ p l, a ∉ l → chain h p l → chain h1 p l) ∧
  (∀ l, a ∉ l → chain h q l → chain h1 a (a :: l)).
Proof.
  intros He ? ? Hq h1. split_and!; [by eapply same_data_insert|intros; by apply chain_frame|].
  intros l ? ?. cbn. split_and!; [done..|]. exists (set_next e q). unfold h1. rewrite lookup_insert_eq.
  split; [done|]. unfold next. cbn. rewrite make_ptr_even by done. by apply chain_frame.
Qed.

Lemma reverse_loop_spec fuel h p l acc q :
  chain h p l → chain h q acc → NoDup (l ++ acc) → (length l <= fuel)%nat →
  ∃ h' q', reverse_loop fuel h p q = Some (h', q') ∧ chain h' q' (rev l ++ acc) ∧
    same_data h h' ∧ ∀ a, a ∉ l → h' !! a = h !! a.
Proof.
  revert h p l acc q. induction fuel as [|fuel IH]; intros h p [|a l] acc q Hc Hacc Hnd Hf; cbn in Hf; try lia.
  1-2: cbn in Hc; subst; exists h, q; done.
  destruct Hc as (-> & Ha0 & Hev & e & He & Hc). apply NoDup_cons in Hnd as [Hna Hnd].
  assert (Z.Even q) by by eapply chain_even.
  cbn [reverse_loop]. rewrite (proj2 (Z.eqb_neq a NULL)) by done. rewrite He. cbn [mbind option_bind].
  destruct (push_spec h a e q) as (Hsd & Hfr & Hcons); [done..|].
  destruct (IH (<[a := set_next e q]> h) (next e) l (a :: acc) a) as (h' & q' & E & Hc' & Hsd' & Hout);
    [apply Hfr; [set_solver|done]|apply Hcons; [set_solver|done]
    |rewrite <- Permutation_middle; by apply NoDup_cons|lia|].
  exists h', q'. cbn. rewrite <- app_assoc. split_and!; [done|done|by etransitivity|].
  intros b Hb. rewrite Hout by set_solver. apply lookup_insert_ne. set_solver.
Qed.

Lemma set_entry_spec t i q p :
  bucket t i = Some p → set_entry t i q = Some (upd_buckets t (<[Z.to_nat i := q]> (_buckets t))).
Proof. intros E. unfold set_entry. by rewrite E. Qed.

Lemma bucket_of_chain h t bss fl i l :
  table_ok h t bss fl → 0 <= i → bss !! Z.to_nat i = Some l →
  ∃ p, bucket t i = Some p ∧ chain h p l ∧ NoDup l ∧ (length l <= size h)%nat.
Proof.
  intros Hok Hi Hl. destruct (ok_bucket Hok i) as (p & l' & Hp & Hl' & Hc & Hnd).
  - pose proof (lookup_lt_Some _ _ _ Hl). rewrite (ok_length_bss Hok) in *. lia.
  - simplify_eq. eauto 10 using chain_length.
Qed.

Lemma reverse_bucket_spec h t bss fl i l :
  table_ok h t bss fl → 0 <= i → bss !! Z.to_nat i = Some l →
  ∃ h' t', reverse_bucket h t i = Some (h', t') ∧ table_ok h' t' (<[Z.to_nat i := rev l]> bss) fl ∧
    same_data h h' ∧ _table_size t' = _table_size t.
Proof.
  intros Hok Hi Hl. destruct (bucket_of_chain h t bss fl i l Hok Hi Hl) as (p & Hp & Hc & Hnd & Hlen).
  destruct (reverse_loop_spec (S (size h)) h p l [] NULL) as (h' & q & E & Hc' & Hsd & Hout);
    [done|done|by rewrite app_nil_r|lia|].
  unfold reverse_bucket. rewrite Hp. cbn [mbind option_bind]. rewrite E. cbn [mbind option_bind].
  rewrite (set_entry_spec _ _ _ _ Hp). cbn. eexists _, _. split_and!; [done| |done|done].
  eapply ok_relink; try done; [symmetry; apply Permutation_rev|by rewrite app_nil_r in Hc'].
Qed.

(** [reverse(boundary)] puts the entries below the boundary first, each part
    in reverse order. *)
Definition below (boundary : Z) (h : heap) (a : Z) : bool :=
  match h !! a with Some e => _literal e <? boundary | None => false end.
Definition boundary_order (boundary : Z) (h : heap) (l : list Z) : list Z :=
  rev (List.filter (below boundary h) l) ++ rev (List.filter (λ a, negb (below boundary h a)) l).

Lemma below_same boundary h h' a : same_data h h' → below boundary h a = below boundary h' a.
Proof.
  intros E. unfold below. specialize (E a). unfold data in E.
  destruct (h !! a), (h' !! a); cbn in E; congruence.
Qed.

Lemma filter_below_same boundary h h' l :
  same_data h h' →
  List.filter (below boundary h) l = List.filter (below boundary h') l ∧
  List.filter (λ a, negb (below boundary h a)) l = List.filter (λ a, negb (below boundary h' a)) l.
Proof.
  intros E. split; apply filter_ext; intros a; by rewrite (below_same _ _ _ a E).
Qed.

Lemma boundary_order_same boundary h h' l :
  same_data h h' → boundary_order boundary h l = boundary_order boundary h' l.
Proof. intros [E1 E2]%(filter_below_same boundary _ _ l). unfold boundary_order. by rewrite E1, E2. Qed.

Lemma boundary_order_Permutation boundary h l : boundary_order boundary h l ≡ₚ l.
Proof.
  unfold boundary_order. rewrite <- !Permutation_rev. induction l as [|a l IH]; [done|]. cbn.
  destruct (below boundary h a); cbn; [by rewrite IH|]. by rewrite <- Permutation_middle, IH.
Qed.

(** The loop of [reverse(boundary)]: [hs]/[ls] are the high and low lists
    built so far; the first low entry stays last in its list. *)
Lemma reverse_boundary_loop_spec fuel boundary h p l hq hs lq ls last :
  chain h p l → chain h hq hs → chain h lq ls → NoDup (l ++ hs ++ ls) →
  last = default NULL (list.last ls) → (length l <= fuel)%nat →
  ∃ h' hq' lq' last', reverse_boundary_loop fuel h boundary p hq lq last = Some (h', hq', lq', last') ∧
    let hs' := rev (List.filter (λ a, negb (below boundary h a)) l) ++ hs in
    let ls' := rev (List.filter (below boundary h) l) ++ ls in
    chain h' hq' hs' ∧ chain h' lq' ls' ∧ last' = default NULL (list.last ls') ∧
    same_data h h' ∧ ∀ a, a ∉ l → h' !! a = h !! a.
Proof.
  revert h p l hq hs lq ls last.
  induction fuel as [|fuel IH]; intros h p [|a l] hq hs lq ls last Hc Hh Hl Hnd Hlast Hf; cbn in Hf; try lia.
  1-2: cbn in Hc; subst p; exists h, hq, lq, last; done.
  destruct Hc as (-> & Ha0 & Hev & e & He & Hc). cbn [app] in Hnd. apply NoDup_cons in Hnd as [Hna Hnd].
  assert (Hb : below boundary h a = negb (_literal e >=? boundary)).
  { unfold below. rewrite He. rewrite Z.geb_leb. by rewrite Z.leb_antisym, negb_involutive. }
  cbn [reverse_boundary_loop List.filter]. rewrite (proj2 (Z.eqb_neq a NULL)) by done.
  rewrite He. cbn [mbind option_bind]. rewrite Hb, negb_involutive.
  destruct (_literal e >=? boundary); cbn [negb rev].
  - destruct (push_spec h a e hq) as (Hsd & Hfr & Hcons); [done..|by eapply chain_even|].
    destruct (IH (<[a := set_next e hq]> h) (next e) l a (a :: hs) lq ls last)
      as (h' & hq' & lq' & last' & E & Hh' & Hl' & -> & Hsd' & Hout);
      [apply Hfr; [set_solver|done]|apply Hcons; [set_solver|done]|apply Hfr; [set_solver|done]
      |cbn; rewrite <- Permutation_middle; by apply NoDup_cons|done|lia|].
    destruct (filter_below_same boundary _ _ l Hsd) as [-> ->].
    eexists h', hq', lq', _. rewrite <- app_assoc. cbn. split_and!; [done..|by etransitivity|].
    intros b Hb'. rewrite Hout by set_solver. apply lookup_insert_ne. set_solver.
  - destruct (push_spec h a e lq) as (Hsd & Hfr & Hcons); [done..|by eapply chain_even|].
    destruct (IH (<[a := set_next e lq]> h) (next e) l hq hs a (a :: ls)
        (if last =? NULL then a else last))
      as (h' & hq' & lq' & last' & E & Hh' & Hl' & -> & Hsd' & Hout);
      [apply Hfr; [set_solver|done]|apply Hfr; [set_solver|done]|apply Hcons; [set_solver|done]
      |rewrite (app_assoc l), <- Permutation_middle, <- app_assoc; by apply NoDup_cons| |lia|].
    { subst last. destruct ls as [|x ls]; [done|]. rewrite last_cons_cons.
      destruct (last_is_Some (x :: ls)) as [_ [y Hy]]; [done|]. rewrite Hy. cbn.
      apply last_Some_elem_of in Hy. destruct (chain_elem _ _ _ y Hl Hy) as [? _].
      by rewrite (proj2 (Z.eqb_neq y NULL)). }
    destruct (filter_below_same boundary _ _ l Hsd) as [-> ->].
    eexists h', hq', lq', _. rewrite <- app_assoc. cbn. split_and!; [done..|by etransitivity|].
    intros b Hb'. rewrite Hout by set_solver. apply lookup_insert_ne. set_solver.
Qed.

(** Linking the last entry of one chain to the head of another. *)
Lemma chain_append h p l q l' z e :
  chain h p l → chain h q l' → NoDup (l ++ l') → last l = Some z → h !! z = Some e →
  chain (<[z := set_next e q]> h) p (l ++ l').
Proof.
  intros Hc Hc' Hnd Hz He. revert p Hc. induction l as [|a l IH]; intros p Hc; [done|].
  cbn [app] in Hnd. apply NoDup_cons in Hnd as [Hna Hnd].
  destruct Hc as (-> & ? & ? & ea & Hea & Hc). cbn. split_and!; [done..|].
  destruct l as [|b l].
  - cbn in Hz. simplify_eq. cbn in *. exists (set_next e q). rewrite lookup_insert_eq. split; [done|].
    unfold next at 1. cbn. rewrite make_ptr_even by by eapply chain_even.
    apply chain_frame; [set_solver|done].
  - rewrite last_cons_cons in Hz. exists ea. split; [|by apply IH].
    rewrite lookup_insert_ne; [done|]. intros ->. apply last_Some_elem_of in Hz. set_solver.
Qed.

Lemma reverse_boundary_bucket_spec boundary h t bss fl i l :
  table_ok h t bss fl → 0 <= i → bss !! Z.to_nat i = Some l →
  ∃ h' t', reverse_boundary_bucket h t boundary i = Some (h', t') ∧
    table_ok h' t' (<[Z.to_nat i := boundary_order boundary h l]> bss) fl ∧
    same_data h h' ∧ _table_size t' = _table_size t.
Proof.
  intros Hok Hi Hl. destruct (bucket_of_chain h t bss fl i l Hok Hi Hl) as (p & Hp & Hc & Hnd & Hlen).
  pose proof (boundary_order_Permutation boundary h l) as HP.
  destruct (reverse_boundary_loop_spec (S (size h)) boundary h p l NULL [] NULL [] NULL)
    as (h' & hq & lq & lst & E & Hh & Hlo & Hlast & Hsd & Hout); [done..|by rewrite app_nil_r|done|lia|].
  cbn zeta in Hh, Hlo, Hlast. rewrite !app_nil_r in *. unfold boundary_order in *.
  set (ls := rev (List.filter (below boundary h) l)) in *. set (hs := rev (List.filter _ l)) in *.
  unfold reverse_boundary_bucket. rewrite Hp. cbn [mbind option_bind]. rewrite E. cbn [mbind option_bind].
  rewrite !(set_entry_spec _ _ _ _ Hp).
  destruct (Z.eqb_spec lq NULL) as [->|Hlq]; cbn.
  - eexists _, _. split_and!; [done| |done|done]. apply chain_NULL in Hlo. rewrite Hlo in HP |- *.
    by eapply ok_relink.
  - destruct (last ls) as [z|] eqn:Hz; [|apply last_None in Hz; rewrite Hz in Hlo; by cbn in Hlo].
    cbn in Hlast. subst lst. pose proof (last_Some_elem_of _ _ Hz) as Hzl.
    destruct (chain_elem _ _ _ z Hlo Hzl) as (_ & _ & [e He]). rewrite He. cbn.
    eexists _, _. split_and!; [done| |by etransitivity; [|eapply same_data_insert]|done].
    assert (z ∈ l) by (rewrite <- HP; set_solver).
    eapply (ok_relink h); try done.
    + by etransitivity; [|eapply same_data_insert].
    + intros a Ha. rewrite lookup_insert_ne by set_solver. by apply Hout.
    + eapply chain_append; try done. by rewrite HP.
Qed.

(** ** Moving to another table *)

Lemma ok_same_next h t bss fl a e e' :
  table_ok h t bss fl → h !! a = Some e → next e' = next e → data e' = data e →
  table_ok (<[a := e']> h) t bss fl.
Proof.
  intros Hok He Hn Hd. pose proof Hok as []. split; try done.
  - eapply Forall2_impl; [done|]. intros p l Hc. apply chain_insert; [|done]. eauto.
  - apply chain_insert; [|done]. eauto.
  - intros i l b Hl Hb. destruct (ok_hash0 i l b Hl Hb) as (eb & Heb & ? & ?).
    destruct (decide (a = b)) as [->|].
    + simplify_eq. exists e'. by rewrite lookup_insert_eq, Hd.
    + exists eb. by rewrite lookup_insert_ne.
Qed.

Lemma make_ptr_shared p : make_ptr (p ||| 1) = make_ptr p.
Proof.
  unfold make_ptr. rewrite Z.land_lor_distr_l. change (1 &&& -2) with 0. apply Z.lor_0_r.
Qed.

(** While [R] is still to be moved: the new table holds [bss'], has an empty
    free list and block, and nothing overlaps. *)
Record moving (h : heap) (t' : BasicHashtable) (bss' : list (list Z)) (R : list Z) : Prop := {
  mv_ok : table_ok h t' bss' [];
  mv_nodup : NoDup (concat bss' ++ R);
  mv_apart : ∀ a b, a ∈ concat bss' ++ R → b ∈ concat bss' ++ R → a ≠ b → apart (_entry_size t') a b;
  mv_free : _free_list t' = NULL ∧ _first_free_entry t' = NULL ∧ _end_block t' = NULL }.

(** Moving one entry, given its new hash. *)
Lemma move_entry_step h t' bss' R a e hv (keep : bool) :
  moving h t' bss' (a :: R) → h !! a = Some e → a ≠ NULL → Z.Even a → 0 <= hv →
  let h0 := <[a := set_next (set_hash e hv) NULL]> h in
  ∃ h1 t1' e1 bss1', add_entry h0 t' (hash_to_index t' hv) a = Some (h1, t1') ∧ h1 !! a = Some e1 ∧
    let h2 := if keep then <[a := set_shared e1]> h1 else h1 in
    moving h2 t1' bss1' R ∧ concat bss1' ≡ₚ a :: concat bss' ∧
    kvs h2 (concat bss1') ≡ₚ (hv, _literal e) :: kvs h (concat bss') ∧
    (∀ b, b ≠ a → h2 !! b = h !! b) ∧
    _table_size t1' = _table_size t' ∧ _entry_size t1' = _entry_size t'.
Proof.
  intros [Hok Hnd Hap (Hfl & Hff & Heb)] He Ha0 Hev Hhv h0. set (e0 := set_next (set_hash e hv) NULL) in *.
  assert (Ha : a ∉ concat bss' ++ []).
  { rewrite app_nil_r. apply NoDup_app in Hnd. set_solver. }
  pose proof (ok_heap_frame Hok a e0 Ha) as Hok0.
  assert (Hdet : detached h0 t' bss' [] a).
  { split; [done|left; rewrite Hff, Heb; lia|]. intros b Hb. apply Hap; [set_solver..|]. intros ->. set_solver. }
  assert (He0 : h0 !! a = Some e0) by apply lookup_insert_eq.
  pose proof (index_range Hok0 hv) as Hi. destruct (ok_bucket Hok0 _ Hi) as (p & l & Hp & Hl & _).
  destruct (add_entry_ok h0 t' bss' [] a e0 l Hok0 Hdet Ha He0 Hhv Hl) as (t1' & b & Hb & E & Hok1 & Hts).
  destruct (kvs_insert h0 t' bss' [] a e0 b _ l Hok0 ltac:(set_solver) Hl) as [HPk _]; [cbn; lia|].
  replace (kvs h0 (concat bss')) with (kvs h (concat bss')) in HPk by (symmetry; apply kvs_frame; set_solver).
  pose proof (concat_insert_Permutation bss' _ l a Hl) as HPc.
  change (_hash e0) with hv in *.
  set (bss1' := <[Z.to_nat (hash_to_index t' hv):=a :: l]> bss') in *.
  set (h1 := <[a := set_next e0 b]> h0) in *.
  assert (He1 : h1 !! a = Some (set_next e0 b)) by apply lookup_insert_eq.
  assert (Ht1 : t1' = upd_count (upd_buckets t' (<[Z.to_nat (hash_to_index t' hv) := a]> (_buckets t')))
                        (_number_of_entries t' + 1)).
  { unfold add_entry, set_entry in E. rewrite He0, Hb in E. cbn in E. congruence. }
  exists h1, t1', (set_next e0 b), bss1'. split_and!; [done..|].
  assert (Hsd : same_data h1 (if keep then <[a := set_shared (set_next e0 b)]> h1 else h1)).
  { destruct keep; [by eapply same_data_insert|done]. }
  cbv zeta. split_and!; [|done| | |done|by rewrite Ht1].
  - split; [| | |by rewrite Ht1].
    + destruct keep; [|done]. eapply ok_same_next; [done..| |done]. unfold next. cbn. apply make_ptr_shared.
    + rewrite HPc. cbn. by rewrite Permutation_middle.
    + intros x y Hx Hy. replace (_entry_size t1') with (_entry_size t') by by rewrite Ht1.
      apply Hap; revert Hx Hy; rewrite HPc; set_solver.
  - rewrite <- Hsd. exact HPk.
  - intros c Hc. transitivity (h1 !! c); [destruct keep; [by apply lookup_insert_ne|done]|].
    unfold h1, h0. by rewrite !lookup_insert_ne.
Qed.

Section move.
Variable new_hash : Z → Z → Z.
Variable seed : Z.
Hypothesis new_hash_nonneg : ∀ v, 0 <= new_hash v seed.

Definition rehash (kv : Z * Z) : Z * Z := (new_hash kv.2 seed, kv.2).

Lemma move_bucket_spec fuel h t t' p l bss' R :
  moving h t' bss' (l ++ R) → chain h p l → (length l <= fuel)%nat →
  ∃ h1 t1' bss1',
    move_bucket fuel new_hash seed h t t' p =
      Some (h1, upd_count t (_number_of_entries t - Z.of_nat (length l)), t1') ∧
    moving h1 t1' bss1' R ∧ concat bss1' ≡ₚ l ++ concat bss' ∧
    kvs h1 (concat bss1') ≡ₚ (rehash <$> kvs h l) ++ kvs h (concat bss') ∧
    (∀ b, b ∉ l → h1 !! b = h !! b) ∧
    _table_size t1' = _table_size t' ∧ _entry_size t1' = _entry_size t'.
Proof.
  revert h t t' p l bss'. induction fuel as [|fuel IH]; intros h t t' p [|a l] bss' Hm Hc Hf; cbn in Hf; try lia.
  1-2: cbn in Hc; subst p; exists h, t', bss'; cbn; rewrite Z.sub_0_r; by destruct t.
  destruct Hc as (-> & Ha0 & Hev & e & He & Hc). cbn [app] in Hm.
  destruct (move_entry_step h t' bss' (l ++ R) a e (new_hash (_literal e) seed) (is_shared e) Hm He Ha0 Hev)
    as (h1 & t1' & e1 & bss1 & E & He1 & Hm1 & HP1 & HK1 & Hout1 & Hts1 & Hes1); [done|].
  cbn [move_bucket]. rewrite (proj2 (Z.eqb_neq a NULL)) by done. rewrite He. cbn [mbind option_bind].
  unfold unlink_entry. rewrite lookup_insert_eq. cbn [mbind option_bind]. rewrite insert_insert_eq, E.
  cbn [mbind option_bind]. rewrite He1. cbn [mbind option_bind].
  set (h2 := if is_shared e then _ else _) in *.
  assert (Hal : a ∉ l).
  { destruct Hm as [_ Hnd _ _]. apply NoDup_app in Hnd as (_ & _ & [? _]%NoDup_cons). set_solver. }
  destruct (IH h2 (upd_count t (_number_of_entries t - 1)) t1' (next e) l bss1 Hm1)
    as (h3 & t3' & bss3 & E3 & Hm3 & HP3 & HK3 & Hout3 & Hts3 & Hes3); [|lia|].
  { eapply chain_same; [|exact Hc]. intros b Hb. apply Hout1. set_solver. }
  exists h3, t3', bss3. split_and!; [|done| | | |congruence|congruence].
  - rewrite E3. unfold upd_count. cbn. do 4 f_equal. lia.
  - rewrite HP3, HP1. symmetry. apply Permutation_middle.
  - rewrite HK3, HK1, (kvs_cons _ _ _ _ He), (kvs_same h h2) by (intros; apply Hout1; set_solver).
    symmetry. apply Permutation_middle.
  - intros b Hb. rewrite Hout3, Hout1; set_solver.
Qed.

Lemma move_buckets_spec n i h t t' bss bss' R :
  0 <= i → i + Z.of_nat n = Z.of_nat (length bss) →
  Forall2 (chain h) (drop (Z.to_nat i) (_buckets t)) (drop (Z.to_nat i) bss) →
  moving h t' bss' (concat (drop (Z.to_nat i) bss) ++ R) →
  ∃ h1 t1' bss1', let l := concat (drop (Z.to_nat i) bss) in
    move_buckets n i new_hash seed h t t' =
      Some (h1, upd_count t (_number_of_entries t - Z.of_nat (length l)), t1') ∧
    moving h1 t1' bss1' R ∧ concat bss1' ≡ₚ l ++ concat bss' ∧
    kvs h1 (concat bss1') ≡ₚ (rehash <$> kvs h l) ++ kvs h (concat bss') ∧
    (∀ b, b ∉ l → h1 !! b = h !! b) ∧
    _table_size t1' = _table_size t' ∧ _entry_size t1' = _entry_size t'.
Proof.
  revert i h t t' bss'. induction n as [|n IH]; intros i h t t' bss' Hi Hn Hch Hm.
  { rewrite drop_ge in * by lia. exists h, t', bss'. cbn. rewrite Z.sub_0_r. by destruct t. }
  destruct (lookup_lt_is_Some_2 bss (Z.to_nat i)) as [l Hl]; [lia|].
  rewrite (drop_S bss l) in * by done. apply Forall2_cons_inv_r in Hch as (p & ps & Hc & Hch & Hps).
  assert (Hp : _buckets t !! Z.to_nat i = Some p).
  { rewrite <- (Nat.add_0_r (Z.to_nat i)), <- lookup_drop, Hps. done. }
  assert (ps = drop (S (Z.to_nat i)) (_buckets t)) as ->.
  { rewrite (drop_S _ p) in Hps by done. by injection Hps. }
  cbn [concat] in Hm. rewrite <- app_assoc in Hm.
  assert (Hnd : NoDup (l ++ concat (drop (S (Z.to_nat i)) bss) ++ R)).
  { destruct Hm as [_ Hnd _ _]. by apply NoDup_app in Hnd as (_ & _ & ?). }
  assert (length l <= size h)%nat.
  { eapply chain_length; [done|]. by apply NoDup_app in Hnd as (? & _). }
  destruct (move_bucket_spec (S (size h)) h t t' p l bss' _ Hm Hc)
    as (h1 & t1' & bss1 & E1 & Hm1 & HP1 & HK1 & Hout1 & Hts1 & Hes1); [lia|].
  replace (S (Z.to_nat i)) with (Z.to_nat (i + 1)) in * by lia.
  destruct (IH (i + 1) h1 (upd_count t (_number_of_entries t - Z.of_nat (length l))) t1' bss1)
    as (h2 & t2' & bss2 & E2 & Hm2 & HP2 & HK2 & Hout2 & Hts2 & Hes2); [lia|lia| |done|].
  { cbn. eapply Forall2_chain_same; [|done]. intros a Ha. apply Hout1. apply NoDup_app in Hnd. set_solver. }
  exists h2, t2', bss2. cbn [concat]. split_and!; [|done| | | |congruence|congruence].
  - cbn [move_buckets]. unfold bucket. rewrite Hp. cbn [mbind option_bind]. rewrite E1.
    cbn [mbind option_bind]. rewrite E2. unfold upd_count. cbn. rewrite length_app. do 4 f_equal. lia.
  - rewrite HP2, HP1. rewrite !app_assoc. f_equiv. apply Permutation_app_comm.
  - rewrite HK2, HK1, kvs_app, fmap_app, (kvs_same h h1).
    + rewrite !app_assoc. f_equiv. apply Permutation_app_comm.
    + intros a Ha. apply Hout1. apply NoDup_app in Hnd. set_solver.
  - intros b Hb. rewrite Hout2, Hout1; set_solver.
Qed.

(** The new table takes over free list and block. *)
Lemma finish_move h h' t t' bss bss' fl :
  table_ok h t bss fl → moving h' t' bss' fl → concat bss' ≡ₚ concat bss →
  _entry_size t' = _entry_size t → chain h' (_free_list t) fl →
  table_ok h' (copy_freelist t' t).1 bss' fl.
Proof.
  intros Hok [Hok' Hnd Hap _] HP Hes Hfl. pose proof (ok_off _ _ _ _ Hok) as Hoff.
  pose proof (ok_block _ _ _ _ Hok). destruct Hok'. split; try done.
  intros a. rewrite HP. intros Ha%Hoff. unfold off_block in *. cbn. by rewrite Hes.
Qed.

(** [move_to] a fresh table of the same size moves every entry: it never
    faults, the new table is well formed, takes over the free list and the
    block, and holds exactly the old literals under their new hashes; the old
    table is left empty. *)
Theorem move_to_rehashes h t kv :
  Tab h t kv →
  ∃ h' t1 t2 kv',
    move_to new_hash seed h t (new_table (_table_size t) (_entry_size t)) = Some (h', t1, t2) ∧
    Tab h' t2 kv' ∧ kv' ≡ₚ (rehash <$> kv) ∧
    _number_of_entries t1 = 0 ∧ _number_of_entries t2 = _number_of_entries t ∧
    _free_list t2 = _free_list t ∧ _first_free_entry t2 = _first_free_entry t ∧ _end_block t2 = _end_block t.
Proof.
  intros (bss & fl & Hok & ->). pose proof Hok as [].
  pose proof (ok_length_bss Hok) as Hlen. set (t0 := new_table _ _).
  destruct (move_buckets_spec (Z.to_nat (_table_size t)) 0 h t t0 bss (replicate (length bss) []) fl)
    as (h1 & t1 & bss1 & E & Hm & HP & HK & Hout & Hts & Hes); [lia|lia|done| |].
  { rewrite Hlen. split; rewrite ?concat_replicate_nil; [apply new_table_ok; tauto|done..]. }
  cbn [Z.to_nat] in *. rewrite drop_0, concat_replicate_nil, app_nil_r in *.
  unfold move_to. change (_table_size t0) with (_table_size t). rewrite E. cbn.
  eexists _, _, _, _. split_and!; [done|eexists bss1, fl; split; [|done]|done|cbn; lia| |done..].
  - apply (finish_move h h1 t t1 bss); try done.
    eapply chain_same; [|done]. intros a Ha. apply Hout. apply NoDup_app in ok_nodup0. set_solver.
  - cbn. rewrite (ok_count _ _ _ _ (mv_ok _ _ _ _ Hm)), ok_count0. by rewrite HP.
Qed.

End move.

(** ** A concrete table: four buckets, entries with hashes 9 and 5 in bucket
    1, one free entry. *)

Definition demo_heap : heap :=
  <[1024 := mkEntry 5 NULL 4000]> (<[1048 := mkEntry 9 1024 4016]> (<[1072 := mkEntry 7 NULL 4032]> ∅)).
Definition demo_table : BasicHashtable := mkTable 4 [0; 1048; 0; 0] 1072 1096 1280 24 2.
Definition demo_kv : list (Z * Z) := [(9, 4016); (5, 4000)].

Lemma demo_ok : table_ok demo_heap demo_table [[]; [1048; 1024]; []; []] [1072].
Proof.
  assert (Hev : Z.Even 1048 ∧ Z.Even 1024 ∧ Z.Even 1072 ∧ Z.Even 1096 ∧ Z.Even 24).
  { split_and!; [by exists 524|by exists 512|by exists 536|by exists 548|by exists 12]. }
  destruct Hev as (? & ? & ? & ? & ?).
  split; cbn; try done.
  - constructor; [done|]. constructor; [|by repeat constructor]. cbn. split_and!; [done..|].
    eexists; split; [reflexivity|]. split_and!; [done..|]. eexists; split; reflexivity.
  - split_and!; [done..|]. eexists; split; reflexivity.
  - repeat constructor; set_solver.
  - intros i l a Hi Ha. repeat (destruct i as [|i]; [injection Hi as <-|]); try by apply elem_of_nil in Ha.
    + repeat (apply elem_of_cons in Ha as [->|Ha]; [eexists; split; [reflexivity|done]|]).
      by apply elem_of_nil in Ha.
    + done.
  - intros a Ha. unfold off_block. cbn. set_unfold. lia.
  - intros a b Ha Hb ?. unfold apart. set_unfold. lia.
Qed.

Lemma demo_Tab : Tab demo_heap demo_table demo_kv.
Proof. eexists _, _. split; [exact demo_ok|reflexivity]. Qed.

(** A new entry added for a hash is what the bucket loop finds for that
    hash from then on; every other hash is looked up as before, the entry
    count grows by one and no two entries overlap in memory, whether the
    entry came from the free list, the current block or a new block. *)
Theorem insert_then_lookup h t kv blk raw k v :
  Tab h t kv → 0 <= k → fresh_for h t blk →
  ∃ a h1 t1 h2 t2 kv', new_entry blk raw h t k v = Some (a, h1, t1) ∧
    add_entry h1 t1 (hash_to_index t1 k) a = Some (h2, t2) ∧ Tab h2 t2 kv' ∧
    _number_of_entries t2 = _number_of_entries t + 1 ∧
    ∀ k', ∃ p, bucket t2 (hash_to_index t2 k') = Some p ∧
      (p = NULL → assoc k' kv' = None) ∧
      (p ≠ NULL → ∃ e, walk (S (size h2)) h2 p k' = Some e ∧
        (if _hash e =? k' then Some (_literal e) else None) =
          if k =? k' then Some v else assoc k' kv).
Proof.
  intros HT Hk Hf.
  destruct (Tab_insert h t kv blk raw k v HT Hk Hf)
    as (a & h1 & t1 & h2 & t2 & kv' & E1 & E2 & HT2 & HP & HA & _).
  exists a, h1, t1, h2, t2, kv'. split_and!; [done..| |].
  - destruct HT as (bss & fl & Hok & ->), HT2 as (bss' & fl' & Hok' & ->).
    rewrite (ok_count _ _ _ _ Hok), (ok_count _ _ _ _ Hok').
    rewrite <- (kvs_length h t bss fl), <- (kvs_length h2 t2 bss' fl') by done.
    rewrite HP. cbn. lia.
  - intros k'. rewrite <- HA. by apply Tab_walk.
Qed.

Lemma insert_then_lookup_witness :
  ∃ a h1 t1 h2 t2 kv', new_entry 8192 (mkEntry 0 0 0) demo_heap demo_table 13 4048 = Some (a, h1, t1) ∧
    add_entry h1 t1 (hash_to_index t1 13) a = Some (h2, t2) ∧ Tab h2 t2 kv' ∧
    _number_of_entries t2 = 3 ∧
    ∀ k', ∃ p, bucket t2 (hash_to_index t2 k') = Some p ∧
      (p = NULL → assoc k' kv' = None) ∧
      (p ≠ NULL → ∃ e, walk (S (size h2)) h2 p k' = Some e ∧
        (if _hash e =? k' then Some (_literal e) else None) =
          if 13 =? k' then Some 4048 else assoc k' demo_kv).
Proof.
  apply (insert_then_lookup demo_heap demo_table demo_kv 8192 (mkEntry 0 0 0) 13 4048); [exact demo_Tab|lia|].
  split_and!; [lia|by exists 4096|]. intros a [e He]. left.
  assert (a ∈ [1024; 1048; 1072]) as Ha.
  { unfold demo_heap in He. rewrite !lookup_insert_Some in He. set_solver. }
  cbn. set_unfold. lia.
Defined.

(** [reverse] never faults and reverses the entries of every bucket,
    leaving hashes, literals, the free list and the invariant unchanged. *)
Theorem reverse_reverses h t bss fl :
  table_ok h t bss fl →
  ∃ h' t', reverse h t = Some (h', t') ∧ table_ok h' t' (@rev Z <$> bss) fl ∧ same_data h h'.
Proof.
  intros Hok. pose proof (ok_size _ _ _ _ Hok).
  exact (for_buckets_spec reverse_bucket (λ _, @rev Z) (λ _ _ _ _, eq_refl) reverse_bucket_spec
    (Z.to_nat (_table_size t)) 0 h t bss fl Hok ltac:(lia) ltac:(lia)).
Qed.

Lemma reverse_reverses_witness :
  ∃ h' t', reverse demo_heap demo_table = Some (h', t') ∧
    table_ok h' t' [[]; [1024; 1048]; []; []] [1072] ∧ same_data demo_heap h'.
Proof. exact (reverse_reverses demo_heap demo_table [[]; [1048; 1024]; []; []] [1072] demo_ok). Defined.

(** [reverse(boundary)] never faults; in every bucket the entries whose
    literal is below the boundary come first, then the others, each part in
    reverse order. *)
Theorem reverse_boundary_partitions boundary h t bss fl :
  table_ok h t bss fl →
  ∃ h' t', reverse_boundary h t boundary = Some (h', t') ∧
    table_ok h' t' (boundary_order boundary h <$> bss) fl ∧ same_data h h'.
Proof.
  intros Hok. pose proof (ok_size _ _ _ _ Hok).
  exact (for_buckets_spec (λ h t i, reverse_boundary_bucket h t boundary i) (boundary_order boundary)
    (boundary_order_same boundary) (reverse_boundary_bucket_spec boundary)
    (Z.to_nat (_table_size t)) 0 h t bss fl Hok ltac:(lia) ltac:(lia)).
Qed.

Lemma reverse_boundary_partitions_witness :
  ∃ h' t', reverse_boundary demo_heap demo_table 4010 = Some (h', t') ∧
    table_ok h' t' [[]; [1024; 1048]; []; []] [1072] ∧ same_data demo_heap h'.
Proof.
  exact (reverse_boundary_partitions 4010 demo_heap demo_table [[]; [1048; 1024]; []; []] [1072] demo_ok).
Defined.

Lemma move_to_rehashes_witness :
  ∃ h' t1 t2 kv',
    move_to (λ v seed, u32 (v + seed)) 3 demo_heap demo_table (new_table 4 24) = Some (h', t1, t2) ∧
    Tab h' t2 kv' ∧ kv' ≡ₚ [(4019, 4016); (4003, 4000)] ∧
    _number_of_entries t1 = 0 ∧ _number_of_entries t2 = 2 ∧
    _free_list t2 = 1072 ∧ _first_free_entry t2 = 1096 ∧ _end_block t2 = 1280.
Proof.
  apply (move_to_rehashes (λ v seed, u32 (v + seed)) 3 (λ v, proj1 (u32_range (v + 3)))
    demo_heap demo_table demo_kv demo_Tab).
Defined.

(** A freed entry is recycled: after [free_entry] on an unlinked entry
    the next [new_entry] returns that address, without touching the block,
    and the table is well formed again. *)
Theorem free_entry_recycled h t bss fl a e blk raw k v :
  table_ok h (upd_count t (_number_of_entries t - 1)) bss fl →
  detached h t bss fl a → (a ∉ concat bss ++ fl) → h !! a = Some e →
  ∃ h1 t1 h2 t2, free_entry h t a = Some (h1, t1) ∧ table_ok h1 t1 bss (a :: fl) ∧
    new_entry blk raw h1 t1 k v = Some (a, h2, t2) ∧ table_ok h2 t2 bss fl ∧
    _first_free_entry t2 = _first_free_entry t ∧ h2 !! a = Some (mkEntry k (_free_list t) v).
Proof.
  intros Hok Hdet Ha He.
  assert (Hfree : Z.Even (_free_list t)) by (eapply chain_even, (ok_free _ _ _ _ Hok)).
  set (h1 := <[a := set_next e (_free_list t)]> h).
  set (t1 := upd_count (upd_free_list t a) (_number_of_entries t - 1)).
  assert (Hok1 : table_ok h1 t1 bss (a :: fl)).
  { pose proof (ok_heap_frame Hok a (set_next e (_free_list t)) Ha) as [].
    destruct Hdet as [[? ?] ? Hap]. split; try done.
    - cbn. split_and!; [done..|]. eexists. split; [apply lookup_insert_eq|].
      unfold next. cbn. by rewrite make_ptr_even.
    - rewrite <- Permutation_middle. by apply NoDup_cons.
    - intros b. rewrite <- Permutation_middle, elem_of_cons. intros [->|?]; [done|by apply ok_off0].
    - intros x y. rewrite <- Permutation_middle, !elem_of_cons. intros [->|?] [->|?] ?; [done|by apply Hap| |by apply ok_apart0].
      destruct (Hap x); [done|right|left]; done. }
  assert (He1 : h1 !! a = Some (set_next e (_free_list t))) by apply lookup_insert_eq.
  destruct (ok_pop_free Hok1 a _ fl k eq_refl He1) as [Hok2 Hdet2].
  unfold free_entry. rewrite He. cbn.
  eexists h1, t1, _, _. split_and!; [done|done|unfold new_entry, basic_new_entry| | |].
  - destruct Hdet as [[? _] _ _]. cbn. rewrite (proj2 (Z.eqb_neq a NULL)) by done. cbn.
    fold h1. rewrite He1. cbn. rewrite lookup_insert_eq. cbn. reflexivity.
  - by apply (ok_heap_frame Hok2).
  - done.
  - by rewrite lookup_insert_eq.
Qed.

(** An unlinked entry: the demo table with bucket 1 cut after its head. *)
Definition demo_unlinked : heap := <[1048 := mkEntry 9 NULL 4016]> demo_heap.

Lemma demo_unlinked_ok :
  table_ok demo_unlinked (upd_count demo_table 1) [[]; [1048]; []; []] [1072] ∧
  detached demo_unlinked demo_table [[]; [1048]; []; []] [1072] 1024.
Proof.
  pose proof demo_ok as []. split.
  - split; cbn; try done.
    + constructor; [done|]. constructor; [|by repeat constructor]. cbn. split_and!; [done|done|by exists 524|].
      eexists; split; reflexivity.
    + repeat constructor; set_solver.
    + intros i l a Hi Ha. repeat (destruct i as [|i]; [injection Hi as <-|]); try by apply elem_of_nil in Ha.
      * apply list_elem_of_singleton in Ha as ->. eexists; split; [reflexivity|done].
      * done.
    + intros a Ha. unfold off_block. cbn. set_unfold. lia.
    + intros a b Ha Hb ?. unfold apart. set_unfold. lia.
  - split; [split; [done|by exists 512]|right; left; cbn; lia|].
    intros b Hb. unfold apart. cbn. set_unfold. lia.
Qed.

Lemma free_entry_recycled_witness :
  ∃ h1 t1 h2 t2, free_entry demo_unlinked demo_table 1024 = Some (h1, t1) ∧
    table_ok h1 t1 [[]; [1048]; []; []] [1024; 1072] ∧
    new_entry 8192 (mkEntry 0 0 0) h1 t1 21 4064 = Some (1024, h2, t2) ∧
    table_ok h2 t2 [[]; [1048]; []; []] [1072] ∧
    _first_free_entry t2 = 1096 ∧ h2 !! 1024 = Some (mkEntry 21 1072 4064).
Proof.
  apply (free_entry_recycled demo_unlinked demo_table [[]; [1048]; []; []] [1072] 1024 (mkEntry 5 NULL 4000)
    8192 (mkEntry 0 0 0) 21 4064); [exact (proj1 demo_unlinked_ok)|exact (proj2 demo_unlinked_ok)| |reflexivity].
  cbn. set_solver.
Defined.

End HashtableFacts.
