(* ===== verification/ObjectTable.v ===== *)
(** Hash tables that own the objects their literals point to: the pattern of
    [MethodBciHashtable], [PromotionCounters] and [StaticAnalysis], each a
    [Hashtable<T*, mtGC>] whose entries are created together with a fresh [T].

    The C heap ([NEW_C_HEAP_ARRAY2], [operator new]) is the interface [CHeap],
    with what the tables rely on in [CHeapOk].  The relation [OT] states that a
    table implements a finite map from hashes to objects. *)

From S2P Require Import Prelude HashTable.

(** * The C heap *)

Class CHeap := {
  (** the block [new_entry] gets when its current block is used up *)
  new_block : Hashtable.heap → Hashtable.BasicHashtable → Z;
  (** the address of a new object, given the addresses in use *)
  new_object : gset Z → Z;
  (** the content of memory that has not been written yet *)
  uninit : Hashtable.HashtableEntry }.

Class CHeapOk (C : CHeap) : Prop := {
  new_block_fresh : ∀ h t, 0 < Hashtable._entry_size t → HashtableFacts.fresh_for h t (new_block h t);
  new_object_fresh : ∀ X, (new_object X ∉ X) ∧ new_object X ≠ NULL }.

(** An allocator that returns memory above everything in use. *)
Module BumpHeap.
Import Hashtable.

Definition above (l : list Z) : Z := 2 * foldr Z.max 1 l.

Lemma above_bound l a : a ∈ l → a < above l.
Proof.
  unfold above. assert (1 <= foldr Z.max 1 l) by (induction l; cbn; lia).
  intros Ha. assert (a <= foldr Z.max 1 l); [|lia].
  clear H. induction l as [|b l IH]; [by apply elem_of_nil in Ha|]. cbn.
  apply elem_of_cons in Ha as [->|Ha]; [lia|]. specialize (IH Ha). lia.
Qed.

Lemma above_pos l : 0 < above l.
Proof. unfold above. assert (1 <= foldr Z.max 1 l) by (induction l; cbn; lia). lia. Qed.

Definition bump_heap : CHeap := {|
  new_block h t := above ((λ a, a + _entry_size t) <$> (map_to_list h).*1);
  new_object X := above (elements X);
  uninit := mkEntry 0 0 0 |}.

Lemma bump_heap_ok : CHeapOk bump_heap.
Proof.
  split.
  - intros h t _. split_and!; [apply above_pos|by eexists|]. intros a [e He]. left.
    apply Z.lt_le_incl, above_bound. apply list_elem_of_fmap. exists a. split; [done|].
    apply list_elem_of_fmap. exists (a, e). split; [done|]. by apply elem_of_map_to_list.
  - intros X. split.
    + intros HX. apply elem_of_elements, above_bound in HX. cbn in HX. lia.
    + pose proof (above_pos (elements X)). unfold NULL. cbn. lia.
Qed.

End BumpHeap.

(** * Object tables *)

Module ObjectTable.
Import Hashtable HashtableFacts.

Record ObjTable (A : Type) := mkOT {
  ot_heap : heap;
  ot_table : BasicHashtable;
  ot_objs : gmap Z A }.
Arguments mkOT {A}.
Arguments ot_heap {A}.
Arguments ot_table {A}.
Arguments ot_objs {A}.

Definition empty_table {A} (table_size entry_size : Z) : ObjTable A :=
  mkOT ∅ (new_table table_size entry_size) ∅.

(** The lookup of [get_entry], [get_counter] and [get_value]: the literal of
    the entry with the hash, or [NULL]. *)
Definition find_literal {A} (o : ObjTable A) (hash : Z) : option Z :=
  p ← bucket (ot_table o) (hash_to_index (ot_table o) hash);
  if p =? NULL then Some NULL
  else
    e ← walk (S (size (ot_heap o))) (ot_heap o) p hash;
    Some (if _hash e =? hash then _literal e else NULL).

(** [new T(..)] followed by [new_entry(hash, obj)] and
    [add_entry(hash_to_index(hash), entry)]. *)
Definition insert_new `{CHeap} {A} (o : ObjTable A) (hash : Z) (x : A) : option (Z * ObjTable A) :=
  let v := new_object (dom (ot_objs o)) in
  '(entry, h, t) ← new_entry (new_block (ot_heap o) (ot_table o)) uninit (ot_heap o) (ot_table o) hash v;
  '(h, t) ← add_entry h t (hash_to_index t hash) entry;
  Some (v, mkOT h t (<[v := x]> (ot_objs o))).

(** [for each entry: p->literal()->...], updating the object in place. *)
Definition each_object {A} (g : A → option A) (o : ObjTable A) : option (ObjTable A) :=
  objs ← each_entry (ot_heap o) (ot_table o)
           (λ m v, x ← m !! v; y ← g x; Some (<[v := y]> m)) (ot_objs o);
  Some (mkOT (ot_heap o) (ot_table o) objs).

Definition set_object {A} (o : ObjTable A) (v : Z) (x : A) : ObjTable A :=
  mkOT (ot_heap o) (ot_table o) (<[v := x]> (ot_objs o)).

(** ** The map a table implements *)

Record OTkv {A} (o : ObjTable A) (kv : list (Z * Z)) (M : gmap Z A) : Prop := {
  ot_tab : Tab (ot_heap o) (ot_table o) kv;
  ot_live : ∀ v, v ∈ kv.*2 → v ≠ NULL ∧ is_Some (ot_objs o !! v);
  ot_distinct : NoDup kv.*2;
  ot_map : ∀ k, M !! k = assoc k kv ≫= (ot_objs o !!.) }.

Definition OT {A} (o : ObjTable A) (M : gmap Z A) : Prop := ∃ kv, OTkv o kv M.

Lemma find_literal_Tab {A} (o : ObjTable A) kv k :
  Tab (ot_heap o) (ot_table o) kv → find_literal o k = Some (default NULL (assoc k kv)).
Proof.
  intros HT. destruct (Tab_walk _ _ kv k HT) as (p & Hp & H0 & H1).
  unfold find_literal. rewrite Hp. cbn [mbind option_bind]. destruct (Z.eqb_spec p NULL) as [E|E].
  - by rewrite (H0 E).
  - destruct (H1 E) as (e & -> & <-). cbn. by destruct (_hash e =? k).
Qed.

(** The lookup returns the address of the object the map holds, or [NULL]. *)
Lemma OT_find {A} (o : ObjTable A) M k :
  OT o M →
  ∃ v, find_literal o k = Some v ∧
    match M !! k with
    | Some x => v ≠ NULL ∧ ot_objs o !! v = Some x
    | None => v = NULL
    end.
Proof.
  intros (kv & [HT Hlive _ Hmap]). rewrite (find_literal_Tab o kv k HT). eexists; split; [done|].
  rewrite Hmap. destruct (assoc k kv) as [v|] eqn:Ha; cbn; [|done].
  destruct (Hlive v) as [? [x Hx]].
  { apply list_elem_of_fmap. exists (k, v). split; [done|]. by apply assoc_elem. }
  by rewrite Hx.
Qed.

Lemma assoc_snd k kv v : assoc k kv = Some v → v ∈ kv.*2.
Proof. intros E%assoc_elem. apply list_elem_of_fmap. by exists (k, v). Qed.

(** Where the bucket loop of a get-or-create operation stops. *)
Lemma OT_walk {A} (o : ObjTable A) M k :
  OT o M →
  ∃ p, bucket (ot_table o) (hash_to_index (ot_table o) k) = Some p ∧
    match M !! k with
    | Some x => p ≠ NULL ∧ ∃ e, walk (S (size (ot_heap o))) (ot_heap o) p k = Some e ∧
        _hash e = k ∧ _literal e ≠ NULL ∧ ot_objs o !! _literal e = Some x ∧
        find_literal o k = Some (_literal e)
    | None => p = NULL ∨ p ≠ NULL ∧ ∃ e, walk (S (size (ot_heap o))) (ot_heap o) p k = Some e ∧ _hash e ≠ k
    end.
Proof.
  intros (kv & [HT Hlive Hnd Hmap]). rewrite (find_literal_Tab o kv k HT), Hmap.
  destruct (Tab_walk _ _ kv k HT) as (p & Hp & H0 & H1). exists p. split; [done|].
  destruct (assoc k kv) as [v|] eqn:Hv; cbn.
  - destruct (Hlive v) as [? [x Hx]]; [by eapply assoc_snd|]. rewrite Hx.
    assert (Hpn : p ≠ NULL) by (intros E; by specialize (H0 E)). split; [done|].
    destruct (H1 Hpn) as (e & Ew & He). destruct (Z.eqb_spec (_hash e) k) as [Ek|]; [|done].
    injection He as <-. exists e. by split_and!.
  - destruct (decide (p = NULL)) as [|Hpn]; [by left|right]. split; [done|].
    destruct (H1 Hpn) as (e & Ew & He). exists e. split; [done|].
    by destruct (Z.eqb_spec (_hash e) k).
Qed.

Lemma NoDup_snd_assoc kv k k' v : NoDup kv.*2 → assoc k kv = Some v → assoc k' kv = Some v → k = k'.
Proof.
  induction kv as [|[a b] kv IH]; cbn; [done|]. intros [Hn Hnd]%NoDup_cons.
  destruct (Z.eqb_spec a k), (Z.eqb_spec a k'); intros E1 E2; simplify_eq; try done.
  - by apply assoc_snd in E2.
  - by apply assoc_snd in E1.
  - by apply IH.
Qed.

(** Creating an object under a hash inserts it in the map. *)
Lemma OT_insert `{Hok : !CHeapOk C} {A} (o : ObjTable A) M k x :
  OT o M → 0 <= k →
  ∃ v o', insert_new o k x = Some (v, o') ∧ OT o' (<[k := x]> M) ∧ v ≠ NULL ∧
    ot_objs o' = <[v := x]> (ot_objs o) ∧ ot_objs o !! v = None ∧
    find_literal o' k = Some v ∧ _table_size (ot_table o') = _table_size (ot_table o) ∧
    ∃ a e, bucket (ot_table o') (hash_to_index (ot_table o') k) = Some a ∧
      ot_heap o' !! a = Some e ∧ _literal e = v.
Proof.
  intros (kv & [HT Hlive Hnd Hmap]) Hk. unfold insert_new.
  set (v := new_object _). destruct (new_object_fresh (dom (ot_objs o))) as [Hv0 Hvn]. fold v in Hv0, Hvn.
  apply not_elem_of_dom in Hv0.
  destruct (Tab_insert _ _ kv (new_block (ot_heap o) (ot_table o)) uninit k v HT Hk)
    as (a & h1 & t1 & h2 & t2 & kv' & -> & E2 & HT2 & HP & HA & Hts & Hhead).
  { apply new_block_fresh. destruct HT as (bss & fl & Ht & _). by apply (ok_entry_size _ _ _ _ Ht). }
  cbn. rewrite E2. cbn. exists v. eexists. split; [done|].
  assert (Hvkv : v ∉ kv.*2). { intros [_ [y Hy]]%Hlive. by rewrite Hv0 in Hy. }
  split_and!; try done; [|rewrite (find_literal_Tab (mkOT h2 t2 _) kv' k HT2), HA, Z.eqb_refl; done|naive_solver].
  exists kv'. split; cbn; try done.
  - intros w. rewrite HP. cbn. rewrite elem_of_cons. intros [->|Hw]; [by rewrite lookup_insert_eq|].
    destruct (Hlive w Hw). split; [done|]. by apply lookup_insert_is_Some'; right.
  - rewrite HP. cbn. by apply NoDup_cons.
  - intros k'. rewrite HA. destruct (Z.eqb_spec k k') as [->|].
    + cbn. by rewrite !lookup_insert_eq.
    + rewrite lookup_insert_ne, Hmap by done. destruct (assoc k' kv) as [w|] eqn:Ha; [|done]. cbn.
      rewrite lookup_insert_ne; [done|]. intros ->. by apply assoc_snd in Ha.
Qed.

(** Writing to the object of a hash updates the map. *)
Lemma OT_set {A} (o : ObjTable A) M k v x y :
  OT o M → find_literal o k = Some v → M !! k = Some y → OT (set_object o v x) (<[k := x]> M).
Proof.
  intros (kv & [HT Hlive Hnd Hmap]) Hf Hy. rewrite (find_literal_Tab o kv k HT) in Hf.
  rewrite Hmap in Hy. destruct (assoc k kv) as [w|] eqn:Hw; [|done]. cbn in Hf, Hy. injection Hf as ->.
  exists kv. split; cbn; try done.
  - intros u [? ?]%Hlive. split; [done|]. by apply lookup_insert_is_Some'; right.
  - intros k'. destruct (decide (k = k')) as [->|].
    + rewrite Hw. cbn. by rewrite !lookup_insert_eq.
    + rewrite lookup_insert_ne, Hmap by done. destruct (assoc k' kv) as [u|] eqn:Hu; [|done]. cbn.
      rewrite lookup_insert_ne; [done|]. intros ->. by pose proof (NoDup_snd_assoc kv k k' u Hnd Hw Hu).
Qed.

Lemma ofold_alter {A} (g : A → option A) (g' : A → A) l (m : gmap Z A) :
  NoDup l → (∀ v, v ∈ l → ∃ x, m !! v = Some x ∧ g x = Some (g' x)) →
  ∃ m', ofold (λ m v, x ← m !! v; y ← g x; Some (<[v := y]> m)) m l = Some m' ∧
    ∀ v, m' !! v = if decide (v ∈ l) then g' <$> m !! v else m !! v.
Proof.
  revert m. induction l as [|v l IH]; intros m Hnd Hl.
  { exists m. split; [done|]. intros v. case_decide as Hv; [by apply elem_of_nil in Hv|done]. }
  apply NoDup_cons in Hnd as [Hv Hnd]. destruct (Hl v) as (x & Hx & Hg); [set_solver|].
  cbn [ofold]. rewrite Hx. cbn [mbind option_bind]. rewrite Hg. cbn [mbind option_bind].
  destruct (IH (<[v := g' x]> m) Hnd) as (m' & E & Hm').
  { intros w Hw. rewrite lookup_insert_ne by set_solver. apply Hl. set_solver. }
  exists m'. split; [done|]. intros w. rewrite Hm'. destruct (decide (w = v)) as [->|].
  - rewrite !decide_False, decide_True by set_solver. by rewrite lookup_insert_eq, Hx.
  - rewrite lookup_insert_ne by done. destruct (decide (w ∈ l)).
    + by rewrite decide_True by set_solver.
    + by rewrite decide_False by set_solver.
Qed.

(** An in-place update of every object maps over the map. *)
Lemma OT_each {A} (g : A → option A) (g' : A → A) (o : ObjTable A) M :
  OT o M → (∀ v x, ot_objs o !! v = Some x → g x = Some (g' x)) →
  ∃ o', each_object g o = Some o' ∧ OT o' (g' <$> M) ∧
    ot_heap o' = ot_heap o ∧ ot_table o' = ot_table o ∧
    ∀ v y, ot_objs o' !! v = Some y → ∃ x, ot_objs o !! v = Some x ∧ (y = x ∨ y = g' x).
Proof.
  intros (kv & [HT Hlive Hnd Hmap]) Hg. unfold each_object.
  rewrite (each_entry_spec _ _ kv) by done.
  destruct (ofold_alter g g' (kv.*2) (ot_objs o) Hnd) as (m' & -> & Hm').
  { intros v Hv. destruct (Hlive v Hv) as [_ [x Hx]]. eauto. }
  cbn. eexists; split_and!; [done| |done|done|].
  - exists kv. split; cbn; try done.
    + intros v Hv. destruct (Hlive v Hv) as [? Hs]. split; [done|]. rewrite Hm', decide_True by done.
      by apply fmap_is_Some.
    + intros k. rewrite lookup_fmap, Hmap. destruct (assoc k kv) as [v|] eqn:Ha; cbn; [|done].
      rewrite Hm'. by rewrite decide_True by by eapply assoc_snd.
  - intros v y. cbn. rewrite Hm'. destruct (decide _); [|by eauto].
    intros (x & -> & ?)%fmap_Some. eauto.
Qed.

(** Replacing the content of the objects, whatever the new content is. *)
Lemma OT_replace {A} (o : ObjTable A) kv M (objs' : gmap Z A) :
  OTkv o kv M → (∀ v, v ∈ kv.*2 → is_Some (objs' !! v)) →
  ∃ M', OTkv (mkOT (ot_heap o) (ot_table o) objs') kv M' ∧
    ∀ k x', M' !! k = Some x' → ∃ v x, M !! k = Some x ∧ ot_objs o !! v = Some x ∧ objs' !! v = Some x'.
Proof.
  intros [HT Hl Hnd Hmap] Hs. exists (map_imap (λ k _, assoc k kv ≫= (objs' !!.)) M).
  assert (Hm : ∀ k, map_imap (λ k _, assoc k kv ≫= (objs' !!.)) M !! k = assoc k kv ≫= (objs' !!.)).
  { intros k. rewrite map_lookup_imap, Hmap. destruct (assoc k kv) as [v|] eqn:Ha; cbn; [|done].
    destruct (Hl v) as [_ [x ->]]; [by eapply assoc_snd|]. done. }
  split; [split; cbn; try done|].
  - intros v Hv. split; [by apply Hl|by apply Hs].
  - intros k x'. rewrite Hm, Hmap. destruct (assoc k kv) as [v|] eqn:Ha; cbn; [|done]. intros Hx'.
    destruct (Hl v) as [_ [x Hx]]; [by eapply assoc_snd|]. by exists v, x.
Qed.

Lemma OT_empty {A} table_size entry_size :
  4 <= table_size < 2 ^ 31 → 0 < entry_size < 2 ^ 31 → Z.Even entry_size →
  OT (empty_table (A:=A) table_size entry_size) ∅.
Proof.
  intros. exists []. split; cbn; [by apply Tab_new|by intros v ?%elem_of_nil|apply NoDup_nil_2|].
  intros k. by rewrite lookup_empty.
Qed.

End ObjectTable.
