(* ===== verification/Ng2cTables.v ===== *)
(** The NG2C profile data: [NGenerationArray] and [PromotionCounter]
    ([ng2c/ng2c_globals.hpp], [.cpp]), the table of allocation sites
    [MethodBciHashtable] ([ng2c/method_bci_hashtable.cpp]) and the tables of
    survivor counters [PromotionCounters] ([ng2c/promotion_counter.cpp]).

    Both tables are shown to refine a finite map from identifiers to profile
    objects ([bci_rel], [pc_rel]). *)

From S2P Require Import Prelude HashTable ObjectTable.
Import ObjectTable.

Definition NG2C_GEN_ARRAY_SIZE : Z := 16.
Definition NG2C_MAX_ALLOC_SITE : Z := 65536.
Definition max_sites : nat := Z.to_nat NG2C_MAX_ALLOC_SITE.

Lemma max_sites_eq : Z.of_nat max_sites = NG2C_MAX_ALLOC_SITE.
Proof. apply Z2Nat.id. done. Qed.

#[global] Opaque max_sites.
Definition sizeof_ngen_t : Z := 8.

(** [sizeof(HashtableEntry<T*, mtGC>)]: the hash, the link and the literal. *)
Definition sizeof_HashtableEntry : Z := 24.

(** [for (i = 0; i < n; i++) *aux++ = v], starting at the head of the array;
    a write past the end is a fault. *)
Fixpoint fill (n : nat) (arr : list Z) (v : Z) : option (list Z) :=
  match n, arr with
  | O, _ => Some arr
  | S _, [] => None
  | S n, _ :: arr => l ← fill n arr v; Some (v :: l)
  end.

(** ** Allocation-site arrays *)

Module NGen.

Record NGenerationArray := mkNGen {
  _hash : Z;
  _factor : Z;
  _factor_bytes : Z;
  _target_gen : list Z;
  _allocs_gen : list Z }.

Definition new_NGenerationArray (hash : Z) : NGenerationArray :=
  mkNGen hash 0 0 (replicate (max_sites) 0)
    (replicate (max_sites) 0).

Definition set_target (a : NGenerationArray) (l : list Z) : NGenerationArray :=
  mkNGen (_hash a) (_factor a) (_factor_bytes a) l (_allocs_gen a).
Definition set_allocs (a : NGenerationArray) (l : list Z) : NGenerationArray :=
  mkNGen (_hash a) (_factor a) (_factor_bytes a) (_target_gen a) l.

Definition expanded_contexts (a : NGenerationArray) : bool := _factor a >? 0.

(** [context * _factor], an [unsigned int]. *)
Definition slot (a : NGenerationArray) (context : Z) : nat := Z.to_nat (u32 (context * _factor a)).

Definition prepare_contexts (a : NGenerationArray) : option NGenerationArray :=
  let a := mkNGen (_hash a) 1 sizeof_ngen_t (_target_gen a) (_allocs_gen a) in
  _ ← _allocs_gen a !! O;
  let a := set_allocs a (<[O := 0]> (_allocs_gen a)) in
  target ← _target_gen a !! O;
  l ← fill (max_sites) (_target_gen a) target;
  Some (set_target a l).

Definition inc_target_gen (a : NGenerationArray) (context : Z) : option NGenerationArray :=
  g ← _target_gen a !! slot a context;
  Some (set_target a (<[slot a context := u64 (g + 1)]> (_target_gen a))).

Definition inc_target_gen_to (a : NGenerationArray) (context new_gen : Z) : option NGenerationArray :=
  _ ← _target_gen a !! slot a context;
  Some (set_target a (<[slot a context := new_gen]> (_target_gen a))).

Definition number_allocs (a : NGenerationArray) (context : Z) : option Z :=
  _allocs_gen a !! slot a context.

Definition inc_number_allocs (a : NGenerationArray) (context : Z) : option NGenerationArray :=
  n ← _allocs_gen a !! slot a context;
  Some (set_allocs a (<[slot a context := u64 (n + 1)]> (_allocs_gen a))).

Definition reset_allocs (a : NGenerationArray) (context : Z) : option NGenerationArray :=
  _ ← _allocs_gen a !! slot a context;
  Some (set_allocs a (<[slot a context := 0]> (_allocs_gen a))).

(** The [ngen_t] is read as a [long]. *)
Definition target_gen (a : NGenerationArray) (context : Z) : option Z :=
  i64 <$> _target_gen a !! slot a context.

(** The body of [MethodBciHashtable::zero] for one array. *)
Definition zero_allocs (a : NGenerationArray) : option NGenerationArray :=
  let size := if expanded_contexts a then max_sites else 1%nat in
  l ← fill size (_allocs_gen a) 0;
  Some (set_allocs a l).

End NGen.

(** ** Survivor counters *)

Module Promo.

Record PromotionCounter := mkPC { _array : list Z; _hash : Z; _allocations : Z }.

Definition new_PromotionCounter (hash : Z) : PromotionCounter :=
  mkPC (replicate (Z.to_nat NG2C_GEN_ARRAY_SIZE) 0) hash NULL.

Definition set_array (pc : PromotionCounter) (l : list Z) : PromotionCounter :=
  mkPC l (_hash pc) (_allocations pc).

Definition update (pc : PromotionCounter) (age : Z) : option PromotionCounter :=
  let i := Z.to_nat (if age >=? NG2C_GEN_ARRAY_SIZE then NG2C_GEN_ARRAY_SIZE - 1 else age) in
  n ← _array pc !! i;
  Some (set_array pc (<[i := u64 (n + 1)]> (_array pc))).

End Promo.

(** ** The table of allocation sites *)

Module MethodBciHashtable.
Import Hashtable NGen.

Abbreviation MethodBciHashtable := (ObjTable NGenerationArray).

Definition new_MethodBciHashtable (table_size : Z) : MethodBciHashtable :=
  empty_table table_size sizeof_HashtableEntry.

Definition get_entry (o : MethodBciHashtable) (hash : Z) : option Z :=
  if hash =? 0 then Some NULL else find_literal o hash.

Section ops.
Context `{CHeap}.

Definition add_entry (o : MethodBciHashtable) (hash : Z) : option (Z * MethodBciHashtable) :=
  array ← get_entry o hash;
  if negb (array =? NULL) then Some (array, o)
  else insert_new o hash (new_NGenerationArray hash).

Definition get_entry_not_null (o : MethodBciHashtable) (hash : Z) : option (Z * MethodBciHashtable) :=
  let idx := hash_to_index (ot_table o) hash in
  let add_and_read_head :=
    '(_, o) ← add_entry o hash;
    p ← bucket (ot_table o) idx;
    e ← ot_heap o !! p;
    Some (_literal e, o) in
  p ← bucket (ot_table o) idx;
  if p =? NULL then add_and_read_head
  else
    e ← walk (S (size (ot_heap o))) (ot_heap o) p hash;
    if negb (Hashtable._hash e =? hash) then add_and_read_head
    else Some (_literal e, o).

End ops.

Definition zero_sites (o : MethodBciHashtable) : option MethodBciHashtable := each_object zero_allocs o.

End MethodBciHashtable.

(** ** The tables of survivor counters *)

Module PromotionCounters.
Import Hashtable Promo.

Abbreviation PromotionCounters := (ObjTable PromotionCounter).

Definition new_PromotionCounters (size : Z) : PromotionCounters :=
  empty_table size sizeof_HashtableEntry.

Section ops.
Context `{CHeap}.

Definition add_counter (o : PromotionCounters) (hash : Z) : option (Z * PromotionCounters) :=
  insert_new o hash (new_PromotionCounter hash).

Definition get_counter (o : PromotionCounters) (hash : Z) : option Z := find_literal o hash.

Definition get_counter_not_null (o : PromotionCounters) (hash : Z) : option (Z * PromotionCounters) :=
  p ← bucket (ot_table o) (hash_to_index (ot_table o) hash);
  if p =? NULL then add_counter o hash
  else
    e ← walk (S (size (ot_heap o))) (ot_heap o) p hash;
    if Hashtable._hash e =? hash then Some (_literal e, o) else add_counter o hash.

End ops.

(** [memset(pc->array(), 0, NG2C_GEN_ARRAY_SIZE * sizeof(ngen_t))] for every counter. *)
Definition zero_counter (pc : PromotionCounter) : option PromotionCounter :=
  l ← fill (Z.to_nat NG2C_GEN_ARRAY_SIZE) (_array pc) 0;
  Some (set_array pc l).

Definition zero_counters (o : PromotionCounters) : option PromotionCounters := each_object zero_counter o.

(** [PromotionCounter::target_gen], with the allocation-site table it reads. *)
Definition pc_target_gen (bci : MethodBciHashtable.MethodBciHashtable) (pc : PromotionCounter) : option Z :=
  let alloc_site := _hash pc >>> 16 in
  let context := mask_bits (_hash pc) 0xFFFF in
  allocs ← MethodBciHashtable.get_entry bci alloc_site;
  a ← ot_objs bci !! allocs;
  NGen.target_gen a context.

End PromotionCounters.

(** * Properties *)

Lemma fill_spec n l v : (n <= length l)%nat → fill n l v = Some (replicate n v ++ drop n l).
Proof.
  revert l. induction n as [|n IH]; intros [|x l] Hn; cbn in Hn |- *; try done; [lia|].
  by rewrite IH by lia.
Qed.

Module NGenFacts.
Import NGen.

(** The invariant: both arrays have one slot per context; before expansion
    only slot 0 counts allocations. *)
Record arr_ok (a : NGenerationArray) : Prop := {
  ao_target : length (_target_gen a) = max_sites;
  ao_allocs : length (_allocs_gen a) = max_sites;
  ao_factor : _factor a = 0 ∨ _factor a = 1;
  ao_bytes : _factor_bytes a = _factor a * sizeof_ngen_t;
  ao_rest : _factor a = 0 → drop 1 (_allocs_gen a) = replicate (max_sites - 1) 0 }.

Definition is_context (c : Z) : Prop := 0 <= c < NG2C_MAX_ALLOC_SITE.

Lemma max_site_pos : ∃ n, max_sites = S n.
Proof. exists (max_sites - 1)%nat. pose proof max_sites_eq. unfold NG2C_MAX_ALLOC_SITE in *. lia. Qed.

Lemma slot_zero a c : _factor a = 0 → slot a c = O.
Proof. intros E. unfold slot. by rewrite E, Z.mul_0_r. Qed.

Lemma slot_one a c : _factor a = 1 → is_context c → slot a c = Z.to_nat c.
Proof.
  intros E Hc. unfold slot. rewrite E, Z.mul_1_r, u32_small; [done|].
  unfold is_context, NG2C_MAX_ALLOC_SITE, in_u32 in *. lia.
Qed.

Lemma slot_lt a c : arr_ok a → is_context c → (slot a c < max_sites)%nat.
Proof.
  intros [] Hc. destruct ao_factor0 as [E|E].
  - rewrite slot_zero by done. destruct max_site_pos as [n ->]. lia.
  - rewrite slot_one by done. unfold is_context in *. pose proof max_sites_eq. lia.
Qed.

Lemma new_arr_ok hash : arr_ok (new_NGenerationArray hash).
Proof.
  split; cbn; try by rewrite length_replicate.
  - by left.
  - done.
  - intros _. by rewrite drop_replicate.
Qed.

Lemma set_allocs_ok a l :
  arr_ok a → length l = length (_allocs_gen a) →
  (_factor a = 0 → drop 1 l = drop 1 (_allocs_gen a)) → arr_ok (set_allocs a l).
Proof. intros [] Hl Hd. split; cbn; try done; [congruence|]. intros E. rewrite Hd by done. auto. Qed.

Lemma set_target_ok a l : arr_ok a → length l = length (_target_gen a) → arr_ok (set_target a l).
Proof. intros [] Hl. split; cbn; try done. congruence. Qed.

Lemma allocs_write_ok a c v : arr_ok a → arr_ok (set_allocs a (<[slot a c := v]> (_allocs_gen a))).
Proof.
  intros Hok. apply set_allocs_ok; [done|by rewrite length_insert|].
  intros E. rewrite slot_zero by done. by destruct (_allocs_gen a).
Qed.

(** The counting operations on a context: each is defined on every context
    and touches only the slot of the context. *)
Lemma inc_number_allocs_spec a c :
  arr_ok a → is_context c →
  ∃ n a', number_allocs a c = Some n ∧ inc_number_allocs a c = Some a' ∧ arr_ok a' ∧
    number_allocs a' c = Some (u64 (n + 1)) ∧
    ∀ d, slot a d ≠ slot a c → number_allocs a' d = number_allocs a d.
Proof.
  intros Hok Hc. pose proof (slot_lt a c Hok Hc). rewrite <- (ao_allocs a Hok) in *.
  destruct (lookup_lt_is_Some_2 (_allocs_gen a) (slot a c)) as [n Hn]; [done|].
  unfold number_allocs, inc_number_allocs. rewrite Hn. cbn. eexists _, _. split_and!; [done|done| | |].
  - by apply allocs_write_ok.
  - by apply list_lookup_insert_eq.
  - intros d Hd. by apply list_lookup_insert_ne.
Qed.

(** The closed form of [prepare_contexts]. *)
Lemma prepare_contexts_spec a :
  arr_ok a → ∃ g, _target_gen a !! O = Some g ∧
    prepare_contexts a = Some (mkNGen (_hash a) 1 sizeof_ngen_t
      (replicate (max_sites) g) (<[O := 0]> (_allocs_gen a))).
Proof.
  intros []. destruct max_site_pos as [n Hn].
  destruct (lookup_lt_is_Some_2 (_allocs_gen a) O) as [x Hx]; [lia|].
  destruct (lookup_lt_is_Some_2 (_target_gen a) O) as [g Hg]; [lia|].
  exists g. split; [done|].
  assert (Hf : fill max_sites (_target_gen a) g = Some (replicate max_sites g)).
  { rewrite fill_spec by lia. by rewrite drop_ge, app_nil_r by lia. }
  unfold prepare_contexts. revert Hf. generalize max_sites. intros m Hf.
  cbn. rewrite Hx. cbn. rewrite Hg. cbn. by rewrite Hf.
Qed.

Lemma prepare_contexts_ok a a' : arr_ok a → prepare_contexts a = Some a' → arr_ok a'.
Proof.
  intros Hok E. destruct (prepare_contexts_spec a Hok) as (g & _ & E'). rewrite E in E'. injection E' as ->.
  destruct Hok. split; [apply length_replicate|cbn; by rewrite length_insert|by right|done|done].
Qed.

(** Expanding a site to per-context tracking ([prepare_contexts]) keeps
    the decision taken so far: every context starts with the target
    generation the site had, and with no counted allocation; the arrays stay
    well formed. *)
Theorem expansion_preserves_target a :
  arr_ok a → expanded_contexts a = false →
  ∃ a', prepare_contexts a = Some a' ∧ arr_ok a' ∧ expanded_contexts a' = true ∧ _hash a' = _hash a ∧
    ∀ c, is_context c → target_gen a' c = target_gen a c ∧ number_allocs a' c = Some 0.
Proof.
  intros Hok He. destruct (prepare_contexts_spec a Hok) as (g & Hg & E).
  eexists. split; [exact E|]. pose proof (prepare_contexts_ok a _ Hok E) as Hok'.
  split_and!; [done|done|done|]. intros c Hc.
  pose proof (slot_lt _ c Hok' Hc) as Hlt. destruct Hok as [_ Hal Hf _ Hrest].
  assert (Hf0 : _factor a = 0). { unfold expanded_contexts in He. destruct Hf as [|Hf]; [done|]. rewrite Hf in He. done. }
  unfold target_gen, number_allocs. cbn -[slot]. split.
  - rewrite (slot_zero a) by done. rewrite Hg. by rewrite lookup_replicate_2.
  - specialize (Hrest Hf0). set (s := slot _ c) in *. destruct (_allocs_gen a) as [|x l]; [cbn in Hal; destruct max_site_pos; lia|].
    change (l = replicate (max_sites - 1) 0) in Hrest. subst l. destruct s as [|s]; [done|]. cbn. apply lookup_replicate_2. lia.
Qed.

Lemma expansion_preserves_target_witness :
  ∃ a', prepare_contexts (mkNGen 7 0 0 (3 :: replicate (max_sites - 1) 0) (12 :: replicate (max_sites - 1) 0)) = Some a' ∧
    arr_ok a' ∧ expanded_contexts a' = true ∧ _hash a' = 7 ∧
    ∀ c, is_context c →
      target_gen a' c = target_gen (mkNGen 7 0 0 (3 :: replicate (max_sites - 1) 0) (12 :: replicate (max_sites - 1) 0)) c ∧
      number_allocs a' c = Some 0.
Proof.
  apply (expansion_preserves_target (mkNGen 7 0 0 (3 :: replicate (max_sites - 1) 0) (12 :: replicate (max_sites - 1) 0)));
    [|reflexivity].
  destruct max_site_pos as [n Hn].
  split; [cbn; rewrite length_replicate; lia|cbn; rewrite length_replicate; lia|by left|reflexivity|intros _; reflexivity].
Defined.

End NGenFacts.

Module SiteTableFacts.
Import Hashtable HashtableFacts NGen NGenFacts MethodBciHashtable.

(** The table implements a map from allocation-site identifiers to arrays. *)
Record bci_rel (o : MethodBciHashtable) (M : gmap Z NGenerationArray) : Prop := {
  br_ot : OT o M;
  br_ok : ∀ v a, ot_objs o !! v = Some a → arr_ok a;
  br_hash : ∀ k a, M !! k = Some a → NGen._hash a = k }.

Lemma bci_rel_new table_size :
  4 <= table_size < 2 ^ 31 → bci_rel (new_MethodBciHashtable table_size) ∅.
Proof.
  intros. split; [apply OT_empty; [done|done|by exists 12]|done|done].
Qed.

(** Abstract lookup-or-create. *)
Definition site_get_or_create (M : gmap Z NGenerationArray) (k : Z) : gmap Z NGenerationArray :=
  match M !! k with Some _ => M | None => <[k := new_NGenerationArray k]> M end.

Lemma get_entry_spec o M k :
  bci_rel o M → k ≠ 0 →
  ∃ v, get_entry o k = Some v ∧
    match M !! k with Some a => v ≠ NULL ∧ ot_objs o !! v = Some a | None => v = NULL end.
Proof.
  intros [Hot _ _] Hk. unfold get_entry. rewrite (proj2 (Z.eqb_neq k 0)) by done. by apply OT_find.
Qed.

Lemma get_entry_zero o : get_entry o 0 = Some NULL.
Proof. done. Qed.

Section ops.
Context `{HC : !CHeapOk C}.

(** The creation step both operations share. *)
Lemma site_create o M k :
  bci_rel o M → 0 <= k → M !! k = None →
  ∃ v o', insert_new o k (new_NGenerationArray k) = Some (v, o') ∧ v ≠ NULL ∧
    bci_rel o' (<[k := new_NGenerationArray k]> M) ∧
    ot_objs o' !! v = Some (new_NGenerationArray k) ∧ find_literal o' k = Some v ∧
    _table_size (ot_table o') = _table_size (ot_table o) ∧
    ∃ p e, bucket (ot_table o') (hash_to_index (ot_table o') k) = Some p ∧
      ot_heap o' !! p = Some e ∧ _literal e = v.
Proof.
  intros [Hot Hok Hh] Hk Hn.
  destruct (OT_insert o M k (new_NGenerationArray k) Hot Hk)
    as (v & o' & E & Hot' & Hv & Hobjs & _ & Hf & Hts & Hhead).
  exists v, o'. split_and!; try done; [|by rewrite Hobjs, lookup_insert_eq].
  split; [done| |].
  - intros w a. rewrite Hobjs. intros [(<- & <-)|(? & ?)]%lookup_insert_Some; [apply new_arr_ok|by eapply Hok].
  - intros k' a [(<- & <-)|(? & ?)]%lookup_insert_Some; [done|by apply Hh].
Qed.

Lemma add_entry_spec o M k :
  bci_rel o M → 0 <= k → k ≠ 0 ∨ M !! k = None →
  ∃ v o' a, add_entry o k = Some (v, o') ∧ bci_rel o' (site_get_or_create M k) ∧ v ≠ NULL ∧
    site_get_or_create M k !! k = Some a ∧ ot_objs o' !! v = Some a ∧ find_literal o' k = Some v ∧
    (M !! k = None → _table_size (ot_table o') = _table_size (ot_table o) ∧
      ∃ p e, bucket (ot_table o') (hash_to_index (ot_table o') k) = Some p ∧
      ot_heap o' !! p = Some e ∧ _literal e = v).
Proof.
  intros Hrel Hk Hd. unfold add_entry, site_get_or_create.
  destruct (M !! k) as [a|] eqn:Hm.
  - destruct Hd as [Hk0|]; [|done]. destruct (get_entry_spec o M k Hrel Hk0) as (v & Hv & Hx).
    rewrite Hm in Hx. destruct Hx as [Hvn Hx]. rewrite Hv. cbn. rewrite (proj2 (Z.eqb_neq v NULL)) by done.
    cbn. exists v, o, a. split_and!; try done. unfold get_entry in Hv.
    by rewrite (proj2 (Z.eqb_neq k 0)) in Hv by done.
  - assert (get_entry o k = Some NULL) as ->.
    { destruct (decide (k = 0)) as [->|Hk0]; [done|].
      destruct (get_entry_spec o M k Hrel Hk0) as (v & -> & Hx). rewrite Hm in Hx. by subst. }
    cbn. destruct (site_create o M k Hrel Hk Hm) as (v & o' & -> & ? & ? & ? & ? & ? & ?).
    exists v, o', (new_NGenerationArray k). split_and!; try done. by rewrite lookup_insert_eq.
Qed.

(** After creating a site, the head of its bucket is its entry. *)
Lemma create_and_read_head o M k :
  bci_rel o M → 0 <= k → M !! k = None →
  ∃ v o', add_entry o k = Some (v, o') ∧
    ('(_, o') ← add_entry o k; p ← bucket (ot_table o') (hash_to_index (ot_table o) k);
     e ← ot_heap o' !! p; Some (_literal e, o')) = Some (v, o').
Proof.
  intros Hrel Hk Hm. destruct (add_entry_spec o M k Hrel Hk (or_intror Hm))
    as (v & o' & a & E & _ & _ & _ & _ & _ & Hhead).
  destruct (Hhead Hm) as (Hts & q & e & Hq & He & Hv). exists v, o'. split; [done|].
  rewrite E. cbn. unfold hash_to_index in *. rewrite <- Hts, Hq. cbn. by rewrite He, <- Hv.
Qed.

(** [get_entry_not_null] either finds the entry or behaves as [add_entry]. *)
Lemma get_entry_not_null_spec o M k :
  bci_rel o M → 0 <= k →
  ∃ v o', get_entry_not_null o k = Some (v, o') ∧
    match M !! k with
    | Some a => o' = o ∧ v ≠ NULL ∧ ot_objs o !! v = Some a ∧ find_literal o k = Some v
    | None => add_entry o k = Some (v, o')
    end.
Proof.
  intros Hrel Hk. unfold get_entry_not_null.
  destruct (OT_walk o M k (br_ot o M Hrel)) as (p & -> & Hx). cbn [mbind option_bind].
  destruct (M !! k) as [a|] eqn:Hm.
  - destruct Hx as (Hp & e & -> & Hek & Hv & Ha & Hf).
    rewrite (proj2 (Z.eqb_neq p NULL)) by done. cbn [mbind option_bind].
    rewrite Hek, Z.eqb_refl. cbn. by exists (_literal e), o.
  - destruct (create_and_read_head o M k Hrel Hk Hm) as (w & o' & E & E'). exists w, o'. split; [|done].
    destruct Hx as [->|(Hp & e & -> & He)]; [done|].
    rewrite (proj2 (Z.eqb_neq p NULL)) by done. cbn [mbind option_bind].
    by rewrite (proj2 (Z.eqb_neq (Hashtable._hash e) k)).
Qed.

(** C9: The allocation-site table is a get-or-create map. For every identifier
    [get_entry_not_null] returns the existing array of the site unchanged, or
    creates a zeroed one; it never faults and the result is never NULL. For
    every non-zero identifier [get_entry] then finds the array, and
    [add_entry] has the same result and the same effect. For the identifier 0,
    [get_entry] answers NULL also when the site has an array. *)
Theorem site_table_get_or_create o M k :
  bci_rel o M → 0 <= k →
  ∃ v o' a, get_entry_not_null o k = Some (v, o') ∧ bci_rel o' (site_get_or_create M k) ∧ v ≠ NULL ∧
    site_get_or_create M k !! k = Some a ∧ ot_objs o' !! v = Some a ∧
    (k ≠ 0 → get_entry o' k = Some v ∧ add_entry o k = Some (v, o')) ∧ (k = 0 → get_entry o' k = Some NULL).
Proof.
  intros Hrel Hk. destruct (get_entry_not_null_spec o M k Hrel Hk) as (v & o' & E & Hx).
  destruct (M !! k) as [a|] eqn:Hm.
  - destruct Hx as (-> & ? & Ha & Hf). exists v, o, a. unfold site_get_or_create. rewrite Hm.
    split_and!; try done; [|intros ->; apply get_entry_zero]. intros Hk0. unfold get_entry, add_entry, get_entry.
    rewrite (proj2 (Z.eqb_neq k 0)), Hf by done. split; [done|]. cbn.
    by rewrite (proj2 (Z.eqb_neq v NULL)).
  - destruct (add_entry_spec o M k Hrel Hk (or_intror Hm)) as (w & o1 & a & E1 & Hr & Hw & ? & ? & Hf & _).
    rewrite E1 in Hx. injection Hx as -> ->. exists v, o', a. split_and!; try done; [|intros ->; apply get_entry_zero].
    intros Hk0. split; [|done]. unfold get_entry. by rewrite (proj2 (Z.eqb_neq k 0)).
Qed.

End ops.

Lemma site_table_get_or_create_witness :
  let o := new_MethodBciHashtable 64 in
  ∃ v o' a, get_entry_not_null (H:=BumpHeap.bump_heap) o 513 = Some (v, o') ∧
    bci_rel o' (site_get_or_create ∅ 513) ∧ v ≠ NULL ∧
    site_get_or_create ∅ 513 !! 513 = Some a ∧ ot_objs o' !! v = Some a ∧
    (513 ≠ 0 → get_entry o' 513 = Some v ∧ add_entry (H:=BumpHeap.bump_heap) o 513 = Some (v, o')) ∧ (513 = 0 → get_entry o' 513 = Some NULL).
Proof.
  intros o. apply (site_table_get_or_create (HC := BumpHeap.bump_heap_ok) o ∅ 513); [apply bci_rel_new; lia|lia].
Defined.

Lemma zero_sites_spec o M :
  bci_rel o M →
  ∃ o', zero_sites o = Some o' ∧
    bci_rel o' ((λ a, set_allocs a (replicate max_sites 0)) <$> M) ∧
    ot_heap o' = ot_heap o ∧ ot_table o' = ot_table o.
Proof.
  intros [Hot Hok Hh].
  destruct (OT_each zero_allocs (λ a, set_allocs a (replicate max_sites 0)) o M Hot)
    as (o' & E & Hot' & Hhp & Htb & Hin).
  { intros v a Ha. specialize (Hok v a Ha). unfold zero_allocs, expanded_contexts.
    destruct Hok as [_ Hal [Hf|Hf] _ Hrest].
    - rewrite Hf. destruct max_site_pos as [n Hn]. specialize (Hrest Hf).
      change (0 >? 0) with false. cbn iota. rewrite fill_spec by lia. rewrite Hrest.
      cbn [mbind option_bind]. rewrite <- replicate_add. by replace (1 + (max_sites - 1))%nat with max_sites by lia.
    - rewrite Hf. change (1 >? 0) with true. cbn iota. rewrite fill_spec by lia.
      cbn [mbind option_bind]. by rewrite drop_ge, app_nil_r by lia. }
  exists o'. split_and!; [done| |done|done]. split; [done| |].
  - intros v y (x & Hx%Hok & [->| ->])%Hin; [done|]. apply set_allocs_ok; [done| |].
    + rewrite length_replicate. by destruct Hx.
    + intros E0. rewrite (ao_rest x Hx E0). by rewrite drop_replicate.
  - intros k a. rewrite lookup_fmap. intros (x & Hx & ->)%fmap_Some. by apply (Hh k x).
Qed.

(** [zero] resets the allocation counts of every site, of all contexts,
    and changes nothing else. *)
Theorem zero_sites_resets o M :
  bci_rel o M →
  ∃ o', zero_sites o = Some o' ∧
    bci_rel o' ((λ a, set_allocs a (replicate max_sites 0)) <$> M) ∧
    ot_heap o' = ot_heap o ∧ ot_table o' = ot_table o.
Proof. apply zero_sites_spec. Qed.

Lemma zero_sites_resets_witness :
  ∃ o o', zero_sites o = Some o' ∧
    bci_rel o' ((λ a, set_allocs a (replicate max_sites 0)) <$> <[513 := new_NGenerationArray 513]> ∅) ∧
    ot_heap o' = ot_heap o ∧ ot_table o' = ot_table o.
Proof.
  destruct (site_create (HC := BumpHeap.bump_heap_ok) (new_MethodBciHashtable 64) ∅ 513)
    as (v & o & _ & _ & Hrel & _); [apply bci_rel_new; lia|lia|done|].
  exists o. apply (zero_sites_resets o (<[513 := new_NGenerationArray 513]> ∅)). exact Hrel.
Defined.

(** Writing an array of the table back. *)
Lemma bci_rel_set st MS site v a a' :
  bci_rel st MS → find_literal st site = Some v → MS !! site = Some a → arr_ok a' → NGen._hash a' = NGen._hash a →
  bci_rel (set_object st v a') (<[site := a']> MS).
Proof.
  intros [Hot Hok Hh] Hf Ha Hok' Hhash. split; [by eapply OT_set| |].
  - cbn. intros w x [(<- & <-)|(? & ?)]%lookup_insert_Some; [done|by eapply Hok].
  - intros k x [(<- & <-)|(? & ?)]%lookup_insert_Some; [|by apply Hh]. rewrite Hhash. by apply Hh.
Qed.

Lemma in_table_arr_ok st MS site a : bci_rel st MS → MS !! site = Some a → arr_ok a.
Proof.
  intros [Hot Hok _] Ha. destruct (OT_find st MS site Hot) as (v & _ & Hx). rewrite Ha in Hx.
  destruct Hx as [_ Hx]. by eapply Hok.
Qed.

End SiteTableFacts.

Module CounterTableFacts.
Import Hashtable HashtableFacts Promo PromotionCounters.

Definition pc_ok (pc : PromotionCounter) : Prop :=
  length (_array pc) = Z.to_nat NG2C_GEN_ARRAY_SIZE ∧ Forall in_u64 (_array pc).

(** The table implements a map from hashes to counters. *)
Record pc_rel (o : PromotionCounters) (M : gmap Z PromotionCounter) : Prop := {
  pr_ot : OT o M;
  pr_ok : ∀ v pc, ot_objs o !! v = Some pc → pc_ok pc;
  pr_hash : ∀ k pc, M !! k = Some pc → Promo._hash pc = k }.

Lemma new_pc_ok hash : pc_ok (new_PromotionCounter hash).
Proof. split; [done|]. apply Forall_replicate. unfold in_u64. lia. Qed.

Lemma pc_rel_new size : 4 <= size < 2 ^ 31 → pc_rel (new_PromotionCounters size) ∅.
Proof. intros. split; [apply OT_empty; [done|done|by exists 12]|done|done]. Qed.

Definition counter_get_or_create (M : gmap Z PromotionCounter) (k : Z) : gmap Z PromotionCounter :=
  match M !! k with Some _ => M | None => <[k := new_PromotionCounter k]> M end.

(** [update] counts one survivor of the age, ages above 15 in the last slot. *)
Lemma update_spec pc age :
  pc_ok pc → 0 <= age →
  let i := Z.to_nat (Z.min age 15) in
  ∃ n pc', _array pc !! i = Some n ∧ update pc age = Some pc' ∧ pc_ok pc' ∧
    pc' = set_array pc (<[i := u64 (n + 1)]> (_array pc)).
Proof.
  intros [Hl Hf] Hage i. unfold update, NG2C_GEN_ARRAY_SIZE in *.
  replace (Z.to_nat (if age >=? 16 then 16 - 1 else age)) with i
    by (subst i; destruct (Z.geb_spec age 16); f_equal; lia).
  destruct (lookup_lt_is_Some_2 (_array pc) i) as [n Hn]; [rewrite Hl; subst i; lia|].
  rewrite Hn. cbn. eexists n, _. split_and!; [done|done| |done]. split; cbn.
  - by rewrite length_insert.
  - apply Forall_insert; [done|apply u64_range].
Qed.

Section ops.
Context `{HC : !CHeapOk C}.

Lemma add_counter_spec o M k :
  pc_rel o M → 0 <= k →
  ∃ v o', add_counter o k = Some (v, o') ∧ v ≠ NULL ∧
    pc_rel o' (<[k := new_PromotionCounter k]> M) ∧ find_literal o' k = Some v ∧
    ot_objs o' !! v = Some (new_PromotionCounter k) ∧
    (∀ w x, ot_objs o' !! w = Some x → ot_objs o !! w = Some x ∨ x = new_PromotionCounter k).
Proof.
  intros [Hot Hok Hh] Hk. destruct (OT_insert o M k (new_PromotionCounter k) Hot Hk)
    as (v & o' & E & Hot' & Hv & Hobjs & _ & Hf & _).
  exists v, o'. split_and!; try done; [|by rewrite Hobjs, lookup_insert_eq|].
  2: { intros w x. rewrite Hobjs. intros [(<- & <-)|(? & ?)]%lookup_insert_Some; [by right|by left]. }
  split; [done| |].
  - intros w pc. rewrite Hobjs. intros [(<- & <-)|(? & ?)]%lookup_insert_Some; [apply new_pc_ok|by eapply Hok].
  - intros k' pc [(<- & <-)|(? & ?)]%lookup_insert_Some; [done|by apply Hh].
Qed.

Lemma get_counter_not_null_spec o M k :
  pc_rel o M → 0 <= k →
  ∃ v o' pc, get_counter_not_null o k = Some (v, o') ∧ v ≠ NULL ∧
    pc_rel o' (counter_get_or_create M k) ∧ find_literal o' k = Some v ∧
    counter_get_or_create M k !! k = Some pc ∧ ot_objs o' !! v = Some pc ∧
    (∀ w x, ot_objs o' !! w = Some x → ot_objs o !! w = Some x ∨ x = new_PromotionCounter k).
Proof.
  intros Hrel Hk. unfold get_counter_not_null, counter_get_or_create.
  destruct (OT_walk o M k (pr_ot o M Hrel)) as (p & -> & Hx). cbn [mbind option_bind].
  destruct (M !! k) as [pc|] eqn:Hm.
  - destruct Hx as (Hp & e & -> & Hek & Hv & Ha & Hf).
    rewrite (proj2 (Z.eqb_neq p NULL)) by done. cbn [mbind option_bind].
    rewrite Hek, Z.eqb_refl. exists (_literal e), o, pc. split_and!; try done. by left.
  - destruct (add_counter_spec o M k Hrel Hk) as (v & o' & E & ? & ? & ? & ? & ?).
    exists v, o', (new_PromotionCounter k). rewrite lookup_insert_eq. split_and!; try done.
    destruct Hx as [->|(Hp & e & -> & He)]; [done|].
    rewrite (proj2 (Z.eqb_neq p NULL)) by done. cbn [mbind option_bind].
    by rewrite (proj2 (Z.eqb_neq (Hashtable._hash e) k)).
Qed.

(** C15: A counter table is a get-or-create map: [get_counter_not_null]
    returns the existing counter unchanged or creates a zeroed one; the
    result is never NULL and [get_counter] finds the same counter afterwards.
    Counting a survivor then changes that counter only, at index
    [min(age, 15)]. *)
Theorem counter_table_counts o M k age :
  pc_rel o M → 0 <= k → 0 <= age →
  ∃ v o' pc n pc', get_counter_not_null o k = Some (v, o') ∧ v ≠ NULL ∧ get_counter o' k = Some v ∧
    pc_rel o' (counter_get_or_create M k) ∧ counter_get_or_create M k !! k = Some pc ∧
    ot_objs o' !! v = Some pc ∧ update pc age = Some pc' ∧
    _array pc !! Z.to_nat (Z.min age 15) = Some n ∧
    _array pc' = <[Z.to_nat (Z.min age 15) := u64 (n + 1)]> (_array pc) ∧
    pc_rel (set_object o' v pc') (<[k := pc']> (counter_get_or_create M k)).
Proof.
  intros Hrel Hk Hage.
  destruct (get_counter_not_null_spec o M k Hrel Hk) as (v & o' & pc & E & Hv & Hrel' & Hf & Hm & Ho & _).
  pose proof Hrel' as [Hot' Hok' Hh'].
  destruct (update_spec pc age (Hok' v pc Ho) Hage) as (n & pc' & Hn & Hu & Hpc' & Epc').
  exists v, o', pc, n, pc'. split_and!; try done; [by rewrite Epc'|].
  split; [by eapply OT_set| |].
  - cbn. intros w x [(<- & <-)|(? & ?)]%lookup_insert_Some; [done|by eapply Hok'].
  - intros k' x [(<- & <-)|(? & ?)]%lookup_insert_Some; [|by apply Hh'].
    rewrite Epc'. cbn. by apply Hh'.
Qed.

End ops.

Lemma counter_table_counts_witness :
  let o := new_PromotionCounters 64 in
  ∃ v o' pc n pc', get_counter_not_null (H:=BumpHeap.bump_heap) o 77 = Some (v, o') ∧ v ≠ NULL ∧
    get_counter o' 77 = Some v ∧
    pc_rel o' (counter_get_or_create ∅ 77) ∧ counter_get_or_create ∅ 77 !! 77 = Some pc ∧
    ot_objs o' !! v = Some pc ∧ update pc 20 = Some pc' ∧ _array pc !! 15%nat = Some n ∧
    _array pc' = <[15%nat := u64 (n + 1)]> (_array pc) ∧
    pc_rel (set_object o' v pc') (<[77 := pc']> (counter_get_or_create ∅ 77)).
Proof.
  intros o. apply (counter_table_counts (HC := BumpHeap.bump_heap_ok) o ∅ 77 20); [apply pc_rel_new; lia|lia|lia].
Defined.

Lemma zero_counter_spec pc :
  pc_ok pc → zero_counter pc = Some (set_array pc (replicate (Z.to_nat NG2C_GEN_ARRAY_SIZE) 0)).
Proof.
  intros [Hl _]. unfold zero_counter. rewrite fill_spec by lia. cbn [mbind option_bind].
  by rewrite drop_ge, app_nil_r by lia.
Qed.

Definition zeroed (pc : PromotionCounter) : PromotionCounter :=
  set_array pc (replicate (Z.to_nat NG2C_GEN_ARRAY_SIZE) 0).

(** [PromotionCounters::zero] clears every counter. *)
Lemma zero_counters_objs o M :
  pc_rel o M →
  ∃ o', zero_counters o = Some o' ∧ pc_rel o' (zeroed <$> M) ∧
    ∀ v y, ot_objs o' !! v = Some y → ∃ x, ot_objs o !! v = Some x ∧ (y = x ∨ y = zeroed x).
Proof.
  intros [Hot Hok Hh].
  destruct (OT_each zero_counter zeroed o M Hot)
    as (o' & E & Hot' & _ & _ & Hin).
  { intros v pc Ha. by apply zero_counter_spec, (Hok v). }
  exists o'. split_and!; [done| |done]. split; [done| |].
  - intros v y (x & Hx%Hok & [->| ->])%Hin; [done|]. split; [done|].
    apply Forall_replicate. unfold in_u64. lia.
  - intros k pc. rewrite lookup_fmap. intros (x & Hx & ->)%fmap_Some. by apply (Hh k x).
Qed.

End CounterTableFacts.
