(* ===== verification/StaticAnalysis.v ===== *)
(** [StaticAnalysis] ([ng2c/ng2c_static_analysis.cpp]): the tables that give
    call sites and allocation sites their 16-bit identifiers, filled from a
    text file or on demand.

    C strings are lists of bytes without the terminating NUL; the file is a
    list of bytes.  The C library functions the parser uses ([fgets],
    [strcspn], [strtok], [strtol], [strncmp], [strncpy]) are written out. *)

From S2P Require Import Prelude AltHashing HashTable ObjectTable Ng2cTables.
Import ObjectTable.

Module CString.

Definition ch_nl : Z := 10.
Definition ch_colon : Z := 58.

(** [fgets(line, n, stream)]: up to [n - 1] bytes, a newline ends the line
    and is kept; [None] at the end of the file. *)
Fixpoint fgets_loop (n : nat) (s : list Z) : list Z * list Z :=
  match n, s with
  | O, _ => ([], s)
  | _, [] => ([], [])
  | S n, c :: s =>
      if c =? ch_nl then ([c], s)
      else let '(l, s) := fgets_loop n s in (c :: l, s)
  end.

Definition fgets (n : Z) (s : list Z) : option (list Z * list Z) :=
  match s with [] => None | _ => Some (fgets_loop (Z.to_nat (n - 1)) s) end.

(** The C string in a buffer: the bytes before the first NUL. *)
Fixpoint c_str (s : list Z) : list Z :=
  match s with
  | [] => []
  | c :: s => if c =? 0 then [] else c :: c_str s
  end.

(** [line[strcspn(line, "\n")] = 0]. *)
Fixpoint cut_newline (s : list Z) : list Z :=
  match s with
  | [] => []
  | c :: s => if c =? ch_nl then [] else c :: cut_newline s
  end.

(** [strtok] with the single delimiter [':']: skip delimiters, take the bytes
    up to the next one.  The rest is what a following [strtok(NULL, ":")]
    works on. *)
Fixpoint skip_delim (s : list Z) : list Z :=
  match s with
  | c :: s' => if c =? ch_colon then skip_delim s' else s
  | [] => []
  end.

Fixpoint take_token (s : list Z) : list Z * list Z :=
  match s with
  | [] => ([], [])
  | c :: s => if c =? ch_colon then ([], s) else let '(t, r) := take_token s in (c :: t, r)
  end.

Definition strtok (s : list Z) : option (list Z) * list Z :=
  match skip_delim s with
  | [] => (None, [])
  | s => let '(t, r) := take_token s in (Some t, r)
  end.

Definition isspace (c : Z) : bool := (c =? 32) || ((9 <=? c) && (c <=? 13)).

Fixpoint skip_space (s : list Z) : list Z :=
  match s with
  | c :: s' => if isspace c then skip_space s' else s
  | [] => []
  end.

(** The value of a digit, or 36 for another character. *)
Definition digit (c : Z) : Z :=
  if (48 <=? c) && (c <=? 57) then c - 48
  else if (97 <=? c) && (c <=? 122) then c - 97 + 10
  else if (65 <=? c) && (c <=? 90) then c - 65 + 10
  else 36.

Fixpoint strtol_digits (base acc : Z) (s : list Z) : Z :=
  match s with
  | c :: s => if digit c <? base then strtol_digits base (acc * base + digit c) s else acc
  | [] => acc
  end.

(** [strtol(s, NULL, base)] for base 10 and 16: white space, a sign, for base
    16 an optional [0x], the digits; out of range it saturates to the limits
    of [long]. *)
Definition strtol (base : Z) (s : list Z) : Z :=
  let s := skip_space s in
  let '(neg, s) :=
    match s with
    | c :: s' => if c =? 45 then (true, s') else if c =? 43 then (false, s') else (false, s)
    | [] => (false, s)
    end in
  let s :=
    match s with
    | z :: x :: c :: s' =>
        if (base =? 16) && (z =? 48) && ((x =? 120) || (x =? 88)) && (digit c <? 16) then c :: s' else s
    | _ => s
    end in
  let v := strtol_digits base 0 s in
  let v := if neg then - v else v in
  Z.max (- 2 ^ 63) (Z.min v (2 ^ 63 - 1)).

(** [strncmp(m, buf, strlen(m)) != 0] for a buffer of C characters. *)
Fixpoint differs_from (m buf : list Z) : bool :=
  match m, buf with
  | [], _ => false
  | c :: m, b :: buf => if c =? b then differs_from m buf else true
  | _ :: _, [] => true
  end.

(** [strncpy(buf, m, strlen(m))]: overwrites the first bytes, adds no NUL;
    past the end of the buffer it is a fault. *)
Definition copy_prefix (buf m : list Z) : option (list Z) :=
  if (length m <=? length buf)%nat then Some (m ++ drop (length m) buf) else None.

Definition str_eq (s t : list Z) : bool := bool_decide (s = t).

(** "MID", "NID" and "java". *)
Definition s_MID : list Z := [77; 73; 68].
Definition s_NID : list Z := [78; 73; 68].
Definition s_java : list Z := [106; 97; 118; 97].

End CString.

Module StaticAnalysis.
Import CString AltHash.

Definition BUF_LEN : Z := 8 * 1024 + 1.

Record ContextIndex := mkCI {
  _index : Z; _method : Z; _bci : Z; _track_context : Z }.

Definition new_ContextIndex (index : Z) : ContextIndex := mkCI index NULL 0 0.
Definition set_method (ci : ContextIndex) (m : Z) : ContextIndex :=
  mkCI (_index ci) m (_bci ci) (_track_context ci).
Definition set_bci (ci : ContextIndex) (b : Z) : ContextIndex :=
  mkCI (_index ci) (_method ci) b (_track_context ci).
Definition set_track_context (ci : ContextIndex) (t : Z) : ContextIndex :=
  mkCI (_index ci) (_method ci) (_bci ci) t.

(** What the analysis reads and writes of a [Method]: its external name and
    signature, and the hash cached in its [ConstMethod]. *)
Record Method := mkMethod { name_and_sig : list Z; context : Z }.

(** [hash_buf] and [hash_key] are the static locals of [hash(char*, int)]. *)
Record StaticAnalysis := mkSA {
  _invoke2Context : ObjTable ContextIndex;
  _alloc2Context : ObjTable ContextIndex;
  hash_buf : list Z;
  hash_key : Z;
  methods : gmap Z Method }.

(** The flags [UseROLP] and [NG2CStaticAnalysis == NULL]. *)
Record flags := mkFlags { UseROLP : bool; no_analysis_file : bool }.

Definition upd_invoke (s : StaticAnalysis) (o : ObjTable ContextIndex) : StaticAnalysis :=
  mkSA o (_alloc2Context s) (hash_buf s) (hash_key s) (methods s).
Definition upd_alloc (s : StaticAnalysis) (o : ObjTable ContextIndex) : StaticAnalysis :=
  mkSA (_invoke2Context s) o (hash_buf s) (hash_key s) (methods s).
Definition upd_cache (s : StaticAnalysis) (buf : list Z) (key : Z) : StaticAnalysis :=
  mkSA (_invoke2Context s) (_alloc2Context s) buf key (methods s).
Definition upd_methods (s : StaticAnalysis) (ms : gmap Z Method) : StaticAnalysis :=
  mkSA (_invoke2Context s) (_alloc2Context s) (hash_buf s) (hash_key s) ms.

(** [AltHashing::murmur3_32(37, name, len)] converted to [uint]. *)
Definition name_key (name : list Z) : Z := u32 (murmur3_32_bytes 37 (i8 <$> name)).

(** [hash(Method*, int)]. *)
Definition hash_method (s : StaticAnalysis) (m bci : Z) : option (Z * StaticAnalysis) :=
  mt ← methods s !! m;
  if context mt =? 0 then
    let key := name_key (name_and_sig mt) in
    Some (u32 (key + bci), upd_methods s (<[m := mkMethod (name_and_sig mt) key]> (methods s)))
  else Some (u32 (context mt + bci), s).

(** [hash(char*, int)]. *)
Definition hash_string (s : StaticAnalysis) (m : list Z) (bci : Z) : option (Z * StaticAnalysis) :=
  s ← (if differs_from m (hash_buf s) then
         buf ← copy_prefix (hash_buf s) m;
         Some (upd_cache s buf (name_key m))
       else Some s);
  Some (u32 (hash_key s + bci), s).

Definition get_value (hashtable : ObjTable ContextIndex) (key : Z) : option Z := find_literal hashtable key.

(** The two tables, selected by the member the caller passes. *)
Inductive which := Invoke2Context | Alloc2Context.

Definition tbl (s : StaticAnalysis) (w : which) : ObjTable ContextIndex :=
  match w with Invoke2Context => _invoke2Context s | Alloc2Context => _alloc2Context s end.
Definition upd_tbl (s : StaticAnalysis) (w : which) (o : ObjTable ContextIndex) : StaticAnalysis :=
  match w with Invoke2Context => upd_invoke s o | Alloc2Context => upd_alloc s o end.

Section ops.
Context `{CHeap}.

(** [add_index(hashtable, key, method, bci, index)]. *)
Definition add_index_key (s : StaticAnalysis) (w : which) (key index : Z) : option (Z * StaticAnalysis) :=
  '(_, o) ← insert_new (tbl s w) key (new_ContextIndex index);
  Some (key, upd_tbl s w o).

(** [add_index(hashtable, char* method, bci, index)]. *)
Definition add_index_string (s : StaticAnalysis) (w : which) (method : list Z) (bci index : Z)
    : option (Z * StaticAnalysis) :=
  '(key, s) ← hash_string s method bci;
  add_index_key s w key index.

(** One line of the file; [None] is a fault (a missing field is a NULL
    pointer), [Some (false, _)] the [return false] on an unknown type. *)
Definition parse_line (s : StaticAnalysis) (line : list Z) : option (bool * StaticAnalysis) :=
  let line := cut_newline (c_str line) in
  let '(type, r) := strtok line in
  let '(method, r) := strtok r in
  let '(sbci, r) := strtok r in
  let '(sindex, _) := strtok r in
  sbci ← sbci;
  sindex ← sindex;
  let bci := i32 (strtol 10 sbci) in
  let index := u16 (strtol 16 sindex) in
  type ← type;
  if str_eq type s_MID then
    method ← method;
    '(_, s) ← add_index_string s Invoke2Context method bci index;
    Some (true, s)
  else if str_eq type s_NID then
    method ← method;
    '(_, s) ← add_index_string s Alloc2Context method bci index;
    Some (true, s)
  else Some (false, s).

Fixpoint parse_loop (fuel : nat) (s : StaticAnalysis) (file : list Z) : option (bool * StaticAnalysis) :=
  match fgets BUF_LEN file with
  | None => Some (true, s)
  | Some (line, file) =>
      match fuel with
      | O => None
      | S fuel =>
          '(ok, s) ← parse_line s line;
          if ok : bool then parse_loop fuel s file else Some (false, s)
      end
  end.

(** [parse_from_file]; [file = None] when [fopen] fails. *)
Definition parse_from_file (s : StaticAnalysis) (file : option (list Z)) : option (bool * StaticAnalysis) :=
  match file with
  | None => Some (false, s)
  | Some file => parse_loop (length file) s file
  end.

(** The constructor; [input = None] when [input_file == NULL].  The static
    locals start as zeroes. *)
Definition new_StaticAnalysis (ms : gmap Z Method) (input : option (option (list Z)))
    : option StaticAnalysis :=
  let t := empty_table NG2C_MAX_ALLOC_SITE sizeof_HashtableEntry in
  let s := mkSA t t (replicate (Z.to_nat BUF_LEN) 0) 0 ms in
  match input with
  | None => Some s
  | Some file => '(_, s) ← parse_from_file s file; Some s
  end.

(** [ci->set_method(m); ci->set_bci(bci)]. *)
Definition touch (s : StaticAnalysis) (w : which) (ci m bci : Z) : option StaticAnalysis :=
  c ← ot_objs (tbl s w) !! ci;
  Some (upd_tbl s w (set_object (tbl s w) ci (set_bci (set_method c m) (u32 bci)))).

(** [get_invoke_context] and [get_alloc_context], which differ only in the
    table. *)
Definition get_context (f : flags) (w : which) (s : StaticAnalysis) (m bci : Z)
    : option (Z * StaticAnalysis) :=
  if negb (UseROLP f) && no_analysis_file f then Some (NULL, s)
  else
    mt ← methods s !! m;
    if no_analysis_file f && str_eq (take 4 (name_and_sig mt)) s_java then Some (NULL, s)
    else
      '(key, s) ← hash_method s m bci;
      ci ← get_value (tbl s w) key;
      if no_analysis_file f then
        ci ← get_value (tbl s w) key;
        '(ci, s) ←
          (if ci =? NULL then
             let index := key &&& 0xFFFF in
             '(_, s) ← add_index_key s w key index;
             ci ← get_value (tbl s w) key;
             Some (ci, s)
           else Some (ci, s));
        s ← touch s w ci m bci;
        Some (ci, s)
      else if negb (ci =? NULL) then
        s ← touch s w ci m bci;
        Some (ci, s)
      else Some (NULL, s).

Definition get_invoke_context (f : flags) := get_context f Invoke2Context.
Definition get_alloc_context (f : flags) := get_context f Alloc2Context.

Definition index_of (w : which) (s : StaticAnalysis) (ci : Z) : option Z :=
  if ci =? NULL then Some 0 else c ← ot_objs (tbl s w) !! ci; Some (_index c).

Definition get_invoke_index (f : flags) (s : StaticAnalysis) (m bci : Z) : option (Z * StaticAnalysis) :=
  '(ci, s) ← get_invoke_context f s m bci;
  i ← index_of Invoke2Context s ci;
  Some (i, s).

Definition get_alloc_index (f : flags) (s : StaticAnalysis) (m bci : Z) : option (Z * StaticAnalysis) :=
  '(ci, s) ← get_alloc_context f s m bci;
  i ← index_of Alloc2Context s ci;
  Some (i, s).

End ops.

End StaticAnalysis.

(** * The file format *)

Module FileFormat.
Import CString StaticAnalysis.

(** [n] in [k] digits of the base. *)
Definition digit_char (d : Z) : Z := if d <? 10 then 48 + d else 97 + (d - 10).

Fixpoint digits (base : Z) (k : nat) (n : Z) : list Z :=
  match k with
  | O => []
  | S k => digits base k (n / base) ++ [digit_char (n mod base)]
  end.

Record entry := mkE { e_table : which; e_method : list Z; e_bci : Z; e_index : Z }.

(** The line [MID:<method>:<bci>:<id>] (or [NID:..]). *)
Definition entry_line (e : entry) : list Z :=
  (match e_table e with Invoke2Context => s_MID | Alloc2Context => s_NID end) ++ ch_colon ::
  e_method e ++ ch_colon :: digits 10 5 (e_bci e) ++ ch_colon :: digits 16 4 (e_index e) ++ [ch_nl].

Definition plain (c : Z) : Prop := c ≠ 0 ∧ c ≠ ch_nl ∧ c ≠ ch_colon.

Record entry_ok (e : entry) : Prop := {
  eo_name : e_method e ≠ [] ∧ Forall plain (e_method e);
  eo_len : Z.of_nat (length (e_method e)) <= 8000;
  eo_bci : 0 <= e_bci e < 2 ^ 16;
  eo_index : 0 <= e_index e < 2 ^ 16 }.

Lemma digit_digit_char d : 0 <= d < 16 → digit (digit_char d) = d.
Proof.
  intros. unfold digit_char, digit. destruct (Z.ltb_spec d 10).
  - destruct (Z.leb_spec 48 (48 + d)), (Z.leb_spec (48 + d) 57); try lia. cbn. lia.
  - destruct (Z.leb_spec 48 (97 + (d - 10))), (Z.leb_spec (97 + (d - 10)) 57),
      (Z.leb_spec 97 (97 + (d - 10))), (Z.leb_spec (97 + (d - 10)) 122); try lia; cbn; lia.
Qed.

Lemma digit_char_range d : 0 <= d < 16 → 48 <= digit_char d <= 57 ∨ 97 <= digit_char d <= 102.
Proof. intros. unfold digit_char. destruct (Z.ltb_spec d 10); lia. Qed.

(** The digit strings are read back by the digit loop. *)
Lemma strtol_digits_app base acc l d :
  Forall (λ c, digit c < base) l →
  strtol_digits base acc (l ++ [d]) =
    let v := strtol_digits base acc l in if digit d <? base then v * base + digit d else v.
Proof.
  intros Hl. revert acc. induction Hl as [|c l Hc _ IH]; intros acc; cbn; [by destruct (_ <? _)|].
  by rewrite (proj2 (Z.ltb_lt (digit c) base)).
Qed.

Lemma digits_ok base k n :
  0 < base <= 16 → 0 <= n → Forall (λ c, digit c < base ∧ plain c ∧ 48 <= c) (digits base k n).
Proof.
  intros Hb. revert n. induction k as [|k IH]; intros n Hn; cbn; [constructor|].
  apply Forall_app. split; [apply IH, Z.div_pos; lia|]. constructor; [|constructor].
  pose proof (Z.mod_pos_bound n base). pose proof (digit_char_range (n mod base)).
  rewrite digit_digit_char by lia. unfold plain, ch_nl, ch_colon. lia.
Qed.

Lemma strtol_digits_digits base k n :
  0 < base <= 16 → 0 <= n < base ^ Z.of_nat k → strtol_digits base 0 (digits base k n) = n.
Proof.
  intros Hb. revert n. induction k as [|k IH]; intros n Hn; [cbn in *; lia|].
  rewrite Nat2Z.inj_succ, Z.pow_succ_r in Hn by lia. cbn [digits].
  pose proof (Z.mod_pos_bound n base ltac:(lia)).
  rewrite strtol_digits_app.
  - rewrite digit_digit_char, IH by first [lia|split; [apply Z.div_pos; lia|apply Z.div_lt_upper_bound; lia]].
    cbn zeta. rewrite (proj2 (Z.ltb_lt _ _)) by lia. pose proof (Z.div_mod n base). lia.
  - eapply Forall_impl; [apply digits_ok; [done|]|].
    + apply Z.div_pos; lia.
    + by intros c (? & _).
Qed.

(** [strtol] on a string of digits that does not start with a blank, a sign
    or [0x]. *)
Lemma strtol_plain base l :
  Forall (λ c, 48 <= c ∧ c ≠ 120 ∧ c ≠ 88) l → - 2 ^ 63 <= strtol_digits base 0 l < 2 ^ 63 →
  strtol base l = strtol_digits base 0 l.
Proof.
  intros Hl Hr. unfold strtol.
  assert (Hs : skip_space l = l).
  { destruct Hl as [|c l [? _] _]; [done|]. cbn. unfold isspace.
    destruct (Z.eqb_spec c 32), (Z.leb_spec 9 c), (Z.leb_spec c 13); try lia; done. }
  rewrite Hs. destruct l as [|c l]; [cbn; lia|].
  apply Forall_cons in Hl as [(Hc & _) Hl].
  rewrite (proj2 (Z.eqb_neq c 45)), (proj2 (Z.eqb_neq c 43)) by lia.
  assert (Hx : match l with
     | x :: d :: s' => if (base =? 16) && (c =? 48) && ((x =? 120) || (x =? 88)) && (digit d <? 16)
                       then d :: s' else c :: l
     | _ => c :: l end = c :: l).
  { destruct l as [|x [|d l]]; [done|done|]. apply Forall_cons in Hl as [(_ & ? & ?) _].
    rewrite (proj2 (Z.eqb_neq x 120)), (proj2 (Z.eqb_neq x 88)) by done. by rewrite andb_false_r. }
  destruct l as [|x [|d l]]; cbv zeta; rewrite ?Hx; lia.
Qed.

Lemma strtol_printed base k n :
  base = 10 ∨ base = 16 → 0 <= n < base ^ Z.of_nat k → base ^ Z.of_nat k <= 2 ^ 63 →
  strtol base (digits base k n) = n.
Proof.
  intros Hb Hn Hk. rewrite strtol_plain; rewrite ?strtol_digits_digits by lia; [done| |lia].
  eapply Forall_impl; [apply (digits_ok base k n); lia|]. intros c (Hd & Hp & Hc).
  split_and!; [done|intros ->; cbn in Hd; lia|intros ->; cbn in Hd; lia].
Qed.

(** ** Tokens *)

Lemma take_token_colon t r : Forall plain t → take_token (t ++ ch_colon :: r) = (t, r).
Proof.
  induction 1 as [|c t (_ & _ & Hc) _ IH]; [done|]. cbn.
  by rewrite (proj2 (Z.eqb_neq c ch_colon)), IH by done.
Qed.

Lemma take_token_end t : Forall plain t → take_token t = (t, []).
Proof.
  induction 1 as [|c t (_ & _ & Hc) _ IH]; [done|]. cbn.
  by rewrite (proj2 (Z.eqb_neq c ch_colon)), IH by done.
Qed.

Lemma skip_delim_plain t r : t ≠ [] → Forall plain t → skip_delim (t ++ r) = t ++ r.
Proof.
  intros Hne Ht. destruct Ht as [|c t (_ & _ & Hc) _]; [done|]. cbn.
  by rewrite (proj2 (Z.eqb_neq c ch_colon)).
Qed.

Lemma strtok_colon t r : t ≠ [] → Forall plain t → strtok (t ++ ch_colon :: r) = (Some t, r).
Proof.
  intros Hne Ht. unfold strtok. rewrite skip_delim_plain by done.
  pose proof (take_token_colon t r Ht) as E. destruct t as [|c t]; [done|]. cbn [app] in *. by rewrite E.
Qed.

Lemma strtok_end t : t ≠ [] → Forall plain t → strtok t = (Some t, []).
Proof.
  intros Hne Ht. unfold strtok. pose proof (skip_delim_plain t [] Hne Ht) as E. rewrite app_nil_r in E.
  rewrite E. pose proof (take_token_end t Ht) as E'. destruct t as [|c t]; [done|]. by rewrite E'.
Qed.

(** ** Lines *)

Definition type_name (w : which) : list Z := match w with Invoke2Context => s_MID | Alloc2Context => s_NID end.

Definition fields (e : entry) : list Z :=
  type_name (e_table e) ++ ch_colon :: e_method e ++ ch_colon ::
  digits 10 5 (e_bci e) ++ ch_colon :: digits 16 4 (e_index e).

Lemma entry_line_fields e : entry_line e = fields e ++ [ch_nl].
Proof. unfold entry_line, fields. repeat (rewrite <- app_assoc; cbn [app]). done. Qed.

Definition no_special (c : Z) : Prop := c ≠ 0 ∧ c ≠ ch_nl.

Lemma fields_no_special e : entry_ok e → Forall no_special (fields e).
Proof.
  intros [[_ Hn] _ Hb Hi]. unfold fields.
  assert (Hp : ∀ l, Forall plain l → Forall no_special l).
  { intros l Hl. eapply Forall_impl; [exact Hl|]. by intros c (? & ? & ?). }
  assert (Hd : ∀ base k n, 0 < base <= 16 → 0 <= n → Forall no_special (digits base k n)).
  { intros. apply Hp. eapply Forall_impl; [by apply digits_ok|]. by intros c (? & ? & ?). }
  assert (Hc : no_special ch_colon) by done.
  apply Forall_app; split; [destruct (e_table e); by repeat constructor|]. constructor; [done|].
  apply Forall_app; split; [by apply Hp|]. constructor; [done|].
  apply Forall_app; split; [apply Hd; lia|]. constructor; [done|apply Hd; lia].
Qed.

Lemma c_str_no_special l r : Forall no_special l → c_str (l ++ r) = l ++ c_str r.
Proof. induction 1 as [|c l [Hc _] _ IH]; [done|]. cbn. by rewrite (proj2 (Z.eqb_neq c 0)), IH by done. Qed.

Lemma cut_newline_no_special l : Forall no_special l → cut_newline (l ++ [ch_nl]) = l.
Proof. induction 1 as [|c l [_ Hc] _ IH]; [done|]. cbn. by rewrite (proj2 (Z.eqb_neq c ch_nl)), IH by done. Qed.

Lemma fgets_loop_line n l r :
  Forall no_special l → (length l < n)%nat → fgets_loop n (l ++ ch_nl :: r) = (l ++ [ch_nl], r).
Proof.
  intros Hl. revert n. induction Hl as [|c l [_ Hc] _ IH]; intros [|n] Hn; cbn in *; try lia; [done|].
  by rewrite (proj2 (Z.eqb_neq c ch_nl)), IH by (done || lia).
Qed.

Lemma digits_length base k n : length (digits base k n) = k.
Proof. revert n. induction k as [|k IH]; intros n; [done|]. cbn. rewrite length_app, IH. cbn. lia. Qed.

Lemma digits_nonempty base k n : digits base (S k) n ≠ [].
Proof. intros E%(f_equal length). rewrite digits_length in E. done. Qed.

Lemma fgets_line e r : entry_ok e → fgets BUF_LEN (entry_line e ++ r) = Some (entry_line e, r).
Proof.
  intros He. pose proof (eo_len e He) as Hl. rewrite entry_line_fields, <- app_assoc. cbn [app].
  assert (Hne : fields e ++ ch_nl :: r ≠ []) by (destruct (fields e); done).
  unfold fgets. destruct (fields e ++ ch_nl :: r) eqn:E; [done|]. rewrite <- E. f_equal.
  apply fgets_loop_line; [by apply fields_no_special|]. apply Nat2Z.inj_lt.
  rewrite Z2Nat.id by (unfold BUF_LEN; lia). unfold fields, BUF_LEN.
  repeat (rewrite length_app; cbn [length]). rewrite !digits_length.
  destruct (e_table e); cbn [type_name s_MID s_NID length]; lia.
Qed.

Section ops.
Context `{CHeap}.

(** What the loop body does with an entry. *)
Definition add_entry_of (s : StaticAnalysis) (e : entry) : option StaticAnalysis :=
  '(_, s) ← add_index_string s (e_table e) (e_method e) (e_bci e) (e_index e);
  Some s.

Fixpoint add_entries (s : StaticAnalysis) (es : list entry) : option StaticAnalysis :=
  match es with
  | [] => Some s
  | e :: es => s ← add_entry_of s e; add_entries s es
  end.

Lemma parse_line_entry s e :
  entry_ok e → parse_line s (entry_line e) = s ← add_entry_of s e; Some (true, s).
Proof.
  intros He. pose proof He as [[Hne Hn] _ Hb Hi].
  assert (Hp : ∀ base k n, 0 < base <= 16 → 0 <= n → Forall plain (digits base k n)).
  { intros. eapply Forall_impl; [by apply digits_ok|]. by intros c (? & ? & ?). }
  unfold parse_line. rewrite entry_line_fields, c_str_no_special by by apply fields_no_special.
  change (c_str [ch_nl]) with [ch_nl]. rewrite cut_newline_no_special by by apply fields_no_special.
  unfold fields.
  rewrite strtok_colon by (destruct (e_table e); by repeat constructor).
  rewrite strtok_colon by done. rewrite strtok_colon by first [apply Hp; lia|apply digits_nonempty].
  rewrite strtok_end by first [apply Hp; lia|apply digits_nonempty].
  cbn [mbind option_bind].
  rewrite (strtol_printed 10 5), (strtol_printed 16 4) by first [by left|by right|lia].
  rewrite i32_small, u16_small by (unfold in_u16; lia). unfold add_entry_of.
  destruct (e_table e); cbn [type_name].
  - change (str_eq s_MID s_MID) with true. cbn iota. by destruct (add_index_string _ _ _ _ _) as [[]|].
  - change (str_eq s_NID s_MID) with false. change (str_eq s_NID s_NID) with true. cbn iota.
    by destruct (add_index_string _ _ _ _ _) as [[]|].
Qed.

Lemma parse_loop_entries fuel s es :
  Forall entry_ok es → (length es <= fuel)%nat →
  parse_loop fuel s (concat (entry_line <$> es)) = s ← add_entries s es; Some (true, s).
Proof.
  intros Hes. revert fuel s. induction Hes as [|e es He _ IH]; intros fuel s Hf; [by destruct fuel|].
  destruct fuel as [|fuel]; [cbn in Hf; lia|]. cbn [parse_loop fmap list_fmap concat].
  change (concat (entry_line <$> e :: es)) with (entry_line e ++ concat (entry_line <$> es)).
  rewrite fgets_line, parse_line_entry by done. cbn [add_entries].
  destruct (add_entry_of s e) as [s'|]; [|done]. cbn [mbind option_bind]. apply IH. cbn in Hf. lia.
Qed.

Lemma concat_lines_length es : (length es <= length (concat (entry_line <$> es)))%nat.
Proof.
  induction es as [|e es IH]; [done|]. rewrite fmap_cons. cbn [concat length].
  rewrite length_app, entry_line_fields, length_app. cbn. lia.
Qed.

(** A file made of one line per entry is parsed to the end, and adds its
    entries in order. *)
Lemma parse_printed_lines s es :
  Forall entry_ok es →
  parse_from_file s (Some (concat (entry_line <$> es))) = s ← add_entries s es; Some (true, s).
Proof. intros Hes. apply parse_loop_entries; [done|]. apply concat_lines_length. Qed.

End ops.

Definition demo_entries : list entry :=
  [mkE Alloc2Context [65; 46; 109; 40; 41] 17 0xBEEF; mkE Invoke2Context [66; 46; 110; 40; 41] 300 7].

Lemma demo_entries_ok : Forall entry_ok demo_entries.
Proof.
  repeat constructor; cbn; unfold ch_nl, ch_colon; try lia; done.
Qed.

End FileFormat.

(** * Properties of the tables *)

Module StaticAnalysisFacts.
Import CString StaticAnalysis FileFormat AltHash.

(** The key of a site: hash of the method name plus bytecode index. *)
Definition key_of (name : list Z) (bci : Z) : Z := u32 (name_key name + bci).

(** A cached method hash is the hash of the method's name. *)
Definition methods_ok (s : StaticAnalysis) : Prop :=
  ∀ m mt, methods s !! m = Some mt → context mt = 0 ∨ context mt = name_key (name_and_sig mt).

(** Both tables implement maps from keys to context indices. *)
Record sa_rel (s : StaticAnalysis) (M : which → gmap Z ContextIndex) : Prop := {
  sr_tbl : ∀ w, OT (tbl s w) (M w);
  sr_methods : methods_ok s }.

Lemma tbl_upd_eq s w o : tbl (upd_tbl s w o) w = o.
Proof. by destruct w. Qed.

Lemma tbl_upd_ne s w w' o : w ≠ w' → tbl (upd_tbl s w o) w' = tbl s w'.
Proof. by destruct w, w'. Qed.

Lemma methods_upd s w o : methods (upd_tbl s w o) = methods s.
Proof. by destruct w. Qed.

#[global] Instance which_eq_dec : EqDecision which.
Proof. solve_decision. Defined.

Definition upd_map (M : which → gmap Z ContextIndex) (w : which) (k : Z) (c : ContextIndex)
    : which → gmap Z ContextIndex :=
  λ w', if decide (w = w') then <[k := c]> (M w) else M w'.

Lemma sa_rel_upd s M w o k c :
  sa_rel s M → OT o (<[k := c]> (M w)) → sa_rel (upd_tbl s w o) (upd_map M w k c).
Proof.
  intros [Ht Hm] Ho. split.
  - intros w'. unfold upd_map. destruct (decide (w = w')) as [<-|]; [by rewrite tbl_upd_eq|].
    by rewrite tbl_upd_ne.
  - unfold methods_ok. by rewrite methods_upd.
Qed.

Lemma sa_rel_ext s M M' : (∀ w, M w = M' w) → sa_rel s M → sa_rel s M'.
Proof. intros E [Ht Hm]. split; [|done]. intros w. by rewrite <- E. Qed.

Lemma upd_upd_map M w k c c' : ∀ w', upd_map (upd_map M w k c) w k c' w' = upd_map M w k c' w'.
Proof.
  intros w'. unfold upd_map. destruct (decide (w = w')); [|done].
  rewrite decide_True by done. apply insert_insert_eq.
Qed.

Lemma upd_map_eq M w k c : upd_map M w k c w !! k = Some c.
Proof. unfold upd_map. rewrite decide_True by done. by rewrite lookup_insert_eq. Qed.

Lemma hash_method_spec s M m mt bci :
  sa_rel s M → methods s !! m = Some mt →
  ∃ s', hash_method s m bci = Some (key_of (name_and_sig mt) bci, s') ∧ sa_rel s' M ∧
    (∀ m', name_and_sig <$> methods s' !! m' = name_and_sig <$> methods s !! m') ∧
    (context mt ≠ 0 → s' = s).
Proof.
  intros [Ht Hm] Hmt. unfold hash_method. rewrite Hmt. cbn.
  destruct (Z.eqb_spec (context mt) 0) as [E|E].
  - eexists; split_and!; [done| | |done].
    + split; [by intros []; [apply (Ht Invoke2Context)|apply (Ht Alloc2Context)]|].
      intros m' mt'. cbn. intros [(<- & <-)|(? & ?)]%lookup_insert_Some; [by right|by apply (Hm m')].
    + intros m'. cbn. destruct (decide (m = m')) as [<-|]; [by rewrite lookup_insert_eq, Hmt|].
      by rewrite lookup_insert_ne.
  - exists s. split_and!; [|done..]. unfold key_of. destruct (Hm m mt Hmt) as [|Hc]; [done|]. by rewrite Hc.
Qed.

Section ops.
Context `{HC : !CHeapOk C}.

Lemma add_index_key_spec s M w k i :
  sa_rel s M → 0 <= k →
  ∃ v s', add_index_key s w k i = Some (k, s') ∧ sa_rel s' (upd_map M w k (new_ContextIndex i)) ∧
    v ≠ NULL ∧ get_value (tbl s' w) k = Some v ∧ ot_objs (tbl s' w) !! v = Some (new_ContextIndex i) ∧
    methods s' = methods s ∧ hash_buf s' = hash_buf s ∧ hash_key s' = hash_key s.
Proof.
  intros Hr Hk. destruct (OT_insert (tbl s w) (M w) k (new_ContextIndex i) (sr_tbl s M Hr w) Hk)
    as (v & o & E & Ho & Hv & Hobjs & _ & Hf & _).
  unfold add_index_key. rewrite E. cbn. exists v. eexists. split; [done|].
  rewrite tbl_upd_eq, methods_upd. split_and!; try done.
  - by apply sa_rel_upd.
  - by rewrite Hobjs, lookup_insert_eq.
  - by destruct w.
  - by destruct w.
Qed.

Lemma touch_spec s M w k ci c m bci :
  sa_rel s M → get_value (tbl s w) k = Some ci → M w !! k = Some c → ot_objs (tbl s w) !! ci = Some c →
  let c' := set_bci (set_method c m) (u32 bci) in
  ∃ s', touch s w ci m bci = Some s' ∧ sa_rel s' (upd_map M w k c') ∧ ot_objs (tbl s' w) !! ci = Some c' ∧
    get_value (tbl s' w) k = Some ci ∧ methods s' = methods s.
Proof.
  intros Hr Hg Hk Ho c'. unfold touch. rewrite Ho. cbn. eexists. split; [done|].
  rewrite tbl_upd_eq, methods_upd. split_and!; try done.
  - apply sa_rel_upd; [done|]. eapply OT_set; [apply (sr_tbl s M Hr)|done|done].
  - cbn. by rewrite lookup_insert_eq.
Qed.

(** The outcome of a context lookup on the abstract tables. *)
Definition context_entry (f : flags) (M : which → gmap Z ContextIndex) (w : which) (k : Z) : option ContextIndex :=
  match M w !! k with
  | Some c => Some c
  | None => if no_analysis_file f then Some (new_ContextIndex (k &&& 0xFFFF)) else None
  end.

Definition skips (f : flags) (name : list Z) : bool :=
  (negb (UseROLP f) && no_analysis_file f) || (no_analysis_file f && str_eq (take 4 name) s_java).

Lemma get_context_spec f w s M m mt bci :
  sa_rel s M → methods s !! m = Some mt → skips f (name_and_sig mt) = false →
  let k := key_of (name_and_sig mt) bci in
  ∃ ci s', get_context f w s m bci = Some (ci, s') ∧
    (∀ m', name_and_sig <$> methods s' !! m' = name_and_sig <$> methods s !! m') ∧
    (context mt ≠ 0 → methods s' = methods s) ∧
    match context_entry f M w k with
    | Some c => let c' := set_bci (set_method c m) (u32 bci) in
        ci ≠ NULL ∧ ot_objs (tbl s' w) !! ci = Some c' ∧ sa_rel s' (upd_map M w k c')
    | None => ci = NULL ∧ sa_rel s' M
    end.
Proof.
  intros Hr Hmt Hs k. unfold get_context. unfold skips in Hs. apply orb_false_iff in Hs as [Hs1 Hs2].
  rewrite Hs1, Hmt. cbn [mbind option_bind]. rewrite Hs2.
  destruct (hash_method_spec s M m mt bci Hr Hmt) as (s1 & -> & Hr1 & Hms & Hnz). cbn [mbind option_bind]. fold k.
  assert (Hk : 0 <= k) by apply u32_range.
  destruct (OT_find (tbl s1 w) (M w) k (sr_tbl s1 M Hr1 w)) as (ci & Hf & Hci).
  change (find_literal (tbl s1 w) k) with (get_value (tbl s1 w) k) in Hf. rewrite Hf. cbn [mbind option_bind].
  unfold context_entry. destruct (M w !! k) as [c|] eqn:Hc.
  - destruct Hci as [Hn Ho]. rewrite (proj2 (Z.eqb_neq ci NULL)) by done. cbn [negb mbind option_bind].
    destruct (touch_spec s1 M w k ci c m bci Hr1 Hf Hc Ho) as (s2 & E2 & Hr2 & Ho2 & _ & Hm2).
    rewrite E2. cbn [mbind option_bind]. rewrite <- Hm2 in Hms.
    assert (Hnz' : context mt ≠ 0 → methods s2 = methods s) by (intros ->%Hnz; done).
    destruct (no_analysis_file f); exists ci, s2; by split_and!.
  - subst ci. cbn [Z.eqb NULL negb]. destruct (no_analysis_file f).
    2: { exists NULL, s1. split_and!; try done. by intros ->%Hnz. }
    destruct (add_index_key_spec s1 M w k (k &&& 0xFFFF) Hr1 Hk)
      as (v & s2 & -> & Hr2 & Hv & Hg2 & Ho2 & Hm2 & _). cbn [mbind option_bind]. rewrite Hg2. cbn [mbind option_bind].
    destruct (touch_spec s2 _ w k v _ m bci Hr2 Hg2 (upd_map_eq _ _ _ _) Ho2)
      as (s3 & -> & Hr3 & Ho3 & _ & Hm3). cbn [mbind option_bind].
    exists v, s3. rewrite Hm3, Hm2. split_and!; try done; [by intros ->%Hnz|].
    eapply sa_rel_ext; [apply upd_upd_map|done].
Qed.

(** Without a file every identifier is the low half of its key, and no call
    site is tracked. *)
Definition full_ok (M : which → gmap Z ContextIndex) : Prop :=
  ∀ w k c, M w !! k = Some c → _index c = k &&& 0xFFFF ∧ _track_context c = 0.

Lemma full_ok_context f M w k c :
  full_ok M → no_analysis_file f = true → context_entry f M w k = Some c →
  _index c = k &&& 0xFFFF ∧ _track_context c = 0.
Proof.
  intros HM Hf. unfold context_entry. rewrite Hf. destruct (M w !! k) eqn:E; intros ?; simplify_eq; [by eapply HM|done].
Qed.

Lemma u16_key name bci : key_of name bci &&& 0xFFFF = u16 (name_key name + bci).
Proof. unfold key_of, u32, u16. rewrite <- Z.land_assoc. done. Qed.

(** The lookups of a method that is not skipped, without a file. *)
Lemma full_mode_ids f s M m mt bci :
  sa_rel s M → full_ok M → no_analysis_file f = true → methods s !! m = Some mt → skips f (name_and_sig mt) = false →
  ∃ s1 s2 M1 M2,
    get_alloc_index f s m bci = Some (u16 (name_key (name_and_sig mt) + bci), s1) ∧
    sa_rel s1 M1 ∧ full_ok M1 ∧
    get_invoke_index f s m bci = Some (u16 (name_key (name_and_sig mt) + bci), s2) ∧
    sa_rel s2 M2 ∧ full_ok M2.
Proof.
  intros Hr HM Hf Hmt Hs.
  assert (Hstep : ∀ w, ∃ ci s' M', get_context f w s m bci = Some (ci, s') ∧
    index_of w s' ci = Some (u16 (name_key (name_and_sig mt) + bci)) ∧ sa_rel s' M' ∧ full_ok M').
  { intros w. destruct (get_context_spec f w s M m mt bci Hr Hmt Hs) as (ci & s' & E & _ & _ & Hx).
    set (k := key_of _ _) in Hx. destruct (context_entry f M w k) as [c|] eqn:Hc; cycle 1.
    { unfold context_entry in Hc. rewrite Hf in Hc. by destruct (M w !! k). }
    destruct (full_ok_context f M w k c HM Hf Hc) as [Hi Ht].
    destruct Hx as (Hn & Ho & Hr'). eexists ci, s', _. split_and!; [done| |done|].
    - unfold index_of. rewrite (proj2 (Z.eqb_neq ci NULL)) by done. rewrite Ho. cbn. by rewrite Hi, <- u16_key.
    - intros w' k' c'. unfold upd_map. destruct (decide (w = w')); [|by apply HM].
      intros [(<- & <-)|(? & ?)]%lookup_insert_Some; [done|by eapply HM]. }
  destruct (Hstep Alloc2Context) as (ci1 & s1 & M1 & E1 & I1 & ? & ?).
  destruct (Hstep Invoke2Context) as (ci2 & s2 & M2 & E2 & I2 & ? & ?).
  exists s1, s2, M1, M2. unfold get_alloc_index, get_invoke_index, get_alloc_context, get_invoke_context.
  rewrite E1, E2. cbn [mbind option_bind]. rewrite I1, I2. by split_and!.
Qed.

Definition starts_with (str name : list Z) : bool := str_eq (take (length str) name) str.
Definition s_sun : list Z := [115; 117; 110].

(** C14: The lookups of a site when no analysis file is given. Without ROLP,
    and for the methods of java classes, both lookups answer 0 and change
    nothing. With ROLP, the identifier of a call or allocation site of a
    method whose name starts with neither java nor sun depends only on the
    name and the bytecode index: it is the low 16 bits of the name's Murmur
    hash plus the bytecode index, whatever was looked up before; the lookup
    does not fault and leaves the context tracking of all sites off. *)
Theorem site_ids_from_names f s M m mt bci :
  sa_rel s M → full_ok M → no_analysis_file f = true → methods s !! m = Some mt →
  (UseROLP f = false ∨ starts_with s_java (name_and_sig mt) = true →
    get_alloc_index f s m bci = Some (0, s) ∧ get_invoke_index f s m bci = Some (0, s)) ∧
  (UseROLP f = true → starts_with s_java (name_and_sig mt) = false → starts_with s_sun (name_and_sig mt) = false →
    ∃ s1 s2 M1 M2,
      get_alloc_index f s m bci = Some (u16 (name_key (name_and_sig mt) + bci), s1) ∧ sa_rel s1 M1 ∧ full_ok M1 ∧
      get_invoke_index f s m bci = Some (u16 (name_key (name_and_sig mt) + bci), s2) ∧ sa_rel s2 M2 ∧ full_ok M2).
Proof.
  intros Hr HM Hf Hmt. split.
  - intros Hskip. unfold get_alloc_index, get_invoke_index, get_alloc_context, get_invoke_context, get_context. rewrite Hf, Hmt.
    destruct (UseROLP f) eqn:HR; [|done]. destruct Hskip as [|Hj]; [done|]. unfold starts_with in Hj. cbn [length s_java] in Hj. cbn. by rewrite Hj.
  - intros HR Hj _. apply (full_mode_ids f s M); try done. unfold skips. rewrite HR, Hf. unfold starts_with in Hj. cbn [length s_java] in Hj. by rewrite Hj.
Qed.

(** The methods of sun classes are not avoided: they get identifiers too. *)
Lemma sun_methods_identified f s M m mt bci :
  sa_rel s M → full_ok M → UseROLP f = true → no_analysis_file f = true → methods s !! m = Some mt → starts_with s_sun (name_and_sig mt) = true →
  ∃ s1, get_alloc_index f s m bci = Some (u16 (name_key (name_and_sig mt) + bci), s1).
Proof.
  intros Hr HM HR Hf Hmt Hs. destruct (full_mode_ids f s M m mt bci) as (s1 & _ & _ & _ & E & _); try done; [|by exists s1].
  unfold skips, starts_with in *. rewrite HR, Hf. cbn. destruct (name_and_sig mt) as [|c l]; [done|]. apply bool_decide_eq_true in Hs. cbn in Hs. injection Hs as -> _. done.
Qed.

(** ** Names read from a file *)

(** No name of the file is a proper prefix of another; names with a complete
    signature have this property. *)
Definition prefix_free (P : list Z → Prop) : Prop := ∀ a b, P a → P b → a `prefix_of` b → a = b.

(** The cache of [hash(char*, int)] after start-up and after every call. *)
Definition cache_ok (P : list Z → Prop) (s : StaticAnalysis) : Prop :=
  length (hash_buf s) = Z.to_nat BUF_LEN ∧
  (hash_buf s = replicate (Z.to_nat BUF_LEN) 0 ∨
   ∃ m junk, P m ∧ hash_buf s = m ++ junk ∧ hash_key s = name_key m).

Lemma differs_from_prefix m buf : differs_from m buf = false ↔ m `prefix_of` buf.
Proof.
  revert buf. induction m as [|c m IH]; intros [|b buf]; cbn.
  - split; [|done]. intros _. by exists [].
  - split; [|done]. intros _. by exists (b :: buf).
  - split; [done|]. intros [k E]. done.
  - destruct (Z.eqb_spec c b) as [->|Hne]; [rewrite IH|].
    + split; [by apply prefix_cons|by apply prefix_cons_inv_2].
    + split; [done|]. by intros ?%prefix_cons_inv_1.
Qed.

Lemma hash_string_spec P s m bci :
  prefix_free P → cache_ok P s → P m → m ≠ [] → Forall plain m → Z.of_nat (length m) <= 8000 →
  ∃ s', hash_string s m bci = Some (key_of m bci, s') ∧ cache_ok P s' ∧
    (∀ w, tbl s' w = tbl s w) ∧ methods s' = methods s.
Proof.
  intros HP [Hlen Hcache] Hm Hne Hpl Hl. unfold hash_string.
  destruct (differs_from m (hash_buf s)) eqn:Hd.
  - unfold copy_prefix. rewrite (proj2 (Nat.leb_le _ _)) by (unfold BUF_LEN in *; lia). cbn.
    eexists. split_and!; [done| |by intros []|done]. split; cbn.
    + rewrite length_app, length_drop. unfold BUF_LEN in *. lia.
    + right. by eexists m, _.
  - apply differs_from_prefix in Hd. cbn. destruct Hcache as [Hz|(m' & junk & Hm' & Hb & Hk)].
    + exfalso. rewrite Hz in Hd. destruct Hpl as [|c m [Hc _] _]; [done|].
      destruct Hd as [k E]. replace (Z.to_nat BUF_LEN) with (S (Z.to_nat (BUF_LEN - 1))) in E by (unfold BUF_LEN; lia).
      cbn [replicate app] in E. by injection E.
    + assert (m = m') as <-.
      { rewrite Hb in Hd. destruct (prefix_weak_total m m' (m' ++ junk)) as [|]; [done|by exists junk|by apply HP|].
        symmetry. by apply HP. }
      exists s. split_and!; try done; [by rewrite Hk|]. split; [done|right]. by exists m, junk.
Qed.

(** The tables a file defines. *)
Definition file_map (M : which → gmap Z ContextIndex) (es : list entry) : which → gmap Z ContextIndex :=
  foldl (λ M e, upd_map M (e_table e) (key_of (e_method e) (e_bci e)) (new_ContextIndex (e_index e))) M es.

Lemma add_entries_spec P s M es :
  prefix_free P → Forall (λ e, entry_ok e ∧ P (e_method e)) es → sa_rel s M → cache_ok P s →
  ∃ s', add_entries s es = Some s' ∧ sa_rel s' (file_map M es) ∧ methods s' = methods s.
Proof.
  intros HP Hes. revert s M. induction Hes as [|e es [He HPe] _ IH]; intros s M Hr Hc; [by exists s|].
  destruct (eo_name e He) as [Hne Hpl]. cbn [add_entries]. unfold add_entry_of, add_index_string.
  destruct (hash_string_spec P s (e_method e) (e_bci e) HP Hc HPe Hne Hpl (eo_len e He))
    as (s1 & -> & Hc1 & Ht1 & Hm1). cbn [mbind option_bind].
  assert (Hr1 : sa_rel s1 M).
  { destruct Hr as [Ht Hm]. split; [intros w; by rewrite Ht1|]. unfold methods_ok. by rewrite Hm1. }
  destruct (add_index_key_spec s1 M (e_table e) (key_of (e_method e) (e_bci e)) (e_index e) Hr1)
    as (v & s2 & -> & Hr2 & _ & _ & _ & Hm2 & Hb2 & Hk2); [apply u32_range|]. cbn [mbind option_bind].
  assert (Hc2 : cache_ok P s2) by (unfold cache_ok; by rewrite Hb2, Hk2).
  destruct (IH s2 _ Hr2 Hc2) as (s3 & E3 & Hr3 & Hm3). exists s3. split_and!; [done|done|congruence].
Qed.


Lemma new_StaticAnalysis_file P ms es :
  prefix_free P → Forall (λ e, entry_ok e ∧ P (e_method e)) es →
  (∀ m mt, ms !! m = Some mt → context mt = 0) →
  ∃ s, new_StaticAnalysis ms (Some (Some (concat (entry_line <$> es)))) = Some s ∧
    sa_rel s (file_map (λ _, ∅) es) ∧ methods s = ms.
Proof.
  intros HP Hes Hms. unfold new_StaticAnalysis, parse_from_file.
  rewrite parse_loop_entries.
  - set (s0 := mkSA _ _ _ _ _).
    assert (Hr : sa_rel s0 (λ _, ∅)).
    { split; [intros []; apply OT_empty; [done|done|by exists 12|done|done|by exists 12]|].
      intros m mt Hm. left. by eapply Hms. }
    assert (Hc : cache_ok P s0) by (split; [apply length_replicate|by left]).
    destruct (add_entries_spec P s0 _ es HP Hes Hr Hc) as (s & E & Hr' & Hm). rewrite E. cbn. eauto.
  - eapply Forall_impl; [exact Hes|]. by intros e [? _].
  - apply concat_lines_length.
Qed.

(** With an analysis file, the identifiers are those of the file: after
    start-up from a file of well-formed lines whose method names are
    prefix-free, looking up an allocation site yields the identifier of the
    last line with the key of the method and bytecode index, and 0 for a
    site the file does not list. *)
Theorem analysis_file_ids P f ms es m mt bci :
  prefix_free P → Forall (λ e, entry_ok e ∧ P (e_method e)) es →
  (∀ m mt, ms !! m = Some mt → context mt = 0) →
  no_analysis_file f = false → ms !! m = Some mt →
  ∃ s s', new_StaticAnalysis ms (Some (Some (concat (entry_line <$> es)))) = Some s ∧
    get_alloc_index f s m bci =
      Some (default 0 (_index <$> file_map (λ _, ∅) es Alloc2Context !! key_of (name_and_sig mt) bci), s').
Proof.
  intros HP Hes Hms Hf Hmt.
  destruct (new_StaticAnalysis_file P ms es HP Hes Hms) as (s & E & Hr & Hm). exists s.
  assert (Hs : skips f (name_and_sig mt) = false) by (unfold skips; rewrite Hf; by rewrite andb_false_r).
  destruct (get_context_spec f Alloc2Context s _ m mt bci Hr) as (ci & s' & Eg & _ & _ & Hx); [by rewrite Hm|done|].
  exists s'. split; [done|]. unfold get_alloc_index, get_alloc_context. rewrite Eg. cbn [mbind option_bind].
  unfold context_entry in Hx. rewrite Hf in Hx.
  destruct (file_map _ es Alloc2Context !! key_of (name_and_sig mt) bci) as [c|].
  - destruct Hx as (Hn & Ho & _). unfold index_of. rewrite (proj2 (Z.eqb_neq ci NULL)) by done. by rewrite Ho.
  - by destruct Hx as [-> _].
Qed.

End ops.

(** A method [A.m()] with no cached hash, and the state at start-up. *)
Definition demo_methods : gmap Z Method := {[ 4096 := mkMethod [65; 46; 109; 40; 41] 0 ]}.

Definition demo_state : StaticAnalysis :=
  mkSA (empty_table 64 sizeof_HashtableEntry) (empty_table 64 sizeof_HashtableEntry) (replicate 16 0) 0 demo_methods.

Lemma demo_state_rel : sa_rel demo_state (λ _, ∅).
Proof.
  split; [intros []; apply OT_empty; [done|done|by exists 12|done|done|by exists 12]|].
  intros m mt. change (methods demo_state) with demo_methods. unfold demo_methods.
  intros [<- <-]%lookup_singleton_Some. by left.
Qed.

Lemma site_ids_from_names_witness :
  let C := BumpHeap.bump_heap in
  ∃ s1 s2 M1 M2,
    get_alloc_index (mkFlags true true) demo_state 4096 17 = Some (u16 (name_key [65; 46; 109; 40; 41] + 17), s1) ∧
    sa_rel s1 M1 ∧ full_ok M1 ∧
    get_invoke_index (mkFlags true true) demo_state 4096 17 = Some (u16 (name_key [65; 46; 109; 40; 41] + 17), s2) ∧
    sa_rel s2 M2 ∧ full_ok M2.
Proof.
  intros C. destruct (site_ids_from_names (HC := BumpHeap.bump_heap_ok) (mkFlags true true) demo_state (λ _, ∅) 4096
    (mkMethod [65; 46; 109; 40; 41] 0) 17) as [_ Hids]; [exact demo_state_rel|done|done|reflexivity|]. by apply Hids.
Defined.

Definition demo_names (m : list Z) : Prop := m = [65; 46; 109; 40; 41] ∨ m = [66; 46; 110; 40; 41].

Lemma demo_names_prefix_free : prefix_free demo_names.
Proof. intros a b [->| ->] [->| ->] [k E]; done. Qed.

Lemma demo_file_ok : Forall (λ e, entry_ok e ∧ demo_names (e_method e)) demo_entries.
Proof.
  pose proof demo_entries_ok as H. apply Forall_cons in H as [H1 H]. apply Forall_cons in H as [H2 _].
  constructor; [by split; [|left]|]. constructor; [by split; [|right]|]. constructor.
Qed.


Lemma analysis_file_ids_witness :
  let C := BumpHeap.bump_heap in
  ∃ s s', new_StaticAnalysis demo_methods (Some (Some (concat (entry_line <$> demo_entries)))) = Some s ∧
    get_alloc_index (mkFlags true false) s 4096 17 =
      Some (default 0 (_index <$> file_map (λ _, ∅) demo_entries Alloc2Context !! key_of [65; 46; 109; 40; 41] 17), s').
Proof.
  intros C. apply (analysis_file_ids (HC := BumpHeap.bump_heap_ok)
    demo_names (mkFlags true false)
    demo_methods demo_entries 4096 (mkMethod [65; 46; 109; 40; 41] 0) 17).
  - exact demo_names_prefix_free.
  - exact demo_file_ok.
  - intros m mt. unfold demo_methods. intros [<- <-]%lookup_singleton_Some. done.
  - done.
  - done.
Defined.

End StaticAnalysisFacts.
