(* ===== verification/ThreadContext.v ===== *)
(** The calling context of a Java thread: a 32-bit sum of call-site
    identifiers, kept by compiled code around calls
    ([Parse::do_context]/[do_uncontext] of [opto/doCall.cpp]), corrected when
    an exception unwinds a frame ([JavaThread::do_uncontext]) and recomputed
    from the stack at safepoints ([JavaThread::calculate_context], both in
    [runtime/thread.cpp]). *)

From S2P Require Import Prelude AltHashing HashTable ObjectTable Ng2cTables StaticAnalysis.
Import ObjectTable.

Module ThreadContext.
Import StaticAnalysis.

(** A virtual frame: whether it is a Java frame, its method and bytecode
    index, whether it is compiled. *)
Record vframe := mkFrame { is_java_frame : bool; method : Z; bci : Z; is_compiled_frame : bool }.

(** [stack] lists the virtual frames from [last_java_vframe] outwards; it is
    only meaningful when [has_last_Java_frame]. *)
Record JavaThread := mkThread { _context : Z; has_last_Java_frame : bool; stack : list vframe }.

Definition initial_context : Z := 0xFFFF.

Definition new_thread : JavaThread := mkThread initial_context false [].

Definition set_context (t : JavaThread) (c : Z) : JavaThread :=
  mkThread c (has_last_Java_frame t) (stack t).

(** The code [do_context] and [do_uncontext] emit around a call:
    [should_context] is the tracking flag loaded before the call. *)
Definition do_context (index should_context : Z) (t : JavaThread) : JavaThread :=
  if negb (should_context =? 0) then set_context t (u32 (_context t + index)) else t.

Definition emitted_uncontext (index should_context : Z) (t : JavaThread) : JavaThread :=
  if negb (should_context =? 0) then set_context t (u32 (_context t - index)) else t.

Section ops.
Context `{CHeap}.
Variable f : flags.
Variable MaxJavaStackTraceDepth : Z.

(** [ci != NULL && ci->track_context()], with the index. *)
Definition tracked_index (s : StaticAnalysis) (ci : Z) : option (option Z) :=
  if ci =? NULL then Some None
  else
    c ← ot_objs (_invoke2Context s) !! ci;
    Some (if _track_context c =? 0 then None else Some (_index c)).

(** [JavaThread::do_uncontext]: called while the frame is being unwound. *)
Definition do_uncontext (s : StaticAnalysis) (t : JavaThread) : option (StaticAnalysis * JavaThread) :=
  if negb (has_last_Java_frame t) then Some (s, t)
  else
    jvf ← head (stack t);
    mt ← methods s !! method jvf;
    if StaticAnalysis.context mt =? 0 then Some (s, t)
    else
      '(ci, s) ← get_invoke_context f s (method jvf) (bci jvf);
      ti ← tracked_index s ci;
      match ti with
      | Some index =>
          if is_compiled_frame jvf then Some (s, set_context t (u32 (_context t - index)))
          else Some (s, t)
      | None => Some (s, t)
      end.

(** The frame loop of [calculate_context]; the inner [None] is an early
    return that leaves the thread alone. *)
Fixpoint calc_loop (s : StaticAnalysis) (count calc_context : Z) (fs : list vframe)
    : option (option Z * StaticAnalysis) :=
  match fs with
  | [] => Some (Some calc_context, s)
  | fr :: fs =>
      if negb (is_java_frame fr) then calc_loop s count calc_context fs
      else if count =? 0 then calc_loop s (count + 1) calc_context fs
      else
        let count := count + 1 in
        if MaxJavaStackTraceDepth =? count then Some (None, s)
        else
          mt ← methods s !! method fr;
          if StaticAnalysis.context mt =? 0 then Some (None, s)
          else if negb (is_compiled_frame fr) then calc_loop s count calc_context fs
          else
            '(ci, s) ← get_invoke_context f s (method fr) (bci fr);
            ti ← tracked_index s ci;
            calc_loop s count
              (match ti with Some index => u32 (calc_context + index) | None => calc_context end) fs
  end.

Definition calculate_context (s : StaticAnalysis) (t : JavaThread) : option (StaticAnalysis * JavaThread) :=
  if negb (has_last_Java_frame t) then Some (s, t)
  else
    '(r, s) ← calc_loop s 0 initial_context (stack t);
    match r with
    | None => Some (s, t)
    | Some calc_context =>
        if negb (calc_context =? _context t) then Some (s, set_context t calc_context) else Some (s, t)
    end.

End ops.

End ThreadContext.

(** * Properties *)

Module ThreadContextFacts.
Import CString StaticAnalysis StaticAnalysisFacts ThreadContext.

(** ** The running context

    The calls of compiled code that are active in a thread: the site index
    and the flag value loaded at the call. *)
Abbreviation active := (list (Z * Z)).

Definition contribution (c : Z * Z) : Z := if c.2 =? 0 then 0 else c.1.
Definition path_sum (ps : active) : Z := foldr (λ c acc, contribution c + acc) 0 ps.

(** Compiled code enters a call, or returns from the innermost one. *)
Inductive cstep : JavaThread * active → JavaThread * active → Prop :=
| cstep_call t ps index should_context :
    cstep (t, ps) (do_context index should_context t, (index, should_context) :: ps)
| cstep_return t ps index should_context :
    cstep (t, (index, should_context) :: ps) (emitted_uncontext index should_context t, ps).

Inductive creach : JavaThread * active → Prop :=
| creach_init t : _context t = initial_context → creach (t, [])
| creach_step st st' : creach st → cstep st st' → creach st'.

Lemma u32_congr a b c : u32 a = u32 b → u32 (a + c) = u32 (b + c).
Proof. intros E. rewrite <- (u32_add_l a), E. apply u32_add_l. Qed.

Lemma context_invariant st : creach st → _context st.1 = u32 (initial_context + path_sum st.2).
Proof.
  induction 1 as [t Ht|st st' _ IH Hs].
  - cbn. by rewrite Ht.
  - destruct Hs as [t ps i sc|t ps i sc]; cbn in IH |- *; unfold do_context, emitted_uncontext, contribution in *; cbn in *.
    + destruct (Z.eqb_spec sc 0); cbn; rewrite IH; [f_equal; lia|]. rewrite u32_add_l. f_equal. lia.
    + destruct (Z.eqb_spec sc 0); cbn; rewrite IH; [f_equal; lia|]. rewrite u32_sub_l. f_equal. lia.
Qed.

(** The thread context is the sum of the identifiers of the active
    tracked call sites, modulo 2^32, starting at 0xFFFF: in every state
    reachable by calls and returns of compiled code.  When all calls have
    returned the context is the initial one again, even if tracking flags
    change between a call and its return. *)
Theorem context_is_path_sum t ps :
  creach (t, ps) → _context t = u32 (initial_context + path_sum ps) ∧ (ps = [] → _context t = initial_context).
Proof. intros H%context_invariant. split; [done|]. by intros ->. Qed.

Lemma context_is_path_sum_witness :
  let t := do_context 0xFFFFFFFF 1 (do_context 7 0 (do_context 5 1 new_thread)) in
  _context t = u32 (initial_context + path_sum [(0xFFFFFFFF, 1); (7, 0); (5, 1)]) ∧
  ([(0xFFFFFFFF, 1); (7, 0); (5, 1)] = [] → _context t = initial_context).
Proof.
  intros t. apply context_is_path_sum.
  repeat (eapply creach_step; [|apply cstep_call]). by apply creach_init.
Defined.

(** ** Recomputation from the stack *)

Section calc.
Context `{HC : !CHeapOk C}.
Variable f : flags.
Variable depth : Z.

(** What a caller frame contributes: its call-site index when the frame is
    compiled and the site is tracked. *)
Definition site_contribution (M : which → gmap Z ContextIndex) (name : list Z) (bci : Z) : Z :=
  if skips f name then 0
  else match context_entry f M Invoke2Context (key_of name bci) with
       | Some c => if _track_context c =? 0 then 0 else _index c
       | None => 0
       end.

Definition name_of (s : StaticAnalysis) (m : Z) : list Z :=
  match methods s !! m with Some mt => name_and_sig mt | None => [] end.

Definition frame_contribution (M : which → gmap Z ContextIndex) (s : StaticAnalysis) (fr : vframe) : Z :=
  if is_compiled_frame fr then site_contribution M (name_of s (method fr)) (bci fr) else 0.

(** Two states agree on names and on what every site contributes. *)
Definition same_sites (s s' : StaticAnalysis) (M M' : which → gmap Z ContextIndex) : Prop :=
  (∀ m, name_and_sig <$> methods s' !! m = name_and_sig <$> methods s !! m) ∧
  ∀ name b, site_contribution M' name b = site_contribution M name b.

Lemma site_contribution_upd M k c m b :
  context_entry f M Invoke2Context k = Some c →
  ∀ name b', site_contribution (upd_map M Invoke2Context k (set_bci (set_method c m) b)) name b' =
    site_contribution M name b'.
Proof.
  intros Hc name b'. unfold site_contribution. destruct (skips f name); [done|].
  unfold context_entry in *. unfold upd_map. rewrite decide_True by done.
  destruct (decide (k = key_of name b')) as [<-|].
  - rewrite lookup_insert_eq. by rewrite Hc.
  - by rewrite lookup_insert_ne.
Qed.

(** One lookup: its tracked index is the contribution of the site. *)
Lemma lookup_contribution s M m mt b :
  sa_rel s M → methods s !! m = Some mt →
  ∃ ci s' M' ti, get_invoke_context f s m b = Some (ci, s') ∧ sa_rel s' M' ∧ same_sites s s' M M' ∧
    tracked_index s' ci = Some ti ∧ default 0 ti = site_contribution M (name_and_sig mt) b ∧
    (StaticAnalysis.context mt ≠ 0 → methods s' = methods s).
Proof.
  intros Hr Hmt. unfold get_invoke_context. destruct (skips f (name_and_sig mt)) eqn:Hs.
  - exists NULL, s, M, None. unfold site_contribution. rewrite Hs. split_and!; try done.
    unfold get_context. unfold skips in Hs. destruct (negb (UseROLP f) && no_analysis_file f); [done|].
    rewrite Hmt. cbn in *. by rewrite Hs.
  - destruct (get_context_spec f Invoke2Context s M m mt b Hr Hmt Hs) as (ci & s' & E & Hms & Hnz & Hx).
    unfold site_contribution. rewrite Hs.
    destruct (context_entry f M Invoke2Context (key_of (name_and_sig mt) b)) as [c|] eqn:Hc.
    + destruct Hx as (Hn & Ho & Hr'). eexists ci, s', _, _. split_and!; [done|done| | | |done].
      * split; [done|]. by apply site_contribution_upd.
      * unfold tracked_index. rewrite (proj2 (Z.eqb_neq ci NULL)) by done.
        change (_invoke2Context s') with (tbl s' Invoke2Context). by rewrite Ho.
      * cbn. by destruct (_track_context c =? 0).
    + destruct Hx as [-> Hr']. by exists NULL, s', M, None.
Qed.

(** The Java frames, as the loop sees them. *)
Definition known (s : StaticAnalysis) (fr : vframe) : Prop :=
  is_java_frame fr = true → ∃ mt, methods s !! method fr = Some mt ∧ StaticAnalysis.context mt ≠ 0.

Definition callers_sum (M : which → gmap Z ContextIndex) (s : StaticAnalysis) (fs : list vframe) : Z :=
  foldr (λ fr acc, (if is_java_frame fr then frame_contribution M s fr else 0) + acc) 0 fs.

Definition java_frames (fs : list vframe) : Z := Z.of_nat (length (List.filter is_java_frame fs)).

Lemma callers_sum_same s s' M M' fs :
  same_sites s s' M M' → callers_sum M' s' fs = callers_sum M s fs.
Proof.
  intros [Hn Hc]. unfold callers_sum. induction fs as [|fr fs IH]; [done|]. cbn. rewrite IH. f_equal.
  destruct (is_java_frame fr); [|done]. unfold frame_contribution. destruct (is_compiled_frame fr); [|done].
  rewrite Hc. f_equal. unfold name_of. specialize (Hn (method fr)).
  destruct (methods s' !! method fr), (methods s !! method fr); cbn in Hn; congruence.
Qed.

Lemma calc_loop_spec s M count acc fs :
  sa_rel s M → Forall (known s) fs → 1 <= count → count + java_frames fs < depth →
  ∃ s' M', calc_loop f depth s count (u32 acc) fs = Some (Some (u32 (acc + callers_sum M s fs)), s') ∧
    sa_rel s' M' ∧ same_sites s s' M M' ∧ methods s' = methods s.
Proof.
  intros Hr Hk. revert s M count acc Hr Hk. induction fs as [|fr fs IH]; intros s M count acc Hr Hk Hc Hd.
  { exists s, M. cbn. rewrite Z.add_0_r. done. }
  apply Forall_cons in Hk as [Hfr Hk]. unfold java_frames in Hd. cbn [calc_loop callers_sum foldr].
  fold (callers_sum M s fs). cbn [List.filter] in Hd. unfold known in Hfr.
  destruct (is_java_frame fr) eqn:Hj; cbn [negb].
  2: { rewrite Z.add_0_l. by apply IH. }
  cbn [length] in Hd. rewrite (proj2 (Z.eqb_neq count 0)), (proj2 (Z.eqb_neq depth (count + 1))) by lia.
  destruct Hfr as (mt & Hmt & Hcx); [done|]. rewrite Hmt. cbn [mbind option_bind].
  rewrite (proj2 (Z.eqb_neq _ 0)) by done. unfold frame_contribution at 1.
  destruct (is_compiled_frame fr); cbn [negb].
  2: { rewrite Z.add_0_l. apply IH; [done..|lia|]. unfold java_frames. lia. }
  destruct (lookup_contribution s M (method fr) mt (bci fr) Hr Hmt)
    as (ci & s1 & M1 & ti & -> & Hr1 & Hsame & Hti & Hcon & Hnz). cbn [mbind option_bind]. rewrite Hti.
  cbn [mbind option_bind]. specialize (Hnz Hcx).
  assert (Hacc : match ti with Some index => u32 (u32 acc + index) | None => u32 acc end =
    u32 (acc + site_contribution M (name_of s (method fr)) (bci fr))).
  { unfold name_of. rewrite Hmt, <- Hcon. destruct ti; cbn; [apply u32_add_l|by rewrite Z.add_0_r]. }
  rewrite Hacc.
  destruct (IH s1 M1 (count + 1) (acc + site_contribution M (name_of s (method fr)) (bci fr)) Hr1)
    as (s2 & M2 & E & Hr2 & Hsame2 & Hm2).
  { eapply Forall_impl; [exact Hk|]. intros x Hx. unfold known. by rewrite Hnz. }
  { lia. }
  { unfold java_frames. lia. }
  exists s2, M2. split_and!; [|done| |congruence].
  - rewrite E, (callers_sum_same s s1 M M1) by done. do 4 f_equal. lia.
  - destruct Hsame as [H1 H2], Hsame2 as [H3 H4]. split; intros; [by rewrite H3|by rewrite H4].
Qed.

(** The recomputation never faults when the methods on the stack exist. *)
Definition resolved (s : StaticAnalysis) (fr : vframe) : Prop := is_Some (methods s !! method fr).

Definition same_methods (s s' : StaticAnalysis) : Prop :=
  ∀ m, name_and_sig <$> methods s' !! m = name_and_sig <$> methods s !! m.

Lemma resolved_same s s' fr : same_methods s s' → resolved s fr → resolved s' fr.
Proof.
  intros E [mt Hm]. specialize (E (method fr)). rewrite Hm in E. unfold resolved.
  destruct (methods s' !! method fr); [eauto|done].
Qed.

Lemma calc_loop_total fs : ∀ s M count acc,
  sa_rel s M → Forall (resolved s) fs →
  ∃ r s' M', calc_loop f depth s count acc fs = Some (r, s') ∧ sa_rel s' M' ∧ same_methods s s'.
Proof.
  induction fs as [|fr fs IH]; intros s M count acc Hr Hfs; cbn [calc_loop].
  { by exists (Some acc), s, M. }
  apply Forall_cons in Hfs as [[mt Hmt] Hfs].
  destruct (negb (is_java_frame fr)); [by eapply IH|].
  destruct (count =? 0); [by eapply IH|]. destruct (depth =? count + 1); [by exists None, s, M|].
  rewrite Hmt. cbn [mbind option_bind]. destruct (StaticAnalysis.context mt =? 0); [by exists None, s, M|].
  destruct (negb (is_compiled_frame fr)); [by eapply IH|].
  destruct (lookup_contribution s M (method fr) mt (bci fr) Hr Hmt)
    as (ci & s1 & M1 & ti & -> & Hr1 & [Hn1 _] & Hti & _). cbn [mbind option_bind]. rewrite Hti. cbn [mbind option_bind].
  destruct (IH s1 M1 (count + 1) (match ti with Some index => u32 (acc + index) | None => acc end) Hr1)
    as (r & s2 & M2 & -> & Hr2 & Hn2).
  { eapply Forall_impl; [exact Hfs|]. intros x. by apply resolved_same. }
  exists r, s2, M2. split_and!; try done. intros m. by rewrite Hn2, Hn1.
Qed.

Lemma calculate_context_total s M t :
  sa_rel s M → Forall (resolved s) (stack t) →
  ∃ s' M' c, calculate_context f depth s t = Some (s', set_context t c) ∧ sa_rel s' M' ∧ same_methods s s'.
Proof.
  intros Hr Hfs. unfold calculate_context.
  assert (Hid : set_context t (_context t) = t) by by destruct t.
  destruct (negb (has_last_Java_frame t)); [exists s, M, (_context t); by rewrite Hid|].
  destruct (calc_loop_total (stack t) s M 0 initial_context Hr Hfs) as (r & s' & M' & -> & Hr' & Hn).
  cbn [mbind option_bind]. destruct r as [c|]; [|exists s', M', (_context t); by rewrite Hid].
  destruct (negb (c =? _context t)); [by exists s', M', c|]. exists s', M', (_context t). by rewrite Hid.
Qed.

(** [calculate_context] rebuilds the context from the stack: for a thread
    whose callers are methods known to the analysis, and whose Java stack is
    shallower than [MaxJavaStackTraceDepth], it sets the context to 0xFFFF
    plus the identifiers of the tracked call sites of the compiled callers
    (the innermost frame excluded), modulo 2^32.  A thread whose running
    context was right is left unchanged. *)
Theorem calculate_context_is_path_sum s M t fr fs :
  sa_rel s M → has_last_Java_frame t = true → stack t = fr :: fs → is_java_frame fr = true →
  Forall (known s) fs → 1 + java_frames fs < depth →
  ∃ s' M', calculate_context f depth s t =
      Some (s', set_context t (u32 (initial_context + callers_sum M s fs))) ∧ sa_rel s' M' ∧
    (_context t = u32 (initial_context + callers_sum M s fs) →
     set_context t (u32 (initial_context + callers_sum M s fs)) = t).
Proof.
  intros Hr Hl Hst Hj Hk Hd.
  destruct (calc_loop_spec s M 1 initial_context fs Hr Hk) as (s' & M' & E & Hr' & _); [lia|done|].
  exists s', M'. split_and!; [|done|].
  - unfold calculate_context. rewrite Hl, Hst. cbn [negb calc_loop]. rewrite Hj. cbn [negb Z.eqb].
    change (0 + 1) with 1. change (u32 initial_context) with initial_context in E. rewrite E. cbn [mbind option_bind].
    destruct (Z.eqb_spec (u32 (initial_context + callers_sum M s fs)) (_context t)) as [Ec|]; [|done].
    cbn [negb]. rewrite Ec. by destruct t.
  - intros Ec. rewrite <- Ec. by destruct t.
Qed.

End calc.

(** A method whose hash is cached, and one tracked call site in it. *)
Definition demo_name : list Z := [65; 46; 109; 40; 41].
Definition demo_methods : gmap Z Method := {[ 4096 := mkMethod demo_name (name_key demo_name) ]}.
Definition demo_map : which → gmap Z ContextIndex :=
  upd_map (λ _, ∅) Invoke2Context (key_of demo_name 3) (mkCI 0x1234 NULL 0 1).

Lemma demo_tracked : ∃ s, sa_rel s demo_map ∧ methods s = demo_methods.
Proof.
  destruct (OT_insert (Hok := BumpHeap.bump_heap_ok) (empty_table 64 sizeof_HashtableEntry) ∅
    (key_of demo_name 3) (mkCI 0x1234 NULL 0 1)) as (v & o & _ & Ho & _).
  { apply OT_empty; [done|done|by exists 12]. }
  { apply u32_range. }
  exists (mkSA o (empty_table 64 sizeof_HashtableEntry) (replicate 16 0) 0 demo_methods). split; [|done]. split.
  - intros []; unfold demo_map, upd_map; [by rewrite decide_True|]. rewrite decide_False by done.
    apply OT_empty; [done|done|by exists 12].
  - intros m mt. cbn. unfold demo_methods. intros [<- <-]%lookup_singleton_Some. by right.
Qed.

Definition demo_frame (b : Z) (compiled : bool) : vframe := mkFrame true 4096 b compiled.

Lemma calculate_context_is_path_sum_witness :
  let C := BumpHeap.bump_heap in
  let f := mkFlags true true in
  let t := mkThread 0 true [demo_frame 9 true; demo_frame 3 true; demo_frame 3 false] in
  let fs := [demo_frame 3 true; demo_frame 3 false] in
  ∃ s s' M', calculate_context f 1024 s t =
      Some (s', set_context t (u32 (initial_context + callers_sum f demo_map s fs))) ∧ sa_rel s' M' ∧
    (_context t = u32 (initial_context + callers_sum f demo_map s fs) →
     set_context t (u32 (initial_context + callers_sum f demo_map s fs)) = t).
Proof.
  intros C f t fs. destruct demo_tracked as (s & Hr & Hm). exists s.
  apply (calculate_context_is_path_sum (HC := BumpHeap.bump_heap_ok) f 1024 s demo_map t (demo_frame 9 true) fs);
    [exact Hr|reflexivity|reflexivity|reflexivity| |reflexivity].
  repeat constructor; unfold known; rewrite Hm; intros _; eexists; (split; [reflexivity|]); vm_compute; discriminate.
Defined.

End ThreadContextFacts.
