(* ===== verification/MergeOp.v ===== *)
(** The profiling cycle: survivors are counted per worker thread while
    objects are copied ([G1ParCopyClosure::copy_to_survivor_space]), and the
    VM operation [NG2C_MergeAllocCounters] ([ng2c/vm_operations_ng2c.cpp],
    [.hpp]) merges the counters, analyses each survival curve and expands
    contexts or sets target generations.

    The curve analysis runs on IEEE single-precision numbers; it is modelled
    with the binary32 and binary64 operations of [SpecFloat]. *)

From S2P Require Import Prelude MarkWord AltHashing HashTable ObjectTable Ng2cTables StaticAnalysis ThreadContext.
From Stdlib Require Import SpecFloat.
Import ObjectTable.

(** ** Curve analysis *)

Module CurveAnalysis.

(** [float] and [double]. *)
Definition f32_of_Z (z : Z) : spec_float := binary_normalize 24 128 z 0 false.
Definition f32_div (x y : spec_float) : spec_float := SFdiv 24 128 x y.
Definition f32_sub (x y : spec_float) : spec_float := SFsub 24 128 x y.

(** The exact conversion of a [float] to [double]. *)
Definition f64_of_f32 (x : spec_float) : spec_float :=
  match x with
  | S754_finite s m e => binary_normalize 53 1024 (cond_Zopp s (Zpos m)) e s
  | _ => x
  end.

(** The [double] literal [-0.1]. *)
Definition minus_one_tenth : spec_float := S754_finite true 7205759403792794 (-56).

Definition f_zero : spec_float := S754_zero false.

(** [x != 0] on floats. *)
Definition f_nonzero (x : spec_float) : bool := negb (SFeqb x f_zero).

(** Normalize: [normalized[i] = (float) curve[i] / curve[0]] for the first 15
    elements that are not 0; the 16th stays 0. *)
Definition normalize (curve : list Z) : list spec_float :=
  ((λ c, if c =? 0 then f_zero
         else f32_div (f32_of_Z c) (f32_of_Z (nth 0 curve 0))) <$> take 15 curve)
  ++ replicate (16 - length (take 15 curve)) f_zero.

(** Derive: differences above [-0.1] become 0; the 16th stays 0. *)
Definition derive_step (a b : spec_float) : spec_float :=
  let d := f32_sub b a in
  if SFltb minus_one_tenth (f64_of_f32 d) then f_zero else d.

Fixpoint derive (normalized : list spec_float) : list spec_float :=
  match normalized with
  | a :: ((b :: _) as rest) => derive_step a b :: derive rest
  | _ => [f_zero]
  end.

(** Analyze: [segm] is the last non-zero index seen (16 for none), [min] the
    index of the smallest derivative. *)
Fixpoint analyze_loop (derivative : list spec_float) (ds : list spec_float) (i segm min : Z) : Z :=
  match ds with
  | [] => min
  | d :: ds =>
      if f_nonzero d then
        if negb (i =? segm + 1) && negb (segm =? NG2C_GEN_ARRAY_SIZE) then -1
        else
          let min := if SFltb d (nth (Z.to_nat min) derivative f_zero) then i else min in
          analyze_loop derivative ds (i + 1) i min
      else analyze_loop derivative ds (i + 1) segm min
  end.

Definition analyze (derivative : list spec_float) : Z :=
  analyze_loop derivative derivative 0 NG2C_GEN_ARRAY_SIZE 0.

Definition normalize_derive_analyze (curve : list Z) : Z := analyze (derive (normalize curve)).

End CurveAnalysis.

(** ** The VM operation *)

Module MergeOp.
Import Hashtable NGen Promo MethodBciHashtable PromotionCounters CurveAnalysis ThreadContext.

(** The compile-time switches [NG2C_PROF_ALLOC] and [NG2C_PROF_CONTEXT]; the
    default makefile sets only the second. *)
Record build := mkBuild { prof_alloc : bool; prof_context : bool }.
Definition default_build : build := mkBuild false true.

(** [for (i = 0; i < 15; i++) *garr++ += *sarr++]. *)
Fixpoint add_into (n : nat) (garr sarr : list Z) : option (list Z) :=
  match n, garr, sarr with
  | O, _, _ => Some garr
  | S n, g :: garr, s :: sarr => l ← add_into n garr sarr; Some (u64 (g + s) :: l)
  | _, _, _ => None
  end.

(** [update_promotions(global, survivors)]: the counts of ages 1 to 15. *)
Definition update_promotions (global survivors : PromotionCounter)
    : option (PromotionCounter * PromotionCounter) :=
  match _array global, _array survivors with
  | g0 :: garr, _ :: sarr =>
      l ← add_into (Z.to_nat (NG2C_GEN_ARRAY_SIZE - 1)) garr sarr;
      z ← fill (Z.to_nat NG2C_GEN_ARRAY_SIZE) (_array survivors) 0;
      Some (set_array global (g0 :: l), set_array survivors z)
  | _, _ => None
  end.

Section ops.
Context `{CHeap}.

(** Dereferencing the array of an allocation site; NULL faults. *)
Definition site_array (sites : MethodBciHashtable) (site : Z) : option (Z * NGenerationArray) :=
  v ← get_entry sites site;
  if v =? NULL then None else (a ← ot_objs sites !! v; Some (v, a)).

(** The counter a survivor hash is merged into. *)
Definition merge_target (a : NGenerationArray) (hash : Z) : Z :=
  if expanded_contexts a then hash else u32 ((hash >>> 16) <<< 16).

(** The loop body of [update_promotions(thread)]. *)
Definition merge_one (sites : MethodBciHashtable) (st : PromotionCounters * gmap Z PromotionCounter) (surv : Z)
    : option (PromotionCounters * gmap Z PromotionCounter) :=
  let '(global, objs) := st in
  surv_arr ← objs !! surv;
  let hash := Promo._hash surv_arr in
  let alloc_site_id := hash >>> 16 in
  '(_, ngen) ← site_array sites alloc_site_id;
  '(gv, global) ← get_counter_not_null global (merge_target ngen hash);
  glbl_arr ← ot_objs global !! gv;
  '(glbl_arr, surv_arr) ← update_promotions glbl_arr surv_arr;
  Some (set_object global gv glbl_arr, <[surv := surv_arr]> objs).

Definition update_promotions_thread (sites : MethodBciHashtable) (global thread : PromotionCounters)
    : option (PromotionCounters * PromotionCounters) :=
  '(global, objs) ← each_entry (ot_heap thread) (ot_table thread) (merge_one sites) (global, ot_objs thread);
  Some (global, mkOT (ot_heap thread) (ot_table thread) objs).

(** The loop body of [update_target_gen]: the counter, the sites, the flag
    [_need_more_context]. *)
Definition target_one (b : build) (st : gmap Z PromotionCounter * MethodBciHashtable * bool) (p : Z)
    : option (gmap Z PromotionCounter * MethodBciHashtable * bool) :=
  let '(objs, sites, need_more_context) := st in
  ngen_arr ← objs !! p;
  let context := mask_bits (Promo._hash ngen_arr) 0xFFFF in
  let alloc_site_id := Promo._hash ngen_arr >>> 16 in
  '(v, allocs) ← site_array sites alloc_site_id;
  n ← number_allocs allocs context;
  c0 ← _array ngen_arr !! O;
  let ngen_arr := set_array ngen_arr (<[O := u64 (c0 + n)]> (_array ngen_arr)) in
  let objs := <[p := ngen_arr]> objs in
  let decision := normalize_derive_analyze (_array ngen_arr) in
  if decision >? 0 then
    if prof_alloc b then
      allocs ← inc_target_gen_to allocs context decision;
      Some (objs, set_object sites v allocs, need_more_context)
    else Some (objs, sites, need_more_context)
  else if decision <? 0 then
    if negb (expanded_contexts allocs) && prof_context b then
      allocs ← prepare_contexts allocs;
      Some (objs, set_object sites v allocs, true)
    else Some (objs, sites, true)
  else Some (objs, sites, need_more_context).

Definition update_target_gen (b : build) (global : PromotionCounters) (sites : MethodBciHashtable)
    (need_more_context : bool) : option (PromotionCounters * MethodBciHashtable * bool) :=
  '(objs, sites, need) ←
    each_entry (ot_heap global) (ot_table global) (target_one b) (ot_objs global, sites, need_more_context);
  Some (mkOT (ot_heap global) (ot_table global) objs, sites, need).

(** The threads [Threads::threads_do] visits, in order. *)
Inductive Thread :=
| NamedThread (counters : PromotionCounters)
| AJavaThread (t : JavaThread)
| OtherThread.

(** The state the operation works on: the tables of [Universe], the analysis,
    the threads, [_total_update_target_gen] and [MaxTenuringThreshold]. *)
Record vm := mkVM {
  sites : MethodBciHashtable;
  global : PromotionCounters;
  analysis : StaticAnalysis.StaticAnalysis;
  threads : list Thread;
  total_update : Z;
  MaxTenuringThreshold : Z }.

Record config := mkConfig {
  cfg_build : build;
  cfg_flags : StaticAnalysis.flags;
  NG2CUpdateThreshold : Z;
  MaxJavaStackTraceDepth : Z }.

Definition should_profile (cfg : config) (total : Z) : bool := total / NG2CUpdateThreshold cfg <=? 3.

(** [Threads::threads_do] with [NG2C_MergeWorkerThreads]. *)
Fixpoint merge_threads (sites : MethodBciHashtable) (global : PromotionCounters) (ts : list Thread)
    : option (PromotionCounters * list Thread) :=
  match ts with
  | [] => Some (global, [])
  | NamedThread pcs :: ts =>
      '(global, pcs) ← update_promotions_thread sites global pcs;
      '(global, ts) ← merge_threads sites global ts;
      Some (global, NamedThread pcs :: ts)
  | t :: ts =>
      '(global, ts) ← merge_threads sites global ts;
      Some (global, t :: ts)
  end.

(** [Threads::threads_do] with [NG2C_SetThreadsContext]. *)
Fixpoint set_contexts (cfg : config) (s : StaticAnalysis.StaticAnalysis) (ts : list Thread)
    : option (StaticAnalysis.StaticAnalysis * list Thread) :=
  match ts with
  | [] => Some (s, [])
  | AJavaThread t :: ts =>
      '(s, t) ← calculate_context (cfg_flags cfg) (MaxJavaStackTraceDepth cfg) s t;
      '(s, ts) ← set_contexts cfg s ts;
      Some (s, AJavaThread t :: ts)
  | t :: ts =>
      '(s, ts) ← set_contexts cfg s ts;
      Some (s, t :: ts)
  end.

(** The body of the periodic update. *)
Definition periodic_update (cfg : config) (v : vm) : option vm :=
  '(g, ts) ← merge_threads (sites v) (global v) (threads v);
  '(g, st, _) ←
    (if total_update v / NG2CUpdateThreshold cfg >? 1
     then update_target_gen (cfg_build cfg) g (sites v) false
     else Some (g, sites v, false));
  st ← zero_sites st;
  g ← zero_counters g;
  '(s, ts) ← set_contexts cfg (analysis v) ts;
  Some (mkVM st g s ts (total_update v) (MaxTenuringThreshold v)).

Definition doit (cfg : config) (v : vm) : option vm :=
  if StaticAnalysis.no_analysis_file (cfg_flags cfg) && negb (StaticAnalysis.UseROLP (cfg_flags cfg)) then Some v
  else
    let total := u32 (total_update v + 1) in
    let v := mkVM (sites v) (global v) (analysis v) (threads v) total (MaxTenuringThreshold v) in
    v ← (if (total mod NG2CUpdateThreshold cfg =? 0) && should_profile cfg total
         then periodic_update cfg v else Some v);
    Some (if negb (should_profile cfg total)
          then mkVM (sites v) (global v) (analysis v) (threads v) (total_update v) 1 else v).

(** The profiling part of [copy_to_survivor_space]: [m] is the mark word
    installed in the copy, [age] the age before the copy. *)
Definition count_survivor (cfg : config) (total : Z) (sites : MethodBciHashtable) (pcs : PromotionCounters)
    (m age : Z) : option PromotionCounters :=
  let rhash := MarkOop.ng2c_prof m in
  if should_profile cfg total && negb (rhash =? 0) then
    let alloc_site_id := rhash >>> 16 in
    v ← get_entry sites alloc_site_id;
    if v =? NULL then Some pcs
    else
      arr ← ot_objs sites !! v;
      '(pv, pcs) ←
        (if expanded_contexts arr then get_counter_not_null pcs rhash
         else get_counter_not_null pcs (u32 (alloc_site_id <<< 16)));
      pc ← ot_objs pcs !! pv;
      pc ← update pc (if age =? MarkOop.max_age then age else age + 1);
      Some (set_object pcs pv pc)
  else Some pcs.

End ops.

End MergeOp.

(** * Properties of the curve analysis *)

Module CurveFacts.
Import CurveAnalysis.

(** Two non-zero derivatives with a zero one between them. *)
Definition gapped (ds : list spec_float) : Prop :=
  ∃ i j k, (i < j < k)%nat ∧ (f_nonzero <$> ds !! i) = Some true ∧
    (f_nonzero <$> ds !! j) = Some false ∧ (f_nonzero <$> ds !! k) = Some true.

Definition resumes (ds : list spec_float) : Prop :=
  ∃ j k, (j < k)%nat ∧ (f_nonzero <$> ds !! j) = Some false ∧ (f_nonzero <$> ds !! k) = Some true.

Definition occurs (ds : list spec_float) : Prop := ∃ k, (f_nonzero <$> ds !! k) = Some true.

Lemma occurs_cons d ds : occurs (d :: ds) ↔ f_nonzero d = true ∨ occurs ds.
Proof.
  split.
  - intros [[|k] Hk]; [left; by injection Hk|right; by exists k].
  - intros [Hd|[k Hk]]; [exists O; by rewrite <- Hd|by exists (S k)].
Qed.

Lemma resumes_cons d ds : resumes (d :: ds) ↔ (f_nonzero d = false ∧ occurs ds) ∨ resumes ds.
Proof.
  split.
  - intros ([|j] & [|k] & Hjk & Hj & Hk); try lia.
    + left. split; [by injection Hj|by exists k].
    + right. exists j, k. split_and!; [lia|done|done].
  - intros [[Hd [k Hk]]|(j & k & ? & ? & ?)].
    + exists O, (S k). split_and!; [lia|by rewrite <- Hd|done].
    + exists (S j), (S k). split_and!; [lia|done|done].
Qed.

Lemma gapped_cons d ds : gapped (d :: ds) ↔ (f_nonzero d = true ∧ resumes ds) ∨ gapped ds.
Proof.
  split.
  - intros ([|i] & [|j] & [|k] & Hijk & Hi & Hj & Hk); try lia.
    + left. split; [by injection Hi|]. exists j, k. split_and!; [lia|done|done].
    + right. exists i, j, k. split_and!; [lia|lia|done..].
  - intros [[Hd (j & k & ? & ? & ?)]|(i & j & k & ? & ? & ? & ?)].
    + exists O, (S j), (S k). split_and!; [lia|lia|by rewrite <- Hd|done|done].
    + exists (S i), (S j), (S k). split_and!; [lia|lia|done..].
Qed.

Lemma not_nil_occurs : ¬ occurs [] ∧ ¬ resumes [] ∧ ¬ gapped [].
Proof. split_and!; [intros [k ?]|intros (j & k & _ & ? & _)|intros (i & j & k & _ & ? & _)]; by destruct k || by destruct j || by destruct i. Qed.

Lemma resumes_occurs ds : resumes ds → occurs ds.
Proof. intros (j & k & _ & _ & ?). by exists k. Qed.

Lemma gapped_resumes ds : gapped ds → resumes ds.
Proof. intros (i & j & k & ? & _ & ? & ?). exists j, k. split_and!; [lia|done|done]. Qed.

(** The three states of the loop: a gap was seen, the run is open, no
    non-zero derivative yet. *)
Lemma analyze_after der ds i segm min :
  0 <= min → 0 <= i → segm ≠ NG2C_GEN_ARRAY_SIZE → segm + 1 < i →
  analyze_loop der ds i segm min = -1 ↔ occurs ds.
Proof.
  intros Hm. revert i. induction ds as [|d ds IH]; intros i Hi Hs Hg; cbn.
  - split; [lia|]. intros H. by destruct not_nil_occurs.
  - rewrite occurs_cons. destruct (f_nonzero d); cbn.
    + rewrite (proj2 (Z.eqb_neq i (segm + 1))), (proj2 (Z.eqb_neq segm _)) by lia. cbn. tauto.
    + rewrite IH by lia. intuition congruence.
Qed.

Lemma next_min der d min i : 0 <= min → 0 <= i → 0 <= (if SFltb d (nth (Z.to_nat min) der f_zero) then i else min).
Proof. destruct (SFltb _ _); lia. Qed.

Lemma analyze_open der ds i min :
  0 <= min → 0 < i → i + Z.of_nat (length ds) <= 16 → analyze_loop der ds i (i - 1) min = -1 ↔ resumes ds.
Proof.
  revert i min. induction ds as [|d ds IH]; intros i min Hm Hi Hl; cbn [analyze_loop length] in *.
  - split; [lia|]. intros H. by destruct not_nil_occurs as (_ & ? & _).
  - rewrite resumes_cons. destruct (f_nonzero d) eqn:Hd.
    + replace (i =? i - 1 + 1) with true by (symmetry; apply Z.eqb_eq; lia). cbn [negb andb].
      replace i with (i + 1 - 1) at 2 by lia. rewrite IH by (apply next_min || lia; lia). intuition congruence.
    + rewrite analyze_after by (unfold NG2C_GEN_ARRAY_SIZE; lia).
      pose proof (resumes_occurs ds). intuition congruence.
Qed.

Lemma analyze_start der ds i min :
  0 <= min → 0 <= i → i + Z.of_nat (length ds) <= 16 →
  analyze_loop der ds i NG2C_GEN_ARRAY_SIZE min = -1 ↔ gapped ds.
Proof.
  revert i min. induction ds as [|d ds IH]; intros i min Hm Hi Hl; cbn [analyze_loop length] in *.
  - split; [lia|]. intros H. by destruct not_nil_occurs as (_ & _ & ?).
  - rewrite gapped_cons. destruct (f_nonzero d) eqn:Hd.
    + rewrite (Z.eqb_refl NG2C_GEN_ARRAY_SIZE). rewrite andb_false_r.
      replace i with (i + 1 - 1) at 2 by lia. rewrite analyze_open by (apply next_min || lia; lia).
      pose proof (gapped_resumes ds). intuition congruence.
    + rewrite IH by lia. intuition congruence.
Qed.

(** The result is -1, 0, or the index of a non-zero derivative. *)
Lemma analyze_range der ds i segm min :
  0 <= min → 0 <= i →
  let r := analyze_loop der ds i segm min in
  r = -1 ∨ r = min ∨ ∃ k, (k < length ds)%nat ∧ r = i + Z.of_nat k ∧ (f_nonzero <$> ds !! k) = Some true.
Proof.
  revert i segm min. induction ds as [|d ds IH]; intros i segm min Hm Hi; cbn; [by right; left|].
  assert (Hlift : ∀ m, (∃ k, (k < length ds)%nat ∧ m = i + 1 + Z.of_nat k ∧ (f_nonzero <$> ds !! k) = Some true) →
    ∃ k, (k < S (length ds))%nat ∧ m = i + Z.of_nat k ∧ (f_nonzero <$> (d :: ds) !! k) = Some true).
  { intros m (k & ? & -> & ?). exists (S k). split_and!; [lia|lia|done]. }
  destruct (f_nonzero d) eqn:Hd.
  - destruct (negb _ && negb _); [by left|].
    destruct (IH (i + 1) i (if SFltb d (nth (Z.to_nat min) der f_zero) then i else min)) as [H|[H|H]];
      [by apply next_min|lia|by left| |right; right; by apply Hlift].
    rewrite H. destruct (SFltb _ _); [|by right; left]. right; right. exists O. cbn. rewrite Hd. split_and!; [lia|lia|done].
  - destruct (IH (i + 1) segm min) as [H|[H|H]]; [lia|lia|by left|by right; left|right; right; by apply Hlift].
Qed.

Lemma derive_length l : l ≠ [] → length (derive l) = length l.
Proof.
  induction l as [|a [|b l] IH]; [done|done|]. intros _.
  change (S (length (derive (b :: l))) = S (length (b :: l))). by rewrite IH.
Qed.

Lemma derive_last l : last (derive l) = Some f_zero.
Proof.
  induction l as [|a [|b l] IH]; [done|done|].
  change (derive (a :: b :: l)) with (derive_step a b :: derive (b :: l)). destruct (derive (b :: l)); [done|].
  by rewrite last_cons_cons.
Qed.

Lemma normalize_length curve : length curve = 16%nat → length (normalize curve) = 16%nat.
Proof. intros E. unfold normalize. rewrite length_app, length_fmap, length_replicate, length_take, E. done. Qed.

(** C24: The analysis of a survival curve reports a conflict (-1) exactly when
    its relevant drops (single-precision differences not above -0.1) do not
    form one consecutive run; otherwise it returns 0 or the index, at most
    14, of such a drop. *)
Theorem conflict_iff_gapped curve :
  length curve = 16%nat →
  let d := derive (normalize curve) in
  let r := normalize_derive_analyze curve in
  (r = -1 ↔ gapped d) ∧ -1 <= r <= 14 ∧ (0 < r → (f_nonzero <$> d !! Z.to_nat r) = Some true).
Proof.
  intros Hl d r. pose proof (normalize_length curve Hl) as Hn.
  assert (Hd : length d = 16%nat).
  { unfold d. rewrite derive_length; [done|]. intros E. by rewrite E in Hn. }
  assert (H15 : (f_nonzero <$> d !! 15%nat) = Some false).
  { pose proof (derive_last (normalize curve)) as Hlast. fold d in Hlast. rewrite last_lookup, Hd in Hlast.
    cbn in Hlast. by rewrite Hlast. }
  split; [apply analyze_start; rewrite ?Hd; lia|].
  destruct (analyze_range d d 0 NG2C_GEN_ARRAY_SIZE 0) as [E|[E|(k & Hk & E & Hnz)]]; [lia|lia| | |];
    change (analyze_loop d d 0 NG2C_GEN_ARRAY_SIZE 0) with r in E; [lia|lia|].
  rewrite Hd in Hk. rewrite E. destruct (decide (k = 15%nat)) as [->|]; [congruence|].
  split; [lia|]. intros _. replace (Z.to_nat (0 + Z.of_nat k)) with k by lia. done.
Qed.

Lemma conflict_iff_gapped_witness :
  let curve := [100; 100; 100; 5; 5; 5; 5; 0; 0; 0; 0; 0; 0; 0; 0; 0] in
  let d := derive (normalize curve) in
  let r := normalize_derive_analyze curve in
  (r = -1 ↔ gapped d) ∧ -1 <= r <= 14 ∧ (0 < r → (f_nonzero <$> d !! Z.to_nat r) = Some true).
Proof. intros curve. apply (conflict_iff_gapped curve). reflexivity. Defined.

(** The count of the oldest survivors (index 15, where [update] puts ages
    15 and above) never enters the analysis; its normalized value is always
    0, so a site that drops once and then keeps a steady 20% of its objects
    is reported as a conflict. *)
Theorem oldest_survivors_ignored :
  (∀ l x y, length l = 15%nat → normalize_derive_analyze (l ++ [x]) = normalize_derive_analyze (l ++ [y])) ∧
  normalize_derive_analyze ([100; 100; 100] ++ replicate 13 20) = -1.
Proof.
  split; [|vm_compute; reflexivity]. intros l x y Hl. unfold normalize_derive_analyze.
  assert (E : ∀ z, take 15 (l ++ [z]) = l) by (intros z; rewrite <- Hl; apply take_app_length).
  unfold normalize. rewrite !E. destruct l as [|a l]; [done|]. done.
Qed.

End CurveFacts.

(** * Merging the counters *)

Module MergeFacts.
Import Hashtable HashtableFacts NGen NGenFacts Promo MethodBciHashtable PromotionCounters SiteTableFacts
  CounterTableFacts CurveAnalysis MergeOp.

(** The count of index [i] of the counter of a hash. *)
Definition cnt (M : gmap Z PromotionCounter) (k : Z) (i : nat) : Z :=
  match M !! k with Some pc => nth i (_array pc) 0 | None => 0 end.

(** A counter whose allocation site is in the site table. *)
Definition sited (MS : gmap Z NGenerationArray) (pc : PromotionCounter) : Prop :=
  in_u32 (Promo._hash pc) ∧ Promo._hash pc >>> 16 ≠ 0 ∧ is_Some (MS !! (Promo._hash pc >>> 16)).

(** Where a counter is merged to. *)
Definition target_of (MS : gmap Z NGenerationArray) (pc : PromotionCounter) : Z :=
  match MS !! (Promo._hash pc >>> 16) with
  | Some a => merge_target a (Promo._hash pc)
  | None => Promo._hash pc
  end.

(** What merging a counter adds to index [i] of hash [k]; ages start at 1. *)
Definition adds (MS : gmap Z NGenerationArray) (k : Z) (i : nat) (pc : PromotionCounter) : Z :=
  if (target_of MS pc =? k) && negb (i =? 0)%nat then nth i (_array pc) 0 else 0.

Lemma site_array_spec st MS site a :
  bci_rel st MS → site ≠ 0 → MS !! site = Some a →
  ∃ v, site_array st site = Some (v, a) ∧ v ≠ NULL ∧ find_literal st site = Some v ∧ ot_objs st !! v = Some a.
Proof.
  intros Hr Hs Ha. destruct (get_entry_spec st MS site Hr Hs) as (v & Hv & Hx).
  rewrite Ha in Hx. destruct Hx as [Hn Ho]. exists v. unfold site_array. rewrite Hv. cbn.
  rewrite (proj2 (Z.eqb_neq v NULL)), Ho by done. split_and!; try done.
  unfold get_entry in Hv. by rewrite (proj2 (Z.eqb_neq site 0)) in Hv by done.
Qed.

Lemma add_into_spec n g s :
  length g = n → length s = n → add_into n g s = Some (zip_with (λ a b, u64 (a + b)) g s).
Proof.
  revert g s. induction n as [|n IH]; intros [|x g] [|y s] Hg Hs; cbn in *; try done.
  by rewrite IH by lia.
Qed.

(** [update_promotions] on two well-formed counters. *)
Lemma update_promotions_spec g s :
  pc_ok g → pc_ok s →
  ∃ g', update_promotions g s = Some (g', zeroed s) ∧ pc_ok g' ∧ Promo._hash g' = Promo._hash g ∧
    ∀ i, nth i (_array g') 0 = u64 (nth i (_array g) 0 + if (i =? 0)%nat then 0 else nth i (_array s) 0).
Proof.
  intros [Hg Fg] [Hs Fs]. unfold update_promotions, zeroed.
  change (Z.to_nat NG2C_GEN_ARRAY_SIZE) with 16%nat in *. change (Z.to_nat (NG2C_GEN_ARRAY_SIZE - 1)) with 15%nat.
  destruct (_array g) as [|g0 garr] eqn:Eg; [done|]. destruct (_array s) as [|s0 sarr] eqn:Es; [done|].
  injection Hg as Hg. injection Hs as Hs. apply Forall_cons in Fg as [F0 Fg].
  rewrite add_into_spec by done. cbn [mbind option_bind].
  rewrite fill_spec by (cbn; lia). cbn [mbind option_bind]. rewrite drop_ge, app_nil_r by (cbn; lia).
  eexists. split_and!; [done| |done|].
  - split; cbn; [by rewrite length_zip_with, Hg, Hs|]. constructor; [done|].
    clear. revert sarr. induction garr as [|x garr IH]; intros [|y sarr]; cbn; constructor; [apply u64_range|apply IH].
  - intros [|i]; cbn [nth set_array _array].
    + rewrite Z.add_0_r. symmetry. by apply u64_small.
    + rewrite <- Hs in Hg. change (S i =? 0)%nat with false. cbn iota.
      clear -Hg. revert sarr i Hg. induction garr as [|x garr IH]; intros [|y sarr] i Hg; cbn in Hg; try lia.
      { by destruct i. }
      destruct i as [|i]; [done|]. cbn. apply IH. lia.
Qed.

Lemma cnt_range o M k i : pc_rel o M → in_u64 (cnt M k i).
Proof.
  intros [Hot Hok _]. unfold cnt. destruct (M !! k) as [pc|] eqn:E; [|unfold in_u64; lia].
  destruct (OT_find o M k Hot) as (v & _ & Hx). rewrite E in Hx. destruct Hx as [_ Hx].
  destruct (Hok v pc Hx) as [_ HF].
  destruct (nth_in_or_default i (_array pc) 0) as [Hin| ->]; [|unfold in_u64; lia].
  rewrite Forall_forall in HF. apply HF. by apply list_elem_of_In.
Qed.

Lemma nth_zeros n i : nth i (replicate n 0) 0 = 0.
Proof. revert i. induction n as [|n IH]; intros [|i]; [done|done|done|]. apply IH. Qed.

Lemma nth_of_lookup (l : list Z) i x : l !! i = Some x → nth i l 0 = x.
Proof. revert i. induction l as [|y l IH]; intros [|i] H; simplify_eq/=; [done|]. by apply IH. Qed.

Lemma nth_insert (l : list Z) j x y i :
  l !! j = Some x → nth i (<[j := y]> l) 0 = if (i =? j)%nat then y else nth i l 0.
Proof.
  revert i j. induction l as [|z l IH]; intros i j H; [done|]. destruct j as [|j], i as [|i]; try done. cbn in H |- *. by apply IH.
Qed.

Lemma cnt_get_or_create M k k' i : cnt (counter_get_or_create M k) k' i = cnt M k' i.
Proof.
  unfold counter_get_or_create, cnt. destruct (M !! k) eqn:E; [done|].
  destruct (decide (k = k')) as [<-|]; [|by rewrite lookup_insert_ne].
  rewrite lookup_insert_eq, E. cbn [_array new_PromotionCounter]. apply nth_zeros.
Qed.

Lemma cnt_insert M k pc k' i : cnt (<[k := pc]> M) k' i = if k =? k' then nth i (_array pc) 0 else cnt M k' i.
Proof.
  unfold cnt. destruct (Z.eqb_spec k k') as [<-|]; [by rewrite lookup_insert_eq|by rewrite lookup_insert_ne].
Qed.

Lemma pc_rel_set o M k v pc pc' :
  pc_rel o M → find_literal o k = Some v → M !! k = Some pc → pc_ok pc' → Promo._hash pc' = Promo._hash pc →
  pc_rel (set_object o v pc') (<[k := pc']> M).
Proof.
  intros [Hot Hok Hh] Hf Hk Hpc Hhash. split; [by eapply OT_set| |].
  - cbn. intros w x [(<- & <-)|(? & ?)]%lookup_insert_Some; [done|by eapply Hok].
  - intros k' x [(<- & <-)|(? & ?)]%lookup_insert_Some; [|by apply Hh]. rewrite Hhash. by apply Hh.
Qed.

Section ops.
Context `{HC : !CHeapOk C}.
Context (st : MethodBciHashtable) (MS : gmap Z NGenerationArray).
Hypothesis Hst : bci_rel st MS.

(** A table whose counters all belong to known sites. *)
Definition counters_ok (g : PromotionCounters) (MG : gmap Z PromotionCounter) : Prop :=
  pc_rel g MG ∧ ∀ v pc, ot_objs g !! v = Some pc → sited MS pc.

(** Merged counters belong to the site of the counter they come from. *)
Lemma merge_target_site a hash :
  in_u32 hash → merge_target a hash >>> 16 = hash >>> 16 ∧ in_u32 (merge_target a hash).
Proof.
  intros Hh. unfold merge_target. destruct (expanded_contexts a); [done|]. unfold in_u32 in *.
  assert (0 <= hash >>> 16 < 2 ^ 16).
  { rewrite Z.shiftr_div_pow2 by lia. split; [apply Z.div_pos; lia|apply Z.div_lt_upper_bound; lia]. }
  assert (0 <= (hash >>> 16) <<< 16 < 2 ^ 32) by (rewrite Z.shiftl_mul_pow2; lia).
  rewrite u32_small by (unfold in_u32; lia). split; [|done]. rewrite Z.shiftr_shiftl_l by lia. apply Z.shiftl_0_r.
Qed.

Lemma sited_hash pc pc' : Promo._hash pc' >>> 16 = Promo._hash pc >>> 16 → in_u32 (Promo._hash pc') →
  sited MS pc → sited MS pc'.
Proof. intros E H (_ & ? & ?). split; [done|]. by rewrite E. Qed.

(** Merging one counter of a thread. *)
Lemma merge_one_spec g MG objs v pc :
  counters_ok g MG → objs !! v = Some pc → pc_ok pc → sited MS pc →
  ∃ g' MG', merge_one st (g, objs) v = Some (g', <[v := zeroed pc]> objs) ∧ counters_ok g' MG' ∧
    ∀ k i, cnt MG' k i = u64 (cnt MG k i + adds MS k i pc).
Proof.
  intros [Hg Hsi] Hv Hpc Hsp. pose proof Hsp as (Hh & Hs0 & [a Ha]). unfold merge_one. rewrite Hv. cbn [mbind option_bind].
  destruct (site_array_spec st MS _ a Hst Hs0 Ha) as (sv & -> & _). cbn [mbind option_bind].
  set (k := merge_target a (Promo._hash pc)).
  assert (Hk : 0 <= k).
  { unfold k, merge_target. destruct (expanded_contexts a); [apply Hh|apply u32_range]. }
  destruct (get_counter_not_null_spec g MG k Hg Hk) as (gv & g1 & gpc & -> & _ & Hg1 & Hf & Hm & Ho & Hobj).
  cbn [mbind option_bind]. rewrite Ho. cbn [mbind option_bind].
  destruct (update_promotions_spec gpc pc (pr_ok g1 _ Hg1 gv gpc Ho) Hpc) as (g' & -> & Hok' & Hh' & Hnth).
  cbn [mbind option_bind].
  assert (Hsi1 : ∀ w x, ot_objs g1 !! w = Some x → sited MS x).
  { intros w x [Hx| ->]%Hobj; [by eapply Hsi|]. destruct (merge_target_site a (Promo._hash pc) Hh). by apply (sited_hash pc). }
  eexists _, _. split_and!; [done| |].
  { split; [by eapply pc_rel_set|]. cbn. intros w x [(<- & <-)|(? & ?)]%lookup_insert_Some; [|by eapply Hsi1].
    pose proof (Hsi1 gv gpc Ho) as (Hgu & _). apply (sited_hash gpc); [by rewrite Hh'|by rewrite Hh'|by eapply Hsi1]. }
  intros k' i. rewrite cnt_insert, cnt_get_or_create. unfold adds, target_of. rewrite Ha. fold k.
  pose proof (cnt_range g MG k' i Hg) as Hr.
  destruct (Z.eqb_spec k k') as [<-|]; cbn [andb]; [|by rewrite Z.add_0_r, u64_small].
  rewrite Hnth. rewrite <- (cnt_get_or_create MG k k i). unfold cnt at 1. rewrite Hm. by destruct (i =? 0)%nat.
Qed.

(** The counters of a table in iteration order. *)
Definition counters (o : PromotionCounters) : option (list PromotionCounter) :=
  each_entry (ot_heap o) (ot_table o) (λ acc v, pc ← ot_objs o !! v; Some (acc ++ [pc])) [].

Definition sum_of {A} (f : A → Z) (l : list A) : Z := foldr (λ x acc, f x + acc) 0 l.

Lemma sum_of_app {A} (f : A → Z) l1 l2 : sum_of f (l1 ++ l2) = sum_of f l1 + sum_of f l2.
Proof. unfold sum_of. induction l1 as [|x l1 IH]; [done|]. cbn. rewrite IH. lia. Qed.

Lemma ofold_counters (m : gmap Z PromotionCounter) vs acc :
  (∀ v, v ∈ vs → is_Some (m !! v)) →
  ofold (λ acc v, pc ← m !! v; Some (acc ++ [pc])) acc vs = Some (acc ++ omap (m !!.) vs).
Proof.
  revert acc. induction vs as [|v vs IH]; intros acc Hv; cbn; [by rewrite app_nil_r|].
  destruct (Hv v) as [pc E]; [set_solver|]. rewrite E. cbn. rewrite IH by set_solver. by rewrite <- app_assoc.
Qed.

Lemma counters_spec o kv M : OTkv o kv M → counters o = Some (omap (ot_objs o !!.) kv.*2).
Proof.
  intros [HT Hl _ _]. unfold counters. rewrite (each_entry_spec _ _ kv) by done.
  rewrite ofold_counters; [done|]. intros v Hv. by apply Hl.
Qed.

Lemma ne_of_elem (vs : list Z) v w : v ∉ vs → w ∈ vs → v ≠ w.
Proof. by intros ? ? ->. Qed.

(** Merging a list of counters. *)
Lemma merge_fold vs : ∀ g MG objs,
  counters_ok g MG → NoDup vs → (∀ v, v ∈ vs → ∃ pc, objs !! v = Some pc ∧ pc_ok pc ∧ sited MS pc) →
  ∃ g' MG' objs', ofold (merge_one st) (g, objs) vs = Some (g', objs') ∧ counters_ok g' MG' ∧
    (∀ v, objs' !! v = if decide (v ∈ vs) then zeroed <$> objs !! v else objs !! v) ∧
    ∀ k i, cnt MG' k i = u64 (cnt MG k i + sum_of (adds MS k i) (omap (objs !!.) vs)).
Proof.
  induction vs as [|v vs IH]; intros g MG objs Hg Hnd Hvs.
  { exists g, MG, objs. split_and!; [done|done| |].
    - intros v. rewrite decide_False by apply not_elem_of_nil. done.
    - intros k i. cbn. rewrite Z.add_0_r. symmetry. apply u64_small. by eapply cnt_range, Hg. }
  apply NoDup_cons in Hnd as [Hv Hnd]. destruct (Hvs v) as (pc & Epc & Hpc & Hsi); [by constructor|].
  destruct (merge_one_spec g MG objs v pc Hg Epc Hpc Hsi) as (g1 & MG1 & E1 & Hg1 & Hc1).
  destruct (IH g1 MG1 (<[v := zeroed pc]> objs) Hg1 Hnd) as (g2 & MG2 & objs2 & E2 & Hg2 & Ho2 & Hc2).
  { intros w Hw. rewrite lookup_insert_ne by by apply (ne_of_elem vs). apply Hvs. by constructor. }
  exists g2, MG2, objs2. split_and!; [by cbn [ofold]; rewrite E1|done| |].
  - intros w. rewrite Ho2. destruct (decide (w = v)) as [->|].
    + rewrite decide_False, decide_True by (done || by constructor). by rewrite lookup_insert_eq, Epc.
    + rewrite lookup_insert_ne by done. destruct (decide (w ∈ vs)).
      * by rewrite decide_True by by constructor.
      * rewrite decide_False; [done|]. by intros [->|]%elem_of_cons.
  - intros k i. rewrite Hc2, Hc1. cbn [omap list_omap]. rewrite Epc. cbn [sum_of foldr].
    assert (omap ((<[v := zeroed pc]> objs) !!.) vs = omap (objs !!.) vs) as ->.
    { apply list_omap_ext. clear -Hv. induction vs as [|w vs IH]; constructor.
      - apply lookup_insert_ne. by apply not_elem_of_cons in Hv as [? _].
      - apply IH. by apply not_elem_of_cons in Hv as [_ ?]. }
    fold (sum_of (adds MS k i) (omap (objs !!.) vs)). rewrite !u64_mod, Zplus_mod_idemp_l. f_equal. lia.
Qed.

(** The counter table of a worker thread. *)
Definition worker_ok (pcs : PromotionCounters) : Prop :=
  ∃ M, counters_ok pcs M.

Lemma zeroed_ok pc : pc_ok (zeroed pc).
Proof. split; [done|]. apply Forall_replicate. unfold in_u64. lia. Qed.

(** A worker table after the merge: every linked counter is zeroed. *)
Definition all_zero (pcs : PromotionCounters) : Prop :=
  ∃ l, counters pcs = Some l ∧ Forall (λ pc, _array pc = replicate 16 0) l.

Lemma update_promotions_thread_spec g MG pcs :
  counters_ok g MG → worker_ok pcs →
  ∃ g' MG' pcs' l, update_promotions_thread st g pcs = Some (g', pcs') ∧ counters_ok g' MG' ∧
    worker_ok pcs' ∧ all_zero pcs' ∧ counters pcs = Some l ∧
    ∀ k i, cnt MG' k i = u64 (cnt MG k i + sum_of (adds MS k i) l).
Proof.
  intros Hg (M & [(kv & Hkv) Hok Hh] & Hsi). pose proof Hkv as [HT Hl Hnd Hmap].
  destruct (merge_fold kv.*2 g MG (ot_objs pcs) Hg Hnd) as (g' & MG' & objs' & E & Hg' & Ho & Hc).
  { intros v Hv. destruct (Hl v Hv) as [_ [pc Hpc]]. eauto 10. }
  unfold update_promotions_thread. rewrite (each_entry_spec _ _ kv) by done. rewrite E. cbn [mbind option_bind].
  assert (Hkv' : OTkv (mkOT (ot_heap pcs) (ot_table pcs) objs') kv (zeroed <$> M)).
  { split; cbn; try done.
    - intros v Hv. destruct (Hl v Hv) as [? Hs]. split; [done|]. rewrite Ho, decide_True by done. by apply fmap_is_Some.
    - intros k. rewrite lookup_fmap, Hmap. destruct (assoc k kv) as [v|] eqn:Ha; cbn; [|done].
      rewrite Ho. by rewrite decide_True by by eapply assoc_snd. }
  assert (Hin : ∀ v y, objs' !! v = Some y → ∃ x, ot_objs pcs !! v = Some x ∧ (y = x ∨ y = zeroed x)).
  { intros v y. rewrite Ho. destruct (decide _); [|by eauto]. intros (x & Hx & ->)%fmap_Some. eauto. }
  eexists g', MG', _, _. split_and!; [done|done| | |by eapply counters_spec|done].
  - exists (zeroed <$> M). split; [split; [by exists kv| |]|].
    + intros v y (x & Hx & [->| ->])%Hin; [by eapply Hok|apply zeroed_ok].
    + intros k pc. rewrite lookup_fmap. intros (x & Hx & ->)%fmap_Some. by apply (Hh k x).
    + intros v y (x & Hx & [->| ->])%Hin; exact (Hsi v x Hx).
  - eexists. split; [by eapply counters_spec|]. cbn. apply Forall_forall. intros pc.
    intros (v & Hv & Hpc)%list_elem_of_omap. rewrite Ho, decide_True in Hpc by done.
    apply fmap_Some in Hpc as (x & _ & ->). done.
Qed.

(** The counters of all worker threads, in visiting order. *)
Fixpoint all_counters (ts : list Thread) : option (list PromotionCounter) :=
  match ts with
  | [] => Some []
  | NamedThread pcs :: ts => l ← counters pcs; l' ← all_counters ts; Some (l ++ l')
  | _ :: ts => all_counters ts
  end.

Definition thread_ok (t : Thread) : Prop :=
  match t with NamedThread pcs => worker_ok pcs | _ => True end.

Definition thread_zero (t : Thread) : Prop :=
  match t with NamedThread pcs => all_zero pcs | _ => True end.

Lemma merge_threads_spec ts : ∀ g MG,
  counters_ok g MG → Forall thread_ok ts →
  ∃ g' MG' ts' l, merge_threads st g ts = Some (g', ts') ∧ counters_ok g' MG' ∧
    Forall thread_ok ts' ∧ Forall thread_zero ts' ∧ all_counters ts = Some l ∧ length ts' = length ts ∧
    ∀ k i, cnt MG' k i = u64 (cnt MG k i + sum_of (adds MS k i) l).
Proof.
  induction ts as [|t ts IH]; intros g MG Hg Hts.
  { exists g, MG, [], []. split_and!; try done. intros k i. cbn. rewrite Z.add_0_r. symmetry.
    apply u64_small. by eapply cnt_range, Hg. }
  apply Forall_cons in Hts as [Ht Hts]. destruct t as [pcs|jt|].
  - destruct (update_promotions_thread_spec g MG pcs Hg Ht) as (g1 & MG1 & pcs' & l & E1 & Hg1 & Hw & Hz & El & Hc1).
    destruct (IH g1 MG1 Hg1 Hts) as (g2 & MG2 & ts' & l' & E2 & Hg2 & Hts' & Hz' & El' & Hlen & Hc2).
    eexists g2, MG2, (NamedThread pcs' :: ts'), (l ++ l'). cbn [merge_threads all_counters].
    rewrite E1, El. cbn [mbind option_bind]. rewrite E2, El'. cbn [mbind option_bind].
    split_and!; [done|done|by constructor|by constructor|done|cbn; lia|].
    intros k i. rewrite Hc2, Hc1, sum_of_app, !u64_mod, Zplus_mod_idemp_l. f_equal. lia.
  - destruct (IH g MG Hg Hts) as (g2 & MG2 & ts' & l' & E2 & Hg2 & Hts' & Hz' & El' & Hlen & Hc2).
    eexists g2, MG2, (AJavaThread jt :: ts'), l'. cbn [merge_threads all_counters]. rewrite E2. cbn [mbind option_bind].
    split_and!; try done; [by constructor|by constructor|cbn; lia].
  - destruct (IH g MG Hg Hts) as (g2 & MG2 & ts' & l' & E2 & Hg2 & Hts' & Hz' & El' & Hlen & Hc2).
    eexists g2, MG2, (OtherThread :: ts'), l'. cbn [merge_threads all_counters]. rewrite E2. cbn [mbind option_bind].
    split_and!; try done; [by constructor|by constructor|cbn; lia].
Qed.

End ops.

(** C2: The merge loses and duplicates no survivor: for any number of worker
    threads, after [NG2C_MergeWorkerThreads] the global counter of a hash at
    every age of at least 1 is its old value plus the sum over all worker
    counters that belong to it (by hash for expanded sites, by site for the
    others), modulo 2^64; the worker counters are zero afterwards, and the
    operation never faults. *)
Theorem merge_conserves_survivors `{HC : !CHeapOk C} st MS g MG ts :
  bci_rel st MS → counters_ok MS g MG → Forall (thread_ok MS) ts →
  ∃ g' MG' ts' l, merge_threads st g ts = Some (g', ts') ∧ counters_ok MS g' MG' ∧
    Forall thread_zero ts' ∧ all_counters ts = Some l ∧
    ∀ k i, cnt MG' k i = u64 (cnt MG k i + sum_of (adds MS k i) l).
Proof.
  intros Hst Hg Hts.
  destruct (merge_threads_spec st MS Hst ts g MG Hg Hts) as (g' & MG' & ts' & l & ? & ? & _ & ? & ? & _ & ?).
  by exists g', MG', ts', l.
Qed.

End MergeFacts.

(** * Target generations and the whole operation *)

Module DoitFacts.
Import Hashtable HashtableFacts NGen NGenFacts Promo MethodBciHashtable PromotionCounters SiteTableFacts
  CounterTableFacts CurveAnalysis CurveFacts MergeOp MergeFacts ThreadContext ThreadContextFacts.

(** The target generation of a context of a site. *)
Definition target_at (MS : gmap Z NGenerationArray) (site c : Z) : option Z :=
  a ← MS !! site; NGen.target_gen a c.

(** The sites after a step: the same sites, contexts only get expanded, and
    when [NG2C_PROF_ALLOC] is off every target generation is kept. *)
Record sites_step (b : build) (MS MS' : gmap Z NGenerationArray) : Prop := {
  ss_dom : dom MS' = dom MS;
  ss_expanded : ∀ site a a', MS !! site = Some a → MS' !! site = Some a' →
    expanded_contexts a = true → expanded_contexts a' = true;
  ss_target : prof_alloc b = false → ∀ site c, is_context c → target_at MS' site c = target_at MS site c }.

Lemma sites_step_refl b MS : sites_step b MS MS.
Proof. split; [done| |done]. intros site a a' ? ?. by simplify_eq. Qed.

Lemma sites_step_trans b MS1 MS2 MS3 : sites_step b MS1 MS2 → sites_step b MS2 MS3 → sites_step b MS1 MS3.
Proof.
  intros [D1 E1 T1] [D2 E2 T2]. split; [congruence| |].
  - intros site a a' Ha Ha' He. assert (is_Some (MS2 !! site)) as [a2 Ha2].
    { apply elem_of_dom. rewrite D1. apply elem_of_dom. eauto. }
    eauto.
  - intros Hb site c Hc. by rewrite T2, T1.
Qed.

Lemma sites_step_insert b MS site a a' :
  MS !! site = Some a → (expanded_contexts a = true → expanded_contexts a' = true) →
  (prof_alloc b = false → ∀ c, is_context c → NGen.target_gen a' c = NGen.target_gen a c) →
  sites_step b MS (<[site := a']> MS).
Proof.
  intros Ha He Ht. split.
  - apply dom_insert_lookup_L. eauto.
  - intros s x x' Hx Hx' Hex. apply lookup_insert_Some in Hx' as [(<- & <-)|(_ & ?)]; simplify_eq; auto.
  - intros Hb s c Hc. unfold target_at. destruct (decide (site = s)) as [<-|].
    + rewrite lookup_insert_eq, Ha. cbn. auto.
    + by rewrite lookup_insert_ne.
Qed.

Lemma sited_dom MS MS' pc : dom MS' = dom MS → sited MS pc → sited MS' pc.
Proof.
  intros E (? & ? & Hs). split_and!; [done..|]. apply elem_of_dom. rewrite E. by apply elem_of_dom.
Qed.

Lemma context_of_hash pc : is_context (mask_bits (Promo._hash pc) 0xFFFF).
Proof.
  unfold is_context, mask_bits, NG2C_MAX_ALLOC_SITE. pose proof (u16_range (Promo._hash pc)) as H. exact H.
Qed.

Lemma inc_target_gen_to_spec a c g :
  arr_ok a → is_context c → ∃ a', inc_target_gen_to a c g = Some a' ∧ arr_ok a' ∧ NGen._hash a' = NGen._hash a ∧
    expanded_contexts a' = expanded_contexts a.
Proof.
  intros Hok Hc. pose proof (slot_lt a c Hok Hc) as Hs. rewrite <- (ao_target a Hok) in Hs.
  apply lookup_lt_is_Some_2 in Hs as [x Hx]. unfold inc_target_gen_to. rewrite Hx. cbn.
  eexists. split_and!; [done| |done|done]. apply set_target_ok; [done|]. by rewrite length_insert.
Qed.

(** Expansion as a step on the sites. *)
Lemma prepare_contexts_step b st MS site v a :
  bci_rel st MS → find_literal st site = Some v → MS !! site = Some a → expanded_contexts a = false →
  ∃ a', prepare_contexts a = Some a' ∧ bci_rel (set_object st v a') (<[site := a']> MS) ∧
    sites_step b MS (<[site := a']> MS).
Proof.
  intros Hr Hf Ha He. pose proof (in_table_arr_ok st MS site a Hr Ha) as Hok.
  destruct (prepare_contexts_spec a Hok) as (g & Hg & E). eexists. split; [exact E|].
  pose proof (prepare_contexts_ok a _ Hok E) as Hok'. split; [by eapply bci_rel_set|].
  apply (sites_step_insert b MS site a); [done|done|]. intros _ c Hc.
  pose proof (slot_lt _ c Hok' Hc) as Hlt. unfold NGen.target_gen. cbn -[slot].
  rewrite lookup_replicate_2 by done. rewrite slot_zero; [by rewrite Hg|].
  unfold expanded_contexts in He. destruct (ao_factor a Hok) as [|E1]; [done|]. by rewrite E1 in He.
Qed.

(** The body of the update loop never faults and takes a step on the sites. *)
Lemma target_one_spec b st MS objs need p pc :
  bci_rel st MS → objs !! p = Some pc → pc_ok pc → sited MS pc →
  ∃ st' MS' need' pc', target_one b (objs, st, need) p = Some (<[p := pc']> objs, st', need') ∧
    bci_rel st' MS' ∧ sites_step b MS MS' ∧ pc_ok pc' ∧ Promo._hash pc' = Promo._hash pc.
Proof.
  intros Hr Hp [Hlen HF] (Hh & Hs0 & [a Ha]). unfold target_one. rewrite Hp. cbn [mbind option_bind].
  destruct (site_array_spec st MS _ a Hr Hs0 Ha) as (v & -> & Hvn & Hf & Ho). cbn [mbind option_bind].
  pose proof (in_table_arr_ok st MS _ a Hr Ha) as Hok. pose proof (context_of_hash pc) as Hc.
  set (c := mask_bits _ _) in *.
  destruct (inc_number_allocs_spec a c Hok Hc) as (n & _ & Hn & _). rewrite Hn. cbn [mbind option_bind].
  destruct (lookup_lt_is_Some_2 (_array pc) O) as [c0 Hc0].
  { rewrite Hlen. change (0 < 16)%nat. lia. }
  rewrite Hc0. cbn [mbind option_bind].
  set (pc' := set_array pc _).
  assert (Hpc' : pc_ok pc').
  { split; cbn; [by rewrite length_insert|]. apply Forall_insert; [done|apply u64_range]. }
  destruct (normalize_derive_analyze (_array pc') >? 0).
  - destruct (prof_alloc b) eqn:Hb.
    + destruct (inc_target_gen_to_spec a c (normalize_derive_analyze (_array pc')) Hok Hc) as (a' & -> & Hok' & Hh' & He').
      cbn [mbind option_bind]. eexists _, (<[_ := a']> MS), need, pc'.
      split_and!; [done|by eapply bci_rel_set| |done|done]. apply (sites_step_insert b MS _ a); [done|by rewrite He'|congruence].
    + exists st, MS, need, pc'. split_and!; try done. apply sites_step_refl.
  - destruct (normalize_derive_analyze (_array pc') <? 0).
    + destruct (expanded_contexts a) eqn:He; cbn [negb andb].
      { exists st, MS, true, pc'. split_and!; try done. apply sites_step_refl. }
      destruct (prof_context b).
      * destruct (prepare_contexts_step b st MS _ v a Hr Hf Ha He) as (a' & -> & Hr' & Hst). cbn [mbind option_bind].
        eexists _, (<[_ := a']> MS), true, pc'. by split_and!.
      * exists st, MS, true, pc'. split_and!; try done. apply sites_step_refl.
    + exists st, MS, need, pc'. split_and!; try done. apply sites_step_refl.
Qed.

Lemma target_fold b vs : ∀ objs st MS need,
  bci_rel st MS → (∀ v, v ∈ vs → ∃ pc, objs !! v = Some pc ∧ pc_ok pc ∧ sited MS pc) →
  (∀ v pc, objs !! v = Some pc → pc_ok pc ∧ sited MS pc) →
  ∃ objs' st' MS' need', ofold (target_one b) (objs, st, need) vs = Some (objs', st', need') ∧
    bci_rel st' MS' ∧ sites_step b MS MS' ∧
    (∀ v, is_Some (objs !! v) → is_Some (objs' !! v)) ∧
    (∀ v pc', objs' !! v = Some pc' → pc_ok pc' ∧ sited MS' pc' ∧
       ∃ pc, objs !! v = Some pc ∧ Promo._hash pc' = Promo._hash pc).
Proof.
  induction vs as [|v vs IH]; intros objs st MS need Hr Hvs Hall.
  { exists objs, st, MS, need. split_and!; [done|done|apply sites_step_refl|done|].
    intros v pc Hv. destruct (Hall v pc Hv). eauto 10. }
  destruct (Hvs v) as (pc & Hpc & Hok & Hsi); [by constructor|].
  destruct (target_one_spec b st MS objs need v pc Hr Hpc Hok Hsi) as (st1 & MS1 & need1 & pc1 & E1 & Hr1 & Hst1 & Hok1 & Hh1).
  assert (Hall1 : ∀ w x, <[v := pc1]> objs !! w = Some x → pc_ok x ∧ sited MS1 x ∧
    ∃ y, objs !! w = Some y ∧ Promo._hash x = Promo._hash y).
  { pose proof (ss_dom b MS MS1 Hst1) as Hd. intros w x [(<- & <-)|(? & Hx)]%lookup_insert_Some.
    - split_and!; [done| |by exists pc]. apply (sited_dom MS); [done|]. destruct Hsi as (? & ? & ?).
      split; [by rewrite Hh1|]. by rewrite Hh1.
    - destruct (Hall w x Hx). split_and!; [done|by apply (sited_dom MS)|by exists x]. }
  destruct (IH (<[v := pc1]> objs) st1 MS1 need1 Hr1) as (objs2 & st2 & MS2 & need2 & E2 & Hr2 & Hst2 & Hsm & Hin).
  { intros w Hw. destruct (Hvs w) as (x & Hx & _); [by constructor|].
    destruct (lookup_insert_is_Some' objs v w pc1) as [_ [y Hy]]; [right; eauto|].
    destruct (Hall1 w y Hy) as (? & ? & _). eauto. }
  { intros w x Hx. destruct (Hall1 w x Hx) as (? & ? & _). done. }
  exists objs2, st2, MS2, need2. split_and!; [by cbn [ofold]; rewrite E1|done|by eapply sites_step_trans| |].
  - intros w Hw. apply Hsm. apply lookup_insert_is_Some'. by right.
  - intros w x Hx. destruct (Hin w x Hx) as (? & ? & y & Hy & Hyh). destruct (Hall1 w y Hy) as (_ & _ & z & Hz & Hzh).
    split_and!; [done..|]. exists z. split; [done|congruence].
Qed.

Lemma update_target_gen_spec b g MG st MS need :
  bci_rel st MS → counters_ok MS g MG →
  ∃ g' MG' st' MS' need', update_target_gen b g st need = Some (g', st', need') ∧
    counters_ok MS' g' MG' ∧ bci_rel st' MS' ∧ sites_step b MS MS'.
Proof.
  intros Hr [[(kv & Hkv) Hok Hh] Hsi]. pose proof Hkv as [HT Hl Hnd Hmap].
  destruct (target_fold b kv.*2 (ot_objs g) st MS need Hr) as (objs' & st' & MS' & need' & E & Hr' & Hst & Hsm & Hin).
  { intros v Hv. destruct (Hl v Hv) as [_ [pc Hpc]]. eauto 10. }
  { intros v pc Hpc. eauto. }
  destruct (OT_replace g kv MG objs' Hkv) as (MG' & Hkv' & Hm').
  { intros v Hv. apply Hsm. by apply Hl. }
  unfold update_target_gen. rewrite (each_entry_spec _ _ kv) by done. rewrite E. cbn [mbind option_bind].
  eexists _, MG', st', MS', need'. split_and!; [done| |done|done]. split; [split; [by exists kv| |]|].
  - intros v pc Hpc. by destruct (Hin v pc Hpc).
  - intros k x' Hx'. destruct (Hm' k x' Hx') as (v & x & Hx & Hvx & Hvx'). destruct (Hin v x' Hvx') as (_ & _ & y & Hy & ->).
    rewrite Hvx in Hy. injection Hy as <-. by apply Hh.
  - intros v pc Hpc. by destruct (Hin v pc Hpc) as (_ & ? & _).
Qed.

(** Updating the target generations is safe and monotone: it never
    faults, keeps all tables well formed, keeps the set of sites, never
    collapses an expanded site, and in the default build (without
    [NG2C_PROF_ALLOC]) leaves the target generation of every context of
    every site as it was. *)
Theorem update_target_gen_safe b g MG st MS need :
  bci_rel st MS → counters_ok MS g MG →
  ∃ g' MG' st' MS' need', update_target_gen b g st need = Some (g', st', need') ∧
    counters_ok MS' g' MG' ∧ bci_rel st' MS' ∧ dom MS' = dom MS ∧
    (∀ site a a', MS !! site = Some a → MS' !! site = Some a' →
       expanded_contexts a = true → expanded_contexts a' = true) ∧
    (prof_alloc b = false → ∀ site c, is_context c → target_at MS' site c = target_at MS site c).
Proof.
  intros Hr Hg. destruct (update_target_gen_spec b g MG st MS need Hr Hg)
    as (g' & MG' & st' & MS' & need' & E & Hg' & Hr' & []).
  exists g', MG', st', MS', need'. by split_and!.
Qed.

(** ** The whole operation *)

(** The frames of a Java thread belong to loaded methods. *)
Definition java_ok (s : StaticAnalysis.StaticAnalysis) (t : Thread) : Prop :=
  match t with AJavaThread t => Forall (resolved s) (stack t) | _ => True end.

Record vm_ok (v : vm) (MS : gmap Z NGenerationArray) (MG : gmap Z PromotionCounter) : Prop := {
  vo_sites : bci_rel (sites v) MS;
  vo_global : counters_ok MS (global v) MG;
  vo_threads : Forall (thread_ok MS) (threads v);
  vo_analysis : ∃ M, StaticAnalysisFacts.sa_rel (analysis v) M;
  vo_java : Forall (java_ok (analysis v)) (threads v) }.

(** All profile data is cleared. *)
Definition profile_clear (MS : gmap Z NGenerationArray) (MG : gmap Z PromotionCounter) (ts : list Thread) : Prop :=
  (∀ site a c, MS !! site = Some a → is_context c → number_allocs a c = Some 0) ∧
  (∀ k i, cnt MG k i = 0) ∧ Forall thread_zero ts.

Lemma worker_ok_dom MS MS' pcs : dom MS' = dom MS → worker_ok MS pcs → worker_ok MS' pcs.
Proof. intros E (M & Hr & Hs). exists M. split; [done|]. intros v pc Hv. by apply (sited_dom MS), (Hs v). Qed.

Lemma thread_ok_dom MS MS' ts : dom MS' = dom MS → Forall (thread_ok MS) ts → Forall (thread_ok MS') ts.
Proof. intros E Hts. eapply Forall_impl; [exact Hts|]. intros []; [|done..]. by apply worker_ok_dom. Qed.

Lemma merge_threads_java s st g ts g' ts' :
  ∀ (C : CHeap), merge_threads st g ts = Some (g', ts') → Forall (java_ok s) ts → Forall (java_ok s) ts'.
Proof.
  intros C. revert g g' ts'. induction ts as [|t ts IH]; intros g g' ts' E Hts; [by simplify_eq/=|].
  apply Forall_cons in Hts as [Ht Hts]. cbn in E. destruct t as [pcs|jt|].
  - destruct (update_promotions_thread st g pcs) as [[g1 pcs1]|]; [|done]. cbn in E.
    destruct (merge_threads st g1 ts) as [[g2 ts2]|] eqn:E2; [|done]. cbn in E. simplify_eq. constructor; [done|by eapply IH].
  - destruct (merge_threads st g ts) as [[g2 ts2]|] eqn:E2; [|done]. cbn in E. simplify_eq. constructor; [done|by eapply IH].
  - destruct (merge_threads st g ts) as [[g2 ts2]|] eqn:E2; [|done]. cbn in E. simplify_eq. constructor; [done|by eapply IH].
Qed.

Section doit.
Context `{HC : !CHeapOk C}.
Variable cfg : config.

Lemma set_contexts_spec ts : ∀ s M,
  StaticAnalysisFacts.sa_rel s M → Forall (java_ok s) ts →
  ∃ s' M' ts', set_contexts cfg s ts = Some (s', ts') ∧ StaticAnalysisFacts.sa_rel s' M' ∧ same_methods s s' ∧
    Forall (java_ok s') ts' ∧ (∀ MS, Forall (thread_ok MS) ts → Forall (thread_ok MS) ts') ∧
    (Forall thread_zero ts → Forall thread_zero ts').
Proof.
  assert (Hjs : ∀ s s' ts, same_methods s s' → Forall (java_ok s) ts → Forall (java_ok s') ts).
  { intros s s' l Hs Hl. eapply Forall_impl; [exact Hl|]. intros [|t|]; cbn; [done| |done]. intros Hfr.
    eapply Forall_impl; [exact Hfr|]. intros fr. by apply resolved_same. }
  induction ts as [|t ts IH]; intros s M Hr Hts.
  { by exists s, M, []. }
  apply Forall_cons in Hts as [Ht Hts]. cbn [set_contexts]. destruct t as [pcs|jt|].
  - destruct (IH s M Hr Hts) as (s' & M' & ts' & -> & Hr' & Hs & Hj & Hok & Hz). cbn [mbind option_bind].
    eexists s', M', _. split_and!; [done..|by constructor| |]; intros; decompose_Forall_hyps; auto.
  - destruct (calculate_context_total (cfg_flags cfg) (MergeOp.MaxJavaStackTraceDepth cfg) s M jt Hr Ht)
      as (s1 & M1 & c & -> & Hr1 & Hs1). cbn [mbind option_bind].
    destruct (IH s1 M1 Hr1 (Hjs _ _ _ Hs1 Hts)) as (s' & M' & ts' & -> & Hr' & Hs & Hj & Hok & Hz). cbn [mbind option_bind].
    eexists s', M', _. split_and!; [done|done| | | |].
    + intros m. by rewrite Hs, Hs1.
    + constructor; [|done]. cbn. eapply Forall_impl; [exact Ht|]. intros fr Hfr.
      eapply resolved_same; [exact Hs|]. by eapply resolved_same.
    + intros; decompose_Forall_hyps; auto.
    + intros; decompose_Forall_hyps; auto.
  - destruct (IH s M Hr Hts) as (s' & M' & ts' & -> & Hr' & Hs & Hj & Hok & Hz). cbn [mbind option_bind].
    eexists s', M', _. split_and!; [done..|by constructor| |]; intros; decompose_Forall_hyps; auto.
Qed.

Lemma cnt_zeroed M k i : cnt (zeroed <$> M) k i = 0.
Proof. unfold cnt. rewrite lookup_fmap. destruct (M !! k); cbn -[nth]; [apply (nth_zeros 16)|done]. Qed.

(** The periodic update: no fault, and everything is cleared. *)
Lemma periodic_update_spec v MS MG :
  vm_ok v MS MG →
  ∃ v' MS' MG', periodic_update cfg v = Some v' ∧ vm_ok v' MS' MG' ∧ profile_clear MS' MG' (threads v') ∧
    dom MS' = dom MS ∧ total_update v' = total_update v ∧ MaxTenuringThreshold v' = MaxTenuringThreshold v.
Proof.
  intros [Hsi Hgl Hth [M HM] Hj]. unfold periodic_update.
  destruct (merge_threads_spec (sites v) MS Hsi (threads v) (global v) MG Hgl Hth)
    as (g1 & MG1 & ts1 & l & E1 & Hg1 & Ht1 & Hz1 & _). pose proof (merge_threads_java _ _ _ _ _ _ _ E1 Hj) as Hj1.
  rewrite E1. cbn [mbind option_bind].
  assert (Hup : ∃ g2 MG2 st2 MS2 need,
    (if total_update v / NG2CUpdateThreshold cfg >? 1 then update_target_gen (cfg_build cfg) g1 (sites v) false
     else Some (g1, sites v, false)) = Some (g2, st2, need) ∧
    counters_ok MS2 g2 MG2 ∧ bci_rel st2 MS2 ∧ dom MS2 = dom MS).
  { destruct (_ >? 1).
    - destruct (update_target_gen_spec (cfg_build cfg) g1 MG1 (sites v) MS false Hsi Hg1)
        as (g2 & MG2 & st2 & MS2 & need & E & ? & ? & Hst). exists g2, MG2, st2, MS2, need. split_and!; try done. apply Hst.
    - by exists g1, MG1, (sites v), MS, false. }
  destruct Hup as (g2 & MG2 & st2 & MS2 & need & -> & [Hg2 Hsit] & Hst2 & Hd2). cbn [mbind option_bind].
  destruct (zero_sites_spec st2 MS2 Hst2) as (st3 & -> & Hst3 & _). cbn [mbind option_bind].
  set (MS3 := (λ a, set_allocs a (replicate max_sites 0)) <$> MS2) in *.
  assert (Hd3 : dom MS3 = dom MS) by (unfold MS3; by rewrite dom_fmap_L).
  destruct (zero_counters_objs g2 MG2 Hg2) as (g3 & -> & Hg3 & Hin3). cbn [mbind option_bind].
  destruct (set_contexts_spec ts1 (analysis v) M HM Hj1) as (s' & M' & ts2 & -> & Hr' & _ & Hj2 & Hok2 & Hz2).
  cbn [mbind option_bind]. eexists _, MS3, (zeroed <$> MG2). split_and!; [done| | |done|done|done].
  - split; cbn; [done| | |by exists M'|done].
    + split; [done|]. intros w x Hx. apply (sited_dom MS2); [congruence|].
      destruct (Hin3 w x Hx) as (y & Hy & Hxy). pose proof (Hsit w y Hy) as (? & ? & ?).
      destruct Hxy as [->| ->]; done.
    + apply Hok2. by apply (thread_ok_dom MS).
  - split_and!; [|apply cnt_zeroed|cbn; by apply Hz2].
    intros site a c Ha Hc. pose proof (in_table_arr_ok st3 MS3 site a Hst3 Ha) as Hok.
    pose proof (slot_lt a c Hok Hc) as Hlt. unfold MS3 in Ha. rewrite lookup_fmap in Ha.
    apply fmap_Some in Ha as (x & _ & ->). unfold number_allocs. cbn -[slot]. by apply lookup_replicate_2.
Qed.

(** C3: One run of the VM operation, with profiling enabled, never faults and
    keeps every table well formed.  On an update point (every
    [NG2CUpdateThreshold] runs, during the first four periods) all profile
    data is cleared afterwards: allocation counts of all contexts, global
    and per-thread survivor counts.  On any other run the profile data is
    untouched.  When profiling is over [MaxTenuringThreshold] is set to 1. *)
Theorem doit_cycle v MS MG :
  StaticAnalysis.no_analysis_file (cfg_flags cfg) && negb (StaticAnalysis.UseROLP (cfg_flags cfg)) = false →
  NG2CUpdateThreshold cfg ≠ 0 → vm_ok v MS MG →
  let total := u32 (total_update v + 1) in
  ∃ v' MS' MG', doit cfg v = Some v' ∧ vm_ok v' MS' MG' ∧ total_update v' = total ∧ dom MS' = dom MS ∧
    MaxTenuringThreshold v' = (if should_profile cfg total then MaxTenuringThreshold v else 1) ∧
    if (total mod NG2CUpdateThreshold cfg =? 0) && should_profile cfg total
    then profile_clear MS' MG' (threads v')
    else sites v' = sites v ∧ global v' = global v ∧ threads v' = threads v ∧ MS' = MS ∧ MG' = MG.
Proof.
  intros Hen Hthr Hok total. unfold doit. rewrite Hen. fold total.
  set (v0 := mkVM _ _ _ _ total _). assert (Hok0 : vm_ok v0 MS MG) by by destruct Hok.
  assert (Hfin : ∀ v1 MS1 MG1 (p : bool), vm_ok v1 MS1 MG1 →
    vm_ok (if p then mkVM (sites v1) (global v1) (analysis v1) (threads v1) (total_update v1) 1 else v1) MS1 MG1).
  { intros v1 MS1 MG1 [] []; by split. }
  destruct ((total mod NG2CUpdateThreshold cfg =? 0) && should_profile cfg total) eqn:Hup.
  - destruct (periodic_update_spec v0 MS MG Hok0) as (v' & MS' & MG' & -> & Hok' & Hcl & Hd & Ht & Hm).
    cbn [mbind option_bind]. eexists _, MS', MG'. split_and!; [done|by apply Hfin| |done| |].
    + by destruct (negb (should_profile cfg total)).
    + by destruct (should_profile cfg total); cbn [negb].
    + by destruct (should_profile cfg total); cbn [negb].
  - cbn [mbind option_bind]. eexists _, MS, MG. split_and!; [done|by apply Hfin| |done| | | | |done|done].
    all: by destruct (should_profile cfg total); cbn [negb].
Qed.

(** Profiling stops: from the end of the fourth period until the 32-bit
    run counter wraps around, the operation only counts its runs and sets
    [MaxTenuringThreshold] to 1; when the counter wraps to 0 profiling
    starts again. *)
Theorem profiling_stops v :
  StaticAnalysis.no_analysis_file (cfg_flags cfg) && negb (StaticAnalysis.UseROLP (cfg_flags cfg)) = false →
  0 < NG2CUpdateThreshold cfg → 0 <= total_update v < 2 ^ 32 →
  (4 * NG2CUpdateThreshold cfg <= total_update v + 1 < 2 ^ 32 →
   doit cfg v = Some (mkVM (sites v) (global v) (analysis v) (threads v) (total_update v + 1) 1)) ∧
  (total_update v = 2 ^ 32 - 1 → should_profile cfg (u32 (total_update v + 1)) = true).
Proof.
  intros Hen Hthr Hr. split.
  - intros Ht. unfold doit. rewrite Hen, u32_small by (unfold in_u32; lia).
    assert (Hs : should_profile cfg (total_update v + 1) = false).
    { unfold should_profile. apply Z.leb_gt. pose proof (Z.div_le_lower_bound (total_update v + 1) (NG2CUpdateThreshold cfg) 4). lia. }
    rewrite Hs, andb_false_r. done.
  - intros ->. unfold should_profile. by rewrite Z.div_0_l by lia.
Qed.

(** C4: Copying a tagged survivor counts it exactly once: while profiling is
    on and the upper half of the header tag names a known site, the counter
    of the site (or of site and context, once expanded) at the object's new
    age, at most 15, grows by one and no other count changes; otherwise
    nothing changes.  The operation never faults. *)
Theorem survivor_counted_once st MS pcs M total m age :
  bci_rel st MS → counters_ok MS pcs M → 0 <= age <= 15 →
  let tag := MarkOop.ng2c_prof m in
  let site := tag >>> 16 in
  ∃ pcs' M', count_survivor cfg total st pcs m age = Some pcs' ∧ counters_ok MS pcs' M' ∧
    ∀ k i, cnt M' k i =
      match MS !! site with
      | Some a =>
          if should_profile cfg total && negb (tag =? 0) && negb (site =? 0) && (merge_target a tag =? k) &&
             (Z.of_nat i =? Z.min (age + 1) 15)
          then u64 (cnt M k i + 1) else cnt M k i
      | None => cnt M k i
      end.
Proof.
  intros Hst [Hp Hsi] Hage tag site. unfold count_survivor. fold tag. fold site.
  assert (Htag : in_u32 tag) by (unfold tag; rewrite MarkOop.ng2c_prof_field; exact (get_field_range m 32 32 ltac:(lia))).
  destruct (should_profile cfg total); cbn [andb]; [|exists pcs, M; split_and!; [done|done|by intros; destruct (MS !! site)]].
  destruct (Z.eqb_spec tag 0) as [E|E]; cbn [negb andb]; [exists pcs, M; split_and!; [done|done|by intros; destruct (MS !! site)]|].
  destruct (decide (site = 0)) as [Es|Es].
  { rewrite Es, get_entry_zero. exists pcs, M. split_and!; [done|done|]. intros. by destruct (MS !! 0). }
  rewrite (proj2 (Z.eqb_neq site 0)) by done. cbn [negb andb].
  destruct (get_entry_spec st MS site Hst Es) as (v & -> & Hx). cbn [mbind option_bind].
  destruct (MS !! site) as [a|] eqn:Ha; [|subst v; by exists pcs, M].
  destruct Hx as [Hvn Ho]. rewrite (proj2 (Z.eqb_neq v NULL)), Ho by done. cbn [mbind option_bind].
  set (k0 := merge_target a tag).
  assert ((if expanded_contexts a then get_counter_not_null pcs tag else get_counter_not_null pcs (u32 (site <<< 16)))
          = get_counter_not_null pcs k0) as -> by (unfold k0, merge_target; by destruct (expanded_contexts a)).
  destruct (merge_target_site a tag Htag) as [Hk0s Hk0]. fold k0 in Hk0s, Hk0.
  destruct (get_counter_not_null_spec pcs M k0 Hp) as (pv & p1 & pc & -> & _ & Hp1 & Hf & Hm & Hpo & Hobj); [apply Hk0|].
  cbn [mbind option_bind]. rewrite Hpo. cbn [mbind option_bind].
  set (age' := if age =? MarkOop.max_age then age else age + 1).
  assert (Hage' : 0 <= age' ∧ Z.min age' 15 = Z.min (age + 1) 15).
  { unfold age'. change MarkOop.max_age with 15. destruct (Z.eqb_spec age 15); lia. }
  destruct (update_spec pc age' (pr_ok p1 _ Hp1 pv pc Hpo)) as (n & pc' & Hn & -> & Hok' & Epc'); [lia|].
  cbn [mbind option_bind]. eexists _, _. split_and!; [done| |].
  - split; [eapply pc_rel_set; try done; by rewrite Epc'|]. cbn.
    assert (Hsi1 : ∀ w x, ot_objs p1 !! w = Some x → sited MS x).
    { intros w x [Hx| ->]%Hobj; [by eapply Hsi|]. unfold sited.
      change (Promo._hash (new_PromotionCounter k0)) with k0. rewrite Hk0s. fold site. by rewrite Ha. }
    intros w x [(<- & <-)|(? & ?)]%lookup_insert_Some; [|by eapply Hsi1]. rewrite Epc'. exact (Hsi1 pv pc Hpo).
  - intros k i. rewrite cnt_insert, cnt_get_or_create. fold k0.
    destruct (Z.eqb_spec k0 k) as [<-|]; cbn [andb]; [|done].
    destruct Hage' as [_ Hmin]. rewrite Hmin in *.
    rewrite <- (cnt_get_or_create M k0 k0 i). unfold cnt. rewrite Hm, Epc'. cbn [_array set_array].
    rewrite (nth_insert _ _ n) by done.
    destruct (Nat.eqb_spec i (Z.to_nat (Z.min (age + 1) 15))), (Z.eqb_spec (Z.of_nat i) (Z.min (age + 1) 15)); try lia.
    subst i. by rewrite (nth_of_lookup _ _ n).
Qed.

End doit.

(** ** A concrete state: one site, a worker with one counter of it *)

Definition demo_sites : gmap Z NGenerationArray := <[513 := new_NGenerationArray 513]> ∅.
Definition demo_pc : PromotionCounter := mkPC [0; 9; 4; 0; 0; 0; 0; 0; 0; 0; 0; 0; 0; 0; 0; 2] (513 * 65536 + 7) NULL.
Definition demo_counters : gmap Z PromotionCounter := <[513 * 65536 + 7 := demo_pc]> ∅.

Lemma demo_site_table : ∃ st, bci_rel st demo_sites.
Proof.
  destruct (site_create (HC := BumpHeap.bump_heap_ok) (new_MethodBciHashtable 64) ∅ 513)
    as (v & o & _ & _ & Hrel & _); [apply bci_rel_new; lia|lia|done|]. by exists o.
Qed.

Lemma demo_worker : ∃ pcs, counters_ok demo_sites pcs demo_counters.
Proof.
  destruct (OT_insert (Hok := BumpHeap.bump_heap_ok) (new_PromotionCounters 64) ∅ (513 * 65536 + 7) demo_pc)
    as (v & o & _ & Ho & _ & Hobjs & _); [apply OT_empty; [done|done|by exists 12]|lia|].
  assert (Hobj : ∀ w x, ot_objs o !! w = Some x → x = demo_pc).
  { intros w x. rewrite Hobjs. by intros [(_ & <-)|(_ & ?)]%lookup_insert_Some. }
  exists o. split; [split; [done| |]|].
  - intros w x ->%Hobj. split; [done|]. unfold demo_pc, in_u64. cbn. repeat constructor; lia.
  - intros k x. unfold demo_counters. intros [(<- & <-)|(_ & ?)]%lookup_insert_Some; done.
  - intros w x ->%Hobj. split_and!; [unfold in_u32; cbn; lia|done|]. unfold demo_sites.
    change (Promo._hash demo_pc >>> 16) with 513. by rewrite lookup_insert_eq.
Qed.

Lemma demo_global : counters_ok demo_sites (new_PromotionCounters 64) ∅.
Proof. split; [apply pc_rel_new; lia|done]. Qed.

Lemma merge_conserves_survivors_witness :
  let C := BumpHeap.bump_heap in
  ∃ st pcs, ∃ g' MG' ts' l,
    merge_threads st (new_PromotionCounters 64) [OtherThread; NamedThread pcs; NamedThread pcs] = Some (g', ts') ∧
    counters_ok demo_sites g' MG' ∧ Forall thread_zero ts' ∧
    all_counters [OtherThread; NamedThread pcs; NamedThread pcs] = Some l ∧
    ∀ k i, cnt MG' k i = u64 (cnt ∅ k i + sum_of (adds demo_sites k i) l).
Proof.
  intros C. destruct demo_site_table as [st Hst], demo_worker as [pcs Hp]. exists st, pcs.
  apply (merge_conserves_survivors (HC := BumpHeap.bump_heap_ok) st demo_sites (new_PromotionCounters 64) ∅
    [OtherThread; NamedThread pcs; NamedThread pcs]); [exact Hst|exact demo_global|].
  constructor; [done|]. constructor; [by exists demo_counters|]. constructor; [by exists demo_counters|]. constructor.
Defined.

Lemma update_target_gen_safe_witness :
  ∃ g st, ∃ g' MG' st' MS' need', update_target_gen default_build g st false = Some (g', st', need') ∧
    counters_ok MS' g' MG' ∧ bci_rel st' MS' ∧ dom MS' = dom demo_sites ∧
    (∀ site a a', demo_sites !! site = Some a → MS' !! site = Some a' →
       expanded_contexts a = true → expanded_contexts a' = true) ∧
    (prof_alloc default_build = false → ∀ site c, is_context c → target_at MS' site c = target_at demo_sites site c).
Proof.
  destruct demo_site_table as [st Hst], demo_worker as [g Hg]. exists g, st.
  apply (update_target_gen_safe default_build g demo_counters st demo_sites false); [exact Hst|exact Hg].
Defined.

Definition demo_config : config := mkConfig default_build (StaticAnalysis.mkFlags true true) 16 1024.

Definition demo_vm (st : MethodBciHashtable) (pcs : PromotionCounters) (total : Z) : vm :=
  mkVM st (new_PromotionCounters 64) StaticAnalysisFacts.demo_state
    [AJavaThread new_thread; NamedThread pcs] total 15.

Lemma demo_vm_ok st pcs total :
  bci_rel st demo_sites → counters_ok demo_sites pcs demo_counters → vm_ok (demo_vm st pcs total) demo_sites ∅.
Proof.
  intros Hst Hp. split; cbn; [done|apply demo_global| |eexists; apply StaticAnalysisFacts.demo_state_rel|].
  - constructor; [done|]. constructor; [by exists demo_counters|constructor].
  - constructor; [constructor|]. constructor; [done|constructor].
Qed.

Lemma doit_cycle_witness :
  let C := BumpHeap.bump_heap in
  ∃ v v' MS' MG', doit demo_config v = Some v' ∧ vm_ok v' MS' MG' ∧ total_update v' = 32 ∧
    dom MS' = dom demo_sites ∧ MaxTenuringThreshold v' = MaxTenuringThreshold v ∧
    profile_clear MS' MG' (threads v').
Proof.
  intros C. destruct demo_site_table as [st Hst], demo_worker as [pcs Hp]. exists (demo_vm st pcs 31).
  apply (doit_cycle (HC := BumpHeap.bump_heap_ok) demo_config (demo_vm st pcs 31) demo_sites ∅);
    [reflexivity|discriminate|by apply demo_vm_ok].
Defined.

Lemma profiling_stops_witness :
  let C := BumpHeap.bump_heap in
  let v := demo_vm (new_MethodBciHashtable 64) (new_PromotionCounters 64) 63 in
  (64 <= 64 < 2 ^ 32 →
   doit demo_config v = Some (mkVM (sites v) (global v) (analysis v) (threads v) 64 1)) ∧
  (63 = 2 ^ 32 - 1 → should_profile demo_config (u32 64) = true).
Proof. intros C v. apply (profiling_stops demo_config v); [reflexivity|reflexivity|done]. Defined.

Lemma survivor_counted_once_witness :
  let C := BumpHeap.bump_heap in
  let m := MarkOop.set_ng2c_prof MarkOop.prototype (513 * 65536 + 7) in
  ∃ st pcs, ∃ pcs' M', count_survivor demo_config 5 st pcs m 15 = Some pcs' ∧ counters_ok demo_sites pcs' M' ∧
    ∀ k i, cnt M' k i =
      match demo_sites !! (MarkOop.ng2c_prof m >>> 16) with
      | Some a =>
          if should_profile demo_config 5 && negb (MarkOop.ng2c_prof m =? 0) &&
             negb (MarkOop.ng2c_prof m >>> 16 =? 0) && (merge_target a (MarkOop.ng2c_prof m) =? k) &&
             (Z.of_nat i =? Z.min (15 + 1) 15)
          then u64 (cnt demo_counters k i + 1) else cnt demo_counters k i
      | None => cnt demo_counters k i
      end.
Proof.
  intros C m. destruct demo_site_table as [st Hst], demo_worker as [pcs Hp]. exists st, pcs.
  apply (survivor_counted_once (HC := BumpHeap.bump_heap_ok) demo_config st demo_sites pcs demo_counters 5 m 15);
    [exact Hst|exact Hp|lia].
Defined.

End DoitFacts.
