(* ===== verification/JavaHeap.v ===== *)
(** The Java heap as memory: object headers, layout helpers, object sizes and
    the filler objects that keep unused space parsable.

    Memory is a map from 4-byte cells to their values, so that the overlap of
    the compressed class word, its gap and the array length is the one of the
    code.  A load of a cell that was never written faults ([None]).  The
    flags of the VM, the encoding of class pointers and the loaded classes
    are the fields of [VMConfig]. *)

From S2P Require Import Prelude MarkWord.
Import MarkOop.

Module JavaHeap.

(** * Memory *)

Notation memory := (gmap Z Z).

Definition load32 (m : memory) (a : Z) : option Z := m !! a.
Definition store32 (m : memory) (a v : Z) : memory := <[a := u32 v]> m.

Definition load64 (m : memory) (a : Z) : option Z :=
  lo ← load32 m a;
  hi ← load32 m (a + 4);
  Some (lo ||| (hi <<< 32)).
Definition store64 (m : memory) (a v : Z) : memory :=
  store32 (store32 m a v) (a + 4) (v >>> 32).

(** [HeapWord*] arithmetic and the unsigned differences of
    [pointer_delta]. *)
Definition hw_add (p n : Z) : Z := p + HeapWordSize * n.
Definition pointer_delta (left right element_size : Z) : Z := u64 (left - right) / element_size.
Definition words_between (left right : Z) : Z := pointer_delta left right HeapWordSize.

Fixpoint fill_words (m : memory) (to : Z) (count : nat) (v : Z) : memory :=
  match count with
  | O => m
  | S count => fill_words (store64 m to v) (hw_add to 1) count v
  end.

Definition fill_to_words (m : memory) (to count value : Z) : memory :=
  fill_words m to (Z.to_nat count) ((value <<< 32) ||| value).

(** * Basic types *)

Inductive BasicType :=
  | T_BOOLEAN | T_CHAR | T_FLOAT | T_DOUBLE | T_BYTE | T_SHORT | T_INT | T_LONG
  | T_OBJECT | T_ARRAY.

Definition basic_type_value (t : BasicType) : Z :=
  match t with
  | T_BOOLEAN => 4 | T_CHAR => 5 | T_FLOAT => 6 | T_DOUBLE => 7 | T_BYTE => 8
  | T_SHORT => 9 | T_INT => 10 | T_LONG => 11 | T_OBJECT => 12 | T_ARRAY => 13
  end.

(** * Classes and flags *)

Record Klass := mkKlass {
  _layout_helper : Z;
  _prototype_header : markOop;
  oop_size : memory → Z → option Z   (* the virtual Klass::oop_size *)
}.

Class VMConfig := mkConfig {
  UseCompressedOops : bool;
  UseCompressedClassPointers : bool;
  UseBiasedLocking : bool;
  narrow_klass_base : Z;
  narrow_klass_shift : Z;
  MinObjAlignment : Z;
  klasses : gmap Z Klass;
  intArrayKlassObj : Z;
  Object_klass : Z
}.

Definition max_jint : Z := 0x7FFFFFFF.
Definition LogHeapWordSize : Z := 3.
Definition HeapWordsPerLong : Z := 1.
Definition BitsPerLong : Z := 64.
Definition sizeof_jint : Z := 4.
Definition sizeof_oopDesc : Z := 16.
Definition sizeof_arrayOopDesc : Z := 16.
Definition sizeof_narrowKlass : Z := 4.
Definition mark_offset_in_bytes : Z := 0.
Definition klass_offset_in_bytes : Z := 8.

Definition round_to (x s : Z) : Z := mask_bits (x + (s - 1)) (~~~ (s - 1)).
Definition align_size_down (size alignment : Z) : Z := size &&& ~~~ (alignment - 1).
Definition align_object_offset (offset : Z) : Z := align_size_up offset HeapWordsPerLong.

(** * Layout helpers *)

Definition _lh_neutral_value : Z := 0.
Definition _lh_instance_slow_path_bit : Z := 1.
Definition _lh_log2_element_size_shift : Z := 0.
Definition _lh_log2_element_size_mask : Z := BitsPerLong - 1.
Definition _lh_element_type_shift : Z := 8.
Definition _lh_element_type_mask : Z := right_n_bits 8.
Definition _lh_header_size_shift : Z := 16.
Definition _lh_header_size_mask : Z := right_n_bits 8.
Definition _lh_array_tag_bits : Z := 2.
Definition _lh_array_tag_shift : Z := 32 - _lh_array_tag_bits.
Definition _lh_array_tag_type_value : Z := ~~~ 0.
Definition _lh_array_tag_obj_value : Z := ~~~ 1.

Definition layout_helper_size_in_bytes (lh : Z) : Z := lh &&& ~~~ _lh_instance_slow_path_bit.
Definition layout_helper_needs_slow_path (lh : Z) : bool :=
  negb ((lh &&& _lh_instance_slow_path_bit) =? 0).
Definition layout_helper_is_instance (lh : Z) : bool := lh >? _lh_neutral_value.
Definition layout_helper_is_array (lh : Z) : bool := lh <? _lh_neutral_value.
Definition layout_helper_is_typeArray (lh : Z) : bool :=
  u32 lh >=? u32 (_lh_array_tag_type_value <<< _lh_array_tag_shift).
Definition layout_helper_is_objArray (lh : Z) : bool :=
  lh <? i32 (_lh_array_tag_type_value <<< _lh_array_tag_shift).
Definition layout_helper_header_size (lh : Z) : Z :=
  (lh >>> _lh_header_size_shift) &&& _lh_header_size_mask.
Definition layout_helper_element_type (lh : Z) : Z :=
  (lh >>> _lh_element_type_shift) &&& _lh_element_type_mask.
Definition layout_helper_log2_element_size (lh : Z) : Z :=
  (lh >>> _lh_log2_element_size_shift) &&& _lh_log2_element_size_mask.

Definition array_layout_helper (tag hsize etype log2_esize : Z) : Z :=
  i32 ((tag <<< _lh_array_tag_shift) ||| (hsize <<< _lh_header_size_shift)
       ||| (etype <<< _lh_element_type_shift) ||| (log2_esize <<< _lh_log2_element_size_shift)).
Definition instance_layout_helper (size : Z) (slow_path_flag : bool) : Z :=
  i32 ((size <<< LogHeapWordSize) ||| (if slow_path_flag then _lh_instance_slow_path_bit else 0)).
Definition layout_helper_to_size_helper (lh : Z) : Z := lh >>> LogHeapWordSize.

Section config.
Context {cfg : VMConfig}.

Definition MinObjAlignmentInBytes : Z := MinObjAlignment * HeapWordSize.
Definition heapOopSize : Z := if UseCompressedOops then 4 else 8.

Definition align_object_size (size : Z) : Z := align_size_up size MinObjAlignment.

Definition type2aelembytes (t : BasicType) : Z :=
  match t with
  | T_BOOLEAN | T_BYTE => 1
  | T_CHAR | T_SHORT => 2
  | T_FLOAT | T_INT => 4
  | T_DOUBLE | T_LONG => 8
  | T_OBJECT | T_ARRAY => heapOopSize
  end.

Definition element_type_should_be_aligned (t : BasicType) : bool :=
  match t with T_DOUBLE | T_LONG => true | _ => false end.

(** * Object headers *)

Definition oop_header_size : Z := sizeof_oopDesc / HeapWordSize.
Definition klass_gap_offset_in_bytes : Z := klass_offset_in_bytes + sizeof_narrowKlass.

Definition length_offset_in_bytes : Z :=
  if UseCompressedClassPointers then klass_gap_offset_in_bytes else sizeof_arrayOopDesc.
Definition array_header_size_in_bytes : Z :=
  align_size_up (length_offset_in_bytes + 4) HeapWordSize.
Definition array_header_size (t : BasicType) : Z :=
  if element_type_should_be_aligned t
  then align_object_offset (array_header_size_in_bytes / HeapWordSize)
  else array_header_size_in_bytes / HeapWordSize.
Definition base_offset_in_bytes (t : BasicType) : Z := array_header_size t * HeapWordSize.

Definition max_array_length (t : BasicType) : Z :=
  let max_element_words_per_size_t :=
    align_size_down ((2 ^ 64 - 1) / HeapWordSize - array_header_size t) MinObjAlignment in
  let max_elements_per_size_t :=
    u64 (HeapWordSize * max_element_words_per_size_t) / type2aelembytes t in
  if max_jint <? max_elements_per_size_t
  then i32 (align_size_down (max_jint - array_header_size t) MinObjAlignment)
  else i32 max_elements_per_size_t.

Definition array_layout_helper_for (etype : BasicType) : Z :=
  let hsize := base_offset_in_bytes etype in
  let esize := type2aelembytes etype in
  let tag := match etype with T_OBJECT => _lh_array_tag_obj_value | _ => _lh_array_tag_type_value end in
  array_layout_helper tag hsize (basic_type_value etype) (log2_intptr esize).

Definition encode_klass_not_null (v : Z) : Z :=
  u32 (pointer_delta v narrow_klass_base 1 >>> narrow_klass_shift).
Definition decode_klass_not_null (v : Z) : Z :=
  u64 (narrow_klass_base + (v <<< narrow_klass_shift)).
Definition decode_klass (v : Z) : Z := if v =? 0 then NULL else decode_klass_not_null v.

Definition mark (m : memory) (obj : Z) : option markOop := load64 m (obj + mark_offset_in_bytes).
Definition set_mark (m : memory) (obj : Z) (v : markOop) : memory :=
  store64 m (obj + mark_offset_in_bytes) v.

Definition klass (m : memory) (obj : Z) : option Z :=
  if UseCompressedClassPointers
  then decode_klass_not_null <$> load32 m (obj + klass_offset_in_bytes)
  else load64 m (obj + klass_offset_in_bytes).
Definition klass_or_null (m : memory) (obj : Z) : option Z :=
  if UseCompressedClassPointers
  then decode_klass <$> load32 m (obj + klass_offset_in_bytes)
  else load64 m (obj + klass_offset_in_bytes).
Definition set_klass (m : memory) (obj k : Z) : memory :=
  if UseCompressedClassPointers
  then store32 m (obj + klass_offset_in_bytes) (encode_klass_not_null k)
  else store64 m (obj + klass_offset_in_bytes) k.
Definition set_klass_gap (m : memory) (obj v : Z) : memory :=
  if UseCompressedClassPointers then store32 m (obj + klass_gap_offset_in_bytes) v else m.

Definition array_length (m : memory) (obj : Z) : option Z :=
  i32 <$> load32 m (obj + length_offset_in_bytes).
Definition set_length (m : memory) (obj length : Z) : memory :=
  store32 m (obj + length_offset_in_bytes) length.

(** * Object sizes *)

Definition size_given_klass (m : memory) (obj : Z) (k : Klass) : option Z :=
  let lh := _layout_helper k in
  if lh >? _lh_neutral_value then
    if negb (layout_helper_needs_slow_path lh) then Some (lh >>> LogHeapWordSize)
    else oop_size k m obj
  else if lh <? _lh_neutral_value then
    len ← array_length m obj;
    let size_in_bytes := u64 (u64 len <<< layout_helper_log2_element_size lh) in
    let size_in_bytes := u64 (size_in_bytes + layout_helper_header_size lh) in
    Some (i32 (u64 (round_to size_in_bytes MinObjAlignmentInBytes) / HeapWordSize))
  else oop_size k m obj.

Definition size (m : memory) (obj : Z) : option Z :=
  kp ← klass m obj;
  k ← klasses !! kp;
  size_given_klass m obj k.

(** The loop of [ContiguousSpace::object_iterate_from]: the objects from [p]
    up to [limit], with the point where the walk stops. *)
Fixpoint object_walk (fuel : nat) (m : memory) (p limit : Z) : option (list Z * Z) :=
  if p <? limit then
    match fuel with
    | O => None
    | S fuel =>
        sz ← size m p;
        r ← object_walk fuel m (hw_add p sz) limit;
        Some (p :: fst r, snd r)
    end
  else Some ([], p).

(** * Class handles *)

Record KlassHandle := mkKlassHandle { _value : Z; _alloc_gen : Z; _as_hash : Z }.

Definition new_KlassHandle (obj : Z) : KlassHandle := mkKlassHandle obj 0 0.
Definition set_alloc_gen (k : KlassHandle) (gen : Z) : KlassHandle :=
  mkKlassHandle (_value k) gen (_as_hash k).
Definition set_as_hash (k : KlassHandle) (h : Z) : KlassHandle :=
  mkKlassHandle (_value k) (_alloc_gen k) h.

(** * Header initialization *)

(** A build with [NG2C_PROF]: the mark carries the allocation-site tag. *)
Definition post_allocation_setup_no_klass_install
    (m : memory) (k : KlassHandle) (obj : Z) : option memory :=
  if UseBiasedLocking && negb (_value k =? NULL) then
    kl ← klasses !! _value k;
    Some (set_mark m obj (set_ng2c_prof (_prototype_header kl) (_as_hash k)))
  else Some (set_mark m obj (set_ng2c_prof prototype (_as_hash k))).

Definition post_allocation_install_obj_klass (m : memory) (k : KlassHandle) (obj : Z) : memory :=
  set_klass m obj (_value k).

Definition post_allocation_setup_common (m : memory) (k : KlassHandle) (obj : Z) : option memory :=
  m ← post_allocation_setup_no_klass_install m k obj;
  Some (post_allocation_install_obj_klass m k obj).

Definition post_allocation_setup_obj (m : memory) (k : KlassHandle) (obj : Z) : option memory :=
  post_allocation_setup_common m k obj.

Definition post_allocation_setup_array
    (m : memory) (k : KlassHandle) (obj length : Z) : option memory :=
  post_allocation_setup_common (set_length m obj length) k obj.

Definition init_obj (m : memory) (obj sz : Z) : memory :=
  let hs := oop_header_size in
  fill_to_words (set_klass_gap m obj 0) (hw_add obj hs) (u64 (sz - hs)) 0.

(** * Filler objects *)

Definition min_fill_size : Z := align_object_size oop_header_size.
Definition filler_array_hdr_size : Z := align_object_offset (array_header_size T_INT).
Definition filler_array_min_size : Z := align_object_size filler_array_hdr_size.
Definition filler_array_max_size : Z :=
  let max_len := max_array_length T_INT in
  let elements_per_word := HeapWordSize / sizeof_jint in
  align_object_size (filler_array_hdr_size + max_len / elements_per_word).

Definition fill_with_array (m : memory) (start words : Z) : option memory :=
  let payload_size := u64 (words - filler_array_hdr_size) in
  let len := u64 (payload_size * HeapWordSize) / sizeof_jint in
  post_allocation_setup_common (set_length m start (i32 len)) (new_KlassHandle intArrayKlassObj) start.

Definition fill_with_object_impl (m : memory) (start words : Z) : option memory :=
  if words >=? filler_array_min_size then fill_with_array m start words
  else if words >? 0 then post_allocation_setup_common m (new_KlassHandle Object_klass) start
  else Some m.

Definition fill_with_object (m : memory) (start words : Z) : option memory :=
  fill_with_object_impl m start words.

(** The loop cuts at least [max - min] words off at each turn, so
    [words / (max - min) + 1] turns are enough. *)
Fixpoint fill_arrays_loop (fuel : nat) (m : memory) (start words : Z) : option (memory * Z * Z) :=
  let min := min_fill_size in
  let max := filler_array_max_size in
  if words >? max then
    match fuel with
    | O => None
    | S fuel =>
        let cur := if u64 (words - max) >=? min then max else u64 (max - min) in
        m ← fill_with_array m start cur;
        fill_arrays_loop fuel m (hw_add start cur) (u64 (words - cur))
    end
  else Some (m, start, words).

Definition fill_with_objects (m : memory) (start words : Z) : option memory :=
  let fuel := S (Z.to_nat (words / (filler_array_max_size - min_fill_size))) in
  '(m, start, words) ← fill_arrays_loop fuel m start words;
  fill_with_object_impl m start words.

End config.
End JavaHeap.

Module JavaHeapFacts.
Import JavaHeap.

(** * Agreement of memories *)

Definition agree_on (m m' : memory) (lo hi : Z) : Prop := ∀ a, lo <= a < hi → m' !! a = m !! a.
Definition agree_out (m m' : memory) (lo hi : Z) : Prop := ∀ a, a < lo ∨ hi <= a → m' !! a = m !! a.

Lemma agree_out_refl m lo hi : agree_out m m lo hi.
Proof. done. Qed.

Lemma agree_out_trans m1 m2 m3 lo hi :
  agree_out m1 m2 lo hi → agree_out m2 m3 lo hi → agree_out m1 m3 lo hi.
Proof. intros H1 H2 a Ha. rewrite H2 by done. by apply H1. Qed.

Lemma agree_out_weaken m m' lo hi lo' hi' :
  agree_out m m' lo hi → lo' <= lo → hi <= hi' → agree_out m m' lo' hi'.
Proof. intros H ?? a Ha. apply H. lia. Qed.

Lemma agree_out_on m m' lo hi lo' hi' :
  agree_out m m' lo hi → hi' <= lo ∨ hi <= lo' → agree_on m m' lo' hi'.
Proof. intros H Hd a Ha. apply H. lia. Qed.

Lemma agree_on_sub m m' lo hi lo' hi' :
  agree_on m m' lo hi → lo <= lo' → hi' <= hi → agree_on m m' lo' hi'.
Proof. intros H ?? a Ha. apply H. lia. Qed.

Lemma store32_out m a v lo hi : lo <= a < hi → agree_out m (store32 m a v) lo hi.
Proof. intros H b Hb. unfold store32. rewrite lookup_insert_ne by lia. done. Qed.

Lemma store64_out m a v lo hi : lo <= a → a + 4 < hi → agree_out m (store64 m a v) lo hi.
Proof.
  intros. unfold store64. apply agree_out_trans with (store32 m a v); apply store32_out; lia.
Qed.

#[export] Hint Resolve agree_out_refl : vm.

Lemma load32_store32 m a v : load32 (store32 m a v) a = Some (u32 v).
Proof. apply lookup_insert_eq. Qed.

Lemma load32_store32_ne m a b v : a ≠ b → load32 (store32 m a v) b = load32 m b.
Proof. intros. by apply lookup_insert_ne. Qed.

Lemma u64_split v : u32 v ||| (u32 (v >>> 32) <<< 32) = u64 v.
Proof.
  rewrite lor_shiftl_add by (done || apply u32_range).
  rewrite !u32_mod, u64_mod, Z.shiftr_div_pow2 by done.
  change (2 ^ 64) with (2 ^ 32 * 2 ^ 32). rewrite Z.rem_mul_r by done. ring.
Qed.

Lemma load64_store64 m a v : load64 (store64 m a v) a = Some (u64 v).
Proof.
  unfold load64, store64. rewrite (load32_store32_ne _ (a + 4) a), !load32_store32 by lia. cbn.
  by rewrite u64_split.
Qed.

Lemma load32_store64_ne m a b v : b ≠ a → b ≠ a + 4 → load32 (store64 m a v) b = load32 m b.
Proof. intros. unfold store64. by rewrite !load32_store32_ne by lia. Qed.

(** * Alignment *)

Lemma land_lnot_low x k : 0 <= k → x &&& ~~~ (2 ^ k - 1) = 2 ^ k * (x / 2 ^ k).
Proof.
  intros. rewrite <- Z.ldiff_land. replace (2 ^ k - 1) with (Z.ones k) by (rewrite Z.ones_equiv; lia).
  rewrite Z.ldiff_ones_r, Z.shiftl_mul_pow2, Z.shiftr_div_pow2 by done. lia.
Qed.

Lemma align_size_up_spec x k : 0 <= k → align_size_up x (2 ^ k) = 2 ^ k * ((x + (2 ^ k - 1)) / 2 ^ k).
Proof. intros. unfold align_size_up. by apply land_lnot_low. Qed.

Lemma align_size_up_bounds x k :
  0 <= k → x <= align_size_up x (2 ^ k) < x + 2 ^ k ∧ (2 ^ k | align_size_up x (2 ^ k)).
Proof.
  intros Hk. rewrite align_size_up_spec by done. pose proof (Z.pow_pos_nonneg 2 k).
  pose proof (Z.div_mod (x + (2 ^ k - 1)) (2 ^ k)). pose proof (Z.mod_pos_bound (x + (2 ^ k - 1)) (2 ^ k)).
  split; [lia|apply Z.divide_factor_l].
Qed.

Lemma align_size_up_id x k : 0 <= k → (2 ^ k | x) → align_size_up x (2 ^ k) = x.
Proof.
  intros Hk [q ->]. pose proof (Z.pow_pos_nonneg 2 k).
  rewrite align_size_up_spec, Z.div_add_l, (Z.div_small (2 ^ k - 1)) by lia. lia.
Qed.

Lemma round_to_align x s : round_to x s = align_size_up x s.
Proof. done. Qed.

(** * Object headers *)

Section headers.
Context {cfg : VMConfig}.

(** What the VM sets up before the first object: the object alignment, the
    two filler classes and an encoding of their addresses.  The combination
    excluded by [ok_filler] is the one where [filler_array_max_size] rounds
    up to an array longer than [max_jint]; see [filler_max_overflow]. *)
Definition klass_ptr_ok (k : Z) : Prop :=
  0 < k < 2 ^ 64 ∧
  (UseCompressedClassPointers = true →
     0 <= narrow_klass_base < k ∧ 0 <= narrow_klass_shift ∧
     k - narrow_klass_base < 2 ^ (32 + narrow_klass_shift) ∧
     (2 ^ narrow_klass_shift | k - narrow_klass_base)).

Record config_ok : Prop := {
  ok_align : ∃ k, 0 <= k <= 5 ∧ MinObjAlignment = 2 ^ k;
  ok_filler : UseCompressedClassPointers = true ∨ MinObjAlignment ≠ 4;
  ok_int_ptr : klass_ptr_ok intArrayKlassObj;
  ok_obj_ptr : klass_ptr_ok Object_klass;
  ok_int_klass : ∃ K, klasses !! intArrayKlassObj = Some K ∧
    _layout_helper K = array_layout_helper_for T_INT;
  ok_obj_klass : ∃ K, klasses !! Object_klass = Some K ∧
    _layout_helper K = instance_layout_helper (align_object_size oop_header_size) false
}.

Lemma klass_roundtrip k :
  UseCompressedClassPointers = true → klass_ptr_ok k →
  decode_klass_not_null (encode_klass_not_null k) = k ∧ 0 < encode_klass_not_null k < 2 ^ 32.
Proof.
  intros HU [Hk Hc]. destruct (Hc HU) as (Hb & Hs & Hm & [q Hq]). clear Hc.
  unfold decode_klass_not_null, encode_klass_not_null, pointer_delta.
  pose proof (Z.pow_pos_nonneg 2 narrow_klass_shift ltac:(lia) Hs) as Hp.
  rewrite (u64_small (k - _)), Z.div_1_r, Z.shiftr_div_pow2, Hq, Z.div_mul by (unfold in_u64; lia).
  rewrite Z.pow_add_r in Hm by lia.
  assert (0 < q < 2 ^ 32) by nia.
  rewrite u32_small by (unfold in_u32; lia). split; [|done].
  rewrite Z.shiftl_mul_pow2, <- Hq by done. rewrite u64_small by (unfold in_u64; lia). lia.
Qed.

Lemma klass_set_klass m obj k : klass_ptr_ok k → klass (set_klass m obj k) obj = Some k.
Proof.
  intros Hk. unfold klass, set_klass. destruct UseCompressedClassPointers eqn:HU.
  - destruct (klass_roundtrip k HU Hk) as [E ?]. rewrite load32_store32, u32_small by (unfold in_u32; lia).
    cbn. by rewrite E.
  - rewrite load64_store64, u64_small; [done|]. unfold in_u64. destruct Hk. lia.
Qed.

Lemma klass_agree m m' p : agree_on m m' (p + 8) (p + 16) → klass m' p = klass m p.
Proof.
  intros H. unfold klass, load64, load32, klass_offset_in_bytes.
  by rewrite !H by lia.
Qed.

Lemma length_offset_eq : length_offset_in_bytes = if UseCompressedClassPointers then 12 else 16.
Proof. unfold length_offset_in_bytes. by destruct UseCompressedClassPointers. Qed.

Lemma array_header_eq : array_header_size T_INT = if UseCompressedClassPointers then 2 else 3.
Proof.
  unfold array_header_size, array_header_size_in_bytes. rewrite length_offset_eq.
  by destruct UseCompressedClassPointers.
Qed.

Lemma array_length_agree m m' p s :
  agree_on m m' p (p + 8 * s) → array_header_size T_INT <= s → array_length m' p = array_length m p.
Proof.
  unfold array_length, load32. rewrite array_header_eq, length_offset_eq.
  intros H Hs. by destruct UseCompressedClassPointers; rewrite H by lia.
Qed.

Lemma set_mark_out m p v lo hi : lo <= p → p + 4 < hi → agree_out m (set_mark m p v) lo hi.
Proof. intros. unfold set_mark, mark_offset_in_bytes. apply store64_out; lia. Qed.

Lemma set_klass_out m p k lo hi : lo <= p + 8 → p + 12 < hi → agree_out m (set_klass m p k) lo hi.
Proof.
  intros. unfold set_klass, klass_offset_in_bytes.
  destruct UseCompressedClassPointers; [apply store32_out|apply store64_out]; lia.
Qed.

Lemma set_length_out m p n lo hi :
  lo <= p + 12 → p + 8 * array_header_size T_INT <= hi → agree_out m (set_length m p n) lo hi.
Proof.
  unfold set_length. rewrite array_header_eq, length_offset_eq.
  intros. apply store32_out. destruct UseCompressedClassPointers; lia.
Qed.

Lemma setup_common_spec m k p :
  (_value k = NULL ∨ is_Some (klasses !! _value k)) →
  ∃ mk, post_allocation_setup_common m k p = Some (set_klass (set_mark m p mk) p (_value k)) ∧
    mk = set_ng2c_prof
           (if UseBiasedLocking && negb (_value k =? NULL)
            then from_option _prototype_header 0 (klasses !! _value k) else prototype) (_as_hash k).
Proof.
  intros H. eexists. split; [|reflexivity].
  unfold post_allocation_setup_common, post_allocation_setup_no_klass_install.
  destruct (UseBiasedLocking && negb (_value k =? NULL)) eqn:E; [|done].
  apply andb_prop in E as [_ E]. apply negb_true_iff, Z.eqb_neq in E.
  destruct H as [|[K HK]]; [done|]. by rewrite HK.
Qed.

(** * Filling with words *)

Lemma load64_agree m m' p : agree_on m m' p (p + 8) → load64 m' p = load64 m p.
Proof. intros H. unfold load64, load32. by rewrite !H by lia. Qed.

Lemma fill_words_spec m p n v :
  agree_out m (fill_words m p n v) p (p + 8 * Z.of_nat n) ∧
  ∀ i, 0 <= i < Z.of_nat n → load64 (fill_words m p n v) (p + 8 * i) = Some (u64 v).
Proof.
  revert m p. induction n as [|n IH]; intros m p; cbn [fill_words]; [split; [apply agree_out_refl|lia]|].
  destruct (IH (store64 m p v) (hw_add p 1)) as [IH1 IH2]. unfold hw_add, HeapWordSize in *. split.
  - apply agree_out_trans with (store64 m p v); [apply store64_out; lia|].
    eapply agree_out_weaken; [exact IH1|lia..].
  - intros i Hi. destruct (decide (i = 0)) as [->|].
    + rewrite Z.mul_0_r, Z.add_0_r, (load64_agree (store64 m p v)); [apply load64_store64|].
      eapply agree_out_on; [exact IH1|lia].
    + rewrite <- (IH2 (i - 1)) by lia. f_equal. lia.
Qed.

(** The body of a new object: every word after the header is zero, and only
    the object changes. *)
Lemma init_obj_spec m p s :
  oop_header_size <= s < 2 ^ 60 →
  agree_out m (init_obj m p s) (p + 8) (p + 8 * s) ∧
  ∀ i, oop_header_size <= i < s → load64 (init_obj m p s) (p + 8 * i) = Some 0.
Proof.
  intros Hs. change oop_header_size with 2 in *. unfold init_obj, fill_to_words. change oop_header_size with 2.
  rewrite u64_small by (unfold in_u64; lia). unfold hw_add, HeapWordSize.
  destruct (fill_words_spec (set_klass_gap m p 0) (p + 8 * 2) (Z.to_nat (s - 2)) ((0 <<< 32) ||| 0)) as [F1 F2].
  rewrite Z2Nat.id in * by lia. split.
  - apply agree_out_trans with (set_klass_gap m p 0).
    + unfold set_klass_gap. destruct UseCompressedClassPointers; [|apply agree_out_refl].
      apply store32_out. change klass_gap_offset_in_bytes with 12. lia.
    + eapply agree_out_weaken; [exact F1|lia..].
  - intros i Hi. specialize (F2 (i - 2) ltac:(lia)). by replace (p + 8 * 2 + 8 * (i - 2)) with (p + 8 * i) in F2 by lia.
Qed.

(** * Blocks and parsable ranges *)

(** [block m p s]: an object of [s] words starts at [p], and its size is
    determined by its own words. *)
Definition block (m : memory) (p s : Z) : Prop :=
  0 < s ∧ ∀ m', agree_on m m' p (p + 8 * s) → size m' p = Some s.

Inductive parsable (m : memory) : Z → Z → list Z → Prop :=
  | parsable_nil p : parsable m p p []
  | parsable_cons p s hi bs :
      block m p s → parsable m (hw_add p s) hi bs → parsable m p hi (p :: bs).

Lemma parsable_le m lo hi bs : parsable m lo hi bs → lo <= hi.
Proof. induction 1 as [|p s hi bs [? _] _ IH]; unfold hw_add, HeapWordSize in *; lia. Qed.

Lemma block_frame m m' p s : block m p s → agree_on m m' p (p + 8 * s) → block m' p s.
Proof. intros [? H] A. split; [done|]. intros m2 A2. apply H. intros a Ha. rewrite A2 by done. by apply A. Qed.

Lemma parsable_head m p hi q q' bs :
  parsable m p hi (q :: q' :: bs) → block m q ((q' - q) / 8) ∧ parsable m q' hi (q' :: bs).
Proof.
  inversion 1 as [|? s ? ? Hb Hp]; subst. assert (q' = hw_add q s) as -> by by inversion Hp.
  split; [|done]. unfold hw_add, HeapWordSize. replace (q + 8 * s - q) with (s * 8) by lia. by rewrite Z.div_mul.
Qed.

Lemma parsable_frame m m' lo hi bs :
  parsable m lo hi bs → agree_on m m' lo hi → parsable m' lo hi bs.
Proof.
  induction 1 as [|p s hi bs Hb Hp IH]; intros A; [constructor|].
  pose proof (parsable_le _ _ _ _ Hp). pose proof (proj1 Hb). unfold hw_add, HeapWordSize in *.
  apply parsable_cons with s.
  - apply block_frame with m; [done|]. eapply agree_on_sub; [done|lia..].
  - apply IH. eapply agree_on_sub; [done|lia..].
Qed.

Lemma parsable_app m lo mid hi bs bs' :
  parsable m lo mid bs → parsable m mid hi bs' → parsable m lo hi (bs ++ bs').
Proof. induction 1; intros; [done|]. cbn. econstructor; eauto. Qed.

Lemma parsable_single m p s hi : block m p s → hi = hw_add p s → parsable m p hi [p].
Proof. intros ? ->. econstructor; [done|constructor]. Qed.

(** Walking a parsable range visits its blocks and stops at its end. *)
Lemma parsable_walk m lo hi bs :
  parsable m lo hi bs → object_walk (length bs) m lo hi = Some (bs, hi).
Proof.
  induction 1 as [p|p s hi bs Hb Hp IH]; cbn; [by rewrite Z.ltb_irrefl|].
  pose proof (parsable_le _ _ _ _ Hp). destruct Hb as [Hs Hb]. unfold hw_add, HeapWordSize in *.
  rewrite (proj2 (Z.ltb_lt p hi)) by lia. rewrite Hb by done. cbn. by rewrite IH.
Qed.

(** * Filler objects *)

Lemma filler_hdr_eq : filler_array_hdr_size = array_header_size T_INT.
Proof. unfold filler_array_hdr_size. rewrite array_header_eq. by destruct UseCompressedClassPointers. Qed.

Lemma filler_max_eq k :
  MinObjAlignment = 2 ^ k → filler_array_max_size =
    let h := (if UseCompressedClassPointers then 2 else 3) in
    let d := align_size_down ((2 ^ 64 - 1) / 8 - h) (2 ^ k) in
    align_size_up (h + (if max_jint <? u64 (8 * d) / 4 then i32 (align_size_down (max_jint - h) (2 ^ k))
                        else i32 (u64 (8 * d) / 4)) / 2) (2 ^ k).
Proof.
  intros Hk. unfold filler_array_max_size, max_array_length, align_object_size.
  by rewrite filler_hdr_eq, array_header_eq, Hk.
Qed.

Lemma filler_max_bounds k :
  MinObjAlignment = 2 ^ k → 0 <= k <= 5 → UseCompressedClassPointers = true ∨ k ≠ 2 →
  2 ^ 29 <= filler_array_max_size <= 2 ^ 30 + 2 ∧ filler_array_max_size mod 2 ^ k = 0 ∧
  2 * (filler_array_max_size - filler_array_hdr_size) <= max_jint.
Proof.
  intros Hk Hr Hc. rewrite (filler_max_eq k Hk), filler_hdr_eq, array_header_eq. clear Hk.
  assert (k = 0 ∨ k = 1 ∨ k = 2 ∨ k = 3 ∨ k = 4 ∨ k = 5) as H by lia.
  destruct UseCompressedClassPointers; [|destruct Hc as [[=]|Hc]];
    repeat destruct H as [->|H]; subst; try (exfalso; lia); clear;
    vm_compute; repeat split; congruence.
Qed.

(** With 32-byte object alignment and uncompressed class pointers the largest
    filler array has more than [max_jint] elements: its length wraps. *)
Lemma filler_max_overflow :
  MinObjAlignment = 4 → UseCompressedClassPointers = false →
  u64 ((filler_array_max_size - filler_array_hdr_size) * HeapWordSize) / sizeof_jint = max_jint + 3 ∧
  i32 (max_jint + 3) < 0.
Proof.
  intros HA HU. rewrite (filler_max_eq 2 HA), filler_hdr_eq, array_header_eq, HU. done.
Qed.

Lemma int_layout_helper :
  array_layout_helper_for T_INT < 0 ∧
  layout_helper_log2_element_size (array_layout_helper_for T_INT) = 2 ∧
  layout_helper_header_size (array_layout_helper_for T_INT) = 8 * array_header_size T_INT.
Proof.
  unfold array_layout_helper_for, base_offset_in_bytes. rewrite array_header_eq.
  by destruct UseCompressedClassPointers.
Qed.

Lemma array_header_range : 2 <= array_header_size T_INT <= 3.
Proof. rewrite array_header_eq. destruct UseCompressedClassPointers; lia. Qed.

Lemma array_size_of_length m p w :
  config_ok → klass m p = Some intArrayKlassObj →
  array_length m p = Some (2 * (w - array_header_size T_INT)) →
  array_header_size T_INT <= w → 2 * (w - array_header_size T_INT) <= max_jint →
  (MinObjAlignment | w) → size m p = Some w.
Proof.
  intros Hc Hk Hl Hr He Hd. destruct (ok_align Hc) as (k & Hk5 & HA).
  destruct (ok_int_klass Hc) as (K & HK & Hlh). destruct int_layout_helper as (L1 & L2 & L3).
  pose proof array_header_range as Hh.
  unfold size. rewrite Hk. cbn. rewrite HK. cbn. unfold size_given_klass.
  rewrite Hlh, gtb_false by (unfold _lh_neutral_value; lia).
  rewrite (proj2 (Z.ltb_lt _ _)) by done.
  rewrite Hl. cbn [mbind option_bind]. rewrite L2, L3. f_equal.
  set (h := array_header_size T_INT) in *. unfold max_jint in *.
  rewrite (u64_small (2 * (w - h))), Z.shiftl_mul_pow2 by (unfold in_u64; lia).
  rewrite (u64_small (_ * 2 ^ 2)), (u64_small (_ + 8 * h)) by (unfold in_u64; lia).
  replace (2 * (w - h) * 2 ^ 2 + 8 * h) with (8 * w) by lia.
  rewrite round_to_align. unfold MinObjAlignmentInBytes, HeapWordSize.
  rewrite HA in *. replace (2 ^ k * 8) with (2 ^ (k + 3)) by (rewrite Z.pow_add_r; lia).
  rewrite align_size_up_id, u64_small; [|unfold in_u64; lia|lia|].
  - rewrite Z.mul_comm, Z.div_mul by lia. apply i32_small. lia.
  - rewrite Z.pow_add_r, (Z.mul_comm (2 ^ k)) by lia. by apply Z.mul_divide_mono_l.
Qed.

Lemma max_fill_range :
  config_ok → ∃ k, MinObjAlignment = 2 ^ k ∧ 0 <= k <= 5 ∧
    2 ^ 29 <= filler_array_max_size <= 2 ^ 30 + 2 ∧ (2 ^ k | filler_array_max_size) ∧
    2 * (filler_array_max_size - filler_array_hdr_size) <= max_jint.
Proof.
  intros Hc. destruct (ok_align Hc) as (k & Hk5 & HA). exists k. split; [done|]. split; [done|].
  assert (UseCompressedClassPointers = true ∨ k ≠ 2) as Hf.
  { destruct (ok_filler Hc) as [|Hn]; [by left|]. right. intros ->. by rewrite HA in Hn. }
  destruct (filler_max_bounds k HA Hk5 Hf) as (HM & Hmod & Hmax).
  apply Z.mod_divide in Hmod; [done|lia].
Qed.

Lemma fill_with_array_spec m p w :
  config_ok → array_header_size T_INT <= w <= filler_array_max_size → (MinObjAlignment | w) →
  ∃ m', fill_with_array m p w = Some m' ∧ block m' p w ∧ agree_out m m' p (p + 8 * w).
Proof.
  intros Hc Hw Hd. destruct (max_fill_range Hc) as (k & HA & Hk5 & _ & _ & Hmax).
  rewrite filler_hdr_eq in Hmax.
  pose proof array_header_range as Hh. destruct (ok_int_klass Hc) as (K & HK & _).
  unfold fill_with_array. rewrite filler_hdr_eq. set (h := array_header_size T_INT) in *.
  unfold max_jint in *. rewrite (u64_small (w - h)), u64_small by (unfold in_u64, HeapWordSize; lia).
  replace ((w - h) * HeapWordSize / sizeof_jint) with (2 * (w - h))
    by (unfold HeapWordSize, sizeof_jint; apply Z.div_unique_exact; lia).
  rewrite i32_small by lia.
  destruct (setup_common_spec (set_length m p (2 * (w - h))) (new_KlassHandle intArrayKlassObj) p)
    as (mk & -> & _); [right; by eexists|]. eexists. split; [done|].
  split; [split; [lia|]|].
  - intros m' A. apply array_size_of_length; try done; [| |lia|unfold max_jint; lia].
    + erewrite klass_agree; [apply klass_set_klass, (ok_int_ptr Hc)|].
      eapply agree_on_sub; [exact A|lia..].
    + rewrite (array_length_agree _ m' p w A) by lia. unfold array_length, set_klass, set_length.
      rewrite length_offset_eq. unfold klass_offset_in_bytes, set_mark, mark_offset_in_bytes.
      destruct UseCompressedClassPointers.
      * rewrite load32_store32_ne, load32_store64_ne, load32_store32 by lia.
        cbn [fmap option_fmap option_map]. by rewrite i32_u32, i32_small by lia.
      * rewrite !load32_store64_ne, load32_store32 by lia.
        cbn [fmap option_fmap option_map]. by rewrite i32_u32, i32_small by lia.
  - eapply agree_out_trans; [apply (set_length_out _ p (2 * (w - h))); fold h; lia|].
    eapply agree_out_trans; [apply (set_mark_out _ p mk); lia|]. apply set_klass_out; lia.
Qed.

Lemma instance_layout_helper_eq n : 0 <= n < 2 ^ 28 → instance_layout_helper n false = 8 * n.
Proof.
  intros. unfold instance_layout_helper, LogHeapWordSize. rewrite Z.lor_0_r, Z.shiftl_mul_pow2 by lia.
  rewrite i32_small; lia.
Qed.

Lemma instance_size m p kp K n :
  klass m p = Some kp → klasses !! kp = Some K → 0 < n < 2 ^ 28 →
  _layout_helper K = instance_layout_helper n false → size m p = Some n.
Proof.
  intros Hk HK Hn Hl. unfold size. rewrite Hk. cbn. rewrite HK. cbn. unfold size_given_klass.
  rewrite Hl, instance_layout_helper_eq, gtb_true by (unfold _lh_neutral_value; lia).
  assert (layout_helper_needs_slow_path (8 * n) = false) as ->.
  { unfold layout_helper_needs_slow_path. apply negb_false_iff, Z.eqb_eq.
    change _lh_instance_slow_path_bit with (2 ^ 1 - 1). rewrite land_low_ones by lia.
    replace (8 * n) with (4 * n * 2) by lia. by apply Z.mod_mul. }
  cbn [negb]. unfold LogHeapWordSize. rewrite Z.shiftr_div_pow2, Z.mul_comm by lia. by rewrite Z.div_mul.
Qed.

Lemma min_fill_range k :
  MinObjAlignment = 2 ^ k → 0 <= k <= 5 →
  2 <= min_fill_size <= 33 ∧ (2 ^ k | min_fill_size) ∧
  array_header_size T_INT <= filler_array_min_size ∧ filler_array_min_size <= min_fill_size + 2 ^ k.
Proof.
  intros HA Hk. unfold min_fill_size, filler_array_min_size, align_object_size.
  rewrite filler_hdr_eq, HA. pose proof array_header_range.
  destruct (align_size_up_bounds oop_header_size k) as [B1 D1]; [lia|].
  destruct (align_size_up_bounds (array_header_size T_INT) k) as [B2 D2]; [lia|].
  change oop_header_size with 2 in *.
  assert (2 ^ k <= 2 ^ 5) by (apply Z.pow_le_mono_r; lia).
  destruct D1 as [q1 E1], D2 as [q2 E2]. rewrite E1, E2 in *.
  split; [lia|]. split; [by exists q1|]. split; [lia|].
  assert (q2 <= q1 + 1) by nia. nia.
Qed.

Lemma fill_with_object_spec m p w :
  config_ok → min_fill_size <= w <= filler_array_max_size → (MinObjAlignment | w) →
  ∃ m', fill_with_object m p w = Some m' ∧ block m' p w ∧ agree_out m m' p (p + 8 * w).
Proof.
  intros Hc Hw Hd. destruct (ok_align Hc) as (k & Hk5 & HA).
  destruct (min_fill_range k HA Hk5) as (Hm & [q Hq] & Hh & Hle).
  unfold fill_with_object, fill_with_object_impl.
  destruct (Z.geb_spec w filler_array_min_size); [apply fill_with_array_spec; (done || lia)|].
  rewrite gtb_true by lia. rewrite HA in Hd. destruct Hd as [q' Hq'].
  assert (w = min_fill_size) as -> by (assert (q' = q) by nia; lia).
  destruct (ok_obj_klass Hc) as (K & HK & Hlh).
  destruct (setup_common_spec m (new_KlassHandle Object_klass) p) as (mk & -> & _); [right; by eexists|].
  eexists. split; [done|]. split; [split; [lia|]|].
  - intros m' A. eapply instance_size; [|exact HK|fold min_fill_size; lia|exact Hlh].
    erewrite klass_agree; [apply klass_set_klass, (ok_obj_ptr Hc)|]. eapply agree_on_sub; [exact A|lia..].
  - eapply agree_out_trans; [apply (set_mark_out _ p mk); lia|]. apply set_klass_out; lia.
Qed.

Lemma div_sub_lt w c d : 0 < d → d <= c → (w - c) / d < w / d.
Proof.
  intros. assert (w / d = (w - d) / d + 1) as -> by (rewrite <- Z.div_add by lia; f_equal; lia).
  assert ((w - c) / d <= (w - d) / d) by (apply Z.div_le_mono; lia). lia.
Qed.

(** The array loop of [fill_with_objects] tiles a prefix with arrays and
    leaves a rest that a single object can fill. *)
Lemma fill_arrays_loop_spec fuel m p w :
  config_ok → min_fill_size <= w < 2 ^ 61 → (MinObjAlignment | w) →
  w / (filler_array_max_size - min_fill_size) < Z.of_nat fuel →
  ∃ m' p' w' bs, fill_arrays_loop fuel m p w = Some (m', p', w') ∧
    parsable m' p p' bs ∧ agree_out m m' p p' ∧ hw_add p' w' = hw_add p w ∧
    min_fill_size <= w' <= filler_array_max_size ∧ (MinObjAlignment | w').
Proof.
  intros Hc. destruct (max_fill_range Hc) as (k & HA & Hk5 & HM & Hmod & _).
  destruct (min_fill_range k HA Hk5) as (Hm & Hmd & Hh & Hle). rewrite HA.
  pose proof array_header_range. assert (2 ^ k <= 2 ^ 5) by (apply Z.pow_le_mono_r; lia).
  revert m p w. induction fuel as [|fuel IH]; intros m p w Hw Hd Hfu.
  { pose proof (Z.div_pos w (filler_array_max_size - min_fill_size)). lia. }
  cbn [fill_arrays_loop]. destruct (Z.gtb_spec w filler_array_max_size) as [Hgt|Hgt].
  2:{ exists m, p, w, []. repeat split; try done; try lia. constructor. }
  rewrite (u64_small (w - _)), (u64_small (filler_array_max_size - _)) by (unfold in_u64; lia).
  set (cur := if w - filler_array_max_size >=? min_fill_size then filler_array_max_size
              else filler_array_max_size - min_fill_size).
  assert (filler_array_max_size - min_fill_size <= cur <= filler_array_max_size ∧
          min_fill_size <= w - cur ∧ (2 ^ k | cur)) as (Hcur & Hrest & Hcd).
  { unfold cur. destruct (Z.geb_spec (w - filler_array_max_size) min_fill_size).
    - split; [lia|]. split; [lia|done].
    - split; [lia|]. split; [lia|by apply Z.divide_sub_r]. }
  clearbody cur. destruct (fill_with_array_spec m p cur Hc) as (m1 & -> & Hb & Hout); [lia|by rewrite HA|].
  cbn [mbind option_bind]. rewrite u64_small by (unfold in_u64; lia).
  destruct (IH m1 (hw_add p cur) (w - cur)) as (m' & p' & w' & bs & -> & Hp & Ho & He & Hw' & Hd').
  { lia. } { by apply Z.divide_sub_r. }
  { pose proof (div_sub_lt w cur (filler_array_max_size - min_fill_size)). lia. }
  pose proof (parsable_le _ _ _ _ Hp). unfold hw_add, HeapWordSize in *.
  exists m', p', w', (p :: bs). repeat split; try done; try lia.
  - apply parsable_cons with cur; [|done]. apply block_frame with m1; [done|].
    eapply agree_out_on; [exact Ho|lia].
  - eapply agree_out_trans; eapply agree_out_weaken; eauto; lia.
Qed.

(** A range filled with single fillers of the given sizes. *)
Fixpoint tile (m : memory) (p : Z) (ws : list Z) : option memory :=
  match ws with
  | [] => Some m
  | w :: ws => m ← fill_with_object m p w; tile m (hw_add p w) ws
  end.

Fixpoint starts_of (p : Z) (ws : list Z) : list Z :=
  match ws with [] => [] | w :: ws => p :: starts_of (hw_add p w) ws end.

Lemma tile_parsable m p ws :
  config_ok → Forall (λ w, min_fill_size <= w <= filler_array_max_size ∧ (MinObjAlignment | w)) ws →
  ∃ m', tile m p ws = Some m' ∧ parsable m' p (p + 8 * foldr Z.add 0 ws) (starts_of p ws) ∧
    agree_out m m' p (p + 8 * foldr Z.add 0 ws).
Proof.
  intros Hc Hws. revert m p. induction Hws as [|w ws [Hw Hd] Hws IH]; intros m p; cbn [tile foldr starts_of].
  { exists m. split; [done|]. rewrite Z.mul_0_r, Z.add_0_r. split; [constructor|done]. }
  destruct (fill_with_object_spec m p w Hc Hw Hd) as (m1 & -> & Hb & Ho). cbn [mbind option_bind].
  destruct (IH m1 (hw_add p w)) as (m' & -> & Hp & Ho'). exists m'. split; [done|].
  pose proof (parsable_le _ _ _ _ Hp). pose proof (proj1 Hb). unfold hw_add, HeapWordSize in *.
  replace (p + 8 * (w + foldr Z.add 0 ws)) with (p + 8 * w + 8 * foldr Z.add 0 ws) by lia. split.
  - apply parsable_cons with w; [|done]. eapply block_frame; [exact Hb|].
    eapply agree_out_on; [exact Ho'|lia].
  - eapply agree_out_trans; eapply agree_out_weaken; eauto; lia.
Qed.

(** Filling any aligned gap of at least [min_fill_size] words with filler
    objects never faults, leaves a range that a heap walk crosses object by
    object and leaves exactly at its end, and touches no memory outside the
    gap; for gaps larger than the largest [int] array too. *)
Theorem fill_with_objects_parsable m start words :
  config_ok → min_fill_size <= words < 2 ^ 61 → (MinObjAlignment | words) →
  ∃ m' bs, fill_with_objects m start words = Some m' ∧
    parsable m' start (hw_add start words) bs ∧
    object_walk (length bs) m' start (hw_add start words) = Some (bs, hw_add start words) ∧
    agree_out m m' start (hw_add start words).
Proof.
  intros Hc Hw Hd. unfold fill_with_objects.
  set (fuel := S _). destruct (fill_arrays_loop_spec fuel m start words Hc Hw Hd)
    as (m1 & p & w & bs & -> & Hp & Ho & He & Hw' & Hd').
  { unfold fuel. pose proof (Z.div_pos words (filler_array_max_size - min_fill_size)).
    destruct (max_fill_range Hc) as (k & HA & Hk5 & HM & _).
    destruct (min_fill_range k HA Hk5) as (Hm & _). lia. }
  cbn [mbind option_bind]. destruct (fill_with_object_spec m1 p w Hc Hw' Hd') as (m' & E & Hb & Ho').
  unfold fill_with_object in E. rewrite E. pose proof (parsable_le _ _ _ _ Hp).
  pose proof (proj1 Hb). unfold hw_add, HeapWordSize in *.
  assert (parsable m' start (start + 8 * words) (bs ++ [p])) as HP.
  { eapply parsable_app; [|eapply parsable_single; [exact Hb|unfold hw_add, HeapWordSize; lia]].
    eapply parsable_frame; [exact Hp|]. eapply agree_out_on; [exact Ho'|lia]. }
  exists m', (bs ++ [p]). split; [done|]. split; [done|]. split; [by apply parsable_walk|].
  eapply agree_out_trans; eapply agree_out_weaken; eauto; lia.
Qed.

End headers.

(** A VM with compressed class pointers, 8-byte object alignment and the two
    filler classes loaded. *)
Definition demo_klasses : gmap Z Klass :=
  <[0x800000010 := mkKlass (-1072690686) 1 (λ _ _, None)]>
  (<[0x800000030 := mkKlass 16 5 (λ _ _, None)]> ∅).

#[local] Instance demo_config : VMConfig :=
  mkConfig true true true 0x800000000 3 1 demo_klasses 0x800000010 0x800000030.

Lemma demo_config_ok : config_ok.
Proof.
  split; [by exists 0|by left| | | |].
  - split; [done|]. intros _. split; [done|]. split; [done|]. split; [done|by exists 2].
  - split; [done|]. intros _. split; [done|]. split; [done|]. split; [done|by exists 6].
  - by exists (mkKlass (-1072690686) 1 (λ _ _, None)).
  - by exists (mkKlass 16 5 (λ _ _, None)).
Qed.

Lemma fill_with_objects_parsable_witness :
  ∃ m' bs, fill_with_objects ∅ 0x1000 (2 ^ 30 + 1) = Some m' ∧
    parsable m' 0x1000 (hw_add 0x1000 (2 ^ 30 + 1)) bs ∧
    object_walk (length bs) m' 0x1000 (hw_add 0x1000 (2 ^ 30 + 1)) = Some (bs, hw_add 0x1000 (2 ^ 30 + 1)) ∧
    agree_out ∅ m' 0x1000 (hw_add 0x1000 (2 ^ 30 + 1)).
Proof.
  apply (fill_with_objects_parsable ∅ 0x1000 (2 ^ 30 + 1) demo_config_ok).
  - split; [by vm_compute|done].
  - apply Z.divide_1_l.
Defined.

End JavaHeapFacts.
