(* ===== verification/Ideal.v ===== *)
(** Ideal nodes of the C2 compiler ([opto/node.hpp] and the node classes of
    [opto/addnode.hpp], [mulnode.hpp], [subnode.hpp], [memnode.hpp]) that the
    modelled transformations build, and their evaluation: Java arithmetic at
    32 and 64 bits, and loads and stores over raw memory. *)

From S2P Require Import Prelude MarkWord JavaHeap.
Import MarkOop JavaHeap.

Module Ideal.

(** [BoolTest::mask]. *)
Inductive BoolTest := eq | gt | lt | ne | le | ge.

(** A node is an expression over the values ([Parm]) and the raw memory
    ([RawMem]) at the point where it was built; control
    inputs, which only restrict where a node may be scheduled, are left out.
    A [Phi] carries the test of the [If] whose projections meet at its
    region. *)
Inductive Node :=
  | Parm (i : nat)
  | Top
  | ThreadLocal
  | ConP (a : Z)
  | ConI (i : Z)
  | ConL (l : Z)
  | AddP (base ptr off : Node)
  | AddL (x y : Node)
  | SubL (x y : Node)
  | MulL (x y : Node)
  | MulHiL (x y : Node)
  | AndL (x y : Node)
  | LShiftL (x shift : Node)
  | RShiftL (x shift : Node)
  | URShiftL (x shift : Node)
  | AddI (x y : Node)
  | SubI (x y : Node)
  | MulI (x y : Node)
  | AndI (x y : Node)
  | OrI (x y : Node)
  | LShiftI (x shift : Node)
  | RShiftI (x shift : Node)
  | URShiftI (x shift : Node)
  | ConvI2L (x : Node)
  | ConvL2I (x : Node)
  | CastP2X (x : Node)
  | CastX2P (x : Node)
  | EncodePKlass (x : Node)
  | CmpP (x y : Node)
  | CmpI (x y : Node)
  | CmpL (x y : Node)
  | Bool (cmp : Node) (test : BoolTest)
  | CMove (bol if_false if_true : Node)
  | LoadI (mem : Mem) (adr : Node)
  | LoadL (mem : Mem) (adr : Node)
  | LoadP (mem : Mem) (adr : Node)
with Mem :=
  | RawMem
  | StoreI (mem : Mem) (adr val : Node)
  | StoreL (mem : Mem) (adr val : Node)
  | StoreP (mem : Mem) (adr val : Node)
  | StoreNKlass (mem : Mem) (adr val : Node)
  | ClearArray (mem : Mem) (count adr : Node)
  | PrefetchAllocation (mem : Mem) (adr : Node)
  | Phi (test : Node) (on_true on_false : Mem).

(** Control flow after an expansion: the fast path returns the new object,
    the slow path calls the runtime. *)
Inductive Code :=
  | If (test : Node) (on_true on_false : Code)
  | Result (rawoop : Node) (rawmem : Mem)
  | CallStaticJava (klass_node alloc_gen : Node) (length : option Node) (mem : Mem).

Inductive Outcome :=
  | NewObject (obj : Z) (raw : memory)
  | RuntimeCall (klass alloc_gen : Z) (length : option Z) (raw : memory).

Definition compare (x y : Z) : Z := if x <? y then -1 else if x =? y then 0 else 1.
Definition test_holds (t : BoolTest) (cc : Z) : bool :=
  match t with
  | eq => cc =? 0 | ne => negb (cc =? 0)
  | lt => cc <? 0 | ge => negb (cc <? 0)
  | gt => 0 <? cc | le => negb (0 <? cc)
  end.

Section eval.
Context {cfg : VMConfig}.
Variable thread : Z.
Variable parms : nat → Z.
Variable raw : memory.

(** Ints are kept signed in 32 bits and longs signed in 64, pointers
    unsigned. *)
Fixpoint eval (n : Node) : option Z :=
  match n with
  | Parm i => Some (parms i)
  | Top => None
  | ThreadLocal => Some thread
  | ConP a => Some a
  | ConI i => Some i
  | ConL l => Some l
  | AddP _ p o => p ← eval p; o ← eval o; Some (u64 (p + o))
  | AddL x y => x ← eval x; y ← eval y; Some (i64 (x + y))
  | SubL x y => x ← eval x; y ← eval y; Some (i64 (x - y))
  | MulL x y => x ← eval x; y ← eval y; Some (i64 (x * y))
  | MulHiL x y => x ← eval x; y ← eval y; Some (i64 ((x * y) >>> 64))
  | LShiftL x s => x ← eval x; s ← eval s; Some (i64 (x <<< (s &&& 63)))
  | RShiftL x s => x ← eval x; s ← eval s; Some (x >>> (s &&& 63))
  | AndL x y => x ← eval x; y ← eval y; Some (x &&& y)
  | URShiftL x s => x ← eval x; s ← eval s; Some (i64 (u64 x >>> (s &&& 63)))
  | AddI x y => x ← eval x; y ← eval y; Some (i32 (x + y))
  | SubI x y => x ← eval x; y ← eval y; Some (i32 (x - y))
  | MulI x y => x ← eval x; y ← eval y; Some (i32 (x * y))
  | AndI x y => x ← eval x; y ← eval y; Some (x &&& y)
  | OrI x y => x ← eval x; y ← eval y; Some (x ||| y)
  | LShiftI x s => x ← eval x; s ← eval s; Some (i32 (x <<< (s &&& 31)))
  | RShiftI x s => x ← eval x; s ← eval s; Some (x >>> (s &&& 31))
  | URShiftI x s => x ← eval x; s ← eval s; Some (i32 (u32 x >>> (s &&& 31)))
  | ConvI2L x => eval x
  | ConvL2I x => i32 <$> eval x
  | CastP2X x => i64 <$> eval x
  | CastX2P x => u64 <$> eval x
  | EncodePKlass x => encode_klass_not_null <$> eval x
  | CmpP x y => x ← eval x; y ← eval y; Some (compare x y)
  | CmpI x y | CmpL x y => x ← eval x; y ← eval y; Some (compare x y)
  | Bool c t => cc ← eval c; Some (if test_holds t cc then 1 else 0)
  | CMove b f t => b ← eval b; f ← eval f; t ← eval t; Some (if negb (b =? 0) then t else f)
  | LoadI m a => m ← eval_mem m; a ← eval a; i32 <$> load32 m a
  | LoadL m a => m ← eval_mem m; a ← eval a; i64 <$> load64 m a
  | LoadP m a => m ← eval_mem m; a ← eval a; load64 m a
  end
with eval_mem (s : Mem) : option memory :=
  match s with
  | RawMem => Some raw
  | StoreI m a v => m ← eval_mem m; a ← eval a; v ← eval v; Some (store32 m a v)
  | StoreL m a v => m ← eval_mem m; a ← eval a; v ← eval v; Some (store64 m a v)
  | StoreP m a v => m ← eval_mem m; a ← eval a; v ← eval v; Some (store64 m a v)
  | StoreNKlass m a v => m ← eval_mem m; a ← eval a; v ← eval v; Some (store32 m a v)
  | ClearArray m n a => m ← eval_mem m; n ← eval n; a ← eval a; Some (fill_words m a (Z.to_nat n) 0)
  | PrefetchAllocation m a => m ← eval_mem m; _ ← eval a; Some m
  | Phi c m1 m2 => c ← eval c; if negb (c =? 0) then eval_mem m1 else eval_mem m2
  end.

Fixpoint run (c : Code) : option Outcome :=
  match c with
  | If t c1 c2 => b ← eval t; if negb (b =? 0) then run c1 else run c2
  | Result o m => m ← eval_mem m; o ← eval o; Some (NewObject o m)
  | CallStaticJava k g len m =>
      m ← eval_mem m; k ← eval k; g ← eval g;
      match len with
      | Some l => l ← eval l; Some (RuntimeCall k g (Some l) m)
      | None => Some (RuntimeCall k g None m)
      end
  end.

End eval.
End Ideal.
