(* ===== verification/BlockOffset.v ===== *)
(** The block offset table of G1 ([g1BlockOffsetTable]): one byte per 512-byte
    card from which the start of the block that covers an address is found.

    The shared byte array is a map from card indices to entries; the fields
    of one region's [G1BlockOffsetArrayContigSpace] are a record.  A read of an
    entry that was never set faults.  The covered space is contiguous
    ([csp() != NULL]), as it is for every heap region. *)

From S2P Require Import Prelude MarkWord JavaHeap.
Import MarkOop JavaHeap.

Module BlockOffset.

Definition LogN : Z := 9.
Definition LogN_words : Z := LogN - LogHeapWordSize.
Definition N_bytes : Z := 1 <<< LogN.
Definition N_words : Z := 1 <<< LogN_words.
Definition LogBase : Z := 4.
Definition N_powers : Z := 14.

Definition power_to_cards_back (i : Z) : Z := u64 (1 <<< (LogBase * i)).
Definition entry_to_cards_back (entry : Z) : Z := power_to_cards_back (entry - N_words).

(** The table of one region: the shared bytes, the covered range and the next
    boundary at which an allocation must be recorded. *)
Record OffsetTable := mkTable {
  _offset_array : gmap Z Z;
  _bottom : Z;
  _end : Z;
  _next_offset_threshold : Z;
  _next_offset_index : Z
}.

Definition with_array (t : OffsetTable) (a : gmap Z Z) : OffsetTable :=
  mkTable a (_bottom t) (_end t) (_next_offset_threshold t) (_next_offset_index t).
Definition with_threshold (t : OffsetTable) (threshold index : Z) : OffsetTable :=
  mkTable (_offset_array t) (_bottom t) (_end t) threshold index.

Section reserved.
Variable reserved_start : Z.   (* _reserved.start() of the shared array *)

Definition index_for (p : Z) : Z := pointer_delta p reserved_start 1 >>> LogN.
Definition address_for_index (index : Z) : Z := hw_add reserved_start (index <<< LogN_words).
Definition is_card_boundary (p : Z) : bool :=
  (words_between p reserved_start &&& right_n_bits LogN_words) =? 0.

(** * Setting entries *)

Definition set_offset_array_low (a : gmap Z Z) (index high low : Z) : gmap Z Z :=
  <[index := u8 (words_between high low)]> a.

Fixpoint set_cards (a : gmap Z Z) (i : Z) (n : nat) (offset : Z) : gmap Z Z :=
  match n with
  | O => a
  | S n => set_cards (<[i := offset]> a) (i + 1) n offset
  end.

Definition set_offset_array_range (a : gmap Z Z) (left right offset : Z) : gmap Z Z :=
  set_cards a left (Z.to_nat (right - left + 1)) offset.

Fixpoint set_remainder_loop (n : nat) (i : Z) (a : gmap Z Z)
    (start_card start_card_for_region end_card : Z) : gmap Z Z :=
  match n with
  | O => a
  | S n =>
      let reach := start_card - 1 + (power_to_cards_back (i + 1) - 1) in
      let offset := u8 (N_words + i) in
      if reach >=? end_card then set_offset_array_range a start_card_for_region end_card offset
      else
        set_remainder_loop n (i + 1) (set_offset_array_range a start_card_for_region reach offset)
          start_card (reach + 1) end_card
  end.

Definition set_remainder_to_point_to_start_incl (a : gmap Z Z) (start_card end_card : Z) : gmap Z Z :=
  if start_card >? end_card then a
  else set_remainder_loop (Z.to_nat N_powers) 0 a start_card start_card end_card.

Definition set_remainder_to_point_to_start (a : gmap Z Z) (start end_ : Z) : gmap Z Z :=
  if start >=? end_ then a
  else set_remainder_to_point_to_start_incl a (index_for start) (index_for (hw_add end_ (-1))).

(** Records the block [[blk_start, blk_end)], which reaches past [threshold]
    at card [index]; returns the array with the next threshold and index. *)
Definition alloc_block_work2 (a : gmap Z Z) (threshold index blk_start blk_end : Z)
    : gmap Z Z * Z * Z :=
  let a := set_offset_array_low a index threshold blk_start in
  let end_index := index_for (hw_add blk_end (-1)) in
  let a :=
    if index + 1 <=? end_index
    then set_remainder_to_point_to_start a (address_for_index (index + 1))
           (hw_add (address_for_index end_index) N_words)
    else a in
  (a, hw_add (address_for_index end_index) N_words, end_index + 1).

Definition alloc_block_work1 (t : OffsetTable) (blk_start blk_end : Z) : OffsetTable :=
  let '(a, threshold, index) :=
    alloc_block_work2 (_offset_array t) (_next_offset_threshold t) (_next_offset_index t)
      blk_start blk_end in
  with_threshold (with_array t a) threshold index.

Definition alloc_block (t : OffsetTable) (blk_start blk_end : Z) : OffsetTable :=
  if blk_end >? _next_offset_threshold t then alloc_block_work1 t blk_start blk_end else t.

Definition alloc_block_size (t : OffsetTable) (blk size : Z) : OffsetTable :=
  alloc_block t blk (hw_add blk size).

Definition initialize_threshold (t : OffsetTable) : OffsetTable :=
  let index := index_for (_bottom t) + 1 in
  with_threshold t (address_for_index index) index.

Definition zero_bottom_entry (t : OffsetTable) : OffsetTable :=
  with_array t (<[index_for (_bottom t) := 0]> (_offset_array t)).

Definition set_for_starts_humongous (t : OffsetTable) (new_top : Z) : OffsetTable :=
  alloc_block (initialize_threshold (zero_bottom_entry t)) (_bottom t) new_top.

(** The table of a region over [[bottom, end)] before the first allocation. *)
Definition new_table (a : gmap Z Z) (bottom end_ : Z) : OffsetTable :=
  mkTable a bottom end_ NULL 0.

(** * Finding block starts *)

(** Each back skip goes to a smaller card index, so the index bounds the
    number of turns. *)
Fixpoint back_loop (fuel : nat) (a : gmap Z Z) (index q : Z) : option Z :=
  offset ← a !! index;
  if offset >=? N_words then
    match fuel with
    | O => None
    | S fuel =>
        let n_cards_back := entry_to_cards_back offset in
        back_loop fuel a (u64 (index - n_cards_back)) (hw_add q (- (N_words * n_cards_back)))
    end
  else Some (hw_add q (- offset)).

Definition block_at_or_preceding (t : OffsetTable) (addr : Z) (has_max_index : bool) (max_index : Z)
    : option Z :=
  let index := index_for addr in
  let index := if has_max_index then MIN2 index max_index else index in
  back_loop (Z.to_nat index) (_offset_array t) index (address_for_index index).

Context {cfg : VMConfig}.

(** [ContiguousSpace::block_size] *)
Definition block_size (m : memory) (top end_ p : Z) : option Z :=
  if p <? top then size m p else Some (words_between end_ p).

Fixpoint forward_loop (fuel : nat) (m : memory) (q n addr : Z) : option Z :=
  if n <=? addr then
    match fuel with
    | O => None
    | S fuel =>
        let q := n in
        k ← klass_or_null m q;
        if k =? NULL then Some q
        else sz ← size m q; forward_loop fuel m q (hw_add n sz) addr
    end
  else Some q.

Definition forward_to_block_containing_addr_const (m : memory) (top q n addr : Z) : option Z :=
  if addr >=? top then Some top else forward_loop (Z.to_nat (addr - q)) m q n addr.

(** The inner loop of the slow path: objects from [n] until one crosses
    [next_boundary]; [inl q] is the early return at an unset class word. *)
Fixpoint cross_loop (fuel : nat) (m : memory) (q n next_boundary : Z) : option (Z + Z * Z) :=
  if n <=? next_boundary then
    match fuel with
    | O => None
    | S fuel =>
        let q := n in
        k ← klass_or_null m q;
        if k =? NULL then Some (inl q)
        else sz ← size m q; cross_loop fuel m q (hw_add n sz) next_boundary
    end
  else Some (inr (q, n)).

Fixpoint refine_loop (fuel : nat) (m : memory) (a : gmap Z Z) (q n next_boundary next_index addr : Z)
    : option (gmap Z Z * (Z + Z * Z)) :=
  if next_boundary <? addr then
    match fuel with
    | O => None
    | S fuel =>
        r ← cross_loop (Z.to_nat (addr - q)) m q n next_boundary;
        match r with
        | inl q => Some (a, inl q)
        | inr (q, n) =>
            let '(a, next_boundary, next_index) := alloc_block_work2 a next_boundary next_index q n in
            refine_loop fuel m a q n next_boundary next_index addr
        end
    end
  else Some (a, inr (q, n)).

Definition forward_to_block_containing_addr_slow (m : memory) (t : OffsetTable) (top q n addr : Z)
    : option (Z * OffsetTable) :=
  let n_index := index_for n in
  let next_index := n_index + Z.b2z (negb (is_card_boundary n)) in
  let next_boundary := hw_add (address_for_index n_index) (if n_index =? next_index then 0 else N_words) in
  if addr >=? top then Some (top, t)
  else
    r ← refine_loop (Z.to_nat (addr - q)) m (_offset_array t) q n next_boundary next_index addr;
    match r with
    | (a, inl q) => Some (q, with_array t a)
    | (a, inr (q, n)) =>
        q ← forward_to_block_containing_addr_const m top q n addr;
        Some (q, with_array t a)
    end.

Definition forward_to_block_containing_addr (m : memory) (t : OffsetTable) (top q addr : Z)
    : option (Z * OffsetTable) :=
  k ← klass_or_null m q;
  if k =? NULL then Some (q, t)
  else
    sz ← block_size m top (_end t) q;
    let n := hw_add q sz in
    if n <=? addr then forward_to_block_containing_addr_slow m t top q n addr else Some (q, t).

Definition block_start_unsafe (m : memory) (t : OffsetTable) (top addr : Z) : option (Z * OffsetTable) :=
  q ← block_at_or_preceding t addr true (_next_offset_index t - 1);
  forward_to_block_containing_addr m t top q addr.

Definition block_start_unsafe_const (m : memory) (t : OffsetTable) (top addr : Z) : option Z :=
  q ← block_at_or_preceding t addr true (_next_offset_index t - 1);
  sz ← block_size m top (_end t) q;
  forward_to_block_containing_addr_const m top q (hw_add q sz) addr.

Definition block_start (m : memory) (t : OffsetTable) (top addr : Z) : option (Z * OffsetTable) :=
  if (addr >=? _bottom t) && (addr <? _end t) then block_start_unsafe m t top addr
  else Some (NULL, t).

Definition block_start_const (m : memory) (t : OffsetTable) (top addr : Z) : option Z :=
  if (addr >=? _bottom t) && (addr <? _end t) then block_start_unsafe_const m t top addr
  else Some NULL.

(** * Verification *)

Fixpoint verify_cards (n : nat) (m : memory) (t : OffsetTable) (top card obj_start : Z) : option bool :=
  match n with
  | O => Some true
  | S n =>
      b ← block_start_const m t top (address_for_index card);
      if negb (b =? obj_start) then Some false else verify_cards n m t top (card + 1) obj_start
  end.

Definition verify_for_object (m : memory) (t : OffsetTable) (top obj_start word_size : Z) : option bool :=
  let first_card := index_for obj_start in
  let last_card := index_for (hw_add obj_start (word_size - 1)) in
  let first_card := if negb (is_card_boundary obj_start) then first_card + 1 else first_card in
  verify_cards (Z.to_nat (last_card - first_card + 1)) m t top first_card obj_start.

(** [check_all_cards] stops the VM at the first entry that breaks the
    back-skip discipline ([Some false]). *)
Fixpoint check_cards_loop (n : nat) (a : gmap Z Z) (start_card c : Z) : option bool :=
  match n with
  | O => Some true
  | S n =>
      entry ← a !! c;
      if (c - start_card >? power_to_cards_back 1) && negb (entry >? N_words) then Some false
      else
        let landing_card := u64 (c - entry_to_cards_back entry) in
        if negb (landing_card >=? start_card - 1) then Some false
        else
          e ← a !! landing_card;
          if landing_card >=? start_card
          then if e <=? entry then check_cards_loop n a start_card (c + 1) else Some false
          else if e <=? N_words then check_cards_loop n a start_card (c + 1) else Some false
  end.

Definition check_all_cards (a : gmap Z Z) (start_card end_card : Z) : option bool :=
  if end_card <? start_card then Some true
  else
    e ← a !! start_card;
    if negb (e =? N_words) then Some false
    else check_cards_loop (Z.to_nat (end_card - start_card)) a start_card (start_card + 1).

End reserved.
End BlockOffset.

Module BlockOffsetFacts.
Import BlockOffset JavaHeapFacts.

(** * Cards *)

Lemma power_to_cards_back_eq i : 0 <= i <= 14 → power_to_cards_back i = 16 ^ i.
Proof.
  intros. unfold power_to_cards_back, LogBase. rewrite Z.shiftl_1_l, Z.pow_mul_r by lia.
  change (2 ^ 4) with 16. apply u64_small. split; [lia|].
  apply Z.le_lt_trans with (16 ^ 14); [apply Z.pow_le_mono_r; lia|done].
Qed.

Lemma set_cards_lookup a i n o c :
  set_cards a i n o !! c = if decide (i <= c < i + Z.of_nat n) then Some o else a !! c.
Proof.
  revert a i. induction n as [|n IH]; intros a i; cbn [set_cards].
  { rewrite decide_False by lia. done. }
  rewrite IH. destruct (decide (i + 1 <= c < i + 1 + Z.of_nat n)).
  - by rewrite decide_True by lia.
  - destruct (decide (c = i)) as [->|].
    + by rewrite lookup_insert_eq, decide_True by lia.
    + by rewrite lookup_insert_ne, decide_False by lia.
Qed.

Lemma set_range_lookup a l r o c :
  set_offset_array_range a l r o !! c = if decide (l <= c <= r) then Some o else a !! c.
Proof.
  unfold set_offset_array_range. rewrite set_cards_lookup.
  destruct (decide (l <= c <= r)); [rewrite decide_True by lia|rewrite decide_False by lia]; done.
Qed.

(** The entry of the card [d] cards behind the one with the block offset is
    [N_words + j] for the largest power [16^j] not above [d]. *)
Definition skip_entry (d e : Z) : Prop :=
  ∃ j, 0 <= j < 14 ∧ 16 ^ j <= d < 16 ^ (j + 1) ∧ e = 64 + j.

Lemma remainder_loop_spec n i a sc ec :
  Z.of_nat n + i = 14 → 0 <= i → ec - (sc - 1) < 16 ^ 14 →
  let a' := set_remainder_loop n i a sc (sc - 1 + 16 ^ i) ec in
  (∀ c, sc - 1 + 16 ^ i <= c <= ec → ∃ e, a' !! c = Some e ∧ skip_entry (c - (sc - 1)) e) ∧
  (∀ c, c < sc - 1 + 16 ^ i ∨ ec < c → a' !! c = a !! c).
Proof.
  revert i a. induction n as [|n IH]; intros i a Hn Hi Hec; cbn zeta; cbn [set_remainder_loop].
  { replace i with 14 by lia. split; [intros; lia|done]. }
  rewrite power_to_cards_back_eq by lia.
  assert (16 ^ (i + 1) = 16 * 16 ^ i) as E by (rewrite Z.pow_add_r by lia; lia).
  pose proof (Z.pow_pos_nonneg 16 i ltac:(lia) Hi).
  assert (u8 (N_words + i) = 64 + i) as ->
    by (rewrite u8_mod; change N_words with 64; apply Z.mod_small; lia).
  assert (∀ c, sc - 1 + 16 ^ i <= c <= sc - 1 + (16 ^ (i + 1) - 1) → skip_entry (c - (sc - 1)) (64 + i)) as Hsk.
  { intros c Hc. exists i. lia. }
  destruct (Z.geb_spec (sc - 1 + (16 ^ (i + 1) - 1)) ec) as [Hge|Hlt].
  - split; intros c Hc; rewrite set_range_lookup.
    + rewrite decide_True by lia. eexists. split; [done|]. apply Hsk. lia.
    + by rewrite decide_False by lia.
  - replace (sc - 1 + (16 ^ (i + 1) - 1) + 1) with (sc - 1 + 16 ^ (i + 1)) by lia.
    destruct (IH (i + 1) (set_offset_array_range a (sc - 1 + 16 ^ i) (sc - 1 + (16 ^ (i + 1) - 1)) (64 + i)))
      as [H1 H2]; [lia..|].
    split; intros c Hc.
    + destruct (Z_lt_ge_dec c (sc - 1 + 16 ^ (i + 1))); [|apply H1; lia].
      rewrite H2, set_range_lookup, decide_True by lia. eexists. split; [done|]. apply Hsk. lia.
    + rewrite H2, set_range_lookup, decide_False by lia. done.
Qed.

Lemma set_remainder_spec a sc ec :
  ec - (sc - 1) < 16 ^ 14 →
  let a' := set_remainder_to_point_to_start_incl a sc ec in
  (∀ c, sc <= c <= ec → ∃ e, a' !! c = Some e ∧ skip_entry (c - (sc - 1)) e) ∧
  (∀ c, c < sc ∨ ec < c → a' !! c = a !! c).
Proof.
  intros Hec. unfold set_remainder_to_point_to_start_incl.
  destruct (Z.gtb_spec sc ec); [split; [intros; lia|done]|].
  destruct (remainder_loop_spec (Z.to_nat N_powers) 0 a sc ec) as [H1 H2]; [done..|].
  replace (sc - 1 + 16 ^ 0) with sc in * by lia. split; [done|]. intros c Hc. apply H2. lia.
Qed.

Section table.
Variable rs : Z.   (* start of the reserved heap *)
Variable bi : Z.   (* first card of the region *)
Variable B : Z → Prop.   (* block boundaries *)

Lemma address_for_index_eq c : address_for_index rs c = rs + 512 * c.
Proof.
  unfold address_for_index, hw_add, HeapWordSize, LogN_words, LogN, LogHeapWordSize.
  rewrite Z.shiftl_mul_pow2 by lia. change (2 ^ (9 - 3)) with 64. lia.
Qed.

Lemma index_for_eq p : rs <= p < rs + 2 ^ 64 → index_for rs p = (p - rs) / 512.
Proof.
  intros. unfold index_for, pointer_delta. rewrite Z.div_1_r, u64_small by (unfold in_u64; lia).
  by rewrite Z.shiftr_div_pow2.
Qed.

Lemma index_for_card p c : 0 <= c < 2 ^ 55 → rs + 512 * c <= p < rs + 512 * (c + 1) → index_for rs p = c.
Proof.
  intros Hc Hp. rewrite index_for_eq by lia. symmetry. apply Z.div_unique with (p - rs - 512 * c); lia.
Qed.

Lemma words_between_eq h l o : h - l = 8 * o → 0 <= o < 2 ^ 61 → words_between h l = o.
Proof.
  intros E Ho. unfold words_between, pointer_delta, HeapWordSize. rewrite E, u64_small by (unfold in_u64; lia).
  rewrite Z.mul_comm. by apply Z.div_mul.
Qed.

(** An entry is sound when it leads directly to a block boundary or skips
    back to a card of the region. *)
Definition card_ok (a : gmap Z Z) (c : Z) : Prop :=
  ∃ o, a !! c = Some o ∧
    ((0 <= o < 64 ∧ B (rs + 512 * c - 8 * o)) ∨ (64 <= o < 78 ∧ bi <= c - 16 ^ (o - 64))).

Definition cards_ok (a : gmap Z Z) (hi : Z) : Prop := ∀ c, bi <= c < hi → card_ok a c.

Lemma alloc_block_work2_spec a threshold index s e ei :
  threshold = rs + 512 * index → 0 <= index → index <= ei < 2 ^ 54 →
  s <= threshold → (8 | threshold - s) → threshold - 512 <= s →
  rs + 512 * ei < e <= rs + 512 * (ei + 1) → (8 | e - rs) →
  ∃ a', alloc_block_work2 rs a threshold index s e = (a', rs + 512 * (ei + 1), ei + 1) ∧
    a' !! index = Some ((threshold - s) / 8) ∧
    (∀ c, index < c <= ei → ∃ en, a' !! c = Some en ∧ skip_entry (c - index) en) ∧
    (∀ c, c < index ∨ ei < c → a' !! c = a !! c).
Proof.
  intros Ht Hi Hei Hs [o Ho] H512 He [w Hw]. unfold alloc_block_work2, hw_add, HeapWordSize.
  rewrite (index_for_card (e + 8 * -1) ei), !address_for_index_eq by lia.
  change N_words with 64.
  assert (set_offset_array_low a index threshold s = <[index := o]> a) as ->.
  { unfold set_offset_array_low. rewrite (words_between_eq _ _ o) by lia.
    by rewrite u8_mod, Z.mod_small by lia. }
  assert ((threshold - s) / 8 = o) as -> by (rewrite Ho; apply Z.div_mul; lia).
  replace (rs + 512 * ei + 8 * 64) with (rs + 512 * (ei + 1)) by lia.
  destruct (Z.leb_spec (index + 1) ei).
  - unfold set_remainder_to_point_to_start. rewrite geb_false by lia.
    unfold hw_add, HeapWordSize. rewrite (index_for_card _ (index + 1)), (index_for_card _ ei) by lia.
    destruct (set_remainder_spec (<[index := o]> a) (index + 1) ei) as [H1 H2]; [lia|].
    eexists. split; [done|]. split; [by rewrite H2, lookup_insert_eq by lia|].
    split; intros c Hc.
    + destruct (H1 c) as (en & ? & ?); [lia|]. exists en. split; [done|].
      by replace (c - index) with (c - (index + 1 - 1)) by lia.
    + rewrite H2 by lia. apply lookup_insert_ne. lia.
  - eexists. split; [done|]. split; [by rewrite lookup_insert_eq|].
    split; intros c Hc; [lia|]. apply lookup_insert_ne. lia.
Qed.

(** Recording a block that starts at a boundary keeps every entry sound. *)
Lemma alloc_block_work2_cards a a' threshold index s ei :
  threshold = rs + 512 * index → bi < index <= ei → threshold - 512 <= s → (8 | threshold - s) →
  s <= threshold → B s →
  a' !! index = Some ((threshold - s) / 8) →
  (∀ c, index < c <= ei → ∃ en, a' !! c = Some en ∧ skip_entry (c - index) en) →
  (∀ c, c < index ∨ ei < c → a' !! c = a !! c) →
  ∀ c, (index <= c <= ei ∨ card_ok a c) → card_ok a' c.
Proof.
  intros Ht Hbi Hs512 [o Ho] Hs HB H1 H2 H3 c Hc. rewrite Ho, Z.div_mul in H1 by lia.
  destruct (decide (index <= c <= ei)) as [Hin|Hout].
  - destruct (decide (c = index)) as [->|].
    + exists o. split; [done|]. destruct (decide (o = 64)) as [->|].
      * right. change (16 ^ (64 - 64)) with 1. lia.
      * left. split; [lia|]. by replace (rs + 512 * index - 8 * o) with s by lia.
    + destruct (H2 c) as (en & ? & j & Hj & Hd & ->); [lia|]. eexists. split; [done|]. right.
      split; [lia|]. replace (64 + j - 64) with j by lia. lia.
  - destruct Hc as [|(e & ? & ?)]; [done|]. exists e. by rewrite H3 by lia.
Qed.

(** Following the entries from any card ends at a boundary at or before it. *)
Lemma back_loop_spec a hi fuel c :
  cards_ok a hi → 0 <= bi → hi < 2 ^ 55 → bi <= c < hi → c - bi <= Z.of_nat fuel →
  ∃ q, back_loop fuel a c (rs + 512 * c) = Some q ∧ B q ∧ q <= rs + 512 * c.
Proof.
  intros Ha Hbi Hhi. revert c. induction fuel as [|fuel IH]; intros c Hc Hf;
    destruct (Ha c Hc) as (o & Eo & [[Ho HB]|[Ho Hb]]); cbn [back_loop]; rewrite Eo;
    cbn [mbind option_bind]; change N_words with 64.
  1, 3: rewrite geb_false by lia; unfold hw_add, HeapWordSize; eexists; split; [done|];
    split; [|lia]; by replace (rs + 512 * c + 8 * - o) with (rs + 512 * c - 8 * o) by lia.
  - pose proof (Z.pow_pos_nonneg 16 (o - 64)). lia.
  - rewrite geb_true by lia. unfold entry_to_cards_back. change N_words with 64.
    rewrite power_to_cards_back_eq by lia. pose proof (Z.pow_pos_nonneg 16 (o - 64) ltac:(lia) ltac:(lia)).
    rewrite u64_small by (unfold in_u64; lia).
    destruct (IH (c - 16 ^ (o - 64))) as (q & Hq & HB & Hle); [lia..|].
    exists q. split; [|split; [done|lia]]. rewrite <- Hq. f_equal. unfold hw_add, HeapWordSize. lia.
Qed.

(** The table of a region allocated up to [top]: the next threshold is the
    first card boundary not below [top] (the second card before the first
    allocation), and the entries of all cards below it are sound. *)
Record table_ok (t : OffsetTable) (top : Z) : Prop := {
  tk_bi : 0 <= bi;
  tk_bottom : _bottom t = rs + 512 * bi;
  tk_threshold : _next_offset_threshold t = rs + 512 * _next_offset_index t;
  tk_index : bi < _next_offset_index t < 2 ^ 54;
  tk_top : _next_offset_threshold t - 512 <= top <= _next_offset_threshold t;
  tk_low : _bottom t <= top;
  tk_words : (8 | top - rs);
  tk_cards : cards_ok (_offset_array t) (_next_offset_index t)
}.

End table.

Lemma card_ok_mono rs bi (B B' : Z → Prop) a c :
  (∀ p, B p → B' p) → card_ok rs bi B a c → card_ok rs bi B' a c.
Proof. intros HB (o & ? & [[? ?]|?]); exists o; split; eauto. Qed.

Lemma table_ok_mono rs bi (B B' : Z → Prop) t top :
  (∀ p, B p → B' p) → table_ok rs bi B t top → table_ok rs bi B' t top.
Proof.
  intros HB [H1 H2 H3 H4 H5 H6 H7 H8]. split; try done. intros c Hc. eapply card_ok_mono; eauto.
Qed.

Lemma init_table_ok rs bi a e :
  0 <= bi < 2 ^ 53 →
  table_ok rs bi (λ p, p = rs + 512 * bi)
    (initialize_threshold rs (zero_bottom_entry rs (new_table a (rs + 512 * bi) e))) (rs + 512 * bi).
Proof.
  intros Hbi. unfold initialize_threshold, zero_bottom_entry, new_table. cbn.
  rewrite (index_for_card rs _ bi), address_for_index_eq by lia. split; cbn; try lia.
  - exists (64 * bi). lia.
  - intros c Hc. replace c with bi by lia. exists 0. rewrite lookup_insert_eq. split; [done|].
    left. split; [lia|]. lia.
Qed.

(** Allocating a block at [top] keeps the table sound, with the block's start
    as a new boundary. *)
Lemma alloc_block_ok rs bi B t top e :
  table_ok rs bi B t top → top < e <= rs + 2 ^ 62 → (8 | e - rs) →
  table_ok rs bi (λ p, B p ∨ p = top) (alloc_block rs t top e) e.
Proof.
  intros T He Hw. unfold alloc_block. pose proof (tk_top _ _ _ _ _ T) as Ht.
  pose proof (tk_low _ _ _ _ _ T). destruct (Z.gtb_spec e (_next_offset_threshold t)) as [Hgt|Hle].
  2:{ destruct (table_ok_mono rs bi B (λ p, B p ∨ p = top) t top) as [H1 H2 H3 H4 H5 H6 H7 H8];
        [by left|done|]. split; try done; lia. }
  unfold alloc_block_work1. pose proof (tk_index _ _ _ _ _ T). pose proof (tk_threshold _ _ _ _ _ T) as Eth.
  pose proof (tk_bi _ _ _ _ _ T). destruct Hw as [w Hw]. destruct (tk_words _ _ _ _ _ T) as [w' Hw'].
  set (ei := (e - 8 - rs) / 512).
  assert (rs + 512 * ei <= e - 8 < rs + 512 * (ei + 1)) as Hei.
  { pose proof (Z.div_mod (e - 8 - rs) 512). pose proof (Z.mod_pos_bound (e - 8 - rs) 512). unfold ei. lia. }
  assert (_next_offset_index t <= ei < 2 ^ 54) as Hie by lia.
  destruct (alloc_block_work2_spec rs (_offset_array t) (_next_offset_threshold t) (_next_offset_index t) top e ei)
    as (a' & -> & W1 & W2 & W3); [done|lia|done|lia|exists (64 * _next_offset_index t - w'); lia|lia|lia|exists w; lia|].
  split; cbn; try done; try lia.
  - apply (tk_bottom _ _ _ _ _ T).
  - by exists w.
  - intros c Hc. apply (alloc_block_work2_cards rs bi _ (_offset_array t) a' (_next_offset_threshold t)
      (_next_offset_index t) top ei); try done; try lia.
    + exists (64 * _next_offset_index t - w'). lia.
    + destruct (decide (_next_offset_index t <= c <= ei)); [by left|right].
      eapply card_ok_mono; [|apply (tk_cards _ _ _ _ _ T); lia]. cbn beta. by left.
Qed.

(** A region that is filled block by block from its bottom. *)
Fixpoint alloc_blocks (rs : Z) (t : OffsetTable) (top : Z) (sizes : list Z) : OffsetTable * Z :=
  match sizes with
  | [] => (t, top)
  | s :: sizes => alloc_blocks rs (alloc_block_size rs t top s) (hw_add top s) sizes
  end.

(** The covered range of the table never changes. *)
Lemma alloc_blocks_table rs t top sizes :
  let t' := fst (alloc_blocks rs t top sizes) in
  mkTable (_offset_array t') (_bottom t) (_end t) (_next_offset_threshold t') (_next_offset_index t') = t'.
Proof.
  cbn zeta. revert t top. induction sizes as [|s sizes IH]; intros t top; cbn [alloc_blocks fst]; [by destruct t|].
  rewrite <- IH. f_equal; unfold alloc_block_size, alloc_block, alloc_block_work1;
    destruct (_ >? _); try done; by destruct (alloc_block_work2 _ _ _ _ _ _) as [[a th] i].
Qed.

Fixpoint block_starts (top : Z) (sizes : list Z) : list Z :=
  match sizes with [] => [] | s :: sizes => top :: block_starts (hw_add top s) sizes end.

Lemma alloc_blocks_ok rs bi B t top sizes :
  table_ok rs bi B t top → Forall (λ s, 0 < s) sizes →
  top + 8 * foldr Z.add 0 sizes <= rs + 2 ^ 62 →
  let '(t', top') := alloc_blocks rs t top sizes in
  table_ok rs bi (λ p, B p ∨ p ∈ block_starts top sizes) t' top' ∧ top' = top + 8 * foldr Z.add 0 sizes.
Proof.
  intros T Hs. revert B t top T. induction Hs as [|s sizes Hpos Hs IH]; intros B t top T Htop; cbn.
  { split; [|lia]. eapply table_ok_mono; [|done]. by left. }
  assert (0 <= foldr Z.add 0 sizes) as Hnn.
  { clear - Hs. induction Hs; cbn; lia. }
  cbn in Htop. unfold alloc_block_size, hw_add, HeapWordSize in *.
  destruct (tk_words _ _ _ _ _ T) as [w Hw].
  specialize (IH _ _ _ (alloc_block_ok rs bi B t top (top + 8 * s) T ltac:(lia) ltac:(exists (w + s); lia)) ltac:(lia)).
  destruct (alloc_blocks _ _ _ _) as [t' top']. destruct IH as [T' ->]. split; [|lia].
  eapply table_ok_mono; [|exact T']. intros p [[?| ->]|?]; [by left|right..].
  - by left.
  - by right.
Qed.

(** * Searching a parsable region *)

Section search.
Context {cfg : VMConfig}.

(** No class is loaded at the address that an unset class word decodes to. *)
Definition no_null_klass : Prop := klasses !! NULL = None ∧ klasses !! decode_klass_not_null 0 = None.

Lemma block_klass m q s :
  no_null_klass → block m q s →
  size m q = Some s ∧ ∃ k, klass_or_null m q = Some k ∧ (k =? NULL) = false.
Proof.
  intros [N1 N2] [Hs Hb]. assert (size m q = Some s) as E by by apply Hb. split; [done|].
  unfold size, klass in E. unfold klass_or_null. destruct UseCompressedClassPointers.
  - destruct (load32 m (q + klass_offset_in_bytes)) as [v|]; [|done]. cbn in *. eexists. split; [done|].
    unfold decode_klass. destruct (Z.eqb_spec v 0) as [->|]; [by rewrite N2 in E|].
    apply Z.eqb_neq. intros E0. by rewrite E0, N1 in E.
  - destruct (load64 m (q + klass_offset_in_bytes)) as [v|]; [|done]. cbn in *. eexists. split; [done|].
    apply Z.eqb_neq. intros ->. by rewrite N1 in E.
Qed.

Definition contains (m : memory) (q addr : Z) : Prop := ∃ s, block m q s ∧ q <= addr < q + 8 * s.

Lemma parsable_suffix m lo hi bs q :
  parsable m lo hi bs → q ∈ bs →
  ∃ s bs', block m q s ∧ parsable m (q + 8 * s) hi bs' ∧ lo <= q ∧ (8 | q - lo) ∧ bs' ⊆ bs.
Proof.
  induction 1 as [|p s hi bs Hb Hp IH]; intros Hq; [by apply elem_of_nil in Hq|].
  apply elem_of_cons in Hq as [->|Hq].
  - exists s, bs. split; [done|]. split; [done|]. split; [lia|].
    split; [exists 0; lia|]. intros x Hx. by right.
  - destruct (IH Hq) as (s' & bs' & ? & ? & ? & [w Hw] & ?). pose proof (proj1 Hb).
    unfold hw_add, HeapWordSize in *. exists s', bs'. split; [done|]. split; [done|].
    split; [lia|]. split; [exists (w + s); lia|]. intros x Hx. right. auto.
Qed.

Lemma parsable_bounds m lo hi bs q s : parsable m lo hi bs → q ∈ bs → block m q s → lo <= q ∧ q + 8 * s <= hi.
Proof.
  intros Hp Hq [_ Hb]. destruct (parsable_suffix _ _ _ _ _ Hp Hq) as (s' & bs' & [_ Hb'] & Hp' & ? & _).
  assert (Some s = Some s') as [= ->] by by rewrite <- (Hb m), <- (Hb' m).
  pose proof (parsable_le _ _ _ _ Hp'). lia.
Qed.

(** At most one object contains an address. *)
Lemma contains_unique m lo hi bs q q' addr :
  parsable m lo hi bs → q ∈ bs → q' ∈ bs → contains m q addr → contains m q' addr → q = q'.
Proof.
  intros Hp. revert q q'. induction Hp as [|p s hi bs Hb Hp IH]; intros q q' Hq Hq' C C';
    [by apply elem_of_nil in Hq|].
  assert (∀ x y, x = p → y ∈ bs → contains m x addr → contains m y addr → False) as Hsep.
  { intros x y -> Hy (sx & [_ Bx] & ?) (sy & By & ?). destruct Hb as [_ Hb].
    assert (Some sx = Some s) as [= ->] by by rewrite <- (Bx m), <- (Hb m).
    pose proof (parsable_bounds _ _ _ _ _ _ Hp Hy By) as []. unfold hw_add, HeapWordSize in *. lia. }
  apply elem_of_cons in Hq as [->|Hq], Hq' as [->|Hq']; [done|exfalso; eauto..|eauto].
Qed.

Lemma forward_loop_spec m top fuel q s bs addr :
  no_null_klass → block m q s → parsable m (q + 8 * s) top bs → q <= addr < top →
  addr - (q + 8 * s) < Z.of_nat fuel →
  ∃ q', forward_loop fuel m q (q + 8 * s) addr = Some q' ∧ q' ∈ q :: bs ∧ contains m q' addr.
Proof.
  intros HN. revert q s bs. induction fuel as [|fuel IH]; intros q s bs Hb Hp Ha Hf; cbn [forward_loop];
    destruct (Z.leb_spec (q + 8 * s) addr).
  1: lia.
  1, 3: exists q; split; [done|]; split; [by left|]; exists s; split; [done|lia].
  inversion Hp as [|p s' hi bs' Hb' Hp']; subst; [lia|].
  destruct (block_klass m _ s' HN Hb') as (-> & k & -> & E). cbn [mbind option_bind]. rewrite E.
  unfold hw_add, HeapWordSize in *. pose proof (proj1 Hb').
  destruct (IH (q + 8 * s) s' bs') as (q' & -> & Hq' & C); [done..|lia|lia|].
  exists q'. split; [done|]. split; [|done]. by right.
Qed.

Lemma cross_loop_spec m top fuel q n bs nb :
  no_null_klass → parsable m n top bs → n <= nb < top → nb - n < Z.of_nat fuel →
  ∃ q' s bs', cross_loop fuel m q n nb = Some (inr (q', q' + 8 * s)) ∧ q' ∈ bs ∧ block m q' s ∧
    parsable m (q' + 8 * s) top bs' ∧ bs' ⊆ bs ∧ n <= q' <= nb ∧ nb < q' + 8 * s.
Proof.
  intros HN. revert q n bs. induction fuel as [|fuel IH]; intros q n bs Hp Hn Hf; [lia|].
  cbn [cross_loop]. rewrite (proj2 (Z.leb_le n nb)) by lia.
  inversion Hp as [|p s hi bs' Hb Hp']; subst; [lia|].
  destruct (block_klass m n s HN Hb) as (-> & k & -> & E). cbn [mbind option_bind]. rewrite E.
  unfold hw_add, HeapWordSize in *. pose proof (proj1 Hb).
  destruct (Z_le_gt_dec (n + 8 * s) nb).
  - destruct (IH n (n + 8 * s) bs') as (q' & s' & bs'' & -> & ? & ? & ? & ? & ? & ?); [done|lia|lia|].
    exists q', s', bs''. split; [done|]. split; [by right|]. split; [done|]. split; [done|].
    split; [intros x Hx; right; auto|]. lia.
  - exists n, s, bs'. split.
    { destruct fuel; cbn; by rewrite (proj2 (Z.leb_gt (n + 8 * s) nb)) by lia. }
    split; [by left|]. split; [done|]. split; [done|]. split; [intros x Hx; by right|lia].
Qed.

(** A search position: an object of the region with the objects after it. *)
Definition position (m : memory) (top : Z) (objs : list Z) (q s : Z) : Prop :=
  q ∈ objs ∧ block m q s ∧ ∃ bs, parsable m (q + 8 * s) top bs ∧ bs ⊆ objs.

Section region.
Variables (rs bi hi : Z) (m : memory) (top : Z) (objs : list Z).
Hypothesis HN : no_null_klass.
Hypothesis Hbi : 0 <= bi.
Hypothesis Hhi : hi < 2 ^ 54.
Hypothesis Htop : top <= rs + 512 * hi.
Hypothesis Hparse : parsable m (rs + 512 * bi) top objs.

Lemma boundary_words q : q ∈ objs → (8 | q - rs).
Proof.
  intros Hq. destruct (parsable_suffix _ _ _ _ _ Hparse Hq) as (_ & _ & _ & _ & _ & [w Hw] & _).
  exists (w + 64 * bi). lia.
Qed.

Lemma refine_loop_spec fuel a q s ni addr :
  position m top objs q s → cards_ok rs bi (.∈ objs) a hi →
  bi < ni → rs + 512 * ni - 512 < q + 8 * s <= rs + 512 * ni → q <= addr < top →
  addr - (rs + 512 * ni) <= Z.of_nat fuel →
  ∃ a' q' s', refine_loop rs fuel m a q (q + 8 * s) (rs + 512 * ni) ni addr = Some (a', inr (q', q' + 8 * s')) ∧
    position m top objs q' s' ∧ q' <= addr ∧ cards_ok rs bi (.∈ objs) a' hi.
Proof.
  revert a q s ni. induction fuel as [|fuel IH]; intros a q s ni (Hq & Hb & bs & Hp & Hsub) Ha Hni Hn Haddr Hf;
    cbn [refine_loop]; destruct (Z.ltb_spec (rs + 512 * ni) addr).
  1: lia.
  1, 3: exists a, q, s; split; [done|]; split; [|split; [lia|done]]; split; [done|]; split; [done|]; by exists bs.
  pose proof (proj1 Hb).
  destruct (cross_loop_spec m top (Z.to_nat (addr - q)) q (q + 8 * s) bs (rs + 512 * ni))
    as (q' & s' & bs' & -> & Hq' & Hb' & Hp' & Hsub' & Hr & Hc); [done|done|lia|lia|].
  cbn [mbind option_bind]. apply Hsub in Hq'. pose proof (parsable_le _ _ _ _ Hp').
  destruct (boundary_words q' Hq') as [w Hw]. set (ei := (q' + 8 * s' - 8 - rs) / 512).
  assert (rs + 512 * ei <= q' + 8 * s' - 8 < rs + 512 * (ei + 1)) as Hei.
  { pose proof (Z.div_mod (q' + 8 * s' - 8 - rs) 512). pose proof (Z.mod_pos_bound (q' + 8 * s' - 8 - rs) 512).
    unfold ei. lia. }
  destruct (alloc_block_work2_spec rs a (rs + 512 * ni) ni q' (q' + 8 * s') ei)
    as (a' & -> & W1 & W2 & W3); [done|lia..|exists (64 * ni - w); lia|lia|lia|exists (w + s'); lia|].
  destruct (IH a' q' s' (ei + 1)) as (a'' & q'' & s'' & -> & Hpos & Hle & Ha''); [|..|lia|lia|lia|lia|].
  - split; [done|]. split; [done|]. exists bs'. split; [done|]. by transitivity bs.
  - intros c Hc'. apply (alloc_block_work2_cards rs bi _ a a' (rs + 512 * ni) ni q' ei);
      try done; try lia; [exists (64 * ni - w); lia|right; by apply Ha].
  - exists a'', q'', s''. done.
Qed.

Lemma forward_const_spec q s addr :
  position m top objs q s → q <= addr < top →
  ∃ q', forward_to_block_containing_addr_const m top q (q + 8 * s) addr = Some q' ∧ q' ∈ objs ∧ contains m q' addr.
Proof.
  intros (Hq & Hb & bs & Hp & Hsub) Ha. unfold forward_to_block_containing_addr_const.
  rewrite geb_false by lia. pose proof (proj1 Hb).
  destruct (forward_loop_spec m top (Z.to_nat (addr - q)) q s bs addr) as (q' & -> & Hq' & C);
    [done..|lia|]. exists q'. split; [done|]. split; [|done].
  apply elem_of_cons in Hq' as [->|]; [done|]. by apply Hsub.
Qed.

Lemma is_card_boundary_spec p :
  rs <= p < rs + 2 ^ 62 → (8 | p - rs) → is_card_boundary rs p = true ↔ (512 | p - rs).
Proof.
  intros Hp [w Hw]. unfold is_card_boundary. rewrite (words_between_eq _ _ w) by lia.
  change (right_n_bits LogN_words) with (2 ^ 6 - 1). rewrite land_low_ones, Z.eqb_eq by lia.
  rewrite Z.mod_divide, Hw by lia. split; intros [v Hv]; exists v; lia.
Qed.

(** The first card boundary at or after the end of an object, as the slow
    path computes it. *)
Lemma next_boundary_spec n :
  rs < n <= rs + 2 ^ 61 → (8 | n - rs) →
  let n_index := index_for rs n in
  let next_index := n_index + Z.b2z (negb (is_card_boundary rs n)) in
  hw_add (address_for_index rs n_index) (if n_index =? next_index then 0 else N_words) = rs + 512 * next_index ∧
  rs + 512 * next_index - 512 < n <= rs + 512 * next_index.
Proof.
  intros Hn Hw. cbn zeta. rewrite index_for_eq, address_for_index_eq by lia.
  pose proof (is_card_boundary_spec n ltac:(lia) Hw) as Hb.
  pose proof (Z.div_mod (n - rs) 512 ltac:(lia)) as E. pose proof (Z.mod_pos_bound (n - rs) 512 ltac:(lia)).
  unfold hw_add, HeapWordSize. change N_words with 64. destruct (is_card_boundary rs n); cbn [negb Z.b2z].
  - rewrite Z.add_0_r, Z.eqb_refl.
    assert ((n - rs) mod 512 = 0) by (apply Z.mod_divide; [lia|by apply Hb]). lia.
  - rewrite (proj2 (Z.eqb_neq _ _)) by lia.
    assert ((n - rs) mod 512 ≠ 0) by (intros Hz; apply Z.mod_divide in Hz; [|lia]; by apply Hb in Hz). lia.
Qed.

End region.

Lemma block_at_or_preceding_spec rs bi (B : Z → Prop) t top addr :
  table_ok rs bi B t top → _bottom t <= addr < top →
  ∃ q, block_at_or_preceding rs t addr true (_next_offset_index t - 1) = Some q ∧ B q ∧ q <= addr.
Proof.
  intros [H1 H2 H3 H4 H5 H6 H7 H8] Ha. unfold block_at_or_preceding. cbn [negb].
  rewrite index_for_eq, address_for_index_eq by lia.
  pose proof (Z.div_mod (addr - rs) 512 ltac:(lia)) as E. pose proof (Z.mod_pos_bound (addr - rs) 512 ltac:(lia)).
  set (c := (addr - rs) / 512) in *.
  assert (MIN2 c (_next_offset_index t - 1) = c) as ->
    by (unfold MIN2; destruct (Z.ltb_spec c (_next_offset_index t - 1)); lia).
  destruct (back_loop_spec rs bi B (_offset_array t) (_next_offset_index t) (Z.to_nat c) c)
    as (q & ? & ? & ?); [done|lia..|]. exists q. split; [done|]. split; [done|lia].
Qed.

Lemma position_of m lo top objs q :
  parsable m lo top objs → q ∈ objs → ∃ s, position m top objs q s ∧ q < top.
Proof.
  intros Hp Hq. destruct (parsable_suffix _ _ _ _ _ Hp Hq) as (s & bs & Hb & Hp' & _ & _ & Hsub).
  exists s. split; [split; [done|]; split; [done|]; by exists bs|].
  pose proof (proj1 Hb). pose proof (parsable_le _ _ _ _ Hp'). lia.
Qed.

Lemma forward_slow_spec rs bi t m top objs q s addr :
  no_null_klass → table_ok rs bi (.∈ objs) t top → parsable m (_bottom t) top objs → top <= rs + 2 ^ 61 →
  position m top objs q s → q <= addr < top → q + 8 * s <= addr →
  ∃ q' t', forward_to_block_containing_addr_slow rs m t top q (q + 8 * s) addr = Some (q', t') ∧
    q' ∈ objs ∧ contains m q' addr ∧ table_ok rs bi (.∈ objs) t' top.
Proof.
  intros HN T Hp Hend Hpos Ha Hn. destruct T as [H1 H2 H3 H4 H5 H6 H7 H8]. rewrite H2 in Hp.
  destruct Hpos as (Hq & Hb & Hrest). pose proof (boundary_words rs bi m top objs Hp q Hq) as [w Hw].
  destruct (parsable_suffix _ _ _ _ _ Hp Hq) as (_ & _ & _ & _ & Hlo & _ & _). pose proof (proj1 Hb).
  unfold forward_to_block_containing_addr_slow. rewrite geb_false by lia.
  destruct (next_boundary_spec rs (q + 8 * s)) as [-> Hnb]; [lia|exists (w + s); lia|].
  set (ni := index_for rs (q + 8 * s) + _) in *.
  destruct (refine_loop_spec rs bi (_next_offset_index t) m top objs HN H1 ltac:(lia) ltac:(lia) Hp
    (Z.to_nat (addr - q)) (_offset_array t) q s ni addr) as (a' & q' & s' & -> & Hpos' & Hle & Ha');
    [done|done|lia..|]. cbn [mbind option_bind].
  destruct (forward_const_spec m top objs HN q' s' addr Hpos') as (q'' & -> & ? & ?); [lia|].
  cbn [mbind option_bind]. eexists _, _. split; [done|]. split; [done|]. split; [done|].
  by split.
Qed.

Lemma block_start_spec rs bi t m top objs addr :
  no_null_klass → table_ok rs bi (.∈ objs) t top → parsable m (_bottom t) top objs →
  top <= _end t → top <= rs + 2 ^ 61 → _bottom t <= addr < top →
  ∃ q t', block_start_const rs m t top addr = Some q ∧ block_start rs m t top addr = Some (q, t') ∧
    q ∈ objs ∧ contains m q addr ∧ table_ok rs bi (.∈ objs) t' top.
Proof.
  intros HN T Hp Hend Hsz Ha. unfold block_start_const, block_start.
  rewrite geb_true, (proj2 (Z.ltb_lt _ _)) by lia. cbn [andb].
  unfold block_start_unsafe_const, block_start_unsafe.
  destruct (block_at_or_preceding_spec rs bi _ t top addr T Ha) as (q & -> & Hq & Hle). cbn [mbind option_bind].
  destruct (position_of m _ top objs q Hp Hq) as (s & Hpos & Hlt).
  destruct (block_klass m q s HN (proj1 (proj2 Hpos))) as (Es & k & Ek & Nk).
  unfold forward_to_block_containing_addr, block_size. rewrite (proj2 (Z.ltb_lt q top)), Es, Ek by done.
  cbn [mbind option_bind]. rewrite Nk. unfold hw_add, HeapWordSize.
  destruct (forward_const_spec m top objs HN q s addr Hpos) as (q1 & -> & Hq1 & C1); [lia|].
  destruct (Z.leb_spec (q + 8 * s) addr).
  - destruct (forward_slow_spec rs bi t m top objs q s addr) as (q2 & t' & -> & Hq2 & C2 & T');
      try done; [lia|].
    assert (q2 = q1) as -> by (eapply contains_unique; eauto). by exists q1, t'.
  - assert (q = q1) as <-.
    { eapply contains_unique; [exact Hp|apply Hq|exact Hq1| |exact C1].
      exists s. split; [apply Hpos|lia]. }
    by exists q, t.
Qed.

Lemma filled_table_ok rs bi a end_ sizes objs :
  0 <= bi < 2 ^ 53 → Forall (λ s, 0 < s) sizes →
  let bottom := rs + 512 * bi in
  let t := fst (alloc_blocks rs
    (initialize_threshold rs (zero_bottom_entry rs (new_table a bottom end_))) bottom sizes) in
  let top := bottom + 8 * foldr Z.add 0 sizes in
  top <= rs + 2 ^ 61 → bottom ∈ objs → block_starts bottom sizes ⊆ objs →
  table_ok rs bi (.∈ objs) t top.
Proof.
  intros Hbi Hs. cbn zeta. intros Hsz Hbot Hsub.
  pose proof (alloc_blocks_ok rs bi _ _ _ sizes (init_table_ok rs bi a end_ Hbi) Hs ltac:(lia)) as H.
  destruct (alloc_blocks _ _ _ _) as [t top]. destruct H as [T ->]. cbn [fst] in *.
  eapply table_ok_mono; [|exact T]. intros p [->|?]; auto.
Qed.

(** C37: After any sequence of block allocations recorded in the table of a
    region, and once every block is divided into objects, [block_start]
    returns the object that contains the address, for every allocated
    address; the variant that refines the table on the way gives the same
    answer and leaves the table sound. *)
Theorem block_start_finds_object rs bi a end_ sizes m objs addr :
  0 <= bi < 2 ^ 53 → Forall (λ s, 0 < s) sizes → no_null_klass →
  let bottom := rs + 512 * bi in
  let t := fst (alloc_blocks rs
    (initialize_threshold rs (zero_bottom_entry rs (new_table a bottom end_))) bottom sizes) in
  let top := bottom + 8 * foldr Z.add 0 sizes in
  top <= _end t → top <= rs + 2 ^ 61 →
  parsable m bottom top objs → block_starts bottom sizes ⊆ objs → bottom <= addr < top →
  ∃ q t', block_start_const rs m t top addr = Some q ∧ block_start rs m t top addr = Some (q, t') ∧
    q ∈ objs ∧ contains m q addr ∧ table_ok rs bi (.∈ objs) t' top.
Proof.
  intros Hbi Hs HN. cbn zeta. intros Hend Hsz Hp Hsub Ha.
  assert (rs + 512 * bi ∈ objs) as Hbot by (inversion Hp; subst; [lia|by left]).
  pose proof (filled_table_ok rs bi a end_ sizes objs Hbi Hs Hsz Hbot Hsub) as T.
  pose proof (tk_bottom _ _ _ _ _ T) as Eb.
  apply block_start_spec; rewrite ?Eb; done.
Qed.

(** * Verification of the table *)

Lemma verify_cards_true rs bi t m top objs obj s n card :
  no_null_klass → table_ok rs bi (.∈ objs) t top → parsable m (_bottom t) top objs →
  top <= _end t → top <= rs + 2 ^ 61 → obj ∈ objs → block m obj s →
  obj <= rs + 512 * card → rs + 512 * (card + Z.of_nat n - 1) < obj + 8 * s →
  verify_cards rs n m t top card obj = Some true.
Proof.
  intros HN T Hp Hend Hsz Ho Hb. pose proof (parsable_bounds _ _ _ _ _ _ Hp Ho Hb).
  revert card. induction n as [|n IH]; intros card Hlo Hhi; [done|]. cbn [verify_cards].
  rewrite address_for_index_eq.
  destruct (block_start_spec rs bi t m top objs (rs + 512 * card)) as (q & t' & -> & _ & Hq & C & _);
    [done..|lia|]. cbn [mbind option_bind].
  assert (q = obj) as ->.
  { eapply contains_unique; [exact Hp|done|done|done|]. exists s. split; [done|lia]. }
  rewrite Z.eqb_refl. cbn [negb]. apply IH; lia.
Qed.

Lemma check_cards_loop_true n a idx c :
  0 <= idx → Z.of_nat n + c < 2 ^ 54 → idx + 1 < c →
  (∃ o, a !! idx = Some o ∧ 0 <= o <= 64) →
  (∀ c', idx < c' < Z.of_nat n + c → ∃ en, a !! c' = Some en ∧ skip_entry (c' - idx) en) →
  check_cards_loop n a (idx + 1) c = Some true.
Proof.
  intros Hi Hn Hc (o & Eo & Ho) Hen. revert c Hn Hc Hen. induction n as [|n IH]; intros c Hn Hc Hen; [done|].
  cbn [check_cards_loop]. destruct (Hen c) as (en & -> & j & Hj & Hd & ->); [lia|].
  cbn [mbind option_bind]. unfold entry_to_cards_back. change N_words with 64.
  replace (64 + j - 64) with j by lia. rewrite !power_to_cards_back_eq by lia. change (16 ^ 1) with 16.
  assert ((c - (idx + 1) >? 16) && negb (64 + j >? 64) = false) as ->.
  { destruct (decide (j = 0)) as [->|]; [|by rewrite (gtb_true (64 + j)), andb_false_r by lia].
    rewrite gtb_false; [done|]. change (16 ^ (0 + 1)) with 16 in Hd. lia. }
  rewrite u64_small by (unfold in_u64; lia). rewrite geb_true by lia. cbn [negb].
  replace (idx + 1 - 1) with idx by lia. pose proof (Z.pow_pos_nonneg 16 j ltac:(lia) ltac:(lia)).
  destruct (decide (c - 16 ^ j = idx)) as [E|].
  - rewrite E, Eo. cbn [mbind option_bind]. rewrite geb_false, (proj2 (Z.leb_le o 64)) by lia.
    apply IH; [lia..|]. intros; apply Hen; lia.
  - destruct (Hen (c - 16 ^ j)) as (en' & -> & j' & Hj' & Hd' & ->); [lia|].
    cbn [mbind option_bind]. rewrite geb_true by lia.
    assert (j' <= j).
    { destruct (Z_le_gt_dec j' j); [done|].
      assert (16 ^ (j + 1) <= 16 ^ j') by (apply Z.pow_le_mono_r; lia). lia. }
    rewrite (proj2 (Z.leb_le _ _)) by lia. apply IH; [lia..|]. intros; apply Hen; lia.
Qed.

Lemma verify_for_object_true rs bi t m top objs obj s :
  no_null_klass → table_ok rs bi (.∈ objs) t top → parsable m (_bottom t) top objs →
  top <= _end t → top <= rs + 2 ^ 61 → obj ∈ objs → block m obj s →
  verify_for_object rs m t top obj s = Some true.
Proof.
  intros HN T Hp Hend Hsz Ho Hb. pose proof (parsable_bounds _ _ _ _ _ _ Hp Ho Hb) as Hbnd.
  destruct T as [H1 H2 H3 H4 H5 H6 H7 H8]. rewrite H2 in Hp, Hbnd.
  pose proof (boundary_words rs bi m top objs Hp obj Ho) as Hw. pose proof (proj1 Hb).
  pose proof (is_card_boundary_spec rs obj ltac:(lia) Hw) as Hcb.
  unfold verify_for_object, hw_add, HeapWordSize. rewrite !index_for_eq by lia.
  pose proof (Z.div_mod (obj - rs) 512 ltac:(lia)). pose proof (Z.mod_pos_bound (obj - rs) 512 ltac:(lia)).
  pose proof (Z.div_mod (obj + 8 * (s - 1) - rs) 512 ltac:(lia)).
  pose proof (Z.mod_pos_bound (obj + 8 * (s - 1) - rs) 512 ltac:(lia)).
  rewrite <- H2 in Hp. destruct (is_card_boundary rs obj); cbn [negb];
    apply (verify_cards_true rs bi t m top objs obj s); try done; try lia.
  assert ((obj - rs) mod 512 = 0) by (apply Z.mod_divide; [lia|by apply Hcb]). lia.
Qed.

Lemma check_all_cards_true rs bi B t top e :
  table_ok rs bi B t top → _next_offset_threshold t < e <= rs + 2 ^ 61 → (8 | e - rs) →
  check_all_cards (_offset_array (alloc_block rs t top e))
    (_next_offset_index t + 1) (index_for rs (e - 8)) = Some true.
Proof.
  intros [H1 H2 H3 H4 H5 H6 [v H7] H8] He [w Hw]. unfold alloc_block.
  rewrite gtb_true, index_for_eq by lia. unfold alloc_block_work1.
  replace (e - 8 - rs) with (e - rs - 8) by lia. set (ei := (e - rs - 8) / 512).
  assert (rs + 512 * ei <= e - 8 < rs + 512 * (ei + 1)) as Hei.
  { pose proof (Z.div_mod (e - rs - 8) 512). pose proof (Z.mod_pos_bound (e - rs - 8) 512). unfold ei. lia. }
  destruct (alloc_block_work2_spec rs (_offset_array t) (_next_offset_threshold t) (_next_offset_index t) top e ei)
    as (a' & -> & W1 & W2 & W3); [done|lia..|exists (64 * _next_offset_index t - v); lia|lia|lia|by exists w|].
  cbn. unfold check_all_cards. destruct (Z.ltb_spec ei (_next_offset_index t + 1)); [done|].
  destruct (W2 (_next_offset_index t + 1)) as (en & -> & j & Hj & Hd & ->); [lia|].
  cbn [mbind option_bind]. assert (j = 0) as ->.
  { destruct (decide (j = 0)); [done|]. assert (16 ^ 1 <= 16 ^ j) by (apply Z.pow_le_mono_r; lia). lia. }
  cbn [negb Z.eqb]. apply check_cards_loop_true; try lia; try done.
  - eexists. split; [done|]. split; [apply Z.div_pos; lia|apply Z.div_le_upper_bound; lia].
  - intros c Hc. apply W2. lia.
Qed.

(** The table passes the VM's own verification: [check_all_cards] accepts
    the cards of every newly recorded block, and [verify_for_object] accepts
    every object of a region whose blocks are divided into objects. *)
Theorem table_passes_verification rs bi t m top objs :
  no_null_klass → table_ok rs bi (.∈ objs) t top → parsable m (_bottom t) top objs →
  top <= _end t → top <= rs + 2 ^ 61 →
  (∀ obj s, obj ∈ objs → block m obj s → verify_for_object rs m t top obj s = Some true) ∧
  (∀ e, _next_offset_threshold t < e <= rs + 2 ^ 61 → (8 | e - rs) →
     check_all_cards (_offset_array (alloc_block rs t top e))
       (_next_offset_index t + 1) (index_for rs (e - 8)) = Some true).
Proof.
  intros HN T Hp Hend Hsz. split.
  - intros. by eapply verify_for_object_true.
  - intros. by eapply check_all_cards_true.
Qed.

End search.

(** A region with one 100-word block that holds two objects and one 28-word
    block, after the object [demo_config] of a VM. *)
Lemma block_start_finds_object_witness :
  ∃ m, tile (cfg := demo_config) ∅ 0x100000 [40; 60; 28] = Some m ∧
  let t := fst (alloc_blocks 0x100000
    (initialize_threshold 0x100000 (zero_bottom_entry 0x100000 (new_table ∅ (0x100000 + 512 * 0) 0x100400)))
    (0x100000 + 512 * 0) [100; 28]) in
  let top := 0x100000 + 512 * 0 + 8 * foldr Z.add 0 [100; 28] in
  ∃ q t', block_start_const (cfg := demo_config) 0x100000 m t top 0x100300 = Some q ∧
    block_start (cfg := demo_config) 0x100000 m t top 0x100300 = Some (q, t') ∧
    q ∈ starts_of 0x100000 [40; 60; 28] ∧ contains (cfg := demo_config) m q 0x100300 ∧
    table_ok 0x100000 0 (.∈ starts_of 0x100000 [40; 60; 28]) t' top.
Proof.
  destruct (tile_parsable (cfg := demo_config) ∅ 0x100000 [40; 60; 28] demo_config_ok) as (m & E & Hp & _).
  { repeat (apply Forall_cons; split; [split; [by vm_compute|apply Z.divide_1_l]|]). apply Forall_nil_2. }
  exists m. split; [done|].
  apply (block_start_finds_object (cfg := demo_config) 0x100000 0 ∅ 0x100400 [100; 28] m
    (starts_of 0x100000 [40; 60; 28]) 0x100300); try done.
  - by repeat constructor.
  - intros x Hx. cbn in Hx. set_solver.
Defined.

Lemma table_passes_verification_witness :
  ∃ m, tile (cfg := demo_config) ∅ 0x100000 [40; 60; 28] = Some m ∧
  let t := fst (alloc_blocks 0x100000
    (initialize_threshold 0x100000 (zero_bottom_entry 0x100000 (new_table ∅ (0x100000 + 512 * 0) 0x100400)))
    (0x100000 + 512 * 0) [100; 28]) in
  verify_for_object (cfg := demo_config) 0x100000 m t (0x100000 + 512 * 0 + 8 * foldr Z.add 0 [100; 28])
    0x100140 60 = Some true.
Proof.
  destruct (tile_parsable (cfg := demo_config) ∅ 0x100000 [40; 60; 28] demo_config_ok) as (m & E & Hp & _).
  { repeat (apply Forall_cons; split; [split; [by vm_compute|apply Z.divide_1_l]|]). apply Forall_nil_2. }
  exists m. split; [done|]. cbn zeta.
  apply (table_passes_verification (cfg := demo_config) 0x100000 0 _ m _ (starts_of 0x100000 [40; 60; 28]));
    try done.
  - apply filled_table_ok; [done|by repeat constructor|done|by left|].
    intros x Hx. cbn in Hx. set_solver.
  - right. by left.
  - apply parsable_head in Hp as [_ Hp]. by apply parsable_head in Hp as [Hb _].
Defined.

End BlockOffsetFacts.
