(* ===== verification/GenRegions.v ===== *)
(** Heap regions and the allocation regions of the generations: the part of
    [heapRegion], [g1AllocRegion] and [g1CollectedHeap] that hands out memory
    for the dynamic generations and retires full regions.

    The heap is one record that every operation threads through: memory, the
    block offset table, the regions by address, the free list, the card table
    and the queue of dirty cards.  Locks only make the locked operations
    atomic, so they are left out; the lock-free bump of [par_allocate_impl] is
    also modelled as a step relation over threads. *)

From S2P Require Import Prelude MarkWord JavaHeap BlockOffset.
Import MarkOop JavaHeap BlockOffset.

Module HeapRegions.

(** * Regions and the heap *)

Inductive YoungType := NotYoung | Young | Survivor.

Record HeapRegion := mkRegion {
  hr_bottom : Z;
  hr_end : Z;
  hr_top : Z;
  hr_pre_dummy_top : Z;
  hr_saved_mark : Z;
  hr_gc_time_stamp : Z;
  hr_threshold : Z;        (* _offsets._next_offset_threshold *)
  hr_index : Z;            (* _offsets._next_offset_index *)
  hr_gen : Z;
  hr_epoch : Z;
  hr_is_gen_alloc_region : bool;
  hr_active_tlabs : Z;
  hr_young_type : YoungType;
  hr_next_top_at_mark_start : Z
}.

Definition set_top (r : HeapRegion) (top : Z) : HeapRegion :=
  mkRegion (hr_bottom r) (hr_end r) top (hr_pre_dummy_top r) (hr_saved_mark r) (hr_gc_time_stamp r)
    (hr_threshold r) (hr_index r) (hr_gen r) (hr_epoch r) (hr_is_gen_alloc_region r) (hr_active_tlabs r)
    (hr_young_type r) (hr_next_top_at_mark_start r).
Definition set_pre_dummy_top (r : HeapRegion) (p : Z) : HeapRegion :=
  mkRegion (hr_bottom r) (hr_end r) (hr_top r) p (hr_saved_mark r) (hr_gc_time_stamp r)
    (hr_threshold r) (hr_index r) (hr_gen r) (hr_epoch r) (hr_is_gen_alloc_region r) (hr_active_tlabs r)
    (hr_young_type r) (hr_next_top_at_mark_start r).
Definition reset_pre_dummy_top (r : HeapRegion) : HeapRegion := set_pre_dummy_top r NULL.
Definition pre_dummy_top (r : HeapRegion) : Z :=
  if hr_pre_dummy_top r =? NULL then hr_top r else hr_pre_dummy_top r.
Definition set_offsets (r : HeapRegion) (threshold index : Z) : HeapRegion :=
  mkRegion (hr_bottom r) (hr_end r) (hr_top r) (hr_pre_dummy_top r) (hr_saved_mark r) (hr_gc_time_stamp r)
    threshold index (hr_gen r) (hr_epoch r) (hr_is_gen_alloc_region r) (hr_active_tlabs r)
    (hr_young_type r) (hr_next_top_at_mark_start r).
Definition set_mark_and_stamp (r : HeapRegion) (mark stamp : Z) : HeapRegion :=
  mkRegion (hr_bottom r) (hr_end r) (hr_top r) (hr_pre_dummy_top r) mark stamp
    (hr_threshold r) (hr_index r) (hr_gen r) (hr_epoch r) (hr_is_gen_alloc_region r) (hr_active_tlabs r)
    (hr_young_type r) (hr_next_top_at_mark_start r).
Definition set_gen (r : HeapRegion) (gen : Z) : HeapRegion :=
  mkRegion (hr_bottom r) (hr_end r) (hr_top r) (hr_pre_dummy_top r) (hr_saved_mark r) (hr_gc_time_stamp r)
    (hr_threshold r) (hr_index r) gen (hr_epoch r) (hr_is_gen_alloc_region r) (hr_active_tlabs r)
    (hr_young_type r) (hr_next_top_at_mark_start r).
Definition set_epoch (r : HeapRegion) (epoch : Z) : HeapRegion :=
  mkRegion (hr_bottom r) (hr_end r) (hr_top r) (hr_pre_dummy_top r) (hr_saved_mark r) (hr_gc_time_stamp r)
    (hr_threshold r) (hr_index r) (hr_gen r) epoch (hr_is_gen_alloc_region r) (hr_active_tlabs r)
    (hr_young_type r) (hr_next_top_at_mark_start r).
Definition set_gen_alloc_region (r : HeapRegion) (b : bool) : HeapRegion :=
  mkRegion (hr_bottom r) (hr_end r) (hr_top r) (hr_pre_dummy_top r) (hr_saved_mark r) (hr_gc_time_stamp r)
    (hr_threshold r) (hr_index r) (hr_gen r) (hr_epoch r) b (hr_active_tlabs r)
    (hr_young_type r) (hr_next_top_at_mark_start r).
Definition set_active_tlabs (r : HeapRegion) (n : Z) : HeapRegion :=
  mkRegion (hr_bottom r) (hr_end r) (hr_top r) (hr_pre_dummy_top r) (hr_saved_mark r) (hr_gc_time_stamp r)
    (hr_threshold r) (hr_index r) (hr_gen r) (hr_epoch r) (hr_is_gen_alloc_region r) n
    (hr_young_type r) (hr_next_top_at_mark_start r).
Definition set_young_type (r : HeapRegion) (t : YoungType) : HeapRegion :=
  mkRegion (hr_bottom r) (hr_end r) (hr_top r) (hr_pre_dummy_top r) (hr_saved_mark r) (hr_gc_time_stamp r)
    (hr_threshold r) (hr_index r) (hr_gen r) (hr_epoch r) (hr_is_gen_alloc_region r) (hr_active_tlabs r)
    t (hr_next_top_at_mark_start r).
Definition set_next_top_at_mark_start (r : HeapRegion) (p : Z) : HeapRegion :=
  mkRegion (hr_bottom r) (hr_end r) (hr_top r) (hr_pre_dummy_top r) (hr_saved_mark r) (hr_gc_time_stamp r)
    (hr_threshold r) (hr_index r) (hr_gen r) (hr_epoch r) (hr_is_gen_alloc_region r) (hr_active_tlabs r)
    (hr_young_type r) p.

Definition used (r : HeapRegion) : Z := pointer_delta (hr_top r) (hr_bottom r) 1.
Definition free (r : HeapRegion) : Z := pointer_delta (hr_end r) (hr_top r) 1.

Record G1Heap := mkG1 {
  g_mem : memory;
  g_bot : gmap Z Z;                  (* the shared offset array *)
  g_regions : gmap Z HeapRegion;
  g_free_list : list Z;
  g_old_set : list Z;
  g_summary_bytes_used : Z;
  g_gc_time_stamp : Z;
  g_card_table : gmap Z Z;           (* card number to card value *)
  g_dirty_cards : list Z;            (* shared dirty card queue *)
  g_survivors : list Z;              (* the survivor list of the young list *)
  g_bytes_copied_during_gc : Z
}.

Definition set_mem (h : G1Heap) (m : memory) : G1Heap :=
  mkG1 m (g_bot h) (g_regions h) (g_free_list h) (g_old_set h) (g_summary_bytes_used h)
    (g_gc_time_stamp h) (g_card_table h) (g_dirty_cards h)
    (g_survivors h) (g_bytes_copied_during_gc h).
Definition set_bot (h : G1Heap) (a : gmap Z Z) : G1Heap :=
  mkG1 (g_mem h) a (g_regions h) (g_free_list h) (g_old_set h) (g_summary_bytes_used h)
    (g_gc_time_stamp h) (g_card_table h) (g_dirty_cards h)
    (g_survivors h) (g_bytes_copied_during_gc h).
Definition set_region (h : G1Heap) (p : Z) (r : HeapRegion) : G1Heap :=
  mkG1 (g_mem h) (g_bot h) (<[p := r]> (g_regions h)) (g_free_list h) (g_old_set h)
    (g_summary_bytes_used h) (g_gc_time_stamp h) (g_card_table h) (g_dirty_cards h)
    (g_survivors h) (g_bytes_copied_during_gc h).
Definition set_free_list (h : G1Heap) (l : list Z) : G1Heap :=
  mkG1 (g_mem h) (g_bot h) (g_regions h) l (g_old_set h) (g_summary_bytes_used h)
    (g_gc_time_stamp h) (g_card_table h) (g_dirty_cards h)
    (g_survivors h) (g_bytes_copied_during_gc h).
Definition add_to_old_set (h : G1Heap) (p used_bytes : Z) : G1Heap :=
  mkG1 (g_mem h) (g_bot h) (g_regions h) (g_free_list h) (p :: g_old_set h)
    (u64 (g_summary_bytes_used h + used_bytes))
    (g_gc_time_stamp h) (g_card_table h) (g_dirty_cards h)
    (g_survivors h) (g_bytes_copied_during_gc h).
Definition set_card_table (h : G1Heap) (c : gmap Z Z) : G1Heap :=
  mkG1 (g_mem h) (g_bot h) (g_regions h) (g_free_list h) (g_old_set h) (g_summary_bytes_used h)
    (g_gc_time_stamp h) c (g_dirty_cards h)
    (g_survivors h) (g_bytes_copied_during_gc h).
Definition enqueue_cards (h : G1Heap) (l : list Z) : G1Heap :=
  mkG1 (g_mem h) (g_bot h) (g_regions h) (g_free_list h) (g_old_set h) (g_summary_bytes_used h)
    (g_gc_time_stamp h) (g_card_table h) (g_dirty_cards h ++ l)
    (g_survivors h) (g_bytes_copied_during_gc h).

(** Updates the region at [p]; a NULL or unknown region faults. *)
Definition upd_region (h : G1Heap) (p : Z) (f : HeapRegion → HeapRegion) : option G1Heap :=
  r ← g_regions h !! p; Some (set_region h p (f r)).

(** * Cards *)

Definition card_shift : Z := 9.
Definition dirty_card : Z := 0.
Definition byte_for (p : Z) : Z := p >>> card_shift.

(** The cards from [first], [n] of them. *)
Definition card_range (first : Z) (n : nat) : list Z := (λ i, first + Z.of_nat i) <$> seq 0 n.

Definition g1_enqueue_mr (h : G1Heap) (start end_ : Z) : G1Heap :=
  let first := byte_for start in
  let last := byte_for (hw_add end_ (-1)) in
  enqueue_cards h (card_range first (Z.to_nat (last - first + 1))).

Definition g1_mark_as_dirty (h : G1Heap) (start end_ : Z) : G1Heap :=
  let first := byte_for start in
  let last := byte_for (hw_add end_ (-1)) + 1 in
  set_card_table h
    (foldr (λ c m, <[c := dirty_card]> m) (g_card_table h) (card_range first (Z.to_nat (last - first)))).

Section heap.
Context {cfg : VMConfig}.
Variable reserved_start : Z.

(** * The space of a region *)

Definition offsets (h : G1Heap) (r : HeapRegion) : OffsetTable :=
  mkTable (g_bot h) (hr_bottom r) (hr_end r) (hr_threshold r) (hr_index r).
Definition put_offsets (h : G1Heap) (p : Z) (r : HeapRegion) (t : OffsetTable) : G1Heap :=
  set_region (set_bot h (_offset_array t)) p
    (set_offsets r (_next_offset_threshold t) (_next_offset_index t)).

(** [ContiguousSpace::allocate_impl]; without interference
    [par_allocate_impl] succeeds at its first exchange and does the same. *)
Definition allocate_impl (r : HeapRegion) (size end_value : Z) : Z * HeapRegion :=
  let obj := hr_top r in
  if words_between end_value obj >=? size then (obj, set_top r (hw_add obj size)) else (NULL, r).
Definition par_allocate_impl (r : HeapRegion) (size end_value : Z) : Z * HeapRegion :=
  let obj := hr_top r in
  if words_between end_value obj >=? size then (obj, set_top r (hw_add obj size)) else (NULL, r).

Definition space_allocate (h : G1Heap) (p size : Z) (par bot_updates : bool) : option (Z * G1Heap) :=
  r ← g_regions h !! p;
  let '(res, r) := if par then par_allocate_impl r size (hr_end r) else allocate_impl r size (hr_end r) in
  if res =? NULL then Some (NULL, h)
  else if bot_updates then
    Some (res, put_offsets h p r (alloc_block_size reserved_start (offsets h r) res size))
  else Some (res, set_region h p r).

Definition set_saved_mark (h : G1Heap) (r : HeapRegion) : HeapRegion :=
  if hr_gc_time_stamp r <? g_gc_time_stamp h
  then set_mark_and_stamp r (hr_top r) (g_gc_time_stamp h) else r.

(** * Remembering the objects of a generation region *)

(** The walk of [bot_update_all]: at most one turn per word. *)
Fixpoint bot_update_loop (fuel : nat) (m : memory) (t : OffsetTable) (p end_ : Z) : option OffsetTable :=
  if p <? end_ then
    match fuel with
    | O => None
    | S fuel =>
        sz ← size m p;
        bot_update_loop fuel m (alloc_block_size reserved_start t p sz) (hw_add p sz) end_
    end
  else Some t.

Definition bot_update_all (h : G1Heap) (p : Z) : option G1Heap :=
  r ← g_regions h !! p;
  t ← bot_update_loop (Z.to_nat (words_between (hr_end r) (hr_bottom r))) (g_mem h) (offsets h r)
        (hr_bottom r) (hr_end r);
  Some (put_offsets h p r t).

Definition enqueue_gen_cards (h : G1Heap) (p : Z) : option G1Heap :=
  h ← bot_update_all h p;
  r ← g_regions h !! p;
  Some (g1_enqueue_mr h (hr_bottom r) (hr_end r)).

Definition add_active_tlab (h : G1Heap) (p : Z) : option G1Heap :=
  upd_region h p (λ r, set_active_tlabs r (i32 (hr_active_tlabs r + 1))).

Definition del_active_tlab (h : G1Heap) (p : Z) : option G1Heap :=
  h ← upd_region h p (λ r, set_active_tlabs r (i32 (hr_active_tlabs r - 1)));
  r ← g_regions h !! p;
  if (hr_gen r >? 0) && (hr_active_tlabs r =? 0) && negb (hr_is_gen_alloc_region r)
  then enqueue_gen_cards h p else Some h.

(** The fields that [hr_clear] and [par_clear] reset for the generations. *)
Definition gen_clear (r : HeapRegion) : HeapRegion :=
  set_gen_alloc_region (set_gen (set_epoch r (-1)) (-1)) false.

End heap.
End HeapRegions.

(** * Allocation regions *)

Module AllocRegion.
Import HeapRegions.

Record G1AllocRegion := mkAR {
  _alloc_region : Z;          (* NULL, the dummy region or the active region *)
  _count : Z;
  _used_bytes_before : Z;
  _bot_updates : bool
}.

Record GenAllocRegion := mkGAR {
  gar_base : G1AllocRegion;
  gar_gen : Z;
  gar_epoch : Z;
  gar_nregions : Z
}.

(** The generations: entry 0 stands for eden and is NULL. *)
Notation gens := (list (option GenAllocRegion)).

(** The virtual functions of [G1AllocRegion] that a kind of allocation region
    supplies, with the fields of the base class inside its state. *)
Class AllocRegionKind (S : Type) := {
  base : S → G1AllocRegion;
  set_base : S → G1AllocRegion → S;
  allocate_new_region : S → G1Heap → Z → bool → option (Z * S * G1Heap);
  retire_region : S → G1Heap → Z → Z → option G1Heap
}.

Section ops.
Context {cfg : VMConfig}.
Variable reserved_start _dummy_region : Z.

(** The loop repeats only when another thread allocated in between. *)
Fixpoint fill_up_loop (fuel : nat) (h : G1Heap) (p : Z) (bot_updates : bool) (free_word_size : Z)
    : option G1Heap :=
  if free_word_size >=? min_fill_size then
    match fuel with
    | O => None
    | S fuel =>
        '(dummy, h) ← space_allocate reserved_start h p free_word_size true bot_updates;
        if negb (dummy =? NULL) then
          m ← fill_with_object (g_mem h) dummy free_word_size;
          upd_region (set_mem h m) p (λ r, set_pre_dummy_top r dummy)
        else
          r ← g_regions h !! p;
          fill_up_loop fuel h p bot_updates (free r / HeapWordSize)
    end
  else Some h.

Definition fill_up_remaining_space (h : G1Heap) (p : Z) (bot_updates : bool) : option G1Heap :=
  r ← g_regions h !! p;
  fill_up_loop 2 h p bot_updates (free r / HeapWordSize).

Section kind.
Context {S : Type} `{!AllocRegionKind S}.

Definition get (s : S) : Z :=
  let hr := _alloc_region (base s) in if hr =? _dummy_region then NULL else hr.

Definition retire (s : S) (h : G1Heap) (fill_up : bool) : option (S * G1Heap) :=
  let b := base s in
  let alloc_region := _alloc_region b in
  if negb (alloc_region =? _dummy_region) then
    h ← (if fill_up then fill_up_remaining_space h alloc_region (_bot_updates b) else Some h);
    r ← g_regions h !! alloc_region;
    let allocated_bytes := u64 (used r - _used_bytes_before b) in
    h ← retire_region s h alloc_region allocated_bytes;
    Some (set_base s (mkAR _dummy_region (_count b) 0 (_bot_updates b)), h)
  else Some (s, h).

Definition new_alloc_region_and_allocate (s : S) (h : G1Heap) (word_size : Z) (force : bool)
    : option (Z * S * G1Heap) :=
  '(new_alloc_region, s, h) ← allocate_new_region s h word_size force;
  if negb (new_alloc_region =? NULL) then
    h ← upd_region h new_alloc_region reset_pre_dummy_top;
    r ← g_regions h !! new_alloc_region;
    let used_bytes_before := used r in
    '(result, h) ← space_allocate reserved_start h new_alloc_region word_size false (_bot_updates (base s));
    Some (result,
      set_base s (mkAR new_alloc_region (u32 (_count (base s) + 1)) used_bytes_before (_bot_updates (base s))),
      h)
  else Some (NULL, s, h).

Definition attempt_allocation (s : S) (h : G1Heap) (word_size : Z) (bot_updates : bool)
    : option (Z * G1Heap) :=
  space_allocate reserved_start h (_alloc_region (base s)) word_size true bot_updates.

Definition attempt_allocation_locked (s : S) (h : G1Heap) (word_size : Z) (bot_updates : bool)
    : option (Z * S * G1Heap) :=
  '(result, h) ← attempt_allocation s h word_size bot_updates;
  if negb (result =? NULL) then Some (result, s, h)
  else
    '(s, h) ← retire s h true;
    new_alloc_region_and_allocate s h word_size false.

Definition attempt_allocation_force (s : S) (h : G1Heap) (word_size : Z) (bot_updates : bool)
    : option (Z * S * G1Heap) :=
  new_alloc_region_and_allocate s h word_size true.

Definition init (s : S) : S :=
  set_base s (mkAR _dummy_region 0 (_used_bytes_before (base s)) (_bot_updates (base s))).

Definition set (s : S) (h : G1Heap) (alloc_region : Z) : option S :=
  r ← g_regions h !! alloc_region;
  Some (set_base s (mkAR alloc_region (u32 (_count (base s) + 1)) (used r) (_bot_updates (base s)))).

Definition release (s : S) (h : G1Heap) : option (Z * S * G1Heap) :=
  let alloc_region := _alloc_region (base s) in
  r ← g_regions h !! alloc_region;
  '(s, h) ← retire s h (hr_gen r >? 0);
  let b := base s in
  Some (if alloc_region =? _dummy_region then NULL else alloc_region,
        set_base s (mkAR NULL (_count b) (_used_bytes_before b) (_bot_updates b)), h).

End kind.

(** * Generation allocation regions *)

Definition new_GenAllocRegion (gen : Z) : GenAllocRegion := mkGAR (mkAR NULL 0 0 true) gen 0 0.
Definition new_epoch (g : GenAllocRegion) : GenAllocRegion :=
  mkGAR (gar_base g) (gar_gen g) (i32 (gar_epoch g + 1)) 0.

Definition REGIONS_UNLIMITED : Z := 2 ^ 32 - 1.

(** The secondary free list, fed by concurrent cleanup, and the expansion of
    the committed heap supply a region when the free list is empty; they
    return NULL when they cannot. *)
Variable other_regions : G1Heap → Z * G1Heap.

Definition new_region (h : G1Heap) : Z * G1Heap :=
  match g_free_list h with
  | r :: rest => (r, set_free_list h rest)
  | [] => other_regions h
  end.

Definition new_gen_alloc_region (h : G1Heap) (count : Z) : option (Z * G1Heap) :=
  if count <? REGIONS_UNLIMITED then
    let '(p, h) := new_region h in
    if negb (p =? NULL) then h' ← upd_region h p (set_saved_mark h); Some (p, h')
    else Some (NULL, h)
  else Some (NULL, h).

Definition retire_gen_alloc_region (h : G1Heap) (p : Z) : option G1Heap :=
  r ← g_regions h !! p;
  Some (add_to_old_set h p (used r)).

(** The virtual functions of [GenAllocRegion]; the new region is
    dereferenced without a check for NULL. *)
Definition gen_allocate_new_region (g : GenAllocRegion) (h : G1Heap) (word_size : Z) (force : bool)
    : option (Z * GenAllocRegion * G1Heap) :=
  '(region, h) ← new_gen_alloc_region h (_count (gar_base g));
  h ← upd_region h region (λ r,
        set_epoch (set_gen_alloc_region (set_gen r (gar_gen g)) true) (gar_epoch g));
  Some (region, mkGAR (gar_base g) (gar_gen g) (gar_epoch g) (i32 (gar_nregions g + 1)), h).

Definition gen_retire_region (g : GenAllocRegion) (h : G1Heap) (p allocated_bytes : Z) : option G1Heap :=
  h ← retire_gen_alloc_region h p;
  h ← upd_region h p (λ r, set_gen_alloc_region r false);
  r ← g_regions h !! p;
  if negb (hr_gen r =? 0) && (hr_active_tlabs r =? 0) then
    h ← bot_update_all reserved_start h p;
    Some (g1_enqueue_mr h (hr_bottom r) (hr_end r))
  else Some h.

#[global] Instance gen_alloc_region : AllocRegionKind GenAllocRegion := {
  base := gar_base;
  set_base g b := mkGAR b (gar_gen g) (gar_epoch g) (gar_nregions g);
  allocate_new_region := gen_allocate_new_region;
  retire_region := gen_retire_region
}.

Definition put_gen (gs : gens) (gen : Z) (g : GenAllocRegion) : gens := <[Z.to_nat gen := Some g]> gs.
Definition gen_at (gs : gens) (gen : Z) : option GenAllocRegion :=
  if gen <? 0 then None else mjoin (gs !! Z.to_nat gen).

Definition gen_attempt_allocation (gs : gens) (h : G1Heap) (gen word_size : Z)
    : option (Z * gens * G1Heap) :=
  g ← gen_at gs gen;
  '(result, h) ← attempt_allocation g h word_size true;
  '(result, gs, h) ←
    (if result =? NULL then
       '(result, g, h) ← attempt_allocation_locked g h word_size true;
       Some (result, put_gen gs gen g, h)
     else Some (result, gs, h));
  Some (result, gs,
    if negb (result =? NULL) then g1_mark_as_dirty h result (hw_add result word_size) else h).

Definition new_alloc_gen (gs : gens) : Z * gens :=
  let gen := Z.of_nat (length gs) in
  (gen, gs ++ [Some (init (new_GenAllocRegion gen))]).

Fixpoint init_loop (gs : gens) : option gens :=
  match gs with
  | [] => Some []
  | None :: _ => None
  | Some g :: gs => gs ← init_loop gs; Some (Some (init g) :: gs)
  end.

Definition init_gen_alloc_regions (gs : gens) : option gens :=
  match gs with
  | [] => Some []
  | g0 :: gs => gs ← init_loop gs; Some (g0 :: gs)
  end.

Fixpoint release_loop (gs : gens) (h : G1Heap) : option (gens * G1Heap) :=
  match gs with
  | [] => Some ([], h)
  | None :: _ => None
  | Some g :: gs =>
      '(_, g, h) ← release g h;
      '(gs, h) ← release_loop gs h;
      Some (Some g :: gs, h)
  end.

Definition release_gen_alloc_regions (gs : gens) (h : G1Heap) : option (gens * G1Heap) :=
  match gs with
  | [] => Some ([], h)
  | g0 :: gs => '(gs, h) ← release_loop gs h; Some (g0 :: gs, h)
  end.

(** The constructor of the heap: generations 1 to 15. *)
Definition initial_gens : gens := None :: ((λ i, Some (new_GenAllocRegion (Z.of_nat i))) <$> seq 1 15).

End ops.
End AllocRegion.

(** * Facts *)

Module RegionFacts.
Import HeapRegions AllocRegion JavaHeapFacts BlockOffsetFacts.

Section facts.
Context {cfg : VMConfig}.
Variable rs : Z.

(** The geometry of a region whose allocations went through the offset table;
    [bs] are the starts of the recorded blocks. *)
Record region_ok (h : G1Heap) (r : HeapRegion) (bs : list Z) : Prop := {
  ro_table : ∃ bi, table_ok rs bi (.∈ bs) (offsets h r) (hr_top r);
  ro_top : 0 < hr_bottom r ∧ hr_bottom r <= hr_top r <= hr_end r;
  ro_end : hr_end r <= rs + 2 ^ 61 ∧ (512 | hr_end r - rs) ∧ 0 <= rs ∧ rs + 2 ^ 61 < 2 ^ 64
}.

Lemma ro_words h r bs : region_ok h r bs → (8 | hr_end r - hr_top r).
Proof.
  intros [[bi T] _ (_ & [e He] & _)]. destruct (tk_words _ _ _ _ _ T) as [w Hw].
  exists (64 * e - w). lia.
Qed.

Lemma free_words h r bs :
  region_ok h r bs → free r / HeapWordSize = (hr_end r - hr_top r) / 8 ∧
  words_between (hr_end r) (hr_top r) = (hr_end r - hr_top r) / 8.
Proof.
  intros R. destruct (ro_top _ _ _ R). destruct (ro_end _ _ _ R) as (? & _ & ? & ?).
  unfold free, words_between, pointer_delta, HeapWordSize.
  by rewrite Z.div_1_r, u64_small by (unfold in_u64; lia).
Qed.

Lemma used_bytes h r bs : region_ok h r bs → used r = hr_top r - hr_bottom r.
Proof.
  intros R. destruct (ro_top _ _ _ R). destruct (ro_end _ _ _ R) as (? & _ & ? & ?).
  unfold used, pointer_delta. by rewrite Z.div_1_r, u64_small by (unfold in_u64; lia).
Qed.

(** ** The walk over a full region *)

Lemma bot_update_loop_noop fuel m t p end_ bs :
  parsable m p end_ bs → end_ <= _next_offset_threshold t → (end_ - p) / 8 <= Z.of_nat fuel →
  bot_update_loop rs fuel m t p end_ = Some t.
Proof.
  intros Hp Hthr. revert fuel. induction Hp as [p|p s end_ bs Hb Hp IH]; intros fuel Hf.
  { destruct fuel; cbn; by rewrite Z.ltb_irrefl. }
  pose proof (parsable_le _ _ _ _ Hp). pose proof (proj1 Hb). unfold hw_add, HeapWordSize in *.
  assert ((end_ - (p + 8 * s)) / 8 < (end_ - p) / 8).
  { replace (end_ - (p + 8 * s)) with (end_ - p - 8 * s) by lia. apply div_sub_lt; lia. }
  pose proof (Z.div_pos (end_ - (p + 8 * s)) 8 ltac:(lia) ltac:(lia)).
  destruct fuel as [|fuel]; [lia|]. cbn [bot_update_loop]. rewrite (proj2 (Z.ltb_lt p end_)) by lia.
  assert (size m p = Some s) as -> by by apply Hb. cbn [mbind option_bind].
  unfold alloc_block_size, alloc_block, hw_add, HeapWordSize. rewrite gtb_false by lia. apply IH; lia.
Qed.

Lemma bot_update_all_full h p r bs objs :
  g_regions h !! p = Some r → region_ok h r bs → hr_top r = hr_end r →
  parsable (g_mem h) (hr_bottom r) (hr_end r) objs → bot_update_all rs h p = Some h.
Proof.
  intros Hr R Hfull Hp. destruct R as [[bi T] ? ?]. unfold bot_update_all. rewrite Hr. cbn [mbind option_bind].
  pose proof (tk_top _ _ _ _ _ T) as Htop. cbn in Htop.
  rewrite (bot_update_loop_noop _ _ (offsets h r) (hr_bottom r) (hr_end r) objs); [|done|cbn; lia|].
  - cbn [mbind option_bind]. f_equal. unfold put_offsets, set_region, set_bot, set_offsets. destruct h, r; cbn in *.
    f_equal. by apply insert_id.
  - unfold words_between, pointer_delta, HeapWordSize. pose proof (parsable_le _ _ _ _ Hp).
    rewrite u64_small by (unfold in_u64; lia).
    rewrite Z2Nat.id by (apply Z.div_pos; lia). lia.
Qed.

(** ** Filling up a region *)

Lemma alloc_block_eta h r s e :
  alloc_block rs (offsets h r) s e =
  mkTable (_offset_array (alloc_block rs (offsets h r) s e)) (hr_bottom r) (hr_end r)
    (_next_offset_threshold (alloc_block rs (offsets h r) s e))
    (_next_offset_index (alloc_block rs (offsets h r) s e)).
Proof.
  unfold alloc_block. destruct (e >? _); [|done]. unfold alloc_block_work1.
  by destruct (alloc_block_work2 _ _ _ _ _ _) as [[a t] i].
Qed.

(** The heap after the rest of the region at [p] was filled. *)
Definition filled (h : G1Heap) (p : Z) (r : HeapRegion) (m : memory) : G1Heap :=
  let t := alloc_block rs (offsets h r) (hr_top r) (hr_end r) in
  set_region (set_mem (set_bot h (_offset_array t)) m) p
    (set_pre_dummy_top (set_offsets (set_top r (hr_end r)) (_next_offset_threshold t) (_next_offset_index t))
       (hr_top r)).

Lemma fill_up_spec h p r bs :
  config_ok → g_regions h !! p = Some r → region_ok h r bs →
  let w := (hr_end r - hr_top r) / 8 in
  min_fill_size <= w <= filler_array_max_size → (MinObjAlignment | w) →
  ∃ m, fill_with_object (g_mem h) (hr_top r) w = Some m ∧ block m (hr_top r) w ∧
    agree_out (g_mem h) m (hr_top r) (hr_end r) ∧
    fill_up_remaining_space rs h p true = Some (filled h p r m).
Proof.
  intros Hc Hr R w Hw Hd. destruct (ro_words _ _ _ R) as [v Hv].
  assert (hr_end r - hr_top r = 8 * w) as Ew by (unfold w; rewrite Hv, Z.div_mul; lia).
  destruct (fill_with_object_spec (g_mem h) (hr_top r) w Hc Hw Hd) as (m & Em & Hb & Ho).
  exists m. split; [done|]. split; [done|].
  split; [by replace (hr_end r) with (hr_top r + 8 * w) by lia|].
  destruct (free_words _ _ _ R) as [Ef Ed]. pose proof (ro_top _ _ _ R).
  unfold fill_up_remaining_space. rewrite Hr. cbn [mbind option_bind]. rewrite Ef. fold w.
  cbn [fill_up_loop]. rewrite geb_true by lia. unfold space_allocate. rewrite Hr.
  cbn [mbind option_bind]. unfold par_allocate_impl. rewrite Ed. fold w. rewrite geb_true by lia.
  rewrite (proj2 (Z.eqb_neq (hr_top r) NULL)) by (unfold NULL; lia). cbn [mbind option_bind].
  rewrite (proj2 (Z.eqb_neq (hr_top r) NULL)) by (unfold NULL; lia). cbn [negb].
  unfold alloc_block_size, put_offsets, hw_add, HeapWordSize. rewrite <- Ew.
  replace (hr_top r + (hr_end r - hr_top r)) with (hr_end r) by lia.
  change (g_mem (set_region _ _ _)) with (g_mem h). rewrite Em. cbn [mbind option_bind].
  unfold upd_region, set_mem, set_region, filled. cbn. rewrite lookup_insert_eq. cbn.
  by rewrite insert_insert_eq.
Qed.

Lemma filled_region_ok h p r m bs :
  region_ok h r bs → hr_top r < hr_end r →
  ∃ r', g_regions (filled h p r m) !! p = Some r' ∧ region_ok (filled h p r m) r' (hr_top r :: bs) ∧
    hr_top r' = hr_end r ∧ hr_end r' = hr_end r ∧ hr_bottom r' = hr_bottom r ∧ hr_gen r' = hr_gen r ∧
    hr_active_tlabs r' = hr_active_tlabs r ∧ hr_epoch r' = hr_epoch r.
Proof.
  intros R Hlt. unfold filled. cbn. rewrite lookup_insert_eq. eexists. split; [done|]. cbn.
  split; [|done]. destruct R as [[bi T] Htop (He & [e Ee] & Hrs)].
  split; cbn; [|lia|split; [lia|split; [by exists e|lia]]].
  exists bi. match goal with |- table_ok _ _ _ ?t _ =>
    replace t with (alloc_block rs (offsets h r) (hr_top r) (hr_end r)) by apply alloc_block_eta end.
  eapply table_ok_mono; [|apply (alloc_block_ok rs bi _ (offsets h r) (hr_top r) (hr_end r) T)].
  - intros x [?| ->]; [by right|by left].
  - lia.
  - exists (64 * e). lia.
Qed.

(** ** Retiring a generation region *)

(** The cards of a region, in the order in which they are enqueued. *)
Definition region_cards (r : HeapRegion) : list Z :=
  card_range (byte_for (hr_bottom r))
    (Z.to_nat (byte_for (hw_add (hr_end r) (-1)) - byte_for (hr_bottom r) + 1)).

Definition retired (h : G1Heap) (p : Z) (r : HeapRegion) : G1Heap :=
  set_region (add_to_old_set h p (hr_end r - hr_bottom r)) p (set_gen_alloc_region r false).

Lemma gen_retire_region_spec g h p r bs n :
  g_regions h !! p = Some r → region_ok h r bs → hr_top r = hr_end r →
  (hr_gen r ≠ 0 → hr_active_tlabs r = 0 → ∃ objs, parsable (g_mem h) (hr_bottom r) (hr_end r) objs) →
  gen_retire_region rs g h p n =
    Some (if negb (hr_gen r =? 0) && (hr_active_tlabs r =? 0)
          then enqueue_cards (retired h p r) (region_cards r) else retired h p r).
Proof.
  intros Hr R Hfull Hp. unfold gen_retire_region, retire_gen_alloc_region. rewrite Hr. cbn [mbind option_bind].
  rewrite (used_bytes _ _ _ R), Hfull. unfold upd_region. change (g_regions (add_to_old_set _ _ _)) with (g_regions h).
  rewrite Hr. cbn [mbind option_bind]. fold (retired h p r).
  assert (g_regions (retired h p r) !! p = Some (set_gen_alloc_region r false)) as Hr' by apply lookup_insert_eq.
  rewrite Hr'. cbn [mbind option_bind]. cbn [set_gen_alloc_region hr_gen hr_active_tlabs hr_bottom hr_end].
  destruct (Z.eqb_spec (hr_gen r) 0), (Z.eqb_spec (hr_active_tlabs r) 0); try done. cbn [negb andb].
  destruct Hp as [objs Hp]; [done..|].
  rewrite (bot_update_all_full (retired h p r) p (set_gen_alloc_region r false) bs objs); try done.
  by destruct R.
Qed.

Lemma alloc_block_frame bi B t top e c :
  table_ok rs bi B t top → top < e <= rs + 2 ^ 62 → (8 | e - rs) →
  c < _next_offset_index t ∨ e <= rs + 512 * c →
  _offset_array (alloc_block rs t top e) !! c = _offset_array t !! c.
Proof.
  intros T He [w Hw] Hc. unfold alloc_block. destruct (Z.gtb_spec e (_next_offset_threshold t)); [|done].
  destruct T as [H1 H2 H3 H4 H5 H6 [v H7] H8]. unfold alloc_block_work1. set (ei := (e - rs - 8) / 512).
  assert (rs + 512 * ei <= e - 8 < rs + 512 * (ei + 1)) as Hei.
  { pose proof (Z.div_mod (e - rs - 8) 512). pose proof (Z.mod_pos_bound (e - rs - 8) 512). unfold ei. lia. }
  destruct (alloc_block_work2_spec rs (_offset_array t) (_next_offset_threshold t) (_next_offset_index t) top e ei)
    as (a' & -> & W1 & W2 & W3); [done|lia..|exists (64 * _next_offset_index t - v); lia|lia|lia|by exists w|].
  cbn. apply W3. lia.
Qed.

(** A region can be filled up when nothing or room for an object is left. *)
Definition fillable (r : HeapRegion) : Prop :=
  let w := (hr_end r - hr_top r) / 8 in
  w = 0 ∨ (min_fill_size <= w <= filler_array_max_size ∧ (MinObjAlignment | w)).

Lemma fill_up_full h p r bs :
  config_ok → g_regions h !! p = Some r → region_ok h r bs → fillable r →
  ∃ h' r' bs', fill_up_remaining_space rs h p true = Some h' ∧ g_regions h' = <[p := r']> (g_regions h) ∧
    region_ok h' r' bs' ∧ hr_top r' = hr_end r ∧ hr_end r' = hr_end r ∧ hr_bottom r' = hr_bottom r ∧
    hr_gen r' = hr_gen r ∧ hr_active_tlabs r' = hr_active_tlabs r ∧
    agree_out (g_mem h) (g_mem h') (hr_top r) (hr_end r) ∧
    g_old_set h' = g_old_set h ∧ g_summary_bytes_used h' = g_summary_bytes_used h ∧
    g_dirty_cards h' = g_dirty_cards h ∧ g_free_list h' = g_free_list h ∧
    g_gc_time_stamp h' = g_gc_time_stamp h ∧
    (∀ c, rs + 512 * c <= hr_bottom r ∨ hr_end r <= rs + 512 * c → g_bot h' !! c = g_bot h !! c) ∧
    (∀ objs, parsable (g_mem h) (hr_bottom r) (hr_top r) objs →
     ∃ objs', parsable (g_mem h') (hr_bottom r) (hr_end r) objs').
Proof.
  intros Hc Hr R Hf. destruct (ro_words _ _ _ R) as [v Hv].
  assert ((hr_end r - hr_top r) / 8 = v) as Ev by (rewrite Hv, Z.div_mul; lia).
  destruct Hf as [Hw|[Hw Hd]].
  - exists h, r, bs. split.
    { unfold fill_up_remaining_space. rewrite Hr. cbn [mbind option_bind fill_up_loop].
      destruct (free_words _ _ _ R) as [-> _]. rewrite Hw. destruct (max_fill_range Hc) as (k & HA & Hk & _).
      destruct (min_fill_range k HA Hk) as [? _]. by rewrite geb_false by lia. }
    assert (hr_top r = hr_end r) as Et by lia.
    repeat (split; [done || by rewrite insert_id|]). rewrite Et. eauto.
  - destruct (fill_up_spec h p r bs Hc Hr R Hw Hd) as (m & Em & Hb & Ho & E).
    destruct (max_fill_range Hc) as (k & HA & Hk & _). destruct (min_fill_range k HA Hk) as [? _].
    destruct (filled_region_ok h p r m bs R ltac:(lia)) as (r' & Hr' & R' & ? & ? & ? & ? & ? & ?).
    assert (g_regions (filled h p r m) = <[p := r']> (g_regions h)) as EG.
    { unfold filled in *. cbn in *. rewrite lookup_insert_eq in Hr'. by injection Hr' as <-. }
    exists (filled h p r m), r', (hr_top r :: bs).
    repeat (split; [done|]). split.
    { intros c Hc'. destruct R as [[bi T] ? (? & [e Ee] & ?)]. pose proof (tk_index _ _ _ _ _ T).
      pose proof (tk_bottom _ _ _ _ _ T) as Eb. cbn in Eb.
      apply (alloc_block_frame bi (.∈ bs) (offsets h r)); [done|lia|exists (64 * e); lia|lia]. }
    intros objs Hp. exists (objs ++ [hr_top r]).
    apply parsable_app with (hr_top r).
    + eapply parsable_frame; [exact Hp|]. eapply agree_out_on; [exact Ho|lia].
    + eapply parsable_single; [exact Hb|]. unfold hw_add, HeapWordSize. lia.
Qed.

(** The part of a region that its geometry depends on. *)
Lemma region_ok_ext h h' r r' bs :
  region_ok h r bs → hr_bottom r' = hr_bottom r → hr_end r' = hr_end r → hr_top r' = hr_top r →
  hr_threshold r' = hr_threshold r → hr_index r' = hr_index r →
  (∀ c, (hr_bottom r - rs) / 512 <= c < hr_index r → g_bot h' !! c = g_bot h !! c) →
  region_ok h' r' bs.
Proof.
  intros [[bi T] H1 H2] Eb Ee Et Eth Ei Ha. destruct r, r'; cbn in *; subst. split; [|done|done].
  exists bi. destruct T as [T1 T2 T3 T4 T5 T6 T7 T8]. cbn in *. split; try done. cbn.
  assert ((hr_bottom0 - rs) / 512 = bi) as Eb by (rewrite T2; symmetry; apply Z.div_unique with 0; lia).
  intros c Hc. destruct (T8 c Hc) as (o & Ho & ?). exists o. split; [|done]. rewrite Ha; [done|lia].
Qed.

(** Allocation in a region with room for the block. *)
Lemma space_allocate_room h p r bs ws par :
  g_regions h !! p = Some r → region_ok h r bs → 0 < ws → hr_top r + 8 * ws <= hr_end r →
  ∃ r' a, space_allocate rs h p ws par true = Some (hr_top r, set_region (set_bot h a) p r') ∧
    region_ok (set_bot h a) r' (hr_top r :: bs) ∧ hr_top r' = hr_top r + 8 * ws ∧
    hr_bottom r' = hr_bottom r ∧ hr_end r' = hr_end r ∧ hr_gen r' = hr_gen r ∧ hr_epoch r' = hr_epoch r ∧
    hr_is_gen_alloc_region r' = hr_is_gen_alloc_region r ∧ hr_active_tlabs r' = hr_active_tlabs r.
Proof.
  intros Hr R Hws Hroom. destruct (free_words _ _ _ R) as [_ Ed]. destruct (ro_words _ _ _ R) as [v Hv].
  destruct R as [[bi T] Htop (He & [e Ee] & Hrs)]. destruct (tk_words _ _ _ _ _ T) as [w Hw].
  set (t := alloc_block rs (offsets h r) (hr_top r) (hr_top r + 8 * ws)).
  exists (set_offsets (set_top r (hr_top r + 8 * ws)) (_next_offset_threshold t) (_next_offset_index t)), (_offset_array t).
  split; [|split; [|done]].
  - unfold space_allocate. rewrite Hr. cbn [mbind option_bind].
    assert ((if par then par_allocate_impl r ws (hr_end r) else allocate_impl r ws (hr_end r)) =
            (hr_top r, set_top r (hr_top r + 8 * ws))) as ->.
    { unfold par_allocate_impl, allocate_impl. rewrite Ed, Hv, Z.div_mul by lia.
      rewrite geb_true by lia. by destruct par. }
    rewrite (proj2 (Z.eqb_neq (hr_top r) NULL)) by (unfold NULL; lia). done.
  - split; cbn; [|lia|split; [lia|split; [by exists e|lia]]]. exists bi.
    match goal with |- table_ok _ _ _ ?u _ => replace u with t by apply alloc_block_eta end.
    eapply table_ok_mono; [|apply (alloc_block_ok rs bi _ (offsets h r) (hr_top r) _ T)].
    + intros x [?| ->]; [by right|by left].
    + lia.
    + exists (w + ws). cbn in Hw. lia.
Qed.

Lemma space_allocate_full h p r bs ws par :
  g_regions h !! p = Some r → region_ok h r bs → hr_end r < hr_top r + 8 * ws →
  space_allocate rs h p ws par true = Some (NULL, h).
Proof.
  intros Hr R Hws. destruct (free_words _ _ _ R) as [_ Ed]. destruct (ro_words _ _ _ R) as [v Hv].
  unfold space_allocate. rewrite Hr. cbn [mbind option_bind].
  assert ((if par then par_allocate_impl r ws (hr_end r) else allocate_impl r ws (hr_end r)) = (NULL, r)) as ->.
  { unfold par_allocate_impl, allocate_impl. rewrite Ed, Hv, Z.div_mul by lia.
    rewrite geb_false by lia. by destruct par. }
  done.
Qed.

(** ** Allocation in a generation *)

Section gens.
Variable dummy : Z.
Variable other_regions : G1Heap → Z * G1Heap.

#[local] Notation gen_retire := (retire rs dummy (AllocRegionKind0 := gen_alloc_region rs other_regions)).

(** The active region of a generation: the dummy region, which is full, or a
    region of that generation. *)
Record active_ok (h : G1Heap) (g : GenAllocRegion) (p : Z) (r : HeapRegion) (bs : list Z) : Prop := {
  ac_ptr : _alloc_region (gar_base g) = p;
  ac_bot : _bot_updates (gar_base g) = true;
  ac_region : g_regions h !! p = Some r;
  ac_kind : (p = dummy ∧ hr_top r = hr_end r) ∨
            (p ≠ dummy ∧ region_ok h r bs ∧ hr_gen r = gar_gen g ∧ fillable r ∧
             (hr_gen r ≠ 0 → hr_active_tlabs r = 0 →
              ∃ objs, parsable (g_mem h) (hr_bottom r) (hr_top r) objs))
}.

(** Without what retiring needs: that the rest of the region can be filled,
    and that a region of a generation with no TLAB left is walkable. *)
Record active_region (h : G1Heap) (g : GenAllocRegion) (p : Z) (r : HeapRegion) (bs : list Z) : Prop := {
  ar_ptr : _alloc_region (gar_base g) = p;
  ar_bot : _bot_updates (gar_base g) = true;
  ar_region : g_regions h !! p = Some r;
  ar_kind : (p = dummy ∧ hr_top r = hr_end r) ∨ (p ≠ dummy ∧ region_ok h r bs ∧ hr_gen r = gar_gen g)
}.
Definition retirable (h : G1Heap) (r : HeapRegion) : Prop :=
  fillable r ∧ (hr_gen r ≠ 0 → hr_active_tlabs r = 0 → ∃ objs, parsable (g_mem h) (hr_bottom r) (hr_top r) objs).

Lemma active_retirable h g p r bs : active_region h g p r bs → (p ≠ dummy → retirable h r) → active_ok h g p r bs.
Proof. intros [H1 H2 H3 H4] Hr. split; try done. destruct H4 as [|(Hd & ? & ?)]; [by left|right]. destruct (Hr Hd). by split_and!. Qed.

Lemma active_ok_region h g p r bs : active_ok h g p r bs → active_region h g p r bs.
Proof. intros [H1 H2 H3 H4]. split; try done. destruct H4 as [|(? & ? & ? & _)]; [by left|by right]. Qed.

(** What retiring the active region leaves behind. *)
Definition retire_result (h : G1Heap) (g : GenAllocRegion) (p : Z) (r : HeapRegion)
    (g' : GenAllocRegion) (h' : G1Heap) : Prop :=
  ∃ r', g_regions h' = <[p := r']> (g_regions h) ∧
    hr_top r' = hr_end r ∧ hr_end r' = hr_end r ∧ hr_bottom r' = hr_bottom r ∧
    hr_gen r' = hr_gen r ∧ hr_active_tlabs r' = hr_active_tlabs r ∧ hr_is_gen_alloc_region r' = false ∧
    g_old_set h' = p :: g_old_set h ∧
    g_summary_bytes_used h' = u64 (g_summary_bytes_used h + (hr_end r - hr_bottom r)) ∧
    g_dirty_cards h' = g_dirty_cards h ++
      (if negb (hr_gen r =? 0) && (hr_active_tlabs r =? 0) then region_cards r else []).

Lemma retire_spec h g p r bs :
  config_ok → active_ok h g p r bs →
  ∃ g' h', gen_retire g h true = Some (g', h') ∧
    _alloc_region (gar_base g') = dummy ∧ _bot_updates (gar_base g') = true ∧
    gar_gen g' = gar_gen g ∧ gar_epoch g' = gar_epoch g ∧ _count (gar_base g') = _count (gar_base g) ∧
    g_free_list h' = g_free_list h ∧ g_gc_time_stamp h' = g_gc_time_stamp h ∧
    (∀ q, q ≠ p → g_regions h' !! q = g_regions h !! q) ∧
    agree_out (g_mem h) (g_mem h') (hr_top r) (hr_end r) ∧
    (∀ c, rs + 512 * c <= hr_bottom r ∨ hr_end r <= rs + 512 * c → g_bot h' !! c = g_bot h !! c) ∧
    (p ≠ dummy → _used_bytes_before (gar_base g') = 0 ∧ retire_result h g p r g' h').
Proof.
  intros Hc [Ep Eb Hr Hk]. unfold retire. cbn [base gen_alloc_region]. rewrite Ep.
  destruct (Z.eqb_spec p dummy) as [Ed|Nd]; cbn [negb].
  - exists g, h. rewrite Ep. repeat (split; [done|]). done.
  - destruct Hk as [[]|(_ & R & Hg & Hf & Hp)]; [done|]. rewrite Eb.
    destruct (fill_up_full h p r bs Hc Hr R Hf)
      as (h1 & r1 & bs1 & -> & HG & R1 & Ht & He & Hbo & Hge & Ha & Hm & Ho & Hs & Hdc & Hfl & Hts & Hbot & Hpar).
    cbn [mbind option_bind]. assert (g_regions h1 !! p = Some r1) as Hr1 by (rewrite HG; apply lookup_insert_eq).
    rewrite Hr1. cbn [mbind option_bind retire_region gen_alloc_region].
    rewrite (gen_retire_region_spec g h1 p r1 bs1); [|done|done|by rewrite Ht|].
    2:{ rewrite Hge, Ha, Hbo, He. intros Hg0 Ha0. destruct (Hp Hg0 Ha0) as [objs Ho']. eauto. }
    cbn [mbind option_bind]. eexists _, _. split; [done|]. cbn [set_base gar_base gar_gen gar_epoch].
    rewrite Hge, Ha. set (b := negb (hr_gen r =? 0) && (hr_active_tlabs r =? 0)).
    assert (∀ T (f : G1Heap → T), f (enqueue_cards (retired h1 p r1) (region_cards r1)) = f (retired h1 p r1) →
      f (if b then enqueue_cards (retired h1 p r1) (region_cards r1) else retired h1 p r1) = f (retired h1 p r1))
      as Hif by (by destruct b).
    rewrite !Hif by done. repeat (split; [done|]). split; [|split; [done|split; [done|]]].
    { intros q Hq. unfold retired. cbn. rewrite HG, !lookup_insert_ne by done. done. }
    intros _. split; [done|]. exists (set_gen_alloc_region r1 false). rewrite !Hif by done.
    unfold retired. cbn. rewrite HG, insert_insert_eq, He, Hbo, Ho, Hs.
    repeat (split; [done|]). unfold region_cards. rewrite <- Hdc, He, Hbo.
    fold b. destruct b; [done|by rewrite app_nil_r].
Qed.

(** Retiring the active region of a generation never faults: it fills the
    rest of the region with one filler, adds the region with all its bytes to
    the old set and the used bytes, leaves every other region alone, and
    enqueues the cards of the region once, unless TLABs in it are still
    active; then the cards wait for the last of them. *)
Theorem retire_gen_region h g p r bs :
  config_ok → active_ok h g p r bs → p ≠ dummy →
  ∃ g' h', gen_retire g h true = Some (g', h') ∧
    _alloc_region (gar_base g') = dummy ∧ _used_bytes_before (gar_base g') = 0 ∧
    retire_result h g p r g' h' ∧
    (∀ q, q ≠ p → g_regions h' !! q = g_regions h !! q) ∧
    agree_out (g_mem h) (g_mem h') (hr_top r) (hr_end r).
Proof.
  intros Hc Hac Hd. destruct (retire_spec h g p r bs Hc Hac)
    as (g' & h' & E & Ha & _ & _ & _ & _ & _ & _ & Hq & Hm & _ & H). destruct (H Hd) as [Hu Hres].
  by exists g', h'.
Qed.

(** A region on the free list: empty, and large enough for the request. *)
Record free_region_ok (h : G1Heap) (f : Z) (rf : HeapRegion) (ws : Z) : Prop := {
  fr_ptr : f ≠ NULL;
  fr_region : g_regions h !! f = Some rf;
  fr_ok : region_ok h rf [hr_bottom rf];
  fr_empty : hr_top rf = hr_bottom rf;
  fr_size : hr_bottom rf + 8 * ws <= hr_end rf
}.

Lemma gen_allocate_new_region_spec h g f rest rf ws force :
  g_free_list h = f :: rest → f ≠ NULL → g_regions h !! f = Some rf → _count (gar_base g) < 2 ^ 32 - 1 →
  gen_allocate_new_region other_regions g h ws force =
    Some (f, mkGAR (gar_base g) (gar_gen g) (gar_epoch g) (i32 (gar_nregions g + 1)),
      set_region (set_free_list h rest) f
        (set_epoch (set_gen_alloc_region (set_gen (set_saved_mark h rf) (gar_gen g)) true) (gar_epoch g))).
Proof.
  intros Hfl Hn Hr Hcnt. unfold gen_allocate_new_region, new_gen_alloc_region, new_region, REGIONS_UNLIMITED.
  rewrite Hfl, (proj2 (Z.ltb_lt _ _)), (proj2 (Z.eqb_neq f NULL)) by (done || lia). cbn [negb].
  unfold upd_region. change (g_regions (set_free_list h rest)) with (g_regions h). rewrite Hr. cbn.
  rewrite lookup_insert_eq. cbn. unfold set_region, set_free_list. cbn. by rewrite insert_insert_eq.
Qed.

Lemma new_region_spec h g f rest rf ws :
  g_free_list h = f :: rest → free_region_ok h f rf ws → 0 < ws → _bot_updates (gar_base g) = true →
  _count (gar_base g) < 2 ^ 32 - 1 →
  ∃ g' a r', new_alloc_region_and_allocate rs (AllocRegionKind0 := gen_alloc_region rs other_regions) g h ws false =
      Some (hr_bottom rf, g', set_region (set_bot (set_free_list h rest) a) f r') ∧
    _alloc_region (gar_base g') = f ∧ gar_gen g' = gar_gen g ∧
    region_ok (set_bot (set_free_list h rest) a) r' [hr_bottom rf; hr_bottom rf] ∧
    hr_bottom r' = hr_bottom rf ∧ hr_end r' = hr_end rf ∧ hr_top r' = hr_bottom rf + 8 * ws ∧
    hr_gen r' = gar_gen g ∧ hr_epoch r' = gar_epoch g ∧ hr_is_gen_alloc_region r' = true ∧
    hr_active_tlabs r' = hr_active_tlabs rf.
Proof.
  intros Hfl [Hn Hr R Ht Hsz] Hws Hb Hcnt.
  unfold new_alloc_region_and_allocate. cbn [allocate_new_region gen_alloc_region].
  rewrite (gen_allocate_new_region_spec h g f rest rf) by done. cbn [mbind option_bind base gen_alloc_region gar_base].
  rewrite (proj2 (Z.eqb_neq f NULL)), Hb by done. cbn [negb].
  set (r0 := set_epoch _ _). unfold upd_region.
  assert (∀ x, g_regions (set_region (set_free_list h rest) f x) !! f = Some x) as HL
    by (intros; apply lookup_insert_eq).
  rewrite HL. cbn [mbind option_bind].
  set (r1 := reset_pre_dummy_top r0). set (h1 := set_region (set_region _ _ _) _ _).
  assert (h1 = set_region (set_free_list h rest) f r1) as ->
    by (unfold h1, set_region; cbn; by rewrite insert_insert_eq).
  rewrite HL. cbn [mbind option_bind].
  assert (region_ok (set_region (set_free_list h rest) f r1) r1 [hr_bottom rf] ∧ hr_top r1 = hr_bottom rf ∧
    hr_bottom r1 = hr_bottom rf ∧ hr_end r1 = hr_end rf ∧ hr_gen r1 = gar_gen g ∧ hr_epoch r1 = gar_epoch g ∧
    hr_is_gen_alloc_region r1 = true ∧ hr_active_tlabs r1 = hr_active_tlabs rf)
    as (R1 & Ht1 & Hb1 & He1 & Hg1 & Hep1 & Hi1 & Ha1).
  { unfold r1, r0, set_saved_mark. destruct (_ <? _); cbn; (split; [eapply region_ok_ext; [exact R|done..]|done]). }
  clearbody r1. destruct (space_allocate_room _ f r1 [hr_bottom rf] ws false (HL r1) R1 Hws)
    as (r' & a & -> & R' & Ht' & Hb' & He' & Hg' & Hep' & Hi' & Ha'); [lia|].
  rewrite Ht1 in *. cbn [mbind option_bind]. eexists _, a, r'. split.
  { unfold set_region, set_bot, set_free_list. cbn. rewrite insert_insert_eq. done. }
  cbn [set_base gar_base gar_gen _alloc_region gen_alloc_region].
  split; [done|]. split; [done|]. split; [eapply region_ok_ext; [exact R'|done..]|].
  repeat split; congruence.
Qed.

Lemma active_full h g p r bs ws :
  active_ok h g p r bs → 0 < ws → hr_end r < hr_top r + 8 * ws →
  attempt_allocation rs (AllocRegionKind0 := gen_alloc_region rs other_regions) g h ws true = Some (NULL, h).
Proof.
  intros [Ep Eb Hr Hk] Hws Hfull. unfold attempt_allocation. cbn [base gen_alloc_region]. rewrite Ep.
  destruct Hk as [[-> Ht]|(_ & R & _)]; [|by eapply space_allocate_full].
  unfold space_allocate, par_allocate_impl. rewrite Hr. cbn [mbind option_bind].
  unfold words_between, pointer_delta. rewrite Ht, Z.sub_diag. by rewrite geb_false.
Qed.

(** Where an allocation of [ws] words ends up: at the old top of a region of
    the generation, which is the active one or the next free one. *)
Record allocated (h : G1Heap) (gs' : gens) (h' : G1Heap) (gen : Z) (g : GenAllocRegion)
    (p f : Z) (r : HeapRegion) (ws res : Z) : Prop := {
  al_res : res ≠ NULL;
  al_region : ∃ g' p' r0 r' bs', gen_at gs' gen = Some g' ∧ _alloc_region (gar_base g') = p' ∧ (p' = p ∨ p' = f) ∧
    g_regions h !! p' = Some r0 ∧ res = hr_top r0 ∧
    g_regions h' !! p' = Some r' ∧ hr_top r' = res + 8 * ws ∧ hr_bottom r' <= res ∧ hr_top r' <= hr_end r0 ∧
    hr_end r' = hr_end r0 ∧ hr_gen r' = gar_gen g ∧ hr_active_tlabs r' = hr_active_tlabs r0 ∧ region_ok h' r' bs';
  al_others : ∀ q, q ≠ p → q ≠ f → g_regions h' !! q = g_regions h !! q;
  al_mem : agree_out (g_mem h) (g_mem h') (hr_top r) (hr_end r)
}.

Lemma gen_at_put gs gen g g' : gen_at gs gen = Some g → gen_at (put_gen gs gen g') gen = Some g'.
Proof.
  unfold gen_at, put_gen. destruct (gen <? 0); [done|]. destruct (gs !! Z.to_nat gen) as [o|] eqn:E; [|done].
  intros _. rewrite list_lookup_insert_eq; [done|]. by eapply lookup_lt_Some.
Qed.

(** The active region has room. *)
Lemma gen_allocation_room gs h gen g p r bs ws :
  gen_at gs gen = Some g → active_region h g p r bs → 0 < ws → hr_top r + 8 * ws <= hr_end r →
  ∃ gs' h', gen_attempt_allocation rs dummy other_regions gs h gen ws = Some (hr_top r, gs', h') ∧
    allocated h gs' h' gen g p p r ws (hr_top r).
Proof.
  intros Hg Hac Hws Hroom. unfold gen_attempt_allocation. rewrite Hg. cbn [mbind option_bind].
  destruct Hac as [Ep Eb Hr [[-> Ht]|(Nd & R & Hgen)]]; [lia|].
  destruct (space_allocate_room h p r bs ws true Hr R Hws Hroom)
    as (r' & a & E & R' & Ht' & Hb' & He' & Hg' & _ & _ & Ha').
  unfold attempt_allocation. cbn [base gen_alloc_region]. rewrite Ep, E. cbn [mbind option_bind].
  pose proof (ro_top _ _ _ R). assert (hr_top r ≠ NULL) as Hnn by (unfold NULL; lia).
  rewrite (proj2 (Z.eqb_neq _ _) Hnn). cbn [mbind option_bind]. rewrite (proj2 (Z.eqb_neq _ _) Hnn). cbn [negb].
  eexists _, _. split; [done|]. split; [done| | |done].
  + exists g, p, r, r', (hr_top r :: bs). split; [done|]. split; [done|]. split; [by left|]. split; [done|].
    split; [done|]. split; [apply lookup_insert_eq|]. split; [done|]. split; [lia|]. split; [lia|].
    split; [done|]. split; [congruence|]. split; [done|]. eapply region_ok_ext; [exact R'|done..].
  + intros q Hq _. by apply lookup_insert_ne.
Qed.

(** The active region is retired and the first free region takes its place. *)
Lemma gen_allocation_replace gs h gen g p r bs ws f rest rf :
  config_ok → gen_at gs gen = Some g → active_ok h g p r bs → 0 < ws → hr_end r < hr_top r + 8 * ws →
  g_free_list h = f :: rest → free_region_ok h f rf ws → f ≠ p →
  hr_end r <= hr_bottom rf ∨ hr_end rf <= hr_bottom r → _count (gar_base g) < 2 ^ 32 - 1 →
  ∃ gs' h', gen_attempt_allocation rs dummy other_regions gs h gen ws = Some (hr_bottom rf, gs', h') ∧
    allocated h gs' h' gen g p f r ws (hr_bottom rf).
Proof.
  intros Hc Hg Hac Hws Hfull Hfl Hfr Hfp Hdis Hcnt. unfold gen_attempt_allocation. rewrite Hg. cbn [mbind option_bind].
  rewrite (active_full h g p r bs ws Hac Hws) by lia. cbn [mbind option_bind].
  change (NULL =? NULL) with true. cbn iota. unfold attempt_allocation_locked.
  rewrite (active_full h g p r bs ws Hac Hws) by lia. cbn [mbind option_bind].
  change (negb (NULL =? NULL)) with false. cbn iota.
  destruct (retire_spec h g p r bs Hc Hac)
    as (g1 & h1 & -> & Hd1 & Hb1 & Hg1 & _ & Hc1 & Hfl1 & _ & Hq1 & Hm1 & Hbot1 & _). cbn [mbind option_bind].
  assert (free_region_ok h1 f rf ws) as Hfr1.
  { destruct Hfr as [F1 F2 F3 F4 F5]. split; try done; [by rewrite Hq1|].
    eapply region_ok_ext; [exact F3|done..|]. intros c Hcard. apply Hbot1.
    destruct F3 as [[bi T] F6 F7]. pose proof (tk_bottom _ _ _ _ _ T) as Ebi. pose proof (tk_top _ _ _ _ _ T) as Etop.
    pose proof (tk_threshold _ _ _ _ _ T) as Eth. cbn in Ebi, Etop, Eth.
    assert ((hr_bottom rf - rs) / 512 = bi) as Eq by (rewrite Ebi; symmetry; apply Z.div_unique with 0; lia).
    lia. }
  rewrite Hfl in Hfl1. rewrite <- Hc1 in Hcnt.
  destruct (new_region_spec h1 g1 f rest rf ws Hfl1 Hfr1 Hws Hb1 Hcnt)
    as (g2 & a & r' & -> & Hp2 & Hg2 & R' & Hb' & He' & Ht' & Hgen' & _ & _ & Ha'). cbn [mbind option_bind].
  destruct Hfr1 as [F1 F2 F3 F4 F5]. pose proof (ro_top _ _ _ F3).
  assert (hr_bottom rf ≠ NULL) as Hnn by (unfold NULL; lia). rewrite (proj2 (Z.eqb_neq _ _) Hnn). cbn [negb].
  eexists _, _. split; [done|]. split; [done| | |].
  + exists g2, f, rf, r', [hr_bottom rf; hr_bottom rf]. split; [by eapply gen_at_put|]. split; [done|].
    split; [by right|]. split; [apply Hfr|]. split; [done|]. split; [apply lookup_insert_eq|]. split; [done|].
    split; [lia|]. split; [lia|]. split; [done|]. split; [congruence|]. split; [done|].
    eapply region_ok_ext; [exact R'|done..].
  + intros q Hq Hqf. rewrite <- (Hq1 q Hq). by apply lookup_insert_ne.
  + exact Hm1.
Qed.

Lemma gen_allocation_spec gs h gen g p r bs ws f rest rf :
  config_ok → gen_at gs gen = Some g → active_ok h g p r bs → 0 < ws →
  g_free_list h = f :: rest → free_region_ok h f rf ws → f ≠ p →
  hr_end r <= hr_bottom rf ∨ hr_end rf <= hr_bottom r → _count (gar_base g) < 2 ^ 32 - 1 →
  ∃ res gs' h', gen_attempt_allocation rs dummy other_regions gs h gen ws = Some (res, gs', h') ∧
    allocated h gs' h' gen g p f r ws res.
Proof.
  intros Hc Hg Hac Hws Hfl Hfr Hfp Hdis Hcnt. destruct (Z_le_gt_dec (hr_top r + 8 * ws) (hr_end r)) as [Hroom|Hfull].
  - destruct (gen_allocation_room gs h gen g p r bs ws Hg (active_ok_region _ _ _ _ _ Hac) Hws Hroom) as (gs' & h' & E & [A1 A2 A3 A4]).
    exists (hr_top r), gs', h'. split; [done|]. split; [done| |intros q Hq _; by apply A3|done].
    destruct A2 as (g' & p' & r0 & r' & bs' & H1 & H2 & H3 & H4). exists g', p', r0, r', bs'. split; [done|]. split; [done|]. split; [left; tauto|done].
  - destruct (gen_allocation_replace gs h gen g p r bs ws f rest rf) as (gs' & h' & E & A); try done; [lia|]. by exists (hr_bottom rf), gs', h'.
Qed.

(** C17: Allocation in a generation. When the active region has room, the block
    starts at its top; no free region and no state of the memory is needed.
    Otherwise, when the active region can be retired (its rest can be filled,
    and it is walkable if it belongs to a generation and has no TLAB left) and
    the free list starts with a region that is big enough, that region becomes
    the active one and the block starts at its bottom. Either way the block
    ends inside a region of the generation, so it overlaps no earlier block;
    the offset table stays sound, no other region moves, and memory changes
    only in the rest of the region that was given up. *)
Theorem gen_allocation gs h gen g p r bs ws :
  config_ok → gen_at gs gen = Some g → active_region h g p r bs → 0 < ws →
  (hr_top r + 8 * ws <= hr_end r →
    ∃ gs' h', gen_attempt_allocation rs dummy other_regions gs h gen ws = Some (hr_top r, gs', h') ∧
      allocated h gs' h' gen g p p r ws (hr_top r)) ∧
  (∀ f rest rf, hr_end r < hr_top r + 8 * ws → (p ≠ dummy → retirable h r) →
    g_free_list h = f :: rest → free_region_ok h f rf ws → f ≠ p →
    hr_end r <= hr_bottom rf ∨ hr_end rf <= hr_bottom r → _count (gar_base g) < 2 ^ 32 - 1 →
    ∃ gs' h', gen_attempt_allocation rs dummy other_regions gs h gen ws = Some (hr_bottom rf, gs', h') ∧
      allocated h gs' h' gen g p f r ws (hr_bottom rf)).
Proof.
  intros Hc Hg Hac Hws. split; [by apply (gen_allocation_room gs h gen g p r bs)|].
  intros f rest rf Hfull Hret Hfl Hfr Hfp Hdis Hcnt. apply (gen_allocation_replace gs h gen g p r bs ws f rest rf); try done. by apply active_retirable.
Qed.

(** When no region is left, an allocation in a generation does not fail
    with NULL: after the active region is given up, the missing region is
    dereferenced. *)
Theorem gen_allocation_without_region gs h gen g p r bs ws :
  config_ok → gen_at gs gen = Some g → active_ok h g p r bs → 0 < ws → hr_end r < hr_top r + 8 * ws →
  g_free_list h = [] → (∀ h, other_regions h = (NULL, h)) → g_regions h !! NULL = None →
  gen_attempt_allocation rs dummy other_regions gs h gen ws = None.
Proof.
  intros Hc Hg Hac Hws Hfull Hfl Hor Hnull. unfold gen_attempt_allocation. rewrite Hg. cbn [mbind option_bind].
  rewrite (active_full h g p r bs ws Hac Hws Hfull). cbn [mbind option_bind]. change (NULL =? NULL) with true.
  cbn iota. unfold attempt_allocation_locked. rewrite (active_full h g p r bs ws Hac Hws Hfull).
  cbn [mbind option_bind]. change (negb (NULL =? NULL)) with false. cbn iota.
  destruct (retire_spec h g p r bs Hc Hac)
    as (g1 & h1 & -> & _ & _ & _ & _ & _ & Hfl1 & _ & Hq & _). cbn [mbind option_bind].
  unfold new_alloc_region_and_allocate. cbn [allocate_new_region gen_alloc_region].
  unfold gen_allocate_new_region, new_gen_alloc_region, new_region. rewrite Hfl1, Hfl, Hor.
  change (negb (NULL =? NULL)) with false. cbn iota.
  assert (g_regions h1 !! NULL = None) as E.
  { rewrite Hq; [done|]. intros <-. pose proof (ac_region _ _ _ _ _ Hac). congruence. }
  destruct (_ <? _); cbn [mbind option_bind]; unfold upd_region; by rewrite E.
Qed.

(** ** Uninitialized memory in a retired region *)

Lemma bot_update_loop_faults fuel m t p q end_ objs :
  parsable m p q objs → q < end_ → klass m q = None → bot_update_loop rs fuel m t p end_ = None.
Proof.
  intros Hp Hq Hk. revert fuel t. induction Hp as [p|p s q objs Hb Hp IH]; intros fuel t.
  - destruct fuel; cbn [bot_update_loop]; rewrite (proj2 (Z.ltb_lt p end_)) by done; [done|].
    unfold size. by rewrite Hk.
  - pose proof (parsable_le _ _ _ _ Hp). pose proof (proj1 Hb). unfold hw_add, HeapWordSize in *.
    destruct fuel; cbn [bot_update_loop]; rewrite (proj2 (Z.ltb_lt p end_)) by lia; [done|].
    assert (size m p = Some s) as -> by by apply Hb. cbn [mbind option_bind]. by apply IH.
Qed.

Lemma gen_retire_region_faults g h p r n q objs :
  g_regions h !! p = Some r → hr_gen r ≠ 0 → hr_active_tlabs r = 0 →
  parsable (g_mem h) (hr_bottom r) q objs → q < hr_end r → klass (g_mem h) q = None →
  gen_retire_region rs g h p n = None.
Proof.
  intros Hr Hg Ha Hp Hq Hk. unfold gen_retire_region, retire_gen_alloc_region. rewrite Hr.
  cbn [mbind option_bind]. unfold upd_region. change (g_regions (add_to_old_set _ _ _)) with (g_regions h).
  rewrite Hr. cbn [mbind option_bind]. set (h1 := set_region _ _ _).
  assert (g_regions h1 !! p = Some (set_gen_alloc_region r false)) as Hr1 by apply lookup_insert_eq.
  rewrite Hr1. cbn [mbind option_bind set_gen_alloc_region hr_gen hr_active_tlabs].
  rewrite (proj2 (Z.eqb_neq _ _) Hg), Ha. cbn [negb andb Z.eqb].
  unfold bot_update_all. rewrite Hr1. cbn [mbind option_bind set_gen_alloc_region hr_bottom hr_end].
  change (g_mem h1) with (g_mem h). by rewrite (bot_update_loop_faults _ _ _ _ q _ objs).
Qed.

(** Retiring a region reads uninitialized memory in two situations that
    the code does not exclude: a TLAB was allocated in the region but not yet
    registered ([register_tlab] runs after the allocation, without a lock), and
    the region has fewer free words than the smallest filler needs. *)
Theorem retire_walks_uninitialized h g p r bs q objs :
  config_ok → _alloc_region (gar_base g) = p → p ≠ dummy → _bot_updates (gar_base g) = true →
  g_regions h !! p = Some r → region_ok h r bs → hr_gen r ≠ 0 → hr_active_tlabs r = 0 →
  parsable (g_mem h) (hr_bottom r) q objs → klass (g_mem h) q = None →
  (fillable r ∧ q + 16 <= hr_top r) ∨ (0 < (hr_end r - hr_top r) / 8 < min_fill_size ∧ q = hr_top r) →
  gen_retire g h true = None.
Proof.
  intros Hc Ep Nd Eb Hr R Hg Ha Hp Hk Hcase. unfold retire. cbn [base gen_alloc_region]. rewrite Ep, Eb.
  rewrite (proj2 (Z.eqb_neq p dummy)) by done. cbn [negb]. pose proof (ro_top _ _ _ R).
  destruct Hcase as [[Hf Hq]|[Hw ->]].
  - destruct (fill_up_full h p r bs Hc Hr R Hf)
      as (h1 & r1 & bs1 & -> & HG & R1 & Ht & He & Hbo & Hge & Hac & Hm & _). cbn [mbind option_bind].
    assert (g_regions h1 !! p = Some r1) as Hr1 by (rewrite HG; apply lookup_insert_eq).
    rewrite Hr1. cbn [mbind option_bind retire_region gen_alloc_region].
    pose proof (parsable_le _ _ _ _ Hp).
    rewrite (gen_retire_region_faults _ _ _ r1 _ q objs); try done; try congruence; [|lia|].
    + rewrite Hbo. eapply parsable_frame; [exact Hp|]. eapply agree_out_on; [exact Hm|lia].
    + rewrite <- Hk. apply klass_agree. eapply agree_out_on; [exact Hm|lia].
  - unfold fill_up_remaining_space. rewrite Hr. cbn [mbind option_bind fill_up_loop].
    destruct (free_words _ _ _ R) as [-> _]. rewrite geb_false by lia. cbn [mbind option_bind].
    rewrite Hr. cbn [mbind option_bind retire_region gen_alloc_region].
    destruct (ro_words _ _ _ R) as [v Hv]. rewrite Hv, Z.div_mul in Hw by lia.
    by rewrite (gen_retire_region_faults _ _ _ r _ (hr_top r) objs) by (done || lia).
Qed.

End gens.

(** [bot_update_all] walks every object of a retired region but never
    changes the offset table: all of the region's blocks are already below
    the table's threshold, so the objects inside former TLABs stay recorded
    under the start of the TLAB. *)
Theorem bot_update_all_changes_nothing h p r bs objs :
  g_regions h !! p = Some r → region_ok h r bs → hr_top r = hr_end r →
  parsable (g_mem h) (hr_bottom r) (hr_end r) objs → bot_update_all rs h p = Some h.
Proof. apply bot_update_all_full. Qed.

End facts.
End RegionFacts.

(** * Concurrent allocation in one region *)

(** The compare-and-exchange loop of [ContiguousSpace::par_allocate_impl], run
    by any number of threads on one region: a thread loads [top], checks the
    room, and exchanges; a lost exchange starts over. *)
Module ParAllocate.
Import HeapRegions.

Inductive pc :=
  | Trying (size : Z)
  | Loaded (obj size : Z)
  | Done (res size : Z).

Record state := mkState { s_top : Z; s_pcs : gmap nat pc; s_blocks : list (Z * Z) }.

Section par.
Variables bottom end_value : Z.

Inductive step : state → state → Prop :=
  | step_call t size top pcs bl :
      0 < size → (∀ s, pcs !! t ≠ Some (Trying s)) → (∀ o s, pcs !! t ≠ Some (Loaded o s)) →
      step (mkState top pcs bl) (mkState top (<[t := Trying size]> pcs) bl)
  | step_load t size top pcs bl :
      pcs !! t = Some (Trying size) → (words_between end_value top >=? size) = true →
      step (mkState top pcs bl) (mkState top (<[t := Loaded top size]> pcs) bl)
  | step_fail t size top pcs bl :
      pcs !! t = Some (Trying size) → (words_between end_value top >=? size) = false →
      step (mkState top pcs bl) (mkState top (<[t := Done NULL size]> pcs) bl)
  | step_xchg t obj size top pcs bl :
      pcs !! t = Some (Loaded obj size) → top = obj →
      step (mkState top pcs bl)
           (mkState (hw_add obj size) (<[t := Done obj size]> pcs) ((obj, size) :: bl))
  | step_lost t obj size top pcs bl :
      pcs !! t = Some (Loaded obj size) → top ≠ obj →
      step (mkState top pcs bl) (mkState top (<[t := Trying size]> pcs) bl).

Definition initial : state := mkState bottom ∅ [].

(** The blocks handed out, newest first, tile the space below [top]. *)
Fixpoint tiled (top : Z) (bl : list (Z * Z)) : Prop :=
  match bl with
  | [] => top = bottom
  | (o, n) :: bl => 0 < n ∧ top = o + 8 * n ∧ tiled o bl
  end.

Record inv (s : state) : Prop := {
  inv_tiled : tiled (s_top s) (s_blocks s);
  inv_top : bottom <= s_top s <= end_value;
  inv_loaded : ∀ t o n, s_pcs s !! t = Some (Loaded o n) → 0 < n ∧ o <= s_top s ∧ o + 8 * n <= end_value;
  inv_trying : ∀ t n, s_pcs s !! t = Some (Trying n) → 0 < n;
  inv_done : ∀ t o n, s_pcs s !! t = Some (Done o n) → o ≠ NULL → (o, n) ∈ s_blocks s
}.

Lemma words_between_room top n :
  top <= end_value → end_value - top < 2 ^ 64 → (words_between end_value top >=? n) = true ↔ top + 8 * n <= end_value.
Proof.
  intros. unfold words_between, pointer_delta, HeapWordSize. rewrite u64_small by (unfold in_u64; lia).
  rewrite Z.geb_le. pose proof (Z.div_mod (end_value - top) 8 ltac:(lia)).
  pose proof (Z.mod_pos_bound (end_value - top) 8 ltac:(lia)). lia.
Qed.

Lemma inv_step s s' : 0 <= bottom → end_value < 2 ^ 64 → inv s → step s s' → inv s'.
Proof.
  intros Hb He [I1 I2 I3 I4 I5] Hst. destruct Hst as [t n top pcs bl Hn _ _|t n top pcs bl Hp Hr|t n top pcs bl Hp Hr
    |t o n top pcs bl Hp Et|t o n top pcs bl Hp Et]; cbn in *.
  - split; cbn; try done; intros u; setoid_rewrite lookup_insert_Some; naive_solver.
  - apply words_between_room in Hr; [|lia..]. pose proof (I4 t n Hp).
    split; cbn; try done; intros u; setoid_rewrite lookup_insert_Some; naive_solver lia.
  - split; cbn; try done; intros u; setoid_rewrite lookup_insert_Some; naive_solver.
  - subst o. destruct (I3 t top n Hp) as (? & _ & ?). unfold hw_add, HeapWordSize.
    split; cbn; try lia; try done.
    + intros u o' n'. rewrite lookup_insert_Some. intros [[_ [=]]|[_ Hu]]. destruct (I3 u o' n' Hu). lia.
    + intros u n'. rewrite lookup_insert_Some. naive_solver.
    + intros u o' n'. rewrite lookup_insert_Some. intros [[_ [= <- <-]]|[_ Hu]] Hn; [by left|].
      right. by eapply I5.
  - destruct (I3 t o n Hp) as (? & _ & _).
    split; cbn; try done; intros u; setoid_rewrite lookup_insert_Some; naive_solver.
Qed.

Lemma inv_rtc s s' : 0 <= bottom → end_value < 2 ^ 64 → inv s → rtc step s s' → inv s'.
Proof. intros Hb He Hi Hr. induction Hr as [|s1 s2 s3 Hst Hr IH]; [done|]. apply IH. by eapply inv_step. Qed.

Lemma inv_initial : bottom <= end_value → inv initial.
Proof. intros. split; cbn; try done; try lia; intros t; by setoid_rewrite lookup_empty. Qed.

Lemma tiled_bounds top bl o n : tiled top bl → (o, n) ∈ bl → bottom <= o ∧ o + 8 * n <= top ∧ 0 < n.
Proof.
  assert (∀ bl top, tiled top bl → bottom <= top) as Hle.
  { induction bl0 as [|[o' n'] bl' IH]; cbn; intros top' H; [lia|]. destruct H as (? & -> & H). apply IH in H. lia. }
  revert top. induction bl as [|[o' n'] bl IH]; cbn; intros top H Hin; [by apply elem_of_nil in Hin|].
  destruct H as (Hn & -> & H). pose proof (Hle _ _ H). apply elem_of_cons in Hin as [[= <- <-]|Hin]; [lia|].
  destruct (IH _ H Hin). lia.
Qed.

Lemma tiled_disjoint top bl i j oi ni oj nj :
  tiled top bl → (i < j)%nat → bl !! i = Some (oi, ni) → bl !! j = Some (oj, nj) → oj + 8 * nj <= oi.
Proof.
  revert top i j. induction bl as [|[o n] bl IH]; intros top i j; [done|]. cbn [tiled].
  intros (Hn & -> & H) Hij Hi Hj. destruct j as [|j]; [lia|]. cbn in Hj. destruct i as [|i]; cbn in Hi.
  - injection Hi as <- <-. apply list_elem_of_lookup_2 in Hj. destruct (tiled_bounds _ _ _ _ H Hj). lia.
  - eapply IH; [exact H| |exact Hi|exact Hj]. lia.
Qed.

Lemma tiled_sum top bl : tiled top bl → top = bottom + 8 * foldr Z.add 0 (snd <$> bl).
Proof.
  revert top. induction bl as [|[o n] bl IH]; cbn; intros top H; [lia|]. destruct H as (_ & -> & H).
  apply IH in H. lia.
Qed.

(** C29: However the threads interleave, concurrent lock-free allocations in a
    region hand out pairwise disjoint blocks without gaps inside the region;
    every non-NULL result is one of them, and an exchange is lost only when
    the top has grown since it was loaded. *)
Theorem par_allocate_disjoint s :
  0 < bottom <= end_value → end_value < 2 ^ 64 → rtc step initial s →
  (∀ i j oi ni oj nj, i ≠ j → s_blocks s !! i = Some (oi, ni) → s_blocks s !! j = Some (oj, nj) →
     oi + 8 * ni <= oj ∨ oj + 8 * nj <= oi) ∧
  (∀ o n, (o, n) ∈ s_blocks s → bottom <= o ∧ o + 8 * n <= s_top s) ∧
  s_top s <= end_value ∧ s_top s = bottom + 8 * foldr Z.add 0 (snd <$> s_blocks s) ∧
  (∀ t o n, s_pcs s !! t = Some (Done o n) → o ≠ NULL → (o, n) ∈ s_blocks s) ∧
  (∀ t o n, s_pcs s !! t = Some (Loaded o n) → s_top s ≠ o → o < s_top s).
Proof.
  intros Hb He Hr. destruct (inv_rtc initial s) as [I1 I2 I3 I4 I5]; [lia|done|apply inv_initial; lia|done|].
  split; [|split; [|split; [lia|split; [by apply tiled_sum|split; [done|]]]]].
  - intros i j oi ni oj nj Hij Hi Hj. destruct (decide (i < j)%nat).
    + right. by eapply (tiled_disjoint _ _ i j).
    + left. eapply (tiled_disjoint _ _ j i); eauto. lia.
  - intros o n Hin. destruct (tiled_bounds _ _ _ _ I1 Hin) as (? & ? & ?). lia.
  - intros t o n Hp Hne. destruct (I3 t o n Hp). lia.
Qed.

(** A call that nobody disturbs behaves like the sequential function. *)
Lemma solo_run r t size pcs bl :
  0 < size → hr_end r = end_value → pcs !! t = None →
  let '(res, r') := par_allocate_impl r size end_value in
  ∃ bl', rtc step (mkState (hr_top r) pcs bl) (mkState (hr_top r') (<[t := Done res size]> pcs) bl').
Proof.
  intros Hs _ Hp. unfold par_allocate_impl.
  assert (step (mkState (hr_top r) pcs bl) (mkState (hr_top r) (<[t := Trying size]> pcs) bl)) as S1
    by (apply step_call; [done|by rewrite Hp..]).
  destruct (words_between end_value (hr_top r) >=? size) eqn:E.
  - eexists. eapply rtc_l; [exact S1|].
    eapply rtc_l; [apply (step_load t size); [apply lookup_insert_eq|done]|]. rewrite insert_insert_eq.
    eapply rtc_l; [apply (step_xchg t (hr_top r) size); [apply lookup_insert_eq|done]|].
    rewrite insert_insert_eq. apply rtc_refl.
  - eexists. eapply rtc_l; [exact S1|].
    eapply rtc_l; [apply (step_fail t size); [apply lookup_insert_eq|done]|]. rewrite insert_insert_eq. apply rtc_refl.
Qed.

End par.

(** Two threads race for a region of 8 words; the first load loses. *)
Lemma par_allocate_disjoint_witness :
  ∃ s, rtc (step 0x1040) (initial 0x1000) s ∧ s_blocks s = [(0x1020, 2); (0x1000, 4)] ∧
  ∀ i j oi ni oj nj, i ≠ j → s_blocks s !! i = Some (oi, ni) → s_blocks s !! j = Some (oj, nj) →
     oi + 8 * ni <= oj ∨ oj + 8 * nj <= oi.
Proof.
  eexists. assert (H : rtc (step 0x1040) (initial 0x1000)
    (mkState 0x1030 (<[0%nat := Done 0x1020 2]> (<[1%nat := Done 0x1000 4]> ∅)) [(0x1020, 2); (0x1000, 4)])).
  { eapply rtc_l; [apply (step_call _ 0 2); [lia|done..]|].
    eapply rtc_l; [apply (step_load _ 0 2); [done|done]|].
    eapply rtc_l; [apply (step_call _ 1 4); [lia|done..]|].
    eapply rtc_l; [apply (step_load _ 1 4); [done|done]|].
    eapply rtc_l; [apply (step_xchg _ 1 0x1000 4); [done|done]|].
    eapply rtc_l; [apply (step_lost _ 0 0x1000 2); [done|done]|].
    eapply rtc_l; [apply (step_load _ 0 2); [done|done]|].
    eapply rtc_l; [apply (step_xchg _ 0 0x1020 2); [done|done]|].
    match goal with |- rtc _ ?a ?b => replace a with b by (by vm_compute) end. apply rtc_refl. }
  split; [exact H|]. split; [done|].
  apply (par_allocate_disjoint 0x1000 0x1040 _ ltac:(lia) ltac:(lia) H).
Defined.

End ParAllocate.

(** * A small heap *)

(** Two regions of 128 words: region A of generation 3 holds blocks of 40 and
    60 words, region B is free. *)
Module RegionDemo.
Import HeapRegions AllocRegion JavaHeapFacts BlockOffsetFacts RegionFacts.

#[local] Existing Instance demo_config.

Definition demo_table : OffsetTable :=
  fst (alloc_blocks 0x100000
    (initialize_threshold 0x100000 (zero_bottom_entry 0x100000 (new_table {[2 := 0]} (0x100000 + 512 * 0) 0x100400)))
    (0x100000 + 512 * 0) [40; 60]).

Definition demo_A : HeapRegion :=
  mkRegion 0x100000 0x100400 0x100320 0 0 0
    (_next_offset_threshold demo_table) (_next_offset_index demo_table) 3 0 true 0 NotYoung 0x100000.
Definition demo_B : HeapRegion := mkRegion 0x100400 0x100800 0x100400 0 0 0 0x100600 3 (-1) (-1) false 0
  NotYoung 0x100400.
Definition demo_dummy : HeapRegion := mkRegion 0x10 0x10 0x10 0 0 0 0 0 (-1) (-1) false 0 NotYoung 0.

Definition demo_heap (m : memory) (free : list Z) : G1Heap :=
  mkG1 m (_offset_array demo_table)
    (<[0xA0 := demo_A]> (<[0xB0 := demo_B]> (<[0xD0 := demo_dummy]> ∅))) free [] 0 0 ∅ [] [] 0.

Definition demo_gen : GenAllocRegion := mkGAR (mkAR 0xA0 1 0 true) 3 0 1.
Definition demo_gens : list (option GenAllocRegion) := [None; None; None; Some demo_gen].

Lemma demo_A_ok m free : region_ok 0x100000 (demo_heap m free) demo_A (starts_of 0x100000 [40; 60]).
Proof.
  split; [|done|split; [done|split; [by exists 2|done]]]. exists 0.
  change (offsets (demo_heap m free) demo_A) with
    (mkTable (_offset_array demo_table) 0x100000 0x100400 (_next_offset_threshold demo_table)
       (_next_offset_index demo_table)).
  unfold demo_table. rewrite (alloc_blocks_table 0x100000 (initialize_threshold 0x100000
    (zero_bottom_entry 0x100000 (new_table {[2 := 0]} (0x100000 + 512 * 0) 0x100400)))).
  apply filled_table_ok; [done|by repeat constructor|done|by left|done].
Qed.

Lemma demo_B_ok m free : region_ok 0x100000 (demo_heap m free) demo_B [0x100400].
Proof.
  split; [|done|split; [done|split; [by exists 4|done]]]. exists 2. split; cbn; try lia.
  - by exists 128.
  - intros c Hc. replace c with 2 by lia. exists 0. split; [by vm_compute|]. left. split; [lia|by left].
Qed.

Lemma demo_fillable : fillable demo_A.
Proof. right. split; [by vm_compute|apply Z.divide_1_l]. Qed.

Lemma demo_active m free :
  parsable m 0x100000 0x100320 (starts_of 0x100000 [40; 60]) →
  active_ok 0x100000 0xD0 (demo_heap m free) demo_gen 0xA0 demo_A (starts_of 0x100000 [40; 60]).
Proof.
  intros Hp. split; try done. right. split; [done|]. split; [apply demo_A_ok|]. split; [done|].
  split; [apply demo_fillable|]. intros _ _. by eexists.
Qed.

Lemma demo_memory :
  ∃ m, tile ∅ 0x100000 [40; 60] = Some m ∧ parsable m 0x100000 0x100320 (starts_of 0x100000 [40; 60]).
Proof.
  destruct (tile_parsable ∅ 0x100000 [40; 60] demo_config_ok) as (m & E & Hp & _); [|by exists m].
  repeat (apply Forall_cons; split; [split; [by vm_compute|apply Z.divide_1_l]|]). apply Forall_nil_2.
Qed.

Definition no_other_regions (h : G1Heap) : Z * G1Heap := (NULL, h).

Lemma retire_gen_region_witness :
  ∃ m g' h', tile ∅ 0x100000 [40; 60] = Some m ∧
    retire 0x100000 0xD0 (AllocRegionKind0 := gen_alloc_region 0x100000 no_other_regions)
      demo_gen (demo_heap m []) true = Some (g', h') ∧
    retire_result (demo_heap m []) demo_gen 0xA0 demo_A g' h'.
Proof.
  destruct demo_memory as (m & E & Hp).
  destruct (retire_gen_region 0x100000 0xD0 no_other_regions (demo_heap m []) demo_gen 0xA0 demo_A
    (starts_of 0x100000 [40; 60]) demo_config_ok (demo_active m [] Hp) ltac:(lia)) as (g' & h' & R & _ & _ & H & _).
  by exists m, g', h'.
Defined.

(** Region A is full for 64 words and is replaced by region B; 2 words fit. *)
Lemma gen_allocation_witness :
  ∃ m gs1 h1 gs2 h2, tile ∅ 0x100000 [40; 60] = Some m ∧
    gen_attempt_allocation 0x100000 0xD0 no_other_regions demo_gens (demo_heap m [0xB0]) 3 64 = Some (hr_bottom demo_B, gs1, h1) ∧
    allocated 0x100000 (demo_heap m [0xB0]) gs1 h1 3 demo_gen 0xA0 0xB0 demo_A 64 (hr_bottom demo_B) ∧
    gen_attempt_allocation 0x100000 0xD0 no_other_regions demo_gens (demo_heap m []) 3 2 = Some (hr_top demo_A, gs2, h2).
Proof.
  destruct demo_memory as (m & E & Hp). exists m.
  destruct (gen_allocation 0x100000 0xD0 no_other_regions demo_gens (demo_heap m [0xB0]) 3 demo_gen 0xA0 demo_A
    (starts_of 0x100000 [40; 60]) 64 demo_config_ok) as [_ Hrep]; [done|by apply active_ok_region, demo_active|done|].
  destruct (Hrep 0xB0 [] demo_B) as (gs1 & h1 & R1 & A1); try done.
  { intros _. destruct (demo_active m [0xB0] Hp) as [_ _ _ [[Hd _]|(_ & _ & _ & ?)]]; done. }
  { split; try done. apply demo_B_ok. }
  { by left. }
  destruct (gen_allocation 0x100000 0xD0 no_other_regions demo_gens (demo_heap m []) 3 demo_gen 0xA0 demo_A
    (starts_of 0x100000 [40; 60]) 2 demo_config_ok) as [Hroom _]; [done|by apply active_ok_region, demo_active|done|].
  destruct (Hroom ltac:(done)) as (gs2 & h2 & R2 & _). by exists gs1, h1, gs2, h2.
Defined.

Lemma gen_allocation_without_region_witness :
  ∃ m, tile ∅ 0x100000 [40; 60] = Some m ∧
    gen_attempt_allocation 0x100000 0xD0 no_other_regions demo_gens (demo_heap m []) 3 64 = None.
Proof.
  destruct demo_memory as (m & E & Hp). exists m. split; [done|].
  apply (gen_allocation_without_region 0x100000 0xD0 no_other_regions demo_gens (demo_heap m []) 3 demo_gen 0xA0
    demo_A (starts_of 0x100000 [40; 60]) 64 demo_config_ok); try done. by apply demo_active.
Defined.

(** Only the first block of region A holds an object; the second is a TLAB
    that has not been registered. *)
Lemma retire_walks_uninitialized_witness :
  ∃ m, tile ∅ 0x100000 [40] = Some m ∧
    retire 0x100000 0xD0 (AllocRegionKind0 := gen_alloc_region 0x100000 no_other_regions)
      demo_gen (demo_heap m []) true = None.
Proof.
  destruct (tile_parsable ∅ 0x100000 [40] demo_config_ok) as (m & E & Hp & Ho).
  { repeat (apply Forall_cons; split; [split; [by vm_compute|apply Z.divide_1_l]|]). apply Forall_nil_2. }
  exists m. split; [done|].
  apply (retire_walks_uninitialized 0x100000 0xD0 no_other_regions (demo_heap m []) demo_gen 0xA0 demo_A
    (starts_of 0x100000 [40; 60]) 0x100140 (starts_of 0x100000 [40]) demo_config_ok); try done.
  - apply demo_A_ok.
  - unfold klass. cbn [UseCompressedClassPointers demo_config]. unfold load32. rewrite Ho; [done|right; by vm_compute].
  - left. split; [apply demo_fillable|done].
Defined.

(** Region A full: a 100-word block that holds two objects, and a filler. *)
Definition full_table : OffsetTable :=
  fst (alloc_blocks 0x100000
    (initialize_threshold 0x100000 (zero_bottom_entry 0x100000 (new_table ∅ (0x100000 + 512 * 0) 0x100400)))
    (0x100000 + 512 * 0) [100; 28]).
Definition full_A : HeapRegion :=
  mkRegion 0x100000 0x100400 0x100400 0 0 0
    (_next_offset_threshold full_table) (_next_offset_index full_table) 3 0 false 0 NotYoung 0x100000.
Definition full_heap (m : memory) : G1Heap :=
  mkG1 m (_offset_array full_table) (<[0xA0 := full_A]> ∅) [] [] 0 0 ∅ [] [] 0.

Lemma full_A_ok m : region_ok 0x100000 (full_heap m) full_A (starts_of 0x100000 [40; 60; 28]).
Proof.
  split; [|done|split; [done|split; [by exists 2|done]]]. exists 0.
  change (offsets (full_heap m) full_A) with
    (mkTable (_offset_array full_table) 0x100000 0x100400 (_next_offset_threshold full_table)
       (_next_offset_index full_table)).
  unfold full_table. rewrite (alloc_blocks_table 0x100000 (initialize_threshold 0x100000
    (zero_bottom_entry 0x100000 (new_table ∅ (0x100000 + 512 * 0) 0x100400)))).
  apply filled_table_ok; [done|by repeat constructor|done|by left|].
  intros x Hx. cbn in Hx. set_solver.
Qed.

Lemma bot_update_all_changes_nothing_witness :
  ∃ m, tile ∅ 0x100000 [40; 60; 28] = Some m ∧
    bot_update_all 0x100000 (full_heap m) 0xA0 = Some (full_heap m).
Proof.
  destruct (tile_parsable ∅ 0x100000 [40; 60; 28] demo_config_ok) as (m & E & Hp & _).
  { repeat (apply Forall_cons; split; [split; [by vm_compute|apply Z.divide_1_l]|]). apply Forall_nil_2. }
  exists m. split; [done|].
  apply (bot_update_all_changes_nothing 0x100000 (full_heap m) 0xA0 full_A (starts_of 0x100000 [40; 60; 28])
    (starts_of 0x100000 [40; 60; 28])); [done|apply full_A_ok|done|exact Hp].
Defined.

End RegionDemo.
