(* ===== verification/Tlab.v ===== *)
(** Thread-local allocation buffers ([memory/threadLocalAllocBuffer.hpp],
    [.inline.hpp], [.cpp]), the TLABs that a thread keeps per generation
    ([runtime/thread.hpp], [thread.cpp]), and the way the last TLAB of a
    retired region hands its cards over ([HeapRegion::del_active_tlab] and
    [GenAllocRegion::retire_region]), the latter also as a step relation over
    the single memory accesses of the threads.

    The float average of the allocation fraction, which only [resize] reads,
    is not modelled. *)

From S2P Require Import Prelude MarkWord JavaHeap BlockOffset GenRegions Ng2cTables.
Import MarkOop JavaHeap BlockOffset HeapRegions.

Module Tlab.

(** * Flags and sizes *)

Class TlabFlags := mkTlabFlags {
  ZeroTLAB : bool;
  MinTLABSize : Z;
  TLABSize : Z;
  TLABRefillWasteFraction : Z;
  TLABWasteIncrement : Z;
  TLABWasteTargetPercent : Z;
  reserve_for_allocation_prefetch : Z;
  GrainBytes : Z;
  _humongous_object_threshold_in_words : Z
}.

(** Without [_allocation_fraction], the moving average only [resize] reads. *)
Record ThreadLocalAllocBuffer := mkTLAB {
  tl_start : Z;
  tl_top : Z;
  tl_pf_top : Z;
  tl_end : Z;
  tl_desired_size : Z;
  tl_refill_waste_limit : Z;
  tl_number_of_refills : Z;
  tl_fast_refill_waste : Z;
  tl_slow_refill_waste : Z;
  tl_gc_waste : Z;
  tl_slow_allocations : Z;
  tl_my_heap_region : Z
}.

Definition initialize_range (t : ThreadLocalAllocBuffer) (start top end_ : Z) : ThreadLocalAllocBuffer :=
  mkTLAB start top top end_ (tl_desired_size t) (tl_refill_waste_limit t) (tl_number_of_refills t)
    (tl_fast_refill_waste t) (tl_slow_refill_waste t) (tl_gc_waste t) (tl_slow_allocations t)
    (tl_my_heap_region t).
Definition set_tlab_top (t : ThreadLocalAllocBuffer) (top : Z) : ThreadLocalAllocBuffer :=
  mkTLAB (tl_start t) top (tl_pf_top t) (tl_end t) (tl_desired_size t) (tl_refill_waste_limit t)
    (tl_number_of_refills t) (tl_fast_refill_waste t) (tl_slow_refill_waste t) (tl_gc_waste t)
    (tl_slow_allocations t) (tl_my_heap_region t).
Definition set_desired_size (t : ThreadLocalAllocBuffer) (size : Z) : ThreadLocalAllocBuffer :=
  mkTLAB (tl_start t) (tl_top t) (tl_pf_top t) (tl_end t) size (tl_refill_waste_limit t)
    (tl_number_of_refills t) (tl_fast_refill_waste t) (tl_slow_refill_waste t) (tl_gc_waste t)
    (tl_slow_allocations t) (tl_my_heap_region t).
Definition set_refill_waste_limit (t : ThreadLocalAllocBuffer) (waste : Z) : ThreadLocalAllocBuffer :=
  mkTLAB (tl_start t) (tl_top t) (tl_pf_top t) (tl_end t) (tl_desired_size t) waste
    (tl_number_of_refills t) (tl_fast_refill_waste t) (tl_slow_refill_waste t) (tl_gc_waste t)
    (tl_slow_allocations t) (tl_my_heap_region t).
Definition set_statistics (t : ThreadLocalAllocBuffer) (refills fast slow gc allocs : Z) : ThreadLocalAllocBuffer :=
  mkTLAB (tl_start t) (tl_top t) (tl_pf_top t) (tl_end t) (tl_desired_size t) (tl_refill_waste_limit t)
    refills fast slow gc allocs (tl_my_heap_region t).
Definition setHeapRegion (t : ThreadLocalAllocBuffer) (hr : Z) : ThreadLocalAllocBuffer :=
  mkTLAB (tl_start t) (tl_top t) (tl_pf_top t) (tl_end t) (tl_desired_size t) (tl_refill_waste_limit t)
    (tl_number_of_refills t) (tl_fast_refill_waste t) (tl_slow_refill_waste t) (tl_gc_waste t)
    (tl_slow_allocations t) hr.

Definition initialize_statistics (t : ThreadLocalAllocBuffer) : ThreadLocalAllocBuffer :=
  set_statistics t 0 0 0 0 0.

Section tlab.
Context {cfg : VMConfig} {flags : TlabFlags}.
Variable reserved_start : Z.

Definition min_size : Z := align_object_size (MinTLABSize / HeapWordSize).

Definition max_size : Z :=
  let unaligned_max_size := array_header_size T_INT + sizeof_jint * (max_jint / HeapWordSize) in
  align_size_down unaligned_max_size MinObjAlignment.

Definition end_reserve : Z :=
  let reserve_size := array_header_size T_INT in Z.max reserve_size reserve_for_allocation_prefetch.
Definition alignment_reserve : Z := align_object_size end_reserve.

Definition hard_end (t : ThreadLocalAllocBuffer) : Z := hw_add (tl_end t) alignment_reserve.
Definition remaining (t : ThreadLocalAllocBuffer) : Z :=
  if tl_end t =? NULL then 0 else words_between (hard_end t) (tl_top t).
Definition tlab_used_bytes (t : ThreadLocalAllocBuffer) : Z := pointer_delta (tl_top t) (tl_start t) 1.
Definition tlab_free (t : ThreadLocalAllocBuffer) : Z := words_between (tl_end t) (tl_top t).

Definition initial_refill_waste_limit (t : ThreadLocalAllocBuffer) : Z :=
  tl_desired_size t / TLABRefillWasteFraction.

(** * Operations *)

Definition tlab_allocate (t : ThreadLocalAllocBuffer) (size : Z) : Z * ThreadLocalAllocBuffer :=
  let obj := tl_top t in
  if words_between (tl_end t) obj >=? size then (obj, set_tlab_top t (hw_add obj size)) else (NULL, t).

(** [available] is the value of [unsafe_max_tlab_alloc], in bytes. *)
Definition compute_size (t : ThreadLocalAllocBuffer) (available obj_size : Z) : Z :=
  let aligned_obj_size := align_object_size obj_size in
  let available_size := available / HeapWordSize in
  let new_tlab_size := Z.min available_size (u64 (tl_desired_size t + aligned_obj_size)) in
  let obj_plus_filler_size := u64 (aligned_obj_size + alignment_reserve) in
  if new_tlab_size <? obj_plus_filler_size then 0 else new_tlab_size.

Definition record_slow_allocation (t : ThreadLocalAllocBuffer) : ThreadLocalAllocBuffer :=
  let t := set_refill_waste_limit t (u64 (tl_refill_waste_limit t + TLABWasteIncrement)) in
  set_statistics t (tl_number_of_refills t) (tl_fast_refill_waste t) (tl_slow_refill_waste t)
    (tl_gc_waste t) (u32 (tl_slow_allocations t + 1)).

(** [CollectedHeap::fill_with_object(start, end)]. *)
Definition fill_range_with_object (m : memory) (start end_ : Z) : option memory :=
  fill_with_object m start (words_between end_ start).

(** [bytes] is the thread's count of allocated bytes. *)
Definition make_parsable (h : G1Heap) (bytes : Z) (t : ThreadLocalAllocBuffer) (retire : bool)
    : option (G1Heap * Z * ThreadLocalAllocBuffer) :=
  if negb (tl_end t =? NULL) then
    m ← fill_range_with_object (g_mem h) (tl_top t) (hard_end t);
    let h := set_mem h m in
    '(h, bytes, t) ←
      (if retire then
         let bytes := i64 (bytes + tlab_used_bytes t) in
         if negb (tl_my_heap_region t =? NULL) then
           h ← del_active_tlab reserved_start h (tl_my_heap_region t);
           Some (h, bytes, setHeapRegion t NULL)
         else Some (h, bytes, t)
       else Some (h, bytes, t));
    Some (h, bytes, if retire || ZeroTLAB then initialize_range t NULL NULL NULL else t)
  else Some (h, bytes, t).

Definition clear_before_allocation (h : G1Heap) (bytes : Z) (t : ThreadLocalAllocBuffer)
    : option (G1Heap * Z * ThreadLocalAllocBuffer) :=
  let t := set_statistics t (tl_number_of_refills t) (tl_fast_refill_waste t)
             (u32 (tl_slow_refill_waste t + u32 (remaining t))) (tl_gc_waste t) (tl_slow_allocations t) in
  make_parsable h bytes t true.

Definition fill (t : ThreadLocalAllocBuffer) (start top new_size : Z) : ThreadLocalAllocBuffer :=
  let t := set_statistics t (u32 (tl_number_of_refills t + 1)) (tl_fast_refill_waste t)
             (tl_slow_refill_waste t) (tl_gc_waste t) (tl_slow_allocations t) in
  let t := initialize_range t start top (hw_add start (new_size - alignment_reserve)) in
  set_refill_waste_limit t (initial_refill_waste_limit t).

Definition target_refills : Z := Z.max (100 / (2 * TLABWasteTargetPercent)) 1.

(** [nof_threads] is [global_stats()->allocating_threads_avg()], absent until
    the global statistics are created. *)
Definition initial_desired_size (nof_threads : option Z) : Z :=
  if TLABSize >? 0 then Z.min (TLABSize / HeapWordSize) max_size
  else match nof_threads with
  | None => min_size
  | Some n =>
      let init_sz := align_object_size ((GrainBytes / HeapWordSize) / u32 (n * target_refills)) in
      Z.min (Z.max init_sz min_size) max_size
  end.

Definition initialize (nof_threads : option Z) (t : ThreadLocalAllocBuffer) : ThreadLocalAllocBuffer :=
  let t := setHeapRegion (initialize_range t NULL NULL NULL) NULL in
  let t := set_desired_size t (initial_desired_size nof_threads) in
  initialize_statistics (set_refill_waste_limit t (initial_refill_waste_limit t)).

(** * The hints of the heap *)

Definition tlab_capacity : Z := GrainBytes.

(** [hr] is the active eden region or NULL. *)
Definition unsafe_max_tlab_alloc (h : G1Heap) (hr : Z) : option Z :=
  let max_tlab_size := _humongous_object_threshold_in_words * 8 in
  if hr =? NULL then Some max_tlab_size
  else r ← g_regions h !! hr; Some (Z.min (Z.max (free r) MinTLABSize) max_tlab_size).

End tlab.

(** * The TLABs of a thread

    [_tlabGenArray[0]] is the address of the eden TLAB, so one list holds
    all of them; [_genTlab] and [_curTlab] are positions in it. *)
Record Thread := mkThread {
  th_tlabs : list ThreadLocalAllocBuffer;
  th_alloc_gen : Z;
  th_genTlab : Z;
  th_curTlab : Z;
  th_allocated_bytes : Z;
  th_context : Z
}.

Definition tlab_at (th : Thread) (i : Z) : option ThreadLocalAllocBuffer :=
  if i <? 0 then None else th_tlabs th !! Z.to_nat i.
Definition put_tlab (th : Thread) (i : Z) (t : ThreadLocalAllocBuffer) : Thread :=
  mkThread (<[Z.to_nat i := t]> (th_tlabs th)) (th_alloc_gen th) (th_genTlab th) (th_curTlab th)
    (th_allocated_bytes th) (th_context th).
Definition put_tlabs (th : Thread) (l : list ThreadLocalAllocBuffer) (bytes : Z) : Thread :=
  mkThread l (th_alloc_gen th) (th_genTlab th) (th_curTlab th) bytes (th_context th).
Definition set_allocated_bytes (th : Thread) (bytes : Z) : Thread :=
  put_tlabs th (th_tlabs th) bytes.

(** The array is read at [gen] without a bounds check. *)
Definition thread_set_alloc_gen (th : Thread) (gen : Z) : option Thread :=
  _ ← tlab_at th gen;
  Some (mkThread (th_tlabs th) gen gen (th_curTlab th) (th_allocated_bytes th) (th_context th)).
Definition set_cur_tlab (th : Thread) (gen_alloc : bool) : Thread :=
  mkThread (th_tlabs th) (th_alloc_gen th) (th_genTlab th) (if gen_alloc then th_genTlab th else 0)
    (th_allocated_bytes th) (th_context th).
Definition tlab_gen (th : Thread) : option ThreadLocalAllocBuffer := tlab_at th (th_genTlab th).

Section thread.
Context {cfg : VMConfig} {flags : TlabFlags}.
Variable reserved_start : Z.

Fixpoint make_tlabs_loop (h : G1Heap) (bytes : Z) (l : list ThreadLocalAllocBuffer) (retire : bool)
    : option (G1Heap * Z * list ThreadLocalAllocBuffer) :=
  match l with
  | [] => Some (h, bytes, [])
  | t :: l =>
      '(h, bytes, t) ← make_parsable reserved_start h bytes t retire;
      '(h, bytes, l) ← make_tlabs_loop h bytes l retire;
      Some (h, bytes, t :: l)
  end.

Definition make_gen_tlabs_parsable (h : G1Heap) (th : Thread) (retire_tlabs : bool) : option (G1Heap * Thread) :=
  match th_tlabs th with
  | [] => None
  | t0 :: l =>
      '(h, bytes, l) ← make_tlabs_loop h (th_allocated_bytes th) l retire_tlabs;
      Some (h, put_tlabs th (t0 :: l) bytes)
  end.

(** The TLABs of one thread in the loop of [ensure_parsability]; the flush of
    its deferred store barrier that follows is not modelled. *)
Definition make_thread_parsable (h : G1Heap) (th : Thread) (retire_tlabs : bool) : option (G1Heap * Thread) :=
  t0 ← tlab_at th 0;
  '(h, bytes, t0) ← make_parsable reserved_start h (th_allocated_bytes th) t0 retire_tlabs;
  make_gen_tlabs_parsable h (set_allocated_bytes (put_tlab th 0 t0) bytes) retire_tlabs.

Fixpoint ensure_parsability (h : G1Heap) (ths : list Thread) (retire_tlabs : bool)
    : option (G1Heap * list Thread) :=
  match ths with
  | [] => Some (h, [])
  | th :: ths =>
      '(h, th) ← make_thread_parsable h th retire_tlabs;
      '(h, ths) ← ensure_parsability h ths retire_tlabs;
      Some (h, th :: ths)
  end.

Definition initialize_gen_tlabs (nof_threads : option Z) (th : Thread) : Thread :=
  match th_tlabs th with
  | [] => th
  | t0 :: l => put_tlabs th (t0 :: (initialize nof_threads <$> l)) (th_allocated_bytes th)
  end.

End thread.
End Tlab.

(** * Facts *)

Module TlabFacts.
Import AllocRegion JavaHeapFacts BlockOffsetFacts RegionFacts Tlab.

Section facts.
Context {cfg : VMConfig} {flags : TlabFlags}.
Variable rs : Z.

(** A TLAB in use: the rest up to [hard_end] can hold one filler. *)
Record tlab_ok (t : ThreadLocalAllocBuffer) : Prop := {
  to_order : 0 < tl_start t ∧ tl_start t <= tl_top t <= tl_end t;
  to_wrap : hard_end t < 2 ^ 63;
  to_align : (8 * MinObjAlignment | hard_end t - tl_top t);
  to_size : hard_end t - tl_start t <= 8 * filler_array_max_size
}.

Definition tlab_empty (t : ThreadLocalAllocBuffer) : Prop :=
  tl_start t = NULL ∧ tl_top t = NULL ∧ tl_end t = NULL.

Lemma reserve_range :
  config_ok → min_fill_size <= alignment_reserve ∧ (MinObjAlignment | alignment_reserve) ∧
    array_header_size T_INT <= alignment_reserve ∧ end_reserve <= alignment_reserve < end_reserve + 32.
Proof.
  intros Hc. destruct (ok_align Hc) as (k & Hk & HA). unfold min_fill_size, alignment_reserve, align_object_size.
  rewrite HA. pose proof array_header_range. change oop_header_size with 2.
  destruct (align_size_up_bounds 2 k) as [B1 [q1 D1]]; [lia|].
  destruct (align_size_up_bounds end_reserve k) as [B2 [q2 D2]]; [lia|].
  assert (array_header_size T_INT <= end_reserve) by (unfold end_reserve; lia).
  pose proof (Z.pow_pos_nonneg 2 k ltac:(lia) ltac:(lia)). rewrite D1, D2 in *.
  assert (2 ^ k <= 2 ^ 5) by (apply Z.pow_le_mono_r; lia).
  split; [assert (q1 <= q2) by nia; nia|]. split; [by exists q2|lia].
Qed.

Lemma hard_end_eq t : hard_end t = tl_end t + 8 * alignment_reserve.
Proof. unfold hard_end, hw_add, HeapWordSize. lia. Qed.

Lemma words_between_exact a b w : a - b = 8 * w → 0 <= w < 2 ^ 60 → words_between a b = w.
Proof.
  intros E Hw. unfold words_between, pointer_delta, HeapWordSize.
  rewrite E, u64_small by (unfold in_u64; lia). rewrite Z.mul_comm. by apply Z.div_mul.
Qed.

Lemma fill_tail m t :
  config_ok → tlab_ok t →
  ∃ w m', hard_end t - tl_top t = 8 * w ∧ fill_range_with_object m (tl_top t) (hard_end t) = Some m' ∧
    block m' (tl_top t) w ∧ agree_out m m' (tl_top t) (hard_end t).
Proof.
  intros Hc [Ho Hw [q Hq] Hs]. destruct (reserve_range Hc) as (R1 & R2 & _).
  assert (hard_end t - tl_top t = 8 * (q * MinObjAlignment)) as E by lia.
  set (w := q * MinObjAlignment) in *. pose proof (hard_end_eq t).
  destruct (max_fill_range Hc) as (k & _ & _ & HM & _).
  destruct (ok_align Hc) as (k' & Hk' & HA). destruct (min_fill_range k' HA Hk') as [? _].
  unfold fill_range_with_object. rewrite (words_between_exact _ _ w) by (done || lia).
  destruct (fill_with_object_spec m (tl_top t) w Hc) as (m' & E' & Hb & Ha); [lia|by exists q|].
  exists w, m'. repeat (split; [done|]). by replace (hard_end t) with (tl_top t + 8 * w) by lia.
Qed.

(** Whether the release of a TLAB in [r] enqueues the cards of the region. *)
Definition last_release (r : HeapRegion) : bool :=
  (hr_gen r >? 0) && (hr_active_tlabs r =? 1) && negb (hr_is_gen_alloc_region r).

Lemma del_active_tlab_spec h p r :
  g_regions h !! p = Some r → 0 < hr_active_tlabs r < 2 ^ 31 →
  (last_release r = true → hr_top r = hr_end r ∧
     (∃ bs, region_ok rs h r bs) ∧ ∃ objs, parsable (g_mem h) (hr_bottom r) (hr_end r) objs) →
  let h' := set_region h p (set_active_tlabs r (hr_active_tlabs r - 1)) in
  del_active_tlab rs h p = Some (if last_release r then enqueue_cards h' (region_cards r) else h').
Proof.
  intros Hr Hn Hl h'. unfold del_active_tlab, upd_region. rewrite Hr. cbn [mbind option_bind].
  rewrite i32_small by lia. fold h'.
  assert (g_regions h' !! p = Some (set_active_tlabs r (hr_active_tlabs r - 1))) as Hr' by apply lookup_insert_eq.
  rewrite Hr'. cbn [mbind option_bind hr_gen hr_active_tlabs hr_is_gen_alloc_region set_active_tlabs].
  replace (hr_active_tlabs r - 1 =? 0) with (hr_active_tlabs r =? 1)
    by (destruct (Z.eqb_spec (hr_active_tlabs r) 1), (Z.eqb_spec (hr_active_tlabs r - 1) 0); (done || lia)).
  fold (last_release r). destruct (last_release r) eqn:L; [|done].
  destruct (Hl eq_refl) as (Ht & [bs R] & objs & Hp). unfold enqueue_gen_cards.
  rewrite (bot_update_all_full rs h' p _ bs objs Hr'); try done.
  - cbn [mbind option_bind]. by rewrite Hr'.
  - eapply region_ok_ext; [exact R|done..].
Qed.

(** Retiring a TLAB never faults: the free rest becomes one filler object
    and nothing else in memory changes, the bytes handed out are added to the
    thread, the region counts one TLAB less, and the cards of the region are
    enqueued exactly when the region is retired and this was its last TLAB;
    the TLAB is empty and belongs to no region afterwards. *)
Theorem tlab_retire h bytes t p r :
  config_ok → tlab_ok t → tl_my_heap_region t = p → p ≠ NULL → g_regions h !! p = Some r →
  0 < hr_active_tlabs r < 2 ^ 31 →
  (last_release r = true → hr_top r = hr_end r ∧ (∃ bs, region_ok rs h r bs) ∧
     (∃ objs, parsable (g_mem h) (hr_bottom r) (tl_top t) objs) ∧
     ∃ objs, parsable (g_mem h) (hard_end t) (hr_end r) objs) →
  ∃ h' t' w, make_parsable rs h bytes t true = Some (h', i64 (bytes + (tl_top t - tl_start t)), t') ∧
    tlab_empty t' ∧ tl_my_heap_region t' = NULL ∧ tl_desired_size t' = tl_desired_size t ∧
    hard_end t = tl_top t + 8 * w ∧ block (g_mem h') (tl_top t) w ∧
    agree_out (g_mem h) (g_mem h') (tl_top t) (hard_end t) ∧
    g_regions h' = <[p := set_active_tlabs r (hr_active_tlabs r - 1)]> (g_regions h) ∧
    g_dirty_cards h' = g_dirty_cards h ++ (if last_release r then region_cards r else []) ∧
    g_bot h' = g_bot h ∧ g_free_list h' = g_free_list h ∧ g_old_set h' = g_old_set h.
Proof.
  intros Hc Ht Hp Hpn Hr Hn Hl. destruct (fill_tail (g_mem h) t Hc Ht) as (w & m' & Ew & Em & Hb & Ha).
  pose proof (to_order _ Ht). pose proof (to_wrap _ Ht). pose proof (hard_end_eq t).
  destruct (reserve_range Hc) as (? & _ & ? & _). pose proof array_header_range.
  unfold make_parsable. rewrite (proj2 (Z.eqb_neq (tl_end t) NULL)), Em by (unfold NULL; lia).
  cbn [negb mbind option_bind]. unfold tlab_used_bytes, pointer_delta.
  rewrite Z.div_1_r, u64_small, Hp, (proj2 (Z.eqb_neq p NULL)) by (done || unfold in_u64; lia). cbn [negb].
  rewrite (del_active_tlab_spec (set_mem h m') p r Hr Hn).
  - cbn [mbind option_bind orb]. eexists _, _, w. split; [done|]. repeat (split; [done|]). split; [lia|].
    destruct (last_release r); repeat (split; [done|]); [done|]. cbn. by rewrite app_nil_r.
  - intros L. destruct (Hl L) as (Hfull & [bs R] & [o1 P1] & o2 & P2). split; [done|]. split.
    + exists bs. eapply region_ok_ext; [exact R|done..].
    + exists (o1 ++ [tl_top t] ++ o2). cbn [g_mem set_mem]. apply parsable_app with (tl_top t).
      { eapply parsable_frame; [exact P1|]. eapply agree_out_on; [exact Ha|lia]. }
      apply parsable_app with (hard_end t).
      { eapply parsable_single; [exact Hb|]. unfold hw_add, HeapWordSize. lia. }
      eapply parsable_frame; [exact P2|]. eapply agree_out_on; [exact Ha|lia].
Qed.

(** ** The size of a new TLAB *)

Record flags_ok : Prop := {
  fo_threshold : 0 <= _humongous_object_threshold_in_words <= 2 ^ 22;
  fo_reserve : reserve_for_allocation_prefetch <= 2 ^ 16
}.

Lemma align_object_size_range s :
  config_ok → s <= align_object_size s < s + 32 ∧ (MinObjAlignment | align_object_size s).
Proof.
  intros Hc. destruct (ok_align Hc) as (k & Hk & HA). unfold align_object_size. rewrite HA.
  destruct (align_size_up_bounds s k) as [B D]; [lia|].
  assert (2 ^ k <= 2 ^ 5) by (apply Z.pow_le_mono_r; lia). split; [lia|done].
Qed.

Lemma reserve_bounds : config_ok → flags_ok → 2 <= alignment_reserve <= 2 ^ 16 + 32.
Proof.
  intros Hc Hf. destruct (reserve_range Hc) as (_ & _ & ? & ?). pose proof array_header_range.
  pose proof (fo_reserve Hf). unfold end_reserve in *. lia.
Qed.

Lemma compute_size_spec t available size :
  config_ok → flags_ok → 0 <= size < 2 ^ 40 → 0 <= tl_desired_size t < 2 ^ 40 →
  compute_size t available size ≠ 0 →
  align_object_size size + alignment_reserve <= compute_size t available size <= available / 8.
Proof.
  intros Hc Hf Hs Hd. pose proof (align_object_size_range size Hc) as [? _]. pose proof (reserve_bounds Hc Hf).
  unfold compute_size, HeapWordSize. rewrite !u64_small by (unfold in_u64; lia).
  destruct (Z.ltb_spec (Z.min (available / 8) (tl_desired_size t + align_object_size size))
    (align_object_size size + alignment_reserve)); [done|]. lia.
Qed.

Lemma unsafe_max_bound h hr available :
  flags_ok → unsafe_max_tlab_alloc h hr = Some available → available / 8 <= _humongous_object_threshold_in_words.
Proof.
  intros Hf. unfold unsafe_max_tlab_alloc. destruct (hr =? NULL).
  - intros [= <-]. rewrite Z.div_mul by done. lia.
  - destruct (g_regions h !! hr) as [r|]; [|done]. intros [= <-].
    apply Z.div_le_upper_bound; [done|]. lia.
Qed.

(** A TLAB just filled. *)
Lemma fill_tlab_ok t start size new :
  config_ok → flags_ok → 0 < start → start + 8 * new < 2 ^ 63 → 0 <= size →
  (MinObjAlignment | size) → (MinObjAlignment | new) →
  size + alignment_reserve <= new <= _humongous_object_threshold_in_words →
  let t' := fill t start (hw_add start size) new in
  tlab_ok t' ∧ tl_start t' = start ∧ tl_top t' = start + 8 * size ∧ hard_end t' = start + 8 * new.
Proof.
  intros Hc Hf Hst Hw Hs [q1 D1] [q2 D2] Hn t'. destruct (max_fill_range Hc) as (_ & _ & _ & HM & _).
  pose proof (fo_threshold Hf). pose proof (reserve_bounds Hc Hf).
  assert (hard_end t' = start + 8 * new) as He by (unfold t', hard_end, fill, hw_add, HeapWordSize; cbn; lia).
  assert (tl_top t' = start + 8 * size) as Ht by (unfold t', fill, hw_add, HeapWordSize; cbn; lia).
  repeat split; try done; rewrite ?He, ?Ht; unfold t', fill, hw_add, HeapWordSize; cbn; try lia.
  exists (q2 - q1). lia.
Qed.

(** What the size of a new TLAB is computed from is object-aligned. *)
Record sizes_aligned (h : G1Heap) (hr : Z) (t : ThreadLocalAllocBuffer) : Prop := mkSizesAligned {
  sa_desired : (MinObjAlignment | tl_desired_size t);
  sa_threshold : (MinObjAlignment | _humongous_object_threshold_in_words);
  sa_min : (HeapWordSize * MinObjAlignment | MinTLABSize);
  sa_free : ∀ r, g_regions h !! hr = Some r → (HeapWordSize * MinObjAlignment | free r)
}.

Lemma divide_min a b c : (c | a) → (c | b) → (c | Z.min a b).
Proof. intros. by destruct (Z.min_spec a b) as [[_ ->]|[_ ->]]. Qed.
Lemma divide_max a b c : (c | a) → (c | b) → (c | Z.max a b).
Proof. intros. by destruct (Z.max_spec a b) as [[_ ->]|[_ ->]]. Qed.

Lemma available_aligned h hr t available :
  sizes_aligned h hr t → unsafe_max_tlab_alloc h hr = Some available → (MinObjAlignment | available / HeapWordSize).
Proof.
  intros [_ H2 H3 H4]. assert (Hx : (HeapWordSize * MinObjAlignment | _humongous_object_threshold_in_words * 8)) by (rewrite (Z.mul_comm _ 8); by apply Z.mul_divide_mono_l).
  intros E. assert (Hd : (HeapWordSize * MinObjAlignment | available)).
  { unfold unsafe_max_tlab_alloc in E. destruct (hr =? NULL); [by injection E as <-|]. destruct (g_regions h !! hr) as [r|] eqn:Er; [|done]. injection E as <-.
    apply divide_min; [|done]. apply divide_max; [by apply H4|done]. }
  destruct Hd as [q ->]. exists q. unfold HeapWordSize. replace (q * (8 * MinObjAlignment)) with (q * MinObjAlignment * 8) by lia. by rewrite Z.div_mul.
Qed.

(** C23: The size chosen for a new TLAB is 0 exactly when the smaller of what
    the heap has available and of the desired size with the object does not
    hold the object and the reserve. Otherwise it holds both, is at most what
    is available, never humongous, and object-aligned when the sizes it is
    computed from are; and the TLAB made from a block of this size is well
    formed, starts behind the object, and whatever is left of it can be closed
    by one filler object, also with the largest regions and alignment. *)
Theorem tlab_size_bounds h hr t available size :
  config_ok → flags_ok → 0 <= size < 2 ^ 40 → 0 <= tl_desired_size t < 2 ^ 40 → (MinObjAlignment | size) →
  sizes_aligned h hr t → unsafe_max_tlab_alloc h hr = Some available →
  let new := compute_size t available size in
  let needed := align_object_size size + alignment_reserve in
  (new = 0 ↔ Z.min (available / HeapWordSize) (tl_desired_size t + align_object_size size) < needed) ∧
  (new ≠ 0 → needed <= new <= available / HeapWordSize ∧ new <= _humongous_object_threshold_in_words ∧ (MinObjAlignment | new) ∧
    ∀ start, 0 < start → start + 8 * new < 2 ^ 63 →
      let t' := fill t start (hw_add start size) new in
      tlab_ok t' ∧ tl_top t' = start + 8 * size ∧ hard_end t' = start + 8 * new ∧
      ∀ m, ∃ m', fill_range_with_object m (tl_top t') (hard_end t') = Some m' ∧
        parsable m' (tl_top t') (hard_end t') [tl_top t']).
Proof.
  intros Hc Hf Hs Hd Ha Hal Hav new needed. pose proof (align_object_size_range size Hc) as [Hsz Hasz]. pose proof (reserve_bounds Hc Hf).
  assert (Enew : new = if Z.min (available / HeapWordSize) (tl_desired_size t + align_object_size size) <? needed then 0
    else Z.min (available / HeapWordSize) (tl_desired_size t + align_object_size size)).
  { unfold new, compute_size. by rewrite !u64_small by (unfold in_u64; lia). }
  split; [rewrite Enew; destruct (Z.ltb_spec (Z.min (available / HeapWordSize) (tl_desired_size t + align_object_size size)) needed); unfold needed in *; lia|].
  intros Hn. pose proof (compute_size_spec t available size Hc Hf Hs Hd Hn) as Hb. fold new in Hb. pose proof (unsafe_max_bound _ _ _ Hf Hav).
  assert (Hdiv : (MinObjAlignment | new)).
  { rewrite Enew. destruct (_ <? needed); [apply Z.divide_0_r|]. apply divide_min; [by apply (available_aligned h hr t)|]. apply Z.divide_add_r; [apply Hal|done]. }
  split_and!; [unfold needed; lia|unfold HeapWordSize; lia|lia|done|]. intros start Hst Hw t'.
  destruct (fill_tlab_ok t start size new) as (Hok & _ & Ht & He); try done; try lia. fold t' in Hok, Ht, He.
  repeat (split; [done|]). intros m. destruct (fill_tail m t' Hc Hok) as (w & m' & Ew & Em & Hb' & _).
  exists m'. split; [done|]. eapply parsable_single; [exact Hb'|]. unfold hw_add, HeapWordSize. lia.
Qed.

(** ** The TLABs of a thread are well formed at all times *)

Definition tlab_valid (t : ThreadLocalAllocBuffer) : Prop := tlab_empty t ∨ tlab_ok t.

Record thread_ok (th : Thread) : Prop := {
  tho_tlabs : length (th_tlabs th) = 16%nat;
  tho_valid : Forall tlab_valid (th_tlabs th);
  tho_gen : 0 <= th_genTlab th < 16;
  tho_cur : 0 <= th_curTlab th < 16
}.

(** What a thread does with its TLABs. The address and size of a refill are
    what the heap grants: aligned, not humongous, with room for the object. *)
Inductive thread_step : G1Heap * Thread → G1Heap * Thread → Prop :=
  | ts_allocate h th i t size :
      tlab_at th i = Some t → 0 <= size < 2 ^ 40 → (MinObjAlignment | size) →
      thread_step (h, th) (h, put_tlab th i (tlab_allocate t size).2)
  | ts_record_slow_allocation h th i t :
      tlab_at th i = Some t → thread_step (h, th) (h, put_tlab th i (record_slow_allocation t))
  | ts_clear_before_allocation h th i t h' bytes t' :
      tlab_at th i = Some t → clear_before_allocation rs h (th_allocated_bytes th) t = Some (h', bytes, t') →
      thread_step (h, th) (h', set_allocated_bytes (put_tlab th i t') bytes)
  | ts_fill h th i t start size new :
      tlab_at th i = Some t → 0 < start → start + 8 * new < 2 ^ 63 → 0 <= size →
      (MinObjAlignment | size) → (MinObjAlignment | new) →
      size + alignment_reserve <= new <= _humongous_object_threshold_in_words →
      thread_step (h, th) (h, put_tlab th i (fill t start (hw_add start size) new))
  | ts_make_parsable h th retire h' th' :
      make_thread_parsable rs h th retire = Some (h', th') → thread_step (h, th) (h', th')
  | ts_initialize h th nof_threads : thread_step (h, th) (h, initialize_gen_tlabs nof_threads th)
  | ts_set_alloc_gen h th gen th' : thread_set_alloc_gen th gen = Some th' → thread_step (h, th) (h, th')
  | ts_set_cur_tlab h th gen_alloc : thread_step (h, th) (h, set_cur_tlab th gen_alloc).

Lemma tlab_valid_ext t t' :
  tl_start t' = tl_start t → tl_top t' = tl_top t → tl_end t' = tl_end t → tlab_valid t → tlab_valid t'.
Proof.
  intros E1 E2 E3 [(? & ? & ?)|[H1 H2 H3 H4]]; [left; unfold tlab_empty; by rewrite E1, E2, E3|].
  right. split; unfold hard_end in *; by rewrite ?E1, ?E2, ?E3.
Qed.

(** An allocation stays inside the TLAB, whatever is left of it. *)
Lemma tlab_allocate_valid t size :
  config_ok → tlab_valid t → 0 <= size < 2 ^ 40 → (MinObjAlignment | size) →
  let '(obj, t') := tlab_allocate t size in
  tlab_valid t' ∧ (obj ≠ NULL → tl_start t <= obj ∧ obj + 8 * size <= tl_end t ∧ tl_top t' = obj + 8 * size).
Proof.
  intros Hc Hv Hs Hd. unfold tlab_allocate. destruct (Z.geb_spec (words_between (tl_end t) (tl_top t)) size) as [Hge|];
    [|by split].
  destruct Hv as [(E1 & E2 & E3)|Ht].
  - rewrite E2, E3 in Hge. change (words_between NULL NULL) with 0 in Hge. assert (size = 0) as -> by lia.
    split; [|by rewrite E2]. left. unfold tlab_empty. cbn. by rewrite E1, E2, E3.
  - pose proof (to_order _ Ht). pose proof (to_wrap _ Ht). pose proof (hard_end_eq t).
    destruct (reserve_range Hc) as (_ & _ & ? & _). pose proof array_header_range.
    unfold words_between, pointer_delta, HeapWordSize in Hge. rewrite u64_small in Hge by (unfold in_u64; lia).
    assert (8 * size <= tl_end t - tl_top t) by (Z.to_euclidean_division_equations; lia).
    assert (Htop : tl_top (set_tlab_top t (hw_add (tl_top t) size)) = tl_top t + 8 * size)
      by (cbn; unfold hw_add, HeapWordSize; lia).
    split; [|rewrite Htop; lia]. right. split; rewrite ?Htop; try apply Ht; [cbn; lia|].
    destruct (to_align _ Ht) as [q Hq], Hd as [q' Hq']. exists (q - q').
    change (hard_end (set_tlab_top t _)) with (hard_end t). lia.
Qed.

Lemma make_parsable_valid h bytes t retire h' bytes' t' :
  tlab_valid t → make_parsable rs h bytes t retire = Some (h', bytes', t') →
  tlab_valid t' ∧ (retire = true → tlab_empty t').
Proof.
  intros Hv. unfold make_parsable. destruct (Z.eqb_spec (tl_end t) NULL) as [E|E]; cbn [negb].
  - intros [= <- <- <-]. split; [done|]. intros _. destruct Hv as [?|Ht]; [done|].
    pose proof (to_order _ Ht). unfold NULL in E. lia.
  - destruct (fill_range_with_object _ _ _) as [m|]; [|done]. cbn [mbind option_bind].
    assert (He : ∀ u, tlab_empty (initialize_range u NULL NULL NULL)) by done.
    destruct retire; cbn [orb].
    + destruct (tl_my_heap_region t =? NULL); cbn [negb]; [|destruct (del_active_tlab _ _ _); [|done]];
        intros [= <- <- <-]; by split; [left|].
    + intros [= <- <- <-]. split; [|done]. destruct ZeroTLAB; [by left|done].
Qed.

Lemma make_tlabs_loop_valid h bytes l retire h' bytes' l' :
  Forall tlab_valid l → make_tlabs_loop rs h bytes l retire = Some (h', bytes', l') →
  length l' = length l ∧ Forall tlab_valid l' ∧ (retire = true → Forall tlab_empty l').
Proof.
  intros Hl. revert h bytes h' bytes' l'. induction Hl as [|t l Ht _ IH]; intros h bytes h' bytes' l'; cbn.
  { by intros [= <- <- <-]. }
  destruct (make_parsable rs h bytes t retire) as [[[h1 b1] t1]|] eqn:E1; [|done]. cbn [mbind option_bind].
  destruct (make_tlabs_loop rs h1 b1 l retire) as [[[h2 b2] l2]|] eqn:E2; [|done]. intros [= <- <- <-].
  destruct (make_parsable_valid _ _ _ _ _ _ _ Ht E1) as [? ?], (IH _ _ _ _ _ E2) as (? & ? & ?).
  cbn. split_and!; [lia|by constructor|]. intros ->. constructor; auto.
Qed.

Lemma put_tlab_ok th i t t' : thread_ok th → tlab_at th i = Some t → tlab_valid t' → thread_ok (put_tlab th i t').
Proof. intros [? ? ? ?] _ Hv. split; try done; cbn; [by rewrite length_insert|by apply Forall_insert]. Qed.

Lemma tlab_at_valid th i t : thread_ok th → tlab_at th i = Some t → tlab_valid t.
Proof.
  intros [_ Hv _ _]. unfold tlab_at. destruct (i <? 0); [done|]. intros E. by eapply Forall_lookup_1.
Qed.

Lemma make_thread_parsable_ok h th retire h' th' :
  thread_ok th → make_thread_parsable rs h th retire = Some (h', th') →
  thread_ok th' ∧ (retire = true → Forall tlab_empty (th_tlabs th')).
Proof.
  destruct th as [tlabs gen gt ct bytes c]. intros [Hl Hv Hg Hc].
  cbn [th_tlabs th_genTlab th_curTlab] in *. destruct tlabs as [|t0 l]; [done|].
  apply Forall_cons in Hv as [Hv0 Hv]. unfold make_thread_parsable.
  change (tlab_at _ 0) with (Some t0). cbn [mbind option_bind th_allocated_bytes].
  destruct (make_parsable rs h bytes t0 retire) as [[[h1 b1] t1]|] eqn:E1; [|done]. cbn [mbind option_bind].
  unfold make_gen_tlabs_parsable. change (th_tlabs (set_allocated_bytes _ b1)) with (t1 :: l). cbn [th_allocated_bytes].
  change (th_allocated_bytes (set_allocated_bytes _ b1)) with b1.
  destruct (make_tlabs_loop rs h1 b1 l retire) as [[[h2 b2] l2]|] eqn:E2; [|done]. intros [= <- <-].
  destruct (make_parsable_valid _ _ _ _ _ _ _ Hv0 E1) as [? ?].
  destruct (make_tlabs_loop_valid _ _ _ _ _ _ _ Hv E2) as (Hl2 & ? & ?). cbn in Hl.
  split; [split; cbn; [lia|by constructor|done|done]|]. intros ->. constructor; auto.
Qed.

Lemma thread_step_ok h th h' th' :
  config_ok → flags_ok → thread_ok th → thread_step (h, th) (h', th') → thread_ok th'.
Proof.
  intros Hc Hf Hth Hs. inversion Hs as [h0 th0 i t size Hi H1 H2|h0 th0 i t Hi|h0 th0 i t h1 b t' Hi Hcl
    |h0 th0 i t start size new Hi|h0 th0 retire h1 th1 Hm|h0 th0 n|h0 th0 gen th1 Hg|h0 th0 g]; subst.
  - eapply put_tlab_ok; [done..|]. pose proof (tlab_allocate_valid t size Hc (tlab_at_valid _ _ _ Hth Hi) H1 H2) as Ha.
    destruct (tlab_allocate t size). apply Ha.
  - eapply put_tlab_ok; [done..|]. by apply (tlab_valid_ext t), (tlab_at_valid th i).
  - destruct (put_tlab_ok th i t t' Hth Hi); [|by split].
    eapply make_parsable_valid; [|exact Hcl]. by apply (tlab_valid_ext t), (tlab_at_valid th i).
  - eapply put_tlab_ok; [done..|]. right. by apply (fill_tlab_ok t start size new).
  - by eapply make_thread_parsable_ok.
  - destruct Hth as [Hl Hv Hg Hcu]. unfold initialize_gen_tlabs. destruct (th_tlabs th) as [|t0 l] eqn:E; [done|].
    apply Forall_cons in Hv as [Hv0 _]. split; cbn; [by rewrite length_fmap| |done|done].
    constructor; [done|]. apply Forall_fmap, Forall_true. intros t. by left.
  - unfold thread_set_alloc_gen in Hg. destruct (tlab_at th gen) as [t|] eqn:E; [|done]. injection Hg as <-.
    destruct Hth as [Hl Hv Hg Hcu]. split; cbn; try done. unfold tlab_at in E.
    destruct (Z.ltb_spec gen 0); [done|]. apply lookup_lt_Some in E. lia.
  - destruct Hth as [Hl Hv Hg Hcu]. split; cbn; try done. destruct g; lia.
Qed.

Lemma threads_stay_ok h th h' th' :
  config_ok → flags_ok → thread_ok th → rtc thread_step (h, th) (h', th') → thread_ok th'.
Proof.
  intros Hc Hf Hth Hr. remember (h, th) as x eqn:Ex. remember (h', th') as y eqn:Ey.
  revert h th Ex Hth. induction Hr as [x|x [h1 th1] y Hs _ IH]; intros h th -> Hth; [by simplify_eq|].
  eapply IH; [done..|]. by eapply thread_step_ok.
Qed.

(** C22: The TLABs of a thread are well typed at all times. After any sequence
    of allocations, refills, retirements, initializations and changes of the
    generation, each of its 16 TLABs is empty or an ordered, aligned buffer;
    an allocation in it stays inside; the rest of a buffer can be closed by
    one filler object; and retiring the TLABs of the thread leaves all of
    them empty. *)
Theorem thread_tlabs_typed h th h' th' i t size :
  config_ok → flags_ok → thread_ok th → rtc thread_step (h, th) (h', th') → tlab_at th' i = Some t →
  0 <= size < 2 ^ 40 → (MinObjAlignment | size) →
  thread_ok th' ∧ 0 <= i < 16 ∧
  (tlab_empty t ∨ tlab_ok t ∧ ∀ m, ∃ w m', hard_end t = tl_top t + 8 * w ∧
     fill_range_with_object m (tl_top t) (hard_end t) = Some m' ∧ block m' (tl_top t) w) ∧
  (let '(obj, t') := tlab_allocate t size in
   tlab_valid t' ∧ (obj ≠ NULL → tl_start t <= obj ∧ obj + 8 * size <= tl_end t ∧ tl_top t' = obj + 8 * size)) ∧
  (∀ h'' th'', make_thread_parsable rs h' th' true = Some (h'', th'') →
     thread_ok th'' ∧ Forall tlab_empty (th_tlabs th'')).
Proof.
  intros Hc Hf Hth Hr Hi Hs Hd. pose proof (threads_stay_ok h th h' th' Hc Hf Hth Hr) as Hth'.
  pose proof (tlab_at_valid _ _ _ Hth' Hi) as Hv. split_and!.
  - done.
  - unfold tlab_at in Hi. destruct (Z.ltb_spec i 0); [done|lia].
  - unfold tlab_at in Hi. destruct (Z.ltb_spec i 0); [done|]. apply lookup_lt_Some in Hi. rewrite (tho_tlabs _ Hth') in Hi. lia.
  - destruct Hv as [?|Ht]; [by left|right]. split; [done|]. intros m.
    destruct (fill_tail m t Hc Ht) as (w & m' & ? & ? & ? & _). exists w, m'. split_and!; [lia|done|done].
  - by apply tlab_allocate_valid.
  - intros h'' th'' E. destruct (make_thread_parsable_ok _ _ _ _ _ Hth' E) as [? He]. split; [done|]. by apply He.
Qed.

End facts.
End TlabFacts.

(** * Handing over the cards of a retired region

    The region of a generation is retired by one thread while others hold
    TLABs in it. [retire_region] clears [_is_gen_alloc_region] and then reads
    [_active_tlabs]; [del_active_tlab] decrements [_active_tlabs] with an
    atomic instruction and then reads it again and [_is_gen_alloc_region].
    Each access is a step. With [tso] the store of the flag sits in the store
    buffer of the retiring thread until it is flushed, as on x86; without it
    the store is visible at once. *)
Module CardHandoff.

(** The threads that use the region. A TLAB is allocated first
    ([allocate_new_gen_tlab]) and registered later ([register_tlab]). *)
Inductive tlab_pc :=
  | Idle              (* holds no TLAB in the region *)
  | Unregistered      (* has allocated a TLAB *)
  | Held              (* has registered it *)
  | Released          (* has decremented the count *)
  | SawNone.          (* has read a count of zero *)

#[global] Instance tlab_pc_eq_dec : EqDecision tlab_pc.
Proof. solve_decision. Defined.

Inductive retire_pc := Active | Stored | Retired.

Record state := mkState {
  s_flag : bool;                 (* _is_gen_alloc_region, in memory *)
  s_buffered : bool;             (* its store waits in the store buffer *)
  s_count : Z;                   (* _active_tlabs *)
  s_enqueued : nat;              (* how often the cards were enqueued *)
  s_retire : retire_pc;
  s_tlabs : list tlab_pc
}.

Section steps.
Variable tso : bool.

Inductive step : state → state → Prop :=
  | step_allocate i f b n e l :
      l !! i = Some Idle →
      step (mkState f b n e Active l) (mkState f b n e Active (<[i := Unregistered]> l))
  | step_register i f b n e rp l :
      l !! i = Some Unregistered →
      step (mkState f b n e rp l) (mkState f b (n + 1) e rp (<[i := Held]> l))
  | step_decrement i f b n e rp l :
      l !! i = Some Held →
      step (mkState f b n e rp l) (mkState f b (n - 1) e rp (<[i := Released]> l))
  | step_read_count i f b n e rp l :
      l !! i = Some Released →
      step (mkState f b n e rp l) (mkState f b n e rp (<[i := if n =? 0 then SawNone else Idle]> l))
  | step_read_flag i f b n e rp l :
      l !! i = Some SawNone →
      step (mkState f b n e rp l) (mkState f b n (if f then e else S e) rp (<[i := Idle]> l))
  | step_store_flag f b n e l :
      step (mkState f b n e Active l)
           (if tso then mkState f true n e Stored l else mkState false b n e Stored l)
  | step_flush f n e rp l :
      step (mkState f true n e rp l) (mkState false false n e rp l)
  | step_retire_read f b n e l :
      step (mkState f b n e Stored l) (mkState f b n (if n =? 0 then S e else e) Retired l).

End steps.

Definition initial (threads : nat) : state := mkState true false 0 0 Active (replicate threads Idle).

(** Nothing is left to do. *)
Definition finished (s : state) : Prop :=
  s_retire s = Retired ∧ s_buffered s = false ∧ Forall (.= Idle) (s_tlabs s).

Definition held (p : tlab_pc) : Z := match p with Held => 1 | _ => 0 end.

Lemma sum_held_pos l : 0 <= sum_by held l ∧ (sum_by held l ≠ 0 → ∃ i, l !! i = Some Held).
Proof.
  induction l as [|p l [IH1 IH2]]; [done|]. cbn [sum_by]. split; [destruct p; cbn; lia|].
  intros Hn. destruct (decide (p = Held)) as [->|Hp]; [by exists O|].
  destruct IH2 as [i Hi]; [destruct p; cbn in *; (done || lia)|]. by exists (S i).
Qed.

(** ** Memory that is visible at once *)

(** Someone who still has to look at the flag. *)
Definition pending (l : list tlab_pc) : Prop := ∃ i p, l !! i = Some p ∧ p ≠ Idle.

Record inv (s : state) : Prop := {
  inv_count : s_count s = sum_by held (s_tlabs s);
  inv_buffer : s_buffered s = false;
  inv_flag : s_flag s = true → s_retire s = Active;
  inv_pending : s_retire s = Retired → s_enqueued s = O → pending (s_tlabs s)
}.

Lemma pending_insert l i a p :
  l !! i = Some a → p ≠ Idle → pending (<[i := p]> l).
Proof. intros Hi Hp. exists i, p. by rewrite list_lookup_insert_eq by by eapply lookup_lt_Some. Qed.

Lemma handoff_step s s' : inv s → step false s s' → inv s'.
Proof.
  intros [Hn Hb Hf Hp] Hst.
  destruct Hst as [i f b n e l Hi|i f b n e rp l Hi|i f b n e rp l Hi|i f b n e rp l Hi|i f b n e rp l Hi
    |f b n e l|f n e rp l|f b n e l]; cbn in *; try done;
    (split; cbn; [try (rewrite (sum_by_insert _ _ _ _ _ Hi); cbn; lia); try done|done|try done|]);
    try (intros; by eapply pending_insert).
  - destruct (n =? 0); rewrite (sum_by_insert _ _ _ _ _ Hi); cbn; lia.
  - intros. destruct (Z.eqb_spec n 0) as [|Hnz]; [by eapply pending_insert|].
    destruct (proj2 (sum_held_pos l)) as [j Hj]; [by rewrite <- Hn|].
    exists j, Held. split; [|done]. rewrite list_lookup_insert_ne; [done|]. intros ->. congruence.
  - intros ->. destruct f; [|done]. by discriminate Hf.
  - intros E. by discriminate (Hf E).
  - intros _. destruct (Z.eqb_spec n 0); [intros; discriminate|]. intros _.
    destruct (proj2 (sum_held_pos l)) as [j Hj]; [by rewrite <- Hn|]. by exists j, Held.
Qed.

Lemma handoff_initial threads : inv (initial threads).
Proof.
  split; cbn; try done. induction threads; [done|]. by cbn.
Qed.

Lemma handoff_reachable threads s : rtc (step false) (initial threads) s → inv s.
Proof.
  intros Hr. remember (initial threads) as s0 eqn:E. assert (inv s0) as Hi by (subst; apply handoff_initial).
  clear E. induction Hr as [|s0 s1 s Hst Hr IH]; [done|]. eauto using handoff_step.
Qed.

(** ** Progress *)

Definition pc_work (p : tlab_pc) : Z :=
  match p with Idle => 0 | Unregistered => 4 | Held => 3 | Released => 2 | SawNone => 1 end.
Definition work (s : state) : Z :=
  sum_by pc_work (s_tlabs s) +
  match s_retire s with Active => 2 | Stored => 1 | Retired => 0 end + (if s_buffered s then 1 else 0).

Lemma work_nonneg s : 0 <= work s.
Proof.
  unfold work. assert (0 <= sum_by pc_work (s_tlabs s)).
  { induction (s_tlabs s) as [|p l IH]; [done|]. cbn. destruct p; cbn; lia. }
  destruct (s_retire s), (s_buffered s); lia.
Qed.

Lemma step_retired tso s s' : step tso s s' → s_retire s ≠ Active → s_retire s' ≠ Active.
Proof. by intros []. Qed.

Lemma work_decreases tso s s' : s_retire s ≠ Active → step tso s s' → work s' < work s.
Proof.
  unfold work. intros Hr Hst.
  destruct Hst as [i f b n e l Hi|i f b n e rp l Hi|i f b n e rp l Hi|i f b n e rp l Hi|i f b n e rp l Hi
    |f b n e l|f n e rp l|f b n e l]; cbn in *; try done; try lia;
    rewrite (sum_by_insert _ _ _ _ _ Hi); cbn; try lia.
  destruct (n =? 0); cbn; lia.
Qed.

Lemma stuck_finished tso s : s_retire s ≠ Active → (∀ s', ¬ step tso s s') → finished s.
Proof.
  destruct s as [f b n e rp l]. cbn. intros Hr Hstuck. repeat split; cbn.
  - destruct rp; [done| |done]. exfalso. eapply Hstuck. apply step_retire_read.
  - destruct b; [|done]. exfalso. eapply Hstuck. apply step_flush.
  - apply Forall_lookup_2. intros i p Hi. destruct p; [done|exfalso; eapply Hstuck..].
    + by eapply step_register.
    + by eapply step_decrement.
    + by eapply step_read_count.
    + by eapply step_read_flag.
Qed.

Lemma finished_enqueued s : inv s → finished s → s_enqueued s ≠ O.
Proof.
  intros [_ _ _ Hp] (Hr & _ & Hl) He. destruct (Hp Hr He) as (i & p & Hi & Hn).
  rewrite Forall_lookup in Hl. by apply Hl in Hi.
Qed.

(** C30: Once the retirement of a region has begun, every run of the threads
    that use it comes to an end, and at the end the cards of the region have
    been enqueued, in whatever order the retiring thread and the threads
    that release TLABs were scheduled, TLABs registered late included. *)
Theorem cards_eventually_enqueued threads s :
  rtc (step false) (initial threads) s → s_retire s ≠ Active →
  Acc (λ s2 s1, step false s1 s2) s ∧
  ∀ s', rtc (step false) s s' → (∀ s'', ¬ step false s' s'') → finished s' ∧ s_enqueued s' ≠ O.
Proof.
  intros Hr Ha. split.
  - assert (∃ k, work s < Z.of_nat k) as [k Hk] by (exists (S (Z.to_nat (work s))); lia).
    clear Hr. revert s Ha Hk. induction k as [|k IH]; intros s Ha Hk; [pose proof (work_nonneg s); lia|].
    constructor. intros s' Hst. apply IH; [by eapply step_retired|].
    pose proof (work_decreases _ _ _ Ha Hst). lia.
  - intros s' Hs' Hstuck. assert (s_retire s' ≠ Active) as Ha'.
    { clear Hr Hstuck. induction Hs' as [|s1 s2 s3 Hst Hs' IH]; [done|]. apply IH. by eapply step_retired. }
    pose proof (stuck_finished _ _ Ha' Hstuck). split; [done|].
    apply finished_enqueued; [|done]. apply (handoff_reachable threads). by etrans.
Qed.

Lemma cards_eventually_enqueued_witness :
  let s := mkState false false 0 0 Stored [Idle] in
  Acc (λ s2 s1, step false s1 s2) s ∧
  ∀ s', rtc (step false) s s' → (∀ s'', ¬ step false s' s'') → finished s' ∧ s_enqueued s' ≠ O.
Proof.
  apply (cards_eventually_enqueued 1); [|done].
  eapply rtc_l; [apply (step_store_flag false true false 0 0 [Idle])|]. apply rtc_refl.
Defined.

(** ** What the protocol does not give *)

Ltac run_step R := eapply rtc_l; [eapply R; reflexivity|cbn].

(** The protocol is not safe as it is: a TLAB can be in use while the
    cards are enqueued, even if every TLAB was registered before the
    retirement began; and with the store of the flag in a store buffer the
    retiring thread and the thread that releases the last TLAB can miss each
    other, so that the cards are never enqueued. *)
Theorem card_handoff_races :
  (∃ s s', rtc (step false) (initial 2) s ∧ step false s s' ∧ (Unregistered ∉ s_tlabs s) ∧
     s_enqueued s' = S (s_enqueued s) ∧ Held ∈ s_tlabs s) ∧
  (∃ s, rtc (step true) (initial 1) s ∧ finished s ∧ s_enqueued s = O).
Proof.
  split.
  - eexists _, _. split; [|split; [|split; [|split]]].
    + run_step (step_allocate false 0%nat). run_step (step_register false 0%nat).
      run_step (step_decrement false 0%nat). run_step (step_read_count false 0%nat).
      run_step (step_allocate false 1%nat). run_step (step_register false 1%nat).
      eapply rtc_l; [apply step_store_flag|]. apply rtc_refl.
    + apply (step_read_flag false 0%nat). reflexivity.
    + cbn. by rewrite !not_elem_of_cons; repeat split; try apply not_elem_of_nil.
    + reflexivity.
    + cbn. right. left.
  - eexists. split; [|split].
    + run_step (step_allocate true 0%nat). run_step (step_register true 0%nat).
      eapply rtc_l; [apply step_store_flag|cbn]. eapply rtc_l; [apply step_retire_read|cbn].
      run_step (step_decrement true 0%nat). run_step (step_read_count true 0%nat).
      run_step (step_read_flag true 0%nat). eapply rtc_l; [apply step_flush|]. apply rtc_refl.
    + repeat split; cbn. by repeat constructor.
    + reflexivity.
Qed.

End CardHandoff.

(** * A concrete heap *)

Module TlabDemo.
Import AllocRegion JavaHeapFacts BlockOffsetFacts RegionFacts RegionDemo Tlab TlabFacts.

#[local] Existing Instance demo_config.

Definition demo_flags : TlabFlags := mkTlabFlags false 2048 0 64 4 1 0 1024 64.
#[local] Existing Instance demo_flags.

Lemma demo_flags_ok : flags_ok.
Proof. by split. Qed.

(** A TLAB over the words 40 to 100 of region A, 20 of them used. *)
Definition demo_tlab : ThreadLocalAllocBuffer :=
  mkTLAB 0x100140 0x1001E0 0x1001E0 0x100310 60 0 1 0 0 0 0 0xA0.

Definition demo_retired (m : memory) : G1Heap := set_region (full_heap m) 0xA0 (set_active_tlabs full_A 1).

Lemma demo_tlab_ok : tlab_ok demo_tlab.
Proof. split; [done|done|by exists 40|by vm_compute]. Qed.

Lemma demo_tiles ws : Forall (λ w, min_fill_size <= w <= 100) ws →
  Forall (λ w, min_fill_size <= w <= filler_array_max_size ∧ (MinObjAlignment | w)) ws.
Proof.
  intros H. eapply Forall_impl; [exact H|]. intros w Hw. cbn in Hw. split; [|apply Z.divide_1_l].
  split; [apply Hw|]. etrans; [apply Hw|by vm_compute].
Qed.

(** The last TLAB of a retired region: its release enqueues the cards. *)
Lemma tlab_retire_witness :
  ∃ m h' t' w, make_parsable 0x100000 (demo_retired m) 7 demo_tlab true = Some (h', 167, t') ∧
    tlab_empty t' ∧ block (g_mem h') 0x1001E0 w ∧ g_dirty_cards h' = region_cards full_A.
Proof.
  destruct (tile_parsable ∅ 0x100000 [40; 20] demo_config_ok) as (m1 & _ & P1 & _).
  { apply demo_tiles. by repeat constructor. }
  destruct (tile_parsable m1 0x100320 [28] demo_config_ok) as (m2 & _ & P2 & O2).
  { apply demo_tiles. by repeat constructor. }
  exists m2. destruct (tlab_retire 0x100000 (demo_retired m2) 7 demo_tlab 0xA0 (set_active_tlabs full_A 1)
    demo_config_ok demo_tlab_ok) as (h' & t' & w & E & Ht & _ & _ & _ & Hb & _ & _ & Hd & _); try done.
  - intros _. split; [done|]. split; [|split].
    + exists (starts_of 0x100000 [40; 60; 28]).
      eapply region_ok_ext; [apply (full_A_ok m2)|done..].
    + exists (starts_of 0x100000 [40; 20]). eapply parsable_frame; [exact P1|].
      eapply agree_out_on; [exact O2|]. left. by vm_compute.
    + eexists. exact P2.
  - exists h', t', w. repeat (split; [done|]). exact Hd.
Defined.

Lemma tlab_size_bounds_witness :
  let t := setHeapRegion demo_tlab NULL in
  let new := compute_size t 512 10 in
  let t' := fill t 0x100000 (hw_add 0x100000 10) new in
  (10 + alignment_reserve <= new <= 64) ∧ tlab_ok t' ∧ tl_top t' = 0x100000 + 8 * 10 ∧
  hard_end t' = 0x100000 + 8 * new ∧
  ∀ m, ∃ m', fill_range_with_object m (tl_top t') (hard_end t') = Some m' ∧
    parsable m' (tl_top t') (hard_end t') [tl_top t'].
Proof.
  intros t new t'. destruct (tlab_size_bounds (full_heap ∅) NULL t 512 10 demo_config_ok demo_flags_ok) as [_ Hfit]; try done; try apply Z.divide_1_l.
  { split; [apply Z.divide_1_l|apply Z.divide_1_l|by exists (MinTLABSize / 8)|by intros r]. }
  destruct Hfit as (Hb & Hh & _ & Hfill); [by vm_compute|]. split; [split; [apply Hb|apply Hh]|]. by apply Hfill.
Defined.

(** A thread with one TLAB in use switches to generation 3 and allocates. *)
Definition typed_thread : Thread :=
  mkThread (<[3%nat := demo_tlab]> (replicate 16 (initialize None demo_tlab))) 0 0 0 0 0.

Lemma typed_thread_ok : thread_ok typed_thread.
Proof.
  split; try done. cbn. repeat (constructor; [first [by left|right; exact demo_tlab_ok]|]). constructor.
Qed.

Lemma thread_tlabs_typed_witness :
  ∃ th' t, rtc (thread_step 0x100000) (full_heap ∅, typed_thread) (full_heap ∅, th') ∧
    th_genTlab th' = 3 ∧ tlab_at th' 3 = Some t ∧ thread_ok th' ∧
    (let '(obj, t') := tlab_allocate t 4 in
     tlab_valid t' ∧ (obj ≠ NULL → tl_start t <= obj ∧ obj + 8 * 4 <= tl_end t ∧ tl_top t' = obj + 8 * 4)).
Proof.
  assert (Hr : rtc (thread_step 0x100000) (full_heap ∅, typed_thread)
    (full_heap ∅, put_tlab (mkThread (th_tlabs typed_thread) 3 3 0 0 0) 3 (tlab_allocate demo_tlab 10).2)).
  { eapply rtc_l; [by apply (ts_set_alloc_gen _ _ _ 3)|]. eapply rtc_once, ts_allocate; [done|lia|apply Z.divide_1_l]. }
  destruct (thread_tlabs_typed 0x100000 (full_heap ∅) typed_thread (full_heap ∅)
    (put_tlab (mkThread (th_tlabs typed_thread) 3 3 0 0 0) 3 (tlab_allocate demo_tlab 10).2) 3
    (tlab_allocate demo_tlab 10).2 4 demo_config_ok demo_flags_ok typed_thread_ok Hr) as (H1 & _ & _ & H2 & _);
    [done|lia|apply Z.divide_1_l|].
  eexists _, _. split; [exact Hr|]. split; [reflexivity|]. split; [reflexivity|]. split; [exact H1|exact H2].
Defined.

End TlabDemo.
