(* ===== verification/HeapAlloc.v ===== *)
(** The allocation of Java objects: [CollectedHeap::obj_allocate],
    [array_allocate] and [array_allocate_nozero]
    ([gc_interface/collectedHeap.inline.hpp]), the slow path that refills a
    TLAB ([collectedHeap.cpp]) and what G1 supplies to it
    ([G1CollectedHeap::mem_allocate], [allocate_new_gen_tlab],
    [register_tlab], [rebase_alloc_gen]).

    This is where the profile meets the heap: the allocation site and the
    calling context select the counter, the target generation, the TLAB and
    the tag in the header of the new object.

    Allocation in eden and garbage collection are arguments of the
    definitions; allocation in the other generations is defined in full. *)

From S2P Require Import Prelude MarkWord HashTable ObjectTable Ng2cTables JavaHeap BlockOffset GenRegions Tlab.
Import MarkOop JavaHeap BlockOffset HeapRegions AllocRegion Tlab ObjectTable.

Module HeapAlloc.
Import NGen MethodBciHashtable.

(** The state an allocation reads and writes, with the current thread. *)
Record World := mkWorld {
  w_heap : G1Heap;
  w_gens : gens;
  w_mutator : Z;                     (* _mutator_alloc_region.get() *)
  w_sites : MethodBciHashtable;
  w_thread : Thread
}.

Definition with_heap (w : World) (h : G1Heap) : World :=
  mkWorld h (w_gens w) (w_mutator w) (w_sites w) (w_thread w).
Definition with_gens (w : World) (gs : gens) : World :=
  mkWorld (w_heap w) gs (w_mutator w) (w_sites w) (w_thread w).
Definition with_sites (w : World) (s : MethodBciHashtable) : World :=
  mkWorld (w_heap w) (w_gens w) (w_mutator w) s (w_thread w).
Definition with_thread (w : World) (th : Thread) : World :=
  mkWorld (w_heap w) (w_gens w) (w_mutator w) (w_sites w) th.
Definition with_mem (w : World) (m : memory) : World := with_heap w (set_mem (w_heap w) m).

(** What an allocation returns: an object, or a thrown exception. *)
Inductive outcome := Allocated (obj : Z) | OutOfMemoryError.

Section alloc.
Context {cfg : VMConfig} {flags : TlabFlags}.
Variable reserved_start _dummy_region : Z.
Variable other_regions : G1Heap → Z * G1Heap.

(** The table of the committed regions, [HeapRegionSeq::_regions]. *)
Variable regions_by_index : gmap Z Z.
Variable LogOfHRGrainBytes : Z.

(** Allocation in eden, humongous allocation, and what is left of
    [mem_allocate] after a failed attempt: a collection and the retries. *)
Variable attempt_allocation : World → Z → option (Z * World).
Variable attempt_allocation_humongous : World → Z → option (Z * World).
Variable collect_for_allocation : World → Z → option (Z * World).

(** * G1 *)

Definition isHumongous (word_size : Z) : bool := word_size >? _humongous_object_threshold_in_words.

Definition heap_region_containing_raw (addr : Z) : option Z :=
  regions_by_index !! (addr >>> LogOfHRGrainBytes).

Definition gen_allocate (w : World) (gen word_size : Z) : option (Z * World) :=
  '(result, gs, h) ← gen_attempt_allocation reserved_start _dummy_region other_regions
                       (w_gens w) (w_heap w) gen word_size;
  Some (result, with_gens (with_heap w h) gs).

Definition allocate_new_tlab (w : World) (word_size : Z) : option (Z * World) :=
  attempt_allocation w word_size.

Definition allocate_new_gen_tlab (w : World) (gen word_size : Z) : option (Z * World) :=
  gen_allocate w gen word_size.

Definition register_tlab (w : World) (i : Z) : option World :=
  t ← tlab_at (w_thread w) i;
  hr ← heap_region_containing_raw (tl_start t);
  h ← add_active_tlab (w_heap w) hr;
  Some (with_thread (with_heap w h) (put_tlab (w_thread w) i (setHeapRegion t hr))).

Definition mem_allocate (w : World) (word_size : Z) (is_alloc_gen : bool) (gen : Z) : option (Z * World) :=
  '(result, w) ←
    (if negb (isHumongous word_size) then
       if is_alloc_gen then gen_allocate w gen word_size else attempt_allocation w word_size
     else attempt_allocation_humongous w word_size);
  if negb (result =? NULL) then Some (result, w) else collect_for_allocation w word_size.

(** * TLABs *)

Definition is_gen (k : KlassHandle) : bool := negb (_alloc_gen k =? 0).

(** The TLAB that [klass.alloc_gen()] selects. *)
Definition selected_tlab (th : Thread) (k : KlassHandle) : Z := if is_gen k then th_genTlab th else 0.

Definition allocate_from_tlab_slow (w : World) (k : KlassHandle) (size : Z) : option (Z * World) :=
  let i := selected_tlab (w_thread w) k in
  t ← tlab_at (w_thread w) i;
  if tlab_free t >? tl_refill_waste_limit t then
    Some (NULL, with_thread w (put_tlab (w_thread w) i (record_slow_allocation t)))
  else
    available ← unsafe_max_tlab_alloc (w_heap w) (w_mutator w);
    let new_tlab_size := compute_size t available size in
    '(h, bytes, t) ← clear_before_allocation reserved_start (w_heap w) (th_allocated_bytes (w_thread w)) t;
    let w := with_thread (with_heap w h) (set_allocated_bytes (put_tlab (w_thread w) i t) bytes) in
    if new_tlab_size =? 0 then Some (NULL, w)
    else
      '(obj, w) ← (if negb (is_gen k) then allocate_new_tlab w new_tlab_size
                   else allocate_new_gen_tlab w (th_alloc_gen (w_thread w)) new_tlab_size);
      if obj =? NULL then Some (NULL, w)
      else
        let w := if ZeroTLAB then with_mem w (fill_to_words (g_mem (w_heap w)) obj new_tlab_size 0) else w in
        t ← tlab_at (w_thread w) i;
        let w := with_thread w (put_tlab (w_thread w) i (fill t obj (hw_add obj size) new_tlab_size)) in
        w ← register_tlab w i;
        Some (obj, w).

Definition allocate_from_tlab (w : World) (k : KlassHandle) (size : Z) : option (Z * World) :=
  let i := selected_tlab (w_thread w) k in
  t ← tlab_at (w_thread w) i;
  let '(obj, t) := tlab_allocate t size in
  if negb (obj =? NULL) then Some (obj, with_thread w (put_tlab (w_thread w) i t))
  else allocate_from_tlab_slow w k size.

(** * Objects *)

Definition common_mem_allocate_noinit (w : World) (k : KlassHandle) (size : Z) : option (outcome * World) :=
  '(result, w) ← allocate_from_tlab w k size;
  if negb (result =? NULL) then Some (Allocated result, w)
  else
    '(result, w) ← mem_allocate w size (is_gen k) (th_alloc_gen (w_thread w));
    if negb (result =? NULL) then
      let th := w_thread w in
      Some (Allocated result,
            with_thread w (set_allocated_bytes th (i64 (th_allocated_bytes th + size * HeapWordSize))))
    else Some (OutOfMemoryError, w).

Definition common_mem_allocate_init (w : World) (k : KlassHandle) (size : Z) : option (outcome * World) :=
  '(o, w) ← common_mem_allocate_noinit w k size;
  match o with
  | Allocated obj => Some (Allocated obj, with_mem w (init_obj (g_mem (w_heap w)) obj size))
  | OutOfMemoryError => Some (OutOfMemoryError, w)
  end.

(** The part of the three allocation functions that a build with [NG2C_PROF]
    adds; [gen] is the identifier of the allocation site. *)
Definition profile_allocation (w : World) (k : KlassHandle) (gen : Z) : option (KlassHandle * World) :=
  if negb (gen =? 0) then
    let context := mask_bits (th_context (w_thread w)) 0xFFFF in
    let alloc_site_id := mask_bits gen 0xFFFF in
    let mark := u32 (alloc_site_id <<< 16) ||| context in
    ngen ← get_entry (w_sites w) alloc_site_id;
    a ← ot_objs (w_sites w) !! ngen;
    a ← inc_number_allocs a context;
    tg ← target_gen a context;
    let k := set_as_hash (set_alloc_gen k (i32 tg)) mark in
    th ← thread_set_alloc_gen (w_thread w) (_alloc_gen k);
    Some (k, with_thread (with_sites w (set_object (w_sites w) ngen a)) th)
  else Some (k, w).

(** Continues with the memory of a new object, as [CHECK_NULL] does. *)
Definition after_allocation (r : outcome * World) (setup : memory → Z → option memory)
    : option (outcome * World) :=
  let '(o, w) := r in
  match o with
  | Allocated obj => m ← setup (g_mem (w_heap w)) obj; Some (Allocated obj, with_mem w m)
  | OutOfMemoryError => Some (OutOfMemoryError, w)
  end.

Definition obj_allocate (w : World) (k : KlassHandle) (gen size : Z) : option (outcome * World) :=
  '(k, w) ← profile_allocation w k gen;
  r ← common_mem_allocate_init w k size;
  after_allocation r (λ m obj, post_allocation_setup_obj m k obj).

Definition array_allocate (w : World) (k : KlassHandle) (gen size length : Z) : option (outcome * World) :=
  '(k, w) ← profile_allocation w k gen;
  r ← common_mem_allocate_init w k size;
  after_allocation r (λ m obj, post_allocation_setup_array m k obj length).

Definition array_allocate_nozero (w : World) (k : KlassHandle) (gen size length : Z) : option (outcome * World) :=
  '(k, w) ← profile_allocation w k gen;
  r ← common_mem_allocate_noinit w k size;
  after_allocation r (λ m obj, post_allocation_setup_array (set_klass_gap m obj 0) k obj length).

(** * Rebasing a generation *)

(** [ThreadCollectGenClosure::do_thread] for every thread. *)
Fixpoint retire_tlabs_of (h : G1Heap) (ths : list Thread) (gen : Z) : option (G1Heap * list Thread) :=
  match ths with
  | [] => Some (h, [])
  | th :: ths =>
      t ← tlab_at th gen;
      '(h, bytes, t) ← make_parsable reserved_start h (th_allocated_bytes th) t true;
      '(h, ths) ← retire_tlabs_of h ths gen;
      Some (h, set_allocated_bytes (put_tlab th gen t) bytes :: ths)
  end.

Definition rebase_alloc_gen (h : G1Heap) (gs : gens) (ths : list Thread) (gen : Z)
    : option (G1Heap * gens * list Thread) :=
  '(h, ths) ← retire_tlabs_of h ths gen;
  g ← gen_at gs gen;
  '(g, h) ← retire reserved_start _dummy_region (AllocRegionKind0 := gen_alloc_region reserved_start other_regions) g h true;
  Some (h, put_gen gs gen g, ths).

(** [capacity], [non_young] and [percent] are the committed bytes, the bytes
    of the regions that are not young and [InitiatingHeapOccupancyPercent];
    [collect] is the garbage collection that [collect] starts. *)
Definition collect_alloc_gen
    (collect : G1Heap → gens → list Thread → option (G1Heap * gens * list Thread))
    (capacity non_young percent : Z) (h : G1Heap) (gs : gens) (ths : list Thread) (gen : Z)
    : option (G1Heap * gens * list Thread) :=
  if (gen >=? Z.of_nat (length gs)) || (gen <? 0) then Some (h, gs, ths)
  else
    g ← gen_at gs gen;
    let gs := put_gen gs gen (new_epoch g) in
    let marking_initiating_used_threshold := u64 (capacity / 100 * percent) in
    let alloc_byte_size := u64 (GrainBytes * HeapWordSize) in
    if u64 (non_young + alloc_byte_size) >? marking_initiating_used_threshold then collect h gs ths
    else rebase_alloc_gen h gs ths gen.

(** * The entry points of the Java library *)

Definition JVM_SetAllocGen (th : Thread) (gen : Z) : option Thread := thread_set_alloc_gen th gen.
Definition JVM_GetAllocGen (th : Thread) : Z := th_alloc_gen th.

Definition JVM_NewAllocGen (gs : gens) (th : Thread) : option (Z * gens * Thread) :=
  let '(gen, gs) := new_alloc_gen reserved_start _dummy_region other_regions gs in
  th ← thread_set_alloc_gen th gen;
  Some (gen, gs, th).

Definition JVM_CollectAllocGen collect (capacity non_young percent : Z)
    (h : G1Heap) (gs : gens) (ths : list Thread) (gen : Z) : option (G1Heap * gens * list Thread) :=
  collect_alloc_gen collect capacity non_young percent h gs ths gen.

End alloc.
End HeapAlloc.

(** * Facts *)

Module HeapAllocFacts.
Import NGen NGenFacts MethodBciHashtable SiteTableFacts JavaHeapFacts BlockOffsetFacts RegionFacts TlabFacts HeapAlloc.

Section facts.
Context {cfg : VMConfig} {flags : TlabFlags}.
Variables rs dummy : Z.
Variable other_regions : G1Heap → Z * G1Heap.
Variable regions_by_index : gmap Z Z.
Variable log_grain : Z.
Variables eden humongous collect : World → Z → option (Z * World).

#[local] Notation obj_allocate :=
  (obj_allocate rs dummy other_regions regions_by_index log_grain eden humongous collect).
#[local] Notation array_allocate :=
  (array_allocate rs dummy other_regions regions_by_index log_grain eden humongous collect).
#[local] Notation allocate_from_tlab :=
  (allocate_from_tlab rs dummy other_regions regions_by_index log_grain eden).
#[local] Notation allocate_from_tlab_slow :=
  (allocate_from_tlab_slow rs dummy other_regions regions_by_index log_grain eden).

(** ** The profile of an allocation *)

Definition context_of (w : World) : Z := mask_bits (th_context (w_thread w)) 0xFFFF.
Definition site_of (gen : Z) : Z := mask_bits gen 0xFFFF.
Definition tag_of (w : World) (gen : Z) : Z := site_of gen * 65536 + context_of w.

(** The thread after it was directed to a generation. *)
Definition directed (th : Thread) (tg : Z) : Thread :=
  mkThread (th_tlabs th) tg tg (th_curTlab th) (th_allocated_bytes th) (th_context th).

(** One allocation was counted at a context of a site; nothing else changed. *)
Record counted (a a' : NGenerationArray) (c : Z) : Prop := {
  ct_count : ∃ n, number_allocs a c = Some n ∧ number_allocs a' c = Some (u64 (n + 1));
  ct_others : ∀ d, slot a d ≠ slot a c → number_allocs a' d = number_allocs a d;
  ct_targets : ∀ d, target_gen a' d = target_gen a d
}.

Lemma mask16_range z : 0 <= mask_bits z 0xFFFF < 65536.
Proof. exact (u16_range z). Qed.

Lemma tag_range w gen : site_of gen ≠ 0 → in_u32 (tag_of w gen) ∧ tag_of w gen ≠ 0.
Proof.
  intros Hs. pose proof (mask16_range gen). pose proof (mask16_range (th_context (w_thread w))).
  unfold tag_of, in_u32, site_of, context_of in *. lia.
Qed.

Lemma tag_eq w gen : u32 (site_of gen <<< 16) ||| context_of w = tag_of w gen.
Proof.
  pose proof (mask16_range gen) as Hs. pose proof (mask16_range (th_context (w_thread w))) as Hc.
  fold (site_of gen) in Hs. fold (context_of w) in Hc. unfold tag_of. rewrite Z.shiftl_mul_pow2 by done.
  rewrite u32_small by (unfold in_u32; lia).
  rewrite Z.lor_comm, <- (Z.shiftl_mul_pow2 _ 16), lor_shiftl_add by (done || lia). lia.
Qed.

Lemma profile_spec w k gen M a tg :
  bci_rel (w_sites w) M → site_of gen ≠ 0 → M !! site_of gen = Some a →
  target_gen a (context_of w) = Some tg → 0 <= tg < Z.of_nat (length (th_tlabs (w_thread w))) → tg < 2 ^ 31 →
  ∃ a' st, profile_allocation w k gen =
      Some (set_as_hash (set_alloc_gen k tg) (tag_of w gen),
            with_thread (with_sites w st) (directed (w_thread w) tg)) ∧
    bci_rel st (<[site_of gen := a']> M) ∧ counted a a' (context_of w) ∧
    inc_number_allocs a (context_of w) = Some a'.
Proof.
  intros Hrel Hs Ha Htg Hr Hr31. pose proof (in_table_arr_ok _ _ _ _ Hrel Ha) as Hok.
  assert (is_context (context_of w)) as Hctx by apply mask16_range.
  destruct (get_entry_spec _ _ _ Hrel Hs) as (v & Hv & Hx). rewrite Ha in Hx. destruct Hx as [Hvn Hx].
  destruct (inc_number_allocs_spec a (context_of w) Hok Hctx) as (n & a' & Hn & Ei & Hok' & Hn' & Ho).
  assert ((∀ d, target_gen a' d = target_gen a d) ∧ NGen._hash a' = NGen._hash a) as [Ht' Hh'].
  { unfold inc_number_allocs in Ei. destruct (_allocs_gen a !! _); [|done]. by injection Ei as <-. }
  exists a', (set_object (w_sites w) v a'). split; [|split].
  - unfold profile_allocation. rewrite (proj2 (Z.eqb_neq gen 0)) by (by intros ->). cbn [negb].
    fold (site_of gen) (context_of w). rewrite Hv. cbn [mbind option_bind]. rewrite Hx. cbn [mbind option_bind].
    rewrite Ei. cbn [mbind option_bind]. rewrite Ht', Htg. cbn [mbind option_bind].
    rewrite i32_small, tag_eq by lia. unfold thread_set_alloc_gen, tlab_at. cbn [_alloc_gen set_as_hash set_alloc_gen].
    rewrite (proj2 (Z.ltb_ge tg 0)) by lia.
    destruct (lookup_lt_is_Some_2 (th_tlabs (w_thread w)) (Z.to_nat tg)) as [t ->]; [lia|]. done.
  - eapply bci_rel_set; try done. unfold get_entry in Hv. by rewrite (proj2 (Z.eqb_neq _ _)) in Hv.
  - split; [split; eauto|done].
Qed.

(** ** Allocation in a TLAB with room *)

(** The TLAB of generation [tg] of the thread has room for [size] words. *)
Record tlab_room (th : Thread) (tg : Z) (t : ThreadLocalAllocBuffer) (size : Z) : Prop := {
  tr_tlab : tlab_at th tg = Some t;
  tr_top : 0 < tl_top t;
  tr_room : tl_top t + 8 * size <= tl_end t < 2 ^ 63
}.

Lemma tlab_allocate_room th tg t size :
  tlab_room th tg t size → 0 <= size → tlab_allocate t size = (tl_top t, set_tlab_top t (tl_top t + 8 * size)).
Proof.
  intros [_ Ht Hr] Hs. unfold tlab_allocate, words_between, pointer_delta, hw_add, HeapWordSize.
  rewrite u64_small by (unfold in_u64; lia). rewrite geb_true; [done|]. apply Z.div_le_lower_bound; lia.
Qed.

Lemma selected_tlab_directed th k tg hash :
  selected_tlab (directed th tg) (set_as_hash (set_alloc_gen k tg) hash) = tg.
Proof. unfold selected_tlab, is_gen. cbn. by destruct (Z.eqb_spec tg 0). Qed.

Lemma allocate_fast w k t size :
  tlab_room (w_thread w) (selected_tlab (w_thread w) k) t size → 0 <= size →
  common_mem_allocate_init rs dummy other_regions regions_by_index log_grain eden humongous collect w k size =
    Some (Allocated (tl_top t), with_mem
            (with_thread w (put_tlab (w_thread w) (selected_tlab (w_thread w) k)
                              (set_tlab_top t (tl_top t + 8 * size))))
            (init_obj (g_mem (w_heap w)) (tl_top t) size)).
Proof.
  intros Hr Hs. unfold common_mem_allocate_init, common_mem_allocate_noinit, HeapAlloc.allocate_from_tlab.
  rewrite (tr_tlab _ _ _ _ Hr). cbn [mbind option_bind]. rewrite (tlab_allocate_room _ _ _ _ Hr Hs).
  pose proof (tr_top _ _ _ _ Hr). assert ((tl_top t =? NULL) = false) as E by (apply Z.eqb_neq; unfold NULL; lia).
  rewrite E. cbn [negb mbind option_bind]. by rewrite E.
Qed.

(** The class of a new object. *)
Record class_ok (k : KlassHandle) (K : Klass) : Prop := {
  cl_ptr : klass_ptr_ok (_value k);
  cl_klass : klasses !! _value k = Some K;
  cl_header : in_u64 (_prototype_header K)
}.

(** What [post_allocation_setup_common] leaves in the header. *)
Definition header_ok (m : memory) (obj kp tag : Z) : Prop :=
  (∃ mk, mark m obj = Some mk ∧ in_u64 mk ∧ ng2c_prof mk = tag) ∧ klass m obj = Some kp.

Lemma setup_header m k K tag obj :
  class_ok k K → in_u32 tag → tag ≠ 0 → _as_hash k = tag →
  ∃ m', post_allocation_setup_common m k obj = Some m' ∧ header_ok m' obj (_value k) tag ∧
    agree_out m m' obj (obj + 16).
Proof.
  intros [Hp HK Hh] Ht Hn Eh. destruct (setup_common_spec m k obj) as (mk & -> & Emk); [right; by exists K|].
  rewrite HK, Eh in Emk. cbn [from_option] in Emk.
  assert (in_u64 mk ∧ ng2c_prof mk = tag) as [Hmk Hprof].
  { rewrite Emk. split; [apply set_ng2c_prof_range; [|done]|by apply ng2c_prof_set].
    by destruct (UseBiasedLocking && negb (_value k =? NULL)). }
  eexists. split; [done|]. split; [split; [exists mk|by apply klass_set_klass]|].
  - split; [|done]. unfold mark, mark_offset_in_bytes. rewrite Z.add_0_r.
    rewrite (load64_agree (set_mark m obj mk)).
    + unfold set_mark, mark_offset_in_bytes. by rewrite Z.add_0_r, load64_store64, u64_small.
    + eapply agree_out_on; [apply (set_klass_out _ obj _ (obj + 8) (obj + 16)); lia|lia].
  - apply agree_out_trans with (set_mark m obj mk); [apply set_mark_out; lia|apply set_klass_out; lia].
Qed.

(** C11: Allocating an object at a profiled site is end to end what the
    profiler needs: the allocation is counted once at the site and calling
    context, the object comes from the TLAB of the target generation chosen
    for them, its header carries the site and the context and its class, its
    fields are zero, and no other memory, region or counter changes. *)
Theorem obj_allocate_tagged w k gen size M a tg t K :
  bci_rel (w_sites w) M → site_of gen ≠ 0 → M !! site_of gen = Some a →
  target_gen a (context_of w) = Some tg → tlab_room (w_thread w) tg t size →
  tg < 2 ^ 31 → 2 <= size → class_ok k K →
  ∃ w' m a', obj_allocate w k gen size = Some (Allocated (tl_top t), w') ∧
    w_heap w' = set_mem (w_heap w) m ∧ agree_out (g_mem (w_heap w)) m (tl_top t) (tl_top t + 8 * size) ∧
    header_ok m (tl_top t) (_value k) (tag_of w gen) ∧
    (∀ i, 2 <= i < size → load64 m (tl_top t + 8 * i) = Some 0) ∧
    w_thread w' = put_tlab (directed (w_thread w) tg) tg (set_tlab_top t (tl_top t + 8 * size)) ∧
    w_gens w' = w_gens w ∧ bci_rel (w_sites w') (<[site_of gen := a']> M) ∧ counted a a' (context_of w).
Proof.
  intros Hrel Hs Ha Htg Hroom Htg31 Hsize Hk. pose proof (tr_tlab _ _ _ _ Hroom) as Hat.
  assert (0 <= tg < Z.of_nat (length (th_tlabs (w_thread w)))) as Hr.
  { unfold tlab_at in Hat. destruct (Z.ltb_spec tg 0); [done|]. apply lookup_lt_Some in Hat. lia. }
  destruct (profile_spec w k gen M a tg) as (a' & st & Ep & Hrel' & Hc & _); try done.
  unfold HeapAlloc.obj_allocate. rewrite Ep. cbn [mbind option_bind].
  rewrite (allocate_fast _ _ t size); cbn [w_thread with_thread]; rewrite ?selected_tlab_directed;
    [|by destruct Hroom|lia]. cbn [mbind option_bind].
  pose proof (tr_top _ _ _ _ Hroom). pose proof (tr_room _ _ _ _ Hroom). unfold after_allocation. cbn [w_heap with_mem with_heap with_thread with_sites set_mem g_mem].
  destruct (init_obj_spec (g_mem (w_heap w)) (tl_top t) size) as [I1 I2]; [change oop_header_size with 2; lia|].
  destruct (tag_range w gen Hs) as [Hti Htn].
  destruct (setup_header (init_obj (g_mem (w_heap w)) (tl_top t) size)
    (set_as_hash (set_alloc_gen k tg) (tag_of w gen)) K (tag_of w gen) (tl_top t)) as (m & Em & Hh & Ho);
    [by destruct Hk|done..|].
  unfold post_allocation_setup_obj. rewrite Em. cbn [mbind option_bind].
  exists (with_mem (with_thread (with_sites w st) (put_tlab (directed (w_thread w) tg) tg
    (set_tlab_top t (tl_top t + 8 * size)))) m), m, a'.
  split; [done|]. split; [done|]. split.
  { eapply agree_out_trans; [eapply agree_out_weaken; [exact I1|lia..]|].
    eapply agree_out_weaken; [exact Ho|lia..]. }
  split; [done|]. split; [|done]. intros i Hi. rewrite <- (I2 i) by done. apply load64_agree.
  eapply agree_out_on; [exact Ho|lia].
Qed.

(** ** Refilling a TLAB *)

(** A thread directed to generation [tg] whose TLAB there is used up; [h1]
    and [t1] are the heap and the TLAB after it was given up, [new] the size
    of the next one. *)
Record refill_ready (w : World) (k : KlassHandle) (tg size : Z) (t : ThreadLocalAllocBuffer)
    (h1 : G1Heap) (bytes1 : Z) (t1 : ThreadLocalAllocBuffer) (new : Z) : Prop := {
  rf_gen : 0 < tg ∧ _alloc_gen k = tg ∧ th_alloc_gen (w_thread w) = tg ∧ th_genTlab (w_thread w) = tg;
  rf_tlab : tlab_at (w_thread w) tg = Some t;
  rf_full : tlab_free t < size ∧ tlab_free t <= tl_refill_waste_limit t;
  rf_clear : clear_before_allocation rs (w_heap w) (th_allocated_bytes (w_thread w)) t = Some (h1, bytes1, t1);
  rf_new : ∃ available, unsafe_max_tlab_alloc (w_heap w) (w_mutator w) = Some available ∧
    new = compute_size t available size ∧ new ≠ 0;
  rf_sizes : 0 <= size < 2 ^ 40 ∧ 0 <= tl_desired_size t < 2 ^ 40;
  rf_align : (MinObjAlignment | size) ∧ (MinObjAlignment | new)
}.

(** The table of regions knows every address of a region. *)
Definition region_table_ok (h : G1Heap) : Prop :=
  ∀ q r a, g_regions h !! q = Some r → hr_bottom r <= a < hr_end r →
    heap_region_containing_raw regions_by_index log_grain a = Some q.

Lemma refill_new_bounds w k tg size t h1 bytes1 t1 new :
  config_ok → flags_ok → refill_ready w k tg size t h1 bytes1 t1 new →
  size + alignment_reserve <= new <= _humongous_object_threshold_in_words.
Proof.
  intros Hc Hf R. destruct (rf_new _ _ _ _ _ _ _ _ _ R) as (av & Hav & -> & Hn).
  destruct (rf_sizes _ _ _ _ _ _ _ _ _ R). pose proof (unsafe_max_bound _ _ _ Hf Hav).
  pose proof (compute_size_spec t av size Hc Hf ltac:(done) ltac:(done) Hn).
  pose proof (align_object_size_range size Hc) as [? _]. lia.
Qed.

(** The slow path up to the allocation of the new TLAB. *)
Lemma slow_path_allocates w k tg size t h1 bytes1 t1 new :
  refill_ready w k tg size t h1 bytes1 t1 new →
  let w1 := with_thread (with_heap w h1) (set_allocated_bytes (put_tlab (w_thread w) tg t1) bytes1) in
  allocate_from_tlab w k size =
    '(obj, w) ← gen_allocate rs dummy other_regions w1 tg new;
    if obj =? NULL then Some (NULL, w)
    else
      let w := if ZeroTLAB then with_mem w (fill_to_words (g_mem (w_heap w)) obj new 0) else w in
      t ← tlab_at (w_thread w) tg;
      let w := with_thread w (put_tlab (w_thread w) tg (fill t obj (hw_add obj size) new)) in
      w ← register_tlab regions_by_index log_grain w tg;
      Some (obj, w).
Proof.
  intros [(Htg & Hk & Hag & Hgt) Ht [Hfull Hwaste] Hclear (av & Hav & Enew & Hn) _ _] w1.
  assert (is_gen k = true) as Hig by (unfold is_gen; rewrite Hk, (proj2 (Z.eqb_neq tg 0)) by lia; done).
  unfold HeapAlloc.allocate_from_tlab, HeapAlloc.allocate_from_tlab_slow, selected_tlab. rewrite Hig, Hgt, Ht.
  cbn [mbind option_bind]. unfold tlab_allocate. fold (tlab_free t). rewrite geb_false by done.
  change (negb (NULL =? NULL)) with false. cbn iota. rewrite gtb_false, Hav by done. cbn [mbind option_bind].
  rewrite Hclear. cbn [mbind option_bind]. rewrite <- Enew, (proj2 (Z.eqb_neq new 0)) by done. cbn [negb].
  change (th_alloc_gen _) with (th_alloc_gen (w_thread w)). by rewrite Hag.
Qed.

Lemma tlab_at_put th i t t' : tlab_at th i = Some t → tlab_at (put_tlab th i t') i = Some t'.
Proof.
  unfold tlab_at, put_tlab. destruct (i <? 0); [done|]. intros E%lookup_lt_Some. by apply list_lookup_insert_eq.
Qed.

(** The regions a generation allocates from: the active one and the next. *)
Record regions_ready (h : G1Heap) (g : GenAllocRegion) (p : Z) (r : HeapRegion) (bs : list Z)
    (f : Z) (rest : list Z) (rf : HeapRegion) (new : Z) : Prop := {
  rr_active : active_ok rs dummy h g p r bs;
  rr_list : g_free_list h = f :: rest;
  rr_free : free_region_ok rs h f rf new;
  rr_apart : f ≠ p ∧ (hr_end r <= hr_bottom rf ∨ hr_end rf <= hr_bottom r);
  rr_count : _count (gar_base g) < 2 ^ 32 - 1;
  rr_tlabs : 0 <= hr_active_tlabs r < 2 ^ 31 - 1 ∧ 0 <= hr_active_tlabs rf < 2 ^ 31 - 1;
  rr_low : rs <= 2 ^ 62
}.

(** Both regions lie inside the addressable heap, below their end. *)
Lemma regions_ready_bounds h g p r bs f rest rf new q r0 ws :
  regions_ready h g p r bs f rest rf new → q = p ∨ q = f → g_regions h !! q = Some r0 →
  0 < ws → hr_top r0 + 8 * ws <= hr_end r0 →
  hr_bottom r0 <= hr_top r0 ∧ 0 < hr_top r0 ∧ hr_end r0 < 2 ^ 63 ∧ 0 <= hr_active_tlabs r0 < 2 ^ 31 - 1.
Proof.
  intros [[_ _ Hr Hk] _ [_ Hf Rf _ _] _ _ [] Hlow] Hq Hq0 Hws Hroom.
  destruct Hq as [-> | ->].
  - rewrite Hr in Hq0. injection Hq0 as <-. destruct Hk as [[_ ?]|(_ & R & _)]; [lia|].
    pose proof (ro_top _ _ _ _ R). pose proof (ro_end _ _ _ _ R). lia.
  - rewrite Hf in Hq0. injection Hq0 as <-. pose proof (ro_top _ _ _ _ Rf). pose proof (ro_end _ _ _ _ Rf). lia.
Qed.

(** C18: When the TLAB of a generation is used up, the slow path gives it up
    and gets a new one: the new TLAB is the next [new] words of a region of
    the generation, the object is its first block, the rest can still be
    closed by a filler, the region counts one TLAB more, and no region but
    the active and the next one is touched. *)
Theorem tlab_refill w k tg size t h1 bytes1 t1 new g p r bs f rest rf :
  config_ok → flags_ok → refill_ready w k tg size t h1 bytes1 t1 new → gen_at (w_gens w) tg = Some g →
  regions_ready h1 g p r bs f rest rf new → region_table_ok h1 →
  ∃ res w' q r0 r' t', allocate_from_tlab w k size = Some (res, w') ∧ res ≠ NULL ∧
    (q = p ∨ q = f) ∧ g_regions h1 !! q = Some r0 ∧ res = hr_top r0 ∧
    g_regions (w_heap w') !! q = Some r' ∧ hr_top r' = res + 8 * new ∧ hr_top r' <= hr_end r0 ∧
    hr_gen r' = gar_gen g ∧ hr_active_tlabs r' = hr_active_tlabs r0 + 1 ∧
    tlab_at (w_thread w') tg = Some t' ∧ tlab_ok t' ∧ tl_start t' = res ∧ tl_top t' = res + 8 * size ∧
    hard_end t' = res + 8 * new ∧ tl_my_heap_region t' = q ∧
    (∀ q', q' ≠ p → q' ≠ f → g_regions (w_heap w') !! q' = g_regions h1 !! q').
Proof.
  intros Hc Hf Hrf Hg Hrr Htab. pose proof (refill_new_bounds _ _ _ _ _ _ _ _ _ Hc Hf Hrf) as Hnew.
  pose proof (reserve_bounds Hc Hf). destruct (rf_sizes _ _ _ _ _ _ _ _ _ Hrf) as [Hsz _].
  rewrite (slow_path_allocates _ _ _ _ _ _ _ _ _ Hrf). unfold gen_allocate.
  cbn [w_gens w_heap with_thread with_heap].
  destruct (gen_allocation_spec rs dummy other_regions (w_gens w) h1 tg g p r bs new f rest rf)
    as (res & gs' & h' & -> & [Hres (g' & q & r0 & r' & bs' & _ & _ & Hq & Hr0 & Er & Hr' & Ht' & _ & He & Ee & Hgen & Ha & _) Hoth _]);
    [done..|apply Hrr|lia|apply Hrr|apply Hrr|apply Hrr|apply Hrr|apply Hrr|].
  destruct (regions_ready_bounds _ _ _ _ _ _ _ _ _ q r0 new Hrr Hq Hr0) as (Hb & Hpos & H63 & Hat); [lia|lia|].
  cbn [mbind option_bind]. rewrite (proj2 (Z.eqb_neq res NULL)) by done.
  set (h2 := if ZeroTLAB then set_mem h' (fill_to_words (g_mem h') res new 0) else h').
  assert (g_regions h2 = g_regions h') as Eh2 by (unfold h2; by destruct ZeroTLAB).
  set (th1 := set_allocated_bytes (put_tlab (w_thread w) tg t1) bytes1).
  set (w2 := mkWorld h2 gs' (w_mutator w) (w_sites w) th1).
  match goal with |- context [if ZeroTLAB then ?a else ?b] =>
    replace (if ZeroTLAB then a else b) with w2 by (unfold w2, h2; by destruct ZeroTLAB) end.
  cbn zeta. assert (tlab_at th1 tg = Some t1) as Ht1 by (eapply tlab_at_put, Hrf).
  change (w_thread w2) with th1. rewrite Ht1. cbn [mbind option_bind].
  destruct (fill_tlab_ok t1 res size new) as (Hok & Hs & Htop & Hhe); try done; try lia; try apply Hrf.
  set (t2 := fill t1 res (hw_add res size) new) in *.
  unfold register_tlab. cbn [w_thread with_thread]. rewrite (tlab_at_put th1 tg t1) by done. cbn [mbind option_bind].
  rewrite Hs, (Htab q r0 res Hr0) by lia. cbn [mbind option_bind].
  unfold add_active_tlab, upd_region. cbn [w_heap with_thread w2]. rewrite Eh2, Hr'. cbn [mbind option_bind].
  eexists res, _, q, r0, _, (setHeapRegion t2 q). split; [reflexivity|]. repeat (split; [done|]).
  split; [apply lookup_insert_eq|]. cbn [hr_top hr_gen hr_active_tlabs set_active_tlabs].
  repeat (split; [done || lia|]). split; [rewrite Ha, i32_small; lia|].
  split; [apply (tlab_at_put _ _ t2); by apply (tlab_at_put _ _ t1)|].
  split; [by destruct Hok|]. repeat (split; [done|]).
  intros q' Hp' Hf'. cbn. rewrite Eh2, lookup_insert_ne by (intros ->; by destruct Hq). by apply Hoth.
Qed.

(** ** The entry points of the Java library *)

Lemma set_alloc_gen_defined th gen :
  thread_set_alloc_gen th gen = None ↔ gen < 0 ∨ Z.of_nat (length (th_tlabs th)) <= gen.
Proof.
  unfold thread_set_alloc_gen, tlab_at. destruct (Z.ltb_spec gen 0); [cbn; split; [by left|done]|].
  destruct (th_tlabs th !! Z.to_nat gen) as [t|] eqn:E; cbn.
  - apply lookup_lt_Some in E. split; [done|lia].
  - apply lookup_ge_None in E. split; [lia|done].
Qed.

(** The entry points for generations do not check their argument: with
    the 16 TLABs a thread has, setting a generation outside 0 to 15 reads
    outside the array of TLABs; the heap starts with 16 generations, so
    creating a generation always does; and collecting generation 0 uses the
    entry of eden, which is NULL. Collecting a generation that does not
    exist is ignored. *)
Theorem jvm_generation_errors th collect_gens capacity non_young percent h ths :
  Z.of_nat (length (th_tlabs th)) = NG2C_GEN_ARRAY_SIZE →
  (∀ gen, JVM_SetAllocGen th gen = None ↔ gen < 0 ∨ NG2C_GEN_ARRAY_SIZE <= gen) ∧
  (∀ gs, JVM_NewAllocGen rs dummy other_regions (initial_gens ++ gs) th = None) ∧
  JVM_CollectAllocGen rs dummy other_regions collect_gens capacity non_young percent h initial_gens ths 0 = None ∧
  (∀ gs gen, gen < 0 ∨ Z.of_nat (length gs) <= gen →
     JVM_CollectAllocGen rs dummy other_regions collect_gens capacity non_young percent h gs ths gen = Some (h, gs, ths)).
Proof.
  intros Hlen. split; [|split; [|split]].
  - intros gen. rewrite <- Hlen. apply set_alloc_gen_defined.
  - intros gs. unfold JVM_NewAllocGen, new_alloc_gen.
    rewrite (proj2 (set_alloc_gen_defined th _)); [done|]. right. rewrite Hlen, length_app.
    change (length initial_gens) with 16%nat. unfold NG2C_GEN_ARRAY_SIZE. lia.
  - done.
  - intros gs gen Hg. unfold JVM_CollectAllocGen, collect_alloc_gen.
    destruct (Z.geb_spec gen (Z.of_nat (length gs))); [done|]. by rewrite (proj2 (Z.ltb_lt gen 0)) by lia.
Qed.

End facts.
End HeapAllocFacts.

(** * A concrete thread *)

Module HeapAllocDemo.
Import NGen NGenFacts MethodBciHashtable SiteTableFacts JavaHeapFacts BlockOffsetFacts RegionFacts RegionDemo.
Import TlabFacts TlabDemo HeapAlloc HeapAllocFacts.

#[local] Existing Instance demo_config.
#[local] Existing Instance demo_flags.

Definition empty_tlab : ThreadLocalAllocBuffer := mkTLAB 0 0 0 0 54 0 0 0 0 0 0 0.

Definition demo_thread (t3 : ThreadLocalAllocBuffer) (gen : Z) : Thread :=
  mkThread (<[3%nat := t3]> (replicate 16 empty_tlab)) gen gen 0 0 0x2A0007.

Definition no_eden (w : World) (n : Z) : option (Z * World) := Some (NULL, w).

(** Regions of 1024 bytes from 0x100000 on. *)
Definition demo_index : gmap Z Z := <[0x400 := 0xA0]> (<[0x401 := 0xB0]> ∅).

Lemma index_of_range a i : 1024 * i <= a < 1024 * (i + 1) → a >>> 10 = i.
Proof.
  intros H. rewrite Z.shiftr_div_pow2 by done. symmetry. apply Z.div_unique with (a - 1024 * i); lia.
Qed.

Lemma demo_index_ok m free : region_table_ok demo_index 10 (demo_heap m free).
Proof.
  intros q r a Hq Ha. unfold heap_region_containing_raw. cbn in Hq.
  apply lookup_insert_Some in Hq as [[<- <-]|[_ Hq]]; [|apply lookup_insert_Some in Hq as [[<- <-]|[_ Hq]]];
    [cbn in Ha..|].
  - by rewrite (index_of_range a 0x400) by lia.
  - by rewrite (index_of_range a 0x401) by lia.
  - apply lookup_insert_Some in Hq as [[<- <-]|[_ Hq]]; [cbn in Ha; lia|done].
Qed.

Lemma tlab_refill_witness :
  ∃ m res w' q t', tile ∅ 0x100000 [40; 60] = Some m ∧
    allocate_from_tlab 0x100000 0xD0 no_other_regions demo_index 10 no_eden
      (mkWorld (demo_heap m [0xB0]) demo_gens NULL (new_MethodBciHashtable 64) (demo_thread empty_tlab 3))
      (set_alloc_gen (new_KlassHandle 0x800000030) 3) 10 = Some (res, w') ∧
    tlab_at (w_thread w') 3 = Some t' ∧ tlab_ok t' ∧ tl_my_heap_region t' = q.
Proof.
  destruct demo_memory as (m & E & Hp). exists m.
  destruct (tlab_refill 0x100000 0xD0 no_other_regions demo_index 10 no_eden
    (mkWorld (demo_heap m [0xB0]) demo_gens NULL (new_MethodBciHashtable 64) (demo_thread empty_tlab 3))
    (set_alloc_gen (new_KlassHandle 0x800000030) 3) 3 10 empty_tlab (demo_heap m [0xB0]) 0 empty_tlab 64
    demo_gen 0xA0 demo_A (starts_of 0x100000 [40; 60]) 0xB0 [] demo_B demo_config_ok demo_flags_ok)
    as (res & w' & q & r0 & r' & t' & E' & _ & _ & _ & _ & _ & _ & _ & _ & _ & Ht & Hok & _ & _ & _ & Hq & _).
  - split; try done; [by exists 512|split; apply Z.divide_1_l].
  - done.
  - split; try done; [by apply demo_active|split; try done; apply demo_B_ok|split; [done|by left]].
  - apply demo_index_ok.
  - by exists res, w', q, t'.
Defined.

(** Site 513 allocates in generation 3. *)
Definition demo_array : NGenerationArray :=
  mkNGen 513 0 0 (3 :: replicate (max_sites - 1) 0) (replicate max_sites 0).

Lemma demo_array_ok : arr_ok demo_array.
Proof.
  destruct max_site_pos as [n Hn]. split; cbn; try done; rewrite ?length_replicate; try lia.
Qed.

Lemma demo_table : ∃ st, bci_rel st (<[513 := demo_array]> ∅).
Proof.
  destruct (site_create (HC := BumpHeap.bump_heap_ok) (new_MethodBciHashtable 64) ∅ 513)
    as (v & o & _ & _ & Hrel & _ & Hf & _); [apply bci_rel_new; lia|lia|done|].
  exists (set_object o v demo_array). rewrite <- (insert_insert_eq ∅ 513 demo_array (new_NGenerationArray 513)).
  eapply bci_rel_set; [exact Hrel|exact Hf|apply lookup_insert_eq|apply demo_array_ok|done].
Qed.

Lemma obj_allocate_tagged_witness :
  ∃ st w' m a', let w := mkWorld (full_heap ∅) demo_gens NULL st (demo_thread demo_tlab 1) in
    obj_allocate 0x100000 0xD0 no_other_regions demo_index 10 no_eden no_eden no_eden w
      (new_KlassHandle 0x800000030) 513 4 = Some (Allocated 0x1001E0, w') ∧
    w_heap w' = set_mem (full_heap ∅) m ∧ header_ok m 0x1001E0 0x800000030 (513 * 65536 + 7) ∧
    counted demo_array a' 7.
Proof.
  destruct demo_table as [st Hst]. exists st.
  destruct (obj_allocate_tagged 0x100000 0xD0 no_other_regions demo_index 10 no_eden no_eden no_eden
    (mkWorld (full_heap ∅) demo_gens NULL st (demo_thread demo_tlab 1)) (new_KlassHandle 0x800000030) 513 4
    (<[513 := demo_array]> ∅) demo_array 3 demo_tlab (mkKlass 16 5 (λ _ _, None)))
    as (w' & m & a' & E & Eh & _ & Hh & _ & _ & _ & _ & Hc); try done.
  - split; [|done|done]. apply (ok_obj_ptr demo_config_ok).
  - exists w', m, a'. done.
Defined.

Lemma jvm_generation_errors_witness :
  let th := demo_thread empty_tlab 1 in
  JVM_SetAllocGen th 16 = None ∧ JVM_SetAllocGen th 15 ≠ None ∧
  JVM_NewAllocGen 0x100000 0xD0 no_other_regions initial_gens th = None.
Proof.
  destruct (jvm_generation_errors 0x100000 0xD0 no_other_regions (demo_thread empty_tlab 1)
    (λ h gs ths, Some (h, gs, ths)) 0 0 45 (full_heap ∅) [] eq_refl) as (H1 & H2 & _).
  split; [apply H1; by right|]. split; [|exact (H2 [])].
  intros E. apply H1 in E. by destruct E.
Defined.

End HeapAllocDemo.
