(* ===== verification/C2Alloc.v ===== *)
(** The code C2 emits for an allocation and for the calling context.

    [PhaseMacroExpand::expand_allocate_common] ([opto/macro.cpp]) replaces an
    [Allocate] node by ideal nodes that take the target generation of the
    site and context from the profile, allocate in the TLAB of that
    generation, write the tagged header, count the allocation, and otherwise
    call the runtime; [Parse::do_context] and [do_uncontext]
    ([opto/doCall.cpp]) emit the updates of the thread's context.

    Module [MacroExpand] has the functions that build the nodes of [Ideal],
    [C2Facts] the relation between raw memory and the state of [HeapAlloc],
    under which the emitted code and the allocation functions of the runtime
    do the same. *)

From S2P Require Import Prelude AltHashing HashTable ObjectTable MarkWord JavaHeap Ideal BlockOffset.
From S2P Require Import Ng2cTables StaticAnalysis ThreadContext GenRegions Tlab HeapAlloc.
Import MarkOop ObjectTable JavaHeap BlockOffset HeapRegions Tlab.

(** * Emission *)

Module MacroExpand.
Import Ideal.

(** The constants the expansions read: offsets of fields of [Thread] and
    [Klass] that the C++ compiler fixes, and flags. *)
Class C2Config := mkC2Config {
  UseTLAB : bool;
  dtrace_alloc_probes : bool;
  gen_context : Z;
  gen_tlabs_offset : Z;
  tlab_offset : Z;
  prototype_header_offset : Z;
  AllocatePrefetchStyle : Z;
  AllocatePrefetchDistance : Z;
  AllocatePrefetchStepSize : Z;
  AllocatePrefetchLines : Z;
  AllocateInstancePrefetchLines : Z
}.

(** [ThreadLocalAllocBuffer] starts with [_start], [_top], [_pf_top] and
    [_end]. *)
Definition top_offset : Z := 8.
Definition pf_top_offset : Z := 16.
Definition end_offset : Z := 24.
Definition sizeof_pointer : Z := 8.
Definition ng2c_install_offset_in_bytes : Z := mark_offset_in_bytes + 4.

(** The basic types of the loads and stores below. *)
Inductive MemType := T_INT | T_LONG | T_ADDRESS | T_METADATA.

(** What the compiler knows of a profiled site: the addresses inside its
    [NGenerationArray]. *)
Record SiteAddresses := mkSite { factor_bytes_addr : Z; gen_addr : Z; acc_addr : Z }.

(** The initialization of the allocated object: none found, complete, or
    incomplete without captured stores. *)
Inductive InitializeNode := NoInitialization | IsComplete | NoStores.

(** The inputs of an [Allocate] node: [length] for arrays only, [InitialTest]
    as a constant or a node, and the layout helper of the class that the type
    of [klass_node] has. *)
Record AllocateNode := mkAllocate {
  size_in_bytes : Node;
  klass_node : Node;
  length : option Node;
  initial_slow_test : Z + Node;
  klass_layout : Z;
  initialization : InitializeNode
}.

Section expand.
Context {cfg : VMConfig} {flags : TlabFlags} {c2 : C2Config}.

Definition LoadNode_make (mem : Mem) (adr : Node) (bt : MemType) : Node :=
  match bt with
  | T_INT => LoadI mem adr
  | T_LONG => LoadL mem adr
  | T_ADDRESS | T_METADATA => LoadP mem adr
  end.

(** A class stored through a raw address is compressed. *)
Definition StoreNode_make (mem : Mem) (adr val : Node) (bt : MemType) : Mem :=
  match bt with
  | T_INT => StoreI mem adr val
  | T_LONG => StoreL mem adr val
  | T_ADDRESS => StoreP mem adr val
  | T_METADATA =>
      if UseCompressedClassPointers then StoreNKlass mem adr (EncodePKlass val) else StoreP mem adr val
  end.

Definition basic_plus_adr (base ptr : Node) (offset : Z) : Node :=
  if offset =? 0 then ptr else AddP base ptr (ConL offset).

Definition make_load (mem : Mem) (base : Node) (offset : Z) (bt : MemType) : Node :=
  LoadNode_make mem (basic_plus_adr base base offset) bt.
Definition make_load_at (mem : Mem) (base offset : Node) (bt : MemType) : Node :=
  LoadNode_make mem (AddP base base offset) bt.
Definition make_store (mem : Mem) (base : Node) (offset : Z) (value : Node) (bt : MemType) : Mem :=
  StoreNode_make mem (basic_plus_adr base base offset) value bt.
Definition make_store_at (mem : Mem) (base offset value : Node) (bt : MemType) : Mem :=
  StoreNode_make mem (AddP base base offset) value bt.

(** The branch for [UseTLAB]: the TLAB, its top and its end. *)
Definition set_eden_pointers (mem : Mem) (target_gen : option Node) : option Node * Node * Node :=
  let thread := ThreadLocal in
  match target_gen with
  | None =>
      (None, basic_plus_adr Top thread (tlab_offset + top_offset),
       basic_plus_adr Top thread (tlab_offset + end_offset))
  | Some target_gen =>
      let tlab_array := make_load mem thread gen_tlabs_offset T_ADDRESS in
      let tlab_offset := MulL (ConL sizeof_pointer) target_gen in
      let gen_tlab := make_load_at mem tlab_array tlab_offset T_ADDRESS in
      (Some gen_tlab, basic_plus_adr Top gen_tlab top_offset, basic_plus_adr Top gen_tlab end_offset)
  end.

(** The loop of the prefetches of style 3, which are threaded through
    memory. *)
Fixpoint prefetch_lines (mem : Mem) (cache_adr : Node) (distance : Z) (lines : nat) : Mem :=
  match lines with
  | O => mem
  | S lines =>
      prefetch_lines (PrefetchAllocation mem (AddP cache_adr cache_adr (ConL distance))) cache_adr
        (distance + AllocatePrefetchStepSize) lines
  end.

(** The memory after the prefetches; those of the other styles only take part
    in the order of I/O. *)
Definition prefetch_allocation (gen_tlab_adr : option Node) (mem : Mem) (old_eden_top new_eden_top : Node)
    (is_array : bool) : Mem :=
  if UseTLAB && (AllocatePrefetchStyle =? 2) then
    let eden_pf_adr :=
      match gen_tlab_adr with
      | Some gen_tlab => AddP Top gen_tlab (ConL pf_top_offset)
      | None => AddP Top ThreadLocal (ConL (tlab_offset + pf_top_offset))
      end in
    let old_pf_wm := LoadP mem eden_pf_adr in
    let need_pf_bol := Bool (CmpP new_eden_top old_pf_wm) ge in
    let new_pf_wmt := AddP Top old_pf_wm (ConL AllocatePrefetchDistance) in
    Phi need_pf_bol (StoreP mem eden_pf_adr new_pf_wmt) mem
  else if UseTLAB && (AllocatePrefetchStyle =? 3) then
    let lines := if is_array then AllocatePrefetchLines else AllocateInstancePrefetchLines in
    let cache_adr := AddP old_eden_top old_eden_top (ConL AllocatePrefetchDistance) in
    let cache_adr := CastX2P (AndL (CastP2X cache_adr) (ConL (~~~ (AllocatePrefetchStepSize - 1)))) in
    prefetch_lines (PrefetchAllocation mem cache_adr) cache_adr AllocatePrefetchStepSize
      (Z.to_nat (lines - 1))
  else mem.

(** [start_offset == end_offset]: equal constants are one node. *)
Definition same_node (x y : Node) : bool :=
  match x, y with ConL a, ConL b => a =? b | _, _ => false end.

(** [ClearArrayNode::clear_memory] up to an offset given by a node.  On this
    processor [ClearArray] counts in words. *)
Definition clear_memory_to (mem : Mem) (dest start_offset end_offset : Node) : Mem :=
  if same_node start_offset end_offset then mem
  else
    let shift := ConI 3 in
    let zsize := SubL (URShiftL end_offset shift) (URShiftL start_offset shift) in
    ClearArray mem zsize (AddP dest dest start_offset).

Definition clear_memory (mem : Mem) (dest : Node) (start_offset : Z) (end_offset : Node) : Mem :=
  let '(mem, offset) :=
    if negb (Z.rem start_offset 8 =? 0)
    then (StoreNode_make mem (AddP dest dest (ConL start_offset)) (ConI 0) T_INT, start_offset + 4)
    else (mem, start_offset) in
  clear_memory_to mem dest (ConL offset) end_offset.

(** [InitializeNode::complete_stores] of an initialization without captured
    stores. *)
Definition complete_stores (alloc : AllocateNode) (mem : Mem) (rawptr : Node) (header_size : Z) : Mem :=
  if negb ZeroTLAB then
    let zeroes_done := align_size_down header_size 4 in
    let size_limit := match size_in_bytes alloc with ConL n => n | _ => max_jint end in
    let zeroes_done :=
      if (zeroes_done + 8 >=? size_limit) && negb (bool_decide (is_Some (length alloc))) &&
         (zeroes_done =? klass_layout alloc)
      then size_limit else zeroes_done in
    if zeroes_done <? size_limit then clear_memory mem rawptr zeroes_done (size_in_bytes alloc) else mem
  else mem.

(** [instanceOopDesc::base_offset_in_bytes] and
    [AllocateNode::minimum_header_size]. *)
Definition instance_base_offset_in_bytes : Z :=
  if UseCompressedOops && UseCompressedClassPointers then klass_gap_offset_in_bytes else sizeof_oopDesc.
Definition minimum_header_size (alloc : AllocateNode) : Z :=
  match length alloc with
  | Some _ => base_offset_in_bytes T_BYTE
  | None => instance_base_offset_in_bytes
  end.

(** The last part of [initialize_object]: the array length and the body. *)
Definition initialize_body (alloc : AllocateNode) (rawmem : Mem) (object : Node) : Mem :=
  let '(rawmem, header_size) :=
    match length alloc with
    | Some len =>
        (make_store rawmem object length_offset_in_bytes len T_INT,
         if layout_helper_is_array (klass_layout alloc) then layout_helper_header_size (klass_layout alloc)
         else base_offset_in_bytes T_BYTE)
    | None => (rawmem, minimum_header_size alloc)
    end in
  match initialization alloc with
  | NoInitialization =>
      if negb ZeroTLAB then clear_memory rawmem object header_size (size_in_bytes alloc) else rawmem
  | IsComplete => rawmem
  | NoStores => complete_stores alloc rawmem object header_size
  end.

(** The tag of the header and the counter of allocations; [profile] has the
    context, the offset of its slot and the address of the counters of a
    profiled site. *)
Definition install_profile (rawmem : Mem) (object : Node) (alloc_site_id : Z)
    (profile : option (Node * Node * Node)) : Mem :=
  match profile with
  | Some (context, offset_long, acc_addr) =>
      let alloc_site_mask := u32 (u32 alloc_site_id <<< 16) in
      let header := OrI (ConI (i32 alloc_site_mask)) context in
      let rawmem := make_store rawmem object ng2c_install_offset_in_bytes header T_INT in
      let alloc_counter := make_load_at rawmem acc_addr offset_long T_LONG in
      make_store_at rawmem acc_addr offset_long (AddL alloc_counter (ConL 1)) T_LONG
  | None => rawmem
  end.

Definition initialize_object (alloc : AllocateNode) (rawmem : Mem) (object : Node) (alloc_site_id : Z)
    (profile : option (Node * Node * Node)) : Mem :=
  let mark_node :=
    if UseBiasedLocking && negb (bool_decide (is_Some (length alloc)))
    then make_load rawmem (klass_node alloc) prototype_header_offset T_ADDRESS
    else ConP prototype in
  let rawmem := make_store rawmem object mark_offset_in_bytes mark_node T_ADDRESS in
  let rawmem := install_profile rawmem object alloc_site_id profile in
  let rawmem := make_store rawmem object klass_offset_in_bytes (klass_node alloc) T_METADATA in
  initialize_body alloc rawmem object.

(** [BoolNode::make_predicate] of an int value. *)
Definition make_predicate (test_value : Node) : Node := Bool (CmpI test_value (ConI 0)) ne.

(** The code that profiles the allocation at a site, and the fast path.  For
    G1 [supports_inline_contig_alloc] is false, so there is no fast path
    without TLABs. *)
Definition profile_nodes (alloc_gen : Z) (arr : SiteAddresses) (mem : Mem) : option (Node * Node * Node * Node) :=
  if negb (alloc_gen =? 0) then
    let context := make_load mem ThreadLocal gen_context T_INT in
    let context := AndI context (ConI 0xFFFF) in
    let factor := make_load mem (ConP (factor_bytes_addr arr)) 0 T_INT in
    let offset := MulI factor context in
    let offset_long := ConvI2L offset in
    let target_gen := make_load_at mem (ConP (gen_addr arr)) offset_long T_LONG in
    Some (context, offset_long, target_gen, ConP (acc_addr arr))
  else None.

Definition expand_allocate_common (alloc : AllocateNode) (alloc_gen : Z) (arr : SiteAddresses) : Code :=
  let mem := RawMem in
  let profile := profile_nodes alloc_gen arr mem in
  let '(always_slow, slow_test) :=
    match initial_slow_test alloc with
    | inl tv => (tv =? 1, None)
    | inr test => (false, Some (make_predicate test))
    end in
  let '(always_slow, slow_test) :=
    if dtrace_alloc_probes || negb UseTLAB then (true, None) else (always_slow, slow_test) in
  let slow_path := CallStaticJava (klass_node alloc) (ConI (i32 alloc_gen)) (length alloc) mem in
  if negb always_slow then
    let target_gen := (λ '(_, _, target_gen, _), target_gen) <$> profile in
    let '(gen_tlab_adr, eden_top_adr, eden_end_adr) := set_eden_pointers mem target_gen in
    let eden_end := make_load mem eden_end_adr 0 T_ADDRESS in
    let old_eden_top := LoadP mem eden_top_adr in
    let new_eden_top := AddP Top old_eden_top (size_in_bytes alloc) in
    let needgc_bol := Bool (CmpP new_eden_top eden_end) ge in
    let pf_mem := prefetch_allocation gen_tlab_adr mem old_eden_top new_eden_top
                    (bool_decide (is_Some (length alloc))) in
    let fast_oop := old_eden_top in
    let store_eden_top := StoreP pf_mem eden_top_adr new_eden_top in
    let fast_oop_rawmem :=
      initialize_object alloc store_eden_top fast_oop alloc_gen
        ((λ '(context, offset_long, _, acc_addr), (context, offset_long, acc_addr)) <$> profile) in
    let fast_path := If needgc_bol slow_path (Result fast_oop fast_oop_rawmem) in
    match slow_test with
    | Some test => If test slow_path fast_path
    | None => fast_path
    end
  else slow_path.

(** * The context around calls *)

Definition context_addr : Node := AddP Top ThreadLocal (ConL gen_context).

Definition do_uncontext (index : Z) (should_context : Node) (mem : Mem) : Mem :=
  let context := LoadI mem context_addr in
  let new_context := SubI context (ConI (i32 index)) in
  Phi (Bool (CmpI should_context (ConI 0)) ne) (StoreI mem context_addr new_context) mem.

Definition do_context (index : Z) (should_context : Node) (mem : Mem) : Mem :=
  let context := LoadI mem context_addr in
  let new_context := AddI context (ConI (i32 index)) in
  Phi (Bool (CmpI should_context (ConI 0)) ne) (StoreI mem context_addr new_context) mem.

End expand.
End MacroExpand.

(** * Properties *)

Module C2Facts.
Import Ideal MacroExpand NGen NGenFacts MethodBciHashtable SiteTableFacts JavaHeapFacts BlockOffsetFacts.
Import RegionFacts TlabFacts HeapAlloc HeapAllocFacts.

(** ** Stores to the words of an object *)

Section stores.
Context {cfg : VMConfig}.

Lemma store32_comm m a b v w : a ≠ b → store32 (store32 m a v) b w = store32 (store32 m b w) a v.
Proof. intros. unfold store32. by rewrite insert_insert_ne. Qed.

Lemma store32_twice m a v w : store32 (store32 m a v) a w = store32 m a w.
Proof. unfold store32. by rewrite insert_insert_eq. Qed.

Lemma fill_words_store32 m p n v x w :
  x < p ∨ p + 8 * Z.of_nat n <= x →
  fill_words (store32 m x w) p n v = store32 (fill_words m p n v) x w.
Proof.
  revert m p. induction n as [|n IH]; intros m p Hx; cbn [fill_words]; [done|].
  assert (store64 (store32 m x w) p v = store32 (store64 m p v) x w) as ->.
  { unfold store64. rewrite (store32_comm m x p), (store32_comm _ x (p + 4)) by lia. done. }
  apply IH. unfold hw_add, HeapWordSize. lia.
Qed.

Lemma u32_field x : u32 x = get_field x 0 32.
Proof. unfold get_field. by rewrite Z.shiftr_0_r. Qed.
Lemma u32_high_field x : u32 (x >>> 32) = get_field x 32 32.
Proof. done. Qed.

Lemma store32_u32 m a v w : u32 v = u32 w → store32 m a v = store32 m a w.
Proof. unfold store32. by intros ->. Qed.

Lemma store64_u64 m a v w : u64 v = u64 w → store64 m a v = store64 m a w.
Proof.
  assert (∀ x, u32 x = get_field (u64 x) 0 32 ∧ u32 (x >>> 32) = get_field (u64 x) 32 32) as H.
  { intros x. unfold get_field. rewrite Z.shiftr_0_r, !Z.shiftr_div_pow2, !Z.land_ones, !u32_mod, u64_mod by done.
    split; Z.to_euclidean_division_equations; lia. }
  intros E. unfold store64. destruct (H v) as [V1 V2], (H w) as [W1 W2].
  rewrite (store32_u32 m a v w), (store32_u32 _ (a + 4) (v >>> 32) (w >>> 32)) by congruence. done.
Qed.

Lemma store64_comm_32 m a b v w : a ≠ b → a + 4 ≠ b → store32 (store64 m a v) b w = store64 (store32 m b w) a v.
Proof. intros. unfold store64. by rewrite (store32_comm _ (a + 4) b), (store32_comm _ a b). Qed.

Lemma store64_comm m a b v w : (∀ i j, (i = 0 ∨ i = 4) → (j = 0 ∨ j = 4) → a + i ≠ b + j) →
  store64 (store64 m a v) b w = store64 (store64 m b w) a v.
Proof.
  intros H. pose proof (H 0 0) as H00. pose proof (H 0 4) as H04. pose proof (H 4 0) as H40. pose proof (H 4 4) as H44.
  change (store64 (store64 m a v) b w) with (store32 (store32 (store64 m a v) b w) (b + 4) (w >>> 32)).
  by rewrite !store64_comm_32 by lia.
Qed.

(** A tag written over the upper half of the mark. *)
Lemma store_tagged_mark m obj h tag :
  in_u32 tag →
  store64 m obj (set_ng2c_prof h tag) =
    if tag =? 0 then store64 m obj h else store32 (store64 m obj h) (obj + 4) tag.
Proof.
  intros Ht. destruct (Z.eqb_spec tag 0) as [->|Hn]; [done|]. unfold store64. rewrite store32_twice.
  unfold store32. rewrite set_ng2c_prof_field by done. f_equal; [|f_equal].
  - rewrite u32_high_field, get_set_field_same by done. done.
  - by rewrite !u32_field, get_set_field_other by lia.
Qed.

(** The stores of [obj_allocate] and [array_allocate], in the order of the
    emitted code. *)
Definition emitted_header (m : memory) (obj h tag kp : Z) : memory :=
  set_klass (if tag =? 0 then store64 m obj h else store32 (store64 m obj h) (obj + 4) tag) obj kp.

Lemma set_mark_store64 m obj v : set_mark m obj v = store64 m obj v.
Proof. unfold set_mark, mark_offset_in_bytes. by rewrite Z.add_0_r. Qed.

Lemma fill_words_header m obj h tag kp n :
  fill_words (emitted_header m obj h tag kp) (obj + 16) n 0 =
    emitted_header (fill_words m (obj + 16) n 0) obj h tag kp.
Proof.
  unfold emitted_header, set_klass, klass_offset_in_bytes, store64.
  destruct UseCompressedClassPointers, (tag =? 0); rewrite !fill_words_store32 by lia; done.
Qed.

Lemma init_obj_fill m obj size :
  2 <= size < 2 ^ 60 →
  init_obj m obj size = fill_words (set_klass_gap m obj 0) (obj + 16) (Z.to_nat (size - 2)) 0.
Proof.
  intros Hs. unfold init_obj, fill_to_words. change oop_header_size with 2.
  rewrite u64_small by (unfold in_u64; lia). done.
Qed.

Lemma header_gap m obj h tag kp v :
  UseCompressedClassPointers = true →
  store32 (emitted_header m obj h tag kp) (obj + 12) v = emitted_header (store32 m (obj + 12) v) obj h tag kp.
Proof.
  intros E. unfold emitted_header, set_klass, klass_offset_in_bytes, store64. rewrite E.
  rewrite (store32_comm _ (obj + 8)) by lia.
  destruct (tag =? 0); rewrite ?(store32_comm _ (obj + 4) (obj + 12)), ?(store32_comm _ obj (obj + 12)) by lia; done.
Qed.

(** The words of a new object after its header, and what the runtime makes
    of the whole object.  Arrays are considered with compressed class
    pointers, where the length takes the place of the gap. *)
Definition new_body (m : memory) (obj size : Z) (len : option Z) : memory :=
  fill_words (match len with Some l => store32 m (obj + 12) l | None => set_klass_gap m obj 0 end)
    (obj + 16) (Z.to_nat (size - 2)) 0.

Definition array_mode (len : option Z) : Prop := len = None ∨ UseCompressedClassPointers = true.

Lemma new_body_header m obj h tag kp size len :
  array_mode len → new_body (emitted_header m obj h tag kp) obj size len = emitted_header (new_body m obj size len) obj h tag kp.
Proof.
  intros Hm. unfold new_body. rewrite <- fill_words_header. f_equal. destruct len as [l|].
  - destruct Hm as [|E]; [done|]. by apply header_gap.
  - unfold set_klass_gap. destruct UseCompressedClassPointers eqn:E; [|done]. by apply header_gap.
Qed.

Definition mark_of (len : option Z) (K : Klass) : Z :=
  if UseBiasedLocking && negb (bool_decide (is_Some len)) then _prototype_header K else prototype.

Lemma setup_emitted m k K obj tag :
  _value k ≠ NULL → klasses !! _value k = Some K → _as_hash k = tag → in_u32 tag →
  post_allocation_setup_common m k obj =
    Some (emitted_header m obj (if UseBiasedLocking then _prototype_header K else prototype) tag (_value k)).
Proof.
  intros Hk HK Ht Hr. destruct (setup_common_spec m k obj) as (mk & -> & ->); [right; by exists K|].
  rewrite (proj2 (Z.eqb_neq _ _) Hk), andb_true_r, HK, Ht, set_mark_store64, store_tagged_mark by done. done.
Qed.

(** The class of the new object. *)
Record klass_of (kp : Z) (K : Klass) (len : option Z) : Prop := {
  ko_null : kp ≠ NULL;
  ko_klass : klasses !! kp = Some K;
  ko_array : is_Some len → _prototype_header K = prototype
}.

Definition setup_object (m : memory) (k : KlassHandle) (obj : Z) (len : option Z) : option memory :=
  match len with
  | Some l => post_allocation_setup_array m k obj l
  | None => post_allocation_setup_obj m k obj
  end.

Lemma setup_object_emitted m k K obj size len tag :
  klass_of (_value k) K len → array_mode len → _as_hash k = tag → in_u32 tag → 2 <= size < 2 ^ 60 →
  setup_object (init_obj m obj size) k obj len =
    Some (emitted_header (new_body m obj size len) obj (mark_of len K) tag (_value k)).
Proof.
  intros [Hn HK Ha] Hm Ht Hr Hs. unfold setup_object, new_body, mark_of. rewrite init_obj_fill by done.
  destruct len as [l|]; rewrite ?bool_decide_eq_true_2, ?bool_decide_eq_false_2 by (by eauto || by intros [? ?]);
    cbn [negb]; rewrite ?andb_true_r, ?andb_false_r.
  - destruct Hm as [|E]; [done|]. unfold post_allocation_setup_array, set_length.
    rewrite (setup_emitted _ k K _ tag), length_offset_eq, E by done. do 2 f_equal.
    + unfold set_klass_gap. rewrite E. change klass_gap_offset_in_bytes with 12.
      by rewrite <- fill_words_store32, store32_twice by lia.
    + rewrite Ha by eauto. by destruct UseBiasedLocking.
  - unfold post_allocation_setup_obj. by rewrite (setup_emitted _ k K _ tag).
Qed.

End stores.

(** ** The state in raw memory *)

(** What a cell of raw memory belongs to. *)
Inductive Owner :=
  | O_heap | O_context | O_tlabs | O_tlab_array | O_tlab (i word : Z)
  | O_factor (s : Z) | O_target (s slot : Z) | O_allocs (s slot : Z) | O_klass (k : Z) | O_other.

Class Layout := mkLayout {
  owner : Z → Owner;
  thread : Z;
  tlab_array : Z;
  tlab_ptr : Z → Z;
  sites : Z → SiteAddresses
}.

Section repr.
Context {cfg : VMConfig} {flags : TlabFlags} {c2 : C2Config} {lay : Layout}.

Definition address (a : Z) : Prop := 0 <= a < 2 ^ 63.
Definition owns32 (a : Z) (o : Owner) : Prop := address a ∧ owner a = o.
Definition owns64 (a : Z) (o : Owner) : Prop := address a ∧ owner a = o ∧ owner (a + 4) = o.

Definition is_site (s : Z) : Prop := 0 < s < 65536.

(** The structures are apart from each other and from the heap. *)
Record layout_ok : Prop := {
  lo_thread : address thread;
  lo_context : owns32 (thread + gen_context) O_context;
  lo_tlabs : owns64 (thread + gen_tlabs_offset) O_tlabs;
  lo_array : ∀ i, 0 <= i < 16 → owns64 (tlab_array + 8 * i) O_tlab_array;
  lo_tlab : ∀ i k, 0 <= i < 16 → 0 <= k < 4 → owns64 (tlab_ptr i + 8 * k) (O_tlab i k);
  lo_eden : tlab_ptr 0 = thread + tlab_offset;
  lo_factor : ∀ s, is_site s → owns32 (factor_bytes_addr (sites s)) (O_factor s);
  lo_target : ∀ s c, is_site s → is_context c → owns64 (gen_addr (sites s) + 8 * c) (O_target s c);
  lo_allocs : ∀ s c, is_site s → is_context c → owns64 (acc_addr (sites s) + 8 * c) (O_allocs s c);
  lo_klass : ∀ k K, klasses !! k = Some K → owns64 (k + prototype_header_offset) (O_klass k)
}.

Record repr_array (raw : memory) (s : Z) (a : NGenerationArray) : Prop := {
  ra_factor : load32 raw (factor_bytes_addr (sites s)) = Some (_factor_bytes a);
  ra_target : ∀ c, is_context c → load64 raw (gen_addr (sites s) + 8 * c) = _target_gen a !! Z.to_nat c;
  ra_allocs : ∀ c, is_context c → load64 raw (acc_addr (sites s) + 8 * c) = _allocs_gen a !! Z.to_nat c
}.

(** The TLAB as the emitted code sees it; the watermark is only a hint. *)
Record repr_tlab (raw : memory) (i : Z) (t : ThreadLocalAllocBuffer) : Prop := {
  rt_top : load64 raw (tlab_ptr i + 8) = Some (tl_top t);
  rt_pf : is_Some (load64 raw (tlab_ptr i + 16));
  rt_end : load64 raw (tlab_ptr i + 24) = Some (tl_end t)
}.

Definition same_heap (raw m : memory) : Prop := ∀ a, owner a = O_heap → raw !! a = m !! a.

(** [raw] holds the heap, the thread and the profile of the sites [M]. *)
Record repr (raw : memory) (w : World) (M : gmap Z NGenerationArray) : Prop := {
  rp_heap : same_heap raw (g_mem (w_heap w));
  rp_sites : bci_rel (w_sites w) M;
  rp_context : load32 raw (thread + gen_context) = Some (th_context (w_thread w));
  rp_context_range : in_u32 (th_context (w_thread w));
  rp_tlabs : load64 raw (thread + gen_tlabs_offset) = Some tlab_array;
  rp_count : List.length (th_tlabs (w_thread w)) = 16%nat;
  rp_array : ∀ i, 0 <= i < 16 → load64 raw (tlab_array + 8 * i) = Some (tlab_ptr i);
  rp_tlab : ∀ i t, tlab_at (w_thread w) i = Some t → repr_tlab raw i t;
  rp_arrays : ∀ s a, M !! s = Some a → is_site s → repr_array raw s a;
  rp_klass : ∀ k K, klasses !! k = Some K → load64 raw (k + prototype_header_offset) = Some (_prototype_header K)
}.

End repr.

(** ** Evaluation of the emitted nodes *)

Section emitted.
Context {cfg : VMConfig} {flags : TlabFlags} {c2 : C2Config} {lay : Layout}.
Variable parms : nat → Z.
Variable raw : memory.

#[local] Notation ev := (eval thread parms raw).
#[local] Notation evm := (eval_mem thread parms raw).

Lemma ev_LoadP m a : ev (LoadP m a) = m ← evm m; a ← ev a; load64 m a.
Proof. done. Qed.
Lemma ev_LoadL m a : ev (LoadL m a) = m ← evm m; a ← ev a; i64 <$> load64 m a.
Proof. done. Qed.
Lemma evm_StoreI m a v : evm (StoreI m a v) = m ← evm m; a ← ev a; v ← ev v; Some (store32 m a v).
Proof. done. Qed.
Lemma evm_StoreL m a v : evm (StoreL m a v) = m ← evm m; a ← ev a; v ← ev v; Some (store64 m a v).
Proof. done. Qed.
Lemma evm_StoreP m a v : evm (StoreP m a v) = m ← evm m; a ← ev a; v ← ev v; Some (store64 m a v).
Proof. done. Qed.
Lemma evm_StoreNKlass m a v : evm (StoreNKlass m a v) = m ← evm m; a ← ev a; v ← ev v; Some (store32 m a v).
Proof. done. Qed.
Lemma evm_ClearArray m n a :
  evm (ClearArray m n a) = m ← evm m; n ← ev n; a ← ev a; Some (fill_words m a (Z.to_nat n) 0).
Proof. done. Qed.
Lemma evm_Prefetch m a : evm (PrefetchAllocation m a) = m ← evm m; _ ← ev a; Some m.
Proof. done. Qed.
Lemma evm_Phi c m1 m2 : evm (Phi c m1 m2) = c ← ev c; if negb (c =? 0) then evm m1 else evm m2.
Proof. done. Qed.

Lemma address_u64 a : address a → in_u64 a.
Proof. unfold address, in_u64. lia. Qed.

Lemma ev_AddP b p o x y : ev p = Some x → ev o = Some y → address (x + y) → ev (AddP b p o) = Some (x + y).
Proof. intros Hp Ho Ha. cbn [eval]. rewrite Hp, Ho. cbn [mbind option_bind]. by rewrite u64_small by by apply address_u64. Qed.

Lemma ev_AddL x y a b : ev x = Some a → ev y = Some b → ev (AddL x y) = Some (i64 (a + b)).
Proof. intros Hx Hy. cbn [eval]. by rewrite Hx, Hy. Qed.

Lemma ev_ge x y a b : ev x = Some a → ev y = Some b → ev (Bool (CmpP x y) ge) = Some (if a <? b then 0 else 1).
Proof.
  intros Hx Hy. cbn [eval]. rewrite Hx, Hy. cbn [mbind option_bind]. unfold compare, test_holds.
  destruct (a <? b); [done|]. by destruct (a =? b).
Qed.

Lemma ev_plus b p off x : ev p = Some x → address (x + off) → ev (basic_plus_adr b p off) = Some (x + off).
Proof.
  intros Hp Ha. unfold basic_plus_adr. destruct (Z.eqb_spec off 0) as [->|]; [by rewrite Z.add_0_r|].
  by apply ev_AddP.
Qed.

Lemma ev_load_int b off x : ev b = Some x → address (x + off) →
  ev (make_load RawMem b off T_INT) = i32 <$> load32 raw (x + off).
Proof. intros Hb Ha. unfold make_load. cbn [LoadNode_make eval eval_mem]. by rewrite (ev_plus _ _ _ x). Qed.

Lemma ev_load_address mem m b off x : evm mem = Some m → ev b = Some x → address (x + off) →
  ev (make_load mem b off T_ADDRESS) = load64 m (x + off).
Proof. intros Hm Hb Ha. unfold make_load. cbn [LoadNode_make]. rewrite ev_LoadP. by rewrite Hm, (ev_plus _ _ _ x). Qed.

Lemma evm_store_int mem m b off v x y : evm mem = Some m → ev b = Some x → address (x + off) → ev v = Some y →
  evm (make_store mem b off v T_INT) = Some (store32 m (x + off) y).
Proof. intros Hm Hb Ha Hv. unfold make_store. cbn [StoreNode_make]. by rewrite evm_StoreI, Hm, (ev_plus _ _ _ x), Hv. Qed.

Lemma evm_store_address mem m b off v x y : evm mem = Some m → ev b = Some x → address (x + off) → ev v = Some y →
  evm (make_store mem b off v T_ADDRESS) = Some (store64 m (x + off) y).
Proof. intros Hm Hb Ha Hv. unfold make_store. cbn [StoreNode_make]. by rewrite evm_StoreP, Hm, (ev_plus _ _ _ x), Hv. Qed.

Lemma evm_store_klass mem m b v x y : evm mem = Some m → ev b = Some x → address (x + 8) → ev v = Some y →
  evm (make_store mem b klass_offset_in_bytes v T_METADATA) = Some (set_klass m x y).
Proof.
  intros Hm Hb Ha Hv. unfold make_store, set_klass, klass_offset_in_bytes. cbn [StoreNode_make].
  destruct UseCompressedClassPointers; rewrite ?evm_StoreNKlass, ?evm_StoreP, Hm, (ev_plus _ _ _ x) by done;
    cbn [eval]; rewrite Hv; done.
Qed.

(** Clearing from the header on: both header sizes end in the word at 16. *)
Lemma evm_clear mem m b hs n x size :
  evm mem = Some m → ev b = Some x → ev n = Some (8 * size) → hs = 12 ∨ hs = 16 → 2 <= size < 2 ^ 59 →
  0 <= x → address (x + 8 * size) →
  evm (clear_memory mem b hs n) =
    Some (fill_words (if hs =? 12 then store32 m (x + 12) 0 else m) (x + 16) (Z.to_nat (size - 2)) 0).
Proof.
  intros Hm Hb Hn Hh Hs Hx Ha. unfold address in Ha.
  set (m1 := if hs =? 12 then store32 m (x + 12) 0 else m).
  assert (∃ mem1, evm mem1 = Some m1 ∧ clear_memory mem b hs n = clear_memory_to mem1 b (ConL 16) n) as (mem1 & H1 & ->).
  { unfold clear_memory, m1. destruct Hh as [-> | ->]; cbn -[eval eval_mem clear_memory_to].
    - eexists. split; [|done]. rewrite evm_StoreI, Hm, (ev_AddP _ _ _ x 12) by (try done; unfold address; lia). done.
    - by exists mem. }
  unfold clear_memory_to. destruct (same_node (ConL 16) n) eqn:E.
  - assert (n = ConL 16) as -> by (destruct n; try done; cbn [same_node] in E; apply Z.eqb_eq in E; by subst).
    cbn in Hn. injection Hn as Hn. replace (size - 2) with 0 by lia. done.
  - rewrite evm_ClearArray. cbn [eval]. rewrite H1, Hn, Hb. cbn [mbind option_bind].
    change (i64 (u64 16 >>> (3 &&& 63))) with 2. change (3 &&& 63) with 3.
    rewrite Z.shiftr_div_pow2, (u64_small (8 * size)), (u64_small (x + 16)) by (unfold in_u64; lia).
    replace (8 * size / 2 ^ 3) with size by (apply Z.div_unique_exact; lia).
    by rewrite (i64_small size), (i64_small (size - 2)) by lia.
Qed.

(** The nodes that profile the allocation. *)
Lemma land16_i32 z : i32 z &&& 0xFFFF = mask_bits z 0xFFFF.
Proof.
  unfold mask_bits. change 0xFFFF with (Z.ones 16). rewrite !Z.land_ones, i32_mod by done.
  Z.to_euclidean_division_equations; lia.
Qed.

Lemma ev_profile w M gen a tg :
  layout_ok → repr raw w M → is_site gen → M !! gen = Some a → target_gen a (context_of w) = Some tg →
  ∃ cn on tn, profile_nodes gen (sites gen) RawMem = Some (cn, on, tn, ConP (acc_addr (sites gen))) ∧
    ev cn = Some (context_of w) ∧ ev on = Some (8 * Z.of_nat (slot a (context_of w))) ∧ ev tn = Some tg.
Proof.
  intros HL HR Hs Ha Htg. pose proof (in_table_arr_ok _ _ _ _ (rp_sites _ _ _ HR) Ha) as Hok.
  assert (is_context (context_of w)) as Hctx by apply mask16_range.
  assert (is_context (Z.of_nat (slot a (context_of w)))) as Hslot.
  { pose proof (slot_lt a _ Hok Hctx). pose proof max_sites_eq. unfold is_context. lia. }
  destruct (lo_context HL) as [Hca _]. destruct (lo_factor HL gen Hs) as [Hfa _].
  destruct (lo_target HL gen _ Hs Hslot) as [Hta _]. destruct (rp_arrays _ _ _ HR gen a Ha Hs) as [Hf Ht _].
  unfold profile_nodes. rewrite (proj2 (Z.eqb_neq gen 0)) by (unfold is_site in Hs; lia). cbn [negb].
  eexists _, _, _. split; [done|].
  assert (ev (AndI (make_load RawMem ThreadLocal gen_context T_INT) (ConI 0xFFFF)) = Some (context_of w)) as Hc.
  { cbn [eval]. rewrite (ev_load_int _ _ thread), (rp_context _ _ _ HR) by done. cbn [fmap option_fmap option_map mbind option_bind].
    by rewrite land16_i32. }
  assert (ev (MulI (make_load RawMem (ConP (factor_bytes_addr (sites gen))) 0 T_INT)
    (AndI (make_load RawMem ThreadLocal gen_context T_INT) (ConI 0xFFFF))) = Some (8 * Z.of_nat (slot a (context_of w)))) as Ho.
  { cbn [eval] in Hc |- *. rewrite Hc, (ev_load_int _ _ (factor_bytes_addr (sites gen))), Z.add_0_r, Hf
      by (done || by rewrite Z.add_0_r). cbn [fmap option_fmap option_map mbind option_bind].
    rewrite (ao_bytes _ Hok). unfold sizeof_ngen_t. unfold is_context, NG2C_MAX_ALLOC_SITE in *. destruct (ao_factor _ Hok) as [E|E]; rewrite E.
    - rewrite slot_zero by done. done.
    - rewrite slot_one by done. change (i32 (1 * 8)) with 8. rewrite i32_small by lia. f_equal. lia. }
  split; [exact Hc|]. split; [exact Ho|]. unfold make_load_at. cbn [LoadNode_make].
  rewrite ev_LoadL, (ev_AddP _ _ _ (gen_addr (sites gen)) (8 * Z.of_nat (slot a (context_of w)))) by done.
  cbn [eval_mem mbind option_bind]. rewrite Ht by done. rewrite Nat2Z.id. done.
Qed.

(** The TLAB of the target generation; without one, that of eden. *)
Definition directed_to (target_gen : option Node) (tg : Z) : Prop :=
  match target_gen with Some n => ev n = Some tg | None => tg = 0 end.

Definition tlab_node (gen_tlab : option Node) (tg : Z) : Prop :=
  match gen_tlab with Some n => ev n = Some (tlab_ptr tg) | None => tg = 0 end.

Lemma ev_eden w M target_gen tg :
  layout_ok → repr raw w M → directed_to target_gen tg → 0 <= tg < 16 →
  ∃ g tn en, set_eden_pointers RawMem target_gen = (g, tn, en) ∧ tlab_node g tg ∧
    ev tn = Some (tlab_ptr tg + 8) ∧ ev en = Some (tlab_ptr tg + 24).
Proof.
  intros HL HR Ht Hr. pose proof (lo_tlab HL tg 1 Hr ltac:(lia)) as [H1 _]. pose proof (lo_tlab HL tg 3 Hr ltac:(lia)) as [H3 _].
  destruct (lo_tlabs HL) as [Hta _]. destruct (lo_array HL tg Hr) as [Haa _].
  unfold set_eden_pointers, top_offset, end_offset. destruct target_gen as [n|].
  - eexists (Some _), _, _. split; [done|]. cbn [directed_to tlab_node] in *.
    match goal with |- ev ?g = _ ∧ _ => assert (ev g = Some (tlab_ptr tg)) as Hg end.
    { unfold make_load_at. cbn [LoadNode_make].
      rewrite ev_LoadP, (ev_AddP _ _ _ tlab_array (8 * tg)); [by apply (rp_array _ _ _ HR)| |..|done].
      - by rewrite (ev_load_address _ raw _ _ thread), (rp_tlabs _ _ _ HR).
      - cbn [eval]. rewrite Ht. cbn [mbind option_bind]. unfold sizeof_pointer. by rewrite i64_small by lia. }
    split; [exact Hg|]. split; by apply ev_plus.
  - cbn in Ht. subst tg. rewrite (lo_eden HL) in *. eexists None, _, _. split; [done|]. split; [done|].
    rewrite <- !Z.add_assoc in *. split; by apply ev_plus.
Qed.

Lemma evm_prefetch_lines mem m c x d n :
  evm mem = Some m → ev c = Some x → evm (prefetch_lines mem c d n) = Some m.
Proof.
  intros Hm Hc. revert mem d Hm. induction n as [|n IH]; intros mem d Hm; cbn [prefetch_lines]; [done|].
  apply IH. rewrite evm_Prefetch. cbn [eval]. by rewrite Hm, Hc.
Qed.

(** Prefetching at most moves the watermark. *)
Lemma evm_prefetch w M g tg t old new x y b :
  layout_ok → repr raw w M → tlab_node g tg → 0 <= tg < 16 → tlab_at (w_thread w) tg = Some t →
  ev old = Some x → ev new = Some y →
  ∃ m, evm (prefetch_allocation g RawMem old new b) = Some m ∧
    (m = raw ∨ ∃ v, m = store64 raw (tlab_ptr tg + 16) v).
Proof.
  intros HL HR Hg Hr Ht Hx Hy. pose proof (lo_tlab HL tg 2 Hr ltac:(lia)) as [H2 _].
  destruct (rt_pf _ _ _ (rp_tlab _ _ _ HR tg t Ht)) as [pf Hpf]. unfold prefetch_allocation.
  destruct (UseTLAB && (AllocatePrefetchStyle =? 2)); [|destruct (UseTLAB && (AllocatePrefetchStyle =? 3))].
  - match goal with |- context [StoreP RawMem ?a _] => assert (ev a = Some (tlab_ptr tg + 16)) as Ha end.
    { destruct g as [n|]; cbn [tlab_node] in Hg; unfold pf_top_offset; [by apply ev_AddP|].
      subst tg. rewrite (lo_eden HL), <- Z.add_assoc in *. by apply ev_AddP. }
    match goal with |- context [LoadP RawMem ?a] => assert (ev (LoadP RawMem a) = Some pf) as Hl end.
    { by rewrite ev_LoadP, Ha. }
    rewrite evm_Phi, (ev_ge _ _ y pf) by done. cbn [mbind option_bind]. destruct (negb _).
    + rewrite evm_StoreP, Ha. cbn [eval_mem mbind option_bind].
      match goal with |- context [ev (AddP Top ?l ?d)] =>
        assert (ev (AddP Top l d) = Some (u64 (pf + AllocatePrefetchDistance))) as ->
          by (change (ev (AddP Top l d)) with (p ← ev l; o ← ev d; Some (u64 (p + o))); by rewrite Hl) end.
      eexists. split; [done|]. right. by eexists.
    + exists raw. by split; [|left].
  - exists raw. split; [|by left]. set (c := CastX2P _).
    assert (∃ z, ev c = Some z) as [z Hz] by (unfold c; cbn [eval]; rewrite Hx; by eexists).
    eapply evm_prefetch_lines; [|exact Hz]. rewrite evm_Prefetch. by rewrite Hz.
  - exists raw. by split; [|left].
Qed.

(** The inputs of the allocation of [size] words for class [kp]. *)
Definition length_node (n : option Node) (len : option Z) : Prop :=
  match n, len with Some n, Some l => ev n = Some l | None, None => True | _, _ => False end.

Record alloc_inputs (alloc : AllocateNode) (kp size : Z) (len : option Z) : Prop := {
  ai_size : ev (size_in_bytes alloc) = Some (8 * size);
  ai_klass : ev (klass_node alloc) = Some kp;
  ai_length : length_node (length alloc) len;
  ai_test : ∀ n, initial_slow_test alloc = inr n → is_Some (ev n);
  ai_instance : len = None → ∀ n, size_in_bytes alloc = ConL n → klass_layout alloc = n;
  ai_array : is_Some len → layout_helper_is_array (klass_layout alloc) = true →
    layout_helper_header_size (klass_layout alloc) = 16;
  ai_init : initialization alloc ≠ IsComplete
}.

(** The flags: an uninitialized TLAB, and compressed class pointers only
    along with compressed oops. *)
Record modes (len : option Z) : Prop := {
  md_zero : ZeroTLAB = false;
  md_compressed : UseCompressedClassPointers = true → UseCompressedOops = true;
  md_array : array_mode len
}.

Lemma evm_complete alloc mem m b hs x kp size len :
  alloc_inputs alloc kp size len → ZeroTLAB = false →
  evm mem = Some m → ev b = Some x → hs = 12 ∨ hs = 16 → 2 <= size < 2 ^ 59 →
  0 <= x → address (x + 8 * size) →
  evm (complete_stores alloc mem b hs) =
    Some (fill_words (if hs =? 12 then store32 m (x + 12) 0 else m) (x + 16) (Z.to_nat (size - 2)) 0).
Proof.
  intros Ha Hz Hm Hb Hh Hs Hx Hr. pose proof (evm_clear mem m b hs _ x size Hm Hb (ai_size _ _ _ _ Ha) Hh Hs Hx Hr) as Hc.
  unfold complete_stores. rewrite Hz. cbn [negb].
  assert (align_size_down hs 4 = hs) as -> by (by destruct Hh as [-> | ->]).
  destruct (size_in_bytes alloc) eqn:E; try (by rewrite (geb_false (hs + 8)) by (unfold max_jint; lia);
    cbn [andb]; rewrite (proj2 (Z.ltb_lt hs max_jint)) by (unfold max_jint; lia)).
  pose proof (ai_size _ _ _ _ Ha) as Hl. rewrite E in Hl. cbn [eval] in Hl. injection Hl as ->.
  destruct (_ && _ && _) eqn:Et.
  - apply andb_prop in Et as [Et Ek]. apply andb_prop in Et as [_ El]. apply Z.eqb_eq in Ek.
    assert (len = None) as Hn.
    { pose proof (ai_length _ _ _ _ Ha) as HL. unfold length_node in HL. destruct (length alloc); [done|]. by destruct len. }
    rewrite (ai_instance _ _ _ _ Ha Hn _ E) in Ek. rewrite Z.ltb_irrefl.
    assert (hs = 16 ∧ size = 2) as [-> ->] by lia. done.
  - destruct (Z.ltb_spec hs (8 * size)); [done|]. assert (hs = 16 ∧ size = 2) as [-> ->] by lia. done.
Qed.

Lemma evm_body alloc mem m b x kp size len :
  alloc_inputs alloc kp size len → modes len → evm mem = Some m → ev b = Some x → 2 <= size < 2 ^ 59 →
  0 <= x → address (x + 8 * size) →
  evm (initialize_body alloc mem b) = Some (new_body m x size len).
Proof.
  intros Ha [Hz Hc Hm] Hmem Hb Hs Hx Hr.
  assert (∃ mem1 m1 hs, evm mem1 = Some m1 ∧ (hs = 12 ∨ hs = 16) ∧
    initialize_body alloc mem b = match initialization alloc with
      | NoInitialization => if negb ZeroTLAB then clear_memory mem1 b hs (size_in_bytes alloc) else mem1
      | IsComplete => mem1
      | NoStores => complete_stores alloc mem1 b hs end ∧
    new_body m x size len = fill_words (if hs =? 12 then store32 m1 (x + 12) 0 else m1) (x + 16) (Z.to_nat (size - 2)) 0)
    as (mem1 & m1 & hs & H1 & Hh & -> & ->).
  { pose proof (ai_length _ _ _ _ Ha) as HL. unfold initialize_body, new_body, length_node, minimum_header_size in *.
    destruct (length alloc) as [ln|] eqn:El, len as [l|]; try done.
    - destruct Hm as [|E]; [done|]. assert (base_offset_in_bytes T_BYTE = 16) as ->.
      { unfold base_offset_in_bytes, array_header_size, array_header_size_in_bytes. cbn [element_type_should_be_aligned].
        by rewrite length_offset_eq, E. }
      exists (make_store mem b length_offset_in_bytes ln T_INT), (store32 m (x + 12) l), 16. split_and!; [|by right| |done].
      + rewrite length_offset_eq, E. apply evm_store_int; try done. unfold address in *. lia.
      + pose proof (ai_array _ _ _ _ Ha ltac:(by eexists)) as Hk.
        destruct (layout_helper_is_array (klass_layout alloc)); [by rewrite Hk|done].
    - exists mem, m, instance_base_offset_in_bytes. unfold instance_base_offset_in_bytes, set_klass_gap.
      destruct UseCompressedClassPointers; [rewrite Hc by done|rewrite andb_false_r]; split_and!; try done; by auto. }
  pose proof (ai_init _ _ _ _ Ha). destruct (initialization alloc) eqn:Ei; [| done |].
  - rewrite Hz. cbn [negb]. by apply evm_clear; try done; apply Ha.
  - eapply evm_complete; done.
Qed.

(** ** The new object *)

(** What the profile adds: the tag of the header and the counter. *)
Inductive profiled (m : memory) (gen : Z) : option (Node * Node * Node) → Z → memory → Prop :=
  | Unprofiled : gen = 0 → profiled m gen None 0 m
  | Profiled cn on ctx off n :
      is_site gen → is_context ctx → ev cn = Some ctx → ev on = Some off →
      address (acc_addr (sites gen) + off) → owner (acc_addr (sites gen) + off) ≠ O_heap →
      owner (acc_addr (sites gen) + off + 4) ≠ O_heap →
      load64 m (acc_addr (sites gen) + off) = Some n →
      profiled m gen (Some (cn, on, ConP (acc_addr (sites gen)))) (gen * 65536 + ctx)
        (store64 m (acc_addr (sites gen) + off) (u64 (n + 1))).

Lemma tag_word gen ctx :
  is_site gen → is_context ctx →
  u32 (i32 (u32 (u32 gen <<< 16)) ||| ctx) = u32 (gen * 65536 + ctx) ∧ gen * 65536 + ctx ≠ 0 ∧ in_u32 (gen * 65536 + ctx).
Proof.
  unfold is_site, is_context, NG2C_MAX_ALLOC_SITE, in_u32. intros Hg Hc. split; [|lia].
  rewrite u32_lor, u32_i32, u32_idemp, (u32_small gen), Z.shiftl_mul_pow2, !u32_small by (unfold in_u32; lia).
  rewrite Z.lor_comm, <- (Z.shiftl_mul_pow2 _ 16), lor_shiftl_add by (done || lia). lia.
Qed.

Lemma evm_install mem m h b x gen prof tag m' :
  evm mem = Some (store64 m x h) → ev b = Some x → 0 <= x < 2 ^ 62 → owner x = O_heap → owner (x + 4) = O_heap →
  profiled m gen prof tag m' →
  evm (install_profile mem b gen prof) =
    Some (if tag =? 0 then store64 m' x h else store32 (store64 m' x h) (x + 4) tag).
Proof.
  intros Hm Hb Hx Ho Ho4 Hp. unfold install_profile.
  destruct Hp as [Hg|cn on ctx off n Hg Hc Hcn Hon Haa Ho1 Ho2 Hn]; [done|].
  destruct (tag_word gen ctx Hg Hc) as (Et & Hnz & _). rewrite (proj2 (Z.eqb_neq _ _) Hnz).
  set (mem2 := make_store mem b _ _ T_INT). set (acc := acc_addr (sites gen)) in *.
  assert (evm mem2 = Some (store32 (store64 m x h) (x + 4) (gen * 65536 + ctx))) as H2.
  { rewrite <- (store32_u32 _ _ _ _ Et). apply (evm_store_int _ _ b 4); try done; [unfold address; lia|].
    cbn [eval]. by rewrite Hcn. }
  assert (∀ i j, (i = 0 ∨ i = 4) → (j = 0 ∨ j = 4) → acc + off + i ≠ x + j) as Hd.
  { intros i j [-> | ->] [-> | ->]; rewrite ?Z.add_0_r; congruence. }
  pose proof (Hd 0 0) as D1. pose proof (Hd 0 4) as D2. pose proof (Hd 4 0) as D3. pose proof (Hd 4 4) as D4.
  assert (load64 (store32 (store64 m x h) (x + 4) (gen * 65536 + ctx)) (acc + off) = Some n) as Hl.
  { rewrite <- Hn. unfold load64. rewrite !load32_store32_ne, !load32_store64_ne by lia. done. }
  assert (ev (AddP (ConP acc) (ConP acc) on) = Some (acc + off)) as Hadr by by apply ev_AddP.
  assert (ev (make_load_at mem2 (ConP acc) on T_LONG) = Some (i64 n)) as Hv.
  { unfold make_load_at. cbn [LoadNode_make]. by rewrite ev_LoadL, H2, Hadr; cbn [mbind option_bind]; rewrite Hl. }
  unfold make_store_at. cbn [StoreNode_make]. rewrite evm_StoreL, H2, Hadr. cbn [mbind option_bind].
  rewrite (ev_AddL _ _ (i64 n) 1) by done.
  cbn [mbind option_bind]. f_equal. rewrite (store64_u64 _ _ _ (u64 (n + 1))).
  - rewrite <- (store64_comm_32 _ (acc + off)), store64_comm by lia. done.
  - rewrite !u64_mod, !i64_mod. Z.to_euclidean_division_equations; lia.
Qed.

Lemma evm_initialize alloc mem m b x kp size len K gen prof tag m' :
  alloc_inputs alloc kp size len → modes len → evm mem = Some m → ev b = Some x → 2 <= size < 2 ^ 59 →
  0 <= x → x + 8 * size < 2 ^ 62 → owner x = O_heap → owner (x + 4) = O_heap →
  address (kp + prototype_header_offset) → load64 m (kp + prototype_header_offset) = Some (_prototype_header K) →
  profiled m gen prof tag m' →
  evm (initialize_object alloc mem b gen prof) =
    Some (emitted_header (new_body m' x size len) x (mark_of len K) tag kp).
Proof.
  intros Ha Hmd Hm Hb Hs Hx Hr Hox Hox4 Hka Hk Hp. unfold initialize_object.
  match goal with |- context [make_store mem b mark_offset_in_bytes ?n _] => set (mn := n) end.
  assert (ev mn = Some (mark_of len K)) as Hmn.
  { pose proof (ai_length _ _ _ _ Ha) as HL. unfold mn, mark_of, length_node in *.
    destruct (length alloc), len; try done; rewrite ?bool_decide_eq_true_2, ?bool_decide_eq_false_2 by (by eauto || by intros [? ?]);
      cbn [negb]; rewrite ?andb_false_r, ?andb_true_r; [done|].
    destruct UseBiasedLocking; [|done]. by rewrite (ev_load_address _ m _ _ kp), Hk by (done || apply Ha). }
  pose proof (evm_store_address mem m b mark_offset_in_bytes mn x _ Hm Hb ltac:(unfold address, mark_offset_in_bytes; lia) Hmn) as H1.
  unfold mark_offset_in_bytes at 2 in H1. rewrite Z.add_0_r in H1.
  pose proof (evm_install _ _ _ b x gen prof tag m' H1 Hb ltac:(lia) Hox Hox4 Hp) as H2.
  rewrite (evm_body alloc _ (emitted_header m' x (mark_of len K) tag kp) b x kp size len); try done.
  - by rewrite new_body_header by apply Hmd.
  - apply evm_store_klass; try done; [unfold address; lia|apply Ha].
  - unfold address. lia.
Qed.

End emitted.

(** ** Frames *)

Section frames.
Context {cfg : VMConfig} {flags : TlabFlags} {c2 : C2Config} {lay : Layout}.

Lemma owned_load32 m m' a o :
  (∀ b, owner b = o → m' !! b = m !! b) → owner a = o → load32 m' a = load32 m a.
Proof. intros H Ho. unfold load32. by apply H. Qed.

Lemma owned_load64 m m' a o :
  (∀ b, owner b = o → m' !! b = m !! b) → owns64 a o → load64 m' a = load64 m a.
Proof. intros H (_ & H1 & H2). unfold load64. by rewrite !(owned_load32 m m' _ o). Qed.

Lemma store64_owned m a o v b : owns64 a o → owner b ≠ o → store64 m a v !! b = m !! b.
Proof.
  intros (_ & H1 & H2) Hb. unfold store64, store32. rewrite !lookup_insert_ne by congruence. done.
Qed.

Lemma emitted_out m obj size len h tag kp :
  2 <= size → array_mode len → agree_out m (emitted_header (new_body m obj size len) obj h tag kp) obj (obj + 8 * size).
Proof.
  intros Hs Hm. apply agree_out_trans with (new_body m obj size len).
  - unfold new_body. destruct (fill_words_spec (match len with Some l => store32 m (obj + 12) l | None => set_klass_gap m obj 0 end)
      (obj + 16) (Z.to_nat (size - 2)) 0) as [F _].
    eapply agree_out_trans; [|eapply agree_out_weaken; [exact F|lia..]].
    destruct len; [apply store32_out; lia|]. unfold set_klass_gap.
    destruct UseCompressedClassPointers; [|apply agree_out_refl]. apply store32_out. change klass_gap_offset_in_bytes with 12. lia.
  - unfold emitted_header. eapply agree_out_trans; [|apply set_klass_out; lia].
    destruct (tag =? 0); [apply store64_out; lia|]. eapply agree_out_trans; [apply store64_out|apply store32_out]; lia.
Qed.

Lemma same_heap_store64 m g a o v : same_heap m g → owns64 a o → o ≠ O_heap → same_heap (store64 m a v) g.
Proof. intros H Ha Ho b Hb. rewrite (store64_owned _ _ o) by congruence. by apply H. Qed.

(** The stores of a new object keep two memories equal on the heap. *)
Lemma same_heap_store32 m g a v : same_heap m g → same_heap (store32 m a v) (store32 g a v).
Proof.
  intros H b Hb. unfold store32. destruct (decide (a = b)) as [->|]; [by rewrite !lookup_insert_eq|].
  rewrite !lookup_insert_ne by done. by apply H.
Qed.

Lemma same_heap_stores m g a v : same_heap m g → same_heap (store64 m a v) (store64 g a v).
Proof. intros H. by do 2 apply same_heap_store32. Qed.

Lemma same_heap_fill m g a n v : same_heap m g → same_heap (fill_words m a n v) (fill_words g a n v).
Proof.
  revert m g a. induction n as [|n IH]; intros m g a H; [done|]. cbn [fill_words]. by apply IH, same_heap_stores.
Qed.

Lemma same_heap_emitted m g obj size len h tag kp :
  same_heap m g →
  same_heap (emitted_header (new_body m obj size len) obj h tag kp) (emitted_header (new_body g obj size len) obj h tag kp).
Proof.
  intros H. unfold emitted_header, new_body, set_klass, set_klass_gap.
  destruct UseCompressedClassPointers, (tag =? 0), len;
    repeat first [apply same_heap_store32 | apply same_heap_stores | apply same_heap_fill | done].
Qed.

End frames.

(** ** Equivalence with the runtime *)

Section equivalence.
Context {cfg : VMConfig} {flags : TlabFlags} {c2 : C2Config} {lay : Layout}.
Variables rs dummy : Z.
Variable other_regions : G1Heap → Z * G1Heap.
Variable regions_by_index : gmap Z Z.
Variable log_grain : Z.
Variables eden humongous collect : World → Z → option (Z * World).
Variable parms : nat → Z.

(** The function of the runtime behind the slow call. *)
Definition runtime_allocate (w : World) (kp gen size : Z) (len : option Z) : option (outcome * World) :=
  match len with
  | Some l => array_allocate rs dummy other_regions regions_by_index log_grain eden humongous collect w (new_KlassHandle kp) gen size l
  | None => obj_allocate rs dummy other_regions regions_by_index log_grain eden humongous collect w (new_KlassHandle kp) gen size
  end.

(** The generation the allocation goes to. *)
Definition target_of (w : World) (M : gmap Z NGenerationArray) (gen tg : Z) : Prop :=
  (gen = 0 ∧ tg = 0) ∨
  (is_site gen ∧ 0 <= tg < 16 ∧ ∃ a, M !! gen = Some a ∧ target_gen a (context_of w) = Some tg).

Definition tag_at (w : World) (gen : Z) : Z := if gen =? 0 then 0 else gen * 65536 + context_of w.

(** The sites after the allocation. *)
Definition counted_sites (w : World) (M : gmap Z NGenerationArray) (gen : Z) (M' : gmap Z NGenerationArray) : Prop :=
  (gen = 0 ∧ M' = M) ∨
  (is_site gen ∧ ∃ a a', M !! gen = Some a ∧ inc_number_allocs a (context_of w) = Some a' ∧ M' = <[gen := a']> M).

Lemma site_of_site gen : is_site gen → site_of gen = gen.
Proof. intros H. unfold site_of, mask_bits. apply (land_ones_small gen 16). unfold is_site in H. lia. Qed.

Lemma profile_world w M kp gen tg :
  bci_rel (w_sites w) M → List.length (th_tlabs (w_thread w)) = 16%nat → target_of w M gen tg →
  ∃ k1 w1 M1, profile_allocation w (new_KlassHandle kp) gen = Some (k1, w1) ∧
    _value k1 = kp ∧ _as_hash k1 = tag_at w gen ∧ selected_tlab (w_thread w1) k1 = tg ∧
    th_tlabs (w_thread w1) = th_tlabs (w_thread w) ∧ th_context (w_thread w1) = th_context (w_thread w) ∧
    w_heap w1 = w_heap w ∧ bci_rel (w_sites w1) M1 ∧ counted_sites w M gen M1.
Proof.
  intros Hrel Hlen [[-> ->]|(Hg & Hr & a & Ha & Ht)].
  - exists (new_KlassHandle kp), w, M. split_and!; try done. by left.
  - assert (gen ≠ 0) as Hn by (unfold is_site in Hg; lia). pose proof (site_of_site gen Hg) as Es.
    destruct (profile_spec w (new_KlassHandle kp) gen M a tg) as (a' & st & Ep & Hrel' & _ & Hi); rewrite ?Es; try done; [lia..|].
    eexists _, _, _. split; [exact Ep|]. unfold tag_at. rewrite (proj2 (Z.eqb_neq _ _) Hn). rewrite Es in *.
    split_and!; try done.
    + cbn. unfold tag_of. by rewrite Es.
    + apply selected_tlab_directed.
    + right. split; [done|]. by exists a, a'.
Qed.

Lemma tag_at_range w gen tg M : target_of w M gen tg → in_u32 (tag_at w gen).
Proof.
  intros [[-> _]|[Hg _]]; [done|]. unfold tag_at. destruct (gen =? 0); [done|].
  apply (tag_word gen (context_of w) Hg). apply mask16_range.
Qed.

Lemma runtime_allocate_fast w M kp K gen size len tg t :
  bci_rel (w_sites w) M → List.length (th_tlabs (w_thread w)) = 16%nat → target_of w M gen tg →
  tlab_room (w_thread w) tg t size → klass_of kp K len → array_mode len → 2 <= size < 2 ^ 60 →
  ∃ w' M', runtime_allocate w kp gen size len = Some (Allocated (tl_top t), w') ∧
    g_mem (w_heap w') = emitted_header (new_body (g_mem (w_heap w)) (tl_top t) size len) (tl_top t) (mark_of len K) (tag_at w gen) kp ∧
    th_tlabs (w_thread w') = <[Z.to_nat tg := set_tlab_top t (tl_top t + 8 * size)]> (th_tlabs (w_thread w)) ∧
    th_context (w_thread w') = th_context (w_thread w) ∧
    bci_rel (w_sites w') M' ∧ counted_sites w M gen M'.
Proof.
  intros Hrel Hlen Htg Hroom Hk Hm Hs. destruct (profile_world w M kp gen tg Hrel Hlen Htg) as
    (k1 & w1 & M1 & Ep & Ev & Eh & Es & Et & Ec & Ehp & Hrel1 & Hcs).
  assert (tlab_room (w_thread w1) (selected_tlab (w_thread w1) k1) t size) as Hr1.
  { rewrite Es. destruct Hroom as [R1 R2 R3]. split; [|done..]. unfold tlab_at in *. by rewrite Et. }
  pose proof (allocate_fast rs dummy other_regions regions_by_index log_grain eden humongous collect w1 k1 t size Hr1 ltac:(lia)) as Ea.
  set (w2 := with_thread w1 (put_tlab (w_thread w1) (selected_tlab (w_thread w1) k1) (set_tlab_top t (tl_top t + 8 * size)))).
  pose proof (setup_object_emitted (g_mem (w_heap w)) k1 K (tl_top t) size len (tag_at w gen)) as Hsetup.
  rewrite Ev in Hsetup. specialize (Hsetup Hk Hm Eh (tag_at_range _ _ _ _ Htg) Hs).
  exists (with_mem w2 (emitted_header (new_body (g_mem (w_heap w)) (tl_top t) size len) (tl_top t) (mark_of len K) (tag_at w gen) kp)), M1.
  split_and!; try done; [|cbn; by rewrite Es, Et].
  unfold runtime_allocate, array_allocate, obj_allocate, setup_object in *.
  destruct len; rewrite Ep; cbn [mbind option_bind]; rewrite Ea; cbn [mbind option_bind]; unfold after_allocation;
    cbn [w_heap with_mem with_heap with_thread set_mem g_mem]; rewrite Ehp, Hsetup; cbn [mbind option_bind];
    unfold w2, with_mem, with_heap; cbn; rewrite Ehp; done.
Qed.

(** The cells of a TLAB are cells of the heap. *)
Record tlab_mapped (t : ThreadLocalAllocBuffer) : Prop := {
  tm_range : 0 <= tl_top t <= tl_end t ∧ tl_end t < 2 ^ 62;
  tm_null : tl_top t = 0 → tl_end t = 0;
  tm_heap : ∀ a, tl_top t <= a < tl_end t → owner a = O_heap
}.

(** What the fast path writes before the object: the watermark, the top of
    the TLAB and the counter. *)
Record before_object (raw m : memory) (w : World) (M : gmap Z NGenerationArray) (gen tg top : Z) : Prop := {
  bo_frame : ∀ o b, owner b = o → o ≠ O_tlab tg 1 → o ≠ O_tlab tg 2 →
    (∀ a, M !! gen = Some a → o ≠ O_allocs gen (Z.of_nat (slot a (context_of w)))) → m !! b = raw !! b;
  bo_top : load64 m (tlab_ptr tg + 8) = Some top;
  bo_pf : is_Some (load64 m (tlab_ptr tg + 16));
  bo_count : is_site gen → ∀ a n, M !! gen = Some a → number_allocs a (context_of w) = Some n →
    load64 m (acc_addr (sites gen) + 8 * Z.of_nat (slot a (context_of w))) = Some (u64 (n + 1))
}.

Lemma repr_array_frame raw m s a :
  layout_ok → is_site s → repr_array raw s a →
  (∀ o b, owner b = o → (o = O_factor s ∨ ∃ c, o = O_target s c ∨ o = O_allocs s c) → m !! b = raw !! b) →
  repr_array m s a.
Proof.
  intros HL Hs [H1 H2 H3] Hf. split.
  - destruct (lo_factor HL s Hs) as [_ Ho]. rewrite (owned_load32 raw m _ (O_factor s)); [done| |done].
    intros b Hb. eapply Hf; eauto.
  - intros c Hc. rewrite (owned_load64 raw m _ (O_target s c)); [by apply H2| |by apply lo_target]. intros b Hb. eapply Hf; eauto.
  - intros c Hc. rewrite (owned_load64 raw m _ (O_allocs s c)); [by apply H3| |by apply lo_allocs]. intros b Hb. eapply Hf; eauto.
Qed.

(** The counted array. *)
Lemma repr_array_counted raw m w M gen tg top a a' :
  layout_ok → is_site gen → arr_ok a → repr_array raw gen a → M !! gen = Some a →
  before_object raw m w M gen tg top → inc_number_allocs a (context_of w) = Some a' → repr_array m gen a'.
Proof.
  intros HL Hs Hok [H1 H2 H3] Ha [B1 _ _ B4] Hi.
  assert (is_context (context_of w)) as Hctx by apply mask16_range. pose proof (slot_lt a _ Hok Hctx) as Hsl.
  unfold inc_number_allocs in Hi. destruct (_allocs_gen a !! slot a (context_of w)) as [n|] eqn:En; [|done].
  injection Hi as <-. split; cbn [_factor_bytes set_allocs _target_gen _allocs_gen].
  - destruct (lo_factor HL gen Hs) as [_ Ho].
    rewrite (owned_load32 raw m _ (O_factor gen)); [done| |done]. intros b Hb. by eapply B1.
  - intros c Hc. rewrite (owned_load64 raw m _ (O_target gen c)); [by apply H2| |by apply lo_target]. intros b Hb. by eapply B1.
  - intros c Hc. destruct (decide (c = Z.of_nat (slot a (context_of w)))) as [->|Hn].
    + rewrite Nat2Z.id, list_lookup_insert_eq by (rewrite (ao_allocs _ Hok); lia). by eapply B4.
    + unfold is_context in Hc. rewrite list_lookup_insert_ne by lia.
      rewrite (owned_load64 raw m _ (O_allocs gen c)); [by apply H3| |by apply lo_allocs].
      intros b Hb. eapply B1; [done..|]. intros a0 Ha0. rewrite Ha in Ha0. injection Ha0 as <-. congruence.
Qed.

Lemma tlab_at_insert th tlabs tg t i t' :
  tlab_at th tg = Some t → tlabs = <[Z.to_nat tg := t']> (th_tlabs th) →
  (if i <? 0 then None else tlabs !! Z.to_nat i) = (if i =? tg then Some t' else tlab_at th i).
Proof.
  intros Ht ->. unfold tlab_at in *. destruct (Z.ltb_spec tg 0) as [|Hp]; [done|]. apply lookup_lt_Some in Ht.
  destruct (Z.eqb_spec i tg) as [->|Hn].
  - rewrite (proj2 (Z.ltb_ge tg 0)), list_lookup_insert_eq by done. done.
  - destruct (Z.ltb_spec i 0); [done|]. by rewrite list_lookup_insert_ne by lia.
Qed.

(** The state after the fast path represents the state after the runtime's
    allocation. *)
Section after.
Variables raw m raw' : memory.
Variable w : World.
Variable M : gmap Z NGenerationArray.
Variables gen tg size : Z.
Variable t : ThreadLocalAllocBuffer.
Hypothesis HL : layout_ok.
Hypothesis HR : repr raw w M.
Hypothesis Ht : tlab_at (w_thread w) tg = Some t.
Hypothesis Hr : 0 <= tg < 16.
Hypothesis HB : before_object raw m w M gen tg (tl_top t + 8 * size).
Hypothesis Hm : ∀ b, owner b ≠ O_heap → raw' !! b = m !! b.

Lemma after_frame o b :
  owner b = o → o ≠ O_heap → o ≠ O_tlab tg 1 → o ≠ O_tlab tg 2 →
  (∀ a, M !! gen = Some a → o ≠ O_allocs gen (Z.of_nat (slot a (context_of w)))) → raw' !! b = raw !! b.
Proof. intros Ho Hh H1 H2 H3. rewrite Hm by congruence. by eapply (bo_frame _ _ _ _ _ _ _ HB). Qed.

Lemma after_load64 a o : owns64 a o → o ≠ O_heap → load64 raw' a = load64 m a.
Proof. intros Ha Ho. apply (owned_load64 _ _ _ o); [|done]. intros b Hb. apply Hm. congruence. Qed.

Lemma after_tlab i t' :
  (if i =? tg then Some (set_tlab_top t (tl_top t + 8 * size)) else tlab_at (w_thread w) i) = Some t' →
  repr_tlab raw' i t'.
Proof.
  intros Hi. assert (0 <= i < 16) as Hi16.
  { destruct (Z.eqb_spec i tg) as [->|]; [done|]. unfold tlab_at in Hi. destruct (Z.ltb_spec i 0); [done|].
    apply lookup_lt_Some in Hi. pose proof (rp_count _ _ _ HR). lia. }
  pose proof (lo_tlab HL i 1 Hi16 ltac:(lia)) as O1. pose proof (lo_tlab HL i 2 Hi16 ltac:(lia)) as O2.
  pose proof (lo_tlab HL i 3 Hi16 ltac:(lia)) as O3. change (8 * 1) with 8 in O1. change (8 * 2) with 16 in O2.
  change (8 * 3) with 24 in O3. assert (load64 raw' (tlab_ptr i + 24) = load64 raw (tlab_ptr i + 24)) as H3.
  { eapply owned_load64; [|exact O3]. intros b Hb. eapply after_frame; try done; congruence. }
  destruct (Z.eqb_spec i tg) as [->|Hn].
  - injection Hi as <-. split; cbn [tl_top set_tlab_top tl_end].
    + rewrite (after_load64 _ _ O1) by done. apply HB.
    + rewrite (after_load64 _ _ O2) by done. apply HB.
    + rewrite <- (rt_end _ _ _ (rp_tlab _ _ _ HR tg t Ht)). exact H3.
  - destruct (rp_tlab _ _ _ HR i t' Hi) as [T1 T2 T3]. split; [rewrite <- T1| |rewrite <- T3; exact H3].
    + eapply owned_load64; [|exact O1]. intros b Hb. eapply after_frame; try done; congruence.
    + destruct T2 as [v T2]. exists v. rewrite <- T2. eapply owned_load64; [|exact O2].
      intros b Hb. eapply after_frame; try done; congruence.
Qed.

Lemma after_array M' s a :
  counted_sites w M gen M' → M' !! s = Some a → is_site s → repr_array raw' s a.
Proof.
  intros Hcs Hs Hsite.
  assert (M !! s = Some a → (∀ a0, M !! gen = Some a0 → gen ≠ s) → repr_array raw' s a) as Hother.
  { intros H1 H2. eapply (repr_array_frame raw); try done; [by apply (rp_arrays _ _ _ HR)|]. intros o b Ho Hor.
    eapply after_frame; try done; [..|intros a0 Ha0; specialize (H2 a0 Ha0)];
      destruct Hor as [->|(c & [->| ->])]; congruence. }
  destruct Hcs as [[E ->]|(Hg & a0 & a1 & H0 & H1 & ->)].
  - apply Hother; [done|]. unfold is_site in Hsite. lia.
  - apply lookup_insert_Some in Hs as [[-> ->]|[Hne Hs]]; [|by apply Hother].
    eapply (repr_array_frame m); try done.
    + eapply repr_array_counted; try done; [|by apply (rp_arrays _ _ _ HR)].
      by eapply in_table_arr_ok; [apply (rp_sites _ _ _ HR)|].
    + intros o b Ho Hor. apply Hm. rewrite Ho. destruct Hor as [->|(c & [->| ->])]; done.
Qed.

Lemma repr_after w' M' :
  same_heap raw' (g_mem (w_heap w')) →
  th_tlabs (w_thread w') = <[Z.to_nat tg := set_tlab_top t (tl_top t + 8 * size)]> (th_tlabs (w_thread w)) →
  th_context (w_thread w') = th_context (w_thread w) →
  bci_rel (w_sites w') M' → counted_sites w M gen M' → repr raw' w' M'.
Proof.
  intros Hheap Etl Ec Hrel Hcs. split; try done; rewrite ?Ec.
  - rewrite <- (rp_context _ _ _ HR). destruct (lo_context HL) as [_ Ho].
    eapply owned_load32; [|exact Ho]. intros b Hb. by eapply after_frame.
  - apply (rp_context_range _ _ _ HR).
  - rewrite <- (rp_tlabs _ _ _ HR). eapply owned_load64; [|apply (lo_tlabs HL)]. intros b Hb. by eapply after_frame.
  - rewrite Etl, length_insert. apply (rp_count _ _ _ HR).
  - intros i Hi. rewrite <- (rp_array _ _ _ HR i Hi). eapply owned_load64; [|by apply (lo_array HL)].
    intros b Hb. by eapply after_frame.
  - intros i t' Hi. apply after_tlab. unfold tlab_at in Hi. by rewrite (tlab_at_insert _ _ _ _ i _ Ht Etl) in Hi.
  - intros s a. by apply after_array.
  - intros k K HK. rewrite <- (rp_klass _ _ _ HR k K HK). eapply owned_load64; [|by eapply (lo_klass HL)].
    intros b Hb. by eapply after_frame.
Qed.

End after.

(** ** The fast path *)

Definition target_node (p : option (Node * Node * Node * Node)) : option Node :=
  (λ '(_, _, target_gen, _), target_gen) <$> p.
Definition count_nodes (p : option (Node * Node * Node * Node)) : option (Node * Node * Node) :=
  (λ '(context, offset_long, _, acc_addr), (context, offset_long, acc_addr)) <$> p.

(** The stores before the object, on a memory that differs from [raw] in the
    watermark and the top of the TLAB. *)
Lemma before_object_intro raw w M gen tg m1 m2 top :
  layout_ok → repr raw w M → target_of w M gen tg → 0 <= tg < 16 → in_u64 top →
  m1 = raw ∨ (∃ v, m1 = store64 raw (tlab_ptr tg + 16) v) → is_Some (load64 raw (tlab_ptr tg + 16)) →
  m2 = store64 m1 (tlab_ptr tg + 8) top →
  ∃ m3, profiled parms raw m2 gen (count_nodes (profile_nodes gen (sites gen) RawMem)) (tag_at w gen) m3 ∧
    before_object raw m3 w M gen tg top ∧ same_heap m3 (g_mem (w_heap w)).
Proof.
  intros HL HR Htg Hr Hu Hm1 Hpf ->.
  pose proof (lo_tlab HL tg 1 Hr ltac:(lia)) as O1. pose proof (lo_tlab HL tg 2 Hr ltac:(lia)) as O2.
  change (8 * 1) with 8 in O1. change (8 * 2) with 16 in O2.
  assert (∀ b, owner b ≠ O_tlab tg 2 → m1 !! b = raw !! b) as F1.
  { intros b Hb. destruct Hm1 as [->|[v ->]]; [done|]. by eapply store64_owned. }
  assert (∀ b, owner b ≠ O_tlab tg 1 → owner b ≠ O_tlab tg 2 → store64 m1 (tlab_ptr tg + 8) top !! b = raw !! b) as F2.
  { intros b H1 H2. rewrite (store64_owned _ _ (O_tlab tg 1)) by done. by apply F1. }
  assert (is_Some (load64 (store64 m1 (tlab_ptr tg + 8) top) (tlab_ptr tg + 16))) as Hpf2.
  { rewrite (owned_load64 m1 _ _ (O_tlab tg 2)); [|intros b Hb; apply (store64_owned _ _ (O_tlab tg 1)); congruence|done].
    destruct Hm1 as [->|[v ->]]; [done|]. rewrite load64_store64. by eexists. }
  assert (load64 (store64 m1 (tlab_ptr tg + 8) top) (tlab_ptr tg + 8) = Some top) as Htop.
  { by rewrite load64_store64, u64_small. }
  assert (same_heap (store64 m1 (tlab_ptr tg + 8) top) (g_mem (w_heap w))) as Hheap.
  { intros b Hb. rewrite F2 by congruence. by apply (rp_heap _ _ _ HR). }
  destruct Htg as [[-> ->]|(Hg & _ & a & Ha & Ht)].
  - eexists. split; [by apply Unprofiled|]. split; [|done].
    split; [by intros o b <- ?? _; apply F2|done|done|by unfold is_site; lia].
  - pose proof (in_table_arr_ok _ _ _ _ (rp_sites _ _ _ HR) Ha) as Hok.
    destruct (ev_profile parms raw w M gen a tg) as (cn & on & tn & -> & Hcn & Hon & _); try done.
    assert (is_context (context_of w)) as Hctx by apply mask16_range. pose proof (slot_lt a _ Hok Hctx) as Hsl.
    assert (is_context (Z.of_nat (slot a (context_of w)))) as Hslot.
    { pose proof max_sites_eq. unfold is_context. lia. }
    pose proof (lo_allocs HL gen _ Hg Hslot) as OA. destruct OA as (OA1 & OA2 & OA3).
    destruct (lookup_lt_is_Some_2 (_allocs_gen a) (slot a (context_of w))) as [n Hn]; [by rewrite (ao_allocs _ Hok)|].
    unfold tag_at. rewrite (proj2 (Z.eqb_neq gen 0)) by (unfold is_site in Hg; lia).
    eexists. split; [eapply Profiled with (n := n); try done; [by rewrite OA2|by rewrite OA3|]|split; [split|]].
    + rewrite (owned_load64 raw _ _ (O_allocs gen (Z.of_nat (slot a (context_of w))))); [|intros b Hb; apply F2; congruence|done].
      rewrite (ra_allocs _ _ _ (rp_arrays _ _ _ HR gen a Ha Hg)), Nat2Z.id by done. done.
    + intros o b <- H1 H2 H3. rewrite (store64_owned _ _ _ _ _ (conj OA1 (conj OA2 OA3))) by by apply H3. by apply F2.
    + rewrite (owned_load64 (store64 m1 (tlab_ptr tg + 8) top) _ _ (O_tlab tg 1)); [done| |done].
      intros b Hb. eapply store64_owned; [by split_and!|congruence].
    + rewrite (owned_load64 (store64 m1 (tlab_ptr tg + 8) top) _ _ (O_tlab tg 2)); [done| |done].
      intros b Hb. eapply store64_owned; [by split_and!|congruence].
    + intros _ a0 n0 Ha0 Hn0. rewrite Ha in Ha0. injection Ha0 as <-. unfold number_allocs in Hn0. rewrite Hn in Hn0.
      injection Hn0 as <-. rewrite load64_store64. f_equal. apply u64_small, u64_range.
    + by eapply same_heap_store64; [|by split_and!|].
Qed.

(** When the emitted code does not call the runtime: the TLAB has strictly
    more room than the object needs, and nothing else forces the call. *)
Definition test_passes (raw : memory) (alloc : AllocateNode) : bool :=
  match initial_slow_test alloc with
  | inl tv => negb (tv =? 1)
  | inr n => bool_decide (eval thread parms raw n = Some 0)
  end.
Definition fast_taken (raw : memory) (alloc : AllocateNode) (t : ThreadLocalAllocBuffer) (size : Z) : bool :=
  UseTLAB && negb dtrace_alloc_probes && test_passes raw alloc && (tl_top t + 8 * size <? tl_end t).

Lemma ev_predicate raw n v :
  eval thread parms raw n = Some v → eval thread parms raw (make_predicate n) = Some (if v =? 0 then 0 else 1).
Proof.
  intros Hn. unfold make_predicate. cbn [eval]. rewrite Hn. cbn [mbind option_bind]. unfold compare, test_holds.
  destruct (Z.ltb_spec v 0), (Z.eqb_spec v 0); try done; lia.
Qed.

Lemma run_slow raw alloc kp gen size len :
  alloc_inputs parms raw alloc kp size len →
  run thread parms raw (CallStaticJava (klass_node alloc) (ConI (i32 gen)) (length alloc) RawMem) =
    Some (RuntimeCall kp (i32 gen) len raw).
Proof.
  intros Ha. pose proof (ai_length _ _ _ _ _ _ Ha) as HL. unfold length_node in HL. cbn [run eval_mem].
  rewrite (ai_klass _ _ _ _ _ _ Ha). cbn [mbind option_bind eval].
  destruct (length alloc), len; try done. by rewrite HL.
Qed.

(** The code behind the tests: compare with the end of the TLAB, then
    allocate. *)
Lemma run_tlab raw w M alloc kp K gen size len tg t :
  layout_ok → repr raw w M → modes len → alloc_inputs parms raw alloc kp size len → klass_of kp K len →
  target_of w M gen tg → 0 <= tg < 16 → tlab_at (w_thread w) tg = Some t → tlab_mapped t → 2 <= size < 2 ^ 58 →
  let p := profile_nodes gen (sites gen) RawMem in
  let '(g, tn, en) := set_eden_pointers RawMem (target_node p) in
  let old := LoadP RawMem tn in
  let new := AddP Top old (size_in_bytes alloc) in
  eval thread parms raw (Bool (CmpP new (make_load RawMem en 0 T_ADDRESS)) ge) =
    Some (if tl_top t + 8 * size <? tl_end t then 0 else 1) ∧
  (tl_top t + 8 * size < tl_end t →
   ∃ raw' w' M',
     run thread parms raw (Result old (initialize_object alloc
       (StoreP (prefetch_allocation g RawMem old new (bool_decide (is_Some (length alloc)))) tn new) old gen (count_nodes p))) =
       Some (NewObject (tl_top t) raw') ∧
     runtime_allocate w kp gen size len = Some (Allocated (tl_top t), w') ∧ repr raw' w' M').
Proof.
  intros HL HR Hmd Ha Hk Htg Hr Ht Hmap Hs p. destruct (tm_range _ Hmap) as [Hrg Hend].
  assert (directed_to parms raw (target_node p) tg) as Hdir.
  { unfold p. destruct Htg as [[-> ->]|(Hg & _ & a & Hma & Hta)]; [done|].
    destruct (ev_profile parms raw w M gen a tg) as (cn & on & tn & -> & _ & _ & Hn); done. }
  destruct (ev_eden parms raw w M (target_node p) tg HL HR Hdir Hr) as (g & tn & en & -> & Hg & Htn & Hen). intros old new.
  destruct (rp_tlab _ _ _ HR tg t Ht) as [T1 T2 T3].
  assert (eval thread parms raw old = Some (tl_top t)) as Hold by (unfold old; rewrite ev_LoadP, Htn; exact T1).
  assert (eval thread parms raw new = Some (tl_top t + 8 * size)) as Hnew.
  { apply ev_AddP; [done|apply Ha|unfold address; lia]. }
  split.
  { apply ev_ge; [done|]. rewrite (ev_load_address _ _ _ raw _ _ (tlab_ptr tg + 24)), Z.add_0_r; try done.
    rewrite Z.add_0_r. by destruct (lo_tlab HL tg 3 Hr ltac:(lia)). }
  intros Hroom. destruct (evm_prefetch parms raw w M g tg t old new _ _ (bool_decide (is_Some (length alloc)))
    HL HR Hg Hr Ht Hold Hnew) as (m1 & Em1 & Hm1).
  destruct (before_object_intro raw w M gen tg m1 _ (tl_top t + 8 * size) HL HR Htg Hr ltac:(unfold in_u64; lia) Hm1 T2 eq_refl)
    as (m3 & Hp & HB & Hh3).
  set (m2 := store64 m1 (tlab_ptr tg + 8) (tl_top t + 8 * size)) in *.
  assert (tl_top t ≠ 0) as Hnz by (intros E; pose proof (tm_null _ Hmap E); lia).
  destruct (runtime_allocate_fast w M kp K gen size len tg t) as (w' & M' & Erun & Emem & Etl & Ec & Hrel & Hcs); try done;
    [apply HR|apply HR|split; [done|lia|lia]|apply Hmd|lia|].
  pose proof (lo_klass HL kp K (ko_klass _ _ _ Hk)) as OK.
  assert (load64 m2 (kp + prototype_header_offset) = Some (_prototype_header K)) as Hproto.
  { rewrite <- (rp_klass _ _ _ HR kp K (ko_klass _ _ _ Hk)). apply (owned_load64 _ _ _ (O_klass kp)); [|done].
    intros b Hb. unfold m2. pose proof (lo_tlab HL tg 1 Hr ltac:(lia)). pose proof (lo_tlab HL tg 2 Hr ltac:(lia)).
    rewrite (store64_owned _ _ (O_tlab tg 1)) by (done || congruence).
    destruct Hm1 as [->|[v ->]]; [done|]. by rewrite (store64_owned _ _ (O_tlab tg 2)) by (done || congruence). }
  eexists _, w', M'. split; [|split; [done|]].
  - change (run ?t ?p ?r (Result ?o ?m)) with (m' ← eval_mem t p r m; o' ← eval t p r o; Some (NewObject o' m')).
    rewrite (evm_initialize parms raw alloc _ m2 old (tl_top t) kp size len K gen _ (tag_at w gen) m3); try done; try lia.
    + rewrite Hold. done.
    + by rewrite evm_StoreP, Em1, Htn, Hnew.
    + apply (tm_heap _ Hmap). lia.
    + apply (tm_heap _ Hmap). lia.
    + apply OK.
  - eapply (repr_after raw m3); try done.
    + intros b Hb. apply emitted_out; [lia|apply Hmd|]. 
      destruct (decide (tl_top t <= b < tl_top t + 8 * size)); [|lia]. exfalso. apply Hb, (tm_heap _ Hmap). lia.
    + rewrite Emem. by apply same_heap_emitted.
Qed.

(** C10: The allocation code that C2 emits is equivalent to the allocation
    functions of the runtime, for allocations with no initialization or with an
    incomplete one without captured stores, without [ZeroTLAB], and in the modes of [modes] (arrays
    with compressed class pointers). Where it does not call the runtime, it
    returns the object the runtime would have returned, and leaves raw memory
    in a state that represents the state after the runtime's allocation: the
    same heap cell by cell, with the tagged header and the cleared body, the
    same TLAB tops, and the allocation counted once at the same site and
    context. It takes this path exactly when the flags and the initial test
    allow it and the object leaves room in the TLAB; otherwise it changes
    nothing and calls the runtime with the class, the site and the length. *)
Theorem compiled_allocation_equivalent raw w M alloc kp K gen size len tg t :
  layout_ok → repr raw w M → modes len → alloc_inputs parms raw alloc kp size len → klass_of kp K len →
  target_of w M gen tg → tlab_at (w_thread w) tg = Some t → tlab_mapped t → 2 <= size < 2 ^ 58 →
  if fast_taken raw alloc t size then
    ∃ raw' w' M', run thread parms raw (expand_allocate_common alloc gen (sites gen)) = Some (NewObject (tl_top t) raw') ∧
      runtime_allocate w kp gen size len = Some (Allocated (tl_top t), w') ∧ repr raw' w' M'
  else run thread parms raw (expand_allocate_common alloc gen (sites gen)) = Some (RuntimeCall kp gen len raw).
Proof.
  intros HL HR Hmd Ha Hk Htg Ht Hmap Hs. assert (0 <= tg < 16) as Hr by (destruct Htg as [[_ ->]|(_ & ? & _)]; lia).
  pose proof (run_slow raw alloc kp gen size len Ha) as Hslow.
  assert (i32 gen = gen) as Eg by (apply i32_small; destruct Htg as [[-> _]|[Hg _]]; [lia|unfold is_site in Hg; lia]).
  rewrite Eg in Hslow. unfold expand_allocate_common, fast_taken. rewrite Eg.
  pose proof (run_tlab raw w M alloc kp K gen size len tg t HL HR Hmd Ha Hk Htg Hr Ht Hmap Hs) as Hrun.
  cbv zeta in Hrun. unfold target_node, count_nodes in Hrun.
  destruct (set_eden_pointers _ _) as [[g tn] en]. destruct Hrun as [Hge Hfast].
  destruct UseTLAB, dtrace_alloc_probes; cbn [orb negb andb]; try by destruct (initial_slow_test alloc).
  assert (∀ c1 c2, run thread parms raw (If (Bool (CmpP (AddP Top (LoadP RawMem tn) (size_in_bytes alloc))
      (make_load RawMem en 0 T_ADDRESS)) ge) c1 c2) =
    if tl_top t + 8 * size <? tl_end t then run thread parms raw c2 else run thread parms raw c1) as Hif.
  { intros c1 c2'. change (run ?t ?p ?r (If ?c ?x ?y)) with
      (b ← eval t p r c; if negb (b =? 0) then run t p r x else run t p r y).
    rewrite Hge. by destruct (_ <? _). }
  unfold test_passes. destruct (initial_slow_test alloc) as [tv|n] eqn:Etest.
  - destruct (tv =? 1); cbn [negb andb]; [done|]. rewrite Hif. destruct (Z.ltb_spec (tl_top t + 8 * size) (tl_end t)); by auto.
  - destruct (ai_test _ _ _ _ _ _ Ha n Etest) as [v Hv]. cbn [negb].
    change (run ?t ?p ?r (If (make_predicate n) ?x ?y)) with
      (b ← eval t p r (make_predicate n); if negb (b =? 0) then run t p r x else run t p r y).
    rewrite (ev_predicate raw n v Hv), Hv. cbn [mbind option_bind]. destruct (Z.eqb_spec v 0) as [->|Hn].
    + rewrite bool_decide_eq_true_2 by done. cbn [negb andb Z.eqb]. rewrite Hif.
      destruct (Z.ltb_spec (tl_top t + 8 * size) (tl_end t)); by auto.
    + rewrite bool_decide_eq_false_2 by congruence. done.
Qed.

End equivalence.

(** ** The context around calls *)

Section context.
Context {cfg : VMConfig} {flags : TlabFlags} {c2 : C2Config} {lay : Layout}.
Variable parms : nat → Z.

Definition with_context (w : World) (c : Z) : World :=
  with_thread w (mkThread (th_tlabs (w_thread w)) (th_alloc_gen (w_thread w)) (th_genTlab (w_thread w))
                   (th_curTlab (w_thread w)) (th_allocated_bytes (w_thread w)) c).

Lemma repr_context raw w M v :
  layout_ok → repr raw w M → repr (store32 raw (thread + gen_context) v) (with_context w (u32 v)) M.
Proof.
  intros HL HR. destruct (lo_context HL) as [_ Ho].
  assert (∀ b, owner b ≠ O_context → store32 raw (thread + gen_context) v !! b = raw !! b) as HF.
  { intros b Hb. unfold store32. rewrite lookup_insert_ne by congruence. done. }
  assert (∀ a o, owns64 a o → o ≠ O_context → load64 (store32 raw (thread + gen_context) v) a = load64 raw a) as H64.
  { intros a o Ha Hn. apply (owned_load64 _ _ _ o); [|done]. intros b Hb. apply HF. congruence. }
  destruct HR as [R1 R2 R3 R4 R5 R6 R7 R8 R9 R10]. split; try done.
  - intros b Hb. rewrite HF by congruence. by apply R1.
  - apply load32_store32.
  - apply u32_range.
  - rewrite (H64 _ O_tlabs); [done|apply (lo_tlabs HL)|done].
  - intros i Hi. rewrite (H64 _ O_tlab_array); [by apply R7|by apply (lo_array HL)|done].
  - intros i t Hi. destruct (R8 i t Hi) as [T1 T2 T3].
    assert (0 <= i < 16) as Hr.
    { unfold tlab_at in Hi. destruct (Z.ltb_spec i 0); [done|]. apply lookup_lt_Some in Hi. cbn in Hi. lia. }
    split; [rewrite (H64 _ (O_tlab i 1)) | rewrite (H64 _ (O_tlab i 2)) | rewrite (H64 _ (O_tlab i 3))]; try done;
      [apply (lo_tlab HL i 1) | apply (lo_tlab HL i 2) | apply (lo_tlab HL i 3)]; lia.
  - intros s a Ha Hs. eapply (repr_array_frame raw); try done; [by apply R9|]. intros o b Hb Hor. apply HF.
    destruct Hor as [->|(c & [->| ->])]; congruence.
  - intros k K HK. rewrite (H64 _ (O_klass k)); [by apply R10|by eapply (lo_klass HL)|done].
Qed.

Lemma with_same_context w : with_context w (th_context (w_thread w)) = w.
Proof. by destruct w as [? ? ? ? []]. Qed.

Lemma ev_context raw w M : layout_ok → repr raw w M →
  eval thread parms raw context_addr = Some (thread + gen_context) ∧
  eval thread parms raw (LoadI RawMem context_addr) = Some (i32 (th_context (w_thread w))).
Proof.
  intros HL HR. destruct (lo_context HL) as [Ha _].
  assert (eval thread parms raw context_addr = Some (thread + gen_context)) as E by (by apply ev_AddP). split; [done|].
  change (eval thread parms raw (LoadI RawMem context_addr)) with (a ← eval thread parms raw context_addr; i32 <$> load32 raw a).
  rewrite E. cbn [mbind option_bind]. by rewrite (rp_context _ _ _ HR).
Qed.

(** The code emitted around a call changes the context of the thread in
    raw memory as [ThreadContext] says: before the call the index of the call
    site is added to the context, after it subtracted, modulo 2^32, when the
    tracking flag is set; nothing else changes. *)
Theorem compiled_context raw w M index sc v has st :
  layout_ok → repr raw w M → eval thread parms raw sc = Some v →
  let t := ThreadContext.mkThread (th_context (w_thread w)) has st in
  (∃ m, eval_mem thread parms raw (do_context index sc RawMem) = Some m ∧
     repr m (with_context w (ThreadContext._context (ThreadContext.do_context index v t))) M) ∧
  (∃ m, eval_mem thread parms raw (do_uncontext index sc RawMem) = Some m ∧
     repr m (with_context w (ThreadContext._context (ThreadContext.emitted_uncontext index v t))) M).
Proof.
  intros HL HR Hv t. destruct (ev_context raw w M HL HR) as [Ea El].
  unfold do_context, do_uncontext, ThreadContext.do_context, ThreadContext.emitted_uncontext.
  assert (eval thread parms raw (Bool (CmpI sc (ConI 0)) ne) = Some (if v =? 0 then 0 else 1)) as Hb by by apply ev_predicate.
  rewrite !evm_Phi, Hb. cbn [mbind option_bind]. destruct (v =? 0); cbn [negb Z.eqb].
  { split; exists raw; (split; [done|]); cbn; by rewrite with_same_context. }
  rewrite !evm_StoreI. cbn [eval_mem mbind option_bind]. rewrite Ea. cbn [mbind option_bind].
  change (eval thread parms raw (AddI ?x ?y)) with (x' ← eval thread parms raw x; y' ← eval thread parms raw y; Some (i32 (x' + y'))).
  change (eval thread parms raw (SubI ?x ?y)) with (x' ← eval thread parms raw x; y' ← eval thread parms raw y; Some (i32 (x' - y'))).
  rewrite El. cbn [mbind option_bind eval]. split; (eexists; split; [done|]).
  all: match goal with |- repr (store32 _ _ ?x) (with_context _ ?y) _ => assert (y = u32 x) as -> end; [|by apply repr_context].
  all: cbn; rewrite u32_i32, !u32_mod, !i32_mod; Z.to_euclidean_division_equations; lia.
Qed.

End context.

End C2Facts.

Module C2Demo.
Import Ideal MacroExpand NGen NGenFacts MethodBciHashtable SiteTableFacts JavaHeapFacts BlockOffsetFacts.
Import RegionFacts RegionDemo TlabFacts TlabDemo HeapAlloc HeapAllocFacts HeapAllocDemo C2Facts.

#[local] Existing Instance demo_config.
#[local] Existing Instance demo_flags.

#[local] Instance demo_c2 : C2Config := mkC2Config true false 16 24 1024 168 2 192 64 3 1.

(** The heap at 1 MB, the classes at 32 GB, the thread below its TLABs, the
    profile of the sites far above. *)
Definition thread_base : Z := 2 ^ 44 - 1024.
Definition sites_base : Z := 2 ^ 45.
Definition site_bytes : Z := 2 ^ 21.

Definition demo_owner (a : Z) : Owner :=
  if a <? 0x200000 then (if a <? 0x100000 then O_other else O_heap)
  else if a <? 2 ^ 40 then
    (if (0x8000000B8 <=? a) && (a <? 0x8000000C0) then O_klass 0x800000010
     else if (0x8000000D8 <=? a) && (a <? 0x8000000E0) then O_klass 0x800000030 else O_other)
  else if a <? 2 ^ 43 then O_other
  else if a <? thread_base then O_tlab_array
  else if a <? thread_base + 24 then O_context
  else if a <? thread_base + 1024 then O_tlabs
  else if a <? sites_base then O_tlab ((a - 2 ^ 44) / 64) ((a - 2 ^ 44) mod 64 / 8)
  else
    let s := (a - sites_base) / site_bytes in
    let r := (a - sites_base) mod site_bytes in
    if r <? 2 ^ 19 then O_target s (r / 8)
    else if r <? 2 ^ 20 then O_allocs s ((r - 2 ^ 19) / 8)
    else O_factor s.

#[local] Instance demo_layout : Layout :=
  mkLayout demo_owner thread_base (2 ^ 43) (λ i, 2 ^ 44 + 64 * i)
    (λ s, mkSite (sites_base + s * site_bytes + 2 ^ 20) (sites_base + s * site_bytes)
            (sites_base + s * site_bytes + 2 ^ 19)).

Ltac owner_cases :=
  repeat match goal with
  | |- context [?a <? ?b] => destruct (Z.ltb_spec a b); try lia
  | |- context [?a <=? ?b] => destruct (Z.leb_spec a b); try lia
  end; cbn [andb].

Lemma site_owner s k :
  is_site s → 0 <= k < site_bytes →
  demo_owner (sites_base + s * site_bytes + k) =
    if k <? 2 ^ 19 then O_target s (k / 8) else if k <? 2 ^ 20 then O_allocs s ((k - 2 ^ 19) / 8) else O_factor s.
Proof.
  unfold is_site, demo_owner, thread_base, sites_base, site_bytes. intros Hs Hk.
  assert ((2 ^ 45 + s * 2 ^ 21 + k - 2 ^ 45) / 2 ^ 21 = s) as -> by (symmetry; apply Z.div_unique with k; lia).
  assert ((2 ^ 45 + s * 2 ^ 21 + k - 2 ^ 45) mod 2 ^ 21 = k) as -> by (symmetry; apply Z.mod_unique with s; lia).
  repeat match goal with |- context [2 ^ 45 + s * 2 ^ 21 + k <? ?b] =>
    destruct (Z.ltb_spec (2 ^ 45 + s * 2 ^ 21 + k) b); [lia|] end.
  done.
Qed.

Lemma site_word c i : 0 <= c < 65536 → i = 0 ∨ i = 4 → 0 <= 8 * c + i < 2 ^ 19 ∧ (8 * c + i) / 8 = c.
Proof. intros. split; [lia|]. symmetry. apply Z.div_unique with i; lia. Qed.

Lemma demo_layout_ok : layout_ok.
Proof.
  split; unfold owns32, owns64, address; cbn [owner demo_layout thread tlab_array tlab_ptr sites factor_bytes_addr
    gen_addr acc_addr gen_context gen_tlabs_offset tlab_offset prototype_header_offset demo_c2].
  - done.
  - done.
  - done.
  - intros i Hi. unfold demo_owner, thread_base. split_and!; [lia..| |]; owner_cases; done.
  - intros i k Hi Hk. unfold demo_owner, thread_base, sites_base. split; [lia|].
    assert (∀ j, j = 0 ∨ j = 4 → (2 ^ 44 + 64 * i + 8 * k + j - 2 ^ 44) / 64 = i ∧
      (2 ^ 44 + 64 * i + 8 * k + j - 2 ^ 44) mod 64 / 8 = k) as H.
    { intros j Hj. Z.to_euclidean_division_equations; lia. }
    split; [specialize (H 0)|specialize (H 4)]; rewrite ?Z.add_0_r in H; destruct H as [H1 H2]; try lia;
      rewrite ?H1, ?H2; owner_cases; done.
  - done.
  - intros s Hs. split; [unfold is_site, sites_base, site_bytes in *; lia|]. by rewrite site_owner.
  - intros s c Hs Hc. unfold is_context, NG2C_MAX_ALLOC_SITE in Hc.
    split; [unfold is_site, sites_base, site_bytes in *; lia|].
    destruct (site_word c 0) as [R0 E0], (site_word c 4) as [R4 E4]; try lia. rewrite Z.add_0_r in *.
    replace (sites_base + s * site_bytes + 8 * c + 4) with (sites_base + s * site_bytes + (8 * c + 4)) by lia.
    rewrite !site_owner, !(proj2 (Z.ltb_lt _ (2 ^ 19))), E0, E4 by (done || unfold site_bytes; lia). done.
  - intros s c Hs Hc. unfold is_context, NG2C_MAX_ALLOC_SITE in Hc.
    split; [unfold is_site, sites_base, site_bytes in *; lia|].
    destruct (site_word c 0) as [R0 E0], (site_word c 4) as [R4 E4]; try lia. rewrite Z.add_0_r in *.
    replace (sites_base + s * site_bytes + 2 ^ 19 + 8 * c + 4) with (sites_base + s * site_bytes + (2 ^ 19 + (8 * c + 4))) by lia.
    replace (sites_base + s * site_bytes + 2 ^ 19 + 8 * c) with (sites_base + s * site_bytes + (2 ^ 19 + 8 * c)) by lia.
    rewrite !site_owner by (done || unfold site_bytes; lia).
    rewrite !(proj2 (Z.ltb_ge _ (2 ^ 19))), !(proj2 (Z.ltb_lt _ (2 ^ 20))) by lia.
    replace (2 ^ 19 + 8 * c - 2 ^ 19) with (8 * c) by lia. replace (2 ^ 19 + (8 * c + 4) - 2 ^ 19) with (8 * c + 4) by lia.
    by rewrite E0, E4.
  - intros k K HK. cbn [klasses demo_config] in HK. unfold demo_klasses in HK. apply lookup_insert_Some in HK as [[<- _]|[_ HK]]; [done|].
    apply lookup_insert_Some in HK as [[<- _]|[_ HK]]; [done|by rewrite lookup_empty in HK].
Qed.

(** The thread, its TLABs and the classes word by word, and the profile of
    site 513. *)
Definition demo_tlabs : list ThreadLocalAllocBuffer := th_tlabs (demo_thread demo_tlab 1).

Definition tlab_words (i : nat) (t : ThreadLocalAllocBuffer) : list (Z * Z) :=
  [(tlab_array + 8 * Z.of_nat i, tlab_ptr (Z.of_nat i)); (tlab_ptr (Z.of_nat i) + 8, tl_top t);
   (tlab_ptr (Z.of_nat i) + 16, tl_pf_top t); (tlab_ptr (Z.of_nat i) + 24, tl_end t)].

Definition demo_words : list (Z * Z) :=
  [(thread_base + 24, tlab_array); (0x8000000B8, 1); (0x8000000D8, 5)] ++ concat (imap tlab_words demo_tlabs).

Definition store_words (m : memory) (l : list (Z * Z)) : memory := foldr (λ '(a, v) m, store64 m a v) m l.

Definition demo_native : memory :=
  store32 (store32 (store_words ∅ demo_words) (thread_base + 16) 0x2A0007) (factor_bytes_addr (sites 513)) 0.

Definition demo_profile : memory :=
  store64 (fill_words (fill_words ∅ (gen_addr (sites 513)) max_sites 0) (acc_addr (sites 513)) max_sites 0)
    (gen_addr (sites 513)) 3.

Definition demo_raw : memory := demo_native ∪ demo_profile.

Lemma native_keys a v :
  demo_native !! a = Some v → demo_owner a ≠ O_heap ∧ (a < sites_base ∨ a = factor_bytes_addr (sites 513)).
Proof.
  intros Ha. assert (forallb (λ '(k, _), negb (bool_decide (0x100000 <= k < 0x200000)) &&
    ((k <? sites_base) || (k =? factor_bytes_addr (sites 513)))) (map_to_list demo_native) = true) as H by (by vm_compute).
  rewrite forallb_forall in H. specialize (H (a, v)). rewrite <- list_elem_of_In, elem_of_map_to_list in H.
  specialize (H Ha). apply andb_prop in H as [H1 H2]. apply negb_true_iff, bool_decide_eq_false in H1.
  split; [|apply orb_prop in H2 as [H2|H2]; [left; by apply Z.ltb_lt|right; by apply Z.eqb_eq]].
  unfold demo_owner. intros E. revert E. owner_cases; done.
Qed.

Lemma load32_union (m n : memory) a v : load32 m a = Some v → load32 (m ∪ n) a = Some v.
Proof. intros H. by apply lookup_union_Some_l. Qed.

Lemma load64_union (m n : memory) a v : load64 m a = Some v → load64 (m ∪ n) a = Some v.
Proof.
  unfold load64. destruct (load32 m a) eqn:E1, (load32 m (a + 4)) eqn:E2; cbn; try done.
  by rewrite (load32_union _ _ _ _ E1), (load32_union _ _ _ _ E2).
Qed.

Lemma load64_union_r (m n : memory) a : m !! a = None → m !! (a + 4) = None → load64 (m ∪ n) a = load64 n a.
Proof. intros H1 H2. unfold load64, load32. by rewrite !lookup_union_r. Qed.

Lemma demo_profile_eq :
  demo_profile = store64 (fill_words (fill_words ∅ (gen_addr (sites 513)) max_sites 0) (acc_addr (sites 513)) max_sites 0)
                   (gen_addr (sites 513)) 3.
Proof. reflexivity. Qed.

#[local] Opaque demo_native demo_profile.

Lemma load64_profile a :
  sites_base <= a → a + 4 < factor_bytes_addr (sites 513) → load64 demo_raw a = load64 demo_profile a.
Proof.
  intros H1 H2. assert (∀ b, a <= b <= a + 4 → demo_native !! b = None) as H.
  { intros b Hb. destruct (demo_native !! b) eqn:E; [|done]. apply native_keys in E as [_ [?| ->]]; lia. }
  apply load64_union_r; apply H; lia.
Qed.

Lemma profile_words g q n v :
  g + 8 * Z.of_nat n <= q → (0 < n)%nat →
  let P := store64 (fill_words (fill_words ∅ g n 0) q n 0) g v in
  ∀ c, 0 <= c < Z.of_nat n →
    load64 P (g + 8 * c) = Some (if c =? 0 then u64 v else 0) ∧ load64 P (q + 8 * c) = Some 0.
Proof.
  intros Hq Hn P c Hc. destruct (fill_words_spec ∅ g n 0) as [G1 G2].
  destruct (fill_words_spec (fill_words ∅ g n 0) q n 0) as [A1 A2]. unfold P. split.
  - destruct (Z.eqb_spec c 0) as [->|Hn0]; [by rewrite Z.mul_0_r, Z.add_0_r, load64_store64|].
    rewrite (load64_agree (fill_words (fill_words ∅ g n 0) q n 0))
      by (eapply agree_out_on; [apply (store64_out _ g _ g (g + 8)); lia|lia]).
    rewrite (load64_agree (fill_words ∅ g n 0)) by (eapply agree_out_on; [exact A1|lia]). by rewrite G2.
  - rewrite (load64_agree (fill_words (fill_words ∅ g n 0) q n 0))
      by (eapply agree_out_on; [apply (store64_out _ g _ g (g + 8)); lia|lia]). by rewrite A2.
Qed.

Lemma demo_addresses :
  acc_addr (sites 513) = gen_addr (sites 513) + 2 ^ 19 ∧ factor_bytes_addr (sites 513) = gen_addr (sites 513) + 2 ^ 20 ∧
  sites_base < gen_addr (sites 513).
Proof. split_and!; vm_compute; reflexivity. Qed.

Lemma demo_repr_array : repr_array demo_raw 513 demo_array.
Proof.
  pose proof max_sites_eq as Hms. unfold NG2C_MAX_ALLOC_SITE in Hms. destruct demo_addresses as (Ea & Ef & Eg).
  pose proof (profile_words (gen_addr (sites 513)) (acc_addr (sites 513)) max_sites 3) as HP.
  specialize (HP ltac:(rewrite Ea, Hms; apply Z.le_refl) ltac:(lia)).
  split; [apply load32_union; by vm_compute|..]; intros c Hc; unfold is_context, NG2C_MAX_ALLOC_SITE in Hc;
    rewrite load64_profile, demo_profile_eq by lia; destruct (HP c ltac:(lia)) as [H1 H2].
  - rewrite H1. cbn [_target_gen demo_array]. destruct (Z.eqb_spec c 0) as [Ec|].
    { rewrite Ec. cbn [Z.to_nat lookup list_lookup]. f_equal. }
    destruct (Z.to_nat c) eqn:E; [lia|]. cbn [lookup list_lookup]. symmetry. apply lookup_replicate_2. lia.
  - rewrite H2. cbn [_allocs_gen demo_array]. symmetry. apply lookup_replicate_2. lia.
Qed.

Definition demo_world (st : MethodBciHashtable) : World :=
  mkWorld (full_heap ∅) demo_gens NULL st (demo_thread demo_tlab 1).

Lemma demo_words_stored :
  forallb (λ '(a, v), bool_decide (load64 demo_native a = Some v)) demo_words = true.
Proof. by vm_compute. Qed.

Lemma demo_word a v : (a, v) ∈ demo_words → load64 demo_raw a = Some v.
Proof.
  intros H. apply load64_union. pose proof demo_words_stored as E. rewrite forallb_forall in E.
  apply list_elem_of_In, E, bool_decide_eq_true in H. exact H.
Qed.

Lemma demo_tlab_word i t a v :
  demo_tlabs !! i = Some t → (a, v) ∈ tlab_words i t → load64 demo_raw a = Some v.
Proof.
  intros Ht Ha. apply demo_word. unfold demo_words. rewrite elem_of_app. right. apply list_elem_of_In, in_concat.
  exists (tlab_words i t). split; [|by apply list_elem_of_In]. apply list_elem_of_In, list_elem_of_lookup_2 with i.
  by rewrite list_lookup_imap, Ht.
Qed.

Lemma demo_context : load32 demo_raw (thread_base + 16) = Some 0x2A0007.
Proof. apply load32_union. by vm_compute. Qed.

Lemma demo_klass_words : load64 demo_raw 0x8000000B8 = Some 1 ∧ load64 demo_raw 0x8000000D8 = Some 5.
Proof. split; apply load64_union; by vm_compute. Qed.

Lemma demo_heap_free a : demo_owner a = O_heap → demo_raw !! a = None.
Proof.
  intros Ha. unfold demo_raw. assert (0x100000 <= a < 0x200000) as Hr.
  { revert Ha. unfold demo_owner. owner_cases; try done.
    all: repeat match goal with |- context [if ?b then _ else _] => destruct b end; done. }
  apply lookup_union_None. split.
  { destruct (demo_native !! a) eqn:E; [|done]. by apply native_keys in E as [? _]. }
  pose proof max_sites_eq as Hms. unfold NG2C_MAX_ALLOC_SITE in Hms. destruct demo_addresses as (Ea & Ef & Eg).
  rewrite demo_profile_eq. assert (sites_base = 2 ^ 45) as Eb by reflexivity.
  rewrite (store64_out _ (gen_addr (sites 513)) 3 (gen_addr (sites 513)) (gen_addr (sites 513) + 8)) by lia.
  destruct (fill_words_spec ∅ (gen_addr (sites 513)) max_sites 0) as [G1 _].
  destruct (fill_words_spec (fill_words ∅ (gen_addr (sites 513)) max_sites 0) (acc_addr (sites 513)) max_sites 0) as [A1 _].
  rewrite A1, G1 by lia. apply lookup_empty.
Qed.

#[local] Opaque demo_raw.

Lemma demo_repr st : bci_rel st (<[513 := demo_array]> ∅) → repr demo_raw (demo_world st) (<[513 := demo_array]> ∅).
Proof.
  intros Hst. split.
  - intros a Ha. rewrite demo_heap_free by done. symmetry. apply lookup_empty.
  - exact Hst.
  - exact demo_context.
  - done.
  - apply demo_word. by left.
  - done.
  - intros i Hi. destruct (lookup_lt_is_Some_2 demo_tlabs (Z.to_nat i)) as [t Ht].
    { change (Datatypes.length demo_tlabs) with 16%nat. lia. }
    eapply demo_tlab_word; [exact Ht|]. unfold tlab_words. rewrite Z2Nat.id by lia. by left.
  - intros i t Hi. unfold tlab_at in Hi. destruct (Z.ltb_spec i 0); [done|]. change (demo_tlabs !! Z.to_nat i = Some t) in Hi.
    pose proof (demo_tlab_word _ _ (tlab_ptr i + 8) (tl_top t) Hi) as H1.
    pose proof (demo_tlab_word _ _ (tlab_ptr i + 16) (tl_pf_top t) Hi) as H2.
    pose proof (demo_tlab_word _ _ (tlab_ptr i + 24) (tl_end t) Hi) as H3.
    unfold tlab_words in *. rewrite Z2Nat.id in * by lia. split.
    + apply H1. right. by left.
    + exists (tl_pf_top t). apply H2. do 2 right. by left.
    + apply H3. do 3 right. by left.
  - intros s a Ha _. apply lookup_insert_Some in Ha as [[<- <-]|[_ Ha]]; [exact demo_repr_array|].
    rewrite lookup_empty in Ha. discriminate Ha.
  - intros k K HK. cbn [klasses demo_config] in HK. unfold demo_klasses in HK.
    apply lookup_insert_Some in HK as [[<- <-]|[_ HK]]; [exact (proj1 demo_klass_words)|].
    apply lookup_insert_Some in HK as [[<- <-]|[_ HK]]; [exact (proj2 demo_klass_words)|].
    rewrite lookup_empty in HK. discriminate HK.
Qed.

(** An array of four ints at site 513, whose objects go to generation 3. *)
Definition demo_alloc : AllocateNode :=
  mkAllocate (ConL 32) (ConP 0x800000010) (Some (ConI 4)) (inr (Parm 0)) (-1072690686) NoInitialization.

Lemma compiled_allocation_equivalent_witness :
  ∃ st raw' w' M',
    run thread (λ _, 0) demo_raw (expand_allocate_common demo_alloc 513 (sites 513)) = Some (NewObject 0x1001E0 raw') ∧
    runtime_allocate 0x100000 0xD0 no_other_regions demo_index 10 no_eden no_eden no_eden
      (demo_world st) 0x800000010 513 4 (Some 4) = Some (Allocated 0x1001E0, w') ∧
    repr raw' w' M'.
Proof.
  destruct demo_table as [st Hst]. exists st.
  pose proof (compiled_allocation_equivalent 0x100000 0xD0 no_other_regions demo_index 10 no_eden no_eden no_eden (λ _, 0)
    demo_raw (demo_world st) (<[513 := demo_array]> ∅) demo_alloc 0x800000010 (mkKlass (-1072690686) 1 (λ _ _, None))
    513 4 (Some 4) 3 demo_tlab demo_layout_ok (demo_repr st Hst)) as H.
  apply H; clear H.
  - split; [done|done|by right].
  - split; try done. intros n [= <-]. by eexists.
  - done.
  - right. split; [done|]. split; [done|]. exists demo_array. split; [apply lookup_insert_eq|]. reflexivity.
  - done.
  - split; [done|done|]. intros a Ha. cbn in Ha. unfold owner. cbn. unfold demo_owner. owner_cases; done.
  - done.
Defined.

Lemma compiled_context_witness :
  ∃ st m, eval_mem thread (λ _, 1) demo_raw (do_context 300 (Parm 0) RawMem) = Some m ∧
    repr m (with_context (demo_world st) (0x2A0007 + 300)) (<[513 := demo_array]> ∅).
Proof.
  destruct demo_table as [st Hst]. exists st.
  destruct (compiled_context (λ _, 1) demo_raw (demo_world st) (<[513 := demo_array]> ∅) 300 (Parm 0) 1 false []
    demo_layout_ok (demo_repr st Hst) eq_refl) as [(m & E & Hm) _].
  exists m. split; [exact E|]. exact Hm.
Defined.

End C2Demo.
