(* ===== verification/GenAnno.v ===== *)
(** The [@Gen] annotations of allocation bytecodes: how the class file parser
    puts the type annotations of a method together
    ([classfile/classFileParser.cpp]), how the interpreter decodes them for
    an allocation and caches the answer ([get_alloc_gen],
    [interpreter/interpreterRuntime.cpp]), and the lookup of the compiler in
    that cache ([PhaseMacroExpand::get_alloc_gen_2], [opto/macro.cpp]).

    The decoder is shown to compute what the annotations say, for every order
    of queries and whatever has been cached; in which cases the cache and the
    assembly of the annotations lose an answer is made precise. *)

From S2P Require Import Prelude.

Module GenAnno.

(** An [Array<u1>] or [Array<u2>]; an access outside it is a fault. *)
Definition at_ (a : list Z) (i : Z) : option Z := if i <? 0 then None else a !! Z.to_nat i.
Definition at_put (a : list Z) (i x : Z) : option (list Z) :=
  _ ← at_ a i; Some (<[Z.to_nat i := x]> a).

Definition max_jushort : Z := 0xFFFF.

(** [Bytes::get_Java_u2]: two bytes, the high one first. *)
Definition get_Java_u2 (a : list Z) (i : Z) : option Z :=
  hi ← at_ a i; lo ← at_ a (i + 1); Some ((hi <<< 8) ||| lo).

(** The parts of a [Method] that the lookup uses. *)
Record Method := mkMethod {
  type_annotations : option (list Z);
  alloc_anno : option (list Z);
  alloc_anno_cache : option (list Z)
}.

(** * The class file parser *)

(** [for (i = 0; i < length; i++) annotations->at_put(from + i, src[i])]. *)
Fixpoint copy_bytes (dst : list Z) (from : Z) (src : list Z) : option (list Z) :=
  match src with
  | [] => Some dst
  | b :: src => dst ← at_put dst from b; copy_bytes dst (from + 1) src
  end.

Definition opt_bytes (o : option (list Z)) : list Z := default [] o.
Definition copy_opt (dst : list Z) (from : Z) (src : option (list Z)) : option (list Z) :=
  copy_bytes dst from (opt_bytes src).
Definition opt_length (o : option (list Z)) : Z := Z.of_nat (length (opt_bytes o)).

(** [fresh] is the content of the new array before it is written. *)
Definition assemble_annotations (fresh : nat → list Z) (visible invisible : option (list Z))
    : option (option (list Z)) :=
  match visible, invisible with
  | None, None => Some None
  | _, _ =>
      let annotations := fresh (Z.to_nat (opt_length visible + opt_length invisible)) in
      a ← copy_opt annotations 0 visible;
      a ← copy_opt a (opt_length visible) invisible;
      Some (Some a)
  end.

Definition assemble_type_annotations (fresh : nat → list Z) (visible alloc invisible : option (list Z))
    : option (option (list Z)) :=
  match visible, invisible, alloc with
  | None, None, None => Some None
  | _, _, _ =>
      let annotations := fresh (Z.to_nat (opt_length visible + opt_length alloc + opt_length invisible)) in
      a ← copy_opt annotations 0 alloc;
      a ← copy_opt a 0 visible;
      a ← copy_opt a (opt_length visible) invisible;
      Some (Some a)
  end.

(** The end of [copy_method_annotations] and of [parse_method]: the type
    annotations, the pointer to them and the empty cache. *)
Definition new_method (fresh : nat → list Z) (visible alloc invisible : option (list Z)) : option Method :=
  a ← (if opt_length visible + opt_length invisible + opt_length alloc >? 0
       then assemble_type_annotations fresh visible alloc invisible else Some None);
  Some (mkMethod a a
    (if opt_length alloc >? 0 then Some (replicate (Z.to_nat (opt_length alloc)) max_jushort) else None)).

(** * The interpreter *)

Inductive scan_result := CacheHit | NextEntry (next_centry : Z).

(** The loop over the cache from position [i] on. *)
Fixpoint scan_cache (aac : list Z) (i bci : Z) : scan_result :=
  match aac with
  | [] => NextEntry i
  | e :: aac =>
      if bci =? e then CacheHit
      else if e =? max_jushort then NextEntry i
      else scan_cache aac (i + 1) bci
  end.

(** ["Ljava/lang/Gen;"]. *)
Definition gen_type_name : list Z := [76; 106; 97; 118; 97; 47; 108; 97; 110; 103; 47; 71; 101; 110; 59].

Section lookup.
(** [pool->symbol_at], and [Bytecodes::length_for(Bytecodes::code_at(method, bci))]. *)
Variable symbol_at : Z → option (list Z).
Variable length_at : Z → option Z.

(** The bytes of the [n_dims] bytecodes from [anno_bci + len] on, added to [len]. *)
Fixpoint dims_length (n_dims : nat) (anno_bci len : Z) : option Z :=
  match n_dims with
  | O => Some len
  | S n => l ← length_at (anno_bci + len); dims_length n anno_bci (len + l)
  end.

(** The loop over the annotations, [n] of which are left, at [data]. *)
Fixpoint anno_loop (n : nat) (aa : list Z) (data : Z) (aac : option (list Z)) (next_centry bci : Z) (n_dims : nat)
    : option (Z * option (list Z)) :=
  match n with
  | O => Some (0, aac)
  | S n =>
      anno_target ← at_ aa data;
      anno_bci ← get_Java_u2 aa (data + 1);
      dsize ← at_ aa (data + 3);
      anno_type_index ← get_Java_u2 aa (data + 4 + dsize * 2);
      type_name ← symbol_at anno_type_index;
      anno_bc_len ← dims_length n_dims anno_bci 0;
      if (anno_target =? 68) && (anno_bci + anno_bc_len =? bci) && bool_decide (type_name = gen_type_name) then
        c ← aac;
        c ← at_put c next_centry (u16 bci);
        Some (1, Some c)
      else anno_loop n aa (data + (8 + dsize * 2)) aac next_centry bci n_dims
  end.

(** The answer and the cache. *)
Definition get_alloc_gen (m : Method) (bci : Z) (n_dims : nat) : option (Z * option (list Z)) :=
  let aac := alloc_anno_cache m in
  match (match aac with Some c => scan_cache c 0 bci | None => NextEntry 0 end) with
  | CacheHit => Some (1, aac)
  | NextEntry next_centry =>
      match type_annotations m, alloc_anno m with
      | Some aa, Some _ =>
          n_anno ← get_Java_u2 aa 0;
          anno_loop (Z.to_nat n_anno) aa 2 aac next_centry bci n_dims
      | _, _ => Some (0, aac)
      end
  end.

Definition set_cache (m : Method) (c : option (list Z)) : Method :=
  mkMethod (type_annotations m) (alloc_anno m) c.

(** A sequence of allocations: the answers, and the method at the end. *)
Fixpoint get_alloc_gens (m : Method) (qs : list (Z * nat)) : option (list Z * Method) :=
  match qs with
  | [] => Some ([], m)
  | (bci, n_dims) :: qs =>
      '(g, c) ← get_alloc_gen m bci n_dims;
      '(gs, m) ← get_alloc_gens (set_cache m c) qs;
      Some (g :: gs, m)
  end.

End lookup.

(** * The compiler *)

Fixpoint get_alloc_gen_2_loop (aac : list Z) (bci : Z) : Z :=
  match aac with
  | [] => 0
  | e :: aac => if bci =? e then 1 else if e =? max_jushort then 0 else get_alloc_gen_2_loop aac bci
  end.

Definition get_alloc_gen_2 (aac : option (list Z)) (bci : Z) : Z :=
  match aac with Some c => get_alloc_gen_2_loop c bci | None => 0 end.

End GenAnno.

(** * Facts *)

Module GenAnnoFacts.
Import GenAnno.

(** ** The annotations of a class file, without elements *)

Record type_anno := mkAnno {
  ta_target : Z;
  ta_bci : Z;
  ta_path : list (Z * Z);
  ta_type : Z
}.

Definition u2_bytes (x : Z) : list Z := [x / 256; x mod 256].
Definition path_bytes (p : list (Z * Z)) : list Z := concat ((λ e, [e.1; e.2]) <$> p).

Definition anno_bytes (a : type_anno) : list Z :=
  ta_target a :: u2_bytes (ta_bci a) ++ [Z.of_nat (length (ta_path a))] ++ path_bytes (ta_path a) ++
  u2_bytes (ta_type a) ++ u2_bytes 0.

Definition annos_bytes (l : list type_anno) : list Z :=
  u2_bytes (Z.of_nat (length l)) ++ concat (anno_bytes <$> l).

Record anno_ok (a : type_anno) : Prop := {
  an_bci : 0 <= ta_bci a < 65535;
  an_type : 0 <= ta_type a < 65536
}.

Lemma at_pre pre l k : 0 <= k → at_ (pre ++ l) (Z.of_nat (length pre) + k) = at_ l k.
Proof.
  intros Hk. unfold at_. rewrite !(proj2 (Z.ltb_ge _ _)) by lia.
  rewrite Z2Nat.inj_add, Nat2Z.id by lia. by rewrite lookup_app_r, Nat.add_comm, Nat.add_sub by lia.
Qed.

Lemma at_pre_0 pre l n : n = Z.of_nat (length pre) → at_ (pre ++ l) n = at_ l 0.
Proof. intros ->. by rewrite <- (at_pre pre l 0), Z.add_0_r. Qed.

Lemma get_u2_pre pre l k : 0 <= k → get_Java_u2 (pre ++ l) (Z.of_nat (length pre) + k) = get_Java_u2 l k.
Proof. intros Hk. unfold get_Java_u2. by rewrite <- Z.add_assoc, !at_pre by lia. Qed.

Lemma get_u2_bytes x l : 0 <= x < 65536 → get_Java_u2 (u2_bytes x ++ l) 0 = Some x.
Proof.
  intros Hx. unfold get_Java_u2.
  assert (at_ (u2_bytes x ++ l) 0 = Some (x / 256)) as -> by done.
  assert (at_ (u2_bytes x ++ l) (0 + 1) = Some (x mod 256)) as -> by done. cbn [mbind option_bind]. f_equal.
  pose proof (Z.mod_pos_bound x 256 ltac:(lia)). rewrite Z.lor_comm, lor_shiftl_add by (done || lia).
  pose proof (Z.div_mod x 256). lia.
Qed.

Lemma length_path p : length (path_bytes p) = (2 * length p)%nat.
Proof. unfold path_bytes. induction p as [|[? ?] p IH]; cbn in *; lia. Qed.

Lemma length_anno a : Z.of_nat (length (anno_bytes a)) = 8 + Z.of_nat (length (ta_path a)) * 2.
Proof. unfold anno_bytes, u2_bytes. cbn. rewrite length_app, length_path. cbn. lia. Qed.

(** ** What the annotations say *)

Section lookup.
Variable symbol_at : Z → option (list Z).
Variable length_at : Z → option Z.

(** The constant pool and the bytecodes are there for every annotation. *)
Definition resolved (n_dims : nat) (a : type_anno) : Prop :=
  is_Some (symbol_at (ta_type a)) ∧ is_Some (dims_length length_at n_dims (ta_bci a) 0).

(** The annotation marks the allocation at [bci], which has [n_dims]
    dimensions; the annotation of an array points before the bytecodes of
    its dimensions. *)
Definition marks (bci : Z) (n_dims : nat) (a : type_anno) : bool :=
  (ta_target a =? 68) &&
  bool_decide (dims_length length_at n_dims (ta_bci a) 0 = Some (bci - ta_bci a)) &&
  bool_decide (symbol_at (ta_type a) = Some gen_type_name).

Definition marked (l : list type_anno) (bci : Z) (n_dims : nat) : bool := existsb (marks bci n_dims) l.

(** The fields of an annotation, read where the decoder reads them. *)
Lemma anno_reads pre a rest :
  anno_ok a →
  let aa := pre ++ anno_bytes a ++ rest in
  let data := Z.of_nat (length pre) in
  let dsize := Z.of_nat (length (ta_path a)) in
  at_ aa data = Some (ta_target a) ∧ get_Java_u2 aa (data + 1) = Some (ta_bci a) ∧
  at_ aa (data + 3) = Some dsize ∧ get_Java_u2 aa (data + 4 + dsize * 2) = Some (ta_type a).
Proof.
  intros [Hb Ht] aa data ds. unfold aa, data. split; [|split; [|split]].
  - by rewrite <- (Z.add_0_r (Z.of_nat _)), at_pre.
  - rewrite get_u2_pre by done.
    change (anno_bytes a ++ rest) with ([ta_target a] ++ (u2_bytes (ta_bci a) ++
      ([ds] ++ path_bytes (ta_path a) ++ u2_bytes (ta_type a) ++ u2_bytes 0)) ++ rest).
    rewrite (get_u2_pre [ta_target a] _ 0) by done. rewrite <- app_assoc. apply get_u2_bytes. lia.
  - by rewrite at_pre.
  - rewrite <- Z.add_assoc, get_u2_pre by (unfold ds; lia).
    set (front := ta_target a :: u2_bytes (ta_bci a) ++ [ds] ++ path_bytes (ta_path a)).
    assert (anno_bytes a ++ rest = front ++ u2_bytes (ta_type a) ++ u2_bytes 0 ++ rest) as ->.
    { unfold front, anno_bytes. cbn. by rewrite <- !app_assoc. }
    replace (4 + ds * 2) with (Z.of_nat (length front) + 0)
      by (unfold front, ds; cbn; rewrite length_path; lia).
    rewrite get_u2_pre by done. apply get_u2_bytes. lia.
Qed.

(** The test of the decoder is the reference one. *)
Lemma marks_test a s d bci n_dims :
  symbol_at (ta_type a) = Some s → dims_length length_at n_dims (ta_bci a) 0 = Some d →
  (ta_target a =? 68) && (ta_bci a + d =? bci) && bool_decide (s = gen_type_name) = marks bci n_dims a.
Proof.
  intros Hs Hd. unfold marks. rewrite Hs, Hd. f_equal; [f_equal|].
  - destruct (Z.eqb_spec (ta_bci a + d) bci); symmetry; [apply bool_decide_eq_true|apply bool_decide_eq_false].
    + f_equal. lia.
    + intros [= ?]. lia.
  - apply bool_decide_ext. split; congruence.
Qed.

(** The decoder stops at the first annotation that marks the allocation. *)
Lemma anno_loop_spec l pre post aac next bci n_dims :
  Forall anno_ok l → Forall (resolved n_dims) l →
  anno_loop symbol_at length_at (length l) (pre ++ concat (anno_bytes <$> l) ++ post) (Z.of_nat (length pre))
    aac next bci n_dims =
  if marked l bci n_dims then c ← aac; c ← at_put c next (u16 bci); Some (1, Some c) else Some (0, aac).
Proof.
  revert pre. induction l as [|a l IH]; intros pre Hok Hres; [done|].
  apply Forall_cons in Hok as [Ha Hok]. apply Forall_cons in Hres as [[[s Hs] [d Hd]] Hres].
  cbn [length anno_loop fmap list_fmap concat]. rewrite <- (app_assoc (anno_bytes a)).
  set (rest := concat (anno_bytes <$> l) ++ post).
  destruct (anno_reads pre a rest Ha) as (-> & E1 & E2 & E3). cbn [mbind option_bind].
  rewrite E1. cbn [mbind option_bind]. rewrite E2. cbn [mbind option_bind]. rewrite E3. cbn [mbind option_bind].
  rewrite Hs. cbn [mbind option_bind]. rewrite Hd. cbn [mbind option_bind].
  rewrite (marks_test a s d bci n_dims Hs Hd). cbn [marked existsb]. destruct (marks bci n_dims a); [done|].
  cbn [orb]. fold (marked l bci n_dims). rewrite <- (IH (pre ++ anno_bytes a)) by done.
  f_equal; [by rewrite <- app_assoc|]. rewrite length_app, Nat2Z.inj_add, length_anno. lia.
Qed.

(** ** The cache *)

Variable dims : Z → nat.

Definition answer (l : list type_anno) (bci : Z) : Z := if marked l bci (dims bci) then 1 else 0.

(** The cached bytecodes come first; all of them are marked. *)
Record cache_ok (l : list type_anno) (c known : list Z) : Prop := {
  ca_shape : ∃ n, c = known ++ replicate n max_jushort;
  ca_nodup : NoDup known;
  ca_known : Forall (λ b, 0 <= b < 65535 ∧ marked l b (dims b) = true) known
}.

Lemma scan_known l c known i bci :
  cache_ok l c known → 0 <= bci < 65535 →
  (bci ∈ known → scan_cache c i bci = CacheHit ∧ get_alloc_gen_2_loop c bci = 1) ∧
  (bci ∉ known → scan_cache c i bci = NextEntry (i + Z.of_nat (length known)) ∧ get_alloc_gen_2_loop c bci = 0).
Proof.
  intros [[n ->] _ Hk] Hb. revert i. induction known as [|e known IH]; intros i; cbn [app].
  - split; [by intros ?%elem_of_nil|]. intros _. destruct n as [|n]; cbn; [split; [f_equal; lia|done]|].
    rewrite (proj2 (Z.eqb_neq bci max_jushort)) by (unfold max_jushort; lia). cbn. split; [f_equal; lia|done].
  - apply Forall_cons in Hk as [[He _] Hk]. destruct (IH Hk (i + 1)) as [IH1 IH2]. cbn.
    rewrite elem_of_cons, (proj2 (Z.eqb_neq e max_jushort)) by (unfold max_jushort; lia).
    destruct (Z.eqb_spec bci e) as [->|Hne]; [by split; [|naive_solver]|].
    split; [naive_solver|]. intros Hn. destruct IH2 as [-> ->]; [naive_solver|]. split; [f_equal; lia|done].
Qed.

Lemma cache_add l c known bci :
  cache_ok l c known → 0 <= bci < 65535 → marked l bci (dims bci) = true → bci ∉ known →
  (length known < length c)%nat →
  ∃ c', at_put c (Z.of_nat (length known)) (u16 bci) = Some c' ∧ cache_ok l c' (known ++ [bci]) ∧ length c' = length c.
Proof.
  intros [[n ->] Hnd Hk] Hb Hm Hn Hlen. rewrite length_app, length_replicate in Hlen.
  destruct n as [|n]; [lia|]. unfold at_put, at_.
  rewrite (proj2 (Z.ltb_ge _ _)), Nat2Z.id, lookup_app_r, Nat.sub_diag by lia. cbn [replicate lookup list_lookup mbind option_bind].
  eexists. split; [done|]. split; [|by rewrite length_insert]. split.
  - exists n. rewrite insert_app_r_alt, Nat.sub_diag by lia. cbn. rewrite <- app_assoc. cbn.
    by rewrite u16_small by (unfold in_u16; lia).
  - apply NoDup_app. split; [done|]. split; [|apply NoDup_singleton].
    intros x Hx ->%list_elem_of_singleton. done.
  - apply Forall_app. split; [done|]. by apply Forall_singleton.
Qed.

(** ** Queries *)

(** A method whose type annotations start with those of its code. *)
Record method_ok (m : Method) (l : list type_anno) (known : list Z) : Prop := {
  mo_annos : ∃ rest, type_annotations m = Some (annos_bytes l ++ rest);
  mo_alloc : is_Some (alloc_anno m);
  mo_count : Z.of_nat (length l) < 65536;
  mo_wf : Forall anno_ok l;
  mo_cache : ∃ c, alloc_anno_cache m = Some c ∧ cache_ok l c known
}.

Definition cache_length (m : Method) : nat := length (default [] (alloc_anno_cache m)).

Lemma get_alloc_gen_spec m l known bci :
  method_ok m l known → 0 <= bci < 65535 → Forall (resolved (dims bci)) l →
  (marked l bci (dims bci) = true → bci ∉ known → (length known < cache_length m)%nat) →
  ∃ c known', get_alloc_gen symbol_at length_at m bci (dims bci) = Some (answer l bci, Some c) ∧
    method_ok (set_cache m (Some c)) l known' ∧ length c = cache_length m ∧
    (∀ b, b ∈ known' ↔ b ∈ known ∨ b = bci ∧ answer l bci = 1).
Proof.
  intros [[rest Ea] [x Ex] Hn Hwf (c & Ec & Hc)] Hb Hres Hroom. unfold get_alloc_gen, answer, cache_length in *.
  rewrite Ec in *. cbn [default from_option id] in *. destruct (scan_known l c known 0 bci Hc Hb) as [S1 S2].
  destruct (decide (bci ∈ known)) as [Hin|Hout].
  - destruct (S1 Hin) as [-> _]. exists c, known.
    assert (marked l bci (dims bci) = true) as ->.
    { pose proof (ca_known _ _ _ Hc) as Hk. rewrite Forall_forall in Hk. by apply Hk. }
    split; [done|]. split; [split; eauto|]. split; [done|]. naive_solver.
  - destruct (S2 Hout) as [-> _]. rewrite Ea, Ex. unfold annos_bytes. rewrite <- app_assoc.
    rewrite get_u2_bytes by lia. cbn [mbind option_bind]. rewrite Nat2Z.id.
    rewrite (anno_loop_spec l (u2_bytes (Z.of_nat (length l))) rest) by done.
    destruct (marked l bci (dims bci)) eqn:Hm.
    + destruct (cache_add l c known bci Hc Hb Hm Hout (Hroom eq_refl Hout)) as (c' & E & Hc' & Hl).
      cbn [mbind option_bind]. rewrite Z.add_0_l, E. exists c', (known ++ [bci]). split; [done|].
      split; [split; eauto|]. split; [done|]. intros b. rewrite elem_of_app, list_elem_of_singleton. naive_solver.
    + exists c, known. split; [done|]. split; [split; eauto|]. split; [done|]. naive_solver.
Qed.

(** The queries of a run: allocations of the method, each with its dimensions. *)
Definition query_ok (l : list type_anno) (sites : list Z) (q : Z * nat) : Prop :=
  q.2 = dims q.1 ∧ 0 <= q.1 < 65535 ∧ q.1 ∈ sites ∧ Forall (resolved (dims q.1)) l.

(** The allocations that will be cached. *)
Definition cached_sites (l : list type_anno) (sites : list Z) : list Z :=
  filter (λ b, answer l b = 1) sites.

Lemma known_room l sites known n bci :
  NoDup known → (∀ b, b ∈ known → b ∈ cached_sites l sites) → bci ∈ cached_sites l sites → bci ∉ known →
  (length (cached_sites l sites) <= n)%nat → (length known < n)%nat.
Proof.
  intros Hnd Hsub Hin Hout Hlen. assert (length (bci :: known) <= length (cached_sites l sites))%nat; [|cbn in *; lia].
  apply submseteq_length, NoDup_submseteq; [by constructor|]. intros b [->|?]%elem_of_cons; auto.
Qed.

(** A run from any state of the cache. *)
Lemma queries_spec l sites qs m known :
  Forall (query_ok l sites) qs → method_ok m l known → (∀ b, b ∈ known → b ∈ cached_sites l sites) →
  (length (cached_sites l sites) <= cache_length m)%nat →
  ∃ m' known', get_alloc_gens symbol_at length_at m qs = Some ((λ q, answer l q.1) <$> qs, m') ∧
    method_ok m' l known' ∧ (∀ b, b ∈ known → b ∈ known') ∧ (∀ q, q ∈ qs → answer l q.1 = 1 → q.1 ∈ known').
Proof.
  intros Hqs. revert m known. induction Hqs as [|[b d] qs [Ed [Hb [Hin Hres]]] Hqs IH]; intros m known Hm Hsub Hroom.
  { exists m, known. split; [done|]. split; [done|]. split; [done|]. by intros ? ?%elem_of_nil. }
  cbn in Ed, Hb, Hin, Hres. subst d. cbn [get_alloc_gens].
  assert (answer l b = 1 → b ∈ cached_sites l sites) as Hb1 by (intros; by apply list_elem_of_filter).
  destruct (get_alloc_gen_spec m l known b Hm Hb Hres) as (c & known1 & -> & Hm1 & Hlc & Hk1).
  { intros Hmk Hout. destruct Hm as [_ _ _ _ (c & _ & Hc)].
    eapply known_room; [apply Hc|exact Hsub|apply Hb1; unfold answer; by rewrite Hmk|done|done]. }
  cbn [mbind option_bind].
  destruct (IH (set_cache m (Some c)) known1 Hm1) as (m' & known' & -> & Hm' & Hk' & Hq').
  { intros x [?|[-> ?]]%Hk1; auto. }
  { unfold cache_length. cbn. by rewrite Hlc. }
  cbn. exists m', known'. split; [done|]. split; [done|]. split; [intros x Hx; apply Hk', Hk1; by left|].
  intros q [->|Hq]%elem_of_cons Ha; [|by apply Hq']. apply Hk', Hk1. by right.
Qed.

(** What the compiler finds in a sound cache. *)
Lemma compiler_answer l c known bci :
  cache_ok l c known → 0 <= bci < 65535 → (answer l bci = 1 → bci ∈ known) →
  get_alloc_gen_2_loop c bci = answer l bci.
Proof.
  intros Hc Hb Hq. destruct (scan_known l c known 0 bci Hc Hb) as [S1 S2].
  destruct (decide (bci ∈ known)) as [Hk|Hk].
  - rewrite (proj2 (S1 Hk)). unfold answer. pose proof (ca_known _ _ _ Hc) as Hkn. rewrite Forall_forall in Hkn.
    by rewrite (proj2 (Hkn _ Hk)).
  - rewrite (proj2 (S2 Hk)). destruct (decide (answer l bci = 1)) as [Ha|Ha]; [by apply Hq in Ha|].
    unfold answer in *. by destruct (marked l bci (dims bci)).
Qed.

(** The interpreter answers every allocation with what the annotations
    of the method say, in whatever order and however often the allocations
    are executed, and keeps the cache sound; the compiler, which only looks
    at the cache, gives the same answer for every allocation that was
    executed. The cache needs one entry per marked allocation. *)
Theorem gen_annotations_answered m l sites qs :
  method_ok m l [] → Forall (query_ok l sites) qs →
  (length (cached_sites l sites) <= cache_length m)%nat →
  ∃ m' known, get_alloc_gens symbol_at length_at m qs = Some ((λ q, answer l q.1) <$> qs, m') ∧
    method_ok m' l known ∧
    ∀ q, q ∈ qs → get_alloc_gen_2 (alloc_anno_cache m') q.1 = answer l q.1.
Proof.
  intros Hm Hqs Hroom. destruct (queries_spec l sites qs m [] Hqs Hm) as (m' & known & E & Hm' & _ & Hq); [|done|].
  { by intros ? ?%elem_of_nil. }
  exists m', known. split; [done|]. split; [done|]. intros q Hin.
  destruct Hm' as [_ _ _ _ (c & -> & Hc)]. rewrite Forall_forall in Hqs. destruct (Hqs q Hin) as (_ & Hb & _).
  eapply compiler_answer; [exact Hc|done|by apply Hq].
Qed.

End lookup.

(** ** Putting the annotations together *)

Lemma copy_bytes_spec dst pre mid post src :
  dst = pre ++ mid ++ post → length mid = length src →
  copy_bytes dst (Z.of_nat (length pre)) src = Some (pre ++ src ++ post).
Proof.
  intros ->. revert pre mid. induction src as [|b src IH]; intros pre mid Hl.
  { by destruct mid. }
  destruct mid as [|x mid]; [done|]. injection Hl as Hl. cbn [copy_bytes]. unfold at_put.
  rewrite <- (Z.add_0_r (Z.of_nat (length pre))), at_pre by done. cbn [app at_ Z.ltb].
  change (at_ (x :: mid ++ post) 0) with (Some x). cbn [mbind option_bind].
  rewrite Z.add_0_r, Nat2Z.id, insert_app_r_alt, Nat.sub_diag by lia. cbn [insert list_insert].
  replace (Z.of_nat (length pre) + 1) with (Z.of_nat (length (pre ++ [b]))) by (rewrite length_app; cbn; lia).
  replace (pre ++ b :: mid ++ post) with ((pre ++ [b]) ++ mid ++ post) by (by rewrite <- app_assoc).
  rewrite IH by done. by rewrite <- app_assoc.
Qed.

(** The type annotations of a method that has annotations outside its
    code as well are put together wrongly: the annotations of the code are
    written first but at the start of the array, and the visible and
    invisible ones are written over them, so that with as many visible bytes
    nothing is left of them and the end of the array is never written. They
    survive when they are the only ones. *)
Theorem alloc_annotations_overwritten fresh v a i :
  (∀ n, length (fresh n) = n) → (length a <= length v)%nat →
  assemble_type_annotations fresh (Some v) (Some a) (Some i) =
    Some (Some (v ++ i ++ drop (length v + length i) (fresh (length v + length a + length i)%nat))) ∧
  assemble_type_annotations fresh None (Some a) None = Some (Some a).
Proof.
  intros Hf Hl. unfold assemble_type_annotations, copy_opt, opt_length, opt_bytes. cbn [default from_option id length].
  rewrite <- !Nat2Z.inj_add, !Nat2Z.id. split.
  - set (n := (length v + length a + length i)%nat). pose proof (Hf n) as Hn.
    assert (∀ k, (k <= n)%nat → length (take k (fresh n)) = k) as Ht by (intros; rewrite length_take; lia).
    rewrite (copy_bytes_spec (fresh n) [] (take (length a) (fresh n)) (drop (length a) (fresh n)));
      [|by rewrite app_nil_l, take_drop|apply Ht; lia].
    cbn [mbind option_bind app]. set (d := drop (length a) (fresh n)).
    assert (length d = (length v + length i)%nat) as Hd by (unfold d; rewrite length_drop; lia).
    assert (length (a ++ take (length v - length a) d) = length v) as Hv
      by (rewrite length_app, length_take; lia).
    rewrite (copy_bytes_spec _ [] (a ++ take (length v - length a) d) (drop (length v - length a) d) v);
      [|by rewrite app_nil_l, <- app_assoc, take_drop|done].
    cbn [mbind option_bind app]. set (e := drop (length v - length a) d).
    rewrite (copy_bytes_spec _ v (take (length i) e) (drop (length i) e));
      [|by rewrite take_drop|unfold e; rewrite length_take, length_drop; lia].
    cbn [mbind option_bind]. unfold e, d. rewrite !drop_drop. do 5 f_equal. lia.
  - rewrite Nat.add_0_r, Nat.add_0_l. rewrite (copy_bytes_spec (fresh (length a)) [] (fresh (length a)) []); [|by rewrite app_nil_r|by rewrite Hf].
    cbn. by rewrite app_nil_r.
Qed.
End GenAnnoFacts.

(** * Concrete methods *)

Module GenAnnoDemo.
Import GenAnno GenAnnoFacts.

Definition demo_pool (i : Z) : option (list Z) := if i =? 5 then Some gen_type_name else Some [66].
Definition demo_lengths (bci : Z) : option Z := Some (if bci =? 0 then 3 else 4).
Definition zeros (n : nat) : list Z := replicate n 0.

(** Two annotations in the code: [@Gen] at 10, something else at 20. *)
Definition demo_annos : list type_anno := [mkAnno 68 10 [(0, 0)] 5; mkAnno 68 20 [] 6].

Definition demo_method : Method :=
  mkMethod (Some (annos_bytes demo_annos)) (Some (annos_bytes demo_annos)) (Some (replicate 20 max_jushort)).

Lemma demo_method_parsed : new_method zeros None (Some (annos_bytes demo_annos)) None = Some demo_method.
Proof. by vm_compute. Qed.

Lemma gen_annotations_answered_witness :
  ∃ m', get_alloc_gens demo_pool demo_lengths demo_method [(10, 0%nat); (20, 0%nat); (10, 0%nat)] = Some ([1; 0; 1], m').
Proof.
  destruct (gen_annotations_answered demo_pool demo_lengths (λ _, O) demo_method demo_annos [10; 20]
    [(10, 0%nat); (20, 0%nat); (10, 0%nat)]) as (m' & known & E & _).
  - split; [exists []; by rewrite app_nil_r|by eexists|done|by repeat constructor|].
    eexists. split; [done|]. split; [by exists 20%nat|constructor|constructor].
  - assert (Forall (resolved demo_pool demo_lengths 0) demo_annos) as Hr
      by (repeat constructor; by eexists).
    repeat (apply Forall_cons; split; [split; [done|split; [done|split; [|exact Hr]]]; set_solver|]).
    apply Forall_nil_2.
  - by vm_compute; lia.
  - exists m'. exact E.
Defined.

Lemma alloc_annotations_overwritten_witness :
  assemble_type_annotations zeros (Some [1; 2]) (Some [9]) (Some [3]) = Some (Some ([1; 2] ++ [3] ++ [0])) ∧
  assemble_type_annotations zeros None (Some [9]) None = Some (Some [9]).
Proof. apply (alloc_annotations_overwritten zeros [1; 2] [9] [3]); [intros; apply length_replicate|cbn; lia]. Defined.

(** One annotation at bci 0 and a multi-dimensional array allocation after
    each number of bytecodes it allows for: all are marked by the annotation,
    and the cache, sized by the bytes of the annotation, overflows. *)
Definition overflow_annos : list type_anno := [mkAnno 68 0 [] 5].
Definition overflow_queries : list (Z * nat) :=
  (0, 0%nat) :: ((λ k, (3 + 4 * (Z.of_nat k - 1), k)) <$> seq 1 10).

Lemma anno_cache_overflows :
  (m ← new_method zeros None (Some (annos_bytes overflow_annos)) None;
   get_alloc_gens demo_pool demo_lengths m overflow_queries) = None ∧
  Forall (λ q, marked demo_pool demo_lengths overflow_annos q.1 q.2 = true) overflow_queries.
Proof. split; [by vm_compute|]. by repeat constructor. Qed.

End GenAnnoDemo.
