(* ===== verification/Predictions.v ===== *)
(** Number sequences and the pause-time predictions built on them:
    [AbsSeq], [NumberSeq] and [TruncatedSeq] of [utilities/numberSeq.cpp] and
    the predictors of [G1CollectorPolicy] that the choice of the collection
    set uses.

    A [double] is a [spec_float] with 53 bits of precision; a failed
    [guarantee] aborts the VM and is a fault. *)

From S2P Require Import Prelude.
From Stdlib Require Import SpecFloat.

(** * Doubles *)

Module Double.

Definition d_of_Z (z : Z) : spec_float := binary_normalize 53 1024 z 0 false.
Definition d_add (x y : spec_float) : spec_float := SFadd 53 1024 x y.
Definition d_sub (x y : spec_float) : spec_float := SFsub 53 1024 x y.
Definition d_mul (x y : spec_float) : spec_float := SFmul 53 1024 x y.
Definition d_div (x y : spec_float) : spec_float := SFdiv 53 1024 x y.
Definition d_sqrt (x : spec_float) : spec_float := SFsqrt 53 1024 x.
Definition d_gt (x y : spec_float) : bool := SFltb y x.
Definition d_ge (x y : spec_float) : bool := SFleb y x.
Definition d_zero : spec_float := S754_zero false.

(** The cast of a [double] to [size_t]; out of range it is undefined. *)
Definition size_t_of_double (x : spec_float) : option Z :=
  match x with
  | S754_zero _ => Some 0
  | S754_finite s m e =>
      let z := Z.shiftl (Zpos m) e in
      let z := if s then - z else z in
      if (0 <=? z) && (z <? 2 ^ 64) then Some z else None
  | _ => None
  end.

(** [MAX2] on doubles. *)
Definition d_max (a b : spec_float) : spec_float := if d_gt a b then a else b.

End Double.

(** * Number sequences *)

Module NumberSeqs.
Import Double.

Record AbsSeq := mkAbsSeq {
  _num : Z;
  _sum : spec_float;
  _sum_of_squares : spec_float;
  _davg : spec_float;
  _dvariance : spec_float;
  _alpha : spec_float
}.

(** [DEFAULT_ALPHA_VALUE], 0.7. *)
Definition DEFAULT_ALPHA_VALUE : spec_float := d_div (d_of_Z 7) (d_of_Z 10).

Definition new_AbsSeq (alpha : spec_float) : AbsSeq := mkAbsSeq 0 d_zero d_zero d_zero d_zero alpha.

Definition abs_add (s : AbsSeq) (val : spec_float) : AbsSeq :=
  if _num s =? 0 then mkAbsSeq (_num s) (_sum s) (_sum_of_squares s) val d_zero (_alpha s)
  else
    let one_alpha := d_sub (d_of_Z 1) (_alpha s) in
    let davg := d_add (d_mul one_alpha val) (d_mul (_alpha s) (_davg s)) in
    let diff := d_sub val davg in
    let dvariance := d_add (d_mul (d_mul one_alpha diff) diff) (d_mul (_alpha s) (_dvariance s)) in
    mkAbsSeq (_num s) (_sum s) (_sum_of_squares s) davg dvariance (_alpha s).

Definition total (s : AbsSeq) : spec_float := d_of_Z (_num s).

Definition avg (s : AbsSeq) : spec_float :=
  if _num s =? 0 then d_zero else d_div (_sum s) (total s).

Definition variance (s : AbsSeq) : spec_float :=
  if _num s <=? 1 then d_zero
  else
    let x_bar := avg s in
    let result := d_sub (d_div (_sum_of_squares s) (total s)) (d_mul x_bar x_bar) in
    if d_gt d_zero result then d_zero else result.

Definition sd (s : AbsSeq) : option spec_float :=
  let var := variance s in
  if d_ge var d_zero then Some (d_sqrt var) else None.

Definition davg (s : AbsSeq) : spec_float := _davg s.

(** The literal [-0.1]. *)
Definition minus_tenth : spec_float := d_div (d_of_Z (-1)) (d_of_Z 10).

Definition dvariance (s : AbsSeq) : option spec_float :=
  if _num s <=? 1 then Some d_zero
  else
    let result := _dvariance s in
    if d_gt d_zero result then
      if d_gt result minus_tenth && d_gt d_zero result then Some d_zero else None
    else Some result.

Definition dsd (s : AbsSeq) : option spec_float :=
  var ← dvariance s;
  if d_ge var d_zero then Some (d_sqrt var) else None.

(** The part of the two [add] that keeps the sums. *)
Definition with_sums (s : AbsSeq) (num : Z) (sum sum_of_squares : spec_float) : AbsSeq :=
  mkAbsSeq num sum sum_of_squares (_davg s) (_dvariance s) (_alpha s).

(** ** [NumberSeq] *)

Record NumberSeq := mkNumberSeq { ns_abs : AbsSeq; _last : spec_float; _maximum : spec_float }.

Definition new_NumberSeq (alpha : spec_float) : NumberSeq := mkNumberSeq (new_AbsSeq alpha) d_zero d_zero.

Definition number_add (s : NumberSeq) (val : spec_float) : NumberSeq :=
  let a := abs_add (ns_abs s) val in
  let maximum :=
    if _num a =? 0 then val else if d_gt val (_maximum s) then val else _maximum s in
  mkNumberSeq
    (with_sums a (i32 (_num a + 1)) (d_add (_sum a) val) (d_add (_sum_of_squares a) (d_mul val val)))
    val maximum.

(** ** [TruncatedSeq] *)

Record TruncatedSeq := mkTruncatedSeq {
  ts_abs : AbsSeq;
  _sequence : list spec_float;
  _length : Z;
  _next : Z
}.

Definition new_TruncatedSeq (length : Z) (alpha : spec_float) : TruncatedSeq :=
  mkTruncatedSeq (new_AbsSeq alpha) (replicate (Z.to_nat length) d_zero) length 0.

Definition num (s : TruncatedSeq) : Z := _num (ts_abs s).
Definition seq_at (s : TruncatedSeq) (i : Z) : spec_float := nth (Z.to_nat i) (_sequence s) d_zero.

(** [add] up to its last line. *)
Definition truncated_put (s : TruncatedSeq) (val : spec_float) : TruncatedSeq :=
  let a := abs_add (ts_abs s) val in
  let old_val := seq_at s (_next s) in
  let sum := d_sub (_sum a) old_val in
  let sum_of_squares := d_sub (_sum_of_squares a) (d_mul old_val old_val) in
  let sum := d_add sum val in
  let sum_of_squares := d_add sum_of_squares (d_mul val val) in
  let n := if _num a <? _length s then _num a + 1 else _num a in
  mkTruncatedSeq (with_sums a n sum sum_of_squares) (<[Z.to_nat (_next s) := val]> (_sequence s))
    (_length s) (Z.rem (i32 (_next s + 1)) (_length s)).

Definition truncated_add (s : TruncatedSeq) (val : spec_float) : option TruncatedSeq :=
  let s := truncated_put s val in
  if d_gt (variance (ts_abs s)) (d_of_Z (-1)) then Some s else None.

(** The loop of [maximum] from [i] on, with [fuel] elements left. *)
Fixpoint maximum_loop (s : TruncatedSeq) (fuel : nat) (i : Z) (ret : spec_float) : spec_float :=
  match fuel with
  | O => ret
  | S fuel =>
      let val := seq_at s i in
      maximum_loop s fuel (i + 1) (if d_gt val ret then val else ret)
  end.
Definition maximum (s : TruncatedSeq) : spec_float :=
  if num s =? 0 then d_zero else maximum_loop s (Z.to_nat (num s - 1)) 1 (seq_at s 0).

Definition last (s : TruncatedSeq) : spec_float :=
  if num s =? 0 then d_zero
  else seq_at s (Z.rem (i32 (i32 (_next s + _length s) - 1)) (_length s)).

Definition oldest (s : TruncatedSeq) : spec_float :=
  if num s =? 0 then d_zero
  else if num s <? _length s then seq_at s 0 else seq_at s (_next s).

(** The sums of [predict_next]: of the squares of x, of x, of y and of xy. *)
Definition sums : Type := spec_float * spec_float * spec_float * spec_float.
Definition add_point (acc : sums) (i : Z) (y : spec_float) : sums :=
  let '(x_squared_sum, x_sum, y_sum, xy_sum) := acc in
  let x := d_of_Z i in
  (d_add x_squared_sum (d_mul x x), d_add x_sum x, d_add y_sum y, d_add xy_sum (d_mul x y)).

Fixpoint predict_loop (s : TruncatedSeq) (first : Z) (fuel : nat) (i : Z) (acc : sums) : sums :=
  match fuel with
  | O => acc
  | S fuel =>
      predict_loop s first fuel (i + 1)
        (add_point acc i (seq_at s (Z.rem (i32 (first + i)) (_length s))))
  end.

(** The line through the points, at [num]. *)
Definition regression (num : spec_float) (acc : sums) : spec_float :=
  let '(x_squared_sum, x_sum, y_sum, xy_sum) := acc in
  let x_avg := d_div x_sum num in
  let y_avg := d_div y_sum num in
  let Sxx := d_sub x_squared_sum (d_div (d_mul x_sum x_sum) num) in
  let Sxy := d_sub xy_sum (d_div (d_mul x_sum y_sum) num) in
  let b1 := d_div Sxy Sxx in
  let b0 := d_sub y_avg (d_mul b1 x_avg) in
  d_add b0 (d_mul b1 num).

Definition predict_next (s : TruncatedSeq) : spec_float :=
  if num s =? 0 then d_zero
  else
    let first := Z.rem (i32 (i32 (_next s + _length s) - num s)) (_length s) in
    regression (d_of_Z (num s))
      (predict_loop s first (Z.to_nat (num s)) 0 (d_zero, d_zero, d_zero, d_zero)).

End NumberSeqs.

(** * The predictors of the collector policy *)

Module Predictors.
Import Double NumberSeqs.

(** The sequences and flags of [G1CollectorPolicy] that the predictors read. *)
Record Policy := mkPolicy {
  _sigma : spec_float;
  _gcs_are_young : bool;
  _in_marking_window : bool;
  _in_marking_window_im : bool;
  _rs_length_diff_seq : TruncatedSeq;
  _cost_per_card_ms_seq : TruncatedSeq;
  _young_cards_per_entry_ratio_seq : TruncatedSeq;
  _mixed_cards_per_entry_ratio_seq : TruncatedSeq;
  _cost_per_entry_ms_seq : TruncatedSeq;
  _mixed_cost_per_entry_ms_seq : TruncatedSeq;
  _cost_per_byte_ms_seq : TruncatedSeq;
  _constant_other_time_ms_seq : TruncatedSeq;
  _young_other_cost_per_region_ms_seq : TruncatedSeq;
  _non_young_other_cost_per_region_ms_seq : TruncatedSeq;
  _cost_per_byte_ms_during_cm_seq : TruncatedSeq
}.

Section predict.
Variable p : Policy.

Definition confidence_factor (samples : Z) : spec_float :=
  if samples >? 4 then d_of_Z 1
  else d_add (d_of_Z 1) (d_div (d_mul (_sigma p) (d_of_Z (5 - samples))) (d_of_Z 2)).

Definition get_new_prediction (seq : TruncatedSeq) : option spec_float :=
  dev ← dsd (ts_abs seq);
  Some (d_max (d_add (davg (ts_abs seq)) (d_mul (_sigma p) dev))
              (d_mul (davg (ts_abs seq)) (confidence_factor (num seq)))).

(** [(double) n * get_new_prediction(seq)]. *)
Definition scaled_prediction (n : Z) (seq : TruncatedSeq) : option spec_float :=
  c ← get_new_prediction seq; Some (d_mul (d_of_Z n) c).

Definition predict_rs_length_diff : option Z :=
  d ← get_new_prediction (_rs_length_diff_seq p); size_t_of_double d.

Definition predict_rs_update_time_ms (pending_cards : Z) : option spec_float :=
  scaled_prediction pending_cards (_cost_per_card_ms_seq p).

Definition predict_young_cards_per_entry_ratio : option spec_float :=
  get_new_prediction (_young_cards_per_entry_ratio_seq p).

Definition predict_mixed_cards_per_entry_ratio : option spec_float :=
  if num (_mixed_cards_per_entry_ratio_seq p) <? 2 then predict_young_cards_per_entry_ratio
  else get_new_prediction (_mixed_cards_per_entry_ratio_seq p).

Definition predict_young_card_num (rs_length : Z) : option Z :=
  c ← predict_young_cards_per_entry_ratio; size_t_of_double (d_mul (d_of_Z rs_length) c).

Definition predict_non_young_card_num (rs_length : Z) : option Z :=
  c ← predict_mixed_cards_per_entry_ratio; size_t_of_double (d_mul (d_of_Z rs_length) c).

Definition predict_mixed_rs_scan_time_ms (card_num : Z) : option spec_float :=
  if num (_mixed_cost_per_entry_ms_seq p) <? 3 then scaled_prediction card_num (_cost_per_entry_ms_seq p)
  else scaled_prediction card_num (_mixed_cost_per_entry_ms_seq p).

Definition predict_rs_scan_time_ms (card_num : Z) : option spec_float :=
  if _gcs_are_young p then scaled_prediction card_num (_cost_per_entry_ms_seq p)
  else predict_mixed_rs_scan_time_ms card_num.

(** The literal [1.1]. *)
Definition one_tenth_more : spec_float := d_div (d_of_Z 11) (d_of_Z 10).

Definition predict_object_copy_time_ms_during_cm (bytes_to_copy : Z) : option spec_float :=
  if num (_cost_per_byte_ms_during_cm_seq p) <? 3 then
    c ← get_new_prediction (_cost_per_byte_ms_seq p);
    Some (d_mul (d_mul one_tenth_more (d_of_Z bytes_to_copy)) c)
  else scaled_prediction bytes_to_copy (_cost_per_byte_ms_during_cm_seq p).

Definition predict_object_copy_time_ms (bytes_to_copy : Z) : option spec_float :=
  if _in_marking_window p && negb (_in_marking_window_im p) then predict_object_copy_time_ms_during_cm bytes_to_copy
  else scaled_prediction bytes_to_copy (_cost_per_byte_ms_seq p).

Definition predict_constant_other_time_ms : option spec_float :=
  get_new_prediction (_constant_other_time_ms_seq p).

Definition predict_young_other_time_ms (young_num : Z) : option spec_float :=
  scaled_prediction young_num (_young_other_cost_per_region_ms_seq p).

Definition predict_non_young_other_time_ms (non_young_num : Z) : option spec_float :=
  scaled_prediction non_young_num (_non_young_other_cost_per_region_ms_seq p).

Definition base_elapsed_time_ms (pending_cards scanned_cards : Z) : option spec_float :=
  update ← predict_rs_update_time_ms pending_cards;
  scan ← predict_rs_scan_time_ms scanned_cards;
  other ← predict_constant_other_time_ms;
  Some (d_add (d_add update scan) other).

Definition predict_base_elapsed_time_ms (pending_cards : Z) : option spec_float :=
  rs_length ← predict_rs_length_diff;
  card_num ← (if _gcs_are_young p then predict_young_card_num rs_length
              else predict_non_young_card_num rs_length);
  base_elapsed_time_ms pending_cards card_num.

(** [seq] is the sequence of the survival rates for the age of a region. *)
Definition predict_yg_surv_rate (seq : TruncatedSeq) : option spec_float :=
  if num seq >? 0 then
    pred ← get_new_prediction seq;
    Some (if d_gt pred (d_of_Z 1) then d_of_Z 1 else pred)
  else None.

End predict.
End Predictors.

(** * The order of the doubles *)

Module DoubleFacts.
Import Double.

(** The order of [SFcompare] is the lexicographic order of a triple: the
    sign and kind of the number, its exponent, its mantissa. *)
Definition rank (x : spec_float) : Z * Z * Z :=
  match x with
  | S754_infinity s => (if s then -2 else 2, 0, 0)
  | S754_zero _ => (0, 0, 0)
  | S754_finite s m e => if s then (-1, - e, Zneg m) else (1, e, Zpos m)
  | S754_nan => (0, 0, 0)
  end.

Definition lex_lt (a b : Z * Z * Z) : Prop :=
  a.1.1 < b.1.1 ∨ a.1.1 = b.1.1 ∧ (a.1.2 < b.1.2 ∨ a.1.2 = b.1.2 ∧ a.2 < b.2).

#[global] Instance spec_float_eq_dec : EqDecision spec_float.
Proof. solve_decision. Defined.

Definition number (x : spec_float) : Prop := x ≠ S754_nan.

Lemma SFltb_rank x y : number x → number y → SFltb x y = true ↔ lex_lt (rank x) (rank y).
Proof.
  unfold number, SFltb, SFcompare, lex_lt.
  destruct x as [?|[]| |[] m e], y as [?|[]| |[] m' e']; try done; cbn; intros _ _;
    try (split; [done|lia]); try (split; [lia|done]);
    change (Pos.compare_cont Eq m m') with (Pos.compare m m');
    destruct (Z.compare_spec e e'), (Pos.compare_spec m m'); cbn; (split; [done || lia | done || lia]).
Qed.

Lemma lex_lt_trans a b c : lex_lt a b → lex_lt b c → lex_lt a c.
Proof. unfold lex_lt. lia. Qed.
Lemma lex_lt_irrefl a : ¬ lex_lt a a.
Proof. unfold lex_lt. lia. Qed.
Lemma lex_lt_weak a b c : ¬ lex_lt a b → ¬ lex_lt b c → ¬ lex_lt a c.
Proof. unfold lex_lt. lia. Qed.

Lemma SFltb_false_rank x y : number x → number y → SFltb x y = false ↔ ¬ lex_lt (rank x) (rank y).
Proof. intros. rewrite <- SFltb_rank by done. by destruct (SFltb x y). Qed.

Lemma SFltb_asym x y : number x → number y → SFltb x y = true → SFltb y x = false.
Proof.
  intros Hx Hy. rewrite SFltb_rank, SFltb_false_rank by done.
  intros H1 H2. exact (lex_lt_irrefl _ (lex_lt_trans _ _ _ H1 H2)).
Qed.

Lemma SFltb_weak x y z :
  number x → number y → number z → SFltb x y = false → SFltb y z = false → SFltb x z = false.
Proof. intros. rewrite !SFltb_false_rank in * by done. by eapply lex_lt_weak. Qed.

Lemma SFltb_irrefl x : SFltb x x = false.
Proof.
  destruct (decide (x = S754_nan)) as [->|Hx]; [done|]. apply SFltb_false_rank; [done..|apply lex_lt_irrefl].
Qed.

Lemma SFltb_nan_r x : SFltb x S754_nan = false.
Proof. by destruct x as [?|[]| |[] ? ?]. Qed.
Lemma SFltb_nan_l x : SFltb S754_nan x = false.
Proof. by destruct x. Qed.

End DoubleFacts.

(** * The window of a truncated sequence *)

Module NumberSeqFacts.
Import Double NumberSeqs DoubleFacts.

(** [s] is what [vs], the values added so far, leave in a buffer of [L]. *)
Record ring (L : Z) (vs : list spec_float) (s : TruncatedSeq) : Prop := {
  rg_length : _length s = L;
  rg_size : Z.of_nat (length (_sequence s)) = L;
  rg_next : _next s = Z.of_nat (length vs) mod L;
  rg_num : num s = Z.min (Z.of_nat (length vs)) L;
  rg_value : ∀ i v, vs !! i = Some v → Z.of_nat (length vs) - L <= Z.of_nat i →
               seq_at s (Z.of_nat i mod L) = v
}.

(** The last [L] values. *)
Definition window (L : Z) (vs : list spec_float) : list spec_float := drop (length vs - Z.to_nat L) vs.

Lemma abs_add_num s v : _num (abs_add s v) = _num s.
Proof. unfold abs_add. by destruct (_num s =? 0). Qed.

Lemma seq_at_put l (i j : Z) v :
  0 <= i < Z.of_nat (length l) → 0 <= j →
  nth (Z.to_nat j) (<[Z.to_nat i := v]> l) d_zero = if decide (i = j) then v else nth (Z.to_nat j) l d_zero.
Proof.
  intros Hi Hj. rewrite !nth_lookup. destruct (decide (i = j)) as [->|Hne].
  - by rewrite list_lookup_insert_eq by lia.
  - by rewrite list_lookup_insert_ne by lia.
Qed.

Lemma ring_new L alpha : 0 < L → ring L [] (new_TruncatedSeq L alpha).
Proof.
  intros HL. split; cbn; [done|rewrite length_replicate; lia|by rewrite Z.mod_0_l by lia|unfold num; cbn; lia|].
  intros i v H. done.
Qed.

Lemma mod_distinct a b L : 0 < L → 0 < b - a < L → a mod L ≠ b mod L.
Proof.
  intros HL Hd E. assert ((b - a) mod L = 0) as H0 by (rewrite Zminus_mod, E, Z.sub_diag; apply Z.mod_0_l; lia).
  rewrite Z.mod_small in H0; lia.
Qed.

Lemma rem_i32 a L : 0 < L → 0 <= a < 2 ^ 31 → Z.rem (i32 a) L = a mod L.
Proof. intros. rewrite i32_small by lia. apply Z.rem_mod_nonneg; lia. Qed.

Lemma ring_put L vs s v : 0 < L < 2 ^ 30 → ring L vs s → ring L (vs ++ [v]) (truncated_put s v).
Proof.
  intros HL [Hl Hs Hx Hn Hv]. set (n := Z.of_nat (length vs)) in *.
  pose proof (Z.mod_pos_bound n L) as Hb.
  assert (Z.of_nat (length (vs ++ [v])) = n + 1) as Hlen by (rewrite length_app; cbn; lia).
  split; rewrite ?Hlen; unfold num, seq_at in *;
    cbn [_length _sequence _next ts_abs truncated_put _num with_sums]; rewrite ?abs_add_num.
  - done.
  - by rewrite length_insert.
  - rewrite Hl, Hx, rem_i32 by lia. by rewrite Zplus_mod_idemp_l.
  - destruct (Z.ltb_spec (_num (ts_abs s)) (_length s)); lia.
  - intros i w Hi Hge. rewrite Hx, seq_at_put by (try apply Z.mod_pos_bound; lia).
    apply lookup_app_Some in Hi as [Hi|[Hle Hi]].
    + pose proof (lookup_lt_Some _ _ _ Hi). rewrite decide_False; [apply Hv; [done|lia]|].
      intros E. apply (mod_distinct (Z.of_nat i) n L); [lia|lia|done].
    + destruct (i - length vs)%nat eqn:Ei; [|done]. injection Hi as <-.
      rewrite decide_True; [done|]. f_equal. lia.
Qed.

(** All the values, added one after the other. *)
Definition put_all (s : TruncatedSeq) (vs : list spec_float) : TruncatedSeq := foldl truncated_put s vs.

Lemma ring_put_all L vs ws s : 0 < L < 2 ^ 30 → ring L vs s → ring L (vs ++ ws) (put_all s ws).
Proof.
  intros HL. revert vs s. induction ws as [|w ws IH]; intros vs s Hr; cbn; [by rewrite app_nil_r|].
  rewrite cons_middle, app_assoc. by apply IH, ring_put.
Qed.

Section window.
Variables (L : Z) (vs : list spec_float) (s : TruncatedSeq).
Hypothesis HL : 0 < L < 2 ^ 30.
Hypothesis Hring : ring L vs s.

Lemma window_length : Z.of_nat (length (window L vs)) = num s.
Proof. unfold window. rewrite length_drop, (rg_num _ _ _ Hring). lia. Qed.

Lemma window_lookup (k : nat) v :
  window L vs !! k = Some v → seq_at s ((Z.of_nat (length vs) - num s + Z.of_nat k) mod L) = v.
Proof.
  intros Hk. unfold window in Hk. rewrite lookup_drop in Hk. rewrite (rg_num _ _ _ Hring).
  rewrite <- (rg_value _ _ _ Hring _ _ Hk) by lia. do 2 f_equal. lia.
Qed.

Lemma next_bounds : 0 <= _next s < L.
Proof. rewrite (rg_next _ _ _ Hring). apply Z.mod_pos_bound. lia. Qed.

Lemma num_bounds : 0 <= num s <= L.
Proof. rewrite (rg_num _ _ _ Hring). lia. Qed.

(** An index counted back from [_next]. *)
Lemma back_index k : 0 <= k <= L →
  Z.rem (i32 (i32 (_next s + _length s) - k)) (_length s) = (Z.of_nat (length vs) - k) mod L.
Proof.
  intros Hk. pose proof next_bounds. rewrite (rg_length _ _ _ Hring), (i32_small (_next s + L)) by lia.
  rewrite rem_i32 by lia. rewrite (rg_next _ _ _ Hring).
  replace (Z.of_nat (length vs) mod L + L - k) with (Z.of_nat (length vs) mod L + (- k) + 1 * L) by lia.
  rewrite Z.mod_add by lia. by rewrite Zplus_mod_idemp_l.
Qed.

(** *** The readers *)

Lemma last_window v ws : vs = ws ++ [v] → last s = v.
Proof.
  intros E. pose proof (rg_num _ _ _ Hring) as Hn. pose proof (length_app ws [v]) as Hlen.
  rewrite <- E in Hlen. cbn in Hlen. unfold last. destruct (Z.eqb_spec (num s) 0); [lia|].
  rewrite back_index by lia. replace (Z.of_nat (length vs) - 1) with (Z.of_nat (length ws)) by lia.
  apply (rg_value _ _ _ Hring); [|lia]. rewrite E. by apply list_lookup_middle.
Qed.

Lemma oldest_window v : head (window L vs) = Some v → oldest s = v.
Proof.
  intros Hh. rewrite head_lookup in Hh. pose proof (window_lookup _ _ Hh) as Hv.
  apply lookup_lt_Some in Hh. pose proof window_length. pose proof (rg_num _ _ _ Hring) as Hn.
  unfold oldest. destruct (Z.eqb_spec (num s) 0); [lia|]. rewrite <- Hv, (rg_length _ _ _ Hring).
  destruct (Z.ltb_spec (num s) L).
  - replace (Z.of_nat (length vs) - num s + Z.of_nat 0) with 0 by lia. by rewrite Z.mod_0_l by lia.
  - rewrite (rg_next _ _ _ Hring). replace (num s) with L by lia.
    replace (Z.of_nat (length vs) - L + Z.of_nat 0) with (Z.of_nat (length vs) + (-1) * L) by lia.
    by rewrite Z.mod_add by lia.
Qed.

(** The first [num] slots hold exactly the window. *)
Lemma slot_in_window j : 0 <= j < num s → seq_at s j ∈ window L vs.
Proof.
  intros Hj. pose proof (rg_num _ _ _ Hring) as Hn. pose proof window_length as Hw.
  set (k := (j - (Z.of_nat (length vs) - num s)) mod L). pose proof (Z.mod_pos_bound (j - (Z.of_nat (length vs) - num s)) L) as Hk.
  fold k in Hk. assert (k < num s ∧ (Z.of_nat (length vs) - num s + k) mod L = j) as [Hlt E].
  { split.
    - destruct (Z.le_gt_cases (Z.of_nat (length vs)) L); [|lia].
      unfold k. rewrite Z.mod_small; lia.
    - unfold k. rewrite Zplus_mod_idemp_r. rewrite Z.mod_small; lia. }
  destruct (lookup_lt_is_Some_2 (window L vs) (Z.to_nat k)) as [v Hv]; [lia|].
  pose proof (window_lookup _ _ Hv) as Hs. rewrite Z2Nat.id, E in Hs by lia. rewrite Hs. by eapply list_elem_of_lookup_2.
Qed.

Lemma window_in_slot v : v ∈ window L vs → ∃ j, 0 <= j < num s ∧ seq_at s j = v.
Proof.
  intros [k Hk]%list_elem_of_lookup. pose proof (window_lookup _ _ Hk) as Hs. apply lookup_lt_Some in Hk.
  pose proof window_length. pose proof (rg_num _ _ _ Hring) as Hn. eexists. split; [|exact Hs].
  destruct (Z.le_gt_cases (Z.of_nat (length vs)) L).
  - rewrite Z.mod_small; lia.
  - pose proof (Z.mod_pos_bound (Z.of_nat (length vs) - num s + Z.of_nat k) L). lia.
Qed.

Lemma maximum_loop_spec n i ret :
  number ret → (∀ j, i <= j < i + Z.of_nat n → number (seq_at s j)) →
  let r := maximum_loop s n i ret in
  (r = ret ∨ ∃ j, i <= j < i + Z.of_nat n ∧ r = seq_at s j) ∧ number r ∧ SFltb r ret = false ∧
  ∀ j, i <= j < i + Z.of_nat n → SFltb r (seq_at s j) = false.
Proof.
  revert i ret. induction n as [|n IH]; intros i ret Hr Hn; cbn zeta; cbn [maximum_loop].
  { split_and!; [by left|done|apply SFltb_irrefl|lia]. }
  assert (number (seq_at s i)) as Hi by (apply Hn; lia).
  set (ret' := if d_gt (seq_at s i) ret then seq_at s i else ret).
  assert (number ret') as Hr' by (unfold ret'; by destruct (d_gt _ _)).
  assert (SFltb ret' ret = false ∧ SFltb ret' (seq_at s i) = false) as [Ha Hb].
  { unfold ret', d_gt. destruct (SFltb ret (seq_at s i)) eqn:E; [|by rewrite SFltb_irrefl].
    split; [by apply SFltb_asym|apply SFltb_irrefl]. }
  destruct (IH (i + 1) ret') as (Hin & Hm & Hge & Hall); [done|intros; apply Hn; lia|].
  split_and!; [|done|by apply (SFltb_weak _ ret' _)|].
  - destruct Hin as [->|(j & Hj & ->)]; [|right; exists j; split; [lia|done]].
    unfold ret'. destruct (d_gt _ _); [right; exists i; split; [lia|done]|by left].
  - intros j Hj. destruct (decide (j = i)) as [->|]; [by apply (SFltb_weak _ ret' _)|apply Hall; lia].
Qed.

Lemma maximum_window :
  vs ≠ [] → Forall number (window L vs) →
  maximum s ∈ window L vs ∧ ∀ v, v ∈ window L vs → SFltb (maximum s) v = false.
Proof.
  intros Hne Hall. rewrite Forall_forall in Hall.
  assert (0 < num s) as Hpos by (rewrite (rg_num _ _ _ Hring); destruct vs; [done|cbn; lia]).
  assert (∀ j, 0 <= j < num s → number (seq_at s j)) as Hnum by (intros; by apply Hall, slot_in_window).
  unfold maximum. destruct (Z.eqb_spec (num s) 0); [lia|].
  destruct (maximum_loop_spec (Z.to_nat (num s - 1)) 1 (seq_at s 0)) as (Hin & _ & H0 & Hj);
    [apply Hnum; lia|intros; apply Hnum; lia|]. split.
  - destruct Hin as [->|(j & ? & ->)]; apply slot_in_window; lia.
  - intros v (j & Hr & <-)%window_in_slot. destruct (decide (j = 0)) as [->|]; [done|apply Hj; lia].
Qed.

(** The sums over the points of a list, the first at [i]. *)
Fixpoint add_points (i : Z) (ys : list spec_float) (acc : sums) : sums :=
  match ys with
  | [] => acc
  | y :: ys => add_points (i + 1) ys (add_point acc i y)
  end.

Lemma predict_loop_window (k : nat) acc :
  let first := (Z.of_nat (length vs) - num s) mod L in
  predict_loop s first (length (window L vs) - k) (Z.of_nat k) acc = add_points (Z.of_nat k) (drop k (window L vs)) acc.
Proof.
  cbn zeta. remember (length (window L vs) - k)%nat as n eqn:En. revert k acc En.
  induction n as [|n IH]; intros k acc En; cbn [predict_loop].
  { by rewrite drop_ge by lia. }
  destruct (lookup_lt_is_Some_2 (window L vs) k) as [y Hy]; [lia|].
  rewrite (drop_S _ _ _ Hy). cbn [add_points].
  replace (Z.of_nat k + 1) with (Z.of_nat (S k)) by lia. rewrite IH by lia. do 2 f_equal.
  pose proof window_length. pose proof num_bounds. pose proof (Z.mod_pos_bound (Z.of_nat (length vs) - num s) L).
  rewrite (rg_length _ _ _ Hring), rem_i32 by lia. rewrite Zplus_mod_idemp_l. by apply window_lookup.
Qed.

Lemma predict_next_window :
  vs ≠ [] → predict_next s = regression (d_of_Z (Z.of_nat (length (window L vs))))
                               (add_points 0 (window L vs) (d_zero, d_zero, d_zero, d_zero)).
Proof.
  intros Hne. pose proof window_length as Hw. pose proof num_bounds. pose proof (rg_num _ _ _ Hring).
  assert (num s ≠ 0) by (destruct vs; [done|cbn in *; lia]).
  unfold predict_next. rewrite (proj2 (Z.eqb_neq _ _)) by done. rewrite back_index by lia.
  f_equal; [by rewrite Hw|]. replace (Z.to_nat (num s)) with (length (window L vs) - 0)%nat by lia.
  apply (predict_loop_window 0).
Qed.

End window.

(** ** The guarantee of [add] *)

Lemma variance_not_negative s : variance s = S754_nan ∨ number (variance s) ∧ d_gt d_zero (variance s) = false.
Proof.
  unfold variance. destruct (_num s <=? 1); [by right|].
  set (r := d_sub _ _). destruct (d_gt d_zero r) eqn:E; [by right|].
  destruct (decide (r = S754_nan)); [by left|by right].
Qed.

Lemma truncated_add_aborts s v :
  truncated_add s v = None ↔ variance (ts_abs (truncated_put s v)) = S754_nan.
Proof.
  unfold truncated_add. destruct (variance_not_negative (ts_abs (truncated_put s v))) as [->|[Hn Hz]].
  { unfold d_gt. by rewrite SFltb_nan_r. }
  destruct (d_gt _ (d_of_Z (-1))) eqn:E; [by split; intros H; [|by destruct Hn]|].
  exfalso. unfold d_gt in *. assert (SFltb (d_of_Z (-1)) d_zero = false) as Hc; [|by vm_compute in Hc].
  eapply SFltb_weak; [done| |done|exact E|]; [exact Hn|exact Hz].
Qed.

(** A truncated sequence of length [L] represents the last [L] values
    added to it: [num], [last], [oldest] and [maximum] are theirs, and
    [predict_next] is the regression line through them in the order they were
    added, however often the buffer has wrapped around; and [add] aborts the
    VM exactly when the variance is not a number. *)
Theorem truncated_seq_window L alpha vs v :
  0 < L < 2 ^ 30 →
  let s := put_all (new_TruncatedSeq L alpha) (vs ++ [v]) in
  let w := window L (vs ++ [v]) in
  num s = Z.of_nat (length w) ∧ length w = Nat.min (S (length vs)) (Z.to_nat L) ∧
  last s = v ∧ head w = Some (oldest s) ∧
  (Forall number w → maximum s ∈ w ∧ ∀ x, x ∈ w → SFltb (maximum s) x = false) ∧
  predict_next s = regression (d_of_Z (Z.of_nat (length w))) (add_points 0 w (d_zero, d_zero, d_zero, d_zero)) ∧
  ∀ x, truncated_add s x = None ↔ variance (ts_abs (truncated_put s x)) = S754_nan.
Proof.
  intros HL s w. assert (ring L (vs ++ [v]) s) as Hr.
  { apply (ring_put_all L [] (vs ++ [v])); [done|]. apply ring_new. lia. }
  assert (vs ++ [v] ≠ []) as Hne by (by destruct vs).
  split_and!.
  - symmetry. by apply window_length.
  - unfold w, window. rewrite length_drop, length_app. change (length [v]) with 1%nat. lia.
  - by eapply last_window.
  - destruct (head w) as [x|] eqn:E; [by rewrite (oldest_window L _ s HL Hr x E)|]. exfalso.
    pose proof (length_app vs [v]). destruct w as [|? ?] eqn:Ew; [|done].
    assert (length (window L (vs ++ [v])) = 0%nat) as H0 by (fold w; by rewrite Ew).
    unfold window in H0. rewrite length_drop in H0. cbn in *. lia.
  - by apply maximum_window.
  - by apply predict_next_window.
  - apply truncated_add_aborts.
Qed.

Lemma truncated_seq_window_witness :
  let s := put_all (new_TruncatedSeq 2 DEFAULT_ALPHA_VALUE) [d_of_Z 5; d_of_Z 3; d_of_Z 4] in
  last s = d_of_Z 4 ∧ oldest s = d_of_Z 3 ∧ maximum s = d_of_Z 4.
Proof.
  destruct (truncated_seq_window 2 DEFAULT_ALPHA_VALUE [d_of_Z 5; d_of_Z 3] (d_of_Z 4)) as (_ & _ & Hl & Ho & _); [lia|].
  split; [exact Hl|]. split; reflexivity.
Defined.

End NumberSeqFacts.
