(* ===== verification/CSetChooser.v ===== *)
(** The old regions of a collection set: [CollectionSetChooser]
    ([collectionSetChooser.cpp], [.hpp]), its filling at the end of marking
    ([KnownGarbageClosure], [ParKnownGarbageHRClosure]) and the choice of old
    regions for a mixed collection or a migration ([finalize_cset],
    [finalize_cset_for_migration] of [g1CollectorPolicy.cpp]).

    The regions are a map from addresses; the parallel filling is a sequence
    of events of the workers. The C library's [qsort] is an interface. *)

From S2P Require Import Prelude MarkWord JavaHeap GenRegions Predictions.
From Stdlib Require Import SpecFloat Sorted.
Import MarkOop JavaHeap HeapRegions Double NumberSeqs Predictors.

Module CSetChooser.

(** * Old regions *)

Record OldRegion := mkOldRegion {
  o_hr : HeapRegion;
  o_hrs_index : Z;
  o_prev_top_at_mark_start : Z;
  o_prev_marked_bytes : Z;
  o_young : bool;
  o_humongous : bool;
  o_rs_occupied : Z;                (* rem_set()->occupied() *)
  o_surv_seq : TruncatedSeq;        (* surv_rate_group()->get_seq(age) *)
  o_gc_efficiency : spec_float;
  o_in_collection_set : bool;
  o_next_in_collection_set : Z
}.

Definition set_efficiency (r : OldRegion) (e : spec_float) : OldRegion :=
  mkOldRegion (o_hr r) (o_hrs_index r) (o_prev_top_at_mark_start r) (o_prev_marked_bytes r) (o_young r)
    (o_humongous r) (o_rs_occupied r) (o_surv_seq r) e (o_in_collection_set r) (o_next_in_collection_set r).
Definition link_in_cset (r : OldRegion) (next : Z) : OldRegion :=
  mkOldRegion (o_hr r) (o_hrs_index r) (o_prev_top_at_mark_start r) (o_prev_marked_bytes r) (o_young r)
    (o_humongous r) (o_rs_occupied r) (o_surv_seq r) (o_gc_efficiency r) true next.
Definition set_hr (r : OldRegion) (hr : HeapRegion) : OldRegion :=
  mkOldRegion hr (o_hrs_index r) (o_prev_top_at_mark_start r) (o_prev_marked_bytes r) (o_young r)
    (o_humongous r) (o_rs_occupied r) (o_surv_seq r) (o_gc_efficiency r) (o_in_collection_set r)
    (o_next_in_collection_set r).

Definition is_marked (r : OldRegion) : bool := negb (o_prev_top_at_mark_start r =? hr_bottom (o_hr r)).
Definition capacity (r : OldRegion) : Z := pointer_delta (hr_end (o_hr r)) (hr_bottom (o_hr r)) 1.

Definition live_bytes (r : OldRegion) : Z :=
  u64 (words_between (hr_top (o_hr r)) (o_prev_top_at_mark_start r) * HeapWordSize + o_prev_marked_bytes r).
Definition garbage_bytes (r : OldRegion) : Z :=
  let used_at_mark_start_bytes :=
    u64 (words_between (o_prev_top_at_mark_start r) (hr_bottom (o_hr r)) * HeapWordSize) in
  u64 (used_at_mark_start_bytes - o_prev_marked_bytes r).
Definition reclaimable_bytes (r : OldRegion) : Z := u64 (capacity r - live_bytes r).
Definition max_live_bytes (r : OldRegion) : Z := u64 (used (o_hr r) - garbage_bytes r).

(** The regions by address; NULL is not one. *)
Notation regions := (gmap Z OldRegion).

Section policy.
Variable p : Policy.

Definition predict_bytes_to_copy (r : OldRegion) : option Z :=
  if is_marked r then Some (max_live_bytes r)
  else
    yg_surv_rate ← predict_yg_surv_rate p (o_surv_seq r);
    size_t_of_double (d_mul (d_of_Z (used (o_hr r))) yg_surv_rate).

Definition predict_region_elapsed_time_ms (r : OldRegion) (for_young_gc : bool) : option spec_float :=
  let rs_length := o_rs_occupied r in
  card_num ← (if for_young_gc then predict_young_card_num p rs_length
              else predict_non_young_card_num p rs_length);
  bytes_to_copy ← predict_bytes_to_copy r;
  scan ← predict_rs_scan_time_ms p card_num;
  copy ← predict_object_copy_time_ms p bytes_to_copy;
  other ← (if o_young r then predict_young_other_time_ms p 1 else predict_non_young_other_time_ms p 1);
  Some (d_add (d_add scan copy) other).

Definition calc_gc_efficiency (R : regions) (hr : Z) : option regions :=
  r ← R !! hr;
  region_elapsed_time_ms ← predict_region_elapsed_time_ms r false;
  Some (<[hr := set_efficiency r (d_div (d_of_Z (reclaimable_bytes r)) region_elapsed_time_ms)]> R).

(** * The chooser *)

Record CollectionSetChooser := mkChooser {
  c_regions : list Z;
  c_curr_index : Z;
  c_length : Z;
  c_first_par_unreserved_idx : Z;
  c_region_live_threshold_bytes : Z;
  c_remaining_reclaimable_bytes : Z
}.

Definition new_CollectionSetChooser (GrainBytes G1MixedGCLiveThresholdPercent : Z) : CollectionSetChooser :=
  mkChooser [] 0 0 0 (u64 (GrainBytes * G1MixedGCLiveThresholdPercent) / 100) 0.

(** The array: reads and writes outside it fault. *)
Definition regions_at (c : CollectionSetChooser) (i : Z) : option Z := c_regions c !! Z.to_nat i.
Definition set_regions (c : CollectionSetChooser) (l : list Z) : CollectionSetChooser :=
  mkChooser l (c_curr_index c) (c_length c) (c_first_par_unreserved_idx c) (c_region_live_threshold_bytes c)
    (c_remaining_reclaimable_bytes c).
Definition regions_at_put (c : CollectionSetChooser) (i hr : Z) : option CollectionSetChooser :=
  _ ← regions_at c i; Some (set_regions c (<[Z.to_nat i := hr]> (c_regions c))).
Definition regions_at_put_grow (c : CollectionSetChooser) (i hr : Z) : CollectionSetChooser :=
  let n := length (c_regions c) in
  let l := if i >=? Z.of_nat n then c_regions c ++ replicate (Z.to_nat (i + 1) - n) NULL else c_regions c in
  set_regions c (<[Z.to_nat i := hr]> l).
Definition regions_trunc_to (c : CollectionSetChooser) (i : Z) : option CollectionSetChooser :=
  if i <=? Z.of_nat (length (c_regions c)) then Some (set_regions c (take (Z.to_nat i) (c_regions c))) else None.

Definition set_totals (c : CollectionSetChooser) (curr len remaining : Z) : CollectionSetChooser :=
  mkChooser (c_regions c) curr len (c_first_par_unreserved_idx c) (c_region_live_threshold_bytes c) remaining.
Definition set_unreserved (c : CollectionSetChooser) (i : Z) : CollectionSetChooser :=
  mkChooser (c_regions c) (c_curr_index c) (c_length c) i (c_region_live_threshold_bytes c)
    (c_remaining_reclaimable_bytes c).

Definition order_regions (R : regions) (hr1 hr2 : Z) : option Z :=
  if hr1 =? NULL then Some (if hr2 =? NULL then 0 else 1)
  else if hr2 =? NULL then Some (-1)
  else
    r1 ← R !! hr1; r2 ← R !! hr2;
    let gc_eff1 := o_gc_efficiency r1 in
    let gc_eff2 := o_gc_efficiency r2 in
    Some (if d_gt gc_eff1 gc_eff2 then -1 else if SFltb gc_eff1 gc_eff2 then 1 else 0).

(** The second loop of [verify], from [index] on; [false] is a failed
    guarantee. *)
Fixpoint verify_loop (R : regions) (c : CollectionSetChooser) (fuel : nat) (index prev sum : Z) : bool :=
  match fuel with
  | O => sum =? c_remaining_reclaimable_bytes c
  | S fuel =>
      match regions_at c index with
      | None => false
      | Some curr =>
          negb (curr =? NULL) &&
          match R !! curr with
          | None => false
          | Some r =>
              negb (o_young r) && negb (o_humongous r) &&
              (if negb (prev =? NULL) then
                 match order_regions R prev curr with Some o => negb (o =? 1) | None => false end
               else true) &&
              verify_loop R c fuel (index + 1) curr (u64 (sum + reclaimable_bytes r))
          end
      end
  end.

Definition verify (R : regions) (c : CollectionSetChooser) : bool :=
  (c_length c <=? Z.of_nat (length (c_regions c))) && (c_curr_index c <=? c_length c) &&
  forallb (λ e, e =? NULL) (take (Z.to_nat (c_curr_index c)) (c_regions c)) &&
  verify_loop R c (Z.to_nat (c_length c - c_curr_index c)) (c_curr_index c) NULL 0.

Definition add_region (R : regions) (c : CollectionSetChooser) (hr : Z) : option (regions * CollectionSetChooser) :=
  r ← R !! hr;
  let c := set_regions c (c_regions c ++ [hr]) in
  let c := set_totals c (c_curr_index c) (u32 (c_length c + 1))
             (u64 (c_remaining_reclaimable_bytes c + reclaimable_bytes r)) in
  R ← calc_gc_efficiency R hr;
  Some (R, c).

(** [n_threads] is [ParallelGCThreads], or the number of active workers with
    [UseDynamicNumberOfGCThreads]. *)
Definition prepare_for_par_region_addition (c : CollectionSetChooser) (n_threads n_regions chunk_size : Z)
    : CollectionSetChooser :=
  let c := set_unreserved c 0 in
  let max_waste := u32 (n_threads * chunk_size) in
  let aligned_n_regions := u32 (u32 (u32 (n_regions + chunk_size) - 1) / chunk_size * chunk_size) in
  regions_at_put_grow c (u32 (u32 (aligned_n_regions + max_waste) - 1)) NULL.

Definition claim_array_chunk (c : CollectionSetChooser) (chunk_size : Z) : Z * CollectionSetChooser :=
  let res := u32 (c_first_par_unreserved_idx c + chunk_size) in
  (u32 (res - chunk_size), set_unreserved c res).

Definition set_region (R : regions) (c : CollectionSetChooser) (index hr : Z)
    : option (regions * CollectionSetChooser) :=
  c ← regions_at_put c index hr;
  R ← calc_gc_efficiency R hr;
  Some (R, c).

Definition update_totals (c : CollectionSetChooser) (region_num bytes : Z) : CollectionSetChooser :=
  if region_num >? 0 then
    set_totals c (c_curr_index c) (u32 (c_length c + region_num)) (u64 (c_remaining_reclaimable_bytes c + bytes))
  else c.

Definition clear (c : CollectionSetChooser) : CollectionSetChooser := set_totals (set_regions c []) 0 0 0.

Definition peek (c : CollectionSetChooser) : option Z :=
  if c_curr_index c <? c_length c then regions_at c (c_curr_index c) else Some NULL.

Definition remove_and_move_to_next (R : regions) (c : CollectionSetChooser) (hr : Z) : option CollectionSetChooser :=
  c ← regions_at_put c (c_curr_index c) NULL;
  r ← R !! hr;
  Some (set_totals c (u32 (c_curr_index c + 1)) (c_length c)
          (u64 (c_remaining_reclaimable_bytes c - reclaimable_bytes r))).

Definition should_add (c : CollectionSetChooser) (r : OldRegion) : bool :=
  negb (o_humongous r) && (live_bytes r <? c_region_live_threshold_bytes c).

Definition remaining_regions (c : CollectionSetChooser) : Z := u32 (c_length c - c_curr_index c).
Definition is_empty (c : CollectionSetChooser) : bool := remaining_regions c =? 0.

(** The sort of the array; [_regions.sort] is the C library's [qsort]. *)
Class QSort := qsort : (Z → Z → option Z) → list Z → option (list Z).

Definition sort_regions `{QSort} (R : regions) (c : CollectionSetChooser) : option CollectionSetChooser :=
  c ← (if c_first_par_unreserved_idx c >? 0 then regions_trunc_to c (c_first_par_unreserved_idx c) else Some c);
  l ← qsort (order_regions R) (c_regions c);
  Some (set_regions c l).

(** * The updater of a worker *)

Record CSetChooserParUpdater := mkUpdater {
  u_parallel : bool;
  u_chunk_size : Z;
  u_cur_chunk_idx : Z;
  u_cur_chunk_end : Z;
  u_regions_added : Z;
  u_reclaimable_bytes_added : Z
}.

Definition new_CSetChooserParUpdater (parallel : bool) (chunk_size : Z) : CSetChooserParUpdater :=
  mkUpdater parallel chunk_size 0 0 0 0.

Definition delete_CSetChooserParUpdater (c : CollectionSetChooser) (u : CSetChooserParUpdater)
    : CollectionSetChooser :=
  if u_parallel u && (u_regions_added u >? 0)
  then update_totals c (u_regions_added u) (u_reclaimable_bytes_added u) else c.

Definition updater_add_region (R : regions) (c : CollectionSetChooser) (u : CSetChooserParUpdater) (hr : Z)
    : option (regions * CollectionSetChooser * CSetChooserParUpdater) :=
  '(R, c, idx, end_) ←
    (if u_parallel u then
       let '(idx, end_, c) :=
         if u_cur_chunk_idx u =? u_cur_chunk_end u then
           let '(idx, c) := claim_array_chunk c (u_chunk_size u) in (idx, u32 (idx + u_chunk_size u), c)
         else (u_cur_chunk_idx u, u_cur_chunk_end u, c) in
       '(R, c) ← set_region R c idx hr;
       Some (R, c, u32 (idx + 1), end_)
     else
       '(R, c) ← add_region R c hr;
       Some (R, c, u_cur_chunk_idx u, u_cur_chunk_end u));
  r ← R !! hr;
  Some (R, c, mkUpdater (u_parallel u) (u_chunk_size u) idx end_ (u32 (u_regions_added u + 1))
                (u64 (u_reclaimable_bytes_added u + reclaimable_bytes r))).

(** * Filling the chooser at the end of marking *)

Section cleanup.
Variable _retained_old_gc_alloc_region : Z.

Definition is_old_gc_alloc_region (hr : Z) : bool := hr =? _retained_old_gc_alloc_region.

(** The test of both closures. *)
Definition is_candidate (c : CollectionSetChooser) (hr : Z) (r : OldRegion) : bool :=
  is_marked r &&
  (should_add c r && negb (is_old_gc_alloc_region hr) && negb (hr_is_gen_alloc_region (o_hr r))).

(** [KnownGarbageClosure::doHeapRegion]. *)
Definition known_garbage (R : regions) (c : CollectionSetChooser) (hr : Z) : option (regions * CollectionSetChooser) :=
  r ← R !! hr;
  if is_candidate c hr r then add_region R c hr else Some (R, c).

Fixpoint known_garbage_all (R : regions) (c : CollectionSetChooser) (hrs : list Z)
    : option (regions * CollectionSetChooser) :=
  match hrs with
  | [] => Some (R, c)
  | hr :: hrs => '(R, c) ← known_garbage R c hr; known_garbage_all R c hrs
  end.

(** [ParKnownGarbageHRClosure::doHeapRegion]. *)
Definition par_known_garbage (R : regions) (c : CollectionSetChooser) (u : CSetChooserParUpdater) (hr : Z)
    : option (regions * CollectionSetChooser * CSetChooserParUpdater) :=
  r ← R !! hr;
  if is_candidate c hr r then updater_add_region R c u hr else Some (R, c, u).

(** What the workers do, in the order in which it happens: worker [w] visits
    a region it has claimed, or ends its work and its updater is destroyed.
    The only shared datum a visit reads is [_first_par_unreserved_idx], in one
    atomic instruction. *)
Inductive event := Visit (w : nat) (hr : Z) | Done (w : nat).

Fixpoint run_workers (R : regions) (c : CollectionSetChooser) (us : list CSetChooserParUpdater) (evs : list event)
    : option (regions * CollectionSetChooser) :=
  match evs with
  | [] => Some (R, c)
  | Visit w hr :: evs =>
      u ← us !! w;
      '(R, c, u) ← par_known_garbage R c u hr;
      run_workers R c (<[w := u]> us) evs
  | Done w :: evs =>
      u ← us !! w;
      run_workers R (delete_CSetChooserParUpdater c u) us evs
  end.

Definition OverpartitionFactor : Z := 4.
Definition work_unit (region_num n : Z) : Z :=
  let MinWorkUnit := Z.max (region_num / n) 1 in
  Z.max (region_num / u32 (n * OverpartitionFactor)) MinWorkUnit.

(** The two branches of [record_concurrent_mark_cleanup_end], up to the
    statistics at its end. [hrs] are the regions of the heap. *)
Definition cleanup_end_par `{QSort} (R : regions) (c : CollectionSetChooser) (hrs : list Z) (evs : list event)
    (no_of_gc_threads ParallelGCThreads n_threads n_workers : Z) : option (regions * CollectionSetChooser) :=
  let c := clear c in
  let region_num := Z.of_nat (length hrs) in
  let WorkUnit :=
    if no_of_gc_threads >? 0 then work_unit region_num no_of_gc_threads
    else work_unit region_num ParallelGCThreads in
  let c := prepare_for_par_region_addition c n_threads region_num WorkUnit in
  '(R, c) ← run_workers R c (replicate (Z.to_nat n_workers) (new_CSetChooserParUpdater true WorkUnit)) evs;
  c ← sort_regions R c;
  Some (R, c).

Definition cleanup_end_serial `{QSort} (R : regions) (c : CollectionSetChooser) (hrs : list Z)
    : option (regions * CollectionSetChooser) :=
  '(R, c) ← known_garbage_all R (clear c) hrs;
  c ← sort_regions R c;
  Some (R, c).

End cleanup.

(** * The collection set *)

(** The fields of the policy and of the heap that taking a region changes;
    [s_fast_test] is [_in_cset_fast_test_base], [s_old_*] are [_old_set]. *)
Record CSet := mkCSet {
  s_regions : regions;
  s_chooser : CollectionSetChooser;
  s_collection_set : Z;
  s_bytes_used_before : Z;
  s_recorded_rs_lengths : Z;
  s_old_cset_region_length : Z;
  s_fast_test : list bool;
  s_old_length : Z;
  s_old_region_num : Z;
  s_old_used_bytes : Z
}.

Definition with_chooser (s : CSet) (c : CollectionSetChooser) : CSet :=
  mkCSet (s_regions s) c (s_collection_set s) (s_bytes_used_before s) (s_recorded_rs_lengths s)
    (s_old_cset_region_length s) (s_fast_test s) (s_old_length s) (s_old_region_num s) (s_old_used_bytes s).

(** [HeapRegionSet::remove] on [_old_set]. *)
Definition old_set_remove (s : CSet) (LogOfHRGrainBytes hr : Z) : option CSet :=
  r ← s_regions s !! hr;
  let region_num := if negb (o_humongous r) then 1 else u32 (capacity r >>> LogOfHRGrainBytes) in
  Some (mkCSet (s_regions s) (s_chooser s) (s_collection_set s) (s_bytes_used_before s) (s_recorded_rs_lengths s)
          (s_old_cset_region_length s) (s_fast_test s) (u32 (s_old_length s - 1))
          (u32 (s_old_region_num s - region_num)) (u64 (s_old_used_bytes s - used (o_hr r)))).

Definition register_region_with_in_cset_fast_test (l : list bool) (index : Z) : option (list bool) :=
  _ ← l !! Z.to_nat index; Some (<[Z.to_nat index := true]> l).

(** Resets the generation and the epoch of a region of the set. *)
Definition reset_gen (hr : HeapRegion) : HeapRegion :=
  if negb (hr_epoch hr =? -1) || negb (hr_gen hr =? -1) then set_gen (set_epoch hr (-1)) (-1) else hr.

Definition add_old_region_to_cset (s : CSet) (hr : Z) : option CSet :=
  r ← s_regions s !! hr;
  let r := link_in_cset r (s_collection_set s) in
  fast_test ← register_region_with_in_cset_fast_test (s_fast_test s) (o_hrs_index r);
  let r' := set_hr r (reset_gen (o_hr r)) in
  Some (mkCSet (<[hr := r']> (s_regions s)) (s_chooser s) hr
          (u64 (s_bytes_used_before s + used (o_hr r))) (u64 (s_recorded_rs_lengths s + o_rs_occupied r))
          (u32 (s_old_cset_region_length s + 1)) fast_test (s_old_length s) (s_old_region_num s) (s_old_used_bytes s)).

Section choose.
Variables (heap_capacity n_regions LogOfHRGrainBytes : Z).
Variables (G1HeapWastePercent G1MixedGCCountTarget G1OldCSetRegionThresholdPercent : Z).
Variable adaptive_young_list_length : bool.

Definition reclaimable_bytes_perc (bytes : Z) : spec_float :=
  d_div (d_mul (d_of_Z bytes) (d_of_Z 100)) (d_of_Z heap_capacity).

Definition next_gc_should_be_mixed (c : CollectionSetChooser) : bool :=
  if is_empty c then false
  else
    let reclaimable_perc := reclaimable_bytes_perc (c_remaining_reclaimable_bytes c) in
    negb (SFleb reclaimable_perc (d_of_Z G1HeapWastePercent)).

Definition calc_min_old_cset_length (c : CollectionSetChooser) : Z :=
  let region_num := c_length c in
  let gc_num := Z.max G1MixedGCCountTarget 1 in
  let result := region_num / gc_num in
  u32 (if u64 (result * gc_num) <? region_num then result + 1 else result).

Definition calc_max_old_cset_length : Z :=
  let perc := G1OldCSetRegionThresholdPercent in
  let result := u64 (n_regions * perc) / 100 in
  u32 (if u64 (100 * result) <? u64 (n_regions * perc) then result + 1 else result).

(** The end of the body of both loops. *)
Definition take_region (s : CSet) (hr : Z) : option CSet :=
  c ← remove_and_move_to_next (s_regions s) (s_chooser s) hr;
  s ← old_set_remove (with_chooser s c) LogOfHRGrainBytes hr;
  add_old_region_to_cset s hr.

(** The times that the loops keep: remaining and predicted. *)
Definition spend (times : spec_float * spec_float) (predicted_time_ms : spec_float) : spec_float * spec_float :=
  (d_max (d_sub times.1 predicted_time_ms) d_zero, d_add times.2 predicted_time_ms).

(** The loop of [finalize_cset]. One region is taken per turn, so as many
    turns as there are candidates are enough. *)
Fixpoint choose_loop (fuel : nat) (min_old_cset_length max_old_cset_length : Z)
    (s : CSet) (times : spec_float * spec_float) (expensive_region_num : Z)
    : option (CSet * (spec_float * spec_float) * Z) :=
  hr ← peek (s_chooser s);
  if hr =? NULL then Some (s, times, expensive_region_num)
  else if s_old_cset_region_length s >=? max_old_cset_length then Some (s, times, expensive_region_num)
  else if SFleb (reclaimable_bytes_perc (c_remaining_reclaimable_bytes (s_chooser s))) (d_of_Z G1HeapWastePercent)
  then Some (s, times, expensive_region_num)
  else
    r ← s_regions s !! hr;
    predicted_time_ms ← predict_region_elapsed_time_ms r (_gcs_are_young p);
    let enough := s_old_cset_region_length s >=? min_old_cset_length in
    let too_expensive := d_gt predicted_time_ms times.1 in
    if (if adaptive_young_list_length then too_expensive && enough else enough)
    then Some (s, times, expensive_region_num)
    else
      let expensive_region_num :=
        if adaptive_young_list_length && too_expensive then u32 (expensive_region_num + 1) else expensive_region_num in
      s ← take_region s hr;
      match fuel with
      | O => None
      | S fuel =>
          choose_loop fuel min_old_cset_length max_old_cset_length s (spend times predicted_time_ms) expensive_region_num
      end.

(** The old regions of [finalize_cset]. *)
Definition choose_old_regions (s : CSet) (times : spec_float * spec_float)
    : option (CSet * (spec_float * spec_float) * Z) :=
  if negb (_gcs_are_young p) then
    choose_loop (length (c_regions (s_chooser s))) (calc_min_old_cset_length (s_chooser s))
      calc_max_old_cset_length s times 0
  else Some (s, times, 0).

(** The loop of [finalize_cset_for_migration]. *)
Fixpoint migration_loop (fuel : nat) (min_migration_bandwidth : Z) (s : CSet) (times : spec_float * spec_float)
    : option (CSet * (spec_float * spec_float)) :=
  hr ← peek (s_chooser s);
  if hr =? NULL then Some (s, times)
  else
    r ← s_regions s !! hr;
    predicted_time_ms ← predict_region_elapsed_time_ms r (_gcs_are_young p);
    if SFltb (o_gc_efficiency r) (d_of_Z min_migration_bandwidth) then Some (s, times)
    else
      s ← take_region s hr;
      match fuel with
      | O => None
      | S fuel => migration_loop fuel min_migration_bandwidth s (spend times predicted_time_ms)
      end.

Definition choose_for_migration (s : CSet) (min_migration_bandwidth : Z) (times : spec_float * spec_float)
    : option (CSet * (spec_float * spec_float)) :=
  migration_loop (length (c_regions (s_chooser s))) min_migration_bandwidth s times.

End choose.
End policy.
End CSetChooser.

(** * The chooser is sorted and consistent *)

Module CSetChooserFacts.
Import CSetChooser DoubleFacts.

(** A region that may be chosen. *)
Record cand_ok (R : regions) (x : Z) (r : OldRegion) : Prop := {
  cd_null : x ≠ NULL;
  cd_region : R !! x = Some r;
  cd_number : number (o_gc_efficiency r);
  cd_young : o_young r = false;
  cd_humongous : o_humongous r = false
}.
Definition is_cand (R : regions) (x : Z) : Prop := ∃ r, cand_ok R x r.

Definition bytes_of (R : regions) (x : Z) : Z := from_option reclaimable_bytes 0 (R !! x).

(** [y] does not come before [x]. *)
Definition in_order (R : regions) (x y : Z) : Prop := ∃ o, order_regions R x y = Some o ∧ o <= 0.

(** The chooser holds the candidates [cands], best first. *)
Record chooser_ok (R : regions) (c : CollectionSetChooser) (cands : list Z) : Prop := {
  co_regions : ∃ tail, c_regions c = replicate (Z.to_nat (c_curr_index c)) NULL ++ cands ++ tail;
  co_curr : 0 <= c_curr_index c;
  co_length : c_length c = c_curr_index c + Z.of_nat (length cands);
  co_small : c_length c < 2 ^ 31;
  co_cands : Forall (is_cand R) cands;
  co_sorted : StronglySorted (in_order R) cands;
  co_bytes : c_remaining_reclaimable_bytes c = sum_by (bytes_of R) cands;
  co_bytes_small : sum_by (bytes_of R) cands < 2 ^ 64
}.

Lemma bytes_of_nonneg R x : 0 <= bytes_of R x.
Proof.
  unfold bytes_of. destruct (R !! x) as [r|]; cbn; [|lia]. unfold reclaimable_bytes. apply u64_range.
Qed.

Lemma sum_bytes_nonneg R l : 0 <= sum_by (bytes_of R) l.
Proof. induction l; cbn; [lia|]. pose proof (bytes_of_nonneg R a). lia. Qed.

Lemma bytes_of_region R x r : R !! x = Some r → bytes_of R x = reclaimable_bytes r.
Proof. intros H. unfold bytes_of. by rewrite H. Qed.

(** ** The order *)

Lemma order_cands R x y rx ry :
  cand_ok R x rx → cand_ok R y ry →
  order_regions R x y = Some (if d_gt (o_gc_efficiency rx) (o_gc_efficiency ry) then -1
                              else if SFltb (o_gc_efficiency rx) (o_gc_efficiency ry) then 1 else 0).
Proof.
  intros [Hx Ex] [Hy Ey]. unfold order_regions. rewrite !(proj2 (Z.eqb_neq _ _)) by done. by rewrite Ex, Ey.
Qed.

Lemma in_order_cands R x y rx ry :
  cand_ok R x rx → cand_ok R y ry →
  in_order R x y ↔ SFltb (o_gc_efficiency rx) (o_gc_efficiency ry) = false.
Proof.
  intros Hx Hy. unfold in_order. rewrite (order_cands _ _ _ _ _ Hx Hy). unfold d_gt. split.
  - intros (o & [= <-] & Ho). destruct (SFltb (o_gc_efficiency ry) _) eqn:E.
    + by apply SFltb_asym; [apply Hy|apply Hx|].
    + destruct (SFltb (o_gc_efficiency rx) _); [lia|done].
  - intros ->. eexists; split; [done|]. by destruct (SFltb _ _).
Qed.

(** ** [verify] *)

Lemma verify_loop_ok R c cands pre tail prev sum :
  c_regions c = pre ++ cands ++ tail → Forall (is_cand R) cands → StronglySorted (in_order R) cands →
  (prev ≠ NULL → Forall (in_order R prev) cands) →
  0 <= sum → sum + sum_by (bytes_of R) cands = c_remaining_reclaimable_bytes c →
  c_remaining_reclaimable_bytes c < 2 ^ 64 →
  verify_loop R c (length cands) (Z.of_nat (length pre)) prev sum = true.
Proof.
  revert pre prev sum. induction cands as [|x cands IH]; intros pre prev sum Hl Hc Hs Hp H0 Hsum Hlt.
  { cbn in *. apply Z.eqb_eq. lia. }
  apply Forall_cons_1 in Hc as [[r Hr] Hc]. apply StronglySorted_inv in Hs as [Hs Hx].
  cbn [length verify_loop]. unfold regions_at. rewrite Nat2Z.id, Hl.
  rewrite <- app_comm_cons, list_lookup_middle by done. rewrite (proj2 (Z.eqb_neq x NULL)) by apply Hr.
  destruct Hr as [Hx0 Er Hn Hy Hh]. rewrite Er, Hy, Hh. cbn [negb andb]. cbn [sum_by] in Hsum.
  rewrite (bytes_of_region _ _ _ Er) in Hsum. pose proof (sum_bytes_nonneg R cands).
  assert (0 <= reclaimable_bytes r) by (rewrite <- (bytes_of_region _ _ _ Er); apply bytes_of_nonneg).
  rewrite (u64_small (sum + _)) by (unfold in_u64; lia).
  replace (Z.of_nat (length pre) + 1) with (Z.of_nat (length (pre ++ [x]))) by (rewrite length_app; cbn; lia).
  rewrite IH; [|by rewrite Hl, <- app_assoc|done..|lia|lia|done].
  rewrite andb_true_r. destruct (Z.eqb_spec prev NULL); [done|]. cbn [negb].
  destruct (Forall_cons_1 _ _ _ (Hp n)) as [(o & -> & Ho) _]. by rewrite (proj2 (Z.eqb_neq o 1)) by lia.
Qed.

Lemma verify_ok R c cands : chooser_ok R c cands → verify R c = true.
Proof.
  intros [[tail Hl] H0 Hlen _ Hc Hs Hb Hb64]. unfold verify.
  assert (length (replicate (Z.to_nat (c_curr_index c)) NULL) = Z.to_nat (c_curr_index c)) as Hrep
    by apply length_replicate.
  rewrite !andb_true_iff. split_and!.
  - apply Z.leb_le. rewrite Hl, !length_app, Hrep. lia.
  - apply Z.leb_le. lia.
  - rewrite Hl, take_app_length' by done. apply forallb_forall. intros e He%list_elem_of_In.
    apply elem_of_replicate in He as [-> _]. done.
  - rewrite Hlen. replace (Z.to_nat (_ - _)) with (length cands) by lia.
    rewrite <- (Z2Nat.id (c_curr_index c)) by done. rewrite <- Hrep.
    by eapply verify_loop_ok; [exact Hl|..|lia|rewrite Hb|rewrite Hb].
Qed.

(** ** Taking the next region *)

(** What the chooser depends on is the same in [R] and [R']. *)
Definition same_stats (R R' : regions) : Prop :=
  ∀ x r, R !! x = Some r → ∃ r', R' !! x = Some r' ∧ o_gc_efficiency r' = o_gc_efficiency r ∧
    o_young r' = o_young r ∧ o_humongous r' = o_humongous r ∧ reclaimable_bytes r' = reclaimable_bytes r.

Lemma same_stats_refl R : same_stats R R.
Proof. intros x r Hr. by exists r. Qed.

Section stats.
Variables R R' : regions.
Hypothesis HR : same_stats R R'.

Lemma same_is_cand x : is_cand R x → is_cand R' x.
Proof.
  intros [r [H0 Er Hn Hy Hh]]. destruct (HR x r Er) as (r' & E' & He & Hy' & Hh' & _).
  exists r'. split; [done|done|by rewrite He|by rewrite Hy'|by rewrite Hh'].
Qed.

Lemma same_bytes x : is_cand R x → bytes_of R' x = bytes_of R x.
Proof.
  intros [r Hr]. destruct (HR x r (cd_region _ _ _ Hr)) as (r' & E' & _ & _ & _ & Hb).
  by rewrite (bytes_of_region _ _ _ E'), (bytes_of_region _ _ _ (cd_region _ _ _ Hr)).
Qed.

Lemma same_order x y : is_cand R x → is_cand R y → in_order R x y → in_order R' x y.
Proof.
  intros [rx [Hx0 Ex _ _ _]] [ry [Hy0 Ey _ _ _]]. destruct (HR _ _ Ex) as (rx' & Ex' & Hex & _).
  destruct (HR _ _ Ey) as (ry' & Ey' & Hey & _). unfold in_order, order_regions.
  rewrite !(proj2 (Z.eqb_neq _ _)) by done. rewrite Ex, Ey, Ex', Ey'. cbn [mbind option_bind]. by rewrite Hex, Hey.
Qed.

Lemma same_sorted l : Forall (is_cand R) l → StronglySorted (in_order R) l → StronglySorted (in_order R') l.
Proof.
  intros Hc Hs. induction Hs as [|x l Hs IH Hx]; constructor; apply Forall_cons_1 in Hc as [Hcx Hc].
  - by apply IH.
  - rewrite Forall_forall in *. intros y Hy. apply same_order; [done|by apply Hc|by apply Hx].
Qed.

Lemma same_sum l : Forall (is_cand R) l → sum_by (bytes_of R') l = sum_by (bytes_of R) l.
Proof. intros Hc. rewrite Forall_forall in Hc. apply sum_by_ext. intros x Hx. by apply same_bytes, Hc. Qed.

Lemma same_chooser_ok c cands : chooser_ok R c cands → chooser_ok R' c cands.
Proof.
  intros [Hl H0 Hlen Hsm Hc Hs Hb Hb64]. split; try done.
  - eapply Forall_impl; [exact Hc|apply same_is_cand].
  - by apply same_sorted.
  - by rewrite same_sum.
  - by rewrite same_sum.
Qed.

End stats.

Lemma peek_next R c x cands : chooser_ok R c (x :: cands) → peek c = Some x.
Proof.
  intros [[tail Hl] H0 Hlen _ _ _ _ _]. unfold peek, regions_at. cbn [length] in Hlen.
  rewrite (proj2 (Z.ltb_lt _ _)) by lia. rewrite Hl. apply list_lookup_middle. by rewrite length_replicate.
Qed.

Lemma peek_none R c : chooser_ok R c [] → peek c = Some NULL.
Proof. intros [_ _ Hlen _ _ _ _ _]. unfold peek. cbn in Hlen. by rewrite (proj2 (Z.ltb_ge _ _)) by lia. Qed.

Lemma remove_next R c x cands :
  chooser_ok R c (x :: cands) →
  ∃ c', remove_and_move_to_next R c x = Some c' ∧ chooser_ok R c' cands ∧ c_length c' = c_length c ∧
    c_curr_index c' = c_curr_index c + 1.
Proof.
  intros [[tail Hl] H0 Hlen Hsm Hc Hs Hb Hb64]. cbn [length sum_by] in *.
  apply Forall_cons_1 in Hc as [[r Hr] Hc]. apply StronglySorted_inv in Hs as [Hs _].
  rewrite (bytes_of_region _ _ _ (cd_region _ _ _ Hr)) in *. pose proof (sum_bytes_nonneg R cands).
  assert (0 <= reclaimable_bytes r) by apply u64_range.
  unfold remove_and_move_to_next, regions_at_put, regions_at. rewrite Hl, <- app_comm_cons, list_lookup_middle by (by rewrite length_replicate).
  cbn [mbind option_bind]. rewrite (cd_region _ _ _ Hr). cbn [mbind option_bind].
  eexists. split; [done|]. cbn [set_regions c_curr_index c_length c_remaining_reclaimable_bytes]. rewrite u32_small by (unfold in_u32; cbn; lia). rewrite Hb, u64_small by (unfold in_u64; lia).
  split; [|by split]. split; cbn; try done; try lia.
  exists tail. rewrite Z2Nat.inj_add, replicate_add, <- app_assoc by lia.
  rewrite insert_app_r_alt by (rewrite length_replicate; lia). by rewrite length_replicate, Nat.sub_diag.
Qed.

(** ** The collection set that a run of [take_region] builds *)

(** The set linked from [p] is [l], then [q]. *)
Fixpoint linked (R : regions) (p : Z) (l : list Z) (q : Z) : Prop :=
  match l with
  | [] => p = q
  | x :: l => p = x ∧ ∃ r, R !! x = Some r ∧ linked R (o_next_in_collection_set r) l q
  end.

(** A region of the set has no generation any more. *)
Definition in_cset_reset (r : OldRegion) : Prop :=
  o_in_collection_set r = true ∧ hr_gen (o_hr r) = -1 ∧ hr_epoch (o_hr r) = -1.

Record taken (s s' : CSet) (chosen : list Z) : Prop := {
  tk_length : s_old_cset_region_length s' = s_old_cset_region_length s + Z.of_nat (length chosen);
  tk_stats : same_stats (s_regions s) (s_regions s');
  tk_others : ∀ x, x ∉ chosen → s_regions s' !! x = s_regions s !! x;
  tk_chosen : ∀ x, x ∈ chosen → ∃ r, s_regions s' !! x = Some r ∧ in_cset_reset r;
  tk_linked : linked (s_regions s') (s_collection_set s') (rev chosen) (s_collection_set s);
  tk_fast_test : ∀ i, s_fast_test s' !! i = Some true ↔
    s_fast_test s !! i = Some true ∨
    ∃ x r, x ∈ chosen ∧ s_regions s !! x = Some r ∧ i = Z.to_nat (o_hrs_index r) ∧ is_Some (s_fast_test s !! i);
  tk_fast_size : length (s_fast_test s') = length (s_fast_test s);
  tk_candidates : c_length (s_chooser s') = c_length (s_chooser s)
}.

(** Every region has a place in the table of the fast test. *)
Definition indexed (s : CSet) : Prop :=
  ∀ x r, s_regions s !! x = Some r → is_Some (s_fast_test s !! Z.to_nat (o_hrs_index r)).

Lemma taken_nil s : taken s s [].
Proof.
  split; cbn; [lia|apply same_stats_refl|done|by intros ? ?%elem_of_nil|done| |done|done].
  intros i. split; [by left|]. intros [H|(x & r & Hx & _)]; [done|]. by apply elem_of_nil in Hx.
Qed.

Lemma linked_app R p l x q r :
  linked R p l x → R !! x = Some r → o_next_in_collection_set r = q → linked R p (l ++ [x]) q.
Proof.
  intros Hl Hx Hq. revert p Hl. induction l as [|y l IH]; intros p; cbn.
  - intros ->. split; [done|]. exists r. by split.
  - intros (-> & ry & Hy & Hl). split; [done|]. exists ry. split; [done|]. by apply IH.
Qed.

Lemma reset_gen_spec hr : hr_gen (reset_gen hr) = -1 ∧ hr_epoch (reset_gen hr) = -1 ∧
  hr_bottom (reset_gen hr) = hr_bottom hr ∧ hr_end (reset_gen hr) = hr_end hr ∧ hr_top (reset_gen hr) = hr_top hr.
Proof.
  unfold reset_gen. destruct (Z.eqb_spec (hr_epoch hr) (-1)), (Z.eqb_spec (hr_gen hr) (-1)); by split_and!.
Qed.

(** The region [r] as the set leaves it. *)
Definition taken_region (r : OldRegion) (next : Z) : OldRegion :=
  set_hr (link_in_cset r next) (reset_gen (o_hr r)).

Lemma taken_region_bytes r next : reclaimable_bytes (taken_region r next) = reclaimable_bytes r.
Proof.
  destruct (reset_gen_spec (o_hr r)) as (_ & _ & Hb & He & Ht).
  unfold reclaimable_bytes, capacity, live_bytes. cbn. by rewrite Hb, He, Ht.
Qed.

Lemma taken_stats R x r next : R !! x = Some r → same_stats R (<[x := taken_region r next]> R).
Proof.
  intros Hx y ry Hy. destruct (decide (x = y)) as [->|Hne].
  - rewrite Hx in Hy. injection Hy as <-. eexists. split; [apply lookup_insert_eq|].
    split_and!; try done. apply taken_region_bytes.
  - exists ry. by rewrite lookup_insert_ne.
Qed.

Lemma take_region_spec lg s x cands :
  chooser_ok (s_regions s) (s_chooser s) (x :: cands) → indexed s →
  0 <= s_old_cset_region_length s → s_old_cset_region_length s + Z.of_nat (S (length cands)) < 2 ^ 32 →
  ∃ s', take_region lg s x = Some s' ∧ chooser_ok (s_regions s') (s_chooser s') cands ∧ taken s s' [x] ∧
    s_collection_set s' = x ∧ indexed s'.
Proof.
  intros Hok Hix H0 H32. destruct (remove_next _ _ _ _ Hok) as (c' & Ec & Hok' & Hlen & Hcurr).
  pose proof (Forall_inv (co_cands _ _ _ Hok)) as [r Hr]. pose proof (cd_region _ _ _ Hr) as Er.
  destruct (Hix x r Er) as [b Hb].
  unfold take_region. rewrite Ec. cbn [mbind option_bind]. unfold old_set_remove. cbn [s_regions with_chooser].
  rewrite Er. cbn [mbind option_bind]. unfold add_old_region_to_cset. cbn [s_regions]. rewrite Er. cbn [mbind option_bind].
  unfold register_region_with_in_cset_fast_test. cbn [s_fast_test with_chooser o_hrs_index link_in_cset].
  rewrite Hb. cbn [mbind option_bind]. eexists. split; [done|].
  pose proof (taken_stats (s_regions s) x r (s_collection_set s) Er) as Hst. cbn [s_regions s_chooser with_chooser].
  split; [eapply same_chooser_ok; [exact Hst|exact Hok']|]. split; [|split; [done|]].
  - destruct (reset_gen_spec (o_hr r)) as (Hg & He & _).
    split; cbn [with_chooser s_regions s_chooser s_collection_set s_old_cset_region_length s_fast_test length rev app linked].
    + rewrite u32_small; [done|unfold in_u32; lia].
    + exact Hst.
    + intros y Hy. apply lookup_insert_ne. intros ->. apply Hy. by left.
    + intros y ->%list_elem_of_singleton. eexists. split; [apply lookup_insert_eq|]. by split_and!.
    + split; [done|]. eexists. split; [apply lookup_insert_eq|]. done.
    + intros i. destruct (decide (i = Z.to_nat (o_hrs_index r))) as [->|Hne].
      * rewrite list_lookup_insert_eq by (by eapply lookup_lt_Some). split; [|done]. intros _. right.
        exists x, r. split_and!; [by left|done|done|by rewrite Hb].
      * rewrite list_lookup_insert_ne by done. split; [by left|]. intros [H|(y & ry & Hy & Ey & -> & _)]; [done|].
        apply list_elem_of_singleton in Hy as ->. rewrite Er in Ey. injection Ey as <-. done.
    + by rewrite length_insert.
    + done.
  - intros y ry. cbn [s_regions s_fast_test]. intros Hy. apply lookup_lt_is_Some. rewrite length_insert. apply lookup_lt_is_Some.
    apply lookup_insert_Some in Hy as [[<- <-]|[_ Hy]]; [by apply (Hix x r)|by eapply Hix].
Qed.

Lemma same_stats_trans R1 R2 R3 : same_stats R1 R2 → same_stats R2 R3 → same_stats R1 R3.
Proof.
  intros H12 H23 x r Hr. destruct (H12 x r Hr) as (r2 & E2 & ? & ? & ? & ?).
  destruct (H23 x r2 E2) as (r3 & E3 & ? & ? & ? & ?). exists r3. split_and!; congruence.
Qed.

Lemma taken_index s s1 x : taken s s1 [x] → ∀ y r, y ≠ x → s_regions s1 !! y = Some r ↔ s_regions s !! y = Some r.
Proof. intros T y r Hy. by rewrite (tk_others _ _ _ T) by (by intros ->%list_elem_of_singleton). Qed.

Lemma taken_cons s s1 s2 x chosen :
  NoDup (x :: chosen) → taken s s1 [x] → s_collection_set s1 = x → taken s1 s2 chosen → taken s s2 (x :: chosen).
Proof.
  intros [Hx _]%NoDup_cons T1 Hcs T2. split.
  - rewrite (tk_length _ _ _ T2), (tk_length _ _ _ T1). cbn [length]. lia.
  - eapply same_stats_trans; [apply T1|apply T2].
  - intros y [Hy1 Hy2]%not_elem_of_cons. rewrite (tk_others _ _ _ T2) by done.
    apply (tk_others _ _ _ T1). by intros ->%list_elem_of_singleton.
  - intros y [->|Hy]%elem_of_cons; [|by apply T2]. rewrite (tk_others _ _ _ T2) by done.
    apply (tk_chosen _ _ _ T1). by left.
  - pose proof (tk_linked _ _ _ T1) as Hl1. cbn in Hl1. destruct Hl1 as (_ & r & Er & Hn).
    cbn [rev]. eapply linked_app; [rewrite <- Hcs; apply T2| |exact Hn].
    by rewrite (tk_others _ _ _ T2).
  - intros i. rewrite (tk_fast_test _ _ _ T2), (tk_fast_test _ _ _ T1). split.
    + intros [[H|(y & r & Hy & Er & Hi)]|(y & r & Hy & Er & -> & Hs)]; [by left|right|right].
      * exists y, r. split; [|done]. apply list_elem_of_singleton in Hy as ->. by left.
      * exists y, r. assert (y ≠ x) by (by intros ->). apply (taken_index _ _ _ T1) in Er; [|done].
        split_and!; [by right|done|done|]. apply lookup_lt_is_Some. rewrite <- (tk_fast_size _ _ _ T1).
        by apply lookup_lt_is_Some.
    + intros [H|(y & r & [->|Hy]%elem_of_cons & Er & -> & Hs)]; [by left; left|left; right|right].
      * exists x, r. split_and!; [by left|done..].
      * exists y, r. assert (y ≠ x) by (by intros ->). split_and!; [done|by apply (taken_index _ _ _ T1)|done|].
        apply lookup_lt_is_Some. rewrite (tk_fast_size _ _ _ T1). by apply lookup_lt_is_Some.
  - by rewrite (tk_fast_size _ _ _ T2), (tk_fast_size _ _ _ T1).
  - by rewrite (tk_candidates _ _ _ T2), (tk_candidates _ _ _ T1).
Qed.

(** ** The loops *)

Section choose.
Variable p : Policy.
Variables (heap_capacity n_regions lg waste_percent count_target threshold_percent : Z).
Variable adaptive : bool.

Notation perc := (reclaimable_bytes_perc heap_capacity).
Notation choose_loop := (choose_loop p heap_capacity lg waste_percent adaptive).
Notation min_length := (calc_min_old_cset_length count_target).
Notation max_length := (calc_max_old_cset_length n_regions threshold_percent).

(** The predictor answers for the regions of [l]. *)
Definition predictable (R : regions) (l : list Z) : Prop :=
  Forall (λ x, ∃ r t, R !! x = Some r ∧ predict_region_elapsed_time_ms p r (_gcs_are_young p) = Some t) l.

(** What is left is at or below the waste threshold. *)
Definition little_left (c : CollectionSetChooser) : bool :=
  SFleb (perc (c_remaining_reclaimable_bytes c)) (d_of_Z waste_percent).

Record ready (s : CSet) (cands : list Z) : Prop := {
  rd_chooser : chooser_ok (s_regions s) (s_chooser s) cands;
  rd_indexed : indexed s;
  rd_predictable : predictable (s_regions s) cands;
  rd_nodup : NoDup cands;
  rd_length : 0 <= s_old_cset_region_length s;
  rd_small : s_old_cset_region_length s + Z.of_nat (length cands) < 2 ^ 32
}.

Lemma ready_take s x cands :
  ready s (x :: cands) →
  ∃ s1, take_region lg s x = Some s1 ∧ ready s1 cands ∧ taken s s1 [x] ∧ s_collection_set s1 = x.
Proof.
  intros [Hok Hix Hp Hnd H0 Hsm]. cbn [length] in Hsm.
  destruct (take_region_spec lg s x cands) as (s1 & E1 & Hok1 & T1 & Hcs1 & Hix1); [done|done|done|lia|].
  exists s1. split; [done|]. split; [|done]. apply NoDup_cons in Hnd as [Hx Hnd].
  pose proof (tk_length _ _ _ T1) as Hl1. cbn in Hl1. split; try done; try lia.
  apply Forall_cons_1 in Hp as [_ Hp]. unfold predictable in *. rewrite Forall_forall in *. intros y Hy.
  destruct (Hp y Hy) as (r & t & Er & Et). exists r, t. split; [|done].
  apply (taken_index _ _ _ T1); [by intros ->|done].
Qed.

Lemma choose_loop_spec min max cands fuel s times e :
  ready s cands → (length cands <= fuel)%nat →
  ∃ s' times' e' chosen rest, choose_loop fuel min max s times e = Some (s', times', e') ∧
    cands = chosen ++ rest ∧ ready s' rest ∧ taken s s' chosen ∧
    s_old_cset_region_length s' <= Z.max (s_old_cset_region_length s) max ∧
    (rest = [] ∨ max <= s_old_cset_region_length s' ∨ little_left (s_chooser s') = true ∨
     min <= s_old_cset_region_length s').
Proof.
  revert fuel s times e. induction cands as [|x cands IH]; intros fuel s times e Hrd Hf.
  { exists s, times, e, [], []. destruct fuel; cbn [CSetChooser.choose_loop];
      rewrite (peek_none _ _ (rd_chooser _ _ Hrd)); split_and!; auto using taken_nil; lia. }
  destruct fuel as [|fuel]; [cbn in Hf; lia|]. cbn [CSetChooser.choose_loop].
  pose proof (rd_chooser _ _ Hrd) as Hok. rewrite (peek_next _ _ _ _ Hok). cbn [mbind option_bind].
  pose proof (Forall_inv (rd_predictable _ _ Hrd)) as (r & t & Er & Et).
  pose proof (Forall_inv (co_cands _ _ _ Hok)) as [r' Hr']. rewrite (proj2 (Z.eqb_neq x NULL)) by apply Hr'.
  destruct (Z.geb_spec (s_old_cset_region_length s) max).
  { exists s, times, e, [], (x :: cands). split_and!; [done|done|done|apply taken_nil|lia|auto]. }
  destruct (SFleb _ _) eqn:El.
  { exists s, times, e, [], (x :: cands). split_and!; [done|done|done|apply taken_nil|lia|auto]. }
  rewrite Er. cbn [mbind option_bind]. rewrite Et. cbn [mbind option_bind].
  match goal with |- context [if (if adaptive then ?a && ?b else ?b) then _ else _] =>
    destruct (if adaptive then a && b else b) eqn:Estop end.
  { exists s, times, e, [], (x :: cands). split_and!; [done|done|done|apply taken_nil|lia|].
    right; right; right. destruct adaptive; [apply andb_true_iff in Estop as [_ Estop]|];
      destruct (Z.geb_spec (s_old_cset_region_length s) min); [lia|done|lia|done]. }
  destruct (ready_take s x cands Hrd) as (s1 & E1 & Hrd1 & T1 & Hcs1). rewrite E1. cbn [mbind option_bind].
  edestruct (IH fuel s1) as (s' & times' & e' & chosen & rest & -> & Hc & Hrd' & T' & Hmax & Hend); [done|cbn in Hf; lia|].
  exists s', times', e', (x :: chosen), rest. split_and!; [done|by rewrite Hc|done| | |done].
  - eapply taken_cons; [|done..]. pose proof (rd_nodup _ _ Hrd) as Hnd. rewrite Hc, app_comm_cons in Hnd.
    by apply NoDup_app in Hnd as [? _].
  - pose proof (tk_length _ _ _ T1) as Hl1. cbn in Hl1. lia.
Qed.

Lemma migration_loop_spec bandwidth cands fuel s times :
  ready s cands → (length cands <= fuel)%nat →
  ∃ s' times' chosen rest, migration_loop p lg fuel bandwidth s times = Some (s', times') ∧
    cands = chosen ++ rest ∧ ready s' rest ∧ taken s s' chosen ∧
    Forall (λ x, ∃ r, s_regions s !! x = Some r ∧ SFltb (o_gc_efficiency r) (d_of_Z bandwidth) = false) chosen ∧
    (∀ x, head rest = Some x → ∃ r, s_regions s !! x = Some r ∧ SFltb (o_gc_efficiency r) (d_of_Z bandwidth) = true).
Proof.
  revert fuel s times. induction cands as [|x cands IH]; intros fuel s times Hrd Hf.
  { exists s, times, [], []. destruct fuel; cbn [CSetChooser.migration_loop];
      rewrite (peek_none _ _ (rd_chooser _ _ Hrd)); split_and!; auto using taken_nil; done. }
  destruct fuel as [|fuel]; [cbn in Hf; lia|]. cbn [CSetChooser.migration_loop].
  pose proof (rd_chooser _ _ Hrd) as Hok. rewrite (peek_next _ _ _ _ Hok). cbn [mbind option_bind].
  pose proof (Forall_inv (rd_predictable _ _ Hrd)) as (r & t & Er & Et).
  pose proof (Forall_inv (co_cands _ _ _ Hok)) as [r' Hr']. rewrite (proj2 (Z.eqb_neq x NULL)) by apply Hr'.
  rewrite Er. cbn [mbind option_bind]. rewrite Et. cbn [mbind option_bind].
  destruct (SFltb (o_gc_efficiency r) _) eqn:Eb.
  { exists s, times, [], (x :: cands). split_and!; [done|done|done|apply taken_nil|constructor|].
    intros y [= <-]. by exists r. }
  destruct (ready_take s x cands Hrd) as (s1 & E1 & Hrd1 & T1 & Hcs1). rewrite E1. cbn [mbind option_bind].
  edestruct (IH fuel s1) as (s' & times' & chosen & rest & -> & Hc & Hrd' & T' & Hall & Hhd); [done|cbn in Hf; lia|].
  pose proof (rd_nodup _ _ Hrd) as [Hx Hnd]%NoDup_cons. subst cands.
  exists s', times', (x :: chosen), rest. split_and!; [done|done|done| | |].
  - eapply taken_cons; [|done..]. apply NoDup_app in Hnd as (Hnd & _ & _). constructor; [set_solver|done].
  - constructor; [by exists r|]. rewrite Forall_forall in *. intros y Hy.
    destruct (Hall y Hy) as (ry & Ey & Hb). exists ry. split; [|done]. apply (taken_index _ _ _ T1); [set_solver|done].
  - intros y Hy. destruct (Hhd y Hy) as (ry & Ey & Hb). exists ry. split; [|done].
    apply (taken_index _ _ _ T1); [|done]. destruct rest; [done|]. injection Hy as ->. set_solver.
Qed.

Lemma enough_fuel R c cands : chooser_ok R c cands → (length cands <= length (c_regions c))%nat.
Proof. intros [[tail ->] _ _ _ _ _ _ _]. rewrite !length_app. lia. Qed.

(** C20: A mixed collection takes the best candidates first: choosing old
    regions never faults and ends, the regions chosen are a prefix of the
    sorted candidates, at most the maximum number of them; if candidates
    remain, the maximum, the waste threshold or the minimum number was
    reached. The chosen regions are linked into the collection set, known to
    the fast test and belong to no generation any more; no other region
    changes and the chooser stays consistent. *)
Theorem mixed_regions_chosen s times cands :
  ready s cands → _gcs_are_young p = false → s_old_cset_region_length s = 0 →
  ∃ s' times' e chosen rest,
    choose_old_regions p heap_capacity n_regions lg waste_percent count_target threshold_percent adaptive s times
      = Some (s', times', e) ∧
    cands = chosen ++ rest ∧ chooser_ok (s_regions s') (s_chooser s') rest ∧
    verify (s_regions s') (s_chooser s') = true ∧ taken s s' chosen ∧
    Z.of_nat (length chosen) <= max_length ∧
    (rest = [] ∨ max_length <= Z.of_nat (length chosen) ∨ little_left (s_chooser s') = true ∨
     min_length (s_chooser s) <= Z.of_nat (length chosen)).
Proof.
  intros Hrd Hy H0. unfold choose_old_regions. rewrite Hy. cbn [negb].
  edestruct (choose_loop_spec (min_length (s_chooser s)) max_length cands (length (c_regions (s_chooser s))) s times 0)
    as (s' & times' & e & chosen & rest & -> & Hc & Hrd' & T & Hmax & Hend); [done|by eapply enough_fuel, rd_chooser|].
  pose proof (tk_length _ _ _ T) as Hl. rewrite H0 in *. assert (0 <= max_length) by apply u32_range.
  exists s', times', e, chosen, rest. rewrite Hl, Z.add_0_l in *.
  split_and!; [done|done|apply Hrd'|eapply verify_ok, Hrd'|done|lia|done].
Qed.

Lemma slower_than R x y rx ry b :
  cand_ok R x rx → cand_ok R y ry → in_order R x y → SFltb (o_gc_efficiency rx) b = true →
  SFltb (o_gc_efficiency ry) b = true.
Proof.
  intros Hx Hy Ho Hb. apply (in_order_cands _ _ _ _ _ Hx Hy) in Ho.
  assert (number b) by (intros ->; by rewrite SFltb_nan_r in Hb).
  destruct (SFltb (o_gc_efficiency ry) b) eqn:E; [done|]. rewrite <- Hb. symmetry.
  apply (SFltb_weak _ (o_gc_efficiency ry)); try done; [apply Hx|apply Hy].
Qed.

(** C28: A migration takes exactly the candidates that are reclaimed at the
    requested bandwidth or faster: the loop stops at the first candidate that
    is slower, and no later candidate is faster, since the chooser is sorted.
    It never faults and ends, and the chooser stays consistent. *)
Theorem migration_regions_chosen s bandwidth times cands :
  ready s cands →
  ∃ s' times' chosen rest,
    choose_for_migration p lg s bandwidth times = Some (s', times') ∧
    cands = chosen ++ rest ∧ chooser_ok (s_regions s') (s_chooser s') rest ∧
    verify (s_regions s') (s_chooser s') = true ∧ taken s s' chosen ∧
    ∀ x r, x ∈ cands → s_regions s !! x = Some r →
      x ∈ chosen ↔ SFltb (o_gc_efficiency r) (d_of_Z bandwidth) = false.
Proof.
  intros Hrd. unfold choose_for_migration. pose proof (rd_chooser _ _ Hrd) as Hok.
  edestruct (migration_loop_spec bandwidth cands (length (c_regions (s_chooser s))) s times)
    as (s' & times' & chosen & rest & -> & Hc & Hrd' & T & Hall & Hhd); [done|by eapply enough_fuel|].
  exists s', times', chosen, rest. split_and!; [done|done|apply Hrd'|eapply verify_ok, Hrd'|done|].
  intros x r Hx Er. rewrite Forall_forall in Hall. split.
  - intros Hin. destruct (Hall x Hin) as (r' & Er' & Hb). rewrite Er in Er'. by injection Er' as <-.
  - intros Hb. rewrite Hc in Hx. apply elem_of_app in Hx as [|Hx]; [done|]. exfalso.
    destruct rest as [|y rest]; [by apply elem_of_nil in Hx|]. destruct (Hhd y eq_refl) as (ry & Ey & Hby).
    pose proof (co_sorted _ _ _ Hok) as Hs. pose proof (co_cands _ _ _ Hok) as Hcs. rewrite Hc in Hs, Hcs.
    apply Forall_app in Hcs as [_ Hcs]. rewrite Forall_forall in Hcs.
    destruct (Hcs x Hx) as [rx' Hrx]. destruct (Hcs y) as [ry' Hry]; [by left|].
    pose proof (cd_region _ _ _ Hrx) as Ex. pose proof (cd_region _ _ _ Hry) as Ey'.
    rewrite Er in Ex. injection Ex as <-. rewrite Ey in Ey'. injection Ey' as <-.
    apply elem_of_cons in Hx as [->|Hx]; [rewrite Er in Ey; injection Ey as <-; by rewrite Hb in Hby|].
    assert (in_order (s_regions s) y x) as Ho.
    { clear - Hs Hx. induction chosen as [|z chosen IH]; cbn in Hs; apply StronglySorted_inv in Hs as [Hs Hz]; [|by apply IH].
      rewrite Forall_forall in Hz. by apply Hz. }
    by rewrite (slower_than _ _ _ _ _ _ Hry Hrx Ho Hby) in Hb.
Qed.

(** ** The mixed collections after a marking cycle *)

(** A mixed collection: the policy has asked for it, the chooser is as the
    last collection left it, and old regions are chosen. *)
Definition mixed_gc (s s' : CSet) : Prop :=
  next_gc_should_be_mixed heap_capacity waste_percent (s_chooser s) = true ∧
  ∃ s0 cands times times' e, s_chooser s0 = s_chooser s ∧ s_old_cset_region_length s0 = 0 ∧ ready s0 cands ∧
    choose_old_regions p heap_capacity n_regions lg waste_percent count_target threshold_percent adaptive s0 times
      = Some (s', times', e).

Definition remaining (c : CollectionSetChooser) : Z := c_length c - c_curr_index c.

Lemma mixed_wanted R c cands :
  chooser_ok R c cands → next_gc_should_be_mixed heap_capacity waste_percent c = true →
  0 < remaining c ∧ little_left c = false.
Proof.
  intros [_ H0 Hlen Hsm _ _ _ _]. unfold next_gc_should_be_mixed, is_empty, remaining_regions, remaining, little_left.
  rewrite u32_small by (unfold in_u32; lia). destruct (Z.eqb_spec (c_length c - c_curr_index c) 0); [done|].
  intros H%negb_true_iff. split; [lia|done].
Qed.

Lemma min_length_ceiling c :
  0 <= c_length c < 2 ^ 31 → c_length c <= Z.max count_target 1 * min_length c.
Proof.
  intros Hc. unfold calc_min_old_cset_length. set (k := Z.max count_target 1).
  assert (0 < k) by lia. pose proof (Z.div_mod (c_length c) k ltac:(lia)) as Hdm.
  pose proof (Z.mod_pos_bound (c_length c) k ltac:(lia)). set (q := c_length c / k) in *.
  assert (0 <= q) by (apply Z.div_pos; lia). rewrite (u64_small (q * k)) by (unfold in_u64; nia).
  destruct (Z.ltb_spec (q * k) (c_length c)); rewrite u32_small by (unfold in_u32; nia); nia.
Qed.

(** A step takes at least the minimum, or is the last one. *)
Lemma mixed_gc_progress s s' :
  _gcs_are_young p = false → min_length (s_chooser s) <= max_length → mixed_gc s s' →
  c_length (s_chooser s') = c_length (s_chooser s) ∧ 0 <= c_curr_index (s_chooser s) ∧ c_length (s_chooser s) < 2 ^ 31 ∧
  0 < remaining (s_chooser s) ∧
  (next_gc_should_be_mixed heap_capacity waste_percent (s_chooser s') = true →
   remaining (s_chooser s') <= remaining (s_chooser s) - min_length (s_chooser s)).
Proof.
  intros Hy Hmm (Hw & s0 & cands & times & times' & e & Hch & H0 & Hrd & E).
  pose proof Hrd as Hrd0. destruct Hrd as [Hok _ _ _ _ _].
  edestruct (choose_loop_spec (min_length (s_chooser s0)) max_length cands (length (c_regions (s_chooser s0))) s0 times 0)
    as (s1 & times1 & e1 & chosen & rest & E1 & Hc & Hrd1 & T & Hmax & Hend); [done|by eapply enough_fuel|].
  unfold choose_old_regions in E. rewrite Hy in E. cbn [negb] in E. rewrite E1 in E. injection E as -> _ _.
  pose proof (tk_length _ _ _ T) as Hl. pose proof (tk_candidates _ _ _ T) as Hlen. rewrite H0, Hch in *.
  destruct (mixed_wanted _ _ _ Hok Hw) as [Hpos _]. split; [done|]. split; [apply Hok|]. split; [apply Hok|].
  split; [done|]. intros Hw'. destruct (mixed_wanted _ _ _ (rd_chooser _ _ Hrd1) Hw') as [Hpos' Hll].
  pose proof (co_length _ _ _ Hok) as Hn. pose proof (co_length _ _ _ (rd_chooser _ _ Hrd1)) as Hn'.
  rewrite Hc, length_app in Hn. unfold remaining in *.
  destruct Hend as [->|[?|[?|?]]]; [cbn in Hn'; lia|lia|congruence|lia].
Qed.

(** C33: The mixed collections after a marking cycle come to an end: when the
    maximum number of regions per collection is not below the minimum, there
    are at most [G1MixedGCCountTarget] of them (one, if it is 0) before the
    policy stops asking for more. *)
Theorem mixed_phase_ends s n s' :
  _gcs_are_young p = false → min_length (s_chooser s) <= max_length →
  nsteps mixed_gc n s s' → Z.of_nat n <= Z.max count_target 1.
Proof.
  intros Hy Hmm Hn. destruct n as [|n]; [lia|].
  assert (Z.of_nat n * min_length (s_chooser s) < remaining (s_chooser s) ∧ 0 <= c_curr_index (s_chooser s) ∧
          c_length (s_chooser s) < 2 ^ 31) as (Hlt & H0 & Hsm).
  { revert s Hmm Hn. induction n as [|n IH]; intros s Hmm Hn; inversion Hn as [|? ? s1 ? Hst Hrest]; subst;
      destruct (mixed_gc_progress _ _ Hy Hmm Hst) as (Hlen & H0 & Hsm & Hpos & Hle); [split_and!; [lia|done..]|].
    assert (min_length (s_chooser s1) = min_length (s_chooser s)) as Em
      by (unfold calc_min_old_cset_length; by rewrite Hlen).
    destruct (IH s1) as (Hlt & _); [by rewrite Em|done|]. rewrite Em in Hlt.
    inversion Hrest as [|? ? s2 ? [Hw _] _]; subst. specialize (Hle Hw). split_and!; [lia|done..]. }
  assert (0 <= min_length (s_chooser s)) by apply u32_range. unfold remaining in Hlt.
  pose proof (min_length_ceiling (s_chooser s)) as Hceil. nia.
Qed.

End choose.
End CSetChooserFacts.

(** * Filling the chooser *)

(** What the C library promises of [qsort]: for a comparison that is defined,
    antisymmetric and transitive on the elements, it returns them in order. *)
Module SortSpec.

Definition le_by (cmp : Z → Z → option Z) (x y : Z) : Prop := ∃ o, cmp x y = Some o ∧ o <= 0.

Record consistent (cmp : Z → Z → option Z) (l : list Z) : Prop := {
  cs_defined : ∀ x y, x ∈ l → y ∈ l → ∃ o, cmp x y = Some o;
  cs_antisym : ∀ x y o o', x ∈ l → y ∈ l → cmp x y = Some o → cmp y x = Some o' → (o < 0 ↔ 0 < o');
  cs_trans : ∀ x y z, x ∈ l → y ∈ l → z ∈ l → le_by cmp x y → le_by cmp y z → le_by cmp x z
}.

Class QSortSpec `{CSetChooser.QSort} : Prop :=
  qsort_spec : ∀ cmp l, consistent cmp l →
    ∃ l', CSetChooser.qsort cmp l = Some l' ∧ l' ≡ₚ l ∧ StronglySorted (le_by cmp) l'.

End SortSpec.

(** An insertion sort keeps the promise. *)
Module InsertionSort.
Import SortSpec.

Fixpoint insert_by (cmp : Z → Z → option Z) (x : Z) (l : list Z) : option (list Z) :=
  match l with
  | [] => Some [x]
  | y :: l =>
      o ← cmp x y;
      if o <=? 0 then Some (x :: y :: l) else l' ← insert_by cmp x l; Some (y :: l')
  end.

Fixpoint insertion_sort (cmp : Z → Z → option Z) (l : list Z) : option (list Z) :=
  match l with
  | [] => Some []
  | x :: l => l' ← insertion_sort cmp l; insert_by cmp x l'
  end.

Lemma consistent_sub cmp l k : (∀ x, x ∈ k → x ∈ l) → consistent cmp l → consistent cmp k.
Proof. intros Hs [H1 H2 H3]. split; eauto. Qed.

Lemma insert_by_spec cmp x l :
  consistent cmp (x :: l) → StronglySorted (le_by cmp) l →
  ∃ l', insert_by cmp x l = Some l' ∧ l' ≡ₚ x :: l ∧ StronglySorted (le_by cmp) l'.
Proof.
  induction l as [|y l IH]; intros Hc Hs; cbn.
  { exists [x]. split_and!; [done|done|]. by repeat constructor. }
  destruct (cs_defined _ _ Hc x y) as [o Ho]; [by left|by right; left|]. rewrite Ho. cbn.
  apply StronglySorted_inv in Hs as [Hs Hy]. destruct (Z.leb_spec o 0).
  - exists (x :: y :: l). split_and!; [done|done|]. assert (le_by cmp x y) by (by exists o).
    constructor; [by constructor|]. constructor; [done|]. rewrite Forall_forall in *. intros z Hz.
    apply (cs_trans _ _ Hc x y z); [by left|by right; left|by right; right|done|by apply Hy].
  - destruct IH as (l' & -> & Hp & Hs'); [|done|].
    { eapply consistent_sub; [|exact Hc]. set_solver. }
    cbn. exists (y :: l'). split_and!; [done|by rewrite Hp; constructor|]. constructor; [done|].
    rewrite Hp. constructor; [|done]. destruct (cs_defined _ _ Hc y x) as [o' Ho']; [by right; left|by left|].
    exists o'. split; [done|]. assert (o' < 0 ↔ 0 < o) by (apply (cs_antisym _ _ Hc y x); [by right; left|by left|done|done]). lia.
Qed.

#[global] Instance insertion_qsort : CSetChooser.QSort := insertion_sort.

#[global] Instance insertion_qsort_spec : QSortSpec.
Proof.
  intros cmp l. unfold CSetChooser.qsort, insertion_qsort. induction l as [|x l IH]; intros Hc; cbn.
  { exists []. split_and!; [done|done|constructor]. }
  destruct IH as (l1 & -> & Hp & Hs); [eapply consistent_sub; [|exact Hc]; set_solver|]. cbn.
  destruct (insert_by_spec cmp x l1) as (l2 & -> & Hp2 & Hs2); [|done|].
  { eapply consistent_sub; [|exact Hc]. intros y. by rewrite Hp. }
  exists l2. split_and!; [done|by rewrite Hp2, Hp|done].
Qed.

End InsertionSort.

Module FillFacts.
Import CSetChooser DoubleFacts CSetChooserFacts SortSpec.

(** ** Sorting *)

Definition null_or_cand (R : regions) (x : Z) : Prop := x = NULL ∨ is_cand R x.

Lemma order_null_l R y : y ≠ NULL → order_regions R NULL y = Some 1.
Proof. intros. unfold order_regions. cbn. by rewrite (proj2 (Z.eqb_neq y NULL)). Qed.
Lemma order_null_r R x : x ≠ NULL → order_regions R x NULL = Some (-1).
Proof. intros. unfold order_regions. by rewrite (proj2 (Z.eqb_neq x NULL)). Qed.

Lemma in_order_null R x : in_order R x NULL.
Proof.
  destruct (decide (x = NULL)) as [->|Hx]; [by exists 0|]. exists (-1). by rewrite order_null_r.
Qed.
Lemma in_order_null_l R y : in_order R NULL y → y = NULL.
Proof.
  intros (o & Ho & Hle). destruct (decide (y = NULL)) as [|Hy]; [done|].
  rewrite order_null_l in Ho by done. injection Ho as <-. lia.
Qed.

Lemma order_consistent R l : Forall (null_or_cand R) l → consistent (order_regions R) l.
Proof.
  rewrite Forall_forall. intros Hl. split.
  - intros x y Hx%Hl Hy%Hl. destruct (decide (x = NULL)) as [->|Hx0]; [eexists; by unfold order_regions|].
    destruct Hx as [|[rx Hx]]; [done|]. destruct Hy as [->|[ry Hy]]; [eexists; by apply order_null_r|].
    eexists. by apply order_cands.
  - intros x y o o' Hx%Hl Hy%Hl. destruct (decide (x = NULL)) as [->|Hx0], (decide (y = NULL)) as [->|Hy0].
    + intros [= <-] [= <-]. lia.
    + rewrite order_null_l, order_null_r by done. intros [= <-] [= <-]. lia.
    + rewrite order_null_l, order_null_r by done. intros [= <-] [= <-]. lia.
    + destruct Hx as [|[rx Hx]], Hy as [|[ry Hy]]; try done. rewrite (order_cands _ _ _ _ _ Hx Hy), (order_cands _ _ _ _ _ Hy Hx).
      unfold d_gt. intros [= <-] [= <-].
      destruct (SFltb (o_gc_efficiency rx) (o_gc_efficiency ry)) eqn:E1, (SFltb (o_gc_efficiency ry) (o_gc_efficiency rx)) eqn:E2; try lia.
      rewrite SFltb_asym in E2; [done|apply Hx|apply Hy|done].
  - intros x y z Hx%Hl Hy%Hl Hz%Hl. fold (in_order R x y) (in_order R y z) (in_order R x z). intros Hxy Hyz.
    destruct Hz as [->|[rz Hz]]; [apply in_order_null|].
    destruct Hy as [->|[ry Hy]]; [apply in_order_null_l in Hyz; by destruct (cd_null _ _ _ Hz)|].
    destruct Hx as [->|[rx Hx]]; [apply in_order_null_l in Hxy; by destruct (cd_null _ _ _ Hy)|].
    rewrite (in_order_cands _ _ _ _ _ Hx Hy) in Hxy. rewrite (in_order_cands _ _ _ _ _ Hy Hz) in Hyz.
    rewrite (in_order_cands _ _ _ _ _ Hx Hz). eapply (SFltb_weak _ (o_gc_efficiency ry)); try done; [apply Hx|apply Hy|apply Hz].
Qed.

(** The entries that are not NULL. *)
Definition entries (l : list Z) : list Z := filter (λ x, x ≠ NULL) l.

Lemma entries_null n : entries (replicate n NULL) = [].
Proof. induction n as [|n IH]; [done|]. cbn [replicate]. unfold entries in *. by rewrite filter_cons_False by (intros H; by apply H). Qed.

(** Sorting moves the entries to the front. *)
Lemma sorted_shape R l :
  StronglySorted (in_order R) l → ∃ n, l = entries l ++ replicate n NULL.
Proof.
  unfold entries. induction l as [|x l IH]; intros Hs; [by exists 0%nat|].
  apply StronglySorted_inv in Hs as [Hs Hx]. destruct (decide (x = NULL)) as [->|Hne].
  - exists (S (length l)). rewrite filter_cons_False by (intros H; by apply H).
    assert (l = replicate (length l) NULL) as El.
    { symmetry. apply replicate_as_elem_of. split; [done|]. rewrite Forall_forall in Hx. intros y Hy. by eapply in_order_null_l, Hx. }
    rewrite El at 2. fold (entries (replicate (length l) NULL)). rewrite entries_null. cbn. by rewrite <- El.
  - destruct (IH Hs) as [n El]. exists n. rewrite filter_cons_True by done. cbn. by rewrite <- El.
Qed.

Lemma sort_regions_spec `{QSortSpec} R c l added :
  (if c_first_par_unreserved_idx c >? 0 then regions_trunc_to c (c_first_par_unreserved_idx c) else Some c)
    = Some (set_regions c l) →
  entries l ≡ₚ added → Forall (is_cand R) added → c_curr_index c = 0 →
  c_length c = Z.of_nat (length added) → c_length c < 2 ^ 31 →
  c_remaining_reclaimable_bytes c = sum_by (bytes_of R) added → sum_by (bytes_of R) added < 2 ^ 64 →
  ∃ c' cands, sort_regions R c = Some c' ∧ chooser_ok R c' cands ∧ cands ≡ₚ added ∧ c_curr_index c' = 0 ∧
    c_length c' = c_length c.
Proof.
  intros Ht Hp Hc Hcurr Hlen Hsm Hb Hb64. unfold sort_regions. rewrite Ht. cbn [mbind option_bind c_regions set_regions].
  assert (Forall (null_or_cand R) l) as Hl.
  { rewrite Forall_forall in *. intros x Hx. destruct (decide (x = NULL)) as [|Hne]; [by left|]. right. apply Hc.
    rewrite <- Hp. unfold entries. by apply list_elem_of_filter. }
  destruct (qsort_spec (order_regions R) l (order_consistent R l Hl)) as (l' & -> & Hp' & Hs). cbn [mbind option_bind].
  fold (in_order R) in Hs. change (StronglySorted (in_order R) l') in Hs.
  destruct (sorted_shape R l' Hs) as [n El]. set (cands := entries l') in *.
  assert (cands ≡ₚ added) as Hcp by (unfold cands, entries; by rewrite Hp', <- Hp).
  eexists _, cands. split; [done|]. split; [|by split_and!].
  split; cbn; rewrite ?Hcurr; [|lia|rewrite Hcp; lia|lia|by rewrite Hcp| |by rewrite Hcp|by rewrite Hcp].
  - exists (replicate n NULL). exact El.
  - rewrite El in Hs. clear -Hs. induction cands as [|x cands IH]; [constructor|]. cbn in Hs.
    apply StronglySorted_inv in Hs as [Hs Hx]. constructor; [by apply IH|]. by apply Forall_app in Hx as [? _].
Qed.

(** ** Efficiencies *)

Section fill.
Variable p : Policy.
Variable old_gc_region : Z.      (* _retained_old_gc_alloc_region *)
Variable R0 : regions.           (* the regions before the chooser is filled *)
Variable threshold : Z.          (* _region_live_threshold_bytes *)

(** The regions that are to be added. *)
Definition candidate (x : Z) : bool :=
  match R0 !! x with
  | Some r => is_candidate old_gc_region (mkChooser [] 0 0 0 threshold 0) x r
  | None => false
  end.

(** The predictor answers for a candidate, and with a number. *)
Definition rated (r : OldRegion) (e : spec_float) : Prop :=
  ∃ t, predict_region_elapsed_time_ms p r false = Some t ∧ e = d_div (d_of_Z (reclaimable_bytes r)) t.

Record heap_ok (hrs : list Z) : Prop := {
  hp_regions : ∀ x, x ∈ hrs → x ≠ NULL ∧ is_Some (R0 !! x);
  hp_nodup : NoDup hrs;
  hp_rated : ∀ x r, R0 !! x = Some r → candidate x = true → o_young r = false ∧ ∃ e, rated r e ∧ number e;
  hp_bytes : sum_by (bytes_of R0) (filter (λ x, candidate x = true) hrs) < 2 ^ 64;
  hp_small : Z.of_nat (length hrs) < 2 ^ 31
}.

(** [R] is [R0] with the efficiencies of the regions in [added]. *)
Definition eff_set (R : regions) (added : list Z) : Prop :=
  ∀ x r, R0 !! x = Some r →
    (x ∈ added → ∃ e, rated r e ∧ R !! x = Some (set_efficiency r e)) ∧ (x ∉ added → R !! x = Some r).

Lemma eff_set_nil : eff_set R0 [].
Proof. intros x r Hr. split; [by intros ?%elem_of_nil|done]. Qed.

Lemma calc_gc_efficiency_spec R added x r e :
  eff_set R added → R0 !! x = Some r → x ∉ added → rated r e →
  ∃ R', calc_gc_efficiency p R x = Some R' ∧ eff_set R' (x :: added) ∧ R' !! x = Some (set_efficiency r e).
Proof.
  intros HR Hr Hx He. destruct He as (t & Ht & ->). unfold calc_gc_efficiency.
  rewrite (proj2 (HR x r Hr) Hx). cbn [mbind option_bind]. rewrite Ht. cbn [mbind option_bind].
  eexists. split; [done|]. split; [|apply lookup_insert_eq]. intros y ry Hy. split.
  - intros Hin. destruct (decide (x = y)) as [->|Hne].
    + rewrite Hr in Hy. injection Hy as <-. eexists. split; [by exists t|apply lookup_insert_eq].
    + rewrite lookup_insert_ne by done. apply (proj1 (HR y ry Hy)). by apply elem_of_cons in Hin as [->|].
  - intros [Hne Hin]%not_elem_of_cons. rewrite lookup_insert_ne by done. by apply (proj2 (HR y ry Hy)).
Qed.

Lemma set_efficiency_bytes r e : reclaimable_bytes (set_efficiency r e) = reclaimable_bytes r.
Proof. done. Qed.

Lemma eff_set_bytes R added x : eff_set R added → is_Some (R0 !! x) → bytes_of R x = bytes_of R0 x.
Proof.
  intros HR [r Hr]. rewrite (bytes_of_region _ _ _ Hr). destruct (decide (x ∈ added)) as [Hx|Hx].
  - destruct (proj1 (HR x r Hr) Hx) as (e & _ & E). by rewrite (bytes_of_region _ _ _ E).
  - by rewrite (bytes_of_region _ _ _ (proj2 (HR x r Hr) Hx)).
Qed.

(** The candidates of [l], all rated, may be chosen. *)
Definition picked (hrs added : list Z) : Prop := added ≡ₚ filter (λ x, candidate x = true) hrs.

Lemma picked_elem hrs added x : heap_ok hrs → picked hrs added → x ∈ added →
  x ≠ NULL ∧ candidate x = true ∧ ∃ r, R0 !! x = Some r.
Proof.
  unfold picked. intros Hh Hp Hx. rewrite Hp in Hx. apply list_elem_of_filter in Hx as [Hc Hx].
  by destruct (hp_regions _ Hh x Hx) as [? [r ?]]; eauto.
Qed.

Lemma picked_cands R hrs added : heap_ok hrs → picked hrs added → eff_set R added → Forall (is_cand R) added.
Proof.
  intros Hh Hp HR. apply Forall_forall. intros x Hx.
  destruct (picked_elem _ _ _ Hh Hp Hx) as (H0 & Hc & r & Hr).
  destruct (proj1 (HR x r Hr) Hx) as (e & He & Er). destruct (hp_rated _ Hh x r Hr Hc) as (Hy & e' & He' & Hn).
  assert (e = e') as -> by (destruct He as (t & Ht & ->), He' as (t' & Ht' & ->); congruence).
  exists (set_efficiency r e'). split; try done. unfold candidate in Hc. rewrite Hr in Hc.
  unfold is_candidate, should_add in Hc. cbn. destruct (o_humongous r); [|done]. by rewrite andb_false_r in Hc.
Qed.

Lemma picked_bytes R hrs added : heap_ok hrs → picked hrs added → eff_set R added →
  sum_by (bytes_of R) added = sum_by (bytes_of R0) added ∧ sum_by (bytes_of R0) added < 2 ^ 64.
Proof.
  intros Hh Hp HR. split; [|unfold picked in Hp; rewrite Hp; apply Hh]. apply sum_by_ext. intros x Hx.
  destruct (picked_elem _ _ _ Hh Hp Hx) as (_ & _ & r & Hr). eapply eff_set_bytes; [done|by exists r].
Qed.

(** The result: the chooser is consistent and holds exactly the candidates. *)
Definition filled (hrs : list Z) (R : regions) (c : CollectionSetChooser) : Prop :=
  ∃ cands, chooser_ok R c cands ∧ c_curr_index c = 0 ∧ cands ≡ₚ filter (λ x, candidate x = true) hrs ∧
    eff_set R cands ∧ verify R c = true.

Lemma eff_set_perm R l k : l ≡ₚ k → eff_set R l → eff_set R k.
Proof. intros Hp HR x r Hr. rewrite <- Hp. by apply HR. Qed.

Lemma candidate_in c x r :
  c_region_live_threshold_bytes c = threshold → R0 !! x = Some r → is_candidate old_gc_region c x r = candidate x.
Proof. intros Ht Hr. unfold candidate. rewrite Hr. unfold is_candidate, should_add. cbn. by rewrite Ht. Qed.

(** ** The serial loop *)

Record serial_inv (added : list Z) (R : regions) (c : CollectionSetChooser) : Prop := {
  si_regions : c_regions c = added;
  si_first : c_first_par_unreserved_idx c = 0;
  si_curr : c_curr_index c = 0;
  si_length : c_length c = Z.of_nat (length added);
  si_bytes : c_remaining_reclaimable_bytes c = sum_by (bytes_of R0) added;
  si_threshold : c_region_live_threshold_bytes c = threshold;
  si_eff : eff_set R added
}.

Lemma known_garbage_all_spec hrs pre post added R c :
  heap_ok hrs → hrs = pre ++ post → added = filter (λ x, candidate x = true) pre → serial_inv added R c →
  ∃ R' c', known_garbage_all p old_gc_region R c post = Some (R', c') ∧
    serial_inv (filter (λ x, candidate x = true) hrs) R' c'.
Proof.
  intros Hh. revert pre added R c. induction post as [|x post IH]; intros pre added R c Hhrs Had Hi.
  { exists R, c. split; [done|]. by rewrite Hhrs, app_nil_r, <- Had. }
  assert (x ∈ hrs) as Hxin by (rewrite Hhrs; set_solver). destruct (hp_regions _ Hh x Hxin) as [Hx0 [r Hr]].
  assert (x ∉ added) as Hx.
  { pose proof (hp_nodup _ Hh) as Hnd. rewrite Hhrs in Hnd. apply NoDup_app in Hnd as (_ & Hd & _).
    intros Hin. rewrite Had in Hin. apply list_elem_of_filter in Hin as [_ Hin]. apply (Hd x Hin). by left. }
  pose proof (proj2 (si_eff _ _ _ Hi x r Hr) Hx) as Er. cbn [known_garbage_all]. unfold known_garbage.
  rewrite Er. cbn [mbind option_bind]. rewrite (candidate_in c x r (si_threshold _ _ _ Hi) Hr).
  destruct (candidate x) eqn:Ec.
  - destruct (hp_rated _ Hh x r Hr Ec) as (_ & e & He & _). unfold add_region. rewrite Er. cbn [mbind option_bind].
    destruct (calc_gc_efficiency_spec R added x r e (si_eff _ _ _ Hi) Hr Hx He) as (R' & -> & HR' & _). cbn [mbind option_bind].
    assert (filter (λ x, candidate x = true) (pre ++ [x]) = added ++ [x]) as Ef
      by (rewrite filter_app, filter_cons_True by done; by rewrite Had).
    apply (IH (pre ++ [x]) (added ++ [x])); [by rewrite Hhrs, <- app_assoc|done|].
    pose proof (hp_bytes _ Hh) as Hb. rewrite Hhrs, cons_middle, app_assoc, filter_app, Ef, !sum_by_app in Hb.
    pose proof (sum_bytes_nonneg R0 added). pose proof (bytes_of_nonneg R0 x). cbn [sum_by] in Hb.
    pose proof (sum_bytes_nonneg R0 (filter (λ x, candidate x = true) post)).
    assert (length added <= length pre)%nat by (rewrite Had; apply length_filter).
    pose proof (hp_small _ Hh) as Hsm. rewrite Hhrs, length_app in Hsm. cbn [length] in Hsm.
    destruct Hi as [Hl Hf Hcu Hlen Hby Hth _]. split; cbn; try done.
    + by rewrite Hl.
    + rewrite Hlen, length_app, u32_small by (unfold in_u32; lia). cbn. lia.
    + rewrite Hby, sum_by_app. cbn [sum_by]. rewrite (bytes_of_region _ _ _ Hr) in *.
      rewrite u64_small by (unfold in_u64; lia). lia.
    + eapply eff_set_perm; [|exact HR']. by rewrite Permutation_app_comm.
  - cbn [mbind option_bind]. apply (IH (pre ++ [x]) added); [by rewrite Hhrs, <- app_assoc| |done].
    rewrite filter_app, filter_cons_False by (by rewrite Ec). cbn. by rewrite app_nil_r.
Qed.

(** ** The parallel workers *)

(** A worker and whether it is done. *)
Notation worker := (CSetChooserParUpdater * bool)%type.

Definition chunk_left (w : worker) : Z := u_cur_chunk_end w.1 - u_cur_chunk_idx w.1.
Definition owns (w : worker) (i : Z) : Prop := u_cur_chunk_idx w.1 <= i < u_cur_chunk_end w.1.
(** What a worker has added but not yet reported. *)
Definition unreported (w : worker) : Z := if w.2 then 0 else u_regions_added w.1.
Definition unreported_bytes (w : worker) : Z := if w.2 then 0 else u_reclaimable_bytes_added w.1.

Lemma chunk_left_pair u d : chunk_left (u, d) = u_cur_chunk_end u - u_cur_chunk_idx u.
Proof. done. Qed.
Lemma unreported_pair u d : unreported (u, d) = if d then 0 else u_regions_added u.
Proof. done. Qed.
Lemma unreported_bytes_pair u d : unreported_bytes (u, d) = if d then 0 else u_reclaimable_bytes_added u.
Proof. done. Qed.

Section parallel.
Variables chunk N : Z.           (* the chunk size and the size of the array *)

Record worker_ok (c : CollectionSetChooser) (w : worker) : Prop := {
  wk_parallel : u_parallel w.1 = true;
  wk_chunk : u_chunk_size w.1 = chunk;
  wk_idx : 0 <= u_cur_chunk_idx w.1;
  wk_left : 0 <= chunk_left w <= chunk;
  wk_end : u_cur_chunk_end w.1 <= c_first_par_unreserved_idx c;
  wk_free : ∀ i, owns w i → c_regions c !! Z.to_nat i = Some NULL;
  wk_added : 0 <= u_regions_added w.1;
  wk_bytes : 0 <= u_reclaimable_bytes_added w.1;
  wk_none : u_regions_added w.1 = 0 → u_reclaimable_bytes_added w.1 = 0
}.

Record par_inv (added : list Z) (R : regions) (c : CollectionSetChooser) (ws : list worker) : Prop := {
  pi_entries : entries (c_regions c) ≡ₚ added;
  pi_size : Z.of_nat (length (c_regions c)) = N;
  pi_beyond : ∀ i x, c_regions c !! i = Some x → c_first_par_unreserved_idx c <= Z.of_nat i → x = NULL;
  pi_first : c_first_par_unreserved_idx c = Z.of_nat (length added) + sum_by chunk_left ws;
  pi_first_le : c_first_par_unreserved_idx c <= N;
  pi_workers : ∀ k w, ws !! k = Some w → worker_ok c w;
  pi_disjoint : ∀ k1 k2 w1 w2 i, k1 ≠ k2 → ws !! k1 = Some w1 → ws !! k2 = Some w2 → owns w1 i → ¬ owns w2 i;
  pi_length : c_length c + sum_by unreported ws = Z.of_nat (length added);
  pi_bytes : c_remaining_reclaimable_bytes c + sum_by unreported_bytes ws = sum_by (bytes_of R0) added;
  pi_totals : 0 <= c_length c ∧ 0 <= c_remaining_reclaimable_bytes c;
  pi_curr : c_curr_index c = 0;
  pi_threshold : c_region_live_threshold_bytes c = threshold;
  pi_eff : eff_set R added
}.

Lemma par_sums added R c ws : par_inv added R c ws →
  (∀ w, w ∈ ws → 0 <= chunk_left w <= chunk) ∧ (∀ w, w ∈ ws → 0 <= unreported w) ∧
  (∀ w, w ∈ ws → 0 <= unreported_bytes w).
Proof.
  intros Hi. assert (∀ w, w ∈ ws → worker_ok c w) as Hw.
  { intros w [k Hk]%list_elem_of_lookup. by eapply pi_workers. }
  split_and!; intros w [_ _ _ Hl _ _ Ha Hb _]%Hw; [done|unfold unreported|unfold unreported_bytes]; destruct w.2; lia.
Qed.

Definition with_chunk (u : CSetChooserParUpdater) (idx end_ : Z) : CSetChooserParUpdater :=
  mkUpdater (u_parallel u) (u_chunk_size u) idx end_ (u_regions_added u) (u_reclaimable_bytes_added u).

Lemma first_bound added R c ws k u d :
  par_inv added R c ws → ws !! k = Some (u, d) → u_cur_chunk_idx u = u_cur_chunk_end u → 0 < chunk →
  c_first_par_unreserved_idx c + chunk <= Z.of_nat (length added) + chunk * Z.of_nat (length ws).
Proof.
  intros Hi Hk He Hch. rewrite (pi_first _ _ _ _ Hi). destruct (par_sums _ _ _ _ Hi) as [Hl _].
  pose proof (sum_by_insert chunk_left ws k (u, d) (with_chunk u 0 chunk, d) Hk) as Hs.
  pose proof (sum_by_bounds chunk_left (<[k := (with_chunk u 0 chunk, d)]> ws) chunk) as Hb.
  rewrite length_insert in Hb. rewrite !chunk_left_pair in Hs. cbn in Hs.
  enough (sum_by chunk_left (<[k := (with_chunk u 0 chunk, d)]> ws) <= chunk * Z.of_nat (length ws)) by lia.
  apply Hb. intros w Hw. apply list_elem_of_lookup in Hw as [j Hj]. apply list_lookup_insert_Some in Hj as [(_ & <- & _)|[_ Hj]].
  - unfold chunk_left. cbn. lia.
  - apply Hl. by eapply list_elem_of_lookup_2.
Qed.

(** A worker whose chunk is used up reserves the next one. *)
Lemma claim_spec added R c ws k u d :
  par_inv added R c ws → ws !! k = Some (u, d) → u_cur_chunk_idx u = u_cur_chunk_end u → 0 < chunk →
  c_first_par_unreserved_idx c + chunk <= N → N < 2 ^ 31 → 0 <= c_first_par_unreserved_idx c →
  let first := c_first_par_unreserved_idx c in
  claim_array_chunk c chunk = (first, set_unreserved c (first + chunk)) ∧
  par_inv added R (set_unreserved c (first + chunk)) (<[k := (with_chunk u first (first + chunk), d)]> ws).
Proof.
  intros Hi Hk He Hch HN HN31 H0. cbn zeta. set (first := c_first_par_unreserved_idx c) in *.
  assert (∀ i, first <= i < first + chunk → c_regions c !! Z.to_nat i = Some NULL) as Hfree.
  { intros i Hr. destruct (lookup_lt_is_Some_2 (c_regions c) (Z.to_nat i)) as [x Hx];
      [pose proof (pi_size _ _ _ _ Hi); lia|]. rewrite Hx. f_equal. eapply (pi_beyond _ _ _ _ Hi); [done|]. fold first. lia. }
  split.
  { unfold claim_array_chunk. fold first. rewrite (u32_small (first + chunk)) by (unfold in_u32; lia).
    rewrite u32_small by (unfold in_u32; lia). f_equal. lia. }
  pose proof (pi_workers _ _ _ _ Hi k _ Hk) as [Hp Hcs _ _ _ _ Ha Hb Hnb]. cbn in *.
  split; try apply Hi; cbn.
  - intros i x Hx Hge. eapply (pi_beyond _ _ _ _ Hi); [done|]. fold first. lia.
  - rewrite (sum_by_insert _ _ _ _ _ Hk). rewrite !chunk_left_pair. cbn.
    pose proof (pi_first _ _ _ _ Hi) as Hf. fold first in Hf. lia.
  - done.
  - intros j w Hj. apply list_lookup_insert_Some in Hj as [(<- & <- & _)|[Hne Hj]].
    + split; cbn; unfold chunk_left; cbn; try done; try lia.
    + destruct (pi_workers _ _ _ _ Hi j w Hj). split; try done. cbn. fold first in wk_end0. lia.
  - intros k1 k2 w1 w2 i Hne H1 H2. unfold owns.
    apply list_lookup_insert_Some in H1 as [(<- & <- & _)|[Hn1 H1]];
      apply list_lookup_insert_Some in H2 as [(<- & <- & _)|[Hn2 H2]]; cbn.
    + done.
    + pose proof (wk_end _ _ (pi_workers _ _ _ _ Hi k2 w2 H2)) as Hend. fold first in Hend. lia.
    + pose proof (wk_end _ _ (pi_workers _ _ _ _ Hi k1 w1 H1)) as Hend. fold first in Hend. lia.
    + by apply (pi_disjoint _ _ _ _ Hi k1 k2 w1 w2 i).
  - rewrite (sum_by_insert _ _ _ _ _ Hk). rewrite !unreported_pair. cbn. pose proof (pi_length _ _ _ _ Hi). lia.
  - rewrite (sum_by_insert _ _ _ _ _ Hk). rewrite !unreported_bytes_pair. cbn. pose proof (pi_bytes _ _ _ _ Hi). lia.
Qed.

Lemma entries_insert l i x : l !! i = Some NULL → x ≠ NULL → entries (<[i := x]> l) ≡ₚ x :: entries l.
Proof.
  unfold entries. intros Hi Hx. rewrite insert_take_drop by (by eapply lookup_lt_Some).
  rewrite <- (take_drop_middle l i NULL Hi) at 3. rewrite !filter_app.
  rewrite (filter_cons_True _ x) by done. rewrite (filter_cons_False _ NULL) by (intros H; by apply H).
  by rewrite Permutation_middle.
Qed.

(** A worker puts a region into its chunk. *)
Lemma put_spec added R R' c ws k u x :
  par_inv added R c ws → ws !! k = Some (u, false) → u_cur_chunk_idx u < u_cur_chunk_end u → x ≠ NULL →
  eff_set R' (x :: added) →
  let u' := mkUpdater (u_parallel u) (u_chunk_size u) (u_cur_chunk_idx u + 1) (u_cur_chunk_end u)
              (u_regions_added u + 1) (u_reclaimable_bytes_added u + bytes_of R0 x) in
  regions_at_put c (u_cur_chunk_idx u) x =
    Some (set_regions c (<[Z.to_nat (u_cur_chunk_idx u) := x]> (c_regions c))) ∧
  par_inv (x :: added) R' (set_regions c (<[Z.to_nat (u_cur_chunk_idx u) := x]> (c_regions c))) (<[k := (u', false)]> ws).
Proof.
  intros Hi Hk Hlt Hx HR'. cbn zeta. pose proof (pi_workers _ _ _ _ Hi k _ Hk) as [Hp Hcs Hidx Hl Hend Hfree Ha Hb Hnb].
  unfold chunk_left, owns in *. cbn in *. set (i0 := u_cur_chunk_idx u) in *.
  assert (c_regions c !! Z.to_nat i0 = Some NULL) as Hslot by (apply Hfree; lia).
  pose proof (bytes_of_nonneg R0 x). split.
  { unfold regions_at_put, regions_at. by rewrite Hslot. }
  split; try apply Hi; cbn.
  - rewrite entries_insert by done. by rewrite (pi_entries _ _ _ _ Hi).
  - rewrite length_insert. apply Hi.
  - intros i y Hy Hge. apply list_lookup_insert_Some in Hy as [(<- & _ & _)|[_ Hy]]; [lia|by eapply (pi_beyond _ _ _ _ Hi)].
  - rewrite (sum_by_insert _ _ _ _ _ Hk). rewrite !chunk_left_pair. cbn. pose proof (pi_first _ _ _ _ Hi). fold i0. lia.
  - intros j w Hj. apply list_lookup_insert_Some in Hj as [(<- & <- & _)|[Hne Hj]].
    + split; unfold chunk_left, owns; cbn; try done; try lia.
      intros i Hr. rewrite list_lookup_insert_ne by lia. apply Hfree. lia.
    + destruct (pi_workers _ _ _ _ Hi j w Hj) as [? ? Hj0 ? ? Hjf ? ? ?]. split; try done. cbn. intros i Hr.
      pose proof Hr as Hr'. unfold owns in Hr'. rewrite list_lookup_insert_ne; [by apply Hjf|].
      intros E. assert (i0 = i) as E' by lia.
      apply (pi_disjoint _ _ _ _ Hi k j _ w i0 ltac:(done) Hk Hj); [unfold owns; cbn; fold i0; lia|by rewrite E'].
  - intros k1 k2 w1 w2 i Hne H1 H2.
    assert (∀ j w, <[k := (mkUpdater (u_parallel u) (u_chunk_size u) (i0 + 1) (u_cur_chunk_end u)
              (u_regions_added u + 1) (u_reclaimable_bytes_added u + bytes_of R0 x), false)]> ws !! j = Some w →
              owns w i → ∃ w0, ws !! j = Some w0 ∧ owns w0 i) as Hold.
    { intros j w Hj Ho. apply list_lookup_insert_Some in Hj as [(<- & <- & _)|[_ Hj]]; [|by exists w].
      exists (u, false). split; [done|]. unfold owns in *. cbn in *. fold i0. lia. }
    intros Ho1 Ho2. destruct (Hold k1 w1 H1 Ho1) as (v1 & E1 & O1). destruct (Hold k2 w2 H2 Ho2) as (v2 & E2 & O2).
    by apply (pi_disjoint _ _ _ _ Hi k1 k2 v1 v2 i).
  - rewrite (sum_by_insert _ _ _ _ _ Hk). rewrite !unreported_pair. cbn. pose proof (pi_length _ _ _ _ Hi). lia.
  - rewrite (sum_by_insert _ _ _ _ _ Hk). rewrite !unreported_bytes_pair. cbn. pose proof (pi_bytes _ _ _ _ Hi). lia.
  - done.
Qed.

(** A worker reports its totals. *)
Lemma done_spec added R c ws k u :
  par_inv added R c ws → ws !! k = Some (u, false) → Z.of_nat (length added) < 2 ^ 32 →
  sum_by (bytes_of R0) added < 2 ^ 64 →
  par_inv added R (delete_CSetChooserParUpdater c u) (<[k := (u, true)]> ws).
Proof.
  intros Hi Hk H32 H64. pose proof (pi_workers _ _ _ _ Hi k _ Hk) as Hw. destruct (par_sums _ _ _ _ Hi) as (_ & Hu & Hb).
  assert ((u, false) ∈ ws) as Hin by (by eapply list_elem_of_lookup_2).
  pose proof (sum_by_elem _ _ _ Hu Hin) as Hu1. pose proof (sum_by_elem _ _ _ Hb Hin) as Hb1.
  pose proof (wk_added _ _ Hw) as Ha. pose proof (wk_bytes _ _ Hw) as Hab. cbn in Ha, Hab, Hu1, Hb1.
  pose proof (pi_length _ _ _ _ Hi) as Hlen. pose proof (pi_bytes _ _ _ _ Hi) as Hby. pose proof (pi_totals _ _ _ _ Hi) as [Ht1 Ht2].
  assert (delete_CSetChooserParUpdater c u = set_totals c (c_curr_index c) (c_length c + u_regions_added u)
            (c_remaining_reclaimable_bytes c + u_reclaimable_bytes_added u)) as ->.
  { unfold delete_CSetChooserParUpdater, update_totals. pose proof (wk_parallel _ _ Hw) as Hp. cbn in Hp. rewrite Hp. cbn [andb].
    destruct (Z.gtb_spec (u_regions_added u) 0); [by rewrite u32_small, u64_small by (unfold in_u32, in_u64; lia)|].
    pose proof (wk_none _ _ Hw) as Hn. cbn in Hn. rewrite Hn by lia. replace (u_regions_added u) with 0 by lia.
    rewrite !Z.add_0_r. by destruct c. }
  split; try apply Hi; cbn.
  - rewrite (sum_by_insert _ _ _ _ _ Hk), !chunk_left_pair. pose proof (pi_first _ _ _ _ Hi). lia.
  - intros j w Hj. apply list_lookup_insert_Some in Hj as [(<- & <- & _)|[_ Hj]]; [by destruct Hw|].
    by destruct (pi_workers _ _ _ _ Hi j w Hj).
  - intros k1 k2 w1 w2 i Hne H1 H2.
    assert (∀ j w, <[k := (u, true)]> ws !! j = Some w → ∃ w0, ws !! j = Some w0 ∧ (owns w i ↔ owns w0 i)) as Hold.
    { intros j w Hj. apply list_lookup_insert_Some in Hj as [(<- & <- & _)|[_ Hj]]; [by exists (u, false)|by exists w]. }
    destruct (Hold k1 w1 H1) as (v1 & E1 & ->), (Hold k2 w2 H2) as (v2 & E2 & ->).
    by apply (pi_disjoint _ _ _ _ Hi k1 k2 v1 v2 i).
  - rewrite (sum_by_insert _ _ _ _ _ Hk), !unreported_pair. lia.
  - rewrite (sum_by_insert _ _ _ _ _ Hk), !unreported_bytes_pair. lia.
  - lia.
Qed.

(** The arithmetic of the counters does not wrap around. *)
Lemma counters_exact added R c ws k u :
  par_inv added R c ws → ws !! k = Some (u, false) → N < 2 ^ 31 → sum_by (bytes_of R0) added < 2 ^ 64 →
  in_u32 (u_cur_chunk_idx u) ∧ in_u32 (u_regions_added u) ∧ in_u64 (u_reclaimable_bytes_added u).
Proof.
  intros Hi Hk HN H64. pose proof (pi_workers _ _ _ _ Hi k _ Hk) as [_ _ Hx Hl He _ Ha Hab _]. cbn in Hx, He, Ha, Hab.
  rewrite chunk_left_pair in Hl. destruct (par_sums _ _ _ _ Hi) as (Hc & Hu & Hb).
  assert ((u, false) ∈ ws) as Hin by (by eapply list_elem_of_lookup_2).
  pose proof (sum_by_elem _ _ _ Hu Hin) as Hu1. pose proof (sum_by_elem _ _ _ Hb Hin) as Hb1.
  rewrite unreported_pair in Hu1. rewrite unreported_bytes_pair in Hb1.
  pose proof (pi_length _ _ _ _ Hi). pose proof (pi_bytes _ _ _ _ Hi). pose proof (pi_totals _ _ _ _ Hi) as [? ?].
  assert (Z.of_nat (length added) <= N).
  { rewrite <- (pi_size _ _ _ _ Hi), <- (pi_entries _ _ _ _ Hi). apply Nat2Z.inj_le, length_filter. }
  pose proof (pi_first_le _ _ _ _ Hi). unfold in_u32, in_u64. split_and!; lia.
Qed.

(** A visit to a candidate adds it. *)
Lemma visit_spec hrs added R c ws k u x r :
  heap_ok hrs → par_inv added R c ws → ws !! k = Some (u, false) → R0 !! x = Some r → candidate x = true →
  x ≠ NULL → x ∉ added → 0 < chunk → N < 2 ^ 31 →
  Z.of_nat (length added) + chunk * Z.of_nat (length ws) <= N → sum_by (bytes_of R0) (x :: added) < 2 ^ 64 →
  ∃ R' c' u', updater_add_region p R c u x = Some (R', c', u') ∧
    par_inv (x :: added) R' c' (<[k := (u', false)]> ws).
Proof.
  intros Hh Hi Hk Hr Hc Hx0 Hx Hch HN Hroom H64.
  destruct (hp_rated _ Hh x r Hr Hc) as (_ & e & He & _).
  destruct (calc_gc_efficiency_spec R added x r e (pi_eff _ _ _ _ Hi) Hr Hx He) as (R' & ER & HR' & Ex).
  pose proof (pi_workers _ _ _ _ Hi k _ Hk) as Hw. pose proof (wk_parallel _ _ Hw) as Hpar. pose proof (wk_chunk _ _ Hw) as Hcs.
  cbn in Hpar, Hcs.
  (* the chunk after a possible claim *)
  assert (∃ idx end_ c1, (if u_cur_chunk_idx u =? u_cur_chunk_end u
            then let '(idx, c) := claim_array_chunk c (u_chunk_size u) in (idx, u32 (idx + u_chunk_size u), c)
            else (u_cur_chunk_idx u, u_cur_chunk_end u, c)) = (idx, end_, c1) ∧ idx < end_ ∧
            par_inv added R c1 (<[k := (with_chunk u idx end_, false)]> ws)) as (idx & end_ & c1 & E1 & Hlt & Hi1).
  { destruct (Z.eqb_spec (u_cur_chunk_idx u) (u_cur_chunk_end u)) as [He0|Hne].
    - pose proof (first_bound _ _ _ _ _ _ _ Hi Hk He0 Hch) as Hfb.
      assert (0 <= c_first_par_unreserved_idx c) by (pose proof (wk_end _ _ Hw); pose proof (wk_idx _ _ Hw); cbn in *; lia).
      destruct (claim_spec _ _ _ _ _ _ _ Hi Hk He0 Hch ltac:(lia) HN ltac:(done)) as [Ecl Hi1]. rewrite Hcs, Ecl.
      eexists _, _, _. split; [done|]. rewrite u32_small by (unfold in_u32; lia). split; [lia|done].
    - pose proof (wk_left _ _ Hw) as Hl. rewrite chunk_left_pair in Hl.
      eexists _, _, _. split; [done|]. split; [lia|].
      rewrite list_insert_id; [done|]. rewrite Hk. by destruct u. }
  unfold updater_add_region. rewrite Hpar, E1. unfold set_region.
  assert (<[k := (with_chunk u idx end_, false)]> ws !! k = Some (with_chunk u idx end_, false)) as Hk1
    by (apply list_lookup_insert_eq; by eapply lookup_lt_Some).
  destruct (put_spec _ _ R' _ _ _ _ x Hi1 Hk1 Hlt Hx0 HR') as [Eput Hi2]. cbn [u_cur_chunk_idx with_chunk] in Eput, Hi2.
  rewrite Eput. cbn [mbind option_bind]. rewrite ER. cbn [mbind option_bind]. rewrite Ex. cbn [mbind option_bind].
  eexists _, _, _. split; [done|]. rewrite list_insert_insert_eq in Hi2.
  set (u2 := mkUpdater _ _ (idx + 1) _ _ _) in Hi2.
  assert (<[k := (u2, false)]> ws !! k = Some (u2, false)) as Hk2
    by (apply list_lookup_insert_eq; by eapply lookup_lt_Some).
  destruct (counters_exact _ _ _ _ _ _ Hi2 Hk2 HN H64) as (Hz1 & Hz2 & Hz3). cbn in Hz1, Hz2, Hz3.
  rewrite (bytes_of_region _ _ _ Hr) in *. rewrite set_efficiency_bytes, (u32_small (idx + 1)), u32_small, u64_small by done.
  rewrite <- Hpar, <- (bytes_of_region _ _ _ Hr). exact Hi2.
Qed.

(** The regions visited, and whether every worker ends once, after its last
    visit. *)
Definition visits (evs : list event) : list Z :=
  omap (λ e, match e with Visit _ hr => Some hr | Done _ => None end) evs.

Fixpoint well_scheduled (finished : list bool) (evs : list event) : bool :=
  match evs with
  | [] => forallb id finished
  | Visit w _ :: evs => match finished !! w with Some false => well_scheduled finished evs | _ => false end
  | Done w :: evs =>
      match finished !! w with Some false => well_scheduled (<[w := true]> finished) evs | _ => false end
  end.

Lemma all_reported (ws : list worker) : forallb id ws.*2 = true → sum_by unreported ws = 0 ∧ sum_by unreported_bytes ws = 0.
Proof.
  induction ws as [|[u d] ws IH]; cbn; [done|]. rewrite andb_true_iff. intros [Hd H]. destruct (IH H) as [-> ->].
  destruct d; [done|done].
Qed.

Lemma worker_at (ws : list worker) k d : (ws.*2) !! k = Some d → ∃ u, ws !! k = Some (u, d) ∧ (ws.*1) !! k = Some u.
Proof.
  rewrite !list_lookup_fmap. destruct (ws !! k) as [[u d']|]; cbn; [|done]. intros [= ->]. by exists u.
Qed.

Lemma run_workers_spec hrs pre added R c ws evs :
  heap_ok hrs → pre ++ visits evs ≡ₚ hrs → added ≡ₚ filter (λ x, candidate x = true) pre → par_inv added R c ws →
  well_scheduled (ws.*2) evs = true → 0 < chunk → N < 2 ^ 31 →
  Z.of_nat (length hrs) + chunk * Z.of_nat (length ws) <= N →
  ∃ R' c' ws' added', run_workers p old_gc_region R c (ws.*1) evs = Some (R', c') ∧ par_inv added' R' c' ws' ∧
    picked hrs added' ∧ forallb id (ws'.*2) = true.
Proof.
  intros Hh. revert pre added R c ws. induction evs as [|[w x|w] evs IH]; intros pre added R c ws Hhrs Had Hi Hsch Hch HN Hroom.
  - exists R, c, ws, added. split_and!; [done|done| |done]. unfold picked. cbn in Hhrs. rewrite app_nil_r in Hhrs.
    by rewrite Had, Hhrs.
  - cbn [visits omap list_omap] in Hhrs. fold (visits evs) in Hhrs. cbn [well_scheduled] in Hsch.
    destruct ((ws.*2) !! w) as [[]|] eqn:Ew; try done. destruct (worker_at _ _ _ Ew) as (u & Hk & Hk1).
    assert (x ∈ hrs) as Hxin by (rewrite <- Hhrs; set_solver). destruct (hp_regions _ Hh x Hxin) as [Hx0 [r Hr]].
    assert (x ∉ pre) as Hxp.
    { pose proof (hp_nodup _ Hh) as Hnd. rewrite <- Hhrs in Hnd. apply NoDup_app in Hnd as (_ & Hd & _). intros Hin.
      apply (Hd x Hin). by left. }
    assert (x ∉ added) as Hx by (rewrite Had, list_elem_of_filter; tauto).
    cbn [run_workers]. rewrite Hk1. cbn [mbind option_bind]. unfold par_known_garbage.
    rewrite (proj2 (pi_eff _ _ _ _ Hi x r Hr) Hx). cbn [mbind option_bind].
    rewrite (candidate_in c x r (pi_threshold _ _ _ _ Hi) Hr).
    assert ((pre ++ [x]) ++ visits evs ≡ₚ hrs) as Hhrs' by (by rewrite <- app_assoc).
    destruct (candidate x) eqn:Ec.
    + assert (x :: added ≡ₚ filter (λ x, candidate x = true) (pre ++ [x])) as Had'
        by (rewrite filter_app, filter_cons_True by done; cbn; by rewrite <- Had, <- Permutation_cons_append).
      assert (sum_by (bytes_of R0) (x :: added) < 2 ^ 64).
      { pose proof (hp_bytes _ Hh) as Hb. rewrite <- Hhrs', filter_app, sum_by_app, <- Had' in Hb.
        pose proof (sum_bytes_nonneg R0 (filter (λ x, candidate x = true) (visits evs))). lia. }
      assert (length added <= length hrs)%nat.
      { rewrite Had, <- Hhrs, length_app. etrans; [apply length_filter|lia]. }
      destruct (visit_spec hrs added R c ws w u x r) as (R' & c' & u' & -> & Hi'); try done; [lia|]. cbn [mbind option_bind].
      replace (<[w := u']> ws.*1) with ((<[w := (u', false)]> ws).*1) by (by rewrite list_fmap_insert).
      apply (IH (pre ++ [x]) (x :: added)); try done; [|by rewrite length_insert].
      rewrite list_fmap_insert. cbn. by rewrite list_insert_id.
    + cbn [mbind option_bind]. rewrite list_insert_id by done. apply (IH (pre ++ [x]) added); try done.
      rewrite filter_app, filter_cons_False by (by rewrite Ec). cbn. by rewrite app_nil_r.
  - cbn [visits omap list_omap] in Hhrs. fold (visits evs) in Hhrs. cbn [well_scheduled] in Hsch.
    destruct ((ws.*2) !! w) as [[]|] eqn:Ew; try done. destruct (worker_at _ _ _ Ew) as (u & Hk & Hk1).
    cbn [run_workers]. rewrite Hk1. cbn [mbind option_bind].
    replace (ws.*1) with ((<[w := (u, true)]> ws).*1) by (rewrite list_fmap_insert; cbn; by apply list_insert_id).
    assert (length added <= length hrs)%nat.
    { rewrite Had, <- Hhrs, length_app. etrans; [apply length_filter|lia]. }
    apply (IH pre added); try done; [|by rewrite list_fmap_insert|by rewrite length_insert].
    apply done_spec; [done|done|pose proof (hp_small _ Hh); lia|].
    pose proof (hp_bytes _ Hh) as Hb. rewrite <- Hhrs, filter_app, sum_by_app, <- Had in Hb.
    pose proof (sum_bytes_nonneg R0 (filter (λ x, candidate x = true) (visits evs))). lia.
Qed.

End parallel.

(** ** The whole cleanup *)

Lemma entries_id l : (∀ x, x ∈ l → x ≠ NULL) → entries l = l.
Proof.
  unfold entries. induction l as [|x l IH]; intros H; [done|]. rewrite filter_cons_True by (apply H; by left).
  rewrite IH; [done|]. intros y Hy. apply H. by right.
Qed.

Lemma entries_take l n : (∀ i x, l !! i = Some x → (n <= i)%nat → x = NULL) → entries (take n l) = entries l.
Proof.
  intros H. rewrite <- (take_drop n l) at 2. unfold entries. rewrite filter_app.
  assert (drop n l = replicate (length (drop n l)) NULL) as ->.
  { symmetry. apply replicate_as_elem_of. split; [done|]. intros x [i Hi]%list_elem_of_lookup.
    rewrite lookup_drop in Hi. eapply H; [done|lia]. }
  fold (entries (replicate (length (drop n l)) NULL)). by rewrite entries_null, app_nil_r.
Qed.

(** The array that [prepare_for_par_region_addition] makes. *)
Lemma prepare_spec c n_threads n chunk :
  c_regions c = [] → 0 < chunk → 0 < n_threads → 0 <= n → n + chunk + n_threads * chunk < 2 ^ 31 →
  ∃ N, prepare_for_par_region_addition c n_threads n chunk =
         set_regions (set_unreserved c 0) (replicate (Z.to_nat N) NULL) ∧
    n + n_threads * chunk <= N < 2 ^ 31.
Proof.
  intros Hc Hch Ht Hn Hs. unfold prepare_for_par_region_addition, regions_at_put_grow.
  set (a := (n + chunk - 1) / chunk * chunk).
  assert (n <= a <= n + chunk - 1) as Ha.
  { pose proof (Z.div_mod (n + chunk - 1) chunk ltac:(lia)). pose proof (Z.mod_pos_bound (n + chunk - 1) chunk ltac:(lia)).
    unfold a. lia. }
  assert (0 < n_threads * chunk) by nia. exists (a + n_threads * chunk). split; [|lia].
  rewrite (u32_small (n_threads * chunk)), (u32_small (n + chunk)), (u32_small (n + chunk - 1)) by (unfold in_u32; lia).
  fold a. rewrite (u32_small a), (u32_small (a + _)), u32_small by (unfold in_u32; lia).
  cbn [c_regions set_unreserved]. rewrite Hc. cbn [length app Z.of_nat].
  rewrite (proj2 (Z.geb_le _ _)) by lia. rewrite Nat.sub_0_r.
  replace (a + n_threads * chunk - 1 + 1) with (a + n_threads * chunk) by lia. f_equal.
  apply list_insert_id. apply lookup_replicate. split; [done|lia].
Qed.

Lemma par_inv_start chunk N n_workers c :
  0 <= N → 0 <= chunk → c_curr_index c = 0 → c_length c = 0 → c_remaining_reclaimable_bytes c = 0 →
  c_region_live_threshold_bytes c = threshold →
  par_inv chunk N [] R0 (set_regions (set_unreserved c 0) (replicate (Z.to_nat N) NULL))
    (replicate n_workers (new_CSetChooserParUpdater true chunk, false)).
Proof.
  intros HN Hch Hcu Hl Hb Ht.
  assert (∀ f : worker → Z, f (new_CSetChooserParUpdater true chunk, false) = 0 →
            sum_by f (replicate n_workers (new_CSetChooserParUpdater true chunk, false)) = 0) as Hsum.
  { intros f Hf. clear -Hf. induction n_workers; cbn; lia. }
  split; cbn [c_regions c_first_par_unreserved_idx c_length c_remaining_reclaimable_bytes c_curr_index
              c_region_live_threshold_bytes set_regions set_unreserved length sum_by]; rewrite ?Hsum by done; try lia.
  - by rewrite entries_null.
  - rewrite length_replicate. lia.
  - intros i x [-> _]%lookup_replicate. done.
  - intros k w [-> _]%lookup_replicate. split; unfold chunk_left, owns; cbn; try done; try lia.
  - intros k1 k2 w1 w2 i _ [-> _]%lookup_replicate [-> _]%lookup_replicate. unfold owns. cbn. lia.
  - apply eff_set_nil.
Qed.

Lemma work_unit_bounds n k : 0 <= n → 0 < k → 0 < work_unit n k <= Z.max n 1.
Proof.
  intros Hn Hk. unfold work_unit. assert (0 <= n / k <= n) by (split; [apply Z.div_pos; lia|apply Z.div_le_upper_bound; nia]).
  pose proof (u32_range (k * OverpartitionFactor)) as Hu. unfold in_u32 in Hu.
  assert (0 <= n / u32 (k * OverpartitionFactor) <= n).
  { destruct (Z.eq_dec (u32 (k * OverpartitionFactor)) 0) as [->|]; [rewrite Z.div_0_r_ext; lia|].
    split; [apply Z.div_pos; lia|apply Z.div_le_upper_bound; nia]. }
  lia.
Qed.

Lemma fill_end `{QSortSpec} hrs added R c l :
  heap_ok hrs → picked hrs added → eff_set R added →
  (if c_first_par_unreserved_idx c >? 0 then regions_trunc_to c (c_first_par_unreserved_idx c) else Some c)
    = Some (set_regions c l) →
  entries l ≡ₚ added → c_curr_index c = 0 → c_length c = Z.of_nat (length added) →
  c_remaining_reclaimable_bytes c = sum_by (bytes_of R0) added →
  ∃ c', sort_regions R c = Some c' ∧ filled hrs R c'.
Proof.
  intros Hh Hp HR Ht He Hcu Hlen Hb. destruct (picked_bytes _ _ _ Hh Hp HR) as [Hs H64].
  assert (length added <= length hrs)%nat by (unfold picked in Hp; rewrite Hp; apply length_filter).
  pose proof (hp_small _ Hh). destruct (sort_regions_spec R c l added) as (c' & cands & E & Hok & Hcp & Hc0 & _);
    [done|done|by eapply picked_cands|done|done|lia|congruence|congruence|].
  exists c'. split; [done|]. exists cands. split_and!; [done|done|by rewrite Hcp|by eapply eff_set_perm|by eapply verify_ok].
Qed.

(** C19: However the workers share the regions of the heap and interleave, the
    parallel filling at the end of marking never writes outside the array,
    and after the sort the chooser passes its verification and holds exactly
    the marked regions that are not humongous, not allocated into and have few
    enough live bytes, the most efficient first, with the exact sum of their
    reclaimable bytes; the serial filling gives the same. *)
Theorem chooser_filled `{QSortSpec} hrs c evs no_of_gc_threads parallel_gc_threads n_threads n_workers :
  heap_ok hrs → c_region_live_threshold_bytes c = threshold →
  let k := if no_of_gc_threads >? 0 then no_of_gc_threads else parallel_gc_threads in
  0 < k → 0 < n_workers <= n_threads → (n_threads + 2) * Z.max (Z.of_nat (length hrs)) 1 < 2 ^ 31 →
  visits evs ≡ₚ hrs → well_scheduled (replicate (Z.to_nat n_workers) false) evs = true →
  (∃ R' c', cleanup_end_par p old_gc_region R0 c hrs evs no_of_gc_threads parallel_gc_threads n_threads n_workers
              = Some (R', c') ∧ filled hrs R' c') ∧
  (c_first_par_unreserved_idx c = 0 →
   ∃ R' c', cleanup_end_serial p old_gc_region R0 c hrs = Some (R', c') ∧ filled hrs R' c').
Proof.
  intros Hh Ht k Hk Hw Hsz Hv Hsch. set (n := Z.of_nat (length hrs)) in *. split.
  - unfold cleanup_end_par. fold n.
    assert ((if no_of_gc_threads >? 0 then work_unit n no_of_gc_threads else work_unit n parallel_gc_threads)
            = work_unit n k) as -> by (unfold k; by destruct (no_of_gc_threads >? 0)).
    pose proof (work_unit_bounds n k ltac:(lia) Hk) as Hch. set (chunk := work_unit n k) in *.
    destruct (prepare_spec (clear c) n_threads n chunk) as (N & -> & HN); [done|lia|lia|lia|nia|].
    destruct (run_workers_spec chunk N hrs [] [] R0 (set_regions (set_unreserved (clear c) 0) (replicate (Z.to_nat N) NULL))
                (replicate (Z.to_nat n_workers) (new_CSetChooserParUpdater true chunk, false)) evs)
      as (R' & c' & ws' & added & Erun & Hi & Hp & Hdone); try done; try lia.
    { apply par_inv_start; try done; nia. }
    { by rewrite fmap_replicate. }
    { rewrite length_replicate. fold n. nia. }
    rewrite fmap_replicate in Erun. cbn in Erun. rewrite Erun. cbn [mbind option_bind].
    destruct (all_reported _ Hdone) as [Hu Hub]. pose proof (pi_first_le _ _ _ _ _ _ Hi) as Hfle.
    set (l := if c_first_par_unreserved_idx c' >? 0 then take (Z.to_nat (c_first_par_unreserved_idx c')) (c_regions c')
              else c_regions c').
    destruct (fill_end hrs added R' c' l) as (c2 & -> & Hf); try done; try apply Hi.
    + unfold l, regions_trunc_to. destruct (Z.gtb_spec (c_first_par_unreserved_idx c') 0); [|by destruct c'].
      rewrite (proj2 (Z.leb_le _ _)); [done|]. by rewrite (pi_size _ _ _ _ _ _ Hi).
    + rewrite <- (pi_entries _ _ _ _ _ _ Hi). unfold l. destruct (Z.gtb_spec (c_first_par_unreserved_idx c') 0); [|done].
      rewrite entries_take; [done|]. intros i x Hx Hge. eapply (pi_beyond _ _ _ _ _ _ Hi); [done|lia].
    + pose proof (pi_length _ _ _ _ _ _ Hi). lia.
    + pose proof (pi_bytes _ _ _ _ _ _ Hi). lia.
    + by exists R', c2.
  - intros Hf0. unfold cleanup_end_serial.
    destruct (known_garbage_all_spec hrs [] hrs [] R0 (clear c) Hh) as (R' & c' & -> & Hi); try done.
    { split; cbn; try done. apply eff_set_nil. }
    cbn [mbind option_bind]. destruct Hi as [Hl Hf Hcu Hlen Hb _ HR].
    destruct (fill_end hrs (filter (λ x, candidate x = true) hrs) R' c' (c_regions c')) as (c2 & -> & Hfl); try done.
    + by unfold picked.
    + rewrite Hf. cbn. by destruct c'.
    + rewrite Hl, entries_id; [done|]. intros x [_ Hx]%list_elem_of_filter. by apply (hp_regions _ Hh).
    + by exists R', c2.
Qed.

End fill.
End FillFacts.

(** * Instances *)

Module CSetDemo.
Import CSetChooser DoubleFacts CSetChooserFacts FillFacts SortSpec InsertionSort NumberSeqFacts.

Definition demo_seq : TruncatedSeq := put_all (new_TruncatedSeq 2 DEFAULT_ALPHA_VALUE) [d_of_Z 1].
Definition demo_policy : Policy :=
  mkPolicy (d_div (d_of_Z 1) (d_of_Z 2)) false false false demo_seq demo_seq demo_seq demo_seq demo_seq demo_seq
    demo_seq demo_seq demo_seq demo_seq demo_seq.

(** Two marked regions of 1024 bytes, the first with less live data. *)
Definition demo_region (bottom live eff : Z) (index : Z) : OldRegion :=
  mkOldRegion (mkRegion bottom (bottom + 1024) (bottom + 512) 0 0 0 0 0 2 1 false 0 NotYoung bottom) index (bottom + 512) live
    false false 1 demo_seq (d_of_Z eff) false 0.
Definition demo_A : OldRegion := demo_region 0x10000 104 3 0.
Definition demo_B : OldRegion := demo_region 0x10400 304 2 1.
Definition demo_regions : regions := <[0xA0 := demo_A]> (<[0xB0 := demo_B]> ∅).

Lemma demo_regions_inv x r : demo_regions !! x = Some r → x = 0xA0 ∧ r = demo_A ∨ x = 0xB0 ∧ r = demo_B.
Proof.
  unfold demo_regions. rewrite !lookup_insert_Some. intros [[<- <-]|[_ [[<- <-]|[_ H]]]]; [by left|by right|].
  by rewrite lookup_empty in H.
Qed.

Definition demo_chooser (l : list Z) (len bytes : Z) : CollectionSetChooser := mkChooser l 0 len 0 900 bytes.

Lemma demo_heap_ok : heap_ok demo_policy NULL demo_regions 900 [0xB0; 0xA0].
Proof.
  split.
  - intros x Hx. repeat (apply elem_of_cons in Hx as [->|Hx]; [split; [done|by eexists]|]). by apply elem_of_nil in Hx.
  - apply NoDup_cons; split; [by intros ?%list_elem_of_singleton|]. apply NoDup_singleton.
  - intros x r [[-> ->]|[-> ->]]%demo_regions_inv _; (split; [done|]); eexists; (split; [eexists; split; vm_compute; reflexivity|done]).
  - by vm_compute.
  - done.
Qed.

Definition demo_events : list event := [Visit 1 0xB0; Visit 0 0xA0; Done 0; Done 1].

Lemma chooser_filled_witness :
  ∃ R' c', cleanup_end_par demo_policy NULL demo_regions (demo_chooser [0xB0] 1 5) [0xB0; 0xA0] demo_events 2 2 2 2
             = Some (R', c') ∧
    filled demo_policy NULL demo_regions 900 [0xB0; 0xA0] R' c'.
Proof.
  destruct (chooser_filled demo_policy NULL demo_regions 900 [0xB0; 0xA0] (demo_chooser [0xB0] 1 5) demo_events 2 2 2 2)
    as [Hpar _]; [apply demo_heap_ok|done|done|done|done|done|done|exact Hpar].
Defined.

Definition demo_set : CSet :=
  mkCSet demo_regions (demo_chooser [0xA0; 0xB0] 2 1640) NULL 0 0 0 [false; false] 2 2 2048.

Lemma demo_ready : ready demo_policy demo_set [0xA0; 0xB0].
Proof.
  assert (is_cand demo_regions 0xA0) as HA by (exists demo_A; split; [done|done|done|done|done]).
  assert (is_cand demo_regions 0xB0) as HB by (exists demo_B; split; [done|done|done|done|done]).
  split.
  - split; try done.
    + by exists [].
    + by repeat constructor.
    + repeat constructor. exists (-1). split; [by vm_compute|done].
  - intros x r [[-> ->]|[-> ->]]%demo_regions_inv; by eexists.
  - repeat constructor; [exists demo_A|exists demo_B]; eexists; (split; [done|vm_compute; reflexivity]).
  - apply NoDup_cons; split; [by intros ?%list_elem_of_singleton|]. apply NoDup_singleton.
  - done.
  - done.
Qed.

Lemma mixed_regions_chosen_witness :
  ∃ s' times' e chosen rest,
    choose_old_regions demo_policy 4096 4 20 5 2 25 true demo_set (d_of_Z 10, d_zero) = Some (s', times', e) ∧
    [0xA0; 0xB0] = chosen ++ rest ∧ chooser_ok (s_regions s') (s_chooser s') rest ∧
    Z.of_nat (length chosen) <= 1.
Proof.
  destruct (mixed_regions_chosen demo_policy 4096 4 20 5 2 25 true demo_set (d_of_Z 10, d_zero) [0xA0; 0xB0] demo_ready eq_refl eq_refl)
    as (s' & times' & e & chosen & rest & E & Hc & Hok & _ & _ & Hm & _).
  exists s', times', e, chosen, rest. split_and!; [exact E|done|done|exact Hm].
Defined.

Lemma migration_regions_chosen_witness :
  ∃ s' times' chosen rest,
    choose_for_migration demo_policy 20 demo_set 3 (d_of_Z 10, d_zero) = Some (s', times') ∧
    [0xA0; 0xB0] = chosen ++ rest ∧ (0xA0 ∈ chosen) ∧ (0xB0 ∉ chosen).
Proof.
  destruct (migration_regions_chosen demo_policy 20 demo_set 3 (d_of_Z 10, d_zero) [0xA0; 0xB0] demo_ready)
    as (s' & times' & chosen & rest & E & Hc & _ & _ & _ & Hx).
  exists s', times', chosen, rest. split_and!; [exact E|done| |].
  - apply (Hx 0xA0 demo_A); [by left|done|by vm_compute].
  - intros Hin. apply (Hx 0xB0 demo_B) in Hin; [by vm_compute in Hin|by right; left|done].
Defined.

Lemma mixed_phase_ends_witness :
  ∃ s', nsteps (mixed_gc demo_policy 4096 4 20 5 2 25 true) 1 demo_set s' ∧ Z.of_nat 1 <= Z.max 2 1.
Proof.
  destruct (choose_old_regions demo_policy 4096 4 20 5 2 25 true demo_set (d_of_Z 10, d_zero))
    as [[[s' times'] e]|] eqn:E; [|by vm_compute in E].
  assert (nsteps (mixed_gc demo_policy 4096 4 20 5 2 25 true) 1 demo_set s') as Hn.
  { apply nsteps_once. split; [by vm_compute|]. exists demo_set, [0xA0; 0xB0], (d_of_Z 10, d_zero), times', e.
    split_and!; [done|done|apply demo_ready|exact E]. }
  exists s'. split; [exact Hn|]. apply (mixed_phase_ends demo_policy 4096 4 20 5 2 25 true demo_set 1 s'); [done| |exact Hn].
  by vm_compute.
Defined.

End CSetDemo.
