(* ===== verification/Evacuation.v ===== *)
(** Evacuation of the collection set: [G1ParCopyClosure::do_oop_work] and
    [copy_to_survivor_space], [handle_evacuation_failure_par]
    ([g1CollectedHeap.cpp]), [oopDesc::forward_to_atomic]
    ([oop.pcgc.inline.hpp]) and the age table ([shared/ageTable.cpp]).

    The workers run concurrently, so an evacuation is a sequence of steps,
    one per access to a shared header: the read of a header, the atomic
    exchange that installs a forwarding pointer, the copy. Where an object is
    copied to is up to the allocator: any unused address, or none. *)

From S2P Require Import Prelude MarkWord Ng2cTables MergeOp Predictions.
From Stdlib Require Import SpecFloat.
Import MarkOop.

(** * The age table *)

Module AgeTable.
Import Double.

Definition table_size : Z := max_age + 1.

Definition clear : list Z := replicate (Z.to_nat table_size) 0.

Definition add (sizes : list Z) (age oop_size : Z) : option (list Z) :=
  s ← sizes !! Z.to_nat age; Some (<[Z.to_nat age := u64 (s + oop_size)]> sizes).

Definition merge (sizes sub : list Z) : list Z := zip_with (λ a b, u64 (a + b)) sizes sub.

(** The loop of [compute_tenuring_threshold]: [rest] are the sizes from [age] on. *)
Fixpoint threshold_loop (rest : list Z) (age total desired : Z) : Z :=
  match rest with
  | [] => age
  | s :: rest =>
      let total := u64 (total + s) in
      if total >? desired then age else threshold_loop rest (age + 1) total desired
  end.

Definition desired_survivor_size (survivor_capacity TargetSurvivorRatio : Z) : option Z :=
  size_t_of_double (d_div (d_mul (d_of_Z survivor_capacity) (d_of_Z TargetSurvivorRatio)) (d_of_Z 100)).

Definition compute_tenuring_threshold (sizes : list Z) (survivor_capacity TargetSurvivorRatio MaxTenuringThreshold : Z)
    : option Z :=
  desired ← desired_survivor_size survivor_capacity TargetSurvivorRatio;
  let age := threshold_loop (drop 1 sizes) 1 0 desired in
  Some (if age <? MaxTenuringThreshold then age else MaxTenuringThreshold).

End AgeTable.

(** * Evacuation *)

Module Evacuation.

Inductive GCAllocPurpose := GCAllocForTenured | GCAllocForSurvived.

Definition evacuation_destination (tenuring_threshold : Z) (young : bool) (age : Z) : GCAllocPurpose :=
  if (age <? tenuring_threshold) && young then GCAllocForSurvived else GCAllocForTenured.

Definition track_object_age (purpose : GCAllocPurpose) : bool :=
  match purpose with GCAllocForSurvived => true | GCAllocForTenured => false end.

(** An object of the collection set: its header, its other words, whether its
    region is young, the index of the region and the prototype header of its
    class. *)
Record FromObject := mkFrom {
  f_mark : Z;
  f_body : list Z;
  f_young : bool;
  f_young_index_in_cset : Z;
  f_prototype : Z
}.
Definition set_mark (f : FromObject) (m : Z) : FromObject :=
  mkFrom m (f_body f) (f_young f) (f_young_index_in_cset f) (f_prototype f).
Definition word_sz (f : FromObject) : Z := Z.of_nat (S (length (f_body f))).

(** What a worker is about to do with the object [o]; [m] is the header it
    has read, [a] the age it found, [t] the kind of space it wants and [p] the
    address it wants to forward the object to ([o] itself when the allocation
    failed; [a] and [t] are then not used). *)
Inductive pc :=
  | Idle
  | Fetched (o : Z)                        (* do_oop_work has the reference *)
  | Checked (o : Z)                        (* the object was not forwarded *)
  | Loaded (o m a : Z)                     (* markOop m = old->mark() and the age *)
  | Destined (o m a : Z) (t : GCAllocPurpose)    (* calls allocate(t, word_sz) *)
  | Failing (o : Z)                        (* handle_evacuation_failure_par *)
  | Forwarding (o m a : Z) (t : GCAllocPurpose) (p : Z)        (* calls forward_to_atomic(p) *)
  | Exchanging (o m a : Z) (t : GCAllocPurpose) (p oldMark : Z) (* its loop, with oldMark *)
  | Lost (o : Z) (t : GCAllocPurpose) (p : Z) (* someone else has forwarded it *)
  | Won (o m a : Z) (t : GCAllocPurpose) (p : Z).              (* the forwarding pointer is installed *)

(** A worker: what it has left to do, the references it has updated and its
    statistics. *)
Record worker := mkWorker {
  w_pc : pc;
  w_tasks : list Z;
  w_updated : list (Z * Z);              (* object and forwardee stored *)
  w_age_table : list Z;
  w_surviving_words : gmap Z Z;          (* surviving_young_words *)
  w_profiled : list (Z * Z)              (* header and age given to the profiler *)
}.

Record state := mkState {
  s_objs : gmap Z FromObject;
  s_to : gmap Z (Z * list Z);            (* the copies: header and words *)
  s_displaced : Z → Z;                   (* displaced headers *)
  s_preserved : list (Z * Z);            (* objects with preserved marks *)
  s_history : list (Z * Z);              (* object and destination of every evacuation *)
  s_tenuring_threshold : Z;
  s_workers : list worker
}.

Definition with_pc (w : worker) (q : pc) : worker :=
  mkWorker q (w_tasks w) (w_updated w) (w_age_table w) (w_surviving_words w) (w_profiled w).
Definition finish (w : worker) (o r : Z) : worker :=
  mkWorker Idle (w_tasks w) ((o, r) :: w_updated w) (w_age_table w) (w_surviving_words w) (w_profiled w).
Definition put_worker (s : state) (k : nat) (w : worker) : state :=
  mkState (s_objs s) (s_to s) (s_displaced s) (s_preserved s) (s_history s) (s_tenuring_threshold s) (<[k := w]> (s_workers s)).

Section evacuation.
Variable UseBiasedLocking : bool.

(** The age of an object with header [m]. *)
Definition object_age (displaced : Z → Z) (m : Z) : Z :=
  if has_displaced_mark_helper m then age (displaced_mark_helper displaced m) else age m.

Definition purpose (s : state) (f : FromObject) (a : Z) : GCAllocPurpose :=
  evacuation_destination (s_tenuring_threshold s) (f_young f) a.

(** The header of the copy, which is also the value of [m] afterwards, and
    the displaced headers. *)
Definition install_mark (displaced : Z → Z) (tracked : bool) (m : Z) : Z * (Z → Z) :=
  if tracked then
    if has_displaced_mark_helper m then
      (m, set_displaced_mark_helper displaced m (incr_age (displaced_mark_helper displaced m)))
    else (incr_age m, displaced)
  else (m, displaced).

(** The statistics of the worker that forwarded the object. The age table
    counts the object under the age in its new header; the profiler gets the
    header and the age ([count_survivor] of the merge operation). *)
Definition account (w : worker) (displaced' : Z → Z) (f : FromObject) (tracked : bool) (m' a : Z) : option worker :=
  ages ← (if tracked then AgeTable.add (w_age_table w) (object_age displaced' m') (word_sz f)
          else Some (w_age_table w));
  let young_index := f_young_index_in_cset f + 1 in
  let words := default 0 (w_surviving_words w !! young_index) in
  Some (mkWorker (w_pc w) (w_tasks w) (w_updated w) ages
          (<[young_index := u64 (words + word_sz f)]> (w_surviving_words w))
          ((m', a) :: w_profiled w)).

(** The loop test of [forward_to_atomic], with the header [mark] just read. *)
Definition forward_to_atomic_loop (o m a : Z) (t : GCAllocPurpose) (p mark : Z) : pc :=
  if is_marked mark then Lost o t p else Exchanging o m a t p mark.

Definition preserve_mark_if_necessary (preserved : list (Z * Z)) (f : FromObject) (obj m : Z) : list (Z * Z) :=
  if must_be_preserved_for_promotion_failure UseBiasedLocking (f_prototype f) m
  then (obj, m) :: preserved else preserved.

(** An address that the allocator may return: word-aligned, not in the
    collection set, not in use and not held by another worker. *)
Definition pending (q : pc) : option Z :=
  match q with
  | Forwarding o _ _ _ p | Exchanging o _ _ _ p _ | Won o _ _ _ p | Lost o _ p => if p =? o then None else Some p
  | _ => None
  end.
Definition fresh (s : state) (p : Z) : Prop :=
  0 < p ∧ p mod 8 = 0 ∧ s_objs s !! p = None ∧ s_to s !! p = None ∧
  ∀ k w, s_workers s !! k = Some w → pending (w_pc w) ≠ Some p.

(** Worker [k] does one step. Allocation is one step with any fresh address or
    a failure: the buffers, the regions and the waiting for [FreeList_lock] are
    not part of this relation ([PlabEvacuation] has the buffers and regions).
    [step_self] is what [handle_evacuation_failure_common] does to the object
    and to the preserved marks. Left out are the waiting for
    [EvacFailureStack_lock], under which it runs, the flags and statistics of
    the failure, and the stack of failed objects with its drain; references
    found by the drain arrive by [transition_push]. *)
Inductive step : nat → state → state → Prop :=
  | step_fetch s k w o tasks :
      s_workers s !! k = Some w → w_pc w = Idle → w_tasks w = o :: tasks →
      step k s (put_worker s k (mkWorker (Fetched o) tasks (w_updated w) (w_age_table w) (w_surviving_words w) (w_profiled w)))
  | step_forwarded s k w o f :
      s_workers s !! k = Some w → w_pc w = Fetched o → s_objs s !! o = Some f → is_marked (f_mark f) = true →
      step k s (put_worker s k (finish w o (decode_pointer UseBiasedLocking (f_mark f))))
  | step_not_forwarded s k w o f :
      s_workers s !! k = Some w → w_pc w = Fetched o → s_objs s !! o = Some f → is_marked (f_mark f) = false →
      step k s (put_worker s k (with_pc w (Checked o)))
  | step_load s k w o f :
      s_workers s !! k = Some w → w_pc w = Checked o → s_objs s !! o = Some f →
      step k s (put_worker s k (with_pc w (Loaded o (f_mark f) (object_age (s_displaced s) (f_mark f)))))
  | step_destination s k w o m a f :
      s_workers s !! k = Some w → w_pc w = Loaded o m a → s_objs s !! o = Some f →
      step k s (put_worker s k (with_pc w (Destined o m a (purpose s f a))))
  | step_allocate s k w o m a t p :
      s_workers s !! k = Some w → w_pc w = Destined o m a t → fresh s p →
      step k s (put_worker s k (with_pc w (Forwarding o m a t p)))
  | step_allocation_fails s k w o m a t :
      s_workers s !! k = Some w → w_pc w = Destined o m a t →
      step k s (put_worker s k (with_pc w (Failing o)))
  | step_load_failing s k w o f :
      s_workers s !! k = Some w → w_pc w = Failing o → s_objs s !! o = Some f →
      step k s (put_worker s k (with_pc w (Forwarding o (f_mark f) 0 GCAllocForTenured o)))
  | step_read s k w o m a t p f :
      s_workers s !! k = Some w → w_pc w = Forwarding o m a t p → s_objs s !! o = Some f →
      step k s (put_worker s k (with_pc w (forward_to_atomic_loop o m a t p (f_mark f))))
  | step_exchange s k w o m a t p oldMark f :
      s_workers s !! k = Some w → w_pc w = Exchanging o m a t p oldMark → s_objs s !! o = Some f → f_mark f = oldMark →
      step k s (mkState (<[o := set_mark f (encode_pointer_as_mark p)]> (s_objs s)) (s_to s) (s_displaced s)
                (s_preserved s) (s_history s) (s_tenuring_threshold s) (<[k := with_pc w (Won o m a t p)]> (s_workers s)))
  | step_exchange_fails s k w o m a t p oldMark f :
      s_workers s !! k = Some w → w_pc w = Exchanging o m a t p oldMark → s_objs s !! o = Some f → f_mark f ≠ oldMark →
      step k s (put_worker s k (with_pc w (forward_to_atomic_loop o m a t p (f_mark f))))
  | step_lost s k w o t p f :
      s_workers s !! k = Some w → w_pc w = Lost o t p → s_objs s !! o = Some f →
      step k s (put_worker s k (finish w o (decode_pointer UseBiasedLocking (f_mark f))))
  | step_copy s k w o m a t p f m' displaced' w' :
      s_workers s !! k = Some w → w_pc w = Won o m a t p → p ≠ o → s_objs s !! o = Some f →
      let tracked := track_object_age t in
      install_mark (s_displaced s) tracked m = (m', displaced') →
      account w displaced' f tracked m' a = Some w' →
      step k s (mkState (s_objs s) (<[p := (m', f_body f)]> (s_to s)) displaced' (s_preserved s)
                ((o, p) :: s_history s) (s_tenuring_threshold s) (<[k := finish w' o p]> (s_workers s)))
  | step_self s k w o m a t f :
      s_workers s !! k = Some w → w_pc w = Won o m a t o → s_objs s !! o = Some f →
      step k s (mkState (s_objs s) (s_to s) (s_displaced s)
                (preserve_mark_if_necessary (s_preserved s) f o m)
                ((o, o) :: s_history s) (s_tenuring_threshold s) (<[k := finish w o o]> (s_workers s))).

(** A reference into the collection set turns up: a copy is scanned or work
    is stolen. The scan itself, which for a large array of objects first
    clears the length of the copy, is not modelled. *)
Definition push_on_queue (w : worker) (o : Z) : worker :=
  mkWorker (w_pc w) (o :: w_tasks w) (w_updated w) (w_age_table w) (w_surviving_words w) (w_profiled w).

(** The allocator has found no region for the survivors. *)
Definition note_alloc_region_limit_reached (s : state) (purpose : GCAllocPurpose) : state :=
  match purpose with
  | GCAllocForSurvived =>
      mkState (s_objs s) (s_to s) (s_displaced s) (s_preserved s) (s_history s) 0 (s_workers s)
  | GCAllocForTenured => s
  end.

Inductive transition : state → state → Prop :=
  | transition_step k s s' : step k s s' → transition s s'
  | transition_push s k w o f :
      s_workers s !! k = Some w → s_objs s !! o = Some f → transition s (put_worker s k (push_on_queue w o))
  | transition_limit s : transition s (note_alloc_region_limit_reached s GCAllocForSurvived).

End evacuation.

Definition initial (objs : gmap Z FromObject) (displaced : Z → Z) (threshold : Z) (tasks : list (list Z)) : state :=
  mkState objs ∅ displaced [] [] threshold
    ((λ ts, mkWorker Idle ts [] AgeTable.clear ∅ []) <$> tasks).

End Evacuation.

(** * The forwarding pointers of an evacuation *)

Module EvacuationFacts.
Import Evacuation.

(** What the copy of an object with header [m] may have as its header. *)
Definition aged (m m' : Z) : Prop :=
  m' = m ∨ has_displaced_mark_helper m = false ∧ m' = incr_age m.

Definition won (q : pc) : list (Z * Z) :=
  match q with Won o _ _ _ p => [(o, p)] | _ => [] end.
Definition reserved (q : pc) : list Z :=
  match q with Won _ _ _ _ _ => [] | _ => option_list (pending q) end.

(** A collection set before the evacuation: no header is marked. *)
Definition collection_set (objs : gmap Z FromObject) : Prop :=
  ∀ o f, objs !! o = Some f → 0 < o ∧ o mod 8 = 0 ∧ is_marked (f_mark f) = false.

(** The objects once those in [fwd] have been forwarded. *)
Definition forwarded (objs : gmap Z FromObject) (fwd : gmap Z Z) : gmap Z FromObject :=
  map_imap (λ o f, Some (match fwd !! o with Some p => set_mark f (encode_pointer_as_mark p) | None => f end)) objs.

Section facts.
Variable ubl : bool.
Variable objs : gmap Z FromObject.
Hypothesis Hobjs : collection_set objs.

(** What the evacuation of [o] to [p] adds to entry [y] of the surviving
    words, and to the preserved marks. *)
Definition survived (y : Z) (h : Z * Z) : Z :=
  match objs !! h.1 with
  | Some f => if negb (h.2 =? h.1) && (f_young_index_in_cset f + 1 =? y) then word_sz f else 0
  | None => 0
  end.
Definition preserved (h : Z * Z) : list (Z * Z) :=
  match objs !! h.1 with
  | Some f => if (h.2 =? h.1) && must_be_preserved_for_promotion_failure ubl (f_prototype f) (f_mark f)
              then [(h.1, f_mark f)] else []
  | None => []
  end.

Definition header_of (fwd : gmap Z Z) (o m : Z) : Prop :=
  ∃ f, objs !! o = Some f ∧ (m = f_mark f ∨ is_Some (fwd !! o)).
Definition target (o p : Z) : Prop := p = o ∨ 0 < p ∧ p mod 8 = 0 ∧ objs !! p = None.

Definition pc_ok (fwd : gmap Z Z) (q : pc) : Prop :=
  match q with
  | Idle => True
  | Fetched o | Checked o | Failing o => is_Some (objs !! o)
  | Loaded o m a | Destined o m a _ => header_of fwd o m
  | Forwarding o m a t p => header_of fwd o m ∧ target o p
  | Exchanging o m a t p oldMark => header_of fwd o m ∧ target o p ∧ f_mark <$> objs !! o = Some oldMark
  | Lost o t p => is_Some (fwd !! o) ∧ target o p
  | Won o m a t p => fwd !! o = Some p ∧ f_mark <$> objs !! o = Some m
  end.

Record worker_ok (fwd : gmap Z Z) (w : worker) : Prop := mkWorkerOk {
  wo_pc : pc_ok fwd (w_pc w);
  wo_tasks : ∀ o, o ∈ w_tasks w → is_Some (objs !! o);
  wo_updated : ∀ o r, (o, r) ∈ w_updated w → fwd !! o = Some r;
  wo_ages : length (w_age_table w) = 16%nat
}.

(** The invariant: [fwd] are the forwarding pointers installed so far. *)
Record inv (fwd : gmap Z Z) (s : state) : Prop := mkInv {
  i_objs : s_objs s = forwarded objs fwd;
  i_fwd : ∀ o p, fwd !! o = Some p → is_Some (objs !! o) ∧ target o p;
  i_installed : s_history s ++ (s_workers s ≫= λ w, won (w_pc w)) ≡ₚ map_to_list fwd;
  i_distinct : NoDup ((s_workers s ≫= λ w, reserved (w_pc w)) ++ (map_to_list fwd).*2);
  i_workers : ∀ k w, s_workers s !! k = Some w → worker_ok fwd w;
  i_copied : ∀ o p, (o, p) ∈ s_history s → p ≠ o →
    ∃ f m', objs !! o = Some f ∧ s_to s !! p = Some (m', f_body f) ∧ aged (f_mark f) m';
  i_copies : ∀ p c, s_to s !! p = Some c → ∃ o, (o, p) ∈ s_history s ∧ p ≠ o;
  i_preserved : s_preserved s = s_history s ≫= preserved;
  i_survived : ∀ y, u64 (sum_by (λ w, default 0 (w_surviving_words w !! y)) (s_workers s)) =
                    u64 (sum_by (survived y) (s_history s));
  i_profiled : (s_workers s ≫= λ w, (w_profiled w).*1) ≡ₚ (λ c, c.2.1) <$> map_to_list (s_to s)
}.

Lemma forwarded_lookup fwd o :
  forwarded objs fwd !! o =
    (λ f, match fwd !! o with Some p => set_mark f (encode_pointer_as_mark p) | None => f end) <$> objs !! o.
Proof. unfold forwarded. rewrite map_lookup_imap. by destruct (objs !! o). Qed.

Lemma forwarded_insert fwd o f p :
  objs !! o = Some f →
  forwarded objs (<[o := p]> fwd) = <[o := set_mark f (encode_pointer_as_mark p)]> (forwarded objs fwd).
Proof.
  intros Hf. apply map_eq. intros i. rewrite forwarded_lookup.
  destruct (decide (i = o)) as [->|Hi].
  - by rewrite !lookup_insert_eq, Hf.
  - by rewrite !lookup_insert_ne, forwarded_lookup.
Qed.

Lemma encode_target o p :
  is_Some (objs !! o) → target o p →
  is_marked (encode_pointer_as_mark p) = true ∧ decode_pointer ubl (encode_pointer_as_mark p) = p.
Proof.
  intros [f Hf] Ht. assert (0 <= p ∧ p mod 8 = 0) as [Hp Hp8].
  { destruct Ht as [->|(? & ? & ?)]; [destruct (Hobjs o f Hf) as (? & ? & ?)|]; lia. }
  destruct (encode_pointer_roundtrip ubl p) as (? & ? & ?); [lia|Z.to_euclidean_division_equations; lia|done].
Qed.

(** Reading a header: it is the original one, or the object is forwarded. *)
Lemma read_header fwd s o f :
  inv fwd s → s_objs s !! o = Some f →
  ∃ f0, objs !! o = Some f0 ∧
    match fwd !! o with
    | Some p => f = set_mark f0 (encode_pointer_as_mark p) ∧ is_marked (f_mark f) = true ∧
                decode_pointer ubl (f_mark f) = p
    | None => f = f0 ∧ is_marked (f_mark f) = false
    end.
Proof.
  intros Hi. rewrite (i_objs _ _ Hi), forwarded_lookup. destruct (objs !! o) as [f0|] eqn:Hf; [|done].
  intros [= <-]. exists f0. split; [done|]. destruct (fwd !! o) as [p|] eqn:Hp.
  - split; [done|]. apply (encode_target o); [by eexists|]. by apply (i_fwd _ _ Hi).
  - split; [done|]. by apply (Hobjs o).
Qed.

Lemma header_read fwd s o f : inv fwd s → s_objs s !! o = Some f → header_of fwd o (f_mark f).
Proof.
  intros Hi Hf. destruct (read_header fwd s o f Hi Hf) as (f0 & H0 & H). exists f0. split; [done|].
  destruct (fwd !! o); [right; by eexists|left; by destruct H as [-> _]].
Qed.

Lemma header_of_in fwd o m : header_of fwd o m → is_Some (objs !! o).
Proof. intros (f & Hf & _). by eexists. Qed.

(** More forwarding pointers do not invalidate what a worker knows. *)
Lemma pc_ok_mono fwd fwd' q : fwd ⊆ fwd' → pc_ok fwd q → pc_ok fwd' q.
Proof.
  intros Hs. assert (Hl : ∀ o p, fwd !! o = Some p → fwd' !! o = Some p) by (intros; by eapply lookup_weaken).
  assert (Hsome : ∀ o, is_Some (fwd !! o) → is_Some (fwd' !! o)) by (intros ? [? ?%Hl]; by eexists).
  assert (Hh : ∀ o m, header_of fwd o m → header_of fwd' o m).
  { intros o m (f & ? & [?|?]); exists f; eauto. }
  destruct q; cbn; naive_solver.
Qed.

Lemma worker_ok_mono fwd fwd' w : fwd ⊆ fwd' → worker_ok fwd w → worker_ok fwd' w.
Proof.
  intros Hs [Hp Ht Hu Ha]. split; [by eapply pc_ok_mono|done| |done].
  intros. eapply lookup_weaken; [by apply Hu|done].
Qed.

(** ** Steps that only change one worker *)

Lemma won_ok fwd s k w o m a t p :
  inv fwd s → s_workers s !! k = Some w → w_pc w = Won o m a t p →
  ∃ f, objs !! o = Some f ∧ fwd !! o = Some p ∧ m = f_mark f.
Proof.
  intros Hi Hk E. pose proof (wo_pc _ _ (i_workers _ _ Hi k w Hk)) as H. rewrite E in H.
  destruct H as [Hf Hm]. destruct (objs !! o) as [f|]; [|done]. injection Hm as <-. by exists f.
Qed.

Lemma pc_in fwd s k w : inv fwd s → s_workers s !! k = Some w → pc_ok fwd (w_pc w).
Proof. intros Hi Hk. exact (wo_pc _ _ (i_workers _ _ Hi k w Hk)). Qed.

(** An address that is neither reserved nor a copy is no forwardee. *)
Lemma fresh_unused fwd s p :
  inv fwd s → fresh s p → p ∉ (s_workers s ≫= λ w, reserved (w_pc w)) ++ (map_to_list fwd).*2.
Proof.
  intros Hi (Hp0 & Hp8 & Hpo & Hpt & Hpw) Hin. rewrite (i_objs _ _ Hi), forwarded_lookup in Hpo.
  destruct (objs !! p) eqn:Hop; [done|]. clear Hpo.
  apply elem_of_app in Hin as [(w & Hr & (k & Hk)%list_elem_of_lookup)%list_elem_of_bind|Hin].
  - apply (Hpw k w Hk). destruct (w_pc w) as [| | | | | |???? q|???? q|?? q|]; cbn in Hr |- *;
      try (by apply not_elem_of_nil in Hr); destruct (q =? _); set_solver.
  - apply list_elem_of_fmap in Hin as ([o p'] & -> & Hin). cbn in *.
    assert (Hne : p' ≠ o).
    { intros ->. apply elem_of_map_to_list in Hin. destruct (i_fwd _ _ Hi _ _ Hin) as [[? ?] _]. congruence. }
    rewrite <- (i_installed _ _ Hi) in Hin. apply elem_of_app in Hin as [Hh|Hw].
    + destruct (i_copied _ _ Hi _ _ Hh Hne) as (? & ? & ? & ? & _). congruence.
    + apply list_elem_of_bind in Hw as (w & Hr & (k & Hk)%list_elem_of_lookup). apply (Hpw k w Hk).
      destruct (w_pc w); cbn in Hr |- *; try (by apply not_elem_of_nil in Hr).
      apply list_elem_of_singleton in Hr as [= <- <-]. by rewrite (proj2 (Z.eqb_neq _ _)).
Qed.

(** A worker may change its program counter as long as it has not installed a
    forwarding pointer and takes no address but a fresh one. *)
Lemma inv_local fwd s k w w' :
  inv fwd s → s_workers s !! k = Some w → worker_ok fwd w' →
  won (w_pc w) = [] → won (w_pc w') = [] →
  (reserved (w_pc w') = [] ∨ reserved (w_pc w') = reserved (w_pc w) ∨
   ∃ p, reserved (w_pc w') = [p] ∧ fresh s p) →
  w_surviving_words w' = w_surviving_words w → w_profiled w' = w_profiled w →
  inv fwd (put_worker s k w').
Proof.
  intros Hi Hk Hw' Hw0 Hw1 Hr Hs Hp. pose proof Hi as [Ho Hf Hin Hd Hws Hc Ht Hpr Hsu Hpf].
  split; cbn [put_worker s_objs s_to s_displaced s_preserved s_history s_workers]; try done.
  - pose proof (bind_insert_perm (λ w, won (w_pc w)) _ k w w' Hk) as H. cbn in H.
    rewrite Hw0, Hw1, !app_nil_r in H. by rewrite H.
  - pose proof (bind_insert_perm (λ w, reserved (w_pc w)) _ k w w' Hk) as H. cbn beta in H.
    destruct Hr as [Hr|[Hr|(p & Hr & Hp')]].
    + rewrite Hr, app_nil_r in H. rewrite <- H in Hd. rewrite <- app_assoc in Hd.
      apply NoDup_app in Hd as (Hd1 & Hd2 & Hd3). apply NoDup_app in Hd3 as (_ & _ & Hd3).
      apply NoDup_app. split_and!; [done| |done]. intros x Hx. specialize (Hd2 x Hx). set_solver.
    + rewrite Hr in H. apply Permutation_app_inv_r in H. by rewrite H.
    + assert (Hd' : NoDup (p :: (s_workers s ≫= λ w, reserved (w_pc w)) ++ (map_to_list fwd).*2)).
      { constructor; [by apply (fresh_unused fwd)|done]. }
      rewrite app_comm_cons, (Permutation_cons_append _ p) in Hd'. rewrite Hr in H. rewrite <- H in Hd'.
      rewrite <- app_assoc in Hd'. apply NoDup_app in Hd' as (Hd1 & Hd2 & Hd3).
      apply NoDup_app in Hd3 as (_ & _ & Hd3). apply NoDup_app. split_and!; [done| |done].
      intros x Hx. specialize (Hd2 x Hx). set_solver.
  - intros j v [(<- & <- & _)|[_ Hj]]%list_lookup_insert_Some; [done|by eapply Hws].
  - intros y. rewrite (sum_by_insert _ _ k w) by done. rewrite Hs. rewrite <- Hsu. f_equal. lia.
  - pose proof (bind_insert_perm (λ w, (w_profiled w).*1) _ k w w' Hk) as H. cbn beta in H.
    rewrite Hp in H. apply Permutation_app_inv_r in H. by rewrite H.
Qed.

(** ** Installing a forwarding pointer *)

Lemma not_forwardee fwd s o :
  inv fwd s → is_Some (objs !! o) → fwd !! o = None →
  o ∉ (s_workers s ≫= λ w, reserved (w_pc w)) ++ (map_to_list fwd).*2.
Proof.
  intros Hi [f Hf] Hn Hin.
  apply elem_of_app in Hin as [(w & Hr & (k & Hk)%list_elem_of_lookup)%list_elem_of_bind|Hin].
  - pose proof (pc_in fwd s k w Hi Hk) as Hpc.
    destruct (w_pc w) as [| | | | | |? ? ? ? q|? ? ? ? q|? ? q|]; cbn in Hr, Hpc; try (by apply not_elem_of_nil in Hr);
      destruct (Z.eqb_spec q o0); try (by apply not_elem_of_nil in Hr); apply list_elem_of_singleton in Hr as ->;
      unfold target in Hpc; naive_solver.
  - apply list_elem_of_fmap in Hin as ([o' p'] & -> & Hin%elem_of_map_to_list). cbn in *.
    destruct (i_fwd _ _ Hi _ _ Hin) as [_ [->|(_ & _ & ?)]]; congruence.
Qed.

Lemma inv_exchange fwd s k w o m a t p oldMark f :
  inv fwd s → s_workers s !! k = Some w → w_pc w = Exchanging o m a t p oldMark →
  s_objs s !! o = Some f → f_mark f = oldMark →
  fwd !! o = None ∧
  inv (<[o := p]> fwd)
    (mkState (<[o := set_mark f (encode_pointer_as_mark p)]> (s_objs s)) (s_to s) (s_displaced s)
       (s_preserved s) (s_history s) (s_tenuring_threshold s) (<[k := with_pc w (Won o m a t p)]> (s_workers s))).
Proof.
  intros Hi Hk E Hf Hm. pose proof (pc_in fwd s k w Hi Hk) as Hpc. rewrite E in Hpc.
  destruct Hpc as (Hh & Ht & Hold).
  destruct (read_header fwd s o f Hi Hf) as (f0 & H0 & Hr). rewrite H0 in Hold. injection Hold as Hold.
  destruct (Hobjs o f0 H0) as (_ & _ & Hu).
  destruct (fwd !! o) as [q|] eqn:Hq; [destruct Hr as (_ & Hr & _); congruence|]. destruct Hr as [-> _].
  split; [done|]. pose proof Hi as [Ho Hfw Hin Hd Hws Hc Hto Hpr Hsu Hpf].
  assert (Hsub : fwd ⊆ <[o := p]> fwd) by by apply insert_subseteq.
  split; cbn [s_objs s_to s_displaced s_preserved s_history s_workers]; try done.
  - by rewrite Ho, (forwarded_insert _ _ f0).
  - intros i q [(<- & <-)|(? & ?)]%lookup_insert_Some; [by split; [eexists|]|by apply Hfw].
  - pose proof (bind_insert_perm (λ w, won (w_pc w)) _ k w (with_pc w (Won o m a t p)) Hk) as H. cbn in H.
    rewrite E, app_nil_r in H. rewrite H, app_assoc, Hin, map_to_list_insert by done.
    by rewrite <- Permutation_cons_append.
  - rewrite map_to_list_insert by done. cbn [fmap list_fmap snd].
    pose proof (bind_insert_perm (λ w, reserved (w_pc w)) _ k w (with_pc w (Won o m a t p)) Hk) as H. cbn in H.
    rewrite E, app_nil_r in H. cbn in H.
    destruct (Z.eqb_spec p o) as [->|Hne]; cbn in H.
    + rewrite app_nil_r in H. rewrite H, <- Permutation_middle. constructor; [|done].
      apply (not_forwardee fwd); [done|by eexists|done].
    + rewrite <- H, <- app_assoc in Hd. exact Hd.
  - intros j v [(<- & <- & _)|[_ Hj]]%list_lookup_insert_Some; [|by eapply worker_ok_mono, Hws].
    destruct (worker_ok_mono _ _ w Hsub (Hws k w Hk)) as [_ Hts Hup Ha]. split; [|done|done|done].
    cbn. rewrite lookup_insert_eq, H0. split; [done|]. cbn. f_equal.
    destruct Hh as (f1 & H1 & [->|[? Hx]]); [congruence|congruence].
  - intros y. rewrite (sum_by_insert _ _ k w) by done. rewrite <- Hsu. f_equal. cbn. lia.
  - pose proof (bind_insert_perm (λ w, (w_profiled w).*1) _ k w (with_pc w (Won o m a t p)) Hk) as H. cbn in H.
    apply Permutation_app_inv_r in H. by rewrite H.
Qed.

(** ** Copying *)

(** The worker that has installed the pointer is the only one to copy. *)
Lemma not_copied fwd s k w o m a t p :
  inv fwd s → s_workers s !! k = Some w → w_pc w = Won o m a t p → p ≠ o → s_to s !! p = None.
Proof.
  intros Hi Hk E Hne. destruct (s_to s !! p) as [c|] eqn:Hp; [|done]. exfalso.
  destruct (i_copies _ _ Hi p c Hp) as (o' & Hh & _).
  pose proof (i_installed _ _ Hi) as Hin. pose proof (NoDup_map_to_list fwd) as Hnd. rewrite <- Hin in Hnd.
  assert (Hw : (o, p) ∈ s_workers s ≫= λ w, won (w_pc w)).
  { apply list_elem_of_bind. exists w. split; [rewrite E; by left|by eapply list_elem_of_lookup_2]. }
  apply NoDup_app in Hnd as (_ & Hdis & _). apply (Hdis (o, p)); [|done].
  assert (o' = o) as <-; [|done].
  assert (H1 : (o', p) ∈ map_to_list fwd) by (rewrite <- Hin; set_solver).
  assert (H2 : (o, p) ∈ map_to_list fwd) by (rewrite <- Hin; set_solver).
  pose proof (i_distinct _ _ Hi) as Hd. apply NoDup_app in Hd as (_ & _ & Hd).
  apply list_elem_of_lookup in H1 as (i & Hi1). apply list_elem_of_lookup in H2 as (j & Hj).
  assert (i = j) as ->; [|congruence].
  eapply NoDup_lookup; [exact Hd| |]; rewrite list_lookup_fmap; [by rewrite Hi1|by rewrite Hj].
Qed.

(** The worker records the evacuation and goes on. *)
Lemma inv_finish fwd s k w w' o m a t p to' d' pres' :
  inv fwd s → s_workers s !! k = Some w → w_pc w = Won o m a t p → w_pc w' = Idle → worker_ok fwd w' →
  (p ≠ o → ∃ f m', objs !! o = Some f ∧ to' = <[p := (m', f_body f)]> (s_to s) ∧ aged (f_mark f) m' ∧
     w_profiled w' = (m', a) :: w_profiled w) →
  (p = o → to' = s_to s ∧ w_profiled w' = w_profiled w) →
  pres' = preserved (o, p) ++ s_preserved s →
  (∀ y, u64 (default 0 (w_surviving_words w' !! y)) =
        u64 (default 0 (w_surviving_words w !! y) + survived y (o, p))) →
  inv fwd (mkState (s_objs s) to' d' pres' ((o, p) :: s_history s) (s_tenuring_threshold s) (<[k := w']> (s_workers s))).
Proof.
  intros Hi Hk E E' Hw' Hcopy Hself -> Hsv. pose proof (not_copied fwd s k w o m a t p Hi Hk E) as Hnc.
  pose proof Hi as [Ho Hfw Hin Hd Hws Hc Hto Hpr Hsu Hpf].
  split; cbn [s_objs s_to s_displaced s_preserved s_history s_workers]; try done.
  - pose proof (bind_insert_perm (λ w, won (w_pc w)) _ k w w' Hk) as H. cbn in H.
    rewrite E, E', app_nil_r in H. rewrite <- Hin, <- H, (Permutation_app_comm _ (won _)). cbn. apply Permutation_middle.
  - pose proof (bind_insert_perm (λ w, reserved (w_pc w)) _ k w w' Hk) as H. cbn in H.
    rewrite E, E', !app_nil_r in H. by rewrite H.
  - intros j v [(<- & <- & _)|[_ Hj]]%list_lookup_insert_Some; [done|by eapply Hws].
  - intros i q [[= -> ->]|Hh]%elem_of_cons Hne.
    + destruct (Hcopy Hne) as (f & m' & Hf & -> & Hag & _). exists f, m'. by rewrite lookup_insert_eq.
    + destruct (Hc i q Hh Hne) as (f & m' & Hf & Hq & Hag). exists f, m'. split_and!; [done| |done].
      destruct (decide (p = o)) as [->|Hpo]; [by rewrite (proj1 (Hself eq_refl))|].
      destruct (Hcopy Hpo) as (? & ? & _ & -> & _). rewrite lookup_insert_ne; [done|].
      intros ->. by rewrite Hnc in Hq.
  - intros q c Hq. destruct (decide (p = o)) as [->|Hpo].
    + rewrite (proj1 (Hself eq_refl)) in Hq. destruct (Hto q c Hq) as (i & ? & ?). exists i. set_solver.
    + destruct (Hcopy Hpo) as (? & ? & _ & -> & _). apply lookup_insert_Some in Hq as [(<- & _)|[_ Hq]].
      * exists o. set_solver.
      * destruct (Hto q c Hq) as (i & ? & ?). exists i. set_solver.
  - by rewrite Hpr.
  - intros y. rewrite (sum_by_insert _ _ k w) by done. cbn [sum_by]. specialize (Hsu y). specialize (Hsv y).
    rewrite !u64_mod in *. revert Hsu Hsv. generalize (sum_by (λ w, default 0 (w_surviving_words w !! y)) (s_workers s)).
    generalize (sum_by (survived y) (s_history s)), (survived y (o, p)), (default 0 (w_surviving_words w' !! y)).
    intros. Z.to_euclidean_division_equations. lia.
  - pose proof (bind_insert_perm (λ w, (w_profiled w).*1) _ k w w' Hk) as H. cbn beta in H.
    destruct (decide (p = o)) as [->|Hpo].
    + destruct (Hself eq_refl) as [-> Hp']. rewrite Hp' in H. apply Permutation_app_inv_r in H. by rewrite H.
    + destruct (Hcopy Hpo) as (f & m' & _ & -> & _ & Hp'). rewrite Hp', fmap_cons in H. cbn [fst] in H.
      rewrite map_to_list_insert by by apply Hnc. cbn [fmap list_fmap fst snd].
      rewrite <- Permutation_middle, app_comm_cons in H. apply Permutation_app_inv_r in H. by rewrite H, Hpf.
Qed.

Lemma object_age_range d m : 0 <= object_age d m <= 15.
Proof.
  unfold object_age, age, mask_bits. change age_mask with (2 ^ 4 - 1).
  destruct (has_displaced_mark_helper m); rewrite land_low_ones by lia;
    match goal with |- context [?x mod _] => pose proof (Z.mod_pos_bound x (2 ^ 4)) end; lia.
Qed.

Lemma account_defined w d f tracked m' a :
  length (w_age_table w) = 16%nat → ∃ w', account w d f tracked m' a = Some w'.
Proof.
  intros Hl. unfold account. destruct tracked; [|by eexists]. unfold AgeTable.add.
  pose proof (object_age_range d m').
  destruct (lookup_lt_is_Some_2 (w_age_table w) (Z.to_nat (object_age d m'))) as [z ->]; [lia|]. by eexists.
Qed.

Lemma account_spec w d f tracked m' a w' :
  account w d f tracked m' a = Some w' →
  w_tasks w' = w_tasks w ∧ w_updated w' = w_updated w ∧ length (w_age_table w') = length (w_age_table w) ∧
  w_profiled w' = (m', a) :: w_profiled w ∧
  w_surviving_words w' =
    <[f_young_index_in_cset f + 1 :=
        u64 (default 0 (w_surviving_words w !! (f_young_index_in_cset f + 1)) + word_sz f)]> (w_surviving_words w).
Proof.
  unfold account, AgeTable.add. intros E.
  destruct tracked; [destruct (w_age_table w !! _); [|done]|]; cbn [mbind option_bind] in E;
    injection E as <-; cbn; by rewrite ?length_insert.
Qed.

Lemma install_aged d tracked m m' d' : install_mark d tracked m = (m', d') → aged m m'.
Proof.
  unfold install_mark, aged. destruct tracked; [destruct (has_displaced_mark_helper m) eqn:E|]; intros [= <- <-]; auto.
Qed.

Lemma inv_copy fwd s k w o m a t p f m' d' w' :
  inv fwd s → s_workers s !! k = Some w → w_pc w = Won o m a t p → p ≠ o → s_objs s !! o = Some f →
  let tracked := track_object_age t in
  install_mark (s_displaced s) tracked m = (m', d') →
  account w d' f tracked m' a = Some w' →
  inv fwd (mkState (s_objs s) (<[p := (m', f_body f)]> (s_to s)) d' (s_preserved s)
             ((o, p) :: s_history s) (s_tenuring_threshold s) (<[k := finish w' o p]> (s_workers s))).
Proof.
  intros Hi Hk E Hne Hf tracked Hm Hacc. destruct (won_ok fwd s k w o m a t p Hi Hk E) as (f0 & H0 & Hfw & ->).
  destruct (read_header fwd s o f Hi Hf) as (f1 & H1 & Hr). rewrite Hfw in Hr. destruct Hr as [-> _].
  assert (f1 = f0) as -> by congruence. destruct (account_spec _ _ _ _ _ _ _ Hacc) as (Ht & Hu & Hl & Hp & Hs).
  destruct (i_workers _ _ Hi k w Hk) as [_ Hts Hup Ha].
  eapply inv_finish; try done.
  - split; cbn; [done|by rewrite Ht| |by rewrite Hl].
    intros i r [[= -> ->]|Hin]%elem_of_cons; [done|]. apply Hup. by rewrite <- Hu.
  - intros _. exists f0, m'. split_and!; [done|done|by eapply install_aged|by rewrite <- Hp].
  - unfold preserved. cbn. by rewrite H0, (proj2 (Z.eqb_neq p o)).
  - intros y. cbn [finish w_surviving_words]. rewrite Hs. unfold survived. cbn [fst snd].
    rewrite H0, (proj2 (Z.eqb_neq p o)) by done. cbn [negb andb].
    change (f_young_index_in_cset (set_mark f0 _)) with (f_young_index_in_cset f0).
    change (word_sz (set_mark f0 _)) with (word_sz f0).
    destruct (Z.eqb_spec (f_young_index_in_cset f0 + 1) y) as [->|Hy].
    + rewrite lookup_insert_eq. apply u64_small, u64_range.
    + rewrite lookup_insert_ne by done. f_equal. lia.
Qed.

Lemma inv_self fwd s k w o m a t f :
  inv fwd s → s_workers s !! k = Some w → w_pc w = Won o m a t o → s_objs s !! o = Some f →
  inv fwd (mkState (s_objs s) (s_to s) (s_displaced s)
             (preserve_mark_if_necessary ubl (s_preserved s) f o m)
             ((o, o) :: s_history s) (s_tenuring_threshold s) (<[k := finish w o o]> (s_workers s))).
Proof.
  intros Hi Hk E Hf. destruct (won_ok fwd s k w o m a t o Hi Hk E) as (f0 & H0 & Hfw & ->).
  destruct (read_header fwd s o f Hi Hf) as (f1 & H1 & Hr). rewrite Hfw in Hr. destruct Hr as [-> _].
  assert (f1 = f0) as -> by congruence. destruct (i_workers _ _ Hi k w Hk) as [_ Hts Hup Ha].
  eapply inv_finish; try done.
  - split; cbn; [done|done| |done]. intros i r [[= -> ->]|Hin]%elem_of_cons; [done|]. by apply Hup.
  - unfold preserved, preserve_mark_if_necessary. cbn [fst snd]. rewrite H0, Z.eqb_refl. cbn [andb set_mark f_prototype].
    by destruct (must_be_preserved_for_promotion_failure _ _ _).
  - intros y. unfold survived. cbn [fst snd]. rewrite H0, Z.eqb_refl. cbn [negb andb]. f_equal. cbn. lia.
Qed.

(** ** Every transition *)

Lemma worker_ok_pc fwd w q : worker_ok fwd w → pc_ok fwd q → worker_ok fwd (with_pc w q).
Proof. by intros [? ? ? ?] ?. Qed.

Lemma worker_ok_finish fwd w o r : worker_ok fwd w → fwd !! o = Some r → worker_ok fwd (finish w o r).
Proof.
  intros [? ? Hup ?] Hr. split; try done. intros i q [[= -> ->]|Hin]%elem_of_cons; [done|by apply Hup].
Qed.

Lemma read_or_lose fwd s o m a t p f :
  inv fwd s → s_objs s !! o = Some f → header_of fwd o m → target o p →
  pc_ok fwd (forward_to_atomic_loop o m a t p (f_mark f)).
Proof.
  unfold forward_to_atomic_loop. intros Hi Hf Hh Ht. destruct (read_header fwd s o f Hi Hf) as (f0 & H0 & Hr).
  destruct (fwd !! o) as [q|] eqn:Hq.
  - destruct Hr as (_ & -> & _). split; [by eexists|done].
  - destruct Hr as (-> & ->). cbn. by rewrite H0.
Qed.

(** [fwd] only grows: a forwarding pointer is never overwritten. *)
Lemma evac_step fwd k s s' :
  inv fwd s → step ubl k s s' → ∃ fwd', fwd ⊆ fwd' ∧ inv fwd' s'.
Proof.
  intros Hi Hs. destruct Hs as
    [s k w o tasks Hk E Ht|s k w o f Hk E Hf Hm|s k w o f Hk E Hf Hm|s k w o f Hk E Hf|s k w o m a f Hk E Hf|s k w o m a t p Hk E Hp
    |s k w o m a t Hk E|s k w o f Hk E Hf|s k w o m a t p f Hk E Hf|s k w o m a t p oldMark f Hk E Hf Hm
    |s k w o m a t p oldMark f Hk E Hf Hm|s k w o t p f Hk E Hf|s k w o m a t p f m' d' w' Hk E Hne Hf tracked Hm Hacc
    |s k w o m a t f Hk E Hf];
    pose proof (i_workers _ _ Hi k w Hk) as Hw; pose proof (wo_pc _ _ Hw) as Hpc; rewrite E in Hpc.
  10: { destruct (inv_exchange fwd s k w o m a t p oldMark f Hi Hk E Hf Hm) as [Hn Hi'].
       exists (<[o := p]> fwd). split; [by apply insert_subseteq|done]. }
  all: exists fwd; split; [done|].
  12: by eapply inv_copy.
  12: by eapply inv_self.
  all: eapply inv_local; [done|exact Hk| |rewrite E; done| | |done|done].
  all: rewrite ?E; cbn [with_pc finish w_pc]; try (by left); try done.
  - destruct Hw as [_ Hts Hup Ha]. split; try done; [|intros; apply Hts; rewrite Ht; by right].
    apply Hts. rewrite Ht. by left.
  - destruct (read_header fwd s o f Hi Hf) as (f0 & H0 & Hr). apply worker_ok_finish; [done|].
    destruct (fwd !! o); [by destruct Hr as (_ & _ & ->)|destruct Hr; congruence].
  - by apply worker_ok_pc.
  - apply worker_ok_pc; [done|]. by eapply header_read.
  - by apply worker_ok_pc.
  - apply worker_ok_pc; [done|]. split; [done|]. right. destruct Hp as (? & ? & Hpo & _).
    rewrite (i_objs _ _ Hi), forwarded_lookup in Hpo. by destruct (objs !! p).
  - destruct (Z.eqb_spec p o) as [->|]; [left; cbn; by rewrite Z.eqb_refl|].
    right. right. exists p. cbn. by rewrite (proj2 (Z.eqb_neq p o)).
  - apply worker_ok_pc; [done|]. by eapply header_of_in.
  - apply worker_ok_pc; [done|]. split; [by eapply header_read|by left].
  - left. cbn. by rewrite Z.eqb_refl.
  - destruct Hpc. apply worker_ok_pc; [done|]. by eapply read_or_lose.
  - unfold forward_to_atomic_loop. by destruct (is_marked (f_mark f)).
  - right. left. unfold forward_to_atomic_loop. by destruct (is_marked (f_mark f)).
  - destruct Hpc as (? & ? & ?). apply worker_ok_pc; [done|]. by eapply read_or_lose.
  - unfold forward_to_atomic_loop. by destruct (is_marked (f_mark f)).
  - right. left. unfold forward_to_atomic_loop. by destruct (is_marked (f_mark f)).
  - destruct (read_header fwd s o f Hi Hf) as (f0 & H0 & Hr). apply worker_ok_finish; [done|].
    destruct Hpc as [[q Hq] _]. rewrite Hq in *. by destruct Hr as (_ & _ & ->).
Qed.

Lemma inv_push fwd s k w o f :
  inv fwd s → s_workers s !! k = Some w → s_objs s !! o = Some f → inv fwd (put_worker s k (push_on_queue w o)).
Proof.
  intros Hi Hk Hf. destruct (read_header fwd s o f Hi Hf) as (f0 & H0 & _).
  pose proof (i_workers _ _ Hi k w Hk) as [Hpc Hts Hup Ha]. pose proof Hi as [Ho Hfw Hin Hd Hws Hc Hto Hpr Hsu Hpf].
  split; cbn [put_worker s_objs s_to s_displaced s_preserved s_history s_workers]; try done.
  - pose proof (bind_insert_perm (λ w, won (w_pc w)) _ k w (push_on_queue w o) Hk) as H.
    apply Permutation_app_inv_r in H. by rewrite H.
  - pose proof (bind_insert_perm (λ w, reserved (w_pc w)) _ k w (push_on_queue w o) Hk) as H.
    apply Permutation_app_inv_r in H. by rewrite H.
  - intros j v [(<- & <- & _)|[_ Hj]]%list_lookup_insert_Some; [|by eapply Hws].
    split; try done. intros i [->|Hi']%elem_of_cons; [by eexists|by apply Hts].
  - intros y. rewrite (sum_by_insert _ _ k w) by done. rewrite <- Hsu. f_equal. cbn. lia.
  - pose proof (bind_insert_perm (λ w, (w_profiled w).*1) _ k w (push_on_queue w o) Hk) as H.
    apply Permutation_app_inv_r in H. by rewrite H.
Qed.

Lemma inv_limit fwd s t : inv fwd s → inv fwd (note_alloc_region_limit_reached s t).
Proof. intros Hi. destruct t; [done|]. by destruct Hi. Qed.

Lemma evac_initial d threshold tasks :
  (∀ ts o, ts ∈ tasks → o ∈ ts → is_Some (objs !! o)) → inv ∅ (initial objs d threshold tasks).
Proof.
  intros Ht. assert (Hw : ∀ w, w ∈ s_workers (initial objs d threshold tasks) →
    ∃ ts, ts ∈ tasks ∧ w = mkWorker Idle ts [] AgeTable.clear ∅ []).
  { intros w (ts & -> & ?)%list_elem_of_fmap. by exists ts. }
  split; cbn [initial s_objs s_to s_displaced s_preserved s_history]; try done.
  - apply map_eq. intros i. rewrite forwarded_lookup, lookup_empty. by destruct (objs !! i).
  - rewrite bind_empty, map_to_list_empty; [done|]. by intros w (ts & _ & ->)%Hw.
  - rewrite bind_empty, map_to_list_empty; [constructor|]. by intros w (ts & _ & ->)%Hw.
  - intros k w Hk%list_elem_of_lookup_2. destruct (Hw w Hk) as (ts & Hts & ->).
    split; cbn; [done|by intros o; apply Ht|by intros ? ? ?%not_elem_of_nil|done].
  - by intros o p ?%not_elem_of_nil.
  - intros y. cbn [sum_by]. rewrite (sum_by_ext _ (λ _, 0)); [|by intros w (ts & _ & ->)%Hw].
    f_equal. generalize (s_workers (initial objs d threshold tasks)). induction l; [done|done].
  - rewrite bind_empty, map_to_list_empty; [done|]. by intros w (ts & _ & ->)%Hw.
Qed.

Lemma evac_reachable d threshold tasks s :
  (∀ ts o, ts ∈ tasks → o ∈ ts → is_Some (objs !! o)) →
  rtc (transition ubl) (initial objs d threshold tasks) s → ∃ fwd, inv fwd s.
Proof.
  intros Ht Hr. pose proof (evac_initial d threshold tasks Ht) as Hi. revert Hi. generalize (∅ : gmap Z Z).
  induction Hr as [s|s s' s'' Hst _ IH]; intros fwd Hi; [by exists fwd|].
  destruct Hst as [k s s' Hst|s k w o f Hk Hf|s].
  - destruct (evac_step fwd k s s' Hi Hst) as (fwd' & _ & Hi'). by apply (IH fwd').
  - apply (IH fwd). by eapply inv_push.
  - apply (IH fwd). by apply inv_limit.
Qed.

(** ** Progress *)

Lemma present fwd s o : inv fwd s → is_Some (objs !! o) → ∃ f, s_objs s !! o = Some f.
Proof. intros Hi [f Hf]. rewrite (i_objs _ _ Hi), forwarded_lookup, Hf. by eexists. Qed.

Lemma step_possible fwd s k w :
  inv fwd s → s_workers s !! k = Some w → w_pc w ≠ Idle → ∃ s', step ubl k s s'.
Proof.
  intros Hi Hk Hne. pose proof (pc_in fwd s k w Hi Hk) as Hpc.
  assert (Hin : ∀ o m, header_of fwd o m → ∃ f, s_objs s !! o = Some f).
  { intros o m Hh. eapply present; [done|by eapply header_of_in]. }
  destruct (w_pc w) as [|o|o|o m a|o m a t|o|o m a t p|o m a t p oldMark|o t p|o m a t p] eqn:E; cbn in Hpc; [done| | | | | | | | |].
  - destruct (present fwd s o Hi Hpc) as [f Hf].
    destruct (is_marked (f_mark f)) eqn:Hm; eexists; [by eapply step_forwarded|by eapply step_not_forwarded].
  - destruct (present fwd s o Hi Hpc) as [f Hf]. eexists. by eapply step_load.
  - destruct (Hin o m Hpc) as [f Hf]. eexists. by eapply step_destination.
  - eexists. by eapply step_allocation_fails.
  - destruct (present fwd s o Hi Hpc) as [f Hf]. eexists. by eapply step_load_failing.
  - destruct (Hin o m (proj1 Hpc)) as [f Hf]. eexists. by eapply step_read.
  - destruct (Hin o m (proj1 Hpc)) as [f Hf].
    destruct (decide (f_mark f = oldMark)); eexists; [by eapply step_exchange|by eapply step_exchange_fails].
  - destruct Hpc as [[q Hq] _]. destruct (present fwd s o Hi) as [f Hf]; [by eapply (i_fwd _ _ Hi)|].
    eexists. by eapply step_lost.
  - destruct (present fwd s o Hi) as [f Hf]; [by eapply (i_fwd _ _ Hi), Hpc|].
    destruct (decide (p = o)) as [->|Hpo]; [eexists; by eapply step_self|].
    destruct (install_mark (s_displaced s) (track_object_age t) m) as [m' d'] eqn:Hm.
    destruct (account_defined w d' f (track_object_age t) m' a) as [w' Hw'];
      [by apply (wo_ages _ _ (i_workers _ _ Hi k w Hk))|].
    eexists. by eapply step_copy.
Qed.

(** A failed exchange means that the object has been forwarded. *)
Lemma exchange_fails_once fwd s k w o m a t p oldMark f :
  inv fwd s → s_workers s !! k = Some w → w_pc w = Exchanging o m a t p oldMark → s_objs s !! o = Some f →
  f_mark f ≠ oldMark → is_marked (f_mark f) = true.
Proof.
  intros Hi Hk E Hf Hne. pose proof (pc_in fwd s k w Hi Hk) as Hpc. rewrite E in Hpc.
  destruct Hpc as (_ & _ & Hold). destruct (read_header fwd s o f Hi Hf) as (f0 & H0 & Hr).
  rewrite H0 in Hold. injection Hold as Hold. destruct (fwd !! o); [by destruct Hr as (_ & -> & _)|].
  destruct Hr as [-> _]. congruence.
Qed.

Lemma step_others fwd s s' j k w :
  inv fwd s → s_workers s !! k = Some w → j ≠ k → step ubl j s s' → s_workers s' !! k = Some w.
Proof. intros Hi Hk Hne Hs. destruct Hs; cbn [put_worker s_workers]; by rewrite list_lookup_insert_ne. Qed.

(** ** The evacuation as a whole *)

(** C12: Whatever the workers' interleaving and wherever the allocator finds
    space, there is one forwarding map [fwd] such that every header is the
    original one or the forwarding pointer of [fwd], every updated reference
    points to the forwardee, forwardees are distinct, and each object is
    evacuated at most once: copied with its words and its (aged) header, tag
    included, or forwarded to itself with its header preserved if it must be.
    Each copy adds its size once to the surviving words of its region and
    goes once, with the header it carries, to the profiler. When all workers
    are idle every forwarded object has been evacuated. *)
Theorem evacuated_once d threshold tasks s :
  (∀ ts o, ts ∈ tasks → o ∈ ts → is_Some (objs !! o)) →
  rtc (transition ubl) (initial objs d threshold tasks) s →
  ∃ fwd, s_objs s = forwarded objs fwd ∧ NoDup (map_to_list fwd).*2 ∧
    (∀ w o r, w ∈ s_workers s → (o, r) ∈ w_updated w → fwd !! o = Some r) ∧
    NoDup (s_history s).*1 ∧ (∀ o p, (o, p) ∈ s_history s → fwd !! o = Some p) ∧
    (∀ o p, (o, p) ∈ s_history s → p ≠ o → ∃ f m', objs !! o = Some f ∧ s_to s !! p = Some (m', f_body f) ∧
       aged (f_mark f) m' ∧ ng2c_prof m' = ng2c_prof (f_mark f)) ∧
    (∀ p c, s_to s !! p = Some c → ∃ o, (o, p) ∈ s_history s ∧ p ≠ o) ∧
    s_preserved s = s_history s ≫= preserved ∧
    (∀ y, u64 (sum_by (λ w, default 0 (w_surviving_words w !! y)) (s_workers s)) =
          u64 (sum_by (survived y) (s_history s))) ∧
    (s_workers s ≫= λ w, (w_profiled w).*1) ≡ₚ (λ c, c.2.1) <$> map_to_list (s_to s) ∧
    ((∀ w, w ∈ s_workers s → w_pc w = Idle) → s_history s ≡ₚ map_to_list fwd).
Proof.
  intros Ht Hr. destruct (evac_reachable d threshold tasks s Ht Hr) as (fwd & [Ho Hfw Hin Hd Hws Hc Hto Hpr Hsu Hpf]).
  exists fwd. split_and!; try done.
  - by apply NoDup_app in Hd as (_ & _ & ?).
  - intros w o r (k & Hk)%list_elem_of_lookup. by apply (wo_updated _ _ (Hws k w Hk)).
  - pose proof (NoDup_fst_map_to_list fwd) as Hn. rewrite <- Hin, fmap_app in Hn. by apply NoDup_app in Hn as (? & _).
  - intros o p Hh. apply elem_of_map_to_list. rewrite <- Hin. set_solver.
  - intros o p Hh Hne. destruct (Hc o p Hh Hne) as (f & m' & ? & ? & Hag). exists f, m'. split_and!; try done.
    destruct Hag as [->|[_ ->]]; [done|apply ng2c_prof_incr_age].
  - intros Hidle. rewrite <- Hin, bind_empty, app_nil_r; [done|]. intros w Hw. by rewrite (Hidle w Hw).
Qed.

(** The object and the address of a worker inside [forward_to_atomic], and how
    many turns of it are left. *)
Definition in_forward_to_atomic (q : pc) : option (Z * Z) :=
  match q with Forwarding o _ _ _ p | Exchanging o _ _ _ p _ => Some (o, p) | _ => None end.
Definition turns_left (q : pc) : nat := match q with Forwarding _ _ _ _ _ => 2 | Exchanging _ _ _ _ _ _ => 1 | _ => 0 end.

(** What one of its steps leads to: the next turn, or a result that the header
    of the object agrees with. *)
Definition forwarding_result (s' : state) (o p : Z) (q : pc) : Prop :=
  in_forward_to_atomic q = Some (o, p) ∨
  (∃ m a t, q = Won o m a t p) ∧ f_mark <$> s_objs s' !! o = Some (encode_pointer_as_mark p) ∨
  (∃ t, q = Lost o t p) ∧ is_marked <$> (f_mark <$> s_objs s' !! o) = Some true.

Lemma forwarding_step fwd s s' k w o p :
  inv fwd s → s_workers s !! k = Some w → in_forward_to_atomic (w_pc w) = Some (o, p) → step ubl k s s' →
  ∃ w', s_workers s' !! k = Some w' ∧ (turns_left (w_pc w') < turns_left (w_pc w) <= 2)%nat ∧ forwarding_result s' o p (w_pc w').
Proof.
  intros Hi Hk Hq Hs. assert (Hlt := lookup_lt_Some _ _ _ Hk).
  destruct Hs as [| | | | | | | |s k w0 o0 m a t p0 f H0 E Hf|s k w0 o0 m a t p0 old f H0 E Hf Hm|s k w0 o0 m a t p0 old f H0 E Hf Hm| | |];
    simplify_eq; match goal with H : w_pc _ = _ |- _ => rewrite H in Hq |- * end; try done; injection Hq as -> ->; cbn [put_worker s_workers];
    rewrite list_lookup_insert_eq by done; eexists; (split; [reflexivity|]); cbn [with_pc w_pc].
  - unfold forward_to_atomic_loop. destruct (is_marked (f_mark f)) eqn:Em; cbn; (split; [lia|]); [right; right|by left].
    split; [by eexists|]. cbn. rewrite Hf. cbn. by rewrite Em.
  - cbn. split; [lia|]. right. left. split; [by eexists _, _, _|]. cbn [s_objs]. by rewrite lookup_insert_eq.
  - pose proof (exchange_fails_once fwd s k w o m a t p old f Hi Hk E Hf Hm) as Em. unfold forward_to_atomic_loop. rewrite Em. cbn.
    split; [lia|]. right. right. split; [by eexists|]. cbn. rewrite Hf. cbn. by rewrite Em.
Qed.


End facts.

(** A locked object's header is the address of its lock record or monitor
    and not a tag: read as a tag, it names no allocation site, so the
    survivor is not counted. *)
Lemma locked_survivor_unprofiled `{ObjectTable.CHeap} cfg total st pcs lock m a :
  0 <= lock < 2 ^ 48 → m = encode_lock lock ∨ m = encode_monitor lock →
  MergeOp.count_survivor cfg total st pcs m a = Some pcs.
Proof.
  intros Hl Hm. assert (Hm' : 0 <= m < 2 ^ 48).
  { destruct Hm as [->| ->]; [done|]. unfold encode_monitor.
    change monitor_value with 2. split; [apply Z.lor_nonneg; lia|]. destruct (decide (lock = 0)) as [->|]; [done|].
    apply Z.log2_lt_cancel. rewrite Z.log2_lor, Z.log2_pow2 by lia. apply Z.max_lub_lt; [|done].
    apply Z.log2_lt_pow2; lia. }
  assert (Hs : ng2c_prof m >>> 16 = 0).
  { unfold ng2c_prof, mask_bits. change ng2c_prof_mask with (2 ^ 32 - 1). change ng2c_prof_shift with 32.
    rewrite land_low_ones, !Z.shiftr_div_pow2 by lia. Z.to_euclidean_division_equations. lia. }
  unfold MergeOp.count_survivor. rewrite Hs. destruct (_ && _); [|done].
  by rewrite SiteTableFacts.get_entry_zero.
Qed.

End EvacuationFacts.

(** * The tenuring threshold *)

Module AgeTableFacts.
Import AgeTable.

(** The words recorded under the ages 1 to [n]. *)
Definition words_upto (sizes : list Z) (n : Z) : Z := sum_by id (take (Z.to_nat n) (drop 1 sizes)).

Lemma size_t_of_double_nonneg x z : Double.size_t_of_double x = Some z → 0 <= z.
Proof.
  destruct x; cbn; try done; [by intros [= <-]|]. case_match eqn:E; [|done]. intros [= <-].
  apply andb_true_iff in E as [E _]. by apply Z.leb_le in E.
Qed.

Lemma sum_take_mono l n k :
  (n <= k)%nat → (∀ z, z ∈ l → 0 <= z) → sum_by id (take n l) <= sum_by id (take k l).
Proof.
  intros Hnk Hl. rewrite <- (take_drop n (take k l)), take_take, Nat.min_l, sum_by_app by done.
  assert (0 <= sum_by id (drop n (take k l))); [|lia]. apply sum_by_nonneg. intros z Hz. apply Hl.
  rewrite <- (take_drop k l). apply elem_of_app. left. rewrite <- (take_drop n (take k l)). apply elem_of_app. by right.
Qed.

Lemma threshold_loop_spec rest age total desired :
  0 <= total → total + sum_by id rest < 2 ^ 64 → (∀ z, z ∈ rest → 0 <= z) → total <= desired →
  let r := threshold_loop rest age total desired in
  age <= r <= age + Z.of_nat (length rest) ∧
  total + sum_by id (take (Z.to_nat (r - age)) rest) <= desired ∧
  (r < age + Z.of_nat (length rest) → desired < total + sum_by id (take (Z.to_nat (r - age + 1)) rest)).
Proof.
  revert age total. induction rest as [|z rest IH]; intros age total H0 Hs Hz Hd r; unfold r; clear r;
    cbn [threshold_loop length sum_by] in *.
  { rewrite take_nil. cbn. lia. }
  assert (Hz0 : 0 <= z) by (apply Hz; by left).
  assert (Hr0 : 0 <= sum_by id rest) by (apply sum_by_nonneg; intros; apply Hz; by right).
  unfold id at 1 in Hs. rewrite u64_small by (unfold in_u64; lia).
  destruct (Z.leb_spec (total + z) desired) as [Hle|Hgt].
  - rewrite gtb_false by done. destruct (IH (age + 1) (total + z)) as (Hr & Hsum & Hmore); [lia|lia| |lia|].
    { intros; apply Hz; by right. }
    set (r := threshold_loop rest (age + 1) (total + z) desired) in *. split; [lia|].
    replace (Z.to_nat (r - age)) with (S (Z.to_nat (r - (age + 1)))) by lia.
    replace (Z.to_nat (r - age + 1)) with (S (Z.to_nat (r - (age + 1) + 1))) by lia.
    cbn [take sum_by]. change (id z) with z. lia.
  - rewrite gtb_true by done. rewrite Z.sub_diag. change (Z.to_nat (0 + 1)) with 1%nat. change (Z.to_nat 0) with 0%nat.
    cbn [firstn sum_by]. rewrite take_0. cbn [sum_by]. change (id z) with z. lia.
Qed.

(** The tenuring threshold is at most [MaxTenuringThreshold], the
    survivors younger than it fit in the desired survivor size, and unless it
    is the maximum, one age more would not fit. *)
Theorem tenuring_threshold_bound sizes capacity ratio max desired :
  length sizes = 16%nat → (∀ z, z ∈ sizes → 0 <= z) → sum_by id sizes < 2 ^ 64 →
  desired_survivor_size capacity ratio = Some desired →
  ∃ t, compute_tenuring_threshold sizes capacity ratio max = Some t ∧
    t <= max ∧ t <= table_size ∧ (1 <= max → 1 <= t) ∧
    words_upto sizes (t - 1) <= desired ∧
    (t < max → t < table_size → desired < words_upto sizes t).
Proof.
  intros Hl Hz Hs Hd. pose proof (size_t_of_double_nonneg _ _ Hd) as Hd0. unfold compute_tenuring_threshold. rewrite Hd. cbn [mbind option_bind].
  destruct sizes as [|z0 rest]; [done|]. unfold words_upto. change (drop 1 (z0 :: rest)) with rest. injection Hl as Hl.
  assert (Hz0 : 0 <= z0) by (apply Hz; by left).
  cbn [sum_by] in Hs. unfold id at 1 in Hs.
  destruct (threshold_loop_spec rest 1 0 desired) as (Hr & Hsum & Hmore); [lia|lia| |lia|].
  { intros; apply Hz; by right. }
  set (r := threshold_loop rest 1 0 desired) in *. rewrite Hl in *. change table_size with 16.
  eexists. split; [done|]. replace (r - 1 + 1) with r in Hmore by lia.
  destruct (Z.ltb_spec r max); split_and!; try lia.
  assert (sum_by id (take (Z.to_nat (max - 1)) rest) <= sum_by id (take (Z.to_nat (r - 1)) rest)); [|lia].
  apply sum_take_mono; [lia|]. intros; apply Hz; by right.
Qed.

Lemma tenuring_threshold_bound_witness :
  ∃ t, compute_tenuring_threshold [0; 600; 500; 10; 0; 0; 0; 0; 0; 0; 0; 0; 0; 0; 0; 0] 2048 50 15 = Some t ∧
    t <= 15 ∧ t <= table_size ∧ (1 <= 15 → 1 <= t) ∧
    words_upto [0; 600; 500; 10; 0; 0; 0; 0; 0; 0; 0; 0; 0; 0; 0; 0] (t - 1) <= 1024 ∧
    (t < 15 → t < table_size → 1024 < words_upto [0; 600; 500; 10; 0; 0; 0; 0; 0; 0; 0; 0; 0; 0; 0; 0] t).
Proof.
  apply (tenuring_threshold_bound [0; 600; 500; 10; 0; 0; 0; 0; 0; 0; 0; 0; 0; 0; 0; 0] 2048 50 15 1024);
    [reflexivity| |cbn; lia|reflexivity].
  intros z Hz. repeat (apply elem_of_cons in Hz as [->|Hz]; [lia|]). by apply not_elem_of_nil in Hz.
Defined.

End AgeTableFacts.

(** * Two workers race for one object *)

Module EvacuationDemo.
Import Evacuation EvacuationFacts.

Definition demo_object : FromObject := mkFrom (set_ng2c_prof prototype 0x50001) [7; 8] true 3 prototype.
Definition demo_objs : gmap Z FromObject := {[ 64 := demo_object ]}.
Definition demo_start : state := initial demo_objs (λ _, 0) 15 [[64]; [64]].

Lemma demo_objs_ok : collection_set demo_objs.
Proof. unfold demo_objs. intros o f [<- <-]%lookup_singleton_Some. done. Qed.

Lemma demo_tasks_ok ts o : ts ∈ [[64]; [64]] → o ∈ ts → is_Some (demo_objs !! o).
Proof.
  intros Hts Ho. assert (ts = [64]) as -> by set_solver. apply list_elem_of_singleton in Ho as ->. by eexists.
Qed.

(** Run one step of worker [k], and bring the state into normal form. *)
Ltac normal :=
  unfold put_worker, with_pc, finish;
  cbn [s_objs s_to s_displaced s_preserved s_history s_tenuring_threshold s_workers
       w_pc w_tasks w_updated w_age_table w_surviving_words w_profiled insert list_insert];
  repeat match goal with
  | |- context [forward_to_atomic_loop ?o ?m ?a ?t ?p ?q] =>
      let v := eval vm_compute in (forward_to_atomic_loop o m a t p q) in
      change (forward_to_atomic_loop o m a t p q) with v
  | |- context [object_age ?d ?m] =>
      let v := eval vm_compute in (object_age d m) in change (object_age d m) with v
  | |- context [purpose ?s ?f ?a] =>
      let v := eval vm_compute in (purpose s f a) in change (purpose s f a) with v
  end.
Ltac run k st :=
  eapply rtc_l; [apply (transition_step _ k); eapply st; try reflexivity|]; normal.

Lemma demo_fresh objs to d pres hist threshold w0 w1 p :
  0 < p → p mod 8 = 0 → objs !! p = None → to !! p = None → pending (w_pc w0) ≠ Some p → pending (w_pc w1) ≠ Some p →
  fresh (mkState objs to d pres hist threshold [w0; w1]) p.
Proof.
  intros ? ? ? ? H0 H1. split_and!; [done..|]. intros [|[|[]]] w; cbn; [by intros [= <-]|by intros [= <-]|done|done].
Qed.

(** Both workers find the object unforwarded and allocate; worker 1 installs
    its pointer first, and worker 0 takes over the forwardee. *)
Lemma demo_race :
  ∃ s, rtc (transition true) demo_start s ∧ s_history s = [(64, 2048)] ∧
    (w_updated <$> s_workers s) = [[(64, 2048)]; [(64, 2048)]] ∧
    (w_pc <$> s_workers s) = [Idle; Idle].
Proof.
  eexists. split.
  - unfold demo_start, initial. cbn [fmap list_fmap].
    run O step_fetch. run 1%nat step_fetch. run O step_not_forwarded. run 1%nat step_not_forwarded.
    run O step_load. run 1%nat step_load. run O step_destination. run 1%nat step_destination.
    eapply rtc_l; [apply (transition_step _ O); eapply (step_allocate _ _ _ _ _ _ _ _ 1024); [reflexivity|reflexivity|by apply demo_fresh]|]; normal.
    eapply rtc_l; [apply (transition_step _ 1%nat); eapply (step_allocate _ _ _ _ _ _ _ _ 2048); [reflexivity|reflexivity|by apply demo_fresh]|]; normal.
    run O step_read. run 1%nat step_read. run 1%nat step_exchange. run O step_exchange_fails; [discriminate|].
    run O step_lost. run 1%nat step_copy; [discriminate|]. apply rtc_refl.
  - split_and!; reflexivity.
Qed.

Lemma evacuated_once_witness :
  ∃ s fwd, rtc (transition true) demo_start s ∧ s_history s = [(64, 2048)] ∧
    s_objs s = forwarded demo_objs fwd ∧ fwd !! 64 = Some 2048 ∧
    (∃ f m', demo_objs !! 64 = Some f ∧ s_to s !! 2048 = Some (m', f_body f) ∧ aged (f_mark f) m' ∧
       ng2c_prof m' = ng2c_prof (f_mark f)).
Proof.
  destruct demo_race as (s & Hr & Hh & _). exists s.
  destruct (evacuated_once true demo_objs demo_objs_ok (λ _, 0) 15 [[64]; [64]] s demo_tasks_ok Hr)
    as (fwd & Ho & _ & _ & _ & Hf & Hc & _).
  exists fwd. rewrite Hh in Hf, Hc. split_and!; [exact Hr|exact Hh|exact Ho|apply Hf; by left|].
  apply Hc; [by left|discriminate].
Defined.

(** Worker 0 is about to exchange the header, and worker 1 has just done so. *)
Lemma demo_beaten :
  ∃ s w, rtc (transition true) demo_start s ∧ s_workers s !! O = Some w ∧ in_forward_to_atomic (w_pc w) = Some (64, 1024) ∧
    f_mark <$> s_objs s !! 64 = Some (encode_pointer_as_mark 2048).
Proof.
  eexists _, _. split.
  - unfold demo_start, initial. cbn [fmap list_fmap].
    run O step_fetch. run 1%nat step_fetch. run O step_not_forwarded. run 1%nat step_not_forwarded.
    run O step_load. run 1%nat step_load. run O step_destination. run 1%nat step_destination.
    eapply rtc_l; [apply (transition_step _ O); eapply (step_allocate _ _ _ _ _ _ _ _ 1024); [reflexivity|reflexivity|by apply demo_fresh]|]; normal.
    eapply rtc_l; [apply (transition_step _ 1%nat); eapply (step_allocate _ _ _ _ _ _ _ _ 2048); [reflexivity|reflexivity|by apply demo_fresh]|]; normal.
    run O step_read. run 1%nat step_read. run 1%nat step_exchange. apply rtc_refl.
  - split_and!; reflexivity.
Qed.


End EvacuationDemo.
