(* ===== verification/TaskQueue.v ===== *)
(** The work-stealing queues of the parallel collector: [TaskQueueSuper] and
    [GenericTaskQueue] of [utilities/taskqueue.hpp], and the random numbers
    for the choice of a victim ([taskqueue.cpp]).

    One thread owns the queue and pushes and pops at its bottom; any number
    of thieves take elements at its top. Each access to the shared fields
    [_bottom], [_age] and [_elems] is a step, and the steps of all threads
    interleave in any order (sequential consistency, which the fences of the
    source establish where they matter). The queue is shown to be a
    linearizable double-ended queue as long as the 32-bit tag of [_age] does
    not overflow. *)

From S2P Require Import Prelude.

Module TaskQueue.

Record Age := mkAge { a_top : Z; a_tag : Z }.

#[global] Instance Age_eq_dec : EqDecision Age.
Proof. solve_decision. Defined.

Section queue.
Context {E : Type}.

(** The number of elements of the array, a power of two. *)
Variable N : Z.

Definition MOD_N_MASK : Z := N - 1.
Definition increment_index (ind : Z) : Z := u32 (ind + 1) &&& MOD_N_MASK.
Definition decrement_index (ind : Z) : Z := u32 (ind - 1) &&& MOD_N_MASK.
Definition dirty_size (bot top : Z) : Z := u32 (bot - top) &&& MOD_N_MASK.
Definition size (bot top : Z) : Z :=
  let sz := dirty_size bot top in if sz =? N - 1 then 0 else sz.
Definition max_elems : Z := N - 2.

Definition increment (a : Age) : Age :=
  let top := increment_index (a_top a) in
  mkAge top (if top =? 0 then u32 (a_tag a + 1) else a_tag a).

(** Whether [push] stores the element: its own test, or the one of
    [push_slow]. *)
Definition push_test (bot top : Z) : bool :=
  let dirty_n_elems := dirty_size bot top in
  (dirty_n_elems <? max_elems) || (dirty_n_elems =? N - 1).

(** The age that [pop_local_slow] installs. *)
Definition empty_age (localBot : Z) (oldAge : Age) : Age := mkAge localBot (u32 (a_tag oldAge + 1)).

(** What the owner is about to do. *)
Inductive owner_pc :=
  | Idle
  | PushStore (t : E) (localBot : Z)
  | PushPublish (t : E) (localBot : Z)
  | PopStore (localBot : Z)
  | PopLoad (localBot : Z)
  | PopTop (localBot : Z) (t : E)
  | PopAge (localBot : Z) (t : E)
  | PopCas (localBot : Z) (t : E) (oldAge : Age)
  | PopReset (localBot : Z) (oldAge : Age).

(** What a thief is about to do in [pop_global]. *)
Inductive thief_pc :=
  | Away
  | ReadBottom (oldAge : Age)
  | ReadElem (oldAge : Age)
  | Steal (oldAge : Age) (t : E).

(** [q_overflowed] records whether the tag has ever overflowed. *)
Record state := mkState {
  q_bottom : Z;
  q_age : Age;
  q_elems : list E;
  q_owner : owner_pc;
  q_thieves : list thief_pc;
  q_overflowed : bool
}.

Definition set_owner (s : state) (pc : owner_pc) : state :=
  mkState (q_bottom s) (q_age s) (q_elems s) pc (q_thieves s) (q_overflowed s).
Definition set_bottom (s : state) (b : Z) : state :=
  mkState b (q_age s) (q_elems s) (q_owner s) (q_thieves s) (q_overflowed s).
Definition set_elem (s : state) (i : Z) (t : E) : state :=
  mkState (q_bottom s) (q_age s) (<[Z.to_nat i := t]> (q_elems s)) (q_owner s) (q_thieves s) (q_overflowed s).
Definition set_thief (s : state) (k : nat) (pc : thief_pc) : state :=
  mkState (q_bottom s) (q_age s) (q_elems s) (q_owner s) (<[k := pc]> (q_thieves s)) (q_overflowed s).
Definition set_age (s : state) (a : Age) : state :=
  mkState (q_bottom s) a (q_elems s) (q_owner s) (q_thieves s)
    (q_overflowed s || ((a_tag a =? 0) && negb (a_tag (q_age s) =? 0))).

(** What an operation returns. *)
Inductive event :=
  | Pushed (t : E)
  | PushFailed (t : E)
  | PoppedLocal (t : E)
  | PopLocalFailed
  | Stolen (t : E)
  | StealFailed.

Inductive step : option event → state → state → Prop :=
  (* push *)
  | step_push s t :
      q_owner s = Idle → push_test (q_bottom s) (a_top (q_age s)) = true →
      step None s (set_owner s (PushStore t (q_bottom s)))
  | step_push_full s t :
      q_owner s = Idle → push_test (q_bottom s) (a_top (q_age s)) = false →
      step (Some (PushFailed t)) s s
  | step_push_store s t localBot :
      q_owner s = PushStore t localBot →
      step None s (set_owner (set_elem s localBot t) (PushPublish t localBot))
  | step_push_publish s t localBot :
      q_owner s = PushPublish t localBot →
      step (Some (Pushed t)) s (set_owner (set_bottom s (increment_index localBot)) Idle)
  (* pop_local *)
  | step_pop_empty s :
      q_owner s = Idle → dirty_size (q_bottom s) (a_top (q_age s)) = 0 →
      step (Some PopLocalFailed) s s
  | step_pop s :
      q_owner s = Idle → dirty_size (q_bottom s) (a_top (q_age s)) ≠ 0 →
      step None s (set_owner s (PopStore (decrement_index (q_bottom s))))
  | step_pop_store s localBot :
      q_owner s = PopStore localBot →
      step None s (set_owner (set_bottom s localBot) (PopLoad localBot))
  | step_pop_load s localBot t :
      q_owner s = PopLoad localBot → q_elems s !! Z.to_nat localBot = Some t →
      step None s (set_owner s (PopTop localBot t))
  | step_pop_fast s localBot t :
      q_owner s = PopTop localBot t → size localBot (a_top (q_age s)) > 0 →
      step (Some (PoppedLocal t)) s (set_owner s Idle)
  | step_pop_slow s localBot t :
      q_owner s = PopTop localBot t → ¬ size localBot (a_top (q_age s)) > 0 →
      step None s (set_owner s (PopAge localBot t))
  | step_pop_age s localBot t :
      q_owner s = PopAge localBot t →
      step None s (set_owner s (if localBot =? a_top (q_age s) then PopCas localBot t (q_age s)
                                else PopReset localBot (q_age s)))
  | step_pop_cas s localBot t oldAge :
      q_owner s = PopCas localBot t oldAge → q_age s = oldAge →
      step (Some (PoppedLocal t)) s (set_owner (set_age s (empty_age localBot oldAge)) Idle)
  | step_pop_cas_fails s localBot t oldAge :
      q_owner s = PopCas localBot t oldAge → q_age s ≠ oldAge →
      step None s (set_owner s (PopReset localBot oldAge))
  | step_pop_reset s localBot oldAge :
      q_owner s = PopReset localBot oldAge →
      step (Some PopLocalFailed) s (set_owner (set_age s (empty_age localBot oldAge)) Idle)
  (* pop_global *)
  | step_steal s k :
      q_thieves s !! k = Some Away → step None s (set_thief s k (ReadBottom (q_age s)))
  | step_steal_empty s k oldAge :
      q_thieves s !! k = Some (ReadBottom oldAge) → size (q_bottom s) (a_top oldAge) = 0 →
      step (Some StealFailed) s (set_thief s k Away)
  | step_steal_bottom s k oldAge :
      q_thieves s !! k = Some (ReadBottom oldAge) → size (q_bottom s) (a_top oldAge) ≠ 0 →
      step None s (set_thief s k (ReadElem oldAge))
  | step_steal_load s k oldAge t :
      q_thieves s !! k = Some (ReadElem oldAge) → q_elems s !! Z.to_nat (a_top oldAge) = Some t →
      step None s (set_thief s k (Steal oldAge t))
  | step_steal_cas s k oldAge t :
      q_thieves s !! k = Some (Steal oldAge t) → q_age s = oldAge →
      step (Some (Stolen t)) s (set_thief (set_age s (increment oldAge)) k Away)
  | step_steal_fails s k oldAge t :
      q_thieves s !! k = Some (Steal oldAge t) → q_age s ≠ oldAge →
      step (Some StealFailed) s (set_thief s k Away).

(** A run and the results of its operations, in order. *)
Inductive run : state → list event → state → Prop :=
  | run_refl s : run s [] s
  | run_silent s1 s2 s3 tr : run s1 tr s2 → step None s2 s3 → run s1 tr s3
  | run_event s1 s2 s3 tr e : run s1 tr s2 → step (Some e) s2 s3 → run s1 (tr ++ [e]) s3.

Definition initial (elems : list E) (thieves : nat) : state :=
  mkState 0 (mkAge 0 0) elems Idle (replicate thieves Away) false.

(** * The double-ended queue it implements *)

Inductive deque_step : list E → event → list E → Prop :=
  | deque_push l t : deque_step l (Pushed t) (l ++ [t])
  | deque_push_full l t : Z.of_nat (length l) = max_elems → deque_step l (PushFailed t) l
  | deque_pop l t : deque_step (l ++ [t]) (PoppedLocal t) l
  | deque_pop_empty : deque_step [] PopLocalFailed []
  | deque_steal l t : deque_step (t :: l) (Stolen t) l
  | deque_steal_fails l : deque_step l StealFailed l.

Inductive deque_run : list E → list event → list E → Prop :=
  | deque_refl l : deque_run l [] l
  | deque_snoc l1 l2 l3 tr e : deque_run l1 tr l2 → deque_step l2 e l3 → deque_run l1 (tr ++ [e]) l3.

End queue.

Arguments state : clear implicits.
Arguments event : clear implicits.

(** * Random numbers *)

(** [int] division truncates towards zero. *)
Definition randomParkAndMiller (seed0 : Z) : Z :=
  let a := 16807 in
  let m := 2147483647 in
  let q := 127773 in
  let r := 2836 in
  let hi := Z.quot seed0 q in
  let lo := Z.rem seed0 q in
  let test := i32 (i32 (a * lo) - i32 (r * hi)) in
  if test >? 0 then test else i32 (test + m).

End TaskQueue.

(** * Linearizability *)

Module TaskQueueFacts.
Import TaskQueue.

Section facts.
Context {E : Type}.
Variable N : Z.
Variable k : Z.
Hypothesis Hk : 2 <= k <= 31.
Hypothesis HN : N = 2 ^ k.

Notation state := (state E).
Notation top s := (a_top (q_age s)).
Notation len l := (Z.of_nat (length l)).

Lemma N_range : 4 <= N <= 2 ^ 31.
Proof.
  rewrite HN. split; [change 4 with (2 ^ 2)|]; apply Z.pow_le_mono_r; lia.
Qed.

(** The mask is the remainder by [N], also of the 32-bit wrap-around. *)
Lemma mask_mod z : u32 z &&& MOD_N_MASK N = z mod N.
Proof.
  unfold MOD_N_MASK. rewrite HN, land_low_ones, u32_mod by lia. apply Z.mod_mod_divide.
  exists (2 ^ (32 - k)). rewrite <- Z.pow_add_r by lia. f_equal. lia.
Qed.

Lemma mod_offset_inj t i j : 0 <= i < N → 0 <= j < N → (t + i) mod N = (t + j) mod N → i = j.
Proof.
  intros Hi Hj H. apply (f_equal (λ x, (x - t) mod N)) in H. rewrite !Zminus_mod_idemp_l in H.
  rewrite !Z.add_simpl_l, !Z.mod_small in H by done. done.
Qed.

(** The sizes that a thread computes from [bottom = top + d]. *)
Lemma dirty_size_spec t d :
  -1 <= d <= N - 2 → dirty_size N ((t + d) mod N) t = if d =? -1 then N - 1 else d.
Proof.
  intros Hd. pose proof N_range. unfold dirty_size. rewrite mask_mod, Zminus_mod_idemp_l, Z.add_simpl_l.
  destruct (Z.eqb_spec d (-1)) as [->|]; [|apply Z.mod_small; lia].
  rewrite <- (Z.mod_add (-1) 1), Z.mod_small by lia. lia.
Qed.

Lemma size_spec t d : -1 <= d <= N - 2 → size N ((t + d) mod N) t = Z.max d 0.
Proof.
  intros Hd. unfold size. rewrite dirty_size_spec by done.
  destruct (Z.eqb_spec d (-1)); [rewrite Z.eqb_refl; lia|]. rewrite (proj2 (Z.eqb_neq d (N - 1))) by lia. lia.
Qed.

(** ** Ages *)

Definition measure (a : Age) : Z := a_tag a * N + a_top a.
Definition age_ok (a : Age) : Prop := 0 <= a_top a < N ∧ in_u32 (a_tag a).

Lemma set_age_overflow (s : state) a :
  q_overflowed (set_age s a) = false → q_overflowed s = false ∧ (a_tag (q_age s) ≠ 0 → a_tag a ≠ 0).
Proof.
  cbn. intros [H1 H2]%orb_false_iff. split; [done|]. intros Ht Ha. rewrite Ha, Z.eqb_refl in H2.
  by rewrite (proj2 (Z.eqb_neq _ 0)) in H2.
Qed.

Lemma next_tag a : in_u32 (a_tag a) → (a_tag a ≠ 0 → u32 (a_tag a + 1) ≠ 0) → u32 (a_tag a + 1) = a_tag a + 1.
Proof.
  intros Ht Hn. unfold in_u32 in Ht. destruct (decide (a_tag a = 2 ^ 32 - 1)) as [E'|].
  - rewrite E' in Hn. exfalso. apply Hn; [lia|done].
  - apply u32_small. unfold in_u32. lia.
Qed.

Lemma increment_spec (s : state) a :
  age_ok a → q_age s = a → q_overflowed (set_age s (increment N a)) = false →
  age_ok (increment N a) ∧ measure (increment N a) = measure a + 1 ∧ a_top (increment N a) = (a_top a + 1) mod N.
Proof.
  intros Ha Ea Ho. apply set_age_overflow in Ho as [_ Ho]. rewrite Ea in Ho. pose proof N_range.
  pose proof Ha as [Ht Hg]. unfold in_u32 in Hg. unfold increment, increment_index, measure, age_ok in *.
  rewrite mask_mod in *. destruct (decide (a_top a = N - 1)) as [E'|Hne].
  - rewrite E' in *. replace (N - 1 + 1) with N in * by lia. rewrite Z.mod_same in * by lia. cbn in *.
    pose proof (u32_range (a_tag a + 1)) as Hr. rewrite (next_tag a Hg Ho) in *. unfold in_u32 in *. lia.
  - rewrite (Z.mod_small (a_top a + 1)) in * by lia. rewrite (proj2 (Z.eqb_neq (a_top a + 1) 0)) in * by lia.
    cbn in *. unfold in_u32. lia.
Qed.

(** The age of the emptied queue is newer than any before. *)
Lemma empty_age_spec (s : state) b old :
  age_ok old → 0 <= b < N → age_ok (q_age s) →
  (q_age s = old ∨ a_top old = b ∧ q_age s = increment N old) →
  q_overflowed (set_age s (empty_age b old)) = false →
  age_ok (empty_age b old) ∧ measure (q_age s) < measure (empty_age b old).
Proof.
  intros Hold Hb Hcur Hc Ho. apply set_age_overflow in Ho as [_ Ho]. pose proof N_range.
  assert (Hok : age_ok (empty_age b old)) by (split; [done|apply u32_range]).
  split; [done|]. destruct Hold as [Ht Hg]. unfold in_u32 in Hg.
  assert (Hcase : a_tag (q_age s) = a_tag old ∨ a_tag (q_age s) = u32 (a_tag old + 1) ∧ top s = 0 ∧ b = N - 1).
  { destruct Hc as [->|[<- ->]]; [by left|]. unfold increment, increment_index. cbn. rewrite mask_mod.
    destruct (decide (a_top old = N - 1)) as [E'|]; [right|left].
    - rewrite E'. replace (N - 1 + 1) with N by lia. by rewrite Z.mod_same by lia.
    - rewrite Z.mod_small by lia. by rewrite (proj2 (Z.eqb_neq (a_top old + 1) 0)) by lia. }
  unfold measure. cbn [empty_age a_tag a_top] in *. destruct Hcase as [E'|(E' & E0 & ->)].
  - rewrite E' in *. assert (u32 (a_tag old + 1) = a_tag old + 1) as ->.
    { by apply (next_tag old). }
    destruct Hcur as [? _]. nia.
  - rewrite E', E0. lia.
Qed.

(** ** The invariant: [l] is what the queue holds *)

Definition bottom_at (s : state) (l : list E) (off : Z) : Prop := q_bottom s = (top s + len l + off) mod N.

Definition owner_ok (s : state) (l : list E) (pc : owner_pc) : Prop :=
  match pc with
  | Idle => bottom_at s l 0
  | PushStore t b => bottom_at s l 0 ∧ b = q_bottom s ∧ len l < max_elems N
  | PushPublish t b => bottom_at s l 0 ∧ b = q_bottom s ∧ len l < max_elems N ∧ q_elems s !! Z.to_nat b = Some t
  | PopStore b => bottom_at s l 0 ∧ b = (q_bottom s - 1) mod N
  | PopLoad b => bottom_at s l (-1) ∧ b = q_bottom s
  | PopTop b t => bottom_at s l (-1) ∧ b = q_bottom s ∧ (l ≠ [] → last l = Some t)
  | PopAge b t => bottom_at s l (-1) ∧ b = q_bottom s ∧ (l ≠ [] → last l = Some t) ∧ len l <= 1
  | PopCas b t old => bottom_at s l (-1) ∧ b = q_bottom s ∧ age_ok old ∧ a_top old = b ∧
      (q_age s = old ∧ l = [t] ∨ q_age s = increment N old ∧ l = [] ∧ measure old < measure (q_age s))
  | PopReset b old => bottom_at s l (-1) ∧ b = q_bottom s ∧ age_ok old ∧ l = [] ∧
      (q_age s = old ∨ a_top old = b ∧ q_age s = increment N old)
  end.

(** A thief can still succeed only if the age is the one it has read. *)
Definition thief_ok (s : state) (l : list E) (pc : thief_pc) : Prop :=
  match pc with
  | Away => True
  | ReadBottom a => age_ok a ∧ measure a <= measure (q_age s)
  | ReadElem a => age_ok a ∧ measure a <= measure (q_age s) ∧ (q_age s = a → l ≠ [])
  | Steal a t => age_ok a ∧ measure a <= measure (q_age s) ∧ (q_age s = a → head l = Some t)
  end.

Record inv (s : state) (l : list E) : Prop := mkInv {
  i_age : age_ok (q_age s);
  i_elems : len (q_elems s) = N;
  i_length : len l <= max_elems N;
  i_layout : ∀ i t, l !! i = Some t → q_elems s !! Z.to_nat ((top s + Z.of_nat i) mod N) = Some t;
  i_owner : owner_ok s l (q_owner s);
  i_thieves : ∀ j pc, q_thieves s !! j = Some pc → thief_ok s l pc
}.

Lemma thief_ok_same (s s' : state) l l' pc :
  q_age s' = q_age s → (l ≠ [] → head l' = head l) → thief_ok s l pc → thief_ok s' l' pc.
Proof.
  intros Ea Hh. destruct pc as [|a|a|a t]; cbn; rewrite ?Ea; [done|done| |].
  - intros (? & ? & Hl). split_and!; [done|done|]. intros E1. specialize (Hl E1). specialize (Hh Hl).
    by destruct l, l'.
  - intros (? & ? & Hl). split_and!; [done|done|]. intros E1. specialize (Hl E1). rewrite <- Hl. apply Hh. by destruct l.
Qed.

(** After a change of the age every thief that had read it fails. *)
Lemma thief_ok_newer (s s' : state) l l' pc :
  measure (q_age s) < measure (q_age s') → thief_ok s l pc → thief_ok s' l' pc.
Proof.
  intros Hm. destruct pc as [|a|a|a t]; cbn; [done| | |]; intros (? & ?); try (intuition lia);
    (split; [done|]); split; try lia; intros <-; lia.
Qed.

Lemma bottom_range (s : state) l off : bottom_at s l off → 0 <= q_bottom s < N.
Proof. intros ->. apply Z.mod_pos_bound. pose proof N_range. lia. Qed.

(** ** The steps *)

Lemma inv_set_owner s l pc : inv s l → owner_ok s l pc → inv (set_owner s pc) l.
Proof. by intros [? ? ? ? ? ?] ?. Qed.

Lemma inv_set_thief s l j pc : inv s l → thief_ok s l pc → inv (set_thief s j pc) l.
Proof.
  intros [Ha He Hl Hy Ho Ht] Hpc. split; try done.
  intros i q [(<- & <- & _)|[_ Hi]]%list_lookup_insert_Some; [done|by eapply Ht].
Qed.

Lemma inv_push_store s l t b :
  inv s l → q_owner s = PushStore t b → inv (set_owner (set_elem s b t) (PushPublish t b)) l.
Proof.
  intros [Ha He Hl Hy Ho Ht] Eo. rewrite Eo in Ho. destruct Ho as (Hb & -> & Hlt).
  pose proof (bottom_range s l 0 Hb) as Hr. pose proof N_range. unfold max_elems in *.
  split; cbn [set_owner set_elem q_age q_elems q_owner q_thieves q_bottom]; try done.
  - by rewrite length_insert.
  - intros i x Hi. rewrite list_lookup_insert_ne; [by apply Hy|]. intros Heq.
    pose proof (lookup_lt_Some _ _ _ Hi). rewrite Hb, Z.add_0_r in Heq.
    apply Z2Nat.inj in Heq; [|apply Z.mod_pos_bound; lia..].
    apply mod_offset_inj in Heq; lia.
  - cbn. split_and!; [done|done|done|]. apply list_lookup_insert_eq. lia.
Qed.

Lemma inv_push_publish s l t b :
  inv s l → q_owner s = PushPublish t b →
  inv (set_owner (set_bottom s (increment_index N b)) Idle) (l ++ [t]).
Proof.
  intros [Ha He Hl Hy Ho Ht] Eo. rewrite Eo in Ho. destruct Ho as (Hb & -> & Hlt & Hx).
  unfold max_elems in *. split; cbn [set_owner set_bottom q_age q_elems q_owner q_thieves q_bottom]; try done.
  - rewrite length_app. unfold max_elems. cbn. lia.
  - intros i x Hi. apply lookup_app_Some in Hi as [Hi|[Hi Hx']]; [by apply Hy|].
    destruct (i - length l)%nat as [|n] eqn:En; [|done]. injection Hx' as <-.
    rewrite <- Hx. f_equal. f_equal. rewrite Hb. f_equal. lia.
  - unfold owner_ok, bottom_at, increment_index. cbn. rewrite mask_mod, Hb, Zplus_mod_idemp_l, length_app. cbn. f_equal. lia.
  - intros j pc Hj. eapply thief_ok_same; [| |by apply (Ht j)]; [done|]. intros. by destruct l.
Qed.

Lemma inv_pop_store s l b :
  inv s l → q_owner s = PopStore b → inv (set_owner (set_bottom s b) (PopLoad b)) l.
Proof.
  intros [Ha He Hl Hy Ho Ht] Eo. rewrite Eo in Ho. destruct Ho as (Hb & ->). split; try done.
  split; [|done]. unfold bottom_at in *. cbn. rewrite Hb, Zminus_mod_idemp_l. f_equal. lia.
Qed.

Lemma pop_load_last s l b t :
  inv s l → q_owner s = PopLoad b → q_elems s !! Z.to_nat b = Some t → l ≠ [] → last l = Some t.
Proof.
  intros [Ha He Hl Hy Ho Ht] Eo Hx Hne. rewrite Eo in Ho. destruct Ho as (Hb & ->).
  destruct (exists_last Hne) as (l' & x & ->). rewrite last_snoc. rewrite <- Hx.
  rewrite <- (Hy (length l') x) by by rewrite list_lookup_middle.
  f_equal. f_equal. rewrite Hb, length_app. cbn. f_equal. lia.
Qed.

(** The owner takes its element when more than one is left. *)
Lemma inv_pop_fast s l b t :
  inv s l → q_owner s = PopTop b t → size N b (top s) > 0 →
  ∃ l', l = l' ++ [t] ∧ inv (set_owner s Idle) l'.
Proof.
  intros Hi Eo Hs. pose proof Hi as [Ha He Hl Hy Ho Ht]. rewrite Eo in Ho. destruct Ho as (Hb & -> & Hlast).
  assert (Hl' : 1 < len l).
  { rewrite Hb in Hs. rewrite <- Z.add_assoc, size_spec in Hs by (unfold max_elems in Hl; lia). lia. }
  destruct l as [|x0 l0] using rev_ind; [done|]. clear IHl0. specialize (Hlast ltac:(by destruct l0)).
  rewrite last_snoc in Hlast. injection Hlast as ->. rewrite length_app in *. cbn in Hl, Hl'.
  exists l0. split; [done|]. split; try done.
  - lia.
  - intros i x Hx. apply Hy. by apply lookup_app_l_Some.
  - unfold owner_ok, bottom_at in *. cbn. rewrite Hb, length_app. cbn. f_equal. lia.
  - intros j pc Hj. eapply thief_ok_same; [| |by apply (Ht j)]; [done|]. intros. destruct l0; [cbn in Hl'; lia|done].
Qed.

Lemma pop_slow_len s l b t :
  inv s l → q_owner s = PopTop b t → ¬ size N b (top s) > 0 → owner_ok s l (PopAge b t).
Proof.
  intros [Ha He Hl Hy Ho Ht] Eo Hs. rewrite Eo in Ho. destruct Ho as (Hb & -> & Hlast). split_and!; try done.
  rewrite Hb in Hs. rewrite <- Z.add_assoc, size_spec in Hs by (unfold max_elems in Hl; lia). lia.
Qed.

(** In the slow path the queue holds the contested element, or nothing. *)
Lemma pop_age_ok s l b t :
  inv s l → q_owner s = PopAge b t →
  owner_ok s l (if b =? top s then PopCas b t (q_age s) else PopReset b (q_age s)).
Proof.
  intros [Ha He Hl Hy Ho Ht] Eo. rewrite Eo in Ho. destruct Ho as (Hb & -> & Hlast & H1). pose proof N_range.
  destruct l as [|x [|y l]]; [| |cbn in H1; lia].
  - replace (q_bottom s =? top s) with false; [cbn; split_and!; try done; by left|].
    symmetry. apply Z.eqb_neq. rewrite Hb. cbn. intros Heq. rewrite Z.add_0_r in Heq.
    rewrite <- (Z.mod_small (top s) N) in Heq at 2 by apply Ha.
    rewrite <- (Z.add_0_r (top s)) in Heq at 2.
    replace (top s + -1) with (top s + (N - 1) + (-1) * N) in Heq by lia. rewrite Z.mod_add in Heq by lia.
    apply mod_offset_inj in Heq; lia.
  - specialize (Hlast ltac:(done)). injection Hlast as ->.
    assert (q_bottom s = top s) as Et.
    { rewrite Hb. replace (top s + len [t] + -1) with (top s) by (cbn; lia). apply Z.mod_small, Ha. }
    rewrite Et, Z.eqb_refl. cbn. rewrite Et. split_and!; try done; try apply Ha. by left.
Qed.

(** The owner installs the age of the empty queue. *)
Lemma inv_empty s l b old :
  inv s l → age_ok old → q_bottom s = b → 0 <= b < N →
  (q_age s = old ∨ a_top old = b ∧ q_age s = increment N old) →
  q_overflowed (set_age s (empty_age b old)) = false →
  inv (set_owner (set_age s (empty_age b old)) Idle) [].
Proof.
  intros [Ha He Hl Hy Ho Ht] Hold Hb Hr Hc Hov.
  destruct (empty_age_spec s b old Hold Hr Ha Hc Hov) as [Hok Hm]. pose proof N_range.
  split; try done.
  - unfold max_elems. cbn. lia.
  - unfold owner_ok, bottom_at. cbn. rewrite !Z.add_0_r, Z.mod_small by lia. done.
  - intros j pc Hj. eapply thief_ok_newer; [|by apply (Ht j)]. exact Hm.
Qed.

(** A thief takes the first element, whatever the owner is doing. *)
Lemma owner_ok_steal s l t pc (s' : state) :
  owner_ok s (t :: l) pc → q_bottom s' = q_bottom s → q_elems s' = q_elems s →
  top s' = (top s + 1) mod N → q_age s' = increment N (q_age s) → measure (q_age s) < measure (q_age s') →
  owner_ok s' l pc.
Proof.
  intros Ho Eb Ee Et Ei Hm.
  assert (Hat : ∀ off, bottom_at s (t :: l) off → bottom_at s' l off).
  { unfold bottom_at. intros off ->%(eq_trans Eb). rewrite Et, <- !Z.add_assoc, Zplus_mod_idemp_l. f_equal. cbn. lia. }
  assert (Hlast : ∀ x, (t :: l ≠ [] → last (t :: l) = Some x) → l ≠ [] → last l = Some x).
  { intros x Hx Hne. rewrite <- Hx by done. by destruct l. }
  destruct pc as [|x b|x b|b|b|b x|b x|b x old|b old]; cbn [owner_ok] in *; rewrite ?Eb, ?Ee; cbn [length] in Ho.
  - auto.
  - destruct Ho as (? & ? & ?). split_and!; auto. lia.
  - destruct Ho as (? & ? & ? & ?). split_and!; auto. lia.
  - destruct Ho. auto.
  - destruct Ho. auto.
  - destruct Ho as (? & ? & ?). auto.
  - destruct Ho as (? & ? & ? & ?). split_and!; auto. lia.
  - destruct Ho as (? & ? & ? & ? & [[Eo [= -> ->]]|(_ & ? & _)]); [|done]. split_and!; auto.
    right. rewrite Ei, Eo in *. auto.
  - by destruct Ho as (_ & _ & _ & ? & _).
Qed.

Lemma inv_steal s l j a t :
  inv s l → q_thieves s !! j = Some (Steal a t) → q_age s = a →
  q_overflowed (set_age s (increment N a)) = false →
  ∃ l', l = t :: l' ∧ inv (set_thief (set_age s (increment N a)) j Away) l'.
Proof.
  intros [Ha He Hl Hy Ho Ht] Hj Ea Hov. destruct (Ht j _ Hj) as (Hok & _ & Hhd). specialize (Hhd Ea).
  destruct l as [|x l]; [done|]. injection Hhd as ->. exists l. split; [done|].
  destruct (increment_spec s a Hok Ea Hov) as (Hok' & Hm & Htop). subst a. cbn [length] in Hl.
  split; cbn [set_thief set_age q_age q_elems q_owner q_thieves]; try done.
  - lia.
  - intros i x Hx. rewrite Htop, Zplus_mod_idemp_l. rewrite <- (Hy (S i) x Hx). do 3 f_equal. lia.
  - eapply owner_ok_steal; try done. cbn. lia.
  - intros i pc [(<- & <- & _)|[_ Hi]]%list_lookup_insert_Some; [done|].
    eapply thief_ok_newer; [|by apply (Ht i)]. cbn. lia.
Qed.

(** A thief that has seen a non-empty queue: it is so unless the age has changed. *)
Lemma thief_bottom_ok s l a :
  inv s l → thief_ok s l (ReadBottom a) → size N (q_bottom s) (a_top a) ≠ 0 → thief_ok s l (ReadElem a).
Proof.
  intros [Ha He Hl Hy Ho Ht] [Hok Hm] Hs. split_and!; [done|done|]. intros <- ->. apply Hs.
  assert (∃ off, -1 <= off <= 0 ∧ bottom_at s [] off) as (off & Hoff & Hb).
  { destruct (q_owner s); cbn in Ho; first [exists 0; split; [lia|tauto]|exists (-1); split; [lia|tauto]]. }
  rewrite Hb. cbn [length]. rewrite <- Z.add_assoc, size_spec; cbn; pose proof N_range; lia.
Qed.

Lemma thief_elem_ok s l a t :
  inv s l → thief_ok s l (ReadElem a) → q_elems s !! Z.to_nat (a_top a) = Some t → thief_ok s l (Steal a t).
Proof.
  intros [Ha He Hl Hy Ho Ht] (Hok & Hm & Hne) Hx. split_and!; [done|done|]. intros <-.
  destruct l as [|x l]; [by destruct Hne|]. specialize (Hy O x eq_refl).
  rewrite Z.add_0_r, Z.mod_small in Hy by apply Ha. cbn. congruence.
Qed.

Lemma overflowed_mono e (s s' : state) : step N e s s' → q_overflowed s' = false → q_overflowed s = false.
Proof. intros Hs. destruct Hs; cbn; try done; by intros [? _]%orb_false_iff. Qed.

Lemma push_test_spec s l :
  inv s l → q_owner s = Idle → push_test N (q_bottom s) (top s) = (len l <? max_elems N).
Proof.
  intros [Ha He Hl Hy Ho Ht] Eo. rewrite Eo in Ho. unfold push_test. pose proof N_range. unfold max_elems in *.
  rewrite Ho, Z.add_0_r, dirty_size_spec by lia. rewrite (proj2 (Z.eqb_neq (len l) (-1))), (proj2 (Z.eqb_neq (len l) (N - 1))) by lia.
  apply orb_false_r.
Qed.

Lemma dirty_idle s l : inv s l → q_owner s = Idle → dirty_size N (q_bottom s) (top s) = len l.
Proof.
  intros [Ha He Hl Hy Ho Ht] Eo. rewrite Eo in Ho. unfold max_elems in *.
  rewrite Ho, Z.add_0_r, dirty_size_spec by lia. by rewrite (proj2 (Z.eqb_neq (len l) (-1))) by lia.
Qed.

(** Every step is silent or one operation of the double-ended queue. *)
Lemma queue_step e s s' l :
  inv s l → step N e s s' → q_overflowed s' = false →
  ∃ l', inv s' l' ∧ match e with None => l' = l | Some e => deque_step N l e l' end.
Proof.
  intros Hi Hs Hov. pose proof (i_owner _ _ Hi) as Ho. destruct Hs as
    [s t E1 E2|s t E1 E2|s t b E1|s t b E1|s E1 E2|s E1 E2|s b E1|s b t E1 E2|s b t E1 E2|s b t E1 E2|s b t E1
    |s b t old E1 E2|s b t old E1 E2|s b old E1|s j Hj|s j a Hj E2|s j a Hj E2|s j a t Hj E2|s j a t Hj E2|s j a t Hj E2];
    try (rewrite E1 in Ho); try (pose proof (i_thieves _ _ Hi _ _ Hj) as Ht).
  - exists l. split; [|done]. apply inv_set_owner; [done|]. rewrite (push_test_spec s l) in E2 by done.
    split_and!; [done|done|]. by apply Z.ltb_lt.
  - exists l. split; [done|]. rewrite (push_test_spec s l) in E2 by done. apply Z.ltb_ge in E2.
    constructor. pose proof (i_length _ _ Hi). lia.
  - exists l. split; [by apply inv_push_store|done].
  - exists (l ++ [t]). split; [by apply inv_push_publish|constructor].
  - exists l. split; [done|]. rewrite (dirty_idle s l) in E2 by done. destruct l; [constructor|done].
  - exists l. split; [|done]. apply inv_set_owner; [done|]. split; [done|]. unfold decrement_index. by rewrite mask_mod.
  - exists l. split; [by apply inv_pop_store|done].
  - exists l. split; [|done]. apply inv_set_owner; [done|]. destruct Ho. split_and!; [done|done|].
    by apply (pop_load_last s l b).
  - destruct (inv_pop_fast s l b t Hi E1 E2) as (l' & -> & Hi'). exists l'. split; [done|constructor].
  - exists l. split; [|done]. apply inv_set_owner; [done|]. by apply pop_slow_len.
  - exists l. split; [|done]. apply inv_set_owner; [done|]. by apply pop_age_ok.
  - destruct Ho as (Hb & Eb & Hok & Et & Hc). exists []. split.
    + apply (inv_empty s l b old); try done; [rewrite Eb; by eapply bottom_range|by left].
    + destruct Hc as [[_ ->]|(_ & _ & Hm)]; [apply (deque_pop N [] t)|rewrite E2 in Hm; lia].
  - destruct Ho as (Hb & Eb & Hok & Et & Hc). exists l. split; [|done]. apply inv_set_owner; [done|].
    destruct Hc as [[? _]|(? & ? & _)]; [done|]. split_and!; try done. by right.
  - destruct Ho as (Hb & Eb & Hok & -> & Hc). exists []. split; [|constructor].
    apply (inv_empty s [] b old); try done. rewrite Eb. by eapply bottom_range.
  - exists l. split; [|done]. apply inv_set_thief; [done|]. split; [apply Hi|lia].
  - exists l. split; [by apply inv_set_thief|constructor].
  - exists l. split; [|done]. apply inv_set_thief; [done|]. by apply thief_bottom_ok.
  - exists l. split; [|done]. apply inv_set_thief; [done|]. by apply thief_elem_ok.
  - destruct (inv_steal s l j a t Hi Hj E2 Hov) as (l' & -> & Hi'). exists l'. split; [done|constructor].
  - exists l. split; [by apply inv_set_thief|constructor].
Qed.

(** ** Progress *)

Lemma elem_defined s l i : inv s l → 0 <= i < N → ∃ t, q_elems s !! Z.to_nat i = Some t.
Proof.
  intros Hi Hr. destruct (lookup_lt_is_Some_2 (q_elems s) (Z.to_nat i)) as [t Ht]; [|by exists t].
  pose proof (i_elems _ _ Hi). lia.
Qed.

Lemma owner_can_step s l : inv s l → ∃ e s', step N e s s' ∧ q_thieves s' = q_thieves s.
Proof.
  intros Hi. pose proof (i_owner _ _ Hi) as Ho. destruct (q_owner s) as [|t b|t b|b|b|b t|b t|b t old|b old] eqn:E1.
  - destruct (decide (dirty_size N (q_bottom s) (top s) = 0)); eexists _, _; split;
      [by apply step_pop_empty|done|by apply step_pop|done].
  - eexists _, _. split; [by eapply step_push_store|done].
  - eexists _, _. split; [by eapply step_push_publish|done].
  - eexists _, _. split; [by eapply step_pop_store|done].
  - destruct Ho as [Hb ->]. destruct (elem_defined s l (q_bottom s) Hi) as [t Ht]; [by eapply bottom_range|].
    eexists _, _. split; [by eapply step_pop_load|done].
  - destruct (decide (size N b (top s) > 0)); eexists _, _; split;
      [by eapply step_pop_fast|done|by eapply step_pop_slow|done].
  - eexists _, _. split; [by eapply step_pop_age|done].
  - destruct (decide (q_age s = old)); eexists _, _; split;
      [by eapply step_pop_cas|done|by eapply step_pop_cas_fails|done].
  - eexists _, _. split; [by eapply step_pop_reset|done].
Qed.

Lemma thief_can_step s l j pc :
  inv s l → q_thieves s !! j = Some pc →
  ∃ e s' pc', step N e s s' ∧ q_owner s' = q_owner s ∧ q_thieves s' !! j = Some pc' ∧ pc' ≠ pc.
Proof.
  intros Hi Hj. pose proof (i_thieves _ _ Hi j pc Hj) as Ht. assert (Hlt := lookup_lt_Some _ _ _ Hj).
  assert (Hins : ∀ q, <[j := q]> (q_thieves s) !! j = Some q) by (intros; by apply list_lookup_insert_eq).
  destruct pc as [|a|a|a t].
  - eexists _, _, _. split; [by apply (step_steal N s j)|]. split; [done|]. by split; [apply Hins|].
  - destruct (decide (size N (q_bottom s) (a_top a) = 0)); eexists _, _, _;
      (split; [first [by eapply (step_steal_empty N s j)|by eapply (step_steal_bottom N s j)]|]);
      (split; [done|]); by split; [apply Hins|].
  - destruct Ht as ([Hr _] & _). destruct (elem_defined s l (a_top a) Hi Hr) as [t Ht'].
    eexists _, _, _. split; [by eapply (step_steal_load N s j)|]. split; [done|]. by split; [apply Hins|].
  - destruct (decide (q_age s = a)); eexists _, _, _;
      (split; [first [by eapply (step_steal_cas N s j)|by eapply (step_steal_fails N s j)]|]);
      (split; [done|]); by split; [apply Hins|].
Qed.

(** ** Whole runs *)

Definition pushed (tr : list (event E)) : list E :=
  omap (λ e, match e with Pushed t => Some t | _ => None end) tr.
Definition popped (tr : list (event E)) : list E :=
  omap (λ e, match e with PoppedLocal t | Stolen t => Some t | _ => None end) tr.

Lemma deque_conserves tr l : deque_run N [] tr l → popped tr ++ l ≡ₚ pushed tr.
Proof.
  intros Hr. remember [] as l0 eqn:E0. induction Hr as [l|l1 l2 l3 tr e _ IH Hs]; [by rewrite E0|].
  specialize (IH E0). unfold pushed, popped in *. rewrite !omap_app.
  destruct Hs as [l t|l t _|l t| |l t|l]; cbn; rewrite ?app_nil_r; try done.
  - by rewrite app_assoc, IH.
  - rewrite <- IH. rewrite <- app_assoc. f_equiv. apply Permutation_app_comm.
  - by rewrite app_nil_r in IH.
  - by rewrite <- IH, <- app_assoc.
Qed.

Lemma inv_initial_queue elems thieves : len elems = N → inv (initial elems thieves) [].
Proof.
  intros He. pose proof N_range. split; try done.
  - split; cbn; [lia|unfold in_u32; lia].
  - unfold max_elems. cbn. lia.
  - intros j pc Hj%list_elem_of_lookup_2. cbn in Hj. apply elem_of_replicate in Hj as [-> _]. done.
Qed.

Lemma run_simulated elems thieves tr s :
  len elems = N → run N (initial elems thieves) tr s → q_overflowed s = false →
  ∃ l, inv s l ∧ deque_run N [] tr l.
Proof.
  intros He Hr. remember (initial elems thieves) as s0 eqn:E0.
  induction Hr as [s|s1 s2 s3 tr _ IH Hs|s1 s2 s3 tr e _ IH Hs]; intros Hov.
  - subst. exists []. split; [by apply inv_initial_queue|constructor].
  - destruct (IH E0 (overflowed_mono _ _ _ Hs Hov)) as (l & Hi & Hd).
    destruct (queue_step _ _ _ _ Hi Hs Hov) as (l' & Hi' & ->). by exists l.
  - destruct (IH E0 (overflowed_mono _ _ _ Hs Hov)) as (l & Hi & Hd).
    destruct (queue_step _ _ _ _ Hi Hs Hov) as (l' & Hi' & Hl). exists l'. split; [done|by econstructor].
Qed.

(** C13: The task queue is a linearizable double-ended queue: as long as the
    tag has not overflowed, the results of every interleaved run of the owner
    and any number of thieves are those of a sequential queue of at most
    [N - 2] elements in which the owner pushes and pops at one end (failing
    exactly when it is full or empty) and thieves take from the other; every
    element pushed is handed out at most once and none is lost; between the
    owner's operations the size it computes is exact; and no thread is ever
    stuck. *)
Theorem task_queue_linearizable elems thieves tr s :
  len elems = N → run N (initial elems thieves) tr s → q_overflowed s = false →
  ∃ l, deque_run N [] tr l ∧ popped tr ++ l ≡ₚ pushed tr ∧ len l <= max_elems N ∧
    (q_owner s = Idle → size N (q_bottom s) (top s) = len l) ∧
    (∃ e s', step N e s s' ∧ q_thieves s' = q_thieves s) ∧
    (∀ j pc, q_thieves s !! j = Some pc →
       ∃ e s' pc', step N e s s' ∧ q_owner s' = q_owner s ∧ q_thieves s' !! j = Some pc' ∧ pc' ≠ pc).
Proof.
  intros He Hr Hov. destruct (run_simulated elems thieves tr s He Hr Hov) as (l & Hi & Hd).
  exists l. split_and!; [done|by apply deque_conserves|apply Hi| |by eapply owner_can_step|].
  - intros Eo. unfold size. rewrite (dirty_idle s l) by done. pose proof (i_length _ _ Hi). unfold max_elems in *.
    by rewrite (proj2 (Z.eqb_neq (len l) (N - 1))) by lia.
  - intros j pc Hj. by eapply thief_can_step.
Qed.

End facts.

(** The random numbers stay in the range of the generator, without overflow. *)
Lemma randomParkAndMiller_range seed :
  0 < seed < 2147483647 → 0 < randomParkAndMiller seed < 2147483647.
Proof.
  intros Hs. unfold randomParkAndMiller. rewrite Z.quot_div_nonneg, Z.rem_mod_nonneg by lia.
  assert (0 <= seed mod 127773 < 127773) by (apply Z.mod_pos_bound; lia).
  assert (0 <= seed / 127773 < 16808) by (split; [apply Z.div_pos; lia|apply Z.div_lt_upper_bound; lia]).
  pose proof (Z.div_mod seed 127773 ltac:(lia)).
  rewrite (i32_small (16807 * _)), (i32_small (2836 * _)) by lia. rewrite i32_small by lia.
  destruct (Z.leb_spec (16807 * (seed mod 127773) - 2836 * (seed / 127773)) 0).
  - rewrite gtb_false by done. rewrite i32_small by lia. lia.
  - rewrite gtb_true by lia. lia.
Qed.

End TaskQueueFacts.

(** * The race for the last element *)

Module TaskQueueDemo.
Import TaskQueue TaskQueueFacts.

Ltac silent H st := eapply run_silent in H; [|eapply st; done].
Ltac returns H st := eapply run_event in H; [|eapply st; done].

(** The owner pops the only element while a thief has already read it. *)
Lemma demo_run :
  ∃ s, run 4 (initial [0; 0; 0; 0] 1) [Pushed 7; PoppedLocal 7; StealFailed] s ∧
    q_owner s = Idle ∧ q_overflowed s = false.
Proof.
  assert (H := run_refl 4 (initial [0; 0; 0; 0] 1)).
  silent H (step_push 4 (initial [0; 0; 0; 0] 1) 7). silent H @step_push_store. returns H @step_push_publish.
  eapply run_silent in H; [|by apply (step_steal 4 _ O)].
  eapply run_silent in H; [|by eapply (step_steal_bottom 4 _ O)].
  eapply run_silent in H; [|by eapply (step_steal_load 4 _ O)].
  silent H @step_pop. silent H @step_pop_store. silent H @step_pop_load. silent H @step_pop_slow.
  silent H @step_pop_age. returns H @step_pop_cas.
  eapply run_event in H; [|by eapply (step_steal_fails 4 _ O)].
  eexists. split; [exact H|]. by split.
Qed.

Lemma task_queue_linearizable_witness :
  ∃ s l, run 4 (initial [0; 0; 0; 0] 1) [Pushed 7; PoppedLocal 7; StealFailed] s ∧
    deque_run 4 [] [Pushed 7; PoppedLocal 7; StealFailed] l ∧
    popped [Pushed 7; PoppedLocal 7; StealFailed] ++ l ≡ₚ pushed [Pushed 7; PoppedLocal 7; StealFailed].
Proof.
  destruct demo_run as (s & Hr & _ & Ho).
  destruct (task_queue_linearizable 4 2 ltac:(lia) eq_refl [0; 0; 0; 0] 1
    [Pushed 7; PoppedLocal 7; StealFailed] s eq_refl Hr Ho) as (l & Hd & Hp & _).
  exists s, l. split; [exact Hr|]. split; [exact Hd|exact Hp].
Defined.

End TaskQueueDemo.

(** * Termination of the workers

    [G1ParEvacuateFollowersClosure::do_void] with [trim_queue]
    ([g1CollectedHeap.cpp]), [OverflowTaskQueue] and
    [ParallelTaskTerminator::offer_termination]. A worker's queue is the
    double-ended queue that [TaskQueue] implements; an operation on it is one
    step. [peek_in_queue_set] looks at the queues one after the other while
    they change, so either answer is possible; spinning and yielding change
    nothing. *)

Module Terminator.

Inductive phase :=
  | TrimOverflow                       (* trim_queue: drain the overflow stack *)
  | TrimLocal                          (* drain the queue *)
  | TrimCheck                          (* both empty? *)
  | Deal (task : Z) (next : phase)     (* deal_with_reference *)
  | Stealing                           (* queues()->steal *)
  | Offered                            (* the loop of offer_termination *)
  | Peeking                            (* peek_in_queue_set *)
  | Withdrawing                        (* work was seen *)
  | Finished.                          (* offer_termination returned true *)

Record worker := mkWorker { w_phase : phase; w_queue : list Z; w_overflow : list Z }.

(** [t_found] and [t_dealt] record the references found and dealt with. *)
Record state := mkState {
  t_workers : list worker;
  t_offered : Z;
  t_found : list Z;
  t_dealt : list Z
}.

Definition set_phase (w : worker) (p : phase) : worker := mkWorker p (w_queue w) (w_overflow w).
Definition put (s : state) (i : nat) (w : worker) : state :=
  mkState (<[i := w]> (t_workers s)) (t_offered s) (t_found s) (t_dealt s).
Definition offer (s : state) (n : Z) : state := mkState (t_workers s) (t_offered s + n) (t_found s) (t_dealt s).

Section terminator.
(** The capacity of a queue. *)
Variable max_elems : Z.

Definition overflow_push (w : worker) (t : Z) : worker :=
  if Z.of_nat (length (w_queue w)) <? max_elems then mkWorker (w_phase w) (w_queue w ++ [t]) (w_overflow w)
  else mkWorker (w_phase w) (w_queue w) (t :: w_overflow w).

Definition n_threads (s : state) : Z := Z.of_nat (length (t_workers s)).

Inductive worker_step : state → state → Prop :=
  (* trim_queue *)
  | step_pop_overflow s i q t o :
      t_workers s !! i = Some (mkWorker TrimOverflow q (t :: o)) →
      worker_step s (put s i (mkWorker (Deal t TrimOverflow) q o))
  | step_overflow_empty s i q :
      t_workers s !! i = Some (mkWorker TrimOverflow q []) → worker_step s (put s i (mkWorker TrimLocal q []))
  | step_pop_local s i q t o :
      t_workers s !! i = Some (mkWorker TrimLocal (q ++ [t]) o) → worker_step s (put s i (mkWorker (Deal t TrimLocal) q o))
  | step_local_empty s i o :
      t_workers s !! i = Some (mkWorker TrimLocal [] o) → worker_step s (put s i (mkWorker TrimCheck [] o))
  | step_again s i q o :
      t_workers s !! i = Some (mkWorker TrimCheck q o) → q ≠ [] ∨ o ≠ [] →
      worker_step s (put s i (mkWorker TrimOverflow q o))
  | step_trimmed s i :
      t_workers s !! i = Some (mkWorker TrimCheck [] []) → worker_step s (put s i (mkWorker Stealing [] []))
  (* deal_with_reference pushes the references it finds *)
  | step_push s i w t next t' :
      t_workers s !! i = Some w → w_phase w = Deal t next →
      worker_step s (put (mkState (t_workers s) (t_offered s) (t' :: t_found s) (t_dealt s)) i (overflow_push w t'))
  | step_dealt s i w t next :
      t_workers s !! i = Some w → w_phase w = Deal t next →
      worker_step s (put (mkState (t_workers s) (t_offered s) (t_found s) (t :: t_dealt s)) i (set_phase w next))
  (* do_void *)
  | step_steal s i j wi t q o p :
      i ≠ j → t_workers s !! i = Some wi → w_phase wi = Stealing → t_workers s !! j = Some (mkWorker p (t :: q) o) →
      worker_step s (put (put s i (set_phase wi (Deal t TrimOverflow))) j (mkWorker p q o))
  | step_steal_fails s i w :
      t_workers s !! i = Some w → w_phase w = Stealing → worker_step s (offer (put s i (set_phase w Offered)) 1)
  (* offer_termination *)
  | step_all_offered s i w :
      t_workers s !! i = Some w → w_phase w = Offered → t_offered s = n_threads s →
      worker_step s (put s i (set_phase w Finished))
  | step_not_all s i w :
      t_workers s !! i = Some w → w_phase w = Offered → t_offered s ≠ n_threads s →
      worker_step s (put s i (set_phase w Peeking))
  | step_peek s i w (seen : bool) :
      t_workers s !! i = Some w → w_phase w = Peeking →
      worker_step s (put s i (set_phase w (if seen then Withdrawing else Offered)))
  | step_withdraw s i w :
      t_workers s !! i = Some w → w_phase w = Withdrawing → worker_step s (offer (put s i (set_phase w Stealing)) (-1)).

End terminator.

(** The workers start with the references that the root scan has pushed. *)
Definition initial (queues overflows : list (list Z)) : state :=
  mkState (zip_with (mkWorker TrimOverflow) queues overflows) 0 (concat queues ++ concat overflows) [].

End Terminator.

Module TerminatorFacts.
Import Terminator.

Section facts.
Variable max_elems : Z.

(** The references a worker still has: queued, overflowed or in its hands. *)
Definition hand (p : phase) : list Z := match p with Deal t _ => [t] | _ => [] end.
Definition work (w : worker) : list Z := hand (w_phase w) ++ w_queue w ++ w_overflow w.

Definition has_offered (w : worker) : Z :=
  match w_phase w with Offered | Peeking | Withdrawing | Finished => 1 | _ => 0 end.

(** A worker that has trimmed its queue has no work until it steals some. *)
Definition trimmed (w : worker) : bool :=
  match w_phase w with Stealing | Offered | Peeking | Withdrawing | Finished => true | _ => false end.

Definition next_ok (w : worker) : Prop :=
  match w_phase w with Deal _ next => next = TrimOverflow ∨ next = TrimLocal | _ => True end.

Record inv (s : state) : Prop := mkInv {
  i_offered : t_offered s = sum_by has_offered (t_workers s);
  i_trimmed : ∀ i w, t_workers s !! i = Some w → trimmed w = true → work w = [];
  i_next : ∀ i w, t_workers s !! i = Some w → next_ok w;
  i_work : t_found s ≡ₚ t_dealt s ++ (t_workers s ≫= work)
}.

(** Nothing is left to do and nobody can find anything. *)
Definition quiet (s : state) : Prop := ∀ i w, t_workers s !! i = Some w → trimmed w = true.

(** One worker changes what it has, and what has been found or dealt with. *)
Lemma inv_change s i w w' found dealt n :
  inv s → t_workers s !! i = Some w → n = has_offered w' - has_offered w →
  (trimmed w' = true → work w' = []) → next_ok w' → found ++ work w ≡ₚ dealt ++ work w' →
  inv (mkState (<[i := w']> (t_workers s)) (t_offered s + n) (found ++ t_found s) (dealt ++ t_dealt s)).
Proof.
  intros [Ho Ht Hn Hw] Hi En Ht' Hn' Hp. split; cbn [t_workers t_offered t_found t_dealt].
  - rewrite (sum_by_insert _ _ i w) by done. lia.
  - intros j v [(<- & <- & _)|[_ Hj]]%list_lookup_insert_Some; [done|by eapply Ht].
  - intros j v [(<- & <- & _)|[_ Hj]]%list_lookup_insert_Some; [done|by eapply Hn].
  - apply (Permutation_app_inv_r (work w)). rewrite <- !app_assoc, (bind_insert_perm work _ i w w' Hi), Hw.
    rewrite (Permutation_app_comm (t_dealt s ++ _) (work w)), app_assoc, Hp, <- app_assoc. f_equiv.
    rewrite (Permutation_app_comm (work w')). by rewrite <- app_assoc.
Qed.

(** The same with nothing found or dealt with, and the number of offers unchanged. *)
Lemma inv_phase s i w w' :
  inv s → t_workers s !! i = Some w → has_offered w' = has_offered w →
  (trimmed w' = true → work w' = []) → next_ok w' → work w ≡ₚ work w' → inv (put s i w').
Proof.
  intros Hi Hw Ho Ht Hn Hp. pose proof (inv_change s i w w' [] [] 0 Hi Hw) as H.
  rewrite Z.add_0_r in H. apply H; [lia|done..].
Qed.

Lemma inv_steal_task s i j wi t q o p :
  inv s → i ≠ j → t_workers s !! i = Some wi → w_phase wi = Stealing → t_workers s !! j = Some (mkWorker p (t :: q) o) →
  inv (put (put s i (set_phase wi (Deal t TrimOverflow))) j (mkWorker p q o)).
Proof.
  intros Hi Hij Hwi Ep Hwj. pose proof Hi as [Ho Ht Hn Hw]. set (wi' := set_phase wi (Deal t TrimOverflow)).
  assert (Hwj' : <[i := wi']> (t_workers s) !! j = Some (mkWorker p (t :: q) o)) by by rewrite list_lookup_insert_ne.
  assert (Ewi : work wi = []) by (apply (Ht i wi Hwi); unfold trimmed; by rewrite Ep).
  assert (Ewi' : work wi' = [t]).
  { unfold work in *. rewrite Ep in Ewi. cbn in Ewi |- *. by rewrite Ewi. }
  split; cbn [put t_workers t_offered t_found t_dealt].
  - rewrite (sum_by_insert _ _ j (mkWorker p (t :: q) o)), (sum_by_insert _ _ i wi) by done. rewrite Ho.
    assert (has_offered wi = 0) as -> by (unfold has_offered; by rewrite Ep).
    change (has_offered wi') with 0. change (has_offered (mkWorker p (t :: q) o)) with (has_offered (mkWorker p q o)). lia.
  - intros x v [(<- & <- & _)|[_ Hx]]%list_lookup_insert_Some.
    + intros Htr. specialize (Ht j _ Hwj Htr). unfold work in Ht. cbn in Ht. destruct (hand p); done.
    + apply list_lookup_insert_Some in Hx as [(_ & <- & _)|[_ Hx]]; [done|by eapply Ht].
  - intros x v [(<- & <- & _)|[_ Hx]]%list_lookup_insert_Some; [exact (Hn j _ Hwj)|].
    apply list_lookup_insert_Some in Hx as [(_ & <- & _)|[_ Hx]]; [by left|by eapply Hn].
  - pose proof (bind_insert_perm work _ i wi wi' Hwi) as H1. rewrite Ewi, Ewi', app_nil_r in H1.
    pose proof (bind_insert_perm work _ j _ (mkWorker p q o) Hwj') as H2. rewrite H1 in H2.
    assert (E2 : work (mkWorker p (t :: q) o) ≡ₚ t :: work (mkWorker p q o)).
    { unfold work. cbn. symmetry. apply Permutation_middle. }
    rewrite E2, <- app_assoc in H2. rewrite Hw. f_equiv.
    apply (Permutation_app_inv_r (t :: work (mkWorker p q o))). rewrite H2. done.
Qed.

Lemma work_push w t : w_phase w = w_phase (overflow_push max_elems w t) ∧ work (overflow_push max_elems w t) ≡ₚ t :: work w.
Proof.
  unfold overflow_push. destruct (_ <? _); (split; [done|]); unfold work; cbn.
  - rewrite <- (app_assoc (w_queue w)), (app_assoc (hand _)). cbn. by rewrite <- Permutation_middle, <- app_assoc.
  - by rewrite (app_assoc (hand _)), <- Permutation_middle, <- app_assoc.
Qed.

(** A worker without work goes through [offer_termination]. *)
Lemma inv_idle s i w p n :
  inv s → t_workers s !! i = Some w → trimmed w = true → hand p = [] →
  n = has_offered (set_phase w p) - has_offered w → inv (offer (put s i (set_phase w p)) n).
Proof.
  intros Hi Hw Htr Hp Hn. pose proof (i_trimmed _ Hi i w Hw Htr) as Ew.
  assert (Ew' : work (set_phase w p) = []).
  { unfold work in *. cbn. rewrite Hp. by apply app_eq_nil in Ew as [_ ->]. }
  apply (inv_change s i w (set_phase w p) [] [] n Hi Hw Hn); [done|unfold next_ok; by destruct p|by rewrite Ew, Ew'].
Qed.

Lemma inv_idle_same s i w p :
  inv s → t_workers s !! i = Some w → trimmed w = true → hand p = [] →
  has_offered (set_phase w p) = has_offered w → inv (put s i (set_phase w p)).
Proof.
  intros Hi Hw Htr Hp Hn. pose proof (inv_idle s i w p 0 Hi Hw Htr Hp) as H.
  unfold offer in H. rewrite Z.add_0_r in H. apply H. lia.
Qed.

Lemma inv_step_terminator s s' : inv s → worker_step max_elems s s' → inv s'.
Proof.
  intros Hi Hs. destruct Hs as
    [s i q t o Hw|s i q Hw|s i q t o Hw|s i o Hw|s i q o Hw Hne|s i Hw|s i w t next t' Hw Ep|s i w t next Hw Ep
    |s i j wi t q o p Hij Hwi Ep Hwj|s i w Hw Ep|s i w Hw Ep Hc|s i w Hw Ep Hc|s i w seen Hw Ep|s i w Hw Ep];
    try (by eapply inv_phase).
  - eapply inv_phase; [done|exact Hw|done|done|by left|]. unfold work. cbn. symmetry. apply Permutation_middle.
  - eapply inv_phase; [done|exact Hw|done|done|by right|]. unfold work. cbn. rewrite <- app_assoc. cbn.
    symmetry. apply Permutation_middle.
  - destruct (work_push w t') as [Ep' Hp].
    pose proof (inv_change s i w (overflow_push max_elems w t') [t'] [] 0 Hi Hw) as H. rewrite Z.add_0_r in H.
    apply H; [unfold has_offered; rewrite <- Ep'; lia| | |by rewrite Hp].
    + unfold trimmed. by rewrite <- Ep', Ep.
    + pose proof (i_next _ Hi i w Hw) as Hn. unfold next_ok in *. by rewrite <- Ep'.
  - pose proof (inv_change s i w (set_phase w next) [] [t] 0 Hi Hw) as H. rewrite Z.add_0_r in H.
    pose proof (i_next _ Hi i w Hw) as Hn. unfold next_ok in Hn. rewrite Ep in Hn.
    apply H; unfold has_offered, trimmed, next_ok, work; cbn; rewrite ?Ep; by destruct Hn as [-> | ->].
  - by eapply inv_steal_task.
  - apply inv_idle; try done; unfold trimmed, has_offered; cbn; by rewrite Ep.
  - apply inv_idle_same; try done; unfold trimmed, has_offered; cbn; by rewrite Ep.
  - apply inv_idle_same; try done; unfold trimmed, has_offered; cbn; by rewrite Ep.
  - apply inv_idle_same; try done; unfold trimmed, has_offered; cbn; rewrite ?Ep; by destruct seen.
  - apply inv_idle; try done; unfold trimmed, has_offered; cbn; by rewrite Ep.
Qed.

(** ** Nothing is left when a worker returns *)

Lemma quiet_put s i w p :
  quiet s → t_workers s !! i = Some w → trimmed (set_phase w p) = true → quiet (put s i (set_phase w p)).
Proof.
  intros Hq Hw Hp j v [(<- & <- & _)|[_ Hj]]%list_lookup_insert_Some; [done|by eapply Hq].
Qed.

Lemma quiet_step s s' :
  inv s → quiet s → worker_step max_elems s s' → quiet s' ∧ t_found s' = t_found s ∧ t_dealt s' = t_dealt s.
Proof.
  intros Hi Hq Hs. destruct Hs as
    [s i q t o Hw|s i q Hw|s i q t o Hw|s i o Hw|s i q o Hw Hne|s i Hw|s i w t next t' Hw Ep|s i w t next Hw Ep
    |s i j wi t q o p Hij Hwi Ep Hwj|s i w Hw Ep|s i w Hw Ep Hc|s i w Hw Ep Hc|s i w seen Hw Ep|s i w Hw Ep];
    try (by specialize (Hq i _ Hw)).
  - specialize (Hq i w Hw). unfold trimmed in Hq. by rewrite Ep in Hq.
  - specialize (Hq i w Hw). unfold trimmed in Hq. by rewrite Ep in Hq.
  - pose proof (i_trimmed _ Hi j _ Hwj (Hq j _ Hwj)) as H. unfold work in H. cbn in H. by destruct (hand p).
  - split_and!; [|done|done]. by apply (quiet_put s i w).
  - split_and!; [|done|done]. by apply (quiet_put s i w).
  - split_and!; [|done|done]. by apply (quiet_put s i w).
  - split_and!; [|done|done]. apply (quiet_put s i w); [done|done|by destruct seen].
  - split_and!; [|done|done]. by apply (quiet_put s i w).
Qed.

Lemma sum_all_one {A} (f : A → Z) l : (∀ x, f x <= 1) → sum_by f l = Z.of_nat (length l) → ∀ x, x ∈ l → f x = 1.
Proof.
  intros Hf. induction l as [|y l IH]; cbn [sum_by length]; intros Hs x; [by intros ?%not_elem_of_nil|].
  assert (sum_by f l <= Z.of_nat (length l)).
  { clear -Hf. induction l as [|z l IH]; cbn [sum_by length]; [lia|]. specialize (Hf z). lia. }
  pose proof (Hf y). intros [->|Hx]%elem_of_cons; [lia|]. apply IH; [lia|done].
Qed.

Lemma all_offered_quiet s : inv s → t_offered s = n_threads s → quiet s.
Proof.
  intros Hi Hc i w Hw. rewrite (i_offered _ Hi) in Hc.
  assert (H1 : has_offered w = 1).
  { eapply sum_all_one; [|exact Hc|by eapply list_elem_of_lookup_2]. intros x. unfold has_offered. destruct (w_phase x); lia. }
  unfold has_offered, trimmed in *. by destruct (w_phase w).
Qed.

Definition finished_quiet (s : state) : Prop :=
  ∀ i w, t_workers s !! i = Some w → w_phase w = Finished → quiet s.

(** A worker that is finished after a step was so before, or all have offered. *)
Lemma finished_before s s' k v :
  inv s → worker_step max_elems s s' → t_workers s' !! k = Some v → w_phase v = Finished →
  (∃ w, t_workers s !! k = Some w ∧ w_phase w = Finished) ∨ t_offered s = n_threads s.
Proof.
  intros Hi Hs Hk Ef. destruct Hs as
    [s i q t o Hw|s i q Hw|s i q t o Hw|s i o Hw|s i q o Hw Hne|s i Hw|s i w t next t' Hw Ep|s i w t next Hw Ep
    |s i j wi t q o p Hij Hwi Ep Hwj|s i w Hw Ep|s i w Hw Ep Hc|s i w Hw Ep Hc|s i w seen Hw Ep|s i w Hw Ep];
    try (by right); left; cbn in Hk;
    apply list_lookup_insert_Some in Hk as [(<- & <- & _)|[_ Hk]]; try (by exists v); try done.
  - exists w. split; [done|]. by rewrite (proj1 (work_push w t')).
  - pose proof (i_next _ Hi i w Hw) as Hn. unfold next_ok in Hn. rewrite Ep in Hn. cbn in Ef. by destruct Hn; subst next.
  - by exists (mkWorker p (t :: q) o).
  - apply list_lookup_insert_Some in Hk as [(<- & <- & _)|[_ Hk]]; [done|by exists v].
  - by destruct seen.
Qed.

Lemma reachable_terminator s0 s :
  inv s0 → finished_quiet s0 → rtc (worker_step max_elems) s0 s → inv s ∧ finished_quiet s.
Proof.
  intros Hi Hf Hr. induction Hr as [s|s s' s'' Hs _ IH]; [done|]. apply IH; [by eapply inv_step_terminator|].
  intros k v Hk Ef. apply (quiet_step s s' Hi); [|done].
  destruct (finished_before s s' k v Hi Hs Hk Ef) as [(w & Hw & Ew)|Hc]; [by eapply Hf|by apply all_offered_quiet].
Qed.

Lemma inv_initial_terminator queues overflows :
  length queues = length overflows → inv (initial queues overflows) ∧ finished_quiet (initial queues overflows).
Proof.
  intros Hl. assert (Hw : ∀ i w, t_workers (initial queues overflows) !! i = Some w → w_phase w = TrimOverflow).
  { intros i w Hi. cbn in Hi. rewrite lookup_zip_with in Hi. destruct (queues !! i), (overflows !! i); try done.
    by injection Hi as <-. }
  split; [|intros i w Hi; by rewrite (Hw i w Hi)]. split; cbn [initial t_workers t_offered t_found t_dealt].
  - clear Hw. revert overflows Hl. induction queues as [|q qs IH]; intros [|o os] Hl; try done.
    cbn. rewrite <- IH; [done|by injection Hl].
  - intros i w Hi. unfold trimmed. by rewrite (Hw i w Hi).
  - intros i w Hi. unfold next_ok. by rewrite (Hw i w Hi).
  - clear Hw. cbn [app]. revert overflows Hl. induction queues as [|q qs IH]; intros [|o os] Hl; try done.
    injection Hl as Hl. specialize (IH os Hl). cbn. change (mjoin ?x) with (concat x) in *.
    change (list_bind _ _ work ?x) with (x ≫= work). rewrite <- IH. unfold work. cbn.
    rewrite <- !app_assoc. f_equiv. rewrite !app_assoc. f_equiv. apply Permutation_app_comm.
Qed.

(** C21: Termination of the workers is detected correctly. When
    [offer_termination] has returned true to any worker, no worker has a
    reference left in its queue, its overflow stack or its hands, every
    reference that was found has been dealt with exactly once, and this
    stays so whatever the other workers still do. *)
Theorem termination_detected queues overflows s i w :
  length queues = length overflows → rtc (worker_step max_elems) (initial queues overflows) s →
  t_workers s !! i = Some w → w_phase w = Finished →
  (∀ j v, t_workers s !! j = Some v → work v = []) ∧ t_dealt s ≡ₚ t_found s ∧
  ∀ s', rtc (worker_step max_elems) s s' →
    (∀ j v, t_workers s' !! j = Some v → work v = []) ∧ t_found s' = t_found s ∧ t_dealt s' = t_dealt s.
Proof.
  intros Hl Hr Hw Ef. destruct (inv_initial_terminator queues overflows Hl) as [Hi0 Hf0].
  destruct (reachable_terminator _ _ Hi0 Hf0 Hr) as [Hi Hf]. specialize (Hf i w Hw Ef).
  assert (Hall : ∀ s', inv s' → quiet s' → ∀ j v, t_workers s' !! j = Some v → work v = []).
  { intros s' Hi' Hq j v Hj. by apply (i_trimmed _ Hi' j v Hj), (Hq j v). }
  split_and!; [by apply Hall| |].
  - rewrite (i_work _ Hi), bind_empty, app_nil_r; [done|]. intros v (j & Hj)%list_elem_of_lookup. by eapply Hall.
  - clear Hr Hw Ef Hi0 Hf0. intros s' Hr. induction Hr as [s|s s1 s2 Hs _ IH]; [split_and!; [by apply Hall|done|done]|].
    destruct (quiet_step s s1 Hi Hf Hs) as (Hq & Ef & Ed). rewrite <- Ef, <- Ed.
    apply IH; [by eapply inv_step_terminator|done].
Qed.

End facts.
End TerminatorFacts.

(** * Two workers finish *)

Module TerminatorDemo.
Import Terminator TerminatorFacts.

Definition demo_start : state := initial [[1]; []] [[]; []].

Lemma then_step (x y z : state) : rtc (worker_step 16) x y → worker_step 16 y z → rtc (worker_step 16) x z.
Proof. apply rtc_r. Qed.

Tactic Notation "go" hyp(H) uconstr(st) := eapply then_step in H; [|eapply st; done].

(** The first worker deals with its reference; the second finds none, sees
    work in vain, and offers again. *)
Lemma demo_finish :
  ∃ s, rtc (worker_step 16) demo_start s ∧ w_phase <$> t_workers s !! 1%nat = Some Finished ∧ t_dealt s = [1].
Proof.
  assert (H := rtc_refl (worker_step 16) demo_start).
  go H (step_overflow_empty 16 demo_start 1). go H (step_local_empty 16 _ 1). go H (step_trimmed 16 _ 1).
  go H (step_steal_fails 16 _ 1). go H (step_not_all 16 _ 1).
  eapply then_step in H; [|eapply (step_peek 16 _ 1 _ true); done]. go H (step_withdraw 16 _ 1).
  go H (step_overflow_empty 16 _ 0). eapply then_step in H; [|apply (step_pop_local 16 _ 0 [] 1 []); done].
  go H (step_dealt 16 _ 0). go H (step_local_empty 16 _ 0). go H (step_trimmed 16 _ 0). go H (step_steal_fails 16 _ 0).
  go H (step_steal_fails 16 _ 1). go H (step_all_offered 16 _ 1).
  eexists. split; [exact H|]. by split.
Qed.

Lemma termination_detected_witness :
  ∃ s, rtc (worker_step 16) demo_start s ∧ t_dealt s = [1] ∧ t_dealt s ≡ₚ t_found s ∧
    ∀ j v, t_workers s !! j = Some v → work v = [].
Proof.
  destruct demo_finish as (s & Hr & Hw & Hd). exists s.
  destruct (t_workers s !! 1%nat) as [w|] eqn:E; [|discriminate].
  destruct (termination_detected 16 [[1]; []] [[]; []] s 1 w eq_refl Hr E) as (H1 & H2 & _); [by injection Hw|].
  split; [exact Hr|]. split; [exact Hd|]. split; [exact H2|exact H1].
Defined.

End TerminatorDemo.
