(* ===== verification/Plab.v ===== *)
(** Promotion buffers: the allocation buffers in which the workers of an
    evacuation copy objects ([shared/parGCAllocBuffer.hpp] and [.cpp]), the
    pair of buffers that G1 keeps per worker and purpose and the waste
    accounting ([G1ParGCAllocBufferContainer], [G1ParScanThreadState] in
    [g1CollectedHeap.hpp]), and the sizing of the buffers with its decaying
    average ([PLABStats], [shared/gcUtil.hpp]).

    Where a new buffer comes from is the business of the regions: the buffers
    are written against the interface [RegionAllocator]. *)

From S2P Require Import Prelude MarkWord JavaHeap BlockOffset GenRegions Tlab Predictions Evacuation.
From Stdlib Require Import SpecFloat.
Import JavaHeap Evacuation.

(** * Decaying averages *)

Module GcUtil.
Import Double.

(** Single precision. *)
Definition f_of_Z (z : Z) : spec_float := binary_normalize 24 128 z 0 false.
Definition f_add (x y : spec_float) : spec_float := SFadd 24 128 x y.
Definition f_sub (x y : spec_float) : spec_float := SFsub 24 128 x y.
Definition f_mul (x y : spec_float) : spec_float := SFmul 24 128 x y.
Definition f_div (x y : spec_float) : spec_float := SFdiv 24 128 x y.

Record AdaptiveWeightedAverage := mkAvg {
  _average : spec_float;
  _sample_count : Z;
  _weight : Z;
  _is_old : bool;
  _last_sample : spec_float
}.

Definition OLD_THRESHOLD : Z := 100.

Definition new_AdaptiveWeightedAverage (weight : Z) : AdaptiveWeightedAverage :=
  mkAvg d_zero 0 weight false d_zero.

Definition increment_count (a : AdaptiveWeightedAverage) : AdaptiveWeightedAverage :=
  let count := u32 (_sample_count a + 1) in
  mkAvg (_average a) count (_weight a) (_is_old a || (count >? OLD_THRESHOLD)) (_last_sample a).

Definition exp_avg (avg sample : spec_float) (weight : Z) : spec_float :=
  f_add (f_div (f_mul (f_sub (f_of_Z 100) (f_of_Z weight)) avg) (f_of_Z 100))
        (f_div (f_mul (f_of_Z weight) sample) (f_of_Z 100)).

(** A division by a count of zero faults. *)
Definition compute_adaptive_average (a : AdaptiveWeightedAverage) (new_sample average : spec_float)
    : option spec_float :=
  count_weight ← (if _is_old a then Some 0
                  else if _sample_count a =? 0 then None else Some (OLD_THRESHOLD / _sample_count a));
  Some (exp_avg average new_sample (MAX2 (_weight a) count_weight)).

Definition sample (a : AdaptiveWeightedAverage) (new_sample : spec_float) : option AdaptiveWeightedAverage :=
  let a := increment_count a in
  new_avg ← compute_adaptive_average a new_sample (_average a);
  Some (mkAvg new_avg (_sample_count a) (_weight a) (_is_old a) new_sample).

End GcUtil.

(** * The buffer *)

Module Plab.
Import Double GcUtil.

Class PlabFlags := mkPlabFlags {
  ResizePLAB : bool;
  TargetSurvivorRatio : Z;
  TargetPLABWastePct : Z;
  ParallelGCBufferWastePct : Z
}.

Record ParGCAllocBuffer := mkPLAB {
  pb_word_sz : Z;
  pb_bottom : Z;
  pb_top : Z;
  pb_end : Z;
  pb_hard_end : Z;
  pb_retained : bool;
  pb_retained_filler : Z * Z;          (* start and word size *)
  pb_allocated : Z;
  pb_wasted : Z
}.

Record PLABStats := mkStats {
  ps_allocated : Z;
  ps_wasted : Z;
  ps_unused : Z;
  ps_used : Z;
  ps_desired_plab_sz : Z;
  ps_filter : AdaptiveWeightedAverage
}.

Definition new_ParGCAllocBuffer (word_sz : Z) : ParGCAllocBuffer :=
  mkPLAB word_sz NULL NULL NULL NULL false (NULL, 0) 0 0.

Definition set_plab_top (b : ParGCAllocBuffer) (top : Z) : ParGCAllocBuffer :=
  mkPLAB (pb_word_sz b) (pb_bottom b) top (pb_end b) (pb_hard_end b) (pb_retained b) (pb_retained_filler b)
    (pb_allocated b) (pb_wasted b).
Definition set_plab_counts (b : ParGCAllocBuffer) (allocated wasted : Z) : ParGCAllocBuffer :=
  mkPLAB (pb_word_sz b) (pb_bottom b) (pb_top b) (pb_end b) (pb_hard_end b) (pb_retained b)
    (pb_retained_filler b) allocated wasted.
Definition set_retained (b : ParGCAllocBuffer) (retained : bool) (filler : Z * Z) : ParGCAllocBuffer :=
  mkPLAB (pb_word_sz b) (pb_bottom b) (pb_top b) (pb_end b) (pb_hard_end b) retained filler
    (pb_allocated b) (pb_wasted b).

Definition plab_allocate (b : ParGCAllocBuffer) (word_sz : Z) : Z * ParGCAllocBuffer :=
  let res := pb_top b in
  if words_between (pb_end b) res >=? word_sz then (res, set_plab_top b (hw_add res word_sz)) else (NULL, b).

Definition plab_undo_allocation (b : ParGCAllocBuffer) (obj : Z) : ParGCAllocBuffer := set_plab_top b obj.

Definition set_word_size (b : ParGCAllocBuffer) (new_word_sz : Z) : ParGCAllocBuffer :=
  mkPLAB new_word_sz (pb_bottom b) (pb_top b) (pb_end b) (pb_hard_end b) (pb_retained b)
    (pb_retained_filler b) (pb_allocated b) (pb_wasted b).

Definition words_remaining (b : ParGCAllocBuffer) : Z := words_between (pb_end b) (pb_top b).

Definition contains (b : ParGCAllocBuffer) (addr : Z) : bool :=
  (pb_bottom b <=? addr) && (addr <? pb_hard_end b).

(** The unused space is counted up to the hard end. *)
Definition invalidate (b : ParGCAllocBuffer) : ParGCAllocBuffer :=
  let end_ := pb_hard_end b in
  mkPLAB (pb_word_sz b) end_ end_ end_ end_ (pb_retained b) (pb_retained_filler b)
    (pb_allocated b) (u64 (pb_wasted b + words_between end_ (pb_top b))).

(** * Statistics *)

Definition add_stats (s : PLABStats) (allocated wasted unused : Z) : PLABStats :=
  mkStats (u64 (ps_allocated s + allocated)) (u64 (ps_wasted s + wasted)) (u64 (ps_unused s + unused))
    (ps_used s) (ps_desired_plab_sz s) (ps_filter s).

Definition flush_stats (s : PLABStats) (b : ParGCAllocBuffer) : PLABStats :=
  add_stats s (pb_allocated b) (pb_wasted b) (words_between (pb_end b) (pb_top b)).

Section plab.
Context {cfg : VMConfig} {tlab_flags : Tlab.TlabFlags} {flags : PlabFlags}.

Definition FillerHeaderSize : Z := align_object_size (array_header_size T_INT).
Definition AlignmentReserve : Z := if oop_header_size >? MinObjAlignment then FillerHeaderSize else 0.

Definition set_buf (b : ParGCAllocBuffer) (buf : Z) : ParGCAllocBuffer :=
  let hard_end := hw_add buf (pb_word_sz b) in
  mkPLAB (pb_word_sz b) buf buf (hw_add hard_end (- AlignmentReserve)) hard_end (pb_retained b)
    (pb_retained_filler b) (u64 (pb_allocated b + pb_word_sz b)) (pb_wasted b).

Definition plab_retire (m : memory) (b : ParGCAllocBuffer) (end_of_gc retain : bool)
    : option (memory * ParGCAllocBuffer) :=
  '(m, b) ←
    (if pb_retained b then
       let '(start, words) := pb_retained_filler b in
       m ← fill_with_object m start words;
       Some (m, set_retained (set_plab_counts b (pb_allocated b) (u64 (pb_wasted b + words))) false (start, words))
     else Some (m, b));
  if pb_top b <? pb_hard_end b then
    m ← Tlab.fill_range_with_object m (pb_top b) (pb_hard_end b);
    if negb retain then Some (m, invalidate b)
    else if words_between (pb_end b) (pb_top b) >? FillerHeaderSize then
      Some (m, set_plab_top (set_retained b true (pb_top b, FillerHeaderSize)) (hw_add (pb_top b) FillerHeaderSize))
    else Some (m, invalidate b)
  else Some (m, b).

Definition adjust_desired_plab_sz (s : PLABStats) (no_of_gc_workers : Z) : option PLABStats :=
  let allocated := if ps_allocated s =? 0 then 1 else ps_allocated s in
  let wasted_frac := d_div (d_of_Z (ps_unused s)) (d_of_Z allocated) in
  refills ← size_t_of_double (d_div (d_mul wasted_frac (d_of_Z TargetSurvivorRatio)) (d_of_Z TargetPLABWastePct));
  let target_refills := if refills =? 0 then 1 else refills in
  let used := u64 (allocated - ps_wasted s - ps_unused s) in
  let divisor := u64 (target_refills * no_of_gc_workers) in
  if divisor =? 0 then None else
  let plab_sz := used / divisor in
  filter ← sample (ps_filter s) (f_of_Z plab_sz);
  average ← size_t_of_double (_average filter);
  let plab_sz := MAX2 Tlab.min_size average in
  let plab_sz := MIN2 Tlab.max_size plab_sz in
  let plab_sz := align_object_size plab_sz in
  Some (mkStats 0 0 0 used plab_sz filter).

End plab.
End Plab.

(** * The buffers of a worker *)

(** What the regions promise to the buffers: memory for a purpose, NULL when
    there is none; [ra_free] is the memory they can still hand out, as pairs
    of start and number of words. The buffers write fillers through
    [ra_mem]. *)
Class RegionAllocator (H : Type) := {
  par_allocate_during_gc : H → GCAllocPurpose → Z → option (Z * H);
  ra_mem : H → memory;
  ra_set_mem : H → memory → H;
  ra_limit_reached : H → bool;
  ra_free : H → list (Z * Z);
  ra_inv : H → Prop
}.

Module G1Plab.
Import Plab.

Record G1ParGCAllocBuffer := mkG1PLAB { gb_base : ParGCAllocBuffer; gb_retired : bool }.

(** The buffers of one purpose, the one to be used first in front. *)
Notation G1ParGCAllocBufferContainer := (list G1ParGCAllocBuffer).

Record G1ParScanThreadState := mkThreadState {
  ts_surviving_alloc_buffer : G1ParGCAllocBufferContainer;
  ts_tenured_alloc_buffer : G1ParGCAllocBufferContainer;
  ts_alloc_buffer_waste : Z;
  ts_undo_waste : Z
}.

Definition _priority_max : nat := 2.

Definition new_container (gclab_word_size : Z) : G1ParGCAllocBufferContainer :=
  replicate _priority_max (mkG1PLAB (new_ParGCAllocBuffer gclab_word_size) false).

Fixpoint container_allocate (l : G1ParGCAllocBufferContainer) (word_sz : Z)
    : Z * G1ParGCAllocBufferContainer :=
  match l with
  | [] => (NULL, [])
  | b :: l =>
      let '(obj, b') := plab_allocate (gb_base b) word_sz in
      if negb (obj =? NULL) then (obj, mkG1PLAB b' (gb_retired b) :: l)
      else let '(obj, l) := container_allocate l word_sz in (obj, b :: l)
  end.

Definition container_contains (l : G1ParGCAllocBufferContainer) (addr : Z) : bool :=
  existsb (λ b, contains (gb_base b) addr) l.

(** [finish_undo] is not initialised: without a buffer that contains the
    object its value is undefined. *)
Definition container_undo_allocation (l : G1ParGCAllocBufferContainer) (obj : Z)
    : option G1ParGCAllocBufferContainer :=
  if container_contains l obj then
    Some ((λ b, if contains (gb_base b) obj
                then mkG1PLAB (plab_undo_allocation (gb_base b) obj) (gb_retired b) else b) <$> l)
  else None.

Definition container_words_remaining (l : G1ParGCAllocBufferContainer) : Z :=
  foldl (λ result b, u64 (result + words_remaining (gb_base b))) 0 l.

Definition words_remaining_in_retired_buffer (l : G1ParGCAllocBufferContainer) : option Z :=
  (λ b, words_remaining (gb_base b)) <$> head l.

(** The first buffer becomes the last. *)
Definition adjust_priority_order (l : G1ParGCAllocBufferContainer) : G1ParGCAllocBufferContainer :=
  drop 1 l ++ take 1 l.

Definition alloc_buffer (ts : G1ParScanThreadState) (purpose : GCAllocPurpose) : G1ParGCAllocBufferContainer :=
  match purpose with
  | GCAllocForSurvived => ts_surviving_alloc_buffer ts
  | GCAllocForTenured => ts_tenured_alloc_buffer ts
  end.
Definition put_alloc_buffer (ts : G1ParScanThreadState) (purpose : GCAllocPurpose) (l : G1ParGCAllocBufferContainer)
    : G1ParScanThreadState :=
  match purpose with
  | GCAllocForSurvived => mkThreadState l (ts_tenured_alloc_buffer ts) (ts_alloc_buffer_waste ts) (ts_undo_waste ts)
  | GCAllocForTenured => mkThreadState (ts_surviving_alloc_buffer ts) l (ts_alloc_buffer_waste ts) (ts_undo_waste ts)
  end.

Definition add_to_alloc_buffer_waste (ts : G1ParScanThreadState) (waste : Z) : G1ParScanThreadState :=
  mkThreadState (ts_surviving_alloc_buffer ts) (ts_tenured_alloc_buffer ts)
    (u64 (ts_alloc_buffer_waste ts + waste)) (ts_undo_waste ts).
Definition add_to_undo_waste (ts : G1ParScanThreadState) (waste : Z) : G1ParScanThreadState :=
  mkThreadState (ts_surviving_alloc_buffer ts) (ts_tenured_alloc_buffer ts)
    (ts_alloc_buffer_waste ts) (u64 (ts_undo_waste ts + waste)).

(** The statistics of the two purposes. *)
Record PurposeStats := mkPurposeStats { _survivor_plab_stats : PLABStats; _old_plab_stats : PLABStats }.
Definition stats_for_purpose (s : PurposeStats) (purpose : GCAllocPurpose) : PLABStats :=
  match purpose with GCAllocForSurvived => _survivor_plab_stats s | GCAllocForTenured => _old_plab_stats s end.
Definition put_stats (s : PurposeStats) (purpose : GCAllocPurpose) (p : PLABStats) : PurposeStats :=
  match purpose with
  | GCAllocForSurvived => mkPurposeStats p (_old_plab_stats s)
  | GCAllocForTenured => mkPurposeStats (_survivor_plab_stats s) p
  end.

Definition desired_plab_sz (_humongous_object_threshold_in_words : Z) (s : PurposeStats) (purpose : GCAllocPurpose) : Z :=
  MIN2 _humongous_object_threshold_in_words (ps_desired_plab_sz (stats_for_purpose s purpose)).

Section worker.
Context {cfg : VMConfig} {flags : PlabFlags}.

Definition g1_set_buf (b : G1ParGCAllocBuffer) (buf : Z) : G1ParGCAllocBuffer :=
  mkG1PLAB (set_buf (gb_base b) buf) false.

Definition g1_retire (m : memory) (b : G1ParGCAllocBuffer) (end_of_gc retain : bool)
    : option (memory * G1ParGCAllocBuffer) :=
  if gb_retired b then Some (m, b)
  else '(m, b) ← plab_retire m (gb_base b) end_of_gc retain; Some (m, mkG1PLAB b true).

Definition flush_stats_and_retire (m : memory) (s : PLABStats) (b : G1ParGCAllocBuffer) (end_of_gc retain : bool)
    : option (memory * PLABStats * G1ParGCAllocBuffer) :=
  let '(s, b) :=
    if ResizePLAB then (flush_stats s (gb_base b), mkG1PLAB (set_plab_counts (gb_base b) 0 0) (gb_retired b))
    else (s, b) in
  '(m, b) ← g1_retire m b end_of_gc retain;
  Some (m, s, b).

Fixpoint container_flush_and_retire (m : memory) (s : PLABStats) (l : G1ParGCAllocBufferContainer)
    (end_of_gc retain : bool) : option (memory * PLABStats * G1ParGCAllocBufferContainer) :=
  match l with
  | [] => Some (m, s, [])
  | b :: l =>
      '(m, s, b) ← flush_stats_and_retire m s b end_of_gc retain;
      '(m, s, l) ← container_flush_and_retire m s l end_of_gc retain;
      Some (m, s, b :: l)
  end.

(** The new size is set after the buffer: [set_buf] uses the old one. *)
Definition update (m : memory) (l : G1ParGCAllocBufferContainer) (end_of_gc retain : bool) (buf word_sz : Z)
    : option (memory * G1ParGCAllocBufferContainer) :=
  match l with
  | [] => None
  | retired_and_set :: rest =>
      '(m, b) ← g1_retire m retired_and_set end_of_gc retain;
      let b := g1_set_buf b buf in
      let b := mkG1PLAB (set_word_size (gb_base b) word_sz) (gb_retired b) in
      Some (m, adjust_priority_order (b :: rest))
  end.

Section regions.
Context {H : Type} `{!RegionAllocator H}.
Variable plab_sz : GCAllocPurpose → Z.

Definition new_thread_state : G1ParScanThreadState :=
  mkThreadState (new_container (plab_sz GCAllocForSurvived)) (new_container (plab_sz GCAllocForTenured)) 0 0.

Definition allocate_slow (h : H) (ts : G1ParScanThreadState) (purpose : GCAllocPurpose) (word_sz : Z)
    : option (Z * H * G1ParScanThreadState) :=
  let gclab_word_size := plab_sz purpose in
  if u64 (word_sz * 100) <? u64 (gclab_word_size * ParallelGCBufferWastePct) then
    let alloc_buf := alloc_buffer ts purpose in
    '(buf, h) ← par_allocate_during_gc h purpose gclab_word_size;
    if buf =? NULL then Some (NULL, h, ts)
    else
      waste ← words_remaining_in_retired_buffer alloc_buf;
      let ts := add_to_alloc_buffer_waste ts waste in
      '(m, alloc_buf) ← update (ra_mem h) alloc_buf false false buf gclab_word_size;
      let '(obj, alloc_buf) := container_allocate alloc_buf word_sz in
      Some (obj, ra_set_mem h m, put_alloc_buffer ts purpose alloc_buf)
  else
    '(obj, h) ← par_allocate_during_gc h purpose word_sz;
    Some (obj, h, ts).

Definition allocate (h : H) (ts : G1ParScanThreadState) (purpose : GCAllocPurpose) (word_sz : Z)
    : option (Z * H * G1ParScanThreadState) :=
  let '(obj, l) := container_allocate (alloc_buffer ts purpose) word_sz in
  if negb (obj =? NULL) then Some (obj, h, put_alloc_buffer ts purpose l)
  else allocate_slow h ts purpose word_sz.

Definition undo_allocation (h : H) (ts : G1ParScanThreadState) (purpose : GCAllocPurpose) (obj word_sz : Z)
    : option (H * G1ParScanThreadState) :=
  if container_contains (alloc_buffer ts purpose) obj then
    l ← container_undo_allocation (alloc_buffer ts purpose) obj;
    Some (h, put_alloc_buffer ts purpose l)
  else
    m ← fill_with_object (ra_mem h) obj word_sz;
    Some (ra_set_mem h m, add_to_undo_waste ts word_sz).

Definition retire_alloc_buffers (h : H) (s : PurposeStats) (ts : G1ParScanThreadState)
    : option (H * PurposeStats * G1ParScanThreadState) :=
  let retire_purpose ap (st : H * PurposeStats * G1ParScanThreadState) :=
    let '(h, s, ts) := st in
    let ts := add_to_alloc_buffer_waste ts (container_words_remaining (alloc_buffer ts ap)) in
    '(m, p, l) ← container_flush_and_retire (ra_mem h) (stats_for_purpose s ap) (alloc_buffer ts ap) true false;
    Some (ra_set_mem h m, put_stats s ap p, put_alloc_buffer ts ap l) in
  st ← retire_purpose GCAllocForTenured (h, s, ts);
  retire_purpose GCAllocForSurvived st.

End regions.
End worker.
End G1Plab.

(** * Facts *)

Module PlabFacts.
Import Plab G1Plab JavaHeapFacts.

Section facts.
Context {cfg : VMConfig} {flags : PlabFlags}.
Hypothesis Hcfg : config_ok.

(** The size of an object, or of a buffer, that one filler can replace. *)
Definition fillable_size (ws : Z) : Prop :=
  min_fill_size <= ws <= filler_array_max_size ∧ (MinObjAlignment | ws).

Lemma align_pos : 0 < MinObjAlignment.
Proof. destruct (ok_align Hcfg) as (k & Hk & ->). apply Z.pow_pos_nonneg; lia. Qed.

Lemma fillable_range ws : fillable_size ws → 2 <= ws <= 2 ^ 30 + 2.
Proof.
  intros [Hw _]. destruct (max_fill_range Hcfg) as (k & HA & Hk & HM & _).
  destruct (min_fill_range k HA Hk) as [? _]. lia.
Qed.

(** The reserve is a filler, or the alignment leaves no smaller rest. *)
Lemma plab_reserve_range :
  0 <= AlignmentReserve <= 35 ∧ (MinObjAlignment | AlignmentReserve) ∧
  (AlignmentReserve = 0 → min_fill_size = MinObjAlignment) ∧
  (AlignmentReserve ≠ 0 → min_fill_size <= AlignmentReserve).
Proof.
  destruct (ok_align Hcfg) as (k & Hk & HA). pose proof array_header_range as Hh.
  unfold AlignmentReserve, FillerHeaderSize, min_fill_size, align_object_size. rewrite HA.
  change oop_header_size with 2.
  destruct (align_size_up_bounds (array_header_size T_INT) k) as [B1 [q1 D1]]; [lia|].
  destruct (align_size_up_bounds 2 k) as [B2 [q2 D2]]; [lia|].
  assert (2 ^ k <= 2 ^ 5) by (apply Z.pow_le_mono_r; lia). pose proof (Z.pow_pos_nonneg 2 k ltac:(lia) ltac:(lia)).
  destruct (Z.gtb_spec 2 (2 ^ k)) as [Hg|Hg].
  - assert (2 ^ k = 1) as E by lia. rewrite E in *. split_and!; [lia|lia|exists q1; lia|lia|lia].
  - split_and!; [lia|lia|by exists 0| |done]. intros _. rewrite D2 in *. assert (q2 = 1) by nia. lia.
Qed.

(** A buffer: in use, with room for the reserve behind it, or exhausted. *)
Record plab_ok (b : ParGCAllocBuffer) : Prop := mkPlabOk {
  po_order : 0 <= pb_bottom b <= pb_top b ∧ pb_top b <= pb_end b <= pb_hard_end b ∧ pb_hard_end b < 2 ^ 63;
  po_live : pb_bottom b = pb_hard_end b ∨ 0 < pb_bottom b ∧ pb_hard_end b = pb_end b + 8 * AlignmentReserve;
  po_align : (8 * MinObjAlignment | pb_hard_end b - pb_top b);
  po_top : (8 | pb_top b);
  po_size : pb_hard_end b - pb_bottom b <= 8 * filler_array_max_size;
  po_retained : pb_retained b = false
}.

Definition free_range (b : G1ParGCAllocBuffer) : Z * Z := (pb_top (gb_base b), pb_hard_end (gb_base b)).
Definition used_range (b : G1ParGCAllocBuffer) : Z * Z := (pb_bottom (gb_base b), pb_top (gb_base b)).
Definition block_range (p ws : Z) : list (Z * Z) := if p =? NULL then [] else [(p, p + 8 * ws)].

Lemma plab_allocate_spec b ws p b' :
  plab_ok b → fillable_size ws → plab_allocate b ws = (p, b') →
  p = NULL ∧ b' = b ∨
  0 < p ∧ p = pb_top b ∧ b' = set_plab_top b (p + 8 * ws) ∧ p + 8 * ws <= pb_end b ∧ pb_top b < pb_hard_end b ∧
  (8 | p) ∧ plab_ok b'.
Proof.
  intros [(Ho1 & Ho2 & Ho3) Hl [qa Ha] [qt Ht] Hs Hr] Hw. pose proof (fillable_range ws Hw). destruct Hw as [_ [qw Dw]].
  unfold plab_allocate, words_between, pointer_delta, HeapWordSize.
  rewrite u64_small by (unfold in_u64; lia).
  destruct (Z.geb_spec ((pb_end b - pb_top b) / 8) ws) as [Hge|]; intros [= <- <-]; [right|by left].
  assert (8 * ws <= pb_end b - pb_top b) by (Z.to_euclidean_division_equations; lia).
  destruct Hl as [|[Hb He]]; [lia|].
  unfold hw_add, HeapWordSize. split_and!; try lia; try done; [by exists qt|].
  split; cbn; try done; try lia.
  - exists (qa - qw). lia.
  - exists (qt + ws). lia.
Qed.

(** Room in the buffer means that the allocation succeeds. *)
Lemma plab_allocate_room b ws :
  plab_ok b → fillable_size ws → 0 < pb_top b → pb_top b + 8 * ws <= pb_end b → (plab_allocate b ws).1 = pb_top b.
Proof.
  intros [(Ho1 & Ho2 & Ho3) _ _ _ _ _] Hw Hp Hroom. pose proof (fillable_range ws Hw).
  unfold plab_allocate, words_between, pointer_delta, HeapWordSize. rewrite u64_small by (unfold in_u64; lia).
  rewrite geb_true; [done|]. apply Z.div_le_lower_bound; lia.
Qed.

(** Retiring a buffer covers the rest of it with one filler object. *)
Lemma plab_retire_spec m b eog :
  plab_ok b →
  ∃ m' b', plab_retire m b eog false = Some (m', b') ∧
    b' = (if pb_top b <? pb_hard_end b then invalidate b else b) ∧ plab_ok b' ∧
    pb_top b' = pb_hard_end b ∧ pb_hard_end b' = pb_hard_end b ∧ pb_bottom b <= pb_bottom b' ∧
    agree_out m m' (pb_top b) (pb_hard_end b) ∧
    (pb_top b < pb_hard_end b → parsable m' (pb_top b) (pb_hard_end b) [pb_top b]).
Proof.
  intros Hb. pose proof Hb as [(Ho1 & Ho2 & Ho3) Hl [qa Ha] [qt Ht] Hs Hr]. unfold plab_retire. rewrite Hr. cbn [mbind option_bind].
  pose proof align_pos. destruct plab_reserve_range as (R1 & R2 & R3 & R4). destruct (max_fill_range Hcfg) as (_ & _ & _ & HM & _).
  destruct (Z.ltb_spec (pb_top b) (pb_hard_end b)) as [Hlt|Hge].
  - destruct Hl as [|[Hb0 He]]; [lia|]. unfold Tlab.fill_range_with_object.
    assert (E : pb_hard_end b - pb_top b = 8 * (qa * MinObjAlignment)) by lia.
    assert (MinObjAlignment <= qa * MinObjAlignment) by (assert (0 < qa) by nia; nia).
    remember (qa * MinObjAlignment) as w eqn:Ew.
    assert (min_fill_size <= w) by (destruct (decide (AlignmentReserve = 0)); [rewrite R3 by done|specialize (R4 ltac:(done))]; lia).
    rewrite (TlabFacts.words_between_exact (pb_hard_end b) (pb_top b) w) by lia.
    destruct (fill_with_object_spec m (pb_top b) w Hcfg) as (m' & -> & Hblk & Hag); [lia|by exists qa|].
    cbn [mbind option_bind negb]. exists m', (invalidate b). split_and!; try done; try (cbn; lia).
    + split; cbn; try done; try lia; [exists 0; lia|exists (qt + w); lia].
    + by replace (pb_hard_end b) with (pb_top b + 8 * w) by lia.
    + intros _. eapply parsable_single; [exact Hblk|]. unfold hw_add, HeapWordSize. lia.
  - exists m, b. split_and!; try done; lia.
Qed.

(** ** The buffers of one purpose *)

Record g1_ok (sz : Z) (b : G1ParGCAllocBuffer) : Prop := mkG1Ok {
  go_plab : plab_ok (gb_base b);
  go_word_sz : pb_word_sz (gb_base b) = sz;
  go_retired : gb_retired b = true → pb_top (gb_base b) = pb_hard_end (gb_base b)
}.

Definition frees (l : list G1ParGCAllocBuffer) (a : Z) : Z := claims (free_range <$> l) a.
Definition useds (l : list G1ParGCAllocBuffer) (a : Z) : Z := claims (used_range <$> l) a.

(** [p] is the last block allocated in one of the buffers. *)
Definition last_block (l : list G1ParGCAllocBuffer) (p ws : Z) : Prop :=
  ∃ b, b ∈ l ∧ gb_retired b = false ∧ pb_bottom (gb_base b) <= p < pb_hard_end (gb_base b) ∧
    pb_top (gb_base b) = p + 8 * ws.

Lemma frees_app l k a : frees (l ++ k) a = frees l a + frees k a.
Proof. unfold frees. by rewrite fmap_app, claims_app. Qed.
Lemma useds_app l k a : useds (l ++ k) a = useds l a + useds k a.
Proof. unfold useds. by rewrite fmap_app, claims_app. Qed.
Lemma frees_cons b l a : frees (b :: l) a = inside (free_range b) a + frees l a.
Proof. done. Qed.
Lemma useds_cons b l a : useds (b :: l) a = inside (used_range b) a + useds l a.
Proof. done. Qed.
Lemma frees_nonneg l a : 0 <= frees l a.
Proof. apply claims_nonneg. Qed.
Lemma useds_nonneg l a : 0 <= useds l a.
Proof. apply claims_nonneg. Qed.

Lemma container_allocate_spec sz l ws p l' :
  Forall (g1_ok sz) l → fillable_size ws → container_allocate l ws = (p, l') →
  Forall (g1_ok sz) l' ∧ length l' = length l ∧
  (p = NULL ∧ l' = l ∨
   0 < p ∧ (8 | p) ∧ last_block l' p ws ∧
   ∀ a, frees l a = inside (p, p + 8 * ws) a + frees l' a ∧ useds l' a = useds l a + inside (p, p + 8 * ws) a).
Proof.
  intros Hl Hw. pose proof (fillable_range ws Hw). revert l'.
  induction Hl as [|b l Hb Hl IH]; intros l'; cbn [container_allocate]; [intros [= <- <-]; auto|].
  destruct (plab_allocate (gb_base b) ws) as [q b'] eqn:E.
  destruct (plab_allocate_spec _ _ _ _ (go_plab _ _ Hb) Hw E) as [(-> & ->)|(Hq & Eq & -> & Hend & Hlt & H8 & Hok)].
  - cbn [negb Z.eqb]. change (NULL =? NULL) with true. cbn [negb]. destruct (container_allocate l ws) as [p' k].
    intros [= <- <-]. destruct (IH k eq_refl) as (Hk & Hlen & Hc). split; [by constructor|]. split; [cbn; lia|].
    destruct Hc as [(-> & ->)|(Hp & Hd & (c & Hc & Hc') & Ha)]; [by left|]. right. split_and!; try done.
    + exists c. split; [by right|done].
    + intros a. destruct (Ha a). rewrite !frees_cons, !useds_cons. lia.
  - rewrite (proj2 (Z.eqb_neq q NULL)) by (unfold NULL; lia). cbn [negb]. intros [= <- <-].
    destruct (po_order _ (go_plab _ _ Hb)) as (Ho1 & Ho2 & Ho3). destruct (po_order _ Hok) as (Ho1' & Ho2' & Ho3').
    cbn in Ho1', Ho2', Ho3'.
    assert (Hr : gb_retired b = false).
    { destruct (gb_retired b) eqn:Er; [|done]. pose proof (go_retired _ _ Hb Er). lia. }
    split; [constructor; [split; cbn; [done|by destruct Hb|by rewrite Hr]|done]|]. split; [done|]. right.
    split_and!; [done|done| |].
    + eexists. split; [by left|]. cbn. split_and!; [done|lia|lia|done].
    + intros a. rewrite !frees_cons, !useds_cons. unfold free_range, used_range. cbn.
      rewrite (inside_split (pb_top (gb_base b)) (q + 8 * ws) (pb_hard_end (gb_base b)) a) by lia.
      rewrite (inside_split (pb_bottom (gb_base b)) (pb_top (gb_base b)) (q + 8 * ws) a) by lia.
      rewrite <- Eq. lia.
Qed.

Lemma contains_range b p :
  pb_bottom (gb_base b) <= pb_top (gb_base b) <= pb_hard_end (gb_base b) →
  contains (gb_base b) p = true ↔ inside (used_range b) p + inside (free_range b) p = 1.
Proof.
  intros Ho. unfold used_range, free_range. rewrite <- inside_split by lia. unfold contains, inside. cbn.
  destruct (_ && _); lia.
Qed.

Lemma u64_shift z : ∃ k, u64 z = z + k * 2 ^ 64.
Proof. rewrite u64_mod. exists (- (z / 2 ^ 64)). Z.to_euclidean_division_equations. lia. Qed.

Lemma u64_congr a b : (∃ k, a = b + k * 2 ^ 64) → u64 a = u64 b.
Proof. intros [k ->]. rewrite !u64_mod. by rewrite Z_mod_plus_full. Qed.

(** The words that a buffer counts as allocated in it, up to wrap-around. *)
Definition buffered (b : ParGCAllocBuffer) : Z :=
  pb_allocated b - pb_wasted b - (pb_hard_end b - pb_top b) / 8.
Definition copied_words (l : list G1ParGCAllocBuffer) : Z := sum_by (λ b, buffered (gb_base b)) l.

Lemma buffered_top b ws : buffered (set_plab_top b (pb_top b + 8 * ws)) = buffered b + ws.
Proof. unfold buffered. cbn. Z.to_euclidean_division_equations. lia. Qed.

(** Buffers that do not hold [p] stay as they are. *)
Lemma undo_others (l : list G1ParGCAllocBuffer) p :
  (∀ b, b ∈ l → contains (gb_base b) p = false) →
  (λ b, if contains (gb_base b) p
        then mkG1PLAB (plab_undo_allocation (gb_base b) p) (gb_retired b) else b) <$> l = l.
Proof.
  induction l as [|b l IH]; intros Hl; [done|]. cbn. rewrite (Hl b) by by left. f_equal. apply IH.
  intros c Hc. apply Hl. by right.
Qed.

(** Only the buffer that holds the block changes. *)
Lemma container_undo_eq sz l p ws :
  Forall (g1_ok sz) l → fillable_size ws → last_block l p ws → (∀ a, frees l a + useds l a <= 1) →
  ∃ l1 b l2, l = l1 ++ b :: l2 ∧ gb_retired b = false ∧
    pb_bottom (gb_base b) <= p < pb_hard_end (gb_base b) ∧ pb_top (gb_base b) = p + 8 * ws ∧
    container_contains l p = true ∧
    container_undo_allocation l p = Some (l1 ++ mkG1PLAB (set_plab_top (gb_base b) p) (gb_retired b) :: l2).
Proof.
  intros Hl Hw (b & Hb & Hr & Hp & Ht) Hd. pose proof (fillable_range ws Hw).
  apply list_elem_of_split in Hb as (l1 & l2 & ->). exists l1, b, l2. split; [done|]. split; [done|]. split; [done|]. split; [done|].
  apply Forall_app in Hl as [H1 [Hb H2]%Forall_cons].
  destruct (po_order _ (go_plab _ _ Hb)) as (Ho1 & Ho2 & Ho3).
  assert (Hc : contains (gb_base b) p = true) by (apply contains_range; [lia|]; unfold used_range, free_range;
    rewrite <- inside_split, inside_in by lia; done).
  assert (Hn : ∀ c, c ∈ l1 ++ l2 → contains (gb_base c) p = false).
  { intros c Hc'. destruct (contains (gb_base c) p) eqn:E; [|done]. exfalso.
    assert (Hco : g1_ok sz c) by (apply elem_of_app in Hc' as [Hx|Hx]; by eapply Forall_forall in Hx).
    destruct (po_order _ (go_plab _ _ Hco)) as (? & ? & ?).
    apply contains_range in E; [|lia]. apply contains_range in Hc; [|lia].
    specialize (Hd p). rewrite frees_app, useds_app, frees_cons, useds_cons in Hd.
    assert (inside (free_range c) p <= frees l1 p + frees l2 p)
      by (rewrite <- frees_app; apply claims_elem; by apply list_elem_of_fmap_2).
    assert (inside (used_range c) p <= useds l1 p + useds l2 p)
      by (rewrite <- useds_app; apply claims_elem; by apply list_elem_of_fmap_2). lia. }
  unfold container_undo_allocation.
  assert (container_contains (l1 ++ b :: l2) p = true) as ->.
  { unfold container_contains. rewrite existsb_app. cbn. rewrite Hc. by destruct (existsb _ l1). }
  split; [done|]. rewrite fmap_app, fmap_cons, Hc. by rewrite !undo_others by (intros; apply Hn; set_solver).
Qed.

Lemma container_undo_spec sz l p ws :
  Forall (g1_ok sz) l → fillable_size ws → (8 | p) → last_block l p ws →
  (∀ a, frees l a + useds l a <= 1) →
  ∃ l', container_undo_allocation l p = Some l' ∧ container_contains l p = true ∧
    Forall (g1_ok sz) l' ∧ length l' = length l ∧ copied_words l' = copied_words l - ws ∧
    ∀ a, frees l' a = frees l a + inside (p, p + 8 * ws) a ∧ useds l a = useds l' a + inside (p, p + 8 * ws) a.
Proof.
  intros Hl Hw Hp8 Hlast Hd. pose proof (fillable_range ws Hw).
  destruct (container_undo_eq sz l p ws Hl Hw Hlast Hd) as (l1 & b & l2 & -> & Hr & Hp & Ht & Hc & ->).
  eexists. split; [done|]. split; [done|]. apply Forall_app in Hl as [H1 [Hb H2]%Forall_cons].
  pose proof (go_plab _ _ Hb) as [(Ho1 & Ho2 & Ho3) Hlv [qa Ha] [qt Htop] Hs Hrt]. split_and!.
  - apply Forall_app. split; [done|]. constructor; [|done]. split; cbn; [|by destruct Hb|by rewrite Hr].
    split; cbn; try done; try lia. destruct Hw as [_ [qw Dw]]. exists (qa + qw). lia.
  - by rewrite !length_app.
  - unfold copied_words. rewrite !sum_by_app. cbn [sum_by gb_base].
    replace (set_plab_top (gb_base b) p) with (set_plab_top (gb_base b) (pb_top (gb_base b) + 8 * - ws)) by (f_equal; lia).
    rewrite buffered_top. lia.
  - intros a. rewrite !frees_app, !useds_app, !frees_cons, !useds_cons. unfold free_range, used_range. cbn.
    rewrite (inside_split p (pb_top (gb_base b)) (pb_hard_end (gb_base b)) a) by lia.
    rewrite (inside_split (pb_bottom (gb_base b)) p (pb_top (gb_base b)) a) by lia. rewrite Ht. lia.
Qed.

Lemma retired_buffered b :
  plab_ok b →
  ∃ k, buffered (if pb_top b <? pb_hard_end b then invalidate b else b) = buffered b + k * 2 ^ 64.
Proof.
  intros [(Ho1 & Ho2 & Ho3) _ _ _ _ _]. destruct (_ <? _); [|exists 0; lia]. unfold buffered, invalidate, words_between, pointer_delta.
  cbn. rewrite Z.sub_diag, (u64_small (pb_hard_end b - _)) by (unfold in_u64; lia). change (0 / 8) with 0. unfold HeapWordSize.
  destruct (u64_shift (pb_wasted b + (pb_hard_end b - pb_top b) / 8)) as [k ->]. exists (- k). lia.
Qed.

(** Refilling: the rest of the first buffer becomes a filler object. *)
Lemma container_update_spec sz m l buf :
  Forall (g1_ok sz) l → l ≠ [] → fillable_size sz → AlignmentReserve <= sz →
  0 < buf → (8 | buf) → buf + 8 * sz < 2 ^ 63 →
  ∃ b0 rest m' b, l = b0 :: rest ∧ update m l false false buf sz = Some (m', rest ++ [b]) ∧
    Forall (g1_ok sz) (rest ++ [b]) ∧ free_range b = (buf, buf + 8 * sz) ∧ used_range b = (buf, buf) ∧
    pb_end (gb_base b) = buf + 8 * (sz - AlignmentReserve) ∧
    (∃ k, buffered (gb_base b) = buffered (gb_base b0) + k * 2 ^ 64) ∧
    agree_out m m' (free_range b0).1 (free_range b0).2.
Proof.
  intros Hl Hne Hw Hrs Hb H8 Hhi. pose proof (fillable_range sz Hw). destruct plab_reserve_range as (R1 & [qr R2] & _ & _).
  destruct l as [|b0 rest]; [done|]. apply Forall_cons in Hl as [[Hp Hws Hret] Hrest]. exists b0, rest.
  assert (∃ m' b1, g1_retire m b0 false false = Some (m', b1) ∧ pb_word_sz (gb_base b1) = sz ∧
    pb_retained (gb_base b1) = false ∧ pb_top (gb_base b1) = pb_hard_end (gb_base b1) ∧
    (∃ k, buffered (gb_base b1) = buffered (gb_base b0) + k * 2 ^ 64) ∧
    agree_out m m' (free_range b0).1 (free_range b0).2) as (m' & b1 & E & Hsz & Hrt & Ht & [k Hk] & Hag).
  { unfold g1_retire. destruct (gb_retired b0) eqn:Er.
    - exists m, b0. split_and!; [done|done|by destruct Hp|by apply Hret|exists 0; lia|apply agree_out_refl].
    - destruct (plab_retire_spec m (gb_base b0) false Hp) as (m' & b' & -> & Eb & Hok & Ht & Hh & _ & Hag & _).
      cbn [mbind option_bind]. exists m', (mkG1PLAB b' true).
      split_and!; [done| |by destruct Hok|cbn; lia|by rewrite Eb; apply retired_buffered|done].
      rewrite Eb. by destruct (_ <? _). }
  unfold update. rewrite E. cbn [mbind option_bind]. eexists m', _. split; [done|]. split; [done|].
  unfold free_range, used_range, g1_set_buf, set_buf, set_word_size, hw_add, HeapWordSize. cbn. rewrite Hsz.
  split_and!; [|done|done|lia| |done].
  2: { unfold buffered in *. cbn in *. rewrite Ht, Z.sub_diag in Hk. change (0 / 8) with 0 in Hk.
       destruct (u64_shift (pb_allocated (gb_base b1) + sz)) as [k' ->]. exists (k + k').
       replace (buf + 8 * sz - buf) with (sz * 8) by lia. rewrite Z.div_mul by done. lia. }
  apply Forall_app. split; [done|]. constructor; [|constructor].
  destruct H8 as [q8 D8]. split; cbn; try done. split; cbn; rewrite ?Hsz; try done; try lia; try (right; lia).
  - destruct Hw as [_ [qw Dw]]. exists qw. lia.
  - by exists q8.
  - destruct Hw as [Hw _]. lia.
Qed.

Lemma outside_range r a : inside r a = 0 → a < r.1 ∨ r.2 <= a.
Proof. destruct r as [lo hi]. destruct (inside_cases lo hi a); cbn; lia. Qed.

(** ** Retiring the buffers *)

Lemma flush_retire_spec sz m s b :
  g1_ok sz b →
  ∃ m' s' b', flush_stats_and_retire m s b true false = Some (m', s', b') ∧
    s' = (if ResizePLAB then flush_stats s (gb_base b) else s) ∧ g1_ok sz b' ∧
    (∀ a, inside (free_range b') a = 0) ∧ (∀ a, inside (used_range b') a <= inside (used_range b) a) ∧
    (∀ a, inside (free_range b) a = 0 → m' !! a = m !! a) ∧
    ((free_range b).1 < (free_range b).2 → parsable m' (free_range b).1 (free_range b).2 [(free_range b).1]).
Proof.
  intros Hb. unfold flush_stats_and_retire.
  set (c := if ResizePLAB then mkG1PLAB (set_plab_counts (gb_base b) 0 0) (gb_retired b) else b).
  assert (Hc : g1_ok sz c).
  { unfold c. destruct ResizePLAB; [|done]. destruct Hb as [[] ? ?]. by split. }
  assert (Hfc : free_range c = free_range b) by (unfold c; by destruct ResizePLAB).
  assert (Huc : used_range c = used_range b) by (unfold c; by destruct ResizePLAB).
  assert (E : (if ResizePLAB then (flush_stats s (gb_base b), mkG1PLAB (set_plab_counts (gb_base b) 0 0) (gb_retired b)) else (s, b))
    = (if ResizePLAB then flush_stats s (gb_base b) else s, c)) by (unfold c; by destruct ResizePLAB).
  rewrite E, <- Hfc, <- Huc. clearbody c. unfold g1_retire. destruct (gb_retired c) eqn:Er; cbn [mbind option_bind].
  - pose proof (go_retired _ _ Hc Er) as Ht. unfold free_range. rewrite Ht.
    eexists _, _, _. split; [done|]. split_and!; try done; [intros a; rewrite Ht; by apply inside_empty|cbn; lia].
  - destruct (plab_retire_spec m (gb_base c) true (go_plab _ _ Hc)) as (m' & b' & -> & Eb & Hok & Ht & Hh & Hbt & Hag & Hpar).
    cbn [mbind option_bind]. eexists _, _, _. split; [done|]. split; [done|]. unfold free_range, used_range. cbn. rewrite Ht, Hh.
    destruct (po_order _ (go_plab _ _ Hc)) as (Ho1 & Ho2 & Ho3).
    split_and!; [split; cbn; [done| |by rewrite Ht, Hh]|intros a; by apply inside_empty| | |done].
    + rewrite Eb. destruct (_ <? _); apply Hc.
    + intros a. rewrite Eb. destruct (Z.ltb_spec (pb_top (gb_base c)) (pb_hard_end (gb_base c))); cbn.
      * rewrite inside_empty by done. apply inside_nonneg.
      * replace (pb_hard_end (gb_base c)) with (pb_top (gb_base c)) by lia. done.
    + intros a Ha. apply Hag. by apply (outside_range (_, _)).
Qed.

(** Every rest of a buffer is one filler object afterwards. *)
Lemma container_retire_spec sz m s l :
  Forall (g1_ok sz) l → (∀ a, frees l a <= 1) →
  ∃ m' s' l', container_flush_and_retire m s l true false = Some (m', s', l') ∧
    s' = (if ResizePLAB then foldl (λ s b, flush_stats s (gb_base b)) s l else s) ∧
    Forall (g1_ok sz) l' ∧ length l' = length l ∧ (∀ a, frees l' a = 0) ∧ (∀ a, useds l' a <= useds l a) ∧
    (∀ a, frees l a = 0 → m' !! a = m !! a) ∧
    ∀ b, b ∈ l → (free_range b).1 < (free_range b).2 → parsable m' (free_range b).1 (free_range b).2 [(free_range b).1].
Proof.
  intros Hl. revert m s. induction Hl as [|b l Hb Hl IH]; intros m s Hd; cbn [container_flush_and_retire].
  { exists m, s, []. split_and!; try done; [by destruct ResizePLAB|]. by intros b ?%not_elem_of_nil. }
  destruct (flush_retire_spec sz m s b Hb) as (m1 & s1 & b' & -> & Es & Hb' & Hf & Hu & Hm & Hpar). cbn [mbind option_bind].
  destruct (IH m1 s1) as (m2 & s2 & l' & -> & Es2 & Hl' & Hlen & Hf2 & Hu2 & Hm2 & Hpar2).
  { intros a. specialize (Hd a). rewrite frees_cons in Hd. pose proof (inside_nonneg (free_range b) a). lia. }
  cbn [mbind option_bind]. eexists _, _, _. split; [done|]. split_and!.
  - rewrite Es2, Es. by destruct ResizePLAB.
  - by constructor.
  - cbn. lia.
  - intros a. by rewrite frees_cons, Hf, Hf2.
  - intros a. rewrite !useds_cons. specialize (Hu a). specialize (Hu2 a). lia.
  - intros a Ha. rewrite frees_cons in Ha. pose proof (inside_nonneg (free_range b) a). pose proof (frees_nonneg l a).
    rewrite Hm2, Hm by lia. done.
  - intros c [->|Hc]%elem_of_cons Hlt; [|by apply Hpar2]. eapply parsable_frame; [by apply Hpar|].
    intros a Ha. apply Hm2. specialize (Hd a). rewrite frees_cons in Hd. pose proof (frees_nonneg l a).
    rewrite (surjective_pairing (free_range b)), inside_in in Hd by done. lia.
Qed.

(** ** What the statistics count *)

(** The life of the buffers of one purpose, with the words of the objects in
    them: allocation, giving back the last object, a new buffer. *)
Inductive container_step (sz : Z) : list G1ParGCAllocBuffer * Z → list G1ParGCAllocBuffer * Z → Prop :=
  | cs_allocate l n ws p l' :
      fillable_size ws → container_allocate l ws = (p, l') →
      container_step sz (l, n) (l', if p =? NULL then n else n + ws)
  | cs_undo l n p ws l' :
      fillable_size ws → (8 | p) → last_block l p ws → container_undo_allocation l p = Some l' →
      container_step sz (l, n) (l', n - ws)
  | cs_update l n m buf m' l' :
      0 < buf → (8 | buf) → buf + 8 * sz < 2 ^ 63 →
      (∀ a, inside (buf, buf + 8 * sz) a + frees l a + useds l a <= 1) →
      update m l false false buf sz = Some (m', l') →
      container_step sz (l, n) (l', n).

Record container_inv (sz : Z) (ln : list G1ParGCAllocBuffer * Z) : Prop := mkContainerInv {
  ci_ok : Forall (g1_ok sz) ln.1;
  ci_len : length ln.1 = 2%nat;
  ci_disjoint : ∀ a, frees ln.1 a + useds ln.1 a <= 1;
  ci_words : ∃ k, copied_words ln.1 = ln.2 + k * 2 ^ 64
}.

Lemma container_allocate_copied sz l ws p l' :
  Forall (g1_ok sz) l → fillable_size ws → container_allocate l ws = (p, l') →
  copied_words l' = copied_words l + if p =? NULL then 0 else ws.
Proof.
  intros Hl Hw. revert p l'. induction Hl as [|b l Hb Hl IH]; intros p l'; cbn [container_allocate]; [by intros [= <- <-]|].
  destruct (plab_allocate (gb_base b) ws) as [q b'] eqn:E.
  destruct (plab_allocate_spec _ _ _ _ (go_plab _ _ Hb) Hw E) as [(-> & ->)|(Hq & Eq & -> & _)].
  - change (NULL =? NULL) with true. cbn [negb]. destruct (container_allocate l ws) as [p' k].
    intros [= <- <-]. unfold copied_words in *. cbn [sum_by]. rewrite (IH p' k eq_refl). lia.
  - rewrite (proj2 (Z.eqb_neq q NULL)) by (unfold NULL; lia). cbn [negb]. intros [= <- <-].
    rewrite (proj2 (Z.eqb_neq q NULL)) by (unfold NULL; lia).
    unfold copied_words. cbn [sum_by gb_base]. rewrite Eq, buffered_top. lia.
Qed.

Lemma container_inv_new sz :
  fillable_size sz → container_inv sz (new_container sz, 0).
Proof.
  intros Hs. pose proof (fillable_range sz Hs). destruct (max_fill_range Hcfg) as (_ & _ & _ & HM & _).
  assert (g1_ok sz (mkG1PLAB (new_ParGCAllocBuffer sz) false)).
  { split; [|done|done]. split; cbn; try done; unfold NULL; try lia; by exists 0. }
  split; cbn [fst snd new_container replicate _priority_max]; [by repeat (constructor; [done|])|done| |].
  - intros a. rewrite !frees_cons, !useds_cons. change (frees [] a) with 0. change (useds [] a) with 0.
    unfold free_range, used_range. cbn [gb_base new_ParGCAllocBuffer pb_bottom pb_top pb_hard_end].
    rewrite (inside_empty NULL NULL) by done. lia.
  - exists 0. done.
Qed.

Lemma container_inv_step sz ln ln' :
  fillable_size sz → AlignmentReserve <= sz → container_inv sz ln → container_step sz ln ln' → container_inv sz ln'.
Proof.
  intros Hs Hr [Hok Hlen Hd [k Hk]] Hst. destruct Hst as [l n ws p l' Hw E|l n p ws l' Hw H8 Hl E|l n m buf m' l' Hb H8 Hhi Hdis E];
    cbn [fst snd] in *.
  - destruct (container_allocate_spec _ _ _ _ _ Hok Hw E) as (Hok' & Hlen' & Hc).
    pose proof (container_allocate_copied _ _ _ _ _ Hok Hw E) as Hcw.
    split; cbn [fst snd]; [done|lia| |exists k; destruct (p =? NULL); lia]. intros a. specialize (Hd a).
    destruct Hc as [(-> & ->)|(_ & _ & _ & Hc)]; [done|]. destruct (Hc a). lia.
  - destruct (container_undo_spec _ _ _ _ Hok Hw H8 Hl Hd) as (l2 & E' & _ & Hok' & Hlen' & Hcw & Ha).
    assert (l2 = l') as -> by congruence. split; cbn [fst snd]; [done|lia| |exists k; lia].
    intros a. specialize (Hd a). destruct (Ha a). lia.
  - assert (Hnil : l ≠ []) by by destruct l.
    destruct (container_update_spec sz m l buf Hok Hnil Hs Hr Hb H8 Hhi)
      as (b0 & rest & m2 & b & -> & E' & Hok' & Hfr & Hus & _ & [k' Hk'] & _).
    assert (rest ++ [b] = l') as <- by congruence. split; cbn [fst snd]; [done|rewrite length_app; cbn in *; lia| |].
    + intros a. specialize (Hdis a). rewrite frees_app, useds_app, !frees_cons, !useds_cons, Hfr, Hus in *.
      rewrite (inside_empty buf buf) by done. change (frees [] a) with 0. change (useds [] a) with 0.
      pose proof (inside_nonneg (free_range b0) a). pose proof (inside_nonneg (used_range b0) a). lia.
    + exists (k + k'). unfold copied_words in *. rewrite sum_by_app. cbn [sum_by] in *. lia.
Qed.

(** What flushing a buffer adds to the words counted as used: the words
    allocated in it, and its reserve while it is in use. *)
Definition stats_used (s : PLABStats) : Z := ps_allocated s - ps_wasted s - ps_unused s.

Lemma flush_stats_used s b :
  plab_ok b → ∃ k r, stats_used (flush_stats s b) = stats_used s + buffered b + r + k * 2 ^ 64 ∧ 0 <= r <= AlignmentReserve.
Proof.
  intros [(Ho1 & Ho2 & Ho3) Hl _ _ _ _]. destruct plab_reserve_range as (R1 & _).
  unfold stats_used, flush_stats, add_stats, buffered, words_between, pointer_delta, HeapWordSize. cbn.
  rewrite (u64_small (pb_end b - pb_top b)) by (unfold in_u64; lia).
  destruct (u64_shift (ps_allocated s + pb_allocated b)) as [k1 ->].
  destruct (u64_shift (ps_wasted s + pb_wasted b)) as [k2 ->].
  destruct (u64_shift (ps_unused s + (pb_end b - pb_top b) / 8)) as [k3 ->].
  exists (k1 - k2 - k3), ((pb_hard_end b - pb_top b) / 8 - (pb_end b - pb_top b) / 8).
  split; [lia|]. Z.to_euclidean_division_equations. lia.
Qed.

Lemma flush_all_used sz s l :
  Forall (g1_ok sz) l → ∃ k r, stats_used (foldl (λ s b, flush_stats s (gb_base b)) s l) =
    stats_used s + copied_words l + r + k * 2 ^ 64 ∧ 0 <= r <= AlignmentReserve * Z.of_nat (length l).
Proof.
  intros Hl. revert s. induction Hl as [|b l Hb Hl IH]; intros s; [exists 0, 0; cbn; lia|].
  destruct (flush_stats_used s (gb_base b) (go_plab _ _ Hb)) as (k1 & r1 & E1 & Hr1).
  destruct (IH (flush_stats s (gb_base b))) as (k2 & r2 & E2 & Hr2).
  exists (k1 + k2), (r1 + r2). cbn [foldl]. rewrite E2, E1. unfold copied_words. cbn [sum_by length]. lia.
Qed.

(** The statistics from which the next buffer size is computed are exact:
    however objects were allocated and given back and buffers replaced, what
    flushing the buffers of a purpose adds to [allocated - wasted - unused]
    is the number of words of the objects in them, plus at most the alignment
    reserve of each buffer. Retiring does not fault and covers every unused
    rest with one filler object. *)
Theorem plab_accounting sz m s l n :
  ResizePLAB = true → fillable_size sz → AlignmentReserve <= sz →
  rtc (container_step sz) (new_container sz, 0) (l, n) →
  ∃ m' s' l' r, container_flush_and_retire m s l true false = Some (m', s', l') ∧
    u64 (stats_used s') = u64 (stats_used s + n + r) ∧ 0 <= r <= 2 * AlignmentReserve ∧
    (∀ a, frees l' a = 0) ∧ (∀ a, frees l a = 0 → m' !! a = m !! a) ∧
    ∀ b, b ∈ l → (free_range b).1 < (free_range b).2 →
      parsable m' (free_range b).1 (free_range b).2 [(free_range b).1].
Proof.
  intros Hres Hs Hr Hrun. assert (container_inv sz (l, n)) as [Hok Hlen Hd [k Hk]].
  { assert (∀ a b, rtc (container_step sz) a b → container_inv sz a → container_inv sz b) as Hrtc.
    { induction 1; [done|]. eauto using container_inv_step. }
    eapply Hrtc; [exact Hrun|by apply container_inv_new]. }
  cbn [fst snd] in *. destruct (container_retire_spec sz m s l Hok) as (m' & s' & l' & E & Es & _ & _ & Hf & _ & Hm & Hp).
  { intros a. specialize (Hd a). pose proof (useds_nonneg l a). lia. }
  rewrite Hres in Es. destruct (flush_all_used sz s l Hok) as (k2 & r & E2 & Hr2). rewrite <- Es in E2.
  exists m', s', l', r. split_and!; try done; [|lia|rewrite Hlen in Hr2; lia]. apply u64_congr. exists (k + k2). lia.
Qed.

(** [update] sets the buffer before its size: a buffer of size [sz] put in
    place of one of size [old] still ends after [old] words. It is exact only
    because the desired size does not change during a pause. *)
Lemma update_uses_old_size old sz m b0 rest buf :
  g1_ok old b0 →
  ∃ m' b, update m (b0 :: rest) false false buf sz = Some (m', rest ++ [b]) ∧
    free_range b = (buf, buf + 8 * old) ∧ pb_word_sz (gb_base b) = sz.
Proof.
  intros [Hp Hws Hret].
  assert (∃ m' b1, g1_retire m b0 false false = Some (m', b1) ∧ pb_word_sz (gb_base b1) = old) as (m' & b1 & E & Hsz).
  { unfold g1_retire. destruct (gb_retired b0); [by exists m, b0|].
    destruct (plab_retire_spec m (gb_base b0) false Hp) as (m' & b' & -> & Eb & _). cbn [mbind option_bind].
    exists m', (mkG1PLAB b' true). split; [done|]. rewrite Eb. by destruct (_ <? _). }
  unfold update. rewrite E. cbn [mbind option_bind]. eexists m', _. split; [done|].
  unfold free_range, g1_set_buf, set_buf, set_word_size, hw_add, HeapWordSize. cbn. by rewrite Hsz.
Qed.

(** With [ParallelGCBufferWastePct] at its maximum the test of
    [allocate_slow] does not leave room for the reserve. *)
Lemma waste_pct_limit : MinObjAlignment = 1 → (999 * 100 <? 1000 * 100) = true ∧ 1000 - AlignmentReserve < 999.
Proof.
  intros HA. split; [done|]. destruct plab_reserve_range as (_ & _ & R3 & R4). unfold min_fill_size, align_object_size in *.
  rewrite HA in *. change (align_size_up oop_header_size 1) with 2 in *. destruct (decide (AlignmentReserve = 0)) as [E|E].
  - specialize (R3 E). lia.
  - specialize (R4 E). lia.
Qed.

(** The size latched for the next pause is aligned and within the bounds. *)
Lemma desired_plab_sz_bounds `{!Tlab.TlabFlags} s n s' :
  adjust_desired_plab_sz s n = Some s' → (MinObjAlignment | Tlab.max_size) →
  (MinObjAlignment | ps_desired_plab_sz s') ∧
  Z.min Tlab.min_size Tlab.max_size <= ps_desired_plab_sz s' <= Tlab.max_size ∧
  ps_allocated s' = 0 ∧ ps_wasted s' = 0 ∧ ps_unused s' = 0.
Proof.
  unfold adjust_desired_plab_sz. intros E Hmax.
  destruct (Double.size_t_of_double _) as [refills|]; [|done]. cbn [mbind option_bind] in E. destruct (_ =? 0) in E; [done|].
  destruct (GcUtil.sample _ _) as [filter|]; [|done]. cbn [mbind option_bind] in E.
  destruct (Double.size_t_of_double _) as [average|]; [|done]. cbn [mbind option_bind] in E. injection E as <-. cbn.
  set (sz := MIN2 Tlab.max_size (MAX2 Tlab.min_size average)).
  assert (Hsz : Z.min Tlab.min_size Tlab.max_size <= sz <= Tlab.max_size).
  { unfold sz, MIN2, MAX2. destruct (Z.gtb_spec Tlab.min_size average);
      match goal with |- context [?a <? ?b] => destruct (Z.ltb_spec a b) end; lia. }
  destruct (ok_align Hcfg) as (k & Hk & HA). unfold align_object_size. rewrite HA in *.
  destruct (align_size_up_bounds sz k) as [B [q D]]; [lia|]. split; [by exists q|]. split; [|done].
  destruct Hmax as [qm Dm]. pose proof (Z.pow_pos_nonneg 2 k ltac:(lia) ltac:(lia)). rewrite D, Dm in *.
  split; [lia|]. assert (q <= qm) by nia. nia.
Qed.

(** ** The buffers of a worker *)

(** The laws of the interface: an allocation takes its block out of the free
    memory, does not fault, and writes to free memory only. *)
Class RegionAllocatorLaws (H : Type) `{!RegionAllocator H} : Prop := {
  ra_mem_set : ∀ h m, ra_mem (ra_set_mem h m) = m;
  ra_set_mem_inv : ∀ h m, ra_inv h → ra_inv (ra_set_mem h m);
  ra_set_mem_free : ∀ h m, ra_free (ra_set_mem h m) = ra_free h;
  ra_allocate_spec : ∀ h t ws, ra_inv h → fillable_size ws →
    ∃ p h', par_allocate_during_gc h t ws = Some (p, h') ∧ ra_inv h' ∧
      (p = NULL ∨ 0 < p ∧ (8 | p) ∧ p + 8 * ws < 2 ^ 63) ∧
      (∀ a, claims (block_range p ws) a + claims (ra_free h') a <= claims (ra_free h) a) ∧
      (∀ a, claims (ra_free h) a = 0 → ra_mem h' !! a = ra_mem h !! a)
}.

Section worker.
Context {H : Type} `{!RegionAllocator H} `{!RegionAllocatorLaws H}.
Variable plab_sz : GCAllocPurpose → Z.
Hypothesis Hsz : ∀ t, fillable_size (plab_sz t) ∧ AlignmentReserve <= plab_sz t.

Definition thread_ok (ts : G1ParScanThreadState) : Prop :=
  ∀ t, length (alloc_buffer ts t) = 2%nat ∧ Forall (g1_ok (plab_sz t)) (alloc_buffer ts t).
Definition tfree (ts : G1ParScanThreadState) (a : Z) : Z :=
  frees (ts_surviving_alloc_buffer ts) a + frees (ts_tenured_alloc_buffer ts) a.
Definition tused (ts : G1ParScanThreadState) (a : Z) : Z :=
  useds (ts_surviving_alloc_buffer ts) a + useds (ts_tenured_alloc_buffer ts) a.

Lemma tfree_put ts t l a : tfree (put_alloc_buffer ts t l) a = tfree ts a - frees (alloc_buffer ts t) a + frees l a.
Proof. unfold tfree. destruct t; cbn [put_alloc_buffer alloc_buffer ts_surviving_alloc_buffer ts_tenured_alloc_buffer]; lia. Qed.
Lemma tused_put ts t l a : tused (put_alloc_buffer ts t l) a = tused ts a - useds (alloc_buffer ts t) a + useds l a.
Proof. unfold tused. destruct t; cbn [put_alloc_buffer alloc_buffer ts_surviving_alloc_buffer ts_tenured_alloc_buffer]; lia. Qed.
Lemma tfree_buffer ts t a : frees (alloc_buffer ts t) a <= tfree ts a.
Proof.
  unfold tfree. pose proof (frees_nonneg (ts_surviving_alloc_buffer ts) a).
  pose proof (frees_nonneg (ts_tenured_alloc_buffer ts) a). destruct t; cbn [alloc_buffer]; lia.
Qed.
Lemma tused_buffer ts t a : useds (alloc_buffer ts t) a <= tused ts a.
Proof.
  unfold tused. pose proof (useds_nonneg (ts_surviving_alloc_buffer ts) a).
  pose proof (useds_nonneg (ts_tenured_alloc_buffer ts) a). destruct t; cbn [alloc_buffer]; lia.
Qed.

Lemma thread_ok_put ts t l :
  thread_ok ts → length l = 2%nat → Forall (g1_ok (plab_sz t)) l → thread_ok (put_alloc_buffer ts t l).
Proof. intros Ht Hl Hf t'. destruct (Ht t'). by destruct t, t'. Qed.

Lemma alloc_buffer_put ts t l : alloc_buffer (put_alloc_buffer ts t l) t = l.
Proof. by destruct t. Qed.

Lemma thread_ok_new : thread_ok (new_thread_state plab_sz).
Proof.
  intros t. split; [by destruct t|]. pose proof (fillable_range _ (proj1 (Hsz t))).
  destruct (max_fill_range Hcfg) as (_ & _ & _ & HM & _).
  assert (g1_ok (plab_sz t) (mkG1PLAB (new_ParGCAllocBuffer (plab_sz t)) false)).
  { split; [|done|done]. split; cbn; try done; unfold NULL; try lia; by exists 0. }
  destruct t; by apply Forall_replicate.
Qed.

(** What an allocation does to the memory of a worker and of the regions. *)
Record allocated (h : H) (ts : G1ParScanThreadState) (t : GCAllocPurpose) (ws p : Z) (h' : H)
    (ts' : G1ParScanThreadState) : Prop := mkAllocated {
  al_thread : thread_ok ts';
  al_regions : ra_inv h';
  al_pointer : p = NULL ∨ 0 < p ∧ (8 | p);
  al_free : ∀ a, claims (block_range p ws) a + tfree ts' a + claims (ra_free h') a <= tfree ts a + claims (ra_free h) a;
  al_memory : ∀ a, tfree ts a + claims (ra_free h) a = 0 → ra_mem h' !! a = ra_mem h !! a;
  al_where :
    p = NULL ∧ (∀ a, tused ts' a <= tused ts a) ∨
    p ≠ NULL ∧ last_block (alloc_buffer ts' t) p ws ∧ (∀ a, tused ts' a <= tused ts a + inside (p, p + 8 * ws) a) ∨
    p ≠ NULL ∧ (∀ a, tused ts' a <= tused ts a) ∧ (∀ a, inside (p, p + 8 * ws) a <= claims (ra_free h) a)
}.

Lemma claims_block p ws a : p ≠ NULL → claims (block_range p ws) a = inside (p, p + 8 * ws) a.
Proof. intros Hp. unfold block_range. rewrite (proj2 (Z.eqb_neq p NULL)) by done. rewrite claims_cons, claims_nil. lia. Qed.
Lemma claims_null ws a : claims (block_range NULL ws) a = 0.
Proof. done. Qed.

(** An allocation inside the buffers. *)
Lemma allocated_buffer h h' ts ts1 t ws p l' :
  thread_ok ts1 → ra_inv h' → fillable_size ws →
  container_allocate (alloc_buffer ts1 t) ws = (p, l') →
  (∀ a, tfree ts1 a + claims (ra_free h') a <= tfree ts a + claims (ra_free h) a) →
  (∀ a, tused ts1 a <= tused ts a) →
  (∀ a, tfree ts a + claims (ra_free h) a = 0 → ra_mem h' !! a = ra_mem h !! a) →
  allocated h ts t ws p h' (put_alloc_buffer ts1 t l').
Proof.
  intros Ht Hh Hw E Hf Hu Hm. destruct (Ht t) as [Hlen Hok].
  destruct (container_allocate_spec _ _ _ _ _ Hok Hw E) as (Hok' & Hlen' & Hc). split.
  - apply thread_ok_put; [done|lia|done].
  - done.
  - destruct Hc as [(-> & _)|(? & ? & _)]; auto.
  - intros a. specialize (Hf a). rewrite tfree_put. destruct Hc as [(-> & ->)|(Hp & _ & _ & Hc)].
    + rewrite claims_null. lia.
    + rewrite claims_block by (unfold NULL; lia). destruct (Hc a). lia.
  - done.
  - destruct Hc as [(-> & ->)|(Hp & _ & Hlast & Hc)].
    + left. split; [done|]. intros a. rewrite tused_put. specialize (Hu a). lia.
    + right. left. split; [unfold NULL; lia|]. split; [by rewrite alloc_buffer_put|]. intros a.
      rewrite tused_put. specialize (Hu a). destruct (Hc a). lia.
Qed.

Lemma tfree_nonneg ts a : 0 <= tfree ts a.
Proof. pose proof (tfree_buffer ts GCAllocForTenured a). pose proof (frees_nonneg (alloc_buffer ts GCAllocForTenured) a). lia. Qed.
Lemma tused_nonneg ts a : 0 <= tused ts a.
Proof. pose proof (tused_buffer ts GCAllocForTenured a). pose proof (useds_nonneg (alloc_buffer ts GCAllocForTenured) a). lia. Qed.

Lemma free_zero h ts t a :
  tfree ts a + claims (ra_free h) a = 0 → claims (ra_free h) a = 0 ∧ frees (alloc_buffer ts t) a = 0.
Proof.
  pose proof (tfree_buffer ts t a). pose proof (claims_nonneg (ra_free h) a).
  pose proof (frees_nonneg (alloc_buffer ts t) a). lia.
Qed.

Lemma alloc_buffer_waste ts w t : alloc_buffer (add_to_alloc_buffer_waste ts w) t = alloc_buffer ts t.
Proof. by destruct t. Qed.

(** A new buffer has been put in place of the first one. *)
Lemma allocated_refill h h1 ts t ws buf m' b0 rest b p l' :
  thread_ok ts → ra_inv h1 → fillable_size ws → buf ≠ NULL →
  (∀ a, claims (block_range buf (plab_sz t)) a + claims (ra_free h1) a <= claims (ra_free h) a) →
  (∀ a, claims (ra_free h) a = 0 → ra_mem h1 !! a = ra_mem h !! a) →
  alloc_buffer ts t = b0 :: rest → Forall (g1_ok (plab_sz t)) (rest ++ [b]) →
  free_range b = (buf, buf + 8 * plab_sz t) → used_range b = (buf, buf) →
  agree_out (ra_mem h1) m' (free_range b0).1 (free_range b0).2 →
  container_allocate (rest ++ [b]) ws = (p, l') →
  ∀ w, allocated h ts t ws p (ra_set_mem h1 m') (put_alloc_buffer (add_to_alloc_buffer_waste ts w) t l').
Proof.
  intros Ht Hi Hw Hne Hf Hm El Hok Hfr Hus Hag Ec w.
  set (ts1 := put_alloc_buffer (add_to_alloc_buffer_waste ts w) t (rest ++ [b])).
  replace (put_alloc_buffer (add_to_alloc_buffer_waste ts w) t l') with (put_alloc_buffer ts1 t l') by by destruct t.
  eapply allocated_buffer; try done; unfold ts1.
  - apply thread_ok_put; [exact Ht| |done]. destruct (Ht t) as [Hlen _]. rewrite El in Hlen. rewrite length_app. cbn in *. lia.
  - by apply ra_set_mem_inv.
  - by rewrite alloc_buffer_put.
  - intros a. rewrite ra_set_mem_free, tfree_put, alloc_buffer_waste, El, frees_app, !frees_cons, Hfr.
    specialize (Hf a). rewrite claims_block in Hf by done. pose proof (inside_nonneg (free_range b0) a).
    change (tfree (add_to_alloc_buffer_waste _ _) a) with (tfree ts a). change (frees [] a) with 0. lia.
  - intros a. rewrite tused_put, alloc_buffer_waste, El, useds_app, !useds_cons, Hus, inside_empty by done.
    change (tused (add_to_alloc_buffer_waste _ _) a) with (tused ts a). change (useds [] a) with 0.
    pose proof (inside_nonneg (used_range b0) a). lia.
  - intros a Ha. destruct (free_zero h ts t a Ha) as [Hz Hz']. rewrite ra_mem_set.
    rewrite El, frees_cons in Hz'. pose proof (inside_nonneg (free_range b0) a). pose proof (frees_nonneg rest a).
    rewrite Hag; [by apply Hm|]. apply outside_range. lia.
Qed.

Lemma allocate_slow_spec h ts t ws :
  thread_ok ts → ra_inv h → fillable_size ws →
  ∃ p h' ts', allocate_slow plab_sz h ts t ws = Some (p, h', ts') ∧ allocated h ts t ws p h' ts'.
Proof.
  intros Ht Hh Hw. unfold allocate_slow. destruct (_ <? _).
  - destruct (Hsz t) as [Hs Hr]. destruct (ra_allocate_spec h t (plab_sz t) Hh Hs) as (buf & h1 & -> & Hi & Hp & Hf & Hm).
    cbn [mbind option_bind]. destruct (Z.eqb_spec buf NULL) as [->|Hne].
    + exists NULL, h1, ts. split; [done|]. split; try done; [by left|..].
      * intros a. specialize (Hf a). rewrite claims_null in *. lia.
      * intros a Ha. by apply Hm, (free_zero h ts t).
      * left. split; [done|]. intros a. lia.
    + destruct Hp as [|(Hp & H8 & Hhi)]; [done|]. destruct (Ht t) as [Hlen Hok].
      assert (Hnil : alloc_buffer ts t ≠ []) by by destruct (alloc_buffer ts t).
      destruct (container_update_spec (plab_sz t) (ra_mem h1) _ buf Hok Hnil Hs Hr Hp H8 Hhi)
        as (b0 & rest & m' & b & El & Eu & Hok' & Hfr & Hus & _ & _ & Hag).
      rewrite Eu, El. cbn [words_remaining_in_retired_buffer head fmap option_fmap option_map mbind option_bind].
      destruct (container_allocate (rest ++ [b]) ws) as [obj l'] eqn:Ec. eexists _, _, _. split; [done|].
      by eapply allocated_refill.
  - destruct (ra_allocate_spec h t ws Hh Hw) as (p & h1 & -> & Hi & Hp & Hf & Hm). cbn [mbind option_bind].
    exists p, h1, ts. split; [done|]. split; try done.
    + destruct Hp as [|(? & ? & _)]; auto.
    + intros a. specialize (Hf a). lia.
    + intros a Ha. by apply Hm, (free_zero h ts t).
    + destruct (decide (p = NULL)) as [->|Hne]; [left; split; [done|]; intros; lia|]. right. right.
      split_and!; [done|intros; lia|]. intros a. specialize (Hf a). rewrite claims_block in Hf by done.
      pose proof (claims_nonneg (ra_free h1) a). lia.
Qed.

Lemma allocate_spec h ts t ws :
  thread_ok ts → ra_inv h → fillable_size ws →
  ∃ p h' ts', allocate plab_sz h ts t ws = Some (p, h', ts') ∧ allocated h ts t ws p h' ts'.
Proof.
  intros Ht Hh Hw. unfold allocate. destruct (container_allocate (alloc_buffer ts t) ws) as [p l'] eqn:E.
  destruct (Z.eqb_spec p NULL) as [->|Hp]; [by apply allocate_slow_spec|]. cbn [negb].
  eexists _, _, _. split; [done|]. by eapply allocated_buffer.
Qed.

(** Giving a block back: it is the last one of a buffer, or it becomes a
    filler object. *)
Lemma undo_allocation_spec h ts t p ws :
  thread_ok ts → ra_inv h → fillable_size ws → (8 | p) → 
  (∀ a, tfree ts a + tused ts a <= 1) →
  last_block (alloc_buffer ts t) p ws ∨ container_contains (alloc_buffer ts t) p = false →
  ∃ h' ts', undo_allocation h ts t p ws = Some (h', ts') ∧ thread_ok ts' ∧ ra_inv h' ∧ ra_free h' = ra_free h ∧
    (∀ a, inside (p, p + 8 * ws) a = 0 → ra_mem h' !! a = ra_mem h !! a) ∧
    if container_contains (alloc_buffer ts t) p
    then ∀ a, tfree ts' a = tfree ts a + inside (p, p + 8 * ws) a ∧ tused ts a = tused ts' a + inside (p, p + 8 * ws) a
    else ∀ a, tfree ts' a = tfree ts a ∧ tused ts' a = tused ts a.
Proof.
  intros Ht Hh Hw H8 Hd Hl. unfold undo_allocation. destruct (Ht t) as [Hlen Hok].
  destruct Hl as [Hl|Hn].
  - destruct (container_undo_spec _ _ p ws Hok Hw H8 Hl) as (l' & -> & -> & Hok' & Hlen' & _ & Ha).
    { intros a. specialize (Hd a). pose proof (tfree_buffer ts t a). pose proof (tused_buffer ts t a). lia. }
    cbn [mbind option_bind]. eexists _, _. split; [done|]. split; [apply thread_ok_put; [done|lia|done]|].
    split_and!; try done. intros a. rewrite tfree_put, tused_put. destruct (Ha a). lia.
  - rewrite Hn. destruct Hw as [Hw Hal]. destruct (fill_with_object_spec (ra_mem h) p ws Hcfg Hw Hal) as (m' & -> & _ & Hag).
    cbn [mbind option_bind]. eexists _, _. split; [done|]. split; [exact Ht|].
    split_and!; [by apply ra_set_mem_inv|by rewrite ra_set_mem_free| |done]. intros a Ha. rewrite ra_mem_set.
    apply Hag. by apply (outside_range (p, p + 8 * ws)).
Qed.

(** ** Failure *)

Lemma container_allocate_room sz l ws b :
  Forall (g1_ok sz) l → fillable_size ws → b ∈ l → 0 < pb_top (gb_base b) →
  pb_top (gb_base b) + 8 * ws <= pb_end (gb_base b) → (container_allocate l ws).1 ≠ NULL.
Proof.
  intros Hl Hw. induction Hl as [|c l Hc Hl IH]; [by intros ?%not_elem_of_nil|]. intros Hb Ht Hroom. cbn [container_allocate].
  destruct (plab_allocate (gb_base c) ws) as [q c'] eqn:E. destruct (Z.eqb_spec q NULL) as [->|Hq]; cbn [negb]; [|done].
  apply elem_of_cons in Hb as [->|Hb].
  - pose proof (plab_allocate_room _ ws (go_plab _ _ Hc) Hw Ht Hroom) as E'. rewrite E in E'. cbn in E'. unfold NULL in E'. lia.
  - specialize (IH Hb Ht Hroom). by destruct (container_allocate l ws).
Qed.

(** The regions had no memory for a new buffer or for the object. *)
Definition no_memory (h : H) (t : GCAllocPurpose) (ws : Z) : Prop :=
  ∃ n h1, (n = ws ∨ n = plab_sz t) ∧ par_allocate_during_gc h t n = Some (NULL, h1).

Lemma failed_allocation h ts t ws h' ts' :
  0 <= ParallelGCBufferWastePct <= 100 → thread_ok ts → ra_inv h → fillable_size ws → allocate plab_sz h ts t ws = Some (NULL, h', ts') →
  no_memory h t ws ∨ ws * 100 < plab_sz t * ParallelGCBufferWastePct ∧ plab_sz t < ws + AlignmentReserve.
Proof.
  intros Hpct Ht Hh Hw E. unfold allocate in E.
  destruct (container_allocate (alloc_buffer ts t) ws) as [q l]. destruct (Z.eqb_spec q NULL) as [->|Hq]; cbn [negb] in E; [|congruence].
  pose proof (fillable_range ws Hw). destruct (Hsz t) as [Hs Hr]. pose proof (fillable_range _ Hs).
  unfold allocate_slow in E. rewrite !u64_small in E by (unfold in_u64; nia).
  destruct (Z.ltb_spec (ws * 100) (plab_sz t * ParallelGCBufferWastePct)) as [Hlt|_].
  - destruct (ra_allocate_spec h t (plab_sz t) Hh Hs) as (buf & h1 & Eb & Hi & Hp & _). rewrite Eb in E. cbn [mbind option_bind] in E.
    destruct (Z.eqb_spec buf NULL) as [->|Hne]; [left; eexists _, _; eauto|]. right. split; [done|]. destruct Hp as [|(Hp & H8 & Hhi)]; [done|].
    destruct (Ht t) as [Hlen Hok]. assert (Hnil : alloc_buffer ts t ≠ []) by by destruct (alloc_buffer ts t).
    destruct (container_update_spec (plab_sz t) (ra_mem h1) _ buf Hok Hnil Hs Hr Hp H8 Hhi)
      as (b0 & rest & m' & b & El & Eu & Hok' & Hfr & _ & He & _). rewrite Eu, El in E. cbn in E.
    assert (Hb : b ∈ rest ++ [b]) by set_solver. injection Hfr as Hbt _.
    destruct (Z.ltb_spec (plab_sz t) (ws + AlignmentReserve)) as [Hfit|Hfit]; [done|exfalso].
    pose proof (container_allocate_room _ _ ws b Hok' Hw Hb ltac:(lia) ltac:(lia)) as Hne'.
    destruct (container_allocate (rest ++ [b]) ws). cbn in *. congruence.
  - destruct (ra_allocate_spec h t ws Hh Hw) as (q & h1 & Eb & _). rewrite Eb in E. cbn [mbind option_bind] in E.
    injection E as -> -> ->. left. eexists _, _. eauto.
Qed.

(** C38: For every value of [ParallelGCBufferWastePct] that the flag check
    accepts, an allocation of a worker does not fault, and it fails only when
    the regions have no memory for a new buffer or for the object, or when the
    object passes the size test for a new buffer but does not fit into it
    beside the alignment reserve. The latter does not happen when the
    percentage leaves room for the reserve, so a new buffer is then big enough
    for the object that it was allocated for. *)
Theorem allocation_fails_without_memory h ts t ws :
  0 <= ParallelGCBufferWastePct <= 100 → thread_ok ts → ra_inv h → fillable_size ws →
  ∃ p h' ts', allocate plab_sz h ts t ws = Some (p, h', ts') ∧
    (p = NULL → no_memory h t ws ∨ ws * 100 < plab_sz t * ParallelGCBufferWastePct ∧ plab_sz t < ws + AlignmentReserve) ∧
    (100 * AlignmentReserve <= plab_sz t * (100 - ParallelGCBufferWastePct) → p = NULL → no_memory h t ws).
Proof.
  intros Hpct Ht Hh Hw. destruct (allocate_spec h ts t ws Ht Hh Hw) as (p & h' & ts' & E & _). exists p, h', ts'. split; [done|].
  assert (Hfail : p = NULL → no_memory h t ws ∨ ws * 100 < plab_sz t * ParallelGCBufferWastePct ∧ plab_sz t < ws + AlignmentReserve); [|split; [done|]].
  - intros ->. by apply (failed_allocation h ts t ws h' ts').
  - intros Hr Hp. destruct (Hfail Hp) as [|[H1 H2]]; [done|]. destruct (Hsz t) as [Hs _]. pose proof (fillable_range _ Hs). nia.
Qed.

(** What retiring the buffers leaves behind. *)
Record buffers_retired (h : H) (ts : G1ParScanThreadState) (h' : H) (ts' : G1ParScanThreadState) : Prop := mkRetired {
  br_thread : thread_ok ts';
  br_regions : ra_inv h' ∧ ra_free h' = ra_free h;
  br_free : ∀ a, tfree ts' a = 0;
  br_used : ∀ a, tused ts' a <= tused ts a;
  br_memory : ∀ a, tfree ts a = 0 → ra_mem h' !! a = ra_mem h !! a;
  br_filled : ∀ t b, b ∈ alloc_buffer ts t → (free_range b).1 < (free_range b).2 →
    parsable (ra_mem h') (free_range b).1 (free_range b).2 [(free_range b).1]
}.

Lemma retire_alloc_buffers_spec h s ts :
  thread_ok ts → ra_inv h → (∀ a, tfree ts a <= 1) →
  ∃ h' s' ts', retire_alloc_buffers h s ts = Some (h', s', ts') ∧ buffers_retired h ts h' ts'.
Proof.
  intros Ht Hh Hd. destruct (Ht GCAllocForTenured) as [Hlo Hoko]. destruct (Ht GCAllocForSurvived) as [Hls Hoks].
  cbn [alloc_buffer] in *. unfold retire_alloc_buffers. cbn [mbind option_bind alloc_buffer add_to_alloc_buffer_waste ts_tenured_alloc_buffer].
  assert (Hdo : ∀ a, frees (ts_tenured_alloc_buffer ts) a <= 1) by
    (intros a; specialize (Hd a); pose proof (frees_nonneg (ts_surviving_alloc_buffer ts) a); unfold tfree in Hd; lia).
  assert (Hds : ∀ a, frees (ts_surviving_alloc_buffer ts) a <= 1) by
    (intros a; specialize (Hd a); pose proof (frees_nonneg (ts_tenured_alloc_buffer ts) a); unfold tfree in Hd; lia).
  destruct (container_retire_spec _ (ra_mem h) (stats_for_purpose s GCAllocForTenured) _ Hoko Hdo)
    as (m1 & s1 & l1 & -> & _ & Hok1 & Hlen1 & Hf1 & Hu1 & Hm1 & Hp1). cbn.
  rewrite ra_mem_set.
  match goal with |- context [container_flush_and_retire m1 ?st _ _ _] =>
    destruct (container_retire_spec _ m1 st _ Hoks Hds) as (m2 & s2 & l2 & -> & _ & Hok2 & Hlen2 & Hf2 & Hu2 & Hm2 & Hp2) end.
  cbn. eexists _, _, _. split; [done|]. split.
  - intros []; cbn; (split; [lia|done]).
  - split; [by apply ra_set_mem_inv, ra_set_mem_inv|by rewrite !ra_set_mem_free].
  - intros a. change (frees l2 a + frees l1 a = 0). by rewrite Hf1, Hf2.
  - intros a. change (useds l2 a + useds l1 a <= tused ts a). unfold tused. specialize (Hu1 a). specialize (Hu2 a). lia.
  - intros a Ha. unfold tfree in Ha. rewrite ra_mem_set. pose proof (frees_nonneg (ts_surviving_alloc_buffer ts) a).
    pose proof (frees_nonneg (ts_tenured_alloc_buffer ts) a). rewrite Hm2, Hm1 by lia. done.
  - intros [] b Hb Hlt; cbn in Hb; rewrite ra_mem_set; [|by apply Hp2].
    eapply parsable_frame; [by apply Hp1|]. intros a Ha. apply Hm2. specialize (Hd a). unfold tfree in Hd.
    assert (inside (free_range b) a <= frees (ts_tenured_alloc_buffer ts) a) by (apply claims_elem; by apply list_elem_of_fmap_2).
    rewrite (surjective_pairing (free_range b)), inside_in in * by done. pose proof (frees_nonneg (ts_surviving_alloc_buffer ts) a). lia.
Qed.

End worker.
End facts.
End PlabFacts.
