(* ===== verification/GcRegions.v ===== *)
(** The regions that an evacuation copies into: the survivor and the old
    allocation region of a collection ([SurvivorGCAllocRegion],
    [OldGCAllocRegion] and [par_allocate_during_gc] in [g1CollectedHeap.cpp],
    [survivor_attempt_allocation] and [old_attempt_allocation] in
    [g1CollectedHeap.inline.hpp]), from their set-up at the start of a pause
    to their release. They implement the interface that the promotion buffers
    are written against. *)

From S2P Require Import Prelude MarkWord JavaHeap BlockOffset GenRegions Tlab Evacuation Plab.
Import JavaHeap BlockOffset Evacuation.

Module GcRegions.
Import HeapRegions AllocRegion Plab G1Plab.

Class GcPolicy := mkGcPolicy {
  _max_survivor_regions : Z;
  during_initial_mark_pause : bool
}.

(** [gc_limit_reached]: the policy was told that there are no more regions. *)
Record GCAllocRegion := mkGCAR {
  gc_base : G1AllocRegion;
  gc_purpose : GCAllocPurpose;
  gc_limit_reached : bool
}.

Definition new_SurvivorGCAllocRegion : GCAllocRegion := mkGCAR (mkAR NULL 0 0 false) GCAllocForSurvived false.
Definition new_OldGCAllocRegion : GCAllocRegion := mkGCAR (mkAR NULL 0 0 true) GCAllocForTenured false.

(** * Changes to the heap *)

Definition record_bytes_copied_during_gc (h : G1Heap) (bytes : Z) : G1Heap :=
  mkG1 (g_mem h) (g_bot h) (g_regions h) (g_free_list h) (g_old_set h) (g_summary_bytes_used h)
    (g_gc_time_stamp h) (g_card_table h) (g_dirty_cards h)
    (g_survivors h) (u64 (g_bytes_copied_during_gc h + bytes)).
Definition add_survivor_region (h : G1Heap) (p : Z) : G1Heap :=
  mkG1 (g_mem h) (g_bot h) (g_regions h) (g_free_list h) (g_old_set h) (g_summary_bytes_used h)
    (g_gc_time_stamp h) (g_card_table h) (g_dirty_cards h)
    (p :: g_survivors h) (g_bytes_copied_during_gc h).
Definition set_old_set (h : G1Heap) (l : list Z) : G1Heap :=
  mkG1 (g_mem h) (g_bot h) (g_regions h) (g_free_list h) l (g_summary_bytes_used h)
    (g_gc_time_stamp h) (g_card_table h) (g_dirty_cards h)
    (g_survivors h) (g_bytes_copied_during_gc h).

Definition g1_young_gen : Z := 32.

Definition g1_mark_as_young (h : G1Heap) (start end_ : Z) : G1Heap :=
  let first := byte_for start in
  let last := byte_for (hw_add end_ (-1)) + 1 in
  set_card_table h
    (foldr (λ c m, <[c := g1_young_gen]> m) (g_card_table h) (card_range first (Z.to_nat (last - first)))).

Definition dirty_young_block (h : G1Heap) (start word_size : Z) : G1Heap :=
  g1_mark_as_young h start (hw_add start word_size).

Definition is_survivor (r : HeapRegion) : bool :=
  match hr_young_type r with Survivor => true | _ => false end.

Section gc.
Context {cfg : VMConfig} {policy : GcPolicy}.
Variable reserved_start _dummy_region : Z.
Variable other_regions : G1Heap → Z * G1Heap.

Definition note_start_of_copying (r : HeapRegion) : HeapRegion :=
  if is_survivor r then r
  else if during_initial_mark_pause then set_next_top_at_mark_start r (hr_end r) else r.

Definition note_end_of_copying (r : HeapRegion) : HeapRegion :=
  if is_survivor r then r
  else if during_initial_mark_pause then set_next_top_at_mark_start r (hr_top r) else r.

Definition max_regions (purpose : GCAllocPurpose) : Z :=
  match purpose with GCAllocForSurvived => _max_survivor_regions | GCAllocForTenured => REGIONS_UNLIMITED end.

(** The second component: the limit was noted. *)
Definition new_gc_alloc_region (h : G1Heap) (count : Z) (ap : GCAllocPurpose) : option (Z * bool * G1Heap) :=
  if count <? max_regions ap then
    let '(p, h) := new_region other_regions h in
    if negb (p =? NULL) then
      h ← upd_region h p (set_saved_mark h);
      h ← match ap with
          | GCAllocForSurvived => upd_region h p (λ r, set_young_type r Survivor)
          | GCAllocForTenured => Some h
          end;
      h ← upd_region h p note_start_of_copying;
      Some (p, false, h)
    else Some (NULL, true, h)
  else Some (NULL, false, h).

Definition retire_gc_alloc_region (h : G1Heap) (p allocated_bytes : Z) (ap : GCAllocPurpose) : option G1Heap :=
  h ← upd_region h p note_end_of_copying;
  let h := record_bytes_copied_during_gc h allocated_bytes in
  Some (match ap with
        | GCAllocForSurvived => add_survivor_region h p
        | GCAllocForTenured => set_old_set h (p :: g_old_set h)
        end).

#[global] Instance gc_alloc_region : AllocRegionKind GCAllocRegion := {
  base := gc_base;
  set_base g b := mkGCAR b (gc_purpose g) (gc_limit_reached g);
  allocate_new_region g h word_size force :=
    '(p, limit, h) ← new_gc_alloc_region h (_count (gc_base g)) (gc_purpose g);
    Some (p, mkGCAR (gc_base g) (gc_purpose g) (gc_limit_reached g || limit), h);
  retire_region g h p allocated_bytes := retire_gc_alloc_region h p allocated_bytes (gc_purpose g)
}.

(** The lock-free attempt, then the one under the lock. *)
Definition attempt_then_locked (g : GCAllocRegion) (h : G1Heap) (word_size : Z) (bot_updates : bool)
    : option (Z * GCAllocRegion * G1Heap) :=
  '(result, h) ← attempt_allocation reserved_start g h word_size bot_updates;
  if result =? NULL then attempt_allocation_locked reserved_start _dummy_region g h word_size bot_updates
  else Some (result, g, h).

(** The state of the allocator: the heap, the two allocation regions and the
    old region kept from the last pause. *)
Record GcAllocator := mkGcAllocator {
  ga_heap : G1Heap;
  _survivor_gc_alloc_region : GCAllocRegion;
  _old_gc_alloc_region : GCAllocRegion;
  _retained_old_gc_alloc_region : Z
}.
Definition ga_set_heap (g : GcAllocator) (h : G1Heap) : GcAllocator :=
  mkGcAllocator h (_survivor_gc_alloc_region g) (_old_gc_alloc_region g) (_retained_old_gc_alloc_region g).

Definition survivor_attempt_allocation (g : GcAllocator) (word_size : Z) : option (Z * GcAllocator) :=
  '(result, r, h) ← attempt_then_locked (_survivor_gc_alloc_region g) (ga_heap g) word_size false;
  let h := if negb (result =? NULL) then dirty_young_block h result word_size else h in
  Some (result, mkGcAllocator h r (_old_gc_alloc_region g) (_retained_old_gc_alloc_region g)).

Definition old_attempt_allocation (g : GcAllocator) (word_size : Z) : option (Z * GcAllocator) :=
  '(result, r, h) ← attempt_then_locked (_old_gc_alloc_region g) (ga_heap g) word_size true;
  Some (result, mkGcAllocator h (_survivor_gc_alloc_region g) r (_retained_old_gc_alloc_region g)).

Definition g1_par_allocate_during_gc (g : GcAllocator) (purpose : GCAllocPurpose) (word_size : Z)
    : option (Z * GcAllocator) :=
  match purpose with
  | GCAllocForSurvived =>
      '(result, g) ← survivor_attempt_allocation g word_size;
      if negb (result =? NULL) then Some (result, g) else old_attempt_allocation g word_size
  | GCAllocForTenured =>
      '(result, g) ← old_attempt_allocation g word_size;
      if negb (result =? NULL) then Some (result, g) else survivor_attempt_allocation g word_size
  end.

(** * The start and the end of a pause *)

(** Whether a region is in the collection set, or holds a humongous object. *)
Variable in_collection_set isHumongous : Z → bool.

Definition init_gc_alloc_regions (g : GcAllocator) : option GcAllocator :=
  let h := ga_heap g in
  let survivor := init _dummy_region (_survivor_gc_alloc_region g) in
  let old := init _dummy_region (_old_gc_alloc_region g) in
  let retained_region := _retained_old_gc_alloc_region g in
  if negb (retained_region =? NULL) && negb (in_collection_set retained_region) then
    r ← g_regions h !! retained_region;
    if negb (hr_top r =? hr_end r) && negb (hr_top r =? hr_bottom r) && negb (isHumongous retained_region) then
      h ← upd_region h retained_region (set_saved_mark h);
      let h := set_old_set h (filter (λ p, p ≠ retained_region) (g_old_set h)) in
      h ← upd_region h retained_region note_start_of_copying;
      old ← set old h retained_region;
      Some (mkGcAllocator h survivor old NULL)
    else Some (mkGcAllocator h survivor old NULL)
  else Some (mkGcAllocator h survivor old NULL).

(** [stats] are the statistics of the buffers of the two purposes. *)
Definition release_gc_alloc_regions `{!Tlab.TlabFlags} `{!PlabFlags} (g : GcAllocator) (stats : PurposeStats)
    (no_of_gc_workers : Z) : option (GcAllocator * PurposeStats) :=
  '(_, survivor, h) ← release reserved_start _dummy_region (_survivor_gc_alloc_region g) (ga_heap g);
  '(retained, old, h) ← release reserved_start _dummy_region (_old_gc_alloc_region g) h;
  let g := mkGcAllocator h survivor old retained in
  if ResizePLAB then
    s ← adjust_desired_plab_sz (_survivor_plab_stats stats) no_of_gc_workers;
    o ← adjust_desired_plab_sz (_old_plab_stats stats) no_of_gc_workers;
    Some (g, mkPurposeStats s o)
  else Some (g, stats).

Definition abandon_gc_alloc_regions (g : GcAllocator) : GcAllocator :=
  mkGcAllocator (ga_heap g) (_survivor_gc_alloc_region g) (_old_gc_alloc_region g) NULL.

End gc.
End GcRegions.

(** * Facts *)

Module GcRegionsFacts.
Import HeapRegions AllocRegion Plab G1Plab GcRegions JavaHeapFacts PlabFacts.

Section facts.
Context {cfg : VMConfig} {policy : GcPolicy}.
Hypothesis Hcfg : config_ok.
Variable rs dummy : Z.

(** The space of a region: what is left of it can be filled by one object. *)
Record region_wf (r : HeapRegion) : Prop := mkRegionWf {
  rw_order : 0 < hr_bottom r <= hr_top r ∧ hr_top r <= hr_end r < 2 ^ 63;
  rw_align : (8 * MinObjAlignment | hr_end r - hr_top r);
  rw_top : (8 | hr_top r);
  rw_size : hr_end r - hr_bottom r <= 8 * filler_array_max_size
}.

Definition region_free (h : G1Heap) (p : Z) : Z * Z :=
  match g_regions h !! p with Some r => (hr_top r, hr_end r) | None => (0, 0) end.

(** What supplies regions when the free list is empty, the secondary free
    list or an expansion of the heap, gives an unknown region whose space is
    its own: [other_free] is the space behind it, as long as the given
    regions are known. *)
Class OtherRegions := {
  other_regions : G1Heap → Z * G1Heap;
  other_free : gset Z → list (Z * Z);
  other_regions_spec : ∀ h,
    other_regions h = (NULL, h) ∨
    ∃ p r, other_regions h = (p, set_region h p r) ∧ p ≠ NULL ∧ g_regions h !! p = None ∧ region_wf r ∧
      ∀ a, inside (hr_top r, hr_end r) a + claims (other_free ({[p]} ∪ dom (g_regions h))) a
           <= claims (other_free (dom (g_regions h))) a
}.

Context `{!OtherRegions}.

(** The active regions [x] and [y] and the free regions. *)
Definition active (x : Z) : list Z := if x =? dummy then [] else [x].
Definition live (h : G1Heap) (x y : Z) : list Z := active x ++ active y ++ g_free_list h.

Record heap_inv (h : G1Heap) (x y : Z) : Prop := mkHeapInv {
  hi_dummy : dummy ≠ NULL ∧ ∃ r, g_regions h !! dummy = Some r ∧ hr_top r = hr_end r;
  hi_nodup : NoDup (live h x y);
  hi_live : ∀ p, p ∈ live h x y → p ≠ NULL ∧ p ≠ dummy ∧ ∃ r, g_regions h !! p = Some r ∧ region_wf r
}.

Definition heap_free (h : G1Heap) (x y : Z) : list (Z * Z) :=
  region_free h x :: region_free h y :: (region_free h <$> g_free_list h) ++ other_free (dom (g_regions h)).

(** [h'] and [x'] are what a step of the allocator with active region [x]
    leaves; it has taken the ranges [b] out of the free memory. *)
Record takes (y : Z) (b : list (Z * Z)) (h : G1Heap) (x : Z) (h' : G1Heap) (x' : Z) : Prop := mkTakes {
  tk_inv : heap_inv h' x' y;
  tk_free : ∀ a, claims b a + claims (heap_free h' x' y) a <= claims (heap_free h x y) a;
  tk_mem : ∀ a, claims (heap_free h x y) a = 0 → g_mem h' !! a = g_mem h !! a
}.

Lemma takes_trans y b1 b2 h x h1 x1 h2 x2 :
  takes y b1 h x h1 x1 → takes y b2 h1 x1 h2 x2 → takes y (b1 ++ b2) h x h2 x2.
Proof.
  intros [H1 F1 M1] [H2 F2 M2]. split; [done| |].
  - intros a. specialize (F1 a). specialize (F2 a). rewrite claims_app. lia.
  - intros a Ha. rewrite M2; [by apply M1|]. specialize (F1 a). pose proof (claims_nonneg b1 a).
    pose proof (claims_nonneg (heap_free h1 x1 y) a). lia.
Qed.

Lemma takes_refl y h x : heap_inv h x y → takes y [] h x h x.
Proof. intros Hi. split; [done| |done]. intros a. rewrite claims_nil. lia. Qed.

Lemma heap_inv_sym h x y : heap_inv h x y → heap_inv h y x.
Proof.
  assert (Hp : live h x y ≡ₚ live h y x) by (unfold live; rewrite !app_assoc; f_equiv; apply Permutation_app_comm).
  intros [Hd Hn Hl]. split; [done|by rewrite <- Hp|]. intros p. rewrite <- Hp. apply Hl.
Qed.

Lemma heap_free_sym h x y a : claims (heap_free h x y) a = claims (heap_free h y x) a.
Proof. unfold heap_free. rewrite !claims_cons. lia. Qed.

Lemma dummy_free h x y a : heap_inv h x y → inside (region_free h dummy) a = 0.
Proof. intros [(_ & r & Hr & Ht) _ _]. unfold region_free. rewrite Hr. apply inside_empty. lia. Qed.

Lemma dummy_free_cons h y a l : heap_inv h dummy y → claims (region_free h dummy :: l) a = claims l a.
Proof. intros Hi. rewrite claims_cons, (dummy_free h dummy y) by done. lia. Qed.

(** The active region among the others. *)
Lemma active_region h x y :
  heap_inv h x y → x ≠ dummy →
  ∃ r, g_regions h !! x = Some r ∧ region_wf r ∧ x ≠ NULL ∧ (y ≠ x) ∧ x ∉ g_free_list h.
Proof.
  intros [_ Hn Hl] Hx. assert (Ha : active x = [x]) by (unfold active; by rewrite (proj2 (Z.eqb_neq x dummy))).
  unfold live in *. rewrite Ha in *. destruct (Hl x) as (H0 & _ & r & Hr & Hw); [by left|]. exists r.
  apply NoDup_cons in Hn as [Hn _]. split_and!; try done; [|set_solver].
  intros ->. rewrite Ha in Hn. set_solver.
Qed.

(** The active region moves its top and changes nothing else of its space. *)
Lemma takes_update y h x r r' h' :
  heap_inv h x y → x ≠ dummy → g_regions h !! x = Some r →
  region_wf r' → hr_top r <= hr_top r' → hr_end r' = hr_end r →
  g_regions h' = <[x := r']> (g_regions h) → g_free_list h' = g_free_list h →
  (∀ a, inside (hr_top r, hr_end r) a = 0 → g_mem h' !! a = g_mem h !! a) →
  takes y [(hr_top r, hr_top r')] h x h' x.
Proof.
  intros Hi Hx Hr Hw' Htop Hend Hregs Hfree Hmem.
  destruct (active_region h x y Hi Hx) as (r0 & Hr0 & Hw & Hnull & Hyx & Hxf). assert (r0 = r) as -> by congruence.
  pose proof Hi as [Hd Hn Hl].
  assert (Ho : ∀ p, p ≠ x → g_regions h' !! p = g_regions h !! p) by (intros; by rewrite Hregs, lookup_insert_ne).
  assert (Hxr : g_regions h' !! x = Some r') by by rewrite Hregs, lookup_insert_eq.
  assert (Hfo : ∀ p, p ≠ x → region_free h' p = region_free h p) by (intros p Hp; unfold region_free; by rewrite Ho).
  assert (Hdom : dom (g_regions h') = dom (g_regions h)).
  { rewrite Hregs. apply leibniz_equiv, dom_insert_lookup. by eexists. }
  split.
  - split.
    + destruct Hd as (Hd & rd & Hrd & Ht). split; [done|]. exists rd. by rewrite Ho.
    + unfold live in *. by rewrite Hfree.
    + unfold live in *. rewrite Hfree. intros p Hp. destruct (Hl p Hp) as (? & ? & rp & Hrp & Hwp). split_and!; try done.
      destruct (decide (p = x)) as [->|Hpx]; [by exists r'|exists rp; by rewrite Ho].
  - intros a. unfold heap_free. rewrite !claims_cons, !claims_app, Hdom, Hfree, claims_nil, (Hfo y) by done.
    rewrite (list_fmap_ext (region_free h') (region_free h)) by
      (intros i p Hp; apply Hfo; intros ->; by apply Hxf; eapply list_elem_of_lookup_2).
    unfold region_free at 1 4. rewrite Hxr, Hr, Hend.
    destruct (rw_order _ Hw'). rewrite (inside_split (hr_top r) (hr_top r') (hr_end r)) by lia. lia.
  - intros a Ha. apply Hmem. unfold heap_free in Ha. rewrite !claims_cons in Ha. unfold region_free at 1 in Ha. rewrite Hr in Ha.
    pose proof (inside_nonneg (hr_top r, hr_end r) a). pose proof (inside_nonneg (region_free h y) a).
    match goal with H : context [claims ?l a] |- _ => pose proof (claims_nonneg l a) end. lia.
Qed.

(** A change that leaves the space of the active region alone. *)
Definition same_space (r r' : HeapRegion) : Prop :=
  hr_bottom r' = hr_bottom r ∧ hr_top r' = hr_top r ∧ hr_end r' = hr_end r.

Lemma region_wf_same r r' : same_space r r' → region_wf r → region_wf r'.
Proof. intros (Hb & Ht & He) [Ho Ha H8 Hs]. split; by rewrite ?Hb, ?Ht, ?He. Qed.

Lemma takes_upd y h x f :
  heap_inv h x y → x ≠ dummy → (∀ r, same_space r (f r)) →
  ∃ r, g_regions h !! x = Some r ∧ upd_region h x f = Some (set_region h x (f r)) ∧ takes y [] h x (set_region h x (f r)) x.
Proof.
  intros Hi Hx Hf. destruct (active_region h x y Hi Hx) as (r & Hr & Hw & _). exists r. split; [done|].
  unfold upd_region. rewrite Hr. split; [done|]. destruct (Hf r) as (Hb & Ht & He).
  destruct (takes_update y h x r (f r) (set_region h x (f r)) Hi Hx Hr) as [H1 H2 H3]; try done; [by eapply region_wf_same|lia|].
  split; [done| |done]. intros a. specialize (H2 a). rewrite claims_nil, claims_cons, claims_nil, inside_empty in * by lia. lia.
Qed.

(** Giving up the active region. *)
Lemma takes_drop y h x : heap_inv h x y → takes y [] h x h dummy.
Proof.
  intros Hi. pose proof Hi as [Hd Hn Hl]. assert (Ha : active dummy = []) by (unfold active; by rewrite Z.eqb_refl).
  unfold live in *. split; [|intros a|done].
  - split; [done| |]; unfold live; rewrite Ha.
    + apply NoDup_app in Hn as (_ & _ & Hn). done.
    + intros p Hp. apply Hl. apply elem_of_app. by right.
  - unfold heap_free. rewrite claims_nil, !claims_cons, (dummy_free h x y) by done.
    pose proof (inside_nonneg (region_free h x) a). lia.
Qed.

(** ** Allocating in the active region *)

Lemma space_allocate_spec y h x ws par bot :
  heap_inv h x y → x ≠ dummy → 0 < ws < 2 ^ 32 → (MinObjAlignment | ws) →
  ∃ p h', space_allocate rs h x ws par bot = Some (p, h') ∧
    (p = NULL ∧ h' = h ∧ (region_free h x).2 - (region_free h x).1 < 8 * ws ∨
     0 < p ∧ (8 | p) ∧ p + 8 * ws < 2 ^ 63 ∧ takes y [(p, p + 8 * ws)] h x h' x ∧ g_mem h' = g_mem h ∧
       region_free h x = (p, (region_free h x).2) ∧ region_free h' x = (p + 8 * ws, (region_free h x).2)).
Proof.
  intros Hi Hx Hws [qw Dw]. destruct (active_region h x y Hi Hx) as (r & Hr & Hw & _).
  pose proof Hw as [(Ho1 & Ho2) [qa Ha] [q8 H8] Hs]. unfold space_allocate. rewrite Hr. cbn [mbind option_bind].
  assert (E : (if par then par_allocate_impl r ws (hr_end r) else allocate_impl r ws (hr_end r)) =
    (if words_between (hr_end r) (hr_top r) >=? ws then (hr_top r, set_top r (hw_add (hr_top r) ws)) else (NULL, r))) by by destruct par.
  rewrite E. unfold words_between, pointer_delta, HeapWordSize. rewrite u64_small by (unfold in_u64; lia).
  destruct (Z.geb_spec ((hr_end r - hr_top r) / 8) ws) as [Hge|Hlt].
  2: { change (NULL =? NULL) with true. eexists _, _. split; [done|]. left. split_and!; try done.
       unfold region_free. rewrite Hr. cbn. Z.to_euclidean_division_equations. lia. }
  rewrite (proj2 (Z.eqb_neq (hr_top r) NULL)) by (unfold NULL; lia).
  assert (8 * ws <= hr_end r - hr_top r) by (Z.to_euclidean_division_equations; lia).
  set (r1 := set_top r (hw_add (hr_top r) ws)).
  assert (Ht1 : hr_top r1 = hr_top r + 8 * ws) by (unfold r1, hw_add, HeapWordSize; cbn; lia).
  assert (Hw1 : ∀ r', same_space r1 r' → region_wf r').
  { intros r' (Hb' & Ht' & He'). split; rewrite ?Hb', ?Ht', ?He'; rewrite ?Ht1; unfold r1; cbn; try lia; [exists (qa - qw); lia|exists (q8 + ws); lia]. }
  assert (Htk : ∀ r' h', same_space r1 r' → g_regions h' = <[x := r']> (g_regions h) → g_free_list h' = g_free_list h → g_mem h' = g_mem h →
    takes y [(hr_top r, hr_top r + 8 * ws)] h x h' x ∧ g_mem h' = g_mem h ∧
    region_free h x = (hr_top r, (region_free h x).2) ∧ region_free h' x = (hr_top r + 8 * ws, (region_free h x).2)).
  { intros r' h' Hss Hg Hf Hm. pose proof Hss as (Hb' & Ht' & He'). split; [|split; [done|]].
    - replace (hr_top r + 8 * ws) with (hr_top r') by lia.
      eapply takes_update; try done; [by apply Hw1|lia|by rewrite Hm].
    - unfold region_free. rewrite Hg, lookup_insert_eq, Hr. cbn. rewrite Ht', Ht1, He'. done. }
  destruct bot; (eexists _, _; split; [done|]; right; split; [lia|]; split; [by exists q8|]; split; [lia|]).
  - eapply Htk; [|reflexivity|done|done]. done.
  - by eapply (Htk r1).
Qed.

(** Changes outside regions, memory and free list do not matter. *)
Lemma takes_same y b h x h' x' h2 :
  takes y b h x h' x' → g_regions h2 = g_regions h' → g_free_list h2 = g_free_list h' →
  (∀ a, claims (heap_free h x y) a = 0 → g_mem h2 !! a = g_mem h' !! a) → takes y b h x h2 x'.
Proof.
  intros [[Hd Hn Hl] Hf Hm] Er Ef Em. split.
  - split; unfold live in *; rewrite ?Er, ?Ef; done.
  - intros a. specialize (Hf a). unfold heap_free, region_free in *. rewrite Er, Ef. done.
  - intros a Ha. rewrite Em by done. by apply Hm.
Qed.

Lemma wf_rest h x y :
  heap_inv h x y → x ≠ dummy → ∃ w, (region_free h x).2 - (region_free h x).1 = 8 * w ∧ 0 <= w <= filler_array_max_size ∧
    (MinObjAlignment | w) ∧ ∀ r, g_regions h !! x = Some r → free r / HeapWordSize = w.
Proof.
  intros Hi Hx. destruct (active_region h x y Hi Hx) as (r & Hr & [(Ho1 & Ho2) [qa Ha] _ Hs] & _).
  pose proof (align_pos Hcfg). unfold region_free. rewrite Hr. cbn [fst snd]. exists (qa * MinObjAlignment).
  split; [lia|]. split; [lia|]. split; [by exists qa|]. intros r' [= <-]. unfold free, pointer_delta, HeapWordSize.
  rewrite u64_small, Z.div_1_r by (unfold in_u64; lia). rewrite Ha. replace (qa * (8 * MinObjAlignment)) with (qa * MinObjAlignment * 8) by lia.
  by rewrite Z.div_mul.
Qed.

Lemma gc_fill_up_spec y h x bot :
  heap_inv h x y → x ≠ dummy → ∃ h', fill_up_remaining_space rs h x bot = Some h' ∧ takes y [] h x h' x.
Proof.
  intros Hi Hx. destruct (active_region h x y Hi Hx) as (r & Hr & Hw & _). destruct (wf_rest h x y Hi Hx) as (w & Ew & Hwr & Hal & Hfw).
  destruct (max_fill_range Hcfg) as (k & HA & Hk & HM & _). destruct (min_fill_range k HA Hk) as [Hmin _].
  unfold fill_up_remaining_space. rewrite Hr. cbn [mbind option_bind fill_up_loop]. rewrite (Hfw r Hr).
  destruct (Z.geb_spec w min_fill_size) as [Hge|Hlt]; [|exists h; split; [done|by apply takes_refl]].
  destruct (space_allocate_spec y h x w true bot Hi Hx) as (p & h1 & -> & Hc); [lia|done|]. cbn [mbind option_bind].
  destruct Hc as [(_ & _ & Hc)|(Hp & _ & _ & Htk & Hm & _)]; [lia|].
  rewrite (proj2 (Z.eqb_neq p NULL)) by (unfold NULL; lia). cbn [negb].
  destruct (fill_with_object_spec (g_mem h1) p w Hcfg) as (m' & -> & _ & Hag); [lia|done|]. cbn [mbind option_bind].
  assert (Htk2 : takes y [] h x (set_mem h1 m') x).
  { destruct Htk as [H1 H2 H3]. split.
    - by destruct H1.
    - intros a. specialize (H2 a). pose proof (inside_nonneg (p, p + 8 * w) a). rewrite claims_cons, claims_nil in H2. rewrite claims_nil.
      change (heap_free (set_mem h1 m') x y) with (heap_free h1 x y). lia.
    - intros a Ha. specialize (H2 a). rewrite claims_cons, claims_nil in H2. cbn. rewrite Hag; [by apply H3|].
      apply (outside_range (p, p + 8 * w)). pose proof (inside_nonneg (p, p + 8 * w) a). pose proof (claims_nonneg (heap_free h1 x y) a). lia. }
  destruct (takes_upd y (set_mem h1 m') x (λ r, set_pre_dummy_top r p) (tk_inv _ _ _ _ _ _ Htk2) Hx) as (r2 & _ & E & Htk3); [done|].
  rewrite E. eexists. split; [done|]. exact (takes_trans _ _ _ _ _ _ _ _ _ Htk2 Htk3).
Qed.

Lemma note_end_space r : same_space r (note_end_of_copying r).
Proof. unfold note_end_of_copying. destruct (is_survivor r); [done|]. by destruct during_initial_mark_pause. Qed.
Lemma note_start_space r : same_space r (note_start_of_copying r).
Proof. unfold note_start_of_copying. destruct (is_survivor r); [done|]. by destruct during_initial_mark_pause. Qed.

Notation alloc_region g := (_alloc_region (gc_base g)).

Lemma gc_retire_spec y g h :
  heap_inv h (alloc_region g) y →
  ∃ g' h', retire (AllocRegionKind0 := gc_alloc_region other_regions) rs dummy g h true = Some (g', h') ∧ alloc_region g' = dummy ∧
    takes y [] h (alloc_region g) h' dummy.
Proof.
  intros Hi. unfold retire. cbn [base gc_alloc_region]. destruct (Z.eqb_spec (alloc_region g) dummy) as [E|Hx]; cbn [negb].
  { exists g, h. rewrite E in *. split_and!; [done|done|by apply takes_refl]. }
  destruct (gc_fill_up_spec y h _ (_bot_updates (gc_base g)) Hi Hx) as (h1 & -> & T1). cbn [mbind option_bind].
  destruct (active_region h1 _ y (tk_inv _ _ _ _ _ _ T1) Hx) as (r1 & Hr1 & _). rewrite Hr1. cbn [mbind option_bind].
  cbn [retire_region gc_alloc_region]. unfold retire_gc_alloc_region.
  destruct (takes_upd y h1 _ note_end_of_copying (tk_inv _ _ _ _ _ _ T1) Hx) as (r2 & _ & -> & T2); [apply note_end_space|].
  cbn [mbind option_bind]. eexists _, _. split; [done|]. split; [done|].
  pose proof (takes_trans _ _ _ _ _ _ _ _ _ T1 T2) as T3.
  pose proof (takes_trans _ _ _ _ _ _ _ _ _ T3 (takes_drop _ _ _ (tk_inv _ _ _ _ _ _ T3))) as T4.
  eapply takes_same; [exact T4|..]; by destruct (gc_purpose g).
Qed.

(** ** A new active region *)

Lemma takes_new y h :
  heap_inv h dummy y →
  let '(p, h') := new_region other_regions h in
  p = NULL ∧ h' = h ∨ p ≠ NULL ∧ p ≠ dummy ∧ takes y [] h dummy h' p.
Proof.
  intros Hi. pose proof Hi as [Hd Hn Hl]. assert (Had : active dummy = []) by (unfold active; by rewrite Z.eqb_refl).
  unfold new_region, live in *. rewrite Had in *. cbn [app] in *.
  destruct (g_free_list h) as [|p rest] eqn:Ef.
  - destruct (other_regions_spec h) as [->|(p & r & -> & Hp & Hnone & Hw & Hof)]; [by left|]. right.
    destruct Hd as (Hd & rd & Hrd & Ht). assert (Hpd : p ≠ dummy) by congruence. split; [done|]. split; [done|].
    assert (Hap : active p = [p]) by (unfold active; by rewrite (proj2 (Z.eqb_neq p dummy))).
    assert (Hpl : ∀ q, q ∈ active y ++ [] → q ≠ p) by (intros q Hq ->; destruct (Hl p Hq) as (_ & _ & ? & ? & _); congruence).
    assert (Hyp : y ≠ p) by (intros ->; unfold active in Hpl; rewrite (proj2 (Z.eqb_neq p dummy)) in Hpl by done; by apply (Hpl p); [left|]).
    assert (Ho : ∀ q, q ≠ p → g_regions (set_region h p r) !! q = g_regions h !! q) by (intros; cbn; by rewrite lookup_insert_ne).
    split; [|intros a|done].
    + split.
      * split; [done|]. exists rd. by rewrite Ho.
      * unfold live. cbn. rewrite Hap, Ef. cbn. constructor; [|done]. intros Hin. by apply (Hpl p).
      * unfold live. rewrite Hap. cbn [g_free_list set_region app]. rewrite Ef. intros q [->|Hq]%elem_of_cons.
        { split_and!; try done. exists r. cbn. by rewrite lookup_insert_eq. }
        destruct (Hl q Hq) as (? & ? & rq & Hrq & Hwq). split_and!; try done. exists rq. rewrite Ho; [done|]. by apply Hpl.
    + unfold heap_free. rewrite claims_nil, !claims_cons, !claims_app. cbn [g_free_list set_region]. rewrite Ef. cbn [fmap list_fmap].
      rewrite (dummy_free h dummy y) by done. unfold region_free. rewrite (Ho y) by done. cbn [g_regions set_region].
      rewrite lookup_insert_eq, dom_insert_L. specialize (Hof a). lia.
  - right. destruct (Hl p) as (Hp & Hpd & Hr); [apply elem_of_app; right; by left|]. split; [done|]. split; [done|].
    assert (Hap : active p = [p]) by (unfold active; by rewrite (proj2 (Z.eqb_neq p dummy))).
    assert (Hperm : active p ++ active y ++ rest ≡ₚ active y ++ p :: rest) by (rewrite Hap; cbn; apply Permutation_middle).
    split; [|intros a|done].
    + split; [done| |]; unfold live; cbn [g_free_list set_free_list]; [by rewrite Hperm|].
      intros q. rewrite Hperm. apply Hl.
    + unfold heap_free. rewrite claims_nil, Ef, (dummy_free_cons h y a _ Hi).
      cbn [g_free_list set_free_list fmap list_fmap]. rewrite !claims_cons. cbn [app]. rewrite claims_cons.
      change (region_free (set_free_list h rest)) with (region_free h). cbn [g_regions set_free_list]. lia.
Qed.

Lemma set_saved_mark_space h r : same_space r (set_saved_mark h r).
Proof. unfold set_saved_mark. by destruct (_ <? _). Qed.

Lemma new_gc_alloc_region_spec y h count ap :
  heap_inv h dummy y →
  ∃ p limit h', new_gc_alloc_region other_regions h count ap = Some (p, limit, h') ∧
    (p = NULL ∧ h' = h ∨ p ≠ NULL ∧ p ≠ dummy ∧ takes y [] h dummy h' p).
Proof.
  intros Hi. unfold new_gc_alloc_region. destruct (count <? max_regions ap); [|eexists _, _, _; eauto].
  pose proof (takes_new y h Hi) as Hn. destruct (new_region other_regions h) as [p h0].
  destruct Hn as [(-> & ->)|(Hp & Hpd & T0)]; [change (NULL =? NULL) with true; eexists _, _, _; eauto|].
  rewrite (proj2 (Z.eqb_neq p NULL)) by done. cbn [negb].
  destruct (takes_upd y h0 p (set_saved_mark h0) (tk_inv _ _ _ _ _ _ T0) Hpd) as (r1 & _ & -> & T1); [apply set_saved_mark_space|].
  cbn [mbind option_bind]. pose proof (takes_trans _ _ _ _ _ _ _ _ _ T0 T1) as T2.
  set (h1 := set_region h0 p (set_saved_mark h0 r1)) in *.
  assert (∃ h2, match ap with GCAllocForSurvived => upd_region h1 p (λ r, set_young_type r Survivor) | GCAllocForTenured => Some h1 end
    = Some h2 ∧ takes y [] h dummy h2 p) as (h2 & -> & T3).
  { destruct ap; [by exists h1|].
    destruct (takes_upd y h1 p (λ r, set_young_type r Survivor) (tk_inv _ _ _ _ _ _ T2) Hpd) as (r2 & _ & -> & T3); [done|].
    eexists. split; [done|]. exact (takes_trans _ _ _ _ _ _ _ _ _ T2 T3). }
  cbn [mbind option_bind].
  destruct (takes_upd y h2 p note_start_of_copying (tk_inv _ _ _ _ _ _ T3) Hpd) as (r3 & _ & -> & T4); [apply note_start_space|].
  cbn [mbind option_bind]. eexists _, _, _. split; [done|]. right. split; [done|]. split; [done|].
  exact (takes_trans _ _ _ _ _ _ _ _ _ T3 T4).
Qed.

(** An allocation that is a block of the free memory, or fails. *)
Definition good_block (p ws : Z) : Prop := p = NULL ∨ 0 < p ∧ (8 | p) ∧ p + 8 * ws < 2 ^ 63.

Lemma allocate_active y h x ws par bot :
  heap_inv h x y → x ≠ dummy → fillable_size ws →
  ∃ p h', space_allocate rs h x ws par bot = Some (p, h') ∧ good_block p ws ∧ takes y (block_range p ws) h x h' x.
Proof.
  intros Hi Hx Hw. pose proof (fillable_range Hcfg ws Hw). destruct (space_allocate_spec y h x ws par bot Hi Hx) as (p & h' & E & Hc); [lia|apply Hw|].
  exists p, h'. split; [done|]. destruct Hc as [(-> & -> & _)|(Hp & H8 & Hhi & Htk & _)].
  - split; [by left|by apply takes_refl].
  - split; [by right|]. unfold block_range. by rewrite (proj2 (Z.eqb_neq p NULL)) by (unfold NULL; lia).
Qed.

Lemma new_region_and_allocate_spec y g h ws :
  heap_inv h dummy y → fillable_size ws → alloc_region g = dummy →
  ∃ p g' h', new_alloc_region_and_allocate (AllocRegionKind0 := gc_alloc_region other_regions) rs g h ws false = Some (p, g', h') ∧
    good_block p ws ∧ takes y (block_range p ws) h dummy h' (alloc_region g').
Proof.
  intros Hi Hw Hg. unfold new_alloc_region_and_allocate. cbn [allocate_new_region gc_alloc_region base set_base].
  destruct (new_gc_alloc_region_spec y h (_count (gc_base g)) (gc_purpose g) Hi) as (p & limit & h1 & -> & Hc).
  cbn [mbind option_bind]. destruct Hc as [(-> & ->)|(Hp & Hpd & T1)].
  - change (NULL =? NULL) with true. cbn [negb]. eexists _, _, _. split; [done|]. split; [by left|]. cbn. rewrite Hg. by apply takes_refl.
  - rewrite (proj2 (Z.eqb_neq p NULL)) by done. cbn [negb].
    destruct (takes_upd y h1 p reset_pre_dummy_top (tk_inv _ _ _ _ _ _ T1) Hpd) as (r1 & _ & -> & T2); [done|]. cbn [mbind option_bind].
    pose proof (takes_trans _ _ _ _ _ _ _ _ _ T1 T2) as T3. set (h2 := set_region h1 p (reset_pre_dummy_top r1)) in *.
    destruct (active_region h2 p y (tk_inv _ _ _ _ _ _ T3) Hpd) as (r2 & -> & _). cbn [mbind option_bind gc_base].
    destruct (allocate_active y h2 p ws false (_bot_updates (gc_base g)) (tk_inv _ _ _ _ _ _ T3) Hpd Hw) as (res & h3 & -> & Hb & T4).
    cbn [mbind option_bind]. eexists _, _, _. split; [done|]. split; [done|]. exact (takes_trans _ _ _ _ _ _ _ _ _ T3 T4).
Qed.

Lemma attempt_spec y g h ws bot :
  heap_inv h (alloc_region g) y → fillable_size ws →
  ∃ p h', attempt_allocation (AllocRegionKind0 := gc_alloc_region other_regions) rs g h ws bot = Some (p, h') ∧
    good_block p ws ∧ takes y (block_range p ws) h (alloc_region g) h' (alloc_region g).
Proof.
  intros Hi Hw. unfold attempt_allocation. cbn [base gc_alloc_region].
  destruct (decide (alloc_region g = dummy)) as [E|Hx]; [|by apply allocate_active].
  rewrite E in *. destruct (hi_dummy _ _ _ Hi) as (_ & r & Hr & Ht). pose proof (fillable_range Hcfg ws Hw).
  exists NULL, h. split; [|split; [by left|by apply takes_refl]]. unfold space_allocate. rewrite Hr. cbn [mbind option_bind].
  unfold par_allocate_impl, words_between, pointer_delta. rewrite Ht, Z.sub_diag.
  change (u64 0 / HeapWordSize) with 0. rewrite geb_false by lia. done.
Qed.

Lemma attempt_then_locked_spec y g h ws bot :
  heap_inv h (alloc_region g) y → fillable_size ws →
  ∃ p g' h', attempt_then_locked rs dummy other_regions g h ws bot = Some (p, g', h') ∧
    good_block p ws ∧ takes y (block_range p ws) h (alloc_region g) h' (alloc_region g').
Proof.
  intros Hi Hw. unfold attempt_then_locked. destruct (attempt_spec y g h ws bot Hi Hw) as (p & h1 & -> & Hb & T1).
  cbn [mbind option_bind]. destruct (Z.eqb_spec p NULL) as [->|Hp]; [|eexists _, _, _; eauto].
  unfold attempt_allocation_locked. pose proof (tk_inv _ _ _ _ _ _ T1) as Hi1.
  destruct (attempt_spec y g h1 ws bot Hi1 Hw) as (p & h2 & -> & Hb2 & T2). cbn [mbind option_bind].
  pose proof (takes_trans _ _ _ _ _ _ _ _ _ T1 T2) as T3. cbn [block_range app] in T3.
  destruct (Z.eqb_spec p NULL) as [->|Hp]; cbn [negb]; [|eexists _, _, _; eauto].
  destruct (gc_retire_spec y g h2 (tk_inv _ _ _ _ _ _ T3)) as (g3 & h3 & -> & Hg3 & T4). cbn [mbind option_bind].
  pose proof (takes_trans _ _ _ _ _ _ _ _ _ T3 T4) as T5.
  destruct (new_region_and_allocate_spec y g3 h3 ws (tk_inv _ _ _ _ _ _ T5) Hw Hg3) as (p & g4 & h4 & -> & Hb4 & T6).
  eexists _, _, _. split; [done|]. split; [done|]. exact (takes_trans _ _ _ _ _ _ _ _ _ T5 T6).
Qed.

(** ** The interface of the promotion buffers *)

#[export] Instance g1_region_allocator : RegionAllocator GcAllocator := {
  par_allocate_during_gc := g1_par_allocate_during_gc rs dummy other_regions;
  ra_mem g := g_mem (ga_heap g);
  ra_set_mem g m := ga_set_heap g (set_mem (ga_heap g) m);
  ra_limit_reached g := gc_limit_reached (_survivor_gc_alloc_region g);
  ra_free g := heap_free (ga_heap g) (alloc_region (_survivor_gc_alloc_region g)) (alloc_region (_old_gc_alloc_region g));
  ra_inv g := heap_inv (ga_heap g) (alloc_region (_survivor_gc_alloc_region g)) (alloc_region (_old_gc_alloc_region g))
}.

(** What an allocation does to the allocator. *)
Record block_taken (g : GcAllocator) (ws p : Z) (g' : GcAllocator) : Prop := mkBlockTaken {
  bt_block : good_block p ws;
  bt_inv : ra_inv g';
  bt_free : ∀ a, claims (block_range p ws) a + claims (ra_free g') a <= claims (ra_free g) a;
  bt_mem : ∀ a, claims (ra_free g) a = 0 → ra_mem g' !! a = ra_mem g !! a
}.

Lemma survivor_attempt_spec g ws :
  ra_inv g → fillable_size ws →
  ∃ p g', survivor_attempt_allocation rs dummy other_regions g ws = Some (p, g') ∧ block_taken g ws p g'.
Proof.
  intros Hi Hw. unfold survivor_attempt_allocation.
  destruct (attempt_then_locked_spec _ _ _ ws false Hi Hw) as (p & r & h & -> & Hb & T). cbn [mbind option_bind].
  eexists _, _. split; [done|].
  assert (takes (alloc_region (_old_gc_alloc_region g)) (block_range p ws) (ga_heap g) (alloc_region (_survivor_gc_alloc_region g))
    (if negb (p =? NULL) then dirty_young_block h p ws else h) (alloc_region r)) as [T1 T2 T3].
  { eapply takes_same; [exact T|..]; by destruct (p =? NULL). }
  by split.
Qed.

Lemma old_attempt_spec g ws :
  ra_inv g → fillable_size ws →
  ∃ p g', old_attempt_allocation rs dummy other_regions g ws = Some (p, g') ∧ block_taken g ws p g'.
Proof.
  intros Hi Hw. unfold old_attempt_allocation.
  destruct (attempt_then_locked_spec _ _ _ ws true (heap_inv_sym _ _ _ Hi) Hw) as (p & r & h & -> & Hb & [T1 T2 T3]).
  cbn [mbind option_bind]. eexists _, _. split; [done|].
  split; cbn [ra_inv ra_free ra_mem g1_region_allocator ga_heap _survivor_gc_alloc_region _old_gc_alloc_region];
    [done|by apply heap_inv_sym|..].
  - intros a. specialize (T2 a). rewrite (heap_free_sym h), (heap_free_sym (ga_heap g)). done.
  - intros a. rewrite heap_free_sym. apply T3.
Qed.

Lemma block_taken_retry g ws g1 p g2 : block_taken g ws NULL g1 → block_taken g1 ws p g2 → block_taken g ws p g2.
Proof.
  intros [_ _ F1 M1] [B2 I2 F2 M2]. split; [done|done| |].
  - intros a. specialize (F1 a). specialize (F2 a). rewrite claims_null in F1. lia.
  - intros a Ha. rewrite M2; [by apply M1|]. specialize (F1 a). rewrite claims_null in F1.
    pose proof (claims_nonneg (ra_free g1) a). lia.
Qed.

Lemma g1_par_allocate_spec g t ws :
  ra_inv g → fillable_size ws → ∃ p g', par_allocate_during_gc g t ws = Some (p, g') ∧ block_taken g ws p g'.
Proof.
  intros Hi Hw. cbn [par_allocate_during_gc g1_region_allocator]. unfold g1_par_allocate_during_gc.
  destruct t; [destruct (old_attempt_spec g ws Hi Hw) as (p & g1 & -> & Hb)|destruct (survivor_attempt_spec g ws Hi Hw) as (p & g1 & -> & Hb)];
    cbn [mbind option_bind]; (destruct (Z.eqb_spec p NULL) as [->|Hp]; cbn [negb]; [|eauto]).
  - destruct (survivor_attempt_spec g1 ws (bt_inv _ _ _ _ Hb) Hw) as (q & g2 & -> & Hb2). eauto using block_taken_retry.
  - destruct (old_attempt_spec g1 ws (bt_inv _ _ _ _ Hb) Hw) as (q & g2 & -> & Hb2). eauto using block_taken_retry.
Qed.

(** The regions of a collection keep what the promotion buffers rely on. *)
#[export] Instance g1_region_allocator_laws : RegionAllocatorLaws GcAllocator.
Proof.
  split.
  - done.
  - intros g m. cbn. by intros [].
  - done.
  - intros g t ws Hi Hw. destruct (g1_par_allocate_spec g t ws Hi Hw) as (p & g' & E & [B I F M]). exists p, g'. by split_and!.
Qed.

(** ** The start of a pause *)

(** Before a pause there is no active region; the old region kept from the
    last pause is not free. *)
Record before_pause (g : GcAllocator) : Prop := mkBeforePause {
  bp_inv : heap_inv (ga_heap g) dummy dummy;
  bp_retained : _retained_old_gc_alloc_region g ≠ NULL →
    _retained_old_gc_alloc_region g ∉ g_free_list (ga_heap g) ∧ _retained_old_gc_alloc_region g ≠ dummy ∧
    ∃ r, g_regions (ga_heap g) !! _retained_old_gc_alloc_region g = Some r ∧ region_wf r
}.

Lemma heap_inv_retained h p r :
  heap_inv h dummy dummy → p ∉ g_free_list h → p ≠ dummy → p ≠ NULL → g_regions h !! p = Some r → region_wf r →
  heap_inv h p dummy.
Proof.
  intros [Hd Hn Hl] Hp Hpd H0 Hr Hw. assert (Had : active dummy = []) by (unfold active; by rewrite Z.eqb_refl).
  assert (Hap : active p = [p]) by (unfold active; by rewrite (proj2 (Z.eqb_neq p dummy))).
  unfold live in *. split; [done| |]; unfold live; rewrite ?Had, ?Hap in *; cbn [app] in *; [by constructor|].
  intros q [->|Hq]%elem_of_cons; [|by apply Hl]. split_and!; try done. by exists r.
Qed.

Lemma init_gc_alloc_regions_spec in_cset humongous g :
  before_pause g →
  ∃ g', init_gc_alloc_regions dummy other_regions in_cset humongous g = Some g' ∧ ra_inv g' ∧ g_mem (ga_heap g') = g_mem (ga_heap g) ∧
    (alloc_region (_old_gc_alloc_region g') ≠ dummy → in_cset (alloc_region (_old_gc_alloc_region g')) = false).
Proof.
  intros [Hi Hr]. unfold init_gc_alloc_regions. set (p := _retained_old_gc_alloc_region g) in *.
  assert (Hnone : ∀ h, heap_inv h dummy dummy → h = ga_heap g → ∃ g',
    Some (mkGcAllocator h (init (AllocRegionKind0 := gc_alloc_region other_regions) dummy (_survivor_gc_alloc_region g))
      (init (AllocRegionKind0 := gc_alloc_region other_regions) dummy (_old_gc_alloc_region g)) NULL) = Some g' ∧
    ra_inv g' ∧ g_mem (ga_heap g') = g_mem (ga_heap g) ∧
    (alloc_region (_old_gc_alloc_region g') ≠ dummy → in_cset (alloc_region (_old_gc_alloc_region g')) = false)).
  { intros h Hh ->. eexists. by split_and!. }
  destruct (Z.eqb_spec p NULL) as [->|Hp]; cbn [negb andb]; [by apply Hnone|].
  destruct (in_cset p) eqn:Hc; cbn [negb andb]; [by apply Hnone|].
  destruct (Hr Hp) as (Hpf & Hpd & r & Hpr & Hw). rewrite Hpr. cbn [mbind option_bind].
  destruct (_ && _ && _); [|by apply Hnone].
  pose proof (heap_inv_retained _ p r Hi Hpf Hpd Hp Hpr Hw) as Hi2.
  destruct (takes_upd dummy (ga_heap g) p (set_saved_mark (ga_heap g)) Hi2 Hpd) as (r1 & _ & -> & T1); [apply set_saved_mark_space|].
  cbn [mbind option_bind]. set (h1 := set_old_set _ _).
  assert (Hi3 : heap_inv h1 p dummy) by by destruct (tk_inv _ _ _ _ _ _ T1).
  destruct (takes_upd dummy h1 p note_start_of_copying Hi3 Hpd) as (r2 & _ & -> & T2); [apply note_start_space|]. cbn [mbind option_bind].
  destruct (active_region _ p dummy (tk_inv _ _ _ _ _ _ T2) Hpd) as (r3 & Hr3 & _). unfold set. rewrite Hr3. cbn [mbind option_bind].
  eexists. split; [done|]. split_and!; [|done|done]. cbn. apply heap_inv_sym. exact (tk_inv _ _ _ _ _ _ T2).
Qed.

End facts.
End GcRegionsFacts.
