(* ===== verification/PlabEvacuation.v ===== *)
(** An evacuation with its allocator: the workers of [Evacuation] take the
    addresses of their copies from the promotion buffers of [Plab], which are
    refilled from the regions of the collection ([copy_to_survivor_space] of
    [g1CollectedHeap.cpp] with [G1ParScanThreadState::allocate] and
    [undo_allocation]). The evacuation proper assumes only that the allocator
    returns unused addresses; here this is a theorem about the allocator. *)

From S2P Require Import Prelude MarkWord JavaHeap GenRegions Tlab Evacuation Plab GcRegions.
Import JavaHeap Evacuation.

Module PlabEvacuation.
Import Plab G1Plab.

Section evacuation.
Context {cfg : VMConfig} {flags : PlabFlags}.
Context {H : Type} `{!RegionAllocator H}.
Variable UseBiasedLocking : bool.
Variable plab_sz : GCAllocPurpose → Z.

(** The evacuation, the regions, the statistics of the buffers and the
    buffers of each worker. *)
Record gc_state := mkGc {
  c_evac : state;
  c_heap : H;
  c_stats : PurposeStats;
  c_threads : list G1ParScanThreadState
}.

(** Whether the next step of a worker goes through the allocator. *)
Definition uses_allocator (q : pc) : bool :=
  match q with
  | Destined _ _ _ _ => true
  | Lost o _ p => negb (p =? o)
  | _ => false
  end.

Definition note_limit (s : state) (h : H) : state :=
  if ra_limit_reached h then note_alloc_region_limit_reached s GCAllocForSurvived else s.

(** Worker [k] does one step: [copy_to_survivor_space] allocates, gives a
    block back after losing the race, or goes on; or the worker retires its
    buffers at the end. *)
Inductive gc_step : nat → gc_state → gc_state → Prop :=
  | gc_evac s h st ts k w s' :
      s_workers s !! k = Some w → uses_allocator (w_pc w) = false → step UseBiasedLocking k s s' →
      gc_step k (mkGc s h st ts) (mkGc s' h st ts)
  | gc_allocate s h st ts k w tsk o m a t f p h' tsk' :
      s_workers s !! k = Some w → w_pc w = Destined o m a t → s_objs s !! o = Some f → ts !! k = Some tsk →
      allocate plab_sz h tsk t (word_sz f) = Some (p, h', tsk') →
      let q := if p =? NULL then Failing o else Forwarding o m a t p in
      gc_step k (mkGc s h st ts) (mkGc (note_limit (put_worker s k (with_pc w q)) h') h' st (<[k := tsk']> ts))
  | gc_undo s h st ts k w tsk o t p f h' tsk' :
      s_workers s !! k = Some w → w_pc w = Lost o t p → p ≠ o → s_objs s !! o = Some f → ts !! k = Some tsk →
      undo_allocation h tsk t p (word_sz f) = Some (h', tsk') →
      gc_step k (mkGc s h st ts)
        (mkGc (put_worker s k (finish w o (MarkOop.decode_pointer UseBiasedLocking (f_mark f)))) h' st (<[k := tsk']> ts))
  | gc_retire s h st ts k w tsk h' st' tsk' :
      s_workers s !! k = Some w → w_pc w = Idle → ts !! k = Some tsk →
      retire_alloc_buffers h st tsk = Some (h', st', tsk') →
      gc_step k (mkGc s h st ts) (mkGc s h' st' (<[k := tsk']> ts)).

Inductive gc_transition : gc_state → gc_state → Prop :=
  | gc_transition_step k c c' : gc_step k c c' → gc_transition c c'
  | gc_transition_push s h st ts k w o f :
      s_workers s !! k = Some w → s_objs s !! o = Some f →
      gc_transition (mkGc s h st ts) (mkGc (put_worker s k (push_on_queue w o)) h st ts).

Definition gc_initial (objs : gmap Z FromObject) (displaced : Z → Z) (threshold : Z) (tasks : list (list Z))
    (h : H) (st : PurposeStats) : gc_state :=
  mkGc (initial objs displaced threshold tasks) h st ((λ _, new_thread_state plab_sz) <$> tasks).

End evacuation.

Arguments gc_state : clear implicits.
End PlabEvacuation.

(** * Facts *)

Module PlabEvacuationFacts.
Import Plab G1Plab PlabEvacuation PlabFacts EvacuationFacts JavaHeapFacts.

Section facts.
Context {cfg : VMConfig} {flags : PlabFlags}.
Hypothesis Hcfg : config_ok.
Context {H : Type} `{!RegionAllocator H} `{!RegionAllocatorLaws H}.
Variable ubl : bool.
Variable plab_sz : GCAllocPurpose → Z.
Hypothesis Hsz : ∀ t, fillable_size (plab_sz t) ∧ AlignmentReserve <= plab_sz t.
Variable objs : gmap Z FromObject.
Hypothesis Hobjs : collection_set objs.
Hypothesis Hsizes : ∀ o f, objs !! o = Some f → fillable_size (word_sz f).

(** ** Who uses which memory *)

Definition object_range (e : Z * FromObject) : Z * Z := (e.1, e.1 + 8 * word_sz e.2).
Definition copy_range (e : Z * (Z * list Z)) : Z * Z := (e.1, e.1 + 8 * Z.of_nat (S (length e.2.2))).

(** The objects of the collection set and the copies. *)
Definition cset_ranges : list (Z * Z) := object_range <$> map_to_list objs.
Definition copies (s : state) : list (Z * Z) := copy_range <$> map_to_list (s_to s).

(** The block that a worker holds: the object, the purpose, the address. *)
Definition held (q : pc) : option (Z * GCAllocPurpose * Z) :=
  match q with
  | Forwarding o _ _ t p | Exchanging o _ _ t p _ | Won o _ _ t p | Lost o t p =>
      if p =? o then None else Some (o, t, p)
  | _ => None
  end.
Definition size_of (o : Z) : Z := match objs !! o with Some f => word_sz f | None => 0 end.
Definition held_block (q : pc) : list (Z * Z) :=
  match held q with Some (o, _, p) => [(p, p + 8 * size_of o)] | None => [] end.
Definition direct_block (q : pc) (ts : G1ParScanThreadState) : list (Z * Z) :=
  match held q with
  | Some (o, t, p) => if container_contains (alloc_buffer ts t) p then [] else [(p, p + 8 * size_of o)]
  | None => []
  end.

(** A worker and its buffers. A block that it holds is the last one of a
    buffer or in none of them. *)
Record pair_ok (wt : worker * G1ParScanThreadState) : Prop := mkPairOk {
  pk_thread : thread_ok plab_sz wt.2;
  pk_held : ∀ o t p, held (w_pc wt.1) = Some (o, t, p) →
    is_Some (objs !! o) ∧ (8 | p) ∧
    (last_block (alloc_buffer wt.2 t) p (size_of o) ∨ container_contains (alloc_buffer wt.2 t) p = false)
}.

Definition pairs (c : gc_state H) : list (worker * G1ParScanThreadState) := zip (s_workers (c_evac c)) (c_threads c).
Definition held_by (a : Z) (wt : worker * G1ParScanThreadState) : Z := claims (held_block (w_pc wt.1)) a.
Definition free_of (a : Z) (wt : worker * G1ParScanThreadState) : Z := tfree wt.2 a.
Definition used_of (a : Z) (wt : worker * G1ParScanThreadState) : Z :=
  tused wt.2 a + claims (direct_block (w_pc wt.1) wt.2) a.

(** No address belongs to two of: the collection set, the copies, the blocks
    of the workers, what is left of their buffers, the free memory. And what
    has been used of a buffer are copies and blocks. *)
Record gc_inv (c : gc_state H) : Prop := mkGcInv {
  gi_evac : ∃ fwd, inv ubl objs fwd (c_evac c);
  gi_regions : ra_inv (c_heap c);
  gi_length : length (c_threads c) = length (s_workers (c_evac c));
  gi_pairs : ∀ k wt, pairs c !! k = Some wt → pair_ok wt;
  gi_disjoint : ∀ a, claims cset_ranges a + claims (copies (c_evac c)) a + sum_by (held_by a) (pairs c) +
    sum_by (free_of a) (pairs c) + claims (ra_free (c_heap c)) a <= 1;
  gi_used : ∀ a, sum_by (used_of a) (pairs c) <= claims (copies (c_evac c)) a + sum_by (held_by a) (pairs c)
}.

Lemma held_by_nonneg a wt : 0 <= held_by a wt.
Proof. apply claims_nonneg. Qed.
Lemma free_of_nonneg a wt : 0 <= free_of a wt.
Proof. apply tfree_nonneg. Qed.
Lemma used_of_nonneg a wt : 0 <= used_of a wt.
Proof. unfold used_of. pose proof (tused_nonneg wt.2 a). pose proof (claims_nonneg (direct_block (w_pc wt.1) wt.2) a). lia. Qed.

(** One worker, its buffers and the regions change. *)
Lemma gc_inv_update c k wt wt' s' h' st' :
  gc_inv c → pairs c !! k = Some wt → (∃ fwd, inv ubl objs fwd s') → ra_inv h' →
  s_workers s' = <[k := wt'.1]> (s_workers (c_evac c)) → pair_ok wt' →
  (∀ a, claims (copies s') a + held_by a wt' + free_of a wt' + claims (ra_free h') a <=
        claims (copies (c_evac c)) a + held_by a wt + free_of a wt + claims (ra_free (c_heap c)) a) →
  (∀ a, used_of a wt' + claims (copies (c_evac c)) a + held_by a wt <= used_of a wt + claims (copies s') a + held_by a wt') →
  gc_inv (mkGc s' h' st' (<[k := wt'.2]> (c_threads c))).
Proof.
  intros [He Hr Hl Hp Hd Hu] Hk He' Hr' Hw Hok Hdis Hused.
  assert (Hpairs : pairs (mkGc s' h' st' (<[k := wt'.2]> (c_threads c))) = <[k := wt']> (pairs c)).
  { unfold pairs. cbn. rewrite Hw. rewrite (surjective_pairing wt') at 3. symmetry. apply insert_zip_with. }
  split; cbn [c_evac c_heap c_threads]; try done.
  - by rewrite Hw, !length_insert.
  - rewrite Hpairs. intros j wtj [(<- & <- & _)|[_ Hj]]%list_lookup_insert_Some; [done|by eapply Hp].
  - intros a. rewrite Hpairs, !(sum_by_insert _ _ k wt) by done. specialize (Hd a). specialize (Hdis a). lia.
  - intros a. rewrite Hpairs, !(sum_by_insert _ _ k wt) by done. specialize (Hu a). specialize (Hused a). lia.
Qed.

Lemma pairs_lookup c k w tsk :
  s_workers (c_evac c) !! k = Some w → c_threads c !! k = Some tsk → pairs c !! k = Some (w, tsk).
Proof. intros Hw Ht. unfold pairs. by apply lookup_zip_with_Some; exists w, tsk. Qed.

Lemma worker_pair c k w :
  gc_inv c → s_workers (c_evac c) !! k = Some w → ∃ tsk, c_threads c !! k = Some tsk ∧ pairs c !! k = Some (w, tsk).
Proof.
  intros Hi Hw. destruct (lookup_lt_is_Some_2 (c_threads c) k) as [tsk Ht].
  { rewrite (gi_length _ Hi). by eapply lookup_lt_Some. }
  exists tsk. split; [done|by apply pairs_lookup].
Qed.

(** ** Steps without the allocator *)

(** A worker keeps its block, or the block becomes a copy. *)
Lemma evac_step_shape fwd k s s' w :
  inv ubl objs fwd s → s_workers s !! k = Some w → uses_allocator (w_pc w) = false → step ubl k s s' →
  ∃ w', s_workers s' = <[k := w']> (s_workers s) ∧
    (held (w_pc w') = held (w_pc w) ∧ s_to s' = s_to s ∨
     held (w_pc w') = None ∧ ∀ a, claims (copies s') a = claims (copies s) a + claims (held_block (w_pc w)) a).
Proof.
  intros Hi Hk Hn Hs.
  assert (Hloop : ∀ o m a t p q, held (forward_to_atomic_loop o m a t p q) = if p =? o then None else Some (o, t, p)).
  { intros. unfold forward_to_atomic_loop. by destruct (MarkOop.is_marked q). }
  destruct Hs as
    [s k w0 o tasks Hw E Ht|s k w0 o f Hw E Hf Hm|s k w0 o f Hw E Hf Hm|s k w0 o f Hw E Hf|s k w0 o m a f Hw E Hf|s k w0 o m a t p Hw E Hp
    |s k w0 o m a t Hw E|s k w0 o f Hw E Hf|s k w0 o m a t p f Hw E Hf|s k w0 o m a t p oldMark f Hw E Hf Hm
    |s k w0 o m a t p oldMark f Hw E Hf Hm|s k w0 o t p f Hw E Hf|s k w0 o m a t p f m' d' w' Hw E Hne Hf tracked Hm Hacc
    |s k w0 o m a t f Hw E Hf];
    assert (w0 = w) as -> by congruence; rewrite E in Hn |- *; try discriminate Hn;
    (eexists; split; [reflexivity|]).
  11: { right. split; [done|]. intros a0. unfold copies, held_block. cbn [held s_to].
        rewrite (proj2 (Z.eqb_neq p o)) by done. rewrite map_to_list_insert by (by eapply not_copied). rewrite fmap_cons.
        destruct (read_header ubl objs Hobjs fwd s o f Hi Hf) as (f0 & H0 & Hr). unfold size_of. rewrite H0.
        assert (f_body f = f_body f0) as Eb by (destruct (fwd !! o); destruct Hr as [-> _]; done).
        rewrite !claims_cons, claims_nil. unfold copy_range, word_sz. cbn [fst snd]. rewrite Eb. lia. }
  all: left; cbn [put_worker s_to with_pc finish w_pc held]; rewrite ?Hloop; (split; [|done]); try done.
  - by rewrite Z.eqb_refl.
  - cbn in Hn. by destruct (p =? o).
  - by rewrite Z.eqb_refl.
Qed.

Lemma held_none q : held q = None → held_block q = [].
Proof. unfold held_block. by intros ->. Qed.
Lemma direct_none q ts : held q = None → direct_block q ts = [].
Proof. unfold direct_block. by intros ->. Qed.

Lemma gc_inv_evac c k w s' :
  gc_inv c → s_workers (c_evac c) !! k = Some w → uses_allocator (w_pc w) = false → step ubl k (c_evac c) s' →
  gc_inv (mkGc s' (c_heap c) (c_stats c) (c_threads c)).
Proof.
  intros Hi Hk Hn Hs. destruct (gi_evac _ Hi) as [fwd He]. destruct (worker_pair c k w Hi Hk) as (tsk & Ht & Hp).
  destruct (evac_step_shape fwd k _ _ w He Hk Hn Hs) as (w' & Hw' & Hc).
  destruct (evac_step ubl objs Hobjs fwd k _ _ He Hs) as (fwd' & _ & He'). destruct (gi_pairs _ Hi k _ Hp) as [Hth Hhd]. cbn in Hth, Hhd.
  rewrite <- (list_insert_id (c_threads c) k tsk Ht). apply (gc_inv_update c k (w, tsk) (w', tsk)); try done.
  - by exists fwd'.
  - apply (gi_regions _ Hi).
  - split; cbn; [done|]. intros o t p Ho. destruct Hc as [[Eh _]|[Eh _]]; rewrite Eh in Ho; [by apply Hhd|done].
  - intros a. unfold held_by, free_of. cbn [fst snd]. destruct Hc as [[Eh Et]|[Eh Et]].
    + unfold copies, held_block. rewrite Eh, Et. lia.
    + rewrite Et, (held_none _ Eh), claims_nil. lia.
  - intros a. unfold held_by, used_of. cbn [fst snd]. destruct Hc as [[Eh Et]|[Eh Et]].
    + unfold copies, held_block, direct_block. rewrite Eh, Et. lia.
    + rewrite Et, (held_none _ Eh), (direct_none _ _ Eh), !claims_nil.
      pose proof (claims_nonneg (direct_block (w_pc w) tsk) a). lia.
Qed.

(** ** Allocation *)

Lemma size_of_pos o : is_Some (objs !! o) → fillable_size (size_of o) ∧ 2 <= size_of o.
Proof.
  intros [f Hf]. unfold size_of. rewrite Hf. pose proof (Hsizes o f Hf) as Hw. split; [done|].
  by destruct (fillable_range Hcfg _ Hw).
Qed.

Lemma current_size fwd s o f : inv ubl objs fwd s → s_objs s !! o = Some f → is_Some (objs !! o) ∧ word_sz f = size_of o.
Proof.
  intros Hi Hf. destruct (read_header ubl objs Hobjs fwd s o f Hi Hf) as (f0 & H0 & Hr). split; [by eexists|].
  unfold size_of. rewrite H0. destruct (fwd !! o); by destruct Hr as [-> _].
Qed.

(** Free memory is used by nobody. *)
Lemma free_unused c k wt a :
  gc_inv c → pairs c !! k = Some wt → 1 <= free_of a wt + claims (ra_free (c_heap c)) a →
  claims cset_ranges a = 0 ∧ claims (copies (c_evac c)) a = 0 ∧ sum_by (held_by a) (pairs c) = 0 ∧
  tused wt.2 a = 0 ∧ free_of a wt + claims (ra_free (c_heap c)) a = 1.
Proof.
  intros Hi Hk Hf. pose proof (gi_disjoint _ Hi a) as Hd. pose proof (gi_used _ Hi a) as Hu.
  pose proof (claims_nonneg cset_ranges a). pose proof (claims_nonneg (copies (c_evac c)) a).
  assert (0 <= sum_by (held_by a) (pairs c)) by (apply sum_by_nonneg; intros; apply held_by_nonneg).
  assert (free_of a wt <= sum_by (free_of a) (pairs c))
    by (apply sum_by_elem; [intros; apply free_of_nonneg|by eapply list_elem_of_lookup_2]).
  assert (used_of a wt <= sum_by (used_of a) (pairs c))
    by (apply sum_by_elem; [intros; apply used_of_nonneg|by eapply list_elem_of_lookup_2]).
  pose proof (tused_nonneg wt.2 a). unfold used_of in *. pose proof (claims_nonneg (direct_block (w_pc wt.1) wt.2) a). lia.
Qed.

Lemma held_pending q : pending q = (λ x, x.2) <$> held q.
Proof. destruct q as [| | | | | |o ? ? ? p|o ? ? ? p|o ? p|o ? ? ? p]; cbn; try done; by destruct (p =? o). Qed.

Lemma free_fresh c k wt p :
  gc_inv c → pairs c !! k = Some wt → 0 < p → (8 | p) → 1 <= free_of p wt + claims (ra_free (c_heap c)) p → fresh (c_evac c) p.
Proof.
  intros Hi Hk Hp H8 Hf. destruct (free_unused c k wt p Hi Hk Hf) as (Hcs & Hco & Hh & _). destruct (gi_evac _ Hi) as [fwd He].
  split_and!; [done|by apply Z.mod_divide| | |].
  - rewrite (i_objs _ _ _ _ He), forwarded_lookup. destruct (objs !! p) as [f|] eqn:Ef; [|done]. exfalso.
    assert (inside (object_range (p, f)) p <= claims cset_ranges p) as Hin
      by (apply claims_elem, list_elem_of_fmap_2, elem_of_map_to_list; done).
    unfold object_range in Hin. cbn [fst snd] in Hin. rewrite inside_in in Hin; [lia|]. unfold word_sz. lia.
  - destruct (s_to (c_evac c) !! p) as [e|] eqn:Ee; [|done]. exfalso.
    assert (inside (copy_range (p, e)) p <= claims (copies (c_evac c)) p) as Hin
      by (apply claims_elem, list_elem_of_fmap_2, elem_of_map_to_list; done).
    unfold copy_range in Hin. cbn [fst snd] in Hin. rewrite inside_in in Hin; lia.
  - intros j w Hj Hpe. rewrite held_pending in Hpe. destruct (held (w_pc w)) as [[[o t] q]|] eqn:Eh; [|done].
    injection Hpe as ->. destruct (worker_pair c j w Hi Hj) as (tsj & _ & Hpj).
    destruct (pk_held _ (gi_pairs _ Hi j _ Hpj) o t p Eh) as (Ho & _). destruct (size_of_pos o Ho).
    assert (held_by p (w, tsj) <= sum_by (held_by p) (pairs c))
      by (apply sum_by_elem; [intros; apply held_by_nonneg|by eapply list_elem_of_lookup_2]).
    unfold held_by, held_block in *. cbn [fst] in *. rewrite Eh, claims_cons, claims_nil, inside_in in *; lia.
Qed.

Lemma not_contained ts t p :
  thread_ok plab_sz ts → tfree ts p = 0 → tused ts p = 0 → container_contains (alloc_buffer ts t) p = false.
Proof.
  intros Ht Hf Hu. destruct (container_contains _ _) eqn:E; [|done]. exfalso. apply existsb_exists in E as (b & Hb & Hc).
  apply list_elem_of_In in Hb. destruct (Ht t) as [_ Hok]. eapply Forall_forall in Hok; [|exact Hb].
  destruct (po_order _ (go_plab _ _ Hok)) as (? & ? & ?). apply contains_range in Hc; [|lia].
  pose proof (tfree_buffer ts t p). pose proof (tused_buffer ts t p).
  assert (inside (free_range b) p <= frees (alloc_buffer ts t) p) by (apply claims_elem; by apply list_elem_of_fmap_2).
  assert (inside (used_range b) p <= useds (alloc_buffer ts t) p) by (apply claims_elem; by apply list_elem_of_fmap_2). lia.
Qed.

Lemma last_block_contained l p n : last_block l p n → container_contains l p = true.
Proof.
  intros (b & Hb & _ & Hp & _). apply existsb_exists. exists b. split; [by apply list_elem_of_In|].
  unfold contains. rewrite (proj2 (Z.leb_le _ _)), (proj2 (Z.ltb_lt _ _)) by lia. done.
Qed.

(** What an allocation for an object leads to. *)
Lemma gc_allocate_ok c k w tsk o m a t f p h' tsk' :
  gc_inv c → s_workers (c_evac c) !! k = Some w → w_pc w = Destined o m a t → s_objs (c_evac c) !! o = Some f →
  c_threads c !! k = Some tsk → allocate plab_sz (c_heap c) tsk t (word_sz f) = Some (p, h', tsk') →
  allocated plab_sz (c_heap c) tsk t (size_of o) p h' tsk' ∧ word_sz f = size_of o ∧ 2 <= size_of o ∧
  (p ≠ NULL → fresh (c_evac c) p ∧ p ≠ o).
Proof.
  intros Hi Hk E Hf Ht Ha. destruct (gi_evac _ Hi) as [fwd He].
  destruct (current_size fwd _ o f He Hf) as [Ho Hws]. destruct (size_of_pos o Ho) as [Hfs Hpos].
  pose proof (pairs_lookup c k w tsk Hk Ht) as Hp. destruct (gi_pairs _ Hi k _ Hp) as [Hth _]. cbn in Hth.
  destruct (allocate_spec Hcfg plab_sz Hsz (c_heap c) tsk t (size_of o) Hth (gi_regions _ Hi) Hfs) as (p1 & h1 & ts1 & E1 & Hal).
  rewrite Hws, E1 in Ha. injection Ha as -> -> ->. split; [done|]. split; [done|]. split; [done|]. intros Hne.
  assert (Hfr : fresh (c_evac c) p); [|split; [done|]; intros ->; destruct Hfr as (_ & _ & Hn & _); congruence].
  destruct (al_pointer _ _ _ _ _ _ _ _ Hal) as [|[Hp0 H8]]; [done|].
  eapply free_fresh; try done. pose proof (al_free _ _ _ _ _ _ _ _ Hal p) as Hfree.
  rewrite claims_block, inside_in in Hfree by (done || lia). unfold free_of. cbn [snd].
  pose proof (tfree_nonneg tsk' p). pose proof (claims_nonneg (ra_free h') p). lia.
Qed.

Lemma gc_inv_allocated c k w tsk o m a t f p h' tsk' :
  gc_inv c → s_workers (c_evac c) !! k = Some w → w_pc w = Destined o m a t → s_objs (c_evac c) !! o = Some f →
  c_threads c !! k = Some tsk → allocate plab_sz (c_heap c) tsk t (word_sz f) = Some (p, h', tsk') → p ≠ NULL →
  gc_inv (mkGc (put_worker (c_evac c) k (with_pc w (Forwarding o m a t p))) h' (c_stats c) (<[k := tsk']> (c_threads c))).
Proof.
  intros Hi Hk E Hf Ht Ha Hne. destruct (gc_allocate_ok c k w tsk o m a t f p h' tsk' Hi Hk E Hf Ht Ha) as (Hal & _ & Hpos & Hfr).
  destruct (Hfr Hne) as [Hfresh Hpo]. destruct (gi_evac _ Hi) as [fwd He]. pose proof (pairs_lookup c k w tsk Hk Ht) as Hp.
  pose proof Hal as [Hth' Hr' Hptr Hfree _ Hwh]. destruct Hptr as [|[Hp0 H8]]; [done|].
  assert (Hheld : held (w_pc (with_pc w (Forwarding o m a t p))) = Some (o, t, p)) by (cbn; by rewrite (proj2 (Z.eqb_neq p o))).
  assert (Hnone : held (w_pc w) = None) by by rewrite E.
  assert (Hblk : ∀ x, claims (held_block (w_pc (with_pc w (Forwarding o m a t p)))) x = inside (p, p + 8 * size_of o) x).
  { intros x. unfold held_block. rewrite Hheld, claims_cons, claims_nil. lia. }
  apply (gc_inv_update c k (w, tsk) (with_pc w (Forwarding o m a t p), tsk')); try done.
  - assert (step ubl k (c_evac c) (put_worker (c_evac c) k (with_pc w (Forwarding o m a t p)))) as Hs by by eapply step_allocate.
    destruct (evac_step ubl objs Hobjs fwd k _ _ He Hs) as (fwd' & _ & He'). by exists fwd'.
  - split; [done|]. cbn [fst snd]. rewrite Hheld. intros o' t' p' [= <- <- <-].
    split; [by eapply current_size|]. split; [done|]. destruct Hwh as [[? _]|[(_ & Hl & _)|(_ & Hu & Hd)]]; [done|by left|right].
    specialize (Hfree p). specialize (Hd p). rewrite claims_block, inside_in in * by (done || lia).
    assert (Hone : 1 <= free_of p (w, tsk) + claims (ra_free (c_heap c)) p)
      by (unfold free_of; cbn; pose proof (tfree_nonneg tsk p); lia).
    destruct (free_unused c k (w, tsk) p Hi Hp Hone) as (_ & _ & _ & Hu0 & Hf1). unfold free_of in Hf1. cbn [snd] in *.
    specialize (Hu p). pose proof (tused_nonneg tsk' p). pose proof (tfree_nonneg tsk' p). pose proof (claims_nonneg (ra_free h') p).
    apply not_contained; [done|lia|lia].
  - intros x. specialize (Hfree x). rewrite claims_block in Hfree by done. unfold held_by, free_of. cbn [fst snd].
    rewrite Hblk, (held_none _ Hnone), claims_nil. unfold copies. cbn [put_worker s_to]. lia.
  - intros x. unfold held_by, used_of. cbn [fst snd]. rewrite Hblk, (held_none _ Hnone), (direct_none _ _ Hnone), !claims_nil.
    unfold copies, direct_block. cbn [put_worker s_to]. rewrite Hheld.
    destruct Hwh as [[? _]|[(_ & Hl & Hu)|(_ & Hu & _)]]; [done| |]; specialize (Hu x).
    + rewrite (last_block_contained _ _ _ Hl), claims_nil. lia.
    + destruct (container_contains _ _); rewrite ?claims_cons, claims_nil; pose proof (inside_nonneg (p, p + 8 * size_of o) x); lia.
Qed.

Lemma gc_inv_failed c k w tsk o m a t f h' tsk' :
  gc_inv c → s_workers (c_evac c) !! k = Some w → w_pc w = Destined o m a t → s_objs (c_evac c) !! o = Some f →
  c_threads c !! k = Some tsk → allocate plab_sz (c_heap c) tsk t (word_sz f) = Some (NULL, h', tsk') →
  gc_inv (mkGc (put_worker (c_evac c) k (with_pc w (Failing o))) h' (c_stats c) (<[k := tsk']> (c_threads c))).
Proof.
  intros Hi Hk E Hf Ht Ha. destruct (gc_allocate_ok c k w tsk o m a t f _ h' tsk' Hi Hk E Hf Ht Ha) as (Hal & _).
  destruct (gi_evac _ Hi) as [fwd He]. pose proof (pairs_lookup c k w tsk Hk Ht) as Hp.
  pose proof Hal as [Hth' Hr' _ Hfree _ Hwh]. assert (Hnone : held (w_pc w) = None) by by rewrite E.
  apply (gc_inv_update c k (w, tsk) (with_pc w (Failing o), tsk')); try done.
  - assert (step ubl k (c_evac c) (put_worker (c_evac c) k (with_pc w (Failing o)))) as Hs by by eapply step_allocation_fails.
    destruct (evac_step ubl objs Hobjs fwd k _ _ He Hs) as (fwd' & _ & He'). by exists fwd'.
  - intros x. specialize (Hfree x). rewrite claims_null in Hfree. unfold held_by, free_of. cbn [fst snd].
    rewrite !held_none by done. unfold copies. cbn [put_worker s_to]. lia.
  - intros x. unfold held_by, used_of. cbn [fst snd]. rewrite !held_none, !direct_none by done. unfold copies. cbn [put_worker s_to].
    destruct Hwh as [[_ Hu]|[(? & _)|(? & _)]]; [|done|done]. specialize (Hu x). lia.
Qed.

(** ** Giving a block back, retiring *)

Lemma pair_disjoint c k wt a : gc_inv c → pairs c !! k = Some wt → tfree wt.2 a + tused wt.2 a <= 1.
Proof.
  intros Hi Hk. pose proof (gi_disjoint _ Hi a) as Hd. pose proof (gi_used _ Hi a) as Hu.
  pose proof (claims_nonneg cset_ranges a). pose proof (claims_nonneg (ra_free (c_heap c)) a).
  assert (free_of a wt <= sum_by (free_of a) (pairs c))
    by (apply sum_by_elem; [intros; apply free_of_nonneg|by eapply list_elem_of_lookup_2]).
  assert (used_of a wt <= sum_by (used_of a) (pairs c))
    by (apply sum_by_elem; [intros; apply used_of_nonneg|by eapply list_elem_of_lookup_2]).
  unfold used_of, free_of in *. pose proof (claims_nonneg (direct_block (w_pc wt.1) wt.2) a). lia.
Qed.

(** What giving back the block of a lost race does. *)
Lemma gc_undo_ok c k w tsk o t p f :
  gc_inv c → s_workers (c_evac c) !! k = Some w → w_pc w = Lost o t p → p ≠ o → s_objs (c_evac c) !! o = Some f →
  c_threads c !! k = Some tsk →
  ∃ h' tsk', undo_allocation (c_heap c) tsk t p (word_sz f) = Some (h', tsk') ∧ thread_ok plab_sz tsk' ∧
    ra_inv h' ∧ ra_free h' = ra_free (c_heap c) ∧
    (∀ x, inside (p, p + 8 * size_of o) x = 0 → ra_mem h' !! x = ra_mem (c_heap c) !! x) ∧
    if container_contains (alloc_buffer tsk t) p
    then ∀ x, tfree tsk' x = tfree tsk x + inside (p, p + 8 * size_of o) x ∧
              tused tsk x = tused tsk' x + inside (p, p + 8 * size_of o) x
    else ∀ x, tfree tsk' x = tfree tsk x ∧ tused tsk' x = tused tsk x.
Proof.
  intros Hi Hk E Hne Hf Ht. destruct (gi_evac _ Hi) as [fwd He]. destruct (current_size fwd _ o f He Hf) as [Ho Hws].
  destruct (size_of_pos o Ho) as [Hfs Hpos]. pose proof (pairs_lookup c k w tsk Hk Ht) as Hp.
  destruct (gi_pairs _ Hi k _ Hp) as [Hth Hhd]. cbn [fst snd] in *. rewrite E in Hhd.
  destruct (Hhd o t p) as (_ & H8 & Hl); [cbn; by rewrite (proj2 (Z.eqb_neq p o))|]. rewrite Hws.
  apply (undo_allocation_spec Hcfg plab_sz); try done; [apply (gi_regions _ Hi)|].
  intros a. apply (pair_disjoint c k (w, tsk) a Hi Hp).
Qed.

Lemma gc_inv_undo c k w tsk o t p f h' tsk' :
  gc_inv c → s_workers (c_evac c) !! k = Some w → w_pc w = Lost o t p → p ≠ o → s_objs (c_evac c) !! o = Some f →
  c_threads c !! k = Some tsk → undo_allocation (c_heap c) tsk t p (word_sz f) = Some (h', tsk') →
  gc_inv (mkGc (put_worker (c_evac c) k (finish w o (MarkOop.decode_pointer ubl (f_mark f)))) h' (c_stats c) (<[k := tsk']> (c_threads c))).
Proof.
  intros Hi Hk E Hne Hf Ht Hu. destruct (gc_undo_ok c k w tsk o t p f Hi Hk E Hne Hf Ht) as (h1 & ts1 & E1 & Hth & Hr & Hfr & _ & Hc).
  rewrite E1 in Hu. injection Hu as -> ->. destruct (gi_evac _ Hi) as [fwd He]. pose proof (pairs_lookup c k w tsk Hk Ht) as Hp.
  set (w' := finish w o (MarkOop.decode_pointer ubl (f_mark f))).
  assert (Hheld : held (w_pc w) = Some (o, t, p)) by (rewrite E; cbn; by rewrite (proj2 (Z.eqb_neq p o))).
  assert (Hblk : ∀ x, claims (held_block (w_pc w)) x = inside (p, p + 8 * size_of o) x).
  { intros x. unfold held_block. rewrite Hheld, claims_cons, claims_nil. lia. }
  assert (Hdir : ∀ x, claims (direct_block (w_pc w) tsk) x =
    if container_contains (alloc_buffer tsk t) p then 0 else inside (p, p + 8 * size_of o) x).
  { intros x. unfold direct_block. rewrite Hheld. destruct (container_contains _ _); rewrite ?claims_cons, claims_nil; lia. }
  apply (gc_inv_update c k (w, tsk) (w', tsk')); try done.
  - assert (step ubl k (c_evac c) (put_worker (c_evac c) k w')) as Hs by by eapply step_lost.
    destruct (evac_step ubl objs Hobjs fwd k _ _ He Hs) as (fwd' & _ & He'). by exists fwd'.
  - intros x. unfold held_by, free_of. cbn [fst snd]. rewrite Hblk, (held_none (w_pc w')), claims_nil, Hfr by done.
    unfold copies. cbn [put_worker s_to]. pose proof (inside_nonneg (p, p + 8 * size_of o) x).
    destruct (container_contains _ _); destruct (Hc x); lia.
  - intros x. unfold held_by, used_of. cbn [fst snd].
    rewrite Hblk, Hdir, (held_none (w_pc w')), (direct_none (w_pc w')), !claims_nil by done.
    unfold copies. cbn [put_worker s_to]. destruct (container_contains _ _); destruct (Hc x); lia.
Qed.

Lemma gc_retire_ok c k w tsk :
  gc_inv c → s_workers (c_evac c) !! k = Some w → c_threads c !! k = Some tsk →
  ∃ h' st' tsk', retire_alloc_buffers (c_heap c) (c_stats c) tsk = Some (h', st', tsk') ∧
    buffers_retired plab_sz (c_heap c) tsk h' tsk'.
Proof.
  intros Hi Hk Ht. pose proof (pairs_lookup c k w tsk Hk Ht) as Hp. destruct (gi_pairs _ Hi k _ Hp) as [Hth _].
  apply (retire_alloc_buffers_spec Hcfg plab_sz); [done|apply (gi_regions _ Hi)|].
  intros a. pose proof (pair_disjoint c k (w, tsk) a Hi Hp). cbn [snd] in *. pose proof (tused_nonneg tsk a). lia.
Qed.

Lemma gc_inv_retire c k w tsk h' st' tsk' :
  gc_inv c → s_workers (c_evac c) !! k = Some w → w_pc w = Idle → c_threads c !! k = Some tsk →
  retire_alloc_buffers (c_heap c) (c_stats c) tsk = Some (h', st', tsk') →
  gc_inv (mkGc (c_evac c) h' st' (<[k := tsk']> (c_threads c))).
Proof.
  intros Hi Hk E Ht Hr. destruct (gc_retire_ok c k w tsk Hi Hk Ht) as (h1 & st1 & ts1 & E1 & [Hth [Hri Hrf] Hf Hu _ _]).
  rewrite E1 in Hr. injection Hr as -> -> ->. pose proof (pairs_lookup c k w tsk Hk Ht) as Hp.
  assert (Hnone : held (w_pc w) = None) by by rewrite E.
  apply (gc_inv_update c k (w, tsk) (w, tsk')); try done.
  - apply (gi_evac _ Hi).
  - by rewrite list_insert_id.
  - split; [done|]. cbn [fst]. by rewrite Hnone.
  - intros x. unfold free_of. cbn [fst snd]. rewrite Hf, Hrf. unfold held_by. cbn [fst]. pose proof (tfree_nonneg tsk x). lia.
  - intros x. unfold held_by, used_of. cbn [fst snd]. rewrite !(direct_none _ _ Hnone), claims_nil. specialize (Hu x). lia.
Qed.

Lemma gc_inv_push c k w o f :
  gc_inv c → s_workers (c_evac c) !! k = Some w → s_objs (c_evac c) !! o = Some f →
  gc_inv (mkGc (put_worker (c_evac c) k (push_on_queue w o)) (c_heap c) (c_stats c) (c_threads c)).
Proof.
  intros Hi Hk Hf. destruct (gi_evac _ Hi) as [fwd He]. destruct (worker_pair c k w Hi Hk) as (tsk & Ht & Hp).
  rewrite <- (list_insert_id (c_threads c) k tsk Ht). apply (gc_inv_update c k (w, tsk) (push_on_queue w o, tsk)); try done.
  - exists fwd. by eapply inv_push.
  - apply (gi_regions _ Hi).
  - by destruct (gi_pairs _ Hi k _ Hp).
Qed.

Lemma gc_inv_limit s h h1 st ts : gc_inv (mkGc s h st ts) → gc_inv (mkGc (note_limit s h1) h st ts).
Proof.
  unfold note_limit. destruct (ra_limit_reached h1); [|done]. intros [[fwd He] ? ? ? ? ?]. split; try done.
  exists fwd. cbn [c_evac] in *. by apply (inv_limit ubl objs fwd s GCAllocForSurvived).
Qed.

(** ** Every transition *)

Lemma note_limit_run s h : rtc (transition ubl) s (note_limit s h).
Proof. unfold note_limit. destruct (ra_limit_reached h); [|done]. apply rtc_once. apply transition_limit. Qed.

Lemma gc_step_sound k c c' :
  gc_inv c → gc_step ubl plab_sz k c c' → gc_inv c' ∧ rtc (transition ubl) (c_evac c) (c_evac c').
Proof.
  intros Hi Hs. destruct Hs as [s h st ts k w s' Hk Hn Hs|s h st ts k w tsk o m a t f p h' tsk' Hk E Hf Ht Ha q
    |s h st ts k w tsk o t p f h' tsk' Hk E Hne Hf Ht Hu|s h st ts k w tsk h' st' tsk' Hk E Ht Hr]; cbn [c_evac].
  - split; [by apply (gc_inv_evac (mkGc s h st ts) k w)|]. by eapply rtc_once, transition_step.
  - destruct (Z.eqb_spec p NULL) as [->|Hp]; unfold q.
    + split; [by apply gc_inv_limit, (gc_inv_failed (mkGc s h st ts) k w tsk o m a t f)|].
      eapply rtc_l; [eapply transition_step; by eapply step_allocation_fails|apply note_limit_run].
    + split; [by apply gc_inv_limit, (gc_inv_allocated (mkGc s h st ts) k w tsk o m a t f)|].
      destruct (gc_allocate_ok (mkGc s h st ts) k w tsk o m a t f p h' tsk' Hi Hk E Hf Ht Ha) as (_ & _ & _ & Hfr).
      eapply rtc_l; [eapply transition_step; eapply step_allocate; try done; by apply Hfr|apply note_limit_run].
  - split; [by apply (gc_inv_undo (mkGc s h st ts) k w tsk o t p f)|]. eapply rtc_once, transition_step. by eapply step_lost.
  - split; [by apply (gc_inv_retire (mkGc s h st ts) k w tsk)|done].
Qed.

Lemma gc_transition_sound c c' :
  gc_inv c → gc_transition ubl plab_sz c c' → gc_inv c' ∧ rtc (transition ubl) (c_evac c) (c_evac c').
Proof.
  intros Hi Ht. destruct Ht as [k c c' Hs|s h st ts k w o f Hk Hf]; [by eapply gc_step_sound|].
  split; [by apply (gc_inv_push (mkGc s h st ts) k w o f)|]. eapply rtc_once. by eapply transition_push.
Qed.

Lemma gc_run_sound c c' :
  gc_inv c → rtc (gc_transition ubl plab_sz) c c' → gc_inv c' ∧ rtc (transition ubl) (c_evac c) (c_evac c').
Proof.
  intros Hi Hr. induction Hr as [c|c c1 c' Hs _ IH]; [done|]. destruct (gc_transition_sound c c1 Hi Hs) as [Hi1 Hr1].
  destruct (IH Hi1) as [Hi' Hr']. split; [done|by etrans].
Qed.

Lemma gc_inv_initial d threshold tasks h st :
  (∀ ts o, ts ∈ tasks → o ∈ ts → is_Some (objs !! o)) → ra_inv h →
  (∀ a, claims cset_ranges a + claims (ra_free h) a <= 1) →
  gc_inv (gc_initial plab_sz objs d threshold tasks h st).
Proof.
  intros Ht Hh Hd.
  assert (Hpairs : ∀ wt, wt ∈ pairs (gc_initial plab_sz objs d threshold tasks h st) →
    held (w_pc wt.1) = None ∧ wt.2 = new_thread_state plab_sz).
  { intros wt Hin. unfold pairs, gc_initial, initial in Hin. cbn [c_evac c_threads s_workers] in Hin.
    rewrite zip_with_fmap_l, zip_with_fmap_r in Hin. apply elem_of_lookup_zip_with in Hin as (i & x & y & -> & _). done. }
  assert (Hnew : ∀ a, tfree (new_thread_state plab_sz) a = 0 ∧ tused (new_thread_state plab_sz) a = 0).
  { intros a. unfold tfree, tused, new_thread_state, new_container, frees, useds. cbn [replicate _priority_max].
    cbn [ts_surviving_alloc_buffer ts_tenured_alloc_buffer fmap list_fmap]. rewrite !claims_cons.
    unfold free_range, used_range. cbn [gb_base new_ParGCAllocBuffer pb_bottom pb_top pb_hard_end].
    rewrite (inside_empty NULL NULL) by done. by rewrite claims_nil. }
  assert (Hzero : ∀ (g : worker * G1ParScanThreadState → Z) l, (∀ x, x ∈ l → g x = 0) → sum_by g l = 0).
  { intros g l Hg. rewrite (sum_by_ext g (λ _, 0)) by done. clear. induction l; cbn; lia. }
  split; cbn [c_evac c_heap c_threads gc_initial]; try done.
  - exists ∅. by apply evac_initial.
  - unfold initial. cbn. by rewrite !length_fmap.
  - intros k wt Hk%list_elem_of_lookup_2. destruct (Hpairs wt Hk) as [E1 E2]. split; [|by rewrite E1].
    rewrite E2. by apply thread_ok_new.
  - intros a. rewrite !Hzero; [|intros wt Hw; destruct (Hpairs wt Hw) as [E1 E2]..].
    + change (copies (initial objs d threshold tasks)) with (copy_range <$> map_to_list (∅ : gmap Z (Z * list Z))).
      rewrite map_to_list_empty. cbn [fmap list_fmap]. rewrite claims_nil. specialize (Hd a). lia.
    + unfold free_of. rewrite E2. apply Hnew.
    + unfold held_by. by rewrite (held_none _ E1).
  - intros a. rewrite !Hzero; [|intros wt Hw; destruct (Hpairs wt Hw) as [E1 E2]..].
    + pose proof (claims_nonneg (copies (initial objs d threshold tasks)) a). lia.
    + unfold held_by. by rewrite (held_none _ E1).
    + unfold used_of. rewrite E2, (direct_none _ _ E1), claims_nil. destruct (Hnew a). lia.
Qed.

(** ** Progress, and what is written *)

Lemma gc_step_possible c k w :
  gc_inv c → s_workers (c_evac c) !! k = Some w → w_pc w ≠ Idle → ∃ c', gc_step ubl plab_sz k c c'.
Proof.
  intros Hi Hk Hne. destruct (gi_evac _ Hi) as [fwd He]. destruct (worker_pair c k w Hi Hk) as (tsk & Ht & Hp).
  pose proof (pc_in ubl objs fwd _ k w He Hk) as Hpc. destruct c as [s h st ts]. cbn [c_evac c_threads] in *.
  destruct (uses_allocator (w_pc w)) eqn:Hu.
  2: { destruct (step_possible ubl objs fwd s k w He Hk Hne) as [s' Hs]. eexists. by eapply gc_evac. }
  destruct (w_pc w) as [|o|o|o m a|o m a t|o|o m a t p|o m a t p q|o t p|o m a t p] eqn:E; try discriminate Hu.
  - destruct (present ubl objs fwd s o He) as [f Hf]; [by eapply header_of_in|].
    destruct (current_size fwd s o f He Hf) as [Ho Hws]. destruct (size_of_pos o Ho) as [Hfs _].
    destruct (gi_pairs _ Hi k _ Hp) as [Hth _]. pose proof (gi_regions _ Hi) as Hr. cbn in Hth, Hr.
    destruct (allocate_spec Hcfg plab_sz Hsz h tsk t (size_of o) Hth Hr Hfs) as (p1 & h1 & ts1 & E1 & _). rewrite <- Hws in E1.
    eexists. by eapply gc_allocate.
  - cbn in Hu, Hpc. destruct (Z.eqb_spec p o) as [|Hpo]; [done|]. destruct Hpc as [[q Hq] _].
    destruct (present ubl objs fwd s o He) as [f Hf]; [by eapply (i_fwd _ _ _ _ He)|].
    destruct (gc_undo_ok (mkGc s h st ts) k w tsk o t p f Hi Hk E Hpo Hf Ht) as (h1 & ts1 & E1 & _).
    eexists. by eapply gc_undo.
Qed.

(** An address of the collection set or of a copy is not free, and not in a
    block that a worker still holds. *)
Lemma occupied c k wt a :
  gc_inv c → pairs c !! k = Some wt → 1 <= claims cset_ranges a + claims (copies (c_evac c)) a →
  held_by a wt = 0 ∧ tfree wt.2 a = 0 ∧ claims (ra_free (c_heap c)) a = 0.
Proof.
  intros Hi Hk Ho. pose proof (gi_disjoint _ Hi a) as Hd. pose proof (claims_nonneg (ra_free (c_heap c)) a).
  assert (free_of a wt <= sum_by (free_of a) (pairs c))
    by (apply sum_by_elem; [intros; apply free_of_nonneg|by eapply list_elem_of_lookup_2]).
  assert (held_by a wt <= sum_by (held_by a) (pairs c))
    by (apply sum_by_elem; [intros; apply held_by_nonneg|by eapply list_elem_of_lookup_2]).
  pose proof (held_by_nonneg a wt). pose proof (free_of_nonneg a wt). unfold free_of in *. lia.
Qed.

Lemma gc_step_memory c k c' a :
  gc_inv c → gc_step ubl plab_sz k c c' → 1 <= claims cset_ranges a + claims (copies (c_evac c)) a →
  ra_mem (c_heap c') !! a = ra_mem (c_heap c) !! a.
Proof.
  intros Hi Hs. destruct Hs as [s h st ts k w s' Hk Hn Hs|s h st ts k w tsk o m b t f p h' tsk' Hk E Hf Ht Ha q
    |s h st ts k w tsk o t p f h' tsk' Hk E Hne Hf Ht Hu|s h st ts k w tsk h' st' tsk' Hk E Ht Hr]; intros Ho; cbn [c_heap]; [done|..];
    destruct (occupied _ k (w, tsk) a Hi (pairs_lookup (mkGc s h st ts) k w tsk Hk Ht) Ho) as (Hh & Hf0 & Hr0); cbn in Hf0, Hr0.
  - destruct (gc_allocate_ok (mkGc s h st ts) k w tsk o m b t f p h' tsk' Hi Hk E Hf Ht Ha) as (Hal & _).
    apply (al_memory _ _ _ _ _ _ _ _ Hal). cbn. lia.
  - destruct (gc_undo_ok (mkGc s h st ts) k w tsk o t p f Hi Hk E Hne Hf Ht) as (h1 & ts1 & E1 & _ & _ & _ & Hm & _).
    cbn [c_heap] in E1, Hm. rewrite E1 in Hu. injection Hu as -> ->. apply Hm. unfold held_by, held_block in Hh. cbn [fst] in Hh.
    rewrite E in Hh. cbn [held] in Hh. rewrite (proj2 (Z.eqb_neq p o)), claims_cons, claims_nil in Hh by done. lia.
  - destruct (gc_retire_ok (mkGc s h st ts) k w tsk Hi Hk Ht) as (h1 & st1 & ts1 & E1 & [_ _ _ _ Hm _]).
    cbn [c_heap c_stats] in E1, Hm. rewrite E1 in Hr. injection Hr as -> -> ->. by apply Hm.
Qed.

(** The sums over the workers as lists of ranges. *)
Lemma claims_bind {A} (g : A → list (Z * Z)) l a : claims (l ≫= g) a = sum_by (λ x, claims (g x) a) l.
Proof. induction l as [|x l IH]; [done|]. cbn [mbind list_bind sum_by]. rewrite claims_app. by rewrite <- IH. Qed.

Lemma pairs_held c a :
  gc_inv c → sum_by (held_by a) (pairs c) = claims (s_workers (c_evac c) ≫= λ w, held_block (w_pc w)) a.
Proof.
  intros Hi. rewrite claims_bind. unfold pairs. pose proof (gi_length _ Hi) as Hl. revert Hl.
  generalize (c_threads c), (s_workers (c_evac c)). intros ts ws. revert ts.
  induction ws as [|w ws IH]; intros [|t ts] Hl; try done. cbn [zip_with sum_by]. rewrite IH; [done|]. by injection Hl.
Qed.

Lemma pairs_free c a :
  gc_inv c → sum_by (free_of a) (pairs c) =
    claims (c_threads c ≫= λ ts, free_range <$> ts_surviving_alloc_buffer ts ++ ts_tenured_alloc_buffer ts) a.
Proof.
  intros Hi. rewrite claims_bind. unfold pairs. pose proof (gi_length _ Hi) as Hl. revert Hl.
  generalize (c_threads c), (s_workers (c_evac c)). intros ts. induction ts as [|t ts IH]; intros [|w ws] Hl; try done.
  cbn [zip_with sum_by]. rewrite IH; [|by injection Hl]. unfold free_of, tfree, frees. cbn [snd]. by rewrite fmap_app, claims_app.
Qed.

End facts.

(** ** An evacuation with the regions of G1 *)

Section g1.
Context {cfg : VMConfig} {flags : PlabFlags} {policy : GcRegions.GcPolicy}.
Variable rs dummy : Z.
Context `{!GcRegionsFacts.OtherRegions}.
Notation allocator := (GcRegionsFacts.g1_region_allocator rs dummy).

(** A pause begins: the regions are set up, the buffers can hold an object
    and their reserve, and what is to be evacuated is not free memory. *)
Record pause_start (plab_sz : GCAllocPurpose → Z) (objs : gmap Z FromObject) (tasks : list (list Z))
    (g : GcRegions.GcAllocator) : Prop := mkPauseStart {
  st_config : config_ok;
  st_plab : ∀ t, fillable_size (plab_sz t) ∧ AlignmentReserve <= plab_sz t;
  st_objs : collection_set objs;
  st_sizes : ∀ o f, objs !! o = Some f → fillable_size (word_sz f);
  st_tasks : ∀ ts o, ts ∈ tasks → o ∈ ts → is_Some (objs !! o);
  st_regions : ∃ g0 in_cset humongous, GcRegionsFacts.before_pause dummy g0 ∧
    GcRegions.init_gc_alloc_regions dummy GcRegionsFacts.other_regions in_cset humongous g0 = Some g;
  st_disjoint : ∀ a, claims (cset_ranges objs) a + claims (ra_free (RegionAllocator := allocator) g) a <= 1
}.

Lemma pause_inv ubl plab_sz objs d threshold tasks g st :
  pause_start plab_sz objs tasks g →
  gc_inv (RegionAllocator0 := allocator) ubl plab_sz objs (gc_initial plab_sz objs d threshold tasks g st).
Proof.
  intros [Hc Hp Ho Hs Ht (g0 & ic & hu & Hb & Hg) Hd].
  destruct (GcRegionsFacts.init_gc_alloc_regions_spec Hc rs dummy ic hu g0 Hb) as (g1 & E & Hi & _).
  assert (g1 = g) as -> by congruence. by apply (gc_inv_initial Hc).
Qed.

(** C5: The addresses that the workers of an evacuation get are unused.
    Whatever the interleaving, a run of the evacuation with its promotion
    buffers and regions is a run of the evacuation with an arbitrary
    allocator, so all that holds of the latter holds of it; and at any time
    no address belongs to two of: an object of the collection set, a copy, a
    block that a worker holds, what is left of a buffer, the free memory of
    the regions. *)
Theorem evacuation_copies_disjoint ubl plab_sz objs d threshold tasks g st c :
  pause_start plab_sz objs tasks g →
  rtc (gc_transition (RegionAllocator0 := allocator) ubl plab_sz) (gc_initial plab_sz objs d threshold tasks g st) c →
  rtc (transition ubl) (initial objs d threshold tasks) (c_evac c) ∧
  ∀ a, claims (cset_ranges objs ++ copies (c_evac c) ++ (s_workers (c_evac c) ≫= λ w, held_block objs (w_pc w)) ++
         (c_threads c ≫= λ ts, free_range <$> ts_surviving_alloc_buffer ts ++ ts_tenured_alloc_buffer ts) ++
         ra_free (RegionAllocator := allocator) (c_heap c)) a <= 1.
Proof.
  intros Hs Hr. pose proof (pause_inv ubl plab_sz objs d threshold tasks g st Hs) as Hi.
  destruct Hs as [Hc Hp Ho Hsz Ht _ _]. pose proof (GcRegionsFacts.g1_region_allocator_laws Hc rs dummy) as Hlaws.
  destruct (gc_run_sound Hc ubl plab_sz Hp objs Ho Hsz _ _ Hi Hr) as [Hi' Hr']. split; [exact Hr'|].
  intros a. pose proof (gi_disjoint _ _ _ _ Hi' a) as Hd. rewrite !claims_app.
  rewrite (pairs_held ubl plab_sz objs c a Hi'), (pairs_free ubl plab_sz objs c a Hi') in Hd. lia.
Qed.

(** C35: During an evacuation with promotion buffers every worker that has
    fetched a reference can take its next step - neither the buffers nor the
    regions ever fault - and no step writes a filler object over an object of
    the collection set or over a copy. *)
Theorem evacuation_allocates_safely ubl plab_sz objs d threshold tasks g st c k :
  pause_start plab_sz objs tasks g →
  rtc (gc_transition (RegionAllocator0 := allocator) ubl plab_sz) (gc_initial plab_sz objs d threshold tasks g st) c →
  (∀ w, s_workers (c_evac c) !! k = Some w → w_pc w ≠ Idle →
     ∃ c', gc_step (RegionAllocator0 := allocator) ubl plab_sz k c c') ∧
  (∀ c' a, gc_step (RegionAllocator0 := allocator) ubl plab_sz k c c' →
     1 <= claims (cset_ranges objs) a + claims (copies (c_evac c)) a →
     HeapRegions.g_mem (GcRegions.ga_heap (c_heap c')) !! a = HeapRegions.g_mem (GcRegions.ga_heap (c_heap c)) !! a).
Proof.
  intros Hs Hr. pose proof (pause_inv ubl plab_sz objs d threshold tasks g st Hs) as Hi.
  destruct Hs as [Hc Hp Ho Hsz Ht _ _]. pose proof (GcRegionsFacts.g1_region_allocator_laws Hc rs dummy) as Hlaws.
  destruct (gc_run_sound Hc ubl plab_sz Hp objs Ho Hsz _ _ Hi Hr) as [Hi' _]. split.
  - intros w Hk Hne. by eapply gc_step_possible.
  - intros c' a Hst Hocc. by eapply (gc_step_memory Hc ubl plab_sz Hp objs Ho Hsz c k c' a Hi').
Qed.

End g1.
End PlabEvacuationFacts.

(** * An object is copied into a promotion buffer *)

Module PlabEvacuationDemo.
Import HeapRegions AllocRegion Plab G1Plab PlabFacts GcRegions GcRegionsFacts PlabEvacuation PlabEvacuationFacts
  JavaHeapFacts EvacuationDemo EvacuationFacts.
#[local] Existing Instance demo_config.

Definition demo_plab_flags : PlabFlags := mkPlabFlags true 50 10 10.
Definition demo_policy : GcPolicy := mkGcPolicy 4 false.
#[local] Existing Instance demo_plab_flags.
#[local] Existing Instance demo_policy.

Definition demo_to : HeapRegion :=
  mkRegion 0x100000 0x102000 0x100000 0 0 0 0x100200 1 (-1) (-1) false 0 NotYoung 0x100000.
Definition demo_full : HeapRegion := mkRegion 0x10 0x10 0x10 0 0 0 0 0 (-1) (-1) false 0 NotYoung 0x10.
Definition demo_gc_heap : G1Heap :=
  mkG1 ∅ ∅ (<[0xA0 := demo_to]> (<[0xD0 := demo_full]> ∅)) [0xA0] [] 0 0 ∅ [] [] 0.
Definition demo_before : GcAllocator :=
  mkGcAllocator demo_gc_heap new_SurvivorGCAllocRegion new_OldGCAllocRegion NULL.

Lemma demo_no_other : ∀ h : G1Heap, (NULL, h) = (NULL, h) ∨ ∃ p r, (NULL, h) = (p, set_region h p r) ∧ p ≠ NULL ∧
  g_regions h !! p = None ∧ region_wf r ∧ ∀ a, inside (hr_top r, hr_end r) a + claims [] a <= claims [] a.
Proof. by left. Qed.
#[local] Instance demo_other : OtherRegions :=
  {| other_regions h := (NULL, h); other_free _ := []; other_regions_spec := demo_no_other |}.

Definition demo_plab_sz (t : GCAllocPurpose) : Z := 256.
Definition demo_gc : GcAllocator :=
  mkGcAllocator demo_gc_heap (mkGCAR (mkAR 0xD0 0 0 false) GCAllocForSurvived false)
    (mkGCAR (mkAR 0xD0 0 0 true) GCAllocForTenured false) NULL.

Lemma demo_init : init_gc_alloc_regions 0xD0 other_regions (λ _, false) (λ _, false) demo_before = Some demo_gc.
Proof. reflexivity. Qed.

Lemma demo_filler_max : 2 ^ 29 <= filler_array_max_size.
Proof. by vm_compute. Qed.

Lemma demo_to_wf : region_wf demo_to.
Proof.
  pose proof demo_filler_max. split; cbn; try lia; [exists 1024; reflexivity|exists 131072; reflexivity].
Qed.

Lemma demo_before_ok : before_pause 0xD0 demo_before.
Proof.
  split; [|done]. split; [split; [done|]; by exists demo_full| |].
  - cbn. apply NoDup_singleton.
  - cbn. intros p ->%list_elem_of_singleton. split_and!; try done. exists demo_to. split; [reflexivity|apply demo_to_wf].
Qed.

Lemma demo_fillable_size ws : 2 <= ws <= 2 ^ 29 → fillable_size ws.
Proof.
  intros Hw. split; [|exists ws; change MinObjAlignment with 1; lia].
  pose proof demo_filler_max. change min_fill_size with 2. lia.
Qed.

Definition demo_stats : PurposeStats :=
  let s := mkStats 0 0 0 0 256 (GcUtil.new_AdaptiveWeightedAverage 75) in mkPurposeStats s s.

Lemma demo_pause : pause_start 0x100000 0xD0 demo_plab_sz demo_objs [[64]; [64]] demo_gc.
Proof.
  split.
  - exact demo_config_ok.
  - intros t. unfold demo_plab_sz. split; [apply demo_fillable_size; lia|by vm_compute].
  - exact demo_objs_ok.
  - unfold demo_objs. intros o f [<- <-]%lookup_singleton_Some. apply demo_fillable_size.
    change (word_sz demo_object) with 3. lia.
  - exact demo_tasks_ok.
  - exists demo_before, (λ _, false), (λ _, false). split; [exact demo_before_ok|exact demo_init].
  - intros a. unfold cset_ranges, demo_objs. rewrite map_to_list_singleton. cbn [fmap list_fmap]. rewrite claims_cons, claims_nil.
    change (ra_free demo_gc) with [(0x10, 0x10); (0x10, 0x10); (0x100000, 0x102000)]. rewrite !claims_cons, claims_nil.
    change (object_range (64, demo_object)) with (64, 88).
    destruct (inside_cases 64 88 a), (inside_cases 0x10 0x10 a), (inside_cases 0x100000 0x102000 a); lia.
Qed.

(** The first worker finds the object, decides where it goes and gets the
    first block of a new buffer. *)
Ltac evac k st := eapply rtc_l; [apply (gc_transition_step _ _ k); eapply gc_evac; [reflexivity|reflexivity|eapply st; reflexivity]|]; normal.

Notation demo_transition :=
  (gc_transition (RegionAllocator0 := g1_region_allocator 0x100000 0xD0) true demo_plab_sz).
Notation demo_step := (gc_step (RegionAllocator0 := g1_region_allocator 0x100000 0xD0) true demo_plab_sz).
Notation demo_begin := (gc_initial demo_plab_sz demo_objs (λ _, 0) 15 [[64]; [64]] demo_gc demo_stats).

Lemma demo_pause_run :
  ∃ c w, rtc demo_transition demo_begin c ∧ s_workers (c_evac c) !! O = Some w ∧
    w_pc w = Forwarding 64 (f_mark demo_object) 0 GCAllocForSurvived 0x100000.
Proof.
  eexists _, _. split.
  - unfold gc_initial, initial. cbn [fmap list_fmap].
    evac O step_fetch. evac O step_not_forwarded. evac O step_load. evac O step_destination.
    eapply rtc_l; [|apply rtc_refl]. apply (gc_transition_step _ _ O).
    eapply gc_allocate; [reflexivity|reflexivity|reflexivity|reflexivity|vm_compute; reflexivity].
  - split; reflexivity.
Qed.

Lemma evacuation_copies_disjoint_witness :
  ∃ c, rtc demo_transition demo_begin c ∧ rtc (transition true) demo_start (c_evac c) ∧
    claims (cset_ranges demo_objs ++ copies (c_evac c) ++ (s_workers (c_evac c) ≫= λ w, held_block demo_objs (w_pc w)) ++
      (c_threads c ≫= λ ts, free_range <$> ts_surviving_alloc_buffer ts ++ ts_tenured_alloc_buffer ts) ++
      ra_free (RegionAllocator := g1_region_allocator 0x100000 0xD0) (c_heap c)) 0x100000 <= 1.
Proof.
  destruct demo_pause_run as (c & w & Hr & _). exists c. split; [exact Hr|].
  destruct (evacuation_copies_disjoint 0x100000 0xD0 true demo_plab_sz demo_objs (λ _, 0) 15 [[64]; [64]] demo_gc demo_stats c
    demo_pause Hr) as [H1 H2]. split; [exact H1|exact (H2 0x100000)].
Defined.

Lemma evacuation_allocates_safely_witness :
  ∃ c, rtc demo_transition demo_begin c ∧ (∃ c', demo_step O c c') ∧
    ∀ c', demo_step O c c' → g_mem (ga_heap (c_heap c')) !! 64 = g_mem (ga_heap (c_heap c)) !! 64.
Proof.
  destruct demo_pause_run as (c & w & Hr & Hw & Hpc). exists c. split; [exact Hr|].
  destruct (evacuation_allocates_safely 0x100000 0xD0 true demo_plab_sz demo_objs (λ _, 0) 15 [[64]; [64]] demo_gc demo_stats c O
    demo_pause Hr) as [H1 H2]. split.
  - apply (H1 w Hw). rewrite Hpc. discriminate.
  - intros c' Hs. apply (H2 c' 64 Hs). unfold cset_ranges, demo_objs. rewrite map_to_list_singleton. cbn [fmap list_fmap].
    rewrite claims_cons, claims_nil. change (object_range (64, demo_object)) with (64, 88). rewrite inside_in by lia.
    pose proof (claims_nonneg (copies (c_evac c)) 64). lia.
Defined.

#[local] Instance demo_allocator : RegionAllocator GcAllocator := g1_region_allocator 0x100000 0xD0.

Lemma allocation_fails_without_memory_witness :
  ∃ p g' ts', allocate demo_plab_sz demo_gc (new_thread_state demo_plab_sz) GCAllocForSurvived 3 = Some (p, g', ts') ∧
    (p = NULL → no_memory demo_plab_sz demo_gc GCAllocForSurvived 3).
Proof.
  pose proof (g1_region_allocator_laws demo_config_ok 0x100000 0xD0) as Hlaws.
  destruct (allocation_fails_without_memory demo_config_ok demo_plab_sz) with (h := demo_gc) (ts := new_thread_state demo_plab_sz) (t := GCAllocForSurvived) (ws := 3)
    as (p & g' & ts' & E & _ & Hfail).
  - intros t. unfold demo_plab_sz. split; [apply demo_fillable_size; lia|by vm_compute].
  - by vm_compute.
  - apply thread_ok_new; [exact demo_config_ok|]. intros t. unfold demo_plab_sz. split; [apply demo_fillable_size; lia|by vm_compute].
  - destruct (init_gc_alloc_regions_spec demo_config_ok 0x100000 0xD0 (λ _, false) (λ _, false) demo_before demo_before_ok)
      as (g1 & E & Hi & _). rewrite demo_init in E. injection E as <-. exact Hi.
  - apply demo_fillable_size. lia.
  - exists p, g', ts'. split; [exact E|]. apply Hfail. by vm_compute.
Defined.

(** A buffer is put in place and an object is allocated in it. *)
Lemma demo_container_run :
  ∃ l, rtc (container_step 256) (new_container 256, 0) (l, 3) ∧ ∃ b, b ∈ l ∧ pb_top (gb_base b) = 0x100018.
Proof.
  eexists. split.
  - eapply rtc_l.
    { eapply (cs_update 256 (new_container 256) 0 ∅ 0x100000); [lia|by exists 131072|lia| |vm_compute; reflexivity].
      intros a. cbn [new_container replicate _priority_max]. rewrite !frees_cons, !useds_cons.
      change (frees [] a) with 0. change (useds [] a) with 0. unfold free_range, used_range.
      cbn [gb_base new_ParGCAllocBuffer pb_bottom pb_top pb_hard_end]. rewrite (inside_empty NULL NULL) by done.
      pose proof (inside_nonneg (0x100000, 0x100000 + 8 * 256) a). lia. }
    eapply rtc_l; [|apply rtc_refl]. eapply (cs_allocate 256 _ 0 3 0x100000); [apply demo_fillable_size; lia|vm_compute; reflexivity].
  - eexists. split; [right; left|reflexivity].
Qed.

Lemma plab_accounting_witness :
  ∃ l m' s' l' r, rtc (container_step 256) (new_container 256, 0) (l, 3) ∧
    container_flush_and_retire ∅ (_old_plab_stats demo_stats) l true false = Some (m', s', l') ∧
    u64 (stats_used s') = u64 (stats_used (_old_plab_stats demo_stats) + 3 + r) ∧ 0 <= r <= 2 * AlignmentReserve.
Proof.
  destruct demo_container_run as (l & Hr & _). exists l.
  destruct (plab_accounting demo_config_ok 256 ∅ (_old_plab_stats demo_stats) l 3) as (m' & s' & l' & r & H1 & H2 & H3 & _).
  - reflexivity.
  - apply demo_fillable_size. lia.
  - by vm_compute.
  - exact Hr.
  - exists m', s', l', r. split; [exact Hr|]. split; [exact H1|]. split; [exact H2|exact H3].
Defined.

End PlabEvacuationDemo.
