(* ===== verification/DivNode.v ===== *)
(** Integer division and remainder by constants in the C2 compiler
    ([opto/divnode.cpp]).

    [DivINode::Ideal], [DivLNode::Ideal], [ModINode::Ideal] and
    [ModLNode::Ideal] replace a division by a constant with multiplications,
    shifts and masks; [Value] computes a type for the result from the types
    of the operands.  The int and the long versions of the code are the same
    text at two widths where one definition below takes the width [N]. *)

From S2P Require Import Prelude MarkWord JavaHeap Ideal.
Import Ideal.

(** * Constants *)

Module DivMagic.

Section width.
Variable N : Z.

(** Unsigned and signed words of [N] bits. *)
Definition uw (z : Z) : Z := z mod 2 ^ N.
Definition sw (z : Z) : Z := (z + 2 ^ (N - 1)) mod 2 ^ N - 2 ^ (N - 1).

(** One turn of the loop: [2*q], [2*r] and the carry. *)
Definition double_step (a q r : Z) : Z * Z :=
  let q := uw (2 * q) in
  let r := uw (2 * r) in
  if r >=? a then (uw (q + 1), uw (r - a)) else (q, r).

(** The loop ends with [p <= 2N - 2], so [2N] turns are enough. *)
Fixpoint magic_loop (fuel : nat) (anc ad p q1 r1 q2 r2 : Z) : option (Z * Z) :=
  match fuel with
  | O => None
  | S fuel =>
      let p := p + 1 in
      let '(q1, r1) := double_step anc q1 r1 in
      let '(q2, r2) := double_step ad q2 r2 in
      let delta := uw (ad - r2) in
      if (q1 <? delta) || ((q1 =? delta) && (r1 =? 0))
      then magic_loop fuel anc ad p q1 r1 q2 r2
      else Some (p, q2)
  end.

(** The multiplier and the shift; [None] where the code returns false. *)
Definition magic_divide_constants (d : Z) : option (Z * Z) :=
  if (d =? 0) || (d =? 1) then None
  else
    let two := 2 ^ (N - 1) in
    let ad := uw (Z.abs d) in
    let t := uw (two + (uw d >>> (N - 1))) in
    let anc := uw (t - 1 - t mod ad) in
    let q1 := two / anc in
    let r1 := uw (two - q1 * anc) in
    let q2 := two / ad in
    let r2 := uw (two - q2 * ad) in
    '(p, q2) ← magic_loop (Z.to_nat (2 * N)) anc ad (N - 1) q1 r1 q2 r2;
    let M := sw (q2 + 1) in
    let M := if d <? 0 then sw (- M) else M in
    Some (M, p - N).

End width.

Definition magic_int_divide_constants (d : Z) : option (Z * Z) := magic_divide_constants 32 d.
Definition magic_long_divide_constants (d : Z) : option (Z * Z) := magic_divide_constants 64 d.

End DivMagic.

(** * Transformations *)

Module DivNode.
Import DivMagic.

Definition min_jint : Z := - 2 ^ 31.
Definition max_jint : Z := 2 ^ 31 - 1.
Definition min_jlong : Z := - 2 ^ 63.
Definition max_jlong : Z := 2 ^ 63 - 1.

Section transform.
(** [phase->type(n)] as an int or a long type, by its bounds; properties of
    the processor; a flag. *)
Variable type_of : Node → option (Z * Z).
Variable has_MulHiL : bool.
Variable use_asm_for_ldiv_by_con : Z → bool.
Variable ConditionalMoveLimit : Z.

Definition get_con (t : option (Z * Z)) : option Z :=
  '(lo, hi) ← t; if lo =? hi then Some lo else None.

(** An AND mask that clears the bits a shift by a power of two drops: the
    dividend to shift, and whether it still needs rounding. *)
Definition without_rounding (lo_ok : Z → bool) (input : Node → option (Node * Node)) (neg : Z → Z)
    (dividend : Node) (d : Z) : Node * bool :=
  if match type_of dividend with Some (lo, _) => lo_ok lo | None => false end then (dividend, false)
  else
    match input dividend with
    | Some (in1, in2) =>
        match get_con (type_of in2) with
        | Some andcon =>
            if (andcon <? 0) && is_power_of_2 (neg andcon) && (neg andcon >=? d)
            then (if neg andcon =? d then in1 else dividend, false)
            else (dividend, true)
        | None => (dividend, true)
        end
    | None => (dividend, true)
    end.

Definition AndI_inputs (n : Node) : option (Node * Node) := match n with AndI x y => Some (x, y) | _ => None end.
Definition AndL_inputs (n : Node) : option (Node * Node) := match n with AndL x y => Some (x, y) | _ => None end.

Definition transform_int_divide (dividend : Node) (divisor : Z) : option Node :=
  let d_pos := divisor >=? 0 in
  let d := if d_pos then divisor else i32 (- divisor) in
  if d =? 1 then
    if negb d_pos then Some (SubI (ConI 0) dividend) else None
  else if is_power_of_2 d then
    let '(dividend, needs_rounding) :=
      without_rounding (λ lo, lo >=? 0) AndI_inputs (λ c, i32 (- c)) dividend d in
    let l := log2_intptr (d - 1) + 1 in
    let dividend :=
      if needs_rounding then
        let sign := RShiftI dividend (ConI (32 - 1)) in
        let round := URShiftI sign (ConI (32 - l)) in
        AddI dividend round
      else dividend in
    let q := RShiftI dividend (ConI l) in
    Some (if negb d_pos then SubI (ConI 0) q else q)
  else
    '(magic_const, shift_const) ← magic_int_divide_constants d;
    let magic := ConL magic_const in
    let dividend_long := ConvI2L dividend in
    let mul_hi := MulL dividend_long magic in
    let mul_hi :=
      if magic_const <? 0 then
        let mul_hi := ConvL2I (RShiftL mul_hi (ConI 32)) in
        let mul_hi := AddI dividend mul_hi in
        if negb (shift_const =? 0) then RShiftI mul_hi (ConI shift_const) else mul_hi
      else ConvL2I (RShiftL mul_hi (ConI (32 + shift_const))) in
    let addend0 := mul_hi in
    let addend1 := RShiftI dividend (ConI (32 - 1)) in
    Some (if negb d_pos then SubI addend1 addend0 else SubI addend0 addend1).

Definition long_by_long_mulhi (dividend : Node) (magic_const : Z) : Node :=
  if has_MulHiL then MulHiL dividend (ConL magic_const)
  else
    let u0 := AndL dividend (ConL 0xFFFFFFFF) in
    let u1 := RShiftL dividend (ConI 32) in
    let v0 := ConL (magic_const &&& 0xFFFFFFFF) in
    let v1 := ConL (magic_const >>> 32) in
    let w0 := MulL u0 v0 in
    let u1v0 := MulL u1 v0 in
    let temp := URShiftL w0 (ConI 32) in
    let t := AddL u1v0 temp in
    let w1 := AndL t (ConL 0xFFFFFFFF) in
    let w2 := RShiftL t (ConI 32) in
    let u0v1 := MulL u0 v1 in
    let w1 := AddL u0v1 w1 in
    let u1v1 := MulL u1 v1 in
    let temp1 := AddL u1v1 w2 in
    let temp2 := RShiftL w1 (ConI 32) in
    AddL temp1 temp2.

Definition transform_long_divide (dividend : Node) (divisor : Z) : option Node :=
  let d_pos := divisor >=? 0 in
  let d := if d_pos then divisor else i64 (- divisor) in
  if d =? 1 then
    if negb d_pos then Some (SubL (ConL 0) dividend) else None
  else if is_power_of_2 d then
    let '(dividend, needs_rounding) :=
      without_rounding (λ lo, lo >? 0) AndL_inputs (λ c, i64 (- c)) dividend d in
    let l := log2_intptr (d - 1) + 1 in
    let dividend :=
      if needs_rounding then
        let sign := RShiftL dividend (ConI (64 - 1)) in
        let round := URShiftL sign (ConI (64 - l)) in
        AddL dividend round
      else dividend in
    let q := RShiftL dividend (ConI l) in
    Some (if negb d_pos then SubL (ConL 0) q else q)
  else if negb (use_asm_for_ldiv_by_con d) then
    '(magic_const, shift_const) ← magic_long_divide_constants d;
    let mul_hi := long_by_long_mulhi dividend magic_const in
    let mul_hi := if magic_const <? 0 then AddL dividend mul_hi else mul_hi in
    let mul_hi := if negb (shift_const =? 0) then RShiftL mul_hi (ConI shift_const) else mul_hi in
    let addend0 := mul_hi in
    let addend1 := RShiftL dividend (ConI (64 - 1)) in
    Some (if negb d_pos then SubL addend1 addend0 else SubL addend0 addend1)
  else None.

(** ** Idealization

    Without the removal of dead control inputs. *)

Definition DivINode_Ideal (in1 in2 : Node) : option Node :=
  i ← get_con (type_of in2);
  if (i =? 1) || (i =? 0) || (i =? min_jint) then None else transform_int_divide in1 i.

Definition DivLNode_Ideal (in1 in2 : Node) : option Node :=
  l ← get_con (type_of in2);
  if (l =? 1) || (l =? 0) || (l =? min_jlong) then None else transform_long_divide in1 l.

Definition int_unroll_factor : list Z := [999; 999; 29; 14; 9; 7; 5; 4; 4; 3; 3; 2; 2; 2; 2; 2; 1].
Definition long_unroll_factor : list Z :=
  [999; 999; 61; 30; 20; 15; 12; 10; 8; 7; 6; 6; 5; 5; 4; 4; 4; 3; 3; 3; 3; 3; 2; 2; 2; 2; 2; 2; 2; 2; 2; 2; 1].
Definition trip_count (unroll_factor : list Z) (k : Z) : Z := default 1 (unroll_factor !! Z.to_nat k).

(** The loops that fold the high bits into the low ones. *)
Fixpoint fold_bits_int (trips : nat) (x divisor : Node) (k : Z) : Node :=
  match trips with
  | O => x
  | S trips => fold_bits_int trips (AddI (RShiftI x (ConI k)) (AndI x divisor)) divisor k
  end.
Fixpoint fold_bits_long (trips : nat) (x divisor : Node) (k : Z) : Node :=
  match trips with
  | O => x
  | S trips => fold_bits_long trips (AddL (RShiftL x (ConI k)) (AndL x divisor)) divisor k
  end.

Definition ModINode_Ideal (in1 in2 : Node) : option Node :=
  con ← get_con (type_of in2);
  let k := log2_intptr (con + 1) in
  let trips := trip_count int_unroll_factor k in
  if (con >=? 0) && (con <? max_jint) && is_power_of_2 (con + 1) && (trips <=? 5) &&
     negb (ConditionalMoveLimit =? 0) then
    let divisor := in2 in
    let x := fold_bits_int (Z.to_nat trips) in1 divisor k in
    let bol1 := Bool (CmpI in1 (ConI 0)) ge in
    let cmov1 := CMove bol1 (ConI 1) divisor in
    let sub := SubI x divisor in
    let bol2 := Bool (CmpI x cmov1) ge in
    Some (CMove bol2 x sub)
  else if (con =? 0) || (con =? min_jint) then None
  else
    let pos_con := if con >=? 0 then con else i32 (- con) in
    if pos_con =? 1 then Some (ConI 0)
    else
      let pow2 := is_power_of_2 pos_con in
      if pow2 && match type_of in1 with Some (lo, _) => lo >=? 0 | None => false end
      then Some (AndI in1 (ConI (pos_con - 1)))
      else
        divide ← transform_int_divide in1 pos_con;
        let mult := if pow2 then LShiftI divide (ConI (log2_intptr pos_con)) else MulI divide (ConI pos_con) in
        Some (SubI in1 mult).

Definition ModLNode_Ideal (in1 in2 : Node) : option Node :=
  con ← get_con (type_of in2);
  let k := log2_intptr (con + 1) in
  let trips := trip_count long_unroll_factor k in
  if (con >=? 0) && (con <? max_jlong) && is_power_of_2 (con + 1) && (trips <=? 5) &&
     negb (ConditionalMoveLimit =? 0) then
    let divisor := in2 in
    let x := fold_bits_long (Z.to_nat trips) in1 divisor k in
    let bol1 := Bool (CmpL in1 (ConL 0)) ge in
    let cmov1 := CMove bol1 (ConL 1) divisor in
    let sub := SubL x divisor in
    let bol2 := Bool (CmpL x cmov1) ge in
    Some (CMove bol2 x sub)
  else if (con =? 0) || (con =? min_jlong) then None
  else
    let pos_con := if con >=? 0 then con else i64 (- con) in
    if pos_con =? 1 then Some (ConL 0)
    else
      let pow2 := is_power_of_2 pos_con in
      if pow2 && match type_of in1 with Some (lo, _) => lo >=? 0 | None => false end
      then Some (AndL in1 (ConL (pos_con - 1)))
      else
        divide ← transform_long_divide in1 pos_con;
        let mult := if pow2 then LShiftL divide (ConI (log2_intptr pos_con)) else MulL divide (ConL pos_con) in
        Some (SubL in1 mult).

End transform.

(** ** Types of results

    A type is empty ([TOP]), a range, or unknown ([BOTTOM]); [same] says
    that both inputs are the same node.  How fast a type widens in loops is
    left out; the full range always has the same widening. *)
Inductive Type_ := TOP | Range (lo hi : Z) | BOTTOM.

Section values.
Variables min_value max_value : Z.

(** The type is [BOTTOM] or [bottom_type()], the full range. *)
Definition is_bot (t : Type_) : bool :=
  match t with TOP => false | Range lo hi => (lo =? min_value) && (hi =? max_value) | BOTTOM => true end.

(** [DivINode::Value] and [DivLNode::Value]; C++ division truncates. *)
Definition Div_Value (t1 t2 : Type_) (same : bool) : Type_ :=
  match t1, t2 with
  | TOP, _ | _, TOP => TOP
  | _, _ =>
      if same then Range 1 1
      else if is_bot t1 || is_bot t2 then Range min_value max_value
      else
        match t1, t2 with
        | Range lo1 hi1, Range lo2 hi2 =>
            if (lo2 =? hi2) && negb (lo2 =? 0) then
              let d := lo2 in
              if d >=? 0 then Range (Z.quot lo1 d) (Z.quot hi1 d)
              else if (d =? -1) && (lo1 =? min_value) then
                Range min_value (if hi1 =? min_value then min_value else max_value)
              else Range (Z.quot hi1 d) (Z.quot lo1 d)
            else if lo1 =? hi1 then
              let d := lo1 in
              if d <? 0 then
                if d =? min_value then Range min_value (Z.quot max_value 2 + 1) else Range d (- d)
              else Range (- d) d
            else Range min_value max_value
        | _, _ => Range min_value max_value
        end
  end.

(** [ModINode::Value] and [ModLNode::Value]. *)
Definition Mod_Value (t1 t2 : Type_) (same : bool) : Type_ :=
  match t1, t2 with
  | TOP, _ | _, TOP => TOP
  | Range 0 0, _ => Range 0 0
  | _, _ =>
      if same then Range 0 0
      else if is_bot t1 || is_bot t2 then Range min_value max_value
      else
        match t1, t2 with
        | Range lo1 hi1, Range lo2 hi2 =>
            if negb (lo1 =? hi1) || negb (lo2 =? hi2) then
              if (lo1 >=? 0) && (lo2 >=? 0) then Range 0 max_value else Range min_value max_value
            else if lo2 =? 0 then Range 0 max_value
            else if (lo1 =? min_value) && (lo2 =? -1) then Range 0 0
            else Range (Z.rem lo1 lo2) (Z.rem lo1 lo2)
        | _, _ => Range min_value max_value
        end
  end.

End values.

Definition DivINode_Value : Type_ → Type_ → bool → Type_ := Div_Value min_jint max_jint.
Definition DivLNode_Value : Type_ → Type_ → bool → Type_ := Div_Value min_jlong max_jlong.
Definition ModINode_Value : Type_ → Type_ → bool → Type_ := Mod_Value min_jint max_jint.
Definition ModLNode_Value : Type_ → Type_ → bool → Type_ := Mod_Value min_jlong max_jlong.

End DivNode.

Module DivMagicFacts.
Import DivMagic.

(** The quotient as a product with the multiplier.  [e] is what the
    multiplier [m] of shift [p] is too large by, times [d]; the loop stops
    when [e] is so small that the error stays below one for every dividend up
    to [nc], the largest one that leaves the remainder [d - 1]. *)
Section quotient.
Variables T d P m e nc : Z.
Hypothesis HT : 2 <= d < T.
Hypothesis Hm : m * d = P + e.
Hypothesis He : 1 <= e <= d.
Hypothesis Hnc : nc = T - 1 - T mod d.
Hypothesis Hp : nc * e < P.

Lemma nc_block : ∃ k, nc = k * d - 1 ∧ 1 <= k ∧ T = k * d + T mod d.
Proof.
  exists (T / d). pose proof (Z.div_mod T d ltac:(lia)) as E. assert (1 <= T / d) by (apply Z.div_le_lower_bound; lia). lia.
Qed.

(** The error term of a dividend [q * d + r]. *)
Lemma error_small n q r : 0 <= n < T → n = q * d + r → 0 <= r < d → n * e < (d - r) * P.
Proof.
  intros Hn E Hr. destruct nc_block as (k & Ek & Hk & ET). assert (0 < P) by nia.
  destruct (Z_le_gt_dec n nc); [nia|].
  pose proof (Z.mod_pos_bound T d ltac:(lia)). assert (q = k) as -> by nia.
  assert (n = nc + 1 + r) by lia. assert (r + 1 < d) by lia.
  assert (1 + r <= nc) by nia. assert ((1 + r) * e <= nc * e) by (apply Z.mul_le_mono_nonneg_r; lia).
  assert (2 * P <= (d - r) * P) by (apply Z.mul_le_mono_nonneg_r; lia). nia.
Qed.

Lemma quotient_nonneg n : 0 <= n < T → n * m / P = n / d.
Proof.
  intros Hn. destruct nc_block as (k & Ek & Hk & ET). assert (0 < P) by nia.
  pose proof (Z.div_mod n d ltac:(lia)) as E. pose proof (Z.mod_pos_bound n d ltac:(lia)) as Hr.
  pose proof (error_small n (n / d) (n mod d) Hn ltac:(lia) Hr) as Hs.
  symmetry. apply Z.div_unique with (n * m - P * (n / d)); [|lia]. left.
  assert (d * (n * m - P * (n / d)) = P * (n mod d) + n * e) by nia. nia.
Qed.

(** The largest negative dividend is one larger than the others. *)
Hypothesis Hmin : T mod d = d - 1 → T * e <= P.

Lemma quotient_neg n : 1 <= n <= T → - n * m / P + 1 = - (n / d).
Proof.
  intros Hn. destruct nc_block as (k & Ek & Hk & ET). assert (0 < P) by nia.
  pose proof (Z.div_mod n d ltac:(lia)) as E. pose proof (Z.mod_pos_bound n d ltac:(lia)) as Hr.
  assert (n * e <= (d - n mod d) * P) as Hs.
  { destruct (decide (n = T)) as [->|]; [|pose proof (error_small n (n / d) (n mod d) ltac:(lia) ltac:(lia) Hr); lia].
    destruct (decide (T mod d = d - 1)) as [Er|Hne]; [specialize (Hmin Er); rewrite Er; lia|].
    assert (T - 1 = T / d * d + (T mod d - 1) ∨ T mod d = 0) as [Et|E0] by lia.
    - assert (T = nc + 1 + T mod d) by lia. assert (1 + T mod d <= nc) by nia.
      assert ((1 + T mod d) * e <= nc * e) by (apply Z.mul_le_mono_nonneg_r; lia).
      assert (2 * P <= (d - T mod d) * P) by (apply Z.mul_le_mono_nonneg_r; lia). nia.
    - rewrite E0, Z.sub_0_r. assert (T = nc + 1) by lia. nia. }
  assert (- n * m / P = - (n / d) - 1); [|lia].
  symmetry. apply Z.div_unique with (- n * m + P * (n / d + 1)); [|lia]. left.
  assert (d * (- n * m + P * (n / d + 1)) = P * (d - n mod d) - n * e) by nia. nia.
Qed.

Lemma quotient_trunc n : - T <= n < T → n * m / P + (if n <? 0 then 1 else 0) = Z.quot n d.
Proof.
  intros Hn. destruct (Z.ltb_spec n 0).
  - rewrite <- (Z.opp_involutive n) at 2. rewrite Z.quot_opp_l, Z.quot_div_nonneg by lia.
    rewrite <- (quotient_neg (- n)) by lia. by rewrite Z.opp_involutive.
  - rewrite Z.add_0_r, Z.quot_div_nonneg by lia. apply quotient_nonneg. lia.
Qed.

End quotient.

(** ** The loop *)

Section loop.
Variables N d : Z.
Hypothesis HN : 3 <= N.
#[local] Notation T := (2 ^ (N - 1)).
Hypothesis Hd : 2 <= d < T.
#[local] Notation nc := (T - 1 - T mod d).
#[local] Notation excess p := (d - 2 ^ p mod d).

Lemma word_twice : 2 ^ N = 2 * T.
Proof. rewrite <- Z.pow_succ_r by lia. f_equal. lia. Qed.

Lemma nc_range : 2 <= nc < T.
Proof.
  pose proof (Z.mod_pos_bound T d ltac:(lia)). pose proof (Z.div_mod T d ltac:(lia)).
  assert (1 <= T / d) by (apply Z.div_le_lower_bound; lia). assert (4 <= T) by (change 4 with (2 ^ 2); apply Z.pow_le_mono_r; lia).
  split; [|lia]. destruct (decide (d = 2)) as [->|]; [|nia].
  assert (T mod 2 = 0) as ->; [|lia]. replace T with (2 ^ (N - 2) * 2); [apply Z.mod_mul; lia|].
  rewrite Z.mul_comm, <- Z.pow_succ_r by lia. f_equal. lia.
Qed.

Lemma uw_small z : 0 <= z < 2 ^ N → uw N z = z.
Proof. apply Z.mod_small. Qed.

Lemma double_step_spec a p :
  0 <= p → 0 < a < T → 2 ^ p / a < T →
  double_step N a (2 ^ p / a) (2 ^ p mod a) = (2 ^ (p + 1) / a, 2 ^ (p + 1) mod a).
Proof.
  intros Hp Ha Hq. pose proof word_twice. pose proof (Z.div_mod (2 ^ p) a ltac:(lia)) as E.
  pose proof (Z.mod_pos_bound (2 ^ p) a ltac:(lia)) as Hr.
  assert (0 <= 2 ^ p / a) by (apply Z.div_pos; lia).
  assert (2 ^ (p + 1) = 2 * 2 ^ p) as E2 by (by rewrite Z.add_1_r, Z.pow_succ_r by done).
  unfold double_step. rewrite (uw_small (2 * (2 ^ p / a))), (uw_small (2 * (2 ^ p mod a))) by lia.
  destruct (Z.geb_spec (2 * (2 ^ p mod a)) a); rewrite ?uw_small by lia; f_equal.
  - apply Z.div_unique with (2 * (2 ^ p mod a) - a); nia.
  - apply Z.mod_unique with (2 * (2 ^ p / a) + 1); nia.
  - apply Z.div_unique with (2 * (2 ^ p mod a)); nia.
  - apply Z.mod_unique with (2 * (2 ^ p / a)); nia.
Qed.

(** The test compares [2^p] with [nc * excess p] by quotient and rest. *)
Lemma loop_test p : 0 <= p →
  (2 ^ p / nc <? excess p) || ((2 ^ p / nc =? excess p) && (2 ^ p mod nc =? 0)) = negb (nc * excess p <? 2 ^ p).
Proof.
  intros Hp. pose proof nc_range. pose proof (Z.div_mod (2 ^ p) nc ltac:(lia)) as E.
  pose proof (Z.mod_pos_bound (2 ^ p) nc ltac:(lia)) as Hr.
  destruct (Z.ltb_spec (nc * excess p) (2 ^ p)); cbn [negb].
  - apply orb_false_iff. split; [apply Z.ltb_ge; nia|]. apply andb_false_iff.
    destruct (Z.eqb_spec (2 ^ p / nc) (excess p)) as [Eq|]; [right; apply Z.eqb_neq; nia|by left].
  - apply orb_true_iff. destruct (Z_lt_ge_dec (2 ^ p / nc) (excess p)); [left; by apply Z.ltb_lt|right].
    apply andb_true_iff. rewrite !Z.eqb_eq. nia.
Qed.

Lemma continuing p : 0 <= p → 2 ^ p <= nc * excess p →
  2 ^ p / nc < T ∧ 2 ^ p / d < T ∧ p < 2 * N - 2.
Proof.
  intros Hp Hc. pose proof nc_range. pose proof (Z.mod_pos_bound (2 ^ p) d ltac:(lia)).
  split; [|split].
  - apply Z.div_lt_upper_bound; nia.
  - apply Z.div_lt_upper_bound; nia.
  - apply (Z.pow_lt_mono_r_iff 2); [lia|lia|]. replace (2 * N - 2) with ((N - 1) + (N - 1)) by lia.
    rewrite Z.pow_add_r by lia. nia.
Qed.

Lemma magic_loop_spec fuel p :
  N - 1 <= p → p = N - 1 ∨ 2 ^ p <= nc * excess p → 2 * N - 2 - p <= Z.of_nat fuel →
  ∃ p', magic_loop N fuel nc d p (2 ^ p / nc) (2 ^ p mod nc) (2 ^ p / d) (2 ^ p mod d) = Some (p', 2 ^ p' / d) ∧
    N <= p' <= 2 * N - 2 ∧ nc * excess p' < 2 ^ p' ∧ (p' = N ∨ 2 ^ (p' - 1) <= nc * excess (p' - 1)).
Proof.
  revert p. induction fuel as [|fuel IH]; intros p Hp Hc Hf; pose proof nc_range as Hnc.
  { destruct Hc as [->|Hc]; [lia|]. destruct (continuing p) as (_ & _ & ?); lia. }
  assert (2 ^ p / nc < T ∧ 2 ^ p / d < T ∧ p < 2 * N - 2) as (Q1 & Q2 & Hp2).
  { destruct Hc as [->|Hc]; [|apply continuing; lia]. split_and!; [apply Z.div_lt_upper_bound; nia..|lia]. }
  cbn [magic_loop]. rewrite !double_step_spec by lia. pose proof (Z.mod_pos_bound (2 ^ (p + 1)) d ltac:(lia)).
  rewrite (uw_small (d - _)) by (pose proof word_twice; lia). rewrite loop_test by lia.
  destruct (Z.ltb_spec (nc * excess (p + 1)) (2 ^ (p + 1))) as [Hs|Hs]; cbn [negb].
  - exists (p + 1). split_and!; try done; [lia..|]. replace (p + 1 - 1) with p by lia. destruct Hc; [left; lia|by right].
  - destruct (IH (p + 1)) as (p' & ? & ?); [lia|by right|lia|]. by exists p'.
Qed.

Lemma excess_min p : N <= p → T mod d = d - 1 → T * excess p <= 2 ^ p.
Proof.
  intros Hp Er. set (E := 2 ^ (p - (N - 1))).
  assert (2 ^ p = T * E) as EP by (unfold E; rewrite <- Z.pow_add_r by lia; f_equal; lia).
  assert (0 < E) by (apply Z.pow_pos_nonneg; lia). pose proof (Z.div_mod T d ltac:(lia)) as ET.
  destruct (Z_le_gt_dec E d) as [Hle|Hgt].
  - assert (2 ^ p mod d = d - E) as ->; [|nia].
    symmetry. apply Z.mod_unique with ((T / d + 1) * E - 1); [lia|]. rewrite EP. nia.
  - pose proof (Z.mod_pos_bound (2 ^ p) d ltac:(lia)). nia.
Qed.

Lemma multiplier_bound p :
  N <= p → p = N ∨ 2 ^ (p - 1) <= nc * excess (p - 1) → 0 < 2 ^ p / d + 1 < 2 ^ N.
Proof.
  intros Hp Hc. pose proof word_twice. pose proof nc_range as Hnc.
  assert (0 <= 2 ^ p / d) by (apply Z.div_pos; lia). split; [lia|].
  assert (2 ^ p / d <= 2 * T - 2); [|lia].
  destruct Hc as [->|Hc].
  - assert (2 ^ N / d <= T) by (apply Z.div_le_upper_bound; nia). lia.
  - assert (2 ^ p = 2 * 2 ^ (p - 1)) by (rewrite <- Z.pow_succ_r by lia; f_equal; lia).
    pose proof (Z.mod_pos_bound (2 ^ (p - 1)) d ltac:(lia)). apply Z.div_le_upper_bound; [lia|]. nia.
Qed.

(** The multiplier and the shift that the loop finds divide every word. *)
Lemma magic_spec :
  ∃ m s, magic_divide_constants N d = Some (sw N m, s) ∧ 0 < m < 2 ^ N ∧ 0 <= s <= N - 2 ∧
    ∀ n, - T <= n < T → n * m / 2 ^ (N + s) + (if n <? 0 then 1 else 0) = Z.quot n d.
Proof.
  pose proof word_twice as W. pose proof nc_range as Hnc. pose proof (Z.mod_pos_bound T d ltac:(lia)).
  destruct (magic_loop_spec (Z.to_nat (2 * N)) (N - 1)) as (p & El & Hp & Hs & Hmin); [lia|by left|lia|].
  exists (2 ^ p / d + 1), (p - N). split; [|split; [by apply multiplier_bound; lia|split; [lia|]]].
  - unfold magic_divide_constants. rewrite (proj2 (Z.eqb_neq d 0)), (proj2 (Z.eqb_neq d 1)) by lia. cbn [orb].
    rewrite Z.abs_eq, (uw_small d) by lia. rewrite Z.shiftr_div_pow2, Z.div_small, Z.add_0_r by lia.
    rewrite (uw_small T), (uw_small nc) by lia.
    rewrite <- (Z.mul_comm nc), <- (Z.mul_comm d), <- !Z.mod_eq by lia.
    rewrite (uw_small (T mod nc)), (uw_small (T mod d)) by (pose proof (Z.mod_pos_bound T nc ltac:(lia)); lia).
    rewrite El. cbn [mbind option_bind]. by rewrite (proj2 (Z.ltb_ge d 0)) by lia.
  - intros n Hn. replace (N + (p - N)) with p by lia.
    pose proof (Z.mod_pos_bound (2 ^ p) d ltac:(lia)). pose proof (Z.div_mod (2 ^ p) d ltac:(lia)).
    apply (quotient_trunc T d (2 ^ p) (2 ^ p / d + 1) (excess p) nc); try lia.
    apply excess_min. lia.
Qed.

End loop.

End DivMagicFacts.

Module DivNodeFacts.
Import DivMagic DivMagicFacts DivNode.

(** ** Words *)

Lemma power_of_2_spec d : 0 < d → is_power_of_2 d = true → d = 2 ^ Z.log2 d.
Proof.
  intros Hd E. unfold is_power_of_2, mask_bits in E. apply andb_prop in E as [_ E]. apply Z.eqb_eq in E.
  destruct (Z.log2_spec d Hd) as [H1 H2]. destruct (decide (d = 2 ^ Z.log2 d)) as [|Hn]; [done|]. exfalso.
  assert (Z.testbit (d &&& (d - 1)) (Z.log2 d) = true) as Hb; [|by rewrite E, Z.bits_0 in Hb].
  rewrite Z.land_spec, Z.bit_log2 by done. cbn [andb].
  replace (Z.log2 d) with (Z.log2 (d - 1)); [apply Z.bit_log2; pose proof (Z.pow_pos_nonneg 2 (Z.log2 d) ltac:(lia) (Z.log2_nonneg d)); lia|].
  apply Z.log2_unique; [apply Z.log2_nonneg|lia].
Qed.

Lemma is_power_of_2_pow k : 0 <= k → is_power_of_2 (2 ^ k) = true.
Proof.
  intros Hk. unfold is_power_of_2, mask_bits. rewrite (proj2 (Z.eqb_neq (2 ^ k) 0)) by (apply Z.pow_nonzero; lia).
  cbn [negb andb]. apply Z.eqb_eq.
  replace (2 ^ k - 1) with (Z.ones k) by (rewrite Z.ones_equiv; lia).
  rewrite Z.land_ones by done. apply Z.mod_same, Z.pow_nonzero; lia.
Qed.

Lemma log2_pred d k : d = 2 ^ k → 1 <= k < 63 → log2_intptr (d - 1) + 1 = k.
Proof.
  intros -> Hk. assert (2 ^ k = 2 * 2 ^ (k - 1)) by (rewrite <- Z.pow_succ_r by lia; f_equal; lia).
  pose proof (Z.pow_pos_nonneg 2 (k - 1) ltac:(lia) ltac:(lia)). pose proof (Z.pow_lt_mono_r 2 k 63 ltac:(lia) ltac:(lia) ltac:(lia)).
  rewrite log2_intptr_log2 by lia. rewrite (Z.log2_unique _ (k - 1)); [lia..|].
  rewrite <- Z.add_1_r. replace (k - 1 + 1) with k by lia. lia.
Qed.

Lemma land31 k : 0 <= k < 32 → k &&& 31 = k.
Proof. intros. apply (land_ones_small k 5). lia. Qed.
Lemma land63 k : 0 <= k < 64 → k &&& 63 = k.
Proof. intros. apply (land_ones_small k 6). lia. Qed.

(** Rounding towards zero by a shift. *)
Lemma quot_shift x k : 0 <= k → (x + (if x <? 0 then 2 ^ k - 1 else 0)) >>> k = Z.quot x (2 ^ k).
Proof.
  intros Hk. rewrite Z.shiftr_div_pow2 by done. pose proof (Z.pow_pos_nonneg 2 k ltac:(lia) Hk) as Hp.
  destruct (Z.ltb_spec x 0).
  - rewrite <- (Z.opp_involutive x) at 2. rewrite Z.quot_opp_l, Z.quot_div_nonneg by lia.
    pose proof (Z.div_mod (- x) (2 ^ k) ltac:(lia)). pose proof (Z.mod_pos_bound (- x) (2 ^ k) ltac:(lia)).
    symmetry. apply Z.div_unique with (2 ^ k - 1 - - x mod 2 ^ k); nia.
  - by rewrite Z.add_0_r, Z.quot_div_nonneg by lia.
Qed.

Lemma sign_shift n x : 0 < n → - 2 ^ n <= x < 2 ^ n → x >>> n = if x <? 0 then -1 else 0.
Proof.
  intros Hn Hx. rewrite Z.shiftr_div_pow2 by lia. destruct (Z.ltb_spec x 0).
  - symmetry. apply Z.div_unique with (x + 2 ^ n); lia.
  - apply Z.div_small. lia.
Qed.

(** ** Evaluation *)

Section eval.
Context {cfg : JavaHeap.VMConfig}.
Variable thread : Z.
Variable parms : nat → Z.
Variable raw : gmap Z Z.
#[local] Notation ev := (eval thread parms raw).

Variable type_of : Node → option (Z * Z).
Variable has_MulHiL : bool.
Variable use_asm_for_ldiv_by_con : Z → bool.
Variable ConditionalMoveLimit : Z.

(** The types that the compiler has computed hold of the values. *)
Hypothesis types_sound : ∀ n lo hi v, type_of n = Some (lo, hi) → ev n = Some v → lo <= v <= hi.

Lemma get_con_sound n c v : get_con (type_of n) = Some c → ev n = Some v → v = c.
Proof.
  unfold get_con. destruct (type_of n) as [[lo hi]|] eqn:E; [|done]. cbn [mbind option_bind].
  destruct (Z.eqb_spec lo hi) as [->|]; [|done]. intros [= <-] Hv. pose proof (types_sound _ _ _ _ E Hv). lia.
Qed.

Lemma mask_shift v j l : 0 <= l <= j →
  (v &&& - 2 ^ j) >>> l = Z.quot (v &&& - 2 ^ j) (2 ^ l) ∧ (j = l → (v &&& - 2 ^ j) >>> l = v >>> l).
Proof.
  intros Hl. assert (v &&& - 2 ^ j = 2 ^ j * (v / 2 ^ j)) as E.
  { rewrite <- (JavaHeapFacts.land_lnot_low v j) by lia. f_equal. unfold Z.lnot. lia. }
  assert (0 < 2 ^ l) by (apply Z.pow_pos_nonneg; lia). assert (0 < 2 ^ (j - l)) by (apply Z.pow_pos_nonneg; lia).
  assert (2 ^ j = 2 ^ l * 2 ^ (j - l)) as Ej by (rewrite <- Z.pow_add_r by lia; f_equal; lia).
  rewrite E, !Z.shiftr_div_pow2 by lia. split.
  - rewrite Ej, <- Z.mul_assoc, (Z.mul_comm (2 ^ l)), Z.div_mul, Z.quot_mul by lia. done.
  - intros ->. by rewrite Z.mul_comm, Z.div_mul by lia.
Qed.

(** Where the code leaves the rounding out, the shift is the quotient. *)
Lemma without_rounding_spec lo_ok inputs neg n x l n' nr :
  (∀ lo, lo_ok lo = true → 0 <= lo) →
  (∀ a b, inputs n = Some (a, b) → ev n = (va ← ev a; vb ← ev b; Some (va &&& vb))) →
  (∀ a b c, inputs n = Some (a, b) → ev b = Some c → 0 < neg c → neg c = - c) →
  0 <= l → ev n = Some x → without_rounding type_of lo_ok inputs neg n (2 ^ l) = (n', nr) →
  (nr = true ∧ n' = n) ∨ (nr = false ∧ ∃ x', ev n' = Some x' ∧ x' >>> l = Z.quot x (2 ^ l)).
Proof.
  intros Hlo Hin Hneg Hl Hx E. assert (0 < 2 ^ l) by (apply Z.pow_pos_nonneg; lia). unfold without_rounding in E.
  destruct (match type_of n with Some (lo, _) => lo_ok lo | None => false end) eqn:Et.
  { injection E as <- <-. right. split; [done|]. exists x. split; [done|]. destruct (type_of n) as [[lo hi]|] eqn:Ety; [|done].
    pose proof (types_sound _ _ _ _ Ety Hx). apply Hlo in Et. rewrite Z.shiftr_div_pow2, Z.quot_div_nonneg by lia. done. }
  destruct (inputs n) as [[a b]|] eqn:Ei; [|injection E as <- <-; by left].
  destruct (get_con (type_of b)) as [c|] eqn:Ec; [|injection E as <- <-; by left].
  destruct ((c <? 0) && is_power_of_2 (neg c) && (neg c >=? 2 ^ l)) eqn:Ep; [|injection E as <- <-; by left].
  right. injection E as <- <-. split; [done|]. rewrite (Hin a b eq_refl) in Hx.
  destruct (ev a) as [va|] eqn:Ea; [|done]. destruct (ev b) as [vb|] eqn:Eb; [|done]. cbn [mbind option_bind] in Hx.
  injection Hx as <-. pose proof (get_con_sound _ _ _ Ec Eb) as ->. apply andb_prop in Ep as [Ep Hge]. apply andb_prop in Ep as [_ Ep].
  apply Z.geb_le in Hge. specialize (Hneg a b c eq_refl Eb ltac:(lia)).
  assert (∃ j, 0 <= j ∧ neg c = 2 ^ j) as (j & Hj & Ej).
  { exists (Z.log2 (neg c)). split; [apply Z.log2_nonneg|]. apply power_of_2_spec; [lia|done]. }
  assert (c = - 2 ^ j) as -> by lia. assert (l <= j) by (apply (Z.pow_le_mono_r_iff 2); lia).
  destruct (mask_shift va j l ltac:(lia)) as [M1 M2]. destruct (Z.eqb_spec (neg (- 2 ^ j)) (2 ^ l)) as [El|Hn].
  - exists va. split; [done|]. rewrite <- M1. symmetry. apply M2. apply (Z.pow_inj_r 2); lia.
  - exists (va &&& - 2 ^ j). split; [|done]. rewrite (Hin a b eq_refl), Ea, Eb. done.
Qed.

Lemma sw_word N m : 0 < N → 0 < m < 2 ^ N → sw N m = if m <? 2 ^ (N - 1) then m else m - 2 ^ N.
Proof.
  intros HN Hm. assert (2 ^ N = 2 * 2 ^ (N - 1)) by (rewrite <- Z.pow_succ_r by lia; f_equal; lia). unfold sw.
  destruct (Z.ltb_spec m (2 ^ (N - 1))); [rewrite Z.mod_small; lia|].
  assert ((m + 2 ^ (N - 1)) mod 2 ^ N = m - 2 ^ (N - 1)) as ->; [|lia].
  symmetry. apply Z.mod_unique with 1; lia.
Qed.

Lemma i32_sw z : i32 z = sw 32 z.
Proof. apply i32_mod. Qed.
Lemma i64_sw z : i64 z = sw 64 z.
Proof. apply i64_mod. Qed.
Lemma u32_uw z : u32 z = uw 32 z.
Proof. apply u32_mod. Qed.
Lemma u64_uw z : u64 z = uw 64 z.
Proof. apply u64_mod. Qed.

Lemma sw_small N z : 1 < N → - 2 ^ (N - 1) <= z < 2 ^ (N - 1) → sw N z = z.
Proof.
  intros HN Hz. assert (2 ^ N = 2 * 2 ^ (N - 1)) by (rewrite <- Z.pow_succ_r by lia; f_equal; lia).
  unfold sw. rewrite Z.mod_small; lia.
Qed.

(** The sign bits, shifted to the right, are what the shift has to round by. *)
Lemma round_shift N x l : 3 <= N → - 2 ^ (N - 1) <= x < 2 ^ (N - 1) → 1 <= l <= N - 2 →
  sw N (x + sw N (uw N (if x <? 0 then -1 else 0) >>> (N - l))) >>> l = Z.quot x (2 ^ l).
Proof.
  intros HN Hx Hl. assert (2 ^ N = 2 * 2 ^ (N - 1)) as W by (rewrite <- Z.pow_succ_r by lia; f_equal; lia).
  assert (0 < 2 ^ l) by (apply Z.pow_pos_nonneg; lia). assert (2 ^ l <= 2 ^ (N - 1)) by (apply Z.pow_le_mono_r; lia).
  assert (uw N (if x <? 0 then -1 else 0) >>> (N - l) = if x <? 0 then 2 ^ l - 1 else 0) as ->.
  { destruct (x <? 0); unfold uw; [|by rewrite Z.mod_0_l, Z.shiftr_0_l by (apply Z.pow_nonzero; lia)].
    assert (-1 mod 2 ^ N = 2 ^ N - 1) as -> by (symmetry; apply Z.mod_unique with (-1); lia).
    rewrite Z.shiftr_div_pow2 by lia.
    assert (2 ^ N = 2 ^ l * 2 ^ (N - l)) as E by (rewrite <- Z.pow_add_r by lia; f_equal; lia).
    assert (0 < 2 ^ (N - l)) by (apply Z.pow_pos_nonneg; lia).
    symmetry. apply Z.div_unique with (2 ^ (N - l) - 1); nia. }
  rewrite (sw_small N (if x <? 0 then _ else _)) by (destruct (x <? 0); lia).
  rewrite sw_small by (destruct (Z.ltb_spec x 0); lia). apply quot_shift. lia.
Qed.

(** The product with the multiplier, in the two ways the code has it: a
    multiplier of [N] bits is negative as a word, and is then taken [2^N]
    too small. *)
Lemma high_product N x m s : 0 <= N → 0 <= s →
  (x * (m - 2 ^ N) / 2 ^ N + x) / 2 ^ s = x * m / 2 ^ (N + s).
Proof.
  intros HN Hs. assert (0 < 2 ^ N) by (apply Z.pow_pos_nonneg; lia). assert (0 < 2 ^ s) by (apply Z.pow_pos_nonneg; lia).
  rewrite Z.pow_add_r, <- Z.div_div by lia. f_equal.
  replace (x * (m - 2 ^ N)) with (x * m + (- x) * 2 ^ N) by lia. rewrite Z.div_add by lia. lia.
Qed.

(** *** Ints *)

Definition int (x : Z) : Prop := - 2 ^ 31 <= x < 2 ^ 31.
Definition int_inputs (n : Node) : Prop := ∀ a b v, n = AndI a b → ev b = Some v → int v.

Lemma quot_small x d B : 0 < B → - B <= x < B → 2 <= d → - B <= 2 * Z.quot x d <= B.
Proof.
  intros HB Hx Hd. destruct (Z_le_gt_dec 0 x).
  - rewrite Z.quot_div_nonneg by lia. assert (0 <= x / d) by (apply Z.div_pos; lia).
    assert (x / d <= x / 2) by (apply Z.div_le_compat_l; lia). pose proof (Z.mul_div_le x 2 ltac:(lia)). lia.
  - rewrite <- (Z.opp_involutive x), Z.quot_opp_l, Z.quot_div_nonneg by lia. assert (0 <= - x / d) by (apply Z.div_pos; lia).
    assert (- x / d <= - x / 2) by (apply Z.div_le_compat_l; lia). pose proof (Z.mul_div_le (- x) 2 ltac:(lia)). lia.
Qed.

Lemma ev_sign_int n x : ev n = Some x → int x → ev (RShiftI n (ConI (32 - 1))) = Some (if x <? 0 then -1 else 0).
Proof.
  intros Hn Hx. cbn [eval]. rewrite Hn. cbn [mbind option_bind]. change ((32 - 1) &&& 31) with 31.
  by rewrite (sign_shift 31 x) by (done || lia).
Qed.

Lemma int_pow2 n x l n' nr :
  ev n = Some x → int x → int_inputs n → 1 <= l <= 30 →
  without_rounding type_of (λ lo, lo >=? 0) AndI_inputs (λ c, i32 (- c)) n (2 ^ l) = (n', nr) →
  ev (RShiftI (if nr then AddI n' (URShiftI (RShiftI n' (ConI (32 - 1))) (ConI (32 - l))) else n') (ConI l)) = Some (Z.quot x (2 ^ l)).
Proof.
  intros Hn Hx Hin Hl Hw. destruct (without_rounding_spec (λ lo, lo >=? 0) AndI_inputs (λ c, i32 (- c)) n x l n' nr)
    as [[-> ->]|[-> (x' & Hx' & Eq)]]; try done; [| | |lia|..].
  - intros lo. apply Z.geb_le.
  - intros a b E. destruct n; try done. by injection E as -> ->.
  - intros a b c E Hc. destruct n; try done. injection E as -> ->. specialize (Hin a b c eq_refl Hc). unfold int in Hin.
    destruct (decide (c = - 2 ^ 31)) as [->|]; [done|]. intros _. apply i32_small. lia.
  - pose proof (ev_sign_int n x Hn Hx) as Hsg. cbn [eval] in Hsg |- *. rewrite Hsg, Hn. cbn [mbind option_bind].
    rewrite !land31, !i32_sw, u32_uw by lia. f_equal. by apply round_shift.
  - cbn [eval]. rewrite Hx'. cbn [mbind option_bind]. by rewrite land31, Eq by lia.
Qed.

Lemma ev_SubI a b x y : ev a = Some x → ev b = Some y → ev (SubI a b) = Some (i32 (x - y)).
Proof. intros Ha Hb. cbn [eval]. by rewrite Ha, Hb. Qed.

Lemma mul_bound x y A B : - A <= x <= A → - B <= y <= B → - (A * B) <= x * y <= A * B.
Proof.
  intros Hx Hy. assert (Z.abs (x * y) <= A * B); [|lia].
  rewrite Z.abs_mul. apply Z.mul_le_mono_nonneg; lia.
Qed.

(** The high half of the product, shifted. *)
Lemma int_mul_hi n x m s :
  ev n = Some x → int x → 0 < m < 2 ^ 32 → 0 <= s <= 30 → - 2 ^ 31 <= x * m / 2 ^ (32 + s) < 2 ^ 31 →
  let M := sw 32 m in
  let mul_hi := MulL (ConvI2L n) (ConL M) in
  ev (if M <? 0 then
        let mul_hi := AddI n (ConvL2I (RShiftL mul_hi (ConI 32))) in
        if negb (s =? 0) then RShiftI mul_hi (ConI s) else mul_hi
      else ConvL2I (RShiftL mul_hi (ConI (32 + s)))) = Some (x * m / 2 ^ (32 + s)).
Proof.
  intros Hn Hx Hm Hs Hr. unfold int in Hx. cbv zeta. rewrite sw_word by lia. change (32 - 1) with 31.
  destruct (Z.ltb_spec m (2 ^ 31)).
  - rewrite (proj2 (Z.ltb_ge m 0)) by lia. cbn [eval]. rewrite Hn. cbn [mbind option_bind fmap option_fmap option_map].
    pose proof (mul_bound x m (2 ^ 31) (2 ^ 31) ltac:(lia) ltac:(lia)).
    rewrite i64_small, land63, Z.shiftr_div_pow2 by lia. by rewrite i32_small.
  - rewrite (proj2 (Z.ltb_lt (m - 2 ^ 32) 0)) by lia. rewrite <- high_product in Hr |- * by lia. cbn zeta.
    assert (ev (AddI n (ConvL2I (RShiftL (MulL (ConvI2L n) (ConL (m - 2 ^ 32))) (ConI 32)))) =
      Some (x * (m - 2 ^ 32) / 2 ^ 32 + x)) as E.
    { cbn [eval]. rewrite Hn. cbn [mbind option_bind fmap option_fmap option_map]. change (32 &&& 63) with 32.
      pose proof (mul_bound x (m - 2 ^ 32) (2 ^ 31) (2 ^ 31) ltac:(lia) ltac:(lia)).
      rewrite i64_small, Z.shiftr_div_pow2 by lia.
      assert (- 2 ^ 30 <= x * (m - 2 ^ 32) / 2 ^ 32 <= 2 ^ 30) by (split; [apply Z.div_le_lower_bound|apply Z.div_le_upper_bound]; lia).
      assert (x * (m - 2 ^ 32) / 2 ^ 32 + x = x * m / 2 ^ 32) as Es.
      { replace (x * (m - 2 ^ 32)) with (x * m + (- x) * 2 ^ 32) by lia. rewrite Z.div_add by lia. lia. }
      assert (- 2 ^ 31 <= x * m / 2 ^ 32 < 2 ^ 31) by (split; [apply Z.div_le_lower_bound|apply Z.div_lt_upper_bound]; nia).
      rewrite (i32_small (x * (m - 2 ^ 32) / 2 ^ 32)) by lia. rewrite i32_small by lia. f_equal. lia. }
    destruct (Z.eqb_spec s 0) as [->|]; cbn [negb].
    + by rewrite Z.pow_0_r, Z.div_1_r.
    + change (ev (RShiftI ?a (ConI s))) with (x' ← ev a; Some (x' >>> (s &&& 31))). rewrite E. cbn [mbind option_bind].
      by rewrite land31, Z.shiftr_div_pow2 by lia.
Qed.

(** The quotient by a positive constant, before the sign of the divisor. *)
Lemma int_divide_spec n x divisor :
  ev n = Some x → int x → int_inputs n → int divisor → divisor ≠ 0 → divisor ≠ 1 → divisor ≠ min_jint →
  ∃ q, transform_int_divide type_of n divisor = Some q ∧ ev q = Some (i32 (Z.quot x divisor)).
Proof.
  intros Hn Hx Hin Hd H0 H1 Hmin. unfold int, min_jint in *. unfold transform_int_divide.
  assert ((if divisor >=? 0 then divisor else i32 (- divisor)) = Z.abs divisor) as ->.
  { destruct (Z.geb_spec divisor 0); [lia|]. rewrite i32_small by lia. lia. }
  set (d := Z.abs divisor). assert (1 <= d < 2 ^ 31) as Hdr by (unfold d; lia).
  assert (Z.quot x divisor = if divisor >=? 0 then Z.quot x d else - Z.quot x d) as Eq.
  { unfold d. destruct (Z.geb_spec divisor 0); [by rewrite Z.abs_eq by lia|].
    rewrite Z.abs_neq by lia. rewrite Z.quot_opp_r by lia. lia. }
  rewrite Eq. destruct (Z.eqb_spec d 1) as [E1|Hn1].
  { destruct (Z.geb_spec divisor 0); [lia|]. cbn [negb]. eexists. split; [done|].
    rewrite E1, Z.quot_1_r. rewrite (ev_SubI _ _ 0 x) by done. do 2 f_equal. }
  pose proof (quot_small x d (2 ^ 31) ltac:(lia) ltac:(lia) ltac:(lia)) as Hq.
  destruct (is_power_of_2 d) eqn:Ep.
  - pose proof (power_of_2_spec d ltac:(lia) Ep) as Ed. set (l := Z.log2 d) in *.
    assert (0 <= l) by apply Z.log2_nonneg. assert (l <= 30) by (apply Z.lt_succ_r, (Z.pow_lt_mono_r_iff 2); lia).
    assert (l ≠ 0) by (intros E0; rewrite E0 in Ed; change (2 ^ 0) with 1 in Ed; lia).
    rewrite (log2_pred d l Ed) by lia. rewrite Ed in Hq |- *.
    destruct (without_rounding _ _ _ _ n (2 ^ l)) as [n' nr] eqn:Ew. eexists. split; [done|].
    pose proof (int_pow2 n x l n' nr Hn Hx Hin ltac:(lia) Ew) as Hsh.
    destruct (Z.geb_spec divisor 0); cbn [negb].
    + destruct nr; rewrite Hsh, i32_small by lia; done.
    + destruct nr; (erewrite ev_SubI; [|done|exact Hsh]); do 2 f_equal.
  - destruct (magic_spec 32 d ltac:(lia) ltac:(lia)) as (m & s & Em & Hm & Hs & Hall).
    unfold magic_int_divide_constants. rewrite Em. cbn [mbind option_bind]. eexists. split; [done|].
    pose proof (Hall x ltac:(lia)) as Hqx. pose proof (ev_sign_int n x Hn Hx) as Hsg.
    pose proof (int_mul_hi n x m s Hn Hx Hm ltac:(lia)) as Hmh. cbv zeta in Hmh.
    specialize (Hmh ltac:(destruct (x <? 0); lia)).
    destruct (Z.geb_spec divisor 0); cbn [negb]; (erewrite ev_SubI; [|eassumption..]); do 2 f_equal; destruct (x <? 0); lia.
Qed.

(** *** Longs *)

Definition long (x : Z) : Prop := - 2 ^ 63 <= x < 2 ^ 63.
Definition long_inputs (n : Node) : Prop := ∀ a b v, n = AndL a b → ev b = Some v → long v.

Lemma ev_SubL a b x y : ev a = Some x → ev b = Some y → ev (SubL a b) = Some (i64 (x - y)).
Proof. intros Ha Hb. cbn [eval]. by rewrite Ha, Hb. Qed.

Lemma ev_sign_long n x : ev n = Some x → long x → ev (RShiftL n (ConI (64 - 1))) = Some (if x <? 0 then -1 else 0).
Proof.
  intros Hn Hx. cbn [eval]. rewrite Hn. cbn [mbind option_bind]. change ((64 - 1) &&& 63) with 63.
  by rewrite (sign_shift 63 x) by (done || lia).
Qed.

Lemma long_pow2 n x l n' nr :
  ev n = Some x → long x → long_inputs n → 1 <= l <= 62 →
  without_rounding type_of (λ lo, lo >? 0) AndL_inputs (λ c, i64 (- c)) n (2 ^ l) = (n', nr) →
  ev (RShiftL (if nr then AddL n' (URShiftL (RShiftL n' (ConI (64 - 1))) (ConI (64 - l))) else n') (ConI l)) = Some (Z.quot x (2 ^ l)).
Proof.
  intros Hn Hx Hin Hl Hw. destruct (without_rounding_spec (λ lo, lo >? 0) AndL_inputs (λ c, i64 (- c)) n x l n' nr)
    as [[-> ->]|[-> (x' & Hx' & Eq)]]; try done; [| | |lia|..].
  - intros lo E. rewrite Z.gtb_ltb in E. apply Z.ltb_lt in E. lia.
  - intros a b E. destruct n; try done. by injection E as -> ->.
  - intros a b c E Hc. destruct n; try done. injection E as -> ->. specialize (Hin a b c eq_refl Hc). unfold long in Hin.
    destruct (decide (c = - 2 ^ 63)) as [->|]; [done|]. intros _. apply i64_small. lia.
  - pose proof (ev_sign_long n x Hn Hx) as Hsg. cbn [eval] in Hsg |- *. rewrite Hsg, Hn. cbn [mbind option_bind].
    rewrite !land63, !i64_sw, u64_uw by lia. f_equal. by apply round_shift.
  - cbn [eval]. rewrite Hx'. cbn [mbind option_bind]. by rewrite land63, Eq by lia.
Qed.

(** Four 32-bit products make the high half of a 64-bit product. *)
Lemma mulhi_parts u v :
  long u → long v →
  let u0 := u mod 2 ^ 32 in let u1 := u / 2 ^ 32 in let v0 := v mod 2 ^ 32 in let v1 := v / 2 ^ 32 in
  let t := u1 * v0 + u0 * v0 / 2 ^ 32 in
  let w1 := u0 * v1 + t mod 2 ^ 32 in
  0 <= u0 * v0 < 2 ^ 64 ∧ long (u1 * v0) ∧ long t ∧ long (u0 * v1) ∧ long w1 ∧ long (u1 * v1) ∧
  long (u1 * v1 + t / 2 ^ 32) ∧ long (u * v / 2 ^ 64) ∧ u1 * v1 + t / 2 ^ 32 + w1 / 2 ^ 32 = u * v / 2 ^ 64.
Proof.
  intros Hu Hv u0 u1 v0 v1 t w1. unfold long in *.
  assert (∀ z, - 2 ^ 63 <= z < 2 ^ 63 → 0 <= z mod 2 ^ 32 < 2 ^ 32 ∧ - 2 ^ 31 <= z / 2 ^ 32 < 2 ^ 31) as Hsplit.
  { intros z Hz. split; [apply Z.mod_pos_bound; lia|]. split; [apply Z.div_le_lower_bound|apply Z.div_lt_upper_bound]; lia. }
  destruct (Hsplit u Hu) as [U0 U1]. destruct (Hsplit v Hv) as [V0 V1]. fold u0 u1 in U0, U1. fold v0 v1 in V0, V1.
  pose proof (Z.div_mod u (2 ^ 32) ltac:(lia)) as EU. pose proof (Z.div_mod v (2 ^ 32) ltac:(lia)) as EV.
  fold u0 u1 in EU. fold v0 v1 in EV.
  assert (0 <= u0 * v0 <= (2 ^ 32 - 1) * (2 ^ 32 - 1)) as P00 by nia.
  assert (0 <= u0 * v0 / 2 ^ 32 < 2 ^ 32 - 1) as Q00 by (split; [apply Z.div_pos; lia|apply Z.div_lt_upper_bound; lia]).
  assert (- 2 ^ 31 * (2 ^ 32 - 1) <= u1 * v0 <= (2 ^ 31 - 1) * (2 ^ 32 - 1)) as P10 by nia.
  assert (- 2 ^ 31 * (2 ^ 32 - 1) <= u0 * v1 <= (2 ^ 31 - 1) * (2 ^ 32 - 1)) as P01 by nia.
  assert (- 2 ^ 62 <= u1 * v1 <= 2 ^ 62) as P11 by nia.
  assert (- 2 ^ 63 <= t < 2 ^ 63) as HT by (unfold t; lia).
  destruct (Hsplit t HT) as [T0 T1]. assert (- 2 ^ 63 <= w1 < 2 ^ 63) as HW by (unfold w1; lia).
  pose proof (Z.div_mod t (2 ^ 32) ltac:(lia)) as ET. pose proof (Z.div_mod (u0 * v0) (2 ^ 32) ltac:(lia)) as E0.
  pose proof (Z.mod_pos_bound (u0 * v0) (2 ^ 32) ltac:(lia)) as B0.
  assert (u1 * v1 + t / 2 ^ 32 + w1 / 2 ^ 32 = u * v / 2 ^ 64) as EQ.
  { assert (u * v = 2 ^ 32 * (2 ^ 32 * (u1 * v1 + t / 2 ^ 32) + w1) + (u0 * v0) mod 2 ^ 32) as Euv by (unfold w1, t in *; nia).
    change (2 ^ 64) with (2 ^ 32 * 2 ^ 32). rewrite <- Z.div_div by lia.
    assert (u * v / 2 ^ 32 = (u1 * v1 + t / 2 ^ 32) * 2 ^ 32 + w1) as -> by (symmetry; apply Z.div_unique with ((u0 * v0) mod 2 ^ 32); lia).
    rewrite Z.add_comm, (Z.add_comm (_ * 2 ^ 32)), Z.div_add by lia. lia. }
  destruct (Hsplit w1 HW) as [_ W1]. rewrite <- EQ. lia.
Qed.

Lemma ev_mulhi n x M : ev n = Some x → long x → long M →
  ev (long_by_long_mulhi has_MulHiL n M) = Some (x * M / 2 ^ 64).
Proof.
  intros Hn Hx HM. pose proof (mulhi_parts x M Hx HM) as (H00 & H10 & Ht & H01 & Hw & H11 & Hs & Hr & E). cbv zeta in *.
  unfold long_by_long_mulhi. destruct has_MulHiL.
  { cbn [eval]. rewrite Hn. cbn [mbind option_bind]. rewrite Z.shiftr_div_pow2 by lia. by rewrite i64_small. }
  unfold long in *. cbn [eval]. rewrite Hn. cbn [mbind option_bind]. change (32 &&& 63) with 32.
  change 0xFFFFFFFF with (Z.ones 32). rewrite !Z.land_ones, !Z.shiftr_div_pow2 by lia.
  rewrite (i64_small (x / 2 ^ 32 * (M mod 2 ^ 32))) by lia.
  assert (u64 (i64 (x mod 2 ^ 32 * (M mod 2 ^ 32))) = x mod 2 ^ 32 * (M mod 2 ^ 32)) as ->.
  { rewrite u64_mod, i64_mod. Z.to_euclidean_division_equations; lia. }
  rewrite (i64_small (x mod 2 ^ 32 * (M mod 2 ^ 32) / 2 ^ 32)) by (split; [assert (0 <= x mod 2 ^ 32 * (M mod 2 ^ 32) / 2 ^ 32) by (apply Z.div_pos; lia); lia|apply Z.div_lt_upper_bound; lia]).
  rewrite (i64_small (x / 2 ^ 32 * (M mod 2 ^ 32) + _)) by lia. rewrite (i64_small (x mod 2 ^ 32 * (M / 2 ^ 32))) by lia.
  rewrite (i64_small (x mod 2 ^ 32 * (M / 2 ^ 32) + _)) by lia. rewrite (i64_small (x / 2 ^ 32 * (M / 2 ^ 32))) by lia.
  rewrite (i64_small (x / 2 ^ 32 * (M / 2 ^ 32) + _)) by lia. rewrite i64_small by lia. by rewrite E.
Qed.

Lemma long_mul_hi n x m s :
  ev n = Some x → long x → 0 < m < 2 ^ 64 → 0 <= s <= 62 →
  let M := sw 64 m in
  let mul_hi := long_by_long_mulhi has_MulHiL n M in
  let mul_hi := if M <? 0 then AddL n mul_hi else mul_hi in
  ev (if negb (s =? 0) then RShiftL mul_hi (ConI s) else mul_hi) = Some (x * m / 2 ^ (64 + s)).
Proof.
  intros Hn Hx Hm Hs. cbv zeta. assert (long (sw 64 m)) as HM.
  { unfold long. rewrite sw_word by lia. change (64 - 1) with 63. destruct (Z.ltb_spec m (2 ^ 63)); lia. }
  pose proof (ev_mulhi n x _ Hn Hx HM) as Hh. unfold long in *. rewrite sw_word in * by lia. change (64 - 1) with 63 in *.
  set (mh := long_by_long_mulhi _ _ _) in *.
  assert (ev (if (if m <? 2 ^ 63 then m else m - 2 ^ 64) <? 0 then AddL n mh else mh) = Some (x * m / 2 ^ 64)) as E.
  { destruct (Z.ltb_spec m (2 ^ 63)).
    - by rewrite (proj2 (Z.ltb_ge m 0)) by lia.
    - rewrite (proj2 (Z.ltb_lt (m - 2 ^ 64) 0)) by lia.
      change (ev (AddL n mh)) with (x' ← ev n; y' ← ev mh; Some (i64 (x' + y'))). rewrite Hn, Hh. cbn [mbind option_bind].
      assert (- 2 ^ 63 <= x * m / 2 ^ 64 < 2 ^ 63) by (split; [apply Z.div_le_lower_bound|apply Z.div_lt_upper_bound]; nia).
      replace (x * (m - 2 ^ 64)) with (x * m + (- x) * 2 ^ 64) by lia. rewrite Z.div_add by lia.
      rewrite i64_small by lia. f_equal. lia. }
  rewrite Z.pow_add_r, <- Z.div_div by lia. destruct (Z.eqb_spec s 0) as [->|]; cbn [negb].
  - by rewrite Z.pow_0_r, Z.div_1_r.
  - change (ev (RShiftL ?a (ConI s))) with (x' ← ev a; Some (x' >>> (s &&& 63))). rewrite E. cbn [mbind option_bind].
    by rewrite land63, Z.shiftr_div_pow2 by lia.
Qed.

Lemma long_divide_spec n x divisor :
  ev n = Some x → long x → long_inputs n → long divisor → divisor ≠ 0 → divisor ≠ 1 → divisor ≠ min_jlong →
  match transform_long_divide type_of has_MulHiL use_asm_for_ldiv_by_con n divisor with
  | Some q => ev q = Some (i64 (Z.quot x divisor))
  | None => use_asm_for_ldiv_by_con (Z.abs divisor) = true
  end.
Proof.
  intros Hn Hx Hin Hd H0 H1 Hmin. unfold long, min_jlong in *. unfold transform_long_divide.
  assert ((if divisor >=? 0 then divisor else i64 (- divisor)) = Z.abs divisor) as ->.
  { destruct (Z.geb_spec divisor 0); [lia|]. rewrite i64_small by lia. lia. }
  set (d := Z.abs divisor). assert (1 <= d < 2 ^ 63) as Hdr by (unfold d; lia).
  assert (Z.quot x divisor = if divisor >=? 0 then Z.quot x d else - Z.quot x d) as ->.
  { unfold d. destruct (Z.geb_spec divisor 0); [by rewrite Z.abs_eq by lia|].
    rewrite Z.abs_neq by lia. rewrite Z.quot_opp_r by lia. lia. }
  destruct (Z.eqb_spec d 1) as [E1|Hn1].
  { destruct (Z.geb_spec divisor 0); [lia|]. cbn [negb].
    rewrite E1, Z.quot_1_r. rewrite (ev_SubL _ _ 0 x) by done. do 2 f_equal. }
  pose proof (quot_small x d (2 ^ 63) ltac:(lia) ltac:(lia) ltac:(lia)) as Hq.
  destruct (is_power_of_2 d) eqn:Ep.
  - pose proof (power_of_2_spec d ltac:(lia) Ep) as Ed. set (l := Z.log2 d) in *.
    assert (0 <= l) by apply Z.log2_nonneg. assert (l <= 62) by (apply Z.lt_succ_r, (Z.pow_lt_mono_r_iff 2); lia).
    assert (l ≠ 0) by (intros E0; rewrite E0 in Ed; change (2 ^ 0) with 1 in Ed; lia).
    rewrite (log2_pred d l Ed) by lia. rewrite Ed in Hq |- *.
    destruct (without_rounding _ _ _ _ n (2 ^ l)) as [n' nr] eqn:Ew.
    pose proof (long_pow2 n x l n' nr Hn Hx Hin ltac:(lia) Ew) as Hsh.
    destruct (Z.geb_spec divisor 0); cbn [negb].
    + destruct nr; rewrite Hsh, i64_small by lia; done.
    + destruct nr; (erewrite ev_SubL; [|done|exact Hsh]); do 2 f_equal.
  - destruct (use_asm_for_ldiv_by_con d) eqn:Ea; cbn [negb]; [done|].
    destruct (magic_spec 64 d ltac:(lia) ltac:(lia)) as (m & s & Em & Hm & Hs & Hall).
    unfold magic_long_divide_constants. rewrite Em. cbn [mbind option_bind].
    pose proof (Hall x ltac:(lia)) as Hqx. pose proof (ev_sign_long n x Hn Hx) as Hsg.
    pose proof (long_mul_hi n x m s Hn Hx Hm ltac:(lia)) as Hmh. cbv zeta in Hmh.
    destruct (Z.geb_spec divisor 0); cbn [negb]; (erewrite ev_SubL; [|eassumption..]); do 2 f_equal; destruct (x <? 0); lia.
Qed.

(** *** Remainders *)

Lemma rem_unique x d r :
  0 < d → (d | x - r) → (0 <= x → 0 <= r < d) → (x < 0 → - d < r <= 0) → r = Z.rem x d.
Proof.
  intros Hd [q Hq] H1 H2. destruct (Z_le_gt_dec 0 x).
  - rewrite Z.rem_mod_nonneg by lia. apply Z.mod_unique with q; lia.
  - rewrite <- (Z.opp_involutive x), Z.rem_opp_l, Z.rem_mod_nonneg by lia.
    assert (- r = - x mod d); [|lia]. apply Z.mod_unique with (- q); lia.
Qed.

(** One turn of the loop for [2^k - 1]: the value stays congruent, and a
    range becomes one narrower by [k] bits. *)
Definition fold_bits (k x : Z) : Z := (x >>> k) + (x &&& Z.ones k).
Definition fold_range (k : Z) (r : Z * Z) : Z * Z := (fst r >>> k, (snd r >>> k) + Z.ones k).
Definition within (r : Z * Z) (x : Z) : Prop := fst r <= x <= snd r.

Lemma fold_bits_spec k r x : 0 < k → within r x →
  (2 ^ k - 1 | x - fold_bits k x) ∧ within (fold_range k r) (fold_bits k x).
Proof.
  intros Hk [H1 H2]. unfold within, fold_range, fold_bits. cbn [fst snd]. rewrite Z.land_ones, !Z.shiftr_div_pow2, Z.ones_equiv by lia.
  assert (0 < 2 ^ k) by (apply Z.pow_pos_nonneg; lia). pose proof (Z.mod_pos_bound x (2 ^ k) ltac:(lia)).
  pose proof (Z.div_mod x (2 ^ k) ltac:(lia)). split; [exists (x / 2 ^ k); lia|].
  pose proof (Z.div_le_mono _ _ (2 ^ k) ltac:(lia) H1). pose proof (Z.div_le_mono _ _ (2 ^ k) ltac:(lia) H2). lia.
Qed.

(** The ranges after [trips] turns, as long as they fit the width. *)
Fixpoint folded_range (lim k : Z) (trips : nat) (r : Z * Z) : option (Z * Z) :=
  match trips with
  | O => Some r
  | S trips =>
      let r := fold_range k r in
      if (- lim <=? fst r) && (snd r <? lim) then folded_range lim k trips r else None
  end.

(** The turns are enough for every word: from the nonnegative ones less than
    two divisors are left, from the negative ones less than one on either
    side of zero. *)
Definition fold_enough (lim k : Z) (trips : nat) : bool :=
  let d := 2 ^ k - 1 in
  match folded_range lim k trips (0, lim - 1), folded_range lim k trips (- lim, -1) with
  | Some (lo1, hi1), Some (lo2, hi2) => (0 <=? lo1) && (hi1 <? 2 * d) && (- d <? lo2) && (hi2 <=? d)
  | _, _ => false
  end.

Lemma int_folds :
  forallb (λ k, negb (trip_count int_unroll_factor k <=? 5) ||
    (fold_enough (2 ^ 31) k (Z.to_nat (trip_count int_unroll_factor k)) && (2 <=? k))) (seqZ 0 31) = true.
Proof. by vm_compute. Qed.

Lemma long_folds :
  forallb (λ k, negb (trip_count long_unroll_factor k <=? 5) ||
    (fold_enough (2 ^ 63) k (Z.to_nat (trip_count long_unroll_factor k)) && (2 <=? k))) (seqZ 0 63) = true.
Proof. by vm_compute. Qed.

Lemma folds_at factors lim n k :
  forallb (λ k, negb (trip_count factors k <=? 5) ||
    (fold_enough lim k (Z.to_nat (trip_count factors k)) && (2 <=? k))) (seqZ 0 n) = true →
  0 <= k < n → (trip_count factors k <=? 5) = true →
  fold_enough lim k (Z.to_nat (trip_count factors k)) = true ∧ 2 <= k.
Proof.
  intros H Hk Ht. rewrite forallb_forall in H. specialize (H k). rewrite <- list_elem_of_In in H.
  specialize (H ltac:(apply elem_of_seqZ; lia)). rewrite Ht in H. cbn [negb orb] in H.
  apply andb_prop in H as [H1 H2]. split; [done|by apply Z.leb_le].
Qed.

(** The sign fixup after the loop. *)
Definition fix_sign (d x y : Z) : Z := if y <? (if x <? 0 then 1 else d) then y else y - d.

Lemma fix_sign_rem lim k trips x y :
  2 <= k → fold_enough lim k trips = true → - lim <= x < lim → (2 ^ k - 1 | x - y) →
  (∀ r r', within r x → folded_range lim k trips r = Some r' → within r' y) →
  fix_sign (2 ^ k - 1) x y = Z.rem x (2 ^ k - 1).
Proof.
  intros Hk Hf Hx Hdiv Hr. assert (4 <= 2 ^ k) by (change 4 with (2 ^ 2); apply Z.pow_le_mono_r; lia).
  unfold fold_enough in Hf. destruct (folded_range lim k trips (0, lim - 1)) as [[lo1 hi1]|] eqn:E1; [|done].
  destruct (folded_range lim k trips (- lim, -1)) as [[lo2 hi2]|] eqn:E2; [|done].
  rewrite !andb_true_iff, !Z.leb_le, !Z.ltb_lt in Hf. unfold within in Hr.
  pose proof (λ H, Hr _ _ H E1) as R1. pose proof (λ H, Hr _ _ H E2) as R2. cbn [fst snd] in R1, R2.
  apply rem_unique; [lia|..]; unfold fix_sign.
  - destruct (_ <? _); [done|]. destruct Hdiv as [q Hq]. exists (q + 1). lia.
  - intros Hp. rewrite (proj2 (Z.ltb_ge x 0)) by lia. specialize (R1 ltac:(lia)). destruct (Z.ltb_spec y (2 ^ k - 1)); lia.
  - intros Hn. rewrite (proj2 (Z.ltb_lt x 0)) by lia. specialize (R2 ltac:(lia)). destruct (Z.ltb_spec y 1); lia.
Qed.

Lemma fold_enough_range lim k trips x :
  fold_enough lim k trips = true → - lim <= x < lim → ∃ r r', within r x ∧ folded_range lim k trips r = Some r'.
Proof.
  intros Hf Hx. unfold fold_enough in Hf. destruct (folded_range lim k trips (0, lim - 1)) as [r1|] eqn:E1; [|done].
  destruct (folded_range lim k trips (- lim, -1)) as [r2|] eqn:E2; [|by destruct r1].
  destruct (Z_lt_ge_dec x 0); [exists (- lim, -1), r2|exists (0, lim - 1), r1]; (split; [|done]); unfold within; cbn; lia.
Qed.

Lemma ev_fold_int trips n dn x k :
  ev n = Some x → ev dn = Some (2 ^ k - 1) → 0 < k < 32 →
  (∃ r r', within r x ∧ folded_range (2 ^ 31) k trips r = Some r') →
  ∃ y, ev (fold_bits_int trips n dn k) = Some y ∧ (2 ^ k - 1 | x - y) ∧
    ∀ r r', within r x → folded_range (2 ^ 31) k trips r = Some r' → within r' y.
Proof.
  intros Hn Hd Hk. revert n x Hn. induction trips as [|trips IH]; intros n x Hn (r & r' & Hr & Hf).
  { exists x. split_and!; [done|exists 0; lia|]. intros r0 r0' H0 [= <-]. done. }
  cbn [fold_bits_int folded_range] in *. destruct (_ && _) eqn:Eb in Hf; [|done].
  rewrite andb_true_iff, Z.leb_le, Z.ltb_lt in Eb. destruct (fold_bits_spec k r x ltac:(lia) Hr) as [D1 W1].
  destruct (IH (AddI (RShiftI n (ConI k)) (AndI n dn)) (fold_bits k x)) as (y & Hy & D2 & W2); [|by eauto|].
  - cbn [eval]. rewrite Hn, Hd. cbn [mbind option_bind]. rewrite land31 by lia.
    replace (2 ^ k - 1) with (Z.ones k) by (rewrite Z.ones_equiv; lia). rewrite i32_small; [done|]. unfold within, fold_bits in *. lia.
  - exists y. split; [done|]. split.
    + replace (x - y) with ((x - fold_bits k x) + (fold_bits k x - y)) by lia. by apply Z.divide_add_r.
    + intros r0 r0' H0 Hf0. destruct (_ && _) in Hf0; [|done]. destruct (fold_bits_spec k r0 x ltac:(lia) H0) as [_ W0]. by eapply W2.
Qed.

Lemma ev_fold_long trips n dn x k :
  ev n = Some x → ev dn = Some (2 ^ k - 1) → 0 < k < 64 →
  (∃ r r', within r x ∧ folded_range (2 ^ 63) k trips r = Some r') →
  ∃ y, ev (fold_bits_long trips n dn k) = Some y ∧ (2 ^ k - 1 | x - y) ∧
    ∀ r r', within r x → folded_range (2 ^ 63) k trips r = Some r' → within r' y.
Proof.
  intros Hn Hd Hk. revert n x Hn. induction trips as [|trips IH]; intros n x Hn (r & r' & Hr & Hf).
  { exists x. split_and!; [done|exists 0; lia|]. intros r0 r0' H0 [= <-]. done. }
  cbn [fold_bits_long folded_range] in *. destruct (_ && _) eqn:Eb in Hf; [|done].
  rewrite andb_true_iff, Z.leb_le, Z.ltb_lt in Eb. destruct (fold_bits_spec k r x ltac:(lia) Hr) as [D1 W1].
  destruct (IH (AddL (RShiftL n (ConI k)) (AndL n dn)) (fold_bits k x)) as (y & Hy & D2 & W2); [|by eauto|].
  - cbn [eval]. rewrite Hn, Hd. cbn [mbind option_bind]. rewrite land63 by lia.
    replace (2 ^ k - 1) with (Z.ones k) by (rewrite Z.ones_equiv; lia). rewrite i64_small; [done|]. unfold within, fold_bits in *. lia.
  - exists y. split; [done|]. split.
    + replace (x - y) with ((x - fold_bits k x) + (fold_bits k x - y)) by lia. by apply Z.divide_add_r.
    + intros r0 r0' H0 Hf0. destruct (_ && _) in Hf0; [|done]. destruct (fold_bits_spec k r0 x ltac:(lia) H0) as [_ W0]. by eapply W2.
Qed.

(** The conditional moves. *)
Lemma ev_cmove_ge c f t a b x y :
  ev c = Some (compare a b) → ev f = Some x → ev t = Some y → ev (CMove (Bool c ge) f t) = Some (if a <? b then x else y).
Proof.
  intros Hc Hf Ht. cbn [eval]. rewrite Hc, Hf, Ht. cbn [mbind option_bind]. unfold compare, test_holds.
  destruct (a <? b); [done|]. by destruct (a =? b).
Qed.

Lemma ev_CmpI a b x y : ev a = Some x → ev b = Some y → ev (CmpI a b) = Some (compare x y).
Proof. intros Ha Hb. cbn [eval]. by rewrite Ha, Hb. Qed.
Lemma ev_CmpL a b x y : ev a = Some x → ev b = Some y → ev (CmpL a b) = Some (compare x y).
Proof. intros Ha Hb. cbn [eval]. by rewrite Ha, Hb. Qed.

(** [2^k - 1] as a divisor. *)
Lemma mersenne con : 0 <= con < 2 ^ 63 - 1 → is_power_of_2 (con + 1) = true →
  let k := log2_intptr (con + 1) in 0 <= k < 63 ∧ con = 2 ^ k - 1.
Proof.
  intros Hc Hp. cbv zeta. rewrite log2_intptr_log2 by lia. pose proof (power_of_2_spec (con + 1) ltac:(lia) Hp).
  split; [|lia]. split; [apply Z.log2_nonneg|]. apply (Z.pow_lt_mono_r_iff 2); lia.
Qed.

(** The remainder from the quotient, with the product computed as a word. *)
Lemma rem_from_quot N x con : 1 < N → - 2 ^ (N - 1) <= x < 2 ^ (N - 1) → con ≠ 0 →
  sw N (x - sw N (Z.quot x (Z.abs con) * Z.abs con)) = Z.rem x con.
Proof.
  intros HN Hx Hc. assert (Z.rem x con = Z.rem x (Z.abs con)) as ->.
  { destruct (Z_le_gt_dec 0 con); [by rewrite Z.abs_eq|]. by rewrite Z.abs_neq, Z.rem_opp_r by lia. }
  pose proof (Z.quot_rem x (Z.abs con) ltac:(lia)) as E. assert (- 2 ^ (N - 1) <= Z.rem x (Z.abs con) < 2 ^ (N - 1)) as Hr.
  { pose proof (Z.rem_bound_abs x (Z.abs con) ltac:(lia)). destruct (Z_le_gt_dec 0 x).
    - pose proof (Z.rem_bound_pos x (Z.abs con) ltac:(lia) ltac:(lia)). pose proof (Z.rem_le x (Z.abs con) ltac:(lia) ltac:(lia)). lia.
    - pose proof (Z.rem_opp_l x (Z.abs con) ltac:(lia)). pose proof (Z.rem_le (- x) (Z.abs con) ltac:(lia) ltac:(lia)).
      pose proof (Z.rem_nonneg (- x) (Z.abs con) ltac:(lia) ltac:(lia)). lia. }
  rewrite <- (sw_small N (Z.rem x (Z.abs con))) by lia. unfold sw. f_equal.
  replace (Z.rem x (Z.abs con)) with (x - Z.quot x (Z.abs con) * Z.abs con) by lia.
  set (p := Z.quot x (Z.abs con) * Z.abs con). assert (0 < 2 ^ N) by (apply Z.pow_pos_nonneg; lia).
  replace (x - ((p + 2 ^ (N - 1)) mod 2 ^ N - 2 ^ (N - 1)) + 2 ^ (N - 1)) with
    (x - (p + 2 ^ (N - 1)) mod 2 ^ N + 2 ^ (N - 1) + 2 ^ (N - 1)) by lia.
  rewrite (Z.mod_eq (p + 2 ^ (N - 1)) (2 ^ N)) by lia.
  replace (x - (p + 2 ^ (N - 1) - 2 ^ N * ((p + 2 ^ (N - 1)) / 2 ^ N)) + 2 ^ (N - 1) + 2 ^ (N - 1)) with
    (x - p + 2 ^ (N - 1) + (p + 2 ^ (N - 1)) / 2 ^ N * 2 ^ N) by lia. apply Z.mod_add. lia.
Qed.

Lemma rem_mask x l con : 0 <= x → 0 <= l → Z.abs con = 2 ^ l → x &&& (2 ^ l - 1) = Z.rem x con.
Proof.
  intros Hx Hl Hc. replace (2 ^ l - 1) with (Z.ones l) by (rewrite Z.ones_equiv; lia).
  assert (0 < 2 ^ l) by (apply Z.pow_pos_nonneg; lia).
  rewrite Z.land_ones, <- Z.rem_mod_nonneg, <- Hc by lia. destruct (Z_le_gt_dec 0 con); [by rewrite Z.abs_eq|].
  by rewrite Z.abs_neq, Z.rem_opp_r by lia.
Qed.

(** The remainder by [2^k - 1]. *)
Lemma int_mod_mersenne n dn x con k :
  ev n = Some x → int x → ev dn = Some con → con = 2 ^ k - 1 → 0 <= k < 31 →
  (trip_count int_unroll_factor k <=? 5) = true →
  let y := fold_bits_int (Z.to_nat (trip_count int_unroll_factor k)) n dn k in
  ev (CMove (Bool (CmpI y (CMove (Bool (CmpI n (ConI 0)) ge) (ConI 1) dn)) ge) y (SubI y dn)) = Some (Z.rem x con).
Proof.
  intros Hn Hx Hdn Ek Hk Htr. cbv zeta. destruct (folds_at _ _ _ k int_folds ltac:(lia) Htr) as [Hf Hk2].
  destruct (ev_fold_int (Z.to_nat (trip_count int_unroll_factor k)) n dn x k) as (y & Hy & Hd & Hw); [done|by rewrite <- Ek|lia| |].
  { by apply fold_enough_range. }
  erewrite ev_cmove_ge; [|eapply ev_CmpI; [exact Hy|]|exact Hy|eapply ev_SubI; [exact Hy|exact Hdn]].
  2: { eapply (ev_cmove_ge _ _ _ x 0 1 con); [by apply ev_CmpI|done|done]. }
  f_equal. pose proof (fix_sign_rem _ k _ x y Hk2 Hf Hx Hd Hw) as E. rewrite <- Ek in E. unfold fix_sign in E.
  destruct (y <? _); [done|]. rewrite E. assert (4 <= 2 ^ k) by (change 4 with (2 ^ 2); apply Z.pow_le_mono_r; lia).
  assert (2 ^ k <= 2 ^ 31) by (apply Z.pow_le_mono_r; lia).
  pose proof (Z.rem_bound_abs x con ltac:(lia)). apply i32_small. lia.
Qed.

(** The remainder from the quotient. *)
Lemma int_mod_multiply n q x con :
  ev n = Some x → int x → int con → con ≠ 0 → 2 <= Z.abs con → ev q = Some (i32 (Z.quot x (Z.abs con))) → Z.abs con < 2 ^ 31 →
  ev (SubI n (if is_power_of_2 (Z.abs con) then LShiftI q (ConI (log2_intptr (Z.abs con))) else MulI q (ConI (Z.abs con)))) =
    Some (Z.rem x con).
Proof.
  intros Hn Hx Hc H0 H2 Hq Hlt. unfold int in *.
  pose proof (quot_small x (Z.abs con) (2 ^ 31) ltac:(lia) ltac:(lia) ltac:(lia)). rewrite i32_small in Hq by lia.
  rewrite (ev_SubI _ _ x (i32 (Z.quot x (Z.abs con) * Z.abs con)) Hn).
  { rewrite !i32_sw. f_equal. by apply rem_from_quot. }
  destruct (is_power_of_2 (Z.abs con)) eqn:Ep; cbn [eval]; rewrite Hq; cbn [mbind option_bind]; [|done].
  pose proof (power_of_2_spec (Z.abs con) ltac:(lia) Ep) as E. rewrite log2_intptr_log2 by lia.
  assert (0 <= Z.log2 (Z.abs con) < 32) by (split; [apply Z.log2_nonneg|apply Z.log2_lt_pow2; lia]).
  rewrite land31, Z.shiftl_mul_pow2, <- E by lia. done.
Qed.

Lemma int_mod_spec n dn x con :
  ev n = Some x → int x → int_inputs n → ev dn = Some con → int con →
  get_con (type_of dn) = Some con → con ≠ 0 → con ≠ min_jint →
  ∃ q, ModINode_Ideal type_of ConditionalMoveLimit n dn = Some q ∧ ev q = Some (Z.rem x con).
Proof.
  intros Hn Hx Hin Hdn Hc Hg H0 Hmin. unfold ModINode_Ideal. rewrite Hg. cbn [mbind option_bind]. unfold int, min_jint, max_jint in *.
  destruct ((con >=? 0) && (con <? 2 ^ 31 - 1) && is_power_of_2 (con + 1) && _ && _) eqn:Ec.
  - rewrite !andb_true_iff, Z.geb_le, Z.ltb_lt in Ec. destruct Ec as [[[[Hp Hlt] Hpow] Htr] _].
    destruct (mersenne con ltac:(lia) Hpow) as [Hk Ek]. eexists. split; [done|].
    apply int_mod_mersenne; try done. split; [lia|]. apply (Z.pow_lt_mono_r_iff 2); lia.
  - rewrite (proj2 (Z.eqb_neq con 0)), (proj2 (Z.eqb_neq con (- 2 ^ 31))) by lia. cbn [orb].
    assert ((if con >=? 0 then con else i32 (- con)) = Z.abs con) as ->.
    { destruct (Z.geb_spec con 0); [lia|]. rewrite i32_small by lia. lia. }
    destruct (Z.eqb_spec (Z.abs con) 1) as [E1|Hn1].
    { eexists. split; [done|]. cbn [eval]. f_equal. assert (con = 1 ∨ con = -1) as [-> | ->] by lia; [by rewrite Z.rem_1_r|].
      change (-1) with (- (1)). by rewrite Z.rem_opp_r, Z.rem_1_r by lia. }
    destruct (is_power_of_2 (Z.abs con) && _) eqn:Em.
    { apply andb_prop in Em as [Ep El]. eexists. split; [done|]. cbn [eval]. rewrite Hn. cbn [mbind option_bind]. f_equal.
      destruct (type_of n) as [[lo hi]|] eqn:Et; [|done]. apply Z.geb_le in El. pose proof (types_sound _ _ _ _ Et Hn).
      pose proof (power_of_2_spec (Z.abs con) ltac:(lia) Ep) as E. rewrite E at 1.
      apply rem_mask; [lia|apply Z.log2_nonneg|done]. }
    clear Em. destruct (int_divide_spec n x (Z.abs con)) as (q & Eq & Hq); try done; [unfold int; lia|lia|unfold min_jint; lia|].
    rewrite Eq. cbn [mbind option_bind]. eexists. split; [done|]. apply int_mod_multiply; try done; unfold int; lia.
Qed.

(** The remainder by [2^k - 1]. *)
Lemma long_mod_mersenne n dn x con k :
  ev n = Some x → long x → ev dn = Some con → con = 2 ^ k - 1 → 0 <= k < 63 →
  (trip_count long_unroll_factor k <=? 5) = true →
  let y := fold_bits_long (Z.to_nat (trip_count long_unroll_factor k)) n dn k in
  ev (CMove (Bool (CmpL y (CMove (Bool (CmpL n (ConL 0)) ge) (ConL 1) dn)) ge) y (SubL y dn)) = Some (Z.rem x con).
Proof.
  intros Hn Hx Hdn Ek Hk Htr. cbv zeta. destruct (folds_at _ _ _ k long_folds ltac:(lia) Htr) as [Hf Hk2].
  destruct (ev_fold_long (Z.to_nat (trip_count long_unroll_factor k)) n dn x k) as (y & Hy & Hd & Hw); [done|by rewrite <- Ek|lia| |].
  { by apply fold_enough_range. }
  erewrite ev_cmove_ge; [|eapply ev_CmpL; [exact Hy|]|exact Hy|eapply ev_SubL; [exact Hy|exact Hdn]].
  2: { eapply (ev_cmove_ge _ _ _ x 0 1 con); [by apply ev_CmpL|done|done]. }
  f_equal. pose proof (fix_sign_rem _ k _ x y Hk2 Hf Hx Hd Hw) as E. rewrite <- Ek in E. unfold fix_sign in E.
  destruct (y <? _); [done|]. rewrite E. assert (4 <= 2 ^ k) by (change 4 with (2 ^ 2); apply Z.pow_le_mono_r; lia).
  assert (2 ^ k <= 2 ^ 63) by (apply Z.pow_le_mono_r; lia).
  pose proof (Z.rem_bound_abs x con ltac:(lia)). apply i64_small. lia.
Qed.

(** The remainder from the quotient. *)
Lemma long_mod_multiply n q x con :
  ev n = Some x → long x → long con → con ≠ 0 → 2 <= Z.abs con → ev q = Some (i64 (Z.quot x (Z.abs con))) → Z.abs con < 2 ^ 63 →
  ev (SubL n (if is_power_of_2 (Z.abs con) then LShiftL q (ConI (log2_intptr (Z.abs con))) else MulL q (ConL (Z.abs con)))) =
    Some (Z.rem x con).
Proof.
  intros Hn Hx Hc H0 H2 Hq Hlt. unfold long in *.
  pose proof (quot_small x (Z.abs con) (2 ^ 63) ltac:(lia) ltac:(lia) ltac:(lia)). rewrite i64_small in Hq by lia.
  rewrite (ev_SubL _ _ x (i64 (Z.quot x (Z.abs con) * Z.abs con)) Hn).
  { rewrite !i64_sw. f_equal. by apply rem_from_quot. }
  destruct (is_power_of_2 (Z.abs con)) eqn:Ep; cbn [eval]; rewrite Hq; cbn [mbind option_bind]; [|done].
  pose proof (power_of_2_spec (Z.abs con) ltac:(lia) Ep) as E. rewrite log2_intptr_log2 by lia.
  assert (0 <= Z.log2 (Z.abs con) < 64) by (split; [apply Z.log2_nonneg|apply Z.log2_lt_pow2; lia]).
  rewrite land63, Z.shiftl_mul_pow2, <- E by lia. done.
Qed.

Lemma long_mod_spec n dn x con :
  ev n = Some x → long x → long_inputs n → ev dn = Some con → long con →
  get_con (type_of dn) = Some con → con ≠ 0 → con ≠ min_jlong →
  match ModLNode_Ideal type_of has_MulHiL use_asm_for_ldiv_by_con ConditionalMoveLimit n dn with
  | Some q => ev q = Some (Z.rem x con)
  | None => use_asm_for_ldiv_by_con (Z.abs con) = true
  end.
Proof.
  intros Hn Hx Hin Hdn Hc Hg H0 Hmin. unfold ModLNode_Ideal. rewrite Hg. cbn [mbind option_bind]. unfold long, min_jlong, max_jlong in *.
  destruct ((con >=? 0) && (con <? 2 ^ 63 - 1) && is_power_of_2 (con + 1) && _ && _) eqn:Ec.
  - rewrite !andb_true_iff, Z.geb_le, Z.ltb_lt in Ec. destruct Ec as [[[[Hp Hlt] Hpow] Htr] _].
    destruct (mersenne con ltac:(lia) Hpow) as [Hk Ek].
    by apply long_mod_mersenne.
  - rewrite (proj2 (Z.eqb_neq con 0)), (proj2 (Z.eqb_neq con (- 2 ^ 63))) by lia. cbn [orb].
    assert ((if con >=? 0 then con else i64 (- con)) = Z.abs con) as ->.
    { destruct (Z.geb_spec con 0); [lia|]. rewrite i64_small by lia. lia. }
    destruct (Z.eqb_spec (Z.abs con) 1) as [E1|Hn1].
    { cbn [eval]. f_equal. assert (con = 1 ∨ con = -1) as [-> | ->] by lia; [by rewrite Z.rem_1_r|].
      change (-1) with (- (1)). by rewrite Z.rem_opp_r, Z.rem_1_r by lia. }
    destruct (is_power_of_2 (Z.abs con) && _) eqn:Em.
    { apply andb_prop in Em as [Ep El]. cbn [eval]. rewrite Hn. cbn [mbind option_bind]. f_equal.
      destruct (type_of n) as [[lo hi]|] eqn:Et; [|done]. apply Z.geb_le in El. pose proof (types_sound _ _ _ _ Et Hn).
      pose proof (power_of_2_spec (Z.abs con) ltac:(lia) Ep) as E. rewrite E at 1.
      apply rem_mask; [lia|apply Z.log2_nonneg|done]. }
    clear Em. pose proof (long_divide_spec n x (Z.abs con)) as Hdiv. rewrite Z.abs_involutive in Hdiv.
    destruct (transform_long_divide _ _ _ n (Z.abs con)) as [q|]; cbn [mbind option_bind];
      (specialize (Hdiv Hn Hx Hin); unfold long, min_jlong in Hdiv; specialize (Hdiv ltac:(lia) ltac:(lia) ltac:(lia) ltac:(lia))); [|done].
    apply long_mod_multiply; try done; unfold long; lia.
Qed.

(** C16: An int division or remainder by a constant is replaced by nodes that
    compute the same value: for every dividend and every constant divisor but
    0, 1 and the least int, [DivINode::Ideal] finds a replacement and its
    value is the Java quotient (rounded towards zero, and wrapping for the
    least int by -1); for every divisor but 0 and the least int,
    [ModINode::Ideal] finds one and its value is the Java remainder.  This
    covers the multipliers found by the search loop, which always ends, the
    shifts with and without rounding, and the folding loop for [2^k - 1]. *)
Theorem int_division_by_constant n dn x con :
  ev n = Some x → int x → int_inputs n → ev dn = Some con → int con → get_con (type_of dn) = Some con →
  con ≠ 0 → con ≠ min_jint →
  (con ≠ 1 → ∃ q, DivINode_Ideal type_of n dn = Some q ∧ ev q = Some (i32 (Z.quot x con))) ∧
  (∃ q, ModINode_Ideal type_of ConditionalMoveLimit n dn = Some q ∧ ev q = Some (Z.rem x con)).
Proof.
  intros Hn Hx Hin Hdn Hc Hg H0 Hmin. split; [intros H1|by apply int_mod_spec].
  unfold DivINode_Ideal. rewrite Hg. cbn [mbind option_bind].
  rewrite (proj2 (Z.eqb_neq con 1)), (proj2 (Z.eqb_neq con 0)), (proj2 (Z.eqb_neq con min_jint)) by done.
  by apply int_divide_spec.
Qed.

(** C39: The same for longs: where [DivLNode::Ideal] or [ModLNode::Ideal]
    replace a division or remainder by a constant, the value of the new nodes
    is the Java quotient or remainder, whether the processor multiplies to
    128 bits or the high half is put together from 32-bit products; they
    replace every one unless the processor asks for its own instruction. *)
Theorem long_division_by_constant n dn x con :
  ev n = Some x → long x → long_inputs n → ev dn = Some con → long con → get_con (type_of dn) = Some con →
  con ≠ 0 → con ≠ min_jlong →
  (con ≠ 1 →
   match DivLNode_Ideal type_of has_MulHiL use_asm_for_ldiv_by_con n dn with
   | Some q => ev q = Some (i64 (Z.quot x con))
   | None => use_asm_for_ldiv_by_con (Z.abs con) = true
   end) ∧
  match ModLNode_Ideal type_of has_MulHiL use_asm_for_ldiv_by_con ConditionalMoveLimit n dn with
  | Some q => ev q = Some (Z.rem x con)
  | None => use_asm_for_ldiv_by_con (Z.abs con) = true
  end.
Proof.
  intros Hn Hx Hin Hdn Hc Hg H0 Hmin. split; [intros H1|by apply long_mod_spec].
  unfold DivLNode_Ideal. rewrite Hg. cbn [mbind option_bind].
  rewrite (proj2 (Z.eqb_neq con 1)), (proj2 (Z.eqb_neq con 0)), (proj2 (Z.eqb_neq con min_jlong)) by done.
  by apply long_divide_spec.
Qed.

End eval.

(** ** Types of results *)

Definition has_type (t : Type_) (v : Z) : Prop :=
  match t with TOP => False | Range lo hi => lo <= v <= hi | BOTTOM => True end.

Lemma quot_mono d a b : 0 < d → a <= b → Z.quot a d <= Z.quot b d.
Proof. intros. by apply Z.quot_le_mono. Qed.
Lemma quot_anti d a b : d < 0 → a <= b → Z.quot b d <= Z.quot a d.
Proof.
  intros Hd Hab. rewrite <- (Z.opp_involutive d), !(Z.quot_opp_r _ (- d)) by lia.
  pose proof (quot_mono (- d) a b ltac:(lia) Hab). lia.
Qed.

Lemma quot_abs a b : b ≠ 0 → Z.abs (Z.quot a b) <= Z.abs a ∧ (2 <= Z.abs b → 2 * Z.abs (Z.quot a b) <= Z.abs a).
Proof.
  intros Hb. rewrite <- Z.quot_abs by done. pose proof (Z.abs_nonneg a). assert (1 <= Z.abs b) by lia.
  rewrite Z.quot_div_nonneg by lia. split.
  - apply Z.div_le_upper_bound; nia.
  - intros H2. pose proof (Z.mul_div_le (Z.abs a) (Z.abs b) ltac:(lia)). assert (0 <= Z.abs a / Z.abs b) by (apply Z.div_pos; lia). nia.
Qed.

Section types.
Variables N : Z.
Hypothesis HN : 2 <= N.
#[local] Notation B := (2 ^ (N - 1)).

Lemma wrapped_quot a b : - B <= a < B → b ≠ 0 → sw N (Z.quot a b) = if (a =? - B) && (b =? -1) then - B else Z.quot a b.
Proof.
  intros Ha Hb. assert (2 ^ N = 2 * B) by (rewrite <- Z.pow_succ_r by lia; f_equal; lia).
  destruct (quot_abs a b Hb) as [H1 H2]. destruct (Z.eqb_spec a (- B)) as [->|]; cbn [andb].
  - destruct (Z.eqb_spec b (-1)) as [->|]; cbn [andb].
    + replace (Z.quot (- B) (-1)) with B by (change (-1) with (- (1)); rewrite Z.quot_opp_opp, Z.quot_1_r by lia; lia).
      unfold sw. replace (B + B) with (0 + 1 * 2 ^ N) by lia. rewrite Z.mod_add, Z.mod_0_l by lia. lia.
    + apply sw_small; [lia|]. destruct (decide (b = 1)) as [->|]; [rewrite Z.quot_1_r; lia|]. specialize (H2 ltac:(lia)). lia.
  - apply sw_small; lia.
Qed.

(** The bounds of a type are words. *)
Definition word_type (t : Type_) : Prop := match t with Range lo hi => - B <= lo ∧ hi < B | _ => True end.

Lemma div_value t1 t2 same a b :
  word_type t1 → has_type t1 a → has_type t2 b → - B <= a < B → - B <= b < B → b ≠ 0 → (same = true → a = b) →
  has_type (Div_Value (- B) (B - 1) t1 t2 same) (sw N (Z.quot a b)).
Proof.
  intros Hw H1 H2 Ha Hb Hb0 Hs. assert (2 <= B) by (change 2 with (2 ^ 1) at 1; apply Z.pow_le_mono_r; lia).
  assert (- B <= sw N (Z.quot a b) <= B - 1) as Hfull.
  { unfold sw. assert (2 ^ N = 2 * B) by (rewrite <- Z.pow_succ_r by lia; f_equal; lia).
    pose proof (Z.mod_pos_bound (Z.quot a b + B) (2 ^ N) ltac:(lia)). lia. }
  assert (same = true → sw N (Z.quot a b) = 1) as Hsame.
  { intros E. rewrite (Hs E), Z.quot_same by done. apply sw_small; lia. }
  unfold Div_Value. destruct t1 as [|lo1 hi1|], t2 as [|lo2 hi2|]; try done; (destruct same; [cbn; rewrite Hsame by done; lia|]);
    cbn [is_bot orb]; rewrite ?orb_true_r; try (cbn; lia).
  destruct (_ || _); [cbn; lia|]. cbn [has_type word_type] in H1, H2, Hw. rewrite (wrapped_quot a b Ha Hb0) in *. clear Hsame.
  destruct (Z.eqb_spec lo2 hi2) as [<-|]; cbn [andb].
  - destruct (Z.eqb_spec lo2 0) as [->|]; cbn [negb]; [lia|]. assert (lo2 = b) as -> by lia.
    destruct (Z.geb_spec b 0).
    + rewrite (proj2 (Z.eqb_neq b (-1))), andb_false_r by lia. cbn [has_type]. split; apply quot_mono; lia.
    + destruct (Z.eqb_spec b (-1)) as [->|]; cbn [andb]; rewrite ?andb_true_r, ?andb_false_r in *.
      * destruct (Z.eqb_spec lo1 (- B)) as [->|].
        -- cbn [has_type]. destruct (Z.eqb_spec a (- B)), (Z.eqb_spec hi1 (- B)); lia.
        -- rewrite (proj2 (Z.eqb_neq a (- B))) by lia. split; apply quot_anti; lia.
      * cbn [has_type]. split; apply quot_anti; lia.
  - destruct (Z.eqb_spec lo1 hi1) as [<-|]; [|cbn; lia]. assert (lo1 = a) as -> by lia.
    destruct (quot_abs a b Hb0) as [Q1 Q2]. destruct (Z.ltb_spec a 0).
    + destruct (Z.eqb_spec a (- B)) as [->|]; cbn [andb has_type]; [|lia].
      destruct (Z.eqb_spec b (-1)) as [->|]; [assert (0 <= Z.quot (B - 1) 2) by (apply Z.quot_pos; lia); lia|].
      assert (B = 2 * 2 ^ (N - 2)) by (rewrite <- Z.pow_succ_r by lia; f_equal; lia).
      assert (Z.quot (B - 1) 2 + 1 = 2 ^ (N - 2)) as ->.
      { rewrite Z.quot_div_nonneg by lia. assert ((B - 1) / 2 = 2 ^ (N - 2) - 1); [|lia]. symmetry. apply Z.div_unique with 1; lia. }
      destruct (decide (b = 1)) as [->|]; [rewrite Z.quot_1_r; lia|]. specialize (Q2 ltac:(lia)). lia.
    + rewrite (proj2 (Z.eqb_neq a (- B))) by lia. cbn [andb has_type]. lia.
Qed.

Lemma mod_value t1 t2 same a b :
  has_type t1 a → has_type t2 b → - B <= a < B → - B <= b < B → b ≠ 0 → (same = true → a = b) →
  has_type (Mod_Value (- B) (B - 1) t1 t2 same) (Z.rem a b).
Proof.
  intros H1 H2 Ha Hb Hb0 Hs. assert (2 <= B) by (change 2 with (2 ^ 1) at 1; apply Z.pow_le_mono_r; lia).
  assert (Z.abs (Z.rem a b) <= Z.abs a) as Habs.
  { rewrite <- Z.rem_abs by done. apply Z.rem_le; lia. }
  assert (- B <= Z.rem a b <= B - 1) as Hfull.
  { pose proof (Z.rem_bound_abs a b Hb0). lia. }
  assert (same = true → Z.rem a b = 0) as Hsame by (intros E; by rewrite (Hs E), Z.rem_same).
  assert (0 <= a → 0 <= b → 0 <= Z.rem a b) as Hpos by (intros; apply Z.rem_nonneg; lia).
  assert (a = 0 → Z.rem a b = 0) as Hzero by (intros ->; by apply Z.rem_0_l).
  unfold Mod_Value. destruct t1 as [|lo1 hi1|], t2 as [|lo2 hi2|]; try done; cbn [has_type is_bot] in *;
    rewrite ?orb_true_r; cbn [orb].
  all: try (destruct same; [cbn; rewrite Hsame by done; lia|cbn; lia]).
  all: assert (∀ t, (lo1 = 0 → hi1 = 0 → has_type (Range 0 0) (Z.rem a b)) → has_type t (Z.rem a b) →
    has_type (match lo1, hi1 with 0, 0 => Range 0 0 | _, _ => t end) (Z.rem a b)) as Hsel
    by (intros t Hz Ht; destruct lo1, hi1; try done; by apply Hz).
  all: apply Hsel; [intros -> ->; cbn; rewrite Hzero; lia|].
  - destruct same; [cbn; rewrite Hsame by done; lia|]. destruct (_ || _); [cbn; lia|].
    destruct (negb (lo1 =? hi1) || negb (lo2 =? hi2)) eqn:Ec.
    + destruct ((lo1 >=? 0) && (lo2 >=? 0)) eqn:Ep; [|cbn; lia].
      rewrite andb_true_iff, !Z.geb_le in Ep. cbn. specialize (Hpos ltac:(lia) ltac:(lia)). lia.
    + rewrite orb_false_iff, !negb_false_iff, !Z.eqb_eq in Ec. destruct Ec as [<- <-].
      assert (lo1 = a) as -> by lia. assert (lo2 = b) as -> by lia. rewrite (proj2 (Z.eqb_neq b 0)) by done.
      destruct ((a =? - B) && (b =? -1)) eqn:Em; [|cbn; lia]. rewrite andb_true_iff, !Z.eqb_eq in Em.
      destruct Em as [_ ->]. cbn. change (-1) with (- (1)). rewrite Z.rem_opp_r, Z.rem_1_r by lia. lia.
  - destruct same; [cbn; rewrite Hsame by done; lia|cbn; lia].
Qed.

End types.

(** The types that [Value] computes for quotients and remainders hold:
    for all ints and longs of the types of the operands, the divisor not
    zero, the Java quotient and the Java remainder are in the computed type;
    also for the least number divided by -1. *)
Theorem division_types t1 t2 same a b :
  has_type t1 a → has_type t2 b → b ≠ 0 → (same = true → a = b) →
  (int a → int b → word_type 32 t1 →
   has_type (DivINode_Value t1 t2 same) (i32 (Z.quot a b)) ∧ has_type (ModINode_Value t1 t2 same) (Z.rem a b)) ∧
  (long a → long b → word_type 64 t1 →
   has_type (DivLNode_Value t1 t2 same) (i64 (Z.quot a b)) ∧ has_type (ModLNode_Value t1 t2 same) (Z.rem a b)).
Proof.
  intros H1 H2 Hb Hs. rewrite i32_sw, i64_sw.
  split; intros Ha Hb' Hw; split; (apply (div_value 32) || apply (mod_value 32) || apply (div_value 64) || apply (mod_value 64)); done || lia.
Qed.

End DivNodeFacts.

Module DivNodeDemo.
Import DivMagic DivNode DivNodeFacts.

#[local] Existing Instance JavaHeapFacts.demo_config.

Definition con_types (n : Node) : option (Z * Z) :=
  match n with ConI c | ConL c => Some (c, c) | _ => None end.

Lemma con_types_sound parms n lo hi v :
  con_types n = Some (lo, hi) → eval 0 parms ∅ n = Some v → lo <= v <= hi.
Proof. destruct n; try done; cbn; intros [= <- <-] [= <-]; lia. Qed.

Lemma int_division_by_constant_witness :
  (∃ q, DivINode_Ideal con_types (Parm 0) (ConI 7) = Some q ∧ eval 0 (λ _, -1000000007) ∅ q = Some (-142857143)) ∧
  (∃ q, ModINode_Ideal con_types 3 (Parm 0) (ConI 7) = Some q ∧ eval 0 (λ _, -1000000007) ∅ q = Some (-6)).
Proof.
  destruct (int_division_by_constant 0 (λ _, -1000000007) ∅ con_types 3 (con_types_sound _) (Parm 0) (ConI 7) (-1000000007) 7)
    as [H1 H2]; try done.
  split; [exact (H1 ltac:(done))|exact H2].
Defined.

Lemma long_division_by_constant_witness :
  match DivLNode_Ideal con_types false (λ _, false) (Parm 0) (ConL (-1000003)) with
  | Some q => eval 0 (λ _, 2 ^ 62) ∅ q = Some (i64 (Z.quot (2 ^ 62) (-1000003)))
  | None => false = true
  end.
Proof.
  assert (long_inputs 0 (λ _, 2 ^ 62) ∅ (Parm 0)) as Hin by (intros a b v; discriminate).
  assert (long (2 ^ 62) ∧ long (-1000003)) as [Hx Hc] by (unfold long; lia).
  destruct (long_division_by_constant 0 (λ _, 2 ^ 62) ∅ con_types false (λ _, false) 3 (con_types_sound _) (Parm 0)
    (ConL (-1000003)) (2 ^ 62) (-1000003) eq_refl Hx Hin eq_refl Hc eq_refl ltac:(lia) ltac:(unfold min_jlong; lia)) as [H1 _].
  exact (H1 ltac:(lia)).
Defined.

Lemma division_types_witness :
  has_type (DivINode_Value (Range (- 2 ^ 31) 5) (Range (-1) (-1)) false) (i32 (Z.quot (- 2 ^ 31) (-1))).
Proof.
  assert (has_type (Range (- 2 ^ 31) 5) (- 2 ^ 31) ∧ has_type (Range (-1) (-1)) (-1)) as [H1 H2] by (cbn; lia).
  destruct (division_types (Range (- 2 ^ 31) 5) (Range (-1) (-1)) false (- 2 ^ 31) (-1) H1 H2 ltac:(lia) ltac:(discriminate)) as [H _].
  destruct H as [H _]; [unfold int; lia|unfold int; lia|cbn; lia|exact H].
Defined.

End DivNodeDemo.
