(* ===== verification/SatbQueue.v ===== *)
(** The snapshot-at-the-beginning log of the mutators: [PtrQueue] and
    [PtrQueueSet] of [ptrQueue.hpp/.cpp] and [ObjPtrQueue] and
    [SATBMarkQueueSet] of [satbQueue.cpp].

    Each thread logs the values it overwrites in a buffer that it fills from
    the top down; a full buffer is filtered and, when enough entries are
    left, appended to the list of completed buffers that the marking threads
    take from. Indices are byte offsets, as in the source; [None] is a fault
    (an access outside a buffer or through a null pointer). *)

From S2P Require Import Prelude.

Module SatbQueue.

Definition oopSize : Z := 8.
Definition byte_index_to_index (ind : Z) : Z := ind / oopSize.

Record PtrQueue := mkPtrQueue { _active : bool; _buf : option (list Z); _index : Z; _sz : Z; _perm : bool }.

Record PtrQueueSet := mkPtrQueueSet {
  _completed_buffers : list (list Z);
  _n_completed_buffers : Z;
  _process_completed : bool;
  _process_completed_threshold : Z;
  _max_completed_queue : Z;
  _completed_queue_padding : Z;
  _buf_free_list : list (list Z);
  _buffer_size : Z
}.

Definition set_completed (qs : PtrQueueSet) (l : list (list Z)) (n : Z) (process : bool) : PtrQueueSet :=
  mkPtrQueueSet l n process (_process_completed_threshold qs) (_max_completed_queue qs) (_completed_queue_padding qs)
    (_buf_free_list qs) (_buffer_size qs).
Definition set_free_list (qs : PtrQueueSet) (l : list (list Z)) : PtrQueueSet :=
  mkPtrQueueSet (_completed_buffers qs) (_n_completed_buffers qs) (_process_completed qs) (_process_completed_threshold qs)
    (_max_completed_queue qs) (_completed_queue_padding qs) l (_buffer_size qs).

(** ** Buffers of the set

    [fresh] is the content of the memory that the C heap returns. *)

Definition allocate_buffer (fresh : list Z) (qs : PtrQueueSet) : list Z * PtrQueueSet :=
  match _buf_free_list qs with
  | b :: l => (b, set_free_list qs l)
  | [] => (fresh, qs)
  end.

Definition deallocate_buffer (qs : PtrQueueSet) (buf : list Z) : PtrQueueSet := set_free_list qs (buf :: _buf_free_list qs).

Definition enqueue_complete_buffer (qs : PtrQueueSet) (buf : list Z) : PtrQueueSet :=
  let n := _n_completed_buffers qs + 1 in
  let process := if negb (_process_completed qs) && (_process_completed_threshold qs >=? 0) && (n >=? _process_completed_threshold qs)
                 then true else _process_completed qs in
  set_completed qs (_completed_buffers qs ++ [buf]) n process.

(** The critical section of [apply_closure_to_completed_buffer_work]. *)
Definition pop_completed_buffer (qs : PtrQueueSet) : option (list Z) * PtrQueueSet :=
  match _completed_buffers qs with
  | nd :: l =>
      let n := _n_completed_buffers qs - 1 in
      (Some nd, set_completed qs l n (if n =? 0 then false else _process_completed qs))
  | [] => (None, qs)
  end.

(** [mut_process_buffer] of the SATB queues is [ShouldNotReachHere]. *)
Definition process_or_enqueue_complete_buffer (is_java : bool) (qs : PtrQueueSet) (buf : list Z) : option PtrQueueSet :=
  if is_java && ((_max_completed_queue qs =? 0) ||
       (_max_completed_queue qs >? 0) && (_n_completed_buffers qs >=? _max_completed_queue qs + _completed_queue_padding qs))
  then None
  else Some (enqueue_complete_buffer qs buf).

(** ** Filtering

    [retain] is [G1CollectedHeap::is_obj_ill]. *)

Definition buf_at (buf : list Z) (i : Z) : option Z := buf !! Z.to_nat (byte_index_to_index i).
Definition buf_put (buf : list Z) (i x : Z) : option (list Z) :=
  if byte_index_to_index i <? Z.of_nat (length buf) then Some (<[Z.to_nat (byte_index_to_index i) := x]> buf) else None.

Fixpoint filter_loop (fuel : nat) (retain : Z → bool) (index : Z) (buf : list Z) (i new_index : Z) : option (list Z * Z) :=
  match fuel with
  | O => if i >? index then None else Some (buf, new_index)
  | S fuel =>
      if i >? index then
        let i := i - oopSize in
        obj ← buf_at buf i;
        buf ← buf_put buf i NULL;
        if retain obj then
          let new_index := new_index - oopSize in
          buf ← buf_put buf new_index obj;
          filter_loop fuel retain index buf i new_index
        else filter_loop fuel retain index buf i new_index
      else Some (buf, new_index)
  end.

Definition filter (retain : Z → bool) (q : PtrQueue) : option PtrQueue :=
  match _buf q with
  | None => Some q
  | Some buf =>
      '(buf, new_index) ← filter_loop (length buf) retain (_index q) buf (_sz q) (_sz q);
      Some (mkPtrQueue (_active q) (Some buf) new_index (_sz q) (_perm q))
  end.

Definition should_enqueue_buffer (retain : Z → bool) (G1SATBBufferEnqueueingThresholdPercent : Z) (q : PtrQueue) : option (bool * PtrQueue) :=
  q ← filter retain q;
  let sz := _sz q in
  let all_entries := sz / oopSize in
  let retained_entries := (sz - _index q) / oopSize in
  let perc := retained_entries * 100 / all_entries in
  Some (perc >? G1SATBBufferEnqueueingThresholdPercent, q).

(** ** Logging a value *)

Section enqueue.
Context (retain : Z → bool) (threshold : Z) (fresh : list Z).

(** The queue of a Java thread has no lock. *)
Definition handle_zero_index (q : PtrQueue) (qs : PtrQueueSet) : option (PtrQueue * PtrQueueSet) :=
  let reallocate qs :=
    let '(buf, qs) := allocate_buffer fresh qs in
    Some (mkPtrQueue (_active q) (Some buf) (_buffer_size qs) (_buffer_size qs) (_perm q), qs) in
  match _buf q with
  | Some _ =>
      '(should, q) ← should_enqueue_buffer retain threshold q;
      if negb should then Some (q, qs)
      else
        buf ← _buf q;
        qs ← process_or_enqueue_complete_buffer true qs buf;
        reallocate qs
  | None => reallocate qs
  end.

Fixpoint zero_index_loop (fuel : nat) (q : PtrQueue) (qs : PtrQueueSet) : option (PtrQueue * PtrQueueSet) :=
  match fuel with
  | O => None
  | S fuel =>
      if _index q =? 0 then '(q, qs) ← handle_zero_index q qs; zero_index_loop fuel q qs
      else Some (q, qs)
  end.

Definition enqueue_known_active (fuel : nat) (ptr : Z) (q : PtrQueue) (qs : PtrQueueSet) : option (PtrQueue * PtrQueueSet) :=
  '(q, qs) ← zero_index_loop fuel q qs;
  let index := _index q - oopSize in
  buf ← _buf q;
  buf ← buf_put buf index ptr;
  Some (mkPtrQueue (_active q) (Some buf) index (_sz q) (_perm q), qs).

Definition enqueue (fuel : nat) (ptr : Z) (q : PtrQueue) (qs : PtrQueueSet) : option (PtrQueue * PtrQueueSet) :=
  if negb (_active q) then Some (q, qs) else enqueue_known_active fuel ptr q qs.

End enqueue.

Fixpoint null_out (n : nat) (buf : list Z) : list Z :=
  match n, buf with
  | S n, _ :: l => NULL :: null_out n l
  | _, _ => buf
  end.

(** [ObjPtrQueue::flush], when a thread exits. *)
Definition flush (retain : Z → bool) (q : PtrQueue) (qs : PtrQueueSet) : option (PtrQueue * PtrQueueSet) :=
  q ← filter retain q;
  match _buf q with
  | Some buf =>
      if _perm q then Some (q, qs)
      else
        let qs := if _index q =? _sz q then deallocate_buffer qs buf
                  else enqueue_complete_buffer qs (null_out (Z.to_nat (byte_index_to_index (_index q))) buf) in
        Some (mkPtrQueue (_active q) None 0 (_sz q) (_perm q), qs)
  | None => Some (q, qs)
  end.

Definition set_active (b : bool) (q : PtrQueue) : PtrQueue :=
  let index := if negb b && bool_decide (is_Some (_buf q)) then _sz q else _index q in
  mkPtrQueue b (_buf q) index (_sz q) (_perm q).

(** The objects that [apply_closure_to_buffer] passes to the closure. *)
Definition objects_of_buffer (buf : list Z) (index sz : Z) : list Z :=
  List.filter (λ x, negb (x =? NULL)) (drop (Z.to_nat (byte_index_to_index index)) (take (Z.to_nat (byte_index_to_index sz)) buf)).

Definition queue_objects (q : PtrQueue) : list Z :=
  match _buf q with Some buf => objects_of_buffer buf (_index q) (_sz q) | None => [] end.

(** [apply_closure_and_empty] leaves the queue empty. *)
Definition empty_queue (q : PtrQueue) : PtrQueue :=
  match _buf q with
  | Some _ => mkPtrQueue (_active q) (_buf q) (_sz q) (_sz q) (_perm q)
  | None => q
  end.

End SatbQueue.

(** ** The queue that the other threads share

    Threads that are not Java threads log in one queue under
    [Shared_SATB_Q_lock]. [handle_zero_index] releases the lock while it
    appends the full buffer to the completed ones. *)

Module SharedQueue.
Import SatbQueue.

Inductive shared_pc :=
  | SLock (ptr : Z)                       (* waiting for the lock *)
  | SLocked (ptr : Z)                     (* at the loop of enqueue_known_active *)
  | SUnlocked (ptr : Z) (buf : list Z)    (* locking_enqueue_completed_buffer has released the lock *)
  | SRelock (ptr : Z)
  | SDone.

Record shared := mkShared { s_queue : PtrQueue; s_set : PtrQueueSet; s_lock : option nat }.

Inductive outcome := Next (pc : shared_pc) (s : shared) | Blocked | Crash.

Section shared.
Context (retain : Z → bool) (threshold : Z) (fresh : list Z).

Definition reallocate (s : shared) : shared :=
  let '(buf, qs) := allocate_buffer fresh (s_set s) in
  let q := s_queue s in
  mkShared (mkPtrQueue (_active q) (Some buf) (_buffer_size qs) (_buffer_size qs) (_perm q)) qs (s_lock s).

Definition shared_step (k : nat) (pc : shared_pc) (s : shared) : outcome :=
  let q := s_queue s in
  match pc with
  | SLock p => match s_lock s with None => Next (SLocked p) (mkShared q (s_set s) (Some k)) | Some _ => Blocked end
  | SLocked p =>
      if _index q =? 0 then
        match _buf q with
        | Some _ =>
            match should_enqueue_buffer retain threshold q with
            | Some (should, q) =>
                if negb should then Next (SLocked p) (mkShared q (s_set s) (s_lock s))
                else
                  match _buf q with
                  | Some buf => Next (SUnlocked p buf) (mkShared (mkPtrQueue (_active q) None (_index q) (_sz q) (_perm q)) (s_set s) None)
                  | None => Crash
                  end
            | None => Crash
            end
        | None => Next (SLocked p) (reallocate s)
        end
      else
        let index := _index q - oopSize in
        match _buf q with
        | Some buf =>
            match buf_put buf index p with
            | Some buf => Next SDone (mkShared (mkPtrQueue (_active q) (Some buf) index (_sz q) (_perm q)) (s_set s) None)
            | None => Crash
            end
        | None => Crash
        end
  | SUnlocked p buf => Next (SRelock p) (mkShared q (enqueue_complete_buffer (s_set s) buf) (s_lock s))
  | SRelock p =>
      match s_lock s with
      | None =>
          let s := mkShared q (s_set s) (Some k) in
          Next (SLocked p) (if bool_decide (is_Some (_buf q)) then s else reallocate s)
      | Some _ => Blocked
      end
  | SDone => Blocked
  end.

(** Threads take turns in the given order. *)
Fixpoint run_shared (schedule : list nat) (pcs : list shared_pc) (s : shared) : option (list shared_pc * shared) :=
  match schedule with
  | [] => Some (pcs, s)
  | k :: schedule =>
      pc ← pcs !! k;
      match shared_step k pc s with
      | Next pc s => run_shared schedule (<[k := pc]> pcs) s
      | Blocked => run_shared schedule pcs s
      | Crash => None
      end
  end.

End shared.

End SharedQueue.

(** * Facts *)

Module SatbQueueFacts.
Import SatbQueue.

Lemma byte_index_mul (k : nat) : byte_index_to_index (8 * Z.of_nat k) = Z.of_nat k.
Proof. unfold byte_index_to_index, oopSize. rewrite Z.mul_comm. apply Z.div_mul. lia. Qed.

Lemma buf_at_mul buf (k : nat) : buf_at buf (8 * Z.of_nat k) = buf !! k.
Proof. unfold buf_at. by rewrite byte_index_mul, Nat2Z.id. Qed.

Lemma buf_put_mul buf (k : nat) x : (k < length buf)%nat → buf_put buf (8 * Z.of_nat k) x = Some (<[k := x]> buf).
Proof. intros Hk. unfold buf_put. rewrite byte_index_mul, (proj2 (Z.ltb_lt _ _)) by lia. by rewrite Nat2Z.id. Qed.

Lemma drop_take_last {A} (l : list A) k a x :
  (k <= a)%nat → l !! a = Some x → drop k (take (S a) l) = drop k (take a l) ++ [x].
Proof.
  intros Hk Hx. rewrite (take_S_r _ _ x) by done. rewrite drop_app_le; [done|].
  rewrite length_take. apply lookup_lt_Some in Hx. lia.
Qed.

Lemma filter_last {A} (p : A → bool) l x : List.filter p (l ++ [x]) = List.filter p l ++ (if p x then [x] else []).
Proof. rewrite List.filter_app. cbn. by destruct (p x). Qed.

(** The loop moves the entries to keep to the top of the buffer. *)
Lemma filter_loop_spec retain k fuel : ∀ buf a b,
  (k <= a <= b)%nat → (b <= length buf)%nat → (a - k <= fuel)%nat → (∀ j, (a <= j < b)%nat → buf !! j = Some NULL) →
  ∃ buf' b', filter_loop fuel retain (8 * Z.of_nat k) buf (8 * Z.of_nat a) (8 * Z.of_nat b) = Some (buf', 8 * Z.of_nat b') ∧
    length buf' = length buf ∧ (k <= b' <= b)%nat ∧ drop b' buf' = List.filter retain (drop k (take a buf)) ++ drop b buf ∧
    (∀ j, (k <= j < b')%nat → buf' !! j = Some NULL).
Proof.
  induction fuel as [|fuel IH]; intros buf a b Ha Hb Hf Hz.
  - assert (a = k) as -> by lia. exists buf, b. cbn [filter_loop]. rewrite gtb_false by lia. split_and!; try done; try lia.
    rewrite (drop_ge (take k buf)) by (rewrite length_take; lia). done.
  - cbn [filter_loop]. destruct (Z.gtb_spec (8 * Z.of_nat a) (8 * Z.of_nat k)) as [Hlt|Hge].
    2:{ assert (a = k) as -> by lia. exists buf, b. split_and!; try done; try lia. rewrite (drop_ge (take k buf)) by (rewrite length_take; lia). done. }
    destruct a as [|a]; [lia|]. unfold oopSize. replace (8 * Z.of_nat (S a) - 8) with (8 * Z.of_nat a) by lia.
    rewrite buf_at_mul. destruct (lookup_lt_is_Some_2 buf a) as [x Hx]; [lia|]. rewrite Hx. cbn [mbind option_bind].
    rewrite buf_put_mul by lia. cbn [mbind option_bind]. rewrite (drop_take_last _ _ _ x), filter_last by (done || lia).
    assert (Hta : ∀ l, take a (<[a := NULL]> l) = take a l) by (intros; apply take_insert_ge; lia).
    destruct (retain x) eqn:Er.
    + destruct b as [|b]; [lia|]. replace (8 * Z.of_nat (S b) - 8) with (8 * Z.of_nat b) by lia.
      rewrite buf_put_mul by (rewrite length_insert; lia). cbn [mbind option_bind].
      edestruct (IH (<[b := x]> (<[a := NULL]> buf)) a b) as (buf' & b' & E & Hl & Hb' & Hd & Hzero);
        [lia|rewrite !length_insert; lia|lia| |].
      { intros j Hj. rewrite list_lookup_insert_ne by lia. destruct (decide (j = a)) as [->|Hne].
        - apply list_lookup_insert_eq. lia.
        - rewrite list_lookup_insert_ne by lia. apply Hz. lia. }
      exists buf', b'. rewrite E. rewrite !length_insert in Hl. split_and!; try done; try lia. rewrite Hd.
      rewrite take_insert_ge, Hta by lia. rewrite <- app_assoc. f_equal. cbn.
      erewrite (drop_S _ x b) by (apply list_lookup_insert_eq; rewrite length_insert; lia). f_equal.
      rewrite drop_insert_lt by lia. by rewrite drop_insert_lt by lia.
    + edestruct (IH (<[a := NULL]> buf) a b) as (buf' & b' & E & Hl & Hb' & Hd & Hzero);
        [lia|rewrite length_insert; lia|lia| |].
      { intros j Hj. destruct (decide (j = a)) as [->|Hne]; [apply list_lookup_insert_eq; lia|].
        rewrite list_lookup_insert_ne by lia. apply Hz. lia. }
      exists buf', b'. rewrite E. rewrite length_insert in Hl. split_and!; try done; try lia. rewrite Hd, Hta, app_nil_r.
      f_equal. rewrite drop_insert_lt by lia. done.
Qed.

(** ** Well-formed queues with [n] slots *)

Definition entries (q : PtrQueue) : list Z :=
  match _buf q with Some buf => drop (Z.to_nat (byte_index_to_index (_index q))) buf | None => [] end.

Record wf_queue (n : nat) (q : PtrQueue) : Prop := mkWfQueue {
  wq_buf : match _buf q with
           | None => _index q = 0
           | Some buf => length buf = n ∧ _sz q = 8 * Z.of_nat n ∧ ∃ k, (k <= n)%nat ∧ _index q = 8 * Z.of_nat k
           end;
  wq_nonnull : Forall (λ x, x ≠ NULL) (entries q)
}.

Record wf_set (n : nat) (qs : PtrQueueSet) : Prop := mkWfSet {
  ws_size : _buffer_size qs = 8 * Z.of_nat n;
  ws_pos : (0 < n)%nat;
  ws_max : _max_completed_queue qs < 0;
  ws_free : Forall (λ b, length b = n) (_buf_free_list qs);
  ws_completed : Forall (λ b, length b = n) (_completed_buffers qs);
  ws_count : _n_completed_buffers qs = Z.of_nat (length (_completed_buffers qs))
}.

(** What the marking threads see: the objects of the completed buffers. *)
Definition completed_objects (qs : PtrQueueSet) : list Z :=
  _completed_buffers qs ≫= λ b, objects_of_buffer b 0 (_buffer_size qs).

Lemma filter_nonnull l : Forall (λ x, x ≠ NULL) l → List.filter (λ x, negb (x =? NULL)) l = l.
Proof. induction 1 as [|x l Hx Hl IH]; cbn; [done|]. rewrite (proj2 (Z.eqb_neq _ _)) by done. cbn. by rewrite IH. Qed.

Lemma filter_all_null l : Forall (λ x, x = NULL) l → List.filter (λ x, negb (x =? NULL)) l = [].
Proof. induction 1 as [|x l Hx Hl IH]; cbn; [done|]. subst x. done. Qed.

Lemma forall_filter {A} (P : A → Prop) (p : A → bool) l : Forall P l → Forall P (List.filter p l).
Proof. induction 1 as [|x l Hx Hl IH]; cbn; [done|]. destruct (p x); [by constructor|done]. Qed.

Lemma queue_objects_entries n q : wf_queue n q → queue_objects q = entries q.
Proof.
  intros [Hb Hn]. unfold queue_objects, entries in *. destruct (_buf q) as [buf|]; [|done]. destruct Hb as (Hl & Hs & k & Hk & Hi).
  unfold objects_of_buffer. rewrite Hi, Hs, !byte_index_mul, !Nat2Z.id in *. rewrite take_ge by lia. by apply filter_nonnull.
Qed.

(** A buffer whose first slots are empty. *)
Lemma objects_of_padded buf n k :
  length buf = n → (k <= n)%nat → (∀ j, (j < k)%nat → buf !! j = Some NULL) → Forall (λ x, x ≠ NULL) (drop k buf) →
  objects_of_buffer buf 0 (8 * Z.of_nat n) = drop k buf.
Proof.
  intros Hl Hk Hz Hn. unfold objects_of_buffer. rewrite byte_index_mul, Nat2Z.id. change (Z.to_nat (byte_index_to_index 0)) with 0%nat.
  rewrite drop_0, take_ge by lia. rewrite <- (take_drop k buf) at 1. rewrite List.filter_app, (filter_nonnull (drop k buf)) by done.
  rewrite filter_all_null; [done|]. apply Forall_lookup. intros j x [Hj Hlt]%lookup_take_Some. specialize (Hz j ltac:(lia)). congruence.
Qed.

(** [filter] keeps the entries to retain, in their order. *)
Lemma filter_spec retain n q :
  wf_queue n q →
  ∃ q', filter retain q = Some q' ∧ wf_queue n q' ∧ entries q' = List.filter retain (entries q) ∧
    _active q' = _active q ∧ _perm q' = _perm q ∧ (_buf q' = None ↔ _buf q = None) ∧
    (_index q = 0 → ∀ buf, _buf q' = Some buf → objects_of_buffer buf 0 (8 * Z.of_nat n) = entries q').
Proof.
  intros [Hb Hn]. unfold filter, entries in *. destruct q as [act [buf|] index sz perm]; cbn [_buf _index _sz _active _perm] in *.
  2:{ eexists. split_and!; done. }
  destruct Hb as (Hl & -> & k & Hk & ->). rewrite byte_index_mul, Nat2Z.id in *.
  destruct (filter_loop_spec retain k (length buf) buf n n) as (buf' & b' & E & Hl' & Hb' & Hd & Hz); [lia..|].
  rewrite E. cbn [mbind option_bind]. rewrite take_ge, (drop_ge buf n), app_nil_r in Hd by lia. eexists. split; [done|].
  cbn [_buf _index _sz _active _perm]. rewrite byte_index_mul, Nat2Z.id, Hd.
  assert (Forall (λ x, x ≠ NULL) (List.filter retain (drop k buf))) as Hn' by by apply forall_filter.
  split_and!; try done.
  - split; cbn [_buf _index _sz].
    + split_and!; [lia|done|]. exists b'. split; [lia|done].
    + unfold entries. cbn [_buf _index]. by rewrite byte_index_mul, Nat2Z.id, Hd.
  - intros Hk0 ? [= <-]. rewrite <- Hd. apply objects_of_padded; [lia|lia| |by rewrite Hd]. intros j Hj. apply Hz. lia.
Qed.

Lemma allocate_buffer_spec n fresh qs :
  wf_set n qs → length fresh = n →
  length (allocate_buffer fresh qs).1 = n ∧ wf_set n (allocate_buffer fresh qs).2 ∧
  completed_objects (allocate_buffer fresh qs).2 = completed_objects qs.
Proof.
  intros [Hs Hp Hm Hf Hc Hn] Hl. unfold allocate_buffer. destruct (_buf_free_list qs) as [|b l] eqn:E; cbn [fst snd]; [by rewrite <- E in Hf|].
  apply Forall_cons in Hf as [Hb Hf]. split_and!; [done| |done]. by split.
Qed.

Lemma fresh_queue act perm n buf qs :
  wf_set n qs → length buf = n →
  let q := mkPtrQueue act (Some buf) (_buffer_size qs) (_buffer_size qs) perm in wf_queue n q ∧ entries q = [] ∧ 0 < _index q.
Proof.
  intros [Hs Hp Hm Hf Hc Hn] Hl. cbn zeta. rewrite Hs.
  assert (entries (mkPtrQueue act (Some buf) (8 * Z.of_nat n) (8 * Z.of_nat n) perm) = []) as He.
  { unfold entries. cbn [_buf _index]. rewrite byte_index_mul, Nat2Z.id. apply drop_ge; lia. }
  split_and!; [|done|cbn; lia]. split; [|by rewrite He]. cbn [_buf _index _sz]. split_and!; [done|done|]. by exists n.
Qed.

Lemma enqueue_complete_spec n qs buf :
  wf_set n qs → length buf = n →
  wf_set n (enqueue_complete_buffer qs buf) ∧
  completed_objects (enqueue_complete_buffer qs buf) = completed_objects qs ++ objects_of_buffer buf 0 (8 * Z.of_nat n).
Proof.
  intros [Hs Hp Hm Hf Hc Hn] Hl. split.
  - split; cbn; try done; [apply Forall_app; split; [done|by repeat constructor]|]. rewrite length_app. cbn. lia.
  - unfold completed_objects. cbn [enqueue_complete_buffer set_completed _completed_buffers _buffer_size].
    rewrite bind_app. cbn [mbind list_bind]. by rewrite app_nil_r, Hs.
Qed.

Lemma index_positive n q :
  wf_queue n q → _buf q ≠ None → (0 < n)%nat → (length (entries q) < n)%nat → 0 < _index q.
Proof.
  intros [Hb Hn] Hsome Hpos Hlen. unfold entries in Hlen. destruct (_buf q) as [buf|]; [|done]. destruct Hb as (Hl & Hs & k & Hk & Hi).
  rewrite Hi, byte_index_mul, Nat2Z.id, length_drop in Hlen. lia.
Qed.

Lemma retained_entries_spec n q :
  wf_queue n q → _buf q ≠ None → _sz q = 8 * Z.of_nat n ∧ (_sz q - _index q) / oopSize = Z.of_nat (length (entries q)) ∧ (length (entries q) <= n)%nat.
Proof.
  intros [Hb Hn] Hsome. unfold entries. destruct (_buf q) as [buf|]; [|done]. destruct Hb as (Hl & Hs & k & Hk & Hi).
  rewrite Hi, Hs, byte_index_mul, Nat2Z.id, length_drop, Hl. unfold oopSize. split_and!; [done| |lia].
  replace (8 * Z.of_nat n - 8 * Z.of_nat k) with (Z.of_nat (n - k) * 8) by lia. rewrite Z.div_mul; lia.
Qed.

(** A full or missing buffer is replaced, or filtered until it has room. *)
Lemma handle_zero_index_spec retain threshold fresh n q qs :
  wf_queue n q → wf_set n qs → length fresh = n → threshold < 100 → _index q = 0 →
  ∃ q' qs' kept, handle_zero_index retain threshold fresh q qs = Some (q', qs') ∧ wf_queue n q' ∧ wf_set n qs' ∧
    0 < _index q' ∧ _active q' = _active q ∧ (kept = entries q ∨ kept = List.filter retain (entries q)) ∧
    entries q' ++ completed_objects qs' ≡ₚ kept ++ completed_objects qs.
Proof.
  intros Hq Hqs Hfr Hth Hi. pose proof (ws_pos _ _ Hqs) as Hpos. unfold handle_zero_index.
  assert (Hre : ∀ act perm qs', wf_set n qs' → ∃ q' qs'', (let '(buf, qs) := allocate_buffer fresh qs' in
      Some (mkPtrQueue act (Some buf) (_buffer_size qs) (_buffer_size qs) perm, qs)) = Some (q', qs'') ∧ wf_queue n q' ∧ wf_set n qs'' ∧
      0 < _index q' ∧ _active q' = act ∧ entries q' = [] ∧ completed_objects qs'' = completed_objects qs').
  { intros act perm qs' Hqs'. destruct (allocate_buffer_spec n fresh qs' Hqs' Hfr) as (Hl & Hw & Hc). destruct (allocate_buffer fresh qs') as [b qs''].
    cbn [fst snd] in *. destruct (fresh_queue act perm n b qs'' Hw Hl) as (H1 & H2 & H3). do 2 eexists. split_and!; done. }
  destruct (_buf q) as [buf|] eqn:Eb.
  - destruct (filter_spec retain n q Hq) as (q1 & E1 & Hq1 & He1 & Ha1 & Hp1 & Hb1 & Ho1). unfold should_enqueue_buffer. rewrite E1.
    cbn [mbind option_bind]. assert (_buf q1 ≠ None) as Hsome by (intros H; apply Hb1 in H; congruence).
    destruct (retained_entries_spec n q1 Hq1 Hsome) as (Hs1 & Hr1 & Hl1). rewrite Hr1, Hs1. unfold oopSize. replace (8 * Z.of_nat n / 8) with (Z.of_nat n) by (rewrite Z.mul_comm, Z.div_mul; lia).
    destruct (Z.gtb_spec (Z.of_nat (length (entries q1)) * 100 / Z.of_nat n) threshold) as [Hgt|Hle]; cbn [negb].
    + destruct (_buf q1) as [b1|] eqn:Eb1; [|done]. cbn [mbind option_bind]. unfold process_or_enqueue_complete_buffer.
      pose proof (ws_max _ _ Hqs). rewrite (proj2 (Z.eqb_neq _ _)), gtb_false by lia. cbn [orb andb mbind option_bind].
      assert (length b1 = n) as Hlb by (pose proof (wq_buf _ _ Hq1) as Hq1b; rewrite Eb1 in Hq1b; by destruct Hq1b).
      destruct (enqueue_complete_spec n qs b1 Hqs Hlb) as [Hw1 Hc1].
      destruct (Hre (_active q) (_perm q) _ Hw1) as (q' & qs' & E & H1 & H2 & H3 & H4 & H5 & H6).
      exists q', qs', (List.filter retain (entries q)). split_and!; try done; [by right|].
      rewrite H5, H6, Hc1, (Ho1 Hi b1 eq_refl), He1. cbn. apply Permutation_app_comm.
    + exists q1, qs, (List.filter retain (entries q)). split_and!; try done; [|by right|by rewrite He1].
      apply (index_positive n); try done.
      assert (Z.of_nat (length (entries q1)) * 100 / Z.of_nat n < 100) as Hlt by lia.
      destruct (decide (length (entries q1) = n)) as [Heq|]; [|lia]. rewrite Heq, (Z.mul_comm (Z.of_nat n) 100), Z.div_mul in Hlt by lia. lia.
  - destruct (Hre (_active q) (_perm q) qs Hqs) as (q' & qs' & E & H1 & H2 & H3 & H4 & H5 & H6).
    exists q', qs', (entries q). split_and!; try done; [by left|]. unfold entries at 2. rewrite Eb, H5, H6. done.
Qed.

(** One logged value: the loop of [enqueue_known_active] ends in its second
    turn. *)
Lemma enqueue_spec retain threshold fresh n p q qs :
  wf_queue n q → wf_set n qs → length fresh = n → threshold < 100 → p ≠ NULL → _active q = true →
  ∃ q' qs' kept, enqueue retain threshold fresh 2 p q qs = Some (q', qs') ∧ wf_queue n q' ∧ wf_set n qs' ∧ _active q' = true ∧
    (kept = entries q ∨ kept = List.filter retain (entries q)) ∧ entries q' ++ completed_objects qs' ≡ₚ p :: kept ++ completed_objects qs.
Proof.
  intros Hq Hqs Hfr Hth Hp Ha. unfold enqueue. rewrite Ha. cbn [negb]. unfold enqueue_known_active.
  assert (∃ q1 qs1 kept, zero_index_loop retain threshold fresh 2 q qs = Some (q1, qs1) ∧ wf_queue n q1 ∧ wf_set n qs1 ∧ 0 < _index q1 ∧
    _active q1 = true ∧ (kept = entries q ∨ kept = List.filter retain (entries q)) ∧
    entries q1 ++ completed_objects qs1 ≡ₚ kept ++ completed_objects qs) as (q1 & qs1 & kept & E & Hq1 & Hqs1 & Hi1 & Ha1 & Hk & Hperm).
  { cbn [zero_index_loop]. destruct (Z.eqb_spec (_index q) 0) as [Hi|Hi].
    - destruct (handle_zero_index_spec retain threshold fresh n q qs) as (q1 & qs1 & kept & E & H1 & H2 & H3 & H4 & H5 & H6); try done.
      rewrite E. cbn [mbind option_bind]. rewrite (proj2 (Z.eqb_neq _ _)) by lia. exists q1, qs1, kept. split_and!; try done. congruence.
    - exists q, qs, (entries q). split_and!; try done; [|by left]. pose proof (wq_buf _ _ Hq) as H. destruct (_buf q); [|done].
      destruct H as (_ & _ & k & _ & E). lia. }
  rewrite E. cbn [mbind option_bind]. pose proof Hq1 as [Hb1 Hn1]. unfold entries in Hn1, Hperm at 1. destruct (_buf q1) as [b1|]; [|lia].
  destruct Hb1 as (Hl & Hs & k & Hk1 & Hik). rewrite Hik, byte_index_mul, Nat2Z.id in Hn1, Hperm. cbn [mbind option_bind].
  destruct k as [|k]; [lia|]. rewrite Hik. unfold oopSize. replace (8 * Z.of_nat (S k) - 8) with (8 * Z.of_nat k) by lia.
  rewrite buf_put_mul by lia. cbn [mbind option_bind].
  set (q2 := mkPtrQueue _ _ _ _ _). assert (entries q2 = p :: drop (S k) b1) as He2.
  { unfold entries, q2. cbn [_buf _index]. rewrite byte_index_mul, Nat2Z.id. rewrite (drop_S _ p k) by (apply list_lookup_insert_eq; lia).
    f_equal. apply drop_insert_lt. lia. }
  exists q2, qs1, kept. split_and!; try done; [|by rewrite He2, <- Hperm].
  split; [|rewrite He2; by constructor]. unfold q2. cbn [_buf _index _sz]. rewrite length_insert. split_and!; [done|done|]. exists k. split; [lia|done].
Qed.

Lemma null_out_spec k : ∀ buf, length (null_out k buf) = length buf ∧ drop k (null_out k buf) = drop k buf ∧
  ∀ j, (j < k)%nat → (j < length buf)%nat → null_out k buf !! j = Some NULL.
Proof.
  induction k as [|k IH]; intros [|x l]; cbn; split_and!; try done; intros; try lia; try (by apply IH).
  - f_equal. apply IH.
  - destruct j as [|j]; [done|]. apply IH; lia.
Qed.

(** A thread that exits hands over what is left in its buffer. *)
Lemma flush_spec retain n q qs :
  wf_queue n q → wf_set n qs →
  ∃ q' qs', flush retain q qs = Some (q', qs') ∧ wf_queue n q' ∧ wf_set n qs' ∧ _active q' = _active q ∧
    entries q' ++ completed_objects qs' ≡ₚ List.filter retain (entries q) ++ completed_objects qs.
Proof.
  intros Hq Hqs. unfold flush. destruct (filter_spec retain n q Hq) as (q1 & E1 & Hq1 & He1 & Ha1 & Hp1 & _). rewrite E1. cbn [mbind option_bind].
  pose proof Hq1 as [Hb1 Hn1]. destruct (_buf q1) as [b1|] eqn:Eb; [|exists q1, qs; by rewrite He1].
  destruct Hb1 as (Hl & Hs & k & Hk & Hi). destruct (_perm q1) eqn:Ep; [exists q1, qs; by rewrite He1|].
  set (q2 := mkPtrQueue (_active q1) None 0 (_sz q1) false). assert (Hq2 : wf_queue n q2) by (split; [done|constructor]).
  assert (He : entries q1 = drop k b1) by (unfold entries; by rewrite Eb, Hi, byte_index_mul, Nat2Z.id).
  rewrite He in Hn1. exists q2. destruct (Z.eqb_spec (_index q1) (_sz q1)) as [Efull|Enot].
  - exists (deallocate_buffer qs b1). split_and!; try done.
    + destruct Hqs. split; cbn; try done. by constructor.
    + rewrite <- He1, He, (drop_ge b1 k) by lia. done.
  - rewrite Hi, byte_index_mul, Nat2Z.id. destruct (null_out_spec k b1) as (Hl' & Hd' & Hz').
    destruct (enqueue_complete_spec n qs (null_out k b1) Hqs) as [Hw Hc]; [congruence|].
    exists (enqueue_complete_buffer qs (null_out k b1)). split_and!; try done. rewrite Hc, <- He1, He.
    rewrite (objects_of_padded _ n k), Hd'; [change (entries q2) with (@nil Z); cbn [app]; apply Permutation_app_comm|congruence|done| |by rewrite Hd'].
    intros j Hj. apply Hz'; lia.
Qed.

Lemma pop_spec n qs :
  wf_set n qs →
  match pop_completed_buffer qs with
  | (Some buf, qs') => wf_set n qs' ∧ length buf = n ∧ completed_objects qs = objects_of_buffer buf 0 (_buffer_size qs) ++ completed_objects qs'
  | (None, qs') => qs' = qs ∧ completed_objects qs = []
  end.
Proof.
  intros [Hs Hp Hm Hf Hc Hn]. unfold pop_completed_buffer, completed_objects. destruct (_completed_buffers qs) as [|b l] eqn:E; [done|].
  apply Forall_cons in Hc as [Hb Hc]. split_and!; try done. split; try done. cbn. cbn in Hn. lia.
Qed.

End SatbQueueFacts.

(** * Any number of threads *)

Module SatbLog.
Import SatbQueue SatbQueueFacts.

(** The threads log values and exit, and the marking threads take completed
    buffers. [retain] is what the filter sees at that time. *)
Inductive log_op :=
  | Log (t : nat) (ptr : Z) (retain : Z → bool) (fresh : list Z)
  | Exit (t : nat) (retain : Z → bool)
  | Take.

Record log_state := mkLogState { l_queues : list PtrQueue; l_set : PtrQueueSet; l_taken : list Z }.

Definition exec_op (threshold : Z) (s : log_state) (o : log_op) : option log_state :=
  match o with
  | Log t p retain fresh =>
      q ← l_queues s !! t;
      '(q, qs) ← enqueue retain threshold fresh 2 p q (l_set s);
      Some (mkLogState (<[t := q]> (l_queues s)) qs (l_taken s))
  | Exit t retain =>
      q ← l_queues s !! t;
      '(q, qs) ← flush retain q (l_set s);
      Some (mkLogState (<[t := q]> (l_queues s)) qs (l_taken s))
  | Take =>
      match pop_completed_buffer (l_set s) with
      | (Some buf, qs) => Some (mkLogState (l_queues s) qs (objects_of_buffer buf 0 (_buffer_size (l_set s)) ++ l_taken s))
      | (None, qs) => Some s
      end
  end.

Fixpoint exec_ops (threshold : Z) (s : log_state) (l : list log_op) : option log_state :=
  match l with [] => Some s | o :: l => s ← exec_op threshold s o; exec_ops threshold s l end.

Definition op_ok (n k : nat) (o : log_op) : Prop :=
  match o with Log t p _ fresh => (t < k)%nat ∧ p ≠ NULL ∧ length fresh = n | Exit t _ => (t < k)%nat | Take => True end.
Definition logged (l : list log_op) : list Z := l ≫= λ o, match o with Log _ p _ _ => [p] | _ => [] end.
Definition op_keeps (x : Z) (o : log_op) : Prop :=
  match o with Log _ _ retain _ => retain x = true | Exit _ retain => retain x = true | Take => True end.

(** The objects in the log, and those that have been taken from it. *)
Definition seen (s : log_state) : list Z := l_taken s ++ (l_queues s ≫= entries) ++ completed_objects (l_set s).

Definition initial (n k : nat) (process_threshold : Z) : log_state :=
  mkLogState (replicate k (mkPtrQueue true None 0 0 false)) (mkPtrQueueSet [] 0 false process_threshold (-1) 0 [] (8 * Z.of_nat n)) [].

Record log_ok (n k : nat) (s : log_state) : Prop := mkLogOk {
  lo_queues : Forall (λ q, wf_queue n q ∧ _active q = true) (l_queues s);
  lo_length : length (l_queues s) = k;
  lo_set : wf_set n (l_set s)
}.

Lemma keeps_filter (x : Z) (retain : Z → bool) l : retain x = true → x ∈ l → x ∈ List.filter retain l.
Proof. intros Hr Hx. apply list_elem_of_In, List.filter_In. split; [by apply list_elem_of_In|done]. Qed.

Lemma filter_subset (x : Z) (retain : Z → bool) l : x ∈ List.filter retain l → x ∈ l.
Proof. intros Hx%list_elem_of_In. apply list_elem_of_In. by apply List.filter_In in Hx as [Hx _]. Qed.

(** A thread's queue [q] becomes [q'], with [new] logged and [kept] kept. *)
Lemma seen_update s t q q' qs' new kept :
  l_queues s !! t = Some q → entries q' ++ completed_objects qs' ≡ₚ new ++ kept ++ completed_objects (l_set s) → kept ⊆ entries q →
  let s' := mkLogState (<[t := q']> (l_queues s)) qs' (l_taken s) in
  seen s' ⊆ new ++ seen s ∧ (∀ x, (x ∈ entries q → x ∈ kept) → x ∈ new ++ seen s → x ∈ seen s').
Proof.
  intros Hq Hp Hk s'. assert (Hnew : ∀ x, x ∈ entries q' ∨ x ∈ completed_objects qs' ↔ x ∈ new ∨ x ∈ kept ∨ x ∈ completed_objects (l_set s)).
  { intros x. rewrite <- !elem_of_app. by rewrite Hp. }
  assert (Hqs : ∀ x, x ∈ (<[t := q']> (l_queues s) ≫= entries) ↔
    x ∈ entries q' ∨ ∃ j r, j ≠ t ∧ l_queues s !! j = Some r ∧ x ∈ entries r).
  { intros x. rewrite list_elem_of_bind. split.
    - intros (r & Hx & [j Hj]%list_elem_of_lookup). apply list_lookup_insert_Some in Hj as [(-> & <- & _)|[Hne Hj]]; [by left|].
      right. exists j, r. split_and!; [congruence|done|done].
    - intros [Hx|(j & r & Hne & Hj & Hx)]; [exists q'|exists r]; (split; [done|]).
      + apply list_elem_of_lookup. exists t. apply list_lookup_insert_eq. by eapply lookup_lt_Some.
      + apply list_elem_of_lookup. exists j. by rewrite list_lookup_insert_ne. }
  assert (Hqo : ∀ x, x ∈ (l_queues s ≫= entries) ↔ x ∈ entries q ∨ ∃ j r, j ≠ t ∧ l_queues s !! j = Some r ∧ x ∈ entries r).
  { intros x. rewrite list_elem_of_bind. split.
    - intros (r & Hx & [j Hj]%list_elem_of_lookup). destruct (decide (j = t)) as [->|Hne]; [left; congruence|right; eauto].
    - intros [Hx|(j & r & Hne & Hj & Hx)]; eexists; (split; [exact Hx|]); by eapply list_elem_of_lookup_2. }
  unfold seen, s'. cbn [l_taken l_queues l_set]. split; intros x; rewrite !elem_of_app, Hqs, Hqo; specialize (Hnew x); naive_solver.
Qed.

Section log.
Context (threshold : Z) (n k : nat).
Hypothesis Hthreshold : threshold < 100.

Lemma queue_put s t q' qs' :
  log_ok n k s → wf_queue n q' → _active q' = true → wf_set n qs' →
  log_ok n k (mkLogState (<[t := q']> (l_queues s)) qs' (l_taken s)).
Proof. intros [Hq Hl Hs] Hw Ha Hs'. split; cbn; [by apply Forall_insert|by rewrite length_insert|done]. Qed.

Lemma exec_op_spec s o :
  log_ok n k s → op_ok n k o →
  ∃ s', exec_op threshold s o = Some s' ∧ log_ok n k s' ∧ seen s' ⊆ logged [o] ++ seen s ∧
    (∀ x, op_keeps x o → x ∈ logged [o] ++ seen s → x ∈ seen s').
Proof.
  intros Hok Ho. pose proof Hok as [Hqs Hl Hs]. destruct o as [t p retain fresh|t retain|]; cbn [exec_op op_ok op_keeps] in *.
  - destruct Ho as (Ht & Hp & Hfr). destruct (lookup_lt_is_Some_2 (l_queues s) t) as [q Hq]; [lia|]. rewrite Hq. cbn [mbind option_bind].
    destruct (proj1 (Forall_lookup _ _) Hqs t q Hq) as [Hw Ha].
    destruct (enqueue_spec retain threshold fresh n p q (l_set s)) as (q' & qs' & kept & E & H1 & H2 & H3 & Hk & Hperm); try done.
    rewrite E. cbn [mbind option_bind]. eexists. split; [done|]. split; [by apply queue_put|].
    destruct (seen_update s t q q' qs' [p] kept Hq Hperm) as [Hsub Hkeep].
    { destruct Hk as [-> | ->]; [done|]. intros x. apply filter_subset. }
    split; [exact Hsub|]. intros x Hr Hx. apply Hkeep; [|exact Hx]. destruct Hk as [-> | ->]; [done|]. by apply keeps_filter.
  - destruct (lookup_lt_is_Some_2 (l_queues s) t) as [q Hq]; [lia|]. rewrite Hq. cbn [mbind option_bind].
    destruct (proj1 (Forall_lookup _ _) Hqs t q Hq) as [Hw Ha].
    destruct (flush_spec retain n q (l_set s) Hw Hs) as (q' & qs' & E & H1 & H2 & H3 & Hperm). rewrite E. cbn [mbind option_bind].
    eexists. split; [done|]. split; [apply queue_put; try done; congruence|].
    destruct (seen_update s t q q' qs' [] (List.filter retain (entries q)) Hq Hperm) as [Hsub Hkeep]; [intros x; apply filter_subset|].
    split; [exact Hsub|]. intros x Hr Hx. apply Hkeep; [|exact Hx]. by apply keeps_filter.
  - pose proof (pop_spec n (l_set s) Hs) as Hpop. destruct (pop_completed_buffer (l_set s)) as [[buf|] qs'].
    + destruct Hpop as (Hw & Hb & Hc). eexists. split; [done|]. split; [by split|]. unfold seen. cbn [l_taken l_queues l_set logged mbind list_bind].
      rewrite Hc. split; intros x; cbn [app]; rewrite !elem_of_app; tauto.
    + destruct Hpop as [-> _]. eexists. split; [done|]. split; [done|]. split; [done|]. intros x _ Hx. exact Hx.
Qed.

Lemma exec_ops_spec l : ∀ s,
  log_ok n k s → Forall (op_ok n k) l →
  ∃ s', exec_ops threshold s l = Some s' ∧ log_ok n k s' ∧ seen s' ⊆ logged l ++ seen s ∧
    (∀ x, Forall (op_keeps x) l → x ∈ logged l ++ seen s → x ∈ seen s').
Proof.
  induction l as [|o l IH]; intros s Hok Hl; cbn [exec_ops]; [exists s; split_and!; try done|].
  apply Forall_cons in Hl as [Ho Hl]. destruct (exec_op_spec s o Hok Ho) as (s1 & E1 & Hok1 & Hsub1 & Hk1). rewrite E1. cbn [mbind option_bind].
  destruct (IH s1 Hok1 Hl) as (s2 & E2 & Hok2 & Hsub2 & Hk2). exists s2. split_and!; try done.
  - intros x Hx%Hsub2. change (logged (o :: l)) with (logged ([o] ++ l)). unfold logged. rewrite bind_app, <- app_assoc.
    rewrite !elem_of_app in *. destruct Hx as [Hx|Hx%Hsub1]; [tauto|]. rewrite elem_of_app in Hx. unfold logged in Hx. tauto.
  - intros x [Hko Hkl]%Forall_cons Hx. apply Hk2; [done|]. change (logged (o :: l)) with (logged ([o] ++ l)) in Hx. unfold logged in Hx.
    rewrite bind_app, <- app_assoc, !elem_of_app in Hx. rewrite elem_of_app. specialize (Hk1 x Hko). rewrite elem_of_app in Hk1. unfold logged in *. tauto.
Qed.

End log.

(** C6: The log of the overwritten values of the Java threads, whose queues need
    no lock, is complete when the threshold is below 100 percent. In any
    sequence of steps in which threads log values, threads exit and marking
    threads take completed buffers, no step faults and the loop of
    [enqueue_known_active] ends within two turns, every object in the log or
    taken from it was logged, and every logged object that no filter was
    allowed to drop (it stays unmarked and below the top at mark start) is
    still in the log or has been taken. *)
Theorem satb_log_complete threshold n k process_threshold l :
  threshold < 100 → (0 < n)%nat → Forall (op_ok n k) l →
  ∃ s, exec_ops threshold (initial n k process_threshold) l = Some s ∧
    (∀ x, x ∈ seen s → x ∈ logged l) ∧ (∀ x, x ∈ logged l → Forall (op_keeps x) l → x ∈ seen s).
Proof.
  intros Hth Hn Hl. assert (log_ok n k (initial n k process_threshold)) as Hok.
  { split; cbn; [|by rewrite length_replicate|split; cbn; (done || lia || constructor)]. apply Forall_replicate. split; [|done].
    split; [done|constructor]. }
  assert (seen (initial n k process_threshold) = []) as Hempty.
  { unfold seen. cbn. rewrite app_nil_r. apply bind_empty. intros q Hq%elem_of_replicate_inv. by subst q. }
  destruct (exec_ops_spec threshold n k Hth l _ Hok Hl) as (s & E & _ & Hsub & Hkeep). rewrite Hempty, app_nil_r in *.
  exists s. split_and!; [done|done|]. intros x Hx Hk. by apply Hkeep.
Qed.

Lemma satb_log_complete_witness :
  ∃ s, exec_ops 60 (initial 2 1 20) [Log 0 5 (λ _, true) [9; 9]; Log 0 6 (λ _, true) [9; 9]; Log 0 7 (λ x, negb (x =? 6)) [9; 9]; Exit 0 (λ _, true); Take] = Some s ∧
    (∀ x, x ∈ seen s → x ∈ [5; 6; 7]) ∧ 5 ∈ seen s.
Proof.
  destruct (satb_log_complete 60 2 1 20 [Log 0 5 (λ _, true) [9; 9]; Log 0 6 (λ _, true) [9; 9]; Log 0 7 (λ x, negb (x =? 6)) [9; 9]; Exit 0 (λ _, true); Take])
    as (s & E & Hsub & Hkeep); [lia|lia|rewrite !Forall_cons; cbn; split_and!; (lia || done || apply Forall_nil)|].
  exists s. split; [exact E|]. split; [exact Hsub|]. apply Hkeep; [cbn; set_solver|rewrite !Forall_cons; cbn; split_and!; (done || apply Forall_nil)].
Defined.

(** With a threshold of 100 percent the loop does not end: a full buffer that
    keeps all its entries is neither enqueued nor has it room. *)
Lemma threshold_100_loops fuel p buf :
  zero_index_loop (λ _, true) 100 [] fuel (mkPtrQueue true (Some [p]) 0 8 false) buf = None.
Proof. induction fuel as [|fuel IH]; [done|]. cbn [zero_index_loop]. exact IH. Qed.

(** Two threads on the shared queue: the first has filtered the full buffer,
    which moves the index above zero, and has released the lock with the
    buffer taken away; the second finds room in the queue and stores through
    the null buffer. *)
Lemma shared_queue_null_store :
  SharedQueue.run_shared (λ x, negb (x =? 4)) 60 [0; 0; 0; 0] [0; 0; 1; 1]%nat [SharedQueue.SLock 5; SharedQueue.SLock 6]
    (SharedQueue.mkShared (mkPtrQueue true (Some [1; 2; 3; 4]) 0 32 true) (mkPtrQueueSet [] 0 false 20 (-1) 0 [] 32) None) = None.
Proof. vm_compute. reflexivity. Qed.

End SatbLog.
