(* ===== verification/ConcMark.v ===== *)
(** Concurrent marking of G1: [concurrentMark.hpp/.inline.hpp/.cpp].

    Marking tasks run concurrently with each other and with the mutators. A
    state holds the marking bitmap, the global finger and mark stack, the
    tasks with their local queues, and the SATB log of the mutators; each
    step of a task is one access to this shared state, with the control of
    [CMTask::do_marking_step] and of the functions it calls as explicit
    program counters, one per level of the call structure. A mutator stores a
    reference in three steps: it reads the old value, logs it, and stores.

    Addresses are numbers of heap words. A task queue is an atomic
    double-ended queue, as [TaskQueue] shows it to be. [None] is a fault of
    the VM (an access outside a table or a failed [guarantee]) or a step that
    has to wait. *)

From S2P Require Import Prelude BitMap SatbQueue.

Module ConcMark.

(** ** The marking bitmap *)

Record CMBitMap := mkCMBitMap { _bmStartWord : Z; _bmWordSize : Z; _shifter : Z; _bm : BitMap.BitMap }.

Definition endWord (b : CMBitMap) : Z := _bmStartWord b + _bmWordSize b.
Definition heapWordToOffset (b : CMBitMap) (addr : Z) : Z := (addr - _bmStartWord b) >>> _shifter b.
Definition offsetToHeapWord (b : CMBitMap) (offset : Z) : Z := _bmStartWord b + (offset <<< _shifter b).
Definition isMarked (b : CMBitMap) (addr : Z) : option bool := BitMap.at_ (_bm b) (heapWordToOffset b addr).
Definition set_bm (b : CMBitMap) (m : BitMap.BitMap) : CMBitMap := mkCMBitMap (_bmStartWord b) (_bmWordSize b) (_shifter b) m.
Definition parMark (b : CMBitMap) (addr : Z) : option (bool * CMBitMap) :=
  '(won, m) ← BitMap.par_set_bit (_bm b) (heapWordToOffset b addr);
  Some (won, set_bm b m).

(** ** The global mark stack

    [_base] holds the entries below [_index]. *)

Record CMMarkStack := mkMarkStack { _base : list Z; _capacity : Z; _overflow : bool; _should_expand : bool }.

Definition stack_size (st : CMMarkStack) : Z := Z.of_nat (length (_base st)).
Definition stack_isEmpty (st : CMMarkStack) : bool := stack_size st =? 0.
Definition setEmpty (st : CMMarkStack) : CMMarkStack := mkMarkStack [] (_capacity st) false (_should_expand st).

Definition par_push_arr (st : CMMarkStack) (ptr_arr : list Z) : CMMarkStack :=
  let next_index := stack_size st + Z.of_nat (length ptr_arr) in
  if next_index >? _capacity st then mkMarkStack (_base st) (_capacity st) true (_should_expand st)
  else mkMarkStack (_base st ++ ptr_arr) (_capacity st) (_overflow st) (_should_expand st).

Definition par_pop_arr (st : CMMarkStack) (max : Z) : list Z * CMMarkStack :=
  let index := stack_size st in
  if index =? 0 then ([], st)
  else
    let k := MIN2 max index in
    let new_ind := Z.to_nat (index - k) in
    (drop new_ind (_base st), mkMarkStack (take new_ind (_base st)) (_capacity st) (_overflow st) (_should_expand st)).

(** [reserved]: whether the larger backing store could be reserved. *)
Definition expand (MarkStackSizeMax : Z) (reserved : bool) (st : CMMarkStack) : CMMarkStack :=
  if _capacity st =? MarkStackSizeMax then mkMarkStack (_base st) (_capacity st) (_overflow st) false
  else
    let new_capacity := MIN2 (_capacity st * 2) MarkStackSizeMax in
    if reserved then mkMarkStack [] new_capacity (_overflow st) false
    else mkMarkStack (_base st) (_capacity st) (_overflow st) false.

(** ** The barriers of the overflow protocol *)

Record WorkGangBarrierSync := mkBarrier { _n_workers : Z; _n_completed : Z; _should_reset : bool }.

Definition set_n_workers (n : Z) : WorkGangBarrierSync := mkBarrier n 0 false.
Definition barrier_enter (b : WorkGangBarrierSync) : WorkGangBarrierSync :=
  let b := if _should_reset b then mkBarrier (_n_workers b) 0 false else b in
  let n := _n_completed b + 1 in
  mkBarrier (_n_workers b) n (if n =? _n_workers b then true else _should_reset b).
Definition barrier_open (b : WorkGangBarrierSync) : bool := _n_completed b =? _n_workers b.

(** ** Regions

    A humongous object's regions appear as one entry that ends where the
    object's last region ends. *)

Record HeapRegion := mkRegion { bottom : Z; end_ : Z; next_top_at_mark_start : Z; isHumongous : bool }.

(** ** Tasks *)

(** Inside [deal_with_reference], [push] and [grayRoot]. *)
Inductive deal_pc :=
  | Deal (obj : Z)
  | MarkObj (obj : Z) (hr : nat)
  | Marked (obj : Z)
  | Push (obj : Z)
  | Moving (buffer : list Z) (obj : Z)
  | PushStack (buffer : list Z) (obj : Z)
  | StackPushed (obj : Z)
  | PushRetry (obj : Z)
  | GrayRoot (obj : Z)
  | GrayMark (obj : Z) (hr : nat).

(** Inside [scan_object], [apply_closure_to_buffer] and [scanRootRegion]. *)
Inductive scan_pc :=
  | Fields (obj : Z) (i : nat)
  | Buffer (l : list Z)
  | RootFields (obj : Z) (i : nat).

(** Inside [drain_local_queue(partially); drain_global_stack(partially)]. In
    the stages of the local queue, [loop] tells whether the loop of
    [drain_global_stack] has called it. *)
Inductive drain_stage :=
  | LStart (loop : bool) | LPop (loop : bool) | LNext (loop : bool)
  | GStart | GLoop | GGet | GPush (buffer : list Z).
Record drain_pc := mkDrain { d_partially : bool; d_stage : drain_stage }.

(** Inside the iteration over the bitmap of the current region. *)
Inductive iter_pc :=
  | Search (l_offset r_offset : Z)
  | SearchWord (index r_offset : Z)
  | AfterBit (offset r_offset : Z)
  | AfterHumongous.

Inductive guarantee := OutOfRegions | StackEmpty | QueueEmpty | NotOverflown | NoStackOverflow.
Inductive satb_stage := SStart | SLoop | SProcessed (buf : list Z) | SThreads (ts : list nat) | SEmpty (t : nat) (ts : list nat) | SEnd.

(** In [do_marking_step] and the loops that call it. *)
Inductive top_pc :=
  | TBegin
  | TSatb (again : bool) (stage : satb_stage)
  | TDrain | TRegion | TRegionDrain
  | TClaim | TClaimRead | TClaimCas (finger : Z) | TClaimed
  | TWhile | TFinalDrain | TSteal | TTerminate | TGuarantee (g : guarantee)
  | TStepEnd | TEnter1 | TWait1 | TReset | TClear | TEnter2 | TWait2 | TWorkEnd
  | TRoot | TRootObjects (l : list Z)
  | TDone.

Record RegionFields := mkFields { _curr_region : option nat; _finger : option Z; _region_limit : option Z }.
Record Limits := mkLimits {
  _words_scanned : Z;
  _words_scanned_limit : Z;
  _real_words_scanned_limit : Z;
  _refs_reached : Z;
  _refs_reached_limit : Z;
  _real_refs_reached_limit : Z
}.
Record Flags := mkFlags { _has_aborted : bool; _has_timed_out : bool; _draining_satb_buffers : bool }.
Record Counts := mkCounts { _marked_bytes_array : list Z; _card_bm : BitMap.BitMap }.

Record CMTask := mkTask {
  t_region : RegionFields;
  t_limits : Limits;
  t_flags : Flags;
  t_counts : Counts;
  _task_queue : list Z;
  t_deal : option deal_pc;
  t_scan : option scan_pc;
  t_drain : option drain_pc;
  t_iter : option iter_pc;
  t_top : top_pc
}.

Definition set_region (t : CMTask) x := mkTask x (t_limits t) (t_flags t) (t_counts t) (_task_queue t) (t_deal t) (t_scan t) (t_drain t) (t_iter t) (t_top t).
Definition set_limits (t : CMTask) x := mkTask (t_region t) x (t_flags t) (t_counts t) (_task_queue t) (t_deal t) (t_scan t) (t_drain t) (t_iter t) (t_top t).
Definition set_flags (t : CMTask) x := mkTask (t_region t) (t_limits t) x (t_counts t) (_task_queue t) (t_deal t) (t_scan t) (t_drain t) (t_iter t) (t_top t).
Definition set_counts (t : CMTask) x := mkTask (t_region t) (t_limits t) (t_flags t) x (_task_queue t) (t_deal t) (t_scan t) (t_drain t) (t_iter t) (t_top t).
Definition set_queue (t : CMTask) x := mkTask (t_region t) (t_limits t) (t_flags t) (t_counts t) x (t_deal t) (t_scan t) (t_drain t) (t_iter t) (t_top t).
Definition set_deal (t : CMTask) x := mkTask (t_region t) (t_limits t) (t_flags t) (t_counts t) (_task_queue t) x (t_scan t) (t_drain t) (t_iter t) (t_top t).
Definition set_scan (t : CMTask) x := mkTask (t_region t) (t_limits t) (t_flags t) (t_counts t) (_task_queue t) (t_deal t) x (t_drain t) (t_iter t) (t_top t).
Definition set_drain (t : CMTask) x := mkTask (t_region t) (t_limits t) (t_flags t) (t_counts t) (_task_queue t) (t_deal t) (t_scan t) x (t_iter t) (t_top t).
Definition set_iter (t : CMTask) x := mkTask (t_region t) (t_limits t) (t_flags t) (t_counts t) (_task_queue t) (t_deal t) (t_scan t) (t_drain t) x (t_top t).
Definition set_top (t : CMTask) x := mkTask (t_region t) (t_limits t) (t_flags t) (t_counts t) (_task_queue t) (t_deal t) (t_scan t) (t_drain t) (t_iter t) x.

Definition has_aborted (t : CMTask) : bool := _has_aborted (t_flags t).
Definition set_has_aborted (t : CMTask) : CMTask :=
  set_flags t (mkFlags true (_has_timed_out (t_flags t)) (_draining_satb_buffers (t_flags t))).
Definition set_draining (t : CMTask) (b : bool) : CMTask := set_flags t (mkFlags (has_aborted t) (_has_timed_out (t_flags t)) b).

(** ** The state *)

Inductive mutator_pc :=
  | MIdle
  | MLog (obj : Z) (i : nat) (new_val pre_val : Z)
  | MStore (obj : Z) (i : nat) (new_val : Z).
Record mutator := mkMutator { m_queue : SatbQueue.PtrQueue; m_pc : mutator_pc }.

(** The phases of a marking cycle, after the initial-mark pause. *)
Inductive phase := RootScan | Marking | Remark | Completed.
#[global] Instance phase_eq_dec : EqDecision phase.
Proof. solve_decision. Defined.

Record cm_state := mkState {
  _nextMarkBitMap : CMBitMap;
  _markStack : CMMarkStack;
  _global_finger : Z;
  _has_overflown : bool;
  _concurrent_marking_in_progress : bool;
  _first_overflow_barrier_sync : WorkGangBarrierSync;
  _second_overflow_barrier_sync : WorkGangBarrierSync;
  _tasks : list CMTask;
  _root_regions : list (list Z);
  s_satb : SatbQueue.PtrQueueSet;
  s_mutators : list mutator;
  s_claimed : list bool;
  s_heap : gmap Z (list Z);
  s_phase : phase
}.

Definition set_bitmap (s : cm_state) x := mkState x (_markStack s) (_global_finger s) (_has_overflown s) (_concurrent_marking_in_progress s) (_first_overflow_barrier_sync s) (_second_overflow_barrier_sync s) (_tasks s) (_root_regions s) (s_satb s) (s_mutators s) (s_claimed s) (s_heap s) (s_phase s).
Definition set_stack (s : cm_state) x := mkState (_nextMarkBitMap s) x (_global_finger s) (_has_overflown s) (_concurrent_marking_in_progress s) (_first_overflow_barrier_sync s) (_second_overflow_barrier_sync s) (_tasks s) (_root_regions s) (s_satb s) (s_mutators s) (s_claimed s) (s_heap s) (s_phase s).
Definition set_global_finger (s : cm_state) x := mkState (_nextMarkBitMap s) (_markStack s) x (_has_overflown s) (_concurrent_marking_in_progress s) (_first_overflow_barrier_sync s) (_second_overflow_barrier_sync s) (_tasks s) (_root_regions s) (s_satb s) (s_mutators s) (s_claimed s) (s_heap s) (s_phase s).
Definition set_has_overflown (s : cm_state) x := mkState (_nextMarkBitMap s) (_markStack s) (_global_finger s) x (_concurrent_marking_in_progress s) (_first_overflow_barrier_sync s) (_second_overflow_barrier_sync s) (_tasks s) (_root_regions s) (s_satb s) (s_mutators s) (s_claimed s) (s_heap s) (s_phase s).
Definition set_in_progress (s : cm_state) x := mkState (_nextMarkBitMap s) (_markStack s) (_global_finger s) (_has_overflown s) x (_first_overflow_barrier_sync s) (_second_overflow_barrier_sync s) (_tasks s) (_root_regions s) (s_satb s) (s_mutators s) (s_claimed s) (s_heap s) (s_phase s).
Definition set_barriers (s : cm_state) x y := mkState (_nextMarkBitMap s) (_markStack s) (_global_finger s) (_has_overflown s) (_concurrent_marking_in_progress s) x y (_tasks s) (_root_regions s) (s_satb s) (s_mutators s) (s_claimed s) (s_heap s) (s_phase s).
Definition set_tasks (s : cm_state) x := mkState (_nextMarkBitMap s) (_markStack s) (_global_finger s) (_has_overflown s) (_concurrent_marking_in_progress s) (_first_overflow_barrier_sync s) (_second_overflow_barrier_sync s) x (_root_regions s) (s_satb s) (s_mutators s) (s_claimed s) (s_heap s) (s_phase s).
Definition set_roots (s : cm_state) x := mkState (_nextMarkBitMap s) (_markStack s) (_global_finger s) (_has_overflown s) (_concurrent_marking_in_progress s) (_first_overflow_barrier_sync s) (_second_overflow_barrier_sync s) (_tasks s) x (s_satb s) (s_mutators s) (s_claimed s) (s_heap s) (s_phase s).
Definition set_log (s : cm_state) x y := mkState (_nextMarkBitMap s) (_markStack s) (_global_finger s) (_has_overflown s) (_concurrent_marking_in_progress s) (_first_overflow_barrier_sync s) (_second_overflow_barrier_sync s) (_tasks s) (_root_regions s) x y (s_claimed s) (s_heap s) (s_phase s).
Definition set_claimed (s : cm_state) x := mkState (_nextMarkBitMap s) (_markStack s) (_global_finger s) (_has_overflown s) (_concurrent_marking_in_progress s) (_first_overflow_barrier_sync s) (_second_overflow_barrier_sync s) (_tasks s) (_root_regions s) (s_satb s) (s_mutators s) x (s_heap s) (s_phase s).
Definition set_heap (s : cm_state) x := mkState (_nextMarkBitMap s) (_markStack s) (_global_finger s) (_has_overflown s) (_concurrent_marking_in_progress s) (_first_overflow_barrier_sync s) (_second_overflow_barrier_sync s) (_tasks s) (_root_regions s) (s_satb s) (s_mutators s) (s_claimed s) x (s_phase s).
Definition set_phase (s : cm_state) x := mkState (_nextMarkBitMap s) (_markStack s) (_global_finger s) (_has_overflown s) (_concurrent_marking_in_progress s) (_first_overflow_barrier_sync s) (_second_overflow_barrier_sync s) (_tasks s) (_root_regions s) (s_satb s) (s_mutators s) (s_claimed s) (s_heap s) x.

Definition put_task (s : cm_state) (k : nat) (t : CMTask) : cm_state := set_tasks s (<[k := t]> (_tasks s)).
(** [_concurrent]: false during remark. *)
Definition concurrent (s : cm_state) : bool := match s_phase s with Remark | Completed => false | _ => true end.

(** What does not change during a cycle: the heap's regions and bounds, the
    sizes of objects, the size of the queues and the flags; and what the
    environment decides when a step asks it. *)
Record config := mkConfig {
  regions : list HeapRegion;
  _heap_start : Z;
  _heap_end : Z;
  reserved_end : Z;
  size : Z → Z;
  max_elems : Z;
  GCDrainStackTargetSize : Z;
  MarkStackSizeMax : Z;
  G1SATBBufferEnqueueingThresholdPercent : Z;
  n_marking : nat;
  n_remark : nat;
  remark_is_serial : bool
}.

(** The answers of the clock ([should_yield], the time quota), of the random
    choice of a victim to steal from, and of [offer_termination]. *)
Record choice := mkChoice { ch_yield : bool; ch_timeout : bool; ch_victim : option nat; ch_offered : bool }.

Section machine.
Context (c : config).

Fixpoint region_index (l : list HeapRegion) (i : nat) (addr : Z) : option nat :=
  match l with
  | [] => None
  | r :: l => if (bottom r <=? addr) && (addr <? end_ r) then Some i else region_index l (S i) addr
  end.
Definition heap_region_containing_raw (addr : Z) : option nat := region_index (regions c) 0 addr.
Definition is_in_g1_reserved (addr : Z) : bool := (_heap_start c <=? addr) && (addr <? reserved_end c).
Definition obj_allocated_since_next_marking (r : HeapRegion) (obj : Z) : bool := obj >=? next_top_at_mark_start r.

(** [G1CollectedHeap::is_obj_ill] *)
Definition is_obj_ill (s : cm_state) (obj : Z) : bool :=
  if (obj =? NULL) || (obj >=? _heap_end c) then negb (obj =? NULL)
  else
    match heap_region_containing_raw obj ≫= λ i, regions c !! i with
    | Some hr => negb (obj_allocated_since_next_marking hr obj) && negb (default false (isMarked (_nextMarkBitMap s) obj))
    | None => false
    end.

(** ** Counting marked objects *)

Definition card_shift : Z := 9.
Definition card_bitmap_index_for (addr : Z) : Z :=
  ((addr * HeapWordSize) >>> card_shift) - ((_heap_start c * HeapWordSize) >>> card_shift).
Definition is_card_aligned (addr : Z) : bool := (addr * HeapWordSize) mod 2 ^ card_shift =? 0.

Fixpoint set_cards (n : nat) (bm : BitMap.BitMap) (i : Z) : option BitMap.BitMap :=
  match n with O => Some bm | S n => bm ← BitMap.set_bit bm i; set_cards n bm (i + 1) end.

Definition set_card_bitmap_range (card_bm : BitMap.BitMap) (start_idx end_idx : Z) : option BitMap.BitMap :=
  let end_idx := MIN2 end_idx (BitMap._size card_bm) in
  if u64 (end_idx - start_idx) <=? 8 then set_cards (Z.to_nat (end_idx - start_idx)) card_bm start_idx
  else BitMap.set_range card_bm start_idx end_idx.

Definition count_region (start end_ : Z) (hr : nat) (n : Counts) : option Counts :=
  bytes ← _marked_bytes_array n !! hr;
  let marked := <[hr := u64 (bytes + (end_ - start) * HeapWordSize)]> (_marked_bytes_array n) in
  let start_idx := card_bitmap_index_for start in
  let end_idx := card_bitmap_index_for end_ in
  let end_idx := if is_in_g1_reserved end_ && negb (is_card_aligned end_) then end_idx + 1 else end_idx in
  card_bm ← set_card_bitmap_range (_card_bm n) start_idx end_idx;
  Some (mkCounts marked card_bm).

Definition count_object (obj : Z) (hr : nat) (n : Counts) : option Counts := count_region obj (obj + size c obj) hr n.

Definition par_mark_and_count (b : CMBitMap) (obj : Z) (hr : nat) (n : Counts) : option (bool * CMBitMap * Counts) :=
  '(won, b) ← parMark b obj;
  if (won : bool) then n ← count_object obj hr n; Some (true, b, n) else Some (false, b, n).

(** ** Fields of a task *)

Definition words_scanned_period : Z := 12 * 1024.
Definition refs_reached_period : Z := 384.
Definition global_stack_transfer_size : Z := 16.

Definition recalculate_limits (l : Limits) : Limits :=
  let w := _words_scanned l + words_scanned_period in
  let r := _refs_reached l + refs_reached_period in
  mkLimits (_words_scanned l) w w (_refs_reached l) r r.
Definition decrease_limits (l : Limits) : Limits :=
  mkLimits (_words_scanned l) (_real_words_scanned_limit l - 3 * words_scanned_period / 4) (_real_words_scanned_limit l)
    (_refs_reached l) (_real_refs_reached_limit l - 3 * refs_reached_period / 4) (_real_refs_reached_limit l).

Definition clear_region_fields (t : CMTask) : CMTask := set_region t (mkFields None None None).
Definition giveup_current_region (t : CMTask) : CMTask := clear_region_fields t.
Definition move_finger_to (t : CMTask) (new_finger : Z) : CMTask :=
  set_region t (mkFields (_curr_region (t_region t)) (Some new_finger) (_region_limit (t_region t))).

Definition update_region_limit (t : CMTask) (hr : HeapRegion) : CMTask :=
  let f := t_region t in
  let limit := next_top_at_mark_start hr in
  let finger :=
    if limit =? bottom hr then Some (bottom hr)
    else if limit >=? default NULL (_region_limit f) then _finger f
    else Some limit in
  set_region t (mkFields (_curr_region f) finger (Some limit)).

Definition setup_for_region (t : CMTask) (i : nat) (hr : HeapRegion) : CMTask :=
  update_region_limit (set_region t (mkFields (Some i) (Some (bottom hr)) (_region_limit (t_region t)))) hr.

Definition regular_clock_call (ch : choice) (s : cm_state) (t : CMTask) : CMTask :=
  if has_aborted t then t
  else
    let t := set_limits t (recalculate_limits (t_limits t)) in
    if _has_overflown s then set_has_aborted t
    else if negb (concurrent s) then t
    else if ch_yield ch then set_has_aborted t
    else if ch_timeout ch then set_flags t (mkFlags true true (_draining_satb_buffers (t_flags t)))
    else if negb (_draining_satb_buffers (t_flags t)) && SatbQueue._process_completed (s_satb s) then set_has_aborted t
    else t.

Definition check_limits (ch : choice) (s : cm_state) (t : CMTask) : CMTask :=
  let l := t_limits t in
  if (_words_scanned l >=? _words_scanned_limit l) || (_refs_reached l >=? _refs_reached_limit l) then regular_clock_call ch s t else t.

(** [scan_object] begins with the size of the object. *)
Definition scan_object (t : CMTask) (obj : Z) : CMTask :=
  let l := t_limits t in
  set_scan (set_limits t (mkLimits (_words_scanned l + size c obj) (_words_scanned_limit l) (_real_words_scanned_limit l)
    (_refs_reached l) (_refs_reached_limit l) (_real_refs_reached_limit l))) (Some (Fields obj 0)).

Definition nextObject (addr : Z) : Z := addr + size c addr.

(** The owner's end of the queue is the end of the list. *)
Definition queue_has_room (t : CMTask) : bool := Z.of_nat (length (_task_queue t)) <? max_elems c.
Definition queue_push (t : CMTask) (obj : Z) : CMTask := if queue_has_room t then set_queue t (_task_queue t ++ [obj]) else t.
Definition pop_local (t : CMTask) : option Z * CMTask :=
  match last (_task_queue t) with
  | Some obj => (Some obj, set_queue t (take (pred (length (_task_queue t))) (_task_queue t)))
  | None => (None, t)
  end.

(** ** [deal_with_reference], [push] and [grayRoot] *)

Definition mark_step (k : nat) (t : CMTask) (obj : Z) (hr : nat) (next : option deal_pc) (s : cm_state) : option cm_state :=
  '(won, b, n) ← par_mark_and_count (_nextMarkBitMap s) obj hr (t_counts t);
  if (won : bool) then Some (put_task (set_bitmap s b) k (set_deal (set_counts t n) next))
  else Some (put_task s k (set_deal t None)).

Definition step_deal (k : nat) (t : CMTask) (d : deal_pc) (s : cm_state) : option cm_state :=
  match d with
  | Deal obj =>
      let l := t_limits t in
      let t := set_limits t (mkLimits (_words_scanned l) (_words_scanned_limit l) (_real_words_scanned_limit l)
        (_refs_reached l + 1) (_refs_reached_limit l) (_real_refs_reached_limit l)) in
      if is_in_g1_reserved obj then
        marked ← isMarked (_nextMarkBitMap s) obj;
        if (marked : bool) then Some (put_task s k (set_deal t None))
        else
          i ← heap_region_containing_raw obj;
          hr ← regions c !! i;
          Some (put_task s k (set_deal t (if obj_allocated_since_next_marking hr obj then None else Some (MarkObj obj i))))
      else Some (put_task s k (set_deal t None))
  | MarkObj obj hr => mark_step k t obj hr (Some (Marked obj)) s
  | Marked obj =>
      let global_finger := _global_finger s in
      let f := t_region t in
      let push :=
        if match _finger f with Some finger => obj <? finger | None => false end then true
        else if bool_decide (is_Some (_curr_region f)) && (obj <? default NULL (_region_limit f)) then false
        else obj <? global_finger in
      Some (put_task s k (set_deal t (if push then Some (Push obj) else None)))
  | Push obj => Some (put_task s k (if queue_has_room t then set_deal (queue_push t obj) None else set_deal t (Some (Moving [] obj))))
  | Moving buffer obj =>
      if Z.of_nat (length buffer) <? global_stack_transfer_size then
        match pop_local t with
        | (Some o, t) => Some (put_task s k (set_deal t (Some (Moving (buffer ++ [o]) obj))))
        | (None, t) => Some (put_task s k (set_deal t (Some (PushStack buffer obj))))
        end
      else Some (put_task s k (set_deal t (Some (PushStack buffer obj))))
  | PushStack buffer obj =>
      if Z.of_nat (length buffer) >? 0 then
        Some (put_task (set_stack s (par_push_arr (_markStack s) buffer)) k (set_deal t (Some (StackPushed obj))))
      else Some (put_task s k (set_deal (set_limits t (decrease_limits (t_limits t))) (Some (PushRetry obj))))
  | StackPushed obj =>
      let '(s, t) := if _overflow (_markStack s) then (set_has_overflown s true, set_has_aborted t) else (s, t) in
      Some (put_task s k (set_deal (set_limits t (decrease_limits (t_limits t))) (Some (PushRetry obj))))
  | PushRetry obj => Some (put_task s k (set_deal (queue_push t obj) None))
  | GrayRoot obj =>
      i ← heap_region_containing_raw obj;
      hr ← regions c !! i;
      if obj <? next_top_at_mark_start hr then
        marked ← isMarked (_nextMarkBitMap s) obj;
        Some (put_task s k (set_deal t (if (marked : bool) then None else Some (GrayMark obj i))))
      else Some (put_task s k (set_deal t None))
  | GrayMark obj hr => mark_step k t obj hr None s
  end.

(** ** [scan_object] and the closures over buffers and root regions *)

Definition step_scan (ch : choice) (k : nat) (t : CMTask) (sc : scan_pc) (s : cm_state) : option cm_state :=
  match sc with
  | Fields obj i =>
      fs ← s_heap s !! obj;
      match fs !! i with
      | Some y => Some (put_task s k (set_deal (set_scan t (Some (Fields obj (S i)))) (Some (Deal y))))
      | None => Some (put_task s k (check_limits ch s (set_scan t None)))
      end
  | Buffer [] => Some (put_task s k (set_scan t None))
  | Buffer (y :: l) =>
      let t := set_scan t (Some (Buffer l)) in
      Some (put_task s k (if y =? NULL then t else set_deal t (Some (Deal y))))
  | RootFields obj i =>
      fs ← s_heap s !! obj;
      match fs !! i with
      | Some y =>
          let t := set_scan t (Some (RootFields obj (S i))) in
          Some (put_task s k (if (y =? NULL) || (y >=? _heap_end c) then t else set_deal t (Some (GrayRoot y))))
      | None => Some (put_task s k (set_scan t None))
      end
  end.

(** ** [drain_local_queue] and [drain_global_stack] *)

Definition local_target (partially : bool) : Z := if partially then MIN2 (max_elems c / 3) (GCDrainStackTargetSize c) else 0.
Definition global_target (partially : bool) (st : CMMarkStack) : Z := if partially then _capacity st / 3 else 0.
Definition queue_size (t : CMTask) : Z := Z.of_nat (length (_task_queue t)).

Definition step_drain (k : nat) (t : CMTask) (d : drain_pc) (s : cm_state) : option cm_state :=
  let p := d_partially d in
  let go t stage := Some (put_task s k (set_drain t (Some (mkDrain p stage)))) in
  let return_ t := Some (put_task s k (set_drain t None)) in
  let after_local (loop : bool) := if loop then GLoop else GStart in
  match d_stage d with
  | LStart loop =>
      if has_aborted t then go t (after_local loop)
      else if queue_size t >? local_target p then go t (LPop loop)
      else go t (after_local loop)
  | LPop loop =>
      match pop_local t with
      | (Some obj, t) => go (scan_object t obj) (LNext loop)
      | (None, t) => go t (after_local loop)
      end
  | LNext loop => if (queue_size t <=? local_target p) || has_aborted t then go t (after_local loop) else go t (LPop loop)
  | GStart =>
      if has_aborted t then return_ t
      else if stack_size (_markStack s) >? global_target p (_markStack s) then go t GLoop
      else return_ t
  | GLoop => if negb (has_aborted t) && (stack_size (_markStack s) >? global_target p (_markStack s)) then go t GGet else return_ t
  | GGet =>
      let '(buffer, st) := par_pop_arr (_markStack s) global_stack_transfer_size in
      Some (put_task (set_stack s st) k (set_drain t (Some (mkDrain p (GPush buffer)))))
  | GPush [] => go (set_limits t (decrease_limits (t_limits t))) (LStart true)
  | GPush (obj :: l) => go (queue_push t obj) (GPush l)
  end.

Definition drain (t : CMTask) (partially : bool) : CMTask := set_drain t (Some (mkDrain partially (LStart false))).

(** ** The iteration over the bitmap of a region *)

(** [CMBitMapClosure::do_bit] *)
Definition do_bit (s : cm_state) (t : CMTask) (offset : Z) (next : iter_pc) : CMTask :=
  let addr := offsetToHeapWord (_nextMarkBitMap s) offset in
  drain (scan_object (set_iter (move_finger_to t addr) (Some next)) addr) true.

(** What the search has found: the next marked object, or the end. *)
Definition search_result (ch : choice) (s : cm_state) (t : CMTask) (offset r_offset : Z) : CMTask :=
  if offset <? r_offset then do_bit s t offset (AfterBit offset r_offset)
  else regular_clock_call ch s (set_iter (giveup_current_region t) None).

Definition step_iter (ch : choice) (k : nat) (t : CMTask) (it : iter_pc) (s : cm_state) : option cm_state :=
  let b := _nextMarkBitMap s in
  match it with
  | Search l_offset r_offset =>
      if l_offset =? r_offset then Some (put_task s k (search_result ch s t l_offset r_offset))
      else
        let index := BitMap.word_index l_offset in
        w ← BitMap.map_word (_bm b) index;
        let res := w >>> BitMap.bit_in_word l_offset in
        if negb (res =? BitMap.NoBits) then
          Some (put_task s k (search_result ch s t (MIN2 (BitMap.next_one_bit 64 res l_offset) r_offset) r_offset))
        else Some (put_task s k (set_iter t (Some (SearchWord (index + 1) r_offset))))
  | SearchWord index r_offset =>
      if index <? BitMap.word_index (r_offset - 1) + 1 then
        res ← BitMap.map_word (_bm b) index;
        if negb (res =? BitMap.NoBits) then
          Some (put_task s k (search_result ch s t (MIN2 (BitMap.next_one_bit 64 res (BitMap.bit_index index)) r_offset) r_offset))
        else Some (put_task s k (set_iter t (Some (SearchWord (index + 1) r_offset))))
      else Some (put_task s k (search_result ch s t r_offset r_offset))
  | AfterBit offset r_offset =>
      let addr := offsetToHeapWord b offset in
      if has_aborted t then
        let t := set_iter t None in
        finger ← _finger (t_region t);
        limit ← _region_limit (t_region t);
        let new_finger := nextObject finger in
        Some (put_task s k (if new_finger >=? limit then giveup_current_region t else move_finger_to t new_finger))
      else
        limit ← _region_limit (t_region t);
        let end_addr := MIN2 (endWord b) limit in
        let next_addr := MIN2 (nextObject addr) end_addr in
        Some (put_task s k (set_iter t (Some (Search (heapWordToOffset b next_addr) r_offset))))
  | AfterHumongous => Some (put_task s k (regular_clock_call ch s (set_iter (giveup_current_region t) None)))
  end.

(** The branch of [do_marking_step] for a task that holds a region. *)
Definition scan_region (ch : choice) (s : cm_state) (t : CMTask) (hr : HeapRegion) : option CMTask :=
  let b := _nextMarkBitMap s in
  let t := update_region_limit t hr in
  finger ← _finger (t_region t);
  limit ← _region_limit (t_region t);
  if limit <=? finger then Some (regular_clock_call ch s (giveup_current_region t))
  else if isHumongous hr && (finger =? bottom hr) then
    marked ← isMarked b finger;
    Some (if (marked : bool) then do_bit s t (heapWordToOffset b finger) AfterHumongous else set_iter t (Some AfterHumongous))
  else
    let start_addr := MAX2 (_bmStartWord b) finger in
    let end_addr := MIN2 (endWord b) limit in
    if end_addr >? start_addr then
      Some (set_iter t (Some (Search (heapWordToOffset b start_addr) (heapWordToOffset b end_addr))))
    else Some (regular_clock_call ch s (giveup_current_region t)).

(** ** [do_marking_step] and its callers *)

Definition reset_marking_state (s : cm_state) : cm_state :=
  let st := _markStack s in
  let st := setEmpty (mkMarkStack (_base st) (_capacity st) (_overflow st) (_has_overflown s)) in
  set_tasks (set_global_finger (set_has_overflown (set_stack s st) false) (_heap_start c)) ((λ t, set_queue t []) <$> _tasks s).

Definition out_of_regions (s : cm_state) : bool := _global_finger s =? _heap_end c.

Definition holds (s : cm_state) (t : CMTask) (g : guarantee) : bool :=
  match g with
  | OutOfRegions => out_of_regions s
  | StackEmpty => stack_isEmpty (_markStack s)
  | QueueEmpty => queue_size t =? 0
  | NotOverflown => negb (_has_overflown s)
  | NoStackOverflow => negb (_overflow (_markStack s))
  end.
Definition after_guarantee (g : guarantee) : top_pc :=
  match g with
  | OutOfRegions => TGuarantee StackEmpty
  | StackEmpty => TGuarantee QueueEmpty
  | QueueEmpty => TGuarantee NotOverflown
  | NotOverflown => TGuarantee NoStackOverflow
  | NoStackOverflow => TStepEnd
  end.

Definition is_serial (s : cm_state) : bool := if concurrent s then false else remark_is_serial c.

(** The clearing of the flags at the start of a step. *)
Definition begin_step (s : cm_state) (t : CMTask) : CMTask :=
  let l := t_limits t in
  let l := recalculate_limits (mkLimits 0 (_words_scanned_limit l) (_real_words_scanned_limit l) 0 (_refs_reached_limit l) (_real_refs_reached_limit l)) in
  set_flags (set_limits t l) (mkFlags (_has_overflown s) false false).

(** [drain_satb_buffers]; [next] is what follows it. *)
Definition step_satb (ch : choice) (k : nat) (t : CMTask) (again : bool) (stage : satb_stage) (s : cm_state) : option cm_state :=
  let next := if again then TFinalDrain else TDrain in
  let go t stage := Some (put_task s k (set_top t (TSatb again stage))) in
  match stage with
  | SStart => if has_aborted t then Some (put_task s k (set_top t next)) else go (set_draining t true) SLoop
  | SLoop =>
      if negb (has_aborted t) then
        match SatbQueue.pop_completed_buffer (s_satb s) with
        | (Some buf, qs) =>
            let objects := SatbQueue.objects_of_buffer buf 0 (SatbQueue._buffer_size (s_satb s)) in
            let t := set_scan (set_top t (TSatb again (SProcessed buf))) (Some (Buffer objects)) in
            Some (put_task (set_log s qs (s_mutators s)) k t)
        | (None, _) => if negb (concurrent s) then go t (SThreads (seq 0 (length (s_mutators s)))) else go t SEnd
        end
      else go t SEnd
  | SProcessed buf =>
      let s := set_log s (SatbQueue.deallocate_buffer (s_satb s) buf) (s_mutators s) in
      Some (put_task s k (set_top (regular_clock_call ch s t) (TSatb again SLoop)))
  | SThreads [] => go t SEnd
  | SThreads (i :: ts) =>
      if negb (is_serial s) && default true (s_claimed s !! i) then go t (SThreads ts)
      else
        m ← s_mutators s !! i;
        let t := set_scan (set_top t (TSatb again (SEmpty i ts))) (Some (Buffer (SatbQueue.queue_objects (m_queue m)))) in
        Some (put_task (set_claimed s (<[i := true]> (s_claimed s))) k t)
  | SEmpty i ts =>
      m ← s_mutators s !! i;
      let m := mkMutator (SatbQueue.empty_queue (m_queue m)) (m_pc m) in
      Some (put_task (set_log s (s_satb s) (<[i := m]> (s_mutators s))) k (set_top t (TSatb again (SThreads ts))))
  | SEnd => Some (put_task s k (set_top (set_limits (set_draining t false) (decrease_limits (t_limits t))) next))
  end.

Definition step_top (ch : choice) (k : nat) (t : CMTask) (s : cm_state) : option cm_state :=
  let go t pc := Some (put_task s k (set_top t pc)) in
  match t_top t with
  | TBegin => go (begin_step s t) (TSatb false SStart)
  | TSatb again stage => step_satb ch k t again stage s
  | TDrain => go (drain t true) TRegion
  | TRegion =>
      match _curr_region (t_region t) with
      | Some i =>
          if has_aborted t then go t TRegionDrain
          else hr ← regions c !! i; t ← scan_region ch s t hr; go t TRegionDrain
      | None => go t TRegionDrain
      end
  | TRegionDrain => go (drain t true) TClaim
  | TClaim =>
      if negb (has_aborted t) && bool_decide (_curr_region (t_region t) = None) && negb (out_of_regions s) then go t TClaimRead else go t TWhile
  | TClaimRead => if _global_finger s <? _heap_end c then go t (TClaimCas (_global_finger s)) else go t TClaimed
  | TClaimCas finger =>
      i ← heap_region_containing_raw finger;
      hr ← regions c !! i;
      if _global_finger s =? finger then
        let t := if next_top_at_mark_start hr >? bottom hr then setup_for_region t i hr else t in
        Some (put_task (set_global_finger s (end_ hr)) k (set_top t TClaimed))
      else go t TClaimRead
  | TClaimed => go (regular_clock_call ch s t) TClaim
  | TWhile =>
      if bool_decide (is_Some (_curr_region (t_region t))) && negb (has_aborted t) then go t TRegion
      else if negb (has_aborted t) then go t (TSatb true SStart)
      else go t TFinalDrain
  | TFinalDrain => go (drain t false) TSteal
  | TSteal =>
      if negb (is_serial s) && negb (has_aborted t) then
        match ch_victim ch with
        | Some j =>
            victim ← _tasks s !! j;
            match _task_queue victim with
            | obj :: q =>
                if bool_decide (j = k) then None
                else Some (put_task (put_task s j (set_queue victim q)) k (drain (scan_object t obj) false))
            | [] => None
            end
        | None => go t TTerminate
        end
      else go t TTerminate
  | TTerminate =>
      if has_aborted t then go t TStepEnd
      else if is_serial s || ch_offered ch then
        let s := if bool_decide (k = 0%nat) && concurrent s then set_in_progress s false else s in
        Some (put_task s k (set_top t (TGuarantee OutOfRegions)))
      else go (set_has_aborted t) TStepEnd
  | TGuarantee g => if holds s t g then go t (after_guarantee g) else None
  | TStepEnd => if has_aborted t && _has_overflown s then go t (if is_serial s then TClear else TEnter1) else go t TWorkEnd
  | TEnter1 =>
      Some (put_task (set_barriers s (barrier_enter (_first_overflow_barrier_sync s)) (_second_overflow_barrier_sync s)) k (set_top t TWait1))
  | TWait1 =>
      if barrier_open (_first_overflow_barrier_sync s) then go t (if concurrent s && bool_decide (k = 0%nat) then TReset else TClear) else None
  | TReset => let s := reset_marking_state s in t ← _tasks s !! k; Some (put_task s k (set_top t TClear))
  | TClear => go (clear_region_fields t) (if is_serial s then TWorkEnd else TEnter2)
  | TEnter2 =>
      Some (put_task (set_barriers s (_first_overflow_barrier_sync s) (barrier_enter (_second_overflow_barrier_sync s))) k (set_top t TWait2))
  | TWait2 => if barrier_open (_second_overflow_barrier_sync s) then go t TWorkEnd else None
  | TWorkEnd =>
      if concurrent s then Some (put_task (set_has_overflown s false) k (set_top t (if has_aborted t then TBegin else TDone)))
      else go t (if has_aborted t && negb (_has_overflown s) then TBegin else TDone)
  | TRoot =>
      match _root_regions s with
      | objects :: l => Some (put_task (set_roots s l) k (set_top t (TRootObjects objects)))
      | [] => go t TDone
      end
  | TRootObjects [] => go t TRoot
  | TRootObjects (obj :: l) => go (set_scan t (Some (RootFields obj 0))) (TRootObjects l)
  | TDone => None
  end.

Definition step_task (ch : choice) (k : nat) (s : cm_state) : option cm_state :=
  t ← _tasks s !! k;
  match t_deal t, t_scan t, t_drain t, t_iter t with
  | Some d, _, _, _ => step_deal k t d s
  | None, Some sc, _, _ => step_scan ch k t sc s
  | None, None, Some d, _ => step_drain k t d s
  | None, None, None, Some it => step_iter ch k t it s
  | None, None, None, None => step_top ch k t s
  end.

(** ** Mutators

    [retain] is what the filter of the log reads from the marking bitmap
    while the value is logged. *)

Definition put_mutator (s : cm_state) (j : nat) (m : mutator) : cm_state := set_log s (s_satb s) (<[j := m]> (s_mutators s)).

Inductive mutator_action :=
  | StoreField (obj : Z) (i : nat) (new_val : Z)   (* begin a store: the barrier reads the field *)
  | Continue (retain : Z → bool) (fresh : list Z)  (* the next step of the store *)
  | ThreadExit (retain : Z → bool).

Definition step_mutator (a : mutator_action) (j : nat) (s : cm_state) : option cm_state :=
  m ← s_mutators s !! j;
  match m_pc m, a with
  | MIdle, StoreField obj i new_val =>
      fs ← s_heap s !! obj;
      pre_val ← fs !! i;
      Some (put_mutator s j (mkMutator (m_queue m) (MLog obj i new_val pre_val)))
  | MIdle, ThreadExit retain =>
      '(q, qs) ← SatbQueue.flush retain (m_queue m) (s_satb s);
      Some (set_log s qs (<[j := mkMutator q MIdle]> (s_mutators s)))
  | MLog obj i new_val pre_val, Continue retain fresh =>
      if pre_val =? NULL then Some (put_mutator s j (mkMutator (m_queue m) (MStore obj i new_val)))
      else
        '(q, qs) ← SatbQueue.enqueue retain (G1SATBBufferEnqueueingThresholdPercent c) fresh 2 pre_val (m_queue m) (s_satb s);
        Some (set_log s qs (<[j := mkMutator q (MStore obj i new_val)]> (s_mutators s)))
  | MStore obj i new_val, Continue _ _ =>
      fs ← s_heap s !! obj;
      Some (set_heap (put_mutator s j (mkMutator (m_queue m) MIdle)) (<[obj := <[i := new_val]> fs]> (s_heap s)))
  | _, _ => None
  end.

(** ** Phases *)

Definition all_done (s : cm_state) : bool := forallb (λ t, match t_top t with TDone => true | _ => false end) (_tasks s).
Fixpoint start_tasks (n : nat) (pc : top_pc) (l : list CMTask) : list CMTask :=
  match n, l with
  | S n, t :: l => set_top t pc :: start_tasks n pc l
  | _, _ => l
  end.

(** [markFromRoots] *)
Definition start_marking (s : cm_state) : cm_state :=
  let s := set_barriers s (set_n_workers (Z.of_nat (n_marking c))) (set_n_workers (Z.of_nat (n_marking c))) in
  set_phase (set_in_progress (set_tasks s (start_tasks (n_marking c) TBegin (_tasks s))) true) Marking.

(** [checkpointRootsFinalWork] up to the remark task. *)
Definition start_remark (s : cm_state) : cm_state :=
  let s := set_barriers s (set_n_workers (Z.of_nat (n_remark c))) (set_n_workers (Z.of_nat (n_remark c))) in
  let s := set_claimed s (replicate (length (s_mutators s)) false) in
  set_phase (set_tasks s (start_tasks (n_remark c) TBegin (_tasks s))) Remark.

(** The phase changes when all tasks have returned; the end of remark is
    [checkpointRootsFinal], which restarts marking after an overflow and calls
    [set_non_marking_state] otherwise. [reserved] is whether a larger mark
    stack could be reserved. *)
Definition next_phase (reserved : bool) (s : cm_state) : option cm_state :=
  if negb (all_done s) then None
  else
    match s_phase s with
    | RootScan => Some (start_marking s)
    | Marking => Some (start_remark s)
    | Remark =>
        if negb (_has_overflown s || (SatbQueue._n_completed_buffers (s_satb s) =? 0)) then None
        else
          let overflown := _has_overflown s in
          let s := reset_marking_state s in
          let st := _markStack s in
          let s := set_stack s (if _should_expand st then expand (MarkStackSizeMax c) reserved st else st) in
          Some (if overflown then start_marking s else set_phase (set_in_progress s false) Completed)
    | Completed => None
    end.

(** ** Aggregating the counts

    [AggregateCountDataHRClosure::doHeapRegion] for the region with index
    [i]: the marked bytes to add to the region, and the global card bitmap. *)

Fixpoint union_cards (fuel : nat) (task_card_bm cm_card_bm : BitMap.BitMap) (scan_idx limit_idx : Z) : option BitMap.BitMap :=
  match fuel with
  | O => None
  | S fuel =>
      if scan_idx <? limit_idx then
        cm_card_bm ← BitMap.set_bit cm_card_bm scan_idx;
        next ← BitMap.get_next_one_offset task_card_bm (MIN2 (scan_idx + 1) limit_idx) limit_idx;
        union_cards fuel task_card_bm cm_card_bm next limit_idx
      else Some cm_card_bm
  end.

Fixpoint aggregate_tasks (i : nat) (start_idx limit_idx : Z) (l : list Counts) (marked_bytes : Z) (cm_card_bm : BitMap.BitMap) : option (Z * BitMap.BitMap) :=
  match l with
  | [] => Some (marked_bytes, cm_card_bm)
  | n :: l =>
      bytes ← _marked_bytes_array n !! i;
      scan_idx ← BitMap.get_next_one_offset (_card_bm n) start_idx limit_idx;
      cm_card_bm ← union_cards (S (Z.to_nat (limit_idx - start_idx))) (_card_bm n) cm_card_bm scan_idx limit_idx;
      aggregate_tasks i start_idx limit_idx l (u64 (marked_bytes + bytes)) cm_card_bm
  end.

Definition aggregate_region (i : nat) (hr : HeapRegion) (s : cm_state) (cm_card_bm : BitMap.BitMap) : option (Z * BitMap.BitMap) :=
  let start := bottom hr in
  let limit := next_top_at_mark_start hr in
  if start =? limit then Some (0, cm_card_bm)
  else
    let start_idx := card_bitmap_index_for start in
    let limit_idx := card_bitmap_index_for limit in
    let limit_idx := if is_in_g1_reserved limit && negb (is_card_aligned limit) then limit_idx + 1 else limit_idx in
    aggregate_tasks i start_idx limit_idx (t_counts <$> _tasks s) 0 cm_card_bm.

End machine.

(** ** Runs

    The mutators run until remark. A stored reference is valid, the filter of
    the log drops only entries that are no longer ill, and a new log buffer
    has the size of the set. *)

Section steps.
Context (c : config) (valid_ref : Z → Prop) (n_slots : nat).

Definition action_ok (s : cm_state) (a : mutator_action) : Prop :=
  match a with
  | StoreField _ _ new_val => valid_ref new_val
  | Continue retain fresh => (∀ x, is_obj_ill c s x = true → retain x = true) ∧ length fresh = n_slots
  | ThreadExit retain => ∀ x, is_obj_ill c s x = true → retain x = true
  end.

Inductive cm_step : cm_state → cm_state → Prop :=
  | task_step ch k s s' : step_task c ch k s = Some s' → cm_step s s'
  | mutator_step a j s s' : s_phase s = RootScan ∨ s_phase s = Marking → action_ok s a → step_mutator c a j s = Some s' → cm_step s s'
  | phase_step reserved s s' : next_phase c reserved s = Some s' → cm_step s s'.

End steps.

End ConcMark.
