(* ===== verification/ConcMarkFacts.v ===== *)
(** Correctness of concurrent marking: every object that is reachable when
    the cycle starts is marked when it completes, whatever the interleaving
    of the tasks and the mutators, and the marked bytes are counted exactly.

    The invariant says of every edge of the snapshot that its target is
    marked, or a reference to it is in the log or in the hands of a task, or
    its source is grey: unmarked, or still to be scanned because it is queued,
    on the mark stack, in the hands of a task, or in front of a finger. *)

From S2P Require Import Prelude BitMap SatbQueue ConcMark.

Module ConcMarkFacts.
Import ConcMark.

Notation bits b := (BitMapFacts.bits_of (_bm b)).

Section facts.
Context (c : config) (snap : gmap Z (list Z)) (roots : list Z) (sh : Z) (n_slots : nat).

(** ** The heap at the start of the cycle *)

Fixpoint tiled (lo : Z) (l : list HeapRegion) (hi : Z) : Prop :=
  match l with
  | [] => lo = hi
  | r :: l => bottom r = lo ∧ bottom r < end_ r ∧ bottom r <= next_top_at_mark_start r <= end_ r ∧ tiled (end_ r) l hi
  end.

Definition aligned (a : Z) : Prop := (a - _heap_start c) mod 2 ^ sh = 0.

(** Allocated before marking started. *)
Definition below (x : Z) : bool :=
  match heap_region_containing_raw c x ≫= λ i, regions c !! i with Some hr => x <? next_top_at_mark_start hr | None => false end.
Definition relevant (x : Z) : Prop := x ∈ dom snap ∧ below x = true.

Definition valid_ref (y : Z) : Prop := is_in_g1_reserved c y = true → y < _heap_end c ∧ (below y = true → y ∈ dom snap).
Definition edge (x : Z) (i : nat) (y : Z) : Prop := ∃ fs, snap !! x = Some fs ∧ fs !! i = Some y.

Record heap_ok : Prop := mkHeapOk {
  ho_tiled : tiled (_heap_start c) (regions c) (_heap_end c);
  ho_start : 0 < _heap_start c;
  ho_reserved : _heap_end c <= reserved_end c;
  ho_shift : 0 <= sh;
  ho_in_heap : ∀ x, x ∈ dom snap → _heap_start c <= x < _heap_end c;
  ho_size : ∀ x, x ∈ dom snap → 0 < size c x;
  ho_disjoint : ∀ x y, x ∈ dom snap → y ∈ dom snap → x < y → x + size c x <= y;
  ho_aligned : ∀ x, x ∈ dom snap → aligned x ∧ aligned (x + size c x);
  ho_region_aligned : ∀ r, r ∈ regions c → aligned (bottom r) ∧ aligned (next_top_at_mark_start r);
  ho_humongous : ∀ x i hr, relevant x → heap_region_containing_raw c x = Some i → regions c !! i = Some hr → isHumongous hr = true → x = bottom hr;
  ho_fields : ∀ x i y, edge x i y → valid_ref y;
  ho_room : local_target c true + global_stack_transfer_size <= max_elems c;
  ho_target : 0 <= local_target c true;
  ho_elems : global_stack_transfer_size <= max_elems c;
  ho_threshold : G1SATBBufferEnqueueingThresholdPercent c < 100
}.

Hypothesis Hheap : heap_ok.

(** ** Regions *)

Lemma regions_tiled_bounds l : ∀ lo hi, tiled lo l hi → lo <= hi.
Proof. induction l as [|r l IH]; cbn; intros lo hi H; [lia|]. destruct H as (<- & H1 & H2 & H3%IH). lia. Qed.

Lemma tiled_lookup l : ∀ lo hi i hr, tiled lo l hi → l !! i = Some hr →
  lo <= bottom hr ∧ bottom hr < end_ hr ∧ bottom hr <= next_top_at_mark_start hr <= end_ hr ∧ end_ hr <= hi.
Proof.
  induction l as [|r l IH]; intros lo hi [|i] hr; cbn; try done.
  - intros (<- & H1 & H2 & H3%regions_tiled_bounds) [= <-]. lia.
  - intros (<- & H1 & H2 & H3) Hi. pose proof (IH _ _ _ _ H3 Hi). lia.
Qed.

Lemma region_index_found l : ∀ lo hi k a, tiled lo l hi → lo <= a < hi →
  ∃ i hr, region_index l k a = Some (k + i)%nat ∧ l !! i = Some hr ∧ bottom hr <= a < end_ hr.
Proof.
  induction l as [|r l IH]; cbn; intros lo hi k a H Ha; [lia|]. destruct H as (<- & H1 & H2 & H3).
  destruct (Z.leb_spec (bottom r) a); [|lia]. destruct (Z.ltb_spec a (end_ r)); cbn [andb].
  - exists 0%nat, r. split_and!; try done; try lia. f_equal. lia.
  - destruct (IH _ _ (S k) a H3) as (i & hr & E & Hi & Hb); [lia|]. exists (S i), hr. split_and!; try done; try lia. rewrite E. f_equal. lia.
Qed.

Lemma region_index_unique l : ∀ lo hi k a i hr, tiled lo l hi → l !! i = Some hr → bottom hr <= a < end_ hr → region_index l k a = Some (k + i)%nat.
Proof.
  induction l as [|r l IH]; intros lo hi k a [|i] hr; cbn; try done.
  - intros (<- & H1 & H2 & H3) [= <-] Ha. rewrite (proj2 (Z.leb_le _ _)), (proj2 (Z.ltb_lt _ _)) by lia. cbn. f_equal. lia.
  - intros (<- & H1 & H2 & H3) Hi Ha. pose proof (tiled_lookup _ _ _ _ _ H3 Hi). rewrite (proj2 (Z.ltb_ge a (end_ r))), andb_false_r by lia.
    rewrite (IH _ _ (S k) a i hr) by done. f_equal. lia.
Qed.

Lemma tiled_next l : ∀ lo hi i hr, tiled lo l hi → l !! i = Some hr → end_ hr = hi ∨ ∃ hr', l !! S i = Some hr' ∧ bottom hr' = end_ hr.
Proof.
  induction l as [|r l IH]; intros lo hi [|i] hr; cbn; try done.
  - intros (<- & H1 & H2 & H3) [= <-]. destruct l as [|r' l]; cbn in *; [by left|]. right. exists r'. by destruct H3 as (-> & _).
  - intros (<- & H1 & H2 & H3) Hi. exact (IH _ _ _ _ H3 Hi).
Qed.

Lemma region_found a : _heap_start c <= a < _heap_end c →
  ∃ i hr, heap_region_containing_raw c a = Some i ∧ regions c !! i = Some hr ∧ bottom hr <= a < end_ hr.
Proof. intros Ha. destruct (region_index_found _ _ _ 0 a (ho_tiled Hheap) Ha) as (i & hr & E & H). by exists i, hr. Qed.

Lemma region_unique a i hr : regions c !! i = Some hr → bottom hr <= a < end_ hr → heap_region_containing_raw c a = Some i.
Proof. intros Hi Ha. exact (region_index_unique _ _ _ 0 a i hr (ho_tiled Hheap) Hi Ha). Qed.

Lemma region_index_inv l : ∀ k a i, region_index l k a = Some i → ∃ j hr, i = (k + j)%nat ∧ l !! j = Some hr ∧ bottom hr <= a < end_ hr.
Proof.
  induction l as [|r l IH]; cbn; intros k a i; [done|]. destruct (Z.leb_spec (bottom r) a), (Z.ltb_spec a (end_ r)); cbn [andb].
  1: intros [= <-]; exists 0%nat, r; split_and!; [lia|done|done|done].
  all: intros (j & hr & -> & ? & ?)%IH; exists (S j), hr; split; [lia|done].
Qed.

Lemma region_inv a i : heap_region_containing_raw c a = Some i → ∃ hr, regions c !! i = Some hr ∧ bottom hr <= a < end_ hr.
Proof. intros (j & hr & -> & H)%region_index_inv. by exists hr. Qed.

Lemma region_bounds i hr : regions c !! i = Some hr →
  _heap_start c <= bottom hr ∧ bottom hr < end_ hr ∧ bottom hr <= next_top_at_mark_start hr <= end_ hr ∧ end_ hr <= _heap_end c.
Proof. apply tiled_lookup, Hheap. Qed.

Lemma below_spec x i hr : heap_region_containing_raw c x = Some i → regions c !! i = Some hr → below x = (x <? next_top_at_mark_start hr).
Proof. intros E Hi. unfold below. rewrite E. cbn. by rewrite Hi. Qed.

Lemma relevant_region x : relevant x →
  ∃ i hr, heap_region_containing_raw c x = Some i ∧ regions c !! i = Some hr ∧ bottom hr <= x < next_top_at_mark_start hr ∧ x < end_ hr.
Proof.
  intros [Hd Hb]. destruct (region_found x) as (i & hr & E & Hi & Hx); [by apply (ho_in_heap Hheap)|]. exists i, hr.
  rewrite (below_spec x i hr E Hi) in Hb. split_and!; try done; lia.
Qed.

(** Where the global finger can be. *)
Definition finger_ok (f : Z) : Prop := f = _heap_end c ∨ ∃ i hr, regions c !! i = Some hr ∧ bottom hr = f.

Lemma finger_ok_start : finger_ok (_heap_start c).
Proof. pose proof (ho_tiled Hheap) as H. unfold finger_ok. destruct (regions c) as [|r l]; cbn in *; [by left|]. right. exists 0%nat, r. by destruct H. Qed.

Lemma finger_ok_end i hr : regions c !! i = Some hr → finger_ok (end_ hr).
Proof. intros Hi. destruct (tiled_next _ _ _ _ _ (ho_tiled Hheap) Hi) as [H|(hr' & H1 & H2)]; [by left|right; eauto]. Qed.

(** ** Offsets *)

Definition off (a : Z) : Z := (a - _heap_start c) >>> sh.

Lemma off_mul a : aligned a → off a * 2 ^ sh = a - _heap_start c.
Proof.
  intros Ha. unfold off, aligned in *. pose proof (ho_shift Hheap). rewrite Z.shiftr_div_pow2 by done.
  pose proof (Z.pow_pos_nonneg 2 sh). pose proof (Z.div_mod (a - _heap_start c) (2 ^ sh)). lia.
Qed.

Lemma off_lt a b : aligned a → aligned b → off a < off b ↔ a < b.
Proof. intros Ha%off_mul Hb%off_mul. pose proof (Z.pow_pos_nonneg 2 sh ltac:(lia) (ho_shift Hheap)). split; intros; nia. Qed.

Lemma off_le a b : aligned a → aligned b → off a <= off b ↔ a <= b.
Proof. intros Ha%off_mul Hb%off_mul. pose proof (Z.pow_pos_nonneg 2 sh ltac:(lia) (ho_shift Hheap)). split; intros; nia. Qed.

Lemma off_inj a b : aligned a → aligned b → off a = off b → a = b.
Proof. intros Ha Hb E. pose proof (off_le a b Ha Hb). pose proof (off_le b a Hb Ha). lia. Qed.

Lemma aligned_start : aligned (_heap_start c).
Proof. unfold aligned. rewrite Z.sub_diag. apply Z.mod_0_l. pose proof (Z.pow_pos_nonneg 2 sh ltac:(lia) (ho_shift Hheap)). lia. Qed.

Lemma off_start : off (_heap_start c) = 0.
Proof. unfold off. rewrite Z.sub_diag. apply Z.shiftr_0_l. Qed.

Lemma off_nonneg x : x ∈ dom snap → 0 <= off x.
Proof.
  intros Hx. rewrite <- off_start. apply off_le; [apply aligned_start|by apply (ho_aligned Hheap)|]. pose proof (ho_in_heap Hheap x Hx). lia.
Qed.

(** No object starts inside another one. *)
Lemma next_object x y : x ∈ dom snap → y ∈ dom snap → off x < off y → off (nextObject c x) <= off y.
Proof.
  intros Hx Hy Hlt. destruct (ho_aligned Hheap x Hx) as [Ax Ax']. destruct (ho_aligned Hheap y Hy) as [Ay _].
  apply off_le; [done|done|]. unfold nextObject. apply (ho_disjoint Hheap); try done. by apply off_lt.
Qed.

(** ** The bitmap *)

Record bitmap_ok (b : CMBitMap) : Prop := mkBitmapOk {
  bo_start : _bmStartWord b = _heap_start c;
  bo_shift : _shifter b = sh;
  bo_end : _heap_end c <= endWord b;
  bo_end_aligned : aligned (endWord b);
  bo_wf : BitMapFacts.well_formed (_bm b);
  bo_size : BitMap._size (_bm b) = off (endWord b)
}.

Definition marked (b : CMBitMap) (x : Z) : Prop := off x ∈ bits b.
#[global] Instance marked_dec b x : Decision (marked b x).
Proof. unfold marked. apply _. Defined.

Definition addr_of (offset : Z) : Z := _heap_start c + (offset <<< sh).

Lemma heapWordToOffset_off b a : bitmap_ok b → heapWordToOffset b a = off a.
Proof. intros H. unfold heapWordToOffset, off. by rewrite (bo_start _ H), (bo_shift _ H). Qed.

Lemma offsetToHeapWord_addr b o : bitmap_ok b → offsetToHeapWord b o = addr_of o.
Proof. intros H. unfold offsetToHeapWord, addr_of. by rewrite (bo_start _ H), (bo_shift _ H). Qed.

Lemma addr_of_off x : aligned x → addr_of (off x) = x.
Proof. intros H%off_mul. unfold addr_of. rewrite Z.shiftl_mul_pow2 by apply Hheap. lia. Qed.

Lemma off_in_bitmap b y : bitmap_ok b → _heap_start c <= y < _heap_end c → 0 <= off y < BitMap._size (_bm b).
Proof.
  intros Hb Hy. pose proof (bo_end _ Hb). rewrite (bo_size _ Hb). pose proof (off_mul _ (bo_end_aligned _ Hb)) as He.
  pose proof (ho_shift Hheap). pose proof (Z.pow_pos_nonneg 2 sh ltac:(lia) (ho_shift Hheap)). unfold off at 1 2. rewrite Z.shiftr_div_pow2 by done.
  split; [apply Z.div_pos; lia|]. apply Z.div_lt_upper_bound; [lia|]. rewrite Z.mul_comm, He. lia.
Qed.

Lemma isMarked_spec b y : bitmap_ok b → _heap_start c <= y < _heap_end c → isMarked b y = Some (bool_decide (marked b y)).
Proof.
  intros Hb Hy. unfold isMarked. rewrite heapWordToOffset_off by done. apply BitMapFacts.at_spec; [apply Hb|by apply off_in_bitmap].
Qed.

Lemma parMark_spec b x :
  bitmap_ok b → _heap_start c <= x < _heap_end c →
  ∃ b', parMark b x = Some (negb (bool_decide (marked b x)), b') ∧ bitmap_ok b' ∧ bits b' = {[off x]} ∪ bits b.
Proof.
  intros Hb Hx. unfold parMark. rewrite heapWordToOffset_off by done.
  destruct (BitMapFacts.par_set_bit_spec (_bm b) (off x)) as (m' & E & Hwf & Hs & Hl & Hbits); [apply Hb|by apply off_in_bitmap|].
  rewrite E. cbn [mbind option_bind]. eexists. split; [done|]. split; [|done].
  destruct Hb as [H1 H2 H3 H4 H5 H6]. split; try done. cbn. rewrite Hs. exact H6.
Qed.

Lemma marked_mono b b' x : bits b ⊆ bits b' → marked b x → marked b' x.
Proof. intros Hs Hm. by apply Hs. Qed.

(** ** What the tasks hold *)

Definition deal_pending (d : deal_pc) : list Z :=
  match d with Deal y | MarkObj y _ | GrayRoot y | GrayMark y _ => [y] | _ => [] end.
Definition deal_held (d : deal_pc) : list Z :=
  match d with
  | Marked y | Push y | StackPushed y | PushRetry y => [y]
  | Moving buf y | PushStack buf y => y :: buf
  | _ => []
  end.

(** References that the task is going to deal with. *)
Definition task_pending (t : CMTask) : list Z :=
  match t_deal t with Some d => deal_pending d | None => [] end ++ match t_scan t with Some (Buffer l) => l | _ => [] end.

(** Marked objects that the task is going to scan or pass on. *)
Definition task_held (t : CMTask) : list Z :=
  match t_deal t with Some d => deal_held d | None => [] end ++
  match t_drain t with Some (mkDrain _ (GPush l)) => l | _ => [] end ++ _task_queue t.

Definition task_scans (t : CMTask) (x : Z) (i : nat) : Prop :=
  match t_scan t with Some (Fields o j) => o = x ∧ (j <= i)%nat | _ => False end.

(** The part of its region that the task has not visited. *)
Definition region_grey (t : CMTask) (x : Z) : Prop :=
  match t_iter t with
  | Some (Search l r) => l <= off x < r
  | Some (SearchWord i r) => 64 * i <= off x < r
  | Some (AfterBit o r) => off (nextObject c (addr_of o)) <= off x < r
  | Some AfterHumongous => False
  | None => match _finger (t_region t), _region_limit (t_region t) with Some f, Some l => f <= x < l | _, _ => False end
  end.

Definition task_grey (t : CMTask) (x : Z) (i : nat) : Prop := x ∈ task_held t ∨ task_scans t x i ∨ region_grey t x.

Definition task_roots (t : CMTask) (x : Z) (i : nat) : Prop :=
  match t_top t with TRootObjects l => x ∈ l | _ => False end ∨
  match t_scan t with Some (RootFields o j) => o = x ∧ (j <= i)%nat | _ => False end.

Definition busy (t : CMTask) : Prop := t_deal t ≠ None ∨ t_scan t ≠ None ∨ t_drain t ≠ None.
Definition has_room (t : CMTask) (n : Z) : Prop := queue_size t + n <= max_elems c.

Definition top_ok (pc : top_pc) : Prop :=
  match pc with
  | TRootObjects l => Forall (λ x, x ∈ dom snap) l
  | TSatb _ (SProcessed buf) => length buf = n_slots
  | _ => True
  end.

Record task_ok (b : CMBitMap) (t : CMTask) : Prop := mkTaskOk {
  k_pending : Forall valid_ref (task_pending t);
  k_mark : match t_deal t with Some (MarkObj y i) | Some (GrayMark y i) => relevant y ∧ heap_region_containing_raw c y = Some i | _ => True end;
  k_held : Forall (λ x, relevant x ∧ marked b x) (task_held t);
  k_scan : match t_scan t with Some (Fields o _) => relevant o ∧ marked b o | Some (RootFields o _) => o ∈ dom snap | _ => True end;
  k_top : top_ok (t_top t);
  k_region :
    match _curr_region (t_region t) with
    | None => _finger (t_region t) = None ∧ _region_limit (t_region t) = None
    | Some i => ∃ hr f, regions c !! i = Some hr ∧ _finger (t_region t) = Some f ∧ _region_limit (t_region t) = Some (next_top_at_mark_start hr) ∧
        _heap_start c <= f ∧ aligned f ∧ bottom hr < next_top_at_mark_start hr
    end;
  k_iter :
    match t_iter t with
    | None => True
    | Some it => ∃ i hr f, _curr_region (t_region t) = Some i ∧ regions c !! i = Some hr ∧ _finger (t_region t) = Some f ∧
        match it with
        | Search l r => 0 <= l <= r ∧ r = off (next_top_at_mark_start hr) ∧ ¬ busy t
        | SearchWord w r => 0 <= w ∧ 0 < r ∧ r = off (next_top_at_mark_start hr) ∧ ¬ busy t
        | AfterBit o r => r = off (next_top_at_mark_start hr) ∧ relevant f ∧ marked b f ∧ o = off f
        | AfterHumongous => isHumongous hr = true ∧ f = bottom hr ∧ (busy t → relevant f ∧ marked b f)
        end
    end;
  k_bit : match t_deal t, t_iter t with Some (Marked y), Some (AfterBit _ _ | AfterHumongous) => _finger (t_region t) ≠ Some y | _, _ => True end;
  k_room :
    match t_deal t with
    | Some (Moving buf _) => buf = [] ∨ has_room t 1
    | Some (PushStack _ _) | Some (StackPushed _) | Some (PushRetry _) => has_room t 1
    | _ => True
    end;
  k_drain :
    match t_drain t with
    | Some d =>
        match d_stage d with
        | LStart _ | LNext _ => True
        | LPop _ => t_deal t = None ∧ t_scan t = None
        | GStart | GLoop => t_deal t = None ∧ t_scan t = None ∧ (has_aborted t = true ∨ has_room t global_stack_transfer_size)
        | GGet => t_deal t = None ∧ t_scan t = None ∧ has_room t global_stack_transfer_size
        | GPush l => t_deal t = None ∧ t_scan t = None ∧ has_room t (Z.of_nat (length l))
        end
    | None => True
    end;
  k_size : has_room t 0
}.

Lemma task_ok_mono b b' t : bits b ⊆ bits b' → task_ok b t → task_ok b' t.
Proof.
  intros Hsub [H1 H2 H4 H5 H6 H7 H8 H9 H10 H11 H12]. split; try done.
  - eapply Forall_impl; [exact H4|]. cbn. intros x [? ?]. split; [done|by eapply marked_mono].
  - destruct (t_scan t) as [[]|]; try done. destruct H5. split; [done|by eapply marked_mono].
  - destruct (t_iter t) as [it|]; [|done]. destruct H8 as (i & hr & f & E1 & E2 & E3 & H8). exists i, hr, f. split_and!; try done.
    destruct it; try done.
    + destruct H8 as (? & ? & ? & ?). split_and!; try done. by eapply marked_mono.
    + destruct H8 as (? & ? & Hf). split_and!; try done. intros Hbusy. destruct (Hf Hbusy). split; [done|by eapply marked_mono].
Qed.

(** ** The invariant *)

Definition log_objects (s : cm_state) : list Z :=
  (s_mutators s ≫= λ m, SatbQueueFacts.entries (m_queue m)) ++ SatbQueueFacts.completed_objects (s_satb s).

(** Once a task has claimed a thread in the remark pause, it deals with the
    entries of the thread's queue. *)
Definition claimed (s : cm_state) (i : nat) : Prop := s_phase s = Remark ∧ s_claimed s !! i = Some true.
Definition in_log (s : cm_state) (y : Z) : Prop :=
  (∃ i m, s_mutators s !! i = Some m ∧ y ∈ SatbQueueFacts.entries (m_queue m) ∧ ¬ claimed s i) ∨
  y ∈ SatbQueueFacts.completed_objects (s_satb s).

Definition pending (s : cm_state) (y : Z) : Prop :=
  in_log s y ∨ ∃ k t, _tasks s !! k = Some t ∧ y ∈ task_pending t.
Definition covered (s : cm_state) (y : Z) : Prop := relevant y → marked (_nextMarkBitMap s) y ∨ pending s y.

Definition global_grey (s : cm_state) (x : Z) : Prop := _global_finger s <= x ∨ x ∈ _base (_markStack s).
Definition grey (s : cm_state) (x : Z) (i : nat) : Prop :=
  global_grey s x ∨ ∃ k t, _tasks s !! k = Some t ∧ task_grey t x i.
Definition unscanned_root (s : cm_state) (x : Z) (i : nat) : Prop :=
  x ∈ concat (_root_regions s) ∨ ∃ k t, _tasks s !! k = Some t ∧ task_roots t x i.

(** The edge is as it was at the start, and nobody is about to change it
    without having logged it. *)
Definition unchanged (s : cm_state) (x : Z) (i : nat) (y : Z) : Prop :=
  (∃ fs, s_heap s !! x = Some fs ∧ fs !! i = Some y) ∧
  ∀ j m, s_mutators s !! j = Some m →
    match m_pc m with MIdle => True | MLog o n _ pre => o = x → n = i → pre = y | MStore o n _ => ¬ (o = x ∧ n = i) end.

Definition mutator_ok (m : mutator) : Prop :=
  SatbQueueFacts.wf_queue n_slots (m_queue m) ∧ SatbQueue._active (m_queue m) = true ∧
  match m_pc m with MIdle => True | MLog _ _ v pre => valid_ref v ∧ valid_ref pre | MStore _ _ v => valid_ref v end.

Record inv (s : cm_state) : Prop := mkInv {
  v_bitmap : bitmap_ok (_nextMarkBitMap s);
  v_marks : ∀ k, k ∈ bits (_nextMarkBitMap s) → ∃ x, relevant x ∧ off x = k;
  v_finger : finger_ok (_global_finger s);
  v_heap : ∀ x, match snap !! x, s_heap s !! x with
                | Some fs, Some fs' => length fs' = length fs ∧ Forall valid_ref fs'
                | None, None => True
                | _, _ => False
                end;
  v_mutators : Forall mutator_ok (s_mutators s);
  v_set : SatbQueueFacts.wf_set n_slots (s_satb s);
  v_log : Forall valid_ref (log_objects s);
  v_stack : Forall (λ x, relevant x ∧ marked (_nextMarkBitMap s) x) (_base (_markStack s));
  v_tasks : ∀ k t, _tasks s !! k = Some t → task_ok (_nextMarkBitMap s) t;
  v_root_regions : Forall (λ x, x ∈ dom snap) (concat (_root_regions s));
  v_edges : ∀ x i y, edge x i y → covered s y ∨ unchanged s x i y;
  v_black : ∀ x i y, edge x i y → relevant x → marked (_nextMarkBitMap s) x →
    covered s y ∨ grey s x i ∨ _overflow (_markStack s) = true;
  v_roots : ∀ r, r ∈ roots → covered s r;
  v_root_objects : ∀ x i y, edge x i y → below x = false → covered s y ∨ unscanned_root s x i
}.

(** ** Steps of one task *)

Lemma insert_lookup_cases {A} (l : list A) k x j y : <[k := x]> l !! j = Some y → y = x ∧ j = k ∨ j ≠ k ∧ l !! j = Some y.
Proof. intros [(-> & <- & _)|[H1 H2]]%list_lookup_insert_Some; [by left|right; split; [congruence|done]]. Qed.

Section task_step.
Context (s s' : cm_state) (k : nat) (t t' : CMTask).
Hypothesis Hinv : inv s.
Hypothesis Hk : _tasks s !! k = Some t.
Hypothesis Hk' : _tasks s' = <[k := t']> (_tasks s).
Hypothesis Hbits : bits (_nextMarkBitMap s) ⊆ bits (_nextMarkBitMap s').
Hypothesis Hpend : ∀ y, relevant y → in_log s y ∨ y ∈ task_pending t →
  marked (_nextMarkBitMap s') y ∨ in_log s' y ∨ y ∈ task_pending t'.

Lemma new_task : _tasks s' !! k = Some t'.
Proof. rewrite Hk'. apply list_lookup_insert_eq. by eapply lookup_lt_Some. Qed.

Lemma other_task j u : j ≠ k → _tasks s !! j = Some u → _tasks s' !! j = Some u.
Proof. intros Hj Hu. rewrite Hk'. by rewrite list_lookup_insert_ne. Qed.

Lemma covered_mono y : covered s y → covered s' y.
Proof.
  intros Hc Hr. pose proof new_task as Hnew. destruct (Hc Hr) as [Hm|[Hl|(j & u & Hj & Hy)]]; [left; by eapply marked_mono|..].
  - destruct (Hpend y Hr (or_introl Hl)) as [?|[?|?]]; [by left|right; by left|right; right; eauto].
  - destruct (decide (j = k)) as [->|Hne].
    + assert (u = t) as -> by congruence. destruct (Hpend y Hr (or_intror Hy)) as [?|[?|?]]; [by left|right; by left|right; right; eauto].
    + right. right. exists j, u. split; [by apply other_task|done].
Qed.

Lemma grey_mono x i :
  grey s x i → (global_grey s x ∨ task_grey t x i) ∨ grey s' x i.
Proof.
  intros [Hg|(j & u & Hj & Hu)]; [left; by left|]. destruct (decide (j = k)) as [->|Hne].
  - assert (u = t) as -> by congruence. left. by right.
  - right. right. exists j, u. split; [by apply other_task|done].
Qed.

Lemma unscanned_mono x i :
  unscanned_root s x i → (x ∈ concat (_root_regions s) ∨ task_roots t x i) ∨ unscanned_root s' x i.
Proof.
  intros [Hg|(j & u & Hj & Hu)]; [left; by left|]. destruct (decide (j = k)) as [->|Hne].
  - assert (u = t) as -> by congruence. left. by right.
  - right. right. exists j, u. split; [by apply other_task|done].
Qed.

Lemma inv_task_step :
  s_heap s' = s_heap s → m_pc <$> s_mutators s' = m_pc <$> s_mutators s →
  bitmap_ok (_nextMarkBitMap s') → (∀ n, n ∈ bits (_nextMarkBitMap s') → n ∈ bits (_nextMarkBitMap s) ∨ ∃ x, relevant x ∧ off x = n) →
  finger_ok (_global_finger s') → Forall mutator_ok (s_mutators s') → SatbQueueFacts.wf_set n_slots (s_satb s') →
  Forall valid_ref (log_objects s') → Forall (λ x, relevant x ∧ marked (_nextMarkBitMap s') x) (_base (_markStack s')) →
  task_ok (_nextMarkBitMap s') t' → Forall (λ x, x ∈ dom snap) (concat (_root_regions s')) →
  (∀ x i y, edge x i y → relevant x → marked (_nextMarkBitMap s) x → global_grey s x ∨ task_grey t x i →
     covered s' y ∨ global_grey s' x ∨ task_grey t' x i ∨ _overflow (_markStack s') = true ∨ grey s' x i) →
  (∀ x i, relevant x → ¬ marked (_nextMarkBitMap s) x → marked (_nextMarkBitMap s') x → global_grey s' x ∨ task_grey t' x i) →
  (_overflow (_markStack s) = true → _overflow (_markStack s') = true) →
  (∀ x i y, edge x i y → below x = false → x ∈ concat (_root_regions s) ∨ task_roots t x i →
     covered s' y ∨ x ∈ concat (_root_regions s') ∨ task_roots t' x i) →
  inv s'.
Proof.
  intros Hheap' Hpcs Hb' Hm' Hf' Hmut' Hset' Hlog' Hstack' Ht' Hroots' Hgrey Hnew Hovf Hroot. pose proof new_task as Hnt.
  destruct Hinv as [V1 V2 V3 V4 V5 V6 V7 V8 V9 V10 V11 V12 V13 V14]. split; try done.
  - intros n [Hn|Hn]%Hm'; [by apply V2|done].
  - by rewrite Hheap'.
  - intros j u Hj. rewrite Hk' in Hj. apply insert_lookup_cases in Hj as [[-> _]|[Hne Hj]]; [done|].
    eapply task_ok_mono; [exact Hbits|]. by eapply V9.
  - intros x i y He. destruct (V11 x i y He) as [Hc|[Hu1 Hu2]]; [left; by apply covered_mono|]. right. split; [by rewrite Hheap'|].
    intros j m Hj. assert ((m_pc <$> s_mutators s) !! j = Some (m_pc m)) as E by (rewrite <- Hpcs, list_lookup_fmap, Hj; done).
    rewrite list_lookup_fmap in E. destruct (s_mutators s !! j) as [m0|] eqn:E0; [|done]. cbn in E. injection E as <-. by eapply Hu2.
  - intros x i y He Hr Hx. destruct (decide (marked (_nextMarkBitMap s) x)) as [Hold|Hold].
    + destruct (V12 x i y He Hr Hold) as [Hc|[Hg|Ho]]; [left; by apply covered_mono| |right; right; by apply Hovf].
      apply grey_mono in Hg as [Hg|Hg]; [|right; by left]. destruct (Hgrey x i y He Hr Hold Hg) as [?|[?|[?|[?|?]]]];
        [by left|right; left; by left|right; left; right; eauto|right; by right|right; by left].
    + right. left. destruct (Hnew x i Hr Hold Hx) as [?|?]; [by left|right; eauto].
  - intros r Hr. apply covered_mono. by apply V13.
  - intros x i y He Hbl. destruct (V14 x i y He Hbl) as [Hc|Hu]; [left; by apply covered_mono|].
    apply unscanned_mono in Hu as [Hu|Hu]; [|by right]. destruct (Hroot x i y He Hbl Hu) as [?|[?|?]];
      [by left|right; by left|right; right; eauto].
Qed.

End task_step.

(** Steps that change only the task and the flags. *)
Record same_core (s s' : cm_state) : Prop := mkSameCore {
  sc_bitmap : _nextMarkBitMap s' = _nextMarkBitMap s;
  sc_stack : _markStack s' = _markStack s;
  sc_finger : _global_finger s' = _global_finger s;
  sc_roots : _root_regions s' = _root_regions s;
  sc_satb : s_satb s' = s_satb s;
  sc_mutators : s_mutators s' = s_mutators s;
  sc_heap : s_heap s' = s_heap s;
  sc_claimed : s_claimed s' = s_claimed s;
  sc_phase : s_phase s' = s_phase s
}.

Lemma inv_task_local s s' k t t' :
  inv s → _tasks s !! k = Some t → _tasks s' = <[k := t']> (_tasks s) → same_core s s' → task_ok (_nextMarkBitMap s) t' →
  (∀ y, relevant y → y ∈ task_pending t → marked (_nextMarkBitMap s) y ∨ y ∈ task_pending t') →
  (∀ x i y, edge x i y → relevant x → marked (_nextMarkBitMap s) x → task_grey t x i → covered s' y ∨ global_grey s x ∨ task_grey t' x i) →
  (∀ x i y, edge x i y → below x = false → task_roots t x i → covered s' y ∨ task_roots t' x i) →
  inv s'.
Proof.
  intros Hinv Hk Hk' [C1 C2 C3 C4 C5 C6 C7 C8 C9] Ht' Hp Hg Hr. pose proof Hinv as [V1 V2 V3 V4 V5 V6 V7 V8 V9 V10 V11 V12 V13 V14].
  assert (log_objects s' = log_objects s) as Elog by (unfold log_objects; by rewrite C5, C6).
  assert (∀ y, in_log s y → in_log s' y) as Hlog by (intros y; unfold in_log, claimed; by rewrite C5, C6, C8, C9).
  apply (inv_task_step s s' k t t'); rewrite ?C1, ?C2, ?C3, ?C4, ?C5, ?C6, ?C7, ?Elog; try done.
  - intros y Hy [?|?]; [right; left; by apply Hlog|]. destruct (Hp y Hy) as [?|?]; [done|by left|by right; right].
  - intros n Hn. by left.
  - intros x i y He Hrx Hx [Hgl|Ht]; [right; left; unfold global_grey in *; by rewrite C2, C3|].
    destruct (Hg x i y He Hrx Hx Ht) as [?|[?|?]]; [by left|right; left; unfold global_grey in *; by rewrite C2, C3|right; right; by left].
  - intros x i y He Hb [?|?]; [right; by left|]. destruct (Hr x i y He Hb) as [?|?]; [done|by left|right; by right].
Qed.

(** Steps of pure control: the task holds what it held. *)
Lemma inv_control s s' k t t' :
  inv s → _tasks s !! k = Some t → _tasks s' = <[k := t']> (_tasks s) → same_core s s' → task_ok (_nextMarkBitMap s) t' →
  (∀ y, y ∈ task_pending t → y ∈ task_pending t') → (∀ x, x ∈ task_held t → x ∈ task_held t') → (∀ x i, task_scans t x i → task_scans t' x i) →
  (∀ x, region_grey t x → region_grey t' x) → (∀ x i, task_roots t x i → task_roots t' x i) → inv s'.
Proof.
  intros Hinv Hk Hk' Hc Ht' Ep Eh Hs Hr Hro. apply (inv_task_local s s' k t t'); try done.
  - intros y _ Hy. right. auto.
  - intros x i y _ _ _ [?|[?|?]]; right; right; [left; auto|right; left; auto|right; right; auto].
  - intros x i y _ _ ?. right. auto.
Qed.

Lemma core_put s k t : same_core s (put_task s k t).
Proof. by split. Qed.

(** ** Changes of one part of a task *)

Lemma task_ok_limits b t l : task_ok b t → task_ok b (set_limits t l).
Proof. intros [H1 H2 H4 H5 H6 H7 H8 H9 H10 H11 H12]. split; done. Qed.

Lemma task_ok_counts b t n : task_ok b t → task_ok b (set_counts t n).
Proof. intros [H1 H2 H4 H5 H6 H7 H8 H9 H10 H11 H12]. split; done. Qed.

Lemma task_ok_flags b t f :
  task_ok b t → (has_aborted t = true → _has_aborted f = true) ∨ t_drain t = None → task_ok b (set_flags t f).
Proof.
  intros [H1 H2 H4 H5 H6 H7 H8 H9 H10 H11 H12] Hf. split; try done. cbn. destruct (t_drain t) as [d|]; [|done].
  destruct Hf as [Hf|]; [|done]. destruct (d_stage d); try done.
  - destruct H11 as (? & ? & [Ha|?]); split_and!; try done; [left; by apply Hf|by right].
  - destruct H11 as (? & ? & [Ha|?]); split_and!; try done; [left; by apply Hf|by right].
Qed.

Lemma task_ok_top b t pc :
  task_ok b t → top_ok pc → task_ok b (set_top t pc).
Proof. intros [H1 H2 H4 H5 H6 H7 H8 H9 H10 H11 H12] Hpc. split; done. Qed.

(** A task in the middle of a deal goes on with it. *)
Lemma task_ok_deal b t d d' :
  task_ok b t → t_deal t = Some d →
  match d' with Some d' => Forall valid_ref (deal_pending d') ∧ Forall (λ x, relevant x ∧ marked b x) (deal_held d') | None => True end →
  match d' with Some (MarkObj y i) | Some (GrayMark y i) => relevant y ∧ heap_region_containing_raw c y = Some i | _ => True end →
  match d', t_iter t with Some (Marked y), Some (AfterBit _ _ | AfterHumongous) => _finger (t_region t) ≠ Some y | _, _ => True end →
  match d' with Some (Moving buf _) => buf = [] ∨ has_room t 1 | Some (PushStack _ _ | StackPushed _ | PushRetry _) => has_room t 1 | _ => True end →
  task_ok b (set_deal t d').
Proof.
  intros [H1 H2 H4 H5 H6 H7 H8 H9 H10 H11 H12] Ed Hd' Hm Hb Hr. unfold task_pending, task_held in *. rewrite Ed in H1, H4.
  apply Forall_app in H1 as [H1a H1b]. apply Forall_app in H4 as [H4a H4b]. split; try done; cbn.
  - unfold task_pending. cbn. apply Forall_app. split; [destruct d'; [apply Hd'|constructor]|done].
  - unfold task_held. cbn. apply Forall_app. split; [destruct d'; [apply Hd'|constructor]|done].
  - destruct (t_iter t) as [it|]; [|done]. destruct H8 as (i & hr & f & E1 & E2 & E3 & H8). exists i, hr, f. split_and!; try done.
    assert (Hbusy : busy t) by (left; congruence). destruct it; try tauto.
  - destruct (t_drain t) as [dr|]; [|done]. rewrite Ed in H11. destruct (d_stage dr); try done; by destruct H11.
Qed.

Lemma task_ok_deal_none b t d : task_ok b t → t_deal t = Some d → task_ok b (set_deal t None).
Proof. intros Ht Hd. by apply (task_ok_deal b t d None). Qed.

(** The queue gets shorter. *)
Lemma task_ok_queue b t q :
  task_ok b t → (∀ x, x ∈ q → x ∈ _task_queue t) → (length q <= length (_task_queue t))%nat → task_ok b (set_queue t q).
Proof.
  intros [H1 H2 H4 H5 H6 H7 H8 H9 H10 H11 H12] Hq Hl. assert (Hroom : ∀ n, has_room t n → has_room (set_queue t q) n).
  { intros n. unfold has_room, queue_size. cbn. lia. }
  unfold task_held in H4. rewrite !Forall_app in H4. destruct H4 as (H4a & H4b & H4c). split; try done; cbn.
  - unfold task_held. cbn. rewrite !Forall_app. split_and!; try done. rewrite Forall_forall in *. intros x Hx. by apply H4c, Hq.
  - destruct (t_deal t) as [[]|]; try done; try (by apply Hroom). destruct H10 as [?|?]; [by left|right; by apply Hroom].
  - destruct (t_drain t) as [dr|]; [|done]. destruct (d_stage dr); try done; naive_solver.
  - by apply Hroom.
Qed.

(** An object is added to a queue with room. *)
Lemma queue_push_room t x : has_room t 1 → queue_push c t x = set_queue t (_task_queue t ++ [x]).
Proof. intros Hr. unfold queue_push, queue_has_room. unfold has_room, queue_size in Hr. rewrite (proj2 (Z.ltb_lt _ _)) by lia. done. Qed.

Lemma queue_has_room_spec t : queue_has_room c t = true ↔ has_room t 1.
Proof. unfold queue_has_room, has_room, queue_size. rewrite Z.ltb_lt. lia. Qed.

Lemma pop_local_spec t :
  match pop_local t with
  | (Some x, t') => t' = set_queue t (take (pred (length (_task_queue t))) (_task_queue t)) ∧
      _task_queue t = take (pred (length (_task_queue t))) (_task_queue t) ++ [x] ∧ queue_size t' = queue_size t - 1
  | (None, t') => t' = t ∧ _task_queue t = []
  end.
Proof.
  unfold pop_local, queue_size. destruct (last (_task_queue t)) as [x|] eqn:E.
  - split; [done|]. apply last_Some in E as [l E]. rewrite E, length_app. cbn [length _task_queue set_queue].
    rewrite Nat.add_1_r. cbn [pred]. rewrite take_app_length. split; [done|]. lia.
  - split; [done|]. by apply last_None in E.
Qed.

(** ** [deal_with_reference] *)

Lemma deal_step s s' k t d t' :
  inv s → _tasks s !! k = Some t → t_deal t = Some d → _tasks s' = <[k := t']> (_tasks s) → same_core s s' → task_ok (_nextMarkBitMap s) t' →
  t_scan t' = t_scan t → t_drain t' = t_drain t → _task_queue t' = _task_queue t → t_iter t' = t_iter t → t_region t' = t_region t → t_top t' = t_top t →
  (∀ y, y ∈ deal_pending d → relevant y → marked (_nextMarkBitMap s) y ∨ y ∈ match t_deal t' with Some d' => deal_pending d' | None => [] end) →
  (∀ x, x ∈ deal_held d → relevant x → x ∈ match t_deal t' with Some d' => deal_held d' | None => [] end ∨ global_grey s x ∨ region_grey t x) →
  inv s'.
Proof.
  intros Hinv Hk Hd Hk' Hc Ht' E1 E2 E3 E4 E5 E6 Hp Hh. apply (inv_task_local s s' k t t'); try done.
  - intros y Hy. unfold task_pending. rewrite Hd, E1, !elem_of_app. intros [Hy'|?]; [|by right; right]. destruct (Hp y Hy' Hy); [by left|by right; left].
  - intros x i y _ Hr _. unfold task_grey, task_held, task_scans, region_grey. rewrite Hd, E1, E2, E3, E4, E5, !elem_of_app.
    intros [[Hx|?]|?]; [|right; right; left; by right|by right; right; right].
    destruct (Hh x Hx Hr) as [?|[?|?]]; [right; right; left; by left|right; by left|by right; right; right; right].
  - intros x i y _ _. unfold task_roots. rewrite E1, E6. by right.
Qed.

Lemma reserved_of_relevant y : relevant y → is_in_g1_reserved c y = true.
Proof.
  intros [Hd _]. pose proof (ho_in_heap Hheap y Hd). pose proof (ho_reserved Hheap). unfold is_in_g1_reserved.
  by rewrite (proj2 (Z.leb_le _ _)), (proj2 (Z.ltb_lt _ _)) by lia.
Qed.

Lemma reserved_spec y : is_in_g1_reserved c y = true → _heap_start c <= y.
Proof. unfold is_in_g1_reserved. intros [H _]%andb_true_iff. lia. Qed.

Lemma relevant_in_heap x : relevant x → _heap_start c <= x < _heap_end c.
Proof. intros [Hd _]. by apply (ho_in_heap Hheap). Qed.

Lemma inv_Deal s k t y s' :
  inv s → _tasks s !! k = Some t → t_deal t = Some (Deal y) → step_deal c k t (Deal y) s = Some s' → inv s'.
Proof.
  intros Hinv Hk Hd. pose proof (v_tasks _ Hinv k t Hk) as Ht. pose proof (v_bitmap _ Hinv) as Hb. cbn [step_deal].
  set (t1 := set_limits t _). assert (Ht1 : task_ok (_nextMarkBitMap s) t1) by by apply task_ok_limits.
  assert (Hv : valid_ref y) by (pose proof (k_pending _ _ Ht) as H; unfold task_pending in H; rewrite Hd in H; by inversion H).
  assert (Hnone : ¬ relevant y ∨ marked (_nextMarkBitMap s) y → inv (put_task s k (set_deal t1 None))).
  { intros Hor. apply (deal_step s _ k t (Deal y) (set_deal t1 None)); try done; [by eapply task_ok_deal_none| |by intros z Hz%elem_of_nil].
    intros z Hz%list_elem_of_singleton. subst z. intros Hr. left. destruct Hor; done. }
  destruct (is_in_g1_reserved c y) eqn:Eres.
  2:{ intros [= <-]. apply Hnone. left. intros Hr%reserved_of_relevant. congruence. }
  destruct (Hv Eres) as [Hend Hdom]. pose proof (reserved_spec y Eres) as Hstart. rewrite isMarked_spec by (done || lia). cbn [mbind option_bind].
  destruct (bool_decide_reflect (marked (_nextMarkBitMap s) y)) as [Hm|Hm]; [intros [= <-]; apply Hnone; by right|].
  destruct (region_found y) as (i & hr & Ei & Ehr & Hr); [lia|]. rewrite Ei. cbn [mbind option_bind]. rewrite Ehr. cbn [mbind option_bind].
  pose proof (below_spec y i hr Ei Ehr) as Hbl. unfold obj_allocated_since_next_marking.
  destruct (Z.geb_spec y (next_top_at_mark_start hr)) as [Hge|Hlt]; intros [= <-].
  - apply Hnone. left. intros [_ Hbel]. rewrite Hbl in Hbel. lia.
  - assert (Hrel : relevant y) by (split; [apply Hdom|]; rewrite Hbl; lia).
    apply (deal_step s _ k t (Deal y) (set_deal t1 (Some (MarkObj y i)))); try done.
    + apply (task_ok_deal _ _ (Deal y)); try done. cbn. split; [by constructor|constructor].
    + intros z Hz _. by right.
    + by intros z Hz%elem_of_nil.
Qed.

Lemma inv_GrayRoot s k t y s' :
  inv s → _tasks s !! k = Some t → t_deal t = Some (GrayRoot y) → step_deal c k t (GrayRoot y) s = Some s' → inv s'.
Proof.
  intros Hinv Hk Hd. pose proof (v_tasks _ Hinv k t Hk) as Ht. pose proof (v_bitmap _ Hinv) as Hb. cbn [step_deal].
  assert (Hv : valid_ref y) by (pose proof (k_pending _ _ Ht) as H; unfold task_pending in H; rewrite Hd in H; by inversion H).
  assert (Hnone : ¬ relevant y ∨ marked (_nextMarkBitMap s) y → inv (put_task s k (set_deal t None))).
  { intros Hor. apply (deal_step s _ k t (GrayRoot y) (set_deal t None)); try done; [by eapply task_ok_deal_none| |by intros z Hz%elem_of_nil].
    intros z Hz%list_elem_of_singleton. subst z. intros Hr. left. destruct Hor; done. }
  destruct (heap_region_containing_raw c y) as [i|] eqn:Ei; cbn [mbind option_bind]; [|done]. destruct (region_inv y i Ei) as (hr & Ehr & Hr).
  rewrite Ehr. cbn [mbind option_bind]. assert (Hin : _heap_start c <= y < _heap_end c) by (pose proof (region_bounds i hr Ehr); lia).
  pose proof (below_spec y i hr Ei Ehr) as Hbl. destruct (Z.ltb_spec y (next_top_at_mark_start hr)) as [Hlt|Hge].
  2:{ intros [= <-]. apply Hnone. left. intros [_ Hbel]. congruence. }
  rewrite isMarked_spec by done. cbn [mbind option_bind]. intros [= <-]. destruct (bool_decide_reflect (marked (_nextMarkBitMap s) y)) as [Hm|Hm]; [apply Hnone; by right|].
  assert (Hrel : relevant y).
  { split; [|done]. apply Hv; [|done]. unfold is_in_g1_reserved. pose proof (ho_reserved Hheap). by rewrite (proj2 (Z.leb_le _ _)), (proj2 (Z.ltb_lt _ _)) by lia. }
  apply (deal_step s _ k t (GrayRoot y) (set_deal t (Some (GrayMark y i)))); try done.
  - apply (task_ok_deal _ _ (GrayRoot y)); try done. cbn. split; [by constructor|constructor].
  - intros z Hz _. by right.
  - by intros z Hz%elem_of_nil.
Qed.

Lemma task_ok_pushed b t d y :
  task_ok b t → t_deal t = Some d → y ∈ deal_held d → has_room t 1 → task_ok b (set_deal (set_queue t (_task_queue t ++ [y])) None).
Proof.
  intros [H1 H2 H4 H5 H6 H7 H8 H9 H10 H11 H12] Ed Hy Hr. unfold task_pending, task_held in *. rewrite Ed in H1, H4.
  rewrite !Forall_app in H4. destruct H4 as (H4a & H4b & H4c). apply Forall_app in H1 as [_ H1]. split; try done; cbn.
  - unfold task_held. cbn. rewrite !Forall_app. split_and!; try done. rewrite Forall_forall in H4a. apply Forall_singleton, H4a, Hy.
  - destruct (t_iter t) as [it|]; [|done]. destruct H8 as (i & hr & f & E1 & E2 & E3 & H8). exists i, hr, f. split_and!; try done.
    assert (Hbusy : busy t) by (left; congruence). destruct it; try tauto.
  - destruct (t_drain t) as [dr|]; [|done]. rewrite Ed in H11. destruct (d_stage dr); try done; by destruct H11.
  - unfold has_room, queue_size in *. cbn. rewrite length_app. cbn. lia.
Qed.

Lemma inv_mark s k t d y i next s' :
  inv s → _tasks s !! k = Some t → t_deal t = Some d → d = MarkObj y i ∨ d = GrayMark y i →
  next = Some (Marked y) ∨ next = None ∧ global_grey s y → mark_step c k t y i next s = Some s' → inv s'.
Proof.
  intros Hinv Hk Hd Hdd Hnext. pose proof (v_tasks _ Hinv k t Hk) as Ht. pose proof (v_bitmap _ Hinv) as Hb.
  assert (Hrel : relevant y) by (pose proof (k_mark _ _ Ht) as H; rewrite Hd in H; destruct Hdd as [-> | ->]; apply H).
  assert (Hheld : deal_held d = []) by (destruct Hdd as [-> | ->]; done). assert (Hpend : deal_pending d = [y]) by (destruct Hdd as [-> | ->]; done).
  unfold mark_step, par_mark_and_count. destruct (parMark_spec _ y Hb (relevant_in_heap y Hrel)) as (b' & -> & Hb' & Hbits). cbn [mbind option_bind].
  destruct (bool_decide_reflect (marked (_nextMarkBitMap s) y)) as [Hm|Hm]; cbn [negb].
  { intros [= <-]. apply (deal_step s _ k t d (set_deal t None)); try done; [by eapply task_ok_deal_none|rewrite Hpend|rewrite Hheld; by intros z Hz%elem_of_nil].
    intros z Hz%list_elem_of_singleton. subst z. by left. }
  destruct (count_object c y i (t_counts t)) as [n|]; cbn [mbind option_bind]; [|done]. intros [= <-].
  assert (Hsub : bits (_nextMarkBitMap s) ⊆ bits b') by (rewrite Hbits; apply union_subseteq_r).
  assert (Hy' : marked b' y) by (unfold marked; rewrite Hbits; apply elem_of_union_l, elem_of_singleton; done).
  apply (inv_task_step s _ k t (set_deal (set_counts t n) next)); try apply Hinv; try done.
  - intros z Hz. unfold task_pending. rewrite Hd, Hpend. cbn [t_deal set_deal t_scan set_counts]. rewrite !elem_of_app.
    intros [?|[->%list_elem_of_singleton|?]]; [by right; left|by left|right; right; by right].
  - cbn. rewrite Hbits. intros m [->%elem_of_singleton|Hn]%elem_of_union; [right; eauto|by left].
  - eapply Forall_impl; [apply (v_stack _ Hinv)|]. intros x [? Hx]. split; [done|]. exact (marked_mono _ _ _ Hsub Hx).
  - apply (task_ok_deal _ _ d); try (destruct Hnext as [-> | [-> _]]; done); [apply task_ok_counts; by eapply task_ok_mono| |].
    { destruct Hnext as [-> | [-> _]]; [|done]. cbn. split; [constructor|by apply Forall_singleton]. }
    destruct Hnext as [-> | [-> _]]; [|done]. cbn. pose proof (k_iter _ _ Ht) as Hi. destruct (t_iter t) as [[]|]; try done; cbn.
    + destruct Hi as (i' & hr & f & _ & _ & -> & _ & _ & Hf & _). intros [= ->]. done.
    + destruct Hi as (i' & hr & f & _ & _ & -> & _ & _ & Hf). intros [= ->]. destruct Hf; [|done]. left. congruence.
  - intros x j z _ _ _ [Hg|Hg]; [by right; left|]. right; right; left. revert Hg. unfold task_grey, task_held, task_scans, region_grey. cbn.
    rewrite Hd, Hheld, !elem_of_app. intros [[?%elem_of_nil|?]|?]; [done|left; by right|by right].
  - intros x j Hx Hx1 Hx2. cbn in Hx2. unfold marked in Hx2. rewrite Hbits in Hx2. apply elem_of_union in Hx2 as [E%elem_of_singleton|?]; [|done].
    assert (x = y) as -> by (apply off_inj; [apply (ho_aligned Hheap), Hx|apply (ho_aligned Hheap), Hrel|done]).
    destruct Hnext as [-> | [-> Hg]]; [right; left|by left]. unfold task_held. cbn. apply elem_of_cons. by left.
  - intros x j z _ _ [?|?]; right; [by left|by right].
Qed.

Lemma region_of_finger b t y :
  task_ok b t → relevant y → t_deal t = Some (Marked y) → is_Some (_curr_region (t_region t)) →
  match _finger (t_region t) with Some f => f <= y | None => True end → y < default NULL (_region_limit (t_region t)) → region_grey t y.
Proof.
  intros Ht Hy Hd [i Hi] Hf Hl. pose proof (k_region _ _ Ht) as Hr. rewrite Hi in Hr. destruct Hr as (hr & f & Ehr & Ef & El & Hbf & Af & _).
  rewrite Ef in Hf. rewrite El in Hl. cbn in Hl. pose proof (k_iter _ _ Ht) as Hit. pose proof (k_bit _ _ Ht) as Hbit. rewrite Hd, Ef in Hbit.
  destruct (ho_aligned Hheap y (proj1 Hy)) as [Ay _]. assert (hr ∈ regions c) as Hin by by eapply list_elem_of_lookup_2.
  destruct (ho_region_aligned Hheap hr Hin) as [_ Antams]. assert (Hbusy : busy t) by (left; congruence). unfold region_grey.
  destruct (t_iter t) as [it|]; [|rewrite Ef, El; lia]. destruct Hit as (i' & hr' & f' & Ei' & Ehr' & Ef' & Hit).
  assert (i' = i) as -> by congruence. assert (hr' = hr) as -> by congruence. assert (f' = f) as -> by congruence. destruct it; try tauto.
  - destruct Hit as (-> & Hrf & _ & ->). split; [|by apply off_lt]. rewrite addr_of_off by apply (ho_aligned Hheap), Hrf.
    apply next_object; [apply Hrf|apply Hy|]. apply off_lt; [done|done|]. assert (f ≠ y) by congruence. lia.
  - destruct Hit as (Hh & -> & Hrel). apply Hbit. f_equal. symmetry. apply (ho_humongous Hheap y i hr); try done. apply (region_unique y i hr); [done|].
    pose proof (region_bounds i hr Ehr). lia.
Qed.

(** An object moves from the hands of the task to its queue, or back. *)
Lemma held_step s k t t' :
  inv s → _tasks s !! k = Some t → task_ok (_nextMarkBitMap s) t' →
  (∀ y, y ∈ task_pending t → y ∈ task_pending t') → (∀ x, x ∈ task_held t → x ∈ task_held t') →
  t_scan t' = t_scan t → t_iter t' = t_iter t → t_region t' = t_region t → t_top t' = t_top t → inv (put_task s k t').
Proof.
  intros Hinv Hk Ht' Hp Hh E1 E2 E3 E4. apply (inv_control s _ k t t'); try done.
  - intros x i. unfold task_scans. by rewrite E1.
  - intros x. unfold region_grey. by rewrite E2, E3.
  - intros x i. unfold task_roots. by rewrite E1, E4.
Qed.

Lemma inv_pushed s k t d y :
  inv s → _tasks s !! k = Some t → t_deal t = Some d → deal_held d = [y] → deal_pending d = [] → has_room t 1 →
  inv (put_task s k (set_deal (queue_push c t y) None)).
Proof.
  intros Hinv Hk Hd Hy Hp Hr. rewrite queue_push_room by done. pose proof (v_tasks _ Hinv k t Hk) as Ht. apply (held_step s k t); try done.
  - apply (task_ok_pushed _ _ d); try done. rewrite Hy. by apply list_elem_of_singleton.
  - intros z. unfold task_pending. by rewrite Hd, Hp.
  - intros x. unfold task_held. cbn. rewrite Hd, Hy, !elem_of_app. tauto.
Qed.

Lemma held_of b t d : task_ok b t → t_deal t = Some d → Forall (λ x, relevant x ∧ marked b x) (deal_held d).
Proof. intros Ht Hd. pose proof (k_held _ _ Ht) as H. unfold task_held in H. rewrite Hd in H. by apply Forall_app in H as [H _]. Qed.

(** The deal goes on, with the same objects in hand. *)
Lemma inv_deal_next s k t d d' :
  inv s → _tasks s !! k = Some t → t_deal t = Some d → deal_pending d = [] → deal_pending d' = [] → deal_held d' = deal_held d →
  match d' with MarkObj _ _ | GrayMark _ _ | GrayRoot _ | Marked _ => False | _ => True end →
  match d' with Moving buf _ => buf = [] ∨ has_room t 1 | PushStack _ _ | StackPushed _ | PushRetry _ => has_room t 1 | _ => True end →
  inv (put_task s k (set_deal t (Some d'))).
Proof.
  intros Hinv Hk Hd Ep Ep' Eh Hd' Hr. pose proof (v_tasks _ Hinv k t Hk) as Ht. apply (held_step s k t); try done.
  - apply (task_ok_deal _ _ d); try done; try (by destruct d'). rewrite Ep', Eh. split; [constructor|by eapply held_of].
  - intros y. unfold task_pending. cbn. by rewrite Hd, Ep, Ep'.
  - intros y. unfold task_held. cbn. by rewrite Hd, Eh.
Qed.

Lemma inv_Marked s k t y s' :
  inv s → _tasks s !! k = Some t → t_deal t = Some (Marked y) → step_deal c k t (Marked y) s = Some s' → inv s'.
Proof.
  intros Hinv Hk Hd. pose proof (v_tasks _ Hinv k t Hk) as Ht. pose proof (held_of _ _ _ Ht Hd) as Hy. apply Forall_singleton in Hy as [Hy Hm].
  cbn [step_deal]. intros [= <-].
  match goal with |- context [if ?p then Some (Push y) else None] => destruct p eqn:Epush end; [by apply (inv_deal_next _ _ _ _ _ Hinv Hk Hd)|].
  apply (deal_step s _ k t (Marked y) (set_deal t None)); try done; [by eapply task_ok_deal_none|by intros z Hz%elem_of_nil|].
  intros x ->%list_elem_of_singleton _. right.
  destruct (match _finger (t_region t) with Some f => y <? f | None => false end) eqn:Ef; [done|]. case_bool_decide as Hcur; cbn [andb] in Epush.
  - destruct (Z.ltb_spec y (default NULL (_region_limit (t_region t)))); [right|left; left; lia]. apply (region_of_finger _ t y Ht Hy Hd Hcur); [|done].
    destruct (_finger (t_region t)); [lia|done].
  - left. left. lia.
Qed.

Lemma inv_Moving s k t buf y s' :
  inv s → _tasks s !! k = Some t → t_deal t = Some (Moving buf y) → step_deal c k t (Moving buf y) s = Some s' → inv s'.
Proof.
  intros Hinv Hk Hd. pose proof (v_tasks _ Hinv k t Hk) as Ht. pose proof (k_room _ _ Ht) as Hroom. rewrite Hd in Hroom. cbn [step_deal].
  destruct (Z.ltb_spec (Z.of_nat (length buf)) global_stack_transfer_size) as [Hlt|Hge].
  2:{ intros [= <-]. apply (inv_deal_next _ _ _ _ _ Hinv Hk Hd); try done. destruct Hroom as [->|]; [done|done]. }
  pose proof (pop_local_spec t) as Hpop. destruct (pop_local t) as [[o|] t1].
  - destruct Hpop as (Et1 & Eq & Hsz). set (q := take _ _) in *. intros [= <-]. pose proof (k_size _ _ Ht) as Hs.
    assert (Hone : has_room t1 1) by (unfold has_room in *; lia). rewrite Et1 in *.
    assert (Ht1 : task_ok (_nextMarkBitMap s) (set_queue t q)).
    { apply task_ok_queue; [done|rewrite Eq; intros x Hx; apply elem_of_app; by left|rewrite Eq, length_app; lia]. }
    pose proof (held_of _ _ _ Ht Hd) as Hh. pose proof (k_held _ _ Ht) as Hq. unfold task_held in Hq. rewrite Eq, !Forall_app in Hq. destruct Hq as (_ & _ & _ & Ho).
    apply (held_step s k t); try done.
    + apply (task_ok_deal _ _ (Moving buf y)); try done; [|by right]. split; [constructor|]. cbn. apply Forall_cons in Hh as [Hy Hbuf].
      apply Forall_cons. split; [done|]. by apply Forall_app.
    + intros z. unfold task_pending. cbn. by rewrite Hd.
    + intros x. unfold task_held. cbn. rewrite Hd, Eq. cbn. rewrite ?elem_of_cons, ?elem_of_app, ?elem_of_cons, ?elem_of_app. tauto.
  - destruct Hpop as [-> Eq]. intros [= <-]. apply (inv_deal_next _ _ _ _ _ Hinv Hk Hd); try done. destruct Hroom as [->|]; [|done].
    unfold has_room, queue_size. rewrite Eq. pose proof (ho_elems Hheap). unfold global_stack_transfer_size in *. cbn. lia.
Qed.

Lemma inv_stack s k t t' st :
  inv s → _tasks s !! k = Some t → Forall (λ x, relevant x ∧ marked (_nextMarkBitMap s) x) (_base st) → task_ok (_nextMarkBitMap s) t' →
  (_overflow (_markStack s) = true → _overflow st = true) → (∀ y, y ∈ task_pending t → y ∈ task_pending t') →
  (∀ x, x ∈ _base (_markStack s) ∨ x ∈ task_held t → x ∈ _base st ∨ x ∈ task_held t' ∨ _overflow st = true) →
  t_scan t' = t_scan t → t_iter t' = t_iter t → t_region t' = t_region t → t_top t' = t_top t → inv (put_task (set_stack s st) k t').
Proof.
  intros Hinv Hk Hst Ht' Ho Hp Hh E1 E2 E3 E4. apply (inv_task_step s _ k t t'); try apply Hinv; try done.
  - intros y _ [?|?]; [by right; left|]. right. right. auto.
  - intros n ?. by left.
  - intros x i y _ _ _ Hg. right. unfold global_grey, task_grey, task_scans, region_grey in *. cbn. rewrite E1, E2, E3. pose proof (Hh x). tauto.
  - intros x i y _ _ Hr. right. unfold task_roots in *. by rewrite E1, E4.
Qed.

Lemma inv_PushStack s k t buf y s' :
  inv s → _tasks s !! k = Some t → t_deal t = Some (PushStack buf y) → step_deal c k t (PushStack buf y) s = Some s' → inv s'.
Proof.
  intros Hinv Hk Hd. pose proof (v_tasks _ Hinv k t Hk) as Ht. pose proof (k_room _ _ Ht) as Hroom. rewrite Hd in Hroom. cbn [step_deal].
  pose proof (held_of _ _ _ Ht Hd) as Hh. apply Forall_cons in Hh as [Hy Hbuf]. assert (Hbuf0 : Z.of_nat (length buf) >? 0 = false → buf = []) by (destruct buf; done).
  destruct (Z.of_nat (length buf) >? 0) eqn:E; intros [= <-].
  - apply (inv_stack s k t (set_deal t (Some (StackPushed y)))); try done; unfold par_push_arr.
    + destruct (stack_size _ + _ >? _); cbn; [apply Hinv|]. apply Forall_app. split; [apply Hinv|done].
    + apply (task_ok_deal _ _ (PushStack buf y)); try done. split; [constructor|]. by apply Forall_singleton.
    + destruct (stack_size _ + _ >? _); done.
    + intros z. unfold task_pending. by rewrite Hd.
    + intros x. unfold task_held. rewrite Hd. cbn. destruct (stack_size _ + _ >? _); cbn; [tauto|]. rewrite ?elem_of_cons, ?elem_of_app, ?elem_of_cons. tauto.
  - rewrite Hbuf0 in * by done. apply (held_step s k t); try done.
    + apply (task_ok_deal _ _ (PushStack [] y)); try done; [by apply task_ok_limits|]. split; [constructor|]. by apply Forall_singleton.
    + intros z. unfold task_pending. by rewrite Hd.
    + intros z. unfold task_held. by rewrite Hd.
Qed.

Lemma inv_StackPushed s k t y s' :
  inv s → _tasks s !! k = Some t → t_deal t = Some (StackPushed y) → step_deal c k t (StackPushed y) s = Some s' → inv s'.
Proof.
  intros Hinv Hk Hd. pose proof (v_tasks _ Hinv k t Hk) as Ht. pose proof (k_room _ _ Ht) as Hroom. rewrite Hd in Hroom. cbn [step_deal].
  set (t1 := if _overflow (_markStack s) then set_has_aborted t else t).
  set (s1 := if _overflow (_markStack s) then set_has_overflown s true else s).
  intros E. assert (s' = put_task s1 k (set_deal (set_limits t1 (decrease_limits (t_limits t1))) (Some (PushRetry y)))) as ->.
  { subst s1 t1. destruct (_overflow (_markStack s)); by injection E as <-. }
  assert (Ht1 : task_ok (_nextMarkBitMap s) t1) by (subst t1; destruct (_overflow _); [apply task_ok_flags; [done|by left]|done]).
  assert (same_core s s1 ∧ _tasks s1 = _tasks s) as [[] Etasks] by (subst s1; by destruct (_overflow _)).
  apply (inv_control s _ k t (set_deal (set_limits t1 (decrease_limits (t_limits t1))) (Some (PushRetry y)))); try done.
  - cbn. by rewrite Etasks.
  - apply (task_ok_deal _ _ (StackPushed y)); [by apply task_ok_limits|by subst t1; destruct (_overflow _)|..]; try done.
    + split; [constructor|]. exact (held_of _ _ _ Ht Hd).
    + by subst t1; destruct (_overflow _).
  - intros z. unfold task_pending. subst t1. destruct (_overflow _); by rewrite Hd.
  - intros z. unfold task_held. subst t1. destruct (_overflow _); by rewrite Hd.
  - subst t1; by destruct (_overflow _).
  - subst t1; by destruct (_overflow _).
  - subst t1; by destruct (_overflow _).
Qed.

Lemma inv_step_deal s k t d s' :
  inv s → _tasks s !! k = Some t → t_deal t = Some d → match d with GrayMark y _ => global_grey s y | _ => True end →
  step_deal c k t d s = Some s' → inv s'.
Proof.
  intros Hinv Hk Hd Hg Hs. pose proof (v_tasks _ Hinv k t Hk) as Ht. pose proof (k_room _ _ Ht) as Hr. rewrite Hd in Hr. destruct d.
  - by eapply inv_Deal.
  - eapply (inv_mark s k t); eauto.
  - by eapply inv_Marked.
  - cbn in Hs. injection Hs as <-. destruct (queue_has_room c t) eqn:E; [|by apply (inv_deal_next _ _ _ _ _ Hinv Hk Hd); try left].
    apply (inv_pushed _ _ _ _ _ Hinv Hk Hd); try done. by apply queue_has_room_spec.
  - by eapply inv_Moving.
  - by eapply inv_PushStack.
  - by eapply inv_StackPushed.
  - cbn in Hs. injection Hs as <-. by apply (inv_pushed _ _ _ _ _ Hinv Hk Hd).
  - by eapply inv_GrayRoot.
  - eapply (inv_mark s k t); eauto.
Qed.

(** ** [scan_object] and the other iterations over references *)

(** The task calls its closure on a reference, or goes on to the next one. *)
Lemma task_ok_scan b t sc sc' d' :
  task_ok b t → t_deal t = None → t_scan t = Some sc →
  match d' with Some (Deal y | GrayRoot y) => valid_ref y | None => True | _ => False end →
  match sc' with
  | Some (Fields o _) => relevant o ∧ marked b o
  | Some (RootFields o _) => o ∈ dom snap
  | Some (Buffer l) => Forall valid_ref l
  | None => True
  end → task_ok b (set_deal (set_scan t sc') d').
Proof.
  intros [H1 H2 H4 H5 H6 H7 H8 H9 H10 H11 H12] Ed Es Hd' Hs'. unfold task_held in H4. rewrite Ed in H4. split; cbn; try done.
  - unfold task_pending. cbn. apply Forall_app. split; [destruct d' as [[]|]; try done; by apply Forall_singleton|]. destruct sc' as [[]|]; try done; constructor.
  - by destruct d' as [[]|].
  - unfold task_held. cbn. apply Forall_app. split; [destruct d' as [[]|]; try done; constructor|done].
  - by destruct sc' as [[]|].
  - destruct (t_iter t) as [it|]; [|done]. destruct H8 as (i & hr & f & E1 & E2 & E3 & H8). exists i, hr, f. split_and!; try done.
    assert (Hbusy : busy t) by (right; left; congruence). destruct it; tauto.
  - by destruct d' as [[]|].
  - by destruct d' as [[]|].
  - destruct (t_drain t) as [dr|]; [|done]. rewrite Es in H11. destruct (d_stage dr); try done; by destruct H11 as (? & ? & ?) || by destruct H11.
Qed.

Lemma task_ok_scan_next b t sc sc' :
  task_ok b t → t_deal t = None → t_scan t = Some sc → match sc' with
  | Some (Fields o _) => relevant o ∧ marked b o
  | Some (RootFields o _) => o ∈ dom snap
  | Some (Buffer l) => Forall valid_ref l
  | None => True
  end → task_ok b (set_scan t sc').
Proof.
  intros Ht Hd Hs Hs'. replace (set_scan t sc') with (set_deal (set_scan t sc') None) by (destruct t; cbn in *; by subst). by apply (task_ok_scan _ _ sc).
Qed.

(** The clock changes the limits of the task, and may abort it. *)
Lemma clock_spec ch s t :
  ∃ l f, regular_clock_call ch s t = set_flags (set_limits t l) f ∧ (has_aborted t = true → _has_aborted f = true).
Proof.
  assert (Hid : t = set_flags (set_limits t (t_limits t)) (t_flags t)) by by destruct t.
  unfold regular_clock_call. destruct (has_aborted t) eqn:E; [exists (t_limits t), (t_flags t); by split|].
  repeat case_match; eexists _, _; (split; [|done]); try reflexivity; destruct t; reflexivity.
Qed.

Lemma check_limits_spec ch s t :
  ∃ l f, check_limits ch s t = set_flags (set_limits t l) f ∧ (has_aborted t = true → _has_aborted f = true).
Proof.
  unfold check_limits. destruct (_ || _); [apply clock_spec|]. exists (t_limits t), (t_flags t). by destruct t.
Qed.

Lemma read_field s x i y :
  inv s → s_heap s !! x = None → edge x i y → False.
Proof. intros Hinv Hx (fs & E & _). pose proof (v_heap _ Hinv x) as H. by rewrite Hx, E in H. Qed.

Lemma field_valid s x fs i y : inv s → s_heap s !! x = Some fs → fs !! i = Some y → valid_ref y.
Proof.
  intros Hinv Hx Hy. pose proof (v_heap _ Hinv x) as H. rewrite Hx in H. destruct (snap !! x); [|done]. destruct H as [_ H].
  by eapply Forall_lookup_1 in H.
Qed.

Lemma field_end s x fs i j y : inv s → s_heap s !! x = Some fs → fs !! i = None → (i <= j)%nat → ¬ edge x j y.
Proof.
  intros Hinv Hx Hi Hj (fs0 & E0 & Ej). pose proof (v_heap _ Hinv x) as H. rewrite Hx, E0 in H. destruct H as [H _].
  apply lookup_lt_Some in Ej. apply lookup_ge_None in Hi. lia.
Qed.

Lemma inv_Fields s k t o i ch s' :
  inv s → _tasks s !! k = Some t → t_deal t = None → t_scan t = Some (Fields o i) → step_scan c ch k t (Fields o i) s = Some s' → inv s'.
Proof.
  intros Hinv Hk Hd Hs. pose proof (v_tasks _ Hinv k t Hk) as Ht. pose proof (k_scan _ _ Ht) as Ho. rewrite Hs in Ho. cbn [step_scan].
  destruct (s_heap s !! o) as [fs|] eqn:Eo; cbn [mbind option_bind]; [|done]. destruct (fs !! i) as [y|] eqn:Ei; intros [= <-].
  - set (t' := set_deal _ _).
    apply (inv_task_local s _ k t t'); try done.
    + apply (task_ok_scan _ _ (Fields o i)); try done. by eapply field_valid.
    + intros z _. unfold task_pending. rewrite Hd, Hs. by intros ?%elem_of_nil.
    + intros x j z He Hr Hm Hg. unfold task_grey, task_held, task_scans, region_grey in *. cbn. rewrite Hd, Hs in Hg.
      destruct Hg as [?|[[-> Hj]|?]]; [by right; right; left| |by right; right; right; right]. destruct (decide (j = i)) as [->|Hne]; [left|right; right; right; left; split; [done|lia]].
      assert (Hpend : ∀ u, relevant u → in_log s u ∨ u ∈ task_pending t → marked (_nextMarkBitMap s) u ∨ in_log s u ∨ u ∈ task_pending t').
      { intros u _ [?|Hu]; [by right; left|]. unfold task_pending in Hu. rewrite Hd, Hs in Hu. by apply elem_of_nil in Hu. }
      destruct (v_edges _ Hinv x i z He) as [Hc|[(fs' & E1 & E2) _]]; [by apply (covered_mono s (put_task s k t') k t t')|].
      intros _. right. right. exists k, t'. split; [by apply (new_task s _ k t t')|]. unfold task_pending. cbn. apply elem_of_cons. left. congruence.
    + intros x j z _ _. unfold task_roots. rewrite Hs. cbn. tauto.
  - destruct (check_limits_spec ch s (set_scan t None)) as (l & f & -> & Hf).
    apply (inv_task_local s _ k t (set_flags (set_limits (set_scan t None) l) f)); try done.
    + apply task_ok_flags; [apply task_ok_limits|by left].
      by apply (task_ok_scan_next _ _ (Fields o i)).
    + intros z _. unfold task_pending. rewrite Hd, Hs. by intros ?%elem_of_nil.
    + intros x j z He _ _ Hg. right. right. unfold task_grey, task_held, task_scans, region_grey in *. cbn. rewrite Hs in Hg.
      destruct Hg as [?|[[-> Hj]|?]]; [by left| |by right; right]. by destruct (field_end s x fs i j z).
    + intros x j z _ _. unfold task_roots. rewrite Hs. cbn. tauto.
Qed.

Lemma null_irrelevant : ¬ relevant NULL.
Proof. intros Hr%relevant_in_heap. pose proof (ho_start Hheap). unfold NULL in Hr. lia. Qed.

Lemma inv_Buffer s k t l ch s' :
  inv s → _tasks s !! k = Some t → t_deal t = None → t_scan t = Some (Buffer l) → step_scan c ch k t (Buffer l) s = Some s' → inv s'.
Proof.
  intros Hinv Hk Hd Hs. pose proof (v_tasks _ Hinv k t Hk) as Ht. pose proof (k_pending _ _ Ht) as Hp. unfold task_pending in Hp. rewrite Hd, Hs in Hp. cbn in Hp.
  assert (Hgoal : ∀ t', task_ok (_nextMarkBitMap s) t' → (∀ y, relevant y → y ∈ l → y ∈ task_pending t') →
    task_held t' = task_held t → t_region t' = t_region t → t_iter t' = t_iter t → t_top t' = t_top t → inv (put_task s k t')).
  { intros t' Ht' Hpe E1 E2 E3 E4. apply (inv_task_local s _ k t t'); try done.
    - intros y Hy. unfold task_pending at 1. rewrite Hd, Hs. cbn. right. auto.
    - intros x i y _ _ _. unfold task_grey, task_scans, region_grey. rewrite Hs, E1, E2, E3. tauto.
    - intros x i y _ _. unfold task_roots. rewrite Hs, E4. tauto. }
  cbn [step_scan]. destruct l as [|y l]; intros [= <-].
  - apply Hgoal; try done; [by apply (task_ok_scan_next _ _ (Buffer []))|]. by intros y _ Hy%elem_of_nil.
  - apply Forall_cons in Hp as [Hy Hl]. destruct (Z.eqb_spec y NULL) as [->|Hn]; apply Hgoal; try done.
    + by apply (task_ok_scan_next _ _ (Buffer (NULL :: l))).
    + intros z Hz [->|?]%elem_of_cons; [by apply null_irrelevant in Hz|]. unfold task_pending. cbn. rewrite Hd. done.
    + by apply (task_ok_scan _ _ (Buffer (y :: l))).
    + unfold task_held. cbn. by rewrite Hd.
Qed.

Lemma inv_RootFields s k t o i ch s' :
  inv s → _tasks s !! k = Some t → t_deal t = None → t_scan t = Some (RootFields o i) → step_scan c ch k t (RootFields o i) s = Some s' → inv s'.
Proof.
  intros Hinv Hk Hd Hs. pose proof (v_tasks _ Hinv k t Hk) as Ht. pose proof (k_scan _ _ Ht) as Ho. rewrite Hs in Ho. cbn [step_scan].
  assert (Hgoal : ∀ t', task_ok (_nextMarkBitMap s) t' → task_held t' = task_held t → t_region t' = t_region t → t_iter t' = t_iter t → t_top t' = t_top t →
    (∀ x j y, edge x j y → below x = false → task_roots t x j → covered (put_task s k t') y ∨ task_roots t' x j) → inv (put_task s k t')).
  { intros t' Ht' E1 E2 E3 E4 Hr. apply (inv_task_local s _ k t t'); try done.
    - intros y _. unfold task_pending at 1. rewrite Hd, Hs. by intros ?%elem_of_nil.
    - intros x j y _ _ _. unfold task_grey, task_scans, region_grey. rewrite Hs, E1, E2, E3. tauto. }
  destruct (s_heap s !! o) as [fs|] eqn:Eo; cbn [mbind option_bind]; [|done]. destruct (fs !! i) as [y|] eqn:Ei; intros [= <-].
  - assert (Hv : valid_ref y) by by eapply field_valid. set (t' := if (y =? NULL) || (y >=? _heap_end c) then _ else _).
    assert (Hscan : t_scan t' = Some (RootFields o (S i)) ∧ t_top t' = t_top t ∧ (relevant y → y ∈ task_pending t')).
    { subst t'. destruct (Z.eqb_spec y NULL) as [Hn|], (Z.geb_spec y (_heap_end c)); cbn [orb]; split_and!; try done.
      - rewrite Hn. by intros Hr%null_irrelevant.
      - rewrite Hn. by intros Hr%null_irrelevant.
      - intros Hr%relevant_in_heap. lia.
      - intros _. unfold task_pending. cbn. apply elem_of_cons. by left. }
    destruct Hscan as (Es' & Et' & Hy'). apply Hgoal; try (subst t'; by destruct (_ || _)).
    + subst t'. destruct (_ || _); [by apply (task_ok_scan_next _ _ (RootFields o i))|by apply (task_ok_scan _ _ (RootFields o i))].
    + subst t'. destruct (_ || _); unfold task_held; cbn; by rewrite ?Hd.
    + intros x j z He Hb. unfold task_roots at 1. rewrite Hs. intros [?|[-> Hj]]; [right; left; by rewrite Et'|].
      destruct (decide (j = i)) as [->|]; [left|right; right; rewrite Es'; split; [done|lia]].
      destruct (v_edges _ Hinv x i z He) as [Hc|[(fs' & E1 & E2) _]].
      * apply (covered_mono s (put_task s k t') k t t'); try done. intros u _ [?|Hu]; [by right; left|].
        unfold task_pending in Hu. rewrite Hd, Hs in Hu. by apply elem_of_nil in Hu.
      * intros Hz. right. right. exists k, t'. split; [by apply (new_task s _ k t t')|]. assert (z = y) as -> by congruence. auto.
  - apply Hgoal; try done; [by apply (task_ok_scan_next _ _ (RootFields o i))|]. intros x j z He Hb. unfold task_roots. rewrite Hs.
    intros [?|[-> Hj]]; [right; by left|]. by destruct (field_end s x fs i j z).
Qed.

Lemma inv_step_scan s k t sc ch s' :
  inv s → _tasks s !! k = Some t → t_deal t = None → t_scan t = Some sc → step_scan c ch k t sc s = Some s' → inv s'.
Proof. intros Hinv Hk Hd Hs. destruct sc; [by eapply inv_Fields|by eapply inv_Buffer|by eapply inv_RootFields]. Qed.

(** ** [drain_local_queue] and [drain_global_stack] *)

Definition stage_ok (t : CMTask) (d : drain_stage) : Prop :=
  match d with
  | GStart | GLoop => has_aborted t = true ∨ has_room t global_stack_transfer_size
  | GGet => has_room t global_stack_transfer_size
  | GPush l => has_room t (Z.of_nat (length l))
  | _ => True
  end.

Lemma task_ok_drain b t d d' :
  task_ok b t → t_deal t = None → t_scan t = None → t_drain t = Some d →
  match d' with
  | Some (mkDrain _ (GPush l)) => Forall (λ x, relevant x ∧ marked b x) l
  | _ => True
  end →
  match d' with Some d' => stage_ok t (d_stage d') | None => True end → task_ok b (set_drain t d').
Proof.
  intros [H1 H2 H4 H5 H6 H7 H8 H9 H10 H11 H12] Ed Es Edr Hh Hst. unfold task_held in H4. rewrite Ed, !Forall_app in H4. destruct H4 as (_ & _ & H4).
  split; cbn; try done.
  - unfold task_held. cbn. rewrite Ed, !Forall_app. split_and!; [constructor| |done]. destruct d' as [[p []]|]; try constructor; done.
  - destruct (t_iter t) as [it|]; [|done]. destruct H8 as (i & hr & f & E1 & E2 & E3 & H8). exists i, hr, f. split_and!; try done.
    assert (Hbusy : busy t) by (right; right; congruence). destruct it; tauto.
  - destruct d' as [[p []]|]; try done.
Qed.

Lemma stage_of b t d : task_ok b t → t_drain t = Some d → t_deal t = None → t_scan t = None → stage_ok t (d_stage d).
Proof. intros Ht Hdr Hd Hs. pose proof (k_drain _ _ Ht) as H. rewrite Hdr in H. destruct (d_stage d); cbn; try done; tauto. Qed.

Lemma drain_control s k t d d' :
  inv s → _tasks s !! k = Some t → t_deal t = None → t_scan t = None → t_drain t = Some d →
  match d_stage d with GPush (_ :: _) => False | _ => True end → match d' with Some (mkDrain _ (GPush _)) => False | _ => True end →
  match d' with Some d' => stage_ok t (d_stage d') | None => True end → inv (put_task s k (set_drain t d')).
Proof.
  intros Hinv Hk Hd Hs Hdr Hh Hh' Hst. pose proof (v_tasks _ Hinv k t Hk) as Ht. apply (held_step s k t); try done.
  - apply (task_ok_drain _ _ d); try done. by destruct d' as [[p []]|].
  - intros x. unfold task_held. cbn. rewrite Hdr. destruct d as [p st]. cbn in Hh. rewrite !elem_of_app. destruct st as [| | | | | |[]]; cbn; try tauto.
    all: rewrite elem_of_nil; tauto.
Qed.

Lemma below_target t p : queue_size t <= local_target c p → has_room t global_stack_transfer_size.
Proof. pose proof (ho_room Hheap). pose proof (ho_target Hheap). pose proof (ho_elems Hheap). unfold has_room. destruct p; [lia|]. unfold local_target at 1. lia. Qed.

Lemma inv_LPop s k t p loop s' :
  inv s → _tasks s !! k = Some t → t_deal t = None → t_scan t = None → t_drain t = Some (mkDrain p (LPop loop)) →
  step_drain c k t (mkDrain p (LPop loop)) s = Some s' → inv s'.
Proof.
  intros Hinv Hk Hd Hs Hdr. pose proof (v_tasks _ Hinv k t Hk) as Ht. cbn [step_drain d_stage d_partially].
  pose proof (pop_local_spec t) as Hpop. destruct (pop_local t) as [[o|] t1].
  2:{ destruct Hpop as [-> Eq]. intros [= <-]. apply (drain_control _ _ _ _ _ Hinv Hk Hd Hs Hdr); try done; [by destruct loop|].
      assert (has_room t global_stack_transfer_size) by (unfold has_room, queue_size; rewrite Eq; pose proof (ho_elems Hheap); cbn; lia). destruct loop; by right. }
  destruct Hpop as (-> & Eq & Hsz). set (q := take _ _) in *. intros [= <-].
  assert (Ht1 : task_ok (_nextMarkBitMap s) (set_drain (set_queue t q) (Some (mkDrain p (LNext loop))))).
  { apply (task_ok_drain _ _ (mkDrain p (LPop loop))); try done. apply task_ok_queue; [done|rewrite Eq; intros x Hx; apply elem_of_app; by left|rewrite Eq, length_app; lia]. }
  pose proof (k_held _ _ Ht) as Hq. unfold task_held in Hq. rewrite Eq, !Forall_app in Hq. destruct Hq as (_ & _ & _ & Ho). rewrite Forall_singleton in Ho.
  unfold scan_object. set (lim := mkLimits _ _ _ _ _ _). set (t' := set_drain _ _). apply (inv_task_local s _ k t t'); try done.
  - destruct Ht1 as [H1 H2 H4 H5 H6 H7 H8 H9 H10 H11 H12]. split; try done.
    + unfold task_pending. cbn. rewrite Hd. constructor.
    + subst t'. cbn. pose proof (k_iter _ _ Ht) as Hi. destruct (t_iter t) as [it|]; [|done]. destruct Hi as (i & hr & f & E1 & E2 & E3 & Hi). exists i, hr, f. split_and!; try done.
      assert (Hbusy : busy t) by (right; right; congruence). destruct it; tauto.
  - intros y _. unfold task_pending. rewrite Hd, Hs. by intros ?%elem_of_nil.
  - intros x i y _ _ _ Hg. right. right. unfold task_grey, task_held, task_scans, region_grey in *. cbn. rewrite Hd, Hs, Hdr, Eq in Hg. rewrite Hd.
    destruct Hg as [Hg|[[]|Hg]]; [|by right; right]. cbn in Hg. rewrite elem_of_app, list_elem_of_singleton in Hg. destruct Hg as [Hg| ->]; [by left|].
    right. left. split; [done|lia].
  - intros x i y _ _. unfold task_roots. cbn. rewrite Hs. tauto.
Qed.

Lemma inv_GGet s k t p s' :
  inv s → _tasks s !! k = Some t → t_deal t = None → t_scan t = None → t_drain t = Some (mkDrain p GGet) →
  step_drain c k t (mkDrain p GGet) s = Some s' → inv s'.
Proof.
  intros Hinv Hk Hd Hs Hdr. pose proof (v_tasks _ Hinv k t Hk) as Ht. pose proof (stage_of _ _ _ Ht Hdr Hd Hs) as Hr. cbn in Hr.
  cbn [step_drain d_stage d_partially]. destruct (par_pop_arr (_markStack s) global_stack_transfer_size) as [buf st] eqn:E. intros [= <-].
  assert (Hsplit : _base (_markStack s) = _base st ++ buf ∧ _overflow st = _overflow (_markStack s) ∧ Z.of_nat (length buf) <= global_stack_transfer_size).
  { unfold par_pop_arr in E. unfold MIN2 in E. destruct (stack_size (_markStack s) =? 0); injection E as <- <-; cbn.
    - by rewrite app_nil_r.
    - rewrite take_drop, length_drop. split_and!; try done. unfold stack_size, global_stack_transfer_size. case_match; lia. }
  destruct Hsplit as (E1 & E2 & Hlen). pose proof (v_stack _ Hinv) as Hst. rewrite E1 in Hst. apply Forall_app in Hst as [Hst1 Hst2].
  apply (inv_stack s k t); try done.
  - apply (task_ok_drain _ _ (mkDrain p GGet)); try done. cbn. unfold has_room in *. lia.
  - by rewrite E2.
  - intros x. unfold task_held. cbn. rewrite E1, Hdr, !elem_of_app, elem_of_nil. tauto.
Qed.

Lemma inv_GPush s k t p l s' :
  inv s → _tasks s !! k = Some t → t_deal t = None → t_scan t = None → t_drain t = Some (mkDrain p (GPush l)) →
  step_drain c k t (mkDrain p (GPush l)) s = Some s' → inv s'.
Proof.
  intros Hinv Hk Hd Hs Hdr. pose proof (v_tasks _ Hinv k t Hk) as Ht. pose proof (stage_of _ _ _ Ht Hdr Hd Hs) as Hr. cbn in Hr.
  pose proof (k_held _ _ Ht) as Hh. unfold task_held in Hh. rewrite Hd, Hdr, !Forall_app in Hh. destruct Hh as (_ & Hl & Hq).
  cbn [step_drain d_stage d_partially]. destruct l as [|y l]; intros [= <-].
  - apply (held_step s k t); try done.
    + apply (task_ok_drain _ _ (mkDrain p (GPush []))); try done. by apply task_ok_limits.
    + intros x. unfold task_held. cbn. by rewrite Hdr.
  - cbn [length] in Hr. rewrite queue_push_room by (unfold has_room in *; lia). apply Forall_cons in Hl as [Hy Hl]. apply (held_step s k t); try done.
    + destruct Ht as [H1 H2 H4 H5 H6 H7 H8 H9 H10 H11 H12]. split; try done; cbn.
      * unfold task_held. cbn. rewrite Hd, !Forall_app. split_and!; try done. by apply Forall_singleton.
      * destruct (t_iter t) as [it|]; [|done]. destruct H8 as (i & hr & f & E1 & E2 & E3 & H8). exists i, hr, f. split_and!; try done.
        assert (Hbusy : busy t) by (right; right; congruence). destruct it; tauto.
      * by rewrite Hd.
      * split_and!; try done. unfold has_room, queue_size in *. cbn. rewrite length_app. cbn. lia.
      * unfold has_room, queue_size in *. cbn. rewrite length_app. cbn. lia.
    + intros x. unfold task_held. cbn. rewrite Hdr. cbn. rewrite ?elem_of_app, ?elem_of_cons, ?elem_of_app, ?elem_of_cons. tauto.
Qed.

Lemma inv_step_drain s k t d s' :
  inv s → _tasks s !! k = Some t → t_deal t = None → t_scan t = None → t_drain t = Some d → step_drain c k t d s = Some s' → inv s'.
Proof.
  intros Hinv Hk Hd Hs Hdr. pose proof (v_tasks _ Hinv k t Hk) as Ht. pose proof (stage_of _ _ _ Ht Hdr Hd Hs) as Hr. destruct d as [p st].
  assert (Hctl : ∀ d', match st with GPush (_ :: _) => False | _ => True end → match d' with Some (mkDrain _ (GPush _)) => False | _ => True end →
    match d' with Some d' => stage_ok t (d_stage d') | None => True end → Some (put_task s k (set_drain t d')) = Some s' → inv s').
  { intros d' H1 H2 H3 [= <-]. by apply (drain_control _ _ _ _ _ Hinv Hk Hd Hs Hdr). }
  assert (Hloc : ∀ loop : bool, has_aborted t = true ∨ queue_size t <= local_target c p → stage_ok t (if loop then GLoop else GStart)).
  { intros loop H. assert (has_aborted t = true ∨ has_room t global_stack_transfer_size) by (destruct H as [?|?%below_target]; tauto). by destruct loop. }
  destruct st.
  - cbn [step_drain d_stage d_partially]. destruct (has_aborted t) eqn:Ea; [apply Hctl; try done; [by destruct loop|apply Hloc; by left]|].
    destruct (Z.gtb_spec (queue_size t) (local_target c p)); apply Hctl; try done; [by destruct loop|]. apply Hloc. right. lia.
  - by eapply inv_LPop.
  - cbn [step_drain d_stage d_partially]. destruct (Z.leb_spec (queue_size t) (local_target c p)), (has_aborted t) eqn:Ea; cbn [orb]; apply Hctl; try done;
      try (by destruct loop); apply Hloc; tauto.
  - cbn [step_drain d_stage d_partially]. destruct (has_aborted t) eqn:Ea; [by apply Hctl|]. destruct (_ >? _); by apply Hctl.
  - cbn [step_drain d_stage d_partially]. destruct (has_aborted t) eqn:Ea; cbn [negb andb]; [by apply Hctl|]. destruct (_ >? _); [|by apply Hctl].
    apply Hctl; try done. cbn in *. destruct Hr; [congruence|done].
  - by eapply inv_GGet.
  - by eapply inv_GPush.
Qed.

(** ** The iteration over a region *)

#[local] Opaque BitMap.next_one_bit.

Definition at_rest (t : CMTask) : Prop := t_deal t = None ∧ t_scan t = None ∧ t_drain t = None.

Lemma at_rest_not_busy t : at_rest t → ¬ busy t.
Proof. by intros (Hd & Hs & Hdr) [?|[?|?]]. Qed.

Lemma task_ok_giveup b t : task_ok b t → task_ok b (set_iter (giveup_current_region t) None).
Proof.
  intros [H1 H2 H4 H5 H6 H7 H8 H9 H10 H11 H12]. split; try done. cbn. by destruct (t_deal t) as [[]|].
Qed.

Lemma inv_giveup s k t l f :
  inv s → _tasks s !! k = Some t → at_rest t → (∀ x, relevant x → marked (_nextMarkBitMap s) x → ¬ region_grey t x) →
  inv (put_task s k (set_flags (set_limits (set_iter (giveup_current_region t) None) l) f)).
Proof.
  intros Hinv Hk (Hd & Hs & Hdr) Hnone. pose proof (v_tasks _ Hinv k t Hk) as Ht.
  apply (inv_task_local s _ k t (set_flags (set_limits (set_iter (giveup_current_region t) None) l) f)); try done.
  - apply task_ok_flags; [|by right]. by apply task_ok_limits, task_ok_giveup.
  - intros y _. by right.
  - intros x i y _ Hr Hm [?|[?|Hg]]; [by right; right; left|by right; right; right; left|]. by destruct (Hnone x Hr Hm).
  - intros x i y _ _ ?. by right.
Qed.

Lemma inv_giveup_clock s k t ch :
  inv s → _tasks s !! k = Some t → at_rest t → (∀ x, relevant x → marked (_nextMarkBitMap s) x → ¬ region_grey t x) →
  inv (put_task s k (regular_clock_call ch s (set_iter (giveup_current_region t) None))).
Proof.
  intros Hinv Hk Hrest Hnone. destruct (clock_spec ch s (set_iter (giveup_current_region t) None)) as (l & f & -> & _). by apply inv_giveup.
Qed.

(** The closure of the iteration visits [x]. *)
Definition visit (t : CMTask) (x : Z) (next : iter_pc) : CMTask := drain (scan_object c (set_iter (move_finger_to t x) (Some next)) x) true.

Lemma task_ok_visit b t x next i hr :
  task_ok b t → at_rest t → _curr_region (t_region t) = Some i → regions c !! i = Some hr → relevant x → marked b x →
  next = AfterBit (off x) (off (next_top_at_mark_start hr)) ∨ next = AfterHumongous ∧ isHumongous hr = true ∧ x = bottom hr → task_ok b (visit t x next).
Proof.
  intros [H1 H2 H4 H5 H6 H7 H8 H9 H10 H11 H12] (Hd & Hs & Hdr) Hi Ehr Hx Hm Hnext. unfold task_pending, task_held in *. rewrite Hd, ?Hs, ?Hdr in *.
  split; cbn; try done; try (by rewrite Hd).
  - rewrite Hi in *. destruct H7 as (hr' & f & E & _ & El & _ & _ & Hlt). exists hr', x. split_and!; try done; [|by apply (ho_aligned Hheap), Hx].
    apply (ho_in_heap Hheap), Hx.
  - exists i, hr, x. destruct Hnext as [-> | (-> & ? & ?)]; split_and!; try done.
Qed.

Lemma inv_visit s k t x next i hr :
  inv s → _tasks s !! k = Some t → at_rest t → _curr_region (t_region t) = Some i → regions c !! i = Some hr →
  relevant x → marked (_nextMarkBitMap s) x →
  next = AfterBit (off x) (off (next_top_at_mark_start hr)) ∨ next = AfterHumongous ∧ isHumongous hr = true ∧ x = bottom hr →
  (∀ z, relevant z → marked (_nextMarkBitMap s) z → region_grey t z → z = x ∨ region_grey (visit t x next) z) →
  inv (put_task s k (visit t x next)).
Proof.
  intros Hinv Hk Hrest Hi Ehr Hx Hm Hnext Hg. pose proof (v_tasks _ Hinv k t Hk) as Ht. pose proof Hrest as (Hd & Hs & Hdr).
  apply (inv_task_local s _ k t (visit t x next)); try done.
  - by apply (task_ok_visit _ _ _ _ i hr).
  - intros y _. unfold task_pending. rewrite Hd, Hs. by intros ?%elem_of_nil.
  - intros z j y _ Hz Hmz [Hh|[Hsc|Hgr]]; right; right.
    + left. unfold task_held in *. rewrite Hd, Hdr in Hh. cbn. by rewrite Hd.
    + unfold task_scans in Hsc. by rewrite Hs in Hsc.
    + destruct (Hg z Hz Hmz Hgr) as [->|?]; [|by right; right]. right. left. cbn. split; [done|lia].
  - intros z j y _ _. unfold task_roots. rewrite Hs. cbn. tauto.
Qed.

Lemma marked_object s o : inv s → o ∈ bits (_nextMarkBitMap s) → ∃ x, relevant x ∧ marked (_nextMarkBitMap s) x ∧ off x = o ∧ offsetToHeapWord (_nextMarkBitMap s) o = x.
Proof.
  intros Hinv Ho. destruct (v_marks _ Hinv o Ho) as (x & Hx & <-). exists x. split_and!; try done.
  rewrite offsetToHeapWord_addr by apply Hinv. apply addr_of_off, (ho_aligned Hheap), Hx.
Qed.

Lemma inv_search_result s k t lo o i hr ch :
  inv s → _tasks s !! k = Some t → at_rest t → _curr_region (t_region t) = Some i → regions c !! i = Some hr →
  let r := off (next_top_at_mark_start hr) in
  (∀ x, region_grey t x → lo <= off x < r) → (∀ j, lo <= j < o → j ∉ bits (_nextMarkBitMap s)) → (o < r → o ∈ bits (_nextMarkBitMap s)) →
  inv (put_task s k (search_result c ch s t o r)).
Proof.
  intros Hinv Hk Hrest Hi Ehr r Hg Hskip Hfound. unfold search_result. destruct (Z.ltb_spec o r) as [Hlt|Hge].
  - destruct (marked_object s o Hinv (Hfound Hlt)) as (x & Hx & Hm & <- & Hw). unfold do_bit. rewrite Hw. apply (inv_visit s k t x (AfterBit (off x) r) i hr); try done; [by left|].
    intros z Hz Hmz Hgz%Hg. destruct (Z.lt_trichotomy (off z) (off x)) as [Hlo|[He|Hhi]].
    + destruct (Hskip (off z)); [lia|done].
    + left. apply off_inj; [apply (ho_aligned Hheap), Hz|apply (ho_aligned Hheap), Hx|done].
    + right. cbn. rewrite addr_of_off by apply (ho_aligned Hheap), Hx. split; [|lia]. apply next_object; [apply Hx|apply Hz|done].
  - apply inv_giveup_clock; try done. intros z Hz Hmz Hgz%Hg. destruct (Hskip (off z)); [lia|done].
Qed.

Lemma limit_in_bitmap b i hr : bitmap_ok b → regions c !! i = Some hr → next_top_at_mark_start hr <= endWord b ∧ off (next_top_at_mark_start hr) <= BitMap._size (_bm b).
Proof.
  intros Hb Hi. pose proof (bo_end _ Hb). pose proof (region_bounds i hr Hi). split; [lia|]. rewrite (bo_size _ Hb).
  apply off_le; [|apply Hb|lia]. apply (ho_region_aligned Hheap). by eapply list_elem_of_lookup_2.
Qed.

Lemma bitmap_capacity b : bitmap_ok b → BitMapFacts.sane (_bm b) ∧ BitMap._size (_bm b) <= 64 * Z.of_nat (length (BitMap._map (_bm b))).
Proof.
  intros Hb. pose proof (BitMapFacts.wf_sane _ (bo_wf _ Hb)) as Hs. split; [done|]. pose proof (BitMapFacts.sane_size _ Hs) as H. unfold BitMapFacts.capacity in H. lia.
Qed.

Lemma unset_bit m j : 0 <= j → BitMapFacts.bit m j = false → j ∉ BitMapFacts.bits_of m.
Proof. intros Hj Hb [_ H]%BitMapFacts.elem_of_bits. congruence. Qed.

Lemma inv_next_word s k t lo w i hr f :
  inv s → _tasks s !! k = Some t → at_rest t → _curr_region (t_region t) = Some i → regions c !! i = Some hr → _finger (t_region t) = Some f →
  let r := off (next_top_at_mark_start hr) in
  0 <= w → 0 < r → 0 <= lo → (∀ x, region_grey t x → lo <= off x < r) →
  (∀ j, lo <= j < 64 * w → BitMapFacts.bit (_bm (_nextMarkBitMap s)) j = false) → inv (put_task s k (set_iter t (Some (SearchWord w r)))).
Proof.
  intros Hinv Hk Hrest Ei Ehr Ef r Hw Hr Hlo Hg Hzero. pose proof (v_tasks _ Hinv k t Hk) as Ht.
  apply (inv_task_local s _ k t (set_iter t (Some (SearchWord w r)))); try done.
  - destruct Ht as [H1 H2 H4 H5 H6 H7 H8 H9 H10 H11 H12]. split; try done; cbn.
    + exists i, hr, f. split_and!; try done. by apply at_rest_not_busy.
    + by destruct Hrest as (-> & _).
  - intros y _. by right.
  - intros x j y _ Hx Hm [?|[?|Hgx]]; [by right; right; left|by right; right; right; left|]. right. right. right. right. cbn. apply Hg in Hgx. split; [|lia].
    destruct (Z.ltb_spec (off x) (64 * w)); [|lia]. by destruct (unset_bit (_bm (_nextMarkBitMap s)) (off x)); [lia|apply Hzero; lia|].
  - intros x j y _ _ ?. by right.
Qed.

Lemma inv_found s k t lo o i hr ch :
  inv s → _tasks s !! k = Some t → at_rest t → _curr_region (t_region t) = Some i → regions c !! i = Some hr →
  let r := off (next_top_at_mark_start hr) in
  0 <= lo <= o → (∀ x, region_grey t x → lo <= off x < r) →
  BitMapFacts.bit (_bm (_nextMarkBitMap s)) o = true → (∀ j, lo <= j < o → BitMapFacts.bit (_bm (_nextMarkBitMap s)) j = false) →
  inv (put_task s k (search_result c ch s t (MIN2 o r) r)).
Proof.
  intros Hinv Hk Hrest Ei Ehr r Hlo Hg Ho Hzero. apply (inv_search_result s k t lo (MIN2 o r) i hr); try done; unfold MIN2; case_match.
  - intros j Hj. apply unset_bit; [lia|]. apply Hzero. lia.
  - intros j Hj. apply unset_bit; [lia|]. apply Hzero. lia.
  - intros _. apply BitMapFacts.elem_of_bits. split; [lia|done].
  - fold r. lia.
Qed.

Lemma inv_Search s k t l r ch s' :
  inv s → _tasks s !! k = Some t → at_rest t → t_iter t = Some (Search l r) → step_iter c ch k t (Search l r) s = Some s' → inv s'.
Proof.
  intros Hinv Hk Hrest Hit. pose proof (v_tasks _ Hinv k t Hk) as Ht. pose proof (v_bitmap _ Hinv) as Hb. pose proof (k_iter _ _ Ht) as Hi. rewrite Hit in Hi.
  destruct Hi as (i & hr & f & Ei & Ehr & Ef & Hlr & -> & _). set (r := off _) in *. destruct (limit_in_bitmap _ i hr Hb Ehr) as [_ Hcap]. fold r in Hcap.
  destruct (bitmap_capacity _ Hb) as [Hsane Hsz]. assert (Hg : ∀ x, region_grey t x → l <= off x < r) by (intros x; unfold region_grey; by rewrite Hit).
  cbn [step_iter]. destruct (Z.eqb_spec l r) as [->|Hne].
  { intros [= <-]. apply (inv_search_result s k t r r i hr); try done; [intros j Hj; lia|subst r; lia]. }
  destruct (BitMapFacts.search_first_word (_bm (_nextMarkBitMap s)) l Hsane) as (w & -> & Hzero & Hone); [unfold BitMapFacts.capacity; lia|]. cbn [mbind option_bind].
  destruct (w >>> BitMap.bit_in_word l =? BitMap.NoBits); cbn [negb]; intros [= <-].
  - apply (inv_next_word s k t l _ i hr f); try done; [|lia|lia|by apply Hzero]. rewrite BitMapFacts.word_index_div. Z.to_euclidean_division_equations; lia.
  - destruct (Hone eq_refl) as (Hk1 & Hk2 & Hk3). apply (inv_found s k t l _ i hr); try done. lia.
Qed.

Lemma inv_SearchWord s k t w r ch s' :
  inv s → _tasks s !! k = Some t → at_rest t → t_iter t = Some (SearchWord w r) → step_iter c ch k t (SearchWord w r) s = Some s' → inv s'.
Proof.
  intros Hinv Hk Hrest Hit. pose proof (v_tasks _ Hinv k t Hk) as Ht. pose proof (v_bitmap _ Hinv) as Hb. pose proof (k_iter _ _ Ht) as Hi. rewrite Hit in Hi.
  destruct Hi as (i & hr & f & Ei & Ehr & Ef & Hw & Hr & -> & _). set (r := off _) in *. destruct (limit_in_bitmap _ i hr Hb Ehr) as [_ Hcap]. fold r in Hcap.
  destruct (bitmap_capacity _ Hb) as [Hsane Hsz]. assert (Hg : ∀ x, region_grey t x → 64 * w <= off x < r) by (intros x; unfold region_grey; by rewrite Hit).
  cbn [step_iter]. rewrite BitMapFacts.word_index_div. destruct (Z.ltb_spec w ((r - 1) / 64 + 1)) as [Hlt|Hge].
  2:{ intros [= <-]. apply (inv_search_result s k t r r i hr); try done; [|intros j Hj; lia|subst r; lia].
      intros x Hx%Hg. exfalso. Z.to_euclidean_division_equations; lia. }
  destruct (BitMapFacts.search_next_word (_bm (_nextMarkBitMap s)) w Hsane) as (v & -> & Hzero & Hone); [Z.to_euclidean_division_equations; lia|]. cbn [mbind option_bind].
  destruct (v =? BitMap.NoBits); cbn [negb]; intros [= <-].
  - apply (inv_next_word s k t (64 * w) _ i hr f); try done; [lia|lia|by apply Hzero].
  - destruct (Hone eq_refl) as (Hk1 & Hk2 & Hk3). apply (inv_found s k t (64 * w) _ i hr); try done. lia.
Qed.

Lemma inv_AfterBit s k t o r ch s' :
  inv s → _tasks s !! k = Some t → at_rest t → t_iter t = Some (AfterBit o r) → step_iter c ch k t (AfterBit o r) s = Some s' → inv s'.
Proof.
  intros Hinv Hk Hrest Hit. pose proof (v_tasks _ Hinv k t Hk) as Ht. pose proof (v_bitmap _ Hinv) as Hb. pose proof (k_iter _ _ Ht) as Hi. rewrite Hit in Hi.
  destruct Hi as (i & hr & f & Ei & Ehr & Ef & -> & Hf & Hm & ->). pose proof (k_region _ _ Ht) as Hreg. rewrite Ei in Hreg.
  destruct Hreg as (hr' & f' & Ehr' & Ef' & El & Hsf & Af & Hntams). assert (hr' = hr) as -> by congruence. assert (f' = f) as -> by congruence. clear Ehr' Ef'.
  destruct (limit_in_bitmap _ i hr Hb Ehr) as [Hend Hsz]. destruct (ho_aligned Hheap f (proj1 Hf)) as [_ Anext]. pose proof (ho_size Hheap f (proj1 Hf)) as Hpos.
  assert (hr ∈ regions c) as Hin by by eapply list_elem_of_lookup_2. destruct (ho_region_aligned Hheap hr Hin) as [_ Antams].
  assert (Hg : ∀ x, relevant x → region_grey t x → nextObject c f <= x < next_top_at_mark_start hr).
  { intros x Hx. unfold region_grey. rewrite Hit, addr_of_off by done. destruct (ho_aligned Hheap x (proj1 Hx)) as [Ax _]. intros [H1 H2].
    split; [by apply off_le|by apply off_lt]. }
  cbn [step_iter t_region set_iter]. destruct (has_aborted t) eqn:Ea.
  - rewrite Ef, El. cbn [mbind option_bind]. intros [= <-]. destruct (Z.geb_spec (nextObject c f) (next_top_at_mark_start hr)) as [Hge|Hlt].
    + replace (giveup_current_region (set_iter t None)) with (set_flags (set_limits (set_iter (giveup_current_region t) None) (t_limits t)) (t_flags t)) by by destruct t.
      apply inv_giveup; try done. intros x Hx _ Hgx%Hg; [lia|done].
    + apply (inv_task_local s _ k t (move_finger_to (set_iter t None) (nextObject c f))); try done.
      * destruct Ht as [H1 H2 H4 H5 H6 H7 H8 H9 H10 H11 H12]. split; try done; cbn.
        -- rewrite Ei. exists hr, (nextObject c f). split_and!; try done. unfold nextObject. lia.
        -- by destruct Hrest as (-> & _).
      * intros y _. by right.
      * intros x j y _ Hx Hmx [?|[?|Hgx]]; [by right; right; left|by right; right; right; left|]. right. right. right. right. cbn. rewrite El. by apply Hg.
      * intros x j y _ _ ?. by right.
  - rewrite El. cbn [mbind option_bind]. intros [= <-]. rewrite heapWordToOffset_off by done. rewrite offsetToHeapWord_addr, addr_of_off by done.
    set (a := MIN2 _ _). assert (Ha : a = Z.min (nextObject c f) (next_top_at_mark_start hr)) by (subst a; unfold MIN2; repeat case_match; lia).
    assert (Aa : aligned a) by (rewrite Ha; by destruct (Z.min_dec (nextObject c f) (next_top_at_mark_start hr)) as [-> | ->]).
    apply (inv_task_local s _ k t (set_iter t (Some (Search (off a) (off (next_top_at_mark_start hr)))))); try done.
    + destruct Ht as [H1 H2 H4 H5 H6 H7 H8 H9 H10 H11 H12]. split; try done; cbn.
      * exists i, hr, f. split_and!; try done; [|apply off_le; try done; lia|by apply at_rest_not_busy].
        rewrite <- off_start. apply off_le; [apply aligned_start|done|]. pose proof (region_bounds i hr Ehr). unfold nextObject in Ha. lia.
      * by destruct Hrest as (-> & _).
    + intros y _. by right.
    + intros x j y _ Hx Hmx [?|[?|Hgx]]; [by right; right; left|by right; right; right; left|]. right. right. right. right. cbn.
      destruct (ho_aligned Hheap x (proj1 Hx)) as [Ax _]. apply Hg in Hgx; [|done]. split; [apply off_le; try done; lia|apply off_lt; try done; lia].
    + intros x j y _ _ ?. by right.
Qed.

Lemma inv_step_iter s k t it ch s' :
  inv s → _tasks s !! k = Some t → at_rest t → t_iter t = Some it → step_iter c ch k t it s = Some s' → inv s'.
Proof.
  intros Hinv Hk Hrest Hit. destruct it; [by eapply inv_Search|by eapply inv_SearchWord|by eapply inv_AfterBit|].
  cbn. intros [= <-]. apply inv_giveup_clock; try done. intros x _ _. unfold region_grey. rewrite Hit. tauto.
Qed.

(** ** The control of a step *)

Definition idle (t : CMTask) : Prop := at_rest t ∧ t_iter t = None.

Record same_work (t t' : CMTask) : Prop := mkSameWork {
  sw_deal : t_deal t' = t_deal t;
  sw_scan : t_scan t' = t_scan t;
  sw_drain : t_drain t' = t_drain t;
  sw_queue : _task_queue t' = _task_queue t;
  sw_iter : t_iter t' = t_iter t;
  sw_region : t_region t' = t_region t
}.

Lemma clock_work ch s t : same_work t (regular_clock_call ch s t).
Proof. destruct (clock_spec ch s t) as (l & f & -> & _). by split. Qed.

Lemma task_ok_work b t t' : task_ok b t → t_drain t = None → same_work t t' → top_ok (t_top t') → task_ok b t'.
Proof.
  intros [H1 H2 H4 H5 H6 H7 H8 H9 H10 H11 H12] Hdr [E1 E2 E3 E4 E5 E6] Htop.
  split; try done; unfold task_pending, task_held, busy, has_room, queue_size in *; by rewrite ?E1, ?E2, ?E3, ?E4, ?E5, ?E6, ?Hdr in *.
Qed.

Definition root_objects (pc : top_pc) : list Z := match pc with TRootObjects l => l | _ => [] end.

Lemma task_roots_objects t x i : t_scan t = None → task_roots t x i ↔ x ∈ root_objects (t_top t).
Proof. intros Hs. unfold task_roots, root_objects. rewrite Hs. destruct (t_top t); rewrite ?elem_of_nil; tauto. Qed.

Lemma inv_top s s' k t t' :
  inv s → _tasks s !! k = Some t → idle t → _tasks s' = <[k := t']> (_tasks s) → same_core s s' → same_work t t' → top_ok (t_top t') →
  root_objects (t_top t) = [] → inv s'.
Proof.
  intros Hinv Hk [(Hd & Hs & Hdr) Hi] Hk' Hc Hw Htop Hro. pose proof Hw as [E1 E2 E3 E4 E5 E6]. apply (inv_control s s' k t t'); try done.
  - apply (task_ok_work _ t); try done. by apply (v_tasks _ Hinv k).
  - intros y. unfold task_pending. by rewrite E1, E2.
  - intros y. unfold task_held. by rewrite E1, E3, E4.
  - intros x i. unfold task_scans. by rewrite E2.
  - intros x. unfold region_grey. by rewrite E5, E6.
  - intros x i. rewrite task_roots_objects, Hro by done. by intros ?%elem_of_nil.
Qed.

Lemma inv_go s k t t' :
  inv s → _tasks s !! k = Some t → idle t → same_work t t' → top_ok (t_top t') → root_objects (t_top t) = [] → inv (put_task s k t').
Proof. intros. by apply (inv_top s _ k t t'). Qed.

(** ** [drain_satb_buffers] *)

Lemma log_valid s y : inv s → in_log s y → valid_ref y.
Proof.
  intros Hinv Hl. pose proof (v_log _ Hinv) as H. rewrite Forall_forall in H. apply H. unfold log_objects. rewrite elem_of_app.
  destruct Hl as [(i & m & Hi & Hy & _)|?]; [left|by right]. apply list_elem_of_bind. exists m. split; [done|]. by eapply list_elem_of_lookup_2.
Qed.

(** The task takes references from the log into its hands. *)
Lemma inv_take_log s s' k t t' objects :
  inv s → _tasks s !! k = Some t → idle t → _tasks s' = <[k := t']> (_tasks s) →
  _nextMarkBitMap s' = _nextMarkBitMap s → _markStack s' = _markStack s → _global_finger s' = _global_finger s → _root_regions s' = _root_regions s →
  s_heap s' = s_heap s → s_mutators s' = s_mutators s → SatbQueueFacts.wf_set n_slots (s_satb s') → Forall valid_ref (log_objects s') →
  same_work (set_scan t (Some (Buffer objects))) t' → Forall valid_ref objects → top_ok (t_top t') → root_objects (t_top t) = [] →
  (∀ y, in_log s y → in_log s' y ∨ y ∈ objects) → inv s'.
Proof.
  intros Hinv Hk [(Hd & Hs & Hdr) Hi] Hk' E1 E2 E3 E4 E5 E6 Hset Hlog Hw Hobj Htop Hro Hin. pose proof (v_tasks _ Hinv k t Hk) as Ht.
  assert (Hp : ∀ y, y ∈ objects → y ∈ task_pending t') by (intros y Hy; destruct Hw as [F1 F2 _ _ _ _]; unfold task_pending; rewrite F1, F2; cbn; by rewrite Hd).
  pose proof Hw as [F1 F2 F3 F4 F5 F6]. cbn in F1, F2, F3, F4, F5, F6.
  apply (inv_task_step s s' k t t'); rewrite ?E1, ?E2, ?E3, ?E4, ?E5, ?E6; try apply Hinv; try done.
  - intros y Hy [Hl|Hl]; [destruct (Hin y Hl); [by right; left|right; right; auto]|]. unfold task_pending in Hl. rewrite Hd, Hs in Hl. by apply elem_of_nil in Hl.
  - intros n ?. by left.
  - apply (task_ok_work _ (set_scan t (Some (Buffer objects)))); try done. destruct Ht as [H1 H2 H4 H5 H6 H7 H8 H9 H10 H11 H12]. split; try done; cbn.
    + unfold task_pending. cbn. by rewrite Hd.
    + by rewrite Hi.
    + by rewrite Hdr.
  - intros x i y _ _ _ Hg. right. unfold global_grey, task_grey, task_held, task_scans, region_grey in *. rewrite E2, E3, F1, F2, F3, F4, F5, F6. rewrite Hs in Hg. tauto.
  - intros x i y _ _ [?|Hr]; [by right; left|]. rewrite task_roots_objects, Hro in Hr by done. by apply elem_of_nil in Hr.
Qed.

(** Steps that change only the log and the heap. *)
Lemma inv_log s s' :
  inv s → _nextMarkBitMap s' = _nextMarkBitMap s → _markStack s' = _markStack s → _global_finger s' = _global_finger s → _root_regions s' = _root_regions s →
  _tasks s' = _tasks s →
  (∀ x, match snap !! x, s_heap s' !! x with Some fs, Some fs' => length fs' = length fs ∧ Forall valid_ref fs' | None, None => True | _, _ => False end) →
  Forall mutator_ok (s_mutators s') → SatbQueueFacts.wf_set n_slots (s_satb s') → Forall valid_ref (log_objects s') →
  (∀ y, relevant y → in_log s y → marked (_nextMarkBitMap s) y ∨ in_log s' y) →
  (∀ x i y, edge x i y → unchanged s x i y → covered s' y ∨ unchanged s' x i y) → inv s'.
Proof.
  intros Hinv E1 E2 E3 E4 E5 Hh Hm Hset Hlog Hin Hun. destruct Hinv as [V1 V2 V3 V4 V5 V6 V7 V8 V9 V10 V11 V12 V13 V14].
  assert (Hcov : ∀ y, covered s y → covered s' y).
  { intros y Hc Hy. unfold pending. rewrite E1, E5. destruct (Hc Hy) as [?|[Hl|?]]; [by left| |by right; right]. destruct (Hin y Hy Hl); [by left|by right; left]. }
  assert (Hgr : ∀ x i, grey s x i → grey s' x i) by (intros x i; unfold grey, global_grey; by rewrite E2, E3, E5).
  assert (Hro : ∀ x i, unscanned_root s x i → unscanned_root s' x i) by (intros x i; unfold unscanned_root; by rewrite E4, E5).
  split; rewrite ?E1, ?E2, ?E3, ?E4, ?E5; try done.
  - intros x i y He. destruct (V11 x i y He) as [?|?]; [left; auto|auto].
  - intros x i y He Hx Hmx. destruct (V12 x i y He Hx Hmx) as [?|[?|?]]; auto.
  - intros r Hr. auto.
  - intros x i y He Hb. destruct (V14 x i y He Hb) as [?|?]; auto.
Qed.

Lemma inv_deallocate s buf : inv s → length buf = n_slots → inv (set_log s (SatbQueue.deallocate_buffer (s_satb s) buf) (s_mutators s)).
Proof.
  intros Hinv Hl. apply (inv_log s); try done; try apply Hinv.
  - destruct (v_set _ Hinv). split; try done. by constructor.
  - intros y _ ?. by right.
  - intros x i y _ ?. by right.
Qed.

Lemma entries_empty q : SatbQueueFacts.wf_queue n_slots q → SatbQueueFacts.wf_queue n_slots (SatbQueue.empty_queue q) ∧ SatbQueueFacts.entries (SatbQueue.empty_queue q) = [].
Proof.
  intros Hq. assert (E : SatbQueueFacts.entries (SatbQueue.empty_queue q) = []).
  { pose proof (SatbQueueFacts.wq_buf _ _ Hq) as Hb. unfold SatbQueueFacts.entries, SatbQueue.empty_queue. destruct (SatbQueue._buf q) as [buf|] eqn:Eb; [|by rewrite Eb].
    destruct Hb as (Hl & Hs & _). cbn. rewrite Hs, SatbQueueFacts.byte_index_mul, Nat2Z.id. apply drop_ge. lia. }
  split; [|done]. split; [|rewrite E; constructor]. pose proof (SatbQueueFacts.wq_buf _ _ Hq) as Hb. unfold SatbQueue.empty_queue.
  destruct (SatbQueue._buf q) as [buf|] eqn:Eb; cbn; [|by rewrite Eb]. destruct Hb as (Hl & Hs & k & Hk & Hi). split_and!; try done. by exists n_slots.
Qed.

Lemma log_objects_insert s i m m' qs y :
  s_mutators s !! i = Some m → y ∈ log_objects (set_log s qs (<[i := m']> (s_mutators s))) →
  y ∈ SatbQueueFacts.entries (m_queue m') ∨ y ∈ SatbQueueFacts.completed_objects qs ∨ y ∈ log_objects s.
Proof.
  intros Hi. unfold log_objects. cbn. rewrite elem_of_app, list_elem_of_bind. intros [(u & Hy & [j Hu]%list_elem_of_lookup)|?]; [|by right; left].
  apply insert_lookup_cases in Hu as [[-> _]|[_ Hu]]; [by left|]. right. right. apply elem_of_app. left. apply list_elem_of_bind. exists u. split; [done|].
  by eapply list_elem_of_lookup_2.
Qed.

Lemma inv_empty_queue s i m :
  inv s → claimed s i → s_mutators s !! i = Some m →
  inv (set_log s (s_satb s) (<[i := mkMutator (SatbQueue.empty_queue (m_queue m)) (m_pc m)]> (s_mutators s))).
Proof.
  intros Hinv Hcl Hi. pose proof (v_mutators _ Hinv) as Hm. pose proof (Forall_lookup_1 _ _ _ _ Hm Hi) as (Hq & Ha & Hpc). destruct (entries_empty _ Hq) as [Hq' He'].
  apply (inv_log s); try done; try apply Hinv.
  - apply Forall_insert; [done|]. split_and!; try done. cbn. unfold SatbQueue.empty_queue. by destruct (SatbQueue._buf (m_queue m)).
  - apply Forall_forall. intros y Hy. apply (log_objects_insert s i m) in Hy; [|done]. cbn in Hy. rewrite He', elem_of_nil in Hy.
    pose proof (v_log _ Hinv) as Hv. rewrite Forall_forall in Hv. apply Hv. destruct Hy as [[]|[?|?]]; [|done]. unfold log_objects. apply elem_of_app. by right.
  - intros y _ [(j & u & Hj & Hy & Hn)|?]; right; [left|by right]. destruct (decide (j = i)) as [->|Hne]; [done|].
    exists j, u. split_and!; try done. cbn. by rewrite list_lookup_insert_ne.
  - intros x n y _ [Hu1 Hu2]. right. split; [done|]. intros j u Hj. cbn in Hj. apply insert_lookup_cases in Hj as [[-> _]|[_ Hj]]; [|by apply (Hu2 j)]. by apply (Hu2 i m).
Qed.

Lemma inv_step_satb s k t again stage ch s' :
  inv s → _tasks s !! k = Some t → idle t → t_top t = TSatb again stage → match stage with SEmpty i _ => claimed s i | _ => True end →
  step_satb c ch k t again stage s = Some s' → inv s'.
Proof.
  intros Hinv Hk Hidle Htop Hcl. pose proof (v_tasks _ Hinv k t Hk) as Ht. pose proof (k_top _ _ Ht) as Hok. rewrite Htop in Hok.
  assert (Hro : root_objects (t_top t) = []) by by rewrite Htop.
  destruct stage as [| |buf|[|i ts]|i ts|]; cbn [step_satb].
  - destruct (has_aborted t); intros [= <-]; apply (inv_go s k t); try done; by destruct again.
  - destruct (has_aborted t); cbn [negb]; [intros [= <-]; by apply (inv_go s k t)|].
    pose proof (SatbQueueFacts.pop_spec n_slots (s_satb s) (v_set _ Hinv)) as Hpop. destruct (SatbQueue.pop_completed_buffer (s_satb s)) as [[buf|] qs].
    + destruct Hpop as (Hqs & Hlen & Hobj). intros [= <-]. set (objects := SatbQueue.objects_of_buffer _ _ _) in *. pose proof (v_log _ Hinv) as Hv. unfold log_objects in Hv.
      rewrite Hobj, !Forall_app in Hv. destruct Hv as (Hv1 & Hv2 & Hv3).
      apply (inv_take_log s _ k t (set_scan (set_top t (TSatb again (SProcessed buf))) (Some (Buffer objects))) objects); try done.
      * unfold log_objects. cbn. by apply Forall_app.
      * intros y [Hy|Hy]; [left; by left|]. rewrite Hobj, elem_of_app in Hy. destruct Hy as [?|?]; [by right|left; by right].
    + destruct (negb (concurrent s)); intros [= <-]; by apply (inv_go s k t).
  - intros [= <-]. set (s1 := set_log s _ _). assert (Hinv1 : inv s1) by by apply inv_deallocate. apply (inv_go s1 k t); try done.
    destruct (clock_work ch s1 t). by split.
  - intros [= <-]. by apply (inv_go s k t).
  - destruct (negb (is_serial c s) && default true (s_claimed s !! i)); [intros [= <-]; by apply (inv_go s k t)|].
    destruct (s_mutators s !! i) as [m|] eqn:Em; cbn [mbind option_bind]; [|done]. intros [= <-].
    pose proof (Forall_lookup_1 _ _ _ _ (v_mutators _ Hinv) Em) as (Hq & _). rewrite (SatbQueueFacts.queue_objects_entries n_slots) by done.
    set (objects := SatbQueueFacts.entries _). apply (inv_take_log s _ k t (set_scan (set_top t (TSatb again (SEmpty i ts))) (Some (Buffer objects))) objects); try done; try apply Hinv.
    + pose proof (v_log _ Hinv) as Hv. rewrite Forall_forall in *. intros y Hy. apply Hv. unfold log_objects. apply elem_of_app. left. apply list_elem_of_bind.
      exists m. split; [done|]. by eapply list_elem_of_lookup_2.
    + intros y [(j & u & Hj & Hy & Hn)|?]; [|left; by right]. destruct (decide (j = i)) as [->|Hne]; [right; subst objects; congruence|]. left. left.
      exists j, u. split_and!; try done. intros [Hp Hc]. apply Hn. split; [done|]. cbn in Hc. by rewrite list_lookup_insert_ne in Hc.
  - destruct (s_mutators s !! i) as [m|] eqn:Em; cbn [mbind option_bind]; [|done]. intros [= <-]. set (s1 := set_log s _ _).
    assert (Hinv1 : inv s1) by by apply inv_empty_queue. by apply (inv_go s1 k t).
  - intros [= <-]. apply (inv_go s k t); try done. by destruct again.
Qed.

(** ** [do_marking_step] *)

Lemma put_put s k t u : put_task (put_task s k t) k u = put_task s k u.
Proof. unfold put_task, set_tasks. cbn. by rewrite list_insert_insert_eq. Qed.

Lemma put_lookup s k t u : _tasks s !! k = Some t → _tasks (put_task s k u) !! k = Some u.
Proof. intros Hk. cbn. apply list_lookup_insert_eq. by eapply lookup_lt_Some. Qed.

(** The task starts to drain its queue, or to scan a marked object. *)
Lemma inv_start s k t sc p pc :
  inv s → _tasks s !! k = Some t → idle t → top_ok pc → root_objects (t_top t) = [] →
  match sc with Some x => relevant x ∧ marked (_nextMarkBitMap s) x | None => True end →
  inv (put_task s k (set_top (drain (match sc with Some x => scan_object c t x | None => t end) p) pc)).
Proof.
  intros Hinv Hk [(Hd & Hs & Hdr) Hi] Htop Hro Hsc. pose proof (v_tasks _ Hinv k t Hk) as Ht. set (t' := set_top _ _).
  assert (Et' : t_deal t' = None ∧ t_iter t' = None ∧ t_region t' = t_region t ∧ _task_queue t' = _task_queue t ∧ t_top t' = pc ∧
    t_scan t' = (λ x, Fields x 0) <$> sc ∧ t_drain t' = Some (mkDrain p (LStart false))) by (by destruct sc).
  destruct Et' as (E1 & E2 & E3 & E4 & E5 & E6 & E7). clearbody t'. apply (inv_control s _ k t t'); try done.
  - destruct Ht as [H1 H2 H4 H5 H6 H7 H8 H9 H10 H11 H12]. split; try (by rewrite ?E1, ?E2, ?E3, ?E5).
    + unfold task_pending. rewrite E1, E6. destruct sc; constructor.
    + unfold task_held in *. rewrite Hd, Hdr in H4. by rewrite E1, E7, E4.
    + rewrite E6. by destruct sc.
    + by rewrite E7.
    + unfold has_room, queue_size in *. by rewrite E4.
  - intros y. unfold task_pending at 1. rewrite Hd, Hs. by intros ?%elem_of_nil.
  - intros y. unfold task_held. by rewrite Hd, Hdr, E1, E7, E4.
  - intros x i. unfold task_scans at 1. by rewrite Hs.
  - intros x. unfold region_grey. by rewrite Hi, E2, E3.
  - intros x i. rewrite task_roots_objects, Hro by done. by intros ?%elem_of_nil.
Qed.

Lemma region_here t i b :
  task_ok b t → _curr_region (t_region t) = Some i → ∃ hr f, regions c !! i = Some hr ∧ t_region t = mkFields (Some i) (Some f) (Some (next_top_at_mark_start hr)) ∧
    _heap_start c <= f ∧ aligned f ∧ bottom hr < next_top_at_mark_start hr.
Proof.
  intros Ht Hi. pose proof (k_region _ _ Ht) as H. rewrite Hi in H. destruct H as (hr & f & H1 & H2 & H3 & H4). exists hr, f. split_and!; try done; try apply H4.
  destruct (t_region t). cbn in *. congruence.
Qed.

Lemma inv_scan_region s k t i hr ch t' :
  inv s → _tasks s !! k = Some t → idle t → _curr_region (t_region t) = Some i → regions c !! i = Some hr → scan_region c ch s t hr = Some t' → inv (put_task s k t').
Proof.
  intros Hinv Hk [Hrest Hit] Hi Ehr. pose proof (v_tasks _ Hinv k t Hk) as Ht. pose proof (v_bitmap _ Hinv) as Hb.
  destruct (region_here t i _ Ht Hi) as (hr' & f & Ehr' & Hreg & Hsf & Af & Hlt). assert (hr' = hr) as -> by congruence.
  assert (hr ∈ regions c) as Hin by by eapply list_elem_of_lookup_2. destruct (ho_region_aligned Hheap hr Hin) as [_ Antams].
  assert (Hg : ∀ x, region_grey t x → f <= x < next_top_at_mark_start hr) by (intros x; unfold region_grey; rewrite Hit, Hreg; done).
  assert (Eup : update_region_limit t hr = t).
  { unfold update_region_limit. rewrite Hreg. cbn. rewrite (proj2 (Z.eqb_neq _ _)) by lia. rewrite (proj2 (Z.geb_le _ _)) by lia. destruct t; cbn in *. by rewrite Hreg. }
  unfold scan_region. rewrite Eup, Hreg. cbn [mbind option_bind _finger _region_limit].
  assert (Hiter : set_iter (giveup_current_region t) None = giveup_current_region t) by (destruct t; cbn in *; by rewrite Hit).
  destruct (Z.leb_spec (next_top_at_mark_start hr) f) as [Hle|Hgt].
  { intros [= <-]. rewrite <- Hiter. apply inv_giveup_clock; try done. intros x _ _ Hx%Hg. lia. }
  destruct (limit_in_bitmap _ i hr Hb Ehr) as [Hend _]. pose proof (region_bounds i hr Ehr) as Hbd.
  destruct (isHumongous hr && (f =? bottom hr)) eqn:Eh.
  - apply andb_true_iff in Eh as [Eh Ef%Z.eqb_eq]. assert (Hz : ∀ z, relevant z → region_grey t z → z = f).
    { intros z Hz Hgz%Hg. rewrite Ef. apply (ho_humongous Hheap z i hr); try done. apply (region_unique z i hr); [done|lia]. }
    rewrite isMarked_spec by (done || lia). cbn [mbind option_bind]. intros [= <-]. destruct (bool_decide_reflect (marked (_nextMarkBitMap s) f)) as [Hm|Hm].
    + destruct (marked_object s (off f) Hinv Hm) as (x & Hx & Hmx & Eo & Hw). unfold do_bit. rewrite heapWordToOffset_off, Hw by done.
      assert (x = f) as -> by (apply off_inj; [apply (ho_aligned Hheap), Hx|done|done]). apply (inv_visit s k t f AfterHumongous i hr); try done; [by right|].
      intros z Hz1 _ Hz2. left. by apply Hz.
    + apply (inv_task_local s _ k t (set_iter t (Some AfterHumongous))); try done.
      * destruct Ht as [H1 H2 H4 H5 H6 H7 H8 H9 H10 H11 H12]. split; try done; cbn.
        -- exists i, hr, f. rewrite Hreg. split_and!; try done. intros Hbu. by destruct (at_rest_not_busy t Hrest).
        -- by destruct Hrest as (-> & _).
      * intros y _. by right.
      * intros x j y _ Hx Hmx [?|[?|Hgx]]; [by right; right; left|by right; right; right; left|]. apply Hz in Hgx as ->; done.
      * intros x j y _ _ ?. by right.
  - rewrite (bo_start _ Hb). assert (MAX2 (_heap_start c) f = f) as -> by (unfold MAX2; case_match; lia).
    assert (MIN2 (endWord (_nextMarkBitMap s)) (next_top_at_mark_start hr) = next_top_at_mark_start hr) as -> by (unfold MIN2; case_match; lia).
    rewrite (proj2 (Z.gtb_lt _ _)) by lia. intros [= <-]. rewrite !heapWordToOffset_off by done.
    apply (inv_task_local s _ k t (set_iter t (Some (Search (off f) (off (next_top_at_mark_start hr)))))); try done.
    + destruct Ht as [H1 H2 H4 H5 H6 H7 H8 H9 H10 H11 H12]. split; try done; cbn.
      * exists i, hr, f. rewrite Hreg. split_and!; try done; [|apply off_le; try done; lia|by apply at_rest_not_busy].
        rewrite <- off_start. apply off_le; [apply aligned_start|done|lia].
      * by destruct Hrest as (-> & _).
    + intros y _. by right.
    + intros x j y _ Hx Hmx [?|[?|Hgx]]; [by right; right; left|by right; right; right; left|]. right. right. right. right. cbn. apply Hg in Hgx.
      destruct (ho_aligned Hheap x (proj1 Hx)) as [Ax _]. split; [apply off_le|apply off_lt]; try done; lia.
    + intros x j y _ _ ?. by right.
Qed.

Lemma clock_top ch s t : t_top (regular_clock_call ch s t) = t_top t.
Proof. by destruct (clock_spec ch s t) as (l & f & -> & _). Qed.

Lemma scan_region_top ch s t hr t' : scan_region c ch s t hr = Some t' → t_top t' = t_top t.
Proof.
  unfold scan_region. destruct (_finger _) as [f|]; cbn [mbind option_bind]; [|done]. destruct (_region_limit _) as [l|]; cbn [mbind option_bind]; [|done].
  destruct (l <=? f); [intros [= <-]; by rewrite clock_top|]. destruct (_ && _).
  - destruct (isMarked _ _) as [[]|]; cbn [mbind option_bind]; try done; by intros [= <-].
  - destruct (_ >? _); intros [= <-]; [done|by rewrite clock_top].
Qed.

Lemma inv_retop s k t pc : inv s → _tasks s !! k = Some t → top_ok pc → root_objects (t_top t) = [] → inv (put_task s k (set_top t pc)).
Proof.
  intros Hinv Hk Hpc Hro. apply (inv_control s _ k t (set_top t pc)); try done.
  - apply task_ok_top; [|done]. by apply (v_tasks _ Hinv k).
  - intros x i. unfold task_roots. cbn. unfold root_objects in Hro. intros [H|?]; [|by right]. destruct (t_top t); try done. rewrite Hro in H. by apply elem_of_nil in H.
Qed.

Lemma inv_TRegion s k t i hr ch t' pc :
  inv s → _tasks s !! k = Some t → idle t → root_objects (t_top t) = [] → top_ok pc → _curr_region (t_region t) = Some i → regions c !! i = Some hr →
  scan_region c ch s t hr = Some t' → inv (put_task s k (set_top t' pc)).
Proof.
  intros Hinv Hk Hidle Hro Hpc Hi Ehr Hs. rewrite <- (put_put s k t'). apply inv_retop; [by apply (inv_scan_region s k t i hr ch)|by eapply put_lookup|done|].
  by rewrite (scan_region_top _ _ _ _ _ Hs).
Qed.

Lemma finger_bottom i hr f : finger_ok f → heap_region_containing_raw c f = Some i → regions c !! i = Some hr → f = bottom hr.
Proof.
  intros [->|(j & hr' & Ej & <-)] Hi Ehr; destruct (region_inv _ _ Hi) as (hr2 & E2 & Hb); assert (hr2 = hr) as -> by congruence.
  - pose proof (region_bounds i hr Ehr). lia.
  - pose proof (region_bounds j hr' Ej). rewrite (region_unique (bottom hr') j hr') in Hi by (done || lia). congruence.
Qed.

Lemma inv_TClaimCas s k t f i hr :
  inv s → _tasks s !! k = Some t → idle t → root_objects (t_top t) = [] → _curr_region (t_region t) = None → _global_finger s = f →
  heap_region_containing_raw c f = Some i → regions c !! i = Some hr →
  inv (put_task (set_global_finger s (end_ hr)) k (set_top (if next_top_at_mark_start hr >? bottom hr then setup_for_region t i hr else t) TClaimed)).
Proof.
  intros Hinv Hk [(Hd & Hs & Hdr) Hit] Hro Hcur Hf Hi Ehr. pose proof (v_tasks _ Hinv k t Hk) as Ht. pose proof (k_region _ _ Ht) as Hreg. rewrite Hcur in Hreg.
  destruct Hreg as [Hfin Hlim]. pose proof (region_bounds i hr Ehr) as Hbd. pose proof (ho_start Hheap) as Hst.
  pose proof (v_finger _ Hinv) as Hfok. rewrite Hf in Hfok. pose proof (finger_bottom i hr f Hfok Hi Ehr) as Hbot.
  set (t' := set_top _ _).
  assert (Ht' : (t_deal t' = t_deal t ∧ t_scan t' = t_scan t ∧ t_drain t' = t_drain t ∧ _task_queue t' = _task_queue t ∧ t_iter t' = t_iter t) ∧ (t_region t' = mkFields (Some i) (Some (bottom hr)) (Some (next_top_at_mark_start hr)) ∧
      bottom hr < next_top_at_mark_start hr ∨ t_region t' = t_region t ∧ next_top_at_mark_start hr <= bottom hr)).
  { subst t'. destruct (Z.gtb_spec (next_top_at_mark_start hr) (bottom hr)); [|split; [done|right; split; [done|lia]]]. split; [done|]. left. split; [|lia].
    unfold setup_for_region, update_region_limit. cbn. rewrite Hlim. cbn. rewrite (proj2 (Z.eqb_neq _ _)), (proj2 (Z.geb_le _ _)) by (unfold NULL; lia). done. }
  destruct Ht' as [(E1 & E2 & E3 & E4 & E5) Hr']. assert (Et : t_top t' = TClaimed) by done. clearbody t'.
  assert (hr ∈ regions c) as Hin by by eapply list_elem_of_lookup_2. destruct (ho_region_aligned Hheap hr Hin) as [Abot _].
  apply (inv_task_step s _ k t t'); try apply Hinv; try done.
  - intros y _. unfold task_pending. rewrite E1, E2. tauto.
  - intros n ?. by left.
  - by apply finger_ok_end with i.
  - destruct Ht as [H1 H2 H4 H5 H6 H7 H8 H9 H10 H11 H12]. split; unfold task_pending, task_held, has_room, queue_size in *; rewrite ?E1, ?E2, ?E3, ?E4, ?E5, ?Et, ?Hit, ?Hdr, ?Hd in *; try done.
    destruct Hr' as [[-> Hlt]|[-> _]]; [|done]. cbn. exists hr, (bottom hr). split_and!; try done; lia.
  - intros x j y _ Hx _ [[Hg|Hg]|Hg].
    + cbn. destruct (Z.ltb_spec x (end_ hr)) as [Hlt|Hge]; [|right; left; left; done]. right. right. left. right. right. unfold region_grey. rewrite E5, Hit.
      destruct (relevant_region x Hx) as (i2 & hr2 & Ei2 & Ehr2 & Hb2 & Hb2'). rewrite (region_unique x i hr) in Ei2 by (done || lia). injection Ei2 as <-.
      assert (hr2 = hr) as -> by congruence. destruct Hr' as [[-> _]|[_ ?]]; [cbn|]; lia.
    + right. left. by right.
    + right. right. left. unfold task_grey, task_held, task_scans, region_grey in *. rewrite E1, E2, E3, E4, E5. destruct Hg as [?|[?|Hg]]; [tauto|tauto|].
      rewrite Hit, Hfin in Hg. done.
  - intros x j y _ _ [?|Hr]; [by right; left|]. rewrite task_roots_objects, Hro in Hr by done. by apply elem_of_nil in Hr.
Qed.

(** A queue loses an object that another task scans. *)
Lemma inv_victim s j v q obj k t :
  inv s → _tasks s !! j = Some v → _task_queue v = obj :: q → _tasks s !! k = Some t → k ≠ j → task_scans t obj 0 → inv (put_task s j (set_queue v q)).
Proof.
  intros Hinv Hj Hq Hk Hne Hsc. pose proof (v_tasks _ Hinv j v Hj) as Hv. apply (inv_task_step s _ j v (set_queue v q)); try apply Hinv; try done.
  - intros y _ ?. by right.
  - intros n ?. by left.
  - apply task_ok_queue; [done|rewrite Hq; intros x Hx; by apply elem_of_cons; right|rewrite Hq; cbn; lia].
  - intros x i y _ _ _ [?|Hg]; [by right; left|]. destruct (decide (x = obj)) as [->|Hno].
    + right. right. right. right. right. exists k, t. split; [cbn; by rewrite list_lookup_insert_ne|]. right. left. unfold task_scans in *.
      destruct (t_scan t) as [[]|]; try done. split; [apply Hsc|lia].
    + right. right. left. unfold task_grey, task_held, task_scans, region_grey in *. cbn. rewrite Hq in Hg. rewrite !elem_of_app, elem_of_cons in *. tauto.
  - intros x i y _ _ ?. by right.
Qed.

Lemma inv_TSteal s k t j v obj q p :
  inv s → _tasks s !! k = Some t → idle t → root_objects (t_top t) = [] → top_ok (t_top t) → _tasks s !! j = Some v → _task_queue v = obj :: q → j ≠ k →
  inv (put_task (put_task s j (set_queue v q)) k (drain (scan_object c t obj) p)).
Proof.
  intros Hinv Hk Hidle Hro Hok Hj Hq Hne. set (t' := drain _ p).
  assert (Ht' : set_top t' (t_top t) = t') by (subst t'; by destruct t).
  assert (Hobj : relevant obj ∧ marked (_nextMarkBitMap s) obj).
  { pose proof (k_held _ _ (v_tasks _ Hinv j v Hj)) as H. unfold task_held in H. rewrite Hq, !Forall_app, Forall_cons in H. apply H. }
  assert (Hinv1 : inv (put_task s k t')) by (rewrite <- Ht'; by apply (inv_start s k t (Some obj) p)).
  replace (put_task (put_task s j (set_queue v q)) k t') with (put_task (put_task s k t') j (set_queue v q)).
  - apply (inv_victim _ j v q obj k t'); try done; [cbn; by rewrite list_lookup_insert_ne|by eapply put_lookup].
  - unfold put_task, set_tasks. cbn. f_equal. by apply list_insert_insert_ne.
Qed.

(** ** The reset after an overflow *)

Lemma inv_reset s : inv s → inv (reset_marking_state c s).
Proof.
  intros [V1 V2 V3 V4 V5 V6 V7 V8 V9 V10 V11 V12 V13 V14].
  assert (Hcov : ∀ y, covered s y → covered (reset_marking_state c s) y).
  { intros y Hc Hy. destruct (Hc Hy) as [?|[?|(k & t & Hk & Hp)]]; [by left|right; by left|]. right. right. exists k, (set_queue t []). split; [|done].
    cbn. by rewrite list_lookup_fmap, Hk. }
  split; try done; cbn.
  - apply finger_ok_start.
  - intros k t Hk. rewrite list_lookup_fmap in Hk. destruct (_tasks s !! k) as [u|] eqn:E; [|done]. injection Hk as <-. apply task_ok_queue; [by apply (V9 k)|by intros x ?%elem_of_nil|cbn; lia].
  - intros x i y He. destruct (V11 x i y He) as [?|?]; [left; auto|by right].
  - intros x i y He Hx _. right. left. left. left. cbn. apply relevant_in_heap in Hx. lia.
  - auto.
  - intros x i y He Hb. destruct (V14 x i y He Hb) as [?|[?|(k & t & Hk & Hr)]]; [left; auto|right; by left|]. right. right. exists k, (set_queue t []).
    split; [|done]. cbn. by rewrite list_lookup_fmap, Hk.
Qed.

Lemma inv_clear s k t pc :
  inv s → _tasks s !! k = Some t → idle t → root_objects (t_top t) = [] → top_ok pc →
  _overflow (_markStack s) = true ∨ _global_finger s = _heap_start c → inv (put_task s k (set_top (clear_region_fields t) pc)).
Proof.
  intros Hinv Hk [(Hd & Hs & Hdr) Hit] Hro Hpc Hor. pose proof (v_tasks _ Hinv k t Hk) as Ht.
  apply (inv_task_step s _ k t (set_top (clear_region_fields t) pc)); try apply Hinv; try done.
  - intros y _ ?. by right.
  - intros n ?. by left.
  - destruct Ht as [H1 H2 H4 H5 H6 H7 H8 H9 H10 H11 H12]. split; try done; cbn; by rewrite ?Hit, ?Hd.
  - intros x i y _ Hx _ _. destruct Hor as [?|Hf]; [by right; right; right; left|]. right. left. left. cbn. rewrite Hf. apply relevant_in_heap in Hx. lia.
  - intros x i y _ _ [?|Hr]; [by right; left|]. rewrite task_roots_objects, Hro in Hr by done. by apply elem_of_nil in Hr.
Qed.

(** ** Root regions *)

Lemma inv_TRoot s k t objects l :
  inv s → _tasks s !! k = Some t → idle t → root_objects (t_top t) = [] → _root_regions s = objects :: l →
  inv (put_task (set_roots s l) k (set_top t (TRootObjects objects))).
Proof.
  intros Hinv Hk [(Hd & Hs & Hdr) Hit] Hro Hl. pose proof (v_tasks _ Hinv k t Hk) as Ht. pose proof (v_root_regions _ Hinv) as Hrr. rewrite Hl in Hrr. cbn in Hrr.
  apply Forall_app in Hrr as [Hr1 Hr2]. apply (inv_task_step s _ k t (set_top t (TRootObjects objects))); try apply Hinv; try done.
  - intros y _ ?. by right.
  - intros n ?. by left.
  - by apply task_ok_top.
  - intros x i y _ _ _ [?|?]; [by right; left|by right; right; left].
  - intros x i y _ _ Hr. rewrite Hl in Hr. cbn in Hr. rewrite elem_of_app, task_roots_objects, Hro, elem_of_nil in Hr by done. right.
    destruct Hr as [[?|?]|[]]; [right; by left|by left].
Qed.

Lemma inv_TRootObjects s k t obj l :
  inv s → _tasks s !! k = Some t → idle t → t_top t = TRootObjects (obj :: l) →
  inv (put_task s k (set_top (set_scan t (Some (RootFields obj 0))) (TRootObjects l))).
Proof.
  intros Hinv Hk [(Hd & Hs & Hdr) Hit] Htop. pose proof (v_tasks _ Hinv k t Hk) as Ht. pose proof (k_top _ _ Ht) as Hok. rewrite Htop in Hok. apply Forall_cons in Hok as [Ho Hl].
  apply (inv_control s _ k t (set_top (set_scan t (Some (RootFields obj 0))) (TRootObjects l))); try done.
  - destruct Ht as [H1 H2 H4 H5 H6 H7 H8 H9 H10 H11 H12]. split; try done; cbn.
    + unfold task_pending. cbn. by rewrite Hd.
    + by rewrite Hit.
    + by rewrite Hdr.
  - intros y. unfold task_pending. cbn. by rewrite Hs.
  - intros x i. unfold task_scans. by rewrite Hs.
  - intros x i. rewrite task_roots_objects, Htop by done. cbn. rewrite elem_of_cons. intros [->|?]; [right; cbn; split; [done|lia]|by left].
Qed.

Definition top_ready (s : cm_state) (t : CMTask) : Prop :=
  match t_top t with
  | TSatb _ (SEmpty i _) => claimed s i
  | TClaimCas _ => _curr_region (t_region t) = None
  | TClear => _overflow (_markStack s) = true ∨ _global_finger s = _heap_start c
  | _ => True
  end.

Lemma inv_step_top s k t ch s' :
  inv s → _tasks s !! k = Some t → idle t → top_ready s t → step_top c ch k t s = Some s' → inv s'.
Proof.
  intros Hinv Hk Hidle Hready. unfold top_ready in Hready. pose proof (k_top _ _ (v_tasks _ Hinv k t Hk)) as Hok. unfold step_top.
  assert (Hgo : ∀ t' pc, root_objects (t_top t) = [] → same_work t t' → top_ok pc → Some (put_task s k (set_top t' pc)) = Some s' → inv s').
  { intros t' pc Hro [] Hpc [= <-]. by apply (inv_go s k t (set_top t' pc)). }
  assert (Hgo' : ∀ s1 pc, root_objects (t_top t) = [] → same_core s s1 → _tasks s1 = _tasks s → top_ok pc → Some (put_task s1 k (set_top t pc)) = Some s' → inv s').
  { intros s1 pc Hro [] Et Hpc [= <-]. apply (inv_top s _ k t (set_top t pc)); try done. cbn. by rewrite Et. }
  destruct (t_top t) as [|again stage| | | | | |f| | | | | |g| | | | | | | | | |[|obj l]|] eqn:Etop; cbn in Hok.
  - by apply Hgo.
  - by apply inv_step_satb.
  - intros [= <-]. apply (inv_start s k t None true TRegion); try done. by rewrite Etop.
  - destruct (_curr_region (t_region t)) as [i|] eqn:Ei; [|by apply Hgo]. destruct (has_aborted t); [by apply Hgo|].
    destruct (regions c !! i) as [hr|] eqn:Ehr; cbn [mbind option_bind]; [|done]. destruct (scan_region c ch s t hr) as [t'|] eqn:Es; cbn [mbind option_bind]; [|done].
    intros [= <-]. apply (inv_TRegion s k t i hr ch); try done. by rewrite Etop.
  - intros [= <-]. apply (inv_start s k t None true TClaim); try done. by rewrite Etop.
  - destruct (_ && _); by apply Hgo.
  - destruct (_ <? _); by apply Hgo.
  - destruct (heap_region_containing_raw c f) as [i|] eqn:Ei; cbn [mbind option_bind]; [|done]. destruct (regions c !! i) as [hr|] eqn:Ehr; cbn [mbind option_bind]; [|done].
    destruct (Z.eqb_spec (_global_finger s) f); [|by apply Hgo]. intros [= <-]. apply (inv_TClaimCas s k t f); try done. by rewrite Etop.
  - apply Hgo; try done. apply clock_work.
  - repeat case_match; by apply Hgo.
  - intros [= <-]. apply (inv_start s k t None false TSteal); try done. by rewrite Etop.
  - destruct (_ && _); [|by apply Hgo]. destruct (ch_victim ch) as [j|]; [|by apply Hgo]. destruct (_tasks s !! j) as [v|] eqn:Ej; cbn [mbind option_bind]; [|done].
    destruct (_task_queue v) as [|obj q] eqn:Eq; [done|]. case_bool_decide as Hjk; [done|]. intros [= <-]. apply inv_TSteal; try done; by rewrite Etop.
  - destruct (has_aborted t); [by apply Hgo|]. destruct (_ || _); [|by apply Hgo]. destruct (_ && _); by apply Hgo'.
  - destruct (holds c s t g); [|done]. apply Hgo; try done. by destruct g.
  - destruct (_ && _); apply Hgo; try done. by destruct (is_serial c s).
  - by apply Hgo'.
  - destruct (barrier_open _); [|done]. apply Hgo; try done. by destruct (_ && _).
  - cbn [_tasks reset_marking_state set_tasks set_global_finger set_has_overflown set_stack]. rewrite list_lookup_fmap, Hk. cbn [fmap option_fmap option_map mbind option_bind].
    intros [= <-]. apply inv_retop; [by apply inv_reset|cbn; by rewrite list_lookup_fmap, Hk|done|cbn; by rewrite Etop].
  - intros [= <-]. apply inv_clear; try done; [by rewrite Etop|by destruct (is_serial c s)].
  - by apply Hgo'.
  - destruct (barrier_open _); [|done]. by apply Hgo.
  - destruct (concurrent s); [apply Hgo'|apply Hgo]; try done; by destruct (has_aborted t && _) || by destruct (has_aborted t).
  - destruct (_root_regions s) as [|objects l] eqn:El; [by apply Hgo|]. intros [= <-]. apply inv_TRoot; try done. by rewrite Etop.
  - by apply Hgo.
  - intros [= <-]. by apply inv_TRootObjects.
  - done.
Qed.

Lemma inv_step_task s k t ch s' :
  inv s → _tasks s !! k = Some t → match t_deal t with Some (GrayMark y _) => global_grey s y | _ => True end → (idle t → top_ready s t) →
  step_task c ch k s = Some s' → inv s'.
Proof.
  intros Hinv Hk Hg Hready. unfold step_task. rewrite Hk. cbn [mbind option_bind].
  destruct (t_deal t) as [d|] eqn:Hd; [by apply inv_step_deal|]. destruct (t_scan t) as [sc|] eqn:Hs; [by apply inv_step_scan|].
  destruct (t_drain t) as [dr|] eqn:Hdr; [by apply inv_step_drain|]. destruct (t_iter t) as [it|] eqn:Hit; [by apply inv_step_iter|].
  apply inv_step_top; try done. by apply Hready.
Qed.

(** ** Mutators *)

Lemma ill_spec s y : inv s → relevant y → is_obj_ill c s y = false → marked (_nextMarkBitMap s) y.
Proof.
  intros Hinv Hy. unfold is_obj_ill. pose proof (relevant_in_heap y Hy) as Hb. pose proof (ho_start Hheap) as Hst. destruct (relevant_region y Hy) as (i & hr & -> & E & Hlt & _).
  cbn. rewrite E, isMarked_spec by (done || apply Hinv). unfold obj_allocated_since_next_marking.
  rewrite (proj2 (Z.eqb_neq y NULL)) by (unfold NULL; lia). destruct (Z.geb_spec y (_heap_end c)); [lia|]. destruct (Z.geb_spec y (next_top_at_mark_start hr)); [lia|].
  cbn. case_bool_decide; [done|done].
Qed.

Lemma filter_keeps s retain l y :
  inv s → (∀ x, is_obj_ill c s x = true → retain x = true) → relevant y → y ∈ l → marked (_nextMarkBitMap s) y ∨ y ∈ List.filter retain l.
Proof.
  intros Hinv Hret Hy Hl. destruct (is_obj_ill c s y) eqn:E; [right|left; by apply ill_spec]. apply SatbLog.keeps_filter; auto.
Qed.

(** One mutator and the log change. *)
Lemma inv_mutator s j m m' qs heap :
  inv s → s_phase s ≠ Remark → s_mutators s !! j = Some m → mutator_ok m' → SatbQueueFacts.wf_set n_slots qs →
  (∀ x, match snap !! x, heap !! x with Some fs, Some fs' => length fs' = length fs ∧ Forall valid_ref fs' | None, None => True | _, _ => False end) →
  (∀ y, y ∈ SatbQueueFacts.entries (m_queue m') ∨ y ∈ SatbQueueFacts.completed_objects qs → valid_ref y) →
  (∀ y, relevant y → y ∈ SatbQueueFacts.entries (m_queue m) ∨ y ∈ SatbQueueFacts.completed_objects (s_satb s) →
     marked (_nextMarkBitMap s) y ∨ y ∈ SatbQueueFacts.entries (m_queue m') ∨ y ∈ SatbQueueFacts.completed_objects qs) →
  let s' := set_heap (set_log s qs (<[j := m']> (s_mutators s))) heap in
  (∀ x i y, edge x i y → unchanged s x i y → covered s' y ∨ unchanged s' x i y) → inv s'.
Proof.
  intros Hinv Hph Hj Hm' Hqs Hh Hval Hkeep s' Hun. assert (Hj' : s_mutators s' !! j = Some m') by (apply list_lookup_insert_eq; by eapply lookup_lt_Some).
  assert (Hncl : ∀ i, ¬ claimed s' i) by (intros i [Hp _]; done). apply (inv_log s s'); try done.
  - apply Forall_insert; [apply Hinv|done].
  - apply Forall_forall. intros y Hy. pose proof (v_log _ Hinv) as Hv. rewrite Forall_forall in Hv. apply (log_objects_insert s j m m' qs) in Hy as [?|[?|?]]; auto.
  - intros y Hy Hin. assert (Hc : y ∈ SatbQueueFacts.entries (m_queue m) ∨ y ∈ SatbQueueFacts.completed_objects (s_satb s) → marked (_nextMarkBitMap s) y ∨ in_log s' y).
    { intros H. destruct (Hkeep y Hy H) as [?|[?|?]]; [by left|right; left; eauto|right; by right]. }
    destruct Hin as [(i & u & Hi & Hyu & _)|?]; [|auto]. destruct (decide (i = j)) as [->|Hne]; [assert (u = m) as -> by congruence; auto|].
    right. left. exists i, u. split_and!; try done. cbn. by rewrite list_lookup_insert_ne.
Qed.

Lemma log_parts s j m : inv s → s_mutators s !! j = Some m →
  ∀ y, y ∈ SatbQueueFacts.entries (m_queue m) ∨ y ∈ SatbQueueFacts.completed_objects (s_satb s) → valid_ref y.
Proof.
  intros Hinv Hj y Hy. pose proof (v_log _ Hinv) as Hv. rewrite Forall_forall in Hv. apply Hv. unfold log_objects. rewrite elem_of_app, list_elem_of_bind.
  destruct Hy as [?|?]; [left|by right]. exists m. split; [done|]. by eapply list_elem_of_lookup_2.
Qed.

(** The program counter of the mutator moves on. *)
Lemma unchanged_pc s j m' qs heap x i y :
  unchanged s x i y → (∃ fs, heap !! x = Some fs ∧ fs !! i = Some y) →
  match m_pc m' with MIdle => True | MLog o n _ pre => o = x → n = i → pre = y | MStore o n _ => ¬ (o = x ∧ n = i) end →
  unchanged (set_heap (set_log s qs (<[j := m']> (s_mutators s))) heap) x i y.
Proof.
  intros [_ Hu] Hh Hpc. split; [done|]. intros k u Hk. cbn in Hk. apply insert_lookup_cases in Hk as [[-> _]|[_ Hk]]; [done|by apply (Hu k)].
Qed.

Lemma inv_mutator_log s j m o i v pre retain fresh s' :
  inv s → s_phase s ≠ Remark → s_mutators s !! j = Some m → m_pc m = MLog o i v pre → action_ok c valid_ref n_slots s (Continue retain fresh) →
  step_mutator c (Continue retain fresh) j s = Some s' → inv s'.
Proof.
  intros Hinv Hph Hj Hpc [Hret Hfresh]. unfold step_mutator. rewrite Hj. cbn [mbind option_bind]. rewrite Hpc.
  pose proof (Forall_lookup_1 _ _ _ _ (v_mutators _ Hinv) Hj) as (Hq & Ha & Hpc'). rewrite Hpc in Hpc'. destruct Hpc' as [Hv Hpre].
  pose proof (log_parts s j m Hinv Hj) as Hval.
  assert (Hpre' : ∀ x n y, unchanged s x n y → o = x → i = n → pre = y) by (intros x n y [_ Hu]; specialize (Hu j m Hj); by rewrite Hpc in Hu).
  destruct (Z.eqb_spec pre NULL) as [Hn|Hn].
  - intros [= <-]. apply (inv_mutator s j m (mkMutator (m_queue m) (MStore o i v)) (s_satb s) (s_heap s)); try done; try apply Hinv; [auto|].
    intros x n y He Hu. destruct (decide (o = x ∧ i = n)) as [[E1 E2]|Hne].
    + left. intros Hy. pose proof (Hpre' x n y Hu E1 E2) as <-. rewrite Hn in Hy. by apply null_irrelevant in Hy.
    + right. apply unchanged_pc; [done|apply Hu|done].
  - destruct (SatbQueueFacts.enqueue_spec retain _ fresh n_slots pre (m_queue m) (s_satb s) Hq (v_set _ Hinv) Hfresh (ho_threshold Hheap) Hn Ha)
      as (q' & qs' & kept & -> & Hq' & Hqs' & Ha' & Hkept & Hperm). cbn [mbind option_bind]. intros [= <-].
    assert (Hel : ∀ y, y ∈ SatbQueueFacts.entries q' ∨ y ∈ SatbQueueFacts.completed_objects qs' ↔ y = pre ∨ y ∈ kept ∨ y ∈ SatbQueueFacts.completed_objects (s_satb s)).
    { intros y. rewrite <- elem_of_app, Hperm, elem_of_cons, elem_of_app. done. }
    assert (Hsub : ∀ y, y ∈ kept → y ∈ SatbQueueFacts.entries (m_queue m)) by (intros y; destruct Hkept as [-> | ->]; [done|apply SatbLog.filter_subset]).
    set (m' := mkMutator q' (MStore o i v)).
    apply (inv_mutator s j m m' qs' (s_heap s)); try done; try apply Hinv.
    + intros y [->|[?|?]]%Hel; auto.
    + intros y Hy Hyy. cbn. rewrite Hel. destruct Hyy as [He|?]; [|auto]. destruct Hkept as [-> | ->]; [auto|]. destruct (filter_keeps s retain _ y Hinv Hret Hy He); auto.
    + intros x n y He Hu. destruct (decide (o = x ∧ i = n)) as [[E1 E2]|Hne].
      * left. intros Hy. pose proof (Hpre' x n y Hu E1 E2) as <-. right. left. destruct (proj2 (Hel pre) (or_introl eq_refl)) as [?|?]; [left|by right].
        exists j, m'. split_and!; [apply list_lookup_insert_eq; by eapply lookup_lt_Some|done|intros [? _]; done].
      * right. apply unchanged_pc; [done|apply Hu|done].
Qed.

Lemma inv_mutator_store s j m o i v retain fresh s' :
  inv s → s_phase s ≠ Remark → s_mutators s !! j = Some m → m_pc m = MStore o i v → step_mutator c (Continue retain fresh) j s = Some s' → inv s'.
Proof.
  intros Hinv Hph Hj Hpc. unfold step_mutator. rewrite Hj. cbn [mbind option_bind]. rewrite Hpc.
  pose proof (Forall_lookup_1 _ _ _ _ (v_mutators _ Hinv) Hj) as (Hq & Ha & Hv). rewrite Hpc in Hv.
  destruct (s_heap s !! o) as [fs|] eqn:Eo; cbn [mbind option_bind]; [|done]. intros [= <-].
  apply (inv_mutator s j m (mkMutator (m_queue m) MIdle) (s_satb s) (<[o := <[i := v]> fs]> (s_heap s))); try done; try apply Hinv.
  - intros x. pose proof (v_heap _ Hinv x) as Hx. destruct (decide (o = x)) as [->|Hne]; [|by rewrite lookup_insert_ne]. rewrite lookup_insert_eq. rewrite Eo in Hx.
    destruct (snap !! x); [|done]. rewrite length_insert. destruct Hx as [Hl Hf]. split; [done|]. by apply Forall_insert.
  - intros y Hy. apply (log_parts s j m Hinv Hj y Hy).
  - auto.
  - intros x n y He Hu. right. apply unchanged_pc; [done| |done]. destruct Hu as [(fs' & E1 & E2) Hu]. specialize (Hu j m Hj). rewrite Hpc in Hu.
    destruct (decide (o = x)) as [->|Hne]; [|exists fs'; by rewrite lookup_insert_ne]. exists (<[i := v]> fs). rewrite lookup_insert_eq. split; [done|].
    rewrite list_lookup_insert_ne by naive_solver. congruence.
Qed.

Lemma inv_step_mutator s a j s' :
  inv s → s_phase s ≠ Remark → action_ok c valid_ref n_slots s a → step_mutator c a j s = Some s' → inv s'.
Proof.
  intros Hinv Hph Hact Hs. pose proof Hs as Hs'. unfold step_mutator in Hs'. destruct (s_mutators s !! j) as [m|] eqn:Hj; cbn [mbind option_bind] in Hs'; [|done].
  pose proof (Forall_lookup_1 _ _ _ _ (v_mutators _ Hinv) Hj) as (Hq & Ha & Hpc'). pose proof (log_parts s j m Hinv Hj) as Hval.
  destruct (m_pc m) as [|o i v pre|o i v] eqn:Hpc, a as [o' i' v'|retain fresh|retain]; try done.
  - destruct (s_heap s !! o') as [fs|] eqn:Eo; cbn [mbind option_bind] in Hs'; [|done]. destruct (fs !! i') as [pre|] eqn:Ei; cbn [mbind option_bind] in Hs'; [|done].
    injection Hs' as <-. apply (inv_mutator s j m (mkMutator (m_queue m) (MLog o' i' v' pre)) (s_satb s) (s_heap s)); try done; try apply Hinv; try auto.
    + split; [done|]. split; [done|]. split; [exact Hact|]. by apply (field_valid s o' fs i').
    + intros x n y He Hu. right. apply unchanged_pc; [done|apply Hu|]. destruct Hu as [(fs' & E1 & E2) _]. cbn. intros <- <-. congruence.
  - destruct (SatbQueueFacts.flush_spec retain n_slots (m_queue m) (s_satb s) Hq (v_set _ Hinv)) as (q' & qs' & E & Hq' & Hqs' & Ha' & Hperm).
    rewrite E in Hs'. cbn [mbind option_bind] in Hs'. injection Hs' as <-.
    assert (Hel : ∀ y, y ∈ SatbQueueFacts.entries q' ∨ y ∈ SatbQueueFacts.completed_objects qs' ↔
      y ∈ List.filter retain (SatbQueueFacts.entries (m_queue m)) ∨ y ∈ SatbQueueFacts.completed_objects (s_satb s)).
    { intros y. rewrite <- elem_of_app, Hperm, elem_of_app. done. }
    apply (inv_mutator s j m (mkMutator q' MIdle) qs' (s_heap s)); try done; try apply Hinv.
    + split_and!; try done. cbn. congruence.
    + intros y [?%SatbLog.filter_subset|?]%Hel; auto.
    + intros y Hy Hyy. cbn. rewrite Hel. destruct Hyy as [He|?]; [|auto]. destruct (filter_keeps s retain _ y Hinv Hact Hy He); auto.
    + intros x n y He Hu. right. apply unchanged_pc; [done|apply Hu|done].
  - by eapply inv_mutator_log.
  - by eapply inv_mutator_store.
Qed.

(** ** Phases *)

Lemma start_tasks_lookup n pc l : ∀ k, start_tasks n pc l !! k = (λ t, if decide (k < n)%nat then set_top t pc else t) <$> l !! k.
Proof.
  revert l. induction n as [|n IH]; intros l k; cbn; [by destruct (l !! k)|]. destruct l as [|t l]; [done|].
  destruct k as [|k]; cbn; [done|]. rewrite IH. destruct (l !! k); [|done]. cbn. repeat case_decide; (done || lia).
Qed.

Lemma inv_start_tasks s s' n :
  inv s → (∀ k t, _tasks s !! k = Some t → t_top t = TDone) → _tasks s' = start_tasks n TBegin (_tasks s) →
  _nextMarkBitMap s' = _nextMarkBitMap s → _markStack s' = _markStack s → _global_finger s' = _global_finger s → _root_regions s' = _root_regions s →
  s_satb s' = s_satb s → s_mutators s' = s_mutators s → s_heap s' = s_heap s → (∀ y, in_log s y → in_log s' y) → inv s'.
Proof.
  intros Hinv Hdone Ht E1 E2 E3 E4 E5 E6 E7 Hlog. destruct Hinv as [V1 V2 V3 V4 V5 V6 V7 V8 V9 V10 V11 V12 V13 V14].
  assert (Hnew : ∀ k t, _tasks s !! k = Some t → ∃ t', _tasks s' !! k = Some t' ∧ (t' = t ∨ t' = set_top t TBegin)).
  { intros k t Hk. rewrite Ht, start_tasks_lookup, Hk. cbn. case_decide; eexists; split; try done; auto. }
  assert (Hold : ∀ k t', _tasks s' !! k = Some t' → ∃ t, _tasks s !! k = Some t ∧ (t' = t ∨ t' = set_top t TBegin)).
  { intros k t' Hk. rewrite Ht, start_tasks_lookup in Hk. destruct (_tasks s !! k) as [t|]; [|done]. cbn in Hk. case_decide; injection Hk as <-; eexists; split; try done; auto. }
  assert (Hcov : ∀ y, covered s y → covered s' y).
  { intros y Hc Hy. unfold pending. rewrite E1. destruct (Hc Hy) as [?|[?|(k & t & Hk & Hp)]]; [by left|right; left; auto|right; right].
    destruct (Hnew k t Hk) as (t' & Hk' & [-> | ->]); eauto. }
  split; rewrite ?E1, ?E2, ?E3, ?E4, ?E5, ?E6, ?E7; try done.
  - unfold log_objects. by rewrite E5, E6.
  - intros k t' Hk. destruct (Hold k t' Hk) as (t & Hkt & [-> | ->]); [by apply (V9 k)|]. apply task_ok_top; [by apply (V9 k)|done].
  - intros x i y He. unfold unchanged. rewrite E6, E7. destruct (V11 x i y He); auto.
  - intros x i y He Hx Hm. destruct (V12 x i y He Hx Hm) as [?|[[Hg|(k & t & Hk & Hg)]|?]]; auto.
    + right. left. left. unfold global_grey. by rewrite E2, E3.
    + right. left. right. destruct (Hnew k t Hk) as (t' & Hk' & [-> | ->]); eauto.
  - auto.
  - intros x i y He Hb. destruct (V14 x i y He Hb) as [?|[Hr|(k & t & Hk & Hr)]]; auto.
    + right. left. by rewrite E4.
    + right. right. destruct (Hnew k t Hk) as (t' & Hk' & [-> | ->]); [eauto|]. eexists k, _. split; [done|].
      unfold task_roots in *. rewrite (Hdone k t Hk) in Hr. destruct Hr as [[]|?]. by right.
Qed.

Lemma in_log_open s s' y : s_satb s' = s_satb s → s_mutators s' = s_mutators s → (∀ i, ¬ claimed s' i) → in_log s y → in_log s' y.
Proof. intros E1 E2 Hn. unfold in_log. rewrite E1, E2. intros [(i & m & H1 & H2 & _)|?]; [left; eauto|by right]. Qed.

Lemma all_done_spec s : all_done s = true → ∀ k t, _tasks s !! k = Some t → t_top t = TDone.
Proof.
  intros H k t Hk. unfold all_done in H. rewrite forallb_forall in H. specialize (H t). rewrite <- list_elem_of_In in H.
  specialize (H (list_elem_of_lookup_2 _ _ _ Hk)). by destruct (t_top t).
Qed.

Lemma inv_start_marking s : inv s → (∀ k t, _tasks s !! k = Some t → t_top t = TDone) → inv (start_marking c s).
Proof. intros Hinv Hdone. apply (inv_start_tasks s _ (n_marking c)); try done. intros y. apply in_log_open; try done. intros i [Hp _]. done. Qed.

Lemma inv_start_remark s : inv s → (∀ k t, _tasks s !! k = Some t → t_top t = TDone) → inv (start_remark c s).
Proof.
  intros Hinv Hdone. apply (inv_start_tasks s _ (n_remark c)); try done. intros y. apply in_log_open; try done. intros i [_ Hc]. cbn in Hc.
  apply lookup_replicate in Hc as [? _]. done.
Qed.

Lemma inv_set_stack s st : inv s → _base st = _base (_markStack s) → _overflow st = _overflow (_markStack s) → inv (set_stack s st).
Proof.
  intros [V1 V2 V3 V4 V5 V6 V7 V8 V9 V10 V11 V12 V13 V14] Eb Eo. split; try done; cbn; rewrite ?Eb, ?Eo; try done.
  intros x i y He Hx Hm. destruct (V12 x i y He Hx Hm) as [?|[[Hg|?]|?]]; auto; right; left; [left; unfold global_grey in *; cbn; by rewrite Eb|by right].
Qed.

Lemma expand_spec max reserved st : _base st = [] → _base (expand max reserved st) = [] ∧ _overflow (expand max reserved st) = _overflow st.
Proof. intros Hb. unfold expand. repeat case_match; done. Qed.

End facts.

End ConcMarkFacts.
