(* ===== verification/ConcMarkControl.v ===== *)
(** The control of concurrent marking: what a task, the barriers of the
    overflow protocol and the remark pause guarantee at each program counter.
    The record [ctl] is an invariant of the runs of [ConcMark]; it does not
    depend on the contents of the heap. *)

From S2P Require Import Prelude BitMap SatbQueue ConcMark ConcMarkFacts.

Module ConcMarkControl.
Import ConcMark ConcMarkFacts.

(** ** A task outside the root region scan *)

Definition root_scan (t : CMTask) : Prop :=
  match t_scan t with Some (RootFields _ _) => True | _ => False end ∨
  match t_deal t with Some (GrayRoot _ | GrayMark _ _) => True | _ => False end.

(** Which parts of the call structure can be active. *)
Definition shape (t : CMTask) : Prop :=
  match t_top t with
  | TSatb _ (SProcessed _ | SEmpty _ _) => t_drain t = None ∧ t_iter t = None
  | TRegion | TClaim | TSteal => t_iter t = None
  | TRegionDrain => True
  | TRoot | TRootObjects _ => False
  | _ => idle t
  end.

Record work_ok (rm ovf : bool) (cl : list bool) (act : bool) (t : CMTask) : Prop := mkWorkOk {
  w_kind : ¬ root_scan t;
  w_shape : shape t;
  w_region :
    match t_top t with
    | TClaimRead | TClaimCas _ => _curr_region (t_region t) = None ∧ has_aborted t = false
    | TGuarantee _ | TEnter2 | TWait2 | TDone => _curr_region (t_region t) = None
    | TSatb true _ | TFinalDrain | TSteal | TTerminate | TStepEnd => _curr_region (t_region t) = None ∨ has_aborted t = true
    | TWorkEnd => _curr_region (t_region t) = None ∨ has_aborted t = true ∧ rm = false
    | _ => True
    end;
  w_remark : rm = true → has_aborted t = true → _curr_region (t_region t) = None ∨ ovf = true;
  w_queue :
    match t_top t with
    | TGuarantee (NotOverflown | NoStackOverflow) => _task_queue t = []
    | TStepEnd | TEnter1 | TWait1 | TReset | TClear | TEnter2 | TWait2 | TWorkEnd => has_aborted t = true ∨ _task_queue t = []
    | TDone => _task_queue t = [] ∨ rm = true ∧ ovf = true
    | _ => True
    end;
  w_done : rm = true → act = true → t_top t = TDone → has_aborted t = false ∨ ovf = true;
  w_overflow : rm = true → match t_top t with TEnter1 | TWait1 | TClear | TEnter2 | TWait2 => ovf = true | TReset => False | _ => True end;
  w_stage : match t_top t with
            | TSatb _ (SThreads _) => rm = true
            | TSatb _ (SEmpty i _) => rm = true ∧ cl !! i = Some true
            | _ => True
            end;
  w_inactive : act = false → t_top t = TDone
}.

Record root_ok (t : CMTask) : Prop := mkRootOk {
  r_scan : match t_scan t with None | Some (RootFields _ _) => True | _ => False end;
  r_deal : match t_deal t with None | Some (GrayRoot _ | GrayMark _ _) => True | _ => False end;
  r_drain : t_drain t = None;
  r_iter : t_iter t = None;
  r_region : _curr_region (t_region t) = None;
  r_queue : _task_queue t = [];
  r_top : match t_top t with TRoot | TDone => idle t | TRootObjects _ => True | _ => False end
}.

(** ** The remark pause *)

(** Thread [i] is still in front of the task. *)
Definition awaiting (i : nat) (t : CMTask) : Prop :=
  has_aborted t = true ∨
  match t_top t with
  | TBegin | TSatb false (SStart | SLoop | SProcessed _) => True
  | TSatb false (SThreads ts | SEmpty _ ts) => i ∈ ts
  | _ => False
  end.

Definition rank (g : guarantee) : nat :=
  match g with OutOfRegions => 0 | StackEmpty => 1 | QueueEmpty => 2 | NotOverflown => 3 | NoStackOverflow => 4 end.

#[global] Instance guarantee_eq_dec : EqDecision guarantee.
Proof. solve_decision. Defined.

(** The task has yet to pass the guarantee [g]. *)
Definition before (g : guarantee) (t : CMTask) : Prop :=
  match t_top t with
  | TGuarantee g' => (rank g' <= rank g)%nat
  | TDone => False
  | TStepEnd | TEnter1 | TWait1 | TReset | TClear | TEnter2 | TWait2 | TWorkEnd => has_aborted t = true
  | _ => True
  end.

(** ** The barriers *)

Definition in_first (t : CMTask) : bool := match t_top t with TWait1 => true | _ => false end.
Definition in_second (t : CMTask) : bool := match t_top t with TWait2 => true | _ => false end.
Definition between (t : CMTask) : bool := match t_top t with TReset | TClear | TEnter2 => true | _ => false end.
Definition count (p : CMTask → bool) (l : list CMTask) : Z := Z.of_nat (length (List.filter p l)).

(** The tasks that have entered the barrier in this round. *)
Definition entered (b : WorkGangBarrierSync) (n : Z) : Prop := n = if _should_reset b then 0 else _n_completed b.

Section control.
Context (c : config).

(** Tasks arrive at the first barrier; some may still leave the second one. *)
Record gathering (s : cm_state) : Prop := mkGathering {
  g_entered : entered (_first_overflow_barrier_sync s) (count in_first (_tasks s));
  g_some : count in_first (_tasks s) < Z.of_nat (n_marking c);
  g_between : ∀ k t, _tasks s !! k = Some t → between t = false;
  g_second : entered (_second_overflow_barrier_sync s) 0;
  g_overflow : ∀ k t, _tasks s !! k = Some t → match t_top t with TEnter1 | TWait1 => _overflow (_markStack s) = true | _ => True end
}.

(** All tasks have arrived at the first barrier, and not all at the second. *)
Record passing (s : cm_state) : Prop := mkPassing {
  p_open : _should_reset (_first_overflow_barrier_sync s) = true;
  p_all : ∀ k t, _tasks s !! k = Some t → (k < n_marking c)%nat → in_first t || between t || in_second t = true;
  p_entered : entered (_second_overflow_barrier_sync s) (count in_second (_tasks s));
  p_some : count in_second (_tasks s) < Z.of_nat (n_marking c);
  p_reset : ∀ k t, _tasks s !! k = Some t → t_top t = TReset → k = 0%nat;
  p_data : ∀ t, _tasks s !! 0%nat = Some t →
    match t_top t with TWait1 | TReset => _overflow (_markStack s) = true | _ => _global_finger s = _heap_start c end
}.

Record barriers_ok (s : cm_state) : Prop := mkBarriersOk {
  b_first : _n_workers (_first_overflow_barrier_sync s) = Z.of_nat (n_marking c);
  b_second : _n_workers (_second_overflow_barrier_sync s) = Z.of_nat (n_marking c);
  b_round : gathering s ∨ passing s
}.

Definition global_holds (s : cm_state) (g : guarantee) : Prop :=
  match g with
  | OutOfRegions => out_of_regions c s = true
  | StackEmpty => _base (_markStack s) = []
  | NoStackOverflow => _overflow (_markStack s) = false
  | _ => True
  end.

Definition in_remark (s : cm_state) : bool := match s_phase s with Remark => true | _ => false end.
Definition n_active (s : cm_state) : nat := if in_remark s then n_remark c else n_marking c.
Definition active (s : cm_state) (k : nat) : bool := bool_decide (k < n_active s)%nat.

Record remark_ok (s : cm_state) : Prop := mkRemarkOk {
  m_length : length (s_claimed s) = length (s_mutators s);
  m_threads : ∀ i, (i < length (s_mutators s))%nat → _has_overflown s = true ∨ s_claimed s !! i = Some true ∨
    ∀ k t, (k < n_remark c)%nat → _tasks s !! k = Some t → awaiting i t;
  m_guards : ∀ g, _has_overflown s = true ∨ global_holds s g ∨ ∃ k t, _tasks s !! k = Some t ∧ before g t
}.

Record ctl (s : cm_state) : Prop := mkCtl {
  c_marking : (1 <= n_marking c <= length (_tasks s))%nat;
  c_remark : (1 <= n_remark c <= length (_tasks s))%nat;
  c_overflow : _has_overflown s = true → _overflow (_markStack s) = true;
  c_root : s_phase s = RootScan → _global_finger s = _heap_start c ∧ ∀ k t, _tasks s !! k = Some t → root_ok t;
  c_work : s_phase s ≠ RootScan → ∀ k t, _tasks s !! k = Some t → work_ok (in_remark s) (_has_overflown s) (s_claimed s) (active s k) t;
  c_barriers : s_phase s = Marking → barriers_ok s;
  c_pause : s_phase s = Remark → remark_ok s
}.

(** ** Steps inside the functions that [do_marking_step] calls *)

Record frame (s s' : cm_state) (k : nat) (t t' : CMTask) : Prop := mkFrame {
  f_tasks : _tasks s' = <[k := t']> (_tasks s);
  f_phase : s_phase s' = s_phase s;
  f_claimed : s_claimed s' = s_claimed s;
  f_mutators : s_mutators s' = s_mutators s;
  f_finger : _global_finger s' = _global_finger s;
  f_first : _first_overflow_barrier_sync s' = _first_overflow_barrier_sync s;
  f_second : _second_overflow_barrier_sync s' = _second_overflow_barrier_sync s;
  f_ovf : _has_overflown s = true → _has_overflown s' = true;
  f_new_ovf : _has_overflown s' = true → _has_overflown s = true ∨ _overflow (_markStack s') = true;
  f_overflow : _overflow (_markStack s) = true → _overflow (_markStack s') = true;
  f_top : t_top t' = t_top t;
  f_aborted : has_aborted t = true → has_aborted t' = true;
  f_abort : has_aborted t' = true → has_aborted t = true ∨ concurrent s = true ∨ _has_overflown s' = true;
  f_region : _curr_region (t_region t') = _curr_region (t_region t) ∨ _curr_region (t_region t') = None;
  f_kind : root_scan t' → root_scan t;
  f_iter : t_iter t = None → t_iter t' = None;
  f_drain : t_iter t = None → t_drain t = None → t_drain t' = None;
  f_roots : _root_regions s' = _root_regions s;
  f_marks : _nextMarkBitMap s' = _nextMarkBitMap s ∧ t_counts t' = t_counts t ∨
    ∃ y hr, (t_deal t = Some (MarkObj y hr) ∨ t_deal t = Some (GrayMark y hr)) ∧
      par_mark_and_count c (_nextMarkBitMap s) y hr (t_counts t) = Some (true, _nextMarkBitMap s', t_counts t')
}.

Lemma clock_flags ch s t :
  has_aborted (regular_clock_call ch s t) = true → has_aborted t = true ∨ concurrent s = true ∨ _has_overflown s = true.
Proof.
  unfold regular_clock_call. destruct (has_aborted t) eqn:E; [by left|]. destruct (_has_overflown s); [tauto|]. destruct (concurrent s); [tauto|]. cbn.
  unfold has_aborted in *. cbn. congruence.
Qed.

Lemma check_limits_flags ch s t :
  has_aborted (check_limits ch s t) = true → has_aborted t = true ∨ concurrent s = true ∨ _has_overflown s = true.
Proof. unfold check_limits. destruct (_ || _); [apply clock_flags|tauto]. Qed.

(** A step that changes only the task. *)
Lemma frame_put s k t t' :
  t_top t' = t_top t → (has_aborted t = true → has_aborted t' = true) →
  (has_aborted t' = true → has_aborted t = true ∨ concurrent s = true ∨ _has_overflown s = true) →
  _curr_region (t_region t') = _curr_region (t_region t) ∨ _curr_region (t_region t') = None → (root_scan t' → root_scan t) →
  (t_iter t = None → t_iter t' = None) → (t_iter t = None → t_drain t = None → t_drain t' = None) → t_counts t' = t_counts t →
  frame s (put_task s k t') k t t'.
Proof. intros. split; try done; cbn; tauto. Qed.

Lemma mark_step_frame k t y hr next s s' :
  mark_step c k t y hr next s = Some s' → t_deal t = Some (MarkObj y hr) ∨ t_deal t = Some (GrayMark y hr) → (∀ d, next = Some d → match d with GrayRoot _ | GrayMark _ _ => False | _ => True end) → ∃ t', frame s s' k t t'.
Proof.
  unfold mark_step. destruct (par_mark_and_count _ _ _ _ _) as [[[won b] n]|] eqn:E; cbn [mbind option_bind]; [|done]. intros Hs Hd Hn.
  destruct won; injection Hs as <-; eexists; split; cbn; try done; try tauto; unfold root_scan; cbn; [|by right; eauto|tauto].
  destruct next as [d|]; [|tauto]. specialize (Hn d eq_refl). destruct d; tauto.
Qed.

Lemma step_deal_frame k t d s s' : t_deal t = Some d → step_deal c k t d s = Some s' → ∃ t', frame s s' k t t'.
Proof.
  intros Hd Hs. assert (Hput : ∀ t', t_top t' = t_top t → t_flags t' = t_flags t → t_region t' = t_region t → t_scan t' = t_scan t →
    match t_deal t' with Some (GrayRoot _ | GrayMark _ _) => match d with GrayRoot _ => True | _ => False end | _ => True end →
    t_iter t' = t_iter t → t_drain t' = t_drain t → t_counts t' = t_counts t → ∃ u, frame s (put_task s k t') k t u).
  { intros t' E1 E2 E3 E4 E4' E5 E6 E7. exists t'. apply frame_put; unfold has_aborted, root_scan; rewrite ?E2, ?E3, ?E4, ?E5, ?E6; try tauto. rewrite Hd. destruct (t_deal t') as [[]|], d; tauto. }
  destruct d; cbn [step_deal] in Hs.
  - destruct (is_in_g1_reserved c obj); [|injection Hs as <-; by eapply Hput]. destruct (isMarked _ _) as [[]|]; cbn [mbind option_bind] in Hs; [injection Hs as <-; by eapply Hput| |done].
    destruct (heap_region_containing_raw c obj) as [i|]; cbn [mbind option_bind] in Hs; [|done]. destruct (regions c !! i) as [r|]; cbn [mbind option_bind] in Hs; [|done].
    injection Hs as <-. eapply Hput; try done. by destruct (obj_allocated_since_next_marking r obj).
  - eapply mark_step_frame; [exact Hs|by left|]. by intros ? [= <-].
  - injection Hs as <-. eapply Hput; try done. cbn. by match goal with |- context [if ?p then Some (Push obj) else None] => destruct p end.
  - injection Hs as <-. unfold queue_push. destruct (queue_has_room c t); by eapply Hput.
  - destruct (_ <? _); [|injection Hs as <-; by eapply Hput]. pose proof (pop_local_spec t) as Hp. destruct (pop_local t) as [[o|] t1].
    + destruct Hp as (-> & _). injection Hs as <-. by eapply Hput.
    + destruct Hp as (-> & _). injection Hs as <-. by eapply Hput.
  - destruct (_ >? 0); [|injection Hs as <-; by eapply Hput]. injection Hs as <-. eexists. unfold par_push_arr. split; cbn; try done; try tauto.
    + by destruct (_ >? _).
    + unfold root_scan. cbn. rewrite Hd. tauto.
  - destruct (_overflow (_markStack s)) eqn:Eo; injection Hs as <-; [|by eapply Hput]. eexists. split; cbn; try done; try tauto. unfold root_scan. cbn. rewrite Hd. tauto.
  - injection Hs as <-. unfold queue_push. destruct (queue_has_room c t); by eapply Hput.
  - destruct (heap_region_containing_raw c obj) as [i|]; cbn [mbind option_bind] in Hs; [|done]. destruct (regions c !! i) as [r|]; cbn [mbind option_bind] in Hs; [|done].
    destruct (_ <? _); [|injection Hs as <-; by eapply Hput]. destruct (isMarked _ _) as [m|]; cbn [mbind option_bind] in Hs; [|done]. injection Hs as <-.
    eapply Hput; try done. by destruct m.
  - eapply mark_step_frame; [exact Hs|by right|done].
Qed.

Lemma step_scan_frame ch k t sc s s' :
  t_deal t = None → t_scan t = Some sc → step_scan c ch k t sc s = Some s' → ∃ t', frame s s' k t t'.
Proof.
  intros Hd Hsc Hs. assert (Hput : ∀ sc' d', match sc' with Some (RootFields _ _) => match sc with RootFields _ _ => True | _ => False end | _ => True end →
    match d' with Some (GrayRoot _) => match sc with RootFields _ _ => True | _ => False end | Some (GrayMark _ _) => False | _ => True end →
    ∃ t', frame s (put_task s k (set_deal (set_scan t sc') d')) k t t').
  { intros sc' d' H1 H2. eexists. apply frame_put; try done; try tauto. unfold root_scan. cbn. rewrite Hd, Hsc. destruct sc' as [[]|], d' as [[]|], sc; tauto. }
  assert (Hnone : ∀ sc', set_scan t sc' = set_deal (set_scan t sc') None) by (intros; destruct t; cbn in *; by subst).
  destruct sc as [o i|[|y l]|o i]; cbn [step_scan] in Hs.
  - destruct (s_heap s !! o) as [fs|]; cbn [mbind option_bind] in Hs; [|done]. destruct (fs !! i); injection Hs as <-; [by apply Hput|].
    destruct (check_limits_spec ch s (set_scan t None)) as (l & f & E & Hf). pose proof (check_limits_flags ch s (set_scan t None)) as Hfl. rewrite E in *.
    eexists. apply frame_put; try done; [by left|]. unfold root_scan. cbn. rewrite Hd. tauto.
  - injection Hs as <-. rewrite Hnone. by apply Hput.
  - injection Hs as <-. destruct (y =? NULL); [rewrite Hnone|]; by apply Hput.
  - destruct (s_heap s !! o) as [fs|]; cbn [mbind option_bind] in Hs; [|done]. destruct (fs !! i); injection Hs as <-; [|rewrite Hnone; by apply Hput].
    destruct (_ || _); [rewrite Hnone|]; by apply Hput.
Qed.

Lemma step_drain_frame k t d s s' :
  t_deal t = None → t_scan t = None → t_drain t = Some d → step_drain c k t d s = Some s' → ∃ t', frame s s' k t t'.
Proof.
  intros Hd Hsc Hdr Hs. assert (Hput : ∀ t', t_top t' = t_top t → t_flags t' = t_flags t → t_region t' = t_region t → (root_scan t' → root_scan t) →
    t_iter t' = t_iter t → t_counts t' = t_counts t → ∃ u, frame s (put_task s k t') k t u).
  { intros t' E1 E2 E3 E4 E5 E6. exists t'. apply frame_put; unfold has_aborted; rewrite ?E2, ?E3, ?E5; try tauto. rewrite Hdr. done. }
  destruct d as [p st]. destruct st as [loop|loop|loop| | | |[|o l]]; cbn [step_drain d_stage d_partially] in Hs.
  - repeat case_match; injection Hs as <-; by eapply Hput.
  - pose proof (pop_local_spec t) as Hp. destruct (pop_local t) as [[o|] t1]; destruct Hp as (-> & _); injection Hs as <-; eapply Hput; try done.
    unfold root_scan. cbn. rewrite Hd, Hsc. tauto.
  - repeat case_match; injection Hs as <-; by eapply Hput.
  - repeat case_match; injection Hs as <-; by eapply Hput.
  - repeat case_match; injection Hs as <-; by eapply Hput.
  - unfold par_pop_arr in Hs. destruct (stack_size (_markStack s) =? 0); injection Hs as <-; eexists; split; cbn; try done; try tauto; by rewrite Hdr.
  - injection Hs as <-. by eapply Hput.
  - injection Hs as <-. unfold queue_push. destruct (queue_has_room c t); by eapply Hput.
Qed.

#[local] Opaque BitMap.next_one_bit.

Lemma search_result_frame ch s k t o r :
  at_rest t → is_Some (t_iter t) → ∃ t', frame s (put_task s k (search_result c ch s t o r)) k t t'.
Proof.
  intros (Hd & Hsc & Hdr) [it Hit]. unfold search_result, do_bit. destruct (o <? r).
  - eexists. apply frame_put; try done; try (by rewrite Hit); [intros ?; by left|by left|]. unfold root_scan. cbn. rewrite Hd. tauto.
  - destruct (clock_spec ch s (set_iter (giveup_current_region t) None)) as (l & f & E & Hf). pose proof (clock_flags ch s (set_iter (giveup_current_region t) None)) as Hfl.
    rewrite E in *. eexists. apply frame_put; try done. by right.
Qed.

Lemma step_iter_frame ch k t it s s' :
  at_rest t → t_iter t = Some it → step_iter c ch k t it s = Some s' → ∃ t', frame s s' k t t'.
Proof.
  intros Hrest Hit Hs. pose proof Hrest as (Hd & Hsc & Hdr). assert (Hsr : ∀ o r, ∃ t', frame s (put_task s k (search_result c ch s t o r)) k t t').
  { intros o r. apply search_result_frame; [done|by rewrite Hit]. }
  assert (Hput : ∀ t', t_top t' = t_top t → t_flags t' = t_flags t → _curr_region (t_region t') = _curr_region (t_region t) ∨ _curr_region (t_region t') = None →
    (root_scan t' → root_scan t) → t_counts t' = t_counts t → ∃ u, frame s (put_task s k t') k t u).
  { intros t' E1 E2 E3 E4 E5. exists t'. apply frame_put; unfold has_aborted; rewrite ?E2, ?Hit; try tauto; done. }
  destruct it as [l r|w r|o r|]; cbn [step_iter] in Hs.
  - destruct (_ =? _); [injection Hs as <-; apply Hsr|]. destruct (BitMap.map_word _ _) as [w|]; cbn [mbind option_bind] in Hs; [|done].
    destruct (negb _); injection Hs as <-; [apply Hsr|]. eapply Hput; try done. by left.
  - destruct (_ <? _); [|injection Hs as <-; apply Hsr]. destruct (BitMap.map_word _ _) as [v|]; cbn [mbind option_bind] in Hs; [|done].
    destruct (negb _); injection Hs as <-; [apply Hsr|]. eapply Hput; try done. by left.
  - cbn [t_region set_iter] in Hs. destruct (has_aborted t).
    + destruct (_finger _) as [f|]; cbn [mbind option_bind] in Hs; [|done]. destruct (_region_limit _) as [l|]; cbn [mbind option_bind] in Hs; [|done].
      injection Hs as <-. destruct (_ >=? _); eapply Hput; try done; [by right|by left].
    + destruct (_region_limit _) as [l|]; cbn [mbind option_bind] in Hs; [|done]. injection Hs as <-. eapply Hput; try done. by left.
  - injection Hs as <-. destruct (clock_spec ch s (set_iter (giveup_current_region t) None)) as (l & f & E & Hf).
    pose proof (clock_flags ch s (set_iter (giveup_current_region t) None)) as Hfl. rewrite E in *. eexists. apply frame_put; try done. by right.
Qed.

(** ** Steps of one task *)

Lemma work_mono rm ovf ovf' cl cl' act t :
  (rm = true → ovf = true → ovf' = true) → (∀ i, cl !! i = Some true → cl' !! i = Some true) → work_ok rm ovf cl act t → work_ok rm ovf' cl' act t.
Proof.
  intros Ho Hc [W1 W2 W3 W4 W5 W6 W7 W8 W9]. split; try done.
  - intros Hr Ha. destruct (W4 Hr Ha); auto.
  - destruct (t_top t); try done. destruct W5 as [?|[? ?]]; auto.
  - intros Hr Ha Ht. destruct (W6 Hr Ha Ht); auto.
  - intros Hr. specialize (W7 Hr). destruct (t_top t); auto.
  - destruct (t_top t) as [|a []| | | | | | | | | | | | | | | | | | | | | | |]; try done. destruct W8; auto.
Qed.

Lemma count_insert p l : ∀ k t t', l !! k = Some t → count p (<[k := t']> l) = count p l - Z.b2z (p t) + Z.b2z (p t').
Proof.
  unfold count. induction l as [|u l IH]; intros [|k] t t' Hk; try done.
  - injection Hk as ->. change (<[0%nat := t']> (t :: l)) with (t' :: l). cbn [List.filter]. destruct (p t), (p t'); cbn [length Z.b2z]; lia.
  - specialize (IH k t t' Hk). change (<[S k := t']> (u :: l)) with (u :: <[k := t']> l). cbn [List.filter]. destruct (p u); cbn [length]; lia.
Qed.

Lemma count_nonneg p l : 0 <= count p l.
Proof. unfold count. lia. Qed.

Lemma count_pos p l k t : l !! k = Some t → p t = true → 0 < count p l.
Proof.
  unfold count. revert k. induction l as [|u l IH]; intros [|k] Hk Hp; cbn in *; try done.
  - injection Hk as ->. rewrite Hp. cbn [length]. lia.
  - specialize (IH k Hk Hp). destruct (p u); cbn [length]; lia.
Qed.

Definition outside (t : CMTask) : bool := negb (in_first t) && negb (between t) && negb (in_second t).

Lemma outside_spec t : outside t = true → in_first t = false ∧ between t = false ∧ in_second t = false.
Proof. unfold outside. destruct (in_first t), (between t), (in_second t); done. Qed.

Lemma barriers_quiet s s' k t t' :
  barriers_ok s → _tasks s !! k = Some t → (k < n_marking c)%nat → _tasks s' = <[k := t']> (_tasks s) →
  _first_overflow_barrier_sync s' = _first_overflow_barrier_sync s → _second_overflow_barrier_sync s' = _second_overflow_barrier_sync s →
  (_overflow (_markStack s) = true → _overflow (_markStack s') = true) → outside t = true → outside t' = true →
  (t_top t' = TEnter1 → _overflow (_markStack s') = true) → barriers_ok s'.
Proof.
  intros [B1 B2 Br] Hk Hlt Hk' E1 E2 Ho [O1 [O2 O3]]%outside_spec [O1' [O2' O3']]%outside_spec Hent. split; rewrite ?E1, ?E2; try done. left.
  destruct Br as [[G1 G2 G3 G4 G5]|[P1 P2 P3 P4 P5 P6]]; [|specialize (P2 k t Hk Hlt); by rewrite O1, O2, O3 in P2].
  assert (Ec : count in_first (_tasks s') = count in_first (_tasks s)) by (rewrite Hk', (count_insert _ _ _ t), O1, O1' by done; cbn; lia).
  split; rewrite ?E1, ?E2, ?Ec; try done.
  - intros j u Hj. rewrite Hk' in Hj. apply insert_lookup_cases in Hj as [[-> _]|[_ Hj]]; [done|by apply (G3 j)].
  - intros j u Hj. rewrite Hk' in Hj. apply insert_lookup_cases in Hj as [[-> _]|[_ Hj]].
    + unfold in_first in O1'. destruct (t_top t'); try done. by apply Hent.
    + specialize (G5 j u Hj). destruct (t_top u); auto.
Qed.

Lemma remark_step s s' k t t' :
  remark_ok s → _tasks s !! k = Some t → _tasks s' = <[k := t']> (_tasks s) → length (s_mutators s') = length (s_mutators s) →
  length (s_claimed s') = length (s_claimed s) → (∀ i, s_claimed s !! i = Some true → s_claimed s' !! i = Some true) →
  (_has_overflown s = true → _has_overflown s' = true) →
  (∀ i, (i < length (s_mutators s))%nat → awaiting i t → _has_overflown s' = true ∨ s_claimed s' !! i = Some true ∨ awaiting i t') →
  (∀ g, global_holds s g ∨ before g t → _has_overflown s' = true ∨ global_holds s' g ∨ before g t') → remark_ok s'.
Proof.
  intros [M1 M2 M3] Hk Hk' El Ec Hcl Ho Haw Hg. assert (Hnew : _tasks s' !! k = Some t') by (rewrite Hk'; apply list_lookup_insert_eq; by eapply lookup_lt_Some).
  split; [congruence|..].
  - intros i Hi. rewrite El in Hi. destruct (M2 i Hi) as [?|[?|Hall]]; [auto|auto|].
    destruct (decide (k < n_remark c)%nat) as [Hlt|Hge].
    + destruct (Haw i Hi (Hall k t Hlt Hk)) as [?|[?|Hw]]; [auto|auto|]. right. right. intros j u Hj Hu. rewrite Hk' in Hu.
      apply insert_lookup_cases in Hu as [[-> _]|[_ Hu]]; [done|by apply (Hall j)].
    + right. right. intros j u Hj Hu. rewrite Hk' in Hu. apply insert_lookup_cases in Hu as [[_ ->]|[_ Hu]]; [lia|by apply (Hall j)].
  - intros g. destruct (M3 g) as [?|[Hh|(j & u & Hj & Hb)]]; [auto|..].
    + destruct (Hg g (or_introl Hh)) as [?|[?|?]]; [auto|auto|]. right. right. eauto.
    + destruct (decide (j = k)) as [->|Hne].
      * assert (u = t) as -> by congruence. destruct (Hg g (or_intror Hb)) as [?|[?|?]]; [auto|auto|]. right. right. eauto.
      * right. right. exists j, u. split; [|done]. rewrite Hk'. by rewrite list_lookup_insert_ne.
Qed.

Lemma in_remark_spec s : in_remark s = true ↔ s_phase s = Remark.
Proof. unfold in_remark. destruct (s_phase s); done. Qed.

Lemma ctl_step s s' k t t' :
  ctl s → _tasks s !! k = Some t → _tasks s' = <[k := t']> (_tasks s) → s_phase s' = s_phase s → s_phase s ≠ RootScan →
  (∀ i, s_claimed s !! i = Some true → s_claimed s' !! i = Some true) →
  (s_phase s = Remark → _has_overflown s = true → _has_overflown s' = true) → (_has_overflown s' = true → _overflow (_markStack s') = true) →
  work_ok (in_remark s) (_has_overflown s') (s_claimed s') (active s k) t' →
  (s_phase s = Marking → barriers_ok s') → (s_phase s = Remark → remark_ok s') → ctl s'.
Proof.
  intros [C1 C2 C3 C4 C5 C6 C7] Hk Hk' Ep Hp Hcl Ho Hov Hw Hb Hr.
  assert (Er : in_remark s' = in_remark s) by (unfold in_remark; by rewrite Ep). assert (Ea : ∀ j, active s' j = active s j) by (intros j; unfold active, n_active; by rewrite Er).
  assert (El : length (_tasks s') = length (_tasks s)) by (rewrite Hk'; apply length_insert). split; rewrite ?El, ?Ep; try done.
  intros _ j u Hj. rewrite Er, Ea. rewrite Hk' in Hj. apply insert_lookup_cases in Hj as [[-> ->]|[_ Hj]]; [done|].
  eapply work_mono; [|exact Hcl|by apply C5]. intros H. apply Ho. by apply in_remark_spec.
Qed.

(** The pcs at which the functions called from a step are active. *)
Definition calling (pc : top_pc) : bool :=
  match pc with TSatb _ (SProcessed _ | SEmpty _ _) | TRegion | TRegionDrain | TClaim | TSteal => true | _ => false end.

Lemma calling_top t : shape t → ¬ idle t → calling (t_top t) = true.
Proof. unfold shape. destruct (t_top t) as [|a []| | | | | | | | | | | | | | | | | | | | | | |]; done. Qed.

Lemma frame_shape s s' k t t' : frame s s' k t t' → calling (t_top t) = true → shape t → shape t'.
Proof.
  intros [_ _ _ _ _ _ _ _ _ _ Ht _ _ _ _ Hi Hd _ _] Hc. unfold shape. rewrite Ht. destruct (t_top t) as [|a []| | | | | | | | | | | | | | | | | | | | | | |]; cbn in *; try done; try (by apply Hi).
  all: intros [? ?]; auto.
Qed.

Lemma ctl_frame s s' k t t' : ctl s → s_phase s ≠ RootScan → _tasks s !! k = Some t → ¬ idle t → frame s s' k t t' → ctl s'.
Proof.
  intros Hctl Hp Hk Hid Hf. pose proof (c_work _ Hctl Hp k t Hk) as Hw. pose proof (calling_top t (w_shape _ _ _ _ _ Hw) Hid) as Hcall.
  pose proof (frame_shape _ _ _ _ _ Hf Hcall (w_shape _ _ _ _ _ Hw)) as Hshape.
  destruct Hf as [F1 F2 F3 F4 F5 F6 F7 F8 F9 F10 F11 F12 F13 F14 F15 F16 F17 F18 F19]. destruct Hw as [W1 W2 W3 W4 W5 W6 W7 W8 W9].
  assert (Hact : s_phase s = Marking → (k < n_marking c)%nat).
  { intros Hm. destruct (active s k) eqn:Ea; [|specialize (W9 eq_refl); by rewrite W9 in Hcall]. unfold active, n_active, in_remark in Ea. rewrite Hm in Ea. by apply bool_decide_eq_true in Ea. }
  apply (ctl_step s s' k t t'); try done.
  - by rewrite F3.
  - intros Ho. destruct (F9 Ho) as [Hold|?]; [|done]. apply F10. by apply (c_overflow _ Hctl).
  - split; rewrite ?F11; try (by destruct (t_top t)).
    + auto.
    + destruct (t_top t) as [|[] []| | | | | | | | | | | | | | | | | | | | | | |]; try done; destruct W3 as [W3|?]; auto; left; destruct F14 as [-> | ->]; done.
    + intros Hr Ha. destruct (F13 Ha) as [Ha0|[Hc|?]]; [|exfalso; apply in_remark_spec in Hr; unfold concurrent in Hc; by rewrite Hr in Hc|by right].
      destruct (W4 Hr Ha0) as [Hreg|?]; [left; destruct F14 as [-> | ->]; done|right; auto].
    + by rewrite F3.
  - intros Hm. apply (barriers_quiet s s' k t t'); try done; [by apply (c_barriers _ Hctl)|by apply Hact|..].
    + unfold outside, in_first, between, in_second. by destruct (t_top t).
    + unfold outside, in_first, between, in_second. rewrite F11. by destruct (t_top t).
    + rewrite F11. intros E. by rewrite E in Hcall.
  - intros Hm. apply (remark_step s s' k t t'); try done; rewrite ?F3, ?F4; try done.
    + by apply (c_pause _ Hctl).
    + intros i _ Haw. right. right. unfold awaiting in *. rewrite F11. destruct Haw; auto.
    + intros g _. right. right. unfold before. rewrite F11. by destruct (t_top t).
Qed.

(** ** The control of a step *)

Lemma idle_not_root t : idle t → ¬ root_scan t.
Proof. intros [(Hd & Hs & _) _]. unfold root_scan. rewrite Hd, Hs. tauto. Qed.

Lemma active_of s k t : ctl s → s_phase s ≠ RootScan → _tasks s !! k = Some t → t_top t ≠ TDone → active s k = true ∧ (s_phase s = Marking → (k < n_marking c)%nat).
Proof.
  intros Hctl Hp Hk Ht. pose proof (w_inactive _ _ _ _ _ (c_work _ Hctl Hp k t Hk)) as W. destruct (active s k) eqn:Ea; [|by destruct Ht; apply W]. split; [done|].
  intros Hm. unfold active, n_active, in_remark in Ea. rewrite Hm in Ea. by apply bool_decide_eq_true in Ea.
Qed.

(** A step outside the barriers that changes the task and leaves the log's
    claims alone. *)
Lemma ctl_top s s' k t t' :
  ctl s → s_phase s ≠ RootScan → _tasks s !! k = Some t → t_top t ≠ TDone → _tasks s' = <[k := t']> (_tasks s) → s_phase s' = s_phase s →
  length (s_claimed s') = length (s_claimed s) → (∀ i, s_claimed s !! i = Some true → s_claimed s' !! i = Some true) → length (s_mutators s') = length (s_mutators s) →
  _first_overflow_barrier_sync s' = _first_overflow_barrier_sync s → _second_overflow_barrier_sync s' = _second_overflow_barrier_sync s →
  _markStack s' = _markStack s → (_has_overflown s' = true → _has_overflown s = true) → (s_phase s = Remark → _has_overflown s = true → _has_overflown s' = true) →
  (s_phase s = Marking → outside t = true ∧ outside t' = true ∧ (t_top t' = TEnter1 → _has_overflown s = true)) →
  work_ok (in_remark s) (_has_overflown s') (s_claimed s') true t' →
  (s_phase s = Remark → ∀ i, (i < length (s_mutators s))%nat → awaiting i t → _has_overflown s' = true ∨ s_claimed s' !! i = Some true ∨ awaiting i t') →
  (s_phase s = Remark → ∀ g, global_holds s g ∨ before g t → _has_overflown s' = true ∨ global_holds s' g ∨ before g t') → ctl s'.
Proof.
  intros Hctl Hp Hk Hnd Hk' Ep Ec Hcl Em E1 E2 Est Ho1 Ho2 Hb Hw Haw Hg. destruct (active_of s k t Hctl Hp Hk Hnd) as [Ha Hlt].
  apply (ctl_step s s' k t t'); try done.
  - rewrite Est. intros H%Ho1. by apply (c_overflow _ Hctl).
  - by rewrite Ha.
  - intros Hm. destruct (Hb Hm) as (O1 & O2 & O3). apply (barriers_quiet s s' k t t'); try done; rewrite ?Est; try done; [by apply (c_barriers _ Hctl)|by apply Hlt|].
    intros H%O3. by apply (c_overflow _ Hctl).
  - intros Hm. apply (remark_step s s' k t t'); try done; [by apply (c_pause _ Hctl)|by apply Ho2|by apply Haw|by apply Hg].
Qed.

Definition is_outside (pc : top_pc) : bool := match pc with TWait1 | TReset | TClear | TEnter2 | TWait2 => false | _ => true end.

Lemma is_outside_spec t : outside t = is_outside (t_top t).
Proof. unfold outside, in_first, between, in_second. by destruct (t_top t). Qed.

(** The task goes to [pc], which precedes the guarantees. *)
Lemma ctl_go s k t t' :
  ctl s → s_phase s ≠ RootScan → _tasks s !! k = Some t → t_top t ≠ TDone → is_outside (t_top t) = true → is_outside (t_top t') = true → t_top t' ≠ TEnter1 →
  work_ok (in_remark s) (_has_overflown s) (s_claimed s) true t' →
  (s_phase s = Remark → ∀ i, (i < length (s_mutators s))%nat → awaiting i t → _has_overflown s = true ∨ s_claimed s !! i = Some true ∨ awaiting i t') →
  (s_phase s = Remark → ∀ g, global_holds s g ∨ before g t → _has_overflown s = true ∨ global_holds s g ∨ before g t') → ctl (put_task s k t').
Proof.
  intros Hctl Hp Hk Hnd O1 O2 Hne Hw Haw Hg. apply (ctl_top s _ k t t'); try done. intros _. by rewrite !is_outside_spec.
Qed.

Definition early (pc : top_pc) : bool :=
  match pc with
  | TGuarantee _ | TStepEnd | TEnter1 | TWait1 | TReset | TClear | TEnter2 | TWait2 | TWorkEnd | TDone | TRoot | TRootObjects _ => false
  | _ => true
  end.

Lemma early_before t g : early (t_top t) = true → before g t.
Proof. unfold before. by destruct (t_top t). Qed.

Lemma early_outside t : early (t_top t) = true → is_outside (t_top t) = true ∧ t_top t ≠ TEnter1 ∧ t_top t ≠ TDone.
Proof. by destruct (t_top t). Qed.

Lemma ctl_early s k t t' :
  ctl s → s_phase s ≠ RootScan → _tasks s !! k = Some t → early (t_top t) = true → early (t_top t') = true →
  work_ok (in_remark s) (_has_overflown s) (s_claimed s) true t' →
  (s_phase s = Remark → ∀ i, (i < length (s_mutators s))%nat → awaiting i t → _has_overflown s = true ∨ s_claimed s !! i = Some true ∨ awaiting i t') →
  ctl (put_task s k t').
Proof.
  intros Hctl Hp Hk He He' Hw Haw. destruct (early_outside t He) as (O1 & _ & Hnd). destruct (early_outside t' He') as (O2 & Hne & _).
  apply (ctl_go s k t t'); try done. intros _ g _. right. right. by apply early_before.
Qed.

Lemma work_early rm ovf cl t :
  early (t_top t) = true → ¬ root_scan t → shape t →
  match t_top t with
  | TClaimRead | TClaimCas _ => _curr_region (t_region t) = None ∧ has_aborted t = false
  | TSatb true _ | TFinalDrain | TSteal | TTerminate => _curr_region (t_region t) = None ∨ has_aborted t = true
  | _ => True
  end →
  (rm = true → has_aborted t = true → _curr_region (t_region t) = None ∨ ovf = true) →
  match t_top t with TSatb _ (SThreads _) => rm = true | TSatb _ (SEmpty i _) => rm = true ∧ cl !! i = Some true | _ => True end →
  work_ok rm ovf cl true t.
Proof. intros He Hk Hs Hr Hm Hst. split; try done; by destruct (t_top t). Qed.

(** Control that keeps what the task is working on. *)
Lemma work_go rm ovf cl act t t' :
  work_ok rm ovf cl act t → idle t → same_work t t' → early (t_top t') = true →
  match t_top t' with TSatb _ (SProcessed _ | SEmpty _ _) | TRoot | TRootObjects _ => False | _ => True end →
  match t_top t' with
  | TClaimRead | TClaimCas _ => _curr_region (t_region t) = None ∧ has_aborted t' = false
  | TSatb true _ | TFinalDrain | TSteal | TTerminate => _curr_region (t_region t) = None ∨ has_aborted t' = true
  | _ => True
  end →
  (rm = true → has_aborted t' = true → has_aborted t = true ∨ ovf = true) →
  match t_top t' with TSatb _ (SThreads _) => rm = true | _ => True end → work_ok rm ovf cl true t'.
Proof.
  intros Hw Hidle [E1 E2 E3 E4 E5 E6] He Hpc Hr Hm Hst.
  assert (Hidle' : idle t') by (unfold idle, at_rest in *; by rewrite E1, E2, E3, E5). apply work_early; try done.
  - by apply idle_not_root.
  - unfold shape. destruct (t_top t') as [|a []| | | | | | | | | | | | | | | | | | | | | | |]; try done; by apply Hidle'.
  - by rewrite E6.
  - rewrite E6. intros Hrm Ha. destruct (Hm Hrm Ha) as [Ha0|?]; [|by right]. by apply (w_remark _ _ _ _ _ Hw).
  - by destruct (t_top t') as [|a []| | | | | | | | | | | | | | | | | | | | | | |].
Qed.

Lemma clock_remark ch s s1 t : s_phase s1 = s_phase s → _has_overflown s1 = _has_overflown s → in_remark s = true →
  has_aborted (regular_clock_call ch s1 t) = true → has_aborted t = true ∨ _has_overflown s = true.
Proof.
  intros Ep Eo Hr Ha. apply clock_flags in Ha as [?|[Hc|?]]; [by left| |right; congruence]. apply in_remark_spec in Hr. unfold concurrent in Hc. by rewrite Ep, Hr in Hc.
Qed.

Lemma clock_aborted ch s t : has_aborted t = true → has_aborted (regular_clock_call ch s t) = true.
Proof. destruct (clock_spec ch s t) as (l & f & -> & Hf). done. Qed.

(** The step takes a buffer, or the queue of thread [i], to scan. *)
Lemma ctl_scan_log s s' k t again stage objects stage' :
  ctl s → s_phase s ≠ RootScan → _tasks s !! k = Some t → idle t → t_top t = TSatb again stage →
  _tasks s' = <[k := set_scan (set_top t (TSatb again stage')) (Some (Buffer objects))]> (_tasks s) →
  s_phase s' = s_phase s → length (s_claimed s') = length (s_claimed s) → (∀ i, s_claimed s !! i = Some true → s_claimed s' !! i = Some true) →
  s_mutators s' = s_mutators s → _first_overflow_barrier_sync s' = _first_overflow_barrier_sync s →
  _second_overflow_barrier_sync s' = _second_overflow_barrier_sync s → _markStack s' = _markStack s → _has_overflown s' = _has_overflown s →
  match stage' with SProcessed _ => True | SEmpty i _ => in_remark s = true ∧ s_claimed s' !! i = Some true | _ => False end →
  (s_phase s = Remark → ∀ i, (i < length (s_mutators s))%nat → awaiting i t → s_claimed s' !! i = Some true ∨ awaiting i (set_top t (TSatb again stage'))) → ctl s'.
Proof.
  intros Hctl Hp Hk [(Hd & Hs & Hdr) Hi] Htop Hk' Ep El Hcl Em E1 E2 Est Eo Hst Haw. pose proof (c_work _ Hctl Hp k t Hk) as Hw.
  apply (ctl_top s s' k t (set_scan (set_top t (TSatb again stage')) (Some (Buffer objects)))); try done; rewrite ?Eo; try done; rewrite ?Em; try done.
  - by rewrite Htop.
  - intros _. rewrite !is_outside_spec. cbn. by rewrite Htop.
  - apply work_early; try done.
    + unfold root_scan. cbn. rewrite Hd. tauto.
    + unfold shape. cbn. by destruct stage'.
    + cbn. pose proof (w_region _ _ _ _ _ Hw) as Hr. rewrite Htop in Hr. by destruct again.
    + by apply (w_remark _ _ _ _ _ Hw).
    + cbn. by destruct stage'.
  - intros Hrm i Hlt Ha. destruct (Haw Hrm i Hlt Ha) as [?|?]; auto.
  - intros _ g _. right. right. by apply early_before.
Qed.

Definition satb_next (again rm : bool) (pc : top_pc) : Prop :=
  match pc with
  | TSatb a (SLoop | SEnd) => a = again
  | TSatb a (SThreads _) => a = again ∧ rm = true
  | TDrain => again = false
  | TFinalDrain => again = true
  | _ => False
  end.

Lemma satb_next_cases again rm pc : satb_next again rm pc →
  early pc = true ∧ match pc with TSatb _ (SProcessed _ | SEmpty _ _) | TRoot | TRootObjects _ => False | _ => True end ∧
  match pc with TSatb true _ | TFinalDrain => again = true | TClaimRead | TClaimCas _ | TSteal | TTerminate => False | _ => True end ∧
  match pc with TSatb _ (SThreads _) => rm = true | _ => True end.
Proof. destruct pc as [|[] []| | | | | | | | | | | | | | | | | | | | | | |]; cbn; try done; by intros [<- ?]. Qed.

Lemma ctl_satb_go s k t t' again stage pc :
  ctl s → s_phase s ≠ RootScan → _tasks s !! k = Some t → idle t → t_top t = TSatb again stage → same_work t t' →
  (has_aborted t = true → has_aborted t' = true) → (in_remark s = true → has_aborted t' = true → has_aborted t = true ∨ _has_overflown s = true) →
  satb_next again (in_remark s) pc →
  (s_phase s = Remark → ∀ i, (i < length (s_mutators s))%nat → awaiting i t → has_aborted t = false → s_claimed s !! i = Some true ∨ awaiting i (set_top t' pc)) →
  ctl (put_task s k (set_top t' pc)).
Proof.
  intros Hctl Hp Hk Hidle Htop Hsw Ha Hab (P1 & P2 & P3 & P4)%satb_next_cases Haw. pose proof (c_work _ Hctl Hp k t Hk) as Hw.
  pose proof (w_region _ _ _ _ _ Hw) as Hreg. rewrite Htop in Hreg. apply (ctl_early s k t (set_top t' pc)); try done; [by rewrite Htop|..].
  - apply (work_go _ _ _ (active s k) t); try done; [by destruct Hsw|]. cbn.
    assert (Hr : again = true → _curr_region (t_region t) = None ∨ has_aborted t' = true) by (intros ->; destruct Hreg; auto).
    destruct pc as [|[] []| | | | | | | | | | | | | | | | | | | | | | |]; try done; by apply Hr.
  - intros Hrm i Hi Haw0. right. destruct (has_aborted t) eqn:Eab; [right; left; by apply Ha|]. by apply Haw.
Qed.

(** The deallocation of a buffer and the emptying of a queue do not matter. *)
Lemma ctl_set_log s qs ms : ctl s → length ms = length (s_mutators s) → ctl (set_log s qs ms).
Proof.
  intros [C1 C2 C3 C4 C5 C6 C7] Hl. split; try done.
  - intros H. destruct (C6 H) as [B1 B2 [[]|[]]]; split; try done; [left|right]; split; done.
  - intros H. destruct (C7 H) as [M1 M2 M3]. split; cbn; rewrite ?Hl; done.
Qed.

Lemma awaiting_other i t again stage t' again' stage' :
  t_top t = TSatb again stage → has_aborted t = false → awaiting i t →
  (again = false → match stage with SStart | SLoop | SProcessed _ => True | SThreads ts | SEmpty _ ts => i ∈ ts | SEnd => False end →
   again' = false ∧ match stage' with SStart | SLoop | SProcessed _ => True | SThreads ts | SEmpty _ ts => i ∈ ts | SEnd => False end) →
  awaiting i (set_top t' (TSatb again' stage')).
Proof.
  intros Htop Ha [Haw|Haw] H; [congruence|]. rewrite Htop in Haw. destruct again; [done|].
  destruct H as [-> H]; [done|by destruct stage|]. right. cbn. by destruct stage'.
Qed.

Lemma ctl_step_satb s k t again stage ch s' :
  ctl s → s_phase s = Marking ∨ s_phase s = Remark → _tasks s !! k = Some t → idle t → t_top t = TSatb again stage →
  step_satb c ch k t again stage s = Some s' → ctl s'.
Proof.
  intros Hctl Hph Hk Hidle Htop. assert (Hp : s_phase s ≠ RootScan) by (destruct Hph; congruence). pose proof (c_work _ Hctl Hp k t Hk) as Hw.
  pose proof (w_stage _ _ _ _ _ Hw) as Hstage. rewrite Htop in Hstage.
  assert (Hnext : satb_next again (in_remark s) (if again then TFinalDrain else TDrain)) by by destruct again.
  assert (Hnoaw : ∀ i, match stage with SEnd | SThreads [] => True | _ => False end → awaiting i t → has_aborted t = false → False).
  { intros i Hst [Ha|Ha] Hna; [congruence|]. rewrite Htop in Ha. destruct again, stage as [| | |[]| |]; try done. by apply elem_of_nil in Ha. }
  destruct stage as [| |buf|[|i ts]|i ts|]; cbn [step_satb].
  - destruct (has_aborted t) eqn:Ea; intros [= <-].
    + apply (ctl_satb_go s k t t again SStart); try done; [tauto|]. intros _ i _ _ Hf. congruence.
    + apply (ctl_satb_go s k t (set_draining t true) again SStart); try done; [auto|]. intros _ i _ Haw _. right. by apply (awaiting_other i t again SStart).
  - destruct (has_aborted t) eqn:Ea; cbn [negb].
    { intros [= <-]. apply (ctl_satb_go s k t t again SLoop); try done; [tauto|]. intros _ i _ _ Hf. congruence. }
    destruct (SatbQueue.pop_completed_buffer (s_satb s)) as [[buf|] qs] eqn:Epop.
    + intros [= <-]. eapply (ctl_scan_log s _ k t again SLoop _ (SProcessed buf)); try done.
      intros _ i _ Haw. right. by apply (awaiting_other i t again SLoop).
    + destruct Hph as [Hm|Hm]; unfold concurrent; rewrite Hm; cbn [negb]; intros [= <-].
      * apply (ctl_satb_go s k t t again SLoop); try done; [tauto|]. congruence.
      * apply (ctl_satb_go s k t t again SLoop); try done; [tauto|split; [done|by apply in_remark_spec]|]. intros _ i Hi Haw _. right.
        apply (awaiting_other i t again SLoop); try done. intros -> _. split; [done|]. apply elem_of_seq. lia.
  - intros [= <-]. set (s1 := set_log s _ _). assert (Hc1 : ctl s1) by by apply ctl_set_log.
    apply (ctl_satb_go s1 k t (regular_clock_call ch s1 t) again (SProcessed buf)); try done; [apply clock_work|apply clock_aborted|intros Hr; by apply (clock_remark ch s1 s1)|].
    intros _ i _ Haw Hna. right. by apply (awaiting_other i t again (SProcessed buf)).
  - intros [= <-]. apply (ctl_satb_go s k t t again (SThreads [])); try done; [tauto|]. intros _ i _ Haw Hna. by destruct (Hnoaw i).
  - destruct (negb (is_serial c s) && default true (s_claimed s !! i)) eqn:Eskip.
    + intros [= <-]. apply (ctl_satb_go s k t t again (SThreads (i :: ts))); try done; [tauto|]. intros Hrm j Hj Haw Hna. apply andb_true_iff in Eskip as [_ Ecl].
      destruct (decide (j = i)) as [->|Hne].
      * left. destruct (lookup_lt_is_Some_2 (s_claimed s) i) as [b Eb]; [rewrite (m_length _ (c_pause _ Hctl Hrm)); done|].
        rewrite Eb in *. cbn in Ecl. by rewrite Ecl.
      * right. apply (awaiting_other j t again (SThreads (i :: ts))); try done. by intros -> [?|?]%elem_of_cons.
    + destruct (s_mutators s !! i) as [m|] eqn:Em; cbn [mbind option_bind]; [|done]. intros [= <-]. assert (Hrm : s_phase s = Remark) by by apply in_remark_spec.
      assert (Hlt : (i < length (s_claimed s))%nat) by (rewrite (m_length _ (c_pause _ Hctl Hrm)); by eapply lookup_lt_Some).
      eapply (ctl_scan_log s _ k t again (SThreads (i :: ts)) _ (SEmpty i ts)); try done; cbn.
      * by rewrite length_insert.
      * intros j Hj. destruct (decide (i = j)) as [->|Hne]; [by rewrite list_lookup_insert_eq|by rewrite list_lookup_insert_ne].
      * split; [done|]. by rewrite list_lookup_insert_eq.
      * intros _ j Hj Haw. destruct (decide (i = j)) as [->|Hne]; [left; by rewrite list_lookup_insert_eq|right].
        destruct (has_aborted t) eqn:Ea; [by left|]. apply (awaiting_other j t again (SThreads (i :: ts))); try done. by intros -> [?|?]%elem_of_cons.
  - destruct (s_mutators s !! i) as [m|] eqn:Em; cbn [mbind option_bind]; [|done]. intros [= <-]. set (s1 := set_log s _ _).
    assert (Hc1 : ctl s1) by (apply ctl_set_log; [done|apply length_insert]).
    apply (ctl_satb_go s1 k t t again (SEmpty i ts)); try done; [tauto|split; [done|apply Hstage]|]. intros _ j _ Haw Hna. right. by apply (awaiting_other j t again (SEmpty i ts)).
  - intros [= <-]. apply (ctl_satb_go s k t (set_limits (set_draining t false) (decrease_limits (t_limits t))) again SEnd); try done; [tauto|].
    intros _ i _ Haw Hna. by destruct (Hnoaw i).
Qed.

(** ** Stealing, and the queues of the other tasks *)

Lemma count_tops p l l' : (∀ t t', t_top t' = t_top t → p t' = p t) → t_top <$> l' = t_top <$> l → count p l' = count p l.
Proof.
  intros Hp. unfold count. revert l'. induction l as [|t l IH]; intros [|t' l'] E; cbn in E; try done. injection E as Et E. specialize (IH l' E).
  cbn [List.filter]. rewrite (Hp t t' Et). destruct (p t); cbn [length]; lia.
Qed.

Lemma tops_lookup (l l' : list CMTask) k t' : t_top <$> l' = t_top <$> l → l' !! k = Some t' → ∃ t, l !! k = Some t ∧ t_top t' = t_top t.
Proof.
  intros E Hk. assert (H : (t_top <$> l') !! k = Some (t_top t')) by (by rewrite list_lookup_fmap, Hk). rewrite E, list_lookup_fmap in H.
  destruct (l !! k) as [t|]; [|done]. injection H as H. eauto.
Qed.

Lemma barriers_tops s s' :
  barriers_ok s → t_top <$> _tasks s' = t_top <$> _tasks s → _first_overflow_barrier_sync s' = _first_overflow_barrier_sync s →
  _second_overflow_barrier_sync s' = _second_overflow_barrier_sync s → _markStack s' = _markStack s → _global_finger s' = _global_finger s → barriers_ok s'.
Proof.
  intros [B1 B2 Br] Et E1 E2 Es Ef. assert (C1 : count in_first (_tasks s') = count in_first (_tasks s)) by (apply count_tops; [|done]; intros ? ? E; unfold in_first; by rewrite E).
  assert (C2 : count in_second (_tasks s') = count in_second (_tasks s)) by (apply count_tops; [|done]; intros ? ? E; unfold in_second; by rewrite E).
  split; rewrite ?E1, ?E2; try done. destruct Br as [[G1 G2 G3 G4 G5]|[P1 P2 P3 P4 P5 P6]]; [left|right]; split; rewrite ?E1, ?E2, ?C1, ?C2; try done.
  - intros k t Hk. destruct (tops_lookup _ _ _ _ Et Hk) as (u & Hu & E). unfold between. rewrite E. by apply (G3 k).
  - intros k t Hk. destruct (tops_lookup _ _ _ _ Et Hk) as (u & Hu & E). rewrite E, Es. by apply (G5 k).
  - intros k t Hk Hlt. destruct (tops_lookup _ _ _ _ Et Hk) as (u & Hu & E). unfold in_first, between, in_second. rewrite E. by apply (P2 k).
  - intros k t Hk Hr. destruct (tops_lookup _ _ _ _ Et Hk) as (u & Hu & E). rewrite E in Hr. by apply (P5 k u).
  - intros t Hk. destruct (tops_lookup _ _ _ _ Et Hk) as (u & Hu & E). rewrite E, Es, Ef. by apply P6.
Qed.

Lemma insert_tops (l : list CMTask) k t t' : l !! k = Some t → t_top t' = t_top t → t_top <$> <[k := t']> l = t_top <$> l.
Proof. intros Hk Et. rewrite list_fmap_insert, Et. apply list_insert_id. by rewrite list_lookup_fmap, Hk. Qed.

Lemma ctl_victim s j v q obj : ctl s → s_phase s ≠ RootScan → _tasks s !! j = Some v → _task_queue v = obj :: q → ctl (put_task s j (set_queue v q)).
Proof.
  intros Hctl Hp Hj Hq. pose proof (c_work _ Hctl Hp j v Hj) as Hw. apply (ctl_step s _ j v (set_queue v q)); try done.
  - apply (c_overflow _ Hctl).
  - destruct Hw as [W1 W2 W3 W4 W5 W6 W7 W8 W9]. split; try done. cbn. rewrite Hq in W5. destruct (t_top v) as [| | | | | | | | | | | | |[]| | | | | | | | | | |]; try done; destruct W5; try done; try (by left); try (by right). 
  - intros Hm. apply (barriers_tops s); try done; [by apply (c_barriers _ Hctl)|]. by apply (insert_tops _ _ v).
  - intros Hm. apply (remark_step s _ j v (set_queue v q)); try done; [by apply (c_pause _ Hctl)|auto|auto].
Qed.

(** ** The barriers *)

Lemma barrier_enter_spec b m N :
  entered b m → _n_workers b = N → m < N →
  _n_workers (barrier_enter b) = N ∧ _should_reset (barrier_enter b) = (m + 1 =? N) ∧ entered (barrier_enter b) (if m + 1 =? N then 0 else m + 1).
Proof.
  unfold entered, barrier_enter. intros -> Hn Hlt. destruct (_should_reset b) eqn:E; cbn [_n_workers _n_completed _should_reset]; rewrite Hn, ?E.
  - destruct (0 + 1 =? N); done.
  - destruct (_n_completed b + 1 =? N); done.
Qed.

Lemma barrier_closed b m N : entered b m → _n_workers b = N → 0 < m < N → barrier_open b = false.
Proof. unfold entered, barrier_open. intros -> -> Hm. destruct (_should_reset b); [lia|]. apply Z.eqb_neq. lia. Qed.

Lemma count_zero p l : (∀ k t, l !! k = Some t → p t = false) → count p l = 0.
Proof.
  unfold count. induction l as [|t l IH]; intros H; [done|]. cbn [List.filter]. rewrite (H 0%nat t) by done. apply IH. intros k u Hk. by apply (H (S k)).
Qed.

Lemma count_bound p l : ∀ n, (∀ k t, l !! k = Some t → (n <= k)%nat → p t = false) → count p l <= Z.of_nat n.
Proof.
  unfold count. induction l as [|t l IH]; intros n H; [cbn; lia|]. cbn [List.filter]. destruct n as [|n].
  - rewrite (H 0%nat t) by (done || lia). apply IH. intros k u Hk _. apply (H (S k)); [done|lia].
  - specialize (IH n (λ k u Hk Hle, H (S k) u Hk ltac:(lia))). destruct (p t); cbn [length]; lia.
Qed.

Lemma count_full p l : ∀ n, (∀ k t, l !! k = Some t → (n <= k)%nat → p t = false) → count p l = Z.of_nat n → ∀ k t, l !! k = Some t → (k < n)%nat → p t = true.
Proof.
  induction l as [|u l IH]; intros n H Hc k t Hk Hlt; [done|]. destruct n as [|n]; [lia|].
  assert (H' : ∀ j v, l !! j = Some v → (n <= j)%nat → p v = false) by (intros j v Hj Hle; apply (H (S j)); [done|lia]).
  pose proof (count_bound p l n H') as Hb. unfold count in *. cbn [List.filter] in Hc. destruct (p u) eqn:Eu; cbn [length] in Hc; [|lia].
  destruct k as [|k]; [injection Hk as <-; done|]. apply (IH n H' ltac:(lia) k); [done|lia].
Qed.

Lemma inactive_top s k t : ctl s → s_phase s = Marking → _tasks s !! k = Some t → (n_marking c <= k)%nat → t_top t = TDone.
Proof.
  intros Hctl Hm Hk Hle. apply (w_inactive _ _ _ _ _ (c_work _ Hctl ltac:(congruence) k t Hk)). unfold active, n_active, in_remark. rewrite Hm.
  apply bool_decide_eq_false. lia.
Qed.

Lemma barriers_enter_first s k t t' :
  ctl s → s_phase s = Marking → _tasks s !! k = Some t → t_top t = TEnter1 → t_top t' = TWait1 →
  barriers_ok (put_task (set_barriers s (barrier_enter (_first_overflow_barrier_sync s)) (_second_overflow_barrier_sync s)) k t').
Proof.
  intros Hctl Hm Hk Ht Ht'. destruct (c_barriers _ Hctl Hm) as [B1 B2 Br]. destruct (active_of s k t Hctl ltac:(congruence) Hk ltac:(congruence)) as [_ Hlt]. specialize (Hlt Hm).
  destruct Br as [[G1 G2 G3 G4 G5]|[_ P2 _ _ _ _]]; [|specialize (P2 k t Hk Hlt); unfold in_first, between, in_second in P2; by rewrite Ht in P2].
  destruct (barrier_enter_spec _ _ _ G1 B1 G2) as (H1 & H2 & H3). set (s' := put_task _ _ _).
  assert (Hc : count in_first (_tasks s') = count in_first (_tasks s) + 1).
  { cbn. rewrite (count_insert _ _ _ t) by done. unfold in_first at 2 3. rewrite Ht, Ht'. cbn. lia. }
  assert (Hbet : ∀ j u, _tasks s' !! j = Some u → between u = false).
  { intros j u Hj. apply insert_lookup_cases in Hj as [[-> _]|[_ Hj]]; [unfold between; by rewrite Ht'|by apply (G3 j)]. }
  assert (Hovf : ∀ j u, _tasks s' !! j = Some u → match t_top u with TEnter1 | TWait1 => _overflow (_markStack s) = true | _ => True end).
  { intros j u Hj. apply insert_lookup_cases in Hj as [[-> _]|[_ Hj]]; [|by apply (G5 j)]. rewrite Ht'. specialize (G5 k t Hk). by rewrite Ht in G5. }
  split; try done. destruct (Z.eqb_spec (count in_first (_tasks s) + 1) (Z.of_nat (n_marking c))) as [Hfull|Hnot]; [right|left].
  - assert (Hin : ∀ j u, _tasks s' !! j = Some u → (n_marking c <= j)%nat → t_top u = TDone).
    { intros j u Hj Hle. apply insert_lookup_cases in Hj as [[_ ->]|[_ Hj]]; [lia|]. by apply (inactive_top s j). }
    assert (Hall : ∀ j u, _tasks s' !! j = Some u → (j < n_marking c)%nat → in_first u = true).
    { apply count_full; [|lia]. intros j u Hj Hle. unfold in_first. by rewrite (Hin j u). }
    assert (Hz : count in_second (_tasks s') = 0).
    { apply count_zero. intros j u Hj. destruct (decide (j < n_marking c)%nat) as [Hl|Hl]; [specialize (Hall j u Hj Hl)|unfold in_second; rewrite (Hin j u) by (done || lia); done].
      unfold in_first, in_second in *. by destruct (t_top u). }
    destruct (c_marking _ Hctl) as [Hpos _]. split; rewrite ?Hz; try done; [|lia|..].
    + intros j u Hj Hl. by rewrite (Hall j u Hj Hl).
    + intros j u Hj Hr. specialize (Hbet j u Hj). unfold between in Hbet. by rewrite Hr in Hbet.
    + intros u Hj. specialize (Hall 0%nat u Hj ltac:(lia)). specialize (Hovf 0%nat u Hj). unfold in_first in Hall. by destruct (t_top u).
  - split; try done; rewrite Hc; [done|lia].
Qed.

Lemma barriers_between s s' k t t' :
  ctl s → s_phase s = Marking → _tasks s !! k = Some t → between t = true ∨ in_first t = true ∧ barrier_open (_first_overflow_barrier_sync s) = true →
  t_top <$> _tasks s' = <[k := t_top t']> (t_top <$> _tasks s) → between t' = true → (t_top t' = TReset → k = 0%nat) →
  _first_overflow_barrier_sync s' = _first_overflow_barrier_sync s → _second_overflow_barrier_sync s' = _second_overflow_barrier_sync s →
  (k = 0%nat → match t_top t' with TReset => _overflow (_markStack s') = true | _ => _global_finger s' = _heap_start c end) →
  (k ≠ 0%nat → _markStack s' = _markStack s ∧ _global_finger s' = _global_finger s) → passing s ∧ barriers_ok s'.
Proof.
  intros Hctl Hm Hk Hbt Htops Hb' Hr E1 E2 Hd1 Hd2. destruct (c_barriers _ Hctl Hm) as [B1 B2 Br].
  assert (Hpass : passing s).
  { destruct Br as [[G1 G2 G3 G4 G5]|?]; [|done]. destruct Hbt as [Hbt|[Hf Hopen]]; [by rewrite (G3 k t Hk) in Hbt|].
    rewrite (barrier_closed _ _ _ G1 B1) in Hopen; [done|]. split; [by apply (count_pos _ _ k t)|done]. }
  split; [done|]. destruct Hpass as [P1 P2 P3 P4 P5 P6].
  assert (Hnew : ∀ j u, _tasks s' !! j = Some u → j = k ∧ t_top u = t_top t' ∨ j ≠ k ∧ ∃ v, _tasks s !! j = Some v ∧ t_top u = t_top v).
  { intros j u Hj. assert (E : (t_top <$> _tasks s') !! j = Some (t_top u)) by (by rewrite list_lookup_fmap, Hj). rewrite Htops in E.
    apply insert_lookup_cases in E as [[-> ->]|[Hne E]]; [by left|right]. rewrite list_lookup_fmap in E. destruct (_tasks s !! j) as [v|]; [|done]. injection E as E. eauto. }
  assert (Hc : count in_second (_tasks s') = count in_second (_tasks s)).
  { rewrite (count_tops in_second (<[k := t']> (_tasks s)) (_tasks s')), (count_insert _ _ _ t) by (done || (intros ? ? E; unfold in_second; by rewrite E) || by rewrite list_fmap_insert).
    assert (in_second t = false ∧ in_second t' = false) as [-> ->]; [|cbn; lia]. unfold between, in_first, in_second in *.
    split; [destruct Hbt as [Hbt|[Hbt _]]|]; [by destruct (t_top t)|by destruct (t_top t)|by destruct (t_top t')]. }
  split; rewrite ?E1, ?E2; try done. right. split; rewrite ?E1, ?E2, ?Hc; try done.
  - intros j u Hj Hl. unfold in_first, between, in_second in *. destruct (Hnew j u Hj) as [[-> ->]|[_ (v & Hv & ->)]]; [by destruct (t_top t')|by apply (P2 j v)].
  - intros j u Hj Hrs. destruct (Hnew j u Hj) as [[-> E]|[_ (v & Hv & E)]]; rewrite E in Hrs; [auto|by apply (P5 j v)].
  - intros u Hj. destruct (Hnew _ u Hj) as [[<- E]|[Hne (v & Hv & E)]]; rewrite E.
    + specialize (Hd1 eq_refl). unfold between in Hb'. by destruct (t_top t').
    + destruct (Hd2 (not_eq_sym Hne)) as [-> ->]. by apply P6.
Qed.

Lemma barriers_enter_second s k t t' :
  ctl s → s_phase s = Marking → _tasks s !! k = Some t → t_top t = TEnter2 → t_top t' = TWait2 →
  barriers_ok (put_task (set_barriers s (_first_overflow_barrier_sync s) (barrier_enter (_second_overflow_barrier_sync s))) k t').
Proof.
  intros Hctl Hm Hk Ht Ht'. destruct (c_barriers _ Hctl Hm) as [B1 B2 Br]. destruct (active_of s k t Hctl ltac:(congruence) Hk ltac:(congruence)) as [_ Hlt]. specialize (Hlt Hm).
  destruct Br as [[_ _ G3 _ _]|[P1 P2 P3 P4 P5 P6]]; [specialize (G3 k t Hk); unfold between in G3; by rewrite Ht in G3|].
  destruct (barrier_enter_spec _ _ _ P3 B2 P4) as (H1 & H2 & H3). set (s' := put_task _ _ _).
  assert (Hc : count in_second (_tasks s') = count in_second (_tasks s) + 1).
  { cbn. rewrite (count_insert _ _ _ t) by done. unfold in_second at 2 3. rewrite Ht, Ht'. cbn. lia. }
  assert (Hin : ∀ j u, _tasks s' !! j = Some u → (n_marking c <= j)%nat → t_top u = TDone).
  { intros j u Hj Hle. apply insert_lookup_cases in Hj as [[_ ->]|[_ Hj]]; [lia|]. by apply (inactive_top s j). }
  split; try done. destruct (Z.eqb_spec (count in_second (_tasks s) + 1) (Z.of_nat (n_marking c))) as [Hfull|Hnot]; [left|right].
  - assert (Hall : ∀ j u, _tasks s' !! j = Some u → in_second u = true ∨ t_top u = TDone).
    { intros j u Hj. destruct (decide (j < n_marking c)%nat) as [Hl|Hl]; [left|right; apply (Hin j); [done|lia]].
      apply (count_full in_second (_tasks s') (n_marking c)) with j; try done; [|lia]. intros i v Hi Hle. unfold in_second. by rewrite (Hin i v). }
    assert (Htop : ∀ j u, _tasks s' !! j = Some u → t_top u = TWait2 ∨ t_top u = TDone).
    { intros j u Hj. destruct (Hall j u Hj) as [Hs|?]; [left|by right]. unfold in_second in Hs. by destruct (t_top u). }
    assert (Hz : count in_first (_tasks s') = 0) by (apply count_zero; intros j u Hj; unfold in_first; by destruct (Htop j u Hj) as [-> | ->]).
    destruct (c_marking _ Hctl) as [Hpos _]. split; rewrite ?Hz; try done; [|lia|..].
    + unfold entered. cbn. by rewrite P1.
    + intros j u Hj. unfold between. by destruct (Htop j u Hj) as [-> | ->].
    + intros j u Hj. by destruct (Htop j u Hj) as [-> | ->].
  - split; rewrite ?Hc; try done; [|lia|..].
    + intros j u Hj Hl. apply insert_lookup_cases in Hj as [[-> _]|[_ Hj]]; [|by apply (P2 j)]. unfold in_second. rewrite Ht'. by rewrite orb_true_r.
    + intros j u Hj Hr. apply insert_lookup_cases in Hj as [[-> _]|[_ Hj]]; [congruence|by apply (P5 j u)].
    + intros u Hj. apply insert_lookup_cases in Hj as [[-> E]|[_ Hj]]; [|by apply P6]. rewrite Ht'. rewrite <- E in Hk. specialize (P6 t Hk). by rewrite Ht in P6.
Qed.

Lemma barriers_leave_second s k t t' :
  ctl s → s_phase s = Marking → _tasks s !! k = Some t → t_top t = TWait2 → barrier_open (_second_overflow_barrier_sync s) = true → t_top t' = TWorkEnd →
  barriers_ok (put_task s k t').
Proof.
  intros Hctl Hm Hk Ht Hopen Ht'. destruct (c_barriers _ Hctl Hm) as [B1 B2 Br].
  destruct Br as [[G1 G2 G3 G4 G5]|[P1 P2 P3 P4 P5 P6]].
  - assert (Hc : count in_first (_tasks (put_task s k t')) = count in_first (_tasks s)).
    { cbn. rewrite (count_insert _ _ _ t) by done. unfold in_first at 2 3. rewrite Ht, Ht'. cbn. lia. }
    split; try done. left. split; rewrite ?Hc; try done.
    + intros j u Hj. apply insert_lookup_cases in Hj as [[-> _]|[_ Hj]]; [unfold between; by rewrite Ht'|by apply (G3 j)].
    + intros j u Hj. apply insert_lookup_cases in Hj as [[-> _]|[_ Hj]]; [by rewrite Ht'|by apply (G5 j)].
  - rewrite (barrier_closed _ _ _ P3 B2) in Hopen; [done|]. split; [|done]. apply (count_pos _ _ k t); [done|]. unfold in_second. by rewrite Ht.
Qed.

(** A step of the overflow protocol. *)
Definition late (pc : top_pc) : bool := match pc with TStepEnd | TEnter1 | TWait1 | TReset | TClear | TEnter2 | TWait2 | TWorkEnd => true | _ => false end.

Lemma ctl_late s s' k t t' :
  ctl s → s_phase s ≠ RootScan → _tasks s !! k = Some t → late (t_top t) = true → late (t_top t') = true → has_aborted t' = has_aborted t →
  _tasks s' = <[k := t']> (_tasks s) → s_phase s' = s_phase s → s_claimed s' = s_claimed s → s_mutators s' = s_mutators s → _markStack s' = _markStack s →
  _global_finger s' = _global_finger s → _has_overflown s' = _has_overflown s →
  (s_phase s = Marking → barriers_ok s') → work_ok (in_remark s) (_has_overflown s) (s_claimed s) true t' → ctl s'.
Proof.
  intros Hctl Hp Hk Hl Hl' Ha Hk' Ep Ec Em Es Ef Eo Hb Hw. assert (Hnd : t_top t ≠ TDone) by by destruct (t_top t).
  destruct (active_of s k t Hctl Hp Hk Hnd) as [Hact _]. apply (ctl_step s s' k t t'); rewrite ?Ec, ?Eo, ?Es, ?Hact; try done; [apply (c_overflow _ Hctl)|].
  intros Hm. apply (remark_step s s' k t t'); rewrite ?Ec, ?Eo, ?Em; try done; [by apply (c_pause _ Hctl)|..].
  - intros i _ [?|Haw]; [right; right; left; congruence|]. by destruct (t_top t).
  - intros g [Hg|Hbf]; right; [left|right].
    + unfold global_holds, out_of_regions in *. by rewrite Es, Ef.
    + unfold before in *. destruct (t_top t); try done; destruct (t_top t'); try done; congruence.
Qed.

Lemma work_late rm ovf cl t :
  late (t_top t) = true → idle t →
  match t_top t with
  | TEnter2 | TWait2 => _curr_region (t_region t) = None
  | TStepEnd => _curr_region (t_region t) = None ∨ has_aborted t = true
  | TWorkEnd => _curr_region (t_region t) = None ∨ has_aborted t = true ∧ rm = false
  | _ => True
  end →
  (rm = true → has_aborted t = true → _curr_region (t_region t) = None ∨ ovf = true) → has_aborted t = true ∨ _task_queue t = [] →
  (rm = true → match t_top t with TEnter1 | TWait1 | TClear | TEnter2 | TWait2 => ovf = true | TReset => False | _ => True end) →
  work_ok rm ovf cl true t.
Proof.
  intros Hl Hidle Hr Hm Hq Ho. split; try done; try (by destruct (t_top t)); [by apply idle_not_root|]. unfold shape. by destruct (t_top t).
Qed.

Lemma work_empty_queue rm ovf cl act t : work_ok rm ovf cl act t → work_ok rm ovf cl act (set_queue t []).
Proof.
  intros [W1 W2 W3 W4 W5 W6 W7 W8 W9]. split; try done. cbn. destruct (t_top t) as [| | | | | | | | | | | | |[]| | | | | | | | | | |]; try done; (by right) || by left.
Qed.

Lemma ctl_TReset s k t :
  ctl s → s_phase s = Marking → _tasks s !! k = Some t → idle t → t_top t = TReset →
  ctl (put_task (reset_marking_state c s) k (set_top (set_queue t []) TClear)).
Proof.
  intros Hctl Hm Hk Hidle Htop. pose proof (c_work _ Hctl ltac:(congruence)) as Hwork. set (t' := set_top (set_queue t []) TClear). set (s' := put_task _ _ _).
  assert (Hbt : between t = true) by (unfold between; by rewrite Htop).
  destruct (barriers_between s s' k t t') as [Hpass Hb']; try done; [by left|cbn; rewrite list_fmap_insert; f_equal; by rewrite <- list_fmap_compose|..].
  { intros Hne. destruct Hne. destruct (c_barriers _ Hctl Hm) as [_ _ [[_ _ G3 _ _]|[_ _ _ _ P5 _]]]; [by rewrite (G3 k t Hk) in Hbt|by apply (P5 k t)]. }
  destruct (active_of s k t Hctl ltac:(congruence) Hk ltac:(congruence)) as [Hact _]. assert (Hrm : in_remark s = false) by (unfold in_remark; by rewrite Hm).
  destruct Hctl as [C1 C2 C3 C4 C5 C6 C7]. split; try done; cbn; rewrite ?length_insert, ?length_fmap; try done; [congruence| |congruence].
  intros _ j u Hj. change (in_remark s') with (in_remark s). change (active s' j) with (active s j). apply insert_lookup_cases in Hj as [[-> ->]|[_ Hj]].
  - rewrite Hact, Hrm. apply work_late; try done; by right.
  - rewrite list_lookup_fmap in Hj. destruct (_tasks s !! j) as [v|] eqn:Ev; [|done]. injection Hj as <-. apply work_empty_queue.
    eapply work_mono; [|done|by apply Hwork]. by rewrite Hrm.
Qed.

Lemma ctl_step_late s k t ch s' :
  ctl s → s_phase s = Marking ∨ s_phase s = Remark → _tasks s !! k = Some t → idle t → late (t_top t) = true → t_top t ≠ TWorkEnd →
  step_top c ch k t s = Some s' → ctl s'.
Proof.
  intros Hctl Hph Hk Hidle Hlate Hne. assert (Hp : s_phase s ≠ RootScan) by (destruct Hph; congruence). pose proof (c_work _ Hctl Hp k t Hk) as Hw.
  destruct Hw as [W1 W2 W3 W4 W5 W6 W7 W8 W9]. unfold step_top.
  assert (Hser : s_phase s = Marking → is_serial c s = false) by (intros Hm; unfold is_serial, concurrent; by rewrite Hm).
  destruct (t_top t) eqn:Htop; try done.
  - destruct (has_aborted t && _has_overflown s) eqn:Eab; intros [= <-].
    + apply andb_true_iff in Eab as [Ea Eo]. assert (Hw' : ∀ pc, pc = TEnter1 ∨ pc = TClear → work_ok (in_remark s) (_has_overflown s) (s_claimed s) true (set_top t pc)).
      { intros pc [-> | ->]; apply work_late; try done; auto. }
      destruct (is_serial c s) eqn:Es.
      * apply (ctl_late s _ k t (set_top t TClear)); try done; [by rewrite Htop|intros Hm; by specialize (Hser Hm)].
      * destruct Hph as [Hm|Hm].
        -- apply (ctl_top s _ k t (set_top t TEnter1)); try done; first [by rewrite Htop|intros _; rewrite !is_outside_spec; cbn; by rewrite Htop|congruence|apply Hw'; auto].
        -- apply (ctl_late s _ k t (set_top t TEnter1)); try done; first [by rewrite Htop|congruence|apply Hw'; auto].
    + assert (Hw' : work_ok (in_remark s) (_has_overflown s) (s_claimed s) true (set_top t TWorkEnd)).
      { apply work_late; try done. cbn. destruct (in_remark s) eqn:Er; [left|by destruct W3; auto]. destruct W3 as [?|Ha]; [done|]. rewrite Ha in Eab. destruct (W4 eq_refl Ha); [done|].
        cbn in Eab. congruence. }
      destruct Hph as [Hm|Hm].
      * apply (ctl_top s _ k t (set_top t TWorkEnd)); try done; [by rewrite Htop|intros _; rewrite !is_outside_spec; cbn; by rewrite Htop|congruence|congruence].
      * apply (ctl_late s _ k t (set_top t TWorkEnd)); try done; [by rewrite Htop|congruence].
  - intros [= <-]. apply (ctl_late s _ k t (set_top t TWait1)); try done; [by rewrite Htop|].
    intros Hm. by apply (barriers_enter_first s k t).
  - destruct (barrier_open (_first_overflow_barrier_sync s)) eqn:Eopen; [|done]. intros [= <-]. set (pc := if concurrent s && bool_decide (k = 0%nat) then TReset else TClear).
    assert (Hpc : pc = TReset ∧ s_phase s = Marking ∧ k = 0%nat ∨ pc = TClear ∧ (s_phase s = Marking → k ≠ 0%nat)).
    { subst pc. unfold concurrent. destruct Hph as [Hm|Hm]; rewrite Hm; cbn; [|right; split; [done|congruence]]. case_bool_decide; [left|right]; done. }
    apply (ctl_late s _ k t (set_top t pc)); try done; [by rewrite Htop|cbn; by destruct Hpc as [[-> _]|[-> _]]|..].
    + intros Hm. destruct (barriers_between s (put_task s k (set_top t pc)) k t (set_top t pc)) as [_ ?]; try done.
      * right. split; [unfold in_first; by rewrite Htop|done].
      * cbn. by rewrite list_fmap_insert.
      * unfold between. cbn. by destruct Hpc as [[-> _]|[-> _]].
      * cbn. destruct Hpc as [(_ & _ & ?)|[-> _]]; done.
      * intros ->. cbn. destruct Hpc as [(-> & _ & _)|[_ Hn]]; [|by destruct (Hn Hm)]. destruct (c_barriers _ Hctl Hm) as [B1 _ [[G1 G2 G3 G4 G5]|[_ _ _ _ _ P6]]].
        -- specialize (G5 0%nat t Hk). by rewrite Htop in G5.
        -- specialize (P6 t Hk). by rewrite Htop in P6.
    + apply work_late; try done; cbn; try (by destruct Hpc as [[-> _]|[-> _]]). intros Hr. apply in_remark_spec in Hr. destruct Hpc as [(_ & ? & _)|[-> _]]; [congruence|].
      apply W7. by apply in_remark_spec.
  - cbn [_tasks reset_marking_state set_tasks set_global_finger set_has_overflown set_stack]. rewrite list_lookup_fmap, Hk. cbn [fmap option_fmap option_map mbind option_bind].
    intros [= <-]. destruct Hph as [Hm|Hm]; [by apply ctl_TReset|]. apply in_remark_spec in Hm. by destruct (W7 Hm).
  - intros [= <-]. destruct Hph as [Hm|Hm].
    + rewrite Hser by done. set (t' := set_top (clear_region_fields t) TEnter2). apply (ctl_late s _ k t t'); try done; [by rewrite Htop| |apply work_late; try done; by left].
      intros _. assert (Hbt : between t = true) by (unfold between; by rewrite Htop).
      destruct (barriers_between s (put_task s k t') k t t') as [_ ?]; try done; [by left|cbn; by rewrite list_fmap_insert|].
      intros ->. cbn. destruct (c_barriers _ Hctl Hm) as [_ _ [[_ _ G3 _ _]|[_ _ _ _ _ P6]]]; [by rewrite (G3 0%nat t Hk) in Hbt|]. specialize (P6 t Hk). by rewrite Htop in P6.
    + set (pc := if is_serial c s then TWorkEnd else TEnter2). apply (ctl_late s _ k t (set_top (clear_region_fields t) pc)); try done; [by rewrite Htop|cbn; subst pc; by destruct (is_serial c s)|congruence|].
      apply work_late; try done; cbn; subst pc; try (by destruct (is_serial c s)); [destruct (is_serial c s); [by left|done]|intros _ _; by left].
  - intros [= <-]. apply (ctl_late s _ k t (set_top t TWait2)); try done; [by rewrite Htop|].
    intros Hm. by apply (barriers_enter_second s k t).
  - destruct (barrier_open (_second_overflow_barrier_sync s)) eqn:Eopen; [|done]. intros [= <-]. apply (ctl_late s _ k t (set_top t TWorkEnd)); try done; [by rewrite Htop| |].
    + intros Hm. by apply (barriers_leave_second s k t).
    + apply work_late; try done. cbn. by left.
Qed.

Lemma ctl_TGuarantee s k t g :
  ctl s → s_phase s = Marking ∨ s_phase s = Remark → _tasks s !! k = Some t → idle t → t_top t = TGuarantee g → holds c s t g = true →
  ctl (put_task s k (set_top t (after_guarantee g))).
Proof.
  intros Hctl Hph Hk Hidle Htop Hh. assert (Hp : s_phase s ≠ RootScan) by (destruct Hph; congruence). destruct (c_work _ Hctl Hp k t Hk) as [W1 W2 W3 W4 W5 W6 W7 W8 W9].
  rewrite Htop in W3, W5. destruct (active_of s k t Hctl Hp Hk ltac:(congruence)) as [Hact _]. apply (ctl_go s k t); try done; try (by rewrite Htop); try (by destruct g).
  - destruct g; split; try done; cbn; try (by left); try (by right). apply Z.eqb_eq in Hh. unfold queue_size in Hh. destruct (_task_queue t); [done|cbn in Hh; lia].
  - intros _ i _ [?|Haw]; [right; right; by left|by rewrite Htop in Haw].
  - intros _ g' [?|Hb]; [tauto|]. right. unfold before in Hb. rewrite Htop in Hb. destruct (decide (g' = g)) as [->|Hne].
    + left. destruct g; try done; cbn in *.
      * unfold stack_isEmpty, stack_size in Hh. destruct (_base (_markStack s)); done.
      * by destruct (_overflow _).
    + right. destruct g, g'; cbn in *; try done; lia.
Qed.

Lemma ctl_TWorkEnd s k t ch s' :
  ctl s → s_phase s = Marking ∨ s_phase s = Remark → _tasks s !! k = Some t → idle t → t_top t = TWorkEnd → step_top c ch k t s = Some s' → ctl s'.
Proof.
  intros Hctl Hph Hk Hidle Htop. assert (Hp : s_phase s ≠ RootScan) by (destruct Hph; congruence). destruct (c_work _ Hctl Hp k t Hk) as [W1 W2 W3 W4 W5 W6 W7 W8 W9].
  rewrite Htop in W3, W5. destruct (active_of s k t Hctl Hp Hk ltac:(congruence)) as [Hact _]. unfold step_top. rewrite Htop. destruct Hph as [Hm|Hm]; unfold concurrent; rewrite Hm.
  - assert (Hrm : in_remark s = false) by (unfold in_remark; by rewrite Hm). intros [= <-]. apply (ctl_top s _ k t (set_top t (if has_aborted t then TBegin else TDone))); try done; try congruence.
    + intros _. rewrite !is_outside_spec. rewrite Htop. cbn. by destruct (has_aborted t).
    + rewrite Hrm. destruct (has_aborted t) eqn:Ea; split; try done; cbn.
      * by destruct W3 as [?|[? _]].
      * destruct W5 as [?|?]; [done|by left].
  - assert (Hrm : in_remark s = true) by (unfold in_remark; by rewrite Hm). rewrite Hrm in W3, W4. intros [= <-]. set (pc := if has_aborted t && negb (_has_overflown s) then TBegin else TDone).
    assert (Hreg : _curr_region (t_region t) = None) by (destruct W3 as [?|[_ ?]]; done).
    apply (ctl_go s k t (set_top t pc)); try done; try (by rewrite Htop); try (subst pc; cbn; by destruct (has_aborted t && _)).
    + rewrite Hrm. subst pc. destruct (has_aborted t) eqn:Ea, (_has_overflown s) eqn:Eo; cbn; split; try done; cbn; try (by right); try (by left).
      all: try (destruct W5 as [?|?]; [congruence|by left]). all: intros; left; done.
    + intros _ i _ [Ha|Haw]; [|by rewrite Htop in Haw]. destruct (_has_overflown s) eqn:Eo; [by left|]. right. right. left. done.
    + intros _ g [?|Hb]; [tauto|]. unfold before in Hb. rewrite Htop in Hb. destruct (_has_overflown s) eqn:Eo; [by left|]. right. right. subst pc. rewrite Hb. done.
Qed.

Lemma ctl_TSteal s k t j v obj q :
  ctl s → s_phase s ≠ RootScan → _tasks s !! k = Some t → idle t → t_top t = TSteal → _tasks s !! j = Some v → _task_queue v = obj :: q → j ≠ k →
  ctl (put_task (put_task s j (set_queue v q)) k (drain (scan_object c t obj) false)).
Proof.
  intros Hctl Hp Hk [(Hd & Hs & Hdr) Hi] Htop Hj Hq Hne. set (s1 := put_task s j _). assert (Hc1 : ctl s1) by by apply (ctl_victim s j v q obj).
  assert (Hk1 : _tasks s1 !! k = Some t) by (cbn; by rewrite list_lookup_insert_ne). pose proof (c_work _ Hc1 Hp k t Hk1) as [W1 W2 W3 W4 W5 W6 W7 W8 W9]. rewrite Htop in *.
  apply (ctl_early s1 k t); try done; cbn; try (by rewrite Htop).
  - apply work_early; cbn; try (by rewrite Htop); try done.
    + unfold root_scan. cbn. rewrite Hd. tauto.
    + unfold shape. cbn. by rewrite Htop.
  - intros _ i _ Haw. right. right. unfold awaiting in *. cbn. by rewrite Htop in *.
Qed.

Lemma scan_region_work ch s t hr t' :
  idle t → scan_region c ch s t hr = Some t' → ¬ root_scan t' ∧ (has_aborted t = true → has_aborted t' = true) ∧
  (has_aborted t' = true → has_aborted t = true ∨ concurrent s = true ∨ _has_overflown s = true) ∧
  (_curr_region (t_region t') = _curr_region (t_region t) ∨ _curr_region (t_region t') = None).
Proof.
  intros [(Hd & Hs & Hdr) Hi]. unfold scan_region. set (u := update_region_limit t hr). destruct (_finger _) as [f|]; cbn [mbind option_bind]; [|done].
  destruct (_region_limit _) as [l|]; cbn [mbind option_bind]; [|done].
  assert (Hclock : ∀ v, v = giveup_current_region u → regular_clock_call ch s v = t' → ¬ root_scan t' ∧ (has_aborted t = true → has_aborted t' = true) ∧
    (has_aborted t' = true → has_aborted t = true ∨ concurrent s = true ∨ _has_overflown s = true) ∧ (_curr_region (t_region t') = _curr_region (t_region t) ∨ _curr_region (t_region t') = None)).
  { intros v -> <-. pose proof (clock_flags ch s (giveup_current_region u)) as Hfl. pose proof (clock_aborted ch s (giveup_current_region u)) as Hab.
    destruct (clock_work ch s (giveup_current_region u)) as [E1 E2 _ _ _ E6]. unfold root_scan. rewrite E1, E2, E6. cbn. rewrite Hd, Hs. split_and!; [tauto|done|done|by right]. }
  destruct (l <=? f); [intros [= E]; by eapply Hclock|]. destruct (_ && _).
  - destruct (isMarked _ _) as [[]|]; cbn [mbind option_bind]; try done; intros [= <-]; unfold root_scan; cbn; rewrite ?Hd, ?Hs; split_and!; try tauto; intros; by left.
  - destruct (_ >? _); intros [= E]; [|by eapply Hclock]. rewrite <- E. unfold root_scan. cbn. rewrite Hd, Hs. split_and!; try tauto; intros; by left.
Qed.

Lemma ctl_step_region s k t ch s' :
  ctl s → s_phase s = Marking ∨ s_phase s = Remark → _tasks s !! k = Some t → idle t → t_top t = TRegion → step_top c ch k t s = Some s' → ctl s'.
Proof.
  intros Hctl Hph Hk Hidle Htop. assert (Hp : s_phase s ≠ RootScan) by (destruct Hph; congruence). pose proof (c_work _ Hctl Hp k t Hk) as [W1 W2 W3 W4 W5 W6 W7 W8 W9].
  unfold step_top. rewrite Htop.
  assert (Hgo : ∀ t', ¬ root_scan t' → (has_aborted t = true → has_aborted t' = true) → (has_aborted t' = true → has_aborted t = true ∨ concurrent s = true ∨ _has_overflown s = true) →
    (_curr_region (t_region t') = _curr_region (t_region t) ∨ _curr_region (t_region t') = None) → Some (put_task s k (set_top t' TRegionDrain)) = Some s' → ctl s').
  { intros t' H1 H2 H3 H4 [= <-]. apply (ctl_early s k t (set_top t' TRegionDrain)); try done; [by rewrite Htop|..].
    - apply work_early; try done. intros Hr Ha. destruct (H3 Ha) as [Ha0|[Hc|?]]; [|apply in_remark_spec in Hr; unfold concurrent in Hc; by rewrite Hr in Hc|by right].
      destruct (W4 Hr Ha0); [left|by right]. by destruct H4 as [E|E]; cbn; rewrite E.
    - intros _ i _ [?|Haw]; [right; right; left; by apply H2|by rewrite Htop in Haw]. }
  destruct (_curr_region (t_region t)) as [i|] eqn:Ei; [|apply Hgo; rewrite ?Ei; auto].
  destruct (has_aborted t) eqn:Ea; [apply Hgo; rewrite ?Ei; auto|]. destruct (regions c !! i) as [hr|]; cbn [mbind option_bind]; [|done].
  destruct (scan_region c ch s t hr) as [t'|] eqn:Es; cbn [mbind option_bind]; [|done]. destruct (scan_region_work ch s t hr t' Hidle Es) as (H1 & H2 & H3 & H4).
  rewrite Ei, Ea in *. by apply Hgo.
Qed.

(** The task starts to drain its queue. *)
Lemma ctl_drain s k t p pc :
  ctl s → s_phase s ≠ RootScan → _tasks s !! k = Some t → idle t → (t_top t, pc) ∈ [(TDrain, TRegion); (TRegionDrain, TClaim); (TFinalDrain, TSteal)] →
  ctl (put_task s k (set_top (drain t p) pc)).
Proof.
  intros Hctl Hp Hk [(Hd & Hs & Hdr) Hi] Hpc. pose proof (c_work _ Hctl Hp k t Hk) as [W1 W2 W3 W4 W5 W6 W7 W8 W9].
  assert (He : early (t_top t) = true ∧ early pc = true ∧ match t_top t with TBegin | TSatb _ _ => False | _ => True end ∧ (pc = TSteal → t_top t = TFinalDrain) ∧ (pc = TRegion ∨ pc = TClaim ∨ pc = TSteal)).
  { rewrite !elem_of_cons, elem_of_nil in Hpc. destruct Hpc as [[= -> ->]|[[= -> ->]|[[= -> ->]|[]]]]; split_and!; auto; done. }
  destruct He as (He & He' & Hnot & Hst & Hpcs). apply (ctl_early s k t (set_top (drain t p) pc)); try done.
  - apply work_early; try done.
    + unfold shape. cbn. by destruct Hpcs as [-> | [-> | ->]].
    + cbn. destruct Hpcs as [-> | [-> | ->]]; try done. by rewrite Hst in W3.
    + cbn. by destruct Hpcs as [-> | [-> | ->]].
  - intros _ i _ [?|Haw]; [right; right; by left|]. by destruct (t_top t).
Qed.

Lemma ctl_TClaimCas s k t f i hr :
  ctl s → s_phase s ≠ RootScan → _tasks s !! k = Some t → idle t → t_top t = TClaimCas f →
  ctl (put_task (set_global_finger s (end_ hr)) k (set_top (if next_top_at_mark_start hr >? bottom hr then setup_for_region t i hr else t) TClaimed)).
Proof.
  intros Hctl Hp Hk Hidle Htop. pose proof (c_work _ Hctl Hp k t Hk) as [W1 W2 W3 W4 W5 W6 W7 W8 W9]. rewrite Htop in W3. destruct W3 as [Hreg Hab]. set (t' := set_top _ _).
  assert (Et : idle t' ∧ has_aborted t' = false ∧ t_top t' = TClaimed) by (subst t'; by destruct (_ >? _)). destruct Et as (Hid' & Ha' & Et'). clearbody t'.
  apply (ctl_top s _ k t t'); try done; [by rewrite Htop|intros _; rewrite !is_outside_spec, Htop, Et'; done|..].
  - apply work_early; rewrite ?Et'; try done; [by apply idle_not_root|unfold shape; by rewrite Et'|congruence].
  - intros _ j _ [?|Haw]; [congruence|by rewrite Htop in Haw].
  - intros _ g _. right. right. apply early_before. by rewrite Et'.
Qed.

Lemma ctl_TTerminate s k t ch s' :
  ctl s → s_phase s = Marking ∨ s_phase s = Remark → _tasks s !! k = Some t → idle t → t_top t = TTerminate → step_top c ch k t s = Some s' → ctl s'.
Proof.
  intros Hctl Hph Hk Hidle Htop. assert (Hp : s_phase s ≠ RootScan) by (destruct Hph; congruence). pose proof (c_work _ Hctl Hp k t Hk) as [W1 W2 W3 W4 W5 W6 W7 W8 W9]. rewrite Htop in W3.
  unfold step_top. rewrite Htop. assert (Hend : ∀ t', same_work t t' → has_aborted t' = true → (in_remark s = true → _curr_region (t_region t) = None ∨ _has_overflown s = true) → Some (put_task s k (set_top t' TStepEnd)) = Some s' → ctl s').
  { intros t' Hsw Ha Hr [= <-]. pose proof Hsw as [E1 E2 E3 E4 E5 E6]. apply (ctl_go s k t (set_top t' TStepEnd)); try done; try (by rewrite Htop).
    - apply work_late; try done; cbn; rewrite ?E6; auto. unfold idle, at_rest. cbn. by rewrite E1, E2, E3, E5.
    - intros _ i _ _. right. right. by left.
    - intros _ g _. right. right. unfold before. cbn. done. }
  destruct (has_aborted t) eqn:Ea; [by apply Hend; auto|]. assert (Hreg : _curr_region (t_region t) = None) by by destruct W3.
  destruct (is_serial c s || ch_offered ch); [|by apply Hend; auto]. set (s1 := if bool_decide (k = 0%nat) && concurrent s then set_in_progress s false else s). intros [= <-].
  assert (Es : s_claimed s1 = s_claimed s ∧ s_mutators s1 = s_mutators s ∧ _has_overflown s1 = _has_overflown s ∧ _markStack s1 = _markStack s ∧ _tasks s1 = _tasks s ∧ s_phase s1 = s_phase s ∧
    _global_finger s1 = _global_finger s ∧ _first_overflow_barrier_sync s1 = _first_overflow_barrier_sync s ∧ _second_overflow_barrier_sync s1 = _second_overflow_barrier_sync s) by (subst s1; by destruct (_ && _)).
  destruct Es as (E1 & E2 & E3 & E4 & E5 & E6 & E7 & E8 & E9). clearbody s1.
  apply (ctl_top s _ k t (set_top t (TGuarantee OutOfRegions))); cbn; rewrite ?E1, ?E2, ?E3, ?E4, ?E5, ?E6, ?E8, ?E9; try done.
  - by rewrite Htop.
  - intros _. rewrite !is_outside_spec. cbn. by rewrite Htop.
  - split; try done; cbn; auto.
  - intros _ i _ [?|Haw]; [congruence|by rewrite Htop in Haw].
  - intros _ g _. right. right. unfold before. cbn. lia.
Qed.

Ltac by_go Hgo Hs := eapply Hgo; [..|exact Hs]; try done; cbn; auto; intros; congruence.

Lemma ctl_step_top s k t ch s' :
  ctl s → s_phase s = Marking ∨ s_phase s = Remark → _tasks s !! k = Some t → idle t → step_top c ch k t s = Some s' → ctl s'.
Proof.
  intros Hctl Hph Hk Hidle Hstep. assert (Hp : s_phase s ≠ RootScan) by (destruct Hph; congruence). pose proof (c_work _ Hctl Hp k t Hk) as Hw.
  assert (Hgo : ∀ t' pc, same_work t t' → early (t_top t) = true → early pc = true → (has_aborted t = true → has_aborted t' = true) →
    (in_remark s = true → has_aborted t' = true → has_aborted t = true ∨ _has_overflown s = true) →
    match pc with TSatb _ (SProcessed _ | SEmpty _ _ | SThreads _) => False | _ => True end →
    match pc with
    | TClaimRead | TClaimCas _ => _curr_region (t_region t) = None ∧ has_aborted t' = false
    | TSatb true _ | TFinalDrain | TSteal | TTerminate => _curr_region (t_region t) = None ∨ has_aborted t' = true
    | _ => True
    end → match t_top t with TBegin | TSatb false _ => False | _ => True end → Some (put_task s k (set_top t' pc)) = Some s' → ctl s').
  { intros t' pc Hsw He He' Ha Hab Hpc Hr Htop [= <-]. apply (ctl_early s k t (set_top t' pc)); try done.
    - apply (work_go _ _ _ (active s k) t); try done; [by destruct Hsw|..]; by destruct pc as [|a []| | | | | | | | | | | | | | | | | | | | | | |].
    - intros _ i _ [?|Haw]; [right; right; left; by apply Ha|]. by destruct (t_top t) as [|[] []| | | | | | | | | | | | | | | | | | | | | | |]. }
  pose proof (w_region _ _ _ _ _ Hw) as Hreg. pose proof (w_shape _ _ _ _ _ Hw) as Hshape. unfold shape in Hshape. pose proof Hstep as Hs. unfold step_top in Hs.
  destruct (t_top t) as [|again stage| | | | | |f| | | | | |g| | | | | | | | | | |] eqn:Htop; try done.
  - injection Hs as <-. apply (ctl_early s k t); try done; [by rewrite Htop|..].
    + apply (work_go _ _ _ (active s k) t); try done. intros _ Ha. by right.
    + intros _ i _ _. right. right. by right.
  - by eapply ctl_step_satb.
  - injection Hs as <-. apply ctl_drain; try done. rewrite Htop. set_solver.
  - by eapply ctl_step_region.
  - injection Hs as <-. apply ctl_drain; try done. rewrite Htop. set_solver.
  - destruct (has_aborted t) eqn:Ea; cbn [negb andb] in Hs; [by_go Hgo Hs|]. case_bool_decide as Ec; cbn [andb] in Hs.
    + destruct (negb (out_of_regions c s)); (by_go Hgo Hs).
    + by_go Hgo Hs.
  - destruct Hreg as [Hreg Ha]. destruct (_ <? _); (by_go Hgo Hs).
  - destruct Hreg as [Hreg Ha]. destruct (heap_region_containing_raw c f) as [i|]; cbn [mbind option_bind] in Hs; [|done]. destruct (regions c !! i) as [hr|]; cbn [mbind option_bind] in Hs; [|done].
    destruct (_ =? _); [|by_go Hgo Hs]. injection Hs as <-. by apply (ctl_TClaimCas s k t f).
  - eapply Hgo; [..|exact Hs]; try done; [apply clock_work|apply clock_aborted|intros Hr; by apply (clock_remark ch s s)].
  - destruct (has_aborted t) eqn:Ea; cbn [negb] in Hs; rewrite ?andb_false_r, ?andb_true_r in Hs; [by_go Hgo Hs|].
    case_bool_decide as Ec; [by_go Hgo Hs|]. apply eq_None_not_Some in Ec. by_go Hgo Hs.
  - injection Hs as <-. apply ctl_drain; try done. rewrite Htop. set_solver.
  - destruct (_ && _); [|by_go Hgo Hs]. destruct (ch_victim ch) as [j|]; [|by_go Hgo Hs].
    destruct (_tasks s !! j) as [v|] eqn:Ej; cbn [mbind option_bind] in Hs; [|done]. destruct (_task_queue v) as [|obj q] eqn:Eq; [done|]. case_bool_decide; [done|]. injection Hs as <-.
    by apply (ctl_TSteal s k t j v obj q).
  - by eapply ctl_TTerminate.
  - destruct (holds c s t g) eqn:Eh; [|done]. injection Hs as <-. by apply ctl_TGuarantee.
  - eapply ctl_step_late; try done; by rewrite Htop.
  - eapply ctl_step_late; try done; by rewrite Htop.
  - eapply ctl_step_late; try done; by rewrite Htop.
  - eapply ctl_step_late; try done; by rewrite Htop.
  - eapply ctl_step_late; try done; by rewrite Htop.
  - eapply ctl_step_late; try done; by rewrite Htop.
  - eapply ctl_step_late; try done; by rewrite Htop.
  - by eapply ctl_TWorkEnd.
Qed.

(** ** The scan of the root regions *)

Lemma ctl_root_step s s' k t' :
  ctl s → s_phase s = RootScan → _tasks s' = <[k := t']> (_tasks s) → s_phase s' = s_phase s → _has_overflown s' = _has_overflown s →
  _markStack s' = _markStack s → _global_finger s' = _global_finger s → root_ok t' → ctl s'.
Proof.
  intros [C1 C2 C3 C4 C5 C6 C7] Hp Hk' Ep Eo Es Ef Ht'. destruct (C4 Hp) as [Hf Hr].
  assert (El : length (_tasks s') = length (_tasks s)) by (rewrite Hk'; apply length_insert). split; rewrite ?El, ?Ep, ?Eo, ?Es, ?Ef; try done; try congruence.
  intros _. split; [done|]. intros j u Hj. rewrite Hk' in Hj. apply insert_lookup_cases in Hj as [[-> _]|[_ Hj]]; [done|by apply (Hr j)].
Qed.

Lemma root_deal t d' :
  root_ok t → is_Some (t_deal t) → match d' with None | Some (GrayMark _ _) => True | _ => False end → root_ok (set_deal t d').
Proof.
  intros [R1 R2 R3 R4 R5 R6 R7] [d Hd] Hd'. split; try done; cbn; [by destruct d' as [[]|]|]. destruct (t_top t); try done.
  - destruct R7 as [(E & _) _]. congruence.
  - destruct R7 as [(E & _) _]. congruence.
Qed.

Lemma root_counts t n : root_ok t → root_ok (set_counts t n).
Proof. intros [R1 R2 R3 R4 R5 R6 R7]. by split. Qed.

Lemma root_scanning t sc' d' :
  root_ok t → is_Some (t_scan t) → match sc' with None | Some (RootFields _ _) => True | _ => False end →
  match d' with None | Some (GrayRoot _) => True | _ => False end → root_ok (set_deal (set_scan t sc') d').
Proof.
  intros [R1 R2 R3 R4 R5 R6 R7] [sc Hs] Hs' Hd'. split; try done; cbn; [by destruct d' as [[]|]|]. destruct (t_top t); try done.
  - destruct R7 as [(_ & E & _) _]. congruence.
  - destruct R7 as [(_ & E & _) _]. congruence.
Qed.

Lemma ctl_root_deal s k t d s' :
  ctl s → s_phase s = RootScan → _tasks s !! k = Some t → t_deal t = Some d → step_deal c k t d s = Some s' → ctl s'.
Proof.
  intros Hctl Hp Hk Hd Hs. destruct (c_root _ Hctl Hp) as [_ Hr]. specialize (Hr k t Hk). pose proof (r_deal _ Hr) as Hk'. rewrite Hd in Hk'.
  assert (Hsome : is_Some (t_deal t)) by by rewrite Hd. destruct d; try done; cbn [step_deal] in Hs.
  - destruct (heap_region_containing_raw c obj) as [i|]; cbn [mbind option_bind] in Hs; [|done]. destruct (regions c !! i) as [r|]; cbn [mbind option_bind] in Hs; [|done].
    destruct (_ <? _); [|injection Hs as <-; apply (ctl_root_step s _ k (set_deal t None)); try done; by apply root_deal].
    destruct (isMarked _ _) as [m|]; cbn [mbind option_bind] in Hs; [|done]. injection Hs as <-.
    apply (ctl_root_step s _ k (set_deal t (if m then None else Some (GrayMark obj i)))); try done. apply root_deal; try done. by destruct m.
  - unfold mark_step in Hs. destruct (par_mark_and_count _ _ _ _ _) as [[[won b] n]|]; cbn [mbind option_bind] in Hs; [|done]. destruct won; injection Hs as <-.
    + apply (ctl_root_step s _ k (set_deal (set_counts t n) None)); try done. apply root_deal; try done. by apply root_counts.
    + apply (ctl_root_step s _ k (set_deal t None)); try done. by apply root_deal.
Qed.

Lemma ctl_root_scan s k t sc ch s' :
  ctl s → s_phase s = RootScan → _tasks s !! k = Some t → t_deal t = None → t_scan t = Some sc → step_scan c ch k t sc s = Some s' → ctl s'.
Proof.
  intros Hctl Hp Hk Hd Hsc Hs. destruct (c_root _ Hctl Hp) as [_ Hr]. specialize (Hr k t Hk). pose proof (r_scan _ Hr) as Hk'. rewrite Hsc in Hk'.
  assert (Hsome : is_Some (t_scan t)) by by rewrite Hsc. assert (Hnone : ∀ sc', set_scan t sc' = set_deal (set_scan t sc') None) by (intros; destruct t; cbn in *; by subst).
  destruct sc as [| |o i]; try done; cbn [step_scan] in Hs. destruct (s_heap s !! o) as [fs|]; cbn [mbind option_bind] in Hs; [|done].
  assert (Hput : ∀ sc' d', match sc' with None | Some (RootFields _ _) => True | _ => False end → match d' with None | Some (GrayRoot _) => True | _ => False end →
    ctl (put_task s k (set_deal (set_scan t sc') d'))).
  { intros sc' d' H1 H2. apply (ctl_root_step s _ k (set_deal (set_scan t sc') d')); try done. by apply root_scanning. }
  destruct (fs !! i); injection Hs as <-; [|rewrite Hnone; by apply Hput]. destruct (_ || _); [rewrite Hnone|]; by apply Hput.
Qed.

Lemma ctl_root_top s k t ch s' :
  ctl s → s_phase s = RootScan → _tasks s !! k = Some t → idle t → step_top c ch k t s = Some s' → ctl s'.
Proof.
  intros Hctl Hp Hk Hidle Hs. destruct (c_root _ Hctl Hp) as [_ Hr]. specialize (Hr k t Hk). destruct Hr as [R1 R2 R3 R4 R5 R6 R7]. pose proof Hidle as [(Hd & Hsc & Hdr) Hi].
  assert (Hgo : ∀ s1 pc, _tasks s1 = _tasks s → s_phase s1 = s_phase s → _has_overflown s1 = _has_overflown s → _markStack s1 = _markStack s → _global_finger s1 = _global_finger s →
    match pc with TRoot | TDone | TRootObjects _ => True | _ => False end → ctl (put_task s1 k (set_top t pc))).
  { intros s1 pc E1 E2 E3 E4 E5 Hpc. apply (ctl_root_step s _ k (set_top t pc)); try done; [cbn; by rewrite E1|]. split; try done. cbn. by destruct pc. }
  unfold step_top in Hs. destruct (t_top t) as [| | | | | | | | | | | | | | | | | | | | | | |[|o l]|]; try done.
  - destruct (_root_regions s); injection Hs as <-; by apply Hgo.
  - injection Hs as <-. by apply Hgo.
  - injection Hs as <-. apply (ctl_root_step s _ k (set_top (set_scan t (Some (RootFields o 0))) (TRootObjects l))); try done.
Qed.

(** ** Steps of a task *)

Lemma ctl_step_task s k ch s' : ctl s → s_phase s ≠ Completed → step_task c ch k s = Some s' → ctl s'.
Proof.
  intros Hctl Hnc. unfold step_task. destruct (_tasks s !! k) as [t|] eqn:Hk; cbn [mbind option_bind]; [|done].
  destruct (decide (s_phase s = RootScan)) as [Hp|Hp].
  - destruct (c_root _ Hctl Hp) as [_ Hr]. specialize (Hr k t Hk).
    destruct (t_deal t) as [d|] eqn:Hd; [by apply (ctl_root_deal s k t d)|]. destruct (t_scan t) as [sc|] eqn:Hsc; [by apply (ctl_root_scan s k t sc ch)|].
    rewrite (r_drain _ Hr), (r_iter _ Hr). apply (ctl_root_top s k t ch); try done. unfold idle, at_rest. by rewrite (r_drain _ Hr), (r_iter _ Hr).
  - assert (Hph : s_phase s = Marking ∨ s_phase s = Remark) by (destruct (s_phase s); auto; done).
    destruct (t_deal t) as [d|] eqn:Hd.
    { intros [t' Hf]%step_deal_frame; [|done]. apply (ctl_frame s s' k t t'); try done. intros [(E & _) _]. congruence. }
    destruct (t_scan t) as [sc|] eqn:Hsc.
    { intros [t' Hf]%step_scan_frame; try done. apply (ctl_frame s s' k t t'); try done. intros [(_ & E & _) _]. congruence. }
    destruct (t_drain t) as [d|] eqn:Hdr.
    { intros [t' Hf]%step_drain_frame; try done. apply (ctl_frame s s' k t t'); try done. intros [(_ & _ & E) _]. congruence. }
    destruct (t_iter t) as [it|] eqn:Hi.
    { intros [t' Hf]%step_iter_frame; try done. apply (ctl_frame s s' k t t'); try done. intros [_ E]. congruence. }
    by apply ctl_step_top.
Qed.

(** ** Mutators and phases *)

Lemma ctl_step_mutator s a j s' : ctl s → s_phase s ≠ Remark → step_mutator c a j s = Some s' → ctl s' ∧ s_phase s' = s_phase s.
Proof.
  intros Hctl Hp Hs. assert (Hput : ∀ qs i m heap, ctl (set_heap (set_log s qs (<[i := m]> (s_mutators s))) heap)).
  { intros qs i m heap. pose proof (ctl_set_log s qs (<[i := m]> (s_mutators s)) Hctl (length_insert _ _ _)) as [C1 C2 C3 C4 C5 C6 C7]. split; try done.
    intros Hm. destruct (C6 Hm) as [B1 B2 [[]|[]]]; split; try done; [left|right]; by split. }
  unfold step_mutator in Hs. destruct (s_mutators s !! j) as [m|]; cbn [mbind option_bind] in Hs; [|done].
  destruct (m_pc m) as [|o i v pre|o i v], a as [o' i' v'|retain fresh|retain]; try done.
  - destruct (s_heap s !! o') as [fs|]; cbn [mbind option_bind] in Hs; [|done]. destruct (fs !! i'); cbn [mbind option_bind] in Hs; [|done]. injection Hs as <-.
    split; [|done]. apply (Hput (s_satb s) j _ (s_heap s)).
  - destruct (SatbQueue.flush _ _ _) as [[q qs]|]; cbn [mbind option_bind] in Hs; [|done]. injection Hs as <-. split; [|done]. apply (Hput qs j _ (s_heap s)).
  - destruct (pre =? NULL); [injection Hs as <-; split; [|done]; apply (Hput (s_satb s) j _ (s_heap s))|].
    destruct (SatbQueue.enqueue _ _ _ _ _ _ _) as [[q qs]|]; cbn [mbind option_bind] in Hs; [|done]. injection Hs as <-. split; [|done]. apply (Hput qs j _ (s_heap s)).
  - destruct (s_heap s !! o) as [fs|]; cbn [mbind option_bind] in Hs; [|done]. injection Hs as <-. split; [|done]. apply (Hput (s_satb s) j _).
Qed.

(** What a task is when it has returned. *)
Record returned (t : CMTask) : Prop := mkReturned {
  e_top : t_top t = TDone;
  e_idle : idle t;
  e_region : _curr_region (t_region t) = None
}.

Lemma returned_of s k t : ctl s → s_phase s ≠ Completed → _tasks s !! k = Some t → t_top t = TDone → returned t.
Proof.
  intros Hctl Hnc Hk Ht. destruct (decide (s_phase s = RootScan)) as [Hp|Hp].
  - destruct (c_root _ Hctl Hp) as [_ Hr]. destruct (Hr k t Hk) as [R1 R2 R3 R4 R5 R6 R7]. rewrite Ht in R7. by split.
  - destruct (c_work _ Hctl Hp k t Hk) as [W1 W2 W3 W4 W5 W6 W7 W8 W9]. unfold shape in W2. rewrite Ht in *. by split.
Qed.

Lemma start_tasks_length n pc l : length (start_tasks n pc l) = length l.
Proof. revert n. induction l as [|t l IH]; intros [|n]; cbn; try done. by rewrite IH. Qed.

(** Tasks that have returned with an empty queue can be started. *)
Lemma ctl_start s n rm cl k t' :
  (∀ j t, _tasks s !! j = Some t → returned t ∧ _task_queue t = []) → start_tasks n TBegin (_tasks s) !! k = Some t' →
  work_ok rm (_has_overflown s) cl (bool_decide (k < n)%nat) t'.
Proof.
  intros Hret Hk. rewrite start_tasks_lookup in Hk. destruct (_tasks s !! k) as [t|] eqn:E; [|done]. cbn in Hk. destruct (Hret k t E) as [[Ht Hidle Hreg] Hq].
  case_decide as Hlt; injection Hk as <-.
  - rewrite bool_decide_eq_true_2 by done. apply work_early; try done; [by apply idle_not_root|]. intros _ _. by left.
  - rewrite bool_decide_eq_false_2 by done. split; rewrite ?Ht; try done; [by apply idle_not_root|unfold shape; by rewrite Ht|auto|auto].
Qed.

Lemma ctl_start_marking s :
  (1 <= n_marking c <= length (_tasks s))%nat → (1 <= n_remark c <= length (_tasks s))%nat → (_has_overflown s = true → _overflow (_markStack s) = true) →
  (∀ j t, _tasks s !! j = Some t → returned t ∧ _task_queue t = []) → ctl (start_marking c s).
Proof.
  intros C1 C2 C3 Hret. assert (Htops : ∀ k t, start_tasks (n_marking c) TBegin (_tasks s) !! k = Some t → t_top t = TBegin ∨ t_top t = TDone).
  { intros k t Hk. rewrite start_tasks_lookup in Hk. destruct (_tasks s !! k) as [u|] eqn:E; [|done]. cbn in Hk. destruct (Hret k u E) as [[Ht _ _] _].
    case_decide; injection Hk as <-; auto. }
  split; cbn; rewrite ?start_tasks_length; try done.
  - intros _ k t Hk. by apply (ctl_start s (n_marking c)).
  - intros _. split; try done. left. assert (Hz : count in_first (start_tasks (n_marking c) TBegin (_tasks s)) = 0).
    { apply count_zero. intros k t Hk. unfold in_first. by destruct (Htops k t Hk) as [-> | ->]. }
    split; cbn; rewrite ?Hz; try done; [lia|..].
    + intros k t Hk. unfold between. by destruct (Htops k t Hk) as [-> | ->].
    + intros k t Hk. by destruct (Htops k t Hk) as [-> | ->].
Qed.

Lemma ctl_start_remark s :
  (1 <= n_marking c <= length (_tasks s))%nat → (1 <= n_remark c <= length (_tasks s))%nat → (_has_overflown s = true → _overflow (_markStack s) = true) →
  (∀ j t, _tasks s !! j = Some t → returned t ∧ _task_queue t = []) → ctl (start_remark c s).
Proof.
  intros C1 C2 C3 Hret. assert (Hbegin : ∀ k t, (k < n_remark c)%nat → start_tasks (n_remark c) TBegin (_tasks s) !! k = Some t → t_top t = TBegin).
  { intros k t Hlt Hk. rewrite start_tasks_lookup in Hk. destruct (_tasks s !! k) as [u|] eqn:E; [|done]. cbn in Hk. rewrite decide_True in Hk by done. by injection Hk as <-. }
  split; cbn; rewrite ?start_tasks_length; try done.
  - intros _ k t Hk. by apply (ctl_start s (n_remark c)).
  - intros _. split; cbn.
    + by rewrite length_replicate.
    + intros i Hi. right. right. intros k t Hk Ht. right. by rewrite (Hbegin k t).
    + intros g. right. right. destruct (lookup_lt_is_Some_2 (start_tasks (n_remark c) TBegin (_tasks s)) 0) as [t Ht]; [rewrite start_tasks_length; lia|].
      exists 0%nat, t. split; [done|]. apply early_before. rewrite (Hbegin 0%nat t); [done|lia|done].
Qed.

Lemma ctl_next_phase s reserved s' : ctl s → s_phase s ≠ Completed → next_phase c reserved s = Some s' → s_phase s' ≠ Completed → ctl s'.
Proof.
  intros Hctl Hnc. unfold next_phase. destruct (all_done s) eqn:Hd; cbn [negb]; [|done]. pose proof (all_done_spec s Hd) as Hdone.
  assert (Hret : ∀ k t, _tasks s !! k = Some t → returned t) by (intros k t Hk; apply (returned_of s k); auto; by apply (Hdone k)).
  destruct Hctl as [C1 C2 C3 C4 C5 C6 C7]. destruct (s_phase s) eqn:Hp; [..|done].
  - intros [= <-] _. apply ctl_start_marking; try done. intros k t Hk. split; [by apply (Hret k)|]. destruct (C4 eq_refl) as [_ Hr]. by apply (r_queue _ (Hr k t Hk)).
  - intros [= <-] _. apply ctl_start_remark; try done. intros k t Hk. split; [by apply (Hret k)|]. pose proof (w_queue _ _ _ _ _ (C5 ltac:(done) k t Hk)) as Hq.
    rewrite (Hdone k t Hk) in Hq. unfold in_remark in Hq. rewrite Hp in Hq. by destruct Hq as [?|[? _]].
  - destruct (negb _); [done|]. destruct (_has_overflown s); intros [= <-] Hne; [|done]. apply ctl_start_marking; cbn; rewrite ?length_fmap; try done.
    intros k t Hk. rewrite list_lookup_fmap in Hk. destruct (_tasks s !! k) as [u|] eqn:E; [|done]. injection Hk as <-. split; [|done]. destruct (Hret k u E). by split.
Qed.

(** ** What the control guarantees to the steps *)

Lemma ctl_ready s k t : ctl s → s_phase s ≠ Completed → _tasks s !! k = Some t → idle t → top_ready c s t.
Proof.
  intros Hctl Hnc Hk Hidle. unfold top_ready. destruct (decide (s_phase s = RootScan)) as [Hp|Hp].
  - destruct (c_root _ Hctl Hp) as [_ Hr]. pose proof (r_top _ (Hr k t Hk)) as H. by destruct (t_top t).
  - destruct (c_work _ Hctl Hp k t Hk) as [W1 W2 W3 W4 W5 W6 W7 W8 W9]. destruct (t_top t) as [|a []| | | | | | | | | | | | | | | | | |  | | | | |] eqn:Ht; try done.
    + destruct W8 as [Hr Hc]. split; [by apply in_remark_spec|done].
    + by destruct W3.
    + assert (Hph : s_phase s = Marking ∨ s_phase s = Remark) by (destruct (s_phase s); auto; done). destruct Hph as [Hm|Hm].
      * assert (Hb : between t = true) by (unfold between; by rewrite Ht). destruct (c_barriers _ Hctl Hm) as [_ _ [[_ _ G3 _ _]|[_ _ _ _ _ P6]]]; [by rewrite (G3 k t Hk) in Hb|].
        destruct (c_marking _ Hctl) as [H1 H2]. destruct (lookup_lt_is_Some_2 (_tasks s) 0) as [t0 Ht0]; [lia|]. specialize (P6 t0 Ht0). destruct (t_top t0); auto.
      * left. apply (c_overflow _ Hctl). apply W7. by apply in_remark_spec.
Qed.

Lemma ctl_gray s k t y i : ctl s → s_phase s ≠ Completed → _tasks s !! k = Some t → t_deal t = Some (GrayMark y i) → _global_finger s = _heap_start c.
Proof.
  intros Hctl Hnc Hk Hd. destruct (decide (s_phase s = RootScan)) as [Hp|Hp]; [by apply (c_root _ Hctl)|].
  destruct (w_kind _ _ _ _ _ (c_work _ Hctl Hp k t Hk)). right. by rewrite Hd.
Qed.

(** At the end of a remark pause without overflow nothing is left to do. *)
Lemma remark_end s :
  ctl s → s_phase s = Remark → (∀ k t, _tasks s !! k = Some t → t_top t = TDone) → _has_overflown s = false →
  (∀ k t, _tasks s !! k = Some t → returned t ∧ _task_queue t = []) ∧ _base (_markStack s) = [] ∧ _overflow (_markStack s) = false ∧
  _global_finger s = _heap_end c ∧ ∀ i, (i < length (s_mutators s))%nat → s_claimed s !! i = Some true.
Proof.
  intros Hctl Hp Hdone Ho. destruct (c_pause _ Hctl Hp) as [M1 M2 M3].
  assert (Hg : ∀ g, global_holds s g).
  { intros g. destruct (M3 g) as [?|[?|(k & t & Hk & Hb)]]; [congruence|done|]. unfold before in Hb. by rewrite (Hdone k t Hk) in Hb. }
  split_and!.
  - intros k t Hk. split; [apply (returned_of s k); try done; [congruence|by apply (Hdone k)]|].
    pose proof (w_queue _ _ _ _ _ (c_work _ Hctl ltac:(congruence) k t Hk)) as Hq. rewrite (Hdone k t Hk), Ho in Hq. by destruct Hq as [?|[_ ?]].
  - apply (Hg StackEmpty).
  - apply (Hg NoStackOverflow).
  - specialize (Hg OutOfRegions). cbn in Hg. unfold out_of_regions in Hg. lia.
  - intros i Hi. destruct (M2 i Hi) as [?|[?|Hall]]; [congruence|done|]. destruct (c_remark _ Hctl) as [H1 H2].
    destruct (lookup_lt_is_Some_2 (_tasks s) 0) as [t Ht]; [lia|]. destruct (Hall 0%nat t ltac:(lia) Ht) as [Ha|Ha]; [|by rewrite (Hdone 0%nat t Ht) in Ha].
    assert (Hact : active s 0 = true) by (unfold active, n_active; apply in_remark_spec in Hp; rewrite Hp; apply bool_decide_eq_true; lia).
    pose proof (w_done _ _ _ _ _ (c_work _ Hctl ltac:(congruence) 0%nat t Ht)) as Hd. destruct Hd as [?|?]; try congruence; [by apply in_remark_spec|by apply (Hdone 0%nat)].
Qed.

(** ** The control neither marks nor counts *)

Record same_marks (s s' : cm_state) : Prop := mkSameMarks {
  sm_bitmap : _nextMarkBitMap s' = _nextMarkBitMap s;
  sm_counts : t_counts <$> _tasks s' = t_counts <$> _tasks s;
  sm_phase : s_phase s' = s_phase s
}.

Lemma put_marks s s1 k t t' :
  _tasks s !! k = Some t → t_counts t' = t_counts t → same_marks s s1 → same_marks s (put_task s1 k t').
Proof.
  intros Hk Et [E1 E2 E3]. split; [done| |done]. cbn. rewrite list_fmap_insert, Et, E2. apply list_insert_id. by rewrite list_lookup_fmap, Hk.
Qed.

Lemma clock_counts ch s t : t_counts (regular_clock_call ch s t) = t_counts t.
Proof. by destruct (clock_spec ch s t) as (l & f & -> & _). Qed.

Lemma scan_region_counts ch s t hr t' : scan_region c ch s t hr = Some t' → t_counts t' = t_counts t.
Proof.
  unfold scan_region. destruct (_finger _) as [f|]; cbn [mbind option_bind]; [|done]. destruct (_region_limit _) as [l|]; cbn [mbind option_bind]; [|done].
  destruct (l <=? f); [intros [= <-]; by rewrite clock_counts|]. destruct (_ && _).
  - destruct (isMarked _ _) as [[]|]; cbn [mbind option_bind]; try done; by intros [= <-].
  - destruct (_ >? _); intros [= <-]; [done|by rewrite clock_counts].
Qed.

Lemma reset_marks s : same_marks s (reset_marking_state c s).
Proof. split; [done| |done]. cbn. by rewrite <- list_fmap_compose. Qed.

Lemma step_satb_marks s k t again stage ch s' :
  _tasks s !! k = Some t → step_satb c ch k t again stage s = Some s' → same_marks s s' ∧ _root_regions s' = _root_regions s.
Proof.
  intros Hk. assert (Hput : ∀ s1 t', t_counts t' = t_counts t → same_marks s s1 → _root_regions s1 = _root_regions s →
    same_marks s (put_task s1 k t') ∧ _root_regions (put_task s1 k t') = _root_regions s) by (intros; split; [by apply (put_marks s s1 k t)|done]).
  destruct stage as [| |buf|[|i ts]|i ts|]; cbn [step_satb].
  - destruct (has_aborted t); intros [= <-]; by apply Hput.
  - destruct (negb (has_aborted t)); [|intros [= <-]; by apply Hput]. destruct (SatbQueue.pop_completed_buffer (s_satb s)) as [[buf|] qs]; [intros [= <-]; by apply Hput|].
    destruct (negb (concurrent s)); intros [= <-]; by apply Hput.
  - intros [= <-]. apply Hput; try done. cbn. by rewrite clock_counts.
  - intros [= <-]. by apply Hput.
  - destruct (_ && _); [intros [= <-]; by apply Hput|]. destruct (s_mutators s !! i); cbn [mbind option_bind]; [|done]. intros [= <-]. by apply Hput.
  - destruct (s_mutators s !! i); cbn [mbind option_bind]; [|done]. intros [= <-]. by apply Hput.
  - intros [= <-]. by apply Hput.
Qed.

Lemma step_top_marks s k t ch s' :
  _tasks s !! k = Some t → step_top c ch k t s = Some s' → same_marks s s' ∧ (t_top t ≠ TRoot → _root_regions s' = _root_regions s).
Proof.
  intros Hk. assert (Hput : ∀ s1 t', t_counts t' = t_counts t → same_marks s s1 → _root_regions s1 = _root_regions s →
    same_marks s (put_task s1 k t') ∧ (t_top t ≠ TRoot → _root_regions (put_task s1 k t') = _root_regions s)) by (intros; split; [by apply (put_marks s s1 k t)|done]).
  unfold step_top. destruct (t_top t) as [|again stage| | | | | |f| | | | | |g| | | | | | | | | |[|obj l]|] eqn:Htop.
  - intros [= <-]. by apply Hput.
  - intros Hs. destruct (step_satb_marks _ _ _ _ _ _ _ Hk Hs). split; [done|by intros _].
  - intros [= <-]. by apply Hput.
  - destruct (_curr_region (t_region t)) as [i|]; [|intros [= <-]; by apply Hput]. destruct (has_aborted t); [intros [= <-]; by apply Hput|].
    destruct (regions c !! i) as [hr|]; cbn [mbind option_bind]; [|done]. destruct (scan_region c ch s t hr) as [t'|] eqn:Es; cbn [mbind option_bind]; [|done].
    intros [= <-]. apply Hput; try done. exact (scan_region_counts ch s t hr t' Es).
  - intros [= <-]. by apply Hput.
  - destruct (_ && _); intros [= <-]; by apply Hput.
  - destruct (_ <? _); intros [= <-]; by apply Hput.
  - destruct (heap_region_containing_raw c f) as [i|]; cbn [mbind option_bind]; [|done]. destruct (regions c !! i) as [hr|]; cbn [mbind option_bind]; [|done].
    destruct (_ =? _); intros [= <-]; [|by apply Hput]. apply Hput; try done. cbn. by destruct (_ >? _).
  - intros [= <-]. apply Hput; try done. cbn. by rewrite clock_counts.
  - repeat case_match; intros [= <-]; by apply Hput.
  - intros [= <-]. by apply Hput.
  - destruct (_ && _); [|intros [= <-]; by apply Hput]. destruct (ch_victim ch) as [j|]; [|intros [= <-]; by apply Hput]. destruct (_tasks s !! j) as [v|] eqn:Ej; cbn [mbind option_bind]; [|done].
    destruct (_task_queue v); [done|]. case_bool_decide; [done|]. intros [= <-]. apply Hput; try done. by apply (put_marks s s j v).
  - destruct (has_aborted t); [intros [= <-]; by apply Hput|]. destruct (_ || _); intros [= <-]; [|by apply Hput]. destruct (_ && _); by apply Hput.
  - destruct (holds c s t g); [|done]. intros [= <-]. by apply Hput.
  - destruct (_ && _); intros [= <-]; by apply Hput.
  - intros [= <-]. by apply Hput.
  - destruct (barrier_open _); [|done]. intros [= <-]. by apply Hput.
  - cbn [_tasks reset_marking_state set_tasks set_global_finger set_has_overflown set_stack]. rewrite list_lookup_fmap, Hk. cbn [fmap option_fmap option_map mbind option_bind].
    intros [= <-]. apply Hput; try done. apply reset_marks.
  - intros [= <-]. by apply Hput.
  - intros [= <-]. by apply Hput.
  - destruct (barrier_open _); [|done]. intros [= <-]. by apply Hput.
  - destruct (concurrent s); intros [= <-]; by apply Hput.
  - destruct (_root_regions s) as [|objects l] eqn:El; intros [= <-]; [by apply Hput|]. split; [|done]. by apply (put_marks s _ k t).
  - intros [= <-]. by apply Hput.
  - intros [= <-]. by apply Hput.
  - done.
Qed.

End control.

End ConcMarkControl.
