(* ===== verification/ConcMarkCycle.v ===== *)
(** A marking cycle from the initial-mark pause to the end of remark: every
    object that is reachable in the snapshot is marked, whatever the
    interleaving of the marking tasks and the mutators; the marking state is
    reset after an overflow only while no task marks; and the bytes and cards
    that are counted for a region are those of the marked objects. *)

From S2P Require Import Prelude BitMap SatbQueue ConcMark ConcMarkFacts ConcMarkControl.

Module ConcMarkCycle.
Import ConcMark ConcMarkFacts ConcMarkControl.
Import BitMapFacts (sane, sane_size, capacity, bit, updates, up_length, up_sane, up_size, up_bits, updates_refl, updates_trans, updates_ext, put_at, put_between, at_put_spec, at_put_range_spec, get_next_offset, get_next_offset_spec, has_true, has_false).

Section cycle.
Context (c : config) (snap : gmap Z (list Z)) (roots : list Z) (sh : Z) (n_slots : nat).

#[local] Notation inv := (ConcMarkFacts.inv c snap roots sh n_slots).
#[local] Notation valid_ref := (ConcMarkFacts.valid_ref c snap).
#[local] Notation relevant := (ConcMarkFacts.relevant c snap).
#[local] Notation marked := (ConcMarkFacts.marked c sh).
#[local] Notation below := (ConcMarkFacts.below c).
#[local] Notation edge := (ConcMarkFacts.edge snap).
#[local] Notation ctl := (ConcMarkControl.ctl c).

(** ** The snapshot *)

(** The roots, the objects of the root regions, and what they reach. *)
Inductive reach : Z → Prop :=
  | reach_root r : r ∈ roots → reach r
  | reach_region x : x ∈ dom snap → below x = false → reach x
  | reach_field x i y : reach x → edge x i y → reach y.

(** A task before the cycle. *)
Record fresh_task (t : CMTask) : Prop := mkFresh {
  ft_idle : idle t;
  ft_region : t_region t = mkFields None None None;
  ft_queue : _task_queue t = [];
  ft_top : t_top t = TRoot ∨ t_top t = TDone
}.

(** The state after the initial-mark pause: the roots are marked, the root
    regions are to be scanned, and the log is empty and active. *)
Record initial (s : cm_state) : Prop := mkInitial {
  i_phase : s_phase s = RootScan;
  i_heap : s_heap s = snap;
  i_bitmap : bitmap_ok c sh (_nextMarkBitMap s);
  i_marks : ∀ k, k ∈ bits (_nextMarkBitMap s) → ∃ x, relevant x ∧ off c sh x = k;
  i_roots : ∀ r, r ∈ roots → relevant r → marked (_nextMarkBitMap s) r;
  i_finger : _global_finger s = _heap_start c;
  i_stack : _base (_markStack s) = [] ∧ _overflow (_markStack s) = false ∧ _has_overflown s = false;
  i_tasks : ∀ k t, _tasks s !! k = Some t → fresh_task t;
  i_workers : (1 <= n_marking c <= length (_tasks s))%nat ∧ (1 <= n_remark c <= length (_tasks s))%nat;
  i_regions : Forall (λ x, x ∈ dom snap) (concat (_root_regions s)) ∧ ∀ x, x ∈ dom snap → below x = false → x ∈ concat (_root_regions s);
  i_started : _root_regions s = [] ∨ ∃ k t, _tasks s !! k = Some t ∧ t_top t = TRoot;
  i_satb : SatbQueueFacts.wf_set n_slots (s_satb s) ∧ SatbQueue._completed_buffers (s_satb s) = [];
  i_mutators : ∀ j m, s_mutators s !! j = Some m → SatbQueueFacts.wf_queue n_slots (m_queue m) ∧ SatbQueue._active (m_queue m) = true ∧
    SatbQueueFacts.entries (m_queue m) = [] ∧ m_pc m = MIdle
}.

#[local] Notation step := (cm_step c valid_ref n_slots).

Hypothesis Hheap : heap_ok c snap sh.

(** ** The root regions are scanned before marking starts *)

Definition roots_ok (s : cm_state) : Prop :=
  if decide (s_phase s = RootScan) then _root_regions s = [] ∨ ∃ k t, _tasks s !! k = Some t ∧ t_top t ≠ TDone
  else _root_regions s = [].

(** ** The invariants hold initially *)

Lemma initial_inv s : initial s → inv s.
Proof.
  intros [I1 I2 I3 I4 I5 I6 [I7 [I8 I9]] I10 I11 [I12 I13] I14 [I15 I16] I17].
  assert (Hlog : log_objects s = []).
  { unfold log_objects, SatbQueueFacts.completed_objects. rewrite I16. cbn. rewrite app_nil_r. apply elem_of_nil_inv.
    intros y (m & Hy & [j Hj]%list_elem_of_lookup)%list_elem_of_bind. destruct (I17 j m Hj) as (_ & _ & E & _). rewrite E in Hy. by apply elem_of_nil in Hy. }
  split; try done.
  - rewrite I6. by apply (finger_ok_start c snap sh).
  - intros x. rewrite I2. destruct (snap !! x) as [fs|] eqn:E; [|done]. split; [done|]. apply Forall_lookup. intros i y Hy. apply (ho_fields _ _ _ Hheap x i y). by exists fs.
  - apply Forall_lookup. intros j m Hj. destruct (I17 j m Hj) as (H1 & H2 & _ & H4). unfold mutator_ok. by rewrite H4.
  - rewrite Hlog. constructor.
  - rewrite I7. constructor.
  - intros k t Hk. destruct (I10 k t Hk) as [[(Hd & Hs & Hdr) Hi] Hr Hq Ht]. split; unfold task_pending, task_held, has_room, queue_size; rewrite ?Hd, ?Hs, ?Hdr, ?Hi, ?Hr, ?Hq; try done; cbn.
    + by destruct Ht as [-> | ->].
    + pose proof (ho_elems _ _ _ Hheap). unfold global_stack_transfer_size in *. lia.
  - intros x i y He. right. split; [rewrite I2; exact He|]. intros j m Hj. destruct (I17 j m Hj) as (_ & _ & _ & ->). done.
  - intros x i y _ Hx _. right. left. left. left. rewrite I6. apply (relevant_in_heap c snap sh Hheap) in Hx. lia.
  - intros r Hr Hrel. left. by apply I5.
  - intros x i y (fs & E & _) Hb. right. left. apply I13; [|done]. apply elem_of_dom. eauto.
Qed.

Lemma initial_ctl s : initial s → ctl s.
Proof.
  intros [I1 I2 I3 I4 I5 I6 [I7 [I8 I9]] I10 [I11a I11b] _ _ _ _]. split; try done; try congruence. intros _. split; [done|].
  intros k t Hk. destruct (I10 k t Hk) as [Hid Hr Hq Ht]. pose proof Hid as [(Hd & Hs & Hdr) Hi]. split; rewrite ?Hd, ?Hs, ?Hr; try done. by destruct Ht as [-> | ->].
Qed.

Lemma initial_roots s : initial s → roots_ok s.
Proof.
  intros [I1 _ _ _ _ _ _ _ _ _ I14 _ _]. unfold roots_ok. rewrite I1. cbn. destruct I14 as [?|(k & t & Hk & Ht)]; [by left|]. right. exists k, t. split; [done|congruence].
Qed.

(** ** The invariants hold in every state of the cycle *)

Lemma roots_same s s' :
  roots_ok s → s_phase s' = s_phase s → _root_regions s' = _root_regions s →
  (∀ k t, _tasks s !! k = Some t → t_top t ≠ TDone → ∃ j t', _tasks s' !! j = Some t' ∧ t_top t' ≠ TDone) → roots_ok s'.
Proof.
  unfold roots_ok. intros H Ep Er Ht. rewrite Ep. case_decide; rewrite Er; [|done]. destruct H as [?|(k & t & Hk & Hn)]; [by left|]. right. eauto.
Qed.

Lemma roots_put s s' k t t' :
  roots_ok s → _tasks s !! k = Some t → s_phase s' = s_phase s → _root_regions s' = _root_regions s → _tasks s' = <[k := t']> (_tasks s) →
  (t_top t ≠ TDone → t_top t' ≠ TDone) → roots_ok s'.
Proof.
  intros Hr Hk Ep Er Et Hn. apply (roots_same s); try done. intros j u Hj Hu. destruct (decide (j = k)) as [->|Hne].
  - assert (u = t) as -> by congruence. exists k, t'. split; [|auto]. rewrite Et. apply list_lookup_insert_eq. by eapply lookup_lt_Some.
  - exists j, u. split; [|done]. rewrite Et. by rewrite list_lookup_insert_ne.
Qed.

Lemma roots_frame s s' k t t' : roots_ok s → _tasks s !! k = Some t → frame c s s' k t t' → roots_ok s'.
Proof. intros Hr Hk Hf. apply (roots_put s s' k t t'); try done; try apply Hf. by rewrite (f_top _ _ _ _ _ _ Hf). Qed.

Lemma roots_step_task s k ch s' : ctl s → s_phase s ≠ Completed → roots_ok s → step_task c ch k s = Some s' → s_phase s' = s_phase s → roots_ok s'.
Proof.
  intros Hctl Hnc Hr. unfold step_task. destruct (_tasks s !! k) as [t|] eqn:Hk; cbn [mbind option_bind]; [|done].
  destruct (t_deal t) as [d|] eqn:Hd; [intros [t' Hf]%step_deal_frame; try done; intros _; by apply (roots_frame s s' k t t')|].
  destruct (t_scan t) as [sc|] eqn:Hsc; [intros [t' Hf]%step_scan_frame; try done; intros _; by apply (roots_frame s s' k t t')|].
  destruct (t_drain t) as [d|] eqn:Hdr; [intros [t' Hf]%step_drain_frame; try done; intros _; by apply (roots_frame s s' k t t')|].
  destruct (t_iter t) as [it|] eqn:Hi; [intros [t' Hf]%step_iter_frame; try done; intros _; by apply (roots_frame s s' k t t')|].
  intros Hs Ep. destruct (decide (s_phase s = RootScan)) as [Hp|Hp].
  - destruct (c_root _ _ Hctl Hp) as [_ Hroot]. pose proof (r_top _ (Hroot k t Hk)) as Htop. unfold step_top in Hs.
    destruct (t_top t) as [| | | | | | | | | | | | | | | | | | | | | | |[|o l]|] eqn:Et; try done.
    + destruct (_root_regions s) as [|objects l] eqn:El; injection Hs as <-; unfold roots_ok; rewrite Ep, Hp; cbn; [by left|]. right.
      eexists k, _. split; [by apply list_lookup_insert_eq; eapply lookup_lt_Some|done].
    + injection Hs as <-. by apply (roots_put s _ k t (set_top t TRoot)).
    + injection Hs as <-. by apply (roots_put s _ k t (set_top (set_scan t (Some (RootFields o 0))) (TRootObjects l))).
  - unfold roots_ok in *. rewrite decide_False in Hr by done. rewrite Ep, decide_False by done.
    destruct (step_top_marks c s k t ch s' Hk Hs) as [_ Hrr]. rewrite Hrr; [done|]. intros Et. pose proof (w_shape _ _ _ _ _ (c_work _ _ Hctl Hp k t Hk)) as Hsh. unfold shape in Hsh. by rewrite Et in Hsh.
Qed.

Lemma step_task_phase s k ch s' : step_task c ch k s = Some s' → s_phase s' = s_phase s.
Proof.
  unfold step_task. destruct (_tasks s !! k) as [t|] eqn:Hk; cbn [mbind option_bind]; [|done].
  destruct (t_deal t) as [d|] eqn:Hd; [intros [t' Hf]%step_deal_frame; try done; apply Hf|].
  destruct (t_scan t) as [sc|] eqn:Hsc; [intros [t' Hf]%step_scan_frame; try done; apply Hf|].
  destruct (t_drain t) as [d|] eqn:Hdr; [intros [t' Hf]%step_drain_frame; try done; apply Hf|].
  destruct (t_iter t) as [it|] eqn:Hi; [intros [t' Hf]%step_iter_frame; try done; apply Hf|].
  intros Hs. destruct (step_top_marks c s k t ch s' Hk Hs) as [[] _]. done.
Qed.

Lemma roots_done s : roots_ok s → (∀ k t, _tasks s !! k = Some t → t_top t = TDone) → _root_regions s = [].
Proof. unfold roots_ok. case_decide; [|done]. intros [?|(k & t & Hk & Hn)] Hd; [done|]. by destruct Hn; apply (Hd k). Qed.

(** At the end of a remark pause without overflow, the marked objects are
    closed under the edges of the snapshot. *)
Lemma remark_marked s :
  inv s → ctl s → roots_ok s → s_phase s = Remark → (∀ k t, _tasks s !! k = Some t → t_top t = TDone) → _has_overflown s = false →
  SatbQueue._n_completed_buffers (s_satb s) = 0 → ∀ x, reach x → relevant x → marked (_nextMarkBitMap s) x.
Proof.
  intros Hinv Hctl Hro Hp Hdone Ho Hn. destruct (remark_end c s Hctl Hp Hdone Ho) as (Hret & Hst & Hov & Hfin & Hcl). pose proof (roots_done s Hro Hdone) as Hrr.
  assert (Hidle : ∀ k t, _tasks s !! k = Some t → idle t) by (intros k t Hk; by destruct (Hret k t Hk) as [[] _]).
  assert (Hcov : ∀ y, covered c snap sh s y → relevant y → marked (_nextMarkBitMap s) y).
  { intros y Hc Hy. destruct (Hc Hy) as [?|[[(i & m & Hi & _ & Hnc)|Hcomp]|(k & t & Hk & Hpe)]]; [done|..]; exfalso.
    - apply Hnc. split; [done|]. apply Hcl. by eapply lookup_lt_Some.
    - pose proof (SatbQueueFacts.ws_count _ _ (v_set _ _ _ _ _ _ Hinv)) as Hw. rewrite Hn in Hw. unfold SatbQueueFacts.completed_objects in Hcomp.
      destruct (SatbQueue._completed_buffers (s_satb s)); [by apply elem_of_nil in Hcomp|cbn in Hw; lia].
    - destruct (Hidle k t Hk) as [(Hd & Hs & _) _]. unfold task_pending in Hpe. rewrite Hd, Hs in Hpe. by apply elem_of_nil in Hpe. }
  intros x Hx. induction Hx as [r Hr|x Hd Hb|x i y Hx IH He]; intros Hrel.
  - apply Hcov; [|done]. by apply (v_roots _ _ _ _ _ _ Hinv).
  - destruct Hrel as [_ Hb']. congruence.
  - apply Hcov; [|done]. destruct (below x) eqn:Hb.
    + assert (Hxr : relevant x) by (split; [destruct He as (fs & E & _); apply elem_of_dom; eauto|done]).
      destruct (v_black _ _ _ _ _ _ Hinv x i y He Hxr (IH Hxr)) as [?|[[[Hg|Hg]|(k & t & Hk & Hg)]|?]]; [done|..|congruence]; exfalso.
      * apply (relevant_in_heap c snap sh Hheap) in Hxr. lia.
      * rewrite Hst in Hg. by apply elem_of_nil in Hg.
      * destruct (Hret k t Hk) as [[_ [(Hd & Hs & Hdr) Hi] Hreg] Hq]. pose proof (k_region _ _ _ _ _ _ (v_tasks _ _ _ _ _ _ Hinv k t Hk)) as Hkr. rewrite Hreg in Hkr.
        unfold task_grey, task_held, task_scans, region_grey in Hg. rewrite Hd, Hs, Hdr, Hi, Hq, (proj1 Hkr) in Hg. destruct Hg as [Hg|[[]|[]]]. by apply elem_of_nil in Hg.
    + destruct (v_root_objects _ _ _ _ _ _ Hinv x i y He Hb) as [?|[Hg|(k & t & Hk & Hg)]]; [done|..]; exfalso.
      * rewrite Hrr in Hg. by apply elem_of_nil in Hg.
      * destruct (Hidle k t Hk) as [(Hd & Hs & Hdr) Hi]. unfold task_roots in Hg. rewrite Hs, (Hdone k t Hk) in Hg. tauto.
Qed.

Record marking_inv (s : cm_state) : Prop := mkMarkingInv {
  mi_roots : roots_ok s;
  mi_running : s_phase s ≠ Completed → inv s ∧ ctl s;
  mi_completed : s_phase s = Completed → (∀ k t, _tasks s !! k = Some t → returned t) ∧ ∀ x, reach x → relevant x → marked (_nextMarkBitMap s) x
}.

Lemma inv_task s k ch s' : inv s → ctl s → s_phase s ≠ Completed → step_task c ch k s = Some s' → inv s'.
Proof.
  intros Hinv Hctl Hnc Hs. pose proof Hs as Hs'. unfold step_task in Hs'. destruct (_tasks s !! k) as [t|] eqn:Hk; [|done].
  apply (inv_step_task c snap roots sh n_slots Hheap s k t ch s'); try done; [|by apply (ctl_ready c s k t)].
  destruct (t_deal t) as [[]|] eqn:Hd; try done. left. rewrite (ctl_gray c s k t obj hr Hctl Hnc Hk Hd).
  pose proof (k_mark _ _ _ _ _ _ (v_tasks _ _ _ _ _ _ Hinv k t Hk)) as Hm. rewrite Hd in Hm. pose proof (relevant_in_heap c snap sh Hheap _ (proj1 Hm)). lia.
Qed.

Lemma inv_next_phase s reserved s' : inv s → next_phase c reserved s = Some s' → s_phase s' ≠ Completed → inv s'.
Proof.
  intros Hinv. unfold next_phase. destruct (all_done s) eqn:Hd; cbn [negb]; [|done]. pose proof (all_done_spec s Hd) as Hdone. destruct (s_phase s); [..|done].
  - intros [= <-] _. by apply inv_start_marking.
  - intros [= <-] _. by apply inv_start_remark.
  - destruct (negb _); [done|]. destruct (_has_overflown s); intros [= <-] Hne; [|done]. pose proof (inv_reset _ _ _ _ _ Hheap s Hinv) as Hr. apply inv_start_marking.
    + apply inv_set_stack; [done|..]; cbn; case_match; try done; by apply expand_spec.
    + intros k t Hk. cbn in Hk. rewrite list_lookup_fmap in Hk. destruct (_tasks s !! k) as [u|] eqn:E; [|done]. injection Hk as <-. exact (Hdone k u E).
Qed.

Lemma no_task_step s k ch : (∀ j t, _tasks s !! j = Some t → returned t) → step_task c ch k s = None.
Proof.
  intros Hret. unfold step_task. destruct (_tasks s !! k) as [t|] eqn:Hk; [|done]. destruct (Hret k t Hk) as [Ht [(Hd & Hsc & Hdr) Hi] _].
  cbn. rewrite Hd, Hsc, Hdr, Hi. unfold step_top. by rewrite Ht.
Qed.

Lemma step_mutator_frame s a j s' :
  step_mutator c a j s = Some s' → _tasks s' = _tasks s ∧ _root_regions s' = _root_regions s ∧ _nextMarkBitMap s' = _nextMarkBitMap s.
Proof.
  unfold step_mutator. destruct (s_mutators s !! j) as [m|]; cbn [mbind option_bind]; [|done]. intros Hs. repeat (case_match; simplify_option_eq; try done).
Qed.

Lemma next_phase_frame s reserved s' :
  next_phase c reserved s = Some s' →
  (∀ k t, _tasks s !! k = Some t → t_top t = TDone) ∧ _root_regions s' = _root_regions s ∧ _nextMarkBitMap s' = _nextMarkBitMap s ∧ s_phase s' ≠ RootScan ∧
  (s_phase s' = Completed → s_phase s = Remark ∧ _has_overflown s = false ∧ SatbQueue._n_completed_buffers (s_satb s) = 0 ∧ _tasks s' = (λ t, set_queue t []) <$> _tasks s).
Proof.
  unfold next_phase. destruct (all_done s) eqn:Hd; cbn [negb]; [|done]. pose proof (all_done_spec s Hd) as Hdone. destruct (s_phase s) eqn:Hp; [..|done].
  - intros [= <-]. by split_and!.
  - intros [= <-]. by split_and!.
  - destruct (_has_overflown s) eqn:Eo; cbn [orb negb]; [intros [= <-]; by split_and!|].
    destruct (Z.eqb_spec (SatbQueue._n_completed_buffers (s_satb s)) 0); cbn [negb]; [|done]. intros [= <-]. by split_and!.
Qed.

Lemma marking_inv_step s s' : marking_inv s → step s s' → marking_inv s'.
Proof.
  intros [M1 M2 M3] Hstep. destruct Hstep as [ch k s s' Hs|a j s s' Hp Hact Hs|reserved s s' Hs].
  - pose proof (step_task_phase s k ch s' Hs) as Ep. destruct (decide (s_phase s = Completed)) as [Hc|Hnc].
    + by rewrite (no_task_step s k ch (proj1 (M3 Hc))) in Hs.
    + destruct (M2 Hnc) as [Hinv Hctl]. split; [by apply (roots_step_task s k ch)|intros _; split; [by apply (inv_task s k ch)|by apply (ctl_step_task c s k ch)]|congruence].
  - assert (Hnr : s_phase s ≠ Remark ∧ s_phase s ≠ Completed) by (destruct Hp; split; congruence). destruct Hnr as [Hnr Hnc]. destruct (M2 Hnc) as [Hinv Hctl].
    destruct (ctl_step_mutator c s a j s' Hctl Hnr Hs) as [Hctl' Ep]. destruct (step_mutator_frame s a j s' Hs) as (Et & Er & _).
    split; [|intros _; split; [by apply (inv_step_mutator c snap roots sh n_slots Hheap s a j)|done]|congruence]. apply (roots_same s); try done. rewrite Et. eauto.
  - destruct (next_phase_frame s reserved s' Hs) as (Hdone & Er & Eb & Hnroot & Hcomp). destruct (decide (s_phase s = Completed)) as [Hc|Hnc].
    { unfold next_phase in Hs. rewrite Hc in Hs. by destruct (negb _). }
    destruct (M2 Hnc) as [Hinv Hctl]. pose proof (roots_done s M1 Hdone) as Hrr. split.
    + unfold roots_ok. rewrite decide_False by done. congruence.
    + intros Hne. split; [by apply (inv_next_phase s reserved)|by apply (ctl_next_phase c s reserved)].
    + intros Hc. destruct (Hcomp Hc) as (Hp & Ho & Hn & Et). rewrite Eb. split; [|by apply remark_marked].
      intros k t Hk. rewrite Et, list_lookup_fmap in Hk. destruct (_tasks s !! k) as [u|] eqn:E; [|done]. injection Hk as <-.
      destruct (returned_of c s k u Hctl Hnc E (Hdone k u E)). by split.
Qed.

Lemma marking_inv_run s0 s : initial s0 → rtc step s0 s → marking_inv s.
Proof.
  intros Hi Hrun. assert (H0 : marking_inv s0).
  { split; [by apply initial_roots|intros _; split; [by apply initial_inv|by apply initial_ctl]|]. rewrite (i_phase _ Hi). done. }
  clear Hi. induction Hrun as [|s0 s1 s2 Hs _ IH]; [done|]. apply IH. by apply (marking_inv_step s0).
Qed.

(** C1: When a marking cycle completes, every object that was reachable when
    it started - from the roots or from the objects of the root regions - and
    that was allocated before it started, is marked: no interleaving of the
    marking tasks with each other and with the stores of the mutators, no
    stealing, no overflow of the mark stack and no restart loses an object. *)
Theorem snapshot_marked s0 s x :
  initial s0 → rtc step s0 s → s_phase s = Completed → reach x → relevant x → marked (_nextMarkBitMap s) x.
Proof. intros Hi Hrun Hc. apply (mi_completed _ (marking_inv_run s0 s Hi Hrun) Hc). Qed.

(** A task at the reset is task 0 in the concurrent phase, and every task is
    inside the overflow protocol. *)
Definition reset_alone (s : cm_state) (k : nat) : Prop :=
  k = 0%nat ∧ s_phase s = Marking ∧ _overflow (_markStack s) = true ∧
  ∀ j u, _tasks s !! j = Some u → idle u ∧ t_top u ∈ [TWait1; TReset; TClear; TEnter2; TWait2; TDone] ∧ (t_top u = TReset → j = k).

Lemma reset_by_task_zero s0 s k t :
  initial s0 → rtc step s0 s → s_phase s ≠ Completed → _tasks s !! k = Some t → t_top t = TReset → reset_alone s k.
Proof.
  intros Hi Hrun Hnc Hk Ht. destruct (mi_running _ (marking_inv_run s0 s Hi Hrun) Hnc) as [_ Hctl].
  assert (Hp : s_phase s = Marking).
  { destruct (s_phase s) eqn:Hp; try done.
    - destruct (c_root _ _ Hctl Hp) as [_ Hr]. pose proof (r_top _ (Hr k t Hk)) as H. by rewrite Ht in H.
    - pose proof (w_overflow _ _ _ _ _ (c_work _ _ Hctl ltac:(congruence) k t Hk)) as H. rewrite Ht in H. destruct H. by apply in_remark_spec. }
  destruct (c_barriers _ _ Hctl Hp) as [_ _ [[_ _ G3 _ _]|[P1 P2 P3 P4 P5 P6]]].
  { specialize (G3 k t Hk). unfold between in G3. by rewrite Ht in G3. }
  pose proof (P5 k t Hk Ht) as ->. specialize (P6 t Hk). rewrite Ht in P6. split_and!; try done. intros j u Hj.
  assert (Htop : t_top u ∈ [TWait1; TReset; TClear; TEnter2; TWait2; TDone]).
  { destruct (decide (j < n_marking c)%nat) as [Hlt|Hge]; [|rewrite (inactive_top c s j u Hctl Hp Hj) by lia; set_solver].
    specialize (P2 j u Hj Hlt). unfold in_first, between, in_second in P2. rewrite !elem_of_cons. destruct (t_top u); try done; tauto. }
  split_and!; [|done|intros Hr; by rewrite (P5 j u Hj Hr)]. pose proof (w_shape _ _ _ _ _ (c_work _ _ Hctl ltac:(congruence) j u Hj)) as Hsh. unfold shape in Hsh.
  rewrite !elem_of_cons, elem_of_nil in Htop. by destruct Htop as [E|[E|[E|[E|[E|[E|[]]]]]]]; rewrite E in Hsh.
Qed.

(** *** The global finger *)

Lemma step_satb_finger s k t again stage ch s' : step_satb c ch k t again stage s = Some s' → _global_finger s' = _global_finger s.
Proof. intros Hs. unfold step_satb in Hs. repeat (case_match; simplify_option_eq; try done). Qed.

Lemma step_top_finger s k t ch s' : _tasks s !! k = Some t → step_top c ch k t s = Some s' → t_top t ≠ TReset → _global_finger s <= _global_finger s'.
Proof.
  intros Hk Hs Hne. unfold step_top in Hs. destruct (t_top t) as [|again stage| | | | | |f| | | | | |g| | | | | | | | | |[|obj l]|] eqn:Htop; try done.
  2: rewrite (step_satb_finger _ _ _ _ _ _ _ Hs); lia.
  7:{ destruct (heap_region_containing_raw c f) as [i|] eqn:Ei; cbn [mbind option_bind] in Hs; [|done]. destruct (region_inv c f i Ei) as (hr & Er & Hb). rewrite Er in Hs. cbn [mbind option_bind] in Hs.
      destruct (Z.eqb_spec (_global_finger s) f) as [E|]; injection Hs as <-; cbn; lia. }
  all: simplify_option_eq; try (cbn; lia); repeat (case_match; simplify_option_eq; try (cbn; lia)).
Qed.

Lemma step_task_finger s k ch s' : step_task c ch k s = Some s' →
  _global_finger s <= _global_finger s' ∨ ∃ t, _tasks s !! k = Some t ∧ t_top t = TReset.
Proof.
  unfold step_task. destruct (_tasks s !! k) as [t|] eqn:Hk; cbn [mbind option_bind]; [|done]. intros Hs.
  assert (Hfr : (∃ t', frame c s s' k t t') → _global_finger s <= _global_finger s') by (intros [t' Hf]; rewrite (f_finger _ _ _ _ _ _ Hf); lia).
  destruct (t_deal t) as [d|] eqn:Hd; [left; apply Hfr; by eapply step_deal_frame|].
  destruct (t_scan t) as [sc|] eqn:Hsc; [left; apply Hfr; by eapply step_scan_frame|].
  destruct (t_drain t) as [d|] eqn:Hdr; [left; apply Hfr; by eapply step_drain_frame|].
  destruct (t_iter t) as [it|] eqn:Hi; [left; apply Hfr; by eapply step_iter_frame|].
  assert (Hdec : t_top t = TReset ∨ t_top t ≠ TReset) by (destruct (t_top t); auto). destruct Hdec as [E|Hne]; [right; by exists t|left]. by apply (step_top_finger s k t ch).
Qed.

Lemma step_mutator_finger s a j s' : step_mutator c a j s = Some s' → _global_finger s' = _global_finger s.
Proof.
  unfold step_mutator. destruct (s_mutators s !! j) as [m|]; cbn [mbind option_bind]; [|done]. intros Hs. repeat (case_match; simplify_option_eq; try done).
Qed.

Lemma next_phase_finger s reserved s' : next_phase c reserved s = Some s' → _global_finger s' = _global_finger s ∨ s_phase s = Remark ∧ s_phase s' ≠ Remark.
Proof.
  unfold next_phase. destruct (negb (all_done s)); [done|]. destruct (s_phase s); [intros [= <-]; by left|intros [= <-]; by left| |done].
  destruct (negb _); [done|]. intros [= <-]. right. split; [done|]. by destruct (_has_overflown s).
Qed.

(** C7: When the marking state (mark stack, task queues and global finger) is
    reset, no task is marking, scanning, draining or stealing, so no grey
    object that a task holds is lost. There are two resets. The one of the
    overflow protocol is done by task 0 only, in the concurrent phase, while
    every task is inside the protocol. The one at the end of remark, before
    marking completes or is restarted, is done when every task has returned.
    The global finger moves back at no other step. *)
Theorem overflow_reset_exclusive s0 s s' :
  initial s0 → rtc step s0 s → step s s' →
  (∀ k t, _tasks s !! k = Some t → t_top t = TReset → reset_alone s k) ∧
  (s_phase s = Remark → s_phase s' ≠ Remark → ∀ j u, _tasks s !! j = Some u → idle u ∧ t_top u = TDone) ∧
  (_global_finger s' < _global_finger s →
    (∃ k t, _tasks s !! k = Some t ∧ t_top t = TReset) ∨ s_phase s = Remark ∧ s_phase s' ≠ Remark).
Proof.
  intros Hi Hrun Hstep. pose proof (marking_inv_run s0 s Hi Hrun) as M.
  assert (Hnc : s_phase s ≠ Completed).
  { intros Hc. destruct (mi_completed _ M Hc) as [Hret _]. destruct Hstep as [ch k s s' Hs|a j s s' Hp _ _|reserved s s' Hs].
    - by rewrite (no_task_step s k ch Hret) in Hs.
    - destruct Hp; congruence.
    - unfold next_phase in Hs. rewrite Hc in Hs. by destruct (negb _). }
  split_and!.
  - intros k t. by apply (reset_by_task_zero s0).
  - destruct (mi_running _ M Hnc) as [_ Hctl]. intros Hp Hp' j u Hj. destruct Hstep as [ch k s s' Hs|a i s s' Hph _ _|reserved s s' Hs].
    + by rewrite (step_task_phase s k ch s' Hs) in Hp'.
    + destruct Hph; congruence.
    + destruct (next_phase_frame s reserved s' Hs) as (Hdone & _). destruct (returned_of c s j u Hctl Hnc Hj (Hdone j u Hj)) as [Ht Hidle _]. by split.
  - intros Hlt. destruct Hstep as [ch k s s' Hs|a i s s' _ _ Hs|reserved s s' Hs].
    + destruct (step_task_finger s k ch s' Hs) as [|(t & Hk & Ht)]; [lia|]. left. by exists k, t.
    + rewrite (step_mutator_finger s a i s' Hs) in Hlt. lia.
    + destruct (next_phase_finger s reserved s' Hs) as [E|]; [lia|by right].
Qed.

(** ** Cards *)

(** The index behind the last card of a block that ends at [addr]. *)
Definition card_limit (addr : Z) : Z :=
  let idx := card_bitmap_index_for c addr in if is_in_g1_reserved c addr && negb (is_card_aligned addr) then idx + 1 else idx.

Lemma card_index_mono a b : a <= b → card_bitmap_index_for c a <= card_bitmap_index_for c b.
Proof. intros H. unfold card_bitmap_index_for, card_shift, HeapWordSize. rewrite !Z.shiftr_div_pow2 by done. apply Z.sub_le_mono_r, Z.div_le_mono; lia. Qed.

Lemma card_index_nonneg a : _heap_start c <= a → 0 <= card_bitmap_index_for c a.
Proof. intros H%card_index_mono. unfold card_bitmap_index_for at 1 in H. lia. Qed.

Lemma card_limit_le addr : card_bitmap_index_for c addr <= card_limit addr.
Proof. unfold card_limit. case_match; lia. Qed.

Lemma set_cards_spec n : ∀ m i, sane m → 0 <= i → i + Z.of_nat n <= capacity m →
  ∃ m', set_cards n m i = Some m' ∧ updates m (put_between i (i + Z.of_nat n) true) m'.
Proof.
  induction n as [|n IH]; intros m i Hm Hi Hn; cbn [set_cards].
  - exists m. split; [done|]. apply updates_refl; [done|]. intros k b _. unfold put_between. BitMapFacts.cases_Z; (done || lia).
  - destruct (at_put_spec m i true Hm) as (m1 & E1 & U1); [lia|]. unfold BitMap.at_put in E1. rewrite E1. cbn [mbind option_bind].
    destruct (IH m1 (i + 1)) as (m2 & E2 & U2); [apply U1|lia|unfold capacity; rewrite (up_length _ _ _ U1); unfold capacity in Hn; lia|].
    exists m2. split; [done|]. eapply updates_ext; [eapply updates_trans; done|]. intros k b _. unfold put_between, put_at. BitMapFacts.cases_Z; (done || lia).
Qed.

Lemma set_card_bitmap_range_spec m a b : sane m → 0 <= a <= MIN2 b (BitMap._size m) →
  ∃ m', set_card_bitmap_range m a b = Some m' ∧ updates m (put_between a (MIN2 b (BitMap._size m)) true) m'.
Proof.
  intros Hm Ha. unfold set_card_bitmap_range. pose proof (sane_size _ Hm). set (e := MIN2 b _) in *. assert (e <= BitMap._size m) by (unfold e, MIN2; case_match; lia).
  destruct (_ <=? 8).
  - destruct (set_cards_spec (Z.to_nat (e - a)) m a) as (m' & E & U); [done|lia|lia|]. exists m'. split; [done|]. by replace (a + _) with e in U by lia.
  - apply (at_put_range_spec m a e true); (done || lia).
Qed.

(** The loop that copies the cards of a task into the global bitmap. *)
Lemma union_cards_spec tm limit fuel : ∀ m scan, sane tm → sane m → 0 <= scan <= limit → limit <= capacity tm → limit <= capacity m →
  (Z.to_nat (limit - scan) < fuel)%nat → (scan < limit → bit tm scan = true) →
  ∃ m', union_cards fuel tm m scan limit = Some m' ∧ updates m (λ k b, b || ((scan <=? k) && (k <? limit) && bit tm k)) m'.
Proof.
  induction fuel as [|fuel IH]; intros m scan Ht Hm Hs Hct Hcm Hf Hbit; [lia|]. cbn [union_cards]. destruct (Z.ltb_spec scan limit) as [Hlt|Hge].
  2:{ exists m. split; [done|]. apply updates_refl; [done|]. intros k b _. BitMapFacts.cases_Z; try lia; by rewrite orb_false_r. }
  destruct (at_put_spec m scan true Hm) as (m1 & E1 & U1); [lia|]. unfold BitMap.at_put in E1. rewrite E1. cbn [mbind option_bind].
  replace (MIN2 (scan + 1) limit) with (scan + 1) by (unfold MIN2; case_match; lia).
  destruct (get_next_offset_spec true tm (scan + 1) limit Ht) as (next & E2 & [Hr Hbefore Hfound]); [lia|done|]. cbn [get_next_offset] in E2. rewrite E2. cbn [mbind option_bind].
  destruct (IH m1 next) as (m2 & E3 & U2); [done|apply U1|lia|done|unfold capacity in *; rewrite (up_length _ _ _ U1); done|lia|intros ?; by apply has_true, Hfound|].
  exists m2. split; [done|]. eapply updates_ext; [eapply updates_trans; done|]. intros k b Hk. cbn beta. unfold put_at. specialize (Hbit Hlt).
  destruct (Z.eqb_spec k scan) as [->|Hne]; [rewrite Hbit; BitMapFacts.cases_Z; try lia; by destruct b|]. f_equal. BitMapFacts.cases_Z; try done; try lia.
  symmetry. apply (has_false tm true), Hbefore. lia.
Qed.

(** ** Counting *)

Context (n_cards : Z).
Hypothesis Hcards : ∀ i hr, regions c !! i = Some hr → card_limit (next_top_at_mark_start hr) <= n_cards.

(** The bytes of the marked object at [offset], if it is in region [i]. *)
Definition object_bytes (i : nat) (offset : Z) : Z :=
  let x := addr_of c sh offset in if bool_decide (heap_region_containing_raw c x = Some i) then size c x * HeapWordSize else 0.
Definition marked_bytes (i : nat) (s : cm_state) : Z := sum_by (object_bytes i) (elements (bits (_nextMarkBitMap s))).
Definition task_bytes (i : nat) (n : Counts) : Z := default 0 (_marked_bytes_array n !! i).

(** The cards of an object, in a bitmap of [n_cards] cards. *)
Definition spans (x k : Z) : Prop := card_bitmap_index_for c x <= k < MIN2 (card_limit (x + size c x)) n_cards.

Record counts_ok (n : Counts) : Prop := mkCountsOk {
  co_bytes : length (_marked_bytes_array n) = length (regions c);
  co_cards : sane (_card_bm n);
  co_size : BitMap._size (_card_bm n) = n_cards
}.

Definition all_counts (s : cm_state) : list Counts := t_counts <$> _tasks s.

(** The tasks have counted what is marked: the bytes, and the cards. *)
Record counted (s : cm_state) : Prop := mkCounted {
  cn_tables : ∀ n, n ∈ all_counts s → counts_ok n;
  cn_bytes : ∀ i, u64 (sum_by (task_bytes i) (all_counts s)) = u64 (marked_bytes i s);
  cn_cards : ∀ k, 0 <= k → (∃ n, n ∈ all_counts s ∧ bit (_card_bm n) k = true) ↔ ∃ x, relevant x ∧ marked (_nextMarkBitMap s) x ∧ spans x k
}.

Lemma counted_same s s' : _nextMarkBitMap s' = _nextMarkBitMap s → all_counts s' = all_counts s → counted s → counted s'.
Proof. intros E1 E2 [H1 H2 H3]. split; unfold marked_bytes; by rewrite ?E2, ?E1. Qed.

Lemma count_object_bytes y hr n n' i :
  count_object c y hr n = Some n' → u64 (task_bytes i n') = u64 (task_bytes i n + if bool_decide (hr = i) then size c y * HeapWordSize else 0).
Proof.
  unfold count_object, count_region, task_bytes. destruct (_marked_bytes_array n !! hr) as [b|] eqn:Eb; cbn [mbind option_bind]; [|done].
  destruct (set_card_bitmap_range _ _ _) as [cb|]; cbn [mbind option_bind]; [|done]. intros [= <-]. cbn. case_bool_decide as Hi.
  - subst hr. rewrite list_lookup_insert_eq, Eb by by eapply lookup_lt_Some. cbn. rewrite !u64_mod, Zmod_mod. f_equal. lia.
  - rewrite list_lookup_insert_ne by done. by rewrite Z.add_0_r.
Qed.

Lemma card_range y : relevant y → 0 <= card_bitmap_index_for c y <= MIN2 (card_limit (y + size c y)) n_cards.
Proof.
  intros Hy. destruct (relevant_region c snap sh Hheap y Hy) as (i & hr & _ & Hi & Hlt & _). pose proof (relevant_in_heap c snap sh Hheap y Hy) as [Hh _].
  pose proof (ho_size _ _ _ Hheap y (proj1 Hy)). split; [by apply card_index_nonneg|]. pose proof (card_limit_le (y + size c y)). pose proof (card_limit_le (next_top_at_mark_start hr)).
  pose proof (Hcards i hr Hi). pose proof (card_index_mono y (y + size c y)). pose proof (card_index_mono y (next_top_at_mark_start hr)). unfold MIN2. case_match; lia.
Qed.

Lemma count_object_cards y hr n n' : relevant y → counts_ok n → count_object c y hr n = Some n' →
  counts_ok n' ∧ ∀ k, 0 <= k → bit (_card_bm n') k = true ↔ bit (_card_bm n) k = true ∨ spans y k.
Proof.
  intros Hy [H1 H2 H3]. pose proof (card_range y Hy) as Hr. unfold count_object, count_region. fold (card_limit (y + size c y)).
  destruct (_marked_bytes_array n !! hr) as [b|] eqn:Eb; cbn [mbind option_bind]; [|done].
  destruct (set_card_bitmap_range_spec (_card_bm n) (card_bitmap_index_for c y) (card_limit (y + size c y)) H2) as (m' & E & U); [by rewrite H3|].
  rewrite E. cbn [mbind option_bind]. intros [= <-]. cbn. rewrite H3 in U. split; [split; cbn; [by rewrite length_insert|apply U|by rewrite (up_size _ _ _ U)]|].
  intros k Hk. rewrite (up_bits _ _ _ U) by done. unfold spans, put_between. BitMapFacts.cases_Z; intuition lia.
Qed.

Lemma exists_insert {A} (P : A → Prop) (l : list A) (k : nat) (n n' : A) : l !! k = Some n → (P n → P n') → (∃ m, m ∈ <[k := n']> l ∧ P m) ↔ (∃ m, m ∈ l ∧ P m) ∨ P n'.
Proof.
  intros Hk Hmono. split.
  - intros (m & Hm & HP). apply BitMapFacts.elem_of_insert_cases in Hm as [->|Hm]; [by right|left; by exists m].
  - intros [(m & [j Hj]%list_elem_of_lookup & HP)|HP].
    + destruct (decide (j = k)) as [->|Hne]; [exists n'; split; [|apply Hmono; congruence]|exists m; split; [|done]]; apply list_elem_of_lookup.
      * exists k. apply list_lookup_insert_eq. by eapply lookup_lt_Some.
      * exists j. by rewrite list_lookup_insert_ne by done.
    + exists n'. split; [|done]. apply list_elem_of_lookup. exists k. apply list_lookup_insert_eq. by eapply lookup_lt_Some.
Qed.

(** What a task that marks an object has done. *)
Lemma mark_result s s' k t t' y hr :
  inv s → _tasks s !! k = Some t → t_deal t = Some (MarkObj y hr) ∨ t_deal t = Some (GrayMark y hr) →
  par_mark_and_count c (_nextMarkBitMap s) y hr (t_counts t) = Some (true, _nextMarkBitMap s', t_counts t') →
  relevant y ∧ heap_region_containing_raw c y = Some hr ∧ ¬ marked (_nextMarkBitMap s) y ∧
    count_object c y hr (t_counts t) = Some (t_counts t') ∧ bits (_nextMarkBitMap s') = {[off c sh y]} ∪ bits (_nextMarkBitMap s).
Proof.
  intros Hinv Hk Hd Hm. pose proof (k_mark _ _ _ _ _ _ (v_tasks _ _ _ _ _ _ Hinv k t Hk)) as Hy.
  assert (Hyr : relevant y ∧ heap_region_containing_raw c y = Some hr) by (destruct Hd as [E|E]; by rewrite E in Hy). destruct Hyr as [Hrel Hreg].
  unfold par_mark_and_count in Hm. destruct (parMark_spec c snap sh Hheap _ y (v_bitmap _ _ _ _ _ _ Hinv) (relevant_in_heap c snap sh Hheap y Hrel)) as (b' & E & _ & Hbits).
  rewrite E in Hm. cbn [mbind option_bind] in Hm. destruct (bool_decide_reflect (marked (_nextMarkBitMap s) y)) as [|Hnm]; cbn [negb] in Hm; [done|].
  destruct (count_object c y hr (t_counts t)) as [n|] eqn:En; cbn [mbind option_bind] in Hm; [|done]. injection Hm as E1 E2. subst b' n. by split_and!.
Qed.

Lemma off_of_relevant x : relevant x → addr_of c sh (off c sh x) = x.
Proof. intros Hx. apply (addr_of_off c snap sh Hheap), (ho_aligned _ _ _ Hheap), Hx. Qed.

Lemma counted_mark s s' k t t' y hr :
  inv s → counted s → _tasks s !! k = Some t → _tasks s' = <[k := t']> (_tasks s) → t_deal t = Some (MarkObj y hr) ∨ t_deal t = Some (GrayMark y hr) →
  par_mark_and_count c (_nextMarkBitMap s) y hr (t_counts t) = Some (true, _nextMarkBitMap s', t_counts t') → counted s'.
Proof.
  intros Hinv [C1 C2 C3] Hk Hk' Hd Hm. destruct (mark_result s s' k t t' y hr Hinv Hk Hd Hm) as (Hrel & Hreg & Hnm & Hcount & Hbits).
  assert (Hl : all_counts s !! k = Some (t_counts t)) by (unfold all_counts; by rewrite list_lookup_fmap, Hk).
  assert (Hl' : all_counts s' = <[k := t_counts t']> (all_counts s)) by (unfold all_counts; by rewrite Hk', list_fmap_insert).
  destruct (count_object_cards y hr _ _ Hrel (C1 _ ltac:(by eapply list_elem_of_lookup_2)) Hcount) as [Hok Hcard]. split.
  - intros n. rewrite Hl'. intros [->|Hn]%BitMapFacts.elem_of_insert_cases; [done|by apply C1].
  - intros i. pose proof (count_object_bytes y hr _ _ i Hcount) as Hb. rewrite Hl', (sum_by_insert _ _ _ (t_counts t)) by done.
    assert (Hsum : marked_bytes i s' = object_bytes i (off c sh y) + marked_bytes i s).
    { unfold marked_bytes. rewrite Hbits, elements_disj_union, elements_singleton by (apply disjoint_singleton_l; done). by rewrite sum_by_app; cbn; lia. }
    assert (Hobj : object_bytes i (off c sh y) = if bool_decide (hr = i) then size c y * HeapWordSize else 0).
    { unfold object_bytes. rewrite off_of_relevant, Hreg by done. apply (f_equal (λ b : bool, if b then _ else _)). apply bool_decide_ext. naive_solver. }
    rewrite Hsum, Hobj. specialize (C2 i). rewrite !u64_mod in *. set (d := if bool_decide (hr = i) then _ else 0) in *.
    rewrite <- Zplus_mod_idemp_r, Hb, Zplus_mod_idemp_r. replace (sum_by _ _ - _ + _) with (sum_by (task_bytes i) (all_counts s) + d) by lia.
    by rewrite <- Zplus_mod_idemp_l, C2, Zplus_mod_idemp_l, Z.add_comm.
  - intros j Hj. rewrite Hl', (exists_insert (λ n, bit (_card_bm n) j = true) _ _ (t_counts t)) by (done || (intros; apply Hcard; tauto)). rewrite (C3 j Hj), (Hcard j Hj).
    assert (Hmk : ∀ x, relevant x → marked (_nextMarkBitMap s') x ↔ x = y ∨ marked (_nextMarkBitMap s) x).
    { intros x Hx. unfold ConcMarkFacts.marked. rewrite Hbits, elem_of_union, elem_of_singleton. split; [intros [E|]; [left|by right]|intros [->|]; auto].
      rewrite <- (off_of_relevant x), E by done. by apply off_of_relevant. }
    split.
    + intros [(x & Hx & Hmx & Hs)|[Ht|Hs]]; [exists x; split_and!; try done; apply Hmk; auto| |exists y; split_and!; try done; apply Hmk; auto].
      destruct (proj1 (C3 j Hj)) as (x & Hx & Hmx & Hs); [exists (t_counts t); split; [by eapply list_elem_of_lookup_2|done]|]. exists x. split_and!; try done. apply Hmk; auto.
    + intros (x & Hx & [->|Hmx]%Hmk & Hs); [by right; right|left; by exists x|done].
Qed.

(** A step of a task leaves the marks and the counts as they are, or marks
    one object and counts it. *)
Lemma task_marks s k ch s' : step_task c ch k s = Some s' →
  _nextMarkBitMap s' = _nextMarkBitMap s ∧ all_counts s' = all_counts s ∨
  ∃ t t' y hr, _tasks s !! k = Some t ∧ _tasks s' = <[k := t']> (_tasks s) ∧ (t_deal t = Some (MarkObj y hr) ∨ t_deal t = Some (GrayMark y hr)) ∧
    par_mark_and_count c (_nextMarkBitMap s) y hr (t_counts t) = Some (true, _nextMarkBitMap s', t_counts t').
Proof.
  unfold step_task. destruct (_tasks s !! k) as [t|] eqn:Hk; cbn [mbind option_bind]; [|done]. intros Hs.
  assert (Hframe : (∃ t', frame c s s' k t t') ∨ same_marks s s').
  { destruct (t_deal t) as [d|] eqn:Hd; [left; by eapply step_deal_frame|].
    destruct (t_scan t) as [sc|] eqn:Hsc; [left; by eapply step_scan_frame|].
    destruct (t_drain t) as [d|] eqn:Hdr; [left; by eapply step_drain_frame|].
    destruct (t_iter t) as [it|] eqn:Hi; [left; by eapply step_iter_frame|]. right. by destruct (step_top_marks c s k t ch s' Hk Hs). }
  destruct Hframe as [[t' Hf]|[E1 E2 _]]; [|by left]. destruct (f_marks _ _ _ _ _ _ Hf) as [[E1 E2]|(y & hr & Hd & Hm)].
  - left. split; [done|]. unfold all_counts. rewrite (f_tasks _ _ _ _ _ _ Hf), list_fmap_insert, E2. apply list_insert_id. by rewrite list_lookup_fmap, Hk.
  - right. exists t, t', y, hr. split_and!; try done. apply Hf.
Qed.

Lemma counted_task s k ch s' : inv s → counted s → step_task c ch k s = Some s' → counted s'.
Proof.
  intros Hinv Hc [[E1 E2]|(t & t' & y & hr & Hk & Hk' & Hd & Hm)]%task_marks; [by apply (counted_same s)|]. by apply (counted_mark s s' k t t' y hr).
Qed.

Lemma start_counts n pc l : t_counts <$> start_tasks n pc l = t_counts <$> l.
Proof. revert n. induction l as [|t l IH]; intros [|n]; cbn; try done. by rewrite IH. Qed.

Lemma next_phase_counts s reserved s' : next_phase c reserved s = Some s' → all_counts s' = all_counts s.
Proof.
  unfold next_phase, all_counts. destruct (negb (all_done s)); [done|]. destruct (s_phase s); [..|done].
  - intros [= <-]. apply start_counts.
  - intros [= <-]. apply start_counts.
  - destruct (negb _); [done|]. destruct (_has_overflown s); intros [= <-]; cbn; rewrite ?start_counts; by rewrite <- list_fmap_compose.
Qed.

(** The marked bits are objects of the snapshot, and they are counted. *)
Definition count_inv (s : cm_state) : Prop := (∀ o, o ∈ bits (_nextMarkBitMap s) → ∃ x, relevant x ∧ off c sh x = o) ∧ counted s.

Lemma count_inv_step s s' : marking_inv s → marking_inv s' → count_inv s → step s s' → count_inv s'.
Proof.
  intros M M' [Hb Hc] Hstep. assert (Hmarks : s_phase s' ≠ Completed → ∀ o, o ∈ bits (_nextMarkBitMap s') → ∃ x, relevant x ∧ off c sh x = o).
  { intros Hn. apply (v_marks c snap roots sh n_slots s'). by apply (mi_running _ M'). }
  destruct Hstep as [ch k s s' Hs|a j s s' Hp Hact Hs|reserved s s' Hs].
  - pose proof (step_task_phase s k ch s' Hs) as Ep. destruct (decide (s_phase s = Completed)) as [Hcm|Hnc].
    + by rewrite (no_task_step s k ch (proj1 (mi_completed _ M Hcm))) in Hs.
    + split; [apply Hmarks; congruence|]. apply (counted_task s k ch); try done. by apply (mi_running _ M).
  - destruct (step_mutator_frame s a j s' Hs) as (Et & _ & Eb). split; [by rewrite Eb|]. apply (counted_same s); try done. unfold all_counts. by rewrite Et.
  - destruct (next_phase_frame s reserved s' Hs) as (_ & _ & Eb & _). split; [by rewrite Eb|]. apply (counted_same s); try done. by apply (next_phase_counts s reserved).
Qed.

Lemma count_inv_run s0 s : initial s0 → counted s0 → rtc step s0 s → count_inv s.
Proof.
  intros Hi Hc Hrun. assert (H0 : count_inv s0) by (split; [apply Hi|done]). pose proof (marking_inv_run s0 s0 Hi (rtc_refl _ _)) as M0. clear Hi Hc.
  induction Hrun as [|s0 s1 s2 Hs _ IH]; [done|]. pose proof (marking_inv_step s0 s1 M0 Hs) as M1. apply IH; [by apply (count_inv_step s0)|done].
Qed.

Lemma aggregate_tasks_bytes i start_idx limit_idx l : ∀ m card b card', aggregate_tasks i start_idx limit_idx l m card = Some (b, card') →
  u64 b = u64 (m + sum_by (task_bytes i) l) ∧ (m = u64 m → b = u64 b).
Proof.
  induction l as [|n l IH]; intros m card b card'; cbn [aggregate_tasks sum_by]; [intros [= <- <-]; by rewrite Z.add_0_r|].
  destruct (_marked_bytes_array n !! i) as [bytes|] eqn:En; cbn [mbind option_bind]; [|done]. destruct (BitMap.get_next_one_offset _ _ _); cbn [mbind option_bind]; [|done].
  destruct (union_cards _ _ _ _ _) as [cb|]; cbn [mbind option_bind]; [|done]. intros [H1 H2]%IH. split.
  - rewrite H1. unfold task_bytes at 2. rewrite En. cbn. rewrite !u64_mod, Zplus_mod_idemp_l. f_equal. lia.
  - intros _. apply H2. rewrite !u64_mod. by rewrite Zmod_mod.
Qed.

Lemma aggregate_tasks_cards i start_idx limit_idx l : (i < length (regions c))%nat → 0 <= start_idx <= limit_idx → limit_idx <= n_cards → (∀ n, n ∈ l → counts_ok n) →
  ∀ m card, sane card → limit_idx <= capacity card → ∃ b card', aggregate_tasks i start_idx limit_idx l m card = Some (b, card') ∧
    updates card (λ k x, x || ((start_idx <=? k) && (k <? limit_idx) && existsb (λ n, bit (_card_bm n) k) l)) card'.
Proof.
  intros Hi Hs Hn. induction l as [|n l IH]; intros Hl m card Hc Hcap; cbn [aggregate_tasks existsb].
  - exists m, card. split; [done|]. apply updates_refl; [done|]. intros k b _. by rewrite andb_false_r, orb_false_r.
  - destruct (Hl n) as [H1 H2 H3]; [by left|]. pose proof (sane_size _ H2) as Hsz. destruct (lookup_lt_is_Some_2 (_marked_bytes_array n) i) as [bytes Eb]; [lia|]. rewrite Eb. cbn [mbind option_bind].
    destruct (get_next_offset_spec true (_card_bm n) start_idx limit_idx H2) as (scan & E1 & [Hr Hbefore Hfound]); [done|lia|]. cbn [get_next_offset] in E1. rewrite E1. cbn [mbind option_bind].
    destruct (union_cards_spec (_card_bm n) limit_idx (S (Z.to_nat (limit_idx - start_idx))) card scan) as (c1 & E2 & U1); [done|done|lia|lia|done|lia|intros; by apply has_true, Hfound|].
    rewrite E2. cbn [mbind option_bind]. destruct (IH ltac:(intros; apply Hl; by right) (u64 (m + bytes)) c1) as (b & c2 & E3 & U2); [apply U1|unfold capacity in *; by rewrite (up_length _ _ _ U1)|].
    exists b, c2. split; [done|]. eapply updates_ext; [eapply updates_trans; done|]. intros k x Hk. cbn beta. rewrite <- orb_assoc. f_equal. rewrite andb_orb_distrib_r. f_equal.
    destruct (Z.ltb_spec k scan) as [Hlt|Hge]; [|by BitMapFacts.cases_Z; try lia]. destruct (Z.leb_spec start_idx k); [|BitMapFacts.cases_Z; (done || lia)].
    rewrite (proj1 (has_false (_card_bm n) true k)) by (apply Hbefore; lia). cbn. by rewrite !andb_false_r.
Qed.

Lemma empty_region_bytes s i hr : (∀ o, o ∈ bits (_nextMarkBitMap s) → ∃ x, relevant x ∧ off c sh x = o) →
  regions c !! i = Some hr → bottom hr = next_top_at_mark_start hr → marked_bytes i s = 0.
Proof.
  intros Hb Hr He. unfold marked_bytes. assert (E : sum_by (object_bytes i) (elements (bits (_nextMarkBitMap s))) = sum_by (λ _, 0) (elements (bits (_nextMarkBitMap s)))).
  { apply sum_by_ext. intros o Ho. rewrite elem_of_elements in Ho. destruct (Hb o Ho) as (x & Hx & <-). unfold object_bytes.
    rewrite off_of_relevant by done. case_bool_decide as Hri; [|done].
    destruct (relevant_region c snap sh Hheap x Hx) as (j & hr' & E1 & E2 & Hlt & _). assert (j = i) as -> by congruence. assert (hr' = hr) as -> by congruence. lia. }
  rewrite E. generalize (elements (bits (_nextMarkBitMap s))). induction l; cbn; lia.
Qed.

(** C8: The counting data that the tasks collect while they mark is exact,
    whatever task marked an object and however often marking was restarted:
    [AggregateCountDataHRClosure] never faults on a region, the bytes it adds
    up are, in machine arithmetic, the sizes of the marked objects of the
    region, and the cards it sets below the top at mark start of the region
    are exactly the cards that marked objects span. *)
Theorem marked_objects_counted s0 s i hr card :
  initial s0 → counted s0 → rtc step s0 s → regions c !! i = Some hr → sane card → n_cards <= BitMap._size card →
  ∃ card', aggregate_region c i hr s card = Some (u64 (marked_bytes i s), card') ∧
    ∀ k, 0 <= k → bit card' k = true ↔ bit card k = true ∨
      bottom hr < next_top_at_mark_start hr ∧ card_bitmap_index_for c (bottom hr) <= k < card_limit (next_top_at_mark_start hr) ∧
      ∃ x, relevant x ∧ marked (_nextMarkBitMap s) x ∧ spans x k.
Proof.
  intros Hi Hc Hrun Hr Hcard Hsize. destruct (count_inv_run s0 s Hi Hc Hrun) as [Hb [C1 C2 C3]]. pose proof (sane_size _ Hcard).
  destruct (tiled_lookup _ _ _ _ _ (ho_tiled _ _ _ Hheap) Hr) as (Hlo & _ & Hn & _). unfold aggregate_region. fold (card_limit (next_top_at_mark_start hr)).
  destruct (Z.eqb_spec (bottom hr) (next_top_at_mark_start hr)) as [He|Hne].
  { exists card. rewrite (empty_region_bytes s i hr) by done. split; [done|]. intros k _. split; [auto|intros [|[? _]]; [done|lia]]. }
  pose proof (card_limit_le (next_top_at_mark_start hr)). pose proof (card_index_mono (bottom hr) (next_top_at_mark_start hr) ltac:(lia)). pose proof (Hcards i hr Hr).
  destruct (aggregate_tasks_cards i (card_bitmap_index_for c (bottom hr)) (card_limit (next_top_at_mark_start hr)) (all_counts s)) with (m := 0) (card := card) as (b & card' & E & U);
    [by eapply lookup_lt_Some|split; [by apply card_index_nonneg|lia]|done|done|done|lia|].
  destruct (aggregate_tasks_bytes i _ _ _ _ _ _ _ E) as [E1 E2]. unfold all_counts in E. rewrite E. exists card'. rewrite E2, E1, Z.add_0_l, C2 by done. split; [done|].
  intros k Hk. rewrite (up_bits _ _ _ U) by done. rewrite orb_true_iff, !andb_true_iff, existsb_exists, Z.leb_le, Z.ltb_lt, <- (C3 k Hk).
  setoid_rewrite list_elem_of_In. intuition lia.
Qed.

End cycle.

End ConcMarkCycle.
