(* ===== verification/ConcMarkDemo.v ===== *)
(** Concrete marking cycles: the hypotheses of the theorems of
    [ConcMarkCycle] hold for them, and a scheduler that computes runs them to
    the states the theorems speak about. In the first cycle a mutator deletes
    the only reference to an object while marking is under way; in the second
    one the mark stack overflows. *)

From S2P Require Import Prelude BitMap SatbQueue ConcMark ConcMarkFacts ConcMarkControl ConcMarkCycle.

Module ConcMarkDemo.
Import ConcMark ConcMarkFacts ConcMarkControl ConcMarkCycle.

(** ** Deciding that a heap is well formed *)

Section check.
Context (c : config) (snap : gmap Z (list Z)) (sh : Z).

Fixpoint tiledb (lo : Z) (l : list HeapRegion) (hi : Z) : bool :=
  match l with
  | [] => lo =? hi
  | r :: l => (bottom r =? lo) && (bottom r <? end_ r) && (bottom r <=? next_top_at_mark_start r) && (next_top_at_mark_start r <=? end_ r) && tiledb (end_ r) l hi
  end.
Definition alignedb (a : Z) : bool := (a - _heap_start c) mod 2 ^ sh =? 0.
Definition objects : list Z := (map_to_list snap).*1.
Definition known (y : Z) : bool := bool_decide (is_Some (snap !! y)).
Definition valid_refb (y : Z) : bool := implb (is_in_g1_reserved c y) ((y <? _heap_end c) && implb (below c y) (known y)).
Definition humongousb (x : Z) : bool :=
  match heap_region_containing_raw c x ≫= λ i, regions c !! i with Some hr => implb (isHumongous hr) (x =? bottom hr) | None => true end.

Definition heap_okb : bool :=
  tiledb (_heap_start c) (regions c) (_heap_end c) && (0 <? _heap_start c) && (_heap_end c <=? reserved_end c) && (0 <=? sh) &&
  forallb (λ x, (_heap_start c <=? x) && (x <? _heap_end c) && (0 <? size c x) && alignedb x && alignedb (x + size c x) && humongousb x) objects &&
  forallb (λ x, forallb (λ y, implb (x <? y) (x + size c x <=? y)) objects) objects &&
  forallb (λ r, alignedb (bottom r) && alignedb (next_top_at_mark_start r)) (regions c) &&
  forallb (λ p, forallb valid_refb p.2) (map_to_list snap) &&
  (local_target c true + global_stack_transfer_size <=? max_elems c) && (0 <=? local_target c true) && (global_stack_transfer_size <=? max_elems c) &&
  (G1SATBBufferEnqueueingThresholdPercent c <? 100).

Lemma tiledb_sound l : ∀ lo hi, tiledb lo l hi = true → tiled lo l hi.
Proof.
  induction l as [|r l IH]; intros lo hi; cbn; [lia|]. rewrite !andb_true_iff. intros ((((H1 & H2) & H3) & H4) & H5%IH). split_and!; try done; lia.
Qed.

Lemma elem_of_objects x : x ∈ dom snap ↔ x ∈ objects.
Proof.
  unfold objects. rewrite elem_of_dom, list_elem_of_fmap. split.
  - intros [fs E]. exists (x, fs). split; [done|]. by apply elem_of_map_to_list.
  - intros ([y fs] & -> & E%elem_of_map_to_list). by exists fs.
Qed.

Lemma forallb_elem {A} (p : A → bool) l x : forallb p l = true → x ∈ l → p x = true.
Proof. rewrite forallb_forall. intros H Hx. apply H. by apply list_elem_of_In. Qed.

Lemma known_dom y : known y = true ↔ y ∈ dom snap.
Proof. unfold known. rewrite bool_decide_eq_true, elem_of_dom. done. Qed.

Lemma valid_refb_sound y : valid_refb y = true → valid_ref c snap y.
Proof.
  unfold valid_refb, valid_ref. intros H Hr. rewrite Hr in H. cbn in H. apply andb_true_iff in H as [H1 H2]. split; [lia|]. intros Hb. rewrite Hb in H2. by apply known_dom.
Qed.

Lemma heap_okb_sound : heap_okb = true → heap_ok c snap sh.
Proof.
  unfold heap_okb. rewrite !andb_true_iff. intros (((((((((((H1 & H2) & H3) & H4) & H5) & H6) & H7) & H8) & H9) & H10) & H11) & H12).
  assert (Hobj : ∀ x, x ∈ dom snap → (_heap_start c <= x < _heap_end c) ∧ 0 < size c x ∧ aligned c sh x ∧ aligned c sh (x + size c x) ∧ humongousb x = true).
  { intros x Hx%elem_of_objects. pose proof (forallb_elem _ _ _ H5 Hx) as H. cbn in H. unfold alignedb in H. rewrite !andb_true_iff in H. unfold aligned. split_and!; try tauto; lia. }
  split; try lia.
  - by apply tiledb_sound.
  - intros x Hx. by apply Hobj.
  - intros x Hx. by apply Hobj.
  - intros x y Hx%elem_of_objects Hy%elem_of_objects Hlt. pose proof (forallb_elem _ _ _ (forallb_elem _ _ _ H6 Hx) Hy) as H. cbn in H. rewrite (proj2 (Z.ltb_lt _ _)) in H by done. cbn in H. lia.
  - intros x Hx. destruct (Hobj x Hx) as (_ & _ & ? & ? & _). done.
  - intros r Hr. pose proof (forallb_elem _ _ _ H7 Hr) as H. unfold alignedb in H. apply andb_true_iff in H. unfold aligned. lia.
  - intros x i hr [Hx _] Ei Er Hh. destruct (Hobj x Hx) as (_ & _ & _ & _ & H). unfold humongousb in H. rewrite Ei in H. cbn in H. rewrite Er, Hh in H. cbn in H. lia.
  - intros x i y (fs & E & Ey). apply elem_of_map_to_list in E. pose proof (forallb_elem _ _ _ H8 E) as H. cbn in H. apply valid_refb_sound.
    apply (forallb_elem _ _ _ H). by eapply list_elem_of_lookup_2.
Qed.

End check.

(** ** Start of a cycle with one task and one mutator *)

Definition idle_task (bytes : list Z) : CMTask :=
  mkTask (mkFields None None None) (mkLimits 0 0 0 0 0 0) (mkFlags false false false) (mkCounts bytes (BitMap.mkBitMap [1] 8)) [] None None None None TRoot.
Definition demo_queue : SatbQueue.PtrQueue := SatbQueue.mkPtrQueue true None 0 16 false.
Definition demo_set : SatbQueue.PtrQueueSet := SatbQueue.mkPtrQueueSet [] 0 false 1 (-1) 0 [] 16.

(** The heap is the words 64 to 127; [root] is marked, [rr] are the objects
    of the root regions. *)
Definition start_state (snap : gmap Z (list Z)) (root : Z) (rr : list (list Z)) (capacity : Z) (bytes : list Z) : cm_state :=
  mkState (mkCMBitMap 64 64 0 (BitMap.mkBitMap [1 <<< (root - 64)] 64)) (mkMarkStack [] capacity false false) 64 false false
    (set_n_workers 1) (set_n_workers 1) [idle_task bytes] rr demo_set [mkMutator demo_queue MIdle] [] snap RootScan.

Definition start_okb (c : config) (snap : gmap Z (list Z)) (root : Z) (rr : list (list Z)) : bool :=
  heap_okb c snap 0 && (_heap_start c =? 64) && (_heap_end c =? 128) && bool_decide (n_marking c = 1%nat) && bool_decide (n_remark c = 1%nat) &&
  known snap root && below c root && forallb (known snap) (concat rr) && forallb (λ x, below c x || bool_decide (x ∈ concat rr)) (objects snap).

Lemma root_bit root : 64 <= root < 128 → BitMapFacts.bits_of (BitMap.mkBitMap [1 <<< (root - 64)] 64) = {[root - 64]}.
Proof.
  intros Hr. apply set_eq. intros i. rewrite BitMapFacts.elem_of_bits, elem_of_singleton. unfold BitMapFacts.bit. cbn [BitMap._map].
  split; [intros [Hi Hb]|intros ->; split; [lia|]].
  - destruct (Z.to_nat (i / 64)) as [|n] eqn:E; [|done]. cbn in Hb. rewrite Z.shiftl_mul_pow2, Z.mul_1_l, Z.pow2_bits_eqb in Hb by lia.
    Z.to_euclidean_division_equations; lia.
  - rewrite (Z.div_small (root - 64)), (Z.mod_small (root - 64)) by lia. change (Z.to_nat 0) with 0%nat. cbn [lookup list_lookup]. rewrite Z.shiftl_mul_pow2, Z.mul_1_l, Z.pow2_bits_eqb by lia. lia.
Qed.

Lemma root_bitmap_ok root : 64 <= root < 128 → BitMapFacts.well_formed (BitMap.mkBitMap [1 <<< (root - 64)] 64).
Proof.
  intros Hr. assert (Hw : in_u64 (1 <<< (root - 64))).
  { unfold in_u64. rewrite Z.shiftl_mul_pow2, Z.mul_1_l by lia. pose proof (Z.pow_pos_nonneg 2 (root - 64)). pose proof (Z.pow_lt_mono_r 2 (root - 64) 64). lia. }
  split; [split|].
  - by apply Forall_singleton.
  - unfold BitMapFacts.capacity. cbn. lia.
  - unfold BitMapFacts.capacity. cbn. lia.
  - intros i Hi. apply BitMapFacts.bit_beyond. unfold BitMapFacts.capacity. cbn in *. lia.
Qed.

Lemma start_initial c snap root rr capacity bytes :
  start_okb c snap root rr = true → initial c snap [root] 0 2 (start_state snap root rr capacity bytes).
Proof.
  unfold start_okb. rewrite !andb_true_iff. intros ((((((((H1 & H2) & H3) & H4) & H5) & H6) & H7) & H8) & H9).
  apply heap_okb_sound in H1. apply bool_decide_eq_true in H4, H5. apply known_dom in H6. pose proof (ho_in_heap _ _ _ H1 root H6) as Hin.
  assert (Hr : 64 <= root < 128) by lia. assert (Hst : _heap_start c = 64) by lia. assert (Hoff : ∀ x, off c 0 x = x - 64) by (intros x; unfold off; rewrite Hst; apply Z.shiftr_0_r).
  split; cbn; try done; try lia.
  - split; try done; unfold endWord; cbn; first [lia|unfold aligned; cbn; by rewrite Hst|by apply root_bitmap_ok|by rewrite Hoff].
  - intros k. rewrite root_bit, elem_of_singleton by done. intros ->. exists root. by rewrite Hoff.
  - intros r ->%list_elem_of_singleton _. unfold marked. cbn. rewrite root_bit, Hoff by done. by apply elem_of_singleton.
  - intros [|k] t Hk; [|done]. injection Hk as <-. split; try done. by left.
  - split.
    + apply Forall_forall. intros x Hx. apply known_dom. by apply (forallb_elem _ _ _ H8).
    + intros x Hx%elem_of_objects Hb. pose proof (forallb_elem _ _ _ H9 Hx) as H. cbn in H. rewrite Hb in H. by apply bool_decide_eq_true in H.
  - right. exists 0%nat, (idle_task bytes). done.
  - split; [|done]. split; try done; cbn; try lia; constructor.
  - intros [|j] m Hj; [|done]. injection Hj as <-. split_and!; try done.
Qed.

(** ** A scheduler *)

Definition demo_choice : choice := mkChoice false false None true.

(** Task 0 runs, and the phase changes when it has returned. *)
Fixpoint drive (c : config) (fuel : nat) (s : cm_state) : cm_state :=
  match fuel with
  | O => s
  | S fuel =>
      match step_task c demo_choice 0 s with
      | Some s' => drive c fuel s'
      | None => match next_phase c true s with Some s' => drive c fuel s' | None => s end
      end
  end.

(** The mutator stores a reference: three steps. *)
Definition store (c : config) (obj : Z) (i : nat) (v : Z) (s : cm_state) : option cm_state :=
  s ← step_mutator c (StoreField obj i v) 0 s;
  s ← step_mutator c (Continue (λ _, true) [0; 0]) 0 s;
  step_mutator c (Continue (λ _, true) [0; 0]) 0 s.

Lemma drive_steps c snap fuel : ∀ s, rtc (cm_step c (valid_ref c snap) 2) s (drive c fuel s).
Proof.
  induction fuel as [|fuel IH]; intros s; cbn [drive]; [apply rtc_refl|]. destruct (step_task c demo_choice 0 s) as [s'|] eqn:E.
  - apply rtc_l with s'; [by apply (task_step _ _ _ demo_choice 0)|apply IH].
  - destruct (next_phase c true s) as [s'|] eqn:E'; [|apply rtc_refl]. apply rtc_l with s'; [by apply (phase_step _ _ _ true)|apply IH].
Qed.

Lemma store_steps c snap obj i v s s' :
  s_phase s = Marking → valid_ref c snap v → store c obj i v s = Some s' → rtc (cm_step c (valid_ref c snap) 2) s s'.
Proof.
  intros Hp Hv. unfold store. assert (Hph : ∀ a u u', step_mutator c a 0 u = Some u' → s_phase u' = s_phase u).
  { intros a u u'. unfold step_mutator. destruct (s_mutators u !! 0%nat) as [m|]; cbn [mbind option_bind]; [|done]. intros Hs. repeat (case_match; simplify_option_eq; try done). }
  destruct (step_mutator c (StoreField obj i v) 0 s) as [s1|] eqn:E1; cbn [mbind option_bind]; [|done].
  destruct (step_mutator c (Continue (λ _, true) [0; 0]) 0 s1) as [s2|] eqn:E2; cbn [mbind option_bind]; [|done]. intros E3.
  pose proof (Hph _ _ _ E1) as P1. pose proof (Hph _ _ _ E2) as P2.
  apply rtc_l with s1; [apply (mutator_step _ _ _ (StoreField obj i v) 0); [by right|done|done]|].
  apply rtc_l with s2; [apply (mutator_step _ _ _ (Continue (λ _, true) [0; 0]) 0); [right; congruence|done|done]|].
  apply rtc_once. apply (mutator_step _ _ _ (Continue (λ _, true) [0; 0]) 0); [right; congruence|done|done].
Qed.

(** ** A reference is deleted during marking *)

Definition delete_config : config :=
  mkConfig [mkRegion 64 96 96 false; mkRegion 96 128 96 false] 64 128 128 (λ _, 4) 16 0 16 60 1 1 false.
(** The root 64 refers to 72; the survivor 100 refers to 80. *)
Definition delete_snap : gmap Z (list Z) := list_to_map [(64, [72]); (72, [NULL]); (80, []); (100, [80])].
Definition delete_start : cm_state := start_state delete_snap 64 [[100]] 16 [32; 0].

(** After the root regions are scanned, field 0 of 64 is cleared, before the
    task has read it. *)
Definition delete_store : option cm_state := store delete_config 64 0 NULL (drive delete_config 9 delete_start).
Definition delete_end : cm_state := match delete_store with Some s => drive delete_config 400 s | None => delete_start end.

Lemma delete_ok : start_okb delete_config delete_snap 64 [[100]] = true.
Proof. vm_compute. reflexivity. Qed.

Lemma delete_initial : initial delete_config delete_snap [64] 0 2 delete_start.
Proof. apply start_initial, delete_ok. Qed.

Lemma delete_heap : heap_ok delete_config delete_snap 0.
Proof. apply heap_okb_sound. vm_compute. reflexivity. Qed.

Lemma delete_run : rtc (cm_step delete_config (valid_ref delete_config delete_snap) 2) delete_start delete_end.
Proof.
  unfold delete_end. destruct delete_store as [s|] eqn:E; [|apply rtc_refl]. transitivity (drive delete_config 9 delete_start); [apply drive_steps|].
  transitivity s; [|apply drive_steps]. apply (store_steps delete_config delete_snap 64 0 NULL); [vm_compute; reflexivity| |done].
  apply valid_refb_sound. vm_compute. reflexivity.
Qed.

Lemma delete_completed : s_phase delete_end = Completed.
Proof. vm_compute. reflexivity. Qed.

(** ** The mark stack overflows *)

Definition overflow_config : config := mkConfig [mkRegion 64 128 128 false] 64 128 128 (λ x, if x =? 100 then 20 else 2) 16 0 0 60 1 1 false.
Definition small_objects : list Z := (λ n, 64 + 2 * Z.of_nat n) <$> seq 0 17.
(** The root 100 refers to the seventeen small objects below it. *)
Definition overflow_snap : gmap Z (list Z) := list_to_map ((100, small_objects) :: ((λ x, (x, [])) <$> small_objects)).
Definition overflow_start : cm_state := start_state overflow_snap 100 [] 0 [160].
Definition overflow_reset : cm_state := drive overflow_config 143 overflow_start.

Definition overflow_after : cm_state := match step_task overflow_config demo_choice 0 overflow_reset with Some s => s | None => overflow_reset end.

Definition overflow_task : CMTask := match _tasks overflow_reset with t :: _ => t | [] => idle_task [] end.

(** ** The theorems at these cycles *)

(** Object 72 is marked although the last reference to it was deleted. *)
Lemma snapshot_marked_witness : s_phase delete_end = Completed ∧ marked delete_config 0 (_nextMarkBitMap delete_end) 72.
Proof.
  split; [exact delete_completed|].
  apply (snapshot_marked delete_config delete_snap [64] 0 2 delete_heap delete_start delete_end 72 delete_initial delete_run delete_completed).
  - apply (reach_field _ _ _ 64 0 72); [apply reach_root; by left|]. exists [72]. split; reflexivity.
  - split; [apply known_dom; vm_compute; reflexivity|vm_compute; reflexivity].
Defined.

Lemma overflow_reset_exclusive_witness :
  step_task overflow_config demo_choice 0 overflow_reset = Some overflow_after ∧ (_global_finger overflow_after <? _global_finger overflow_reset) = true ∧
    t_top overflow_task = TReset ∧ reset_alone overflow_reset 0.
Proof.
  assert (Hk : _tasks overflow_reset !! 0%nat = Some overflow_task) by (vm_compute; reflexivity). assert (Ht : t_top overflow_task = TReset) by (vm_compute; reflexivity).
  assert (E : step_task overflow_config demo_choice 0 overflow_reset = Some overflow_after) by (vm_compute; reflexivity).
  split; [exact E|]. split; [vm_compute; reflexivity|]. split; [exact Ht|].
  destruct (overflow_reset_exclusive overflow_config overflow_snap [100] 0 2 (heap_okb_sound overflow_config overflow_snap 0 ltac:(vm_compute; reflexivity))
    overflow_start overflow_reset overflow_after (start_initial overflow_config overflow_snap 100 [] 0 [160] ltac:(vm_compute; reflexivity))
    (drive_steps _ _ _ _) (task_step _ _ _ _ _ _ _ E)) as [Hreset _]. exact (Hreset 0%nat overflow_task Hk Ht).
Defined.

Lemma small_sane w : in_u64 w → BitMapFacts.sane (BitMap.mkBitMap [w] 8).
Proof. intros Hw. split; unfold BitMapFacts.capacity; cbn; [by apply Forall_singleton|lia|lia]. Qed.

Lemma first_card k : 0 <= k → BitMapFacts.bit (BitMap.mkBitMap [1] 8) k = true ↔ k = 0.
Proof. intros Hk. pose proof (BitMapFacts.elem_of_bits (BitMap.mkBitMap [1 <<< (64 - 64)] 64) k) as H. rewrite root_bit, elem_of_singleton in H by lia. change (64 - 64) with 0 in H. tauto. Qed.

(** The root 64 and its card are counted. *)
Lemma delete_counted : counted delete_config delete_snap 0 8 delete_start.
Proof.
  assert (Hbits : bits (_nextMarkBitMap delete_start) = {[0]}) by (apply (root_bit 64); lia).
  assert (Hspan : ∀ k, spans delete_config 8 64 k ↔ k = 0) by (intros k; change (0 <= k < 1 ↔ k = 0); lia).
  assert (Hall : ∀ n, n ∈ all_counts delete_start ↔ n = mkCounts [32; 0] (BitMap.mkBitMap [1] 8)) by (intros n; apply list_elem_of_singleton). split.
  - intros n ->%Hall. split; [done|by apply small_sane|done].
  - intros [|[|i]]; vm_compute; reflexivity.
  - intros k Hk. split.
    + intros (n & ->%Hall & Hb%first_card); [|done]. exists 64. rewrite Hspan. split_and!; [|unfold marked; rewrite Hbits; set_solver|done].
      split; [apply known_dom; vm_compute; reflexivity|vm_compute; reflexivity].
    + intros (x & _ & Hm & Hs). eexists. split; [by apply Hall|]. apply first_card; [done|]. unfold marked in Hm. rewrite Hbits, elem_of_singleton in Hm.
      unfold off in Hm. rewrite Z.shiftr_0_r in Hm. cbn in Hm. assert (x = 64) as -> by lia. by apply Hspan.
Qed.

(** Region 0 has three marked objects of 32 bytes on its first card. *)
Lemma marked_objects_counted_witness :
  ∃ card', aggregate_region delete_config 0 (mkRegion 64 96 96 false) delete_end (BitMap.mkBitMap [0] 8) = Some (96, card') ∧ BitMapFacts.bit card' 0 = true.
Proof.
  destruct (marked_objects_counted delete_config delete_snap [64] 0 2 delete_heap 8) with (s0 := delete_start) (s := delete_end) (i := 0%nat)
    (hr := mkRegion 64 96 96 false) (card := BitMap.mkBitMap [0] 8) as (card' & E & Hbits).
  - intros [|[|i]] hr; [intros [= <-]; vm_compute; congruence..|done].
  - exact delete_initial.
  - exact delete_counted.
  - exact delete_run.
  - reflexivity.
  - by apply small_sane.
  - cbn. lia.
  - exists card'. assert (Hm : u64 (marked_bytes delete_config 0 0 delete_end) = 96) by (vm_compute; reflexivity). rewrite Hm in E. split; [exact E|].
    apply Hbits; [lia|]. right. split_and!; [cbn; lia|vm_compute; congruence|vm_compute; congruence|]. exists 64. split_and!.
    + split; [apply known_dom; vm_compute; reflexivity|vm_compute; reflexivity].
    + apply BitMapFacts.elem_of_bits. split; vm_compute; (reflexivity || congruence).
    + split; vm_compute; congruence.
Defined.

End ConcMarkDemo.
